(* ===== verification/_CoqProject ===== *)
-Q . S2P
Prelude.v
Types.v
TrustedTime.v
Chain.v
Rollback.v
Utf8.v
Cbor.v
CborSpec.v
CborCanon.v
CborTheorems.v
Str.v
ArchivePath.v
Transaction.v
PublicationQueue.v
SyncClient.v
Destruction.v
Inventory.v
OperatorSession.v
Profile.v
LocalPath.v
ProfileMigration.v
ImportReport.v
CsvImport.v
MasterData.v
KeyStore.v
Draft.v
Discard.v
SearchIndex.v
IndexBlob.v
Bundle.v
ServerDb.v
GrantPlan.v
ObjectStore.v
CommitChecks.v
ServerCommit.v
IncidentNumbers.v
WriterMarker.v
WriterFinalize.v
WriterPhases.v
WriterClaims.v
WriterRecovery.v
WriterLocal.v
WriterHead.v
