(* ===== verification/Prelude.v ===== *)
(** * A verification of the Einsatzarchiv core

    The program keeps an incident diary as an archive of signed, immutable
    objects. A writer finalizes entries into hash-linked chains, publishes
    them to archives on local or network file systems, synchronizes them with
    a server and, after an authorized request, destroys them with evidence. A
    verifier reads an archive offline and reports what it proves. This library
    models the parts of that system that are logic rather than cryptography or
    platform access, in the language of the code, and proves what makes them
    correct. This file is the prelude; its own content is described at the end.

    ** How the parts interact

    Bytes enter through [ea-cbor], which accepts only deterministic encodings.
    [ea-archive] addresses, stages and inventories objects through a backend
    port, which [ea-archive-fs] implements on the file system and defers
    through a publication queue. [ea-chain] builds chains from parsed entries
    and compares them with checkpoints; [ea-time] bounds what the clock may
    claim; [ea-operator] ties actions to a present operator; [ea-destruction]
    replays signed destruction histories; [ea-sync-client] derives from the
    archive what the server still lacks; a profile change moves a whole
    archive; [ea-draft] imports master data that later entries quote, and keeps
    the one draft under a key of [ea-key-provider] until it is finalized or
    discarded; [ea-writer] finalizes it: it claims the incident number, stages
    grants and entry with a marker in the database, deletes the key of the
    draft and then publishes, and a restart goes on from the marker; [ea-index] lets a reader search what it has decrypted.

    ** Files and sources (under [src/crates])

    - [Types]: [ea-types] [ids.rs], [error.rs]. Identifiers, error classes and
      the bounded retry policy.
    - [TrustedTime]: [ea-time] [model.rs], [evaluate.rs]. The persisted floor
      and references, merging, evaluating the clock, advancing the floor.
    - [Chain], [Rollback]: [ea-chain] [node.rs], [chain.rs], [rollback.rs].
      [build_chain] with breaks, forks, gaps and verified head, and the
      comparison with checkpoint claims.
    - [Utf8], [Str]: the standard library's UTF-8 decoder and string
      operations that the crates use.
    - [Cbor], [CborSpec], [CborCanon], [CborTheorems]: [ea-cbor]. Scanner and
      re-encoder; the trees they read; canonical form; the entry points.
    - [ArchivePath], [Transaction]: [ea-archive] [layout.rs], [path.rs],
      [backend.rs], [transaction.rs]. Addresses, the backend port as a class
      with laws, and the staged commit proved against the class.
    - [PublicationQueue]: [ea-archive-fs] [publication_queue.rs].
    - [SyncClient]: [ea-sync-client] [queue.rs], [retry.rs].
    - [Destruction]: [ea-destruction] and the state table of [ea-verify].
    - [Inventory]: [ea-archive] [inventory.rs].
    - [OperatorSession]: [ea-operator] [account.rs], [session.rs].
    - [Profile]: [ea-format] [archive_profile.rs], [ea-archive] [profile.rs].
    - [LocalPath]: [ea-archive-fs] [local_path.rs] over a model disk; it
      discharges the laws of the backend port.
    - [ProfileMigration]: [ea-archive-fs] [profile_migration.rs] over
      [LocalPath], [PublicationQueue] and [OperatorSession].
    - [ImportReport], [CsvImport], [MasterData]: [ea-format]
      [import_report.rs], [ea-draft] [csv_import.rs], [master_data.rs] and
      the snapshots of [ea-schema] [model.rs].
    - [KeyStore]: [ea-key-provider] [contract.rs], [profile.rs],
      [in_memory.rs], [ea-crypto] [aead.rs]. The key port as a class with laws,
      the in-process provider as its instance, sealing and opening.
    - [Draft], [Discard]: [ea-draft] [autosave.rs], [evidence.rs], [model.rs],
      [lock.rs], [discard.rs], [fault.rs]. The repository of the one draft over
      tables, key store and random source, each call of which may fail, and
      the service that discards it and resumes after a restart.
    - [SearchIndex], [IndexBlob]: [ea-index] [inverted.rs], [schema_view.rs],
      [blob.rs], [lib.rs]. The inverted index, the search and the sealed blob.
    - [Bundle]: [ea-archive] [bundle.rs], [bundle_error.rs] and the encoder of
      [ea-archive-fs] [bundle.rs]. An archive as one file.
    - [ServerDb]: the commit transaction of the server ([apps/server],
      [adapters/postgres.rs], [migrations/0001_initial.sql]; [ea-sync-server]
      [models.rs]), alone and as steps that interleave with other transactions.
    - [GrantPlan]: the plan part of [ea-format] [eag.rs]. Which recipients an
      entry is granted to, and the hash that names them.
    - [ObjectStore]: the bucket of the server ([apps/server] [adapters/s3.rs];
      [ea-sync-server] [models.rs], [ports.rs]). Staging, taking over and reading
      exact bytes, each request of which may fail and meet other requests.
    - [CommitChecks]: [ea-sync-protocol] [commit.rs], [ea-sync-server]
      [validation.rs], [receipt.rs], [checkpoint.rs], [ea-format] [esr.rs],
      [ecp.rs]. The request, the checks and the two signed documents.
    - [ServerCommit]: [ea-sync-server] [commit.rs], [reconcile.rs]. The nine
      steps of a commit over [ObjectStore], [CommitChecks] and [ServerDb].
    - [IncidentNumbers]: [ea-draft] [incident_number.rs]. The register of used
      numbers with the tokens of destroyed entries.
    - [WriterMarker]: [ea-writer] [marker.rs], [error.rs]. The prepared
      transaction a restart goes on from, its encoding, its check and the
      addresses of its objects.
    - [WriterFinalize]: [ea-writer] [fault.rs], [finalize.rs] from the claim of
      the number on, [original_source.rs], [stale_registry.rs], [recover.rs], in
      a monad over database, key store and archive, every call of which may fail.
    - [WriterPhases]: the rules of that monad, what holds in each phase of a
      finalization, and that a run keeps to it.
    - [WriterClaims]: the loops that release the claims of a draft, and that
      they end with all of them released and the numbers free.
    - [WriterRecovery]: clean-up, restarts, histories of a finalization and
      restarts, and that a restart without failures completes.
    - [WriterLocal]: the archive of [LocalPath] as the archive of the writer
      ([local_path.rs], [LocalPathArchiveSource]), and a writer over it on which
      the properties are shown to hold.
    - [WriterHead]: the steps of a finalization before the claim, [ea-writer]
      [finalize.rs] steps 1 to 3 and 5, [grant_plan.rs], [preview.rs]: the chain
      of the archive, the checkpoints, the registry head and the operator, the
      plan of the grants and the confirmation of a preview.

    Each definition has the name of the function or type it models, where two
    have the same name with the type in front ([ImportReport_new] is
    [ImportReportV1::new]). State is a record, a step returns the new state
    and a [result]; a loop is a [Fixpoint] over the data it consumes.

    ** What is proved

    - Chains: the verified head is sound and maximal; breaks, gaps and forks
      are reported exactly; the outcome depends on the set of nodes only;
      checkpoint findings are exact.
    - CBOR: [validate] accepts exactly the deterministic encodings within the
      limits; the re-encoder returns the canonical form; every operation
      terminates, that of a decoder at every position.
    - Archive: a commit is all or nothing under every failure but for its
      staging addresses, proved against the laws of the port, which the file
      system keeps as long as files can be read; nothing the queue took
      over is lost; the inventory classifies exactly; a bundle file opens to
      exactly the archive it was written from, and to no other.
    - Profile change: whatever step fails, the old profile is active or is
      active again, unless a call of the roll-back write breaks; a success copies
      everything and is audited; pointer writes are atomic.
    - Destruction: the state machine refines the abstract history; evidence is
      complete exactly when every replica is settled; reconstruction is sound.
    - Import: the findings and accepted rows of a file are exactly those of a
      declarative reading of the format; a commit books a clean report over
      unchanged bytes in one transaction or nothing; a stored row always has
      the bytes its protocol hash names.
    - Drafts: a save is a compare-and-swap on the revision, what it stored is
      what the next load shows, and a draft reserved for evidence is guarded;
      a discard ends, whatever fails, in one of its phases, a restart completes
      it, never against a prepared finalization and never on a draft that its
      key opens.
    - Finalization: nothing of an entry is published while the key of its
      draft is there, and no entry before its grants; after an error the draft
      is as it was or the marker lies with every prepared byte; a restart gives
      the draft back or completes the entry, and completes it if nothing fails;
      over any history of failing restarts there are never an entry and a draft
      of one incident; a claimed number is free again only while the key is
      there, and the restart that gives the draft back releases its claims; a
      marker found consistent is the encoding of a transaction whose objects it
      names; the clean-up removes only leftovers. A number is used once.
    - Search: the posting lists are a function of the rows, a search is the
      filter over them in chain order, every order of rebuilding gives the
      same index, a sealed index opens to itself, and it seals exactly within
      the limits of a blob.
    - Server: under every interleaving of commit transactions the chains do not
      fork and entries, checkpoints and times are linked; an entry is committed
      once and a repeated commit gets the stored answer; a transaction that
      holds the lock of its head meets no rival. The whole commit, with rivals
      and failures between any two of its requests, answers only with what
      bucket and database hold, keeps the chains and the stored objects, and
      leaves only security events its answer stands for, and the one of a refusal
      that accuses unless the sink fails; the grants of
      a checked entry are exactly those of the active recipients. What the writer
      places under a registry head the server accepts under the same head.
    - Time, sessions, synchronization: the floor never falls and a reference is
      only replaced by one that is no earlier; a presence proof
      is valid exactly in its window; the derived queue accounts for every
      entry.
    - Findings, each with its theorem: a jitter draw that overflows, a rename
      that replaces an unreadable file, a failed flush that leaves the new
      profile pointer, first commits of a chain whose lost race is answered as
      a fork or a differing identity, commits with more grants than a receipt
      can list, a failed commit that is visible, a conflict that is recorded
      twice, a dry run that fails for too many findings, an
      accepted row of which no snapshot can be taken, quoted fields that are
      imported half-split, a leftover at the root
      of the archive that keeps the writer's clean-up from completing, and a
      writer that finalizes into a sequence which a fork occupies.

    ** Fuel and bounds

    The CBOR readers take one unit more than the length of the input, since an
    item is at least one byte; running out is a value of its own and is proved
    not to happen. The UTF-8 decoder takes the length of its input. The
    reconstruction of a destruction takes one unit more than the number of
    distinct events, the loop over the index of a bundle its length in bytes, the
    release of claims their number, since each pass releases one. Integers are [Z] with the checked, saturating or wrapping
    operation the code uses; [usize] has 64 bits.

    ** Assumptions

    - Allocation succeeds.
    - Code outside the repository is a parameter: hashes, signatures, Unicode
      normalization and lower case, [minicbor]'s decoder, the stream cipher,
      the random source; so are the object parser, the verifier and the trust
      anchor decoder of crates that are not modelled. Where a theorem needs a
      hash without collisions or laws of one of these, it says so as a
      hypothesis or as a class of laws, with an instance beside it.
    - A key store answers as its contract says ([KeyProviderLaws]); which of
      its calls fail is arbitrary.
    - A disk call that breaks has no effect, except that a broken write leaves
      a prefix. A walk of a directory and a lock attempt are single calls.
    - Source and target of a profile change are distinct archives; what their
      pending publications leave in the source is the function [delivered].
    - [publish] and [resume] of a queue are serialized by its lock.
    - A database statement that fails has no effect, and a transaction that is
      not committed is rolled back. SQLite's [length] of a text counts up to
      the first NUL. PostgreSQL runs at its default isolation, checks the unique
      constraints of a table in the order of their definition, and a lost
      acknowledgement of a commit leaves the commit done.
    - A request to the bucket that fails had no effect, or all of it with its
      acknowledgement lost. The requests that run beside a commit change bucket and
      tables only by commits and by putting objects under their own keys
      ([sv_calls]); a destruction, which deletes objects, does not run beside it.

    ** Not modelled

    Cryptography and COSE ([ea-crypto]), the operating system's key stores
    ([ea-key-provider]) and SQLCipher itself are foreign code. The object
    codecs of [ea-format], the payload schema but for the snapshots, the trust
    registry, the payload of step 4 of the writer's finalization (what steps 6
    and 7 draw and sign is an argument of [run]), its binding of destruction
    evidence in step 8, the issue of its acknowledgements for a stale registry,
    the rest of the synchronization
    protocol, the server's services beyond the commit, the reader and recovery
    are logic of the repository that is not modelled; so are the operator
    profiles of [ea-draft], and opening a [LocalPathBackend] and
    its capability test. The applications, the build tool, demo data, test
    support and vendored code are glue or not part of the program.

    ** This file

    The error monad of fallible Rust code, machine-width integers, bytes, the
    comparison interface that stands for [Ord], and the slice operations of
    the Rust standard library that several components use. *)

From Stdlib Require Export ZArith Lia.
From Stdlib.Strings Require Export Byte.
From stdpp Require Export sorting.
From stdpp Require Export base gmap strings numbers list.

#[global] Set Default Goal Selector "!".
Declare Scope ea_scope.
Delimit Scope ea_scope with ea.
Open Scope Z_scope.

Create HintDb ea discriminated.
Create Rewrite HintDb ea_rw.

(** ** Results *)

Inductive result (E A : Type) : Type :=
| Ok (a : A)
| Err (e : E).
Arguments Ok {E A} a.
Arguments Err {E A} e.

#[export] Instance result_ret E : MRet (result E) := fun A a => Ok a.
#[export] Instance result_bind E : MBind (result E) := fun A B k m =>
  match m with Ok a => k a | Err e => Err e end.
#[export] Instance result_fmap E : FMap (result E) := fun A B f m =>
  match m with Ok a => Ok (f a) | Err e => Err e end.

#[export] Instance result_eq_dec E A
  `{EqDecision E, EqDecision A} : EqDecision (result E A).
Proof. solve_decision. Defined.

Definition is_ok {E A} (r : result E A) : bool :=
  match r with Ok _ => true | Err _ => false end.

(** [Option::ok_or] and an early return guard. *)
Definition ok_or {E A} (e : E) (o : option A) : result E A :=
  match o with Some a => Ok a | None => Err e end.

(** [Option::is_some_and]. *)
Definition is_some_and {A} (p : A → bool) (o : option A) : bool :=
  match o with Some a => p a | None => false end.

Definition ensure {E} (b : bool) (e : E) : result E unit :=
  if b then Ok tt else Err e.

Lemma bind_Ok {E A B} (m : result E A) (k : A → result E B) b :
  m ≫= k = Ok b ↔ ∃ a, m = Ok a ∧ k a = Ok b.
Proof. destruct m; cbn; split; naive_solver. Qed.

Lemma ensure_Ok {E} b (e : E) u : ensure b e = Ok u ↔ b = true.
Proof. destruct b, u; cbn; split; congruence. Qed.

Lemma is_some_and_true {A} (p : A → bool) o :
  is_some_and p o = true ↔ ∃ a, o = Some a ∧ p a = true.
Proof. destruct o; cbn; split; naive_solver. Qed.

Lemma is_some_and_false {A} (p : A → bool) o :
  is_some_and p o = false ↔ ∀ a, o = Some a → p a = false.
Proof. destruct o; cbn; split; naive_solver. Qed.

Lemma ok_or_Ok {E A} (e : E) (o : option A) a : ok_or e o = Ok a ↔ o = Some a.
Proof. destruct o; cbn; split; congruence. Qed.

(** Inverts a successful run of the error monad step by step. *)
Ltac inv_ok :=
  repeat match goal with
  | H : mbind _ _ = Ok _ |- _ => apply bind_Ok in H as (? & ? & H)
  | H : ensure _ _ = Ok _ |- _ => apply ensure_Ok in H
  | H : ok_or _ _ = Ok _ |- _ => apply ok_or_Ok in H
  | H : Ok _ = Ok _ |- _ => injection H as H; subst
  | H : Err _ = Ok _ |- _ => discriminate H
  | H : Ok _ = Err _ |- _ => discriminate H
  end.

(** ** Machine integers

    An unsigned or signed integer of width [w] is a [Z]; the operations below
    are the checked and saturating operations of Rust at the width used. *)

Definition u8_max : Z := 2 ^ 8 - 1.
Definition u16_max : Z := 2 ^ 16 - 1.
Definition u32_max : Z := 2 ^ 32 - 1.
Definition u64_max : Z := 2 ^ 64 - 1.
Definition i64_max : Z := 2 ^ 63 - 1.
Definition i64_min : Z := - 2 ^ 63.

(** [usize] is 64 bits wide on the native targets. *)
Definition usize_max : Z := u64_max.

Definition in_u64 (z : Z) : Prop := 0 ≤ z ≤ u64_max.
Definition in_i64 (z : Z) : Prop := i64_min ≤ z ≤ i64_max.

Definition checked_add (max a b : Z) : option Z :=
  if decide (a + b ≤ max) then Some (a + b) else None.
Definition checked_sub (a b : Z) : option Z :=
  if decide (b ≤ a) then Some (a - b) else None.
Definition saturating_add (max a b : Z) : Z := Z.min max (a + b).
Definition saturating_mul (max a b : Z) : Z := Z.min max (a * b).

Lemma checked_add_Some max a b c :
  checked_add max a b = Some c ↔ c = a + b ∧ a + b ≤ max.
Proof. unfold checked_add. case_decide; split; naive_solver lia. Qed.

Lemma checked_sub_Some a b c : checked_sub a b = Some c ↔ c = a - b ∧ b ≤ a.
Proof. unfold checked_sub. case_decide; split; naive_solver lia. Qed.

(** ** Bytes *)

Definition u8 (b : byte) : Z := Z.of_N (Byte.to_N b).
Definition byte_of (z : Z) : byte :=
  default x00 (Byte.of_N (Z.to_N (z mod 256))).

#[export] Instance byte_eq_dec : EqDecision byte := Byte.byte_eq_dec.

Lemma u8_range b : 0 ≤ u8 b < 256.
Proof. unfold u8. pose proof (Byte.to_N_bounded b). lia. Qed.

Lemma byte_of_u8 b : byte_of (u8 b) = b.
Proof.
  unfold byte_of. rewrite Z.mod_small by apply u8_range.
  unfold u8. rewrite N2Z.id, Byte.of_to_N. done.
Qed.

Lemma u8_byte_of z : u8 (byte_of z) = z mod 256.
Proof.
  unfold byte_of, u8. pose proof (Z.mod_pos_bound z 256 ltac:(lia)) as Hz.
  destruct (Byte.of_N (Z.to_N (z mod 256))) as [b|] eqn:E; cbn.
  - apply Byte.to_of_N in E. rewrite E. lia.
  - apply Byte.of_N_None_iff in E. lia.
Qed.

Lemma u8_inj a b : u8 a = u8 b → a = b.
Proof. intros H. rewrite <- (byte_of_u8 a), H. apply byte_of_u8. Qed.

#[export] Hint Resolve u8_range : ea.

(** [to_be_bytes] of the low [n] bytes. *)
Fixpoint to_be_bytes (n : nat) (v : Z) : list byte :=
  match n with
  | O => []
  | S n => to_be_bytes n (Z.shiftr v 8) ++ [byte_of v]
  end.

Lemma length_to_be_bytes n v : length (to_be_bytes n v) = n.
Proof. revert v. induction n as [|n IH]; intros v; cbn; [done|]. rewrite length_app, IH. cbn. lia. Qed.

Lemma to_be_bytes_inj n v w :
  to_be_bytes n v = to_be_bytes n w → v mod 2 ^ (8 * Z.of_nat n) = w mod 2 ^ (8 * Z.of_nat n).
Proof.
  revert v w. induction n as [|n IH]; intros v w H; [by rewrite !Z.mod_1_r|].
  cbn in H. apply app_inj_tail in H as [H Hb].
  apply IH in H. apply (f_equal u8) in Hb. rewrite !u8_byte_of in Hb.
  rewrite !Z.shiftr_div_pow2 in H by lia. change (2 ^ 8) with 256 in H.
  replace (8 * Z.of_nat (S n)) with (8 + 8 * Z.of_nat n) by lia.
  rewrite Z.pow_add_r by lia. change (2 ^ 8) with 256.
  rewrite !Z.rem_mul_r by lia. by rewrite Hb, H.
Qed.

(** [from_be_bytes] of as many bytes as there are. *)
Definition from_be_bytes (b : list byte) : Z := foldl (λ v x, v * 256 + u8 x) 0 b.

Lemma from_be_bytes_snoc l b : from_be_bytes (l ++ [b]) = from_be_bytes l * 256 + u8 b.
Proof. unfold from_be_bytes. by rewrite foldl_app. Qed.

(** Reading and writing big-endian bytes are inverse to each other. *)
Lemma from_be_bytes_iff l v :
  from_be_bytes l = v ↔ l = to_be_bytes (length l) v ∧ 0 ≤ v < 2 ^ (8 * Z.of_nat (length l)).
Proof.
  revert v. induction l as [|b l IH] using rev_ind; intros v.
  { cbn. split; [intros <-; split; [done|lia]|lia]. }
  rewrite from_be_bytes_snoc, length_app, Nat.add_1_r. cbn [to_be_bytes].
  destruct (proj1 (IH _) eq_refl) as [Hl Hr]. pose proof (u8_range b) as Hb.
  replace (8 * Z.of_nat (S (length l))) with (8 * Z.of_nat (length l) + 8) by lia.
  rewrite Z.pow_add_r, Z.shiftr_div_pow2 by lia. change (2 ^ 8) with 256. set (w := from_be_bytes l) in *. split.
  - intros <-. rewrite Z.div_add_l, Z.div_small, Z.add_0_r by lia. rewrite <- Hl. split; [|lia].
    do 2 f_equal. apply u8_inj. by rewrite u8_byte_of, Z.add_comm, Z.mod_add, Z.mod_small by lia.
  - intros [E Hv]. apply app_inj_tail in E as [E ->].
    assert (w = v / 256) as ->.
    { apply IH. split; [done|]. split; [apply Z.div_pos; lia|apply Z.div_lt_upper_bound; lia]. }
    rewrite u8_byte_of. pose proof (Z.div_mod v 256). lia.
Qed.

(** ** Comparison: the [Ord] trait

    [Cmp A] is the comparison function of a type, [CmpLaws A] says that it is
    a total order whose equality is equality of values, which is what every
    derived [Ord] of the program gives. *)

Class Cmp (A : Type) := cmp : A → A → comparison.

Class CmpLaws (A : Type) `{Cmp A} : Prop := {
  cmp_eq_iff : ∀ x y : A, cmp x y = Eq ↔ x = y;
  cmp_opp : ∀ x y : A, cmp y x = CompOpp (cmp x y);
  cmp_lt_trans : ∀ x y z : A, cmp x y = Lt → cmp y z = Lt → cmp x z = Lt;
}.

#[export] Instance Z_cmp : Cmp Z := Z.compare.
#[export] Instance Z_cmp_laws : CmpLaws Z.
Proof.
  split; unfold cmp, Z_cmp.
  - apply Z.compare_eq_iff.
  - intros; apply Z.compare_antisym.
  - intros x y z. rewrite !Z.compare_lt_iff. lia.
Qed.

#[export] Instance bool_cmp : Cmp bool := fun a b =>
  match a, b with false, true => Lt | true, false => Gt | _, _ => Eq end.
#[export] Instance bool_cmp_laws : CmpLaws bool.
Proof. split; [intros [] []|intros [] []|intros [] [] []]; by vm_compute. Qed.

Section Injection.
Context {A B : Type} `{CmpLaws B} (f : A → B).

(** Comparing through an injection. *)
Definition cmp_on (x y : A) : comparison := cmp (f x) (f y).

Lemma cmp_on_laws : (∀ x y, f x = f y → x = y) → @CmpLaws A cmp_on.
Proof.
  intros Hf. split; change (@cmp A cmp_on) with cmp_on; unfold cmp_on.
  - intros x y. rewrite cmp_eq_iff. naive_solver.
  - intros; apply cmp_opp.
  - intros x y z; apply cmp_lt_trans.
Qed.
End Injection.

#[export] Instance byte_cmp : Cmp byte := cmp_on u8.
#[export] Instance byte_cmp_laws : CmpLaws byte.
Proof. apply (cmp_on_laws u8 u8_inj). Qed.

Section CmpFacts.
Context {A : Type} `{CmpLaws A}.
Implicit Types x y z : A.

Lemma cmp_refl x : cmp x x = Eq.
Proof. by apply cmp_eq_iff. Qed.

Lemma cmp_gt_lt x y : cmp x y = Gt ↔ cmp y x = Lt.
Proof. rewrite (cmp_opp x y). destruct (cmp x y); cbn; naive_solver. Qed.

Lemma cmp_le_trans x y z : cmp x y ≠ Gt → cmp y z ≠ Gt → cmp x z ≠ Gt.
Proof.
  destruct (cmp x y) eqn:E1, (cmp y z) eqn:E2; try done; intros _ _.
  - apply cmp_eq_iff in E1, E2. subst. by rewrite cmp_refl.
  - apply cmp_eq_iff in E1. subst. by rewrite E2.
  - apply cmp_eq_iff in E2. subst. by rewrite E1.
  - by rewrite (cmp_lt_trans x y z).
Qed.

Lemma cmp_le_antisymm x y : cmp x y ≠ Gt → cmp y x ≠ Gt → x = y.
Proof.
  rewrite (cmp_opp x y). intros. apply cmp_eq_iff.
  by destruct (cmp x y).
Qed.

Lemma cmp_total x y : cmp x y ≠ Gt ∨ cmp y x ≠ Gt.
Proof. rewrite (cmp_opp x y). destruct (cmp x y); cbn; naive_solver. Qed.
End CmpFacts.

(** Lexicographic comparison of pairs, options ([None] first) and slices. *)
Definition prod_compare {A B} `{Cmp A, Cmp B} (p q : A * B) : comparison :=
  match cmp p.1 q.1 with Eq => cmp p.2 q.2 | c => c end.
#[export] Instance prod_cmp {A B} `{Cmp A, Cmp B} : Cmp (A * B) := prod_compare.

#[export] Instance prod_cmp_laws {A B} `{CmpLaws A, CmpLaws B} : CmpLaws (A * B).
Proof.
  split; change (@cmp (A * B) prod_cmp) with (@prod_compare A B _ _);
    unfold prod_compare.
  - intros [a b] [a' b']; cbn. destruct (cmp a a') eqn:E.
    + apply cmp_eq_iff in E. subst. rewrite cmp_eq_iff. naive_solver.
    + split; [done|]. intros [= -> ->]. by rewrite cmp_refl in E.
    + split; [done|]. intros [= -> ->]. by rewrite cmp_refl in E.
  - intros [a b] [a' b']; cbn.
    rewrite (cmp_opp a a'), (cmp_opp b b').
    by destruct (cmp a a').
  - intros [a b] [a' b'] [a'' b'']; cbn.
    destruct (cmp a a') eqn:E1, (cmp a' a'') eqn:E2; try done; intros L1 L2.
    + apply cmp_eq_iff in E1, E2. subst. rewrite cmp_refl. by eapply cmp_lt_trans.
    + apply cmp_eq_iff in E1. subst. by rewrite E2.
    + apply cmp_eq_iff in E2. subst. by rewrite E1.
    + by rewrite (cmp_lt_trans a a' a'').
Qed.

Definition option_compare {A} `{Cmp A} (p q : option A) : comparison :=
  match p, q with
  | None, None => Eq | None, Some _ => Lt | Some _, None => Gt
  | Some a, Some b => cmp a b
  end.
#[export] Instance option_cmp {A} `{Cmp A} : Cmp (option A) := option_compare.

#[export] Instance option_cmp_laws {A} `{CmpLaws A} : CmpLaws (option A).
Proof.
  split; change (@cmp (option A) option_cmp) with (@option_compare A _).
  - intros [a|] [b|]; cbn; try (by split; congruence). rewrite cmp_eq_iff. naive_solver.
  - intros [a|] [b|]; cbn; try done. apply cmp_opp.
  - intros [a|] [b|] [c|]; cbn; try done. apply cmp_lt_trans.
Qed.

Fixpoint list_compare {A} `{Cmp A} (l k : list A) : comparison :=
  match l, k with
  | [], [] => Eq
  | [], _ :: _ => Lt
  | _ :: _, [] => Gt
  | a :: l, b :: k => match cmp a b with Eq => list_compare l k | c => c end
  end.
#[export] Instance list_cmp {A} `{Cmp A} : Cmp (list A) := list_compare.

#[export] Instance list_cmp_laws {A} `{CmpLaws A} : CmpLaws (list A).
Proof.
  split; change (@cmp (list A) list_cmp) with (@list_compare A _).
  - intros l. induction l as [|a l IH]; intros [|b k]; cbn; try (by split; congruence).
    destruct (cmp a b) eqn:E.
    + apply cmp_eq_iff in E. subst. rewrite IH. naive_solver.
    + split; [done|]. intros [= -> ->]. by rewrite cmp_refl in E.
    + split; [done|]. intros [= -> ->]. by rewrite cmp_refl in E.
  - intros l. induction l as [|a l IH]; intros [|b k]; cbn; try done.
    rewrite (cmp_opp a b). destruct (cmp a b); cbn; [apply IH|done|done].
  - intros l. induction l as [|a l IH]; intros [|b k] [|c m]; cbn; try done.
    destruct (cmp a b) eqn:E1, (cmp b c) eqn:E2; try done; intros L1 L2.
    + apply cmp_eq_iff in E1, E2. subst. rewrite cmp_refl. by eapply IH.
    + apply cmp_eq_iff in E1. subst. by rewrite E2.
    + apply cmp_eq_iff in E2. subst. by rewrite E1.
    + by rewrite (cmp_lt_trans a b c).
Qed.

(** [str] compares its UTF-8 bytes. *)
Definition bytes_of_string (s : string) : list byte := String.list_byte_of_string s.

#[export] Instance string_cmp : Cmp string := cmp_on bytes_of_string.
#[export] Instance string_cmp_laws : CmpLaws string.
Proof.
  apply (cmp_on_laws bytes_of_string). intros s t Hst.
  rewrite <- (String.string_of_list_byte_of_string s).
  unfold bytes_of_string in Hst. rewrite Hst.
  apply String.string_of_list_byte_of_string.
Qed.

(** ** Slices: sorting, [dedup], [chunk_by], [windows(2)] *)

Section Sort.
Context {A K : Type} `{CmpLaws K} (key : A → K).
Implicit Types l k : list A.

Definition key_le (x y : A) : Prop := cmp (key x) (key y) ≠ Gt.
Definition key_lt (x y : A) : Prop := cmp (key x) (key y) = Lt.

#[export] Instance key_le_dec : RelDecision key_le.
Proof.
  intros x y. unfold key_le, Decision.
  destruct (cmp (key x) (key y)); [left|left|right]; naive_solver.
Defined.
#[export] Instance key_le_trans : Transitive key_le.
Proof. intros x y z. unfold key_le. apply cmp_le_trans. Qed.
#[export] Instance key_le_refl : Reflexive key_le.
Proof. intros x. unfold key_le. by rewrite cmp_refl. Qed.
#[export] Instance key_le_total : Total key_le.
Proof. intros x y. unfold key_le. apply cmp_total. Qed.

(** [slice::sort_by_key]. The standard library's stable sort is a merge
    sort; [sort_unstable_by_key] is modelled by the same function, and
    [sort_by_key_unique] says when the two cannot be told apart. *)
Definition sort_by_key (l : list A) : list A := merge_sort key_le l.

(** The key identifies the elements of [l]. *)
Definition key_inj (l : list A) : Prop :=
  ∀ x y, x ∈ l → y ∈ l → key x = key y → x = y.

Lemma sort_by_key_perm l : sort_by_key l ≡ₚ l.
Proof. apply merge_sort_Permutation. Qed.

Lemma sort_by_key_sorted l : StronglySorted key_le (sort_by_key l).
Proof. apply (StronglySorted_merge_sort key_le). Qed.

Lemma elem_of_sort_by_key x l : x ∈ sort_by_key l ↔ x ∈ l.
Proof. by rewrite sort_by_key_perm. Qed.

Lemma key_inj_perm l k : l ≡ₚ k → key_inj l → key_inj k.
Proof. intros Hp Hi x y. rewrite <- Hp. apply Hi. Qed.

Lemma sorted_unique l k :
  StronglySorted key_le l → StronglySorted key_le k → l ≡ₚ k →
  key_inj l → l = k.
Proof.
  intros Hl Hk Hp Hi. apply (StronglySorted_unique_strong key_le); try done.
  intros x y Hx Hy Hxy Hyx. apply Hi; [done|by rewrite Hp|].
  by apply cmp_le_antisymm.
Qed.

(** Every sorted rearrangement is the sorted list when keys are unique. *)
Lemma sort_by_key_unique l k :
  StronglySorted key_le k → k ≡ₚ l → key_inj l → k = sort_by_key l.
Proof.
  intros Hk Hp Hi. apply sorted_unique; [done|apply sort_by_key_sorted| |].
  - by rewrite sort_by_key_perm.
  - by eapply key_inj_perm; [symmetry|].
Qed.

Lemma sort_by_key_proper l k : l ≡ₚ k → key_inj l → sort_by_key l = sort_by_key k.
Proof.
  intros Hp Hi. apply sort_by_key_unique; [apply sort_by_key_sorted| |].
  - by rewrite sort_by_key_perm.
  - by eapply key_inj_perm.
Qed.

Lemma sort_by_key_id l : StronglySorted key_lt l → sort_by_key l = l.
Proof.
  intros Hl. symmetry. apply sort_by_key_unique; [|done|].
  - induction Hl as [|x l Hl IH Hx]; constructor; [done|].
    eapply Forall_impl; [exact Hx|]. unfold key_lt, key_le. congruence.
  - induction Hl as [|x l Hl IH Hx]; intros a b; [by intros ?%elem_of_nil|].
    rewrite !elem_of_cons. rewrite Forall_forall in Hx. unfold key_lt in Hx.
    intros [->|Ha] [->|Hb] Hab; [done| | |by apply IH].
    + apply Hx in Hb. rewrite Hab, cmp_refl in Hb. done.
    + apply Hx in Ha. rewrite Hab, cmp_refl in Ha. done.
Qed.
End Sort.

Lemma sorted_sublist {A} (R : relation A) l k :
  sublist l k → StronglySorted R k → StronglySorted R l.
Proof.
  induction 1 as [|x l k Hs IH|x l k Hs IH]; intros Hk; [constructor| |].
  - apply StronglySorted_cons in Hk as [Hx Hk]. constructor; [by apply IH|].
    rewrite Forall_forall in *. intros y Hy. apply Hx. by eapply elem_of_sublist.
  - apply StronglySorted_cons in Hk as [_ Hk]. by apply IH.
Qed.

Section Slices.
Context {A : Type}.
Implicit Types l : list A.

(** [Vec::dedup]: one element of every run of equal neighbours. *)
Fixpoint dedup `{EqDecision A} (l : list A) : list A :=
  match l with
  | [] => []
  | x :: l' =>
      match l' with
      | [] => [x]
      | y :: _ => if decide (x = y) then dedup l' else x :: dedup l'
      end
  end.

Lemma elem_of_dedup `{EqDecision A} x l : x ∈ dedup l ↔ x ∈ l.
Proof.
  induction l as [|a [|b l] IH]; [done|done|].
  change (x ∈ (if decide (a = b) then dedup (b :: l) else a :: dedup (b :: l))
          ↔ x ∈ a :: b :: l).
  case_decide; subst; rewrite ?elem_of_cons, IH; set_solver.
Qed.

Lemma dedup_sublist `{EqDecision A} l : sublist (dedup l) l.
Proof.
  induction l as [|a [|b l] IH]; [done|done|].
  change (sublist (if decide (a = b) then dedup (b :: l) else a :: dedup (b :: l))
                  (a :: b :: l)).
  case_decide; by constructor.
Qed.

Lemma dedup_head `{EqDecision A} a l : ∃ k, dedup (a :: l) = a :: k.
Proof.
  revert a. induction l as [|b l IH]; intros a; [by exists []|].
  change (∃ k, (if decide (a = b) then dedup (b :: l) else a :: dedup (b :: l))
               = a :: k).
  case_decide; subst; [apply IH|by eexists].
Qed.

(** [slice::windows(2)]. *)
Definition windows2 l : list (A * A) := zip l (tail l).

(** [slice::chunk_by]: maximal runs of neighbours related by [r]. *)
Fixpoint chunk_by (r : A → A → bool) l : list (list A) :=
  match l with
  | [] => []
  | x :: l' =>
      match chunk_by r l' with
      | (y :: g) :: gs => if r x y then (x :: y :: g) :: gs else [x] :: (y :: g) :: gs
      | gs => [x] :: gs
      end
  end.

(** [slice::partition_point] of a slice that [p] partitions. *)
Fixpoint partition_point (p : A → bool) l : nat :=
  match l with
  | [] => 0%nat
  | x :: l => if p x then S (partition_point p l) else 0%nat
  end.

(** [slice::binary_search(..).is_ok()] of a sorted slice. *)
Definition binary_search_ok `{EqDecision A} (l : list A) (x : A) : bool :=
  bool_decide (x ∈ l).
End Slices.

Section ChunkFacts.
Context {A : Type} (r : A → A → bool).
Implicit Types l g : list A.

Lemma chunk_by_cons x y l :
  ∃ g gs, chunk_by r (y :: l) = (y :: g) :: gs ∧
    chunk_by r (x :: y :: l) =
      if r x y then (x :: y :: g) :: gs else [x] :: (y :: g) :: gs.
Proof.
  assert (∃ g gs, chunk_by r (y :: l) = (y :: g) :: gs) as (g & gs & E).
  { cbn. destruct (chunk_by r l) as [|[|z g] gs]; [by eexists _, _|by eexists _, _|].
    destruct (r y z); by eexists _, _. }
  exists g, gs. split; [done|].
  change (chunk_by r (x :: y :: l)) with
    (match chunk_by r (y :: l) with
     | (y :: g) :: gs => if r x y then (x :: y :: g) :: gs else [x] :: (y :: g) :: gs
     | gs => [x] :: gs
     end). by rewrite E.
Qed.

Lemma concat_chunk_by l : concat (chunk_by r l) = l.
Proof.
  induction l as [|x [|y l] IH]; [done|done|].
  destruct (chunk_by_cons x y l) as (g & gs & E & ->). rewrite E in IH.
  cbn in IH. destruct (r x y); cbn; by rewrite IH.
Qed.

Lemma chunk_by_nonempty l : Forall (λ g, g ≠ []) (chunk_by r l).
Proof.
  induction l as [|x [|y l] IH]; [constructor|by repeat constructor|].
  destruct (chunk_by_cons x y l) as (g & gs & E & ->). rewrite E in IH.
  apply Forall_cons in IH as [_ IH].
  destruct (r x y); repeat (constructor; try done).
Qed.

Lemma elem_of_chunk_by l g x : g ∈ chunk_by r l → x ∈ g → x ∈ l.
Proof.
  intros Hg Hx. rewrite <- (concat_chunk_by l). apply list_elem_of_In, in_concat.
  exists g. by rewrite <- !list_elem_of_In.
Qed.

Lemma chunk_by_cover l x : x ∈ l → ∃ g, g ∈ chunk_by r l ∧ x ∈ g.
Proof.
  intros Hx. rewrite <- (concat_chunk_by l) in Hx.
  apply list_elem_of_In, in_concat in Hx as (g & Hg & Hx).
  exists g. by rewrite !list_elem_of_In.
Qed.

Lemma chunk_by_sub_sorted (R : relation A) l g :
  StronglySorted R l → g ∈ chunk_by r l → StronglySorted R g.
Proof.
  intros Hs (l1 & l2 & E)%list_elem_of_split.
  rewrite <- (concat_chunk_by l), E, concat_app in Hs. cbn in Hs.
  apply StronglySorted_app in Hs as (_ & _ & Hs).
  by apply StronglySorted_app in Hs as (_ & Hs & _).
Qed.
End ChunkFacts.

(** Grouping a list that is sorted by [f] into the classes of [f]. *)
Section ChunkSorted.
Context {A K : Type} `{CmpLaws K, EqDecision K} (f : A → K).
Implicit Types l g : list A.

Definition same_key (x y : A) : bool := bool_decide (f x = f y).

Definition group_lt (g h : list A) : Prop :=
  ∀ x y, x ∈ g → y ∈ h → cmp (f x) (f y) = Lt.

Lemma chunk_by_same_key l g x y :
  g ∈ chunk_by same_key l → x ∈ g → y ∈ g → f x = f y.
Proof.
  revert g x y. induction l as [|a [|b l] IH]; intros g x y.
  - by intros ?%elem_of_nil.
  - cbn. rewrite list_elem_of_singleton. intros ->.
    by intros ->%list_elem_of_singleton ->%list_elem_of_singleton.
  - destruct (chunk_by_cons same_key a b l) as (g' & gs & E & ->). rewrite E in IH.
    unfold same_key at 1. case_bool_decide as Hab.
    + rewrite elem_of_cons. intros [->|Hg].
      * assert (∀ z, z ∈ a :: b :: g' → f z = f b) as Hz.
        { intros z [->|Hz]%elem_of_cons; [done|]. apply (IH (b :: g')); set_solver. }
        intros ?%Hz ?%Hz. congruence.
      * apply IH. set_solver.
    + rewrite elem_of_cons. intros [->|Hg]; [|by apply IH].
      by intros ->%list_elem_of_singleton ->%list_elem_of_singleton.
Qed.

Lemma chunk_by_sorted l :
  StronglySorted (key_le f) l → StronglySorted group_lt (chunk_by same_key l).
Proof.
  induction l as [|a [|b l] IH]; intros Hs; [constructor|by repeat constructor|].
  pose proof Hs as [Ha Hs']%StronglySorted_cons. specialize (IH Hs').
  pose proof (concat_chunk_by same_key (b :: l)) as Hcat.
  pose proof (chunk_by_same_key (b :: l)) as Hsame.
  destruct (chunk_by_cons same_key a b l) as (g & gs & E & ->).
  rewrite E in IH, Hcat, Hsame. apply StronglySorted_cons in IH as [Hhd Hgs].
  unfold same_key at 1. case_bool_decide as Hab.
  - constructor; [done|]. rewrite Forall_forall in Hhd.
    rewrite Forall_forall. intros h Hh x y Hx Hy.
    apply elem_of_cons in Hx as [->|Hx]; [|by apply (Hhd h)].
    rewrite Hab. apply (Hhd h); set_solver.
  - constructor; [by constructor|]. rewrite Forall_forall in Ha.
    rewrite Forall_forall in Hhd. rewrite Forall_forall.
    assert (cmp (f a) (f b) = Lt) as Hlt.
    { pose proof (Ha b ltac:(set_solver)) as Hle. unfold key_le in Hle.
      destruct (cmp (f a) (f b)) eqn:Ec; [|done|done].
      by apply cmp_eq_iff in Ec. }
    intros h Hh x y ->%list_elem_of_singleton Hy.
    apply elem_of_cons in Hh as [->|Hh].
    + by rewrite (Hsame (b :: g) y b ltac:(set_solver) Hy ltac:(set_solver)).
    + eapply cmp_lt_trans; [exact Hlt|]. apply (Hhd h); set_solver.
Qed.

(** Elements with the same key lie in the same group. *)
Lemma chunk_by_group_same l g h x y :
  StronglySorted (key_le f) l →
  g ∈ chunk_by same_key l → h ∈ chunk_by same_key l →
  x ∈ g → y ∈ h → f x = f y → g = h.
Proof.
  intros Hs%chunk_by_sorted (l1 & l2 & E)%list_elem_of_split Hh Hx Hy Hxy.
  rewrite E in Hs, Hh. apply StronglySorted_app in Hs as (H1 & _ & Hs).
  apply StronglySorted_cons in Hs as [H2 _]. rewrite Forall_forall in H2.
  rewrite elem_of_app, elem_of_cons in Hh. destruct Hh as [Hh|[->|Hh]]; [|done|].
  - specialize (H1 h g Hh ltac:(set_solver) y x Hy Hx).
    by rewrite Hxy, cmp_refl in H1.
  - specialize (H2 h Hh x y Hx Hy). by rewrite Hxy, cmp_refl in H2.
Qed.
End ChunkSorted.

(** Lexicographic keys: a list sorted by a pair is sorted by its first part. *)
Lemma key_le_fst {A K L} `{CmpLaws K, CmpLaws L} (f : A → K) (g : A → L) x y :
  key_le (λ a, (f a, g a)) x y → key_le f x y.
Proof.
  unfold key_le. change (@cmp (K * L) _) with (@prod_compare K L _ _).
  unfold prod_compare; cbn [fst snd]. by destruct (cmp (f x) (f y)).
Qed.

Lemma key_le_snd {A K L} `{CmpLaws K, CmpLaws L} (f : A → K) (g : A → L) x y :
  f x = f y → key_le (λ a, (f a, g a)) x y → key_le g x y.
Proof.
  unfold key_le. change (@cmp (K * L) _) with (@prod_compare K L _ _).
  unfold prod_compare; cbn [fst snd]. intros ->. by rewrite cmp_refl.
Qed.

Lemma sorted_impl {A} (R S : relation A) l :
  (∀ x y, x ∈ l → y ∈ l → R x y → S x y) →
  StronglySorted R l → StronglySorted S l.
Proof.
  induction l as [|x l IH]; intros Hi Hs; [constructor|].
  apply StronglySorted_cons in Hs as [Hx Hs]. constructor.
  - apply IH; [|done]. intros a b Ha Hb. apply Hi; by right.
  - apply Forall_forall. intros y Hy. apply Hi; [by left|by right|].
    rewrite Forall_forall in Hx. by apply Hx.
Qed.

(** Neighbours. *)
Lemma windows2_cons {A} (x y : A) l : windows2 (x :: y :: l) = (x, y) :: windows2 (y :: l).
Proof. done. Qed.

Lemma elem_of_windows2 {A} (l : list A) x y :
  (x, y) ∈ windows2 l ↔ ∃ l1 l2, l = l1 ++ x :: y :: l2.
Proof.
  split.
  - induction l as [|a [|b l] IH]; [by intros ?%elem_of_nil|by intros ?%elem_of_nil|].
    rewrite windows2_cons, elem_of_cons. intros [[= -> ->]|Hw]; [by exists [], l|].
    destruct (IH Hw) as (l1 & l2 & E). exists (a :: l1), l2. cbn. by rewrite E.
  - intros (l1 & l2 & ->). induction l1 as [|a l1 IH]; [by left|].
    destruct l1 as [|b l1]; cbn [app] in *; rewrite windows2_cons; by right.
Qed.

Lemma windows2_elem {A} (l : list A) x y : (x, y) ∈ windows2 l → x ∈ l ∧ y ∈ l.
Proof. intros (l1 & l2 & ->)%elem_of_windows2. set_solver. Qed.

Lemma windows2_sorted {A} (R : relation A) l x y :
  StronglySorted R l → (x, y) ∈ windows2 l → R x y.
Proof.
  intros Hs (l1 & l2 & ->)%elem_of_windows2.
  apply StronglySorted_app in Hs as (_ & _ & Hs).
  apply StronglySorted_cons in Hs as [Hx _]. rewrite Forall_forall in Hx.
  apply Hx. by left.
Qed.

(** In a list of two or more elements every element has a neighbour. *)
Lemma windows2_cover {A} (l : list A) x y :
  x ∈ l → y ∈ l → x ≠ y → ∃ p, p ∈ windows2 l ∧ (p.1 = x ∨ p.2 = x).
Proof.
  intros (l1 & l2 & ->)%list_elem_of_split Hy Hne. destruct l2 as [|z l2].
  - destruct l1 as [|z l1 _] using rev_ind; [set_solver|].
    exists (z, x). split; [|by right]. apply elem_of_windows2.
    exists l1, []. by rewrite <- app_assoc.
  - exists (x, z). split; [|by left]. apply elem_of_windows2. by exists l1, l2.
Qed.

(** Neighbours in a strictly sorted list: nothing lies in between. *)
Lemma windows2_adjacent {A} (R : relation A) l x y :
  StronglySorted R l → x ∈ l → y ∈ l → x ≠ y →
  ¬ R y x → (∀ z, z ∈ l → R x z → R z y → False) → (x, y) ∈ windows2 l.
Proof.
  intros Hs (l1 & l2 & ->)%list_elem_of_split Hy Hne Hnot Hbetween.
  apply elem_of_windows2. apply StronglySorted_app in Hs as (H12 & _ & Hs).
  apply StronglySorted_cons in Hs as [Hx Hs]. rewrite Forall_forall in Hx.
  assert (y ∈ l2) as Hy2.
  { rewrite elem_of_app, elem_of_cons in Hy. destruct Hy as [Hy|[->|Hy]]; [|done|done].
    exfalso. apply Hnot. apply H12; set_solver. }
  destruct l2 as [|z l2]; [by apply elem_of_nil in Hy2|].
  apply elem_of_cons in Hy2 as [->|Hy2]; [by exists l1, l2|].
  exfalso. apply (Hbetween z); [set_solver|set_solver|].
  apply StronglySorted_cons in Hs as [Hz _]. rewrite Forall_forall in Hz. by apply Hz.
Qed.

Lemma sorted_reverse {A} (R : relation A) l :
  StronglySorted R l → StronglySorted (flip R) (reverse l).
Proof.
  induction 1 as [|x l Hs IH Hx]; [constructor|]. rewrite reverse_cons.
  apply StronglySorted_app. split; [|split; [done|by repeat constructor]].
  intros y z Hy Hz%list_elem_of_singleton. subst. unfold flip.
  rewrite Forall_forall in Hx. apply Hx. by rewrite elem_of_reverse in Hy.
Qed.

Lemma key_lt_NoDup {A K} `{CmpLaws K} (key : A → K) l :
  StronglySorted (key_lt key) l → NoDup l.
Proof.
  induction 1 as [|x l Hs IH Hx]; constructor; [|done]. intros Hin.
  rewrite Forall_forall in Hx. specialize (Hx x Hin). unfold key_lt in Hx.
  by rewrite cmp_refl in Hx.
Qed.

Lemma key_lt_le {A K} `{CmpLaws K} (key : A → K) x y : key_lt key x y → key_le key x y.
Proof. unfold key_lt, key_le. congruence. Qed.

(** Deduplicating a sorted list with identifying keys sorts it strictly. *)
Lemma dedup_strict {A K} `{EqDecision A, CmpLaws K} (key : A → K) l :
  StronglySorted (key_le key) l → key_inj key l → StronglySorted (key_lt key) (dedup l).
Proof.
  intros Hs Hi. induction l as [|a [|b l] IH]; [constructor|by repeat constructor|].
  apply StronglySorted_cons in Hs as [Ha Hs].
  assert (StronglySorted (key_lt key) (dedup (b :: l))) as IH'.
  { apply IH; [done|]. intros x y Hx Hy. apply Hi; by right. }
  change (StronglySorted (key_lt key)
    (if decide (a = b) then dedup (b :: l) else a :: dedup (b :: l))).
  case_decide as Hab; [done|]. constructor; [done|]. apply Forall_forall.
  intros x Hx. rewrite elem_of_dedup in Hx. rewrite Forall_forall in Ha. pose proof (Ha x Hx) as Hax.
  unfold key_lt. unfold key_le in Hax. destruct (cmp (key a) (key x)) eqn:E; [|done|done].
  exfalso. apply cmp_eq_iff in E. apply Hab, Hi; [by left|by right; left|].
  apply cmp_le_antisymm; [by apply Ha; left|]. rewrite E.
  apply elem_of_cons in Hx as [->|Hx]; [by rewrite cmp_refl|].
  apply StronglySorted_cons in Hs as [Hb _]. rewrite Forall_forall in Hb. by apply Hb.
Qed.

(** Strictly sorted lists are determined by their elements. *)
Lemma strictly_sorted_ext {A K} `{CmpLaws K} (key : A → K) l k :
  StronglySorted (key_lt key) l → StronglySorted (key_lt key) k →
  (∀ x, x ∈ l ↔ x ∈ k) → l = k.
Proof.
  intros Hl Hk Hext.
  assert (l ≡ₚ k) as Hp
    by (apply NoDup_Permutation; [by eapply key_lt_NoDup..|done]).
  rewrite <- (sort_by_key_id key l Hl), <- (sort_by_key_id key k Hk).
  apply sort_by_key_proper; [done|]. clear Hk Hext Hp.
  induction Hl as [|a l Hl IH Ha]; intros x y; [by intros ?%elem_of_nil|].
  rewrite Forall_forall in Ha. unfold key_lt in Ha.
  intros [->|Hx]%elem_of_cons [->|Hy]%elem_of_cons E; [done| | |by apply IH].
  - specialize (Ha y Hy). by rewrite E, cmp_refl in Ha.
  - specialize (Ha x Hx). by rewrite E, cmp_refl in Ha.
Qed.

Lemma key_inj_NoDup {A K} (key : A → K) l : NoDup (key <$> l) → key_inj key l.
Proof.
  induction l as [|a l IH]; intros Hn x y; [by intros ?%elem_of_nil|].
  apply NoDup_cons in Hn as [Ha Hn].
  intros [->|Hx]%elem_of_cons [->|Hy]%elem_of_cons E; [done| | |by apply IH].
  - destruct Ha. rewrite E. by apply list_elem_of_fmap_2.
  - destruct Ha. rewrite <- E. by apply list_elem_of_fmap_2.
Qed.

Lemma key_lt_NoDup_keys {A K} `{CmpLaws K} (key : A → K) l :
  StronglySorted (key_lt key) l → NoDup (key <$> l).
Proof.
  induction 1 as [|a l Hl IH Ha]; [constructor|]. apply NoDup_cons. split; [|done].
  intros (x & E & Hx)%list_elem_of_fmap. rewrite Forall_forall in Ha.
  specialize (Ha x Hx). unfold key_lt in Ha. by rewrite E, cmp_refl in Ha.
Qed.

(** A sorted list without equal neighbours is strictly sorted. *)
Lemma no_equal_neighbours {A K} `{EqDecision K, CmpLaws K} (key : A → K) l :
  StronglySorted (key_le key) l →
  existsb (λ p, bool_decide (key p.1 = key p.2)) (windows2 l) = false ↔
  StronglySorted (key_lt key) l.
Proof.
  induction 1 as [|a l Hl IH Ha]; [by split; [constructor|]|].
  destruct l as [|b l]; [split; [by repeat constructor|done]|].
  rewrite windows2_cons. cbn -[windows2]. rewrite orb_false_iff, IH, bool_decide_eq_false. split.
  - intros [Hab Hs]. constructor; [done|]. rewrite Forall_forall in *. intros x Hx.
    assert (key_lt key a b) as Hlt.
    { specialize (Ha b ltac:(by left)). unfold key_le, key_lt in *.
      destruct (cmp (key a) (key b)) eqn:E; [by apply cmp_eq_iff in E|done|done]. }
    apply elem_of_cons in Hx as [->|Hx]; [done|].
    apply StronglySorted_cons in Hs as [Hb _]. rewrite Forall_forall in Hb.
    eapply cmp_lt_trans; [exact Hlt|]. by apply Hb.
  - intros Hs. apply StronglySorted_cons in Hs as [Hb Hs]. split; [|done].
    intros E. rewrite Forall_forall in Hb. specialize (Hb b ltac:(by left)).
    unfold key_lt in Hb. by rewrite E, cmp_refl in Hb.
Qed.

Lemma sorted_NoDup_strict {A K} `{CmpLaws K} (key : A → K) l :
  StronglySorted (key_le key) l → NoDup (key <$> l) → StronglySorted (key_lt key) l.
Proof.
  induction 1 as [|a l Hl IH Ha]; intros Hn; [constructor|].
  apply NoDup_cons in Hn as [Hna Hn]. constructor; [by apply IH|].
  rewrite Forall_forall in *. intros x Hx. specialize (Ha x Hx). unfold key_lt, key_le in *.
  destruct (cmp (key a) (key x)) eqn:E; [|done|done]. apply cmp_eq_iff in E.
  destruct Hna. rewrite E. by apply list_elem_of_fmap_2.
Qed.

(** Sorting commutes with a map that keeps identifying keys. *)
Lemma sort_by_key_fmap {A B K} `{CmpLaws K} (f : A → B) (key : B → K) l :
  NoDup (key ∘ f <$> l) → sort_by_key key (f <$> l) = f <$> sort_by_key (key ∘ f) l.
Proof.
  intros Hn. symmetry. apply sort_by_key_unique.
  - pose proof (sort_by_key_sorted (key ∘ f) l) as Hs.
    induction Hs as [|a k Hs IH Ha]; [constructor|]. cbn. constructor; [done|].
    apply Forall_fmap. exact Ha.
  - by rewrite sort_by_key_perm.
  - apply key_inj_NoDup. by rewrite <- list_fmap_compose.
Qed.

Lemma elem_of_snoc {A} (x y : A) l : x ∈ l ++ [y] ↔ x ∈ l ∨ x = y.
Proof. rewrite elem_of_app, list_elem_of_singleton. done. Qed.

(** ** Ordered maps

    A [BTreeMap] is a [gmap]; what iterates over it sees its bindings in
    ascending order of the keys. *)

Definition by_key {K V} `{Countable K, Cmp K} (m : gmap K V) : list (K * V) :=
  sort_by_key fst (map_to_list m).

Definition into_values {K V} `{Countable K, Cmp K} (m : gmap K V) : list V := (by_key m).*2.

Lemma elem_of_by_key {K V} `{Countable K, !Cmp K, !CmpLaws K} (m : gmap K V) k v :
  (k, v) ∈ by_key m ↔ m !! k = Some v.
Proof. unfold by_key. by rewrite elem_of_sort_by_key, elem_of_map_to_list. Qed.

Lemma elem_of_into_values {K V} `{Countable K, !Cmp K, !CmpLaws K} (m : gmap K V) v :
  v ∈ into_values m ↔ ∃ k, m !! k = Some v.
Proof.
  unfold into_values. rewrite list_elem_of_fmap. split.
  - intros ([k w] & -> & Hin%elem_of_by_key). by exists k.
  - intros (k & Hk). exists (k, v). split; [done|]. by apply elem_of_by_key.
Qed.

Lemma by_key_strict {K V} `{Countable K, !Cmp K, !CmpLaws K} (m : gmap K V) :
  StronglySorted (key_lt fst) (by_key m).
Proof.
  unfold by_key. apply sorted_NoDup_strict; [apply sort_by_key_sorted|].
  rewrite sort_by_key_perm. apply NoDup_fst_map_to_list.
Qed.

Lemma sorted_fmap {A B K} `{Cmp K} (f : A → B) (key : B → K) l :
  StronglySorted (key_lt (λ x, key (f x))) l → StronglySorted (key_lt key) (f <$> l).
Proof.
  induction 1 as [|a l Hl IH Ha]; cbn; constructor; [done|].
  rewrite Forall_forall in Ha. apply Forall_forall.
  intros y (x & -> & Hx)%list_elem_of_fmap. by apply (Ha x).
Qed.
