(* ===== verification/Types.v ===== *)
(** * Types: the [ea-types] crate

    Identifiers and hashes ([ids.rs]), the error classes and the bounded retry
    policy ([error.rs]).
    Newtypes over byte arrays are byte lists whose length [try_from] checks;
    newtypes over integers are [Z]. *)

From S2P Require Import Prelude.

(** ** Identifiers ([ids.rs]) *)

Record LengthError := { expected : Z; actual : Z }.

Definition Id16 : Type := list byte.
Definition Hash32 : Type := list byte.

Definition Id16_try_from (value : list byte) : result LengthError Id16 :=
  if decide (length value = 16%nat) then Ok value
  else Err {| expected := 16; actual := Z.of_nat (length value) |}.

Definition Hash32_try_from (value : list byte) : result LengthError Hash32 :=
  if decide (length value = 32%nat) then Ok value
  else Err {| expected := 32; actual := Z.of_nat (length value) |}.

Abbreviation OrganizationId := Id16.
Abbreviation ChainId := Id16.
Abbreviation DeviceId := Id16.
Abbreviation EventId := Id16.
Abbreviation DestructionId := Id16.
Abbreviation EntryHash := Hash32.
Abbreviation ObjectHash := Hash32.
Abbreviation CertificateHash := Hash32.
Abbreviation ChainSequence := Z.
Abbreviation UnixMillis := Z.

#[export] Instance Hash32_eq_dec : EqDecision Hash32 := _.
#[export] Instance Hash32_cmp : Cmp Hash32 := list_cmp.
#[export] Instance Hash32_cmp_laws : CmpLaws Hash32 := list_cmp_laws.
#[export] Instance Hash32_countable : Countable Hash32.
Proof.
  unfold Hash32.
  refine (inj_countable' (fmap u8) (fmap byte_of) _).
  intros l. induction l as [|b l IH]; [done|]. cbn. by rewrite byte_of_u8, IH.
Defined.
#[export] Instance Id16_eq_dec : EqDecision Id16 := Hash32_eq_dec.
#[export] Instance Id16_countable : Countable Id16 := Hash32_countable.
#[export] Instance Id16_cmp : Cmp Id16 := list_cmp.
#[export] Instance Id16_cmp_laws : CmpLaws Id16 := list_cmp_laws.

(** ** Error classes ([error.rs]) *)

Inductive ErrorClass :=
| Domain | LocalResource | TemporaryTransportClass | TrustSecurity
| Format | Evidence | RecoveryDestruction.

Inductive RetryDisposition :=
| CorrectInput | RetainDraftAndBlock | BoundedRetry | FailClosed
| IsolateObject | PreserveEntryAndReport | ReportExactPartialState.

Definition disposition (c : ErrorClass) : RetryDisposition :=
  match c with
  | Domain => CorrectInput
  | LocalResource => RetainDraftAndBlock
  | TemporaryTransportClass => BoundedRetry
  | TrustSecurity => FailClosed
  | Format => IsolateObject
  | Evidence => PreserveEntryAndReport
  | RecoveryDestruction => ReportExactPartialState
  end.

Inductive TechnicalErrorCode :=
| InvalidInput | LocalResourceUnavailable | TemporaryTransport | TrustViolation
| InvalidObject | EvidenceUnavailable | RecoveryPartialState.

#[export] Instance ErrorClass_eq_dec : EqDecision ErrorClass.
Proof. solve_decision. Defined.
#[export] Instance TechnicalErrorCode_eq_dec : EqDecision TechnicalErrorCode.
Proof. solve_decision. Defined.

Definition class (c : TechnicalErrorCode) : ErrorClass :=
  match c with
  | InvalidInput => Domain
  | LocalResourceUnavailable => LocalResource
  | TemporaryTransport => TemporaryTransportClass
  | TrustViolation => TrustSecurity
  | InvalidObject => Format
  | EvidenceUnavailable => Evidence
  | RecoveryPartialState => RecoveryDestruction
  end.

Definition code (c : TechnicalErrorCode) : string :=
  match c with
  | InvalidInput => "EA-DOMAIN-INVALID-INPUT"
  | LocalResourceUnavailable => "EA-LOCAL-RESOURCE-UNAVAILABLE"
  | TemporaryTransport => "EA-TRANSPORT-TEMPORARY"
  | TrustViolation => "EA-TRUST-VIOLATION"
  | InvalidObject => "EA-FORMAT-INVALID-OBJECT"
  | EvidenceUnavailable => "EA-EVIDENCE-UNAVAILABLE"
  | RecoveryPartialState => "EA-RECOVERY-PARTIAL-STATE"
  end.

Record TechnicalError := {
  err_code : TechnicalErrorCode;
  attempt : option Z;
  secret : option string;
}.

Definition TechnicalError_new (c : TechnicalErrorCode) : TechnicalError :=
  {| err_code := c; attempt := None; secret := None |}.
Definition with_secret (e : TechnicalError) (s : string) : TechnicalError :=
  {| err_code := err_code e; attempt := attempt e; secret := Some s |}.
Definition with_attempt (e : TechnicalError) (n : Z) : TechnicalError :=
  {| err_code := err_code e; attempt := Some n; secret := secret e |}.
Definition secret_matches (e : TechnicalError) (candidate : string) : bool :=
  match secret e with Some s => bool_decide (s = candidate) | None => false end.

(** ** The bounded retry policy ([error.rs]) *)

Record RetryConfig := {
  max_retries : Z;
  base_delay_ms : Z;
  cap_delay_ms : Z;
}.

Definition RetryConfig_new (max_retries base_delay_ms cap_delay_ms : Z)
  : option RetryConfig :=
  if (max_retries =? 0) || (base_delay_ms =? 0) || (cap_delay_ms =? 0) then None
  else Some {| max_retries := max_retries; base_delay_ms := base_delay_ms;
               cap_delay_ms := cap_delay_ms |}.

Inductive RetryState :=
| Active (failed_attempts : Z)
| Exhausted (failed_attempts : Z).

Inductive RetryDecision :=
| RetryAfter (delay_ms : Z)
| RetryExhausted (failed_attempts : Z).

Record RetryPolicy := { config : RetryConfig; state : RetryState }.

Definition into_retry_policy (e : TechnicalError) (c : RetryConfig)
  : result TechnicalError RetryPolicy :=
  if decide (class (err_code e) = TemporaryTransportClass)
  then Ok {| config := c; state := Active 0 |}
  else Err e.

(** [trait JitterSource]: a stateful source of delays below a ceiling. Nothing
    is promised about the value it returns. *)
Class JitterSource (J : Type) := jitter_ms : Z → J → Z * J.

(** [1_u64.checked_shl(exponent).unwrap_or(u64::MAX)] *)
Definition backoff_multiplier (exponent : Z) : Z :=
  if decide (exponent < 64) then Z.shiftl 1 exponent else u64_max.

Definition ceiling_ms (c : RetryConfig) (failed_attempts : Z) : Z :=
  Z.min (saturating_mul u64_max (base_delay_ms c) (backoff_multiplier (failed_attempts - 1)))
        (cap_delay_ms c).

(** [RetryPolicy::next]. [None] is the panic of [expect] on the [u16] counter. *)
Definition next {J} `{JitterSource J} (p : RetryPolicy) (j : J)
  : option (RetryDecision * RetryPolicy * J) :=
  match state p with
  | Exhausted n => Some (RetryExhausted n, p, j)
  | Active n =>
      n' ← checked_add u16_max n 1;
      if decide (n' > max_retries (config p)) then
        Some (RetryExhausted n', {| config := config p; state := Exhausted n' |}, j)
      else
        let ceiling := ceiling_ms (config p) n' in
        let '(delay, j') := jitter_ms ceiling j in
        Some (RetryAfter (Z.min delay ceiling),
              {| config := config p; state := Active n' |}, j')
  end.

(** ** Facts about the retry policy *)

(** The range of the fields ([u8], [u64]) and the guard of [RetryConfig::new]. *)
Definition retry_config_wf (c : RetryConfig) : Prop :=
  1 ≤ max_retries c ≤ u8_max ∧
  1 ≤ base_delay_ms c ≤ u64_max ∧ 1 ≤ cap_delay_ms c ≤ u64_max.

Definition in_u8 (z : Z) : Prop := 0 ≤ z ≤ u8_max.

Lemma RetryConfig_new_wf m b k c :
  in_u8 m → in_u64 b → in_u64 k → RetryConfig_new m b k = Some c →
  retry_config_wf c.
Proof.
  unfold RetryConfig_new, in_u8, in_u64, retry_config_wf. intros ??? Hc.
  destruct (m =? 0) eqn:E1, (b =? 0) eqn:E2, (k =? 0) eqn:E3; try discriminate Hc.
  injection Hc as <-. cbn. lia.
Qed.

(** The saturating arithmetic never shows: the ceiling is the mathematical
    exponential, capped. *)
Lemma ceiling_ms_exact c n :
  retry_config_wf c → 1 ≤ n →
  ceiling_ms c n = Z.min (base_delay_ms c * 2 ^ (n - 1)) (cap_delay_ms c).
Proof.
  intros (_ & Hb & Hc) Hn. unfold ceiling_ms, saturating_mul, backoff_multiplier.
  case_decide as He.
  - rewrite Z.shiftl_mul_pow2, Z.mul_1_l by lia. lia.
  - assert (2 ^ 64 ≤ 2 ^ (n - 1)) by (apply Z.pow_le_mono_r; lia).
    unfold u64_max in *. nia.
Qed.

(** [k] calls of [next] in a row, with the decisions they return. *)
Fixpoint retry_run {J} `{JitterSource J} (k : nat) (p : RetryPolicy) (j : J)
  : option (list RetryDecision * RetryPolicy * J) :=
  match k with
  | O => Some ([], p, j)
  | S k => '(d, p', j') ← next p j;
           '(ds, p'', j'') ← retry_run k p' j';
           Some (d :: ds, p'', j'')
  end.

(** What decision number [i] (from 0) of a fresh policy must look like. *)
Definition retry_decision_ok (c : RetryConfig) (i : Z) (d : RetryDecision) : Prop :=
  match d with
  | RetryAfter delay =>
      i < max_retries c ∧ delay ≤ Z.min (base_delay_ms c * 2 ^ i) (cap_delay_ms c)
  | RetryExhausted n => max_retries c ≤ i ∧ n = max_retries c + 1
  end.

Definition retry_state_at (c : RetryConfig) (i : Z) : RetryState :=
  if decide (i ≤ max_retries c) then Active i else Exhausted (max_retries c + 1).

Section RetryFacts.
Context {J : Type} `{JitterSource J} (c : RetryConfig) (Hwf : retry_config_wf c).

Lemma next_step i (j : J) :
  0 ≤ i →
  ∃ d j', next {| config := c; state := retry_state_at c i |} j
          = Some (d, {| config := c; state := retry_state_at c (i + 1) |}, j')
        ∧ retry_decision_ok c i d.
Proof.
  intros Hi. pose proof Hwf as (Hm & _). unfold retry_state_at, next.
  case_decide as Hle; cbn.
  - unfold checked_add. rewrite decide_True by (unfold u8_max, u16_max in *; lia).
    cbn. destruct (decide (i + 1 > max_retries c)) as [Hgt|Hgt].
    + rewrite decide_False by lia. eexists _, _. split.
      { by replace (i + 1) with (max_retries c + 1) by lia. }
      cbn. lia.
    + rewrite decide_True by lia. destruct (jitter_ms _ j) as [delay j'].
      eexists _, _. split; [done|]. cbn. rewrite ceiling_ms_exact by (done || lia).
      replace (i + 1 - 1) with i by lia. lia.
  - rewrite decide_False by lia. eexists _, _. split; [done|]. cbn. lia.
Qed.

Lemma retry_run_from k i (j : J) :
  0 ≤ i →
  ∃ ds j', retry_run k {| config := c; state := retry_state_at c i |} j
           = Some (ds, {| config := c; state := retry_state_at c (i + Z.of_nat k) |}, j')
         ∧ length ds = k
         ∧ ∀ n d, ds !! n = Some d → retry_decision_ok c (i + Z.of_nat n) d.
Proof.
  revert i j. induction k as [|k IH]; intros i j Hi; cbn.
  - rewrite Z.add_0_r. by eexists _, _.
  - destruct (next_step i j Hi) as (d & j' & -> & Hd). cbn.
    destruct (IH (i + 1) j' ltac:(lia)) as (ds & j'' & -> & Hlen & Hds).
    eexists _, _. split; [by replace (i + Z.of_nat (S k)) with
      (i + 1 + Z.of_nat k) by lia|].
    split; [by cbn; f_equal|]. intros [|n] e.
    + intros [= ->]. by rewrite Z.add_0_r.
    + intros He. apply Hds in He.
      by replace (i + Z.of_nat (S n)) with (i + 1 + Z.of_nat n) by lia.
Qed.
End RetryFacts.

(** A temporary transport error becomes a policy that never panics:
    for any jitter source and any number [k] of consecutive failures, decision
    [i] grants a delay of at most [min (base * 2^i) cap] as long as [i] is below
    the configured bound, and is [RetryExhausted (max_retries + 1)] from then
    on. *)
Theorem retry_policy_bounded {J} `{JitterSource J} (c : RetryConfig)
  (e : TechnicalError) (k : nat) (j : J) :
  retry_config_wf c → err_code e = TemporaryTransport →
  ∃ p ds p' j', into_retry_policy e c = Ok p ∧
    retry_run k p j = Some (ds, p', j') ∧ length ds = k ∧
    ∀ i d, ds !! i = Some d → retry_decision_ok c (Z.of_nat i) d.
Proof.
  intros Hwf He. unfold into_retry_policy. rewrite He. cbn.
  pose proof (retry_run_from c Hwf k 0 j ltac:(lia)) as (ds & j' & Hrun & Hlen & Hds).
  unfold retry_state_at at 1 in Hrun. destruct Hwf as (Hm & _).
  rewrite decide_True in Hrun by lia. by eexists _, ds, _, j'.
Qed.

(** A jitter source that always asks for far more than the ceiling. *)
#[export] Instance greedy_jitter : JitterSource unit := fun _ j => (u64_max, j).

Definition retry_example : RetryConfig :=
  {| max_retries := 3; base_delay_ms := 100; cap_delay_ms := 250 |}.

Lemma retry_policy_bounded_witness :
  ∃ ds p' j', retry_run 5 {| config := retry_example; state := Active 0 |} tt
    = Some (ds, p', j') ∧ length ds = 5%nat ∧
    ∀ i d, ds !! i = Some d → retry_decision_ok retry_example (Z.of_nat i) d.
Proof.
  destruct (retry_policy_bounded retry_example
    (TechnicalError_new TemporaryTransport) 5 tt) as (p & ds & p' & j' & Hp & H).
  - repeat split; vm_compute; discriminate.
  - reflexivity.
  - injection Hp as <-. exists ds, p', j'. exact H.
Defined.

(** No other error class reaches a retry policy. *)
Lemma into_retry_policy_closed e c p :
  into_retry_policy e c = Ok p → err_code e = TemporaryTransport.
Proof.
  unfold into_retry_policy. case_decide as Hc; [|done]. intros _.
  by destruct (err_code e).
Qed.

Example retry_example_run :
  option_map (λ r, r.1.1)
    (retry_run 5 {| config := retry_example; state := Active 0 |} tt)
  = Some [RetryAfter 100; RetryAfter 200; RetryAfter 250;
          RetryExhausted 4; RetryExhausted 4].
Proof. reflexivity. Qed.
