(* ===== verification/TrustedTime.v ===== *)
(** * TrustedTime: the [ea-time] crate

    The persisted trusted-time state ([model.rs]) and the three operations on
    it ([evaluate.rs]): merging verified independent references, evaluating the
    wall clock against the floor, and advancing the floor with a registry
    object. Times are [i64] milliseconds. *)

From S2P Require Import Prelude Types.

(** ** Data ([model.rs]) *)

Inductive TimeError := Overflow | StateMonotonicity.

Inductive IndependentTimeKind := Receipt | Checkpoint | Tsa.

#[export] Instance IndependentTimeKind_eq_dec : EqDecision IndependentTimeKind.
Proof. solve_decision. Defined.

Definition tag (k : IndependentTimeKind) : Z :=
  match k with Receipt => 0 | Checkpoint => 1 | Tsa => 2 end.

(** [IndependentTimeInput] and [IndependentTimeReference] have the same fields;
    [from_input] copies them. *)
Record IndependentTimeInput := {
  in_kind : IndependentTimeKind;
  in_object_hash : ObjectHash;
  in_verified_time : UnixMillis;
}.

Record IndependentTimeReference := {
  kind : IndependentTimeKind;
  object_hash : ObjectHash;
  verified_time : UnixMillis;
}.

#[export] Instance IndependentTimeReference_eq_dec :
  EqDecision IndependentTimeReference.
Proof. solve_decision. Defined.

Definition from_input (i : IndependentTimeInput) : IndependentTimeReference :=
  {| kind := in_kind i; object_hash := in_object_hash i;
     verified_time := in_verified_time i |}.

Definition is_preferred_to (self other : IndependentTimeReference) : bool :=
  match cmp (verified_time self) (verified_time other) with
  | Gt => true
  | Lt => false
  | Eq =>
      match cmp (tag (kind self)) (tag (kind other)) with
      | Lt => true
      | Gt => false
      | Eq => match cmp (object_hash self) (object_hash other) with
              | Lt => true | _ => false end
      end
  end.

Record TrustedTimeState := {
  floor : UnixMillis;
  independent_reference : option IndependentTimeReference;
}.

Definition initial (floor : UnixMillis) : TrustedTimeState :=
  {| floor := floor; independent_reference := None |}.

Definition validate (s : TrustedTimeState) : result TimeError unit :=
  match independent_reference s with
  | Some r => ensure (verified_time r <=? floor s) StateMonotonicity
  | None => Ok tt
  end.

Definition from_persisted (floor : UnixMillis) (r : option IndependentTimeInput)
  : result TimeError TrustedTimeState :=
  let s := {| floor := floor; independent_reference := from_input <$> r |} in
  _ ← validate s; Ok s.

Record TimeAdvance := { adv_state : TrustedTimeState; changed : bool }.

Record TimeWarnings := {
  clock_rollback : bool;
  independent_time_unavailable : bool;
}.

Inductive FutureSkew :=
| WithinLimit | UnprovableWithoutIndependentReference | Blocked.

Record TimeEvaluation := {
  raw_now : UnixMillis;
  warnings : TimeWarnings;
  future_skew : FutureSkew;
}.

(** ** Operations ([evaluate.rs]) *)

Definition merge_step (selected : option IndependentTimeReference)
  (input : IndependentTimeInput) : option IndependentTimeReference :=
  let candidate := from_input input in
  match selected with
  | None => Some candidate
  | Some current =>
      if is_preferred_to candidate current then Some candidate else selected
  end.

Definition merge_independent_references (persisted : TrustedTimeState)
  (verified_inputs : list IndependentTimeInput) : result TimeError TimeAdvance :=
  _ ← validate persisted;
  let selected := fold_left merge_step verified_inputs
                            (independent_reference persisted) in
  let new_floor := match selected with
                   | None => floor persisted
                   | Some r => Z.max (floor persisted) (verified_time r)
                   end in
  Ok {| adv_state := {| floor := new_floor; independent_reference := selected |};
        changed := bool_decide (selected ≠ independent_reference persisted) |}.

Definition checked_add_millis (time : UnixMillis) (delta : Z)
  : result TimeError UnixMillis :=
  let sum := time + delta in
  if decide (i64_min ≤ sum ≤ i64_max) then Ok sum else Err Overflow.

Definition evaluate_preexisting_time (os_wall_clock : UnixMillis)
  (s : TrustedTimeState) (max_future_clock_skew_ms : Z)
  : result TimeError TimeEvaluation :=
  _ ← validate s;
  '(unavailable, skew) ←
    match independent_reference s with
    | None => Ok (true, UnprovableWithoutIndependentReference)
    | Some r =>
        future_limit ← checked_add_millis (verified_time r) max_future_clock_skew_ms;
        Ok (false, if os_wall_clock <=? future_limit then WithinLimit else Blocked)
    end;
  Ok {| raw_now := Z.max os_wall_clock (floor s);
        warnings := {| clock_rollback := os_wall_clock <? floor s;
                       independent_time_unavailable := unavailable |};
        future_skew := skew |}.

Definition advance_registry_floor (s : TrustedTimeState)
  (issued_at not_before : UnixMillis) : TrustedTimeState :=
  {| floor := Z.max (Z.max (floor s) issued_at) not_before;
     independent_reference := independent_reference s |}.

(** ** The preference order *)

(** Latest time first, then the smaller kind tag, then the smaller hash. *)
Definition preference_key (r : IndependentTimeReference) : Z * (Z * Hash32) :=
  (- verified_time r, (tag (kind r), object_hash r)).

Lemma tag_inj k k' : tag k = tag k' → k = k'.
Proof. by destruct k, k'. Qed.

Lemma preference_key_inj r r' : preference_key r = preference_key r' → r = r'.
Proof.
  destruct r as [k h t], r' as [k' h' t']; unfold preference_key; cbn.
  intros [= Ht Hk Hh]. apply tag_inj in Hk. f_equal; [done|done|lia].
Qed.

Lemma is_preferred_to_spec r r' :
  is_preferred_to r r' = true ↔ cmp (preference_key r) (preference_key r') = Lt.
Proof.
  unfold is_preferred_to, preference_key.
  change (@cmp (Z * (Z * Hash32)) _) with (@prod_compare Z (Z * Hash32) _ _).
  unfold prod_compare; cbn [fst snd].
  change (@cmp (Z * Hash32) _) with (@prod_compare Z Hash32 _ _).
  unfold prod_compare; cbn [fst snd].
  assert (cmp (- verified_time r) (- verified_time r')
          = CompOpp (cmp (verified_time r) (verified_time r'))) as ->.
  { unfold cmp, Z_cmp. rewrite Z.compare_opp. apply Z.compare_antisym. }
  destruct (cmp (verified_time r) (verified_time r')); cbn; [|done|done].
  destruct (cmp (tag (kind r)) (tag (kind r'))); [|done|done].
  by destruct (cmp (object_hash r) (object_hash r')).
Qed.

(** [r] is at least as preferred as [r']. *)
Definition preferred_or_equal (r r' : IndependentTimeReference) : Prop :=
  cmp (preference_key r) (preference_key r') ≠ Gt.

Lemma merge_step_spec sel i :
  ∃ r, merge_step sel i = Some r ∧
    (Some r = sel ∨ r = from_input i) ∧
    preferred_or_equal r (from_input i) ∧
    ∀ r0, sel = Some r0 → preferred_or_equal r r0.
Proof.
  unfold merge_step, preferred_or_equal. destruct sel as [r0|].
  - destruct (is_preferred_to (from_input i) r0) eqn:E.
    + apply is_preferred_to_spec in E. eexists. split; [done|].
      split; [by right|]. rewrite cmp_refl. split; [done|].
      intros ? [= <-]. by rewrite E.
    + exists r0. split; [done|]. split; [by left|]. split.
      * intros Hgt%cmp_gt_lt%is_preferred_to_spec. congruence.
      * intros ? [= <-]. by rewrite cmp_refl.
  - eexists. split; [done|]. split; [by right|]. by rewrite cmp_refl.
Qed.

(** The references a merge chooses from. *)
Definition candidates (sel : option IndependentTimeReference)
  (inputs : list IndependentTimeInput) : list IndependentTimeReference :=
  option_list sel ++ (from_input <$> inputs).

Lemma merge_fold_spec inputs sel r :
  fold_left merge_step inputs sel = Some r →
  r ∈ candidates sel inputs ∧ ∀ r', r' ∈ candidates sel inputs → preferred_or_equal r r'.
Proof.
  unfold candidates. revert sel. induction inputs as [|i inputs IH]; intros sel; cbn.
  - intros ->. cbn. split; [set_solver|].
    intros r' ->%list_elem_of_singleton. unfold preferred_or_equal. by rewrite cmp_refl.
  - intros Hfold. destruct (merge_step_spec sel i) as (r0 & E & Hin & Hi & Hsel).
    rewrite E in Hfold. apply IH in Hfold as [Hr Hmin]. cbn in Hr, Hmin. split.
    + destruct Hin as [<- | ->]; set_solver.
    + intros r' Hr'. assert (preferred_or_equal r r0) as Hr0 by (apply Hmin; set_solver).
      rewrite !elem_of_app, elem_of_cons in Hr'. destruct Hr' as [Hr'|[->|Hr']].
      * eapply cmp_le_trans; [exact Hr0|]. apply Hsel. by destruct sel; set_solver.
      * by eapply cmp_le_trans.
      * apply Hmin. set_solver.
Qed.

Lemma merge_fold_None inputs sel :
  fold_left merge_step inputs sel = None ↔ candidates sel inputs = [].
Proof.
  unfold candidates. revert sel. induction inputs as [|i inputs IH]; intros sel; cbn.
  - destruct sel; cbn; split; congruence.
  - destruct (merge_step_spec sel i) as (r0 & E & _). rewrite E, IH. cbn.
    split; [done|]. by destruct sel.
Qed.

(** The selected reference depends only on the set of candidates. *)
Lemma merge_fold_ext inputs inputs' sel sel' :
  (∀ r, r ∈ candidates sel inputs ↔ r ∈ candidates sel' inputs') →
  fold_left merge_step inputs sel = fold_left merge_step inputs' sel'.
Proof.
  intros Hext.
  destruct (fold_left merge_step inputs sel) as [r|] eqn:E,
    (fold_left merge_step inputs' sel') as [r'|] eqn:E'; [| | |done].
  - apply merge_fold_spec in E as [Hr Hm], E' as [Hr' Hm'].
    f_equal. apply preference_key_inj, cmp_le_antisymm.
    + apply Hm. by apply Hext.
    + apply Hm'. by apply Hext.
  - apply merge_fold_spec in E as [Hr _]. apply merge_fold_None in E'.
    apply Hext in Hr. rewrite E' in Hr. by apply elem_of_nil in Hr.
  - apply merge_fold_spec in E' as [Hr _]. apply merge_fold_None in E.
    apply Hext in Hr. rewrite E in Hr. by apply elem_of_nil in Hr.
Qed.

(** ** The state invariant *)

Definition time_valid (s : TrustedTimeState) : Prop :=
  match independent_reference s with
  | Some r => verified_time r ≤ floor s
  | None => True
  end.

Lemma validate_valid s : validate s = Ok tt ↔ time_valid s.
Proof.
  unfold validate, time_valid. destruct (independent_reference s); [|done].
  rewrite ensure_Ok, Z.leb_le. done.
Qed.

Lemma validate_invalid s : ¬ time_valid s → validate s = Err StateMonotonicity.
Proof.
  unfold validate, time_valid. destruct (independent_reference s) as [r|]; [|done].
  intros Hlt. destruct (verified_time r <=? floor s) eqn:E; [lia|done].
Qed.

Lemma merge_valid s inputs :
  time_valid s →
  merge_independent_references s inputs =
    Ok {| adv_state := {|
            floor := match fold_left merge_step inputs (independent_reference s) with
                     | None => floor s
                     | Some r => Z.max (floor s) (verified_time r) end;
            independent_reference :=
              fold_left merge_step inputs (independent_reference s) |};
          changed := bool_decide (fold_left merge_step inputs (independent_reference s)
                                  ≠ independent_reference s) |}.
Proof.
  intros Hv. unfold merge_independent_references.
  by rewrite (proj2 (validate_valid s) Hv).
Qed.

(** A preferred reference is at least as late. *)
Lemma preferred_time r r' : preferred_or_equal r r' → verified_time r' ≤ verified_time r.
Proof.
  unfold preferred_or_equal, preference_key.
  change (@cmp (Z * (Z * Hash32)) _) with (@prod_compare Z (Z * Hash32) _ _).
  unfold prod_compare, cmp, Z_cmp; cbn [fst snd].
  destruct (- verified_time r ?= - verified_time r') eqn:E; [| |done].
  - apply Z.compare_eq in E. lia.
  - rewrite Z.compare_lt_iff in E. lia.
Qed.

Lemma merge_sound s inputs :
  time_valid s →
  ∃ a, merge_independent_references s inputs = Ok a ∧
    time_valid (adv_state a) ∧
    floor s ≤ floor (adv_state a) ∧
    (∀ i, i ∈ inputs → in_verified_time i ≤ floor (adv_state a)) ∧
    (floor (adv_state a) = floor s ∨
     ∃ i, i ∈ inputs ∧ floor (adv_state a) = in_verified_time i).
Proof.
  intros Hv. rewrite (merge_valid s inputs Hv). eexists. split; [done|].
  unfold time_valid in *. cbn.
  destruct (fold_left merge_step inputs (independent_reference s)) as [r|] eqn:E.
  - apply merge_fold_spec in E as [Hr Hmin]. unfold candidates in Hr, Hmin.
    split; [lia|]. split; [lia|]. split.
    + intros i Hi. pose proof (preferred_time r (from_input i)
        ltac:(apply Hmin; set_solver)) as Ht. cbn in Ht. lia.
    + apply elem_of_app in Hr as [Hr|Hr].
      * left. destruct (independent_reference s) as [r0|]; [|set_solver].
        cbn in Hr. apply list_elem_of_singleton in Hr as ->. lia.
      * apply list_elem_of_fmap in Hr as (i & -> & Hi). cbn.
        destruct (Z.max_spec (floor s) (in_verified_time i)) as [[_ ->]|[_ ->]];
          [right; by exists i|by left].
  - apply merge_fold_None in E. unfold candidates in E. apply app_eq_nil in E as [_ E].
    apply fmap_nil_inv in E as ->. repeat split; [done|set_solver|by left].
Qed.

(** Merging verified references into a valid state succeeds and keeps
    the state valid; the floor never falls, reaches every merged time, and is
    no later than the old floor or one of the merged times. *)
Theorem merge_references_sound s inputs :
  time_valid s →
  ∃ a, merge_independent_references s inputs = Ok a ∧
    time_valid (adv_state a) ∧
    floor s ≤ floor (adv_state a) ∧
    (∀ i, i ∈ inputs → in_verified_time i ≤ floor (adv_state a)) ∧
    (floor (adv_state a) = floor s ∨
     ∃ i, i ∈ inputs ∧ floor (adv_state a) = in_verified_time i).
Proof. apply merge_sound. Qed.

Definition example_receipt : IndependentTimeInput :=
  {| in_kind := Receipt; in_object_hash := [x01]; in_verified_time := 1500 |}.
Definition example_tsa : IndependentTimeInput :=
  {| in_kind := Tsa; in_object_hash := [x02]; in_verified_time := 1500 |}.

Lemma merge_references_sound_witness :
  ∃ a, merge_independent_references (initial 1000) [example_receipt; example_tsa] = Ok a
    ∧ 1500 ≤ floor (adv_state a).
Proof.
  destruct (merge_references_sound (initial 1000) [example_receipt; example_tsa] I)
    as (a & Ha & _ & _ & Hi & _).
  exists a. split; [exact Ha|]. apply (Hi example_receipt). constructor.
Defined.

(** The outcome of a merge does not depend on the order in which
    the verified references are given. *)
Theorem merge_references_order_independent s inputs inputs' :
  inputs ≡ₚ inputs' →
  merge_independent_references s inputs = merge_independent_references s inputs'.
Proof.
  intros Hp. unfold merge_independent_references.
  rewrite (merge_fold_ext inputs inputs' (independent_reference s)
             (independent_reference s)); [done|].
  intros r. unfold candidates. by rewrite Hp.
Qed.

Lemma merge_references_order_independent_witness :
  merge_independent_references (initial 1000) [example_receipt; example_tsa]
  = merge_independent_references (initial 1000) [example_tsa; example_receipt].
Proof. apply merge_references_order_independent. apply Permutation_swap. Defined.

Lemma merge_fold_fixed inputs r :
  (∀ i, i ∈ inputs → preferred_or_equal r (from_input i)) →
  fold_left merge_step inputs (Some r) = Some r.
Proof.
  induction inputs as [|i inputs IH]; intros Hi; [done|]. cbn.
  destruct (is_preferred_to (from_input i) r) eqn:E.
  - apply is_preferred_to_spec, cmp_gt_lt in E. exfalso.
    by apply (Hi i); [constructor|].
  - apply IH. set_solver.
Qed.

Lemma merge_fold_idempotent inputs sel :
  fold_left merge_step inputs (fold_left merge_step inputs sel)
  = fold_left merge_step inputs sel.
Proof.
  destruct (fold_left merge_step inputs sel) as [r|] eqn:E.
  - apply merge_fold_fixed. apply merge_fold_spec in E as [_ Hmin].
    intros i Hi. apply Hmin. unfold candidates. set_solver.
  - apply merge_fold_None in E. unfold candidates in E.
    by apply app_eq_nil in E as [_ ->%fmap_nil_inv].
Qed.

Lemma merge_Ok_valid s inputs a :
  merge_independent_references s inputs = Ok a → time_valid s.
Proof.
  unfold merge_independent_references. intros Ha. inv_ok.
  apply validate_valid. by destruct x.
Qed.

(** Merging the same references again changes nothing: the state
    is the same and [changed] is false. *)
Theorem merge_references_idempotent s inputs a :
  merge_independent_references s inputs = Ok a →
  merge_independent_references (adv_state a) inputs
    = Ok {| adv_state := adv_state a; changed := false |}.
Proof.
  intros Ha. pose proof (merge_Ok_valid s inputs a Ha) as Hv.
  rewrite (merge_valid s inputs Hv) in Ha. injection Ha as <-. cbn.
  rewrite merge_valid.
  - cbn. rewrite merge_fold_idempotent, bool_decide_eq_false_2 by tauto.
    repeat f_equal. destruct (fold_left _ _ _); [|done]. lia.
  - unfold time_valid; cbn. destruct (fold_left _ _ _); [lia|done].
Qed.

Lemma merge_references_idempotent_witness :
  ∃ a, merge_independent_references (initial 1000) [example_receipt] = Ok a ∧
    merge_independent_references (adv_state a) [example_receipt]
      = Ok {| adv_state := adv_state a; changed := false |}.
Proof.
  eexists. split; [reflexivity|].
  eapply (merge_references_idempotent (initial 1000)). reflexivity.
Defined.

(** ** Evaluation and histories *)

(** The future-skew verdict the specification asks for. *)
Definition skew_verdict (os : UnixMillis) (s : TrustedTimeState) (skew : Z)
  : FutureSkew :=
  match independent_reference s with
  | None => UnprovableWithoutIndependentReference
  | Some r => if decide (os ≤ verified_time r + skew) then WithinLimit else Blocked
  end.

(** The addition of the permitted skew leaves [i64]. *)
Definition skew_overflows (s : TrustedTimeState) (skew : Z) : Prop :=
  match independent_reference s with
  | None => False
  | Some r => i64_max < verified_time r + skew
  end.

(** The ranges of the machine types of a state. *)
Definition time_in_range (s : TrustedTimeState) : Prop :=
  in_i64 (floor s) ∧
  match independent_reference s with Some r => in_i64 (verified_time r) | None => True end.

(** Evaluating the wall clock against a state of [i64] times is
    exact on every branch: an invalid state is refused as [StateMonotonicity],
    an overflowing skew limit as [Overflow], and otherwise the reported time is
    the later of clock and floor, the rollback warning says that the clock is
    behind the floor, and the skew verdict is the mathematical one. *)
Theorem evaluate_preexisting_time_spec os s skew :
  time_in_range s → in_u64 skew →
  (¬ time_valid s ∧ evaluate_preexisting_time os s skew = Err StateMonotonicity) ∨
  (time_valid s ∧ skew_overflows s skew ∧
     evaluate_preexisting_time os s skew = Err Overflow) ∨
  (time_valid s ∧ ¬ skew_overflows s skew ∧
     evaluate_preexisting_time os s skew = Ok {|
       raw_now := Z.max os (floor s);
       warnings := {| clock_rollback := bool_decide (os < floor s);
         independent_time_unavailable := bool_decide (independent_reference s = None) |};
       future_skew := skew_verdict os s skew |}).
Proof.
  intros [_ Hr] Hs. unfold evaluate_preexisting_time, skew_overflows, skew_verdict.
  destruct (validate s) as [[]|e] eqn:Ev; cbn.
  2: { left. assert (¬ time_valid s) as Hi by (rewrite <- validate_valid; congruence).
       rewrite (validate_invalid s Hi) in Ev. by injection Ev as <-. }
  right. apply validate_valid in Ev.
  assert ((os <? floor s) = bool_decide (os < floor s)) as ->.
  { case_bool_decide; [by apply Z.ltb_lt|by apply Z.ltb_ge; lia]. }
  destruct (independent_reference s) as [r|]; cbn; [|right; tauto].
  unfold checked_add_millis, in_i64, in_u64, i64_min in *.
  case_decide as Hd; cbn.
  - right. split; [done|]. split; [lia|]. repeat f_equal.
    case_decide as Hle; [by rewrite (proj2 (Z.leb_le _ _) Hle)|].
    by rewrite (proj2 (Z.leb_gt _ _)) by lia.
  - left. split; [done|]. split; [lia|done].
Qed.

Lemma evaluate_preexisting_time_spec_witness :
  evaluate_preexisting_time 900 (initial 1000) 60000 = Ok {|
    raw_now := 1000;
    warnings := {| clock_rollback := true; independent_time_unavailable := true |};
    future_skew := UnprovableWithoutIndependentReference |}.
Proof.
  destruct (evaluate_preexisting_time_spec 900 (initial 1000) 60000)
    as [[_ H]|[(_ & H & _)|(_ & _ & H)]].
  - split; [split; vm_compute; discriminate|exact I].
  - split; vm_compute; discriminate.
  - discriminate H.
  - destruct H.
  - exact H.
Defined.

(** One operation on the persisted state, with the references it merges and the
    times it has verified. *)
Inductive time_step :
  TrustedTimeState → list IndependentTimeInput → list UnixMillis → TrustedTimeState → Prop :=
| step_merge s inputs a :
    merge_independent_references s inputs = Ok a →
    time_step s inputs (in_verified_time <$> inputs) (adv_state a)
| step_registry s issued_at not_before :
    time_step s [] [issued_at; not_before] (advance_registry_floor s issued_at not_before).

Inductive time_history :
  TrustedTimeState → list IndependentTimeInput → list UnixMillis → TrustedTimeState → Prop :=
| history_nil s : time_history s [] [] s
| history_step s refs ts s' refs' ts' s'' :
    time_step s refs ts s' → time_history s' refs' ts' s'' →
    time_history s (refs ++ refs') (ts ++ ts') s''.

Lemma time_step_valid s refs ts s' :
  time_step s refs ts s' → time_valid s →
  time_valid s' ∧ floor s ≤ floor s' ∧ Forall (λ t, t ≤ floor s') ts.
Proof.
  intros [s0 inputs a Ha|s0 t t'] Hv.
  - destruct (merge_sound s0 inputs Hv) as (a' & Ha' & Hv' & Hf & Hi & _).
    rewrite Ha in Ha'. injection Ha' as <-. split; [done|]. split; [done|].
    apply Forall_fmap, Forall_forall. exact Hi.
  - unfold time_valid in *. cbn. split; [destruct (independent_reference s0); lia|].
    split; [lia|]. repeat constructor; lia.
Qed.

Lemma time_history_valid s refs ts s' :
  time_history s refs ts s' → time_valid s →
  time_valid s' ∧ floor s ≤ floor s' ∧ Forall (λ t, t ≤ floor s') ts.
Proof.
  induction 1 as [s|s refs ts s' refs' ts' s'' Hs _ IH]; intros Hv; [by repeat split|].
  destruct (time_step_valid _ _ _ _ Hs Hv) as (Hv' & Hf & Ht).
  destruct (IH Hv') as (Hv'' & Hf' & Ht'). split; [done|]. split; [lia|].
  apply Forall_app. split; [|done]. eapply Forall_impl; [exact Ht|]. cbn. lia.
Qed.

(** A step selects among the old reference and those it merges. *)
Lemma time_step_reference s refs ts s' :
  time_step s refs ts s' →
  independent_reference s' = fold_left merge_step refs (independent_reference s).
Proof.
  intros [s0 inputs a Ha|s0 t t']; [|done].
  rewrite (merge_valid s0 inputs (merge_Ok_valid _ _ _ Ha)) in Ha. by injection Ha as <-.
Qed.

(** A whole history selects like one merge of all its references. *)
Lemma time_history_reference s refs ts s' :
  time_history s refs ts s' →
  independent_reference s' = fold_left merge_step refs (independent_reference s).
Proof.
  induction 1 as [s|s refs ts s' refs' ts' s'' Hs _ IH]; [done|].
  by rewrite fold_left_app, IH, (time_step_reference _ _ _ _ Hs).
Qed.

(** A merge keeps a reference that is no earlier than any candidate. *)
Lemma merge_fold_latest refs sel r :
  r ∈ candidates sel refs →
  ∃ r', fold_left merge_step refs sel = Some r' ∧ verified_time r ≤ verified_time r'.
Proof.
  intros Hr. destruct (fold_left merge_step refs sel) as [r'|] eqn:E.
  - apply merge_fold_spec in E as [_ Hmin]. exists r'. split; [done|].
    by apply preferred_time, Hmin.
  - apply merge_fold_None in E. rewrite E in Hr. by apply elem_of_nil in Hr.
Qed.

(** C40. Along any history of merges and registry advances from a
    valid state, the state stays valid and the floor never falls. A persisted
    reference is never lost: at the end the state holds one that is no earlier
    than the one at the start and than every reference merged since, and it is
    one of them. Every evaluation of the wall clock that succeeds afterwards
    reports a time no earlier than any time verified in the history. *)
Theorem trusted_time_never_rolls_back s refs ts s' :
  time_history s refs ts s' → time_valid s →
  time_valid s' ∧ floor s ≤ floor s' ∧
  (∀ r, r ∈ candidates (independent_reference s) refs →
    ∃ r', independent_reference s' = Some r' ∧ verified_time r ≤ verified_time r') ∧
  (∀ r', independent_reference s' = Some r' → r' ∈ candidates (independent_reference s) refs) ∧
  ∀ os skew e, evaluate_preexisting_time os s' skew = Ok e →
    floor s ≤ raw_now e ∧ Forall (λ t, t ≤ raw_now e) ts.
Proof.
  intros Hh Hv. destruct (time_history_valid s refs ts s' Hh Hv) as (Hv' & Hf & Ht).
  pose proof (time_history_reference _ _ _ _ Hh) as Href. split_and!; [done|done| | |].
  - intros r Hr. rewrite Href. by apply merge_fold_latest.
  - intros r' Hr'. rewrite Href in Hr'. by apply merge_fold_spec in Hr' as [? _].
  - intros os skew e He. unfold evaluate_preexisting_time in He. inv_ok. destruct x0 as [u sk].
    inv_ok. cbn. split; [lia|]. eapply Forall_impl; [exact Ht|]. cbn. lia.
Qed.

(** A state with a reference of time 4000, an earlier receipt and a registry
    object. *)
Definition example_tsa_late : IndependentTimeInput :=
  {| in_kind := Tsa; in_object_hash := [x03]; in_verified_time := 4000 |}.
Definition example_time_state : TrustedTimeState :=
  {| floor := 5000; independent_reference := Some (from_input example_tsa_late) |}.

Lemma trusted_time_never_rolls_back_witness :
  ∃ s', time_history example_time_state [example_receipt] [1500; 900; 6000] s' ∧
  time_valid s' ∧ 5000 ≤ floor s' ∧
  (∃ r', independent_reference s' = Some r' ∧ 4000 ≤ verified_time r') ∧
  ∀ os skew e, evaluate_preexisting_time os s' skew = Ok e →
    5000 ≤ raw_now e ∧ Forall (λ t, t ≤ raw_now e) [1500; 900; 6000].
Proof.
  assert (time_history example_time_state [example_receipt] [1500; 900; 6000]
    {| floor := 6000; independent_reference := Some (from_input example_tsa_late) |}) as Hh.
  { eapply (history_step _ [example_receipt] [1500] _ [] [900; 6000]).
    - eapply (step_merge _ [example_receipt]). reflexivity.
    - eapply (history_step _ [] [900; 6000] _ [] []); [apply step_registry|apply history_nil]. }
  eexists. split; [exact Hh|].
  destruct (trusted_time_never_rolls_back example_time_state _ _ _ Hh) as (? & ? & Hr & _ & ?).
  - vm_compute. discriminate.
  - split; [done|]. split; [done|]. split; [|done].
    apply (Hr (from_input example_tsa_late)). cbn. constructor.
Defined.
