(* ===== verification/Chain.v ===== *)
(** * Chain: the [ea-chain] crate, chain building

    Chain nodes as values ([node.rs]) and the linkage check [build_chain] with
    its findings: breaks, forks, gaps, head and verified head ([chain.rs]).
    Sequences are [u64]; hashes are compared bytewise. *)

From S2P Require Import Prelude Types.

(** ** Data ([node.rs], [error.rs], [chain.rs]) *)

Inductive ChainNodeKind := EntryPackage | DestroyedStub.

Record ChainNode := {
  chain_id : ChainId;
  chain_sequence : ChainSequence;
  previous_entry_hash : option EntryHash;
  entry_hash : EntryHash;
  object_hash : ObjectHash;
  writer_certificate_hash : CertificateHash;
  writer_transition_event_hash : option ObjectHash;
  node_kind : ChainNodeKind;
}.

Inductive ChainError := ForeignChainId | GenesisBinding | NodeLimit.

Record ChainHead := {
  head_chain_id : ChainId;
  head_sequence : ChainSequence;
  head_entry_hash : EntryHash;
}.

Record ChainBreak := {
  break_sequence : ChainSequence;
  expected_previous_entry_hash : EntryHash;
  actual_previous_entry_hash : EntryHash;
  break_object_hash : ObjectHash;
}.

Inductive ChainForkForm := SequenceCollision | PredecessorCollision.

Record ChainFork := {
  fork_chain_id : ChainId;
  fork_sequence : ChainSequence;
  competing_entry_hashes : EntryHash * EntryHash;
  competing_object_hashes : ObjectHash * ObjectHash;
  form : ChainForkForm;
}.

Record ChainGap := {
  gap_chain_id : ChainId;
  from_sequence : ChainSequence;
  through_sequence : ChainSequence;
}.

Record VerifiedChain := {
  vc_chain_id : ChainId;
  nodes : list ChainNode;
  breaks : list ChainBreak;
  forks : list ChainFork;
  gaps : list ChainGap;
  head : option ChainHead;
  verified_head : option ChainHead;
}.

Definition MAX_CHAIN_NODES_V1 : Z := 1048576.

#[export] Instance ChainNodeKind_eq_dec : EqDecision ChainNodeKind.
Proof. solve_decision. Defined.
#[export] Instance ChainNode_eq_dec : EqDecision ChainNode.
Proof. solve_decision. Defined.

Definition is_fully_verified (c : VerifiedChain) : bool :=
  match breaks c, gaps c, forks c with [], [], [] => true | _, _, _ => false end.

Definition head_of (n : ChainNode) : ChainHead :=
  {| head_chain_id := chain_id n; head_sequence := chain_sequence n;
     head_entry_hash := entry_hash n |}.

(** ** Forks *)

Record Competitor := {
  comp_entry_hash : EntryHash;
  comp_object_hash : ObjectHash;
  comp_sequence : ChainSequence;
}.

(** [Ord::min] on hashes. *)
Definition hash_min (a b : Hash32) : Hash32 :=
  match cmp a b with Gt => b | _ => a end.

(** One iteration of [competitors]; the vector is kept with its last element
    first. *)
Definition competitor_step (sides : list Competitor) (n : ChainNode)
  : list Competitor :=
  match sides with
  | last :: rest =>
      if decide (comp_entry_hash last = entry_hash n) then
        {| comp_entry_hash := comp_entry_hash last;
           comp_object_hash := hash_min (comp_object_hash last) (object_hash n);
           comp_sequence := Z.min (comp_sequence last) (chain_sequence n) |} :: rest
      else
        {| comp_entry_hash := entry_hash n; comp_object_hash := object_hash n;
           comp_sequence := chain_sequence n |} :: sides
  | [] =>
      [{| comp_entry_hash := entry_hash n; comp_object_hash := object_hash n;
          comp_sequence := chain_sequence n |}]
  end.

Definition competitors (ns : list ChainNode) : list Competitor :=
  reverse (fold_left competitor_step ns []).

(** [sort_unstable] of a two-element array. *)
Definition sort_pair (a b : Hash32) : Hash32 * Hash32 :=
  match cmp a b with Gt => (b, a) | _ => (a, b) end.

Definition fork_of (cid : ChainId) (left right : Competitor) (f : ChainForkForm)
  : ChainFork :=
  {| fork_chain_id := cid;
     fork_sequence := Z.min (comp_sequence left) (comp_sequence right);
     competing_entry_hashes := sort_pair (comp_entry_hash left) (comp_entry_hash right);
     competing_object_hashes := sort_pair (comp_object_hash left) (comp_object_hash right);
     form := f |}.

Definition group_forks (cid : ChainId) (f : ChainForkForm) (group : list ChainNode)
  : list ChainFork :=
  (λ p : Competitor * Competitor, fork_of cid p.1 p.2 f)
    <$> windows2 (competitors group).

Definition predecessor_key (n : ChainNode)
  : option Hash32 * (Hash32 * (Hash32 * Z)) :=
  (previous_entry_hash n, (entry_hash n, (object_hash n, chain_sequence n))).

Definition fork_key (f : ChainFork) : Z * Hash32 :=
  (fork_sequence f, (competing_entry_hashes f).1).

Definition collect_forks (cid : ChainId) (sorted : list ChainNode)
  (groups : list (list ChainNode)) : list ChainFork :=
  let sequence_forks := groups ≫= group_forks cid SequenceCollision in
  let sequence_pairs := sort_by_key id (competing_entry_hashes <$> sequence_forks) in
  let by_predecessor := sort_by_key predecessor_key
        (filter (λ n, is_Some (previous_entry_hash n)) sorted) in
  let predecessor_forks :=
    filter (λ f, binary_search_ok sequence_pairs (competing_entry_hashes f) = false)
      (chunk_by (same_key previous_entry_hash) by_predecessor
         ≫= group_forks cid PredecessorCollision) in
  sort_by_key fork_key (sequence_forks ++ predecessor_forks).

(** ** Breaks *)

Definition node_breaks (preceding : list ChainNode) (first : ChainNode)
  (sequence : ChainSequence) (n : ChainNode) : list ChainBreak :=
  match previous_entry_hash n with
  | None => []
  | Some actual =>
      if binary_search_ok (entry_hash <$> preceding) actual then []
      else [{| break_sequence := sequence;
               expected_previous_entry_hash := entry_hash first;
               actual_previous_entry_hash := actual;
               break_object_hash := object_hash n |}]
  end.

Definition pair_breaks (p : list ChainNode * list ChainNode) : list ChainBreak :=
  match p with
  | ((first :: _) as preceding, (lead :: _) as group) =>
      if decide (checked_add u64_max (chain_sequence first) 1
                 = Some (chain_sequence lead))
      then group ≫= node_breaks preceding first (chain_sequence lead)
      else []
  | _ => []
  end.

Definition collect_breaks (groups : list (list ChainNode)) : list ChainBreak :=
  windows2 groups ≫= pair_breaks.

(** ** Verified prefix and gaps *)

Definition min_sequence (l : list ChainSequence) : option ChainSequence :=
  fold_left (λ acc s, Some (match acc with Some a => Z.min a s | None => s end)) l None.

Definition first_disputed_sequence (fs : list ChainFork) (bs : list ChainBreak)
  : option ChainSequence :=
  min_sequence ((fork_sequence <$> fs) ++ (break_sequence <$> bs)).

Definition continues (verified : option ChainHead) (n : ChainNode) : bool :=
  match verified with
  | None => true
  | Some preceding =>
      bool_decide (checked_add u64_max (head_sequence preceding) 1
                   = Some (chain_sequence n)) &&
      bool_decide (previous_entry_hash n = Some (head_entry_hash preceding))
  end.

Definition reaches_stop (stop : option ChainSequence) (n : ChainNode) : bool :=
  match stop with Some s => s <=? chain_sequence n | None => false end.

Fixpoint walk_from (verified : option ChainHead) (groups : list (list ChainNode))
  (stop : option ChainSequence) : option ChainHead :=
  match groups with
  | (n :: _) :: groups =>
      if reaches_stop stop n then verified
      else if continues verified n then walk_from (Some (head_of n)) groups stop
      else verified
  | _ => verified
  end.

Definition walk_verified_prefix (groups : list (list ChainNode))
  (stop : option ChainSequence) : option ChainHead :=
  walk_from None groups stop.

Fixpoint gaps_from (cid : ChainId) (expected : Z) (sorted : list ChainNode)
  : list ChainGap :=
  match sorted with
  | [] => []
  | n :: rest =>
      let sequence := chain_sequence n in
      let next_expected := default sequence (checked_add u64_max sequence 1) in
      if decide (sequence > expected) then
        match checked_sub sequence 1 with
        | Some through =>
            {| gap_chain_id := cid; from_sequence := expected;
               through_sequence := through |} :: gaps_from cid next_expected rest
        | None => gaps_from cid expected rest
        end
      else gaps_from cid next_expected rest
  end.

Definition collect_gaps (cid : ChainId) (sorted : list ChainNode) : list ChainGap :=
  gaps_from cid 0 sorted.

(** ** [build_chain] *)

Definition node_key (n : ChainNode) : Z * (Hash32 * Hash32) :=
  (chain_sequence n, (entry_hash n, object_hash n)).

Fixpoint check_nodes (cid : ChainId) (ns : list ChainNode) : result ChainError unit :=
  match ns with
  | [] => Ok tt
  | n :: ns =>
      _ ← ensure (bool_decide (chain_id n = cid)) ForeignChainId;
      _ ← ensure (bool_decide ((chain_sequence n = 0) ↔ (previous_entry_hash n = None)))
            GenesisBinding;
      check_nodes cid ns
  end.

Definition build_chain (cid : ChainId) (ns : list ChainNode)
  : result ChainError VerifiedChain :=
  _ ← ensure (Z.of_nat (length ns) <=? MAX_CHAIN_NODES_V1) NodeLimit;
  _ ← check_nodes cid ns;
  let sorted := dedup (sort_by_key node_key ns) in
  let groups := chunk_by (same_key chain_sequence) sorted in
  let forks := collect_forks cid sorted groups in
  let breaks := collect_breaks groups in
  let stop := first_disputed_sequence forks breaks in
  let verified_head := walk_verified_prefix groups stop in
  let head := head_of <$> last sorted in
  let gaps := collect_gaps cid sorted in
  Ok {| vc_chain_id := cid; nodes := sorted; breaks := breaks; forks := forks;
        gaps := gaps; head := head; verified_head := verified_head |}.

(** ** Evaluation on small chains *)

Definition mk_node (cid : ChainId) (q : Z) (prev : option EntryHash)
  (h o : Hash32) : ChainNode :=
  {| chain_id := cid; chain_sequence := q; previous_entry_hash := prev;
     entry_hash := h; object_hash := o; writer_certificate_hash := [];
     writer_transition_event_hash := None; node_kind := EntryPackage |}.

Definition n0 : ChainNode := mk_node [x07] 0 None [x10] [xa0].
Definition n1 : ChainNode := mk_node [x07] 1 (Some [x10]) [x11] [xa1].
Definition n2 : ChainNode := mk_node [x07] 2 (Some [x11]) [x12] [xa2].
Definition n2' : ChainNode := mk_node [x07] 2 (Some [x11]) [x13] [xa3].
Definition n4 : ChainNode := mk_node [x07] 4 (Some [x19]) [x14] [xa4].

Example build_linear :
  option_map is_fully_verified
    (match build_chain [x07] [n2; n0; n1; n0] with Ok c => Some c | Err _ => None end)
  = Some true.
Proof. vm_compute. reflexivity. Qed.

Example build_forked :
  match build_chain [x07] [n2; n0; n4; n1; n2'] with
  | Ok c => (length (forks c), gaps c, verified_head c)
  | Err _ => (0%nat, [], None)
  end
  = (1%nat, [{| gap_chain_id := [x07]; from_sequence := 3; through_sequence := 3 |}],
     Some (head_of n1)).
Proof. vm_compute. reflexivity. Qed.

(** ** The sorted nodes and their groups *)

(** The preconditions of [build_chain], node by node. *)
Definition node_ok (cid : ChainId) (n : ChainNode) : Prop :=
  chain_id n = cid ∧ (chain_sequence n = 0 ↔ previous_entry_hash n = None).

Lemma check_nodes_Ok cid ns : check_nodes cid ns = Ok tt ↔ Forall (node_ok cid) ns.
Proof.
  induction ns as [|n ns IH]; [split; [constructor|done]|]. cbn.
  rewrite Forall_cons, <- IH. unfold node_ok, ensure.
  repeat case_bool_decide; cbn; [|by split; [|intros [[]]]..].
  split; [by intros|by intros [_]].
Qed.

(** What [build_chain] computes once its input is accepted. *)
Definition sorted_nodes (ns : list ChainNode) : list ChainNode :=
  dedup (sort_by_key node_key ns).
Definition sequence_groups (ns : list ChainNode) : list (list ChainNode) :=
  chunk_by (same_key chain_sequence) (sorted_nodes ns).

Lemma build_chain_Ok cid ns c :
  build_chain cid ns = Ok c ↔
  Z.of_nat (length ns) ≤ MAX_CHAIN_NODES_V1 ∧ Forall (node_ok cid) ns ∧
  c = (let groups := sequence_groups ns in
       let fs := collect_forks cid (sorted_nodes ns) groups in
       let bs := collect_breaks groups in
       {| vc_chain_id := cid; nodes := sorted_nodes ns; breaks := bs; forks := fs;
          gaps := collect_gaps cid (sorted_nodes ns);
          head := head_of <$> last (sorted_nodes ns);
          verified_head := walk_verified_prefix groups
                             (first_disputed_sequence fs bs) |}).
Proof.
  unfold build_chain, sequence_groups, sorted_nodes. rewrite <- Z.leb_le, <- check_nodes_Ok.
  destruct (Z.of_nat (length ns) <=? MAX_CHAIN_NODES_V1); cbn; [|by split; [|intros []]].
  destruct (check_nodes cid ns) as [[]|e]; cbn; [|by split; [|intros (_ & ? & _)]].
  split; [by intros [= <-]|by intros (_ & _ & ->)].
Qed.

Lemma elem_of_sorted_nodes n ns : n ∈ sorted_nodes ns ↔ n ∈ ns.
Proof. unfold sorted_nodes. by rewrite elem_of_dedup, elem_of_sort_by_key. Qed.

Lemma sorted_nodes_key ns : StronglySorted (key_le node_key) (sorted_nodes ns).
Proof. eapply sorted_sublist; [apply dedup_sublist|apply sort_by_key_sorted]. Qed.

Lemma sorted_nodes_sequence ns : StronglySorted (key_le chain_sequence) (sorted_nodes ns).
Proof.
  eapply sorted_impl; [|apply sorted_nodes_key]. intros x y _ _.
  apply (key_le_fst chain_sequence (λ n, (entry_hash n, object_hash n))).
Qed.

Lemma key_le_sequence x y : key_le chain_sequence x y ↔ chain_sequence x ≤ chain_sequence y.
Proof. unfold key_le, cmp, Z_cmp. rewrite Z.compare_le_iff. done. Qed.

#[export] Hint Resolve sorted_nodes_sequence sorted_nodes_key : ea.

Section Groups.
Context (ns : list ChainNode).
Local Abbreviation gs := (sequence_groups ns).

Lemma groups_sorted : StronglySorted (group_lt chain_sequence) gs.
Proof. apply chunk_by_sorted. apply sorted_nodes_sequence. Qed.

Lemma group_sequence g x y :
  g ∈ gs → x ∈ g → y ∈ g → chain_sequence x = chain_sequence y.
Proof. apply chunk_by_same_key. Qed.

Lemma group_elem g x : g ∈ gs → x ∈ g → x ∈ sorted_nodes ns.
Proof. apply elem_of_chunk_by. Qed.

Lemma group_cover x : x ∈ sorted_nodes ns → ∃ g, g ∈ gs ∧ x ∈ g.
Proof. apply chunk_by_cover. Qed.

Lemma group_nonempty g : g ∈ gs → ∃ n g', g = n :: g'.
Proof.
  intros Hg. pose proof (chunk_by_nonempty (same_key chain_sequence) (sorted_nodes ns)) as Hne.
  rewrite Forall_forall in Hne. specialize (Hne g Hg).
  destruct g as [|n g]; [done|]. by exists n, g.
Qed.

Lemma groups_lt g h x y :
  g ∈ gs → h ∈ gs → x ∈ g → y ∈ h → chain_sequence x < chain_sequence y →
  group_lt chain_sequence g h.
Proof.
  intros Hg Hh Hx Hy Hlt a b Ha Hb. unfold cmp, Z_cmp. apply Z.compare_lt_iff.
  by rewrite (group_sequence g a x), (group_sequence h b y).
Qed.

(** Nodes of one sequence lie in one group. *)
Lemma group_same g h x y :
  g ∈ gs → h ∈ gs → x ∈ g → y ∈ h → chain_sequence x = chain_sequence y → g = h.
Proof. apply chunk_by_group_same. apply sorted_nodes_sequence. Qed.

(** Within a group the entry hashes ascend: the precondition of the binary
    search in [collect_breaks] and of [competitors]. *)
Lemma group_entry_sorted g : g ∈ gs → StronglySorted (key_le entry_hash) g.
Proof.
  intros Hg. pose proof (chunk_by_sub_sorted _ _ _ g (sorted_nodes_key ns) Hg) as Hs.
  eapply sorted_impl; [|exact Hs]. intros x y Hx Hy Hxy.
  apply (key_le_snd chain_sequence (λ n, (entry_hash n, object_hash n))) in Hxy;
    [|by eapply group_sequence].
  by apply (key_le_fst entry_hash object_hash) in Hxy.
Qed.

(** Consecutive sequences are neighbouring groups. *)
Lemma groups_adjacent g h x y :
  g ∈ gs → h ∈ gs → x ∈ g → y ∈ h →
  chain_sequence y = chain_sequence x + 1 → (g, h) ∈ windows2 gs.
Proof.
  intros Hg Hh Hx Hy Hxy. apply (windows2_adjacent (group_lt chain_sequence)); try done.
  - apply groups_sorted.
  - intros ->. rewrite (group_sequence h x y Hg Hx Hy) in Hxy. lia.
  - intros Hlt. specialize (Hlt y x Hy Hx). unfold cmp, Z_cmp in Hlt.
    rewrite Z.compare_lt_iff in Hlt. lia.
  - intros k Hk Hgk Hkh. destruct (group_nonempty k Hk) as (n & k' & ->).
    specialize (Hgk x n Hx ltac:(set_solver)). specialize (Hkh n y ltac:(set_solver) Hy).
    unfold cmp, Z_cmp in *. rewrite Z.compare_lt_iff in Hgk, Hkh. lia.
Qed.
End Groups.

(** ** Gaps *)

Definition sequences_in_u64 (ns : list ChainNode) : Prop :=
  Forall (λ n, in_u64 (chain_sequence n)) ns.

Definition gap_covers (g : ChainGap) (q : Z) : Prop :=
  from_sequence g ≤ q ≤ through_sequence g.

Lemma next_expected_spec s :
  in_u64 s → default s (checked_add u64_max s 1) = Z.min (s + 1) u64_max.
Proof. unfold in_u64, checked_add. case_decide; cbn; lia. Qed.

(** One unfolding of the loop on nodes whose sequence is in range. *)
Lemma gaps_from_cons cid e n l :
  in_u64 (chain_sequence n) → 0 ≤ e →
  gaps_from cid e (n :: l) =
    (if decide (chain_sequence n > e)
     then [{| gap_chain_id := cid; from_sequence := e;
              through_sequence := chain_sequence n - 1 |}] else []) ++
    gaps_from cid (Z.min (chain_sequence n + 1) u64_max) l.
Proof.
  intros Hu He. cbn [gaps_from]. rewrite (next_expected_spec _ Hu). case_decide; [|done].
  unfold checked_sub. rewrite decide_True by lia. done.
Qed.

Section GapFacts.
Context (cid : ChainId).

(** Invariant of the loop: what is left starts at most one below the cursor. *)
Definition gap_loop_ok (e : Z) (l : list ChainNode) : Prop :=
  0 ≤ e ∧ sequences_in_u64 l ∧ StronglySorted (key_le chain_sequence) l ∧
  Forall (λ n, e - 1 ≤ chain_sequence n) l.

Lemma gap_loop_ok_cons e n l :
  gap_loop_ok e (n :: l) →
  in_u64 (chain_sequence n) ∧ e - 1 ≤ chain_sequence n ∧
  Forall (λ m, chain_sequence n ≤ chain_sequence m) l ∧
  gap_loop_ok (Z.min (chain_sequence n + 1) u64_max) l.
Proof.
  intros (He & Hu & Hs & Hl). apply Forall_cons in Hu as [Hu Hus].
  apply Forall_cons in Hl as [Hn _]. apply StronglySorted_cons in Hs as [Hle Hs].
  assert (Forall (λ m, chain_sequence n ≤ chain_sequence m) l) as Hge.
  { eapply Forall_impl; [exact Hle|]. intros m. apply key_le_sequence. }
  repeat split; try done; [apply Hu|apply Hu|unfold in_u64 in Hu; lia|].
  eapply Forall_impl; [exact Hge|]. cbn. lia.
Qed.

(** The gap a node opens, if its sequence is past the cursor. *)
Definition gap_before (e : Z) (n : ChainNode) : list ChainGap :=
  if decide (chain_sequence n > e)
  then [{| gap_chain_id := cid; from_sequence := e;
           through_sequence := chain_sequence n - 1 |}] else [].

Lemma gap_before_covers e n q :
  e ≤ q → (∃ g, g ∈ gap_before e n ∧ gap_covers g q) ↔ q < chain_sequence n.
Proof.
  intros Hq. unfold gap_before, gap_covers. case_decide; split.
  - intros (g & ->%list_elem_of_singleton & Hg). cbn in Hg. lia.
  - intros Hlt. eexists. split; [by left|]. cbn. lia.
  - by intros (g & ?%elem_of_nil & _).
  - lia.
Qed.

(** Every reported interval is maximal: it starts at the cursor or right after
    a node, and ends right before one. *)
Lemma gaps_from_maximal e l g :
  gap_loop_ok e l → g ∈ gaps_from cid e l →
  e ≤ from_sequence g ≤ through_sequence g ∧
  (from_sequence g = e ∨ ∃ n, n ∈ l ∧ chain_sequence n = from_sequence g - 1) ∧
  (∃ n, n ∈ l ∧ chain_sequence n = through_sequence g + 1).
Proof.
  revert e. induction l as [|n l IH]; intros e Hok; [by intros ?%elem_of_nil|].
  pose proof Hok as (He & _). pose proof (gap_loop_ok_cons e n l Hok) as (Hu & Hn & Hge & Hok').
  rewrite (gaps_from_cons cid e n l Hu He), elem_of_app. unfold in_u64 in Hu.
  intros [Hg|Hg].
  - case_decide; [|by apply elem_of_nil in Hg].
    apply list_elem_of_singleton in Hg as ->. cbn. split; [lia|].
    split; [by left|]. exists n. split; [by left|lia].
  - destruct (IH _ Hok' Hg) as (Hb & Hf & m & Hm & Ht).
    destruct Hok' as (_ & Hu' & _). unfold sequences_in_u64 in Hu'.
    rewrite Forall_forall in Hu'. specialize (Hu' m Hm). unfold in_u64 in Hu'.
    split; [lia|]. split; [|exists m; split; [by right|done]]. right.
    destruct Hf as [Hf|(k & Hk & Hf)]; [|exists k; split; [by right|done]].
    exists n. split; [by left|]. lia.
Qed.

(** The covered positions are exactly the missing ones below the top. *)
Lemma gaps_from_covers e l q :
  gap_loop_ok e l → e ≤ q →
  (∃ g, g ∈ gaps_from cid e l ∧ gap_covers g q) ↔
  (∃ n, n ∈ l ∧ q < chain_sequence n) ∧ ¬ ∃ n, n ∈ l ∧ chain_sequence n = q.
Proof.
  revert e. induction l as [|n l IH]; intros e Hok Hq.
  { split; [intros (g & ?%elem_of_nil & _)|intros [(n & ?%elem_of_nil & _) _]]; done. }
  pose proof Hok as (He & _). pose proof (gap_loop_ok_cons e n l Hok) as (Hu & Hn & Hge & Hok').
  rewrite (gaps_from_cons cid e n l Hu He). fold (gap_before e n).
  setoid_rewrite elem_of_app. rewrite Forall_forall in Hge.
  pose proof Hok' as (_ & Hu' & _). unfold sequences_in_u64 in Hu'.
  rewrite Forall_forall in Hu'. unfold in_u64 in *.
  assert (∀ g, g ∈ gaps_from cid (Z.min (chain_sequence n + 1) u64_max) l →
           gap_covers g q → chain_sequence n < q ∧ Z.min (chain_sequence n + 1) u64_max ≤ q)
    as Hlater.
  { intros g Hg Hc. destruct (gaps_from_maximal _ _ _ Hok' Hg) as (Hb & _ & m & Hm & Ht).
    specialize (Hu' m Hm). unfold gap_covers in Hc. lia. }
  split.
  - intros (g & [Hg|Hg] & Hc).
    + assert (q < chain_sequence n) as Hlt by (apply (gap_before_covers e n q Hq); eauto).
      split; [exists n; set_solver|].
      intros (m & [->|Hm]%elem_of_cons & Hmq); [lia|]. specialize (Hge m Hm). lia.
    + destruct (Hlater g Hg Hc) as [Hlt Hnx].
      destruct (proj1 (IH _ Hok' Hnx) ltac:(eauto)) as [(m & Hm & Hmq) Hnone].
      split; [exists m; set_solver|].
      intros (k & [->|Hk]%elem_of_cons & Hkq); [lia|]. apply Hnone. eauto.
  - intros [(m & Hm & Hmq) Hnone]. destruct (decide (q < chain_sequence n)) as [Hlt|Hlt].
    + apply (gap_before_covers e n q Hq) in Hlt as (g & Hg & Hc). eauto.
    + apply elem_of_cons in Hm as [->|Hm]; [lia|]. specialize (Hu' m Hm).
      assert (chain_sequence n ≠ q) by (intros <-; apply Hnone; exists n; set_solver).
      destruct (proj2 (IH _ Hok' ltac:(lia))) as (g & Hg & Hc); [|eauto].
      split; [eauto|]. intros (k & Hk & Hkq). apply Hnone. exists k. set_solver.
Qed.

Lemma gaps_from_disjoint e l :
  gap_loop_ok e l →
  StronglySorted (λ g h, through_sequence g + 1 < from_sequence h) (gaps_from cid e l).
Proof.
  revert e. induction l as [|n l IH]; intros e Hok; [constructor|].
  pose proof Hok as (He & _). pose proof (gap_loop_ok_cons e n l Hok) as (Hu & Hn & Hge & Hok').
  rewrite (gaps_from_cons cid e n l Hu He). case_decide; [|by apply IH].
  constructor; [by apply IH|]. apply Forall_forall. intros g Hg. cbn.
  destruct (gaps_from_maximal _ _ _ Hok' Hg) as (Hb & _ & m & Hm & Ht).
  destruct Hok' as (_ & Hu' & _). unfold sequences_in_u64 in Hu'.
  rewrite Forall_forall in Hu'. specialize (Hu' m Hm). unfold in_u64 in *. lia.
Qed.
End GapFacts.

Lemma sorted_nodes_gap_ok ns : sequences_in_u64 ns → gap_loop_ok 0 (sorted_nodes ns).
Proof.
  intros Hu. unfold gap_loop_ok, sequences_in_u64 in *. rewrite Forall_forall in Hu.
  split; [done|]. split; [|split; [apply sorted_nodes_sequence|]];
    apply Forall_forall; intros n Hn; rewrite elem_of_sorted_nodes in Hn;
    apply Hu in Hn; unfold in_u64 in Hn; [done|lia].
Qed.

(** On every accepted input with [u64] sequences, the reported gaps are
    exactly the missing positions below the highest node, as maximal intervals
    in ascending order that neither touch nor overlap. *)
Theorem build_chain_gaps cid ns c :
  build_chain cid ns = Ok c → sequences_in_u64 ns →
  (∀ q, 0 ≤ q →
    (∃ g, g ∈ gaps c ∧ gap_covers g q) ↔
    (∃ n, n ∈ ns ∧ q < chain_sequence n) ∧ ¬ ∃ n, n ∈ ns ∧ chain_sequence n = q) ∧
  (∀ g, g ∈ gaps c →
    from_sequence g ≤ through_sequence g ∧
    (from_sequence g = 0 ∨ ∃ n, n ∈ ns ∧ chain_sequence n = from_sequence g - 1) ∧
    ∃ n, n ∈ ns ∧ chain_sequence n = through_sequence g + 1) ∧
  StronglySorted (λ g h, through_sequence g + 1 < from_sequence h) (gaps c).
Proof.
  intros (_ & _ & ->)%build_chain_Ok Hu. cbn. unfold collect_gaps.
  pose proof (sorted_nodes_gap_ok ns Hu) as Hok. split; [|split].
  - intros q Hq. rewrite (gaps_from_covers cid 0 _ q Hok Hq).
    by setoid_rewrite elem_of_sorted_nodes.
  - intros g Hg. destruct (gaps_from_maximal cid 0 _ g Hok Hg) as (Hb & Hf & Ht).
    setoid_rewrite elem_of_sorted_nodes in Hf. setoid_rewrite elem_of_sorted_nodes in Ht.
    split; [lia|]. done.
  - by apply gaps_from_disjoint.
Qed.

Lemma build_chain_gaps_witness :
  ∃ c, build_chain [x07] [n2; n0; n4; n1; n2'] = Ok c ∧
    ∃ g, g ∈ gaps c ∧ gap_covers g 3.
Proof.
  eexists. split; [vm_compute; reflexivity|].
  eapply (build_chain_gaps [x07] [n2; n0; n4; n1; n2']).
  - vm_compute. reflexivity.
  - repeat (constructor; [split; vm_compute; discriminate|]). constructor.
  - lia.
  - split.
    + exists n4. split; [repeat constructor|]. vm_compute. reflexivity.
    + intros (n & Hn & Hq). repeat (apply elem_of_cons in Hn as [->|Hn]; [discriminate Hq|]).
      by apply elem_of_nil in Hn.
Defined.

(** ** Breaks *)

(** The break a node [n] has against the least node [m] of the sequence before
    its own: its binding points at no node of that sequence. *)
Definition is_break (ns : list ChainNode) (n m : ChainNode) (actual : EntryHash) : Prop :=
  n ∈ ns ∧ m ∈ ns ∧ chain_sequence n = chain_sequence m + 1 ∧
  previous_entry_hash n = Some actual ∧
  (∀ k, k ∈ ns → chain_sequence k = chain_sequence m → entry_hash k ≠ actual) ∧
  (∀ k, k ∈ ns → chain_sequence k = chain_sequence m → key_le entry_hash m k).

Definition break_of (n m : ChainNode) (actual : EntryHash) : ChainBreak :=
  {| break_sequence := chain_sequence n; expected_previous_entry_hash := entry_hash m;
     actual_previous_entry_hash := actual; break_object_hash := object_hash n |}.

Lemma elem_of_node_breaks preceding first q n b :
  b ∈ node_breaks preceding first q n ↔
  ∃ actual, previous_entry_hash n = Some actual ∧
    (∀ k, k ∈ preceding → entry_hash k ≠ actual) ∧
    b = {| break_sequence := q; expected_previous_entry_hash := entry_hash first;
           actual_previous_entry_hash := actual; break_object_hash := object_hash n |}.
Proof.
  unfold node_breaks, binary_search_ok. destruct (previous_entry_hash n) as [a|].
  2: { split; [by intros ?%elem_of_nil|naive_solver]. }
  case_bool_decide as Ha.
  - apply list_elem_of_fmap in Ha as (k & -> & Hk). split; [by intros ?%elem_of_nil|].
    intros (a & [= <-] & Hno & _). by destruct (Hno k Hk).
  - rewrite list_elem_of_singleton. split.
    + intros ->. exists a. split; [done|]. split; [|done]. intros k Hk <-.
      apply Ha, list_elem_of_fmap. eauto.
    + by intros (a' & [= <-] & _ & ->).
Qed.

Section Breaks.
Context (ns : list ChainNode).
Local Abbreviation gs := (sequence_groups ns).

Lemma group_head_least n g k :
  n :: g ∈ gs → k ∈ n :: g → key_le entry_hash n k.
Proof.
  intros Hg Hk. pose proof (group_entry_sorted ns _ Hg) as Hs.
  apply StronglySorted_cons in Hs as [Hn _]. rewrite Forall_forall in Hn.
  apply elem_of_cons in Hk as [->|Hk]; [reflexivity|by apply Hn].
Qed.

Lemma group_all n g k :
  n :: g ∈ gs → k ∈ ns → chain_sequence k = chain_sequence n → k ∈ n :: g.
Proof.
  intros Hg Hk Hq. rewrite <- elem_of_sorted_nodes in Hk.
  destruct (group_cover ns k Hk) as (h & Hh & Hkh).
  by rewrite (group_same ns (n :: g) h n k Hg Hh ltac:(left) Hkh ltac:(done)).
Qed.

Lemma collect_breaks_sound b :
  b ∈ collect_breaks gs → ∃ n m a, is_break ns n m a ∧ b = break_of n m a.
Proof.
  unfold collect_breaks. intros ([g h] & Hb & Hw)%list_elem_of_bind.
  apply windows2_elem in Hw as [Hg Hh]. unfold pair_breaks in Hb.
  destruct g as [|m g]; [by apply elem_of_nil in Hb|].
  destruct h as [|l h]; [by apply elem_of_nil in Hb|].
  case_decide as Hadd; [|by apply elem_of_nil in Hb].
  apply checked_add_Some in Hadd as [Hadd _].
  apply list_elem_of_bind in Hb as (n & Hb & Hn).
  apply elem_of_node_breaks in Hb as (a & Ha & Hno & ->).
  assert (chain_sequence n = chain_sequence l) as Hnl
    by (by eapply (group_sequence ns); [exact Hh| |left]).
  exists n, m, a. split; [|unfold break_of; by rewrite Hnl].
  split; [rewrite <- elem_of_sorted_nodes; by eapply group_elem|].
  split; [rewrite <- elem_of_sorted_nodes; by eapply group_elem; [|left]|].
  split; [lia|]. split; [done|].
  split; intros k Hk Hq; [apply Hno|apply (group_head_least m g)]; try done;
    by apply group_all.
Qed.

Lemma collect_breaks_complete n m a :
  sequences_in_u64 ns → is_break ns n m a → break_of n m a ∈ collect_breaks gs.
Proof.
  intros Hu (Hn & Hm & Hq & Ha & Hno & Hleast).
  pose proof Hu as Hu'. unfold sequences_in_u64 in Hu'. rewrite Forall_forall in Hu'.
  pose proof (Hu' n Hn) as Hun. unfold in_u64 in Hun.
  rewrite <- elem_of_sorted_nodes in Hn, Hm.
  destruct (group_cover ns n Hn) as (h & Hh & Hnh).
  destruct (group_cover ns m Hm) as (g & Hg & Hmg).
  unfold collect_breaks. apply list_elem_of_bind. exists (g, h). split;
    [|by apply (groups_adjacent ns g h m n)].
  destruct (group_nonempty ns g Hg) as (f & g' & ->).
  destruct (group_nonempty ns h Hh) as (l & h' & ->).
  assert (chain_sequence f = chain_sequence m) as Hfm
    by (by eapply (group_sequence ns); [exact Hg|left|]).
  assert (chain_sequence l = chain_sequence n) as Hln
    by (by eapply (group_sequence ns); [exact Hh|left|]).
  unfold pair_breaks. rewrite decide_True.
  2: { apply checked_add_Some. lia. }
  apply list_elem_of_bind. exists n. split; [|done]. apply elem_of_node_breaks.
  exists a. split; [done|]. split.
  - intros k Hk. apply Hno.
    + rewrite <- elem_of_sorted_nodes. by eapply group_elem.
    + rewrite <- Hfm. by eapply (group_sequence ns); [exact Hg| |left].
  - unfold break_of. rewrite Hln. f_equal. apply cmp_le_antisymm.
    + apply Hleast; [|done]. rewrite <- elem_of_sorted_nodes. by eapply group_elem; [|left].
    + by apply (group_head_least f g').
Qed.
End Breaks.

(** On every accepted input with [u64] sequences, a break is reported
    exactly for each node whose predecessor sequence is occupied but whose
    binding names none of its entry hashes; it carries the smallest entry hash
    of that sequence as the expected one. *)
Theorem build_chain_breaks cid ns c b :
  build_chain cid ns = Ok c → sequences_in_u64 ns →
  b ∈ breaks c ↔ ∃ n m actual, is_break ns n m actual ∧ b = break_of n m actual.
Proof.
  intros (_ & _ & ->)%build_chain_Ok Hu. cbn. split.
  - apply collect_breaks_sound.
  - intros (n & m & a & Hb & ->). by apply collect_breaks_complete.
Qed.

Definition n2_broken : ChainNode := mk_node [x07] 2 (Some [x99]) [x12] [xa2].

Lemma build_chain_breaks_witness :
  ∃ c, build_chain [x07] [n2_broken; n0; n1] = Ok c ∧
    break_of n2_broken n1 [x99] ∈ breaks c.
Proof.
  eexists. split; [vm_compute; reflexivity|].
  eapply (build_chain_breaks [x07] [n2_broken; n0; n1]).
  - vm_compute. reflexivity.
  - repeat (constructor; [split; vm_compute; discriminate|]). constructor.
  - exists n2_broken, n1, [x99]. split; [|reflexivity]. repeat split.
    + repeat constructor.
    + repeat constructor.
    + intros k Hk Hq. repeat (apply elem_of_cons in Hk as [->|Hk]; [vm_compute in Hq |- *; discriminate|]).
      by apply elem_of_nil in Hk.
    + intros k Hk Hq. repeat (apply elem_of_cons in Hk as [->|Hk];
        [vm_compute in Hq; try discriminate Hq; vm_compute; discriminate|]).
      by apply elem_of_nil in Hk.
Defined.

(** ** Forks *)

(** [c] summarises nodes of [ns]: its entry hash, the object hash of one and the
    least sequence of those that carry it. *)
Definition summarises (ns : list ChainNode) (c : Competitor) : Prop :=
  (∃ n, n ∈ ns ∧ entry_hash n = comp_entry_hash c ∧ object_hash n = comp_object_hash c) ∧
  (∃ n, n ∈ ns ∧ entry_hash n = comp_entry_hash c ∧ chain_sequence n = comp_sequence c) ∧
  (∀ n, n ∈ ns → entry_hash n = comp_entry_hash c → comp_sequence c ≤ chain_sequence n).

(** Loop invariant of [competitors] on nodes that ascend by entry hash; [sides]
    is the reversed vector. *)
Definition competitors_inv (ns : list ChainNode) (sides : list Competitor) : Prop :=
  StronglySorted (λ c d, cmp (comp_entry_hash d) (comp_entry_hash c) = Lt) sides ∧
  Forall (summarises ns) sides ∧
  (∀ n, n ∈ ns → ∃ c, c ∈ sides ∧ comp_entry_hash c = entry_hash n).

Lemma hash_min_cases a b : hash_min a b = a ∨ hash_min a b = b.
Proof. unfold hash_min. destruct (cmp a b); auto. Qed.

Lemma summarises_app_ne ns n c :
  summarises ns c → entry_hash n ≠ comp_entry_hash c → summarises (ns ++ [n]) c.
Proof.
  intros ((a & Ha) & (b & Hb) & Hm) Hne. split; [|split].
  - exists a. set_solver.
  - exists b. set_solver.
  - intros m [Hm'|Hm']%elem_of_app; [by apply Hm|].
    by apply list_elem_of_singleton in Hm' as ->.
Qed.

Lemma summarises_app_eq ns n c :
  summarises ns c → entry_hash n = comp_entry_hash c →
  summarises (ns ++ [n])
    {| comp_entry_hash := comp_entry_hash c;
       comp_object_hash := hash_min (comp_object_hash c) (object_hash n);
       comp_sequence := Z.min (comp_sequence c) (chain_sequence n) |}.
Proof.
  intros ((a & Ha & Hae & Hao) & (b & Hb & Hbe & Hbs) & Hm) He. split; [|split]; cbn.
  - destruct (hash_min_cases (comp_object_hash c) (object_hash n)) as [->| ->];
      [exists a|exists n]; set_solver.
  - destruct (Z.min_spec (comp_sequence c) (chain_sequence n)) as [[_ ->]|[_ ->]];
      [exists b|exists n]; set_solver.
  - intros m [Hm'|Hm']%elem_of_app He'; [specialize (Hm m Hm' He'); lia|].
    apply list_elem_of_singleton in Hm' as ->. lia.
Qed.

Lemma summarises_new ns n :
  (∀ m, m ∈ ns → entry_hash m ≠ entry_hash n) →
  summarises (ns ++ [n])
    {| comp_entry_hash := entry_hash n; comp_object_hash := object_hash n;
       comp_sequence := chain_sequence n |}.
Proof.
  intros Hno. split; [|split]; cbn; [exists n; set_solver|exists n; set_solver|].
  intros m [Hm'|Hm']%elem_of_app He'; [by apply Hno in Hm'|].
  apply list_elem_of_singleton in Hm' as ->. lia.
Qed.

Lemma competitors_inv_push ns n sides :
  (∀ c, c ∈ sides → cmp (comp_entry_hash c) (entry_hash n) = Lt) →
  competitors_inv ns sides →
  competitors_inv (ns ++ [n])
    ({| comp_entry_hash := entry_hash n; comp_object_hash := object_hash n;
        comp_sequence := chain_sequence n |} :: sides).
Proof.
  intros Hlt (Hs & Hf & Hc). split; [|split].
  - constructor; [done|]. apply Forall_forall. intros c Hc'. by apply Hlt.
  - constructor.
    + apply summarises_new. intros m Hm He. destruct (Hc m Hm) as (c & Hc' & Hce).
      apply Hlt in Hc'. rewrite Hce, He, cmp_refl in Hc'. done.
    + rewrite Forall_forall in *. intros c Hc'. apply summarises_app_ne; [by apply Hf|].
      intros He. apply Hlt in Hc'. rewrite He, cmp_refl in Hc'. done.
  - intros m [Hm|Hm]%elem_of_app.
    + destruct (Hc m Hm) as (c & Hc' & Hce). exists c. split; [by right|done].
    + apply list_elem_of_singleton in Hm as ->. eexists. split; [by left|done].
Qed.

Lemma competitors_inv_merge ns n last rest :
  comp_entry_hash last = entry_hash n →
  competitors_inv ns (last :: rest) →
  competitors_inv (ns ++ [n])
    ({| comp_entry_hash := comp_entry_hash last;
        comp_object_hash := hash_min (comp_object_hash last) (object_hash n);
        comp_sequence := Z.min (comp_sequence last) (chain_sequence n) |} :: rest).
Proof.
  intros He (Hs & Hf & Hc). apply StronglySorted_cons in Hs as [Hl Hs].
  apply Forall_cons in Hf as [Hlast Hf]. split; [|split].
  - by constructor.
  - constructor; [by apply summarises_app_eq|]. rewrite Forall_forall in *.
    intros c Hc'. apply summarises_app_ne; [by apply Hf|]. intros He'.
    apply Hl in Hc'. rewrite He, He', cmp_refl in Hc'. done.
  - intros m Hm. assert (∃ c, c ∈ last :: rest ∧ comp_entry_hash c = entry_hash m) as (c & Hc' & Hce).
    { apply elem_of_app in Hm as [Hm|Hm]; [by apply Hc|].
      apply list_elem_of_singleton in Hm as ->. exists last. by split; [left|]. }
    apply elem_of_cons in Hc' as [->|Hc']; [|exists c; by split; [right|]].
    eexists. split; [by left|]. done.
Qed.

Lemma competitors_fold_inv ns :
  StronglySorted (key_le entry_hash) ns →
  competitors_inv ns (fold_left competitor_step ns []).
Proof.
  induction ns as [|n ns IH] using rev_ind; intros Hs.
  { split; [constructor|]. split; [constructor|]. by intros n ?%elem_of_nil. }
  rewrite fold_left_app. cbn. apply StronglySorted_app in Hs as (Hle & Hs & _).
  specialize (IH Hs). destruct (fold_left competitor_step ns []) as [|last rest].
  - apply competitors_inv_push; [by intros c ?%elem_of_nil|done].
  - cbn. case_decide as He; [by apply competitors_inv_merge|].
    apply competitors_inv_push; [|done]. destruct IH as (Hss & Hf & _).
    assert (cmp (comp_entry_hash last) (entry_hash n) = Lt) as Hlt.
    { apply Forall_cons in Hf as [((m & Hm & Hme & _) & _) _].
      pose proof (Hle m n Hm ltac:(by left)) as H. unfold key_le in H. rewrite Hme in H.
      destruct (cmp (comp_entry_hash last) (entry_hash n)) eqn:E; [|done|done].
      by apply cmp_eq_iff in E. }
    intros c [->|Hc]%elem_of_cons; [done|]. apply StronglySorted_cons in Hss as [Hl _].
    rewrite Forall_forall in Hl. eapply cmp_lt_trans; [by apply Hl|done].
Qed.

Lemma competitors_spec ns :
  StronglySorted (key_le entry_hash) ns →
  StronglySorted (key_lt comp_entry_hash) (competitors ns) ∧
  (∀ c, c ∈ competitors ns → summarises ns c) ∧
  (∀ n, n ∈ ns → ∃ c, c ∈ competitors ns ∧ comp_entry_hash c = entry_hash n).
Proof.
  intros Hs. destruct (competitors_fold_inv ns Hs) as (Hss & Hf & Hc).
  unfold competitors. split; [|split].
  - by apply sorted_reverse in Hss.
  - intros c Hc'. rewrite elem_of_reverse in Hc'. rewrite Forall_forall in Hf. by apply Hf.
  - intros n Hn. destruct (Hc n Hn) as (c & Hc' & He). exists c. by rewrite elem_of_reverse.
Qed.

(** The entry hash [h] is one of the two competing ones. *)
Definition names_hash (f : ChainFork) (h : EntryHash) : Prop :=
  (competing_entry_hashes f).1 = h ∨ (competing_entry_hashes f).2 = h.

Section GroupForks.
Context (cid : ChainId) (fm : ChainForkForm) (g : list ChainNode).
Context (Hg : StronglySorted (key_le entry_hash) g).

Lemma group_forks_sound f :
  f ∈ group_forks cid fm g →
  form f = fm ∧ ∃ a b, a ∈ g ∧ b ∈ g ∧ cmp (entry_hash a) (entry_hash b) = Lt ∧
    competing_entry_hashes f = (entry_hash a, entry_hash b) ∧
    fork_sequence f = Z.min (chain_sequence a) (chain_sequence b).
Proof.
  destruct (competitors_spec g Hg) as (Hs & Hsum & _). unfold group_forks.
  intros ([c d] & -> & Hw)%list_elem_of_fmap. split; [done|].
  pose proof (windows2_sorted _ _ _ _ Hs Hw) as Hlt. unfold key_lt in Hlt.
  apply windows2_elem in Hw as [Hc Hd].
  destruct (Hsum c Hc) as (_ & (a & Ha & Hae & Has) & _).
  destruct (Hsum d Hd) as (_ & (b & Hb & Hbe & Hbs) & _).
  exists a, b. unfold sort_pair; cbn.
  rewrite Hae, Hbe, Has, Hbs. unfold sort_pair. by rewrite Hlt.
Qed.

Lemma group_forks_complete a b :
  a ∈ g → b ∈ g → entry_hash a ≠ entry_hash b →
  ∃ f, f ∈ group_forks cid fm g ∧ names_hash f (entry_hash a).
Proof.
  destruct (competitors_spec g Hg) as (Hs & Hsum & Hcov). intros Ha Hb Hne.
  destruct (Hcov a Ha) as (c & Hc & Hce), (Hcov b Hb) as (d & Hd & Hde).
  destruct (windows2_cover (competitors g) c d Hc Hd ltac:(congruence))
    as ([l r] & Hp & Hpc).
  exists (fork_of cid l r fm). split; [apply list_elem_of_fmap; by exists (l, r)|].
  pose proof (windows2_sorted _ _ _ _ Hs Hp) as Hlt. unfold key_lt in Hlt.
  unfold names_hash, fork_of, sort_pair; cbn in *. rewrite Hlt; cbn.
  destruct Hpc as [-> | ->]; [left|right]; congruence.
Qed.
End GroupForks.

Section Forks.
Context (cid : ChainId) (ns : list ChainNode).
Local Abbreviation gs := (sequence_groups ns).
Local Abbreviation fs := (collect_forks cid (sorted_nodes ns) gs).

Definition sequence_forks : list ChainFork := gs ≫= group_forks cid SequenceCollision.
Definition by_predecessor : list ChainNode :=
  sort_by_key predecessor_key
    (filter (λ n, is_Some (previous_entry_hash n)) (sorted_nodes ns)).
Definition predecessor_groups : list (list ChainNode) :=
  chunk_by (same_key previous_entry_hash) by_predecessor.

Lemma elem_of_collect_forks f :
  f ∈ fs ↔ f ∈ sequence_forks ∨
    (f ∈ predecessor_groups ≫= group_forks cid PredecessorCollision ∧
     ¬ ∃ f', f' ∈ sequence_forks ∧ competing_entry_hashes f' = competing_entry_hashes f).
Proof.
  unfold collect_forks. rewrite elem_of_sort_by_key, elem_of_app.
  apply or_iff_compat_l. rewrite list_elem_of_filter.
  fold sequence_forks by_predecessor predecessor_groups.
  unfold binary_search_ok. rewrite bool_decide_eq_false, elem_of_sort_by_key.
  rewrite list_elem_of_fmap. split.
  - intros [Hno Hf]. split; [done|]. intros (f' & Hf' & E). apply Hno. by exists f'.
  - intros [Hf Hno]. split; [|done]. intros (f' & E & Hf'). apply Hno. by exists f'.
Qed.

Lemma elem_of_by_predecessor n :
  n ∈ by_predecessor ↔ n ∈ ns ∧ is_Some (previous_entry_hash n).
Proof.
  unfold by_predecessor.
  rewrite elem_of_sort_by_key, list_elem_of_filter, elem_of_sorted_nodes. tauto.
Qed.

Lemma by_predecessor_sorted : StronglySorted (key_le previous_entry_hash) by_predecessor.
Proof.
  eapply sorted_impl; [|apply sort_by_key_sorted]. intros x y _ _.
  apply (key_le_fst previous_entry_hash
           (λ n, (entry_hash n, (object_hash n, chain_sequence n)))).
Qed.

Lemma predecessor_group_sorted g :
  g ∈ predecessor_groups → StronglySorted (key_le entry_hash) g.
Proof.
  intros Hg. pose proof (chunk_by_sub_sorted _ _ _ g (sort_by_key_sorted _ _) Hg) as Hs.
  eapply sorted_impl; [|exact Hs]. intros x y Hx Hy Hxy.
  apply (key_le_snd previous_entry_hash
           (λ n, (entry_hash n, (object_hash n, chain_sequence n)))) in Hxy;
    [|by eapply chunk_by_same_key].
  by apply (key_le_fst entry_hash (λ n, (object_hash n, chain_sequence n))) in Hxy.
Qed.

Lemma predecessor_group_same a b :
  a ∈ by_predecessor → b ∈ by_predecessor →
  previous_entry_hash a = previous_entry_hash b →
  ∃ g, g ∈ predecessor_groups ∧ a ∈ g ∧ b ∈ g.
Proof.
  intros Ha Hb Hab. unfold predecessor_groups.
  destruct (chunk_by_cover (same_key previous_entry_hash) _ a Ha) as (g & Hg & Hag).
  destruct (chunk_by_cover (same_key previous_entry_hash) _ b Hb) as (h & Hh & Hbh).
  exists g. split; [done|]. split; [done|].
  by rewrite (chunk_by_group_same _ _ g h a b by_predecessor_sorted Hg Hh).
Qed.
End Forks.

Lemma collect_forks_sound cid ns f :
  f ∈ collect_forks cid (sorted_nodes ns) (sequence_groups ns) →
  ∃ a b, a ∈ ns ∧ b ∈ ns ∧ cmp (entry_hash a) (entry_hash b) = Lt ∧
    competing_entry_hashes f = (entry_hash a, entry_hash b) ∧
    fork_sequence f = Z.min (chain_sequence a) (chain_sequence b) ∧
    match form f with
    | SequenceCollision => chain_sequence a = chain_sequence b
    | PredecessorCollision =>
        is_Some (previous_entry_hash a) ∧ previous_entry_hash a = previous_entry_hash b
    end.
Proof.
  rewrite elem_of_collect_forks. unfold sequence_forks.
  setoid_rewrite <- (elem_of_sorted_nodes _ ns).
  intros [Hf|[Hf _]]; apply list_elem_of_bind in Hf as (g & Hf & Hg).
  - apply (group_forks_sound _ _ _ (group_entry_sorted ns g Hg)) in Hf
      as (-> & a & b & Ha & Hb & Hlt & Hc & Hq).
    exists a, b. repeat split; try done; [by eapply group_elem..|].
    by eapply (group_sequence ns).
  - apply (group_forks_sound _ _ _ (predecessor_group_sorted ns g Hg)) in Hf
      as (-> & a & b & Ha & Hb & Hlt & Hc & Hq).
    assert (∀ x, x ∈ g → x ∈ sorted_nodes ns ∧ is_Some (previous_entry_hash x)) as Hin.
    { intros x Hx. pose proof (elem_of_chunk_by _ _ g x Hg Hx) as Hx'.
      by rewrite elem_of_by_predecessor, <- (elem_of_sorted_nodes _ ns) in Hx'. }
    exists a, b. repeat split; try done; [by apply Hin..|].
    by eapply chunk_by_same_key.
Qed.

Lemma collect_forks_sequence cid ns a b :
  a ∈ ns → b ∈ ns → entry_hash a ≠ entry_hash b → chain_sequence a = chain_sequence b →
  ∃ f, f ∈ collect_forks cid (sorted_nodes ns) (sequence_groups ns) ∧
    form f = SequenceCollision ∧ fork_sequence f = chain_sequence a ∧
    names_hash f (entry_hash a).
Proof.
  intros Ha Hb Hne Hq. rewrite <- elem_of_sorted_nodes in Ha, Hb.
  destruct (group_cover ns a Ha) as (g & Hg & Hag), (group_cover ns b Hb) as (h & Hh & Hbh).
  rewrite <- (group_same ns g h a b Hg Hh Hag Hbh Hq) in Hbh.
  pose proof (group_entry_sorted ns g Hg) as Hs.
  destruct (group_forks_complete cid SequenceCollision g Hs a b Hag Hbh Hne)
    as (f & Hf & Hname).
  destruct (group_forks_sound _ _ _ Hs f Hf) as (Hform & x & y & Hx & Hy & _ & _ & Hfq).
  exists f. split.
  - apply elem_of_collect_forks. left. apply list_elem_of_bind. by exists g.
  - split; [done|]. split; [|done]. rewrite Hfq.
    rewrite (group_sequence ns g x a), (group_sequence ns g y a) by done. lia.
Qed.

Lemma collect_forks_predecessor cid ns a b :
  a ∈ ns → b ∈ ns → entry_hash a ≠ entry_hash b →
  is_Some (previous_entry_hash a) → previous_entry_hash a = previous_entry_hash b →
  ∃ f, f ∈ collect_forks cid (sorted_nodes ns) (sequence_groups ns) ∧
    names_hash f (entry_hash a).
Proof.
  intros Ha Hb Hne Hsome Hp.
  destruct (predecessor_group_same ns a b) as (g & Hg & Hag & Hbg); [..|done|].
  { by apply elem_of_by_predecessor. }
  { apply elem_of_by_predecessor. by rewrite <- Hp. }
  destruct (group_forks_complete cid PredecessorCollision g
    (predecessor_group_sorted ns g Hg) a b Hag Hbg Hne) as (f & Hf & Hname).
  destruct (decide (Exists (λ f', competing_entry_hashes f' = competing_entry_hashes f)
    (sequence_forks cid ns))) as [Hex|Hex].
  - apply Exists_exists in Hex as (f' & Hf' & E). exists f'.
    split; [apply elem_of_collect_forks; by left|]. unfold names_hash. by rewrite E.
  - exists f. split; [|done]. apply elem_of_collect_forks. right.
    split; [apply list_elem_of_bind; by exists g|].
    intros (f' & Hf' & E). apply Hex, Exists_exists. by exists f'.
Qed.

(** A reported fork names two nodes of the input with different entry
    hashes, in ascending order, that share their sequence or their predecessor,
    and stands at the smaller of their sequences. Conversely a node that shares
    its sequence with a different entry hash is named by a sequence collision at
    that sequence, and a node that shares its predecessor with a different entry
    hash is named by some fork. *)
Theorem build_chain_forks cid ns c :
  build_chain cid ns = Ok c →
  (∀ f, f ∈ forks c →
    ∃ a b, a ∈ ns ∧ b ∈ ns ∧ cmp (entry_hash a) (entry_hash b) = Lt ∧
      competing_entry_hashes f = (entry_hash a, entry_hash b) ∧
      fork_sequence f = Z.min (chain_sequence a) (chain_sequence b) ∧
      match form f with
      | SequenceCollision => chain_sequence a = chain_sequence b
      | PredecessorCollision =>
          is_Some (previous_entry_hash a) ∧ previous_entry_hash a = previous_entry_hash b
      end) ∧
  (∀ a b, a ∈ ns → b ∈ ns → entry_hash a ≠ entry_hash b →
    (chain_sequence a = chain_sequence b →
      ∃ f, f ∈ forks c ∧ form f = SequenceCollision ∧
        fork_sequence f = chain_sequence a ∧ names_hash f (entry_hash a)) ∧
    (is_Some (previous_entry_hash a) → previous_entry_hash a = previous_entry_hash b →
      ∃ f, f ∈ forks c ∧ names_hash f (entry_hash a))).
Proof.
  intros (_ & _ & ->)%build_chain_Ok. cbn. split; [apply collect_forks_sound|].
  intros a b Ha Hb Hne. split.
  - by apply collect_forks_sequence.
  - by apply collect_forks_predecessor.
Qed.

Lemma build_chain_forks_witness :
  ∃ c, build_chain [x07] [n2; n0; n1; n2'] = Ok c ∧
    ∃ f, f ∈ forks c ∧ form f = SequenceCollision ∧ fork_sequence f = 2 ∧
      names_hash f (entry_hash n2).
Proof.
  destruct (build_chain [x07] [n2; n0; n1; n2']) as [c|e] eqn:E;
    [|vm_compute in E; discriminate E].
  exists c. split; [reflexivity|]. apply (proj2 (build_chain_forks _ _ _ E) n2 n2').
  - repeat constructor.
  - repeat constructor.
  - vm_compute. discriminate.
  - reflexivity.
Defined.

(** ** The verified prefix *)

(** [n] directly follows [m]: the next sequence, bound to [m]'s entry hash. *)
Definition links (m n : ChainNode) : Prop :=
  chain_sequence n = chain_sequence m + 1 ∧ previous_entry_hash n = Some (entry_hash m).

Lemma continues_head_of m n : continues (Some (head_of m)) n = true → links m n.
Proof.
  unfold continues, links; cbn. rewrite andb_true_iff, !bool_decide_eq_true.
  rewrite checked_add_Some. intros [[-> _] ->]. done.
Qed.

Inductive linked_from : option ChainHead → list ChainNode → Prop :=
| linked_nil v : linked_from v []
| linked_cons v n path :
    continues v n = true → linked_from (Some (head_of n)) path → linked_from v (n :: path).

Lemma linked_from_links m path :
  linked_from (Some (head_of m)) path → ∀ x y, (x, y) ∈ windows2 (m :: path) → links x y.
Proof.
  revert m. induction path as [|n path IH]; intros m Hl x y.
  - by intros ?%elem_of_nil.
  - inversion Hl as [|? ? ? Hc Hp]; subst. rewrite windows2_cons, elem_of_cons.
    intros [[= -> ->]|Hw]; [by apply continues_head_of|by eapply IH].
Qed.

(** The nodes [walk_from] passes lead the first groups and stay below [stop]. *)
Lemma walk_from_path gs v stop :
  ∃ path, walk_from v gs stop = match last path with Some n => Some (head_of n) | None => v end ∧
    linked_from v path ∧
    (∀ n, n ∈ path → reaches_stop stop n = false ∧ ∃ g, n :: g ∈ gs) ∧
    (∀ n path', path = n :: path' → ∃ g gs', gs = (n :: g) :: gs').
Proof.
  revert v. induction gs as [|[|n g] gs IH]; intros v; cbn.
  1-2: exists []; repeat split; [constructor|set_solver..|set_solver|by intros].
  destruct (reaches_stop stop n) eqn:Hr, (continues v n) eqn:Hc;
    try (exists []; repeat split; [constructor|set_solver..|set_solver|by intros]).
  destruct (IH (Some (head_of n))) as (path & Hw & Hl & Hin & _).
  exists (n :: path). split; [|split; [by constructor|split]].
  - rewrite Hw, last_cons. by destruct (last path).
  - intros m [->|Hm]%elem_of_cons; [split; [done|]; exists g; by left|].
    destruct (Hin m Hm) as [? (g' & Hg')]. split; [done|]. exists g'. by right.
  - intros m path' [= -> ->]. by exists g, gs.
Qed.

Lemma min_sequence_aux l acc :
  fold_left (λ acc s, Some (match acc with Some a => Z.min a s | None => s end)) l (Some acc)
  = Some (foldr Z.min acc l).
Proof.
  revert acc. induction l as [|x l IH]; intros acc; [done|]. cbn. rewrite IH. f_equal.
  clear IH. revert acc x. induction l as [|y l IH]; intros acc x; cbn; [lia|].
  rewrite IH. lia.
Qed.

Lemma min_sequence_spec l m :
  min_sequence l = Some m → m ∈ l ∧ ∀ s, s ∈ l → m ≤ s.
Proof.
  destruct l as [|x l]; [done|]. unfold min_sequence. cbn. rewrite min_sequence_aux.
  intros [= <-]. induction l as [|y l IH]; cbn.
  - split; [by left|]. intros s ->%list_elem_of_singleton. lia.
  - destruct IH as [Hin Hle]. split.
    + destruct (Z.min_spec y (foldr Z.min x l)) as [[_ ->]|[_ ->]]; set_solver.
    + intros s Hs. rewrite !elem_of_cons in Hs. destruct Hs as [->|[->|Hs]]; [|lia|].
      * specialize (Hle x ltac:(by left)). lia.
      * specialize (Hle s ltac:(by right)). lia.
Qed.

Lemma min_sequence_None l : min_sequence l = None → l = [].
Proof. destruct l; [done|]. unfold min_sequence. cbn. by rewrite min_sequence_aux. Qed.

(** Every fork and every break of the chain lies above [q]. *)
Definition undisputed (fs : list ChainFork) (bs : list ChainBreak) (q : Z) : Prop :=
  (∀ f, f ∈ fs → q < fork_sequence f) ∧ (∀ b, b ∈ bs → q < break_sequence b).

Lemma reaches_stop_undisputed fs bs n :
  reaches_stop (first_disputed_sequence fs bs) n = false
  ↔ undisputed fs bs (chain_sequence n).
Proof.
  unfold first_disputed_sequence, reaches_stop, undisputed.
  assert (∀ q, (∀ s, s ∈ (fork_sequence <$> fs) ++ (break_sequence <$> bs) → q < s) ↔
    (∀ f, f ∈ fs → q < fork_sequence f) ∧ (∀ b, b ∈ bs → q < break_sequence b)) as <-.
  { intros q. split.
    - intros H. split; intros x Hx; apply H; set_solver.
    - intros [Hf Hb] s [Hs|Hs]%elem_of_app; apply list_elem_of_fmap in Hs as (x & -> & Hx); auto. }
  destruct (min_sequence _) as [m|] eqn:E.
  - apply min_sequence_spec in E as [Hin Hle]. rewrite Z.leb_gt. split.
    + intros Hlt s Hs. specialize (Hle s Hs). lia.
    + intros H. by apply H.
  - apply min_sequence_None in E. rewrite E. split; [|done]. by intros _ s ?%elem_of_nil.
Qed.

Section Prefix.
Context (cid : ChainId) (ns : list ChainNode).
Local Abbreviation gs := (sequence_groups ns).
Local Abbreviation fs := (collect_forks cid (sorted_nodes ns) gs).
Local Abbreviation bs := (collect_breaks gs).

(** A group that comes before another holds smaller sequences. *)
Lemma groups_before pre post g h x y :
  gs = pre ++ post → g ∈ pre → h ∈ post → x ∈ g → y ∈ h →
  chain_sequence x < chain_sequence y.
Proof.
  intros E Hg Hh Hx Hy. pose proof (groups_sorted ns) as Hs. rewrite E in Hs.
  apply StronglySorted_app in Hs as (H & _). specialize (H g h Hg Hh x y Hx Hy).
  unfold cmp, Z_cmp in H. by apply Z.compare_lt_iff.
Qed.

Lemma group_member_ns g x : g ∈ gs → x ∈ g → x ∈ ns.
Proof. intros Hg Hx. rewrite <- elem_of_sorted_nodes. by eapply group_elem. Qed.

Lemma first_group_least n g rest m :
  gs = (n :: g) :: rest → m ∈ ns → chain_sequence n ≤ chain_sequence m.
Proof.
  intros E Hm. rewrite <- elem_of_sorted_nodes in Hm.
  destruct (group_cover ns m Hm) as (h & Hh & Hmh).
  pose proof Hh as Hh'. rewrite E in Hh'. apply elem_of_cons in Hh' as [->|Hh'].
  - assert (chain_sequence n = chain_sequence m); [|lia].
    by eapply (group_sequence ns); [exact Hh|left|].
  - assert (chain_sequence n < chain_sequence m); [|lia].
    by apply (groups_before [n :: g] rest (n :: g) h); [|left| |left|].
Qed.

Lemma walk_prefix_sound h :
  walk_verified_prefix gs (first_disputed_sequence fs bs) = Some h →
  ∃ lo path, lo ∈ ns ∧ (∀ m, m ∈ ns → chain_sequence lo ≤ chain_sequence m) ∧
    (∀ n, n ∈ lo :: path → n ∈ ns ∧ undisputed fs bs (chain_sequence n)) ∧
    (∀ m n, (m, n) ∈ windows2 (lo :: path) → links m n) ∧
    head_of <$> last (lo :: path) = Some h.
Proof.
  unfold walk_verified_prefix.
  destruct (walk_from_path gs None (first_disputed_sequence fs bs))
    as (path & -> & Hl & Hin & Hfirst).
  destruct path as [|lo path]; [done|]. intros Hh.
  destruct (Hfirst lo path eq_refl) as (g & rest & E).
  inversion Hl as [|? ? ? _ Hl']; subst. exists lo, path.
  split; [apply (group_member_ns (lo :: g)); [rewrite E|]; by left|].
  split; [intros m; by eapply first_group_least|]. split; [|split].
  - intros n Hn. destruct (Hin n Hn) as [Hr (g' & Hg')].
    split; [by eapply group_member_ns; [|left]|by apply reaches_stop_undisputed].
  - by apply linked_from_links.
  - by destruct (last (lo :: path)).
Qed.

Lemma walk_from_ge h groups stop :
  ∃ h', walk_from (Some h) groups stop = Some h' ∧ head_sequence h ≤ head_sequence h'.
Proof.
  revert h. induction groups as [|[|n g] groups IH]; intros h; cbn; [by eexists..|].
  destruct (reaches_stop stop n); [by eexists|].
  destruct (bool_decide _ && bool_decide _) eqn:Hc; [|by eexists].
  apply andb_true_iff in Hc as [Hc _]. apply bool_decide_eq_true, checked_add_Some in Hc.
  destruct (IH (head_of n)) as (h' & -> & Hle). exists h'. split; [done|]. cbn in Hle. lia.
Qed.

Context (Hok : Forall (node_ok cid) ns) (Hu : sequences_in_u64 ns).

(** The group after [m]'s carries the next sequence if that one is occupied. *)
Lemma next_group_sequence pre m g n h rest :
  gs = (pre ++ [m :: g]) ++ (n :: h) :: rest →
  (∃ x, x ∈ ns ∧ chain_sequence x = chain_sequence m + 1) →
  chain_sequence n = chain_sequence m + 1.
Proof.
  intros E (x & Hx & Hxq).
  assert (chain_sequence m < chain_sequence n) as Hlt
    by (by eapply (groups_before _ _ (m :: g) (n :: h) _ _ E); [set_solver..|left|left]).
  rewrite <- elem_of_sorted_nodes in Hx. destruct (group_cover ns x Hx) as (k & Hk & Hxk).
  pose proof Hk as Hk'. rewrite E in Hk'. rewrite !elem_of_app, !elem_of_cons in Hk'.
  destruct Hk' as [[Hk'|[->|[]%elem_of_nil]]|[->|Hk']].
  - assert (chain_sequence x < chain_sequence m); [|lia]. rewrite <- app_assoc in E.
    by apply (groups_before _ _ k (m :: g) _ _ E); [|set_solver| |left].
  - assert (chain_sequence x = chain_sequence m); [|lia].
    by eapply (group_sequence ns); [exact Hk| |left].
  - assert (chain_sequence x = chain_sequence n); [|lia].
    by eapply (group_sequence ns); [exact Hk| |left].
  - assert (chain_sequence n < chain_sequence x); [|lia].
    rewrite (cons_middle (n :: h)), app_assoc in E.
    by apply (groups_before _ _ (n :: h) k _ _ E); [set_solver| |left|].
Qed.

(** Without a break at [n] and a fork at [m]'s sequence, [n] binds [m]. *)
Lemma undisputed_binding m g n a :
  m :: g ∈ gs → n ∈ ns → chain_sequence n = chain_sequence m + 1 →
  previous_entry_hash n = Some a → undisputed fs bs (chain_sequence n) →
  a = entry_hash m.
Proof.
  intros Hmg Hn Hq Hp [Hf Hb]. pose proof (group_member_ns _ m Hmg ltac:(by left)) as Hm.
  destruct (decide (Exists (λ k, entry_hash k = a) (m :: g))) as [Hex|Hex].
  - apply Exists_exists in Hex as (k & Hk & <-).
    destruct (decide (entry_hash m = entry_hash k)) as [->|Hne]; [done|]. exfalso.
    assert (chain_sequence m = chain_sequence k) as Hmk
      by (by eapply (group_sequence ns); [exact Hmg|left|]).
    destruct (collect_forks_sequence cid ns m k Hm (group_member_ns _ k Hmg Hk) Hne Hmk)
      as (f & Hf' & _ & Hfq & _). specialize (Hf f Hf'). lia.
  - exfalso. assert (is_break ns n m a) as Hbr.
    { repeat split; try done; intros k Hk Hkq.
      - intros He. apply Hex, Exists_exists. exists k. split; [|done].
        by apply (group_all ns).
      - by eapply (group_head_least ns m g); [|apply (group_all ns)]. }
    pose proof (Hb _ (collect_breaks_complete ns n m a Hu Hbr)) as Hlt. cbn in Hlt. lia.
Qed.

(** Where no dispute reaches, neighbours of the occupied prefix are linked. *)
Lemma undisputed_continues pre m g n h rest :
  gs = (pre ++ [m :: g]) ++ (n :: h) :: rest →
  (∃ x, x ∈ ns ∧ chain_sequence x = chain_sequence m + 1) →
  undisputed fs bs (chain_sequence n) → continues (Some (head_of m)) n = true.
Proof.
  intros E Hx Hund. pose proof (next_group_sequence _ _ _ _ _ _ E Hx) as Hq.
  assert (m :: g ∈ gs) as Hmg by (rewrite E; set_solver).
  assert (n :: h ∈ gs) as Hnh by (rewrite E; set_solver).
  pose proof (group_member_ns _ m Hmg ltac:(by left)) as Hm.
  pose proof (group_member_ns _ n Hnh ltac:(by left)) as Hn.
  pose proof Hok as Hok'. rewrite Forall_forall in Hok'. destruct (Hok' n Hn) as [_ Hgen].
  pose proof Hu as Hu'. unfold sequences_in_u64 in Hu'. rewrite Forall_forall in Hu'.
  pose proof (Hu' m Hm) as Hum. pose proof (Hu' n Hn) as Hun. unfold in_u64 in *.
  destruct (previous_entry_hash n) as [a|] eqn:Hp; [|exfalso; lia || (apply proj2 in Hgen; specialize (Hgen eq_refl); lia)].
  rewrite (undisputed_binding m g n a Hmg Hn Hq Hp Hund) in Hp.
  unfold continues; cbn. rewrite andb_true_iff, !bool_decide_eq_true. split; [|done].
  apply checked_add_Some. lia.
Qed.

(** Every sequence from [lo] to [q] is occupied. *)
Definition occupied (lo q : Z) : Prop :=
  ∀ s, lo ≤ s ≤ q → ∃ n, n ∈ ns ∧ chain_sequence n = s.

(** The walk has passed the groups [pre] and stands at their last node. *)
Definition walk_at (pre : list (list ChainNode)) (v : option ChainHead) : Prop :=
  match v with
  | None => pre = []
  | Some h => ∃ pre' m g, pre = pre' ++ [m :: g] ∧ h = head_of m
  end.

(** All remaining groups lie above [q]: the walk already stands at [q]. *)
Lemma walk_done lo q pre rest h :
  lo ≤ q → occupied lo q → gs = pre ++ rest → walk_at pre (Some h) →
  (∀ g x, g ∈ rest → x ∈ g → q < chain_sequence x) → q ≤ head_sequence h.
Proof.
  intros Hq Hocc E (pre' & m & g & -> & ->) Hrest. cbn.
  destruct (Hocc q ltac:(lia)) as (x & Hx & Hxq). rewrite <- elem_of_sorted_nodes in Hx.
  destruct (group_cover ns x Hx) as (k & Hk & Hxk). pose proof Hk as Hk'.
  rewrite E, !elem_of_app in Hk'. destruct Hk' as [[Hk'|Hk']|Hk'].
  - assert (chain_sequence x < chain_sequence m); [|lia]. rewrite <- app_assoc in E.
    by apply (groups_before _ _ k (m :: g) _ _ E); [|set_solver| |left].
  - apply list_elem_of_singleton in Hk' as ->.
    assert (chain_sequence x = chain_sequence m); [|lia].
    by eapply (group_sequence ns); [exact Hk| |left].
  - specialize (Hrest k x Hk' Hxk). lia.
Qed.

Lemma walk_past lo q stop pre n g groups v :
  lo ≤ q → occupied lo q → gs = pre ++ (n :: g) :: groups → walk_at pre v →
  q < chain_sequence n →
  ∃ h, walk_from v ((n :: g) :: groups) stop = Some h ∧ q ≤ head_sequence h.
Proof.
  intros Hq Hocc E Hat Hlt.
  assert (n :: g ∈ gs) as Hng by (rewrite E; set_solver). destruct v as [h|].
  - destruct (walk_from_ge h ((n :: g) :: groups) stop) as (h' & Hw & Hge).
    exists h'. split; [exact Hw|]. etrans; [|exact Hge].
    apply (walk_done lo q pre ((n :: g) :: groups)); try done.
    intros k x [->|Hk]%elem_of_cons Hx.
    + by rewrite (group_sequence ns (n :: g) x n Hng Hx ltac:(by left)).
    + assert (chain_sequence n < chain_sequence x); [|lia].
      rewrite (cons_middle (n :: g)), app_assoc in E.
      by apply (groups_before _ _ (n :: g) k _ _ E); [set_solver| |left|].
  - cbn in Hat. subst pre. exfalso. destruct (Hocc q ltac:(lia)) as (x & Hx & Hxq).
    pose proof (first_group_least n g groups x E Hx). lia.
Qed.

Lemma walk_from_complete lo q stop groups pre v :
  (∀ n, n ∈ ns → chain_sequence n ≤ q → reaches_stop stop n = false) →
  (∀ n, n ∈ ns → chain_sequence n ≤ q → undisputed fs bs (chain_sequence n)) →
  (∀ n, n ∈ ns → lo ≤ chain_sequence n) → lo ≤ q → occupied lo q →
  gs = pre ++ groups → walk_at pre v →
  ∃ h, walk_from v groups stop = Some h ∧ q ≤ head_sequence h.
Proof.
  intros Hstop Hund Hlo Hq Hocc. revert pre v.
  induction groups as [|g0 groups IH]; intros pre v E Hat.
  - destruct v as [h|]; [|cbn in Hat; subst pre]; cbn.
    + exists h. split; [done|]. by eapply walk_done; [..|exact E|exact Hat|set_solver].
    + destruct (Hocc q ltac:(lia)) as (x & Hx & _). rewrite <- elem_of_sorted_nodes in Hx.
      destruct (group_cover ns x Hx) as (k & Hk & _). rewrite E in Hk.
      by apply elem_of_nil in Hk.
  - destruct (group_nonempty ns g0) as (n & g & ->); [rewrite E; set_solver|].
    destruct (decide (chain_sequence n ≤ q)) as [Hle|Hle];
      [|by eapply walk_past; [..|exact E|exact Hat|lia]].
    assert (n :: g ∈ gs) as Hng by (rewrite E; set_solver).
    pose proof (group_member_ns _ n Hng ltac:(by left)) as Hn.
    cbn. rewrite (Hstop n Hn Hle). assert (continues v n = true) as ->.
    { destruct v as [h|]; [|done]. destruct Hat as (pre' & m & g' & -> & ->).
      apply (undisputed_continues pre' m g' n g groups E); [|by apply Hund].
      assert (chain_sequence m < chain_sequence n) as Hlt
        by (by eapply (groups_before _ _ (m :: g') (n :: g) _ _ E); [set_solver..|left|left]).
      assert (m ∈ ns) as Hm by (apply (group_member_ns (m :: g')); [rewrite E|]; set_solver).
      specialize (Hlo m Hm). apply Hocc. lia. }
    apply (IH (pre ++ [n :: g])); [by rewrite <- app_assoc|]. cbn. by eexists _, _, _.
Qed.

Lemma walk_prefix_complete lo q :
  (∀ n, n ∈ ns → lo ≤ chain_sequence n) → lo ≤ q → occupied lo q → undisputed fs bs q →
  ∃ h, walk_verified_prefix gs (first_disputed_sequence fs bs) = Some h
     ∧ q ≤ head_sequence h.
Proof.
  intros Hlo Hq Hocc [Hf Hb].
  assert (∀ n, chain_sequence n ≤ q → undisputed fs bs (chain_sequence n)) as Hund.
  { intros n Hn. split; intros x Hx; [specialize (Hf x Hx)|specialize (Hb x Hx)]; lia. }
  apply (walk_from_complete lo q _ gs []); try done.
  - intros n _ Hn. apply reaches_stop_undisputed. by apply Hund.
  - intros n _ Hn. by apply Hund.
Qed.
End Prefix.

(** C1. The verified head is the end of a chain of nodes of the
    input that starts at the lowest sequence, in which every node carries the
    next sequence and is bound to the entry hash of the one before, and which
    stays below every fork and every break. *)
Theorem verified_head_sound cid ns c h :
  build_chain cid ns = Ok c → verified_head c = Some h →
  ∃ lo path, lo ∈ ns ∧ (∀ m, m ∈ ns → chain_sequence lo ≤ chain_sequence m) ∧
    (∀ n, n ∈ lo :: path → n ∈ ns ∧ undisputed (forks c) (breaks c) (chain_sequence n)) ∧
    (∀ m n, (m, n) ∈ windows2 (lo :: path) → links m n) ∧
    head_of <$> last (lo :: path) = Some h.
Proof. intros (_ & _ & ->)%build_chain_Ok. cbn. apply walk_prefix_sound. Qed.

Lemma verified_head_sound_witness :
  ∃ c lo path, build_chain [x07] [n2; n0; n4; n1; n2'] = Ok c ∧
    (∀ m n, (m, n) ∈ windows2 (lo :: path) → links m n) ∧
    head_of <$> last (lo :: path) = Some (head_of n1).
Proof.
  destruct (build_chain [x07] [n2; n0; n4; n1; n2']) as [c|e] eqn:E;
    [|vm_compute in E; discriminate E].
  destruct (verified_head_sound _ _ c (head_of n1) E) as (lo & path & _ & _ & _ & Hl & Hh).
  { vm_compute in E. injection E as <-. reflexivity. }
  exists c, lo, path. split; [reflexivity|]. split; [exact Hl|exact Hh].
Defined.

(** C2. The verified head is as far as it can be: if every
    sequence from the lowest one to [q] is occupied and every fork and break
    lies above [q], the verified head reaches [q]. *)
Theorem verified_head_complete cid ns c lo q :
  build_chain cid ns = Ok c → sequences_in_u64 ns →
  (∀ n, n ∈ ns → lo ≤ chain_sequence n) → lo ≤ q → occupied ns lo q →
  undisputed (forks c) (breaks c) q →
  ∃ h, verified_head c = Some h ∧ q ≤ head_sequence h.
Proof.
  intros (_ & Hok & ->)%build_chain_Ok Hu. cbn. by apply walk_prefix_complete.
Qed.

Lemma verified_head_complete_witness :
  ∃ c, build_chain [x07] [n2; n0; n4; n1; n2'] = Ok c ∧
    ∃ h, verified_head c = Some h ∧ 1 ≤ head_sequence h.
Proof.
  destruct (build_chain [x07] [n2; n0; n4; n1; n2']) as [c|e] eqn:E;
    [|vm_compute in E; discriminate E].
  exists c. split; [reflexivity|].
  apply (verified_head_complete _ _ c 0 1 E).
  - repeat (constructor; [split; vm_compute; discriminate|]). constructor.
  - intros n Hn. repeat (apply elem_of_cons in Hn as [->|Hn]; [vm_compute; discriminate|]).
    by apply elem_of_nil in Hn.
  - lia.
  - intros s Hs. assert (s = 0 ∨ s = 1) as [-> | ->] by lia;
      [exists n0|exists n1]; (split; [repeat constructor|reflexivity]).
  - vm_compute in E. injection E as <-. split.
    + intros f Hf. apply list_elem_of_singleton in Hf as ->. reflexivity.
    + intros b Hb. by apply elem_of_nil in Hb.
Defined.

(** ** Full verification *)

(** One entry hash per sequence, no sequence missing below another, and every
    node bound to the entry hash of the sequence before. *)
Record linear_chain (ns : list ChainNode) : Prop := {
  linear_occupied : ∀ n s, n ∈ ns → 0 ≤ s ≤ chain_sequence n →
    ∃ m, m ∈ ns ∧ chain_sequence m = s;
  linear_unique : ∀ a b, a ∈ ns → b ∈ ns →
    chain_sequence a = chain_sequence b → entry_hash a = entry_hash b;
  linear_child : ∀ a b, a ∈ ns → b ∈ ns → is_Some (previous_entry_hash a) →
    previous_entry_hash a = previous_entry_hash b → entry_hash a = entry_hash b;
  linear_bound : ∀ a b, a ∈ ns → b ∈ ns →
    chain_sequence b = chain_sequence a + 1 → previous_entry_hash b = Some (entry_hash a);
}.

Lemma is_fully_verified_spec c :
  is_fully_verified c = true ↔ breaks c = [] ∧ gaps c = [] ∧ forks c = [].
Proof.
  unfold is_fully_verified.
  destruct (breaks c), (gaps c), (forks c); split; naive_solver.
Qed.

Section FullyVerified.
Context (cid : ChainId) (ns : list ChainNode).
Context (Hok : Forall (node_ok cid) ns) (Hu : sequences_in_u64 ns).

Lemma no_gaps_occupied :
  collect_gaps cid (sorted_nodes ns) = [] →
  ∀ n s, n ∈ ns → 0 ≤ s ≤ chain_sequence n → ∃ m, m ∈ ns ∧ chain_sequence m = s.
Proof.
  intros Hg n s Hn Hs.
  destruct (decide (Exists (λ m, chain_sequence m = s) ns)) as [Hex|Hex].
  { apply Exists_exists in Hex as (m & Hm & Hms). by exists m. }
  assert (¬ ∃ m, m ∈ ns ∧ chain_sequence m = s) as Hno
    by (intros H; apply Hex, Exists_exists, H).
  exfalso. destruct (proj2 (gaps_from_covers cid 0 (sorted_nodes ns) s
    (sorted_nodes_gap_ok ns Hu) ltac:(lia))) as (g & Hin & _).
  - setoid_rewrite elem_of_sorted_nodes. split; [|done]. exists n. split; [done|].
    destruct (decide (s = chain_sequence n)) as [->|]; [|lia]. exfalso. eauto.
  - unfold collect_gaps in Hg. rewrite Hg in Hin. by apply elem_of_nil in Hin.
Qed.

Lemma no_breaks_bound a b :
  collect_breaks (sequence_groups ns) = [] →
  (∀ x y, x ∈ ns → y ∈ ns → chain_sequence x = chain_sequence y → entry_hash x = entry_hash y) →
  a ∈ ns → b ∈ ns → chain_sequence b = chain_sequence a + 1 →
  previous_entry_hash b = Some (entry_hash a).
Proof.
  intros Hb Huniq Ha Hbn Hq. pose proof Hok as Hok'. rewrite Forall_forall in Hok'.
  pose proof Hu as Hu'. unfold sequences_in_u64 in Hu'. rewrite Forall_forall in Hu'.
  destruct (Hok' b Hbn) as [_ Hgen]. pose proof (Hu' a Ha) as Hua. unfold in_u64 in Hua.
  destruct (previous_entry_hash b) as [p|] eqn:Hp;
    [|apply proj2 in Hgen; specialize (Hgen eq_refl); lia].
  destruct (decide (entry_hash a = p)) as [->|Hne]; [done|]. exfalso.
  assert (is_break ns b a p) as Hbr.
  { repeat split; try done; intros k Hk Hkq.
    - by rewrite (Huniq k a).
    - unfold key_le. by rewrite (Huniq k a), cmp_refl. }
  pose proof (collect_breaks_complete ns b a p Hu Hbr) as Hin.
  rewrite Hb in Hin. by apply elem_of_nil in Hin.
Qed.

Lemma no_forks_unique a b :
  collect_forks cid (sorted_nodes ns) (sequence_groups ns) = [] →
  a ∈ ns → b ∈ ns →
  chain_sequence a = chain_sequence b ∨
    (is_Some (previous_entry_hash a) ∧ previous_entry_hash a = previous_entry_hash b) →
  entry_hash a = entry_hash b.
Proof.
  intros Hf Ha Hb Hor. destruct (decide (entry_hash a = entry_hash b)) as [|Hne]; [done|].
  exfalso. destruct Hor as [Hq|[Hs Hp]].
  - destruct (collect_forks_sequence cid ns a b Ha Hb Hne Hq) as (f & Hin & _).
    rewrite Hf in Hin. by apply elem_of_nil in Hin.
  - destruct (collect_forks_predecessor cid ns a b Ha Hb Hne Hs Hp) as (f & Hin & _).
    rewrite Hf in Hin. by apply elem_of_nil in Hin.
Qed.

Lemma linear_no_findings :
  linear_chain ns →
  collect_breaks (sequence_groups ns) = [] ∧ collect_gaps cid (sorted_nodes ns) = [] ∧
  collect_forks cid (sorted_nodes ns) (sequence_groups ns) = [].
Proof.
  intros [Hocc Huniq Hchild Hbound]. split; [|split]; apply elem_of_nil_inv; intros x Hx.
  - apply collect_breaks_sound in Hx as (n & m & a & (Hn & Hm & Hq & Ha & Hno & _) & _).
    rewrite (Hbound m n Hm Hn Hq) in Ha. injection Ha as <-. by apply (Hno m).
  - pose proof (sorted_nodes_gap_ok ns Hu) as Hgok. unfold collect_gaps in Hx.
    destruct (gaps_from_maximal cid 0 _ x Hgok Hx) as (Hb & _).
    destruct (proj1 (gaps_from_covers cid 0 _ (from_sequence x) Hgok ltac:(lia)))
      as [(n & Hn & Hlt) Hno]; [exists x; split; [done|]; split; lia|].
    rewrite elem_of_sorted_nodes in Hn.
    destruct (Hocc n (from_sequence x) Hn ltac:(lia)) as (m & Hm & Hms).
    apply Hno. exists m. by rewrite elem_of_sorted_nodes.
  - apply collect_forks_sound in Hx as (a & b & Ha & Hb & Hlt & _ & _ & Hform).
    assert (entry_hash a = entry_hash b) as E.
    { destruct (form x); [by apply Huniq|]. destruct Hform. by apply Hchild. }
    by rewrite E, cmp_refl in Hlt.
Qed.
End FullyVerified.

Lemma fully_verified_linear cid ns c :
  build_chain cid ns = Ok c → sequences_in_u64 ns → is_fully_verified c = true → linear_chain ns.
Proof.
  intros (_ & Hok & ->)%build_chain_Ok Hu (Hb & Hg & Hf)%is_fully_verified_spec. cbn in *.
  pose proof (no_forks_unique cid ns) as Huniq. split.
  - by eapply no_gaps_occupied.
  - intros a b Ha Hb' Hq. by apply (Huniq a b); [..|left].
  - intros a b Ha Hb' Hs Hp. by apply (Huniq a b); [..|right].
  - intros a b Ha Hb' Hq. apply (no_breaks_bound cid ns Hok Hu); try done.
    intros x y Hx Hy Hxy. by apply (Huniq x y); [..|left].
Qed.

Lemma linear_fully_verified cid ns c :
  build_chain cid ns = Ok c → sequences_in_u64 ns → linear_chain ns → is_fully_verified c = true.
Proof.
  intros (_ & Hok & ->)%build_chain_Ok Hu Hl. rewrite is_fully_verified_spec. cbn. by apply linear_no_findings.
Qed.

(** C3. [is_fully_verified] decides exactly whether the nodes form
    one linear hash-linked chain from sequence 0. *)
Theorem is_fully_verified_iff cid ns c :
  build_chain cid ns = Ok c → sequences_in_u64 ns →
  is_fully_verified c = true ↔ linear_chain ns.
Proof. intros Hc Hu. split; [by eapply fully_verified_linear|by eapply linear_fully_verified]. Qed.

Lemma linear_witness : linear_chain [n2; n0; n1].
Proof.
  assert (∀ n, n ∈ [n2; n0; n1] → n = n2 ∨ n = n0 ∨ n = n1) as Hcase by set_solver.
  split.
  - intros n s Hn Hs. assert (chain_sequence n ≤ 2)
      by (destruct (Hcase n Hn) as [->|[->| ->]]; cbn; lia).
    assert (s = 0 ∨ s = 1 ∨ s = 2) as [->|[->| ->]] by lia;
      [exists n0|exists n1|exists n2]; (split; [repeat constructor|reflexivity]).
  - intros a b Ha Hb. destruct (Hcase a Ha) as [->|[->| ->]],
      (Hcase b Hb) as [->|[->| ->]]; cbn; congruence.
  - intros a b Ha Hb. destruct (Hcase a Ha) as [->|[->| ->]],
      (Hcase b Hb) as [->|[->| ->]]; cbn; intros; congruence.
  - intros a b Ha Hb. destruct (Hcase a Ha) as [->|[->| ->]],
      (Hcase b Hb) as [->|[->| ->]]; cbn; (reflexivity || lia).
Qed.

Lemma is_fully_verified_iff_witness :
  ∃ c, build_chain [x07] [n2; n0; n1] = Ok c ∧ is_fully_verified c = true.
Proof.
  destruct (build_chain [x07] [n2; n0; n1]) as [c|e] eqn:E;
    [|vm_compute in E; discriminate E].
  exists c. split; [reflexivity|].
  apply (is_fully_verified_iff _ _ c E); [|apply linear_witness].
  repeat (constructor; [split; vm_compute; discriminate|]). constructor.
Defined.

Lemma last_sorted_greatest ns l n :
  last (sorted_nodes ns) = Some l → n ∈ ns → chain_sequence n ≤ chain_sequence l.
Proof.
  intros (k & E)%last_Some Hn. pose proof (sorted_nodes_sequence ns) as Hs.
  rewrite <- elem_of_sorted_nodes, E in Hn. rewrite E in Hs.
  apply StronglySorted_app in Hs as (H & _). rewrite elem_of_app in Hn.
  destruct Hn as [Hn|Hn]; [apply key_le_sequence, H; set_solver|].
  apply list_elem_of_singleton in Hn as ->. lia.
Qed.

(** A fully verified chain is verified to its head. *)
Theorem fully_verified_head cid ns c :
  build_chain cid ns = Ok c → sequences_in_u64 ns →
  is_fully_verified c = true → verified_head c = head c.
Proof.
  intros (_ & Hok & ->)%build_chain_Ok Hu (Hb & Hg & Hf)%is_fully_verified_spec.
  cbn in *. destruct (last (sorted_nodes ns)) as [l|] eqn:El; cbn.
  2: { apply last_None in El. unfold sequence_groups. by rewrite El. }
  assert (l ∈ ns) as Hl.
  { apply last_Some in El as (k & E). rewrite <- elem_of_sorted_nodes, E. set_solver. }
  pose proof Hu as Hu'. unfold sequences_in_u64 in Hu'. rewrite Forall_forall in Hu'.
  destruct (walk_prefix_complete cid ns Hok Hu 0 (chain_sequence l)) as (h & Hh & Hge).
  - intros n Hn. apply Hu' in Hn. unfold in_u64 in Hn. lia.
  - apply Hu' in Hl. unfold in_u64 in Hl. lia.
  - intros s Hs. by eapply no_gaps_occupied.
  - rewrite Hf, Hb. split; [by intros ? ?%elem_of_nil|by intros ? ?%elem_of_nil].
  - rewrite Hh. f_equal. apply walk_prefix_sound in Hh as (lo & path & _ & _ & Hin & _ & Hlast).
    destruct (last (lo :: path)) as [n|] eqn:En; [|done]. injection Hlast as <-.
    apply last_Some in En as (k & En).
    destruct (Hin n) as [Hn _]; [rewrite En; set_solver|]. cbn in Hge.
    pose proof (last_sorted_greatest ns l n El Hn) as Hle. rewrite Forall_forall in Hok.
    destruct (Hok n Hn) as [Hcn _], (Hok l Hl) as [Hcl _]. unfold head_of.
    rewrite (no_forks_unique cid ns n l Hf Hn Hl) by (left; lia). f_equal; [congruence|lia].
Qed.

Lemma fully_verified_head_witness :
  ∃ c, build_chain [x07] [n2; n0; n1] = Ok c ∧ verified_head c = head c.
Proof.
  destruct (build_chain [x07] [n2; n0; n1]) as [c|e] eqn:E;
    [|vm_compute in E; discriminate E].
  exists c. split; [reflexivity|]. apply (fully_verified_head _ _ c E).
  - repeat (constructor; [split; vm_compute; discriminate|]). constructor.
  - vm_compute in E. injection E as <-. reflexivity.
Defined.

(** ** Determinism *)

Lemma sorted_nodes_ext ns ns' :
  key_inj node_key ns → (∀ n, n ∈ ns ↔ n ∈ ns') → sorted_nodes ns = sorted_nodes ns'.
Proof.
  intros Hi Hext. apply (strictly_sorted_ext node_key).
  - apply dedup_strict; [apply sort_by_key_sorted|].
    eapply key_inj_perm; [symmetry; apply sort_by_key_perm|done].
  - apply dedup_strict; [apply sort_by_key_sorted|].
    eapply key_inj_perm; [symmetry; apply sort_by_key_perm|].
    intros x y. rewrite <- !Hext. apply Hi.
  - intros x. by rewrite !elem_of_sorted_nodes.
Qed.

(** The result depends only on the set of nodes: neither the
    order of the input nor repeated nodes change it, as long as no two different
    nodes agree in sequence, entry hash and object hash. *)
Theorem build_chain_set_determined cid ns ns' c :
  key_inj node_key ns → (∀ n, n ∈ ns ↔ n ∈ ns') →
  Z.of_nat (length ns') ≤ MAX_CHAIN_NODES_V1 →
  build_chain cid ns = Ok c → build_chain cid ns' = Ok c.
Proof.
  intros Hi Hext Hlen (_ & Hok & ->)%build_chain_Ok. apply build_chain_Ok.
  split; [done|]. split.
  - rewrite Forall_forall in *. intros n Hn. by apply Hok, Hext.
  - unfold sequence_groups. by rewrite (sorted_nodes_ext ns ns' Hi Hext).
Qed.

Lemma build_chain_set_determined_witness :
  ∃ c, build_chain [x07] [n2; n0; n1] = Ok c ∧ build_chain [x07] [n0; n1; n0; n2; n1] = Ok c.
Proof.
  destruct (build_chain [x07] [n2; n0; n1]) as [c|e] eqn:E;
    [|vm_compute in E; discriminate E].
  exists c. split; [reflexivity|]. apply (build_chain_set_determined _ [n2; n0; n1]).
  - intros a b Ha Hb.
    repeat (apply elem_of_cons in Ha as [->|Ha]; [|]); [..|by apply elem_of_nil in Ha];
    repeat (apply elem_of_cons in Hb as [->|Hb]; [|]);
      try (by apply elem_of_nil in Hb); vm_compute; intros Hab; congruence.
  - set_solver.
  - vm_compute. discriminate.
  - exact E.
Defined.

(** ** Input errors *)

(** The error a single node causes. *)
Definition node_error (cid : ChainId) (n : ChainNode) : option ChainError :=
  if decide (chain_id n = cid) then
    if decide (chain_sequence n = 0 ↔ previous_entry_hash n = None) then None
    else Some GenesisBinding
  else Some ForeignChainId.

Lemma node_error_None cid n : node_error cid n = None ↔ node_ok cid n.
Proof.
  unfold node_error, node_ok. repeat case_decide; split; try done; by intros [].
Qed.

Lemma check_nodes_Err cid ns e :
  check_nodes cid ns = Err e ↔
  ∃ l n r, ns = l ++ n :: r ∧ Forall (node_ok cid) l ∧ node_error cid n = Some e.
Proof.
  induction ns as [|m ns IH]; cbn.
  { split; [done|]. intros ([] & n & r & ? & _); discriminate. }
  assert (check_nodes cid (m :: ns) =
    match node_error cid m with Some e => Err e | None => check_nodes cid ns end) as Hm.
  { cbn. unfold node_error, ensure. repeat case_decide; repeat case_bool_decide; done. }
  cbn in Hm. rewrite Hm. destruct (node_error cid m) as [e'|] eqn:E.
  - split.
    + intros [= <-]. by exists [], m, ns.
    + intros ([|x l] & n & r & [= -> ->] & Hl & He); [congruence|].
      apply Forall_cons in Hl as [Hx _]. apply node_error_None in Hx. congruence.
  - rewrite IH. split.
    + intros (l & n & r & -> & Hl & He). exists (m :: l), n, r. split; [done|].
      split; [|done]. constructor; [by apply node_error_None|done].
    + intros ([|x l] & n & r & [= -> ->] & Hl & He); [congruence|].
      apply Forall_cons in Hl as [_ Hl]. by exists l, n, r.
Qed.

(** [build_chain] fails exactly on too many nodes, or with the
    error of the first offending node: a foreign chain id before a genesis
    binding. Every finding about the stock itself is a value, never an error. *)
Theorem build_chain_errors cid ns e :
  build_chain cid ns = Err e ↔
  (e = NodeLimit ∧ MAX_CHAIN_NODES_V1 < Z.of_nat (length ns)) ∨
  (Z.of_nat (length ns) ≤ MAX_CHAIN_NODES_V1 ∧
   ∃ l n r, ns = l ++ n :: r ∧ Forall (node_ok cid) l ∧ node_error cid n = Some e).
Proof.
  rewrite <- check_nodes_Err. unfold build_chain.
  destruct (Z.of_nat (length ns) <=? MAX_CHAIN_NODES_V1) eqn:E; cbn.
  - apply Z.leb_le in E. destruct (check_nodes cid ns) as [[]|e']; cbn; split.
    + done.
    + intros [[_ ?]|[_ ?]]; [lia|done].
    + intros [= <-]. by right.
    + intros [[_ ?]|[_ [= <-]]]; [lia|done].
  - apply Z.leb_gt in E. split; [intros [= <-]; by left|].
    intros [[-> _]|[? _]]; [done|lia].
Qed.
