(* ===== verification/Rollback.v ===== *)
(** * Rollback: the [ea-chain] crate, checkpoint comparison

    Authenticated checkpoint claims about earlier chain heads and their
    comparison with a verified chain ([rollback.rs]). *)

From S2P Require Import Prelude Types Chain.

(** ** Data *)

Record CheckpointClaim := {
  claim_chain_id : ChainId;
  covered_from_sequence : ChainSequence;
  covered_through_sequence : ChainSequence;
  claim_head_entry_hash : EntryHash;
  checkpoint_object_hash : ObjectHash;
}.

#[export] Instance CheckpointClaim_eq_dec : EqDecision CheckpointClaim.
Proof. solve_decision. Defined.

Inductive RollbackFinding :=
| TruncatedBelowCheckpoint (covered_through : ChainSequence)
    (verified_head_sequence : option ChainSequence) (checkpoint : ObjectHash)
| HeadEntryHashMismatch (sequence : ChainSequence)
    (checkpoint_head_entry_hash chain_entry_hash : EntryHash)
    (checkpoint conflicting_object_hash : ObjectHash).

Inductive RollbackAssessment :=
| NotAssessable
| Consistent
| Rollback (findings : list RollbackFinding).

Definition proven_missing_sequences (f : RollbackFinding)
  : option (ChainSequence * ChainSequence) :=
  match f with
  | HeadEntryHashMismatch _ _ _ _ _ => None
  | TruncatedBelowCheckpoint through verified _ =>
      from ← match verified with
             | Some v => checked_add u64_max v 1
             | None => Some 0
             end;
      if decide (from > through) then None else Some (from, through)
  end.

Definition finding_sort_key (f : RollbackFinding) : Z * Hash32 :=
  match f with
  | TruncatedBelowCheckpoint through _ o => (through, o)
  | HeadEntryHashMismatch q _ _ o _ => (q, o)
  end.

(** ** [assess_rollback] *)

Definition verified_node_at (c : VerifiedChain) (q : ChainSequence) : option ChainNode :=
  let ns := nodes c in
  match ns !! partition_point (λ n, chain_sequence n <? q) ns with
  | Some n => if decide (chain_sequence n = q) then Some n else None
  | None => None
  end.

Definition claim_sort_key (k : CheckpointClaim) : Z * (Hash32 * (Hash32 * Z)) :=
  (covered_through_sequence k,
   (checkpoint_object_hash k, (claim_head_entry_hash k, covered_from_sequence k))).

Definition relevant_claims (c : VerifiedChain) (claims : list CheckpointClaim)
  : list CheckpointClaim :=
  dedup (sort_by_key claim_sort_key
           (filter (λ k, claim_chain_id k = vc_chain_id c) claims)).

(** The loop body of [assess_rollback] for one claim. *)
Definition claim_findings (c : VerifiedChain) (k : CheckpointClaim)
  : list RollbackFinding :=
  let verified := head_sequence <$> verified_head c in
  let truncated := TruncatedBelowCheckpoint (covered_through_sequence k) verified
                     (checkpoint_object_hash k) in
  if match verified with Some v => v <? covered_through_sequence k | None => true end
  then [truncated]
  else match verified_node_at c (covered_through_sequence k) with
       | None => [truncated]
       | Some n =>
           if decide (entry_hash n = claim_head_entry_hash k) then []
           else [HeadEntryHashMismatch (covered_through_sequence k)
                   (claim_head_entry_hash k) (entry_hash n)
                   (checkpoint_object_hash k) (object_hash n)]
       end.

Definition assess_rollback (c : VerifiedChain) (claims : list CheckpointClaim)
  : RollbackAssessment :=
  match relevant_claims c claims with
  | [] => NotAssessable
  | relevant =>
      match relevant ≫= claim_findings c with
      | [] => Consistent
      | findings => Rollback (sort_by_key finding_sort_key findings)
      end
  end.

(** ** The node at a sequence *)

(** On nodes that ascend by sequence the partition point is the first node that
    is not below [q]. *)
Lemma first_not_below q l :
  StronglySorted (key_le chain_sequence) l →
  match l !! partition_point (λ n, chain_sequence n <? q) l with
  | Some n => n ∈ l ∧ q ≤ chain_sequence n ∧
      ∀ m, m ∈ l → q ≤ chain_sequence m → chain_sequence n ≤ chain_sequence m
  | None => ∀ m, m ∈ l → chain_sequence m < q
  end.
Proof.
  induction l as [|x l IH]; intros Hs; cbn; [by intros m ?%elem_of_nil|].
  apply StronglySorted_cons in Hs as [Hx Hs]. specialize (IH Hs).
  destruct (chain_sequence x <? q) eqn:E; cbn.
  - apply Z.ltb_lt in E. destruct (l !! _) as [n|].
    + destruct IH as (Hn & Hqn & Hm). split; [by right|]. split; [done|].
      intros m [->|Hm']%elem_of_cons Hq; [lia|by apply Hm].
    + intros m [->|Hm']%elem_of_cons; [lia|by apply IH].
  - apply Z.ltb_ge in E. split; [by left|]. split; [done|]. intros m [->|Hm]%elem_of_cons Hq; [done|].
    rewrite Forall_forall in Hx. specialize (Hx m Hm).
    by apply key_le_sequence.
Qed.

Lemma verified_node_at_spec c q :
  StronglySorted (key_le chain_sequence) (nodes c) →
  match verified_node_at c q with
  | Some n => n ∈ nodes c ∧ chain_sequence n = q
  | None => ∀ n, n ∈ nodes c → chain_sequence n ≠ q
  end.
Proof.
  intros Hs. unfold verified_node_at. pose proof (first_not_below q _ Hs) as Hf.
  destruct (nodes c !! _) as [n|].
  - destruct Hf as (Hn & Hqn & Hm). case_decide as Hq; [done|].
    intros m Hin Hmq. specialize (Hm m Hin ltac:(lia)). lia.
  - intros m Hin Hmq. specialize (Hf m Hin). lia.
Qed.

(** ** What an assessment says *)

(** The stock positively confirms [k]: the verified prefix reaches the witnessed
    sequence and holds a node there with the witnessed entry hash. *)
Definition confirmed (c : VerifiedChain) (k : CheckpointClaim) : Prop :=
  ∃ h n, verified_head c = Some h ∧ covered_through_sequence k ≤ head_sequence h ∧
    n ∈ nodes c ∧ chain_sequence n = covered_through_sequence k ∧
    entry_hash n = claim_head_entry_hash k.

Lemma elem_of_relevant c claims k :
  k ∈ relevant_claims c claims ↔ k ∈ claims ∧ claim_chain_id k = vc_chain_id c.
Proof.
  unfold relevant_claims.
  rewrite elem_of_dedup, elem_of_sort_by_key, list_elem_of_filter. tauto.
Qed.

Section Assess.
Context (cid : ChainId) (ns : list ChainNode) (c : VerifiedChain).
Context (Hc : build_chain cid ns = Ok c).

Lemma built_nodes : nodes c = sorted_nodes ns.
Proof. apply build_chain_Ok in Hc as (_ & _ & ->). done. Qed.

Lemma built_sorted : StronglySorted (key_le chain_sequence) (nodes c).
Proof. rewrite built_nodes. apply sorted_nodes_sequence. Qed.

(** Up to the verified head a sequence carries one entry hash. *)
Lemma prefix_entry_unique h a b :
  verified_head c = Some h → a ∈ nodes c → b ∈ nodes c →
  chain_sequence a = chain_sequence b → chain_sequence a ≤ head_sequence h →
  entry_hash a = entry_hash b.
Proof.
  intros Hh Ha Hb Hq Hle. rewrite built_nodes, elem_of_sorted_nodes in Ha, Hb.
  destruct (decide (entry_hash a = entry_hash b)) as [|Hne]; [done|]. exfalso.
  destruct (collect_forks_sequence cid ns a b Ha Hb Hne Hq) as (f & Hf & _ & Hfq & _).
  apply build_chain_Ok in Hc as (_ & _ & ->). cbn in Hh.
  apply walk_prefix_sound in Hh as (lo & path & _ & _ & Hin & _ & Hlast).
  destruct (last (lo :: path)) as [n|] eqn:En; [|done]. injection Hlast as <-.
  apply last_Some in En as (k & En). destruct (Hin n) as [_ [Hund _]];
    [rewrite En; set_solver|]. specialize (Hund f Hf). cbn in Hle. lia.
Qed.

Lemma claim_findings_nil k : claim_findings c k = [] ↔ confirmed c k.
Proof.
  unfold claim_findings, confirmed.
  pose proof (verified_node_at_spec c (covered_through_sequence k) built_sorted) as Hat.
  destruct (verified_head c) as [h|] eqn:Hh; cbn; [|split; [done|naive_solver]].
  destruct (head_sequence h <? covered_through_sequence k) eqn:E.
  { apply Z.ltb_lt in E. split; [done|]. intros (h' & n & [= <-] & Hle & _). lia. }
  apply Z.ltb_ge in E. destruct (verified_node_at c _) as [n|].
  - destruct Hat as [Hn Hq]. case_decide as He; split; try done.
    + intros _. by exists h, n.
    + intros (h' & m & _ & _ & Hm & Hmq & Hme). exfalso. apply He. rewrite <- Hme.
      apply (prefix_entry_unique h n m Hh); [done|done|congruence|lia].
  - split; [done|]. intros (h' & m & _ & _ & Hm & Hmq & _). by apply Hat in Hm.
Qed.

Lemma assess_rollback_eq claims :
  assess_rollback c claims =
    if decide (relevant_claims c claims = []) then NotAssessable
    else if decide (relevant_claims c claims ≫= claim_findings c = []) then Consistent
    else Rollback (sort_by_key finding_sort_key
                     (relevant_claims c claims ≫= claim_findings c)).
Proof.
  unfold assess_rollback. destruct (relevant_claims c claims) as [|k ks]; [done|].
  rewrite decide_False by done. by destruct ((k :: ks) ≫= claim_findings c).
Qed.

Lemma all_confirmed claims :
  relevant_claims c claims ≫= claim_findings c = [] ↔
  ∀ k, k ∈ claims → claim_chain_id k = vc_chain_id c → confirmed c k.
Proof.
  split.
  - intros H k Hk Hid. apply claim_findings_nil. apply elem_of_nil_inv. intros f Hf.
    assert (f ∈ relevant_claims c claims ≫= claim_findings c) as Hin.
    { apply list_elem_of_bind. exists k. by rewrite elem_of_relevant. }
    rewrite H in Hin. by apply elem_of_nil in Hin.
  - intros H. apply elem_of_nil_inv. intros f (k & Hf & Hk)%list_elem_of_bind.
    apply elem_of_relevant in Hk as [Hk Hid].
    rewrite (proj2 (claim_findings_nil k) (H k Hk Hid)) in Hf. by apply elem_of_nil in Hf.
Qed.
End Assess.

(** The findings of a claim carry its sequence and its origin. *)
Lemma claim_findings_key c k f :
  f ∈ claim_findings c k →
  finding_sort_key f = (covered_through_sequence k, checkpoint_object_hash k).
Proof.
  unfold claim_findings. destruct (match _ with Some _ => _ | None => _ end);
    [by intros ->%list_elem_of_singleton|].
  destruct (verified_node_at c _); [case_decide; [by intros ?%elem_of_nil|]|];
    by intros ->%list_elem_of_singleton.
Qed.

(** C4. Against a built chain the assessment is [NotAssessable] exactly
    without a claim about this chain, [Consistent] exactly if there is one and
    the verified prefix confirms every one of them, and otherwise a non-empty
    sorted list of findings that names every unconfirmed claim and only those. *)
Theorem assess_rollback_decides cid ns c claims :
  build_chain cid ns = Ok c →
  let about k := k ∈ claims ∧ claim_chain_id k = cid in
  (assess_rollback c claims = NotAssessable ↔ ¬ ∃ k, about k) ∧
  (assess_rollback c claims = Consistent ↔
     (∃ k, about k) ∧ ∀ k, about k → confirmed c k) ∧
  (∀ fs, assess_rollback c claims = Rollback fs →
     fs ≠ [] ∧ StronglySorted (key_le finding_sort_key) fs ∧
     ∀ key, (∃ f, f ∈ fs ∧ finding_sort_key f = key) ↔
       ∃ k, about k ∧ ¬ confirmed c k ∧
         key = (covered_through_sequence k, checkpoint_object_hash k)).
Proof.
  intros Hc about. pose proof (assess_rollback_eq c claims) as E.
  assert (vc_chain_id c = cid) as Hcid by (by apply build_chain_Ok in Hc as (_ & _ & ->)).
  assert (relevant_claims c claims = [] ↔ ¬ ∃ k, about k) as Hrel.
  { subst about; cbn. setoid_rewrite <- Hcid. setoid_rewrite <- elem_of_relevant. split.
    - intros -> (k & ?%elem_of_nil). done.
    - intros Hno. apply elem_of_nil_inv. intros k Hk. eauto. }
  pose proof (all_confirmed cid ns c Hc claims) as Hall. rewrite Hcid in Hall.
  revert E. case_decide as H1; [|case_decide as H2]; intros ->.
  - apply Hrel in H1. split; [done|]. split; [|done]. split; [done|]. by intros [? _].
  - split; [split; [done|intros ?; by destruct H1; apply Hrel]|]. split; [|done].
    split; [intros _|done]. split.
    + destruct (relevant_claims c claims) as [|k ks] eqn:Ek; [done|]. exists k.
      unfold about. rewrite <- Hcid, <- elem_of_relevant, Ek. by left.
    + intros k [Hk Hid]. by apply Hall.
  - split; [split; [done|intros ?; by destruct H1; apply Hrel]|].
    split; [split; [done|intros [_ Hcf]; destruct H2; apply Hall; intros; by apply Hcf]|].
    intros fs [= <-]. split; [|split; [apply sort_by_key_sorted|]].
    + intros E. apply H2. apply Permutation_nil_r. rewrite <- E. by rewrite sort_by_key_perm.
    + intros key. setoid_rewrite elem_of_sort_by_key. setoid_rewrite list_elem_of_bind.
      setoid_rewrite <- (claim_findings_nil cid ns c Hc). split.
      * intros (f & (k & Hf & Hk) & <-). exists k. rewrite elem_of_relevant, Hcid in Hk.
        split; [done|]. split; [intros E; rewrite E in Hf; by apply elem_of_nil in Hf|].
        by apply (claim_findings_key c).
      * intros (k & Hk & Hne & ->). destruct (claim_findings c k) as [|f fs] eqn:E; [done|].
        assert (f ∈ claim_findings c k) as Hf by (rewrite E; by left).
        exists f. split; [|by apply (claim_findings_key c)]. exists k. split; [done|].
        by rewrite elem_of_relevant, Hcid.
Qed.

(** A claim about the chain of [n0], [n1], [n2]. *)
Definition claim_at (q : Z) (h : EntryHash) : CheckpointClaim :=
  {| claim_chain_id := [x07]; covered_from_sequence := 0; covered_through_sequence := q;
     claim_head_entry_hash := h; checkpoint_object_hash := [x0c] |}.

Lemma assess_rollback_decides_witness :
  ∃ c, build_chain [x07] [n2; n0; n1] = Ok c ∧
    assess_rollback c [claim_at 1 (entry_hash n1)] ≠ NotAssessable ∧
    confirmed c (claim_at 1 (entry_hash n1)).
Proof.
  destruct (build_chain [x07] [n2; n0; n1]) as [c|e] eqn:E;
    [|vm_compute in E; discriminate E].
  exists c. split; [reflexivity|].
  destruct (assess_rollback_decides _ _ c [claim_at 1 (entry_hash n1)] E) as (H1 & H2 & _).
  split.
  - intros H. apply H1 in H. apply H. exists (claim_at 1 (entry_hash n1)).
    split; [by left|reflexivity].
  - apply H2; [|split; [by left|reflexivity]]. vm_compute in E. injection E as <-.
    vm_compute. reflexivity.
Defined.

(** ** Order and repetition of claims *)

Lemma claim_key_inj c claims :
  key_inj claim_sort_key (filter (λ k, claim_chain_id k = vc_chain_id c) claims).
Proof.
  intros [] [] [Ha _]%list_elem_of_filter [Hb _]%list_elem_of_filter. cbn in *.
  unfold claim_sort_key. cbn. intros [= -> -> -> ->]. by subst.
Qed.

Lemma relevant_claims_ext c claims claims' :
  (∀ k, k ∈ claims ↔ k ∈ claims') → relevant_claims c claims = relevant_claims c claims'.
Proof.
  intros Hext. apply (strictly_sorted_ext claim_sort_key).
  1, 2: apply dedup_strict; [apply sort_by_key_sorted|];
    eapply key_inj_perm; [symmetry; apply sort_by_key_perm|apply claim_key_inj].
  intros k. by rewrite !elem_of_relevant, Hext.
Qed.

(** The assessment is a function of the set of claims: neither
    their order nor a repeated claim changes the findings or their sequence. *)
Theorem assess_rollback_set_determined c claims claims' :
  (∀ k, k ∈ claims ↔ k ∈ claims') → assess_rollback c claims = assess_rollback c claims'.
Proof. intros Hext. unfold assess_rollback. by rewrite (relevant_claims_ext c _ _ Hext). Qed.

Lemma assess_rollback_set_determined_witness :
  ∃ c, build_chain [x07] [n2; n0; n1] = Ok c ∧
    assess_rollback c [claim_at 5 [x01]; claim_at 1 [x02]; claim_at 5 [x01]] =
    assess_rollback c [claim_at 1 [x02]; claim_at 5 [x01]].
Proof.
  destruct (build_chain [x07] [n2; n0; n1]) as [c|e] eqn:E;
    [|vm_compute in E; discriminate E].
  exists c. split; [reflexivity|]. apply assess_rollback_set_determined. set_solver.
Defined.

(** ** Proven gaps *)

(** The interval a finding proves missing ends at a sequence an
    authentic claim about the chain witnesses, and holds exactly the sequences
    up to it that lie beyond the verified prefix; there is none exactly for a
    mismatch and where no sequence is left. *)
Theorem proven_missing_sequences_exact c claims fs f :
  Forall (λ k, in_u64 (covered_through_sequence k)) claims →
  assess_rollback c claims = Rollback fs → f ∈ fs →
  match proven_missing_sequences f with
  | Some (lo, hi) =>
      lo ≤ hi ∧
      (∃ k, k ∈ claims ∧ claim_chain_id k = vc_chain_id c ∧
            covered_through_sequence k = hi) ∧
      ∀ q, 0 ≤ q → (lo ≤ q ≤ hi ↔
        q ≤ hi ∧ ∀ h, verified_head c = Some h → head_sequence h < q)
  | None =>
      (∃ q a b o o', f = HeadEntryHashMismatch q a b o o') ∨
      ∃ h, verified_head c = Some h ∧ (finding_sort_key f).1 ≤ head_sequence h
  end.
Proof.
  intros Hu. rewrite Forall_forall in Hu.
  rewrite assess_rollback_eq. case_decide; [done|]. case_decide; [done|].
  intros [= <-]. rewrite elem_of_sort_by_key. intros (k & Hf & Hk)%list_elem_of_bind.
  apply elem_of_relevant in Hk as [Hk Hid]. pose proof (claim_findings_key c k f Hf) as Hkey.
  assert (match f with TruncatedBelowCheckpoint _ v _ => v = head_sequence <$> verified_head c
          | _ => True end) as Hv.
  { revert Hf. unfold claim_findings. destruct (match _ with Some _ => _ | None => _ end);
      [by intros ->%list_elem_of_singleton|].
    destruct (verified_node_at c _); [case_decide; [by intros ?%elem_of_nil|]|];
      by intros ->%list_elem_of_singleton. }
  destruct f as [q v o|q a b o o']; [|left; by exists q, a, b, o, o'].
  subst v. injection Hkey as -> ->. unfold proven_missing_sequences.
  specialize (Hu k Hk). unfold in_u64 in Hu.
  destruct (verified_head c) as [h|]; cbn; unfold checked_add; repeat case_decide; cbn;
    try case_decide; try lia; try (right; exists h; split; [done|lia]);
    (split; [lia|]; split; [by exists k|]; intros p Hp).
  - split; [|intros [? Hh]; specialize (Hh h eq_refl); lia].
    intros ?. split; [lia|]. intros ? [= <-]. lia.
  - split; [intros [? ?]; split; [lia|done]|intros [? _]; lia].
Qed.

Lemma proven_missing_sequences_exact_witness :
  ∃ c fs f, build_chain [x07] [n2; n0; n1] = Ok c ∧
    assess_rollback c [claim_at 5 [x01]] = Rollback fs ∧
    proven_missing_sequences f = Some (3, 5) ∧
    ∀ q, 0 ≤ q → (3 ≤ q ≤ 5 ↔
      q ≤ 5 ∧ ∀ h, verified_head c = Some h → head_sequence h < q).
Proof.
  destruct (build_chain [x07] [n2; n0; n1]) as [c|e] eqn:E;
    [|vm_compute in E; discriminate E].
  destruct (assess_rollback c [claim_at 5 [x01]]) as [| |fs] eqn:Ea;
    [vm_compute in E; injection E as <-; vm_compute in Ea; discriminate Ea..|].
  exists c, fs, (TruncatedBelowCheckpoint 5 (Some 2) [x0c]).
  split; [reflexivity|]. split; [exact Ea|]. split; [reflexivity|].
  refine (proj2 (proj2 (proven_missing_sequences_exact c _ fs
    (TruncatedBelowCheckpoint 5 (Some 2) [x0c]) _ Ea _))).
  - constructor; [|constructor]. split; vm_compute; discriminate.
  - vm_compute in E. injection E as <-. vm_compute in Ea. injection Ea as <-. by left.
Defined.
