(* ===== verification/Utf8.v ===== *)
(** * Utf8: [core::str::from_utf8]

    The UTF-8 decoder of the Rust standard library as the program uses it: a
    byte string is text exactly if it is a sequence of well-formed encodings of
    Unicode scalar values (shortest form, no surrogates, at most U+10FFFF). A [char] is its
    scalar value. *)

From S2P Require Import Prelude.

Definition in_range (lo hi : Z) (b : byte) : bool := (lo <=? u8 b) && (u8 b <=? hi).

(** The continuation byte of an encoding contributes six bits. *)
Definition push (acc : Z) (b : byte) : Z := Z.lor (Z.shiftl acc 6) (Z.land (u8 b) 63).

(** Reads the next encoded character: its value and the bytes after it. *)
Definition next_char (l : list byte) : option (Z * list byte) :=
  match l with
  | [] => None
  | b0 :: l1 =>
      if in_range 0 127 b0 then Some (u8 b0, l1)
      else match l1 with
      | [] => None
      | b1 :: l2 =>
          let two := push (Z.land (u8 b0) 31) b1 in
          let three := push (Z.land (u8 b0) 15) b1 in
          let four := push (Z.land (u8 b0) 7) b1 in
          if in_range 194 223 b0 && in_range 128 191 b1 then Some (two, l2)
          else match l2 with
          | [] => None
          | b2 :: l3 =>
              if ((in_range 224 224 b0 && in_range 160 191 b1)
                  || (in_range 225 236 b0 && in_range 128 191 b1)
                  || (in_range 237 237 b0 && in_range 128 159 b1)
                  || (in_range 238 239 b0 && in_range 128 191 b1))
                 && in_range 128 191 b2
              then Some (push three b2, l3)
              else match l3 with
              | [] => None
              | b3 :: l4 =>
                  if ((in_range 240 240 b0 && in_range 144 191 b1)
                      || (in_range 241 243 b0 && in_range 128 191 b1)
                      || (in_range 244 244 b0 && in_range 128 143 b1))
                     && in_range 128 191 b2 && in_range 128 191 b3
                  then Some (push (push four b2) b3, l4)
                  else None
              end
          end
      end
  end.

(** One step per byte is enough, every character has at least one. *)
Fixpoint chars_fuel (fuel : nat) (l : list byte) : option (list Z) :=
  match fuel, l with
  | _, [] => Some []
  | O, _ => None
  | S fuel, _ => '(c, l) ← next_char l; cs ← chars_fuel fuel l; Some (c :: cs)
  end.

Definition from_utf8 (l : list byte) : option (list Z) := chars_fuel (length l) l.

Lemma next_char_length l c r : next_char l = Some (c, r) → (length r < length l)%nat.
Proof.
  unfold next_char. intros H.
  destruct l as [|b0 [|b1 [|b2 [|b3 l]]]]; repeat case_match; simplify_eq/=; lia.
Qed.

Lemma chars_fuel_enough l m n :
  (length l ≤ m)%nat → (length l ≤ n)%nat → chars_fuel m l = chars_fuel n l.
Proof.
  revert l n. induction m as [|m IH]; intros [|b l] [|n] Hm Hn; cbn in Hm, Hn;
    try lia; try done.
  cbn [chars_fuel]. destruct (next_char (b :: l)) as [[c r]|] eqn:E; [|done].
  apply next_char_length in E. cbn in *. by rewrite (IH r n) by lia.
Qed.

(** Decoding goes character by character. *)
Lemma from_utf8_step l :
  from_utf8 l = match l with
                | [] => Some []
                | _ => '(c, r) ← next_char l; cs ← from_utf8 r; Some (c :: cs)
                end.
Proof.
  unfold from_utf8. destruct l as [|b l]; [done|]. cbn [length chars_fuel].
  destruct (next_char (b :: l)) as [[c r]|] eqn:E; [|done].
  apply next_char_length in E. cbn in *. by rewrite (chars_fuel_enough r (length l) (length r)) by lia.
Qed.

(** ASCII text is text, byte for byte. *)
Lemma from_utf8_ascii l :
  Forall (λ b, u8 b ≤ 127) l → from_utf8 l = Some (u8 <$> l).
Proof.
  induction l as [|b l IH]; intros H; [done|]. apply Forall_cons in H as [Hb Hl].
  rewrite from_utf8_step. cbn. unfold in_range. pose proof (u8_range b).
  rewrite (proj2 (Z.leb_le 0 (u8 b))), (proj2 (Z.leb_le (u8 b) 127)) by lia. cbn.
  by rewrite IH.
Qed.
