(* ===== verification/Cbor.v ===== *)
(** * Cbor: the [ea-cbor] crate

    The bounded scanner for deterministic CBOR ([decode.rs]) and the canonical
    re-encoder ([encode.rs]). The specification is a tree of CBOR items [item]
    with its encoding [enc]: the scanner accepts exactly the encodings of items
    within the limits, the strict scanner exactly those whose map keys ascend,
    and the re-encoder sorts the maps of the item it reads.

    Both recursive readers take fuel. An item is at least one byte long, so one
    more than the length of the input is enough ([scan_spec], [encode_spec]);
    running out is the separate fault [OutOfFuel], never an error of the crate.
    Memory allocation is taken to succeed; NFC normalisation, a third-party
    crate, is the parameter [nfc]. *)

From S2P Require Import Prelude Utf8.

(** ** Errors and limits *)

Inductive CborError :=
| Indefinite | ItemLimit | DepthLimit | ContainerLimit | TokenLimit | TrailingBytes
| NonMinimal | Float | InvalidUtf8 | NonNfc | MapOrder | DuplicateKey | Invalid | Encode.

#[export] Instance CborError_eq_dec : EqDecision CborError.
Proof. solve_decision. Defined.

Definition cbor_code (e : CborError) : string :=
  match e with
  | Indefinite => "EA-CBOR-INDEFINITE"
  | ItemLimit => "EA-CBOR-ITEM-LIMIT"
  | DepthLimit => "EA-CBOR-DEPTH-LIMIT"
  | ContainerLimit => "EA-CBOR-CONTAINER-LIMIT"
  | TokenLimit => "EA-CBOR-TOKEN-LIMIT"
  | TrailingBytes => "EA-CBOR-TRAILING"
  | NonMinimal => "EA-CBOR-NONMINIMAL"
  | Float => "EA-CBOR-FLOAT"
  | InvalidUtf8 => "EA-CBOR-UTF8"
  | NonNfc => "EA-CBOR-NON-NFC"
  | MapOrder => "EA-CBOR-MAP-ORDER"
  | DuplicateKey => "EA-CBOR-DUPLICATE-KEY"
  | Invalid => "EA-CBOR-INVALID"
  | Encode => "EA-CBOR-ENCODE"
  end.

Inductive fault :=
| OutOfFuel
| Fault (e : CborError).
Coercion Fault : CborError >-> fault.

Record ParserLimits := {
  max_depth : Z;
  max_container_items : Z;
  max_total_items : Z;
  max_text_or_bytes : Z;
}.

Definition V1 : ParserLimits :=
  {| max_depth := 16; max_container_items := 10000; max_total_items := 10000;
     max_text_or_bytes := 1048592 |}.

Definition has_nonzero_security_budgets (l : ParserLimits) : bool :=
  (max_depth l >? 0) && (max_container_items l >? 0) && (max_total_items l >? 0).

(** ** The cursor both readers keep *)

Record Cursor := { input : list byte; position : Z }.

Definition len {A} (l : list A) : Z := Z.of_nat (length l).

(** [input.get(a..b)]. *)
Definition slice_get (l : list byte) (a b : Z) : option (list byte) :=
  if decide (a ≤ b ∧ b ≤ len l)
  then Some (take (Z.to_nat (b - a)) (drop (Z.to_nat a) l)) else None.

Definition read_byte (c : Cursor) : result fault (byte * Cursor) :=
  byte ← ok_or (Fault Invalid) (input c !! Z.to_nat (position c));
  Ok (byte, {| input := input c; position := position c + 1 |}).

Definition read_slice (length : Z) (c : Cursor) : result fault (list byte * Cursor) :=
  end_ ← ok_or (Fault ItemLimit) (checked_add usize_max (position c) length);
  slice ← ok_or (Fault Invalid) (slice_get (input c) (position c) end_);
  Ok (slice, {| input := input c; position := end_ |}).

(** [(value << 8) | u64::from(byte)]; the shift drops the bits above 64. *)
Definition shift_in (value : Z) (b : byte) : Z :=
  Z.lor (Z.land (Z.shiftl value 8) u64_max) (u8 b).

Definition read_uint (width : Z) (c : Cursor) : result fault (Z * Cursor) :=
  '(bytes, c) ← read_slice width c;
  Ok (foldl shift_in 0 bytes, c).

(** ** Scanner *)

Record Scanner := {
  cursor : Cursor;
  limits : ParserLimits;
  total_items : Z;
  enforce_map_order : bool;
}.

Definition Scanner_new (i : list byte) (l : ParserLimits) (enforce : bool) : Scanner :=
  {| cursor := {| input := i; position := 0 |}; limits := l; total_items := 0;
     enforce_map_order := enforce |}.

Definition set_cursor (s : Scanner) (c : Cursor) : Scanner :=
  {| cursor := c; limits := limits s; total_items := total_items s;
     enforce_map_order := enforce_map_order s |}.

Definition set_total_items (s : Scanner) (n : Z) : Scanner :=
  {| cursor := cursor s; limits := limits s; total_items := n;
     enforce_map_order := enforce_map_order s |}.

Definition on_cursor {A} (f : Cursor → result fault (A * Cursor)) (s : Scanner)
  : result fault (A * Scanner) :=
  '(a, c) ← f (cursor s); Ok (a, set_cursor s c).

Definition scan_read_argument (additional : Z) (c : Cursor) : result fault (Z * Cursor) :=
  if additional <=? 23 then Ok (additional, c)
  else match additional with
  | 24 =>
      '(b, c) ← read_byte c;
      if u8 b <? 24 then Err (Fault NonMinimal) else Ok (u8 b, c)
  | 25 =>
      '(value, c) ← read_uint 2 c;
      if value <=? u8_max then Err (Fault NonMinimal) else Ok (value, c)
  | 26 =>
      '(value, c) ← read_uint 4 c;
      if value <=? u16_max then Err (Fault NonMinimal) else Ok (value, c)
  | 27 =>
      '(value, c) ← read_uint 8 c;
      if value <=? u32_max then Err (Fault NonMinimal) else Ok (value, c)
  | 31 => Err (Fault Indefinite)
  | _ => Err (Fault Invalid)
  end.

Definition read_length (additional : Z) (c : Cursor) : result fault (Z * Cursor) :=
  '(value, c) ← scan_read_argument additional c;
  if value <=? usize_max then Ok (value, c) else Err (Fault ItemLimit).

Definition read_container_length (additional : Z) (s : Scanner)
  : result fault (Z * Scanner) :=
  '(length, s) ← on_cursor (read_length additional) s;
  if length >? max_container_items (limits s) then Err (Fault ContainerLimit)
  else Ok (length, s).

Definition check_container_depth (s : Scanner) (container_depth : Z) : result fault unit :=
  if container_depth >=? max_depth (limits s) then Err (Fault DepthLimit) else Ok tt.

Definition scan_simple (additional : Z) (c : Cursor) : result fault (unit * Cursor) :=
  if additional <=? 23 then Ok (tt, c)
  else match additional with
  | 24 =>
      '(value, c) ← read_byte c;
      if u8 value <=? 23 then Err (Fault NonMinimal)
      else if u8 value <=? 31 then Err (Fault Invalid)
      else Ok (tt, c)
  | 25 | 26 | 27 => Err (Fault Float)
  | 31 => Err (Fault Indefinite)
  | _ => Err (Fault Invalid)
  end.

Definition deterministic_key_cmp (left right : list byte) : comparison := cmp left right.

(** [&input[a..b]] of a range inside the input. *)
Definition slice (l : list byte) (a b : Z) : list byte := default [] (slice_get l a b).

(** The loop [for _ in 0..length] of an array: [length] runs of [body]. *)
Fixpoint scan_elements (body : Scanner → result fault Scanner) (length : nat) (s : Scanner)
  : result fault Scanner :=
  match length with
  | O => Ok s
  | S length => s ← body s; scan_elements body length s
  end.

(** The loop of a map. [previous_key] is the range of the key before. *)
Fixpoint scan_entries (body : Scanner → result fault Scanner) (length : nat)
    (previous_key : option (Z * Z)) (s : Scanner) : result fault Scanner :=
  match length with
  | O => Ok s
  | S length =>
      let key_start := position (cursor s) in
      s ← body s;
      let key_end := position (cursor s) in
      previous_key ←
        (if enforce_map_order s then
           match previous_key with
           | Some (previous_start, previous_end) =>
               match deterministic_key_cmp
                       (slice (input (cursor s)) previous_start previous_end)
                       (slice (input (cursor s)) key_start key_end) with
               | Eq => Err (Fault DuplicateKey)
               | Gt => Err (Fault MapOrder)
               | Lt => Ok (Some (key_start, key_end))
               end
           | None => Ok (Some (key_start, key_end))
           end
         else Ok previous_key);
      s ← body s;
      scan_entries body length previous_key s
  end.

Section Scan.
(** [UnicodeNormalization::nfc] on the characters of a text. *)
Context (nfc : list Z → list Z).

Definition check_text (payload : list byte) : result fault unit :=
  text ← ok_or (Fault InvalidUtf8) (from_utf8 payload);
  ensure (bool_decide (nfc text = text)) (Fault NonNfc).

(** The dispatch of [scan_item] on the initial byte; [scan] is the recursive
    call. *)
Definition scan_major (scan : Z → Scanner → result fault Scanner) (container_depth : Z)
    (initial : byte) (s : Scanner) : result fault Scanner :=
  let major := Z.shiftr (u8 initial) 5 in
  let additional := Z.land (u8 initial) 31 in
  match major with
  | 0 | 1 => '(_, s) ← on_cursor (scan_read_argument additional) s; Ok s
  | 2 | 3 =>
      '(length, s) ← on_cursor (read_length additional) s;
      ensure (length <=? max_text_or_bytes (limits s)) (Fault ItemLimit);;
      '(payload, s) ← on_cursor (read_slice length) s;
      (if major =? 3 then check_text payload else Ok tt);;
      Ok s
  | 4 =>
      '(length, s) ← read_container_length additional s;
      check_container_depth s container_depth;;
      scan_elements (scan (container_depth + 1)) (Z.to_nat length) s
  | 5 =>
      '(length, s) ← read_container_length additional s;
      check_container_depth s container_depth;;
      scan_entries (scan (container_depth + 1)) (Z.to_nat length) None s
  | 6 =>
      '(_, s) ← on_cursor (scan_read_argument additional) s;
      check_container_depth s container_depth;;
      scan (container_depth + 1) s
  | 7 => '(_, s) ← on_cursor (scan_simple additional) s; Ok s
  | _ => Err (Fault Invalid)
  end.

Fixpoint scan_item (fuel : nat) (container_depth : Z) (s : Scanner)
  : result fault Scanner :=
  match fuel with
  | O => Err OutOfFuel
  | S fuel =>
      ensure (has_nonzero_security_budgets (limits s)) (Fault Invalid);;
      total ← ok_or (Fault TokenLimit) (checked_add usize_max (total_items s) 1);
      let s := set_total_items s total in
      ensure (total <=? max_total_items (limits s)) (Fault TokenLimit);;
      '(initial, s) ← on_cursor read_byte s;
      scan_major (scan_item fuel) container_depth initial s
  end.

(** Enough fuel for an input. *)
Definition fuel_for (i : list byte) : nat := S (length i).

Definition scan_relaxed (i : list byte) (l : ParserLimits) : result fault unit :=
  s ← scan_item (fuel_for i) 0 (Scanner_new i l false);
  ensure (position (cursor s) =? len i) (Fault TrailingBytes).
End Scan.

(** ** Canonical encoder *)

(** The contents of a [WipingBuffer]; growing it moves and wipes, without a
    change of contents. *)
Definition append (out bytes : list byte) : result fault (list byte) :=
  _ ← ok_or (Fault ItemLimit) (checked_add usize_max (len out) (len bytes));
  Ok (out ++ bytes).

Definition from_slice (bytes : list byte) : result fault (list byte) := append [] bytes.

Definition head_bytes (major argument : Z) : list byte :=
  let prefix := Z.shiftl major 5 in
  if argument <? 24 then [byte_of (Z.lor prefix argument)]
  else if argument <=? u8_max then [byte_of (Z.lor prefix 24); byte_of argument]
  else if argument <=? u16_max then byte_of (Z.lor prefix 25) :: to_be_bytes 2 argument
  else if argument <=? u32_max then byte_of (Z.lor prefix 26) :: to_be_bytes 4 argument
  else byte_of (Z.lor prefix 27) :: to_be_bytes 8 argument.

Definition encode_head (major argument : Z) : result fault (list byte) :=
  from_slice (head_bytes major argument).

Definition encode_read_argument (additional : Z) (c : Cursor) : result fault (Z * Cursor) :=
  if additional <=? 23 then Ok (additional, c)
  else match additional with
  | 24 => '(b, c) ← read_byte c; Ok (u8 b, c)
  | 25 => read_uint 2 c
  | 26 => read_uint 4 c
  | 27 => read_uint 8 c
  | 31 => Err (Fault Indefinite)
  | _ => Err (Fault Invalid)
  end.

Definition reader := Cursor → result fault (list byte * Cursor).

Fixpoint encode_elements (body : reader) (length : nat) (output : list byte) (c : Cursor)
  : result fault (list byte * Cursor) :=
  match length with
  | O => Ok (output, c)
  | S length =>
      '(i, c) ← body c;
      output ← append output i;
      encode_elements body length output c
  end.

Fixpoint read_entries (body : reader) (length : nat) (c : Cursor)
  : result fault (list (list byte * list byte) * Cursor) :=
  match length with
  | O => Ok ([], c)
  | S length =>
      '(key, c) ← body c;
      '(value, c) ← body c;
      '(entries, c) ← read_entries body length c;
      Ok ((key, value) :: entries, c)
  end.

Fixpoint append_entries (output : list byte) (entries : list (list byte * list byte))
  : result fault (list byte) :=
  match entries with
  | [] => Ok output
  | (key, value) :: entries =>
      output ← append output key;
      output ← append output value;
      append_entries output entries
  end.

Definition sort_entries : list (list byte * list byte) → list (list byte * list byte) :=
  sort_by_key fst.

Definition has_duplicate_key (entries : list (list byte * list byte)) : bool :=
  existsb (λ '(a, b), bool_decide (a.1 = b.1)) (windows2 entries).

(** The dispatch of [encode_item] on the initial byte; [encode] is the recursive
    call. *)
Definition encode_major (encode : reader) (initial : byte) (c : Cursor)
  : result fault (list byte * Cursor) :=
  let major := Z.shiftr (u8 initial) 5 in
  let additional := Z.land (u8 initial) 31 in
  match major with
  | 0 | 1 =>
      '(argument, c) ← encode_read_argument additional c;
      output ← encode_head major argument;
      Ok (output, c)
  | 2 | 3 =>
      '(length, c) ← encode_read_argument additional c;
      ensure (length <=? usize_max) (Fault ItemLimit);;
      '(payload, c) ← read_slice length c;
      output ← encode_head major length;
      output ← append output payload;
      Ok (output, c)
  | 4 =>
      '(length, c) ← encode_read_argument additional c;
      output ← encode_head major length;
      encode_elements encode (Z.to_nat length) output c
  | 5 =>
      '(length, c) ← encode_read_argument additional c;
      ensure (length <=? usize_max) (Fault ContainerLimit);;
      '(entries, c) ← read_entries encode (Z.to_nat length) c;
      let entries := sort_entries entries in
      ensure (negb (has_duplicate_key entries)) (Fault DuplicateKey);;
      output ← encode_head major length;
      output ← append_entries output entries;
      Ok (output, c)
  | 6 =>
      '(tag, c) ← encode_read_argument additional c;
      output ← encode_head major tag;
      '(i, c) ← encode c;
      output ← append output i;
      Ok (output, c)
  | 7 =>
      if additional <=? 23 then output ← from_slice [initial]; Ok (output, c)
      else match additional with
      | 24 =>
          '(b, c) ← read_byte c;
          output ← from_slice [initial; b];
          Ok (output, c)
      | 25 | 26 | 27 => Err (Fault Float)
      | 31 => Err (Fault Indefinite)
      | _ => Err (Fault Invalid)
      end
  | _ => Err (Fault Invalid)
  end.

Fixpoint encode_item (fuel : nat) (c : Cursor) : result fault (list byte * Cursor) :=
  match fuel with
  | O => Err OutOfFuel
  | S fuel =>
      '(initial, c) ← read_byte c;
      encode_major (encode_item fuel) initial c
  end.

Section Reencode.
Context (nfc : list Z → list Z).

Definition canonical_reencode (i : list byte) (l : ParserLimits)
  : result fault (list byte) :=
  scan_relaxed nfc i l;;
  '(result, c) ← encode_item (fuel_for i) {| input := i; position := 0 |};
  ensure (position c =? len i) (Fault TrailingBytes);;
  Ok result.

(** [upstream] is what the value's own [minicbor] encoder wrote, if it did not
    fail. *)
Definition to_deterministic_vec (upstream : option (list byte)) : result fault (list byte) :=
  bytes ← ok_or (Fault Encode) upstream;
  canonical_reencode bytes V1.

(** ** Bounded decoder *)

Record BoundedDecoder := {
  bd_input : list byte;
  bd_limits : ParserLimits;
  bd_position : Z;
}.

Definition BoundedDecoder_new (i : list byte) (l : ParserLimits) : BoundedDecoder :=
  {| bd_input := i; bd_limits := l; bd_position := 0 |}.

Definition validate_one (d : BoundedDecoder) : result fault BoundedDecoder :=
  let start := bd_position d in
  remaining ← ok_or (Fault Invalid) (slice_get (bd_input d) start (len (bd_input d)));
  scanner ← scan_item nfc (fuel_for remaining) 0
              (Scanner_new remaining (bd_limits d) true);
  let consumed := position (cursor scanner) in
  end_ ← ok_or (Fault ItemLimit) (checked_add usize_max start consumed);
  exact_ ← ok_or (Fault Invalid) (slice_get (bd_input d) start end_);
  canonical ← canonical_reencode exact_ (bd_limits d);
  if decide (canonical = exact_) then
    Ok {| bd_input := bd_input d; bd_limits := bd_limits d;
          bd_position := start + consumed |}
  else Err (Fault Invalid).

Definition is_eof (d : BoundedDecoder) : bool := bd_position d =? len (bd_input d).

Definition validate (i : list byte) (l : ParserLimits) : result fault unit :=
  d ← validate_one (BoundedDecoder_new i l);
  ensure (is_eof d) (Fault TrailingBytes).
End Reencode.

(** ** Big-endian numbers *)

Lemma shift_in_value v b : 0 ≤ v < 2 ^ 56 → shift_in v b = v * 256 + u8 b.
Proof.
  intros Hv. unfold shift_in. pose proof (u8_range b) as Hb.
  rewrite Z.shiftl_mul_pow2 by lia. change u64_max with (Z.ones 64).
  rewrite Z.land_ones, Z.mod_small by lia. change (2 ^ 8) with 256.
  rewrite <- Z.add_lor_land. enough (Z.land (v * 256) (u8 b) = 0) as -> by lia.
  apply Z.bits_inj'. intros n Hn. rewrite Z.land_spec, Z.bits_0.
  change 256 with (2 ^ 8). destruct (decide (n < 8)).
  - by rewrite Z.mul_pow2_bits_low by lia.
  - rewrite <- (Z.mod_small (u8 b) (2 ^ 8)) by lia.
    by rewrite Z.mod_pow2_bits_high, andb_false_r by lia.
Qed.

(** Reading and writing [n] big-endian bytes are inverse to each other. *)
Lemma be_bytes_iff bs v :
  (length bs ≤ 8)%nat →
  foldl shift_in 0 bs = v ↔
  to_be_bytes (length bs) v = bs ∧ 0 ≤ v < 2 ^ (8 * len bs).
Proof.
  unfold len. revert v. induction bs as [|b bs IH] using rev_ind; intros v Hl; cbn.
  { split; [intros <-; split; [done|lia]|lia]. }
  rewrite length_app in *. cbn in *. rewrite Nat.add_1_r in *. cbn.
  rewrite foldl_app. cbn. set (w := foldl shift_in 0 bs).
  destruct (proj1 (IH w ltac:(lia)) eq_refl) as [Hw Hr].
  assert (w < 2 ^ 56).
  { assert (2 ^ (8 * Z.of_nat (length bs)) ≤ 2 ^ 56) by (apply Z.pow_le_mono_r; lia). lia. }
  rewrite shift_in_value by lia. pose proof (u8_range b) as Hb.
  assert (2 ^ (8 * Z.of_nat (S (length bs))) = 2 ^ (8 * Z.of_nat (length bs)) * 256) as ->.
  { change 256 with (2 ^ 8). rewrite <- Z.pow_add_r by lia. f_equal. lia. }
  rewrite Z.shiftr_div_pow2 by lia. change (2 ^ 8) with 256. split.
  - intros <-. split; [|lia]. f_equal.
    + rewrite Z.div_add_l, Z.div_small by lia. by rewrite Z.add_0_r.
    + f_equal. apply u8_inj. rewrite u8_byte_of.
      rewrite Z.add_comm, Z.mod_add, Z.mod_small by lia. done.
  - intros [Ht Hv]. apply app_inj_tail in Ht as [Ht Hbv].
    assert (0 ≤ v / 256 < 2 ^ (8 * Z.of_nat (length bs))) as Hd.
    { split; [apply Z.div_pos; lia|]. apply Z.div_lt_upper_bound; lia. }
    assert (w = v / 256) as -> by (apply IH; [lia|done]).
    rewrite <- Hbv, u8_byte_of. pose proof (Z.div_mod v 256). lia.
Qed.

(** ** The cursor *)

Definition rest (c : Cursor) : list byte := drop (Z.to_nat (position c)) (input c).

(** A cursor into a slice: no slice is longer than [usize::MAX]. *)
Definition cursor_ok (c : Cursor) : Prop :=
  0 ≤ position c ≤ len (input c) ∧ len (input c) ≤ usize_max.

(** The unread input starts with [bs], and the cursor behind it. *)
Definition starts (c : Cursor) (bs : list byte) : Prop := bs `prefix_of` rest c.
Definition skip (c : Cursor) (bs : list byte) : Cursor :=
  {| input := input c; position := position c + len bs |}.

Lemma len_app {A} (l k : list A) : len (l ++ k) = len l + len k.
Proof. unfold len. rewrite length_app. lia. Qed.
Lemma len_nonneg {A} (l : list A) : 0 ≤ len l.
Proof. unfold len. lia. Qed.
Lemma len_cons {A} (x : A) (l : list A) : len (x :: l) = 1 + len l.
Proof. unfold len. cbn. lia. Qed.
#[export] Hint Resolve len_nonneg : ea.

Lemma skip_nil c : skip c [] = c.
Proof. destruct c. unfold skip, len. cbn. f_equal. lia. Qed.
Lemma skip_skip c a b : skip (skip c a) b = skip c (a ++ b).
Proof. unfold skip. cbn. f_equal. rewrite len_app. lia. Qed.
Lemma starts_nil c : starts c [].
Proof. apply prefix_nil. Qed.

Lemma rest_skip c a r : cursor_ok c → rest c = a ++ r → rest (skip c a) = r.
Proof.
  intros [Hc _] H. unfold rest, skip in *. cbn. unfold len. rewrite Z2Nat.inj_add by lia.
  rewrite Nat2Z.id, <- drop_drop, H. apply drop_app_length.
Qed.

Lemma len_rest c : cursor_ok c → len (rest c) = len (input c) - position c.
Proof. intros [Hc _]. unfold rest, len in *. rewrite length_drop. lia. Qed.

Lemma starts_len c bs : cursor_ok c → starts c bs → position c + len bs ≤ len (input c).
Proof.
  intros Hc [r H]. pose proof (len_rest c Hc) as Hl. rewrite H, len_app in Hl.
  pose proof (len_nonneg r). lia.
Qed.

Lemma skip_ok c bs : cursor_ok c → starts c bs → cursor_ok (skip c bs).
Proof.
  intros Hc Hs. pose proof (starts_len c bs Hc Hs). destruct Hc as [? ?].
  pose proof (len_nonneg bs). split; cbn; [lia|done].
Qed.

Lemma starts_app c a b : cursor_ok c → starts c (a ++ b) ↔ starts c a ∧ starts (skip c a) b.
Proof.
  intros Hc. unfold starts. split.
  - intros [r H]. rewrite <- (assoc_L (++)) in H. split; [by exists (b ++ r)|].
    rewrite (rest_skip c a (b ++ r)); [by exists r|done|done].
  - intros [[r H] [r' H']]. rewrite (rest_skip c a r Hc H) in H'. subst r.
    exists r'. by rewrite <- (assoc_L (++)).
Qed.

Lemma read_byte_Ok c b c' :
  cursor_ok c → read_byte c = Ok (b, c') ↔ starts c [b] ∧ c' = skip c [b].
Proof.
  intros [Hc _]. unfold read_byte.
  assert (input c !! Z.to_nat (position c) = rest c !! 0%nat) as ->.
  { unfold rest. rewrite lookup_drop. f_equal. lia. }
  unfold starts. split.
  - intros H. inv_ok. destruct (rest c) as [|x r]; [done|]. cbn in *. simplify_eq.
    split; [by exists r|done].
  - intros [[r ->] ->]. done.
Qed.

Lemma read_slice_Ok n c bs c' :
  cursor_ok c → 0 ≤ n →
  read_slice n c = Ok (bs, c') ↔ starts c bs ∧ len bs = n ∧ c' = skip c bs.
Proof.
  intros Hc Hn. unfold read_slice, slice_get. pose proof (len_rest c Hc) as Hl. split.
  - intros H. inv_ok. apply checked_add_Some in H0 as [-> _].
    case_decide as Hd; [|done]. simplify_eq. replace (position c + n - position c) with n by lia.
    fold (rest c). assert (len (take (Z.to_nat n) (rest c)) = n) as Hn'.
    { unfold len in *. rewrite length_take. lia. }
    split; [eexists; symmetry; apply take_drop|]. split; [done|].
    unfold skip. by rewrite Hn'.
  - intros (Hs & <- & ->). pose proof (starts_len c bs Hc Hs) as Hle. destruct Hc as [Hc Hm].
    unfold checked_add. rewrite decide_True by lia. cbn.
    rewrite decide_True by (pose proof (len_nonneg bs); lia). cbn. unfold skip. do 2 f_equal.
    fold (rest c). destruct Hs as [r ->]. unfold len.
    replace (Z.to_nat (position c + Z.of_nat (length bs) - position c)) with (length bs) by lia.
    apply take_app_length.
Qed.

Lemma read_uint_Ok n c v c' :
  cursor_ok c → (n ≤ 8)%nat →
  read_uint (Z.of_nat n) c = Ok (v, c') ↔
  0 ≤ v < 2 ^ (8 * Z.of_nat n) ∧ starts c (to_be_bytes n v) ∧ c' = skip c (to_be_bytes n v).
Proof.
  intros Hc Hn. unfold read_uint. split.
  - intros H. apply bind_Ok in H as ([bs d] & Hr & [= Hv <-]).
    apply read_slice_Ok in Hr as (Hs & Hl & ->); [|done|lia].
    assert (length bs = n) as <- by (unfold len in Hl; lia).
    apply be_bytes_iff in Hv as [-> Hv]; [|done]. done.
  - intros (Hv & Hs & ->). set (bs := to_be_bytes n v) in *.
    assert (length bs = n) as Hl by apply length_to_be_bytes.
    rewrite (proj2 (read_slice_Ok (Z.of_nat n) c bs (skip c bs) Hc ltac:(lia)));
      [|split; [done|]; split; [unfold len; lia|done]].
    cbn. do 2 f_equal. apply be_bytes_iff; [lia|]. rewrite Hl. split; [done|].
    unfold len. by rewrite Hl.
Qed.

(** ** Heads *)

(** The additional information of a minimal head and the bytes after it. *)
Definition arg_split (v : Z) : Z * list byte :=
  if v <? 24 then (v, [])
  else if v <=? u8_max then (24, to_be_bytes 1 v)
  else if v <=? u16_max then (25, to_be_bytes 2 v)
  else if v <=? u32_max then (26, to_be_bytes 4 v)
  else (27, to_be_bytes 8 v).

Lemma head_bytes_split m v :
  head_bytes m v = byte_of (Z.lor (Z.shiftl m 5) (arg_split v).1) :: (arg_split v).2.
Proof. unfold head_bytes, arg_split. by repeat case_match. Qed.

Ltac zbool :=
  repeat match goal with
  | H : (_ <=? _) = true |- _ => apply Z.leb_le in H
  | H : (_ <=? _) = false |- _ => apply Z.leb_gt in H
  | H : (_ <? _) = true |- _ => apply Z.ltb_lt in H
  | H : (_ <? _) = false |- _ => apply Z.ltb_ge in H
  | H : (_ >? _) = _ |- _ => rewrite Z.gtb_ltb in H
  | H : (_ >=? _) = _ |- _ => rewrite Z.geb_leb in H
  | H : (_ =? _) = true |- _ => apply Z.eqb_eq in H
  | H : (_ =? _) = false |- _ => apply Z.eqb_neq in H
  end.

(** The initial byte splits into the major type and the additional information. *)
Lemma initial_split b :
  let m := Z.shiftr (u8 b) 5 in let a := Z.land (u8 b) 31 in
  0 ≤ m < 8 ∧ 0 ≤ a < 32 ∧ byte_of (Z.lor (Z.shiftl m 5) a) = b.
Proof. destruct b; vm_compute; repeat split; discriminate. Qed.

Lemma initial_join m a :
  0 ≤ m < 8 → 0 ≤ a < 32 →
  Z.shiftr (u8 (byte_of (Z.lor (Z.shiftl m 5) a))) 5 = m ∧
  Z.land (u8 (byte_of (Z.lor (Z.shiftl m 5) a))) 31 = a.
Proof.
  intros Hm Ha. set (join := λ p : Z * Z, u8 (byte_of (Z.lor (Z.shiftl p.1 5) p.2))).
  assert (forallb (λ p, (Z.shiftr (join p) 5 =? p.1) && (Z.land (join p) 31 =? p.2))
            (list_prod (seqZ 0 8) (seqZ 0 32)) = true) as H by (vm_compute; reflexivity).
  rewrite forallb_forall in H. specialize (H (m, a)). cbn -[join] in H.
  rewrite andb_true_iff, !Z.eqb_eq in H. apply H.
  apply in_prod; apply list_elem_of_In, elem_of_seqZ; lia.
Qed.

Lemma arg_split_range v : in_u64 v → 0 ≤ (arg_split v).1 < 28.
Proof. intros [? ?]. unfold arg_split. repeat case_match; zbool; cbn; lia. Qed.

Lemma to_be_bytes_1 v : to_be_bytes 1 v = [byte_of v].
Proof. done. Qed.

(** The additional information says in which range the value lies. *)
Lemma arg_split_cases v a bs :
  in_u64 v →
  arg_split v = (a, bs) ↔
  (v < 24 ∧ a = v ∧ bs = []) ∨
  (a = 24 ∧ 24 ≤ v < 2 ^ 8 ∧ bs = to_be_bytes 1 v) ∨
  (a = 25 ∧ u8_max < v < 2 ^ 16 ∧ bs = to_be_bytes 2 v) ∨
  (a = 26 ∧ u16_max < v < 2 ^ 32 ∧ bs = to_be_bytes 4 v) ∨
  (a = 27 ∧ u32_max < v < 2 ^ 64 ∧ bs = to_be_bytes 8 v).
Proof.
  unfold in_u64, u64_max, arg_split. intros Hv.
  repeat case_match; zbool; unfold u8_max, u16_max, u32_max in *;
    (split; [intros [= <- <-]; naive_solver lia|]);
    intros [(? & -> & ->)|[(-> & ? & ->)|[(-> & ? & ->)|[(-> & ? & ->)|(-> & ? & ->)]]]];
    done || lia.
Qed.

Lemma read_wide_Ok (n : nat) lo c v c' :
  cursor_ok c → (n ≤ 8)%nat → 0 ≤ lo →
  ('(value, c) ← read_uint (Z.of_nat n) c;
   if value <=? lo then Err (Fault NonMinimal) else Ok (value, c)) = Ok (v, c') ↔
  lo < v < 2 ^ (8 * Z.of_nat n) ∧ starts c (to_be_bytes n v) ∧ c' = skip c (to_be_bytes n v).
Proof.
  intros Hc Hn Hlo. split.
  - intros H. apply bind_Ok in H as ([w d] & Hr & H). apply read_uint_Ok in Hr as (? & ? & ->); [|done..].
    destruct (w <=? lo) eqn:E; [done|]. zbool. simplify_eq. split; [lia|done].
  - intros (? & ? & ->).
    rewrite (proj2 (read_uint_Ok n c v (skip c (to_be_bytes n v)) Hc Hn)); [|split; [lia|done]].
    cbn. destruct (v <=? lo) eqn:E; [zbool; lia|done].
Qed.

Lemma read_narrow_Ok c v c' :
  cursor_ok c →
  ('(b, c) ← read_byte c; Ok (u8 b, c)) = Ok (v, c') ↔
  0 ≤ v < 2 ^ 8 ∧ starts c (to_be_bytes 1 v) ∧ c' = skip c (to_be_bytes 1 v).
Proof.
  intros Hc. rewrite to_be_bytes_1. split.
  - intros H. apply bind_Ok in H as ([b d] & Hr & [= <- <-]).
    apply read_byte_Ok in Hr as (? & ->); [|done]. rewrite byte_of_u8.
    pose proof (u8_range b). split; [lia|done].
  - intros (Hv & ? & ->). rewrite (proj2 (read_byte_Ok c (byte_of v) (skip c [byte_of v]) Hc)); [|done].
    cbn. by rewrite u8_byte_of, Z.mod_small by lia.
Qed.

Lemma read_narrow_min_Ok c v c' :
  cursor_ok c →
  ('(b, c) ← read_byte c;
   if u8 b <? 24 then Err (Fault NonMinimal) else Ok (u8 b, c)) = Ok (v, c') ↔
  24 ≤ v < 2 ^ 8 ∧ starts c (to_be_bytes 1 v) ∧ c' = skip c (to_be_bytes 1 v).
Proof.
  intros Hc. pose proof (read_narrow_Ok c v c' Hc) as H.
  destruct (read_byte c) as [[b d]|e]; cbn in *; [|split; [done|naive_solver lia]].
  destruct (u8 b <? 24) eqn:E; zbool.
  - split; [done|]. intros (? & ?). destruct H as [_ H].
    specialize (H ltac:(split; [lia|done])) as [= Hb _]. lia.
  - pose proof (proj2 H) as H'. rewrite H. split; [|naive_solver lia]. intros Hx.
    specialize (H' Hx) as [= <- <-]. split; [lia|apply Hx].
Qed.

(** Reading an argument accepts exactly the minimal form of a value. *)
Lemma scan_read_argument_Ok a c v c' :
  cursor_ok c → 0 ≤ a →
  scan_read_argument a c = Ok (v, c') ↔
  ∃ bs, in_u64 v ∧ arg_split v = (a, bs) ∧ starts c bs ∧ c' = skip c bs.
Proof.
  intros Hc Ha. transitivity (
    (0 ≤ v < 24 ∧ a = v ∧ c' = c) ∨
    (a = 24 ∧ 24 ≤ v < 2 ^ 8 ∧ starts c (to_be_bytes 1 v) ∧ c' = skip c (to_be_bytes 1 v)) ∨
    (a = 25 ∧ u8_max < v < 2 ^ 16 ∧ starts c (to_be_bytes 2 v) ∧ c' = skip c (to_be_bytes 2 v)) ∨
    (a = 26 ∧ u16_max < v < 2 ^ 32 ∧ starts c (to_be_bytes 4 v) ∧ c' = skip c (to_be_bytes 4 v)) ∨
    (a = 27 ∧ u32_max < v < 2 ^ 64 ∧ starts c (to_be_bytes 8 v) ∧ c' = skip c (to_be_bytes 8 v))).
  - unfold scan_read_argument. destruct (a <=? 23) eqn:E; zbool.
    { split; [intros [= <- <-]; left; naive_solver lia|].
      intros [(_ & -> & ->)|[|[|[]]]]; [done|lia..]. }
    destruct (decide (a = 24)) as [->|]; [rewrite read_narrow_min_Ok by done; naive_solver lia|].
    destruct (decide (a = 25)) as [->|];
      [rewrite (read_wide_Ok 2 u8_max) by (done || lia); naive_solver lia|].
    destruct (decide (a = 26)) as [->|];
      [rewrite (read_wide_Ok 4 u16_max) by (done || lia); naive_solver lia|].
    destruct (decide (a = 27)) as [->|];
      [rewrite (read_wide_Ok 8 u32_max) by (done || lia); naive_solver lia|].
    split; [|lia]. repeat case_match; try done; lia.
  - unfold u8_max, u16_max, u32_max. pose proof (starts_nil c) as Hn. split.
    + intros H.
      assert (in_u64 v) as Hv by (unfold in_u64, u64_max; lia).
      setoid_rewrite (arg_split_cases v a _ Hv). unfold u8_max, u16_max, u32_max.
      destruct H as [(? & -> & ->)|[(-> & ? & ? & ->)|[(-> & ? & ? & ->)|[(-> & ? & ? & ->)|(-> & ? & ? & ->)]]]];
        [exists []; rewrite skip_nil; naive_solver lia|eexists; naive_solver lia..].
    + intros (bs & Hv & H & Hs & ->). apply arg_split_cases in H; [|done].
      unfold u8_max, u16_max, u32_max, in_u64 in *.
      destruct H as [(? & -> & ->)|[(-> & ? & ->)|[(-> & ? & ->)|[(-> & ? & ->)|(-> & ? & ->)]]]];
        [rewrite skip_nil; left; naive_solver lia|naive_solver lia..].
Qed.

(** The encoder's reader takes a minimal form to the same value. *)
Lemma encode_read_argument_minimal a c v bs :
  cursor_ok c → in_u64 v → arg_split v = (a, bs) → starts c bs →
  encode_read_argument a c = Ok (v, skip c bs).
Proof.
  intros Hc Hv H Hs. apply arg_split_cases in H; [|done]. unfold encode_read_argument.
  unfold u8_max, u16_max, u32_max, in_u64 in *.
  destruct H as [(? & -> & ->)|[(-> & ? & ->)|[(-> & ? & ->)|[(-> & ? & ->)|(-> & ? & ->)]]]].
  - rewrite (proj2 (Z.leb_le v 23)) by lia. by rewrite skip_nil.
  - apply read_narrow_Ok; [done|]. split; [lia|done].
  - apply (read_uint_Ok 2); [done|lia|]. split; [lia|done].
  - apply (read_uint_Ok 4); [done|lia|]. split; [lia|done].
  - apply (read_uint_Ok 8); [done|lia|]. split; [lia|done].
Qed.
