(* ===== verification/CborSpec.v ===== *)
(** * CborSpec: what [ea-cbor] accepts and produces

    The trees of CBOR items, their encoding, the limits as a predicate on trees,
    and the theorems that tie the scanner and the re-encoder of [Cbor] to them. *)

From S2P Require Import Prelude Utf8 Cbor.

(** ** Items *)

#[warnings="-register-all"]
Inductive item :=
| UInt (n : Z)
| NInt (n : Z)
| Bytes (p : list byte)
| Text (p : list byte)
| Array (l : list item)
| Map (m : list (item * item))
| Tag (n : Z) (i : item)
| Simple (v : Z).

Definition both {A} (P : A → Prop) (e : A * A) : Prop := P e.1 ∧ P e.2.

Section ItemInd.
Context (P : item → Prop).
Context (HU : ∀ n, P (UInt n)) (HN : ∀ n, P (NInt n)).
Context (HB : ∀ p, P (Bytes p)) (HT : ∀ p, P (Text p)).
Context (HA : ∀ l, Forall P l → P (Array l)).
Context (HM : ∀ m, Forall (both P) m → P (Map m)).
Context (HG : ∀ n i, P i → P (Tag n i)) (HS : ∀ v, P (Simple v)).

(** Induction with the hypothesis for every nested item. *)
Fixpoint item_nested_ind (i : item) : P i :=
  match i with
  | UInt n => HU n
  | NInt n => HN n
  | Bytes p => HB p
  | Text p => HT p
  | Array l => HA l ((fix go l : Forall P l :=
      match l with [] => Forall_nil_2 _ | x :: l => Forall_cons_2 _ _ _ (item_nested_ind x) (go l) end) l)
  | Map m => HM m ((fix go m : Forall (both P) m :=
      match m with
      | [] => Forall_nil_2 _
      | (k, v) :: m => Forall_cons_2 (both P) (k, v) m
          (conj (item_nested_ind k) (item_nested_ind v)) (go m)
      end) m)
  | Tag n i => HG n i (item_nested_ind i)
  | Simple v => HS v
  end.
End ItemInd.

(** The encoding of an item, its maps in the order of the tree. *)
Fixpoint enc (i : item) : list byte :=
  match i with
  | UInt n => head_bytes 0 n
  | NInt n => head_bytes 1 n
  | Bytes p => head_bytes 2 (len p) ++ p
  | Text p => head_bytes 3 (len p) ++ p
  | Array l => head_bytes 4 (len l) ++ flat_map enc l
  | Map m => head_bytes 5 (len m) ++ flat_map (λ '(k, v), enc k ++ enc v) m
  | Tag n i => head_bytes 6 n ++ enc i
  | Simple v => head_bytes 7 v
  end.

Definition enc_entry (e : item * item) : list byte := enc e.1 ++ enc e.2.

Definition sum_with {A} (f : A → Z) (l : list A) : Z := foldr (λ x n, f x + n) 0 l.

(** The number of items of a tree, keys and values included. *)
Fixpoint count (i : item) : Z :=
  match i with
  | Array l => 1 + sum_with count l
  | Map m => 1 + sum_with (λ '(k, v), count k + count v) m
  | Tag _ i => 1 + count i
  | _ => 1
  end.

Definition count_entry (e : item * item) : Z := count e.1 + count e.2.

Fixpoint all {A} (P : A → Prop) (l : list A) : Prop :=
  match l with [] => True | x :: l => P x ∧ all P l end.

Lemma all_Forall {A} (P : A → Prop) l : all P l ↔ Forall P l.
Proof. induction l; cbn; rewrite ?Forall_nil, ?Forall_cons; naive_solver. Qed.

(** The keys ascend strictly in the order of their encodings. *)
Fixpoint ascending (prev : option (list byte)) (m : list (item * item)) : Prop :=
  match m with
  | [] => True
  | e :: m =>
      match prev with Some p => cmp p (enc e.1) = Lt | None => True end ∧
      ascending (Some (enc e.1)) m
  end.

(** ** Trees within the limits *)

Section Limits.
Context (nfc : list Z → list Z) (L : ParserLimits).

Definition is_text (p : list byte) : Prop :=
  ∃ cs, from_utf8 p = Some cs ∧ nfc cs = cs.

(** An item at nesting depth [d]; [strict] asks for ordered maps. *)
Fixpoint fits (strict : bool) (d : Z) (i : item) : Prop :=
  match i with
  | UInt n | NInt n => in_u64 n
  | Bytes p => len p ≤ max_text_or_bytes L
  | Text p => len p ≤ max_text_or_bytes L ∧ is_text p
  | Array l =>
      len l ≤ max_container_items L ∧ d < max_depth L ∧ all (fits strict (d + 1)) l
  | Map m =>
      len m ≤ max_container_items L ∧ d < max_depth L ∧
      all (λ '(k, v), fits strict (d + 1) k ∧ fits strict (d + 1) v) m ∧
      (strict = true → ascending None m)
  | Tag n i => in_u64 n ∧ d < max_depth L ∧ fits strict (d + 1) i
  | Simple v => 0 ≤ v ≤ 23 ∨ 32 ≤ v ≤ 255
  end.

(** An item the scanner accepts: within every limit. *)
Definition accepted (strict : bool) (i : item) : Prop :=
  has_nonzero_security_budgets L = true ∧ fits strict 0 i ∧ count i ≤ max_total_items L.
End Limits.

Definition limits_ok (L : ParserLimits) : Prop :=
  0 ≤ max_depth L ≤ usize_max ∧ 0 ≤ max_container_items L ≤ usize_max ∧
  0 ≤ max_total_items L ≤ usize_max ∧ 0 ≤ max_text_or_bytes L ≤ usize_max.

Lemma flat_map_entry m : flat_map (λ '(k, v), enc k ++ enc v) m = flat_map enc_entry m.
Proof. induction m as [|[k v] m IH]; cbn; [done|]. by rewrite IH. Qed.
Lemma sum_entry m : sum_with (λ '(k, v), count k + count v) m = sum_with count_entry m.
Proof. induction m as [|[k v] m IH]; cbn; [done|]. f_equal. apply IH. Qed.
Lemma all_entry (P : item → Prop) m : all (λ '(k, v), P k ∧ P v) m ↔ Forall (both P) m.
Proof.
  induction m as [|[k v] m IH]; cbn; rewrite ?Forall_nil, ?Forall_cons; [done|].
  rewrite IH. done.
Qed.

Lemma head_bytes_cons m v : ∃ b bs, head_bytes m v = b :: bs.
Proof. rewrite head_bytes_split. by eexists _, _. Qed.

Lemma enc_cons i : ∃ b bs, enc i = b :: bs.
Proof.
  destruct i; cbn; match goal with |- context [head_bytes ?m ?v] =>
    destruct (head_bytes_cons m v) as (b & bs & ->) end; by eexists _, _.
Qed.

Lemma enc_length i : (1 ≤ length (enc i))%nat.
Proof. destruct (enc_cons i) as (b & bs & ->). cbn. lia. Qed.

Lemma head_length m v : (1 ≤ length (head_bytes m v))%nat.
Proof. destruct (head_bytes_cons m v) as (b & bs & ->). cbn. lia. Qed.

Lemma flat_map_length {A B} (f : A → list B) l x :
  x ∈ l → (length (f x) ≤ length (flat_map f l))%nat.
Proof. induction 1; cbn; rewrite length_app; lia. Qed.

(** Nested items are shorter than their container. *)
Lemma nested_length m l x :
  x ∈ l → (S (length (enc x)) ≤ length (head_bytes m (len l) ++ flat_map enc l))%nat.
Proof.
  intros Hx. rewrite length_app. pose proof (head_length m (len l)).
  pose proof (flat_map_length enc l x Hx). lia.
Qed.

Lemma nested_entry_length m l x :
  x ∈ l → (S (length (enc x.1) + length (enc x.2)) ≤
           length (head_bytes m (len l) ++ flat_map enc_entry l))%nat.
Proof.
  intros Hx. rewrite length_app. pose proof (head_length m (len l)).
  pose proof (flat_map_length enc_entry l x Hx) as H1.
  assert (length (enc_entry x) = length (enc x.1) + length (enc x.2))%nat by apply length_app. lia.
Qed.

Lemma sum_with_nonneg {A} (f : A → Z) l : Forall (λ x, 0 ≤ f x) l → 0 ≤ sum_with f l.
Proof. unfold sum_with. induction 1; cbn in *; lia. Qed.

Lemma count_pos i : 1 ≤ count i.
Proof.
  induction i using item_nested_ind; cbn; try lia.
  - enough (0 ≤ sum_with count l) by lia. apply sum_with_nonneg.
    eapply Forall_impl; [done|]. intros x; cbn; lia.
  - rewrite sum_entry. enough (0 ≤ sum_with count_entry m) by lia. apply sum_with_nonneg.
    eapply Forall_impl; [done|]. intros e []. unfold count_entry. lia.
Qed.

Lemma count_entry_pos e : 2 ≤ count_entry e.
Proof. unfold count_entry. pose proof (count_pos e.1). pose proof (count_pos e.2). lia. Qed.

Lemma sum_count_nonneg l : 0 ≤ sum_with count l.
Proof. apply sum_with_nonneg, Forall_true. intros i. pose proof (count_pos i). lia. Qed.
Lemma sum_entry_nonneg m : 0 ≤ sum_with count_entry m.
Proof. apply sum_with_nonneg, Forall_true. intros e. pose proof (count_entry_pos e). lia. Qed.

(** ** Scanner states *)

Section Scan.
Context (nfc : list Z → list Z) (L : ParserLimits) (strict : bool).
Context (HL : limits_ok L).

Definition scanner_ok (s : Scanner) : Prop :=
  cursor_ok (cursor s) ∧ 0 ≤ total_items s ≤ max_total_items L ∧
  limits s = L ∧ enforce_map_order s = strict.

(** The scanner behind [bs], [n] items later. *)
Definition advance (s : Scanner) (bs : list byte) (n : Z) : Scanner :=
  {| cursor := skip (cursor s) bs; limits := limits s; total_items := total_items s + n;
     enforce_map_order := enforce_map_order s |}.

(** [s] reads [bs] and [n] items within the item budget. *)
Definition affords (s : Scanner) (bs : list byte) (n : Z) : Prop :=
  starts (cursor s) bs ∧ total_items s + n ≤ max_total_items L.

Lemma advance_advance s a n b m : advance (advance s a n) b m = advance s (a ++ b) (n + m).
Proof. unfold advance. cbn. rewrite skip_skip. f_equal. lia. Qed.
Lemma advance_nil s : advance s [] 0 = s.
Proof. destruct s. unfold advance. cbn. rewrite skip_nil. f_equal. lia. Qed.

Lemma advance_ok s bs n : scanner_ok s → 0 ≤ n → affords s bs n → scanner_ok (advance s bs n).
Proof.
  intros (Hc & Ht & Hl & He) Hn [Hs Hb]. split; [by apply skip_ok|]. cbn. split; [lia|done].
Qed.

Lemma affords_app s a n b m :
  scanner_ok s → 0 ≤ n → 0 ≤ m →
  affords s (a ++ b) (n + m) ↔ affords s a n ∧ affords (advance s a n) b m.
Proof.
  intros (Hc & _) Hn Hm. unfold affords. cbn. rewrite starts_app by done.
  split; [intros [[? ?] ?]; split; split; try done; lia|naive_solver lia].
Qed.

Lemma affords_nil s : scanner_ok s → affords s [] 0.
Proof. intros (_ & ? & _). split; [apply starts_nil|lia]. Qed.

Lemma advance_item_ok s i :
  scanner_ok s → affords s (enc i) (count i) → scanner_ok (advance s (enc i) (count i)).
Proof. intros. pose proof (count_pos i). apply advance_ok; [done|lia|done]. Qed.

(** What a reader of one item does: it accepts exactly the items in [P]. *)
Definition reads (body : Scanner → result fault Scanner) (P : item → Prop) : Prop :=
  ∀ s s', scanner_ok s → body s = Ok s' →
    ∃ i, P i ∧ affords s (enc i) (count i) ∧ s' = advance s (enc i) (count i).

Definition takes (body : Scanner → result fault Scanner) (i : item) : Prop :=
  ∀ s, scanner_ok s → affords s (enc i) (count i) → body s = Ok (advance s (enc i) (count i)).

(** ** Loops *)

Lemma scan_elements_reads body P n s s' :
  reads body P → scanner_ok s → scan_elements body n s = Ok s' →
  ∃ l, length l = n ∧ Forall P l ∧ affords s (flat_map enc l) (sum_with count l) ∧
    s' = advance s (flat_map enc l) (sum_with count l).
Proof.
  intros Hb. revert s. induction n as [|n IH]; intros s Hs H; cbn in H; inv_ok.
  { exists []. cbn. rewrite advance_nil. split; [done|]. split; [done|].
    split; [by apply affords_nil|done]. }
  destruct (Hb s x Hs H0) as (i & Hi & Ha & ->). pose proof (count_pos i).
  destruct (IH _ (advance_item_ok _ _ Hs Ha) H) as (l & <- & Hl & Ha' & ->).
  exists (i :: l). cbn. rewrite advance_advance. split; [done|]. split; [by constructor|].
  split; [|done]. apply affords_app; [done|lia|apply sum_count_nonneg|done].
Qed.

Lemma scan_elements_takes body l s :
  Forall (takes body) l → scanner_ok s → affords s (flat_map enc l) (sum_with count l) →
  scan_elements body (length l) s = Ok (advance s (flat_map enc l) (sum_with count l)).
Proof.
  intros Hl. revert s. induction Hl as [|i l Hi Hl IH]; intros s Hs Ha; cbn in *.
  { by rewrite advance_nil. }
  pose proof (count_pos i).
  apply affords_app in Ha as [Ha Ha']; [|done|lia|apply sum_count_nonneg].
  rewrite (Hi s Hs Ha). cbn. rewrite IH; [by rewrite advance_advance| |done].
  by apply advance_item_ok.
Qed.

Lemma advance_entry s k v bs n :
  advance (advance (advance s (enc k) (count k)) (enc v) (count v)) bs n =
  advance s (enc_entry (k, v) ++ bs) (count_entry (k, v) + n).
Proof.
  rewrite !advance_advance. unfold enc_entry, count_entry. cbn.
  by rewrite (assoc_L (++)), Z.add_assoc.
Qed.

Lemma affords_entry s k v m :
  scanner_ok s →
  affords s (flat_map enc_entry ((k, v) :: m)) (sum_with count_entry ((k, v) :: m)) ↔
  affords s (enc k) (count k) ∧
  affords (advance s (enc k) (count k)) (enc v) (count v) ∧
  affords (advance (advance s (enc k) (count k)) (enc v) (count v))
    (flat_map enc_entry m) (sum_with count_entry m).
Proof.
  intros Hs. pose proof (count_pos k). pose proof (count_pos v). pose proof (sum_entry_nonneg m).
  change (flat_map enc_entry ((k, v) :: m)) with ((enc k ++ enc v) ++ flat_map enc_entry m).
  change (sum_with count_entry ((k, v) :: m)) with ((count k + count v) + sum_with count_entry m).
  rewrite !affords_app by (done || lia). rewrite advance_advance. tauto.
Qed.

(** The range of the previous key holds its encoding. *)
Definition key_range (c : Cursor) (range : option (Z * Z)) (key : option (list byte)) : Prop :=
  match range, key with
  | None, None => True
  | Some (a, b), Some k => slice (input c) a b = k
  | _, _ => False
  end.

Lemma slice_starts c bs :
  cursor_ok c → starts c bs → slice (input c) (position c) (position c + len bs) = bs.
Proof.
  intros Hc Hs. pose proof (starts_len c bs Hc Hs). pose proof (len_nonneg bs).
  unfold slice, slice_get. rewrite decide_True by lia. cbn. fold (rest c).
  destruct Hs as [r ->]. unfold len.
  replace (Z.to_nat _) with (length bs) by lia. apply take_app_length.
Qed.

Definition order_from (key : option (list byte)) (m : list (item * item)) : Prop :=
  strict = true → ascending key m.

(** One round of the map loop, written with the keys instead of their ranges. *)
Lemma scan_entries_step body n range key s k :
  scanner_ok s → affords s (enc k) (count k) → (strict = true → key_range (cursor s) range key) →
  let s1 := advance s (enc k) (count k) in
  body s = Ok s1 →
  ∃ range', (strict = true → key_range (cursor s1) range' (Some (enc k))) ∧
    scan_entries body (S n) range s =
      ((if strict then
         match key with
         | Some p => match cmp p (enc k) with
                     | Eq => Err (Fault DuplicateKey) | Gt => Err (Fault MapOrder) | Lt => Ok tt
                     end
         | None => Ok tt
         end
       else Ok tt);;
      s2 ← body s1; scan_entries body n range' s2).
Proof.
  intros (Hc & _ & _ & He) [Ha _] Hr s1 Hb. cbn -[mbind]. rewrite Hb. cbn -[slice].
  rewrite He. destruct strict; [|exists range; split; done].
  exists (Some (position (cursor s), position (cursor s) + len (enc k))).
  split; [intros _; apply (slice_starts _ _ Hc Ha)|]. specialize (Hr eq_refl).
  rewrite (slice_starts _ _ Hc Ha).
  destruct range as [[a b]|], key as [p|]; try done. cbn -[slice] in Hr. rewrite Hr.
  unfold deterministic_key_cmp. by destruct (cmp p (enc k)).
Qed.

Lemma scan_entries_reads body P n range key s s' :
  reads body P → scanner_ok s → (strict = true → key_range (cursor s) range key) →
  scan_entries body n range s = Ok s' →
  ∃ m, length m = n ∧ Forall (both P) m ∧ order_from key m ∧
    affords s (flat_map enc_entry m) (sum_with count_entry m) ∧
    s' = advance s (flat_map enc_entry m) (sum_with count_entry m).
Proof.
  intros Hb. revert range key s. induction n as [|n IH]; intros range key s Hs Hr H.
  { cbn in H. inv_ok. exists []. cbn. rewrite advance_nil. split; [done|]. split; [done|].
    split; [by intros ?|]. split; [by apply affords_nil|done]. }
  assert (∃ x, body s = Ok x) as [x Hx] by (cbn in H; inv_ok; eauto).
  destruct (Hb s x Hs Hx) as (k & Hk & Ha & ->).
  destruct (scan_entries_step body n range key s k Hs Ha Hr Hx) as (range' & Hr' & E).
  rewrite E in H. clear E. apply bind_Ok in H as ([] & Hord & H).
  apply bind_Ok in H as (y & Hy & H).
  pose proof (advance_item_ok _ _ Hs Ha) as Hs1.
  destruct (Hb _ y Hs1 Hy) as (v & Hv & Ha' & ->).
  pose proof (advance_item_ok _ _ Hs1 Ha') as Hs2.
  destruct (IH range' (Some (enc k)) _ Hs2 Hr' H) as (m & <- & Hm & Ho & Ha2 & ->).
  exists ((k, v) :: m). split; [done|]. split; [by constructor|]. split.
  { intros Hst. specialize (Ho Hst). cbn. split; [|done]. rewrite Hst in Hord.
    destruct key as [p|]; [|done]. by destruct (cmp p (enc k)). }
  split; [by apply affords_entry|apply advance_entry].
Qed.

Lemma scan_entries_takes body m range key s :
  Forall (both (takes body)) m → scanner_ok s →
  (strict = true → key_range (cursor s) range key) → order_from key m →
  affords s (flat_map enc_entry m) (sum_with count_entry m) →
  scan_entries body (length m) range s =
    Ok (advance s (flat_map enc_entry m) (sum_with count_entry m)).
Proof.
  intros Hm. revert range key s.
  induction Hm as [|[k v] m [Hk Hv] Hm IH]; intros range key s Hs Hr Ho Ha.
  { cbn. by rewrite advance_nil. }
  apply affords_entry in Ha as (Ha & Ha1 & Ha2); [|done]. cbn [fst snd] in *.
  pose proof (advance_item_ok _ _ Hs Ha) as Hs1.
  pose proof (advance_item_ok _ _ Hs1 Ha1) as Hs2.
  destruct (scan_entries_step body (length m) range key s k Hs Ha Hr (Hk s Hs Ha))
    as (range' & Hr' & E).
  cbn [length]. rewrite E. clear E. rewrite (Hv _ Hs1 Ha1).
  cbn -[scan_entries cmp flat_map sum_with]. rewrite (IH range' (Some (enc k))); try done.
  - rewrite advance_entry. unfold order_from in Ho. destruct strict; [|done].
    destruct (Ho eq_refl) as [Hp _]. destruct key as [p|]; [|done]. cbn in Hp. by rewrite Hp.
  - intros Hst. by destruct (Ho Hst).
Qed.

(** ** Heads *)

(** A reader of a head argument that accepts the values in [V]. *)
Definition reads_argument {A} (f : Z → Cursor → result fault (A * Cursor)) (V : A → Z → Prop) :=
  ∀ a c x c', cursor_ok c → 0 ≤ a →
    f a c = Ok (x, c') ↔ ∃ v bs, V x v ∧ arg_split v = (a, bs) ∧ starts c bs ∧ c' = skip c bs.

Lemma scan_read_argument_reads :
  reads_argument scan_read_argument (λ x v, in_u64 v ∧ x = v).
Proof.
  intros a c x c' Hc Ha. rewrite scan_read_argument_Ok by done. split.
  - intros (bs & ? & ? & ? & ->). by exists x, bs.
  - intros (v & bs & [? ->] & ? & ? & ->). by exists bs.
Qed.

Lemma read_length_reads : reads_argument read_length (λ x v, in_u64 v ∧ x = v).
Proof.
  intros a c x c' Hc Ha. rewrite <- (scan_read_argument_reads a c x c' Hc Ha).
  unfold read_length. split.
  - intros H. apply bind_Ok in H as ([v d] & -> & H). by destruct (v <=? usize_max).
  - intros H. rewrite H. cbn. apply scan_read_argument_Ok in H as (bs & [_ H] & _); [|done..].
    by rewrite (proj2 (Z.leb_le x usize_max)) by done.
Qed.

Lemma scan_simple_reads :
  reads_argument scan_simple (λ _ v, 0 ≤ v ≤ 23 ∨ 32 ≤ v ≤ 255).
Proof.
  intros a c [] c' Hc Ha. unfold scan_simple.
  assert (∀ v bs, 0 ≤ v ≤ 23 ∨ 32 ≤ v ≤ 255 → arg_split v = (a, bs) →
    (v = a ∧ v ≤ 23 ∧ bs = []) ∨ (a = 24 ∧ 32 ≤ v ≤ 255 ∧ bs = [byte_of v])) as Hsplit.
  { intros v bs Hv H. apply arg_split_cases in H; [|unfold in_u64, u64_max; lia].
    unfold u8_max, u16_max, u32_max in H. naive_solver lia. }
  destruct (a <=? 23) eqn:E; zbool.
  { split.
    - intros [= <-]. exists a, []. rewrite skip_nil. split; [lia|]. unfold arg_split.
      rewrite (proj2 (Z.ltb_lt a 24)) by lia. pose proof (starts_nil c). done.
    - intros (v & bs & Hv & H & _ & ->). destruct (Hsplit v bs Hv H) as [(_ & _ & ->)|]; [|lia].
      by rewrite skip_nil. }
  destruct (decide (a = 24)) as [->|].
  - split.
    + intros H. apply bind_Ok in H as ([b d] & Hb & H). apply read_byte_Ok in Hb as [? ->]; [|done].
      pose proof (u8_range b). destruct (u8 b <=? 23) eqn:E1; [done|].
      destruct (u8 b <=? 31) eqn:E2; [done|]. zbool. simplify_eq.
      exists (u8 b), [b]. split; [lia|]. split; [|done].
      unfold arg_split. rewrite (proj2 (Z.ltb_ge (u8 b) 24)) by lia.
      unfold u8_max. rewrite (proj2 (Z.leb_le (u8 b) _)) by lia.
      by rewrite to_be_bytes_1, byte_of_u8.
    + intros (v & bs & Hv & H & Hs & ->). destruct (Hsplit v bs Hv H) as [|(_ & Hv' & ->)]; [lia|].
      rewrite (proj2 (read_byte_Ok c _ _ Hc) (conj Hs eq_refl)). cbn.
      rewrite u8_byte_of, Z.mod_small by lia.
      by rewrite (proj2 (Z.leb_gt v 23)), (proj2 (Z.leb_gt v 31)) by lia.
  - split; [repeat case_match; try done; lia|].
    intros (v & bs & Hv & H & _). destruct (Hsplit v bs Hv H); lia.
Qed.

(** The byte [b] and the argument after it are the head of [v]. *)
Lemma head_joins b v bs :
  arg_split v = (Z.land (u8 b) 31, bs) → head_bytes (Z.shiftr (u8 b) 5) v = b :: bs.
Proof.
  intros H. rewrite head_bytes_split, H. cbn. f_equal. apply (initial_split b).
Qed.

Section Head.
Context {A : Type} (f : Z → Cursor → result fault (A * Cursor)) (V : A → Z → Prop).
Context (Hf : reads_argument f V).

Lemma head_reads s b x s' :
  scanner_ok s → affords s [b] 1 →
  on_cursor (f (Z.land (u8 b) 31)) (advance s [b] 1) = Ok (x, s') →
  ∃ v, V x v ∧ affords s (head_bytes (Z.shiftr (u8 b) 5) v) 1 ∧
    s' = advance s (head_bytes (Z.shiftr (u8 b) 5) v) 1.
Proof.
  intros Hs [Hb Ht] H. destruct (initial_split b) as (_ & Ha & _).
  apply bind_Ok in H as ([y c] & Hy & [= -> <-]).
  apply Hf in Hy as (v & bs & HV & Hv & Hbs & ->); [|by apply skip_ok, Hb; destruct Hs|lia].
  exists v. rewrite (head_joins b v bs Hv). split; [done|]. cbn in Hbs.
  assert (starts (cursor s) (b :: bs)).
  { apply (starts_app _ [b]); [by destruct Hs|done]. }
  split; [done|]. unfold advance, set_cursor. cbn. by rewrite skip_skip.
Qed.

Lemma head_takes s m x v :
  scanner_ok s → 0 ≤ m < 8 → V x v → 0 ≤ (arg_split v).1 < 32 →
  affords s (head_bytes m v) 1 →
  ∃ b, affords s [b] 1 ∧ Z.shiftr (u8 b) 5 = m ∧
    on_cursor (f (Z.land (u8 b) 31)) (advance s [b] 1) = Ok (x, advance s (head_bytes m v) 1).
Proof.
  intros Hs Hm HV Ha Hh. rewrite head_bytes_split in *.
  set (b := byte_of _) in *. destruct (initial_join m (arg_split v).1 Hm Ha) as [E1 E2].
  fold b in E1, E2. destruct Hh as [Hh Ht]. destruct Hs as [Hc Hs].
  change (b :: (arg_split v).2) with ([b] ++ (arg_split v).2) in *.
  apply starts_app in Hh as [Hb Hh]; [|done]. exists b. split; [done|]. split; [done|].
  unfold on_cursor. rewrite E2.
  change (cursor (advance s [b] 1)) with (skip (cursor s) [b]).
  rewrite (proj2 (Hf (arg_split v).1 (skip (cursor s) [b]) x (skip (skip (cursor s) [b]) (arg_split v).2)
    (skip_ok _ _ Hc Hb) (proj1 Ha))).
  - unfold advance, set_cursor. cbn. by rewrite skip_skip.
  - exists v, (arg_split v).2. split; [done|]. split; [by destruct (arg_split v)|done].
Qed.
End Head.

(** ** Items *)

Lemma payload_reads s n p s' :
  scanner_ok s → 0 ≤ n → on_cursor (read_slice n) s = Ok (p, s') →
  affords s p 0 ∧ len p = n ∧ s' = advance s p 0.
Proof.
  intros (Hc & Ht & _) Hn H. apply bind_Ok in H as ([q c] & Hq & [= -> <-]).
  apply read_slice_Ok in Hq as (? & <- & ->); [|done..].
  split; [split; [done|lia]|]. split; [done|]. unfold advance, set_cursor. by rewrite Z.add_0_r.
Qed.

Lemma payload_takes s p :
  scanner_ok s → affords s p 0 → on_cursor (read_slice (len p)) s = Ok (p, advance s p 0).
Proof.
  intros (Hc & _) [Hs _]. unfold on_cursor.
  rewrite (proj2 (read_slice_Ok (len p) (cursor s) p _ Hc (len_nonneg p))
    (conj Hs (conj eq_refl eq_refl))).
  cbn. unfold advance, set_cursor. by rewrite Z.add_0_r.
Qed.

Lemma check_text_Ok p : check_text nfc p = Ok tt ↔ is_text nfc p.
Proof.
  unfold check_text, is_text. destruct (from_utf8 p) as [cs|]; cbn; [|naive_solver].
  rewrite ensure_Ok, bool_decide_eq_true. naive_solver.
Qed.

Lemma container_reads s b n s' :
  scanner_ok s → affords s [b] 1 →
  read_container_length (Z.land (u8 b) 31) (advance s [b] 1) = Ok (n, s') →
  in_u64 n ∧ n ≤ max_container_items L ∧
  affords s (head_bytes (Z.shiftr (u8 b) 5) n) 1 ∧
  s' = advance s (head_bytes (Z.shiftr (u8 b) 5) n) 1.
Proof.
  intros Hs Hb H. apply bind_Ok in H as ([k s1] & Hk & H).
  apply (head_reads _ _ read_length_reads _ _ _ _ Hs Hb) in Hk as (v & [Hv ->] & Ha & ->).
  destruct Hs as (_ & _ & Hl & _). cbn in H. rewrite Hl in H.
  destruct (v >? max_container_items L) eqn:E; [done|]. zbool. by simplify_eq.
Qed.

Lemma container_takes s m n :
  scanner_ok s → 0 ≤ m < 8 → in_u64 n → n ≤ max_container_items L →
  affords s (head_bytes m n) 1 →
  ∃ b, affords s [b] 1 ∧ Z.shiftr (u8 b) 5 = m ∧
    read_container_length (Z.land (u8 b) 31) (advance s [b] 1) =
      Ok (n, advance s (head_bytes m n) 1).
Proof.
  intros Hs Hm Hn Hle Ha. pose proof (arg_split_range n Hn) as Hr.
  destruct (head_takes _ _ read_length_reads s m n n Hs Hm (conj Hn eq_refl) ltac:(lia) Ha)
    as (b & Hb & Hm' & H).
  exists b. split; [done|]. split; [done|]. unfold read_container_length. rewrite H. cbn.
  destruct Hs as (_ & _ & -> & _). by rewrite Z.gtb_ltb, (proj2 (Z.ltb_ge _ _)).
Qed.

Lemma check_container_depth_Ok s bs n d u :
  scanner_ok s → check_container_depth (advance s bs n) d = Ok u ↔ d < max_depth L.
Proof.
  intros (_ & _ & Hl & _). unfold check_container_depth. cbn. rewrite Hl, Z.geb_leb.
  destruct u, (max_depth L <=? d) eqn:E; zbool; split; try done; lia.
Qed.

Lemma scan_item_S fuel d s s' :
  scanner_ok s →
  scan_item nfc (S fuel) d s = Ok s' ↔
  has_nonzero_security_budgets L = true ∧
  ∃ b, affords s [b] 1 ∧ scan_major nfc (scan_item nfc fuel) d b (advance s [b] 1) = Ok s'.
Proof.
  intros (Hc & Ht & Hl & He). cbn [scan_item]. rewrite Hl. unfold checked_add.
  destruct HL as (_ & _ & HT & _).
  destruct (has_nonzero_security_budgets L); cbn [ensure]; [|split; [done|by intros []]].
  cbn -[read_byte scan_major on_cursor]. case_decide as Hd.
  2: { split; [done|]. intros (_ & b & [_ ?] & _). lia. }
  cbn -[read_byte scan_major on_cursor]. rewrite Hl.
  destruct (total_items s + 1 <=? max_total_items L) eqn:E; zbool.
  2: { split; [done|]. intros (_ & b & [_ ?] & _). lia. }
  cbn -[read_byte scan_major]. split.
  - intros H. apply bind_Ok in H as ([b s1] & Hb & H).
    apply bind_Ok in Hb as ([b' c] & Hb & [= -> <-]).
    apply read_byte_Ok in Hb as [Hb ->]; [|done]. split; [done|]. exists b. split; [done|].
    exact H.
  - intros (_ & b & [Hb _] & H). unfold on_cursor.
    change (cursor (set_total_items s (total_items s + 1))) with (cursor s).
    by rewrite (proj2 (read_byte_Ok (cursor s) b _ Hc) (conj Hb eq_refl)).
Qed.

(** ** Soundness: what is accepted is the encoding of an item *)

Lemma to_nat_len {A} (l : list A) : Z.to_nat (len l) = length l.
Proof. unfold len. lia. Qed.

Lemma affords_item s a b n :
  scanner_ok s → affords s a 1 → 0 ≤ n → affords (advance s a 1) b n → affords s (a ++ b) (1 + n).
Proof. intros. apply affords_app; [done|lia|lia|done]. Qed.

Lemma string_reads scan d s b s' :
  scanner_ok s → affords s [b] 1 → Z.shiftr (u8 b) 5 = 2 ∨ Z.shiftr (u8 b) 5 = 3 →
  scan_major nfc scan d b (advance s [b] 1) = Ok s' →
  ∃ p, len p ≤ max_text_or_bytes L ∧ (Z.shiftr (u8 b) 5 = 3 → is_text nfc p) ∧
    affords s (head_bytes (Z.shiftr (u8 b) 5) (len p) ++ p) 1 ∧
    s' = advance s (head_bytes (Z.shiftr (u8 b) 5) (len p) ++ p) 1.
Proof.
  intros Hs Hb Hm H. set (m := Z.shiftr (u8 b) 5) in *.
  assert (('(length, s) ← on_cursor (read_length (Z.land (u8 b) 31)) (advance s [b] 1);
      ensure (length <=? max_text_or_bytes (limits s)) (Fault ItemLimit);;
      '(payload, s) ← on_cursor (read_slice length) s;
      (if m =? 3 then check_text nfc payload else Ok tt);;
      Ok s) = Ok s') as H'.
  { unfold scan_major in H. fold m in H. by destruct Hm as [E|E]; rewrite E in *. }
  clear H. apply bind_Ok in H' as ([x s1] & Hx & H).
  apply (head_reads _ _ read_length_reads _ _ _ _ Hs Hb) in Hx as (v & [Hv ->] & Ha & ->).
  fold m in Ha, H. apply bind_Ok in H as ([] & Hle & H). apply ensure_Ok in Hle. zbool.
  apply bind_Ok in H as ([p s2] & Hp & H). cbn in Hle. destruct (Hs) as (_ & _ & Hl & _).
  rewrite Hl in Hle.
  apply payload_reads in Hp as (Hp & <- & ->); [|by apply advance_ok; [|lia|]|apply Hv].
  apply bind_Ok in H as ([] & Ht & H). simplify_eq. exists p. split; [done|]. split.
  - intros E. apply check_text_Ok. by rewrite E in Ht.
  - rewrite advance_advance. split; [by apply (affords_item _ _ _ 0)|done].
Qed.

Lemma scan_item_reads fuel d : reads (scan_item nfc fuel d) (fits nfc L strict d).
Proof.
  revert d. induction fuel as [|fuel IH]; intros d s s' Hs H; [done|].
  apply scan_item_S in H as (_ & b & Hb & H); [|done].
  destruct (initial_split b) as (Hm & _).
  assert (∀ bs, affords s bs 1 → scanner_ok (advance s bs 1)) as Hadv.
  { intros bs Ha. apply advance_ok; [done|lia|done]. }
  assert (Z.shiftr (u8 b) 5 = 0 ∨ Z.shiftr (u8 b) 5 = 1 ∨ Z.shiftr (u8 b) 5 = 2 ∨
    Z.shiftr (u8 b) 5 = 3 ∨ Z.shiftr (u8 b) 5 = 4 ∨ Z.shiftr (u8 b) 5 = 5 ∨
    Z.shiftr (u8 b) 5 = 6 ∨ Z.shiftr (u8 b) 5 = 7) as Hcases by lia.
  destruct Hcases as [E|[E|[E|[E|[E|[E|[E|E]]]]]]].
  3: { apply string_reads in H as (p & Hle & _ & Ha & ->); [|done..|lia]. rewrite E in *.
       by exists (Bytes p). }
  3: { apply string_reads in H as (p & Hle & Ht & Ha & ->); [|done..|lia]. rewrite E in *.
       exists (Text p). split; [by split; [|apply Ht]|done]. }
  all: unfold scan_major in H; rewrite E in H; apply bind_Ok in H as ([x s1] & Hx & H).
  - apply (head_reads _ _ scan_read_argument_reads _ _ _ _ Hs Hb) in Hx
      as (v & [Hv ->] & Ha & ->). rewrite E in *. simplify_eq. by exists (UInt v).
  - apply (head_reads _ _ scan_read_argument_reads _ _ _ _ Hs Hb) in Hx
      as (v & [Hv ->] & Ha & ->). rewrite E in *. simplify_eq. by exists (NInt v).
  - apply (container_reads _ _ _ _ Hs Hb) in Hx as (Hv & Hle & Ha & ->). rewrite E in *.
    apply bind_Ok in H as (u & Hd & H). apply check_container_depth_Ok in Hd; [|done].
    apply (scan_elements_reads _ _ _ _ _ (IH (d + 1)) (Hadv _ Ha)) in H
      as (l & Hl & Hfit & Ha' & ->).
    assert (x = len l) as -> by (unfold in_u64, len in *; lia).
    exists (Array l). cbn. rewrite all_Forall, advance_advance. split; [done|]. split; [|done].
    apply affords_item; [done..|apply sum_count_nonneg|done].
  - apply (container_reads _ _ _ _ Hs Hb) in Hx as (Hv & Hle & Ha & ->). rewrite E in *.
    apply bind_Ok in H as (u & Hd & H). apply check_container_depth_Ok in Hd; [|done].
    apply (scan_entries_reads _ _ _ _ None _ _ (IH (d + 1)) (Hadv _ Ha)) in H
      as (l & Hl & Hfit & Ho & Ha' & ->); [|done].
    assert (x = len l) as -> by (unfold in_u64, len in *; lia).
    exists (Map l). cbn. rewrite all_entry, sum_entry, flat_map_entry, advance_advance.
    split; [done|]. split; [|done]. apply affords_item; [done..|apply sum_entry_nonneg|done].
  - apply (head_reads _ _ scan_read_argument_reads _ _ _ _ Hs Hb) in Hx
      as (v & [Hv ->] & Ha & ->). rewrite E in *.
    apply bind_Ok in H as (u & Hd & H). apply check_container_depth_Ok in Hd; [|done].
    apply (IH (d + 1) _ _ (Hadv _ Ha)) in H as (i & Hi & Ha' & ->). pose proof (count_pos i).
    exists (Tag v i). cbn. rewrite advance_advance. split; [done|]. split; [|done].
    apply affords_item; [done..|lia|done].
  - apply (head_reads _ _ scan_simple_reads _ _ _ _ Hs Hb) in Hx as (v & Hv & Ha & ->).
    rewrite E in *. simplify_eq. by exists (Simple v).
Qed.

(** ** Completeness: every encoding within the limits is accepted *)

Lemma affords_head s a b n :
  scanner_ok s → 0 ≤ n → affords s (a ++ b) (1 + n) →
  affords s a 1 ∧ affords (advance s a 1) b n ∧ scanner_ok (advance s a 1).
Proof.
  intros Hs Hn Ha. apply affords_app in Ha as [Ha Hb]; [|done|lia|done].
  split; [done|]. split; [done|]. apply advance_ok; [done|lia|done].
Qed.

Section Budget.
Context (Hbudget : has_nonzero_security_budgets L = true).

Lemma string_takes (major : Z) scan d s p :
  scanner_ok s → major = 2 ∨ major = 3 → (major = 3 → is_text nfc p) →
  len p ≤ max_text_or_bytes L → affords s (head_bytes major (len p) ++ p) (1 + 0) →
  ∃ b, affords s [b] 1 ∧
    scan_major nfc scan d b (advance s [b] 1) = Ok (advance s (head_bytes major (len p) ++ p) 1).
Proof.
  intros Hs Hm Ht Hle Ha. apply affords_head in Ha as (Ha & Hp & Hs1); [|done..].
  assert (in_u64 (len p)) as Hu.
  { pose proof (len_nonneg p). destruct HL as (_ & _ & _ & ?). unfold in_u64, usize_max in *. lia. }
  pose proof (arg_split_range _ Hu).
  destruct (head_takes _ _ read_length_reads s major (len p) (len p) Hs ltac:(lia)
    (conj Hu eq_refl) ltac:(lia) Ha) as (b & Hb & E & Hr).
  exists b. split; [done|]. unfold scan_major. rewrite E.
  assert (limits (advance s (head_bytes major (len p)) 1) = L) as Hlim
    by (by destruct Hs as (_ & _ & <- & _)).
  pose proof (payload_takes _ _ Hs1 Hp) as Hpay. rewrite advance_advance in Hpay.
  apply Z.leb_le in Hle.
  destruct Hm as [-> | ->]; rewrite Hr; cbn -[on_cursor read_slice advance];
    rewrite Hlim, Hle; cbn -[on_cursor read_slice advance]; rewrite Hpay;
    cbn -[on_cursor read_slice advance]; [done|].
  by rewrite (proj2 (check_text_Ok p) (Ht eq_refl)).
Qed.

Lemma leaf_takes {A} (f : Z → Cursor → result fault (A * Cursor)) V m x v s :
  reads_argument f V → scanner_ok s → 0 ≤ m < 8 → V x v → 0 ≤ v ≤ u64_max →
  affords s (head_bytes m v) 1 →
  ∃ b, affords s [b] 1 ∧ Z.shiftr (u8 b) 5 = m ∧
    ('(_, s) ← on_cursor (f (Z.land (u8 b) 31)) (advance s [b] 1); Ok s) =
      Ok (advance s (head_bytes m v) 1).
Proof.
  intros Hf Hs Hm Hx Hv Ha. pose proof (arg_split_range v Hv) as Hr.
  destruct (head_takes f V Hf s m x v Hs Hm Hx ltac:(lia) Ha) as (b & Hb & E & H).
  exists b. split; [done|]. split; [done|]. by rewrite H.
Qed.

Lemma container_len {A} (l : list A) : len l ≤ max_container_items L → in_u64 (len l).
Proof.
  intros. pose proof (len_nonneg l). destruct HL as (_ & ? & _). unfold in_u64, usize_max in *. lia.
Qed.

Lemma fuel_S i fuel : (length (enc i) ≤ fuel)%nat → ∃ f, fuel = S f.
Proof. pose proof (enc_length i). destruct fuel; [lia|eauto]. Qed.

(** Major types 4, 5 and 6, with the recursive call [scan]. *)
Definition dispatches (scan : Z → Scanner → result fault Scanner) (d : Z) (i : item) : Prop :=
  ∀ s, scanner_ok s → affords s (enc i) (count i) →
    ∃ b, affords s [b] 1 ∧
      scan_major nfc scan d b (advance s [b] 1) = Ok (advance s (enc i) (count i)).

Lemma array_takes scan d l :
  len l ≤ max_container_items L → d < max_depth L → Forall (takes (scan (d + 1))) l →
  dispatches scan d (Array l).
Proof.
  intros Hle Hd Hf s Hs Ha. cbn [enc count] in *.
  apply affords_head in Ha as (Ha & Hl & Hs1); [|done|apply sum_count_nonneg].
  destruct (container_takes s 4 (len l) Hs ltac:(lia) (container_len l Hle) Hle Ha)
    as (b & Hb & E & Hr).
  exists b. split; [done|]. unfold scan_major. rewrite E, Hr. cbn [mbind result_bind].
  rewrite (proj2 (check_container_depth_Ok s _ 1 d tt Hs) Hd). cbn -[advance flat_map].
  rewrite to_nat_len, scan_elements_takes; [by rewrite advance_advance|done..].
Qed.

Lemma map_takes scan d m :
  len m ≤ max_container_items L → d < max_depth L → Forall (both (takes (scan (d + 1)))) m →
  order_from None m → dispatches scan d (Map m).
Proof.
  intros Hle Hd Hf Ho s Hs Ha. cbn [enc count] in *. rewrite flat_map_entry, sum_entry in *.
  apply affords_head in Ha as (Ha & Hl & Hs1); [|done|apply sum_entry_nonneg].
  destruct (container_takes s 5 (len m) Hs ltac:(lia) (container_len m Hle) Hle Ha)
    as (b & Hb & E & Hr).
  exists b. split; [done|]. unfold scan_major. rewrite E, Hr. cbn [mbind result_bind].
  rewrite (proj2 (check_container_depth_Ok s _ 1 d tt Hs) Hd). cbn -[advance flat_map].
  rewrite to_nat_len, (scan_entries_takes _ _ _ None); [by rewrite advance_advance|done..].
Qed.

Lemma tag_takes scan d n i :
  in_u64 n → d < max_depth L → takes (scan (d + 1)) i → dispatches scan d (Tag n i).
Proof.
  intros Hn Hd Hi s Hs Ha. cbn [enc count] in *.
  pose proof (count_pos i). apply affords_head in Ha as (Ha & Hl & Hs1); [|done|lia].
  pose proof (arg_split_range n Hn).
  destruct (head_takes _ _ scan_read_argument_reads s 6 n n Hs ltac:(lia)
    (conj Hn eq_refl) ltac:(lia) Ha) as (b & Hb & E & Hr).
  exists b. split; [done|]. unfold scan_major. rewrite E, Hr. cbn [mbind result_bind].
  rewrite (proj2 (check_container_depth_Ok s _ 1 d tt Hs) Hd). cbn -[advance flat_map].
  rewrite Hi; [by rewrite advance_advance|done|done].
Qed.

Lemma leaf_dispatches {A} (f : Z → Cursor → result fault (A * Cursor)) V m x v scan d i :
  reads_argument f V → 0 ≤ m < 8 → V x v → 0 ≤ v ≤ u64_max →
  enc i = head_bytes m v → count i = 1 →
  (∀ b s, Z.shiftr (u8 b) 5 = m → scan_major nfc scan d b s =
    ('(_, s) ← on_cursor (f (Z.land (u8 b) 31)) s; Ok s)) →
  dispatches scan d i.
Proof.
  intros Hf Hm Hx Hv Ei Ec Hmaj s Hs Ha. rewrite Ei, Ec in *.
  destruct (leaf_takes f V m x v s Hf Hs Hm Hx Hv Ha) as (b & Hb & E & H).
  exists b. split; [done|]. by rewrite Hmaj.
Qed.

Lemma scan_item_takes i fuel d :
  fits nfc L strict d i → (length (enc i) ≤ fuel)%nat → takes (scan_item nfc fuel d) i.
Proof.
  revert fuel d. induction i using item_nested_ind; intros fuel d Hf Hlen s Hs Ha;
    destruct (fuel_S _ _ Hlen) as [f ->]; apply scan_item_S; try done; (split; [done|]);
    revert s Hs Ha.
  - apply (leaf_dispatches _ _ 0 n n _ _ _ scan_read_argument_reads); try done.
    intros b s E. unfold scan_major. by rewrite E.
  - apply (leaf_dispatches _ _ 1 n n _ _ _ scan_read_argument_reads); try done.
    intros b s E. unfold scan_major. by rewrite E.
  - intros s Hs Ha. apply string_takes; [done|by left|done..].
  - intros s Hs Ha. destruct Hf. apply string_takes; [done|by right|done..].
  - destruct Hf as (Hle & Hd & Hf). rewrite all_Forall in Hf. apply array_takes; [done..|].
    rewrite Forall_forall in *. intros x Hx. apply (H x Hx); [by apply Hf|].
    apply (nested_length 4 l) in Hx. cbn in Hlen. lia.
  - destruct Hf as (Hle & Hd & Hf & Ho). rewrite all_entry in Hf. apply map_takes; [done..| |done].
    cbn in Hlen. rewrite flat_map_entry in Hlen. rewrite Forall_forall in *. intros x Hx.
    destruct (H x Hx) as [Hi1 Hi2], (Hf x Hx). apply (nested_entry_length 5 m) in Hx.
    split; [apply Hi1|apply Hi2]; (done || lia).
  - destruct Hf as (Hn & Hd & Hf). apply tag_takes; [done..|]. apply IHi; [done|].
    cbn in Hlen. rewrite length_app in Hlen. pose proof (head_length 6 n). lia.
  - apply (leaf_dispatches _ _ 7 tt v _ _ _ scan_simple_reads); try done.
    + cbn in Hf. unfold u64_max. lia.
    + intros b s E. unfold scan_major. by rewrite E.
Qed.
End Budget.
End Scan.
