(* ===== verification/CborCanon.v ===== *)
(** * CborCanon: canonical re-encoding and validation

    The canonical form of a CBOR tree, the proof that the re-encoder of
    [encode.rs] computes it, and the theorems about the crate's entry points
    [validate] and [canonical_reencode]. *)

From S2P Require Import Prelude Utf8 Cbor CborSpec.

(** ** The canonical form *)

Definition entry_key (e : item * item) : list byte := enc e.1.

(** Every map sorted by the encoding of its canonical keys. *)
Fixpoint canon (i : item) : item :=
  match i with
  | Array l => Array (map canon l)
  | Map m => Map (sort_by_key entry_key (map (λ '(k, v), (canon k, canon v)) m))
  | Tag n i => Tag n (canon i)
  | i => i
  end.

Definition canon_entry (e : item * item) : item * item := (canon e.1, canon e.2).

(** No map holds two keys with the same canonical form. *)
Fixpoint distinct (i : item) : bool :=
  match i with
  | Array l => forallb distinct l
  | Map m =>
      forallb (λ '(k, v), distinct k && distinct v) m &&
      bool_decide (NoDup (map (λ '(k, _), enc (canon k)) m))
  | Tag _ i => distinct i
  | _ => true
  end.

Definition distinct_entry (e : item * item) : bool := distinct e.1 && distinct e.2.

Lemma canon_map m :
  canon (Map m) = Map (sort_by_key entry_key (canon_entry <$> m)).
Proof.
  cbn. do 2 f_equal. induction m as [|[k v] m IH]; [done|]. cbn. f_equal. exact IH.
Qed.

Lemma canon_array l : canon (Array l) = Array (canon <$> l).
Proof. done. Qed.

Lemma distinct_map m :
  distinct (Map m) = forallb distinct_entry m && bool_decide (NoDup (entry_key ∘ canon_entry <$> m)).
Proof.
  cbn. f_equal.
  - induction m as [|[k v] m IH]; [done|]. cbn. by rewrite IH.
  - apply bool_decide_ext. enough (map (λ '(k, _), enc (canon k)) m = entry_key ∘ canon_entry <$> m) as -> by done.
    induction m as [|[k v] m IH]; [done|]. cbn. f_equal. exact IH.
Qed.

Lemma enc_map m : enc (Map m) = head_bytes 5 (len m) ++ flat_map enc_entry m.
Proof. cbn. by rewrite flat_map_entry. Qed.

Lemma flat_map_perm_length {A B} (f : A → list B) l k :
  l ≡ₚ k → length (flat_map f l) = length (flat_map f k).
Proof. induction 1; cbn; rewrite ?length_app; lia. Qed.

Lemma flat_map_fmap_length {A C} (f : C → list byte) (f' : A → list byte) (g : A → C) l :
  Forall (λ x, length (f (g x)) = length (f' x)) l →
  length (flat_map f (g <$> l)) = length (flat_map f' l).
Proof. induction 1 as [|x l Hx Hl IH]; cbn; [done|]. rewrite !length_app. cbn in *. lia. Qed.

Lemma len_sort_by_key {A K} `{CmpLaws K} (key : A → K) l : len (sort_by_key key l) = len l.
Proof. unfold len. by rewrite (sort_by_key_perm key l). Qed.
Lemma len_fmap {A B} (f : A → B) l : len (f <$> l) = len l.
Proof. unfold len. by rewrite length_fmap. Qed.

(** Canonicalising keeps the length, the number of items and the limits. *)
Lemma length_enc_canon i : length (enc (canon i)) = length (enc i).
Proof.
  induction i using item_nested_ind; [done..| | | |done].
  - rewrite canon_array. cbn. rewrite !length_app. fold (len (canon <$> l)). rewrite len_fmap.
    f_equal. by apply flat_map_fmap_length.
  - rewrite canon_map, !enc_map, !length_app, len_sort_by_key, len_fmap. f_equal.
    rewrite (flat_map_perm_length _ _ (canon_entry <$> m)) by apply sort_by_key_perm.
    apply flat_map_fmap_length. eapply Forall_impl; [done|]. intros e [H1 H2].
    unfold enc_entry. cbn. rewrite !length_app. lia.
  - cbn. rewrite !length_app. lia.
Qed.

Lemma sum_with_perm {A} (f : A → Z) l k : l ≡ₚ k → sum_with f l = sum_with f k.
Proof. unfold sum_with. induction 1; cbn; lia. Qed.
Lemma sum_with_fmap {A B} (f : B → Z) (f' : A → Z) (g : A → B) l :
  Forall (λ x, f (g x) = f' x) l → sum_with f (g <$> l) = sum_with f' l.
Proof. unfold sum_with. induction 1; cbn in *; lia. Qed.

Lemma count_map m : count (Map m) = 1 + sum_with count_entry m.
Proof. cbn. by rewrite sum_entry. Qed.

Lemma count_canon i : count (canon i) = count i.
Proof.
  induction i using item_nested_ind; [done..| | | |done].
  - rewrite canon_array. cbn [count]. f_equal. by apply sum_with_fmap.
  - rewrite canon_map, !count_map. f_equal.
    rewrite (sum_with_perm _ _ (canon_entry <$> m)) by apply sort_by_key_perm.
    apply sum_with_fmap. eapply Forall_impl; [done|]. intros e [H1 H2].
    unfold count_entry. cbn. lia.
  - cbn. lia.
Qed.

(** ** Key order *)

Lemma ascending_sorted m : ascending None m ↔ StronglySorted (key_lt entry_key) m.
Proof.
  assert (∀ p m, ascending (Some p) m ↔
    Forall (λ e, cmp p (entry_key e) = Lt) m ∧ StronglySorted (key_lt entry_key) m) as H.
  { intros p l. revert p. induction l as [|e l IH]; intros p; cbn.
    - split; [by repeat constructor|done].
    - rewrite IH, Forall_cons, StronglySorted_cons. unfold key_lt at 1 3, entry_key at 1 3 4 6. split.
      + intros (He & Hl & Hs). split; [|done]. split; [done|]. eapply Forall_impl; [exact Hl|].
        cbn. intros x. by apply cmp_lt_trans.
      + intros ((He & _) & Hl & Hs). done. }
  destruct m as [|e m]; cbn; [split; [constructor|done]|].
  rewrite H, StronglySorted_cons. by split; [intros (_ & ? & ?)|intros []].
Qed.

Lemma fits_map nfc L strict d m :
  fits nfc L strict d (Map m) ↔
  len m ≤ max_container_items L ∧ d < max_depth L ∧ Forall (both (fits nfc L strict (d + 1))) m ∧
  (strict = true → StronglySorted (key_lt entry_key) m).
Proof. cbn. by rewrite all_entry, ascending_sorted. Qed.

Lemma fits_array nfc L strict d l :
  fits nfc L strict d (Array l) ↔
  len l ≤ max_container_items L ∧ d < max_depth L ∧ Forall (fits nfc L strict (d + 1)) l.
Proof. cbn. by rewrite all_Forall. Qed.

Lemma forallb_Forall_bool {A} (f : A → bool) l : forallb f l = true ↔ Forall (λ x, f x = true) l.
Proof. rewrite forallb_forall, List.Forall_forall. done. Qed.

(** The canonical form of a tree with distinct keys is strictly ordered. *)
Lemma fits_canon nfc L d i :
  fits nfc L false d i → distinct i = true → fits nfc L true d (canon i).
Proof.
  revert d. induction i using item_nested_ind; intros d Hf Hd; [done..| | | |done].
  - rewrite canon_array, fits_array in *. rewrite len_fmap. destruct Hf as (? & ? & Hf).
    split; [done|]. split; [done|]. apply Forall_fmap. cbn in Hd. apply forallb_Forall_bool in Hd.
    rewrite Forall_forall in *. intros x Hx. cbn. auto.
  - rewrite distinct_map, andb_true_iff, bool_decide_eq_true in Hd. destruct Hd as [Hd Hn].
    rewrite canon_map, fits_map in *. rewrite len_sort_by_key, len_fmap.
    destruct Hf as (? & ? & Hf & _). split; [done|]. split; [done|]. split.
    + rewrite sort_by_key_perm. apply Forall_fmap. apply forallb_Forall_bool in Hd.
      rewrite Forall_forall in *. intros x Hx. specialize (Hd x Hx). unfold distinct_entry in Hd.
      apply andb_true_iff in Hd as [? ?]. destruct (H x Hx), (Hf x Hx). split; cbn; auto.
    + intros _. apply sorted_NoDup_strict; [apply sort_by_key_sorted|].
      rewrite sort_by_key_perm, <- list_fmap_compose. done.
  - cbn in *. destruct Hf as (? & ? & ?). auto.
Qed.

Lemma fmap_id_on {A} (f : A → A) l : Forall (λ x, f x = x) l → f <$> l = l.
Proof. induction 1; cbn; [done|]. by f_equal. Qed.

(** A strictly ordered tree is its own canonical form. *)
Lemma canon_id nfc L d i : fits nfc L true d i → canon i = i ∧ distinct i = true.
Proof.
  revert d. induction i using item_nested_ind; intros d Hf; [done..| | | |done].
  - apply fits_array in Hf as (_ & _ & Hf). rewrite canon_array.
    assert (Forall (λ x, canon x = x ∧ distinct x = true) l) as Hl
      by (rewrite Forall_forall in *; eauto).
    rewrite fmap_id_on by (eapply Forall_impl; [exact Hl|]; by intros x []). split; [done|].
    cbn. apply forallb_Forall_bool. eapply Forall_impl; [exact Hl|]. by intros x [].
  - apply fits_map in Hf as (_ & _ & Hf & Ho). specialize (Ho eq_refl).
    assert (Forall (λ x, canon_entry x = x ∧ distinct_entry x = true) m) as Hl.
    { rewrite Forall_forall in *. intros [k v] Hx. destruct (H _ Hx) as [Hk Hv], (Hf _ Hx) as [Fk Fv].
      destruct (Hk _ Fk) as [Ek Dk], (Hv _ Fv) as [Ev Dv]. unfold canon_entry, distinct_entry. cbn in *.
      by rewrite Ek, Ev, Dk, Dv. }
    assert (canon_entry <$> m = m) as Hid
      by (apply fmap_id_on; eapply Forall_impl; [exact Hl|]; by intros x []).
    rewrite canon_map, Hid, sort_by_key_id by done. split; [done|].
    rewrite distinct_map, list_fmap_compose, Hid, andb_true_iff, bool_decide_eq_true.
    split; [|by apply key_lt_NoDup_keys]. apply forallb_Forall_bool.
    eapply Forall_impl; [exact Hl|]. by intros x [].
  - cbn in *. destruct Hf as (_ & _ & Hf). destruct (IHi _ Hf) as [-> ->]. done.
Qed.

Lemma fits_relax nfc L strict d i : fits nfc L strict d i → fits nfc L false d i.
Proof.
  revert d. induction i using item_nested_ind; intros d Hf; [done..| | | |done].
  - rewrite fits_array in *. destruct Hf as (? & ? & Hf). split; [done|]. split; [done|].
    rewrite Forall_forall in *. auto.
  - rewrite fits_map in *. destruct Hf as (? & ? & Hf & _). split; [done|]. split; [done|].
    split; [|done]. rewrite Forall_forall in *. intros x Hx. destruct (H x Hx), (Hf x Hx). split; auto.
  - cbn in *. naive_solver.
Qed.

(** ** The encoder computes the canonical form *)

Lemma append_Ok out bs : len out + len bs ≤ usize_max → append out bs = Ok (out ++ bs).
Proof. intros H. unfold append, checked_add. by rewrite decide_True. Qed.

Lemma head_bytes_short m v : len (head_bytes m v) ≤ 9.
Proof.
  unfold head_bytes, len. repeat case_match; cbn; rewrite ?length_app, ?length_to_be_bytes; cbn; lia.
Qed.

Lemma encode_head_Ok m v : encode_head m v = Ok (head_bytes m v).
Proof.
  unfold encode_head, from_slice. rewrite append_Ok; [done|].
  pose proof (head_bytes_short m v). unfold len at 1, usize_max, u64_max. cbn. lia.
Qed.

(** Reading a minimal head. *)
Lemma encode_head_read c m v r :
  cursor_ok c → 0 ≤ m < 8 → in_u64 v → starts c (head_bytes m v ++ r) →
  ∃ b, read_byte c = Ok (b, skip c [b]) ∧ Z.shiftr (u8 b) 5 = m ∧
    Z.land (u8 b) 31 = (arg_split v).1 ∧ head_bytes m v = b :: (arg_split v).2 ∧
    cursor_ok (skip c [b]) ∧ starts (skip c [b]) (arg_split v).2 ∧
    encode_read_argument (Z.land (u8 b) 31) (skip c [b]) = Ok (v, skip c (head_bytes m v)).
Proof.
  intros Hc Hm Hv Hs. rewrite head_bytes_split in *. set (b := byte_of _) in *.
  pose proof (arg_split_range v Hv) as Ha.
  destruct (initial_join m (arg_split v).1 Hm ltac:(lia)) as [E1 E2]. fold b in E1, E2.
  apply starts_app in Hs as [Hs _]; [|done].
  change (b :: (arg_split v).2) with ([b] ++ (arg_split v).2) in *.
  apply starts_app in Hs as [Hb Hs]; [|done]. pose proof (skip_ok _ _ Hc Hb) as Hc1.
  exists b. split; [by apply read_byte_Ok|]. split; [done|]. split; [done|]. split; [done|].
  split; [done|]. split; [done|]. rewrite E2, <- skip_skip.
  apply encode_read_argument_minimal; [done|done|by destruct (arg_split v)|done].
Qed.

Definition encodes (body : reader) (i : item) : Prop :=
  ∀ c, cursor_ok c → starts c (enc i) →
    body c = if distinct i then Ok (enc (canon i), skip c (enc i)) else Err (Fault DuplicateKey).

Lemma encode_elements_spec body l out c :
  Forall (encodes body) l → cursor_ok c → starts c (flat_map enc l) →
  len out + len (flat_map enc l) ≤ usize_max →
  encode_elements body (length l) out c =
    if forallb distinct l then Ok (out ++ flat_map enc (canon <$> l), skip c (flat_map enc l))
    else Err (Fault DuplicateKey).
Proof.
  intros Hl. revert out c. induction Hl as [|i l Hi Hl IH]; intros out c Hc Hs Hlen; cbn in *.
  { by rewrite app_nil_r, skip_nil. }
  apply starts_app in Hs as [Hs1 Hs2]; [|done]. rewrite (Hi c Hc Hs1).
  rewrite len_app in Hlen. pose proof (len_nonneg (flat_map enc l)).
  destruct (distinct i); [|done]. cbn -[append].
  assert (len (enc (canon i)) = len (enc i)) as E by (unfold len; by rewrite length_enc_canon).
  rewrite append_Ok by lia. cbn -[append].
  rewrite IH; [|by apply skip_ok|done|rewrite len_app; lia].
  destruct (forallb distinct l); [|done]. rewrite skip_skip, <- (assoc_L (++)). done.
Qed.

Definition bytes_entry (e : item * item) : list byte * list byte := (enc e.1, enc e.2).

Lemma read_entries_spec body m c :
  Forall (both (encodes body)) m → cursor_ok c → starts c (flat_map enc_entry m) →
  read_entries body (length m) c =
    if forallb distinct_entry m
    then Ok (bytes_entry <$> (canon_entry <$> m), skip c (flat_map enc_entry m))
    else Err (Fault DuplicateKey).
Proof.
  intros Hm. revert c. induction Hm as [|[k v] m [Hk Hv] Hm IH]; intros c Hc Hs.
  { cbn. by rewrite skip_nil. }
  change (flat_map enc_entry ((k, v) :: m)) with ((enc k ++ enc v) ++ flat_map enc_entry m) in *.
  apply starts_app in Hs as [Hs Hs2]; [|done]. apply starts_app in Hs as [Hs Hs1]; [|done].
  pose proof (skip_ok _ _ Hc Hs) as Hc1. pose proof (skip_ok _ _ Hc1 Hs1) as Hc2.
  rewrite skip_skip in Hc2. unfold distinct_entry. cbn in *. rewrite (Hk c Hc Hs).
  destruct (distinct k); [|done]. cbn. rewrite (Hv _ Hc1 Hs1).
  destruct (distinct v); [|done]. cbn. rewrite skip_skip, (IH _ Hc2 Hs2). fold distinct_entry.
  change (λ e, distinct e.1 && distinct e.2) with distinct_entry.
  destruct (forallb distinct_entry m); [|done]. cbn. by rewrite skip_skip.
Qed.

Lemma append_entries_Ok out m :
  len out + len (flat_map enc_entry m) ≤ usize_max →
  append_entries out (bytes_entry <$> m) = Ok (out ++ flat_map enc_entry m).
Proof.
  revert out. induction m as [|[k v] m IH]; intros out Hlen.
  { cbn. by rewrite app_nil_r. }
  change (flat_map enc_entry ((k, v) :: m)) with ((enc k ++ enc v) ++ flat_map enc_entry m) in *.
  rewrite !len_app in Hlen. pose proof (len_nonneg (flat_map enc_entry m)).
  pose proof (len_nonneg (enc v)).
  cbn -[append]. rewrite append_Ok by lia. cbn -[append]. rewrite append_Ok by (rewrite len_app; lia).
  cbn -[append]. rewrite IH by (rewrite !len_app; lia). by rewrite !(assoc_L (++)).
Qed.

(** The sorted entries of a map and the duplicate check. *)
Lemma sort_entries_spec m :
  NoDup (entry_key ∘ canon_entry <$> m) →
  sort_entries (bytes_entry <$> (canon_entry <$> m)) =
    bytes_entry <$> sort_by_key entry_key (canon_entry <$> m).
Proof.
  intros Hn. apply (sort_by_key_fmap bytes_entry fst). by rewrite <- list_fmap_compose.
Qed.

Lemma has_duplicate_key_spec m :
  has_duplicate_key (sort_entries (bytes_entry <$> (canon_entry <$> m))) =
    negb (bool_decide (NoDup (entry_key ∘ canon_entry <$> m))).
Proof.
  set (l := bytes_entry <$> _). unfold has_duplicate_key, sort_entries.
  assert (fst <$> l = entry_key ∘ canon_entry <$> m) as Hl
    by (unfold l; by rewrite <- !list_fmap_compose).
  rewrite <- Hl.
  assert (∀ w : list ((list byte * list byte) * (list byte * list byte)),
    existsb (λ '(a, b), bool_decide (a.1 = b.1)) w =
    existsb (λ p, bool_decide (p.1.1 = p.2.1)) w) as ->.
  { intros w. induction w as [|[a b] w IH]; [done|]. cbn. by rewrite IH. }
  destruct (existsb _ _) eqn:E; symmetry.
  - apply negb_true_iff, bool_decide_eq_false. intros Hn.
    assert (StronglySorted (key_lt fst) (sort_by_key fst l)) as Hs.
    { apply sorted_NoDup_strict; [apply sort_by_key_sorted|]. by rewrite sort_by_key_perm. }
    apply no_equal_neighbours in Hs; [congruence|apply sort_by_key_sorted].
  - apply negb_false_iff, bool_decide_eq_true.
    apply no_equal_neighbours in E; [|apply sort_by_key_sorted].
    apply key_lt_NoDup_keys in E. by rewrite sort_by_key_perm in E.
Qed.

Section Encode.
Context (nfc : list Z → list Z) (L : ParserLimits) (HL : limits_ok L).

Lemma starts_bound c bs : cursor_ok c → starts c bs → len bs ≤ usize_max.
Proof. intros Hc Hs. pose proof (starts_len c bs Hc Hs). destruct Hc as [? ?]. lia. Qed.

Lemma encode_leaf encode c m v :
  cursor_ok c → m = 0 ∨ m = 1 → in_u64 v → starts c (head_bytes m v) →
  ('(b, c) ← read_byte c; encode_major encode b c) = Ok (head_bytes m v, skip c (head_bytes m v)).
Proof.
  intros Hc Hm Hv Hs. rewrite <- (app_nil_r (head_bytes m v)) in Hs.
  destruct (encode_head_read c m v [] Hc ltac:(lia) Hv Hs) as (b & Hb & E & _ & _ & _ & _ & Hr).
  rewrite Hb. cbn -[encode_major]. unfold encode_major. rewrite E.
  destruct Hm as [-> | ->]; rewrite Hr; cbn -[encode_head]; by rewrite encode_head_Ok.
Qed.

Lemma encode_string encode c m p :
  cursor_ok c → m = 2 ∨ m = 3 → len p ≤ max_text_or_bytes L → starts c (head_bytes m (len p) ++ p) →
  ('(b, c) ← read_byte c; encode_major encode b c) =
    Ok (head_bytes m (len p) ++ p, skip c (head_bytes m (len p) ++ p)).
Proof.
  intros Hc Hm Hle Hs. pose proof (len_nonneg p).
  assert (in_u64 (len p)) as Hv
    by (destruct HL as (_ & _ & _ & ?); unfold in_u64, usize_max in *; lia).
  pose proof (starts_bound _ _ Hc Hs) as Hlen. rewrite len_app in Hlen.
  destruct (encode_head_read c m _ p Hc ltac:(lia) Hv Hs) as (b & Hb & E & _ & _ & _ & _ & Hr).
  apply starts_app in Hs as [Hs1 Hs2]; [|done]. pose proof (skip_ok _ _ Hc Hs1) as Hc1.
  assert ((len p <=? usize_max) = true) as Hu by (apply Z.leb_le, Hv).
  pose proof (proj2 (read_slice_Ok (len p) _ p _ Hc1 ltac:(lia)) (conj Hs2 (conj eq_refl eq_refl))) as Hp.
  rewrite skip_skip in Hp. rewrite Hb. cbn -[encode_major]. unfold encode_major. rewrite E.
  destruct Hm as [-> | ->]; rewrite Hr; cbn -[encode_head read_slice append]; rewrite Hu;
    cbn -[encode_head read_slice append]; rewrite Hp; cbn -[encode_head append];
    rewrite encode_head_Ok; cbn -[append]; rewrite append_Ok by lia; done.
Qed.

Lemma encode_simple encode c v :
  cursor_ok c → 0 ≤ v ≤ 23 ∨ 32 ≤ v ≤ 255 → starts c (head_bytes 7 v) →
  ('(b, c) ← read_byte c; encode_major encode b c) = Ok (head_bytes 7 v, skip c (head_bytes 7 v)).
Proof.
  intros Hc Hv Hs. rewrite <- (app_nil_r (head_bytes 7 v)) in Hs.
  assert (in_u64 v) as Hu by (unfold in_u64, u64_max; lia).
  destruct (encode_head_read c 7 v [] Hc ltac:(lia) Hu Hs) as (b & Hb & E & Ea & Eh & Hc1 & Hs1 & _).
  rewrite Hb, Eh. cbn -[encode_major]. unfold encode_major. rewrite E, Ea.
  destruct (arg_split v) as [a bs] eqn:Esplit. cbn [fst snd] in *.
  apply arg_split_cases in Esplit; [|done]. unfold u8_max, u16_max, u32_max in Esplit.
  destruct Esplit as [(? & -> & ->)|[(-> & ? & ->)|Hx]]; [| |lia].
  - by rewrite (proj2 (Z.leb_le v 23)) by lia.
  - rewrite to_be_bytes_1 in *. cbn -[read_byte from_slice].
    rewrite (proj2 (read_byte_Ok _ _ _ Hc1) (conj Hs1 eq_refl)). cbn -[from_slice].
    by rewrite skip_skip.
Qed.

Lemma encode_array encode c l :
  cursor_ok c → len l ≤ max_container_items L → Forall (encodes encode) l →
  starts c (enc (Array l)) →
  ('(b, c) ← read_byte c; encode_major encode b c) =
    if distinct (Array l) then Ok (enc (canon (Array l)), skip c (enc (Array l)))
    else Err (Fault DuplicateKey).
Proof.
  intros Hc Hle Hl Hs. cbn [enc distinct] in *. rewrite canon_array.
  pose proof (container_len L HL l Hle) as Hv. pose proof (starts_bound _ _ Hc Hs) as Hlen.
  destruct (encode_head_read c 4 _ _ Hc ltac:(lia) Hv Hs) as (b & Hb & E & _ & _ & _ & _ & Hr).
  rewrite Hb. cbn -[encode_major flat_map]. unfold encode_major. rewrite E, Hr.
  cbn -[encode_head flat_map]. rewrite encode_head_Ok. cbn -[flat_map].
  apply starts_app in Hs as [Hs1 Hs2]; [|done]. rewrite len_app in Hlen.
  rewrite to_nat_len, encode_elements_spec; [|done|by apply skip_ok|done|done].
  by rewrite skip_skip, len_fmap.
Qed.

Lemma encode_map encode c m :
  cursor_ok c → len m ≤ max_container_items L → Forall (both (encodes encode)) m →
  starts c (enc (Map m)) →
  ('(b, c) ← read_byte c; encode_major encode b c) =
    if distinct (Map m) then Ok (enc (canon (Map m)), skip c (enc (Map m)))
    else Err (Fault DuplicateKey).
Proof.
  intros Hc Hle Hm Hs. pose proof (length_enc_canon (Map m)) as Hx.
  rewrite distinct_map. rewrite canon_map, !enc_map, len_sort_by_key, len_fmap in *.
  pose proof (container_len L HL m Hle) as Hv. pose proof (starts_bound _ _ Hc Hs) as Hlen.
  destruct (encode_head_read c 5 _ _ Hc ltac:(lia) Hv Hs) as (b & Hb & E & _ & _ & _ & _ & Hr).
  rewrite Hb. cbn -[encode_major flat_map]. unfold encode_major. rewrite E, Hr.
  cbn -[encode_head flat_map sort_entries].
  rewrite (proj2 (Z.leb_le (len m) usize_max)) by apply Hv.
  cbn -[encode_head flat_map sort_entries]. apply starts_app in Hs as [Hs1 Hs2]; [|done].
  rewrite to_nat_len, read_entries_spec; [|done|by apply skip_ok|done].
  destruct (forallb distinct_entry m); [|done]. cbn -[encode_head flat_map sort_entries].
  rewrite has_duplicate_key_spec, negb_involutive.
  destruct (bool_decide (NoDup (entry_key ∘ canon_entry <$> m))) eqn:En; [|done].
  apply bool_decide_eq_true in En. rewrite sort_entries_spec by done.
  cbn -[encode_head flat_map append_entries]. rewrite encode_head_Ok.
  cbn -[flat_map append_entries]. rewrite append_entries_Ok; [cbn; by rewrite skip_skip|].
  rewrite !length_app in Hx. rewrite len_app in Hlen. unfold len in *. lia.
Qed.

Lemma encode_tag encode c n i :
  cursor_ok c → in_u64 n → encodes encode i → starts c (enc (Tag n i)) →
  ('(b, c) ← read_byte c; encode_major encode b c) =
    if distinct (Tag n i) then Ok (enc (canon (Tag n i)), skip c (enc (Tag n i)))
    else Err (Fault DuplicateKey).
Proof.
  intros Hc Hn Hi Hs. cbn [enc distinct canon] in *. pose proof (starts_bound _ _ Hc Hs) as Hlen.
  destruct (encode_head_read c 6 _ _ Hc ltac:(lia) Hn Hs) as (b & Hb & E & _ & _ & _ & _ & Hr).
  rewrite Hb. cbn -[encode_major]. unfold encode_major. rewrite E, Hr.
  cbn -[encode_head append]. rewrite encode_head_Ok. cbn -[append].
  apply starts_app in Hs as [Hs1 Hs2]; [|done].
  rewrite (Hi _ (skip_ok _ _ Hc Hs1) Hs2). destruct (distinct i); [|done]. cbn -[append].
  rewrite len_app in Hlen.
  rewrite append_Ok; [by rewrite skip_skip|]. unfold len in *. rewrite length_enc_canon. lia.
Qed.

Lemma encode_item_spec i fuel d :
  fits nfc L false d i → (length (enc i) ≤ fuel)%nat → encodes (encode_item fuel) i.
Proof.
  revert fuel d. induction i using item_nested_ind; intros fuel d Hf Hlen c Hc Hs;
    destruct (fuel_S _ _ Hlen) as [f ->]; cbn [encode_item].
  - apply encode_leaf; [done|by left|done..].
  - apply encode_leaf; [done|by right|done..].
  - apply encode_string; [done|by left|done..].
  - apply encode_string; [done|by right|by destruct Hf|done].
  - apply fits_array in Hf as (Hle & _ & Hf). apply encode_array; [done..| |done].
    rewrite Forall_forall in *. intros x Hx. apply (H x Hx f (d + 1)); [by apply Hf|].
    apply (nested_length 4 l) in Hx. cbn in Hlen. lia.
  - apply fits_map in Hf as (Hle & _ & Hf & _). apply encode_map; [done..| |done].
    rewrite enc_map in Hlen. rewrite Forall_forall in *. intros x Hx.
    destruct (H x Hx) as [Hk Hv], (Hf x Hx). apply (nested_entry_length 5 m) in Hx.
    split; [apply (Hk f (d + 1))|apply (Hv f (d + 1))]; (done || lia).
  - destruct Hf as (Hn & _ & Hf). apply encode_tag; [done..| |done].
    apply (IHi f (d + 1)); [done|]. cbn in Hlen. rewrite length_app in Hlen.
    pose proof (head_length 6 n). lia.
  - by apply encode_simple.
Qed.
End Encode.
