(* ===== verification/CborTheorems.v ===== *)
(** * CborTheorems: the entry points of [ea-cbor]

    What [validate], [canonical_reencode] and [to_deterministic_vec] promise:
    termination, the accepted language, canonicity and independence of the order
    of map entries. *)

From S2P Require Import Prelude Utf8 Cbor CborSpec CborCanon.

(** ** Enough fuel *)

(** A run that does not stop for lack of fuel. *)
Definition settled {A} (r : result fault A) : Prop := r ≠ Err OutOfFuel.

Lemma settled_bind {A B} (m : result fault A) (k : A → result fault B) :
  settled m → (∀ a, m = Ok a → settled (k a)) → settled (m ≫= k).
Proof. unfold settled. destruct m; cbn; [by eauto|congruence]. Qed.

Lemma settled_Ok {A} (a : A) : settled (Ok a). Proof. done. Qed.
Lemma settled_Fault {A} e : settled (@Err fault A (Fault e)). Proof. done. Qed.
Lemma settled_ensure b e : settled (ensure b (Fault e)). Proof. by destruct b. Qed.
Lemma settled_ok_or {A} e (o : option A) : settled (ok_or (Fault e) o). Proof. by destruct o. Qed.

Create HintDb settled discriminated.
#[export] Hint Resolve settled_Ok settled_Fault settled_ensure settled_ok_or : settled.

(** Walks through a straight-line program of the error monad. *)
Ltac settle :=
  repeat first
    [ solve [eauto 2 with settled]
    | apply settled_bind; [|intros ? ?]
    | case_match
    | progress cbn ].

Lemma settled_read_byte c : settled (read_byte c).
Proof. unfold read_byte. settle. Qed.
Lemma settled_read_slice n c : settled (read_slice n c).
Proof. unfold read_slice. settle. Qed.
#[export] Hint Resolve settled_read_byte settled_read_slice : settled.
Lemma settled_read_uint n c : settled (read_uint n c).
Proof. unfold read_uint. settle. Qed.
#[export] Hint Resolve settled_read_uint : settled.
Lemma settled_scan_read_argument a c : settled (scan_read_argument a c).
Proof. unfold scan_read_argument. settle. Qed.
#[export] Hint Resolve settled_scan_read_argument : settled.
Lemma settled_read_length a c : settled (read_length a c).
Proof. unfold read_length. settle. Qed.
Lemma settled_scan_simple a c : settled (scan_simple a c).
Proof. unfold scan_simple. settle. Qed.
Lemma settled_check_container_depth s d : settled (check_container_depth s d).
Proof. unfold check_container_depth. settle. Qed.
Lemma settled_check_text nfc p : settled (check_text nfc p).
Proof. unfold check_text. settle. Qed.
#[export] Hint Resolve settled_read_length settled_scan_simple
  settled_check_container_depth settled_check_text : settled.
Lemma settled_on_cursor {A} (f : Cursor → result fault (A * Cursor)) s :
  settled (f (cursor s)) → settled (on_cursor f s).
Proof. intros H. unfold on_cursor. settle. Qed.
#[export] Hint Resolve settled_on_cursor : settled.
Lemma settled_read_container_length a s : settled (read_container_length a s).
Proof. unfold read_container_length. settle. Qed.
#[export] Hint Resolve settled_read_container_length : settled.

Section Termination.
Context (nfc : list Z → list Z) (L : ParserLimits) (strict : bool) (HL : limits_ok L).

Definition unread (s : Scanner) : nat := length (rest (cursor s)).

(** A reader that settles with at most [n] unread bytes, and reads items. *)
Definition settles (n : nat) (body : Scanner → result fault Scanner) : Prop :=
  ∀ s, scanner_ok L strict s → (unread s ≤ n)%nat → settled (body s).

Lemma unread_advance s bs k :
  scanner_ok L strict s → starts (cursor s) bs →
  (unread (advance s bs k) + length bs = unread s)%nat.
Proof.
  intros (Hc & _) [r Hr]. unfold unread. cbn. rewrite (rest_skip _ _ _ Hc Hr), Hr, length_app. lia.
Qed.

Lemma reads_progress body P s s' :
  reads L strict body P → scanner_ok L strict s → body s = Ok s' →
  scanner_ok L strict s' ∧ (unread s' < unread s)%nat.
Proof.
  intros Hr Hs H. destruct (Hr s s' Hs H) as (i & _ & Ha & ->).
  split; [by apply advance_item_ok|]. pose proof (enc_length i).
  pose proof (unread_advance s (enc i) (count i) Hs (proj1 Ha)). lia.
Qed.

Lemma settles_elements n body P k : reads L strict body P → settles n body → settles n (scan_elements body k).
Proof.
  intros Hr Hb. induction k as [|k IH]; intros s Hs Hn; cbn; [done|].
  apply settled_bind; [by apply Hb|]. intros s' H.
  destruct (reads_progress body P s s' Hr Hs H). apply IH; [done|lia].
Qed.

Lemma settles_entries n body P k p :
  reads L strict body P → settles n body → settles n (scan_entries body k p).
Proof.
  intros Hr Hb. revert p. induction k as [|k IH]; intros p s Hs Hn; cbn; [done|].
  apply settled_bind; [by apply Hb|]. intros s' H.
  destruct (reads_progress body P s s' Hr Hs H). apply settled_bind; [settle|]. intros p' _.
  apply settled_bind; [apply Hb; [done|lia]|]. intros s'' H'.
  destruct (reads_progress body P s' s'' Hr ltac:(done) H'). apply IH; [done|lia].
Qed.

Lemma advance_byte s b :
  scanner_ok L strict s → affords L s [b] 1 →
  scanner_ok L strict (advance s [b] 1) ∧ (unread (advance s [b] 1) < unread s)%nat.
Proof.
  intros Hs Ha. split; [apply advance_ok; [done|lia|done]|].
  pose proof (unread_advance s [b] 1 Hs (proj1 Ha)). cbn in *. lia.
Qed.

(** Every step after the initial byte leaves a scanner with fewer unread bytes. *)
Lemma settles_major n d b s :
  (∀ d, settles n (scan_item nfc (S n) d)) →
  scanner_ok L strict s → affords L s [b] 1 → (unread s ≤ S n)%nat →
  settled (scan_major nfc (scan_item nfc (S n)) d b (advance s [b] 1)).
Proof.
  intros IH Hs Hb Hn. unfold scan_major. pose proof (scan_item_reads nfc L strict HL (S n)) as Hr.
  assert (∀ m v, affords L s (head_bytes m v) 1 →
    scanner_ok L strict (advance s (head_bytes m v) 1) ∧
    (unread (advance s (head_bytes m v) 1) ≤ n)%nat) as Hadv.
  { intros m v Ha. split; [apply advance_ok; [done|lia|done]|].
    pose proof (unread_advance s _ 1 Hs (proj1 Ha)). pose proof (head_length m v). lia. }
  remember (scan_item nfc (S n)) as scan eqn:Es. clear Es.
  destruct (Z.shiftr (u8 b) 5) as [|p|p] eqn:E; [settle| |settle].
  destruct p as [[[]|[]|]|[[]|[]|]|]; settle.
  all: match goal with
  | H : read_container_length _ _ = Ok _ |- _ =>
      destruct (container_reads L strict _ _ _ _ Hs Hb H) as (_ & _ & Ha & ->);
      apply Hadv in Ha as [? ?];
      by first [eapply settles_elements | eapply settles_entries]; eauto
  | H : on_cursor _ _ = Ok _ |- _ =>
      eapply head_reads in H as (v & _ & Ha & ->); [|apply scan_read_argument_reads|done..];
      apply Hadv in Ha as [? ?]; by apply IH
  end.
Qed.

Lemma settled_scan_item fuel d s :
  scanner_ok L strict s →
  (∀ b, affords L s [b] 1 → settled (scan_major nfc (scan_item nfc fuel) d b (advance s [b] 1))) →
  settled (scan_item nfc (S fuel) d s).
Proof.
  intros (Hc & Ht & Hl & He) Hb. cbn [scan_item]. rewrite Hl.
  apply settled_bind; [settle|]. intros _ _. apply settled_bind; [settle|].
  intros total Htot. apply ok_or_Ok, checked_add_Some in Htot as [-> _].
  apply settled_bind; [settle|]. intros ? Hle. apply ensure_Ok in Hle. zbool. cbn in Hle.
  rewrite Hl in Hle. apply settled_bind; [settle|]. intros [b s1] H.
  apply bind_Ok in H as ([b' c] & H & [= -> <-]). apply read_byte_Ok in H as [Hs ->]; [|done].
  exact (Hb b (conj Hs Hle)).
Qed.

(** One more unit of fuel than there are unread bytes is enough. *)
Lemma scan_item_settles n d : settles n (scan_item nfc (S n) d).
Proof.
  revert d. induction n as [|n IH]; intros d s Hs Hn; apply settled_scan_item; try done; intros b Hb.
  - destruct (advance_byte s b Hs Hb). lia.
  - by apply settles_major.
Qed.
End Termination.

(** ** The entry points on trees *)

Section Entry.
Context (nfc : list Z → list Z) (L : ParserLimits) (HL : limits_ok L).

(** Every slice fits into the address space. *)
Definition is_slice (i : list byte) : Prop := len i ≤ usize_max.

Lemma new_cursor_ok i : is_slice i → cursor_ok {| input := i; position := 0 |}.
Proof. intros Hi. split; cbn; [pose proof (len_nonneg i); lia|done]. Qed.

Lemma new_scanner_ok strict i : is_slice i → scanner_ok L strict (Scanner_new i L strict).
Proof.
  intros Hi. split; [by apply new_cursor_ok|]. destruct HL as (_ & _ & ? & _). split; [cbn; lia|done].
Qed.

Lemma new_starts i t r :
  i = enc t ++ r → starts {| input := i; position := 0 |} (enc t).
Proof. intros ->. by exists r. Qed.

Lemma scan_new strict i s :
  is_slice i →
  scan_item nfc (fuel_for i) 0 (Scanner_new i L strict) = Ok s ↔
  ∃ t r, i = enc t ++ r ∧ accepted nfc L strict t ∧
    s = advance (Scanner_new i L strict) (enc t) (count t).
Proof.
  intros Hi. pose proof (new_scanner_ok strict i Hi) as Hs. split.
  - intros H. unfold fuel_for in H. pose proof H as Hbud.
    apply (scan_item_S nfc L strict HL) in Hbud as [Hbud _]; [|done].
    apply (scan_item_reads nfc L strict HL) in H as (t & Hf & [[r Hr] Hc] & ->); [|done].
    exists t, r. cbn in Hr, Hc. by split.
  - intros (t & r & Hr & (Hbud & Hf & Hc) & ->).
    apply (scan_item_takes nfc L strict HL Hbud); [done| |done|].
    + unfold fuel_for. rewrite Hr, length_app. lia.
    + split; [by apply (new_starts i t r)|done].
Qed.

Lemma scan_new_enc strict t :
  is_slice (enc t) → accepted nfc L strict t →
  scan_item nfc (fuel_for (enc t)) 0 (Scanner_new (enc t) L strict) =
    Ok (advance (Scanner_new (enc t) L strict) (enc t) (count t)).
Proof. intros. apply scan_new; [done|]. exists t, []. by rewrite app_nil_r. Qed.

Lemma scan_relaxed_Ok i :
  is_slice i → scan_relaxed nfc i L = Ok tt ↔ ∃ t, i = enc t ∧ accepted nfc L false t.
Proof.
  intros Hi. unfold scan_relaxed. split.
  - intros H. apply bind_Ok in H as (s & H & He). apply scan_new in H as (t & r & -> & Ht & ->); [|done].
    apply ensure_Ok in He. zbool. cbn in He. rewrite len_app in He.
    exists t. split; [|done]. destruct r; [by rewrite app_nil_r|]. rewrite len_cons in He.
    pose proof (len_nonneg r). lia.
  - intros (t & -> & Ht).
    rewrite scan_new_enc by done.
    cbn. by rewrite Z.eqb_refl.
Qed.

(** On the encoding of an accepted tree the re-encoder computes its canonical
    form or reports the duplicate key. *)
Lemma canonical_reencode_enc t :
  is_slice (enc t) → accepted nfc L false t →
  canonical_reencode nfc (enc t) L =
    if distinct t then Ok (enc (canon t)) else Err (Fault DuplicateKey).
Proof.
  intros Hi Ht. unfold canonical_reencode.
  rewrite (proj2 (scan_relaxed_Ok (enc t) Hi)) by eauto. cbn -[encode_item].
  destruct Ht as (_ & Hf & _).
  rewrite (encode_item_spec nfc L HL t (fuel_for (enc t)) 0 Hf); [|unfold fuel_for; lia|by apply new_cursor_ok|].
  - destruct (distinct t); [|done]. cbn. by rewrite Z.eqb_refl.
  - apply (new_starts _ t []). by rewrite app_nil_r.
Qed.

Lemma accepted_relax t : accepted nfc L true t → accepted nfc L false t.
Proof. intros (? & ? & ?). split; [done|]. split; [by eapply fits_relax|done]. Qed.

Lemma accepted_canon t :
  accepted nfc L false t → distinct t = true → accepted nfc L true (canon t).
Proof.
  intros (? & ? & ?) Hd. split; [done|]. split; [by apply fits_canon|]. by rewrite count_canon.
Qed.

(** A strictly accepted encoding is reproduced byte for byte. *)
Lemma canonical_reencode_strict t :
  is_slice (enc t) → accepted nfc L true t → canonical_reencode nfc (enc t) L = Ok (enc t).
Proof.
  intros Hi Ht. rewrite canonical_reencode_enc by (done || by apply accepted_relax).
  destruct Ht as (_ & Hf & _). by destruct (canon_id nfc L 0 t Hf) as [-> ->].
Qed.

Lemma slice_get_0 (i : list byte) : slice_get i 0 (len i) = Some i.
Proof.
  unfold slice_get. pose proof (len_nonneg i). rewrite decide_True by lia.
  f_equal. rewrite take_ge; [done|]. unfold len. rewrite length_drop. lia.
Qed.

Lemma slice_get_prefix (a r : list byte) : slice_get (a ++ r) 0 (len a) = Some a.
Proof.
  unfold slice_get. pose proof (len_nonneg a). pose proof (len_nonneg r).
  rewrite decide_True by (rewrite len_app; lia). f_equal. cbn.
  replace (Z.to_nat (len a - 0)) with (length a) by (unfold len; lia). apply take_app_length.
Qed.

(** The second pass of [validate_one] changes nothing. *)
Lemma validate_scan i :
  is_slice i →
  validate nfc i L =
    (s ← scan_item nfc (fuel_for i) 0 (Scanner_new i L true);
     ensure (position (cursor s) =? len i) (Fault TrailingBytes)).
Proof.
  intros Hi. unfold validate, validate_one. cbn [BoundedDecoder_new bd_position bd_input bd_limits].
  rewrite slice_get_0. cbn -[scan_item fuel_for canonical_reencode].
  destruct (scan_item nfc (fuel_for i) 0 (Scanner_new i L true)) as [s|e] eqn:E; [|done].
  cbn -[canonical_reencode]. apply scan_new in E as (t & r & -> & Ht & ->); [|done].
  cbn -[canonical_reencode slice_get]. pose proof (len_nonneg r). pose proof (len_nonneg (enc t)).
  unfold is_slice in Hi. rewrite len_app in Hi. unfold checked_add.
  rewrite decide_True by lia. cbn -[canonical_reencode slice_get]. rewrite slice_get_prefix.
  cbn -[canonical_reencode]. rewrite canonical_reencode_strict; [|unfold is_slice; lia|done].
  cbn. by rewrite decide_True.
Qed.
End Entry.

Lemma validate_Ok nfc L i :
  limits_ok L → is_slice i →
  validate nfc i L = Ok tt ↔ ∃ t, i = enc t ∧ accepted nfc L true t.
Proof.
  intros HL Hi. rewrite validate_scan by done. split.
  - intros H. apply bind_Ok in H as (s & H & He). apply scan_new in H as (t & r & -> & Ht & ->); [|done..].
    apply ensure_Ok in He. zbool. cbn in He. rewrite len_app in He.
    exists t. split; [|done]. destruct r; [by rewrite app_nil_r|]. rewrite len_cons in He.
    pose proof (len_nonneg r). lia.
  - intros (t & -> & Ht).
    rewrite scan_new_enc by done.
    cbn. by rewrite Z.eqb_refl.
Qed.

(** C5. [validate] accepts a byte string exactly if it is the
    encoding of one CBOR tree that keeps every limit and whose maps are ordered
    strictly by the bytes of their keys. *)
Theorem validate_accepts_iff nfc L i :
  limits_ok L → is_slice i →
  validate nfc i L = Ok tt ↔ ∃ t, i = enc t ∧ accepted nfc L true t.
Proof. apply validate_Ok. Qed.

Lemma V1_ok : limits_ok V1.
Proof. unfold limits_ok, usize_max, u64_max. cbn. lia. Qed.

(** A map with two entries, out of order and in order. *)
Definition sample : item := Map [(Text [x61], Array [UInt 1; NInt 0]); (UInt 1, UInt 24)].
Definition sample_sorted : item := Map [(UInt 1, UInt 24); (Text [x61], Array [UInt 1; NInt 0])].

Lemma validate_accepts_iff_witness : ∃ t, enc sample_sorted = enc t ∧ accepted id V1 true t.
Proof.
  apply (validate_accepts_iff id V1 (enc sample_sorted) V1_ok); [vm_compute; discriminate|].
  vm_compute. reflexivity.
Defined.

(** The canonical re-encoding that [validate_one] runs after
    its scan never rejects anything: validating is the strict scan and the check
    for trailing bytes, with the same error on every input. *)
Theorem validate_second_pass_redundant nfc L i :
  limits_ok L → is_slice i →
  validate nfc i L =
    (s ← scan_item nfc (fuel_for i) 0 (Scanner_new i L true);
     ensure (position (cursor s) =? len i) (Fault TrailingBytes)).
Proof. intros. by apply validate_scan. Qed.

Lemma validate_second_pass_redundant_witness :
  validate id (enc sample) V1 = Err (Fault MapOrder).
Proof.
  rewrite (validate_second_pass_redundant id V1 (enc sample) V1_ok); [|vm_compute; discriminate].
  vm_compute. reflexivity.
Defined.

(** C6. [canonical_reencode] succeeds exactly on the encoding of a
    tree within the limits in which no map has two keys with the same canonical
    form, and then returns the tree's canonical form. *)
Theorem canonical_reencode_iff nfc L i out :
  limits_ok L → is_slice i →
  canonical_reencode nfc i L = Ok out ↔
  ∃ t, i = enc t ∧ accepted nfc L false t ∧ distinct t = true ∧ out = enc (canon t).
Proof.
  intros HL Hi. split.
  - intros H. assert (scan_relaxed nfc i L = Ok tt) as Hs.
    { unfold canonical_reencode in H. by apply bind_Ok in H as ([] & ? & _). }
    apply scan_relaxed_Ok in Hs as (t & -> & Ht); [|done..].
    rewrite canonical_reencode_enc in H by done. exists t. destruct (distinct t); [|done].
    by simplify_eq.
  - intros (t & -> & Ht & Hd & ->). rewrite canonical_reencode_enc by done. by rewrite Hd.
Qed.

Lemma canonical_reencode_iff_witness :
  ∃ t, enc sample = enc t ∧ accepted id V1 false t ∧ distinct t = true ∧
    enc sample_sorted = enc (canon t).
Proof.
  apply (canonical_reencode_iff id V1 (enc sample) (enc sample_sorted) V1_ok);
    [vm_compute; discriminate|]. vm_compute. reflexivity.
Defined.

(** What [canonical_reencode] returns passes [validate], has
    the length of its input, and is a fixed point of the re-encoding. *)
Theorem canonical_reencode_canonical nfc L i out :
  limits_ok L → is_slice i → canonical_reencode nfc i L = Ok out →
  validate nfc out L = Ok tt ∧ canonical_reencode nfc out L = Ok out ∧ len out = len i.
Proof.
  intros HL Hi H. assert (scan_relaxed nfc i L = Ok tt) as Hs.
  { unfold canonical_reencode in H. by apply bind_Ok in H as ([] & ? & _). }
  apply scan_relaxed_Ok in Hs as (t & -> & Ht); [|done..].
  rewrite canonical_reencode_enc in H by done. destruct (distinct t) eqn:Hd; [|done]. simplify_eq.
  pose proof (accepted_canon nfc L t Ht Hd) as Hc.
  assert (len (enc (canon t)) = len (enc t)) as Hl by (unfold len; by rewrite length_enc_canon).
  assert (is_slice (enc (canon t))) as Hi' by (unfold is_slice in *; lia).
  split; [|split; [by apply canonical_reencode_strict|done]]. rewrite validate_scan by done.
  rewrite scan_new_enc by done.
  cbn. by rewrite Z.eqb_refl.
Qed.

Lemma canonical_reencode_canonical_witness :
  validate id (enc sample_sorted) V1 = Ok tt ∧
  canonical_reencode id (enc sample_sorted) V1 = Ok (enc sample_sorted) ∧
  len (enc sample_sorted) = len (enc sample).
Proof.
  apply (canonical_reencode_canonical id V1 (enc sample) (enc sample_sorted) V1_ok);
    [vm_compute; discriminate|]. vm_compute. reflexivity.
Defined.

(** A sub-slice of a slice is one. *)
Lemma slice_get_is_slice l a b r : is_slice l → slice_get l a b = Some r → is_slice r.
Proof.
  unfold slice_get, is_slice, len. intros Hl H. case_decide; [|done]. simplify_eq.
  rewrite length_take, length_drop. lia.
Qed.

Lemma scan_new_settled nfc L strict i :
  limits_ok L → is_slice i → settled (scan_item nfc (fuel_for i) 0 (Scanner_new i L strict)).
Proof.
  intros HL Hi. apply (scan_item_settles nfc L strict HL); [by apply new_scanner_ok|].
  unfold unread, rest. cbn. by rewrite Nat.sub_0_r || done.
Qed.

Lemma scan_relaxed_settled nfc L i : limits_ok L → is_slice i → settled (scan_relaxed nfc i L).
Proof.
  intros. apply settled_bind; [by apply scan_new_settled|intros; apply settled_ensure].
Qed.

Lemma canonical_reencode_settled nfc L i :
  limits_ok L → is_slice i → settled (canonical_reencode nfc i L).
Proof.
  intros HL Hi. destruct (scan_relaxed nfc i L) as [[]|e] eqn:E.
  - apply scan_relaxed_Ok in E as (t & -> & Ht); [|done..].
    rewrite canonical_reencode_enc by done. by destruct (distinct t).
  - unfold canonical_reencode. rewrite E. intros [= ->]. by apply (scan_relaxed_settled nfc L i HL Hi).
Qed.

(** A decoder settles wherever it stands, past the end of its input too. *)
Lemma validate_one_settled nfc d :
  limits_ok (bd_limits d) → is_slice (bd_input d) → settled (validate_one nfc d).
Proof.
  intros HL Hi. apply settled_bind; [apply settled_ok_or|]. intros remaining Hr.
  apply ok_or_Ok, slice_get_is_slice in Hr; [|done].
  apply settled_bind; [by apply scan_new_settled|]. intros scanner _.
  apply settled_bind; [apply settled_ok_or|]. intros end_ _.
  apply settled_bind; [apply settled_ok_or|]. intros exact_ He.
  apply ok_or_Ok, slice_get_is_slice in He; [|done].
  apply settled_bind; [by apply canonical_reencode_settled|]. intros canonical _.
  by case_decide.
Qed.

(** C7. The fuel is enough on every input: no public operation of the crate stops
    for lack of it, so each returns a value or one of its errors. [validate_one]
    does so at every position of its decoder, also after earlier items and past
    the end, and [to_deterministic_vec] for whatever the upstream encoder wrote. *)
Theorem entry_points_terminate nfc L i :
  limits_ok L → is_slice i →
  settled (validate nfc i L) ∧ settled (canonical_reencode nfc i L) ∧
  settled (scan_relaxed nfc i L) ∧
  (∀ p, settled (validate_one nfc {| bd_input := i; bd_limits := L; bd_position := p |})) ∧
  settled (to_deterministic_vec nfc (Some i)) ∧ settled (to_deterministic_vec nfc None).
Proof.
  intros HL Hi. split_and!.
  - apply settled_bind; [by apply validate_one_settled|intros; apply settled_ensure].
  - by apply canonical_reencode_settled.
  - by apply scan_relaxed_settled.
  - intros p. by apply validate_one_settled.
  - apply settled_bind; [apply settled_ok_or|]. intros ? [= <-].
    apply canonical_reencode_settled; [apply V1_ok|done].
  - apply settled_Fault.
Qed.

Lemma entry_points_terminate_witness :
  settled (validate id [x82; x01] V1) ∧ settled (canonical_reencode id [x82; x01] V1) ∧
  settled (scan_relaxed id [x82; x01] V1) ∧
  settled (validate_one id {| bd_input := [x82; x01]; bd_limits := V1; bd_position := 1 |}).
Proof.
  destruct (entry_points_terminate id V1 [x82; x01] V1_ok) as (? & ? & ? & H & _);
    [vm_compute; discriminate|]. by split_and!.
Defined.

(** ** Order of map entries *)

(** Two trees that differ in the order of map entries only, at any depth. *)
#[warnings="-register-all"]
Inductive shuffle : item → item → Prop :=
| shuffle_refl i : shuffle i i
| shuffle_array l l' : Forall2 shuffle l l' → shuffle (Array l) (Array l')
| shuffle_map m m1 m' :
    Forall2 (λ e e', shuffle e.1 e'.1 ∧ shuffle e.2 e'.2) m m1 → m1 ≡ₚ m' →
    shuffle (Map m) (Map m')
| shuffle_tag n i i' : shuffle i i' → shuffle (Tag n i) (Tag n i').

(** [Forall2] from an induction hypothesis for the left list. *)
Lemma Forall2_pointwise {A} (R S : A → A → Prop) l l' :
  Forall (λ x, ∀ y, R x y → S x y) l → Forall2 R l l' → Forall2 S l l'.
Proof. intros Hl H. induction H; [done|]. apply Forall_cons in Hl as [? ?]. constructor; auto. Qed.

Lemma Forall2_fmap_eq {A B} (f : A → B) l l' : Forall2 (λ x y, f x = f y) l l' → f <$> l = f <$> l'.
Proof. induction 1; cbn; [done|]. by f_equal. Qed.

Lemma Forall2_forallb {A} (f : A → bool) l l' :
  Forall2 (λ x y, f x = f y) l l' → forallb f l = forallb f l'.
Proof. induction 1; cbn; [done|]. by f_equal. Qed.

Lemma forallb_perm {A} (f : A → bool) l l' : l ≡ₚ l' → forallb f l = forallb f l'.
Proof. induction 1; cbn; [done|by f_equal|by rewrite !andb_assoc, (andb_comm (f _))|congruence]. Qed.

Definition same_canon (t t' : item) : Prop :=
  distinct t = distinct t' ∧ (distinct t = true → canon t = canon t').

Lemma canon_entries_same m m1 :
  Forall2 (λ e e', same_canon e.1 e'.1 ∧ same_canon e.2 e'.2) m m1 →
  forallb distinct_entry m = forallb distinct_entry m1 ∧
  (forallb distinct_entry m = true → canon_entry <$> m = canon_entry <$> m1).
Proof.
  induction 1 as [|e e' m m1 [[D1 C1] [D2 C2]] Hm [IH1 IH2]]; [done|]. cbn.
  unfold distinct_entry at 1 3 5. rewrite <- D1, <- D2, IH1. split; [done|].
  rewrite !andb_true_iff. intros [[d1 d2] d3]. rewrite <- IH1 in d3. f_equal; [|by apply IH2].
  unfold canon_entry. by rewrite (C1 d1), (C2 d2).
Qed.

Lemma shuffle_canon t t' : shuffle t t' → same_canon t t'.
Proof.
  revert t'. induction t using item_nested_ind; intros t' H'; inversion H' as [i|l1 l2 Hl|m1 m2 m3 Hm Hp|n1 i1 i2 Hi]; subst; try done.
  - apply (Forall2_pointwise _ same_canon) in Hl; [|done]. split.
    + cbn. apply Forall2_forallb. eapply Forall2_impl; [exact Hl|]. by intros ?? [].
    + intros Hd. rewrite !canon_array. f_equal. cbn in Hd. apply forallb_Forall_bool in Hd.
      clear H H'. induction Hl as [|x y l l2 [_ Hx] Hl IH]; [done|]. apply Forall_cons in Hd as [? ?].
      cbn. rewrite (Hx ltac:(done)). f_equal. by apply IH.
  - assert (Forall2 (λ e e', same_canon e.1 e'.1 ∧ same_canon e.2 e'.2) m m2) as Hs.
    { eapply Forall2_pointwise; [|exact Hm]. eapply Forall_impl; [done|].
      intros e [H1 H2] e' [? ?]. auto. }
    apply canon_entries_same in Hs as [Hd Hc]. unfold same_canon.
    rewrite !distinct_map, <- (forallb_perm distinct_entry _ _ Hp), <- Hd, !canon_map.
    destruct (forallb distinct_entry m); [|done]. cbn [andb]. specialize (Hc eq_refl).
    assert (canon_entry <$> m ≡ₚ canon_entry <$> m3) as Hperm by (by rewrite Hc, Hp).
    rewrite !list_fmap_compose. rewrite bool_decide_eq_true. split.
    + apply bool_decide_ext. by rewrite Hperm.
    + intros Hn. f_equal. apply sort_by_key_proper; [done|]. by apply key_inj_NoDup.
  - destruct (IHt _ Hi) as [D C]. split; [done|]. cbn. intros Hd. by rewrite (C Hd).
Qed.

Lemma shuffle_count t t' : shuffle t t' → count t = count t'.
Proof.
  revert t'. induction t using item_nested_ind; intros t' H'; inversion H' as [i|l1 l2 Hl|m1 m2 m3 Hm Hp|n1 i1 i2 Hi]; subst; try done.
  - cbn. f_equal. apply (Forall2_pointwise _ (λ x y, count x = count y)) in Hl; [|done].
    clear -Hl. unfold sum_with. induction Hl; cbn; lia.
  - rewrite !count_map. f_equal. rewrite <- (sum_with_perm _ _ _ Hp).
    assert (Forall2 (λ e e', count_entry e = count_entry e') m m2) as Hs.
    { eapply Forall2_pointwise; [|exact Hm]. eapply Forall_impl; [done|].
      intros e [H1 H2] e' [? ?]. unfold count_entry. rewrite (H1 _ ltac:(done)), (H2 _ ltac:(done)). done. }
    clear -Hs. unfold sum_with. induction Hs; cbn; lia.
  - cbn. f_equal. auto.
Qed.

Lemma Forall2_len {A} (R : A → A → Prop) l l' : Forall2 R l l' → len l = len l'.
Proof. intros H%Forall2_length. unfold len. by rewrite H. Qed.

Lemma shuffle_fits nfc L t t' d : shuffle t t' → fits nfc L false d t → fits nfc L false d t'.
Proof.
  revert t' d. induction t using item_nested_ind; intros t' d H'; inversion H' as [i|l1 l2 Hl|m1 m2 m3 Hm Hp|n1 i1 i2 Hi]; subst; try done.
  - rewrite !fits_array, (Forall2_len _ _ _ Hl). intros (Hle & ? & Hf). split; [done|]. split; [done|].
    clear H' Hle. induction Hl as [|x y l l2 Hx Hl IH]; [done|].
    apply Forall_cons in Hf as [? ?], H as [? ?]. constructor; [auto|].
    by apply IH.
  - rewrite !fits_map. rewrite (Forall2_len _ _ _ Hm). intros (Hle & ? & Hf & _).
    assert (len m2 = len m3) as E by (unfold len; by rewrite Hp). rewrite <- E.
    split; [done|]. split; [done|]. split; [|done]. rewrite <- Hp.
    clear H' Hle E Hp m3. induction Hm as [|x y m m2 [Hx Hx'] Hm IH]; [done|].
    apply Forall_cons in Hf as [[? ?] ?], H as [[? ?] ?]. constructor; [split; auto|].
    by apply IH.
  - cbn. intros (? & ? & ?). auto.
Qed.

(** The order of map entries does not matter: trees that differ
    in it, at any depth, are re-encoded to the same bytes or rejected with the
    same error. *)
Theorem canonical_reencode_order_independent nfc L t t' :
  limits_ok L → is_slice (enc t) → is_slice (enc t') → accepted nfc L false t → shuffle t t' →
  canonical_reencode nfc (enc t') L = canonical_reencode nfc (enc t) L.
Proof.
  intros HL Hi Hi' Ht Hs. destruct (shuffle_canon t t' Hs) as [Hd Hc].
  rewrite !canonical_reencode_enc; [|done..|].
  - rewrite <- Hd. destruct (distinct t); [|done]. by rewrite Hc.
  - destruct Ht as (? & ? & ?). split; [done|]. split; [by eapply shuffle_fits|].
    by rewrite <- (shuffle_count t t' Hs).
Qed.

Lemma canonical_reencode_order_independent_witness :
  canonical_reencode id (enc sample) V1 = canonical_reencode id (enc sample_sorted) V1.
Proof.
  apply (canonical_reencode_order_independent id V1 sample_sorted sample V1_ok);
    [vm_compute; discriminate..| |].
  - split; [reflexivity|]. split; [|vm_compute; discriminate].
    unfold sample_sorted. cbn. unfold in_u64, u64_max, len. cbn.
    repeat split; try lia. exists [97]. split; reflexivity.
  - eapply (shuffle_map _ [(UInt 1, UInt 24); (Text [x61], Array [UInt 1; NInt 0])]).
    + repeat constructor.
    + apply Permutation_swap.
Defined.

(** ** Unique decoding *)

Lemma arg_split_inj v v' r r' :
  in_u64 v → in_u64 v' → (arg_split v).1 = (arg_split v').1 →
  (arg_split v).2 ++ r = (arg_split v').2 ++ r' → v = v' ∧ r = r'.
Proof.
  intros Hv Hv' Ha Hb. destruct (arg_split v) as [a bs] eqn:E, (arg_split v') as [a' bs'] eqn:E'.
  cbn in *. subst a'. apply arg_split_cases in E; [|done]. apply arg_split_cases in E'; [|done].
  unfold in_u64, u8_max, u16_max, u32_max in *.
  assert (∀ n : nat, (n ≤ 8)%nat → bs = to_be_bytes n v → bs' = to_be_bytes n v' →
    0 ≤ v < 2 ^ (8 * Z.of_nat n) → 0 ≤ v' < 2 ^ (8 * Z.of_nat n) → v = v' ∧ r = r') as Hbe.
  { intros n Hn -> -> Hr Hr'. apply app_inj_1 in Hb as [Hb ->]; [|by rewrite !length_to_be_bytes].
    split; [|done]. set (w := to_be_bytes n v) in *.
    assert (length w = n) as Hl by apply length_to_be_bytes.
    transitivity (foldl shift_in 0 w); [symmetry|]; apply be_bytes_iff; rewrite ?Hl; try done;
      unfold len; by rewrite Hl. }
  destruct E as [(? & -> & ->)|[(-> & ? & ->)|[(-> & ? & ->)|[(-> & ? & ->)|(-> & ? & ->)]]]],
    E' as [(? & ? & ->)|[(? & ? & ->)|[(? & ? & ->)|[(? & ? & ->)|(? & ? & ->)]]]]; try lia.
  - split; [lia|done].
  - apply (Hbe 1%nat); (done || lia).
  - apply (Hbe 2%nat); (done || lia).
  - apply (Hbe 4%nat); (done || lia).
  - apply (Hbe 8%nat); (done || lia).
Qed.

Lemma head_bytes_inj m v m' v' r r' :
  0 ≤ m < 8 → 0 ≤ m' < 8 → in_u64 v → in_u64 v' →
  head_bytes m v ++ r = head_bytes m' v' ++ r' → m = m' ∧ v = v' ∧ r = r'.
Proof.
  intros Hm Hm' Hv Hv' H. rewrite !head_bytes_split in H. cbn in H. injection H as Hb H.
  pose proof (arg_split_range v Hv). pose proof (arg_split_range v' Hv').
  destruct (initial_join m (arg_split v).1 Hm ltac:(lia)) as [E1 E2].
  destruct (initial_join m' (arg_split v').1 Hm' ltac:(lia)) as [E1' E2'].
  rewrite Hb, E1' in E1. rewrite Hb, E2' in E2.
  split; [done|]. by apply arg_split_inj.
Qed.

(** The head and the body of an encoding. *)
Definition item_major (t : item) : Z :=
  match t with
  | UInt _ => 0 | NInt _ => 1 | Bytes _ => 2 | Text _ => 3
  | Array _ => 4 | Map _ => 5 | Tag _ _ => 6 | Simple _ => 7
  end.
Definition item_argument (t : item) : Z :=
  match t with
  | UInt n | NInt n | Tag n _ | Simple n => n
  | Bytes p | Text p => len p
  | Array l => len l
  | Map m => len m
  end.
Definition item_body (t : item) : list byte :=
  match t with
  | UInt _ | NInt _ | Simple _ => []
  | Bytes p | Text p => p
  | Array l => flat_map enc l
  | Map m => flat_map enc_entry m
  | Tag _ i => enc i
  end.

Lemma enc_head_body t : enc t = head_bytes (item_major t) (item_argument t) ++ item_body t.
Proof. destruct t; cbn; rewrite ?app_nil_r, ?flat_map_entry; done. Qed.

Section Unique.
Context (nfc : list Z → list Z) (L : ParserLimits) (HL : limits_ok L).

Lemma item_argument_u64 d t : fits nfc L false d t → in_u64 (item_argument t).
Proof.
  destruct HL as (_ & ? & _ & ?). unfold in_u64, usize_max, u64_max in *.
  destruct t; cbn; intros; try pose proof (len_nonneg p); try pose proof (len_nonneg l);
    try pose proof (len_nonneg m); unfold in_u64, u64_max in *; naive_solver lia.
Qed.

(** No accepted encoding is a proper prefix of another, and each belongs to
    one tree. *)
Definition decodes (t : item) : Prop :=
  ∀ d d' t' r r', fits nfc L false d t → fits nfc L false d' t' →
    enc t ++ r = enc t' ++ r' → t = t' ∧ r = r'.

Lemma flat_map_decodes d d' l l' r r' :
  Forall decodes l → length l = length l' →
  Forall (fits nfc L false d) l → Forall (fits nfc L false d') l' →
  flat_map enc l ++ r = flat_map enc l' ++ r' → l = l' ∧ r = r'.
Proof.
  intros Hl. revert l'. induction Hl as [|x l Hx Hl IH]; intros [|y l'] Hlen Hf Hf' H;
    try discriminate; [done|]. apply Forall_cons in Hf as [? ?], Hf' as [? ?].
  cbn in H. rewrite <- !(assoc_L (++)) in H.
  destruct (Hx d d' y _ _ ltac:(done) ltac:(done) H) as [-> H'].
  destruct (IH l') as [-> ->]; [by injection Hlen|done..].
Qed.

Lemma flat_map_entry_decodes d d' m m' r r' :
  Forall (both decodes) m → length m = length m' →
  Forall (both (fits nfc L false d)) m → Forall (both (fits nfc L false d')) m' →
  flat_map enc_entry m ++ r = flat_map enc_entry m' ++ r' → m = m' ∧ r = r'.
Proof.
  intros Hl. revert m'. induction Hl as [|[k v] m [Hk Hv] Hl IH]; intros [|[k' v'] m'] Hlen Hf Hf' H;
    try discriminate; [done|]. apply Forall_cons in Hf as [[? ?] ?], Hf' as [[? ?] ?].
  cbn [flat_map] in H. unfold enc_entry at 1 3 in H. rewrite <- !(assoc_L (++)) in H.
  destruct (Hk d d' k' _ _ ltac:(done) ltac:(done) H) as [Ek E1]. cbn in Ek, E1.
  destruct (Hv d d' v' _ _ ltac:(done) ltac:(done) E1) as [Ev E2]. cbn in Ev. subst.
  destruct (IH m') as [-> ->]; [by injection Hlen|done..].
Qed.

Lemma enc_decodes t : decodes t.
Proof.
  induction t using item_nested_ind; intros d d' t' r r' Hf Hf' E;
    rewrite (enc_head_body t'), enc_head_body, <- !(assoc_L (++)) in E;
    apply head_bytes_inj in E as (Em & Ea & E);
    try (by destruct t'; cbn); try (by eapply item_argument_u64);
    destruct t'; try discriminate Em; cbn in Ea; cbn [item_body app] in E; subst; try done.
  - apply app_inj_1 in E as [-> ->]; [done|]. unfold len in Ea. lia.
  - apply app_inj_1 in E as [-> ->]; [done|]. unfold len in Ea. lia.
  - apply fits_array in Hf as (_ & _ & Hf), Hf' as (_ & _ & Hf').
    destruct (flat_map_decodes (d + 1) (d' + 1) l l0 r r') as [-> ->]; [done|unfold len in Ea; lia|done..].
  - apply fits_map in Hf as (_ & _ & Hf & _), Hf' as (_ & _ & Hf' & _).
    destruct (flat_map_entry_decodes (d + 1) (d' + 1) m m0 r r') as [-> ->]; [done|unfold len in Ea; lia|done..].
  - destruct Hf as (_ & _ & Hf), Hf' as (_ & _ & Hf').
    by destruct (IHt (d + 1) (d' + 1) t' r r' Hf Hf' E) as [-> ->].
Qed.
End Unique.

(** Limits that every tree within [L] keeps. *)
Definition relaxed (L : ParserLimits) : ParserLimits :=
  {| max_depth := max_depth L; max_container_items := usize_max;
     max_total_items := max_total_items L; max_text_or_bytes := max_text_or_bytes L |}.

Lemma relaxed_ok L : limits_ok L → limits_ok (relaxed L).
Proof. unfold limits_ok, relaxed. cbn. unfold usize_max, u64_max. lia. Qed.

Lemma fits_relaxed nfc L t : limits_ok L → ∀ d, fits nfc L false d t → fits nfc (relaxed L) false d t.
Proof.
  intros HL. pose proof HL as (_ & Hc & _).
  induction t using item_nested_ind; intros d; try done.
  - rewrite !fits_array. cbn. intros (? & ? & Hf). split_and!; [lia|done|].
    rewrite Forall_forall in *. eauto.
  - rewrite !fits_map. cbn. intros (? & ? & Hf & _). split_and!; [lia|done| |done].
    rewrite Forall_forall in *. intros e He. destruct (H e He), (Hf e He). split; eauto.
  - cbn. intros (? & ? & ?). eauto.
Qed.

(** A tree that exceeds a limit is not validated under another reading. *)
Lemma validate_enc nfc L t :
  limits_ok L → is_slice (enc t) → fits nfc (relaxed L) false 0 t →
  validate nfc (enc t) L = Ok tt ↔ accepted nfc L true t.
Proof.
  intros HL Hi Hf. rewrite validate_Ok by done. split; [|eauto].
  intros (t' & E & Ht'). apply (f_equal (λ l, l ++ [])) in E.
  assert (fits nfc (relaxed L) false 0 t') as Hf'.
  { apply fits_relaxed; [done|]. destruct Ht' as (_ & Hs & _). by eapply fits_relax. }
  by apply (enc_decodes nfc (relaxed L) (relaxed_ok L HL) t 0 0 t' [] [] Hf Hf') in E as [-> _].
Qed.

(** Decoding is unique and self-delimiting: if one accepted
    encoding starts another byte string that also starts with an accepted
    encoding, the trees are the same. In particular a validated byte string
    denotes one tree. *)
Theorem accepted_encoding_unique nfc L t t' r r' :
  limits_ok L → accepted nfc L false t → accepted nfc L false t' →
  enc t ++ r = enc t' ++ r' → t = t' ∧ r = r'.
Proof. intros HL (_ & Hf & _) (_ & Hf' & _). by apply (enc_decodes nfc L HL t 0 0). Qed.

Lemma accepted_encoding_unique_witness : UInt 300 = UInt 300 ∧ [x01] = [x01].
Proof.
  apply (accepted_encoding_unique id V1 (UInt 300) (UInt 300) [x01] [x01] V1_ok);
    [split; [reflexivity|]; split; [split; vm_compute; discriminate|vm_compute; discriminate]..|
     reflexivity].
Defined.
