(* ===== verification/Str.v ===== *)
(** * Str: string slices

    A Rust [&str] is its sequence of UTF-8 bytes. The operations of the standard
    library that the components use, with separators and patterns that are ASCII,
    so that searching bytes is searching characters. *)

From S2P Require Import Prelude.

Definition str := list byte.

(** A string literal. *)
Definition lit (s : string) : str := bytes_of_string s.
Coercion lit : string >-> str.

#[export] Instance byte_countable : Countable byte :=
  inj_countable Byte.to_N Byte.of_N Byte.of_to_N.

Definition slash : byte := x2f.
Definition backslash : byte := x5c.
Definition dot : byte := x2e.
Definition underscore : byte := x5f.

(** [str::split(sep)]: at least one segment. *)
Fixpoint split (sep : byte) (s : str) : list str :=
  match s with
  | [] => [[]]
  | b :: s =>
      if decide (b = sep) then [] :: split sep s
      else match split sep s with
           | seg :: segs => (b :: seg) :: segs
           | [] => [[b]]
           end
  end.

(** [str::split_once(sep)]. *)
Fixpoint split_once (sep : byte) (s : str) : option (str * str) :=
  match s with
  | [] => None
  | b :: s =>
      if decide (b = sep) then Some ([], s)
      else '(l, r) ← split_once sep s; Some (b :: l, r)
  end.

(** [str::starts_with], [str::ends_with] and [strip_prefix]. *)
Definition starts_with (p s : str) : bool := bool_decide (p `prefix_of` s).
Definition ends_with (p s : str) : bool := bool_decide (p `suffix_of` s).

(** [str::contains(char)]. *)
Definition contains_byte (b : byte) (s : str) : bool := bool_decide (b ∈ s).

(** [str::rfind(char)]: the byte offset of the last occurrence. *)
Fixpoint rfind (sep : byte) (s : str) : option nat :=
  match s with
  | [] => None
  | b :: s =>
      match rfind sep s with
      | Some n => Some (S n)
      | None => if decide (b = sep) then Some O else None
      end
  end.

(** [str::rsplit(sep).next()]: the segment after the last separator. *)
Definition last_segment (sep : byte) (s : str) : str :=
  default s (last (split sep s)).

Definition is_ascii_digit (b : byte) : bool := (48 <=? u8 b) && (u8 b <=? 57).

(** [str::parse::<u64>] on digits only; [None] on overflow or an empty string. *)
Definition parse_u64_step (acc : option Z) (b : byte) : option Z :=
  v ← acc;
  if is_ascii_digit b then
    let w := v * 10 + (u8 b - 48) in
    if w <=? u64_max then Some w else None
  else None.
Definition parse_u64 (s : str) : option Z :=
  match s with [] => None | _ => foldl parse_u64_step (Some 0) s end.

(** ** Splitting *)

Lemma split_not_nil sep s : split sep s ≠ [].
Proof. induction s as [|b s IH]; cbn; [done|]. case_decide; [done|]. by destruct (split sep s). Qed.

Lemma split_cons sep b s :
  b ≠ sep → ∃ seg segs, split sep s = seg :: segs ∧ split sep (b :: s) = (b :: seg) :: segs.
Proof.
  intros Hb. pose proof (split_not_nil sep s). cbn. rewrite decide_False by done.
  destruct (split sep s) as [|seg segs]; [done|]. by exists seg, segs.
Qed.

Lemma split_app sep s t : split sep (s ++ sep :: t) = split sep s ++ split sep t.
Proof.
  induction s as [|b s IH].
  - cbn. by rewrite decide_True.
  - destruct (decide (b = sep)) as [->|Hb].
    + cbn [app split]. rewrite !decide_True by done. by rewrite IH.
    + destruct (split_cons sep b s Hb) as (seg & segs & E & ->).
      cbn [app split]. rewrite decide_False by done. by rewrite IH, E.
Qed.

Lemma split_no_sep sep s : sep ∉ s → split sep s = [s].
Proof.
  induction s as [|b s IH]; intros Hs; [done|]. apply not_elem_of_cons in Hs as [Hb Hs].
  cbn. rewrite decide_False by done. by rewrite IH.
Qed.

(** The segments joined again. *)
Fixpoint join (sep : byte) (segs : list str) : str :=
  match segs with
  | [] => []
  | [seg] => seg
  | seg :: segs => seg ++ sep :: join sep segs
  end.

Lemma join_split sep s : join sep (split sep s) = s.
Proof.
  induction s as [|b s IH]; [done|]. destruct (decide (b = sep)) as [->|Hb].
  - cbn. rewrite decide_True by done. pose proof (split_not_nil sep s).
    destruct (split sep s) as [|seg segs] eqn:E; [done|]. cbn [join app] in *. by rewrite IH.
  - destruct (split_cons sep b s Hb) as (seg & segs & E & ->). rewrite E in IH.
    rewrite <- IH. by destruct segs.
Qed.

Lemma split_segments sep s seg : seg ∈ split sep s → sep ∉ seg.
Proof.
  revert seg. induction s as [|b s IH]; intros seg; cbn.
  - intros ->%list_elem_of_singleton. apply not_elem_of_nil.
  - case_decide as Hb.
    + intros [->|Hseg]%elem_of_cons; [apply not_elem_of_nil|by apply IH].
    + pose proof (split_not_nil sep s). destruct (split sep s) as [|x xs]; [done|].
      intros [->|Hseg]%elem_of_cons; [|apply IH; by right].
      apply not_elem_of_cons. split; [done|]. apply IH. by left.
Qed.

Lemma ends_with_app p s : ends_with p (s ++ p) = true.
Proof. apply bool_decide_eq_true. by exists s. Qed.
