(* ===== verification/ArchivePath.v ===== *)
(** * ArchivePath: addresses and transactions of the [ea-archive] crate

    The archive layout ([layout.rs]), validated transport addresses ([path.rs],
    and [archive_path_of] of [ea-archive-fs]), the port [ArchiveBackend] as a
    typeclass with its documented laws ([backend.rs]) and the staged transaction
    that is proved against it ([transaction.rs]). *)

From S2P Require Import Prelude Str.

(** ** Errors *)

(** A [FormatError] of [ea-format] is carried by its stable code. *)
Inductive ArchiveBackendError :=
| ByteConflict | AlreadyLocked | NotSameFilesystem | FlushFailed | Io | Path
| ProfileNotAllowed | UnprofiledNetworkPath | MissingLocalCommitComponent
| ReauthMismatch | MigrationFault | PendingPublication | InventoryMismatch
| VerificationFailed | AuditFailed | Format (code : string).

#[export] Instance ArchiveBackendError_eq_dec : EqDecision ArchiveBackendError.
Proof. solve_decision. Defined.

Definition backend_error_code (e : ArchiveBackendError) : string :=
  match e with
  | ByteConflict => "EA-ARCHIVE-BYTE-CONFLICT"
  | AlreadyLocked => "EA-ARCHIVE-ALREADY-LOCKED"
  | NotSameFilesystem => "EA-ARCHIVE-NOT-SAME-FILESYSTEM"
  | FlushFailed => "EA-ARCHIVE-FLUSH-FAILED"
  | Io => "EA-ARCHIVE-IO"
  | Path => "EA-ARCHIVE-PATH"
  | ProfileNotAllowed => "EA-ARCHIVE-PROFILE-NOT-ALLOWED"
  | UnprofiledNetworkPath => "EA-ARCHIVE-UNPROFILED-NETWORK-PATH"
  | MissingLocalCommitComponent => "EA-ARCHIVE-MISSING-LOCAL-COMMIT"
  | ReauthMismatch => "EA-ARCHIVE-REAUTH-MISMATCH"
  | MigrationFault => "EA-ARCHIVE-MIGRATION-FAULT"
  | PendingPublication => "EA-ARCHIVE-PENDING-PUBLICATION"
  | InventoryMismatch => "EA-ARCHIVE-INVENTORY-MISMATCH"
  | VerificationFailed => "EA-ARCHIVE-VERIFICATION-FAILED"
  | AuditFailed => "EA-ARCHIVE-AUDIT-FAILED"
  | Format code => code
  end.

(** ** Layout *)

Definition LAYOUT_PATHS_V1 : list str :=
  [ lit "trust/"; lit "trust/organization.etb"; lit "trust/registry-events/";
    lit "trust/operator-bindings/"; lit "trust/authorizations/"; lit "entries/";
    lit "destroyed-entries/"; lit "grants/"; lit "receipts/"; lit "checkpoints/";
    lit "destructions/"; lit "events/"; lit "attestations/"; lit "format/";
    lit "format/schemas/"; lit "format/transformations/";
    lit "format/compatibility-matrix.json"; lit "recovery-reports/";
    lit "README-FORMAT.txt" ].

(** ** Addresses *)

Record ArchivePath := { value : str; directory_length : nat }.

#[export] Instance ArchivePath_eq_dec : EqDecision ArchivePath.
Proof. solve_decision. Defined.

(** The derived order: the string, then the length of the directory. *)
#[export] Instance ArchivePath_cmp : Cmp ArchivePath :=
  cmp_on (λ p, (value p, Z.of_nat (directory_length p))).
#[export] Instance ArchivePath_cmp_laws : CmpLaws ArchivePath.
Proof. apply cmp_on_laws. intros [] [] [= -> H]. apply Nat2Z.inj in H. by subst. Qed.

Definition as_str (p : ArchivePath) : str := value p.
Definition directory (p : ArchivePath) : str := take (directory_length p) (value p).

Definition bad_segment (seg : str) : bool :=
  bool_decide (seg = []) || bool_decide (seg = lit ".") || bool_decide (seg = lit "..").

Definition validate_relative (relative : str) : result ArchiveBackendError unit :=
  if bool_decide (relative = []) || starts_with (lit "/") relative
     || contains_byte backslash relative
  then Err Path
  else if existsb bad_segment (split slash relative) then Err Path
  else Ok tt.

Definition in_dir (dir relative_below_it : str) : result ArchiveBackendError ArchivePath :=
  if negb (bool_decide (dir ∈ LAYOUT_PATHS_V1)) || negb (ends_with (lit "/") dir)
  then Err Path
  else
    validate_relative relative_below_it;;
    Ok {| value := dir ++ relative_below_it; directory_length := length dir |}.

Definition at_layout_file (file : str) : result ArchiveBackendError ArchivePath :=
  if negb (bool_decide (file ∈ LAYOUT_PATHS_V1)) || ends_with (lit "/") file
  then Err Path
  else Ok {| value := file;
             directory_length := match rfind slash file with Some n => S n | None => O end |}.

(** The loop over the layout list: the longest directory above [relative]. *)
Definition best_directory (relative : str) (best : option str) (candidate : str) : option str :=
  if ends_with (lit "/") candidate && starts_with candidate relative
     && match best with Some current => bool_decide (length current < length candidate)%nat | None => true end
  then Some candidate else best.

Definition archive_path_of (relative : str) : result ArchiveBackendError ArchivePath :=
  match at_layout_file relative with
  | Ok path => Ok path
  | Err _ =>
      dir ← ok_or Path (foldl (best_directory relative) None LAYOUT_PATHS_V1);
      in_dir dir (drop (length dir) relative)
  end.

(** ** Staging *)

Definition STAGING_SUFFIX_V1 : str := lit ".staging".

Definition is_staging_path (relative : str) : bool := ends_with STAGING_SUFFIX_V1 relative.

Definition staging_path (target : ArchivePath) : result ArchiveBackendError ArchivePath :=
  let dir := directory target in
  let relative := drop (length dir) (as_str target) in
  if bool_decide (dir = []) then Err Path
  else in_dir dir (relative ++ STAGING_SUFFIX_V1).

(** ** Valid addresses *)

(** A relative path in normal form: segments that are neither empty nor dots,
    and no backslash. *)
Definition normal (s : str) : Prop :=
  (backslash ∉ s) ∧ Forall (λ seg, seg ≠ [] ∧ seg ≠ lit "." ∧ seg ≠ lit "..") (split slash s).

Lemma bad_segment_false seg :
  bad_segment seg = false ↔ seg ≠ [] ∧ seg ≠ lit "." ∧ seg ≠ lit "..".
Proof.
  unfold bad_segment. rewrite !orb_false_iff, !bool_decide_eq_false. tauto.
Qed.

Lemma existsb_false {A} (f : A → bool) l : existsb f l = false ↔ Forall (λ x, f x = false) l.
Proof. induction l; cbn; rewrite ?orb_false_iff, ?Forall_nil, ?Forall_cons; naive_solver. Qed.

Lemma validate_relative_Ok s : validate_relative s = Ok tt ↔ normal s.
Proof.
  unfold validate_relative, normal, contains_byte, starts_with.
  assert (existsb bad_segment (split slash s) = false ↔
    Forall (λ seg, seg ≠ [] ∧ seg ≠ lit "." ∧ seg ≠ lit "..") (split slash s)) as Hb.
  { rewrite existsb_false, !Forall_forall. by setoid_rewrite bad_segment_false. }
  destruct (_ || _ || _) eqn:E.
  - split; [done|]. intros [Hbs Hseg].
    apply orb_true_iff in E as [E|E]; [apply orb_true_iff in E as [E|E]|];
      apply bool_decide_eq_true in E; [subst; cbn in Hseg|destruct E as [r ->]|done].
    + apply Forall_cons in Hseg as [[] _]. done.
    + change (lit "/" ++ r) with ([] ++ slash :: r) in Hseg. rewrite split_app in Hseg.
      apply Forall_app in Hseg as [Hseg _]. apply Forall_cons in Hseg as [[] _]. done.
  - apply orb_false_iff in E as [E Hbs]. apply bool_decide_eq_false in Hbs.
    destruct (existsb _ _); rewrite <- Hb; split; try done; by intros [].
Qed.

(** The directories of the layout. *)
Definition layout_dir (d : str) : Prop := d ∈ LAYOUT_PATHS_V1 ∧ ends_with (lit "/") d = true.
Definition layout_file (f : str) : Prop := f ∈ LAYOUT_PATHS_V1 ∧ ends_with (lit "/") f = false.

Lemma in_dir_Ok d r p :
  in_dir d r = Ok p ↔
  layout_dir d ∧ normal r ∧ p = {| value := d ++ r; directory_length := length d |}.
Proof.
  unfold in_dir, layout_dir.
  destruct (bool_decide (d ∈ LAYOUT_PATHS_V1)) eqn:E1, (ends_with (lit "/") d) eqn:E2; cbn;
    [apply bool_decide_eq_true in E1|apply bool_decide_eq_true in E1|
     apply bool_decide_eq_false in E1..]; try (split; [done|]; naive_solver).
  rewrite <- validate_relative_Ok. destruct (validate_relative r) as [[]|]; cbn; naive_solver.
Qed.

Lemma at_layout_file_Ok f p :
  at_layout_file f = Ok p ↔
  layout_file f ∧
  p = {| value := f;
         directory_length := match rfind slash f with Some n => S n | None => O end |}.
Proof.
  unfold at_layout_file, layout_file.
  destruct (bool_decide (f ∈ LAYOUT_PATHS_V1)) eqn:E1, (ends_with (lit "/") f) eqn:E2; cbn;
    [apply bool_decide_eq_true in E1|apply bool_decide_eq_true in E1|
     apply bool_decide_eq_false in E1..]; naive_solver.
Qed.

(** Every constructor of an address. *)
Definition is_address (p : ArchivePath) : Prop :=
  (∃ d r, in_dir d r = Ok p) ∨ ∃ f, at_layout_file f = Ok p.

(** What the layout list gives: a directory [d] is a sequence of plain segments
    and a slash, a file is a normal path whose directory, if any, is listed. *)
Lemma layout_dir_normal d : layout_dir d → ∃ d', d = d' ++ [slash] ∧ normal d'.
Proof.
  intros [Hd He].
  assert (Forall (λ d, ends_with (lit "/") d = true → ∃ d', d = d' ++ [slash] ∧ normal d')
    LAYOUT_PATHS_V1) as H; [|rewrite Forall_forall in H; by apply H].
  repeat (apply Forall_cons; split; [
    intros E; vm_compute in E; first [discriminate E |
      match goal with |- ∃ d', ?l = _ ∧ _ => exists (take (pred (length l)) l) end;
      split; [reflexivity|apply validate_relative_Ok; vm_compute; reflexivity]]|]).
  constructor.
Qed.

Lemma layout_file_normal f : layout_file f → normal f.
Proof.
  intros [Hf He].
  assert (Forall (λ f, ends_with (lit "/") f = false → normal f) LAYOUT_PATHS_V1) as H;
    [|rewrite Forall_forall in H; by apply H].
  repeat (apply Forall_cons; split; [
    intros E; vm_compute in E; first [discriminate E | apply validate_relative_Ok; vm_compute; reflexivity]|]).
  constructor.
Qed.

Lemma normal_join d r : normal d → normal r → normal (d ++ slash :: r).
Proof.
  intros [Hd Sd] [Hr Sr]. split.
  - rewrite not_elem_of_app, not_elem_of_cons. by split; [|split].
  - rewrite split_app. by apply Forall_app.
Qed.

Lemma normal_below d r : normal (d ++ slash :: r) → normal r.
Proof.
  intros [Hb Hs]. rewrite split_app in Hs. apply Forall_app in Hs as [_ Hs].
  split; [|done]. rewrite not_elem_of_app, not_elem_of_cons in Hb. tauto.
Qed.

Lemma address_normal p : is_address p → normal (as_str p).
Proof.
  intros [(d & r & H)|(f & H)].
  - apply in_dir_Ok in H as (Hd & Hr & ->). apply layout_dir_normal in Hd as (d' & -> & Hd).
    unfold as_str. cbn. rewrite <- (assoc_L (++)). by apply normal_join.
  - apply at_layout_file_Ok in H as (Hf & ->). by apply layout_file_normal.
Qed.

(** ** Lexical resolution *)

(** What a file system makes of the segments below a root: [None] if they leave
    it. *)
Fixpoint resolve (stack : list str) (segs : list str) : option (list str) :=
  match segs with
  | [] => Some (reverse stack)
  | seg :: segs =>
      if bool_decide (seg = []) || bool_decide (seg = lit ".") then resolve stack segs
      else if bool_decide (seg = lit "..") then
        match stack with [] => None | _ :: stack => resolve stack segs end
      else resolve (seg :: stack) segs
  end.

Lemma resolve_normal stack segs :
  Forall (λ seg, seg ≠ [] ∧ seg ≠ lit "." ∧ seg ≠ lit "..") segs →
  resolve stack segs = Some (reverse stack ++ segs).
Proof.
  intros H. revert stack. induction H as [|seg segs (H1 & H2 & H3) H IH]; intros stack; cbn.
  - by rewrite app_nil_r.
  - rewrite (bool_decide_eq_false_2 _ H1), (bool_decide_eq_false_2 _ H2),
      (bool_decide_eq_false_2 _ H3). cbn.
    rewrite IH, reverse_cons, <- (assoc_L (++)). done.
Qed.

(** An address that any constructor hands out is relative,
    free of backslashes, and resolves below the archive root to exactly its own
    segments; with a directory it lies under an entry of the layout list. *)
Theorem address_confined p :
  is_address p →
  starts_with (lit "/") (as_str p) = false ∧ (backslash ∉ as_str p) ∧
  resolve [] (split slash (as_str p)) = Some (split slash (as_str p)) ∧
  (directory p = [] ∨ layout_dir (directory p)) ∧ directory p `prefix_of` as_str p.
Proof.
  intros Hp. pose proof (address_normal p Hp) as Hn. destruct (Hn) as [Hb Hs].
  split; [|split; [done|split; [by rewrite resolve_normal|split]]].
  - apply bool_decide_eq_false. intros [r E]. rewrite E in Hs.
    change (lit "/" ++ r) with ([] ++ slash :: r) in Hs. rewrite split_app in Hs.
    apply Forall_app in Hs as [Hs _]. apply Forall_cons in Hs as [[] _]. done.
  - destruct Hp as [(d & r & H)|(f & H)].
    + apply in_dir_Ok in H as (Hd & _ & ->). right. unfold directory. cbn.
      by rewrite take_app_length.
    + apply at_layout_file_Ok in H as ([Hf He] & ->). unfold directory. cbn.
      assert (Forall (λ f, ends_with (lit "/") f = false →
        take (match rfind slash f with Some n => S n | None => O end) f = [] ∨
        layout_dir (take (match rfind slash f with Some n => S n | None => O end) f))
        LAYOUT_PATHS_V1) as H; [|rewrite Forall_forall in H; by apply H].
      repeat (apply Forall_cons; split; [
        intros E; vm_compute in E; first [discriminate E | left; reflexivity |
          right; split; [apply (bool_decide_unpack _); vm_compute; exact I|vm_compute; reflexivity]]|]).
      constructor.
  - exists (drop (directory_length p) (value p)). unfold as_str, directory.
    by rewrite take_drop.
Qed.

Lemma address_confined_witness :
  resolve [] (split slash (lit "trust/registry-events/a/b.etb")) =
    Some (split slash (lit "trust/registry-events/a/b.etb")).
Proof.
  apply (address_confined {| value := lit "trust/registry-events/a/b.etb"; directory_length := 22 |}).
  left. exists (lit "trust/registry-events/"), (lit "a/b.etb"). vm_compute. reflexivity.
Defined.

(** ** Addresses from strings *)

Definition above (s c : str) : Prop := ends_with (lit "/") c = true ∧ starts_with c s = true.

Lemma best_directory_step s best c :
  (best_directory s best c = Some c ∧ above s c ∧ ∀ b, best = Some b → (length b < length c)%nat) ∨
  (best_directory s best c = best ∧ (above s c → ∃ b, best = Some b ∧ (length c ≤ length b)%nat)).
Proof.
  unfold best_directory, above.
  destruct (ends_with (lit "/") c), (starts_with c s); cbn; try (right; split; [done|naive_solver]).
  destruct best as [b|]; [|left; split; [done|]; split; [done|]; by intros b [=]].
  case_bool_decide as Hl; [left|right]; (split; [done|]).
  - split; [done|]. by intros b' [= <-].
  - intros _. exists b. split; [done|lia].
Qed.

(** The fold keeps a listed directory above [s] of maximal length. *)
Lemma best_directory_spec s l best :
  match foldl (best_directory s) best l with
  | Some d =>
      (best = Some d ∨ (d ∈ l ∧ above s d)) ∧
      (∀ c, c ∈ l ∧ above s c ∨ best = Some c → (length c ≤ length d)%nat)
  | None => best = None ∧ ∀ c, c ∈ l → ¬ above s c
  end.
Proof.
  revert best. induction l as [|c l IH]; intros best; cbn.
  { destruct best as [d|]; [|split; [done|by intros ? ?%elem_of_nil]].
    split; [by left|]. intros c [[?%elem_of_nil _]|[= ->]]; done. }
  specialize (IH (best_directory s best c)).
  destruct (best_directory_step s best c) as [(E & Hc & Hb)|(E & Hc)]; rewrite E in *;
    destruct (foldl (best_directory s) _ l) as [d|].
  - destruct IH as [Hd Hm]. split.
    + right. destruct Hd as [[= <-]|[? ?]]; [split; [by left|done]|split; [by right|done]].
    + intros x [[[->|Hx]%elem_of_cons Ha]|Hx].
      * apply Hm. by right.
      * apply Hm. by left.
      * specialize (Hb x Hx). specialize (Hm c ltac:(by right)). lia.
  - by destruct IH.
  - destruct IH as [Hd Hm]. split.
    + destruct Hd as [->|[? ?]]; [by left|right; split; [by right|done]].
    + intros x [[[->|Hx]%elem_of_cons Ha]|Hx].
      * destruct (Hc Ha) as (b & -> & Hle). specialize (Hm b ltac:(by right)). lia.
      * apply Hm. by left.
      * apply Hm. by right.
  - destruct IH as [-> Hn]. split; [done|]. intros x [->|Hx]%elem_of_cons Ha.
    + by destruct (Hc Ha) as (b & ? & _).
    + by eapply Hn.
Qed.

Lemma starts_with_app d s : starts_with d s = true ↔ ∃ r, s = d ++ r.
Proof. unfold starts_with. by rewrite bool_decide_eq_true. Qed.

(** A longer layout directory above a normal path leaves a normal rest. *)
Lemma longer_directory d d' r r' :
  layout_dir d' → normal r → d ++ r = d' ++ r' → (length d ≤ length d')%nat → normal r'.
Proof.
  intros Hd' Hr E Hl. apply layout_dir_normal in Hd' as (e & -> & _).
  apply app_eq_inv in E as [(k & E1 & ->)|(k & E1 & E2)].
  - assert (k = []) as ->; [|done]. rewrite E1, !length_app in Hl. destruct k; [done|cbn in Hl; lia].
  - destruct k as [|b k _] using rev_ind; [by rewrite E2 in Hr|].
    rewrite (assoc_L (++)) in E1. apply app_inj_tail in E1 as [_ <-].
    rewrite E2, <- (assoc_L (++)) in Hr. by apply normal_below in Hr.
Qed.

(** [archive_path_of] keeps the string, and accepts exactly the layout
    files and the normal paths below a layout directory: an address that went
    through its string form comes back, under its longest directory. *)
Theorem archive_path_of_spec s :
  (∀ p, archive_path_of s = Ok p → as_str p = s ∧ is_address p) ∧
  ((∃ p, archive_path_of s = Ok p) ↔
   layout_file s ∨ ∃ d r, layout_dir d ∧ normal r ∧ s = d ++ r).
Proof.
  unfold archive_path_of. destruct (at_layout_file s) as [q|e] eqn:E.
  { pose proof E as Hq. apply at_layout_file_Ok in Hq as [Hf Hq]. split.
    - intros p [= <-]. split; [by subst|]. right. eauto.
    - split; [eauto|]. intros _. eauto. }
  pose proof (best_directory_spec s LAYOUT_PATHS_V1 None) as Hb.
  destruct (foldl (best_directory s) None LAYOUT_PATHS_V1) as [d|]; cbn.
  - destruct Hb as [[|(Hd & He & Hst)] Hmax]; [done|]. apply starts_with_app in Hst as [r ->].
    rewrite drop_app_length. split.
    + intros p Hp. pose proof Hp as Hp'. apply in_dir_Ok in Hp' as (_ & _ & ->).
      split; [done|]. left. eauto.
    + split.
      * intros [p Hp]. apply in_dir_Ok in Hp as (? & ? & _). right. eauto.
      * intros [Hf|(d' & r' & Hd' & Hr' & Er)].
        { pose proof (proj2 (at_layout_file_Ok (d ++ r) _) (conj Hf eq_refl)). congruence. }
        eexists. apply in_dir_Ok. split; [done|]. split; [|done].
        apply (longer_directory d' d r' r); [done|done|done|].
        apply Hmax. left. destruct Hd' as [? ?]. split; [done|]. split; [done|].
        apply starts_with_app. eauto.
  - destruct Hb as [_ Hno]. split; [done|]. split; [by intros [? ?]|].
    intros [Hf|(d' & r' & [Hd' He'] & Hr' & ->)].
    + pose proof (proj2 (at_layout_file_Ok s _) (conj Hf eq_refl)). congruence.
    + exfalso. apply (Hno d' Hd'). split; [done|]. apply starts_with_app. eauto.
Qed.

(** ** Staging addresses *)

Lemma split_extend sep s t :
  sep ∉ t → ∃ segs seg, split sep s = segs ++ [seg] ∧ split sep (s ++ t) = segs ++ [seg ++ t].
Proof.
  intros Ht. induction s as [|b s IH].
  { exists [], []. cbn. by rewrite split_no_sep. }
  destruct IH as (segs & seg & E1 & E2). cbn [app split]. rewrite E1, E2.
  case_decide; [by exists ([] :: segs), seg|].
  destruct segs as [|x segs]; cbn; [by exists [], (b :: seg)|by exists ((b :: x) :: segs), seg].
Qed.

Lemma normal_staging r : normal r → normal (r ++ STAGING_SUFFIX_V1).
Proof.
  intros [Hb Hs]. split.
  - apply not_elem_of_app. split; [done|]. apply (bool_decide_unpack _). vm_compute. exact I.
  - destruct (split_extend slash r STAGING_SUFFIX_V1) as (segs & seg & E1 & ->).
    { apply (bool_decide_unpack _). vm_compute. exact I. }
    rewrite E1 in Hs. apply Forall_app in Hs as [Hs _]. apply Forall_app. split; [done|].
    constructor; [|constructor].
    repeat split; intros E; apply (f_equal length) in E; rewrite length_app in E; cbn in E; lia.
Qed.

(** The address splits into its directory and a normal rest. *)
Lemma address_split p :
  is_address p → directory p ≠ [] →
  layout_dir (directory p) ∧ normal (drop (length (directory p)) (as_str p)) ∧
  as_str p = directory p ++ drop (length (directory p)) (as_str p).
Proof.
  intros [(d & r & H)|(f & H)] Hne.
  - apply in_dir_Ok in H as (Hd & Hr & ->). unfold directory, as_str in *. cbn in *.
    rewrite take_app_length, drop_app_length in *. done.
  - apply at_layout_file_Ok in H as ([Hf He] & ->). revert Hne. unfold directory, as_str. cbn.
    assert (Forall (λ f, ends_with (lit "/") f = false →
      let d := take (match rfind slash f with Some n => S n | None => O end) f in
      d ≠ [] → layout_dir d ∧ normal (drop (length d) f) ∧ f = d ++ drop (length d) f)
      LAYOUT_PATHS_V1) as H; [|rewrite Forall_forall in H; by apply H].
    repeat (apply Forall_cons; split; [
      intros E; vm_compute in E; first [discriminate E | intros d Hd; first [by destruct Hd |
        split; [split; [apply (bool_decide_unpack _); vm_compute; exact I|vm_compute; reflexivity]|];
        split; [apply validate_relative_Ok; vm_compute; reflexivity|reflexivity]]]|]).
    constructor.
Qed.

Lemma staging_path_eq p :
  is_address p → directory p ≠ [] →
  staging_path p = Ok {| value := as_str p ++ STAGING_SUFFIX_V1;
                         directory_length := length (directory p) |}.
Proof.
  intros Hp Hne. destruct (address_split p Hp Hne) as (Hd & Hr & E).
  unfold staging_path. rewrite (bool_decide_eq_false_2 _ Hne). apply in_dir_Ok.
  split; [done|]. split; [by apply normal_staging|].
  f_equal. by rewrite (assoc_L (++)), <- E.
Qed.

(** Every address with a directory has a staging address, which is its
    own string with the suffix, is recognised as staging, and lies in the same
    directory, so that the rename stays inside one file system; different
    addresses have different staging addresses. *)
Theorem staging_path_spec p q :
  is_address p → directory p ≠ [] →
  ∃ s, staging_path p = Ok s ∧ is_address s ∧ is_staging_path (as_str s) = true ∧
    directory s = directory p ∧ as_str s = as_str p ++ STAGING_SUFFIX_V1 ∧
    (is_address q → staging_path q = Ok s → as_str q = as_str p).
Proof.
  intros Hp Hne. pose proof (staging_path_eq p Hp Hne) as E. eexists. split; [exact E|].
  destruct (address_split p Hp Hne) as (Hd & Hr & Es).
  split; [|split; [|split; [|split; [done|]]]].
  - left. unfold staging_path in E. rewrite (bool_decide_eq_false_2 _ Hne) in E. eauto.
  - apply ends_with_app.
  - unfold directory at 1. cbn. rewrite Es at 1. by rewrite <- (assoc_L (++)), take_app_length.
  - intros Hq Eq. assert (directory q ≠ []) as Hneq.
    { intros Hd'. unfold staging_path in Eq. by rewrite (bool_decide_eq_true_2 _ Hd') in Eq. }
    rewrite (staging_path_eq q Hq Hneq) in Eq. injection Eq as Ev _. by apply app_inj_2 in Ev as [-> _].
Qed.

Lemma staging_path_spec_witness :
  let p := {| value := lit "entries/a.eip"; directory_length := 8 |} in
  ∃ s, staging_path p = Ok s ∧ is_address s ∧ is_staging_path (as_str s) = true ∧
    directory s = directory p ∧ as_str s = as_str p ++ STAGING_SUFFIX_V1 ∧
    (is_address p → staging_path p = Ok s → as_str p = as_str p).
Proof.
  intros p. apply (staging_path_spec p p); [|discriminate].
  left. exists (lit "entries/"), (lit "a.eip"). vm_compute. reflexivity.
Defined.
