(* ===== verification/Transaction.v ===== *)
(** * Transaction: staged publication of the [ea-archive] crate

    The writing port [ArchiveBackend] as a typeclass whose laws are the promises
    of its documentation ([backend.rs]), the staged transaction over it
    ([transaction.rs]), and the proof, against the interface, that a commit
    publishes whole objects or nothing and never overwrites. *)

From S2P Require Import Prelude Str ArchivePath.

(** ** Steps with state and errors *)

(** A call that changes the state [S] of a backend and may fail. *)
Definition step (S : Type) : Type := S → S * result ArchiveBackendError unit.

Definition done_ {S} : step S := λ s, (s, Ok tt).
Definition fail {S} (e : ArchiveBackendError) : step S := λ s, (s, Err e).

(** [a?; b]. *)
Definition and_then {S} (a b : step S) : step S := λ s,
  match a s with
  | (s, Ok _) => b s
  | (s, Err e) => (s, Err e)
  end.
Notation "a >>> b" := (and_then a b) (at level 60, right associativity) : ea_scope.
Open Scope ea_scope.

(** [for x in l { f(x)?; }]. *)
Fixpoint for_each {S A} (f : A → step S) (l : list A) : step S :=
  match l with
  | [] => done_
  | x :: l => f x >>> for_each f l
  end.

(** ** The port *)

Class ArchiveBackend (S : Type) := {
  create_if_absent : ArchivePath → list byte → step S;
  create_non_object_if_absent : ArchivePath → list byte → step S;
  sync_file : ArchivePath → step S;
  sync_directory : ArchivePath → step S;
  atomic_rename_same_fs : ArchivePath → ArchivePath → step S;
  (** The files a backend holds, by address. *)
  files : S → gmap str (list byte);
}.

(** Create-if-absent: a fresh address gets the bytes, equal bytes are accepted
    again, and nothing that exists is ever changed. *)
Definition creates {S} `{ArchiveBackend S} (create : ArchivePath → list byte → step S) : Prop :=
  ∀ p bytes s s' r, create p bytes s = (s', r) →
    (∀ q, q ≠ as_str p ∨ is_Some (files s !! q) → files s' !! q = files s !! q) ∧
    (r = Ok tt → files s' !! as_str p = Some bytes).

Class ArchiveBackendLaws (S : Type) `{ArchiveBackend S} : Prop := {
  create_law : creates create_if_absent;
  create_non_object_law : creates create_non_object_if_absent;
  sync_file_law p s s' r : sync_file p s = (s', r) → files s' = files s;
  sync_directory_law p s s' r : sync_directory p s = (s', r) → files s' = files s;
  (** An atomic rename that never replaces other bytes, or no change at all. *)
  rename_law from to s s' r :
    atomic_rename_same_fs from to s = (s', r) → as_str from ≠ as_str to →
    match r with
    | Ok _ => ∃ bytes, files s !! as_str from = Some bytes ∧
        (files s !! as_str to = None ∨ files s !! as_str to = Some bytes) ∧
        files s' = delete (as_str from) (<[as_str to := bytes]> (files s))
    | Err _ => files s' = files s
    end;
}.

(** ** The transaction *)

Inductive StagedBytesV1 :=
| Object (bytes : list byte)
| NonObject (bytes : list byte).

Definition staged_bytes (b : StagedBytesV1) : list byte :=
  match b with Object bytes | NonObject bytes => bytes end.

Record StagedObjectV1 := { target : ArchivePath; bytes : StagedBytesV1 }.

Section Transaction.
Context {S : Type} `{ArchiveBackend S}.

Definition create_staged (o : StagedObjectV1 * ArchivePath) : step S :=
  match bytes o.1 with
  | Object b => create_if_absent o.2 b
  | NonObject b => create_non_object_if_absent o.2 b
  end.

(** Stages one to three of [commit]. *)
Definition prepare (planned : list StagedObjectV1) (staged : list ArchivePath) : step S :=
  for_each create_staged (zip planned staged) >>>
  for_each sync_file staged >>>
  for_each sync_directory staged.

(** Stage four and the flush of the published names. *)
Definition publish_staged (planned : list StagedObjectV1) (staged : list ArchivePath) : step S :=
  for_each (λ o : StagedObjectV1 * ArchivePath, atomic_rename_same_fs o.2 (target o.1))
    (zip planned staged) >>>
  for_each (λ o, sync_directory (target o)) planned.

Definition commit (planned : list StagedObjectV1) : step S :=
  match mapM (λ o, staging_path (target o)) planned with
  | Err e => fail e
  | Ok staged => prepare planned staged >>> publish_staged planned staged
  end.
End Transaction.

(** ** Loops *)

Section Loops.
Context {S : Type} `{ArchiveBackendLaws S}.
Implicit Types s : S.

(** A property of pairs of states that every call of a loop has, the loop has. *)
Lemma for_each_trans {A} (f : A → step S) (R : S → S → Prop) l s s' r :
  (∀ s, R s s) → (∀ a b c, R a b → R b c → R a c) →
  (∀ x s s' r, x ∈ l → f x s = (s', r) → R s s') →
  for_each f l s = (s', r) → R s s'.
Proof.
  intros Hrefl Htrans. revert s. induction l as [|x l IH]; intros s Hf E; cbn in E.
  { injection E as <- _. apply Hrefl. }
  unfold and_then in E. destruct (f x s) as [s1 [[]|e]] eqn:Ex.
  - apply Htrans with s1; [eapply (Hf x); [by left|done]|].
    apply IH; [|done]. intros y t t' r' Hy. apply Hf. by right.
  - injection E as <- _. eapply (Hf x); [by left|done].
Qed.

Lemma and_then_Ok (a b : step S) s s' :
  (a >>> b) s = (s', Ok tt) ↔ ∃ s1, a s = (s1, Ok tt) ∧ b s1 = (s', Ok tt).
Proof.
  unfold and_then. destruct (a s) as [s1 [[]|e]]; split.
  - eauto.
  - by intros (? & [= <-] & ?).
  - done.
  - by intros (? & [=] & _).
Qed.

Lemma and_then_any (a b : step S) s s' r :
  (a >>> b) s = (s', r) →
  (∃ s1, a s = (s1, Ok tt) ∧ b s1 = (s', r)) ∨ (a s = (s', r) ∧ r ≠ Ok tt).
Proof.
  unfold and_then. destruct (a s) as [s1 [[]|e]]; [left; eauto|].
  intros [= <- <-]. by right.
Qed.

(** Flushing changes no file. *)
Lemma sync_loop {A} (f : A → step S) l s s' r :
  (∀ x s s' r, f x s = (s', r) → files s' = files s) →
  for_each f l s = (s', r) → files s' = files s.
Proof.
  intros Hf. apply (for_each_trans f (λ s s', files s' = files s)); [done| |eauto].
  intros a b c -> ->. done.
Qed.

Lemma create_staged_creates o s s' r :
  create_staged o s = (s', r) →
  (∀ q, q ≠ as_str o.2 ∨ is_Some (files s !! q) → files s' !! q = files s !! q) ∧
  (r = Ok tt → files s' !! as_str o.2 = Some (staged_bytes (bytes o.1))).
Proof.
  unfold create_staged. destruct (bytes o.1); intros E.
  - by apply create_law in E.
  - by apply create_non_object_law in E.
Qed.

(** Stage one touches staging addresses only, keeps what exists, and on success
    every staging address holds its object. *)
Lemma create_loop l s s' r :
  for_each create_staged l s = (s', r) →
  (∀ q, (q ∉ as_str ∘ snd <$> l) ∨ is_Some (files s !! q) → files s' !! q = files s !! q) ∧
  (r = Ok tt → ∀ o, o ∈ l → files s' !! as_str o.2 = Some (staged_bytes (bytes o.1))).
Proof.
  revert s. induction l as [|o l IH]; intros s E; cbn in E.
  { injection E as <- <-. split; [done|]. by intros _ ? ?%elem_of_nil. }
  apply and_then_any in E as [(s1 & E1 & E2)|[E1 Hr]];
    apply create_staged_creates in E1 as [Hf Ho].
  - destruct (IH s1 E2) as [Hf' Ho']. split.
    + intros q Hq. cbn in Hq. rewrite not_elem_of_cons in Hq.
      assert (files s1 !! q = files s !! q) as Eq by (apply Hf; tauto).
      rewrite Hf', Eq; [done|]. rewrite Eq. tauto.
    + intros Hr x [->|Hx]%elem_of_cons; [|by apply Ho'].
      rewrite Hf'; [by apply Ho|]. right. rewrite Ho by done. eauto.
  - split; [|done]. intros q Hq. cbn in Hq. rewrite not_elem_of_cons in Hq. apply Hf. tauto.
Qed.

Lemma prepare_effect planned staged s s' r :
  prepare planned staged s = (s', r) →
  (∀ q, (q ∉ as_str <$> staged) ∨ is_Some (files s !! q) → files s' !! q = files s !! q) ∧
  (r = Ok tt → ∀ o, o ∈ zip planned staged → files s' !! as_str o.2 = Some (staged_bytes (bytes o.1))).
Proof.
  assert (∀ q, q ∉ as_str <$> staged → q ∉ as_str ∘ snd <$> zip planned staged) as Hz.
  { intros q Hq Hin. apply Hq. apply list_elem_of_fmap in Hin as ([o p] & -> & Hin).
    apply elem_of_zip_r in Hin. by apply (list_elem_of_fmap_2 as_str). }
  assert (∀ s1 s' r, (for_each sync_file staged >>> for_each sync_directory staged) s1 = (s', r) →
    files s' = files s1) as Hsync.
  { intros s1 s2 r1 E. apply and_then_any in E as [(s3 & E1 & E2)|[E1 _]].
    - apply sync_loop in E1; [|apply sync_file_law]. apply sync_loop in E2; [|apply sync_directory_law].
      congruence.
    - apply sync_loop in E1; [done|apply sync_file_law]. }
  unfold prepare. intros E. apply and_then_any in E as [(s1 & E1 & E2)|[E1 Hr]];
    apply create_loop in E1 as [Hf Ho].
  - apply Hsync in E2. rewrite E2. split; [|eauto]. intros q Hq. apply Hf. naive_solver.
  - split; [|done]. intros q Hq. apply Hf. naive_solver.
Qed.

(** ** Renames *)

Definition rename_pair (o : StagedObjectV1 * ArchivePath) : step S :=
  atomic_rename_same_fs o.2 (target o.1).

Definition from_of (o : StagedObjectV1 * ArchivePath) : str := as_str o.2.
Definition to_of (o : StagedObjectV1 * ArchivePath) : str := as_str (target o.1).

(** No staging address is a target. *)
Definition apart (l : list (StagedObjectV1 * ArchivePath)) : Prop :=
  ∀ a b, a ∈ l → b ∈ l → from_of a ≠ to_of b.

Lemma apart_cons o l : apart (o :: l) → from_of o ≠ to_of o ∧ apart l.
Proof. intros H'. split; [apply H'; by left|]. intros a b Ha Hb. apply H'; by right. Qed.

Lemma rename_step o s s' r :
  rename_pair o s = (s', r) → from_of o ≠ to_of o →
  (r ≠ Ok tt ∧ files s' = files s) ∨
  (r = Ok tt ∧ ∃ b, files s !! from_of o = Some b ∧
    (files s !! to_of o = None ∨ files s !! to_of o = Some b) ∧
    files s' = delete (from_of o) (<[to_of o := b]> (files s))).
Proof.
  intros E Hne. apply rename_law in E; [|done]. destruct r as [[]|e]; [right|left]; by split.
Qed.

(** Whatever the outcome: an address that is no staging address is as before, or
    was free and now holds what lay under a staging address for it. *)
Lemma rename_loop_any l s s' r q :
  apart l → q ∉ from_of <$> l → for_each rename_pair l s = (s', r) →
  files s' !! q = files s !! q ∨
  (files s !! q = None ∧ ∃ o, o ∈ l ∧ to_of o = q ∧ is_Some (files s !! from_of o) ∧
    files s' !! q = files s !! from_of o).
Proof.
  revert s. induction l as [|o l IH]; intros s Hap Hq E; cbn in E.
  { injection E as <- _. by left. }
  pose proof (apart_cons _ _ Hap) as [Hne Hap'].
  cbn in Hq. apply not_elem_of_cons in Hq as [Hqo Hq].
  apply and_then_any in E as [(s1 & E1 & E2)|[E1 Hr]];
    apply rename_step in E1 as [[? Ef]|[? (b & Hb & Hto & Ef)]]; try done.
  2: { rewrite Ef. by left. }
  assert (∀ p, p ≠ from_of o → p ≠ to_of o → files s1 !! p = files s !! p) as Hsame.
  { intros p Hp1 Hp2. by rewrite Ef, lookup_delete_ne, lookup_insert_ne by done. }
  assert (files s1 !! to_of o = Some b) as Hto1
    by (by rewrite Ef, lookup_delete_ne, lookup_insert_eq by done).
  destruct (IH s1 Hap' Hq E2) as [Eq|(Hnone & x & Hx & <- & Hsome & Eq)].
  - destruct (decide (q = to_of o)) as [->|Hqt].
    + rewrite Eq, Hto1. destruct Hto as [Hto|Hto]; [right|by left].
      split; [done|]. exists o. rewrite Hb. split; [by left|]. eauto.
    + left. by rewrite Eq, Hsame by done.
  - destruct (decide (to_of x = to_of o)) as [E'|Hqt]; [rewrite E', Hto1 in Hnone; done|].
    right. rewrite <- Hsame by done. split; [done|]. exists x.
    assert (from_of x ≠ to_of o) by (apply Hap; [by right|by left]).
    assert (from_of x ≠ from_of o).
    { intros E'. destruct Hsome as [y Hy]. rewrite Ef, E', lookup_delete_eq in Hy. done. }
    rewrite <- (Hsame (from_of x)) by done. split; [by right|]. done.
Qed.

(** On success every target holds what lay under its staging address, which is
    gone. *)
Lemma rename_loop_Ok l s s' :
  apart l → for_each rename_pair l s = (s', Ok tt) →
  ∀ o, o ∈ l → is_Some (files s !! from_of o) ∧ files s' !! to_of o = files s !! from_of o ∧
    files s' !! from_of o = None.
Proof.
  revert s. induction l as [|x l IH]; intros s Hap E o Ho; [by apply elem_of_nil in Ho|].
  pose proof (apart_cons _ _ Hap) as [Hne Hap']. cbn in E.
  apply and_then_Ok in E as (s1 & E1 & E2).
  apply rename_step in E1 as [[? _]|[_ (b & Hb & _ & Ef)]]; [done| |done].
  assert (∀ a, a ∈ x :: l → from_of a ∉ to_of <$> l) as Hfrom.
  { intros a Ha (y & Ey & Hy)%list_elem_of_fmap. apply (Hap a y); [done|by right|done]. }
  (* An address that no later rename reads or writes is kept. *)
  assert (∀ p, p ∉ from_of <$> l → (files s1 !! p = None → p ∉ to_of <$> l) → files s' !! p = files s1 !! p) as Hkeep.
  { intros p Hp Hto. destruct (rename_loop_any l s1 s' (Ok tt) p Hap' Hp E2)
      as [?|(Hn & y & Hy & <- & _)]; [done|]. destruct (Hto Hn). by apply list_elem_of_fmap_2. }
  assert (∀ y, y ∈ l → from_of y ≠ from_of x) as Hnodup.
  { intros y Hy E'. destruct (IH s1 Hap' E2 y Hy) as ([z Hz] & _).
    rewrite Ef, E', lookup_delete_eq in Hz. done. }
  assert (from_of x ∉ from_of <$> l) as Hx
    by (intros (y & Ey & Hy)%list_elem_of_fmap; by apply (Hnodup y)).
  assert (to_of x ∉ from_of <$> l) as Hxt.
  { intros (y & Ey & Hy)%list_elem_of_fmap. apply (Hap y x); [by right|by left|done]. }
  apply elem_of_cons in Ho as [->|Ho].
  - split; [by rewrite Hb|]. split.
    + rewrite Hkeep, Hb, Ef, lookup_delete_ne, lookup_insert_eq; try done.
      by rewrite Ef, lookup_delete_ne, lookup_insert_eq.
    + rewrite Hkeep; [by rewrite Ef, lookup_delete_eq|done|]. intros _. apply Hfrom. by left.
  - destruct (IH s1 Hap' E2 o Ho) as (Hs & Et & En).
    assert (files s1 !! from_of o = files s !! from_of o) as Eo.
    { rewrite Ef, lookup_delete_ne, lookup_insert_ne; [done| |].
      - intros E'. apply (Hap o x); [by right|by left|done].
      - intros E'. by apply (Hnodup o). }
    rewrite <- Eo. done.
Qed.
End Loops.

(** ** Commits *)

(** A plan over valid addresses none of which is a staging address. *)
Definition plan_ok (planned : list StagedObjectV1) : Prop :=
  Forall (λ o, is_address (target o) ∧ is_staging_path (as_str (target o)) = false) planned.

Lemma staged_of planned staged :
  plan_ok planned → mapM (λ o, staging_path (target o)) planned = Ok staged →
  length planned = length staged ∧
  ∀ o, o ∈ zip planned staged → as_str o.2 = as_str (target o.1) ++ STAGING_SUFFIX_V1.
Proof.
  intros Hp. revert staged. induction Hp as [|x planned [Hx _] Hp IH]; intros staged E; cbn in E.
  { injection E as <-. split; [done|]. by intros ? ?%elem_of_nil. }
  apply bind_Ok in E as (p & Ep & E). apply bind_Ok in E as (ps & Eps & [= <-]).
  destruct (IH ps Eps) as [Hl Hz]. split; [cbn; by rewrite Hl|].
  intros o [->|Ho]%elem_of_cons; [|by apply Hz]. cbn.
  assert (directory (target x) ≠ []) as Hd.
  { intros E'. unfold staging_path in Ep. by rewrite (bool_decide_eq_true_2 _ E') in Ep. }
  rewrite (staging_path_eq _ Hx Hd) in Ep. by injection Ep as <-.
Qed.

Section Commit.
Context {S : Type} `{ArchiveBackendLaws S}.
Context (planned : list StagedObjectV1) (staged : list ArchivePath).
Context (Hp : plan_ok planned).
Context (Hst : mapM (λ o, staging_path (target o)) planned = Ok staged).

Lemma zip_planned o : o ∈ zip planned staged → o.1 ∈ planned.
Proof. destruct o. apply elem_of_zip_l. Qed.

Lemma planned_zip x : x ∈ planned → ∃ o, o ∈ zip planned staged ∧ o.1 = x.
Proof.
  intros Hx. destruct (staged_of planned staged Hp Hst) as [Hl _].
  assert (x ∈ (zip planned staged).*1) as Hin by (rewrite fst_zip; [done|lia]).
  apply list_elem_of_fmap in Hin as (o & -> & Ho). by exists o.
Qed.

Lemma staged_is_staging q : q ∈ as_str <$> staged → is_staging_path q = true.
Proof.
  destruct (staged_of planned staged Hp Hst) as [Hl Hz].
  intros (p & -> & Hin)%list_elem_of_fmap.
  assert (p ∈ (zip planned staged).*2) as Hin' by (rewrite snd_zip; [done|lia]).
  apply list_elem_of_fmap in Hin' as (o & -> & Ho). rewrite (Hz o Ho). apply ends_with_app.
Qed.

Lemma from_staged o : o ∈ zip planned staged → from_of o ∈ as_str <$> staged.
Proof. destruct o as [x p]. intros Ho%elem_of_zip_r. by apply (list_elem_of_fmap_2 as_str). Qed.

Lemma target_not_staging x : x ∈ planned → is_staging_path (as_str (target x)) = false.
Proof. intros Hx. unfold plan_ok in Hp. rewrite Forall_forall in Hp. by apply Hp. Qed.

Lemma zip_apart : apart (zip planned staged).
Proof.
  intros a b Ha Hb E. apply from_staged, staged_is_staging in Ha. rewrite E in Ha.
  unfold to_of in Ha. rewrite target_not_staging in Ha; [done|]. by apply zip_planned.
Qed.

Lemma not_staged q : is_staging_path q = false → (q ∉ as_str <$> staged) ∧ q ∉ from_of <$> zip planned staged.
Proof.
  intros Hq. assert (q ∉ as_str <$> staged) as Hn.
  { intros Hin. apply staged_is_staging in Hin. congruence. }
  split; [done|]. intros (o & -> & Ho)%list_elem_of_fmap. by apply Hn, from_staged.
Qed.

(** The part behind the preparation. *)
Lemma publish_effect (s s' : S) r :
  publish_staged planned staged s = (s', r) →
  ∃ s1 r1, for_each rename_pair (zip planned staged) s = (s1, r1) ∧ files s' = files s1 ∧
    (r = Ok tt → r1 = Ok tt).
Proof.
  unfold publish_staged. intros E. apply and_then_any in E as [(s1 & E1 & E2)|[E1 Hr]].
  - exists s1, (Ok tt). split; [done|]. split; [|done].
    apply sync_loop in E2; [done|]. intros x. apply sync_directory_law.
  - by exists s', r.
Qed.

(** What a commit does to an address that is no staging address. *)
Lemma commit_effect (s s' : S) r q :
  commit planned s = (s', r) → is_staging_path q = false →
  files s' !! q = files s !! q ∨
  (files s !! q = None ∧ ∃ o, o ∈ planned ∧ as_str (target o) = q ∧
    files s' !! q = Some (staged_bytes (bytes o))).
Proof.
  intros E Hq. destruct (not_staged q Hq) as [Hq1 Hq2]. unfold commit in E. rewrite Hst in E.
  apply and_then_any in E as [(s1 & E1 & E2)|[E1 Hr]];
    apply prepare_effect in E1 as [Hf Ho]; [|left; apply Hf; by left].
  apply publish_effect in E2 as (s2 & r2 & E2 & Efin & _). rewrite Efin.
  rewrite <- (Hf q (or_introl Hq1)).
  destruct (rename_loop_any _ s1 s2 r2 q zip_apart Hq2 E2) as [?|(Hn & o & Hin & <- & _ & Eq)];
    [by left|right]. split; [done|]. exists o.1. split; [by apply zip_planned|].
  split; [done|]. rewrite Eq. by apply Ho.
Qed.
End Commit.

Lemma commit_staging_error {S} `{ArchiveBackend S} planned (s s' : S) r e :
  mapM (λ o, staging_path (target o)) planned = Err e → commit planned s = (s', r) → s' = s.
Proof. unfold commit. intros ->. by intros [= <- _]. Qed.

(** C10. Whatever step of a commit fails or none, an address that is
    not a staging address is afterwards as it was before, or it was free and now
    holds exactly the bytes of an object planned for it: no half-written object
    appears under its final name and nothing under such an address is
    overwritten. This is for every backend with [ArchiveBackendLaws]; staging
    addresses may be written and renamed away. *)
Theorem commit_all_or_nothing {S} `{ArchiveBackendLaws S} planned (s s' : S) r q :
  plan_ok planned → is_staging_path q = false → commit planned s = (s', r) →
  files s' !! q = files s !! q ∨
  (files s !! q = None ∧ ∃ o, o ∈ planned ∧ as_str (target o) = q ∧
    files s' !! q = Some (staged_bytes (bytes o))).
Proof.
  intros Hp Hq E. destruct (mapM (λ o, staging_path (target o)) planned) as [staged|e] eqn:Hst.
  - by eapply commit_effect.
  - left. by rewrite (commit_staging_error _ _ _ _ _ Hst E).
Qed.

(** If a commit fails in a stage before the renames, no target
    address has come into being: every address that is not a staging address is
    unchanged. *)
Theorem commit_failed_preparation {S} `{ArchiveBackendLaws S} planned staged (s s' : S) e q :
  plan_ok planned → mapM (λ o, staging_path (target o)) planned = Ok staged →
  prepare planned staged s = (s', Err e) → is_staging_path q = false →
  commit planned s = (s', Err e) ∧ files s' !! q = files s !! q.
Proof.
  intros Hp Hst E Hq. split.
  - unfold commit. rewrite Hst. unfold and_then. by rewrite E.
  - apply prepare_effect in E as [Hf _]. apply Hf. left.
    by apply (not_staged planned staged Hp Hst).
Qed.

(** A commit that succeeds has published every planned
    object under its target with exactly its bytes, has left no staging file of
    its own, and has changed no other address. *)
Theorem commit_publishes {S} `{ArchiveBackendLaws S} planned (s s' : S) :
  plan_ok planned → commit planned s = (s', Ok tt) →
  (∀ o, o ∈ planned →
    files s' !! as_str (target o) = Some (staged_bytes (bytes o)) ∧
    files s' !! (as_str (target o) ++ STAGING_SUFFIX_V1) = None) ∧
  (∀ q, is_staging_path q = false → q ∉ as_str ∘ target <$> planned →
    files s' !! q = files s !! q).
Proof.
  intros Hp E. destruct (mapM (λ o, staging_path (target o)) planned) as [staged|e] eqn:Hst.
  2: { unfold commit in E. rewrite Hst in E. done. }
  split.
  - pose proof E as E'. unfold commit in E'. rewrite Hst in E'.
    apply and_then_Ok in E' as (s1 & E1 & E2). apply prepare_effect in E1 as [_ Ho].
    apply publish_effect in E2 as (s2 & r2 & E2 & -> & Hr). rewrite (Hr eq_refl) in E2.
    intros x Hx. destruct (planned_zip planned staged Hp Hst x Hx) as (o & Hin & <-).
    pose proof (rename_loop_Ok _ s1 s2 (zip_apart planned staged Hp Hst) E2 o Hin) as (_ & Et & En).
    destruct (staged_of planned staged Hp Hst) as [_ Hz]. rewrite <- (Hz o Hin).
    split; [|done]. etransitivity; [exact Et|]. by apply Ho.
  - intros q Hq Hno. destruct (commit_effect planned staged Hp Hst s s' _ q E Hq)
      as [?|(_ & o & Ho & <- & _)]; [done|]. destruct Hno. by apply (list_elem_of_fmap_2 (as_str ∘ target)).
Qed.

(** ** A backend in memory *)

Definition mem_create (p : ArchivePath) (b : list byte) : step (gmap str (list byte)) := λ s,
  match s !! as_str p with
  | None => (<[as_str p := b]> s, Ok tt)
  | Some b' => if decide (b' = b) then (s, Ok tt) else (s, Err ByteConflict)
  end.

Definition mem_rename (from to : ArchivePath) : step (gmap str (list byte)) := λ s,
  match s !! as_str from with
  | None => (s, Err Io)
  | Some b =>
      match s !! as_str to with
      | None => (delete (as_str from) (<[as_str to := b]> s), Ok tt)
      | Some b' => if decide (b' = b) then (delete (as_str from) s, Ok tt) else (s, Err ByteConflict)
      end
  end.

#[export] Instance mem_backend : ArchiveBackend (gmap str (list byte)) := {
  create_if_absent := mem_create;
  create_non_object_if_absent := mem_create;
  sync_file _ := done_;
  sync_directory _ := done_;
  atomic_rename_same_fs := mem_rename;
  files s := s;
}.

#[export] Instance mem_backend_laws : ArchiveBackendLaws (gmap str (list byte)).
Proof.
  assert (creates mem_create) as Hc.
  { intros p b s s' r. unfold mem_create. cbn.
    destruct (s !! as_str p) as [b'|] eqn:E; [case_decide; subst|]; intros [= <- <-].
    - done.
    - done.
    - split; [|intros _; apply lookup_insert_eq].
      intros q [Hq|[x Hx]]; [by apply lookup_insert_ne|]. apply lookup_insert_ne. congruence. }
  split; [done|done|..]; cbn.
  - by intros ? ? ? ? [= <- _].
  - by intros ? ? ? ? [= <- _].
  - intros from to s s' r. unfold mem_rename.
    destruct (s !! as_str from) as [b|] eqn:Ef; [|by intros [= <- <-]].
    destruct (s !! as_str to) as [b'|] eqn:Et; [case_decide; subst|]; intros [= <- <-] Hne; [|done|].
    + exists b. split; [done|]. split; [by right|]. by rewrite insert_id.
    + exists b. split; [done|]. split; [by left|done].
Qed.

(** A plan of two objects and its commit in memory. *)
Definition sample_plan : list StagedObjectV1 :=
  [ {| target := {| value := lit "grants/g.eag"; directory_length := 7 |}; bytes := Object [x01] |};
    {| target := {| value := lit "entries/e.eip"; directory_length := 8 |}; bytes := Object [x02] |} ].

Lemma sample_plan_ok : plan_ok sample_plan.
Proof.
  constructor; [|constructor; [|constructor]]; (split; [left|vm_compute; reflexivity]).
  - exists (lit "grants/"), (lit "g.eag"). vm_compute. reflexivity.
  - exists (lit "entries/"), (lit "e.eip"). vm_compute. reflexivity.
Qed.

Definition mem : Type := gmap str (list byte).

Lemma pair_snd {A B} (p : A * B) b : p.2 = b → p = (p.1, b).
Proof. intros <-. by destruct p. Qed.

Lemma commit_publishes_witness :
  files (commit sample_plan (∅ : mem)).1 !! lit "entries/e.eip" = Some [x02].
Proof.
  assert (commit sample_plan (∅ : mem) = ((commit sample_plan (∅ : mem)).1, Ok tt)) as E
    by (apply pair_snd; vm_compute; reflexivity).
  destruct (commit_publishes sample_plan (∅ : mem) _ sample_plan_ok E) as [Hpub _].
  apply (Hpub {| target := {| value := lit "entries/e.eip"; directory_length := 8 |};
                 bytes := Object [x02] |}).
  right. left.
Defined.

Lemma commit_all_or_nothing_witness :
  let s : mem := {[ lit "entries/e.eip" := [x07] ]} in
  files (commit sample_plan s).1 !! lit "entries/e.eip" = Some [x07].
Proof.
  intros s. destruct (commit_all_or_nothing sample_plan s _ _ (lit "entries/e.eip") sample_plan_ok
    eq_refl (surjective_pairing (commit sample_plan s))) as [E|[E _]].
  - rewrite E. reflexivity.
  - exfalso. vm_compute in E. discriminate E.
Defined.

Definition sample_staged : list ArchivePath :=
  [ {| value := lit "grants/g.eag.staging"; directory_length := 7 |};
    {| value := lit "entries/e.eip.staging"; directory_length := 8 |} ].

Lemma commit_failed_preparation_witness :
  let s : mem := {[ lit "entries/e.eip.staging" := [x07] ]} in
  files (prepare sample_plan sample_staged s).1 !! lit "grants/g.eag" = None.
Proof.
  intros s.
  assert (prepare sample_plan sample_staged s =
    ((prepare sample_plan sample_staged s).1, Err ByteConflict)) as E
    by (apply pair_snd; vm_compute; reflexivity).
  destruct (commit_failed_preparation sample_plan sample_staged s _ ByteConflict
    (lit "grants/g.eag") sample_plan_ok eq_refl E eq_refl) as [_ Eq].
  rewrite Eq. reflexivity.
Defined.
