(* ===== verification/PublicationQueue.v ===== *)
(** * PublicationQueue: deferred publication of the [ea-archive-fs] crate

    The queue in front of a publication target ([publication_queue.rs]) with the
    profile that configures it ([ea-archive], [profile.rs]). The target is a
    typeclass: every call of it may change its state, its reachability included.
    [publish] and [resume] hold [drain_lock] for the whole call, so the calls of
    one queue are the steps of a sequential machine. *)

From S2P Require Import Prelude Types Str ArchivePath.

(** ** Profiles *)

Record LocalPathProfileV1 := { lp_filesystem_row_id : str; lp_capability_test_vector_id : str }.

Record ControlledNetworkProfileV1 := {
  filesystem_row_id : str;
  protocol_id : str;
  server_product : str;
  server_version : str;
  mount_options : list str;
  failover_config_id : str;
  capability_test_vector_id : str;
  queue_max_objects : Z;
  queue_max_bytes : Z;
  resume_backoff_initial_ms : Z;
  resume_backoff_max_ms : Z;
  resume_max_attempts : Z;
}.

Inductive ArchiveBackendProfileV1 :=
| LocalPath (profile : LocalPathProfileV1)
| ControlledNetworkPath (profile : ControlledNetworkProfileV1).

Definition BoundArchiveProfilePolicyV1 := list Hash32.

Definition permits (policy : BoundArchiveProfilePolicyV1) (profile_hash : Hash32) : bool :=
  bool_decide (profile_hash ∈ policy).

Definition require (policy : BoundArchiveProfilePolicyV1) (profile_hash : Hash32)
  : result ArchiveBackendError unit :=
  if permits policy profile_hash then Ok tt else Err ProfileNotAllowed.

(** ** Status and outcome *)

Inductive SyncStatus := LocallySaved | UploadPending | Synchronized | Failed.

#[export] Instance SyncStatus_eq_dec : EqDecision SyncStatus.
Proof. solve_decision. Defined.

Definition sync_status_label (s : SyncStatus) : string :=
  match s with
  | LocallySaved => "lokal gesichert"
  | UploadPending => "Upload ausstehend"
  | Synchronized => "synchronisiert"
  | Failed => "Fehler"
  end.

Inductive DetailCause :=
| NetworkArchiveWaiting | CauseQueueLimitReached | CauseProfileNotAllowed
| ResumeAttemptsExhausted.

#[export] Instance DetailCause_eq_dec : EqDecision DetailCause.
Proof. solve_decision. Defined.

Definition detail_cause_label (c : DetailCause) : string :=
  match c with
  | NetworkArchiveWaiting => "Netzarchiv wartet"
  | CauseQueueLimitReached => "Queuegrenze erreicht"
  | CauseProfileNotAllowed => "Profil nicht freigegeben"
  | ResumeAttemptsExhausted => "Wiederaufnahme erschoepft"
  end.

Inductive PublicationOutcomeV1 :=
| NothingPending | PublishedCompletely | Deferred | QueueLimitReached.

#[export] Instance PublicationOutcomeV1_eq_dec : EqDecision PublicationOutcomeV1.
Proof. solve_decision. Defined.

Definition nothing_outstanding (o : PublicationOutcomeV1) : bool :=
  match o with NothingPending | PublishedCompletely => true | _ => false end.

Record PublicationStateV1 := {
  outcome : PublicationOutcomeV1;
  detail_cause : option DetailCause;
  fell_back : bool;
  published_bytes : list (list byte);
  published_order : list str;
}.

Definition deferred (cause : option DetailCause) : PublicationStateV1 :=
  {| outcome := Deferred; detail_cause := cause; fell_back := false;
     published_bytes := []; published_order := [] |}.

(** ** Plans *)

Definition PlannedPublicationV1 := list (ArchivePath * list byte).

Definition exact_bytes (p : PlannedPublicationV1) : list (list byte) := snd <$> p.
Definition order (p : PlannedPublicationV1) : list str := (λ o, as_str o.1) <$> p.
Definition plan_len (p : PlannedPublicationV1) : Z := Z.of_nat (length p).

(** The sum of the lengths of slices, which are far below [u64::MAX] together. *)
Definition total_bytes (p : PlannedPublicationV1) : Z :=
  foldr (λ o n, Z.of_nat (length o.2) + n) 0 p.

(** [merged.iter().find(|(existing_path, _)| existing_path == path)]. *)
Definition find_path (path : ArchivePath) (p : PlannedPublicationV1) : option (ArchivePath * list byte) :=
  snd <$> list_find (λ o, o.1 = path) p.

(** One round of the loop of [merge]. *)
Definition merge_step (merged : result ArchiveBackendError PlannedPublicationV1)
    (o : ArchivePath * list byte) : result ArchiveBackendError PlannedPublicationV1 :=
  merged ← merged;
  match find_path o.1 merged with
  | Some (_, existing_bytes) =>
      if decide (existing_bytes = o.2) then Ok merged else Err ByteConflict
  | None => Ok (merged ++ [o])
  end.

Definition merge (existing new : PlannedPublicationV1)
  : result ArchiveBackendError PlannedPublicationV1 :=
  foldl merge_step (Ok existing) new.

(** ** The target *)

Class PublicationTargetV1 (T : Type) := {
  is_connected : T → T * bool;
  reconnect : T → T;
  publish_one : ArchivePath → list byte → T → T * result ArchiveBackendError unit;
}.

Definition indicates_lost_connectivity (e : ArchiveBackendError) : bool :=
  match e with Io | FlushFailed => true | _ => false end.

(** ** The queue *)

Record PublicationQueue (T : Type) := {
  target : T;
  max_objects : Z;
  max_bytes : Z;
  pending : option PlannedPublicationV1;
}.
Arguments target {T} _.
Arguments max_objects {T} _.
Arguments max_bytes {T} _.
Arguments pending {T} _.

Section Queue.
Context {T : Type} `{PublicationTargetV1 T}.

(** [profile_hash] computes the digest of a profile's encoded core. *)
Definition PublicationQueue_new
    (profile_hash : ArchiveBackendProfileV1 → result ArchiveBackendError Hash32)
    (t : T) (profile : ArchiveBackendProfileV1) (policy : BoundArchiveProfilePolicyV1)
  : result ArchiveBackendError (PublicationQueue T) :=
  match profile with
  | LocalPath _ => Err UnprofiledNetworkPath
  | ControlledNetworkPath network =>
      hash ← profile_hash profile;
      require policy hash;;
      Ok {| target := t; max_objects := queue_max_objects network;
            max_bytes := queue_max_bytes network; pending := None |}
  end.

Definition set_pending (q : PublicationQueue T) (p : option PlannedPublicationV1)
  : PublicationQueue T :=
  {| target := target q; max_objects := max_objects q; max_bytes := max_bytes q; pending := p |}.
Definition set_target (q : PublicationQueue T) (t : T) : PublicationQueue T :=
  {| target := t; max_objects := max_objects q; max_bytes := max_bytes q; pending := pending q |}.

Definition reply := result ArchiveBackendError PublicationStateV1.

Definition restore (q : PublicationQueue T) (plan : PlannedPublicationV1)
  : PublicationQueue T * result ArchiveBackendError unit :=
  match pending q with
  | None => (set_pending q (Some plan), Ok tt)
  | Some unexpected =>
      match merge plan unexpected with
      | Ok merged => (set_pending q (Some merged), Ok tt)
      | Err error => (set_pending q (Some plan), Err error)
      end
  end.

(** [self.restore(planned)?; return r]. *)
Definition restore_and (q : PublicationQueue T) (plan : PlannedPublicationV1) (r : reply)
  : PublicationQueue T * reply :=
  match restore q plan with
  | (q, Ok _) => (q, r)
  | (q, Err error) => (q, Err error)
  end.

Definition lost (bytes : list (list byte)) (order : list str) : PublicationStateV1 :=
  {| outcome := Deferred; detail_cause := Some NetworkArchiveWaiting; fell_back := false;
     published_bytes := bytes; published_order := order |}.

(** The loop of [drain] over the objects still to publish. *)
Fixpoint drain_loop (planned rest : PlannedPublicationV1) (published_bytes : list (list byte))
    (published_order : list str) (q : PublicationQueue T) : PublicationQueue T * reply :=
  match rest with
  | [] =>
      (q, Ok {| outcome := PublishedCompletely; detail_cause := None; fell_back := false;
                published_bytes := published_bytes; published_order := published_order |})
  | (path, bytes) :: rest =>
      let '(t, connected) := is_connected (target q) in
      let q := set_target q t in
      if negb connected
      then restore_and q planned (Ok (lost published_bytes published_order))
      else
        let '(t, r) := publish_one path bytes (target q) in
        let q := set_target q t in
        match r with
        | Err error =>
            if indicates_lost_connectivity error
            then restore_and q planned (Ok (lost published_bytes published_order))
            else restore_and q planned (Err error)
        | Ok _ =>
            drain_loop planned rest (published_bytes ++ [bytes])
              (published_order ++ [as_str path]) q
        end
  end.

Definition drain (planned : PlannedPublicationV1) (q : PublicationQueue T)
  : PublicationQueue T * reply := drain_loop planned planned [] [] q.

Definition publish (planned : PlannedPublicationV1) (q : PublicationQueue T)
  : PublicationQueue T * reply :=
  let existing := pending q in
  let q := set_pending q None in
  match (match existing with
         | None => Ok planned
         | Some existing_plan => merge existing_plan planned
         end) with
  | Err error => (set_pending q existing, Err error)
  | Ok merged =>
      if (plan_len merged >? max_objects q) || (total_bytes merged >? max_bytes q)
      then (set_pending q existing,
            Ok {| outcome := QueueLimitReached; detail_cause := Some CauseQueueLimitReached;
                  fell_back := false; published_bytes := []; published_order := [] |})
      else
        let '(t, connected) := is_connected (target q) in
        let q := set_target q t in
        if negb connected
        then (set_pending q (Some merged), Ok (lost [] []))
        else drain merged q
  end.

Definition resume (q : PublicationQueue T) : PublicationQueue T * reply :=
  match pending q with
  | None =>
      (q, Ok {| outcome := NothingPending; detail_cause := None; fell_back := false;
                published_bytes := []; published_order := [] |})
  | Some planned => drain planned (set_pending q None)
  end.

Definition queue_reconnect (q : PublicationQueue T) : PublicationQueue T :=
  set_target q (reconnect (target q)).
End Queue.

(** ** Deriving a plan *)

Definition EXACT_OBJECT_PREFIXES_V1 : list (list byte) :=
  (λ k, [x85; x44; x45; x41; x31; x00; k; x01; x80]) <$> [x01; x02; x03; x04; x05; x06].

Definition has_exact_object_prefix (b : list byte) : bool :=
  existsb (λ p, starts_with p b) EXACT_OBJECT_PREFIXES_V1.

Definition sequence_prefix (path : ArchivePath) : option Z :=
  let filename := last_segment slash (as_str path) in
  '(prefix, _) ← split_once underscore filename;
  if bool_decide (length prefix = 12%nat) && forallb is_ascii_digit prefix
  then parse_u64 prefix else None.

Definition is_eip (path : ArchivePath) : bool := ends_with (lit ".eip") (as_str path).

Definition then_with (a b : comparison) : comparison := match a with Eq => b | c => c end.

Definition compare_pending_addresses (left right : ArchivePath) : comparison :=
  match sequence_prefix left, sequence_prefix right with
  | None, None => cmp left right
  | None, Some _ => Lt
  | Some _, None => Gt
  | Some left_sequence, Some right_sequence =>
      then_with (cmp left_sequence right_sequence)
        (then_with (cmp (is_eip left) (is_eip right)) (cmp left right))
  end.

(** The sort key behind [compare_pending_addresses]. *)
Definition pending_key (path : ArchivePath) : option (Z * bool) * ArchivePath :=
  ((λ q, (q, is_eip path)) <$> sequence_prefix path, path).

Lemma compare_pending_addresses_key a b :
  compare_pending_addresses a b = cmp (pending_key a) (pending_key b).
Proof.
  unfold compare_pending_addresses, pending_key.
  change (@cmp _ prod_cmp) with (@prod_compare (option (Z * bool)) ArchivePath _ _).
  unfold prod_compare. cbn [fst snd].
  destruct (sequence_prefix a) as [x|], (sequence_prefix b) as [y|]; cbn; try done.
  unfold option_compare. change (@cmp _ prod_cmp) with (@prod_compare Z bool _ _).
  unfold prod_compare, then_with. cbn. by destruct (cmp x y), (cmp (is_eip a) (is_eip b)).
Qed.

Section Derive.
(** The exact-object parser of [ea-format] and the bytes of the target. *)
Context (decode_exact_object : list byte → result string unit).
Context (read_relative : str → option (list byte)).

(** The visitor for one blob: [Err] is the failure it records. *)
Definition visit_blob (blob : str * list byte) (acc : PlannedPublicationV1)
  : result ArchiveBackendError PlannedPublicationV1 :=
  let '(path_hint, bytes) := blob in
  if negb (has_exact_object_prefix bytes) then Ok acc
  else
    match decode_exact_object bytes with
    | Err code => Err (Format code)
    | Ok _ =>
        address ← archive_path_of path_hint;
        match read_relative (as_str address) with
        | Some remote_bytes =>
            if decide (remote_bytes = bytes) then Ok acc else Err ByteConflict
        | None => Ok (acc ++ [(address, bytes)])
        end
    end.

(** The source hands its blobs to the visitor and stops at the first failure;
    [complete] says whether it reached its end. *)
Fixpoint visit_blobs (blobs : list (str * list byte)) (complete : bool)
    (acc : PlannedPublicationV1) : result ArchiveBackendError PlannedPublicationV1 :=
  match blobs with
  | [] => if complete then Ok acc else Err Io
  | blob :: blobs => acc ← visit_blob blob acc; visit_blobs blobs complete acc
  end.

Definition derive_pending (blobs : list (str * list byte)) (complete : bool)
  : result ArchiveBackendError PlannedPublicationV1 :=
  pending ← visit_blobs blobs complete [];
  Ok (sort_by_key (pending_key ∘ fst) pending).
End Derive.

(** ** Merging *)

Lemma find_path_Some path p o : find_path path p = Some o → o ∈ p ∧ o.1 = path.
Proof.
  unfold find_path. intros H. apply fmap_Some in H as ([i x] & H & ->).
  apply list_find_Some in H as (Hi & Hx & _). split; [by eapply list_elem_of_lookup_2|done].
Qed.

Lemma find_path_None path p : find_path path p = None → path ∉ p.*1.
Proof.
  unfold find_path. intros H. apply fmap_None in H. apply list_find_None in H.
  intros (o & -> & Ho)%list_elem_of_fmap. rewrite Forall_forall in H. by apply (H o).
Qed.

Lemma merge_Err_fold e new : foldl merge_step (Err e) new = Err e.
Proof. by induction new. Qed.

(** A merge that succeeds keeps the existing plan in front, holds every new
    object, invents none and repeats no address. *)
Lemma merge_Ok existing new m :
  merge existing new = Ok m →
  existing `prefix_of` m ∧ (∀ o, o ∈ new → o ∈ m) ∧ (∀ o, o ∈ m → o ∈ existing ∨ o ∈ new) ∧
  (NoDup existing.*1 → NoDup m.*1).
Proof.
  unfold merge. revert existing. induction new as [|o new IH]; intros existing E; cbn in E.
  { injection E as <-. split; [done|]. split; [by intros ? ?%elem_of_nil|]. by split; [left|]. }
  destruct (find_path o.1 existing) as [[p b]|] eqn:Ef.
  - apply find_path_Some in Ef as [Hin Hp]. cbn in Hp. subst p.
    case_decide as Hb; [|by rewrite merge_Err_fold in E]. subst b.
    destruct (IH existing E) as (Hpre & Hnew & Hold & Hnd). split; [done|]. split.
    + intros x [->|Hx]%elem_of_cons; [|by apply Hnew]. destruct o. destruct Hpre as [k ->].
      apply elem_of_app. by left.
    + split; [|done]. intros x Hx. rewrite elem_of_cons. destruct (Hold x Hx); tauto.
  - apply find_path_None in Ef. destruct (IH (existing ++ [o]) E) as (Hpre & Hnew & Hold & Hnd).
    split; [by eapply prefix_app_l|]. split.
    + intros x [->|Hx]%elem_of_cons; [|by apply Hnew]. destruct Hpre as [k ->]. set_solver.
    + split.
      * intros x Hx. specialize (Hold x Hx). set_solver.
      * intros Hn. apply Hnd. rewrite fmap_app. apply NoDup_app. split; [done|].
        split; [|apply NoDup_singleton]. cbn. intros x Hx ->%list_elem_of_singleton. done.
Qed.

(** A merge fails only on one address with two different contents. *)
Lemma merge_Err existing new e :
  merge existing new = Err e →
  e = ByteConflict ∧ ∃ o o', o ∈ existing ++ new ∧ o' ∈ new ∧ o.1 = o'.1 ∧ o.2 ≠ o'.2.
Proof.
  unfold merge. revert existing. induction new as [|o new IH]; intros existing E; cbn in E; [done|].
  destruct (find_path o.1 existing) as [[p b]|] eqn:Ef.
  - apply find_path_Some in Ef as [Hin Hp]. cbn in Hp. subst p. case_decide as Hb.
    + destruct (IH existing E) as (-> & x & y & Hx & Hy & ?). split; [done|]. exists x, y. set_solver.
    + rewrite merge_Err_fold in E. injection E as <-. split; [done|].
      exists (o.1, b), o. set_solver.
  - destruct (IH (existing ++ [o]) E) as (-> & x & y & Hx & Hy & ?). split; [done|].
    exists x, y. set_solver.
Qed.

(** ** Draining *)

Section QueueFacts.
Context {T : Type} `{PublicationTargetV1 T}.
Implicit Types q : PublicationQueue T.

(** The queue with another target state and slot. *)
Definition same_limits (q q' : PublicationQueue T) : Prop :=
  max_objects q' = max_objects q ∧ max_bytes q' = max_bytes q.

Lemma restore_and_empty q plan r :
  pending q = None → restore_and q plan r = (set_pending q (Some plan), r).
Proof. intros Hq. unfold restore_and, restore. by rewrite Hq. Qed.

(** A drain publishes the rest of the plan completely, or puts the whole plan
    back and reports the part it has published. *)
Lemma drain_loop_spec planned rest pb po q q' r :
  pending q = None → drain_loop planned rest pb po q = (q', r) →
  same_limits q q' ∧
  ((pending q' = None ∧
    r = Ok {| outcome := PublishedCompletely; detail_cause := None; fell_back := false;
              published_bytes := pb ++ exact_bytes rest; published_order := po ++ order rest |}) ∨
   (pending q' = Some planned ∧
    ((∃ done, done `prefix_of` rest ∧ r = Ok (lost (pb ++ exact_bytes done) (po ++ order done))) ∨
     ∃ e, r = Err e ∧ indicates_lost_connectivity e = false))).
Proof.
  revert pb po q. induction rest as [|[path bytes] rest IH]; intros pb po q Hq E; cbn in E.
  { injection E as <- <-. split; [done|]. left. cbn. by rewrite !app_nil_r. }
  destruct (is_connected (target q)) as [t connected]. destruct connected; cbn in E.
  - destruct (publish_one path bytes t) as [t' [[]|e]].
    + apply IH in E as [Hl Hr]; [|done]. split; [done|]. cbn.
      destruct Hr as [[Hp ->]|[Hp [(done & [k ->] & ->)|He]]].
      * left. split; [done|]. by rewrite <- !(assoc_L (++)).
      * right. split; [done|]. left. exists ((path, bytes) :: done).
        split; [by exists k|]. cbn. by rewrite <- !(assoc_L (++)).
      * right. split; [done|]. by right.
    + destruct (indicates_lost_connectivity e) eqn:He; rewrite restore_and_empty in E by done;
        injection E as <- <-; (split; [done|]); right; (split; [done|]).
      * left. exists []. split; [apply prefix_nil|]. cbn. by rewrite !app_nil_r.
      * right. eauto.
  - rewrite restore_and_empty in E by done. injection E as <- <-. split; [done|].
    right. split; [done|]. left. exists []. split; [apply prefix_nil|]. cbn. by rewrite !app_nil_r.
Qed.

(** What the drain of a plan may end in. *)
Definition drained (plan : PlannedPublicationV1) (q' : PublicationQueue T) (r : reply) : Prop :=
  (pending q' = None ∧
   r = Ok {| outcome := PublishedCompletely; detail_cause := None; fell_back := false;
             published_bytes := exact_bytes plan; published_order := order plan |}) ∨
  (pending q' = Some plan ∧
   ((∃ done, done `prefix_of` plan ∧ r = Ok (lost (exact_bytes done) (order done))) ∨
    ∃ e, r = Err e ∧ indicates_lost_connectivity e = false)).

Definition within_limits (q : PublicationQueue T) (p : PlannedPublicationV1) : Prop :=
  plan_len p ≤ max_objects q ∧ total_bytes p ≤ max_bytes q.

(** The plan a publication adds up to. *)
Definition united (planned : PlannedPublicationV1) (q : PublicationQueue T)
  : result ArchiveBackendError PlannedPublicationV1 :=
  match pending q with None => Ok planned | Some existing => merge existing planned end.

Lemma limit_test q p :
  ((plan_len p >? max_objects q) || (total_bytes p >? max_bytes q)) = false ↔ within_limits q p.
Proof. unfold within_limits. rewrite orb_false_iff, !Z.gtb_ltb, !Z.ltb_ge. done. Qed.

Lemma publish_cases planned q q' r :
  publish planned q = (q', r) →
  same_limits q q' ∧
  match united planned q with
  | Err e => pending q' = pending q ∧ r = Err e
  | Ok merged =>
      (¬ within_limits q merged ∧ pending q' = pending q ∧
       ∃ st, r = Ok st ∧ outcome st = QueueLimitReached) ∨
      (within_limits q merged ∧ drained merged q' r)
  end.
Proof.
  unfold publish, united.
  destruct (match pending q with None => Ok planned | Some e => merge e planned end) as [merged|e].
  2: { intros [= <- <-]. done. }
  cbn [set_pending max_objects max_bytes target].
  destruct ((plan_len merged >? max_objects q) || (total_bytes merged >? max_bytes q)) eqn:El.
  { intros [= <- <-]. split; [done|]. left. split; [|by eauto].
    intros Hl. apply limit_test in Hl. congruence. }
  apply limit_test in El. destruct (is_connected (target q)) as [t []]; cbn.
  - intros E. apply drain_loop_spec in E as [Hl Hr]; [|done]. split; [done|]. by right.
  - intros [= <- <-]. split; [done|]. right. split; [done|]. right. split; [done|].
    left. exists []. by split; [apply prefix_nil|].
Qed.

Lemma resume_cases q q' r :
  resume q = (q', r) →
  same_limits q q' ∧
  match pending q with
  | None => q' = q ∧ ∃ st, r = Ok st ∧ outcome st = NothingPending
  | Some plan => drained plan q' r
  end.
Proof.
  unfold resume. destruct (pending q) as [plan|].
  - intros E. by apply drain_loop_spec in E.
  - intros [= <- <-]. split; [done|]. eauto.
Qed.
End QueueFacts.

(** The outcome of [publish] on every branch. A plan that conflicts
    with the outstanding one, or that exceeds the limits together with it, is
    rejected and leaves the outstanding plan as it was; any other plan is united
    with it, and the union is then either published completely, byte for byte and
    in its order, or outstanding as a whole, also when the target fails. *)
Theorem publish_outcome {T} `{PublicationTargetV1 T} planned (q q' : PublicationQueue T) r :
  publish planned q = (q', r) →
  match united planned q with
  | Err e => e = ByteConflict ∧ r = Err e ∧ pending q' = pending q
  | Ok merged =>
      default [] (pending q) `prefix_of` merged ∧ (∀ o, o ∈ planned → o ∈ merged) ∧
      (∀ o, o ∈ merged → o ∈ default [] (pending q) ∨ o ∈ planned) ∧
      ((¬ within_limits q merged ∧ pending q' = pending q ∧
        ∃ st, r = Ok st ∧ outcome st = QueueLimitReached) ∨
       (within_limits q merged ∧ drained merged q' r))
  end.
Proof.
  intros E. apply publish_cases in E as [_ E]. unfold united in *.
  destruct (pending q) as [existing|]; cbn.
  - destruct (merge existing planned) as [m|e] eqn:Em.
    + apply merge_Ok in Em as (? & ? & ? & _). done.
    + apply merge_Err in Em as [-> _]. by destruct E.
  - split; [apply prefix_nil|]. split; [done|]. split; [by right|done].
Qed.

(** ** Sequences of calls *)

Lemma prefix_elem {A} (l k : list A) x : l `prefix_of` k → x ∈ l → x ∈ k.
Proof. intros [r ->] Hx. apply elem_of_app. by left. Qed.

(** The target with a record of the objects it has accepted. *)
Definition logged (T : Type) : Type := T * list (ArchivePath * list byte).

#[export] Instance logged_target T `{PublicationTargetV1 T} : PublicationTargetV1 (logged T) := {
  is_connected t := let '(t', b) := is_connected t.1 in ((t', t.2), b);
  reconnect t := (reconnect t.1, t.2);
  publish_one path bytes t :=
    let '(t', r) := publish_one path bytes t.1 in
    ((t', match r with Ok _ => t.2 ++ [(path, bytes)] | Err _ => t.2 end), r);
}.

Section Sequences.
Context {T : Type} `{PublicationTargetV1 T}.
Implicit Types q : PublicationQueue (logged T).

Definition log q : list (ArchivePath * list byte) := (target q).2.

(** The objects a call of [publish] takes over. *)
Definition taken (planned : PlannedPublicationV1) q : PlannedPublicationV1 :=
  match united planned q with
  | Ok merged =>
      if (plan_len merged >? max_objects q) || (total_bytes merged >? max_bytes q)
      then [] else planned
  | Err _ => []
  end.

(** The states of a queue under any sequence of calls, with the objects taken
    over so far. *)
Inductive reachable : PublicationQueue (logged T) → PlannedPublicationV1 → Prop :=
| reach_new q : pending q = None → reachable q []
| reach_publish q acc planned :
    reachable q acc → reachable (publish planned q).1 (acc ++ taken planned q)
| reach_resume q acc : reachable q acc → reachable (resume q).1 acc
| reach_reconnect q acc : reachable q acc → reachable (queue_reconnect q) acc.

(** A drain only adds to the record, and a complete one adds the whole plan. *)
Lemma drain_loop_log planned rest pb po q q' r :
  pending q = None → drain_loop planned rest pb po q = (q', r) →
  log q `prefix_of` log q' ∧ (pending q' = None → ∀ o, o ∈ rest → o ∈ log q').
Proof.
  revert pb po q. induction rest as [|[path bytes] rest IH]; intros pb po q Hq E; cbn in E.
  { injection E as <- <-. split; [done|]. by intros _ ? ?%elem_of_nil. }
  destruct (is_connected (target q).1) as [t connected]. destruct connected; cbn in E.
  - destruct (publish_one path bytes t) as [t' [[]|e]]; cbn in E.
    + apply IH in E as [Hpre Hall]; [|done]. cbn in Hpre. unfold log at 1 in Hpre. cbn in Hpre.
      split; [by eapply prefix_app_l|]. intros Hp o [->|Ho]%elem_of_cons; [|by apply Hall].
      eapply prefix_elem; [exact Hpre|]. apply elem_of_app. right. left.
    + destruct (indicates_lost_connectivity e); rewrite restore_and_empty in E by done;
        injection E as <- <-; by split.
  - rewrite restore_and_empty in E by done. injection E as <- <-. by split.
Qed.

Lemma publish_log planned q q' r :
  publish planned q = (q', r) →
  log q `prefix_of` log q' ∧
  (∀ merged, united planned q = Ok merged → within_limits q merged → pending q' = None →
    ∀ o, o ∈ merged → o ∈ log q').
Proof.
  unfold publish, united.
  destruct (match pending q with None => Ok planned | Some e => merge e planned end) as [merged|e].
  2: { intros [= <- <-]. done. }
  cbn [set_pending max_objects max_bytes].
  destruct ((plan_len merged >? max_objects q) || (total_bytes merged >? max_bytes q)) eqn:El.
  { intros [= <- <-]. split; [done|]. intros m [= <-] Hl. apply limit_test in Hl. congruence. }
  cbn. destruct (is_connected (target q).1) as [t []]; cbn; intros E.
  - apply drain_loop_log in E as [Hpre Hall]; [|done]. split; [done|].
    intros m [= <-] _. by apply Hall.
  - injection E as <- <-. split; [done|]. by intros.
Qed.

Definition owed q (acc : PlannedPublicationV1) : Prop :=
  ∀ o, o ∈ acc → o ∈ default [] (pending q) ∨ o ∈ log q.

Lemma resume_log q q' r :
  resume q = (q', r) →
  log q `prefix_of` log q' ∧
  (pending q' = None → ∀ o, o ∈ default [] (pending q) → o ∈ log q').
Proof.
  unfold resume. destruct (pending q) as [plan|] eqn:Hp; intros E.
  - by apply drain_loop_log in E.
  - injection E as <- <-. split; [done|]. by intros _ ? ?%elem_of_nil.
Qed.

(** After a publication everything outstanding before and everything taken over
    is outstanding or recorded. *)
Lemma publish_owed planned q acc :
  owed q acc → owed (publish planned q).1 (acc ++ taken planned q).
Proof.
  intros Hinv. destruct (publish planned q) as [q' r] eqn:E.
  destruct (publish_log _ _ _ _ E) as [Hpre Hall]. apply publish_cases in E as [_ E].
  unfold owed, taken in *. cbn [fst]. destruct (united planned q) as [merged|e] eqn:Em.
  - destruct ((plan_len merged >? max_objects q) || (total_bytes merged >? max_bytes q)) eqn:El.
    + destruct E as [(_ & -> & _)|[Hl _]]; [|apply limit_test in Hl; congruence].
      intros o. rewrite app_nil_r. intros [?|?]%Hinv; [by left|right; by eapply prefix_elem].
    + apply limit_test in El. destruct E as [[? _]|[_ E]]; [done|].
      assert (∀ o, o ∈ default [] (pending q) ∨ o ∈ planned → o ∈ merged) as Hm.
      { unfold united in Em. destruct (pending q) as [ex|]; cbn.
        - apply merge_Ok in Em as (? & ? & _). intros o [?|?]; [by eapply prefix_elem|auto].
        - injection Em as <-. by intros o [?%elem_of_nil|?]. }
      intros o Ho. assert (o ∈ merged ∨ o ∈ log q) as [Hom|Hol].
      { apply elem_of_app in Ho as [[?|?]%Hinv|?]; [left; apply Hm|by right|left; apply Hm]; tauto. }
      * destruct E as [[Hp _]|[Hp _]]; rewrite Hp; cbn; [right|by left].
        by apply (Hall merged).
      * right. by eapply prefix_elem.
  - destruct E as [-> _]. intros o. rewrite app_nil_r.
    intros [?|?]%Hinv; [by left|right; by eapply prefix_elem].
Qed.

Lemma resume_owed q acc : owed q acc → owed (resume q).1 acc.
Proof.
  intros Hinv. destruct (resume q) as [q' r] eqn:E. cbn.
  destruct (resume_log _ _ _ E) as [Hpre Hall]. apply resume_cases in E as [_ E].
  intros o [Ho|Ho]%Hinv; [|right; by eapply prefix_elem].
  destruct (pending q) as [plan|] eqn:Hp; [|by apply elem_of_nil in Ho].
  destruct E as [[Hn _]|[Hn _]]; rewrite Hn; [right|by left]. by apply Hall.
Qed.

Lemma reachable_owed q acc : reachable q acc → owed q acc.
Proof.
  induction 1 as [q Hq|q acc planned _ IH|q acc _ IH|q acc _ IH].
  - by intros o ?%elem_of_nil.
  - by apply publish_owed.
  - by apply resume_owed.
  - exact IH.
Qed.

Lemma reachable_limits q acc p :
  reachable q acc → pending q = Some p → within_limits q p.
Proof.
  intros Hr. revert p. induction Hr as [q Hq|q acc planned _ IH|q acc _ IH|q acc _ IH]; intros p Hp.
  - congruence.
  - destruct (publish planned q) as [q' r] eqn:E. cbn in *.
    apply publish_cases in E as [[E1 E2] E]. unfold within_limits. rewrite E1, E2.
    destruct (united planned q) as [merged|e].
    + destruct E as [(_ & Hp' & _)|[Hl [[Hp' _]|[Hp' _]]]]; rewrite Hp' in Hp;
        [by apply IH|done|by injection Hp as <-].
    + destruct E as [Hp' _]. rewrite Hp' in Hp. by apply IH.
  - destruct (resume q) as [q' r] eqn:E. cbn in *.
    apply resume_cases in E as [[E1 E2] E]. unfold within_limits. rewrite E1, E2.
    destruct (pending q) as [plan|] eqn:Hq.
    + destruct E as [[Hp' _]|[Hp' _]]; rewrite Hp' in Hp; [done|]. injection Hp as <-. by apply IH.
    + destruct E as [-> _]. congruence.
  - by apply IH.
Qed.
End Sequences.

(** C11. Under every sequence of [publish], [resume] and [reconnect],
    whatever the target answers, an object that was ever taken over is outstanding
    in the queue or has been accepted by the target, and the outstanding plan never
    exceeds the limits of the profile. *)
Theorem taken_over_never_lost {T} `{PublicationTargetV1 T} (q : PublicationQueue (logged T)) acc :
  reachable q acc →
  (∀ o, o ∈ acc → o ∈ default [] (pending q) ∨ o ∈ log q) ∧
  (∀ p, pending q = Some p → within_limits q p).
Proof.
  intros Hr. split; [by apply reachable_owed|]. intros p. by apply (reachable_limits q acc).
Qed.

(** A [resume] that reports that nothing is
    outstanding is a proof of delivery: the slot is empty and every object taken
    over so far has been accepted by the target. *)
Theorem nothing_outstanding_delivered {T} `{PublicationTargetV1 T}
    (q : PublicationQueue (logged T)) acc st :
  reachable q acc → (resume q).2 = Ok st → nothing_outstanding (outcome st) = true →
  pending (resume q).1 = None ∧ (∀ o, o ∈ acc → o ∈ log (resume q).1) ∧ fell_back st = false.
Proof.
  intros Hr E Ho. pose proof (resume_owed q acc (reachable_owed q acc Hr)) as Hinv.
  destruct (resume q) as [q' r] eqn:Er. cbn in *. subst r.
  pose proof Er as Er'. apply resume_cases in Er as [_ E]. unfold resume in Er'.
  assert (pending q' = None ∧ fell_back st = false) as [Hp Hf].
  { destruct (pending q) as [plan|] eqn:Hp.
    - destruct E as [[? [= ->]]|[_ [(k & _ & [= ->])|(e & [=] & _)]]]; [done|discriminate].
    - injection Er' as <- <-. done. }
  split; [done|]. split; [|done]. intros o Ho'. specialize (Hinv o Ho'). rewrite Hp in Hinv.
  destruct Hinv as [?%elem_of_nil|?]; done.
Qed.

(** ** A target for concrete runs *)

(** Reachable for the next [n] questions, then gone until [reconnect]. *)
#[export] Instance countdown_target : PublicationTargetV1 nat := {
  is_connected n := match n with O => (O, false) | S n => (n, true) end;
  reconnect _ := 9%nat;
  publish_one _ _ n := (n, Ok tt);
}.

Definition grant : ArchivePath := {| value := lit "grants/g.eag"; directory_length := 7 |}.
Definition entry : ArchivePath := {| value := lit "entries/e.eip"; directory_length := 8 |}.
Definition two_objects : PlannedPublicationV1 := [(grant, [x01]); (entry, [x02])].

(** A queue whose target is lost after the first object. *)
Definition short_queue : PublicationQueue (logged nat) :=
  {| target := (2%nat, []); max_objects := 10; max_bytes := 100; pending := None |}.

Lemma publish_outcome_witness :
  let r := publish two_objects short_queue in
  drained two_objects r.1 r.2 ∧ pending r.1 = Some two_objects.
Proof.
  intros r. pose proof (publish_outcome two_objects short_queue r.1 r.2 (surjective_pairing _)) as E.
  cbn in E. destruct E as (_ & _ & _ & [(Hl & _)|[_ E]]).
  - exfalso. apply Hl. split; vm_compute; discriminate.
  - split; [exact E|reflexivity].
Defined.

Lemma short_queue_reachable : reachable (publish two_objects short_queue).1 two_objects.
Proof. apply (reach_publish short_queue [] two_objects). apply reach_new. reflexivity. Qed.

Lemma taken_over_never_lost_witness :
  (entry, [x02]) ∈ default [] (pending (publish two_objects short_queue).1) ∨
  (entry, [x02]) ∈ log (publish two_objects short_queue).1.
Proof.
  apply (taken_over_never_lost _ _ short_queue_reachable). right. left.
Defined.

Lemma nothing_outstanding_delivered_witness :
  (entry, [x02]) ∈ log (resume (queue_reconnect (publish two_objects short_queue).1)).1.
Proof.
  refine (proj1 (proj2 (nothing_outstanding_delivered
    (queue_reconnect (publish two_objects short_queue).1) two_objects _ _ eq_refl eq_refl)) _ _).
  - apply reach_reconnect, short_queue_reachable.
  - right. left.
Defined.

(** ** Derived plans *)

Section DeriveFacts.
Context (decode : list byte → result string unit) (remote : str → option (list byte)).

(** The blob does not stop the derivation: it is no object, or a well-formed one
    at a valid address where the target holds nothing or the same bytes. *)
Definition publishable (blob : str * list byte) : Prop :=
  has_exact_object_prefix blob.2 = true →
  decode blob.2 = Ok tt ∧ ∃ a, archive_path_of blob.1 = Ok a ∧
    (remote (as_str a) = None ∨ remote (as_str a) = Some blob.2).

(** The object that is missing at the target, if the blob is one. *)
Definition contribution (blob : str * list byte) : PlannedPublicationV1 :=
  match has_exact_object_prefix blob.2, archive_path_of blob.1 with
  | true, Ok a => match remote (as_str a) with None => [(a, blob.2)] | Some _ => [] end
  | _, _ => []
  end.

Lemma visit_blob_Ok blob acc acc' :
  visit_blob decode remote blob acc = Ok acc' ↔
  publishable blob ∧ acc' = acc ++ contribution blob.
Proof.
  destruct blob as [hint b]. unfold visit_blob, publishable, contribution. cbn [fst snd].
  destruct (has_exact_object_prefix b); cbn [negb].
  2: { rewrite app_nil_r. split; [by intros [= <-]|by intros [_ ->]]. }
  destruct (decode b) as [[]|e]; [|split; [done|naive_solver]].
  destruct (archive_path_of hint) as [a|e]; cbn; [|split; [done|naive_solver]].
  destruct (remote (as_str a)) as [rb|] eqn:Er.
  - rewrite app_nil_r. case_decide as Hb; [subst rb|].
    + split; [intros [= <-]; split; [|done]; intros _; eauto|by intros [_ ->]].
    + split; [done|]. intros [Hp _]. destruct (Hp eq_refl) as (_ & a' & [= <-] & [?|?]); congruence.
  - split; [intros [= <-]; split; [|done]; intros _; eauto|by intros [_ ->]].
Qed.

Lemma visit_blobs_Ok blobs complete acc acc' :
  visit_blobs decode remote blobs complete acc = Ok acc' ↔
  complete = true ∧ Forall publishable blobs ∧ acc' = acc ++ flat_map contribution blobs.
Proof.
  revert acc. induction blobs as [|blob blobs IH]; intros acc; cbn.
  { rewrite app_nil_r. destruct complete; [|split; [done|by intros [? _]]].
    split; [by intros [= <-]|by intros (_ & _ & ->)]. }
  rewrite Forall_cons. split.
  - intros H. apply bind_Ok in H as (acc1 & H1 & H). apply visit_blob_Ok in H1 as [? ->].
    apply IH in H as (? & ? & ->). by rewrite (assoc_L (++)).
  - intros (? & [? ?] & ->).
    rewrite (proj2 (visit_blob_Ok blob acc (acc ++ contribution blob))) by done. cbn.
    apply IH. by rewrite (assoc_L (++)).
Qed.

Lemma elem_of_contributions blobs o :
  o ∈ flat_map contribution blobs ↔
  ∃ hint, (hint, o.2) ∈ blobs ∧ has_exact_object_prefix o.2 = true ∧
    archive_path_of hint = Ok o.1 ∧ remote (as_str o.1) = None.
Proof.
  rewrite list_elem_of_In, in_flat_map. setoid_rewrite <- list_elem_of_In. split.
  - intros ([hint b] & Hin & Ho). unfold contribution in Ho. cbn [fst snd] in Ho.
    destruct (has_exact_object_prefix b) eqn:Eb; [|by apply elem_of_nil in Ho].
    destruct (archive_path_of hint) as [a|] eqn:Ea; [|by apply elem_of_nil in Ho].
    destruct (remote (as_str a)) eqn:Er; [by apply elem_of_nil in Ho|].
    apply list_elem_of_singleton in Ho as ->. by exists hint.
  - intros (hint & Hin & Eb & Ea & Er). exists (hint, o.2). split; [done|].
    unfold contribution. cbn [fst snd]. rewrite Eb, Ea, Er. destruct o. by left.
Qed.
End DeriveFacts.

(** Deriving a plan succeeds exactly if the source was read to its end
    and no object of it is malformed, badly addressed or present at the target
    with other bytes. The plan then holds exactly the objects that are missing at
    the target, ascending in the publication order; within one sequence every
    object that is not an entry precedes the entry. *)
Theorem derive_pending_spec decode remote blobs complete plan :
  derive_pending decode remote blobs complete = Ok plan ↔
  complete = true ∧ Forall (publishable decode remote) blobs ∧
  plan ≡ₚ flat_map (contribution remote) blobs ∧
  plan = sort_by_key (pending_key ∘ fst) (flat_map (contribution remote) blobs) ∧
  StronglySorted (λ a b, compare_pending_addresses a.1 b.1 ≠ Gt) plan ∧
  (∀ o, o ∈ plan ↔ ∃ hint, (hint, o.2) ∈ blobs ∧ has_exact_object_prefix o.2 = true ∧
    archive_path_of hint = Ok o.1 ∧ remote (as_str o.1) = None) ∧
  (∀ before x after y, plan = before ++ x :: after → y ∈ after →
    sequence_prefix x.1 ≠ None → sequence_prefix x.1 = sequence_prefix y.1 →
    is_eip x.1 = true → is_eip y.1 = true).
Proof.
  unfold derive_pending. split.
  - intros H. apply bind_Ok in H as (acc & H & [= <-]). apply visit_blobs_Ok in H as (-> & Hp & ->).
    cbn [app]. set (all := flat_map (contribution remote) blobs).
    assert (StronglySorted (λ a b, compare_pending_addresses a.1 b.1 ≠ Gt)
      (sort_by_key (pending_key ∘ fst) all)) as Hs.
    { eapply sorted_impl; [|apply sort_by_key_sorted]. intros a b _ _ Hab.
      by rewrite compare_pending_addresses_key. }
    split; [done|]. split; [done|]. split; [apply sort_by_key_perm|]. split; [done|].
    split; [done|]. split; [intros o; rewrite elem_of_sort_by_key; apply elem_of_contributions|].
    intros before x after y E Hy Hn Hq Hx. rewrite E in Hs.
    apply StronglySorted_app in Hs as (_ & _ & Hs). apply StronglySorted_cons in Hs as [Hs _].
    rewrite Forall_forall in Hs. specialize (Hs y Hy). unfold compare_pending_addresses in Hs.
    rewrite <- Hq in Hs. destruct (sequence_prefix x.1) as [q|]; [|done].
    rewrite cmp_refl, Hx in Hs. cbn in Hs. by destruct (is_eip y.1).
  - intros (-> & Hp & _ & -> & _).
    by rewrite (proj2 (visit_blobs_Ok decode remote blobs true []
      (flat_map (contribution remote) blobs))).
Qed.
