(* ===== verification/SyncClient.v ===== *)
(** * SyncClient: the writer's side of synchronisation ([ea-sync-client])

    [Module Queue]: the queue derived from committed archive bytes and the one
    mapping to the public status ([queue.rs]). [Module Retry]: the durable
    bounded retry schedule ([retry.rs]) on top of [RetryPolicy] of [ea-types].

    The parsed inventory, the verifier's report and the hash of a grant plan come
    from other crates and are arguments here. *)

From S2P Require Import Prelude Types Str ArchivePath PublicationQueue.

Inductive SyncClientError :=
| Archive | QueueDerivation | ClientResumeAttemptsExhausted | NotAutomaticallyRetried
| ReceiptInvalid | ReceiptNotPersisted | RetryStateUnreadable | Protocol
| NetworkPublicationUnpaired.

#[export] Instance SyncClientError_eq_dec : EqDecision SyncClientError.
Proof. solve_decision. Defined.

Definition client_error_code (e : SyncClientError) : string :=
  match e with
  | Archive => "EA-SYNC-CLIENT-ARCHIVE"
  | QueueDerivation => "EA-SYNC-CLIENT-QUEUE-DERIVATION"
  | ClientResumeAttemptsExhausted => "EA-SYNC-CLIENT-RESUME-EXHAUSTED"
  | NotAutomaticallyRetried => "EA-SYNC-CLIENT-NOT-RETRIED"
  | ReceiptInvalid => "EA-SYNC-RECEIPT-INVALID"
  | ReceiptNotPersisted => "EA-SYNC-RECEIPT-NOT-PERSISTED"
  | RetryStateUnreadable => "EA-SYNC-CLIENT-RETRY-STATE"
  | Protocol => "EA-SYNC-CLIENT-PROTOCOL"
  | NetworkPublicationUnpaired => "EA-SYNC-CLIENT-NETWORK-UNPAIRED"
  end.

Module Queue.

(** ** Inventory *)

(** A parsed entry and a parsed grant, as far as the queue reads them. [Item] is
    the plan position of a grant. *)
Record Entry := {
  e_object_hash : Hash32;
  e_entry_hash : Hash32;
  e_chain_sequence : Z;
  e_initial_grant_plan_hash : Hash32;
  e_exact_bytes : list byte;
}.

Record Grant (Item : Type) := {
  g_object_hash : Hash32;
  g_entry_hash : Hash32;
  g_exact_bytes : list byte;
  g_item : Item;
}.
Arguments g_object_hash {Item} _.
Arguments g_entry_hash {Item} _.
Arguments g_exact_bytes {Item} _.
Arguments g_item {Item} _.

(** ** Pending entries *)

Record PendingEntryV1 (Item : Type) := {
  entry_bytes : list byte;
  p_entry_hash : Hash32;
  entry_object_hash : Hash32;
  sequence : Z;
  grant_bytes : list (list byte);
  grant_plan_items : list Item;
  committed_order : list str;
}.
Arguments entry_bytes {Item} _.
Arguments p_entry_hash {Item} _.
Arguments entry_object_hash {Item} _.
Arguments sequence {Item} _.
Arguments grant_bytes {Item} _.
Arguments grant_plan_items {Item} _.
Arguments committed_order {Item} _.

Definition publication_plan {Item} (p : PendingEntryV1 Item) : list (str * list byte) :=
  zip (take (length (grant_bytes p)) (committed_order p)) (grant_bytes p) ++
  match last (committed_order p) with
  | Some entry_path => [(entry_path, entry_bytes p)]
  | None => []
  end.

Record SyncQueueV1 (Item : Type) := {
  q_pending : list (PendingEntryV1 Item);
  q_confirmed : nat;
}.
Arguments q_pending {Item} _.
Arguments q_confirmed {Item} _.

(** ** Committed addresses *)

(** Later blobs with the same hash replace the address, as [BTreeMap::insert]. *)
Definition committed_addresses (object_hash : list byte → Hash32)
    (blobs : list (str * list byte)) : gmap Hash32 str :=
  foldl (λ paths blob,
    let hint := blob.1 in
    if is_staging_path hint
       || (negb (starts_with (lit "entries/") hint) && negb (starts_with (lit "grants/") hint))
    then paths
    else <[object_hash blob.2 := hint]> paths) ∅ blobs.

(** ** Derivation *)

Section Derive.
Context {Item : Type}.
(** [GrantPlanV1::new(items)?.hash()], and [entry_is_server_confirmed] on the
    report of the full verifier. *)
Context (grant_plan_hash : list Item → result SyncClientError Hash32).
Context (server_confirmed : Hash32 → bool).
Context (committed_paths : gmap Hash32 str).

(** The committed grants of an entry: address, bytes, plan position. *)
Definition grants_of (grants : list (Grant Item)) (entry_hash : Hash32)
  : list (str * (list byte * Item)) :=
  omap (λ g,
    if decide (g_entry_hash g = entry_hash) then
      path ← committed_paths !! g_object_hash g;
      Some (path, (g_exact_bytes g, g_item g))
    else None) grants.

(** The body of the loop for an entry without a verified receipt. *)
Definition derive_entry (grants : list (Grant Item)) (e : Entry)
  : result SyncClientError (PendingEntryV1 Item) :=
  entry_path ← ok_or QueueDerivation (committed_paths !! e_object_hash e);
  let found := grants_of grants (e_entry_hash e) in
  ensure (negb (bool_decide (length found = 0%nat))) QueueDerivation;;
  hash ← grant_plan_hash ((λ g, g.2.2) <$> found);
  ensure (bool_decide (hash = e_initial_grant_plan_hash e)) QueueDerivation;;
  let sorted := sort_by_key fst found in
  Ok {| entry_bytes := e_exact_bytes e; p_entry_hash := e_entry_hash e;
        entry_object_hash := e_object_hash e; sequence := e_chain_sequence e;
        grant_bytes := (λ g, g.2.1) <$> sorted;
        grant_plan_items := (λ g, g.2.2) <$> sorted;
        committed_order := sorted.*1 ++ [entry_path] |}.

Fixpoint derive_loop (grants : list (Grant Item)) (entries : list Entry)
    (pending : list (PendingEntryV1 Item)) (confirmed : nat)
  : result SyncClientError (list (PendingEntryV1 Item) * nat) :=
  match entries with
  | [] => Ok (pending, confirmed)
  | e :: entries =>
      if server_confirmed (e_object_hash e)
      then derive_loop grants entries pending (S confirmed)
      else
        p ← derive_entry grants e;
        derive_loop grants entries (pending ++ [p]) confirmed
  end.

Definition derive (entries : list Entry) (grants : list (Grant Item))
  : result SyncClientError (SyncQueueV1 Item) :=
  '(pending, confirmed) ← derive_loop grants entries [] 0%nat;
  Ok {| q_pending := sort_by_key sequence pending; q_confirmed := confirmed |}.
End Derive.

(** ** The public status *)

Inductive PendingStepV1 :=
| NetworkArchive | ServerUpload | ResumeExhausted | StepQueueLimit | StepProfileNotAllowed.

Definition sync_state_of (outstanding confirmed : nat) (step : option PendingStepV1)
  : SyncStatus * option DetailCause :=
  match step with
  | None =>
      if bool_decide (outstanding = 0%nat) && bool_decide (0 < confirmed)%nat
      then (Synchronized, None)
      else if bool_decide (outstanding = 0%nat) then (LocallySaved, None)
      else (UploadPending, None)
  | Some NetworkArchive => (UploadPending, Some NetworkArchiveWaiting)
  | Some ServerUpload => (UploadPending, None)
  | Some ResumeExhausted => (Failed, Some ResumeAttemptsExhausted)
  | Some StepQueueLimit => (Failed, Some CauseQueueLimitReached)
  | Some StepProfileNotAllowed => (Failed, Some CauseProfileNotAllowed)
  end.

Definition step_of (outcome : PublicationOutcomeV1) : option PendingStepV1 :=
  match outcome with
  | NothingPending | PublishedCompletely => None
  | Deferred => Some NetworkArchive
  | QueueLimitReached => Some StepQueueLimit
  end.

(** ** Facts *)

Lemma sync_state_synchronized outstanding confirmed step :
  (sync_state_of outstanding confirmed step).1 = Synchronized ↔
  step = None ∧ outstanding = 0%nat ∧ (0 < confirmed)%nat.
Proof.
  unfold sync_state_of. destruct step as [[]|]; try (split; [done|by intros [? _]]).
  repeat case_bool_decide; cbn; split; try done; naive_solver lia.
Qed.

Section DeriveFacts.
Context {Item : Type} (plan_hash : list Item → result SyncClientError Hash32).
Context (server_confirmed : Hash32 → bool) (paths : gmap Hash32 str) (grants : list (Grant Item)).

Definition unconfirmed (e : Entry) : bool := negb (server_confirmed (e_object_hash e)).

(** What the loop collects: every entry, confirmed or pending. *)
Lemma derive_loop_Ok entries pending confirmed r :
  derive_loop plan_hash server_confirmed paths grants entries pending confirmed = Ok r →
  ∃ new, r.1 = pending ++ new ∧
    Forall2 (λ e p, derive_entry plan_hash paths grants e = Ok p)
      (List.filter unconfirmed entries) new ∧
    (r.2 + length new = confirmed + length entries)%nat ∧
    (r.2 = confirmed + length (List.filter (λ e, server_confirmed (e_object_hash e)) entries))%nat.
Proof.
  revert pending confirmed. induction entries as [|e entries IH]; intros pending confirmed E; cbn in E.
  { injection E as <-. exists []. cbn. rewrite app_nil_r. split; [done|]. split; [done|]. lia. }
  unfold unconfirmed in *. cbn. destruct (server_confirmed (e_object_hash e)); cbn.
  - apply IH in E as (new & E1 & E2 & E3 & E4). exists new. split; [done|]. split; [done|]. lia.
  - apply bind_Ok in E as (p & Ep & E). apply IH in E as (new & E1 & E2 & E3 & E4).
    exists (p :: new). rewrite <- (assoc_L (++)) in E1. split; [done|].
    split; [by constructor|]. cbn. lia.
Qed.

(** The grants of a pending entry are all committed grants that name it, by
    address, and their plan has the hash of the manifest. *)
Lemma derive_entry_Ok e p :
  derive_entry plan_hash paths grants e = Ok p →
  ∃ entry_path, paths !! e_object_hash e = Some entry_path ∧
    let found := grants_of paths grants (e_entry_hash e) in
    found ≠ [] ∧ plan_hash ((λ g, g.2.2) <$> found) = Ok (e_initial_grant_plan_hash e) ∧
    entry_object_hash p = e_object_hash e ∧ sequence p = e_chain_sequence e ∧
    publication_plan p =
      ((λ g, (g.1, g.2.1)) <$> sort_by_key fst found) ++ [(entry_path, e_exact_bytes e)].
Proof.
  unfold derive_entry. intros E. inv_ok. apply bool_decide_eq_true in H2.
  exists x. split; [done|]. cbn. split; [|split; [congruence|split; [done|split; [done|]]]].
  - intros E. by rewrite E in H0.
  - unfold publication_plan. cbn. rewrite last_snoc, length_fmap.
    set (l := sort_by_key fst _). f_equal.
    rewrite take_app_le by (rewrite length_fmap; lia).
    rewrite take_ge by (rewrite length_fmap; lia).
    induction l as [|g l IH]; cbn; [done|]. by rewrite IH.
Qed.
End DeriveFacts.


(** One entry with one grant, not yet confirmed. *)
Definition sample_entry : Entry :=
  {| e_object_hash := [x01]; e_entry_hash := [x02]; e_chain_sequence := 7;
     e_initial_grant_plan_hash := [x03]; e_exact_bytes := [xaa] |}.
Definition sample_grant : Grant unit :=
  {| g_object_hash := [x04]; g_entry_hash := [x02]; g_exact_bytes := [xbb]; g_item := tt |}.
Definition sample_paths : gmap Hash32 str :=
  {[ [x01] := lit "entries/e.eip"; [x04] := lit "grants/g.eag" ]}.


(** The public state [synchronisiert] over a derived queue means
    what it says: there is an entry, every inventoried entry carries a verified
    receipt, and the publication queue reported that nothing is outstanding. *)
Theorem synchronized_means_confirmed {Item} plan_hash server_confirmed paths entries
    (grants : list (Grant Item)) q out :
  derive plan_hash server_confirmed paths entries grants = Ok q →
  (sync_state_of (length (q_pending q)) (q_confirmed q) (step_of out)).1 = Synchronized ↔
  entries ≠ [] ∧ (∀ e, e ∈ entries → server_confirmed (e_object_hash e) = true) ∧
  nothing_outstanding out = true.
Proof.
  intros E. rewrite sync_state_synchronized.
  assert (step_of out = None ↔ nothing_outstanding out = true) as -> by (by destruct out).
  unfold derive in E. apply bind_Ok in E as ([pending confirmed] & E & [= <-]). cbn.
  rewrite (sort_by_key_perm sequence pending).
  apply derive_loop_Ok in E as (new & E1 & E2 & E3 & E4). cbn in *. subst pending.
  assert (length new = 0%nat ↔ ∀ e, e ∈ entries → server_confirmed (e_object_hash e) = true) as ->.
  { rewrite <- (Forall2_length _ _ _ E2), length_zero_iff_nil. split.
    - intros Hnil e He. destruct (server_confirmed (e_object_hash e)) eqn:Ec; [done|].
      assert (In e (List.filter (unconfirmed server_confirmed) entries)) as Hin.
      { apply filter_In. split; [by apply list_elem_of_In|]. unfold unconfirmed. by rewrite Ec. }
      rewrite Hnil in Hin. by destruct Hin.
    - intros Hall. destruct (List.filter (unconfirmed server_confirmed) entries) as [|e l] eqn:Ef; [done|].
      assert (In e (List.filter (unconfirmed server_confirmed) entries)) as Hin
        by (rewrite Ef; by left).
      apply filter_In in Hin as [Hin Hn]. unfold unconfirmed in Hn. apply list_elem_of_In in Hin.
      by rewrite (Hall e Hin) in Hn. }
  split.
  - intros (? & Hall & Hc). split; [|done]. intros ->. cbn in *. lia.
  - intros (Hne & Hall & ?). split; [done|]. split; [done|].
    rewrite E4. destruct entries as [|e entries]; [done|]. cbn.
    rewrite (Hall e) by (by left). cbn. lia.
Qed.

Lemma synchronized_means_confirmed_witness :
  ∃ q, derive (λ _, Ok [x03]) (λ _, true) sample_paths [sample_entry] [sample_grant] = Ok q ∧
    (sync_state_of (length (q_pending q)) (q_confirmed q) (step_of PublishedCompletely)).1
      = Synchronized.
Proof.
  destruct (derive (λ _, Ok [x03]) (λ _, true) sample_paths [sample_entry] [sample_grant])
    as [q|e] eqn:E; [|vm_compute in E; discriminate E].
  exists q. split; [reflexivity|].
  apply (synchronized_means_confirmed _ _ _ _ _ q PublishedCompletely E).
  split; [discriminate|]. split; [|reflexivity]. intros e _. reflexivity.
Defined.
End Queue.

Module Retry.

(** ** Schedule *)

Record RetryScheduleV1 := {
  failed_attempts : Z;
  next_attempt_at : Z;
  cursor : option (list byte);
}.

Definition fresh : RetryScheduleV1 :=
  {| failed_attempts := 0; next_attempt_at := 0; cursor := None |}.

Definition is_due (s : RetryScheduleV1) (now : Z) : bool := now >=? next_attempt_at s.

(** [OsJitter::jitter_ms] with the outcome [random] of the system generator.
    [None] is the panic of [ceiling_ms + 1], or of the remainder by its wrapped
    value. *)
Definition os_jitter_ms (random : option Z) (ceiling_ms : Z) : option Z :=
  if ceiling_ms =? 0 then Some 0
  else match random with
  | None => Some ceiling_ms
  | Some raw => if ceiling_ms + 1 <=? u64_max then Some (raw mod (ceiling_ms + 1)) else None
  end.

(** ** Database *)

(** A row of the table [sync_retry]; integers are [i64] in the store. *)
Record Row := {
  r_failed_attempts : Z;
  r_next_attempt_at_ms : Z;
  r_cursor : option (list byte);
  r_recorded_at_ms : Z;
}.

(** The table and, for each further statement, whether the store fails it. *)
Record Database := { rows : gmap Hash32 Row; faults : list bool }.

(** Runs one statement, or fails with a [StoreError] that becomes
    [RetryStateUnreadable]. *)
Definition statement {A} (f : gmap Hash32 Row → gmap Hash32 Row * A) (d : Database)
  : Database * result SyncClientError A :=
  let rest := tail (faults d) in
  if default false (head (faults d))
  then ({| rows := rows d; faults := rest |}, Err RetryStateUnreadable)
  else let '(t, a) := f (rows d) in ({| rows := t; faults := rest |}, Ok a).

Record RetryStore := { retry_config : RetryConfig; max_attempts : Z }.

Definition open_store (has_migration : result SyncClientError bool) (c : RetryConfig) (max : Z)
  : result SyncClientError RetryStore :=
  applied ← has_migration;
  if applied : bool then Ok {| retry_config := c; max_attempts := max |}
  else Err RetryStateUnreadable.

(** [load] on the row found. *)
Definition schedule_of (row : option Row) : result SyncClientError RetryScheduleV1 :=
  match row with
  | None => Ok fresh
  | Some row =>
      let n := Z.max (r_failed_attempts row) 0 in
      if n <=? u16_max
      then Ok {| failed_attempts := n; next_attempt_at := r_next_attempt_at_ms row;
                 cursor := r_cursor row |}
      else Err RetryStateUnreadable
  end.

Definition load (entry : Hash32) (d : Database)
  : Database * result SyncClientError RetryScheduleV1 :=
  let '(d, row) := statement (λ t, (t, t !! entry)) d in
  (d, row ≫= schedule_of).

Definition write (entry : Hash32) (n next : Z) (c : option (list byte)) (now : Z) (d : Database)
  : Database * result SyncClientError unit :=
  statement (λ t, (<[entry := {| r_failed_attempts := n; r_next_attempt_at_ms := next;
                                 r_cursor := c; r_recorded_at_ms := now |}]> t, tt)) d.

Definition clear (entry : Hash32) (d : Database) : Database * result SyncClientError unit :=
  statement (λ t, (delete entry t, tt)) d.

(** The loop of [advance]: [n] further calls of [next]; [None] is a panic. *)
Fixpoint advance_more {J} `{JitterSource J} (n : nat) (d : RetryDecision) (p : RetryPolicy) (j : J)
  : option (RetryDecision * RetryPolicy * J) :=
  match n with
  | O => Some (d, p, j)
  | S n => '(d, p, j) ← next p j; advance_more n d p j
  end.

Definition advance {J} `{JitterSource J} (p : RetryPolicy) (failed_attempts : Z) (j : J)
  : option (RetryDecision * RetryPolicy * J) :=
  '(d, p, j) ← next p j;
  advance_more (Z.to_nat (failed_attempts - 1)) d p j.

(** [self.write(..)?; Ok(r)]. *)
Definition written {A} (w : Database * result SyncClientError unit) (r : A)
  : Database * result SyncClientError A :=
  match w with (d, Ok _) => (d, Ok r) | (d, Err e) => (d, Err e) end.

Definition record_failure {J} `{JitterSource J} (s : RetryStore) (entry : Hash32) (now : Z)
    (j : J) (d : Database)
  : option (Database * result SyncClientError (option RetryScheduleV1)) :=
  match load entry d with
  | (d, Err e) => Some (d, Err e)
  | (d, Ok previous) =>
      let n := saturating_add u16_max (failed_attempts previous) 1 in
      match into_retry_policy (TechnicalError_new TemporaryTransport) (retry_config s) with
      | Err _ => None
      | Ok policy =>
          '(decision, _, _) ← advance policy n j;
          match decision with
          | RetryExhausted _ =>
              Some (written (write entry n (next_attempt_at previous) (cursor previous) now d) None)
          | RetryAfter delay_ms =>
              if n >=? max_attempts s then
                Some (written (write entry n (next_attempt_at previous) (cursor previous) now d) None)
              else
                let delay := if delay_ms <=? i64_max then delay_ms else i64_max in
                let next := saturating_add i64_max now delay in
                Some (written (write entry n next (cursor previous) now d)
                  (Some {| failed_attempts := n; next_attempt_at := next;
                           cursor := cursor previous |}))
          end
      end
  end.

Definition record_cursor (entry : Hash32) (c : list byte) (now : Z) (d : Database)
  : Database * result SyncClientError unit :=
  match load entry d with
  | (d, Err e) => (d, Err e)
  | (d, Ok previous) =>
      write entry (failed_attempts previous) (next_attempt_at previous) (Some c) now d
  end.

(** ** Facts *)

Lemma os_jitter_in_range random ceiling_ms v :
  0 ≤ ceiling_ms → (∀ raw, random = Some raw → 0 ≤ raw) →
  os_jitter_ms random ceiling_ms = Some v → 0 ≤ v ≤ ceiling_ms.
Proof.
  unfold os_jitter_ms. intros Hc Hr. destruct (Z.eqb_spec ceiling_ms 0); [intros [= <-]; lia|].
  destruct random as [raw|]; [|intros [= <-]; lia].
  destruct (_ <=? _); [|done]. intros [= <-].
  pose proof (Z.mod_pos_bound raw (ceiling_ms + 1)). lia.
Qed.

(** The jitter drawn from the system generator panics exactly for
    the ceiling [u64::MAX], which a configuration may have. *)
Theorem os_jitter_panics_iff random ceiling_ms :
  in_u64 ceiling_ms →
  os_jitter_ms random ceiling_ms = None ↔ ceiling_ms = u64_max ∧ is_Some random.
Proof.
  unfold os_jitter_ms, in_u64. intros Hc.
  destruct (Z.eqb_spec ceiling_ms 0); [split; [done|]; unfold u64_max; lia|].
  destruct random as [raw|]; [|split; [done|by intros [_ [? ?]]]].
  destruct (Z.leb_spec (ceiling_ms + 1) u64_max); split; try done; [lia|].
  intros _. split; [lia|done].
Qed.

Lemma os_jitter_panics_iff_witness :
  os_jitter_ms (Some 5) (ceiling_ms
    {| max_retries := 1; base_delay_ms := u64_max; cap_delay_ms := u64_max |} 1) = None.
Proof.
  apply (os_jitter_panics_iff (Some 5)).
  - vm_compute. split; discriminate.
  - split; [reflexivity|]. exists 5. reflexivity.
Defined.

(** Advancing a fresh policy by [n] failures gives decision number [n]. *)
Section Advance.
Context {J : Type} `{JitterSource J} (c : RetryConfig) (Hwf : retry_config_wf c).

Lemma advance_more_from n i d (j : J) :
  1 ≤ i → retry_decision_ok c (i - 1) d →
  ∃ d' p' j', advance_more n d {| config := c; state := retry_state_at c i |} j = Some (d', p', j') ∧
    retry_decision_ok c (i - 1 + Z.of_nat n) d'.
Proof.
  revert i d j. induction n as [|n IH]; intros i d j Hi Hd; cbn [advance_more].
  { eexists _, _, _. split; [done|]. by rewrite Z.add_0_r. }
  destruct (next_step c Hwf i j ltac:(lia)) as (d1 & j1 & -> & Hd1). cbn.
  replace (i - 1 + Z.of_nat (S n)) with (i + 1 - 1 + Z.of_nat n) by lia.
  apply IH; [lia|]. by replace (i + 1 - 1) with i by lia.
Qed.

Lemma advance_decision n (j : J) :
  1 ≤ n →
  ∃ d p' j', advance {| config := c; state := Active 0 |} n j = Some (d, p', j') ∧
    retry_decision_ok c (n - 1) d.
Proof.
  intros Hn. unfold advance.
  assert (Active 0 = retry_state_at c 0) as ->.
  { unfold retry_state_at. destruct Hwf as (Hm & _). by rewrite decide_True by lia. }
  destruct (next_step c Hwf 0 j ltac:(lia)) as (d1 & j1 & -> & Hd1).
  change (0 + 1) with 1. cbn [mbind option_bind].
  destruct (advance_more_from (Z.to_nat (n - 1)) 1 d1 j1) as (d' & p' & j' & -> & Hd'); [lia|done|].
  exists d', p', j'. split; [done|].
  by replace (1 - 1 + Z.of_nat (Z.to_nat (n - 1))) with (n - 1) in Hd' by lia.
Qed.
End Advance.

(** The counter after one more failure, and whether the bounds are exhausted. *)
Definition counted (previous : RetryScheduleV1) : Z :=
  saturating_add u16_max (failed_attempts previous) 1.
Definition exhausted (s : RetryStore) (n : Z) : Prop :=
  max_retries (retry_config s) < n ∨ max_attempts s ≤ n.

Lemma schedule_of_range row sch : schedule_of row = Ok sch → 0 ≤ failed_attempts sch ≤ u16_max.
Proof.
  unfold schedule_of. destruct row as [row|]; [|intros [= <-]; cbn; unfold u16_max; lia].
  destruct (Z.leb_spec (Z.max (r_failed_attempts row) 0) u16_max); [|done].
  intros [= <-]. cbn. lia.
Qed.

(** The three ways a recorded failure ends, over the row found. *)
Lemma record_failure_cases {J} `{JitterSource J} s entry now (j : J) d d1 previous :
  retry_config_wf (retry_config s) → load entry d = (d1, Ok previous) →
  let n := counted previous in
  ∃ next r, record_failure s entry now j d =
      Some (written (write entry n next (cursor previous) now d1) r) ∧
    (r = None ↔ exhausted s n) ∧
    (r = None → next = next_attempt_at previous) ∧
    (∀ sch, r = Some sch →
      sch = {| failed_attempts := n; next_attempt_at := next; cursor := cursor previous |} ∧
      next ≤ now + Z.min (base_delay_ms (retry_config s) * 2 ^ (n - 1)) (cap_delay_ms (retry_config s)) ∧
      next ≤ i64_max).
Proof.
  intros Hwf Hl n. unfold record_failure. rewrite Hl.
  assert (0 ≤ failed_attempts previous ≤ u16_max) as Hp.
  { unfold load in Hl. destruct (statement _ d) as [d2 row]. injection Hl as _ Hl.
    apply bind_Ok in Hl as (row' & _ & Hl). by apply schedule_of_range in Hl. }
  assert (1 ≤ n) as Hn by (unfold n, counted, saturating_add, u16_max in *; lia).
  cbn [into_retry_policy TechnicalError_new err_code class].
  change (into_retry_policy (TechnicalError_new TemporaryTransport) (retry_config s))
    with (Ok (E:=TechnicalError) {| config := retry_config s; state := Active 0 |}).
  fold (counted previous). fold n.
  destruct (advance_decision (retry_config s) Hwf n j Hn) as (dec & p' & j' & -> & Hdec).
  cbn [mbind option_bind]. unfold exhausted.
  destruct dec as [delay|k]; cbn in Hdec.
  - destruct (Z.geb_spec n (max_attempts s)).
    + eexists _, None. split; [done|]. split; [split; [intros _; right; lia|done]|]. done.
    + eexists _, (Some _). split; [done|]. split; [split; [done|lia]|]. split; [done|].
      intros sch [= <-]. split; [done|]. unfold saturating_add.
      destruct (Z.leb_spec delay i64_max); unfold i64_max in *; lia.
  - eexists _, None. split; [done|]. split; [split; [intros _; left; lia|done]|]. done.
Qed.

Definition healthy (d : Database) : Prop := faults d = [].

Lemma load_healthy entry d : healthy d → load entry d = (d, schedule_of (rows d !! entry)).
Proof. destruct d as [t f]. unfold healthy, load, statement. cbn. by intros ->. Qed.

(** Recording a failure with a working store never panics and
    writes exactly one row: the counter goes up by one (up to the width of the
    column), the cursor is kept. It reports exhaustion exactly when a bound of the
    policy or of the profile is reached, and otherwise a next attempt within the
    capped exponential delay; what it returns is what [load] finds afterwards. *)
Theorem record_failure_durable {J} `{JitterSource J} s entry now (j : J) d previous :
  retry_config_wf (retry_config s) → healthy d → schedule_of (rows d !! entry) = Ok previous →
  ∃ d' r, record_failure s entry now j d = Some (d', Ok r) ∧ healthy d' ∧
    (∀ e, e ≠ entry → rows d' !! e = rows d !! e) ∧
    (r = None ↔ exhausted s (counted previous)) ∧
    ∃ sch, load entry d' = (d', Ok sch) ∧ failed_attempts sch = counted previous ∧
      cursor sch = cursor previous ∧
      match r with
      | None => next_attempt_at sch = next_attempt_at previous
      | Some sch' =>
          sch' = sch ∧
          next_attempt_at sch ≤ now + Z.min (base_delay_ms (retry_config s) * 2 ^ (counted previous - 1))
                                             (cap_delay_ms (retry_config s))
      end.
Proof.
  intros Hwf Hd Hp. pose proof (load_healthy entry d Hd) as Hl. rewrite Hp in Hl.
  destruct (record_failure_cases s entry now j d d previous Hwf Hl) as (next & r & E & Hex & Hnone & Hsome).
  rewrite E. destruct d as [t f]. unfold healthy in Hd. cbn in Hd. subst f. cbn.
  set (row := {| r_failed_attempts := counted previous; r_next_attempt_at_ms := next;
                 r_cursor := cursor previous; r_recorded_at_ms := now |}).
  eexists {| rows := <[entry := row]> t; faults := [] |}, r. split; [done|]. split; [done|].
  split; [intros e He; by apply lookup_insert_ne|]. split; [done|].
  pose proof (schedule_of_range _ _ Hp) as Hr.
  exists {| failed_attempts := counted previous; next_attempt_at := next; cursor := cursor previous |}.
  split.
  { rewrite load_healthy by done. cbn. rewrite lookup_insert_eq. unfold schedule_of. cbn.
    assert (0 ≤ counted previous ≤ u16_max) as Hc by (unfold counted, saturating_add, u16_max in *; lia).
    rewrite Z.max_l by lia. by rewrite (proj2 (Z.leb_le _ _)) by lia. }
  split; [done|]. split; [done|]. destruct r as [sch|]; cbn; [|by apply Hnone].
  destruct (Hsome sch eq_refl) as (-> & ? & _). done.
Qed.

Definition sample_store : RetryStore := {| retry_config := retry_example; max_attempts := 3 |}.
Definition empty_db : Database := {| rows := ∅; faults := [] |}.

Lemma record_failure_durable_witness :
  ∃ d' r, record_failure sample_store [x01] 1000 tt empty_db = Some (d', Ok r) ∧
    (r = None ↔ exhausted sample_store 1).
Proof.
  destruct (record_failure_durable sample_store [x01] 1000 tt empty_db fresh)
    as (d' & r & E & _ & _ & Hr & _).
  - repeat split; vm_compute; discriminate.
  - reflexivity.
  - reflexivity.
  - exists d', r. split; [exact E|exact Hr].
Defined.

(** ** Failing stores *)

(** Whatever statements the store fails, recording a failure
    does not panic, and it ends either in [RetryStateUnreadable] with the table
    unchanged or with the counter written: an error never lowers or resets it. *)
Theorem record_failure_fail_closed {J} `{JitterSource J} s entry now (j : J) d :
  retry_config_wf (retry_config s) →
  ∃ d' r, record_failure s entry now j d = Some (d', r) ∧
    ((r = Err RetryStateUnreadable ∧ rows d' = rows d) ∨
     (∃ previous sch, schedule_of (rows d !! entry) = Ok previous ∧ r = Ok sch ∧
       ∃ row, rows d' = <[entry := row]> (rows d) ∧ r_failed_attempts row = counted previous)).
Proof.
  intros Hwf. destruct (load entry d) as [d1 [previous|e]] eqn:Hl.
  - destruct (record_failure_cases s entry now j d d1 previous Hwf Hl) as (next & r & -> & _).
    assert (schedule_of (rows d !! entry) = Ok previous ∧ rows d1 = rows d) as [Hs Hr].
    { unfold load, statement in Hl. destruct (default false _); injection Hl as <- Hl; [done|].
      by split. }
    unfold written, write, statement. destruct (default false (head (faults d1))); cbn.
    + eexists _, _. split; [done|]. by left.
    + eexists _, _. split; [done|]. right. exists previous, r. split; [done|]. split; [done|].
      eexists. split; [by rewrite Hr|done].
  - unfold record_failure. rewrite Hl. eexists d1, (Err e). split; [done|]. left.
    unfold load, statement in Hl.
    destruct (default false _); injection Hl as <- Hl; cbn in Hl; [by subst|].
    split; [|done]. revert Hl. unfold schedule_of.
    destruct (rows d !! entry); [|done]. destruct (_ <=? _); [done|]. by intros [= <-].
Qed.

Lemma record_failure_fail_closed_witness :
  ∃ d' r, record_failure sample_store [x01] 1000 tt {| rows := ∅; faults := [false; true] |}
      = Some (d', r) ∧ r = Err RetryStateUnreadable.
Proof.
  destruct (record_failure_fail_closed sample_store [x01] 1000 tt
    {| rows := ∅; faults := [false; true] |}) as (d' & r & E & H).
  - repeat split; vm_compute; discriminate.
  - exists d', r. split; [exact E|]. destruct H as [[Hr _]|(p & sch & _ & Hr & _)]; [exact Hr|].
    vm_compute in E. congruence.
Defined.
End Retry.
