(* ===== verification/Destruction.v ===== *)
(** * Destruction: the [ea-destruction] crate

    The signed history of a destruction request ([state.rs], [event.rs]), the
    deletion attestations of the managed replicas ([attestation.rs]), the
    projection of those claims to evidence and the reconstruction of an
    imported history ([reconstruct.rs]).  The closed state table is that of
    [ea-verify] ([report.rs], [destruction.rs]).

    Decoding of archive objects, COSE signatures and the custody frame are
    parameters; a [BTreeMap] is a [gmap] whose keys are sorted where the code
    iterates over it. *)

From S2P Require Import Prelude Types.

(** ** States ([ea-verify], [report.rs] and [destruction.rs]) *)

Inductive DestructionStateV1 :=
| Requested | InProgress | PendingBackupExpiry
| CompleteManagedScope | IncompleteUnreachableReplica.

#[export] Instance DestructionStateV1_eq_dec : EqDecision DestructionStateV1.
Proof. solve_decision. Defined.

Definition state_as_str (s : DestructionStateV1) : string :=
  match s with
  | Requested => "requested"
  | InProgress => "inProgress"
  | PendingBackupExpiry => "pendingBackupExpiry"
  | CompleteManagedScope => "completeManagedScope"
  | IncompleteUnreachableReplica => "incompleteUnreachableReplica"
  end.

Definition from_code (c : Z) : option DestructionStateV1 :=
  match c with
  | 0 => Some Requested
  | 1 => Some InProgress
  | 2 => Some PendingBackupExpiry
  | 3 => Some CompleteManagedScope
  | 4 => Some IncompleteUnreachableReplica
  | _ => None
  end.

Definition state_code (s : DestructionStateV1) : Z :=
  match s with
  | Requested => 0
  | InProgress => 1
  | PendingBackupExpiry => 2
  | CompleteManagedScope => 3
  | IncompleteUnreachableReplica => 4
  end.

Definition may_advance_to (s next : DestructionStateV1) : bool :=
  match s, next with
  | Requested, InProgress => true
  | InProgress, (PendingBackupExpiry | CompleteManagedScope | IncompleteUnreachableReplica) => true
  | PendingBackupExpiry, (CompleteManagedScope | IncompleteUnreachableReplica) => true
  | IncompleteUnreachableReplica, InProgress => true
  | _, _ => false
  end.

(** ** Errors ([lib.rs]) *)

Inductive DestructionError :=
| Format | PrivacyGate | Registry | Approvers | Signature | Target | Event
| SecurityConflict | Operator | Audit | Storage.

#[export] Instance DestructionError_eq_dec : EqDecision DestructionError.
Proof. solve_decision. Defined.

Definition destruction_error_code (e : DestructionError) : string :=
  match e with
  | Format => "EA-DESTRUCTION-FORMAT"
  | PrivacyGate => "EA-DESTRUCTION-PRIVACY-GATE"
  | Registry => "EA-DESTRUCTION-REGISTRY"
  | Approvers => "EA-DESTRUCTION-APPROVERS"
  | Signature => "EA-DESTRUCTION-SIGNATURE"
  | Target => "EA-DESTRUCTION-TARGET"
  | Event => "EA-DESTRUCTION-EVENT"
  | SecurityConflict => "EA-DESTRUCTION-SECURITY-CONFLICT"
  | Operator => "EA-DESTRUCTION-OPERATOR"
  | Audit => "EA-DESTRUCTION-AUDIT"
  | Storage => "EA-DESTRUCTION-STORAGE"
  end.

(** ** Claims ([ea-format], [etb.rs]) *)

Record DestructionAuthorizationFieldsV1 := {
  au_destruction_id : DestructionId;
  au_organization_id : OrganizationId;
  au_registry_version : Z;
  au_registry_head_hash : Hash32;
  au_authorization_sequence : Z;
  au_targets : list (EntryHash * ChainSequence);
  au_scope_code : Z;
  au_legal_reason_code : Z;
}.

Record VerifiedDestructionAuthorization := {
  au_exact : list byte;
  au_hash : ObjectHash;
  au_fields : DestructionAuthorizationFieldsV1;
}.

Record DestructionTransitionFieldsV1 := {
  tr_destruction_id : DestructionId;
  tr_authorization : ObjectHash;
  tr_event_id : EventId;
  tr_previous : option ObjectHash;
  tr_from : option Z;
  tr_to : Z;
  tr_trigger_code : Z;
  tr_executed_at : UnixMillis;
}.

Record VerifiedDestructionEvent := {
  ev_fields : DestructionTransitionFieldsV1;
  ev_exact : list byte;
  ev_hash : ObjectHash;
}.

Record DeletionAttestationFieldsV1 := {
  at_destruction_id : DestructionId;
  at_authorization : ObjectHash;
  at_replica_id : Id16;
  at_replica_kind : Z;
  at_removed : list ObjectHash;
  at_result : Z;
  at_backup_expiry : option UnixMillis;
  at_executed_at : UnixMillis;
}.

Record VerifiedDeletionAttestation := {
  at_fields : DeletionAttestationFieldsV1;
  at_exact : list byte;
  at_hash : ObjectHash;
  at_certificate : CertificateHash;
}.

(** ** The state machine ([state.rs]) *)

Record DestructionStateMachine := {
  sm_destruction : DestructionId;
  sm_authorization : ObjectHash;
  sm_state : option DestructionStateV1;
  sm_last : option ObjectHash;
  sm_last_time : option UnixMillis;
  sm_ids : gmap EventId (ObjectHash * list byte);
  sm_hashes : gmap ObjectHash (list byte);
}.

Inductive ApplyOutcome := Advanced | Replay.

#[export] Instance ApplyOutcome_eq_dec : EqDecision ApplyOutcome.
Proof. solve_decision. Defined.

Definition StateMachine_new (auth : VerifiedDestructionAuthorization) : DestructionStateMachine :=
  {| sm_destruction := au_destruction_id (au_fields auth);
     sm_authorization := au_hash auth;
     sm_state := None; sm_last := None; sm_last_time := None;
     sm_ids := ∅; sm_hashes := ∅ |}.

Definition transition_allowed (from : option Z) (to : Z) : bool :=
  match from, from_code to with
  | None, Some Requested => true
  | Some f, Some t =>
      match from_code f with Some f => may_advance_to f t | None => false end
  | _, _ => false
  end.

Definition apply (m : DestructionStateMachine) (e : VerifiedDestructionEvent)
    : DestructionStateMachine * result DestructionError ApplyOutcome :=
  let f := ev_fields e in
  if bool_decide (tr_destruction_id f ≠ sm_destruction m)
     || bool_decide (tr_authorization f ≠ sm_authorization m)
  then (m, Err SecurityConflict)
  else
    match sm_ids m !! tr_event_id f with
    | Some (hash, bytes) =>
        if bool_decide (hash = ev_hash e) && bool_decide (bytes = ev_exact e)
        then (m, Ok Replay) else (m, Err SecurityConflict)
    | None =>
        if bool_decide (is_Some (sm_hashes m !! ev_hash e)) then (m, Err SecurityConflict)
        else if bool_decide (tr_previous f ≠ sm_last m)
             || bool_decide (tr_from f ≠ state_code <$> sm_state m)
             || negb (transition_allowed (tr_from f) (tr_to f))
             || is_some_and (λ last, tr_executed_at f <? last) (sm_last_time m)
        then (m, Err SecurityConflict)
        else
          ({| sm_destruction := sm_destruction m;
              sm_authorization := sm_authorization m;
              sm_state := from_code (tr_to f);
              sm_last := Some (ev_hash e);
              sm_last_time := Some (tr_executed_at f);
              sm_ids := <[tr_event_id f := (ev_hash e, ev_exact e)]> (sm_ids m);
              sm_hashes := <[ev_hash e := ev_exact e]> (sm_hashes m) |}, Ok Advanced)
    end.

(** ** Verifying the claims ([event.rs], [attestation.rs]) *)

Inductive ManagedReplicaKind := Writer | Reader | SyncServer.

#[export] Instance ManagedReplicaKind_eq_dec : EqDecision ManagedReplicaKind.
Proof. solve_decision. Defined.

Definition replica_code (k : ManagedReplicaKind) : Z :=
  match k with Writer => 0 | Reader => 1 | SyncServer => 2 end.

Definition replica_from_code (c : Z) : option ManagedReplicaKind :=
  match c with 0 => Some Writer | 1 => Some Reader | 2 => Some SyncServer | _ => None end.

(** What both kinds of registry head say about one authorization sequence:
    the identity of the head, its active certificates with their device, and
    for every certificate it ever admitted the device and whether it is a
    Reader certificate. *)
Record RegistryHead := {
  rh_organization_id : OrganizationId;
  rh_registry_version : Z;
  rh_registry_head_hash : Hash32;
  rh_proposed_sequence : ChainSequence;
  rh_active : gmap CertificateHash DeviceId;
  rh_known : list (DeviceId * bool);
}.

Definition device_holds_reader_certificate (device : DeviceId) (known : list (DeviceId * bool)) : bool :=
  existsb (λ c, bool_decide (c.1 = device) && c.2) known.

Section Verify.
(** [decode_exact_object] with [decoded_payload]: the fields, the object
    hash and the signatures of a trust object of the expected kind.
    [certificate_of] is [parse_cose_sign1(..)?.certificate_hash()];
    [check_transition] and [check_attestation] build the verification
    context over the object, the authorization bytes and the certificate,
    and check the signature at the head. *)
Context (decode_transition : list byte →
  result DestructionError (DestructionTransitionFieldsV1 * ObjectHash * list (list byte))).
Context (decode_attestation : list byte →
  result DestructionError (DeletionAttestationFieldsV1 * ObjectHash * list (list byte))).
Context (certificate_of : list byte → result DestructionError (option CertificateHash)).
Context (check_transition check_attestation :
  RegistryHead → list byte → list byte → CertificateHash → list byte → result DestructionError unit).

Definition expected_trigger (f : DestructionTransitionFieldsV1) : Z :=
  match tr_from f, tr_to f with
  | Some 4, 1 => 5
  | _, to => to
  end.

Definition event_refused (f : DestructionTransitionFieldsV1) (auth : VerifiedDestructionAuthorization)
    (head : RegistryHead) (observed_at : UnixMillis) : bool :=
  bool_decide (tr_destruction_id f ≠ au_destruction_id (au_fields auth))
  || bool_decide (tr_authorization f ≠ au_hash auth)
  || bool_decide (au_registry_version (au_fields auth) ≠ rh_registry_version head)
  || bool_decide (au_registry_head_hash (au_fields auth) ≠ rh_registry_head_hash head)
  || bool_decide (au_authorization_sequence (au_fields auth) ≠ rh_proposed_sequence head)
  || (tr_executed_at f >? observed_at)
  || (tr_executed_at f <? 0)
  || negb (transition_allowed (tr_from f) (tr_to f))
  || negb (tr_trigger_code f =? expected_trigger f).

Definition verify_event_at (exact : list byte) (auth : VerifiedDestructionAuthorization)
    (head : RegistryHead) (observed_at : UnixMillis)
    : result DestructionError VerifiedDestructionEvent :=
  '(f, hash, signatures) ← decode_transition exact;
  if event_refused f auth head observed_at then Err Event else
  match signatures with
  | [signature] =>
      cert ← certificate_of signature;
      cert ← ok_or Signature cert;
      _ ← check_transition head exact (au_exact auth) cert signature;
      signer ← ok_or Signature (rh_active head !! cert);
      if device_holds_reader_certificate signer (rh_known head) then Err Signature
      else Ok {| ev_fields := f; ev_exact := exact; ev_hash := hash |}
  | _ => Err Signature
  end.

Definition attestation_refused (f : DeletionAttestationFieldsV1)
    (auth : VerifiedDestructionAuthorization) (head : RegistryHead) (observed_at : UnixMillis) : bool :=
  bool_decide (at_destruction_id f ≠ au_destruction_id (au_fields auth))
  || bool_decide (at_authorization f ≠ au_hash auth)
  || bool_decide (au_organization_id (au_fields auth) ≠ rh_organization_id head)
  || bool_decide (au_registry_version (au_fields auth) ≠ rh_registry_version head)
  || bool_decide (au_registry_head_hash (au_fields auth) ≠ rh_registry_head_hash head)
  || bool_decide (au_authorization_sequence (au_fields auth) ≠ rh_proposed_sequence head)
  || bool_decide (replica_from_code (at_replica_kind f) = None)
  || (at_executed_at f <? 0)
  || (at_executed_at f >? observed_at)
  || is_some_and (λ t, t <? 0) (at_backup_expiry f)
  || ((at_result f =? 1) && bool_decide (at_backup_expiry f = None))
  || ((at_result f =? 0)
      && is_some_and (λ deadline, deadline >? at_executed_at f) (at_backup_expiry f)).

Definition verify_attestation_historical (exact : list byte)
    (auth : VerifiedDestructionAuthorization) (head : RegistryHead) (observed_at : UnixMillis)
    : result DestructionError VerifiedDeletionAttestation :=
  '(f, hash, signatures) ← decode_attestation exact;
  if attestation_refused f auth head observed_at then Err Event else
  match signatures with
  | [signature] =>
      cert ← certificate_of signature;
      cert ← ok_or Signature cert;
      signer ← ok_or Signature (rh_active head !! cert);
      if bool_decide (signer ≠ at_replica_id f) then Err Signature else
      _ ← check_attestation head exact (au_exact auth) cert signature;
      Ok {| at_fields := f; at_exact := exact; at_hash := hash; at_certificate := cert |}
  | _ => Err Signature
  end.
End Verify.

(** ** Evidence ([reconstruct.rs]) *)

Inductive EvidenceReplicaStatus :=
| Successful (hash : ObjectHash)
| PendingBackup
| Unreachable.

#[export] Instance EvidenceReplicaStatus_eq_dec : EqDecision EvidenceReplicaStatus.
Proof. solve_decision. Defined.

Record ReplicaObligation := { ob_kind : ManagedReplicaKind; ob_hashes : gset ObjectHash }.

(** One record of the custody frame as the CBOR reader yields it: its code,
    its device, the certificate kind, and, read only for a code of 2, the
    hash of the object the replica holds. *)
Record CustodyRecord := {
  cr_code : Z;
  cr_device : DeviceId;
  cr_kind : Z;
  cr_hash : result DestructionError ObjectHash;
}.

Definition custody_kind (c : Z) : option ManagedReplicaKind :=
  match c with 0 => Some Writer | 1 => Some Reader | 6 => Some SyncServer | _ => None end.

Definition obligation_step (replicas : gmap DeviceId ReplicaObligation) (r : CustodyRecord)
    : result DestructionError (gmap DeviceId ReplicaObligation) :=
  kind ← ok_or Format (custody_kind (cr_kind r));
  let obligation := default {| ob_kind := kind; ob_hashes := ∅ |} (replicas !! cr_device r) in
  if bool_decide (ob_kind obligation ≠ kind) then Err SecurityConflict else
  if cr_code r =? 2 then
    hash ← cr_hash r;
    Ok (<[cr_device r := {| ob_kind := kind; ob_hashes := {[hash]} ∪ ob_hashes obligation |}]> replicas)
  else Ok (<[cr_device r := obligation]> replicas).

Fixpoint obligations_loop (replicas : gmap DeviceId ReplicaObligation)
    (records : list (result DestructionError CustodyRecord))
    : result DestructionError (gmap DeviceId ReplicaObligation) :=
  match records with
  | [] => if bool_decide (replicas = ∅) then Err Target else Ok replicas
  | r :: rest =>
      r ← r;
      replicas ← obligation_step replicas r;
      obligations_loop replicas rest
  end.

(** The maps of [project] while it reads the attestations. *)
Record Claims := {
  latest : gmap DeviceId VerifiedDeletionAttestation;
  deadlines : gmap DeviceId UnixMillis;
  seen : gmap (DeviceId * UnixMillis) (list byte);
}.

Definition raise_deadline (device : DeviceId) (expiry : option UnixMillis)
    (d : gmap DeviceId UnixMillis) : gmap DeviceId UnixMillis :=
  match expiry with
  | None => d
  | Some e => <[device := match d !! device with Some old => Z.max old e | None => e end]> d
  end.

Definition project_step (auth : VerifiedDestructionAuthorization)
    (expected : gmap DeviceId ReplicaObligation) (c : Claims) (a : VerifiedDeletionAttestation)
    : result DestructionError Claims :=
  let f := at_fields a in
  if bool_decide (at_destruction_id f ≠ au_destruction_id (au_fields auth))
     || bool_decide (at_authorization f ≠ au_hash auth) then Err SecurityConflict else
  device ← match Id16_try_from (at_replica_id f) with Ok d => Ok d | Err _ => Err Format end;
  obligation ← ok_or SecurityConflict (expected !! device);
  if negb (at_replica_kind f =? replica_code (ob_kind obligation))
     || ((at_result f =? 0)
         && negb (bool_decide (ob_hashes obligation ⊆ list_to_set (at_removed f))))
  then Err SecurityConflict else
  if is_some_and (λ old, negb (bool_decide (old = at_exact a))) (seen c !! (device, at_executed_at f))
  then Err SecurityConflict else
  Ok {| latest :=
          if is_some_and (λ old, at_executed_at (at_fields old) >? at_executed_at f) (latest c !! device)
          then latest c else <[device := a]> (latest c);
        deadlines := raise_deadline device (at_backup_expiry f) (deadlines c);
        seen := <[(device, at_executed_at f) := at_exact a]> (seen c) |}.

Fixpoint read_claims (auth : VerifiedDestructionAuthorization)
    (expected : gmap DeviceId ReplicaObligation) (c : Claims)
    (attestations : list VerifiedDeletionAttestation) : result DestructionError Claims :=
  match attestations with
  | [] => Ok c
  | a :: rest => c ← project_step auth expected c a; read_claims auth expected c rest
  end.

Definition no_claims : Claims := {| latest := ∅; deadlines := ∅; seen := ∅ |}.

(** Entry, sequence, original object and stub of one target. *)
Record EvidenceTarget := {
  tg_entry : EntryHash;
  tg_sequence : ChainSequence;
  tg_original : ObjectHash;
  tg_stub : ObjectHash;
}.

Definition confirmed_by (targets : list EvidenceTarget) (removed : list ObjectHash) : gset EntryHash :=
  list_to_set (tg_entry <$> filter (λ t, tg_original t ∈ removed) targets).

(** The status of one device, the entries it confirms and the time its newest
    claim observes. *)
Definition replica_status (targets : list EvidenceTarget) (c : Claims) (device : DeviceId)
    : result DestructionError (EvidenceReplicaStatus * gset EntryHash * UnixMillis) :=
  match latest c !! device with
  | None => Ok (Unreachable, ∅, 0)
  | Some a =>
      let f := at_fields a in
      match at_result f with
      | 0 =>
          if is_some_and (λ expiry, at_executed_at f <? expiry) (deadlines c !! device)
          then Ok (PendingBackup, ∅, at_executed_at f)
          else Ok (Successful (at_hash a), confirmed_by targets (at_removed f), at_executed_at f)
      | 1 => Ok (PendingBackup, ∅, at_executed_at f)
      | 2 => Ok (Unreachable, ∅, at_executed_at f)
      | _ => Err Event
      end
  end.

Fixpoint project_devices (targets : list EvidenceTarget) (c : Claims) (devices : list DeviceId)
    (confirmed : gset EntryHash) (replicas : list (DeviceId * EvidenceReplicaStatus))
    (observed : UnixMillis)
    : result DestructionError
        (gset EntryHash * list (DeviceId * EvidenceReplicaStatus) * UnixMillis) :=
  match devices with
  | [] => Ok (confirmed, replicas, observed)
  | device :: rest =>
      '(status, entries, time) ← replica_status targets c device;
      project_devices targets c rest (entries ∪ confirmed) (replicas ++ [(device, status)])
        (Z.max observed time)
  end.

Record VerifiedDestructionEvidence := {
  vd_organization : OrganizationId;
  vd_chain : ChainId;
  vd_destruction : DestructionId;
  vd_confirmed : list EntryHash;
  vd_replicas : list (DeviceId * EvidenceReplicaStatus);
  vd_complete : bool;
  vd_authorization : ObjectHash;
  vd_scope : Z;
  vd_targets : list (EntryHash * ChainSequence * ObjectHash);
  vd_observed : UnixMillis;
}.

Definition is_successful (s : EvidenceReplicaStatus) : bool :=
  match s with Successful _ => true | _ => false end.

(** The keys of a [BTreeMap] and the elements of a [BTreeSet], in order. *)
Definition map_keys {V} (m : gmap Id16 V) : list Id16 := sort_by_key id (map_to_list m).*1.
Definition set_elements (s : gset Hash32) : list Hash32 := sort_by_key id (elements s).

Definition project (auth : VerifiedDestructionAuthorization) (chain : ChainId)
    (custody : list (result DestructionError CustodyRecord)) (targets : list EvidenceTarget)
    (attestations : list VerifiedDeletionAttestation)
    : result DestructionError VerifiedDestructionEvidence :=
  expected ← obligations_loop ∅ custody;
  c ← read_claims auth expected no_claims attestations;
  '(confirmed, replicas, observed) ← project_devices targets c (map_keys expected) ∅ [] 0;
  Ok {| vd_organization := au_organization_id (au_fields auth);
        vd_chain := chain;
        vd_destruction := au_destruction_id (au_fields auth);
        vd_confirmed := set_elements confirmed;
        vd_replicas := replicas;
        vd_complete := (size confirmed =? length targets)%nat
                       && forallb (λ r, is_successful r.2) replicas;
        vd_authorization := au_hash auth;
        vd_scope := au_scope_code (au_fields auth);
        vd_targets := (λ t, (tg_entry t, tg_sequence t, tg_stub t)) <$> targets;
        vd_observed := observed |}.

(** ** Reconstructing an imported history ([reconstruct.rs]) *)

(** What the verified preflight of an imported job contributes: the
    authorization, the chain, the decoded custody frame, the targets and the
    time of its signed core. *)
Record ImportedJob := {
  job_auth : VerifiedDestructionAuthorization;
  job_chain : ChainId;
  job_custody : list (result DestructionError CustodyRecord);
  job_targets : list EvidenceTarget;
  job_preflight_time : UnixMillis;
}.

Definition project_imported_evidence (job : ImportedJob)
    (attestations : list VerifiedDeletionAttestation)
    : result DestructionError VerifiedDestructionEvidence :=
  project (job_auth job) (job_chain job) (job_custody job) (job_targets job) attestations.

(** The first loop: the events by hash, and the successor of each hash. *)
Fixpoint index_events (events : list VerifiedDestructionEvent)
    (unique : gmap ObjectHash VerifiedDestructionEvent)
    (following : gmap (option ObjectHash) ObjectHash)
    : result DestructionError
        (gmap ObjectHash VerifiedDestructionEvent * gmap (option ObjectHash) ObjectHash) :=
  match events with
  | [] => Ok (unique, following)
  | e :: rest =>
      let unique' := <[ev_hash e := e]> unique in
      match unique !! ev_hash e with
      | Some old =>
          if bool_decide (ev_exact old ≠ ev_exact e) then Err SecurityConflict
          else index_events rest unique' following
      | None =>
          if bool_decide (is_Some (following !! tr_previous (ev_fields e)))
          then Err SecurityConflict
          else index_events rest unique'
                 (<[tr_previous (ev_fields e) := ev_hash e]> following)
      end
  end.

Definition evidence_at (job : ImportedJob) (attestations : list VerifiedDeletionAttestation)
    (time : UnixMillis) : result DestructionError VerifiedDestructionEvidence :=
  project_imported_evidence job (filter (λ a, at_executed_at (at_fields a) ≤ time) attestations).

(** The greatest deadline each replica attested up to [time]. *)
Definition deadlines_at (attestations : list VerifiedDeletionAttestation) (time : UnixMillis)
    : gmap DeviceId UnixMillis :=
  foldl (λ d a,
      if at_executed_at (at_fields a) <=? time
      then raise_deadline (at_replica_id (at_fields a)) (at_backup_expiry (at_fields a)) d
      else d) ∅ attestations.

Definition pending_justified (v : VerifiedDestructionEvidence) (d : gmap DeviceId UnixMillis)
    (time : UnixMillis) : bool :=
  existsb (λ r, bool_decide (r.2 = PendingBackup)) (vd_replicas v)
  && negb (existsb (λ r, bool_decide (r.2 = Unreachable)) (vd_replicas v))
  && negb (existsb (λ r, bool_decide (r.2 = PendingBackup)
             && negb (is_some_and (λ expiry, time <? expiry) (d !! r.1))) (vd_replicas v)).

Definition event_admissible (job : ImportedJob) (attestations : list VerifiedDeletionAttestation)
    (f : DestructionTransitionFieldsV1) (v : VerifiedDestructionEvidence)
    : result DestructionError unit :=
  match tr_to f with
  | 1 => ensure (negb (tr_executed_at f <? job_preflight_time job)) Event
  | 2 => ensure (pending_justified v (deadlines_at attestations (tr_executed_at f)) (tr_executed_at f)) Event
  | 3 => ensure (vd_complete v) Event
  | 4 | 0 => Ok tt
  | _ => Err Event
  end.

(** The [while] loop; [None] when the fuel runs out. *)
Fixpoint walk_history (fuel : nat) (job : ImportedJob)
    (attestations : list VerifiedDeletionAttestation)
    (unique : gmap ObjectHash VerifiedDestructionEvent)
    (following : gmap (option ObjectHash) ObjectHash)
    (machine : DestructionStateMachine) (previous : option ObjectHash) (seen_events : nat)
    : option (result DestructionError (DestructionStateMachine * nat)) :=
  match fuel with
  | O => None
  | S fuel =>
      match following !! previous with
      | None => Some (Ok (machine, seen_events))
      | Some hash =>
          match (e ← ok_or Event (unique !! hash);
                 v ← evidence_at job attestations (tr_executed_at (ev_fields e));
                 _ ← event_admissible job attestations (ev_fields e) v;
                 Ok e) with
          | Err x => Some (Err x)
          | Ok e =>
              match apply machine e with
              | (_, Err x) => Some (Err x)
              | (machine, Ok _) =>
                  walk_history fuel job attestations unique following machine (Some hash) (S seen_events)
              end
          end
      end
  end.

Record ReconstructedDestruction := {
  rc_state : DestructionStateV1;
  rc_last : ObjectHash;
  rc_evidence : VerifiedDestructionEvidence;
}.

Definition finish_history (job : ImportedJob) (attestations : list VerifiedDeletionAttestation)
    (unique : gmap ObjectHash VerifiedDestructionEvent) (machine : DestructionStateMachine)
    (seen_events : nat) : result DestructionError ReconstructedDestruction :=
  if negb (seen_events =? size unique)%nat || (seen_events =? 0)%nat then Err SecurityConflict else
  state ← ok_or Event (sm_state machine);
  last ← ok_or Event (sm_last machine);
  v ← project_imported_evidence job attestations;
  Ok {| rc_state := state; rc_last := last; rc_evidence := v |}.

Definition reconstruct_imported_history (job : ImportedJob) (events : list VerifiedDestructionEvent)
    (attestations : list VerifiedDeletionAttestation)
    : option (result DestructionError ReconstructedDestruction) :=
  match index_events events ∅ ∅ with
  | Err x => Some (Err x)
  | Ok (unique, following) =>
      match walk_history (S (size unique)) job attestations unique following
              (StateMachine_new (job_auth job)) None 0 with
      | None => None
      | Some (Err x) => Some (Err x)
      | Some (Ok (machine, n)) => Some (finish_history job attestations unique machine n)
      end
  end.

(** ** The abstract history

    What a destruction request may look like from outside: a list of events,
    each bound to the authorization, naming its predecessor, following an edge
    of the closed table, never running back in time and never reusing an
    identifier or a hash. *)

Definition edge (s : option DestructionStateV1) (t : DestructionStateV1) : Prop :=
  match s with None => t = Requested | Some s => may_advance_to s t = true end.

Definition not_before (t : UnixMillis) (last : option UnixMillis) : Prop :=
  ∀ l, last = Some l → l ≤ t.

Definition event_id (e : VerifiedDestructionEvent) : EventId := tr_event_id (ev_fields e).

Definition bound_to (auth : VerifiedDestructionAuthorization) (e : VerifiedDestructionEvent) : Prop :=
  tr_destruction_id (ev_fields e) = au_destruction_id (au_fields auth)
  ∧ tr_authorization (ev_fields e) = au_hash auth.

Inductive history (auth : VerifiedDestructionAuthorization) :
    list VerifiedDestructionEvent → option DestructionStateV1 → option ObjectHash →
    option UnixMillis → Prop :=
| history_start : history auth [] None None None
| history_step es e s s' last time :
    history auth es s last time →
    bound_to auth e →
    tr_previous (ev_fields e) = last →
    tr_from (ev_fields e) = state_code <$> s →
    from_code (tr_to (ev_fields e)) = Some s' →
    edge s s' →
    not_before (tr_executed_at (ev_fields e)) time →
    event_id e ∉ event_id <$> es →
    ev_hash e ∉ ev_hash <$> es →
    history auth (es ++ [e]) (Some s') (Some (ev_hash e)) (Some (tr_executed_at (ev_fields e))).

Lemma from_code_code s : from_code (state_code s) = Some s.
Proof. by destruct s. Qed.

Lemma code_from_code c s : from_code c = Some s → c = state_code s.
Proof.
  intros H. destruct c as [|p|p]; [by injection H as <-| |done].
  repeat match goal with p : positive |- _ => destruct p as [p|p|]; try discriminate H end;
    by injection H as <-.
Qed.

Lemma transition_allowed_edge s to :
  transition_allowed (state_code <$> s) to = true ↔ ∃ s', from_code to = Some s' ∧ edge s s'.
Proof.
  unfold transition_allowed, edge. destruct s as [s|]; cbn [fmap option_fmap option_map].
  - rewrite from_code_code. destruct (from_code to) as [t|]; split; naive_solver.
  - destruct (from_code to) as [[]|]; split; naive_solver.
Qed.

(** The machine is in the state the accepted events describe. *)
Record represents (auth : VerifiedDestructionAuthorization) (m : DestructionStateMachine)
    (es : list VerifiedDestructionEvent) : Prop := {
  rep_destruction : sm_destruction m = au_destruction_id (au_fields auth);
  rep_authorization : sm_authorization m = au_hash auth;
  rep_history : history auth es (sm_state m) (sm_last m) (sm_last_time m);
  rep_ids : ∀ i h b, sm_ids m !! i = Some (h, b) ↔
              ∃ e, e ∈ es ∧ event_id e = i ∧ ev_hash e = h ∧ ev_exact e = b;
  rep_hashes : ∀ h, is_Some (sm_hashes m !! h) ↔ h ∈ ev_hash <$> es;
}.

Lemma represents_new auth : represents auth (StateMachine_new auth) [].
Proof.
  split; try done; cbn.
  - constructor.
  - intros i h b. rewrite lookup_empty. split; [done|]. intros (e & He & _). by apply not_elem_of_nil in He.
  - intros h. rewrite lookup_empty. split; [by intros []|]. by intros ?%not_elem_of_nil.
Qed.

Lemma rep_id_fresh auth m es e :
  represents auth m es → sm_ids m !! event_id e = None → event_id e ∉ event_id <$> es.
Proof.
  intros R Hnone Hin. apply list_elem_of_fmap in Hin as (e' & Heq & Hin).
  assert (sm_ids m !! event_id e = Some (ev_hash e', ev_exact e')) as Hs
    by (apply (rep_ids _ _ _ R); eauto).
  congruence.
Qed.

(** Every case of [apply], in terms of the accepted events. *)
Inductive apply_spec (auth : VerifiedDestructionAuthorization) (m : DestructionStateMachine)
    (es : list VerifiedDestructionEvent) (e : VerifiedDestructionEvent) :
    DestructionStateMachine * result DestructionError ApplyOutcome → Prop :=
| spec_advanced m' :
    represents auth m' (es ++ [e]) → sm_state m' = from_code (tr_to (ev_fields e)) →
    apply_spec auth m es e (m', Ok Advanced)
| spec_replay e' :
    e' ∈ es → event_id e' = event_id e → ev_hash e' = ev_hash e → ev_exact e' = ev_exact e →
    apply_spec auth m es e (m, Ok Replay)
| spec_conflict :
    (∀ s last time, ¬ history auth (es ++ [e]) s last time) →
    apply_spec auth m es e (m, Err SecurityConflict).

Lemma history_last auth es e s last time :
  history auth (es ++ [e]) s last time →
  ∃ s0 last0 time0 s', history auth es s0 last0 time0 ∧ bound_to auth e
    ∧ tr_previous (ev_fields e) = last0 ∧ tr_from (ev_fields e) = state_code <$> s0
    ∧ from_code (tr_to (ev_fields e)) = Some s' ∧ edge s0 s'
    ∧ not_before (tr_executed_at (ev_fields e)) time0
    ∧ (event_id e ∉ event_id <$> es) ∧ (ev_hash e ∉ ev_hash <$> es).
Proof.
  intros H. remember (es ++ [e]) as l eqn:El. destruct H as [|es0 e0 s0 s' last0 time0].
  - by destruct es.
  - apply app_inj_tail in El as [-> ->]. by exists s0, last0, time0, s'.
Qed.

Lemma history_functional auth es s last time s2 last2 time2 :
  history auth es s last time → history auth es s2 last2 time2 →
  s = s2 ∧ last = last2 ∧ time = time2.
Proof.
  intros H1 H2. destruct H1 as [|es e s s' last time]; inversion H2; subst; try done;
    try (by destruct es); try (by destruct es0).
  match goal with H : _ ++ [_] = _ ++ [_] |- _ => apply app_inj_tail in H as [-> ->] end.
  naive_solver.
Qed.

Section ApplyFacts.
Context (auth : VerifiedDestructionAuthorization) (m : DestructionStateMachine)
  (es : list VerifiedDestructionEvent) (e : VerifiedDestructionEvent).
Hypothesis (R : represents auth m es).

Lemma no_extension :
  (∀ s', bound_to auth e → tr_previous (ev_fields e) = sm_last m →
     tr_from (ev_fields e) = state_code <$> sm_state m →
     from_code (tr_to (ev_fields e)) = Some s' → edge (sm_state m) s' →
     not_before (tr_executed_at (ev_fields e)) (sm_last_time m) →
     event_id e ∉ event_id <$> es → ev_hash e ∉ ev_hash <$> es → False) →
  apply_spec auth m es e (m, Err SecurityConflict).
Proof.
  intros H. constructor. intros s last time Hh.
  apply history_last in Hh as (s0 & l0 & t0 & s' & Hh & ? & ? & ? & ? & ? & ? & ? & ?).
  destruct (history_functional _ _ _ _ _ _ _ _ Hh (rep_history _ _ _ R)) as (-> & -> & ->).
  by apply (H s').
Qed.

Lemma represents_snoc s' :
  bound_to auth e → tr_previous (ev_fields e) = sm_last m →
  tr_from (ev_fields e) = state_code <$> sm_state m →
  from_code (tr_to (ev_fields e)) = Some s' → edge (sm_state m) s' →
  not_before (tr_executed_at (ev_fields e)) (sm_last_time m) →
  sm_ids m !! event_id e = None → ev_hash e ∉ ev_hash <$> es →
  represents auth
    {| sm_destruction := sm_destruction m; sm_authorization := sm_authorization m;
       sm_state := from_code (tr_to (ev_fields e)); sm_last := Some (ev_hash e);
       sm_last_time := Some (tr_executed_at (ev_fields e));
       sm_ids := <[event_id e := (ev_hash e, ev_exact e)]> (sm_ids m);
       sm_hashes := <[ev_hash e := ev_exact e]> (sm_hashes m) |} (es ++ [e]).
Proof.
  intros Hb Hp Hf Hto Hedge Ht Hid Hh.
  pose proof (rep_id_fresh _ _ _ _ R Hid) as Hfresh.
  split; cbn; try apply R.
  - rewrite Hto. eapply history_step; eauto. apply R.
  - intros i h b. rewrite lookup_insert_Some, (rep_ids _ _ _ R).
    setoid_rewrite elem_of_snoc. split.
    + intros [(<- & [= <- <-])|(_ & x & ? & ? & ? & ?)]; [exists e|exists x]; naive_solver.
    + intros (x & [Hx| ->] & <- & <- & <-); [|by left].
      right. split; [|by eauto]. intros Heq. apply Hfresh.
      apply list_elem_of_fmap. eauto.
  - intros h. rewrite lookup_insert_is_Some, fmap_app. cbn [fmap list_fmap].
    rewrite elem_of_snoc, (rep_hashes _ _ _ R).
    destruct (decide (ev_hash e = h)); naive_solver.
Qed.

Lemma apply_refines : apply_spec auth m es e (apply m e).
Proof.
  unfold apply. cbn zeta.
  case_match eqn:E1.
  { apply no_extension. intros s' [? ?] _ _ _ _ _ _ _.
    rewrite (rep_destruction _ _ _ R), (rep_authorization _ _ _ R) in E1.
    apply orb_true_iff in E1 as [E1|E1]; by apply bool_decide_eq_true in E1. }
  destruct (sm_ids m !! _) as [[hash bytes]|] eqn:E2.
  - apply (rep_ids _ _ _ R) in E2 as (e' & Hin & Hid & <- & <-).
    case_match eqn:E3.
    + apply andb_true_iff in E3 as [E3 E4].
      apply bool_decide_eq_true in E3. apply bool_decide_eq_true in E4.
      by apply (spec_replay _ _ _ _ e').
    + apply no_extension. intros s' _ _ _ _ _ _ Hfresh _.
      apply Hfresh. apply list_elem_of_fmap. exists e'. by split.
  - case_match eqn:E3.
    { apply no_extension. intros s' _ _ _ _ _ _ _ Hfresh.
      apply bool_decide_eq_true in E3. by apply Hfresh, (rep_hashes _ _ _ R). }
    apply bool_decide_eq_false in E3. rewrite (rep_hashes _ _ _ R) in E3.
    case_match eqn:E4.
    + apply no_extension. intros s' _ Hp Hf Hto Hedge Ht _ _.
      rewrite Hp, Hf, !bool_decide_eq_false_2 in E4 by tauto. cbn in E4.
      rewrite (proj2 (transition_allowed_edge _ _)) in E4 by eauto. cbn in E4.
      apply is_some_and_true in E4 as (l & Hl & ?%Z.ltb_lt). specialize (Ht _ Hl). lia.
    + apply orb_false_iff in E1 as [E5 E6]. apply bool_decide_eq_false, dec_stable in E5.
      apply bool_decide_eq_false, dec_stable in E6.
      repeat apply orb_false_iff in E4 as [E4 ?].
      apply bool_decide_eq_false, dec_stable in E4.
      apply bool_decide_eq_false, dec_stable in H1. apply negb_false_iff in H0.
      rewrite H1 in H0. apply transition_allowed_edge in H0 as (s' & Hto & Hedge).
      rewrite is_some_and_false in H.
      apply spec_advanced; [|done]. apply (represents_snoc s'); try done.
      * split; [rewrite E5|rewrite E6]; apply R.
      * intros l Hl. specialize (H l Hl). lia.
Qed.
End ApplyFacts.

(** ** The machine implements the abstract history *)

Definition run (auth : VerifiedDestructionAuthorization) (events : list VerifiedDestructionEvent)
    : DestructionStateMachine :=
  foldl (λ m e, (apply m e).1) (StateMachine_new auth) events.

Lemma run_snoc auth events e : run auth (events ++ [e]) = (apply (run auth events) e).1.
Proof. unfold run. by rewrite foldl_app. Qed.

Lemma run_represents auth events : ∃ es, represents auth (run auth events) es ∧ sublist es events.
Proof.
  induction events as [|e events (es & R & Hsub)] using rev_ind.
  - exists []. split; [apply represents_new|constructor].
  - rewrite run_snoc. destruct (apply_refines _ _ _ e R); cbn.
    + exists (es ++ [e]). split; [done|]. by apply sublist_app.
    + exists es. split; [done|]. by apply sublist_inserts_r.
    + exists es. split; [done|]. by apply sublist_inserts_r.
Qed.

(** C8. Whatever events are offered to a fresh machine, in
    whatever order and however often, the accepted ones form a legal history of
    the authorization (each bound to it, chained by hash, along the closed state
    table, not running back in time, without a reused identifier or hash), the
    machine's state, last hash and last time are those of that history, and the
    next event is accepted exactly when it extends it; otherwise the machine is
    unchanged and reports a replay of an accepted event or a security conflict. *)
Theorem machine_refines_history auth events :
  ∃ es, sublist es events
    ∧ history auth es (sm_state (run auth events)) (sm_last (run auth events))
        (sm_last_time (run auth events))
    ∧ ∀ e, apply_spec auth (run auth events) es e (apply (run auth events) e).
Proof.
  destruct (run_represents auth events) as (es & R & Hsub).
  exists es. split_and!; [done|apply R|]. intros e. by apply apply_refines.
Qed.

Lemma complete_no_edge s : ¬ edge (Some CompleteManagedScope) s.
Proof. by destruct s. Qed.

Lemma represents_complete_final auth m es e :
  represents auth m es → sm_state m = Some CompleteManagedScope →
  (apply m e).1 = m ∧ (apply m e).2 ≠ Ok Advanced.
Proof.
  intros R Hs. destruct (apply_refines _ _ _ e R) as [m' R' Hs'| |]; cbn; try done.
  exfalso. destruct (history_last _ _ _ _ _ _ (rep_history _ _ _ R'))
    as (s0 & l0 & t0 & s' & Hh & _ & _ & _ & _ & Hedge & _).
  destruct (history_functional _ _ _ _ _ _ _ _ Hh (rep_history _ _ _ R)) as (-> & _ & _).
  rewrite Hs in Hedge. by apply complete_no_edge in Hedge.
Qed.

(** Once the managed scope is complete no event changes
    the machine any more; in particular nothing leads back to an earlier
    state. *)
Theorem completed_is_final auth events e :
  sm_state (run auth events) = Some CompleteManagedScope →
  (apply (run auth events) e).1 = run auth events
  ∧ (apply (run auth events) e).2 ≠ Ok Advanced.
Proof.
  intros Hs. destruct (run_represents auth events) as (es & R & _).
  by apply (represents_complete_final auth _ es).
Qed.

Definition sample_auth : VerifiedDestructionAuthorization :=
  {| au_exact := [x01]; au_hash := [xa0];
     au_fields := {| au_destruction_id := [xd0]; au_organization_id := [x0a];
       au_registry_version := 1; au_registry_head_hash := [x0b];
       au_authorization_sequence := 7; au_targets := [([xe0], 3)];
       au_scope_code := 0; au_legal_reason_code := 0 |} |}.

Definition sample_event (id : byte) (previous : option byte) (from : option Z) (to time : Z)
    : VerifiedDestructionEvent :=
  {| ev_fields := {| tr_destruction_id := [xd0]; tr_authorization := [xa0]; tr_event_id := [id];
       tr_previous := (λ b, [b]) <$> previous; tr_from := from; tr_to := to;
       tr_trigger_code := to; tr_executed_at := time |};
     ev_exact := [id; x99]; ev_hash := [id] |}.

Definition sample_events : list VerifiedDestructionEvent :=
  [sample_event x01 None None 0 10; sample_event x02 (Some x01) (Some 0) 1 20;
   sample_event x03 (Some x02) (Some 1) 3 30].

Lemma completed_is_final_witness :
  (apply (run sample_auth sample_events) (sample_event x04 (Some x03) (Some 3) 1 40)).1
    = run sample_auth sample_events
  ∧ (apply (run sample_auth sample_events) (sample_event x04 (Some x03) (Some 3) 1 40)).2 ≠ Ok Advanced.
Proof. apply completed_is_final. reflexivity. Defined.

(** ** What complete evidence means *)

Definition of_device (a : VerifiedDeletionAttestation) (d : DeviceId) : Prop :=
  at_replica_id (at_fields a) = d.

Definition executed (a : VerifiedDeletionAttestation) : UnixMillis := at_executed_at (at_fields a).

(** [a] is a newest claim of device [d]. *)
Definition newest (atts : list VerifiedDeletionAttestation) (d : DeviceId)
    (a : VerifiedDeletionAttestation) : Prop :=
  a ∈ atts ∧ of_device a d ∧ ∀ b, b ∈ atts → of_device b d → executed b ≤ executed a.

(** [a] is a newest claim of [d] and reports the removal of everything [d]
    held, no earlier than any backup deadline [d] ever attested. *)
Definition settles (atts : list VerifiedDeletionAttestation) (d : DeviceId) (o : ReplicaObligation)
    (a : VerifiedDeletionAttestation) : Prop :=
  newest atts d a ∧ at_result (at_fields a) = 0
  ∧ ob_hashes o ⊆ list_to_set (at_removed (at_fields a))
  ∧ ∀ b x, b ∈ atts → of_device b d → at_backup_expiry (at_fields b) = Some x → x ≤ executed a.

(** What the maps of [project] hold after reading [atts]. *)
Record claims_ok (expected : gmap DeviceId ReplicaObligation)
    (atts : list VerifiedDeletionAttestation) (c : Claims) : Prop := {
  ok_latest : ∀ d a, latest c !! d = Some a → newest atts d a;
  ok_present : ∀ a, a ∈ atts → is_Some (latest c !! at_replica_id (at_fields a));
  ok_deadline : ∀ d x, deadlines c !! d = Some x →
    ∃ b, b ∈ atts ∧ of_device b d ∧ at_backup_expiry (at_fields b) = Some x;
  ok_bound : ∀ b x, b ∈ atts → at_backup_expiry (at_fields b) = Some x →
    ∃ y, deadlines c !! at_replica_id (at_fields b) = Some y ∧ x ≤ y;
  ok_seen : ∀ a, a ∈ atts →
    seen c !! (at_replica_id (at_fields a), executed a) = Some (at_exact a);
  ok_removed : ∀ a o, a ∈ atts → expected !! at_replica_id (at_fields a) = Some o →
    at_result (at_fields a) = 0 → ob_hashes o ⊆ list_to_set (at_removed (at_fields a));
}.

Lemma claims_ok_nil expected : claims_ok expected [] no_claims.
Proof. split; set_solver. Qed.

Lemma raise_deadline_lookup d d' e (m : gmap DeviceId UnixMillis) x :
  raise_deadline d e m !! d' = Some x →
  m !! d' = Some x ∨ (d' = d ∧ e = Some x).
Proof.
  unfold raise_deadline. destruct e as [e|]; [|by left].
  intros [[-> <-]|[_ ?]]%lookup_insert_Some; [|by left].
  destruct (m !! d') as [old|] eqn:E; [|by right].
  destruct (Z.max_spec old e) as [[_ ->]|[_ ->]]; [by right|by left].
Qed.

Lemma raise_deadline_keeps d d' e (m : gmap DeviceId UnixMillis) x :
  m !! d' = Some x → ∃ y, raise_deadline d e m !! d' = Some y ∧ x ≤ y.
Proof.
  intros Hx. unfold raise_deadline. destruct e as [e|]; [|by exists x].
  destruct (decide (d = d')) as [->|].
  - rewrite lookup_insert_eq, Hx. eexists; split; [done|lia].
  - rewrite lookup_insert_ne by done. by exists x.
Qed.

Lemma raise_deadline_sets d e (m : gmap DeviceId UnixMillis) :
  ∃ y, raise_deadline d (Some e) m !! d = Some y ∧ e ≤ y.
Proof. cbn. rewrite lookup_insert_eq. eexists; split; [done|]. destruct (m !! d); lia. Qed.

(** A step that succeeds, with every check it passed. *)
Lemma project_step_Ok auth expected c a c' :
  project_step auth expected c a = Ok c' →
  ∃ o, expected !! at_replica_id (at_fields a) = Some o
    ∧ length (at_replica_id (at_fields a)) = 16%nat
    ∧ (at_result (at_fields a) = 0 → ob_hashes o ⊆ list_to_set (at_removed (at_fields a)))
    ∧ (∀ old, seen c !! (at_replica_id (at_fields a), executed a) = Some old → old = at_exact a)
    ∧ c' = {| latest :=
                if is_some_and (λ old, executed old >? executed a)
                     (latest c !! at_replica_id (at_fields a))
                then latest c else <[at_replica_id (at_fields a) := a]> (latest c);
              deadlines := raise_deadline (at_replica_id (at_fields a))
                             (at_backup_expiry (at_fields a)) (deadlines c);
              seen := <[(at_replica_id (at_fields a), executed a) := at_exact a]> (seen c) |}.
Proof.
  unfold project_step. case_match; [done|]. intros H0.
  apply bind_Ok in H0 as (d & Hd & H0).
  unfold Id16_try_from in Hd. case_decide as Hlen; [|done]. injection Hd as <-.
  apply bind_Ok in H0 as (o & Ho%ok_or_Ok & H0).
  case_match eqn:E1; [done|]. case_match eqn:E2; [done|]. injection H0 as <-.
  exists o. split_and!; try done.
  - intros Hr. apply orb_false_iff in E1 as [_ E1]. rewrite Hr in E1. cbn in E1.
    by apply negb_false_iff, bool_decide_eq_true in E1.
  - intros old Hold. rewrite is_some_and_false in E2. specialize (E2 _ Hold).
    by apply negb_false_iff, bool_decide_eq_true in E2.
Qed.

Section ClaimsStep.
Context (expected : gmap DeviceId ReplicaObligation) (atts : list VerifiedDeletionAttestation)
  (c : Claims) (a : VerifiedDeletionAttestation).
Hypothesis (Hc : claims_ok expected atts c).
Let d0 := at_replica_id (at_fields a).

Lemma newest_snoc_other d b :
  newest atts d b → (of_device a d → executed a ≤ executed b) → newest (atts ++ [a]) d b.
Proof.
  intros (Hin & Hd & Hmax) Ha. split_and!; [apply elem_of_snoc; by left|done|].
  intros b' [Hb'| ->]%elem_of_snoc Hd'; [by apply Hmax|by apply Ha].
Qed.

Lemma newest_snoc_self :
  (∀ old, latest c !! d0 = Some old → executed old ≤ executed a) → newest (atts ++ [a]) d0 a.
Proof.
  intros Hold. split_and!; [apply elem_of_snoc; by right|done|].
  intros b [Hb| ->]%elem_of_snoc Hd; [|done].
  destruct (ok_present _ _ _ Hc b Hb) as [old Ho]. unfold of_device in Hd. rewrite Hd in Ho.
  destruct (ok_latest _ _ _ Hc _ _ Ho) as (_ & _ & Hmax).
  specialize (Hmax b Hb Hd). specialize (Hold _ Ho). lia.
Qed.

Lemma latest_snoc d b :
  (if is_some_and (λ old, executed old >? executed a) (latest c !! d0)
   then latest c else <[d0 := a]> (latest c)) !! d = Some b → newest (atts ++ [a]) d b.
Proof.
  case_match eqn:E.
  - intros Hb. apply newest_snoc_other; [by apply Hc|]. intros Hd.
    apply is_some_and_true in E as (old & Ho & ?). unfold of_device in Hd.
    unfold d0 in Ho. rewrite Hd in Ho. rewrite Ho in Hb. injection Hb as <-. lia.
  - rewrite is_some_and_false in E. intros [[<- <-]|[Hne Hb]]%lookup_insert_Some.
    + apply newest_snoc_self. intros old Ho. specialize (E _ Ho). lia.
    + apply newest_snoc_other; [by apply Hc|]. by intros Hd.
Qed.

Lemma present_snoc b :
  b ∈ atts ++ [a] →
  is_Some ((if is_some_and (λ old, executed old >? executed a) (latest c !! d0)
            then latest c else <[d0 := a]> (latest c)) !! at_replica_id (at_fields b)).
Proof.
  intros [Hb| ->]%elem_of_snoc; case_match eqn:E.
  - by apply Hc.
  - apply lookup_insert_is_Some'. right. by apply Hc.
  - apply is_some_and_true in E as (old & Ho & _). by exists old.
  - apply lookup_insert_is_Some'. by left.
Qed.
End ClaimsStep.

Lemma claims_ok_step auth expected atts c a c' :
  claims_ok expected atts c → project_step auth expected c a = Ok c' →
  claims_ok expected (atts ++ [a]) c'.
Proof.
  intros Hc (o & Ho & _ & Hrem & Hseen & ->)%project_step_Ok. split; cbn.
  - intros d b. by apply (latest_snoc expected).
  - intros b. by apply (present_snoc expected).
  - intros d x [Hx|[-> Hx]]%raise_deadline_lookup.
    + destruct (ok_deadline _ _ _ Hc _ _ Hx) as (b & ? & ? & ?).
      exists b. rewrite elem_of_snoc. eauto.
    + exists a. rewrite elem_of_snoc. split_and!; [by right|done..].
  - intros b x [Hb| ->]%elem_of_snoc Hx.
    + destruct (ok_bound _ _ _ Hc b x Hb Hx) as (y & Hy & ?).
      destruct (raise_deadline_keeps (at_replica_id (at_fields a)) _
                  (at_backup_expiry (at_fields a)) _ _ Hy) as (z & ? & ?).
      exists z. split; [done|lia].
    + rewrite Hx. apply raise_deadline_sets.
  - intros b [Hb| ->]%elem_of_snoc; [|by rewrite lookup_insert_eq].
    pose proof (ok_seen _ _ _ Hc b Hb) as Hs.
    destruct (decide ((at_replica_id (at_fields a), executed a)
                      = (at_replica_id (at_fields b), executed b))) as [E|E].
    + rewrite E, lookup_insert_eq. rewrite E in Hseen. by rewrite (Hseen _ Hs).
    + by rewrite lookup_insert_ne.
  - intros b o' [Hb| ->]%elem_of_snoc Ho' Hr; [by eapply Hc|].
    rewrite Ho in Ho'. injection Ho' as <-. by apply Hrem.
Qed.

Lemma read_claims_ok auth expected pre c atts c' :
  claims_ok expected pre c → read_claims auth expected c atts = Ok c' →
  claims_ok expected (pre ++ atts) c'.
Proof.
  revert pre c. induction atts as [|a atts IH]; intros pre c Hc H; cbn in H.
  - injection H as <-. by rewrite app_nil_r.
  - apply bind_Ok in H as (c1 & H1 & H). rewrite cons_middle, app_assoc.
    by eapply IH; [eapply claims_ok_step|].
Qed.

(** The newest claims of a device agree when equal bytes are equal claims. *)
Lemma newest_unique expected atts c d a b :
  claims_ok expected atts c →
  (∀ x y, x ∈ atts → y ∈ atts → at_exact x = at_exact y → x = y) →
  newest atts d a → newest atts d b → a = b.
Proof.
  intros Hc Hex (Ha & Hda & Hma) (Hb & Hdb & Hmb). apply Hex; [done..|].
  assert (executed a = executed b) as Ht.
  { specialize (Hma b Hb Hdb). specialize (Hmb a Ha Hda). lia. }
  pose proof (ok_seen _ _ _ Hc a Ha) as Hsa. pose proof (ok_seen _ _ _ Hc b Hb) as Hsb.
  unfold of_device in *. rewrite Hda, Ht in Hsa. rewrite Hdb in Hsb. congruence.
Qed.

(** The loop over the devices collects exactly the per-device results. *)
Lemma project_devices_Ok targets c devices confirmed replicas observed confirmed' replicas' observed' :
  project_devices targets c devices confirmed replicas observed = Ok (confirmed', replicas', observed') →
  (∀ d, d ∈ devices → ∃ s es t, replica_status targets c d = Ok (s, es, t))
  ∧ (∀ x, x ∈ confirmed' ↔ x ∈ confirmed
       ∨ ∃ d s es t, d ∈ devices ∧ replica_status targets c d = Ok (s, es, t) ∧ x ∈ es)
  ∧ (∀ p, p ∈ replicas' ↔ p ∈ replicas
       ∨ ∃ d s es t, d ∈ devices ∧ replica_status targets c d = Ok (s, es, t) ∧ p = (d, s)).
Proof.
  revert confirmed replicas observed.
  induction devices as [|d devices IH]; intros confirmed replicas observed H; cbn in H.
  - injection H as <- <- <-. set_solver.
  - apply bind_Ok in H as ([[s es] t] & Hs & H). apply IH in H as (H1 & H2 & H3). split_and!.
    + intros d' [->|Hd]%elem_of_cons; [by exists s, es, t|by apply H1].
    + intros x. rewrite H2, elem_of_union. split.
      * intros [[?|?]|(d' & s' & es' & t' & ? & ? & ?)].
        -- right. exists d, s, es, t. by split; [left|].
        -- by left.
        -- right. exists d', s', es', t'. by split; [right|].
      * intros [?|(d' & s' & es' & t' & [->|?]%elem_of_cons & Hs' & ?)]; [by left; right| |].
        -- left; left. rewrite Hs in Hs'. by injection Hs' as <- <- <-.
        -- right. by exists d', s', es', t'.
    + intros p. rewrite H3, elem_of_snoc. split.
      * intros [[?|?]|(d' & s' & es' & t' & ? & ? & ?)].
        -- by left.
        -- right. exists d, s, es, t. by split; [left|].
        -- right. exists d', s', es', t'. by split; [right|].
      * intros [?|(d' & s' & es' & t' & [->|?]%elem_of_cons & Hs' & ?)]; [by left; left| |].
        -- left; right. rewrite Hs in Hs'. by injection Hs' as <- <- <-.
        -- right. by exists d', s', es', t'.
Qed.

Lemma elem_of_map_keys {V} (m : gmap Id16 V) d : d ∈ map_keys m ↔ is_Some (m !! d).
Proof.
  unfold map_keys. rewrite elem_of_sort_by_key, list_elem_of_fmap. split.
  - intros ([d' v] & -> & Hin). apply elem_of_map_to_list in Hin. by eexists.
  - intros [v Hv]. exists (d, v). split; [done|]. by apply elem_of_map_to_list.
Qed.

Lemma size_list_to_set_le (l : list Hash32) : (size (list_to_set l : gset Hash32) ≤ length l)%nat.
Proof.
  induction l as [|x l IH]; cbn; [by rewrite size_empty|].
  destruct (decide (x ∈ l)) as [Hx|Hx].
  - rewrite (subseteq_union_1_L {[x]}) by set_solver. lia.
  - rewrite size_union, size_singleton by set_solver. lia.
Qed.

(** A set below a list has the list's length when the list has no repetition
    and the set contains it. *)
Lemma size_eq_length (X : gset Hash32) l :
  X ⊆ list_to_set l → (size X = length l ↔ NoDup l ∧ list_to_set l ⊆ X).
Proof.
  intros Hsub. pose proof (size_list_to_set_le l) as Hle.
  split.
  - intros Hs. pose proof (subseteq_size _ _ Hsub).
    assert (X = list_to_set l) as -> by (apply leibniz_equiv, set_subseteq_size_equiv; [done|lia]).
    split; [|done]. clear Hsub Hle H. induction l as [|x l IH]; [constructor|].
    cbn in Hs. pose proof (size_list_to_set_le l) as Hl.
    destruct (decide (x ∈ l)) as [Hx|Hx].
    + rewrite (subseteq_union_1_L {[x]}) in Hs by set_solver. lia.
    + rewrite size_union, size_singleton in Hs by set_solver. constructor; [done|].
      apply IH. lia.
  - intros [Hnd Hsup]. assert (X = list_to_set l) as -> by set_solver.
    by rewrite size_list_to_set.
Qed.

Section Complete.
Context (expected : gmap DeviceId ReplicaObligation) (atts : list VerifiedDeletionAttestation)
  (c : Claims) (targets : list EvidenceTarget).
Hypothesis (Hc : claims_ok expected atts c).

Lemma confirmed_by_spec removed x :
  x ∈ confirmed_by targets removed ↔
  ∃ t, t ∈ targets ∧ tg_entry t = x ∧ tg_original t ∈ removed.
Proof.
  unfold confirmed_by. rewrite elem_of_list_to_set, list_elem_of_fmap.
  setoid_rewrite list_elem_of_filter. naive_solver.
Qed.

Lemma latest_is_newest d a :
  (∀ x y, x ∈ atts → y ∈ atts → at_exact x = at_exact y → x = y) →
  newest atts d a → latest c !! d = Some a.
Proof.
  intros Hex Ha. pose proof Ha as (Hin & Hd & _).
  destruct (ok_present _ _ _ Hc a Hin) as [b Hb]. rewrite Hd in Hb.
  rewrite Hb. f_equal. eapply newest_unique; eauto. by eapply ok_latest.
Qed.

(** A device is reported successful exactly when a newest claim settles it. *)
Lemma status_successful d o s es t :
  (∀ x y, x ∈ atts → y ∈ atts → at_exact x = at_exact y → x = y) →
  expected !! d = Some o →
  replica_status targets c d = Ok (s, es, t) →
  (is_successful s = true ↔ ∃ a, settles atts d o a)
  ∧ ∀ x, x ∈ es ↔ ∃ a, settles atts d o a ∧ x ∈ confirmed_by targets (at_removed (at_fields a)).
Proof.
  intros Hex Ho H. unfold replica_status in H.
  assert (∀ a, settles atts d o a → latest c !! d = Some a) as Hlat.
  { intros a (Hn & _). by apply latest_is_newest. }
  destruct (latest c !! d) as [a|] eqn:Ea.
  2: { injection H as <- <- <-. split.
       - split; [done|]. intros (a & Ha). by specialize (Hlat a Ha).
       - intros x. split; [set_solver|]. intros (a & Ha & _). by specialize (Hlat a Ha). }
  assert (∀ a', settles atts d o a' → a' = a) as Huniq.
  { intros a' Ha'. specialize (Hlat a' Ha'). congruence. }
  clear Hlat. pose proof (ok_latest _ _ _ Hc _ _ Ea) as Hnew.
  pose proof Hnew as (Hin & Hd & Hmax). unfold of_device in Hd.
  assert (¬ settles atts d o a → es = ∅ → is_successful s = false →
    (is_successful s = true ↔ ∃ a, settles atts d o a)
    ∧ ∀ x, x ∈ es ↔ ∃ a, settles atts d o a ∧ x ∈ confirmed_by targets (at_removed (at_fields a)))
    as Hno.
  { intros Hns -> Hs. split.
    - rewrite Hs. split; [done|]. intros (a' & Ha'). by rewrite (Huniq _ Ha') in Ha'.
    - intros x. split; [set_solver|]. intros (a' & Ha' & _). by rewrite (Huniq _ Ha') in Ha'. }
  destruct (at_result (at_fields a)) as [|[p|[p|p|]|]|] eqn:Er; try done.
  - case_match eqn:Edl; injection H as <- <- <-.
    + apply Hno; [|done..]. intros (_ & _ & _ & Hdead).
      apply is_some_and_true in Edl as (x & Hx & Hlt).
      destruct (ok_deadline _ _ _ Hc _ _ Hx) as (b & Hb & Hbd & Hbx).
      specialize (Hdead b x Hb Hbd Hbx). unfold executed in Hdead. lia.
    + assert (settles atts d o a) as Hset.
      { split_and!; [done|done| |].
        - apply (ok_removed _ _ _ Hc a o Hin); [by rewrite Hd|done].
        - intros b x Hb Hbd Hbx. destruct (ok_bound _ _ _ Hc b x Hb Hbx) as (y & Hy & Hle).
          rewrite Hbd in Hy. rewrite is_some_and_false in Edl. specialize (Edl y Hy).
          unfold executed. lia. }
      split; [by split; [exists a|]|]. intros x. split; [by exists a|].
      intros (a' & Ha' & Hx). by rewrite (Huniq _ Ha') in Hx.
  - injection H as <- <- <-. apply Hno; [|done..]. intros (_ & Hr & _). congruence.
  - injection H as <- <- <-. apply Hno; [|done..]. intros (_ & Hr & _). congruence.
Qed.

Hypothesis (Hex : ∀ x y, x ∈ atts → y ∈ atts → at_exact x = at_exact y → x = y).
Hypothesis (Hst : ∀ d, is_Some (expected !! d) →
  ∃ s es t, replica_status targets c d = Ok (s, es, t)).

Lemma confirmed_spec (confirmed : gset EntryHash) :
  (∀ x, x ∈ confirmed ↔ ∃ d s es t, is_Some (expected !! d)
     ∧ replica_status targets c d = Ok (s, es, t) ∧ x ∈ es) →
  ∀ x, x ∈ confirmed ↔ ∃ d o a t, expected !! d = Some o ∧ settles atts d o a
     ∧ t ∈ targets ∧ tg_entry t = x ∧ tg_original t ∈ at_removed (at_fields a).
Proof.
  intros Hconf x. rewrite Hconf. split.
  - intros (d & s & es & t & [o Ho] & Hs & Hx).
    apply (status_successful d o _ _ _ Hex Ho) in Hs as [_ Hes].
    apply Hes in Hx as (a & ? & (t' & ? & ? & ?)%confirmed_by_spec). by exists d, o, a, t'.
  - intros (d & o & a & t' & Ho & Ha & Hx). destruct (Hst d) as (s & es & t & Hs); [by eexists|].
    exists d, s, es, t. split_and!; [by eexists|done|].
    apply (status_successful d o _ _ _ Hex Ho) in Hs as [_ Hes].
    apply Hes. exists a. split; [done|]. apply confirmed_by_spec. by exists t'.
Qed.

Lemma replicas_spec (replicas : list (DeviceId * EvidenceReplicaStatus)) :
  (∀ p, p ∈ replicas ↔ ∃ d s es t, is_Some (expected !! d)
     ∧ replica_status targets c d = Ok (s, es, t) ∧ p = (d, s)) →
  (∀ d s, (d, s) ∈ replicas → is_successful s = true) ↔
  ∀ d o, expected !! d = Some o → ∃ a, settles atts d o a.
Proof.
  intros Hrep. split.
  - intros H d o Ho. destruct (Hst d) as (s & es & t & Hs); [by eexists|].
    apply (status_successful d o _ _ _ Hex Ho Hs), (H d).
    apply Hrep. exists d, s, es, t. split_and!; [by eexists|done..].
  - intros H d s (d' & s' & es & t & [o Ho] & Hs & [= -> ->])%Hrep.
    by apply (status_successful d' o _ _ _ Hex Ho Hs), H.
Qed.
End Complete.

(** What [project] computed, in one piece. *)
Lemma project_Ok auth chain custody targets atts v :
  project auth chain custody targets atts = Ok v →
  ∃ expected c (confirmed : gset EntryHash),
    obligations_loop ∅ custody = Ok expected
    ∧ claims_ok expected atts c
    ∧ (∀ d, is_Some (expected !! d) → ∃ s es t, replica_status targets c d = Ok (s, es, t))
    ∧ (∀ x, x ∈ confirmed ↔ ∃ d s es t, is_Some (expected !! d)
         ∧ replica_status targets c d = Ok (s, es, t) ∧ x ∈ es)
    ∧ (∀ p, p ∈ vd_replicas v ↔ ∃ d s es t, is_Some (expected !! d)
         ∧ replica_status targets c d = Ok (s, es, t) ∧ p = (d, s))
    ∧ vd_complete v = (size confirmed =? length targets)%nat
                      && forallb (λ r, is_successful r.2) (vd_replicas v).
Proof.
  intros H. unfold project in H.
  apply bind_Ok in H as (expected & Hexp & H).
  apply bind_Ok in H as (c & Hc & H).
  apply bind_Ok in H as ([[confirmed replicas] observed] & Hdev & [= <-]).
  exists expected, c, confirmed. cbn.
  apply (read_claims_ok _ _ []) in Hc; [|apply claims_ok_nil].
  apply project_devices_Ok in Hdev as (H1 & H2 & H3).
  setoid_rewrite elem_of_map_keys in H1. setoid_rewrite elem_of_map_keys in H2.
  setoid_rewrite elem_of_map_keys in H3. split_and!; try done.
  - intros x. rewrite H2. set_solver.
  - intros p. rewrite H3. set_solver.
Qed.

Lemma forallb_successful l :
  forallb (λ r : DeviceId * EvidenceReplicaStatus, is_successful r.2) l = true
  ↔ ∀ d s, (d, s) ∈ l → is_successful s = true.
Proof.
  rewrite forallb_forall. setoid_rewrite <- list_elem_of_In.
  split; [by intros H d s Hin; apply (H (d, s))|intros H [d s] Hin; eauto].
Qed.

(** [vd_complete] as a claim about the attestations. *)
Lemma project_complete_spec auth chain custody targets atts v expected :
  project auth chain custody targets atts = Ok v →
  obligations_loop ∅ custody = Ok expected →
  (∀ x y, x ∈ atts → y ∈ atts → at_exact x = at_exact y → x = y) →
  vd_complete v = true ↔
    NoDup (tg_entry <$> targets)
    ∧ (∀ d o, expected !! d = Some o → ∃ a, settles atts d o a)
    ∧ (∀ t, t ∈ targets → ∃ d o a, expected !! d = Some o ∧ settles atts d o a
         ∧ tg_original t ∈ at_removed (at_fields a)).
Proof.
  intros H Hexp Hex.
  apply project_Ok in H as (expected' & c & confirmed & He & Hc & Hst & Hconf & Hrep & ->).
  rewrite Hexp in He. injection He as <-.
  pose proof (confirmed_spec _ _ _ _ Hc Hex Hst _ Hconf) as Hconf'.
  rewrite andb_true_iff, Nat.eqb_eq, forallb_successful, <- (length_fmap tg_entry targets).
  rewrite size_eq_length, (replicas_spec _ _ _ _ Hc Hex Hst _ Hrep).
  2: { intros x (d & o & a & t & _ & _ & Ht & <- & _)%Hconf'.
       apply elem_of_list_to_set, list_elem_of_fmap. by exists t. }
  split.
  - intros [[Hnd Hsub] Hall]. split_and!; [done..|]. intros t Ht.
    assert (tg_entry t ∈ confirmed) as Hin.
    { apply Hsub, elem_of_list_to_set, list_elem_of_fmap. by exists t. }
    apply Hconf' in Hin as (d & o & a & t' & Ho & Ha & Ht' & Heq & Hor).
    rewrite (key_inj_NoDup _ _ Hnd t' t) in Hor by done. by exists d, o, a.
  - intros (Hnd & Hall & Ht). split_and!; [done| |done].
    intros x (t & -> & Hin)%elem_of_list_to_set%list_elem_of_fmap.
    destruct (Ht t Hin) as (d & o & a & Ho & Ha & Hor). apply Hconf'. by exists d, o, a, t.
Qed.

(** Evidence is complete exactly when no target is
    listed twice, every replica of the custody frame has a newest attestation
    that reports the removal of everything it held, at or after every backup
    deadline it ever attested, and every target's original is among the
    objects such an attestation removed.  Equal bytes are equal claims, as the
    decoder is a function of the bytes. *)
Theorem project_complete_iff auth chain custody targets atts v expected :
  project auth chain custody targets atts = Ok v →
  obligations_loop ∅ custody = Ok expected →
  (∀ x y, x ∈ atts → y ∈ atts → at_exact x = at_exact y → x = y) →
  vd_complete v = true ↔
    NoDup (tg_entry <$> targets)
    ∧ (∀ d o, expected !! d = Some o → ∃ a, settles atts d o a)
    ∧ (∀ t, t ∈ targets → ∃ d o a, expected !! d = Some o ∧ settles atts d o a
         ∧ tg_original t ∈ at_removed (at_fields a)).
Proof. apply project_complete_spec. Qed.

(** ** Reconstruction *)

Record indexed (pre : list VerifiedDestructionEvent)
    (unique : gmap ObjectHash VerifiedDestructionEvent)
    (following : gmap (option ObjectHash) ObjectHash) : Prop := {
  ix_sound : ∀ h e, unique !! h = Some e → ev_hash e = h ∧ e ∈ pre;
  ix_complete : ∀ e, e ∈ pre → ∃ e', unique !! ev_hash e = Some e' ∧ ev_exact e' = ev_exact e;
  ix_known : ∀ k h, following !! k = Some h → is_Some (unique !! h);
  ix_inj : ∀ k k' h, following !! k = Some h → following !! k' = Some h → k = k';
}.

Lemma index_events_indexed pre events unique following unique' following' :
  indexed pre unique following →
  index_events events unique following = Ok (unique', following') →
  indexed (pre ++ events) unique' following'.
Proof.
  revert pre unique following.
  induction events as [|e events IH]; intros pre unique following Hix H; cbn in H.
  { injection H as <- <-. by rewrite app_nil_r. }
  rewrite cons_middle, app_assoc.
  assert (∀ f', (∀ k h, f' !! k = Some h → is_Some (<[ev_hash e:=e]> unique !! h)) →
    (∀ k k' h, f' !! k = Some h → f' !! k' = Some h → k = k') →
    (∀ old, unique !! ev_hash e = Some old → ev_exact old = ev_exact e) →
    indexed (pre ++ [e]) (<[ev_hash e:=e]> unique) f') as Hstep.
  { intros f' Hk Hi Hold. split; [| |done..].
    - intros h x [[<- <-]|[_ Hx]]%lookup_insert_Some; rewrite elem_of_snoc; [by split; [|right]|].
      destruct (ix_sound _ _ _ Hix _ _ Hx). by split; [|left].
    - intros x [Hx| ->]%elem_of_snoc; [|rewrite lookup_insert_eq; by eexists].
      destruct (ix_complete _ _ _ Hix x Hx) as (x' & Hx' & Heq).
      destruct (decide (ev_hash e = ev_hash x)) as [E|E].
      + rewrite <- E, lookup_insert_eq. eexists; split; [done|].
        rewrite <- Heq. symmetry. apply Hold. by rewrite E.
      + rewrite lookup_insert_ne by done. by exists x'. }
  destruct (unique !! ev_hash e) as [old|] eqn:Eold; case_match eqn:E; try done.
  - apply bool_decide_eq_false, dec_stable in E.
    eapply IH; [|done]. apply Hstep.
    + intros k h Hk. apply lookup_insert_is_Some'. right. by eapply Hix.
    + apply Hix.
    + by intros ? [= <-].
  - apply bool_decide_eq_false in E. eapply IH; [|done]. apply Hstep; [| |done].
    + intros k h [[_ <-]|[_ Hk]]%lookup_insert_Some; apply lookup_insert_is_Some'; [by left|].
      right. by eapply Hix.
    + assert (∀ k, following !! k ≠ Some (ev_hash e)) as Hnew.
      { intros k Hk. destruct (ix_known _ _ _ Hix _ _ Hk). congruence. }
      intros k k' h [[<- <-]|[? Hk]]%lookup_insert_Some [[<- Hh]|[? Hk']]%lookup_insert_Some;
        [done|by apply Hnew in Hk'|subst h; by apply Hnew in Hk|by eapply (ix_inj _ _ _ Hix)].
Qed.

Lemma indexed_nil : indexed [] ∅ ∅.
Proof. split; set_solver. Qed.

(** The hashes the loop has visited, the last one first. *)
Inductive visited (following : gmap (option ObjectHash) ObjectHash) : list ObjectHash → Prop :=
| visited_nil : visited following []
| visited_cons h hs :
    visited following hs → following !! head hs = Some h → h ∉ hs → visited following (h :: hs).

Lemma visited_NoDup following hs : visited following hs → NoDup hs.
Proof. induction 1; by constructor. Qed.

Lemma visited_predecessor following hs h :
  visited following hs → h ∈ hs → ∃ l k, hs = l ++ h :: k ∧ following !! head k = Some h.
Proof.
  induction 1 as [|h' hs Hv IH Hf Hn]; [by intros ?%not_elem_of_nil|].
  intros [->|Hin]%elem_of_cons; [by exists [], hs|].
  destruct (IH Hin) as (l & k & -> & Hk). by exists (h' :: l), k.
Qed.

(** The successor of the last visited hash is a new one: the successor map is
    injective, so a repetition would need a repeated predecessor. *)
Lemma visited_fresh pre unique following hs h :
  indexed pre unique following → visited following hs → following !! head hs = Some h → h ∉ hs.
Proof.
  intros Hix Hv Hf Hin. pose proof (visited_NoDup _ _ Hv) as Hnd.
  destruct (visited_predecessor _ _ _ Hv Hin) as (l & k & -> & Hk).
  pose proof (ix_inj _ _ _ Hix _ _ _ Hf Hk) as Heq.
  destruct k as [|x k]; [by destruct l|]. cbn in Heq.
  assert (head (l ++ h :: x :: k) = Some x) as Hx by done.
  destruct l as [|y l]; cbn in Hx; injection Hx as ->.
  - apply NoDup_cons in Hnd as [Hnd _]. apply Hnd. by left.
  - cbn in Hnd. apply NoDup_cons in Hnd as [Hnd _]. apply Hnd.
    apply elem_of_app. right. right. by left.
Qed.

(** An event the reconstruction accepted, with the evidence available at its
    time. *)
Definition justified (job : ImportedJob) (atts : list VerifiedDeletionAttestation)
    (e : VerifiedDestructionEvent) : Prop :=
  ∃ v, evidence_at job atts (tr_executed_at (ev_fields e)) = Ok v
    ∧ event_admissible job atts (ev_fields e) v = Ok tt.

Section Walk.
Context (job : ImportedJob) (atts : list VerifiedDeletionAttestation)
  (events : list VerifiedDestructionEvent)
  (unique : gmap ObjectHash VerifiedDestructionEvent)
  (following : gmap (option ObjectHash) ObjectHash).
Hypothesis (Hix : indexed events unique following).

Record walked (m : DestructionStateMachine) (hs : list ObjectHash)
    (es : list VerifiedDestructionEvent) : Prop := {
  wk_visited : visited following hs;
  wk_hashes : ev_hash <$> es = reverse hs;
  wk_events : ∀ e, e ∈ es → unique !! ev_hash e = Some e;
  wk_represents : represents (job_auth job) m es;
  wk_justified : ∀ e, e ∈ es → justified job atts e;
}.

Lemma walked_start : walked (StateMachine_new (job_auth job)) [] [].
Proof.
  split; [constructor|done| |apply represents_new|]; by intros e ?%not_elem_of_nil.
Qed.

Lemma walked_subset m hs es :
  walked m hs es → (list_to_set hs : gset ObjectHash) ⊆ dom unique.
Proof.
  intros W h Hh%elem_of_list_to_set. rewrite <- elem_of_reverse, <- (wk_hashes _ _ _ W) in Hh.
  apply list_elem_of_fmap in Hh as (e & -> & He).
  apply elem_of_dom. eexists. by apply (wk_events _ _ _ W).
Qed.

Lemma walked_size m hs es :
  walked m hs es → size (list_to_set hs : gset ObjectHash) = length hs.
Proof. intros W. apply size_list_to_set. by eapply visited_NoDup, W. Qed.

Lemma walked_bound m hs es : walked m hs es → (length hs ≤ size unique)%nat.
Proof.
  intros W. pose proof (subseteq_size _ _ (walked_subset _ _ _ W)) as Hsub.
  by rewrite (walked_size _ _ _ W), size_dom in Hsub.
Qed.

Lemma walked_step m hs es h e m' r :
  walked m hs es → following !! head hs = Some h → unique !! h = Some e →
  justified job atts e → apply m e = (m', Ok r) → walked m' (h :: hs) (es ++ [e]).
Proof.
  intros W Hf He Hj Ha.
  pose proof (ix_sound _ _ _ Hix _ _ He) as [Hh _].
  pose proof (visited_fresh _ _ _ _ _ Hix (wk_visited _ _ _ W) Hf) as Hnew.
  pose proof (apply_refines _ _ _ e (wk_represents _ _ _ W)) as Hspec. rewrite Ha in Hspec.
  inversion Hspec as [m1 R' Hs| e' Hin Hid Hh' Hx|]; subst.
  - split.
    + constructor; [apply W|done..].
    + rewrite fmap_app, reverse_cons, (wk_hashes _ _ _ W). done.
    + intros x [Hx| ->]%elem_of_snoc; [by apply (wk_events _ _ _ W)|done].
    + done.
    + intros x [Hx| ->]%elem_of_snoc; [by apply (wk_justified _ _ _ W)|done].
  - exfalso. apply Hnew. rewrite <- elem_of_reverse, <- (wk_hashes _ _ _ W), <- Hh'.
    by apply list_elem_of_fmap_2.
Qed.

Lemma walk_history_spec fuel m hs es :
  walked m hs es → (size unique < fuel + length hs)%nat →
  ∃ r, walk_history fuel job atts unique following m (head hs) (length hs) = Some r
    ∧ ∀ m' n, r = Ok (m', n) → ∃ hs' es', walked m' hs' es' ∧ n = length hs'.
Proof.
  revert m hs es. induction fuel as [|fuel IH]; intros m hs es W Hfuel.
  { pose proof (walked_bound _ _ _ W). lia. }
  cbn. destruct (following !! head hs) as [h|] eqn:Hf.
  2: { eexists. split; [done|]. intros m' n [= <- <-]. by exists hs, es. }
  destruct (_ ≫= _) as [e|x] eqn:Eb; [|by eexists].
  destruct (unique !! h) as [e'|] eqn:Hu; [|done]. cbn in Eb.
  apply bind_Ok in Eb as (v & Hv & Eb). apply bind_Ok in Eb as ([] & Hadm & [= ->]).
  destruct (apply m e) as [m' [r|x]] eqn:Ha; [|by eexists].
  assert (walked m' (h :: hs) (es ++ [e])) as W'.
  { eapply walked_step; eauto. by exists v. }
  apply (IH m' (h :: hs) (es ++ [e]) W'). cbn. lia.
Qed.

(** When every indexed event was visited, the accepted events are all. *)
Lemma walked_all m hs es e :
  walked m hs es → length hs = size unique → e ∈ events →
  ∃ e', e' ∈ es ∧ ev_hash e' = ev_hash e ∧ ev_exact e' = ev_exact e.
Proof.
  intros W Hlen He. destruct (ix_complete _ _ _ Hix e He) as (e' & He' & Hex).
  exists e'. destruct (ix_sound _ _ _ Hix _ _ He') as [Hh _]. split_and!; [|done..].
  assert (dom unique ≡ list_to_set hs) as Hdom.
  { symmetry. apply set_subseteq_size_equiv; [by eapply walked_subset|].
    rewrite (walked_size _ _ _ W), size_dom. lia. }
  assert (ev_hash e ∈ dom unique) as Hin by (apply elem_of_dom; by eexists).
  rewrite Hdom, elem_of_list_to_set, <- elem_of_reverse, <- (wk_hashes _ _ _ W) in Hin.
  apply list_elem_of_fmap in Hin as (x & Hx & Hxs).
  pose proof (wk_events _ _ _ W x Hxs) as Hu. rewrite <- Hx, He' in Hu. by injection Hu as ->.
Qed.
End Walk.

(** The walk of a reconstruction, from the start. *)
Lemma walk_from_start job atts events unique following :
  index_events events ∅ ∅ = Ok (unique, following) →
  ∃ r, walk_history (S (size unique)) job atts unique following
         (StateMachine_new (job_auth job)) None 0 = Some r
    ∧ ∀ m n, r = Ok (m, n) →
        ∃ hs es, walked job atts unique following m hs es ∧ n = length hs.
Proof.
  intros Hx. pose proof (index_events_indexed [] _ _ _ _ _ indexed_nil Hx) as Hix.
  apply (walk_history_spec job atts events unique following Hix (S (size unique)) _ [] []).
  - apply walked_start.
  - cbn. lia.
Qed.

(** The [while] loop of the reconstruction ends on
    every input, cyclic references included: the fuel of one step more than
    there are distinct events is never used up. *)
Theorem reconstruct_terminates job events atts :
  reconstruct_imported_history job events atts ≠ None.
Proof.
  unfold reconstruct_imported_history.
  destruct (index_events events ∅ ∅) as [[unique following]|x] eqn:E; [|done].
  destruct (walk_from_start job atts _ _ _ E) as (r & -> & _). by destruct r as [[]|].
Qed.


(** *** A complete request on one device *)

Definition sample_device : DeviceId := replicate 16 x0d.

Definition sample_custody : list (result DestructionError CustodyRecord) :=
  [Ok {| cr_code := 2; cr_device := sample_device; cr_kind := 0; cr_hash := Ok [xee] |}].

Definition sample_targets : list EvidenceTarget :=
  [{| tg_entry := [xe0]; tg_sequence := 3; tg_original := [xee]; tg_stub := [x57] |}].

Definition sample_attestation : VerifiedDeletionAttestation :=
  {| at_fields := {| at_destruction_id := [xd0]; at_authorization := [xa0];
       at_replica_id := sample_device; at_replica_kind := 0; at_removed := [[xee]];
       at_result := 0; at_backup_expiry := None; at_executed_at := 25 |};
     at_exact := [xaa]; at_hash := [xab]; at_certificate := [xac] |}.

Definition sample_job : ImportedJob :=
  {| job_auth := sample_auth; job_chain := [x0c]; job_custody := sample_custody;
     job_targets := sample_targets; job_preflight_time := 15 |}.

Lemma project_complete_iff_witness :
  match project sample_auth [x0c] sample_custody sample_targets [sample_attestation],
        obligations_loop ∅ sample_custody with
  | Ok v, Ok expected =>
      vd_complete v = true
      ∧ ∀ d o, expected !! d = Some o → ∃ a, settles [sample_attestation] d o a
  | _, _ => False
  end.
Proof.
  destruct (project _ _ _ _ _) as [v|] eqn:Ev; [|vm_compute in Ev; discriminate].
  assert (is_ok (obligations_loop ∅ sample_custody) = true) as Hok by (vm_compute; reflexivity).
  destruct (obligations_loop _ _) as [expected|] eqn:Ex; [|discriminate Hok].
  assert (vd_complete v = true) as Hv.
  { vm_compute in Ev. injection Ev as <-. reflexivity. }
  split; [done|].
  apply (project_complete_iff sample_auth [x0c] sample_custody sample_targets
           [sample_attestation] v expected Ev Ex); [|done].
  intros x y ->%list_elem_of_singleton ->%list_elem_of_singleton. done.
Defined.

