(* ===== verification/Inventory.v ===== *)
(** * Inventory: the three classes of an archive ([ea-archive], [inventory.rs])

    One pass over the bytes of an archive: byte sequences with an exact-object
    prefix are parsed into six families keyed by object hash, the others are
    only counted, and every finding is a quarantined hash with one reason.

    The object hash, the parser of [ea-format] and the values it yields are
    parameters; the inventory reads of an entry and of a stub the chain slot,
    of a stub the original it replaces, of a receipt the entry it confirms. *)

From S2P Require Import Prelude Types Str.

(** ** Errors and limits ([error.rs], [layout.rs]) *)

Inductive ArchiveError := Unavailable | BlobLimit | TotalByteLimit.

Definition archive_error_code (e : ArchiveError) : string :=
  match e with
  | Unavailable => "EA-ARCHIVE-UNAVAILABLE"
  | BlobLimit => "EA-ARCHIVE-BLOB-LIMIT"
  | TotalByteLimit => "EA-ARCHIVE-TOTAL-BYTE-LIMIT"
  end.

Definition MAX_ARCHIVE_BLOBS_V1 : Z := 1048576.
Definition MAX_TOTAL_ARCHIVE_BYTES_V1 : Z := 2147483648.

Inductive TrustSourceError := SourceUnavailable | CountLimit | ByteLimit.

Definition MAX_TRUST_OBJECTS_V1 : Z := 65536.
Definition MAX_TOTAL_TRUST_OBJECT_BYTES_V1 : Z := 268435456.

Definition EXACT_OBJECT_PREFIXES_V1 : list (list byte) :=
  (λ k, [x85; x44; x45; x41; x31; x00; k; x01; x80]) <$> [x01; x02; x03; x04; x05; x06].

Definition has_exact_object_prefix (bytes : list byte) : bool :=
  existsb (λ p, starts_with p bytes) EXACT_OBJECT_PREFIXES_V1.

(** ** Quarantine *)

Inductive QuarantineReason := Malformed | Duplicate | Conflicting | Unattributable.

#[export] Instance QuarantineReason_eq_dec : EqDecision QuarantineReason.
Proof. solve_decision. Defined.

Definition reason_as_str (r : QuarantineReason) : string :=
  match r with
  | Malformed => "malformed"
  | Duplicate => "duplicate"
  | Conflicting => "conflicting"
  | Unattributable => "unattributable"
  end.

Definition precedence_rank (r : QuarantineReason) : Z :=
  match r with Malformed => 0 | Conflicting => 1 | Unattributable => 2 | Duplicate => 3 end.

Record QuarantinedObject := { q_object_hash : ObjectHash; q_reason : QuarantineReason }.
Record FormatErrorEntry := { fe_object_hash : ObjectHash; fe_code : string }.

Definition escalate (quarantine : gmap ObjectHash QuarantineReason) (h : ObjectHash)
    (reason : QuarantineReason) : gmap ObjectHash QuarantineReason :=
  match quarantine !! h with
  | Some existing =>
      if precedence_rank reason <? precedence_rank existing
      then <[h := reason]> quarantine else quarantine
  | None => <[h := reason]> quarantine
  end.

(** [BTreeMap::entry(k).or_insert(v)]. *)
Definition or_insert {V} (k : Hash32) (v : V) (m : gmap Hash32 V) : gmap Hash32 V :=
  match m !! k with Some _ => m | None => <[k := v]> m end.

(** ** The parsed objects ([ea-format], [object.rs]) *)

Record Parsed (T : Type) := { value : T; exact_bytes : list byte; p_object_hash : ObjectHash }.
Arguments value {T}. Arguments exact_bytes {T}. Arguments p_object_hash {T}.

Section Inventory.
Context {EntryPackageV1 GrantV1 ReceiptV1 EvidenceObjectV1 TrustObjectV1 DestroyedEntryStubV1 : Type}.

Inductive ParsedArchiveObject :=
| Entry (p : Parsed EntryPackageV1)
| Grant (p : Parsed GrantV1)
| Receipt (p : Parsed ReceiptV1)
| Evidence (p : Parsed EvidenceObjectV1)
| Trust (p : Parsed TrustObjectV1)
| Destroyed (p : Parsed DestroyedEntryStubV1).

Context (entry_slot : EntryPackageV1 → ChainId * ChainSequence).
Context (stub_slot : DestroyedEntryStubV1 → ChainId * ChainSequence).
Context (original_eip_object_hash : DestroyedEntryStubV1 → ObjectHash).
Context (entry_object_hash : ReceiptV1 → ObjectHash).
Context (object_hash : list byte → ObjectHash).
Context (decode_exact_object : list byte → result string ParsedArchiveObject).

Record InventoryBuilder := {
  blob_count : Z;
  b_total_bytes : Z;
  b_archive_object_count : Z;
  b_non_object_file_count : Z;
  b_entries : gmap ObjectHash (Parsed EntryPackageV1);
  b_grants : gmap ObjectHash (Parsed GrantV1);
  b_receipts : gmap ObjectHash (Parsed ReceiptV1);
  b_evidence : gmap ObjectHash (Parsed EvidenceObjectV1);
  b_trust : gmap ObjectHash (Parsed TrustObjectV1);
  b_destroyed : gmap ObjectHash (Parsed DestroyedEntryStubV1);
  b_malformed : gmap ObjectHash string;
  b_seen : gset ObjectHash;
  b_quarantine : gmap ObjectHash QuarantineReason;
}.

Definition default_builder : InventoryBuilder :=
  {| blob_count := 0; b_total_bytes := 0; b_archive_object_count := 0; b_non_object_file_count := 0;
     b_entries := ∅; b_grants := ∅; b_receipts := ∅; b_evidence := ∅; b_trust := ∅;
     b_destroyed := ∅; b_malformed := ∅; b_seen := ∅; b_quarantine := ∅ |}.

(** The counters, and the six families and findings, with one part replaced. *)
Definition set_counts (b : InventoryBuilder) (count total objects others : Z) : InventoryBuilder :=
  {| blob_count := count; b_total_bytes := total; b_archive_object_count := objects;
     b_non_object_file_count := others;
     b_entries := b_entries b; b_grants := b_grants b; b_receipts := b_receipts b;
     b_evidence := b_evidence b; b_trust := b_trust b; b_destroyed := b_destroyed b;
     b_malformed := b_malformed b; b_seen := b_seen b; b_quarantine := b_quarantine b |}.

Definition set_findings (b : InventoryBuilder) (malformed : gmap ObjectHash string)
    (seen : gset ObjectHash) (quarantine : gmap ObjectHash QuarantineReason) : InventoryBuilder :=
  {| blob_count := blob_count b; b_total_bytes := b_total_bytes b;
     b_archive_object_count := b_archive_object_count b;
     b_non_object_file_count := b_non_object_file_count b;
     b_entries := b_entries b; b_grants := b_grants b; b_receipts := b_receipts b;
     b_evidence := b_evidence b; b_trust := b_trust b; b_destroyed := b_destroyed b;
     b_malformed := malformed; b_seen := seen; b_quarantine := quarantine |}.

Definition set_families (b : InventoryBuilder)
    (entries : gmap ObjectHash (Parsed EntryPackageV1)) (grants : gmap ObjectHash (Parsed GrantV1))
    (receipts : gmap ObjectHash (Parsed ReceiptV1))
    (evidence : gmap ObjectHash (Parsed EvidenceObjectV1))
    (trust : gmap ObjectHash (Parsed TrustObjectV1))
    (destroyed : gmap ObjectHash (Parsed DestroyedEntryStubV1)) : InventoryBuilder :=
  {| blob_count := blob_count b; b_total_bytes := b_total_bytes b;
     b_archive_object_count := b_archive_object_count b;
     b_non_object_file_count := b_non_object_file_count b;
     b_entries := entries; b_grants := grants; b_receipts := receipts;
     b_evidence := evidence; b_trust := trust; b_destroyed := destroyed;
     b_malformed := b_malformed b; b_seen := b_seen b; b_quarantine := b_quarantine b |}.

Definition insert_parsed (b : InventoryBuilder) (parsed : ParsedArchiveObject) : InventoryBuilder :=
  let '(e, g, r, v, t, d) :=
    (b_entries b, b_grants b, b_receipts b, b_evidence b, b_trust b, b_destroyed b) in
  match parsed with
  | Entry p => set_families b (or_insert (p_object_hash p) p e) g r v t d
  | Grant p => set_families b e (or_insert (p_object_hash p) p g) r v t d
  | Receipt p => set_families b e g (or_insert (p_object_hash p) p r) v t d
  | Evidence p => set_families b e g r (or_insert (p_object_hash p) p v) t d
  | Trust p => set_families b e g r v (or_insert (p_object_hash p) p t) d
  | Destroyed p => set_families b e g r v t (or_insert (p_object_hash p) p d)
  end.

Definition accept (b : InventoryBuilder) (bytes : list byte) : result ArchiveError InventoryBuilder :=
  let count := blob_count b + 1 in
  if count >? MAX_ARCHIVE_BLOBS_V1 then Err BlobLimit else
  let total := saturating_add usize_max (b_total_bytes b) (Z.of_nat (length bytes)) in
  if total >? MAX_TOTAL_ARCHIVE_BYTES_V1 then Err TotalByteLimit else
  if negb (has_exact_object_prefix bytes) then
    Ok (set_counts b count total (b_archive_object_count b) (b_non_object_file_count b + 1))
  else
    let b := set_counts b count total (b_archive_object_count b + 1) (b_non_object_file_count b) in
    let hash := object_hash bytes in
    let quarantine :=
      if bool_decide (hash ∈ b_seen b) then escalate (b_quarantine b) hash Duplicate
      else b_quarantine b in
    let b := set_findings b (b_malformed b) ({[hash]} ∪ b_seen b) quarantine in
    match decode_exact_object bytes with
    | Ok parsed => Ok (insert_parsed b parsed)
    | Err code =>
        Ok (set_findings b (or_insert hash code (b_malformed b)) (b_seen b)
              (escalate (b_quarantine b) hash Malformed))
    end.

(** *** Conflicts *)

Record SequenceClaims := { identities : gset ObjectHash; members : gset ObjectHash }.

Definition claim_in (slots : gmap (ChainId * ChainSequence) SequenceClaims)
    (c : (ChainId * ChainSequence) * ObjectHash * ObjectHash)
    : gmap (ChainId * ChainSequence) SequenceClaims :=
  let '(slot, identity, member) := c in
  let s := default {| identities := ∅; members := ∅ |} (slots !! slot) in
  <[slot := {| identities := {[identity]} ∪ identities s; members := {[member]} ∪ members s |}]> slots.

Definition entry_claim (p : Parsed EntryPackageV1) : (ChainId * ChainSequence) * ObjectHash * ObjectHash :=
  (entry_slot (value p), p_object_hash p, p_object_hash p).

Definition stub_claim (p : Parsed DestroyedEntryStubV1)
    : (ChainId * ChainSequence) * ObjectHash * ObjectHash :=
  (stub_slot (value p), original_eip_object_hash (value p), p_object_hash p).

Definition sequence_conflicts (b : InventoryBuilder) : list ObjectHash :=
  let slots := foldl claim_in ∅ (entry_claim <$> into_values (b_entries b)) in
  let slots := foldl claim_in slots (stub_claim <$> into_values (b_destroyed b)) in
  concat ((λ s, elements (members s))
            <$> filter (λ s, (1 < size (identities s))%nat) (into_values slots)).

Definition receipt_in (claims : gmap ObjectHash (gset ObjectHash)) (p : Parsed ReceiptV1)
    : gmap ObjectHash (gset ObjectHash) :=
  let k := entry_object_hash (value p) in
  <[k := {[p_object_hash p]} ∪ default ∅ (claims !! k)]> claims.

Definition receipt_conflicts (b : InventoryBuilder) : list ObjectHash :=
  let claims := foldl receipt_in ∅ (into_values (b_receipts b)) in
  concat (elements <$> filter (λ m : gset ObjectHash, (1 < size m)%nat) (into_values claims)).

(** *** The inventory *)

Record ArchiveInventory := {
  archive_object_count : Z;
  non_object_file_count : Z;
  entries : list (Parsed EntryPackageV1);
  grants : list (Parsed GrantV1);
  receipts : list (Parsed ReceiptV1);
  evidence : list (Parsed EvidenceObjectV1);
  trust : list (Parsed TrustObjectV1);
  destroyed : list (Parsed DestroyedEntryStubV1);
  quarantined : list QuarantinedObject;
  format_errors : list FormatErrorEntry;
}.

Definition finish (b : InventoryBuilder) : ArchiveInventory :=
  let quarantine := foldl (λ q h, escalate q h Conflicting) (b_quarantine b) (sequence_conflicts b) in
  let quarantine := foldl (λ q h, escalate q h Conflicting) quarantine (receipt_conflicts b) in
  {| archive_object_count := b_archive_object_count b;
     non_object_file_count := b_non_object_file_count b;
     entries := into_values (b_entries b);
     grants := into_values (b_grants b);
     receipts := into_values (b_receipts b);
     evidence := into_values (b_evidence b);
     trust := into_values (b_trust b);
     destroyed := into_values (b_destroyed b);
     quarantined := (λ p, {| q_object_hash := p.1; q_reason := p.2 |}) <$> by_key quarantine;
     format_errors := (λ p, {| fe_object_hash := p.1; fe_code := p.2 |}) <$> by_key (b_malformed b) |}.

(** A source yields byte sequences until it ends or fails; a visitor that
    fails stops it. *)
Record ArchiveSource := { blobs : list (list byte); failure : option ArchiveError }.

Fixpoint visit (b : InventoryBuilder) (l : list (list byte)) : result ArchiveError InventoryBuilder :=
  match l with
  | [] => Ok b
  | bytes :: rest => b ← accept b bytes; visit b rest
  end.

Definition build (source : ArchiveSource) : result ArchiveError ArchiveInventory :=
  b ← visit default_builder (blobs source);
  match failure source with Some e => Err e | None => Ok (finish b) end.

(** *** The trust port *)

Fixpoint visit_trust {S} (visitor : ObjectHash → S → S * result TrustSourceError unit)
    (total : Z) (l : list (Parsed TrustObjectV1)) (s : S) : S * result TrustSourceError unit :=
  match l with
  | [] => (s, Ok tt)
  | p :: rest =>
      match checked_add usize_max total (Z.of_nat (length (exact_bytes p))) with
      | None => (s, Err ByteLimit)
      | Some total =>
          if total >? MAX_TOTAL_TRUST_OBJECT_BYTES_V1 then (s, Err ByteLimit) else
          match visitor (p_object_hash p) s with
          | (s, Ok _) => visit_trust visitor total rest s
          | (s, Err e) => (s, Err e)
          end
      end
  end.

Definition visit_trust_object_hashes {S} (i : ArchiveInventory)
    (visitor : ObjectHash → S → S * result TrustSourceError unit) (s : S)
    : S * result TrustSourceError unit :=
  if Z.of_nat (length (trust i)) >? MAX_TRUST_OBJECTS_V1 then (s, Err CountLimit)
  else visit_trust visitor 0 (trust i) s.

(** [binary_search_by] on a slice in ascending order of distinct keys. *)
Definition binary_search_hash (l : list (Parsed TrustObjectV1)) (h : ObjectHash) : option nat :=
  let index := partition_point (λ p, bool_decide (cmp (p_object_hash p) h = Lt)) l in
  match l !! index with
  | Some p => if bool_decide (p_object_hash p = h) then Some index else None
  | None => None
  end.

Definition read_exact_trust_object (i : ArchiveInventory) (h : ObjectHash)
    : result TrustSourceError (option (list byte)) :=
  Ok (index ← binary_search_hash (trust i) h; exact_bytes <$> trust i !! index).
(** ** What one pass computes *)

(** [bytes] is an archive object with hash [h]. *)
Definition names (h : ObjectHash) (bytes : list byte) : bool :=
  has_exact_object_prefix bytes && bool_decide (object_hash bytes = h).

Definition occurrences (h : ObjectHash) (l : list (list byte)) : nat :=
  length (filter (λ bytes, names h bytes = true) l).

(** The first value that [f] reads off an object with hash [h]. *)
Definition first_of {V} (f : list byte → option V) (h : ObjectHash) (l : list (list byte)) : option V :=
  head (omap (λ bytes, if names h bytes then f bytes else None) l).

Definition error_of (bytes : list byte) : option string :=
  match decode_exact_object bytes with Err code => Some code | Ok _ => None end.

Definition parsed_of {V} (sel : ParsedArchiveObject → option V) (bytes : list byte) : option V :=
  match decode_exact_object bytes with Ok p => sel p | Err _ => None end.

Definition as_entry p := match p with Entry v => Some v | _ => None end.
Definition as_grant p := match p with Grant v => Some v | _ => None end.
Definition as_receipt p := match p with Receipt v => Some v | _ => None end.
Definition as_evidence p := match p with Evidence v => Some v | _ => None end.
Definition as_trust p := match p with Trust v => Some v | _ => None end.
Definition as_destroyed p := match p with Destroyed v => Some v | _ => None end.

Definition parsed_hash (p : ParsedArchiveObject) : ObjectHash :=
  match p with
  | Entry v => p_object_hash v | Grant v => p_object_hash v | Receipt v => p_object_hash v
  | Evidence v => p_object_hash v | Trust v => p_object_hash v | Destroyed v => p_object_hash v
  end.

(** The reason recorded during the pass, before conflicts are known. *)
Definition pass_reason (l : list (list byte)) (h : ObjectHash) : option QuarantineReason :=
  match first_of error_of h l with
  | Some _ => Some Malformed
  | None => if decide (2 ≤ occurrences h l)%nat then Some Duplicate else None
  end.

Definition total_length (l : list (list byte)) : Z := foldr (λ b n, Z.of_nat (length b) + n) 0 l.

Lemma first_of_snoc {V} (f : list byte → option V) h l bytes :
  first_of f h (l ++ [bytes]) =
  match first_of f h l with
  | Some v => Some v
  | None => if names h bytes then f bytes else None
  end.
Proof.
  unfold first_of. rewrite omap_app. cbn.
  destruct (omap _ l) as [|v k]; cbn; [|done].
  by destruct (if names h bytes then f bytes else None).
Qed.

Lemma occurrences_snoc h l bytes :
  occurrences h (l ++ [bytes]) = (occurrences h l + if names h bytes then 1 else 0)%nat.
Proof.
  unfold occurrences. rewrite filter_app, length_app. f_equal.
  by destruct (names h bytes) eqn:E; cbn; rewrite E.
Qed.

Lemma total_length_snoc l bytes :
  total_length (l ++ [bytes]) = total_length l + Z.of_nat (length bytes).
Proof. unfold total_length. induction l as [|b l IH]; cbn; [lia|]. rewrite IH. lia. Qed.

Lemma total_length_nonneg l : 0 ≤ total_length l.
Proof. unfold total_length. induction l; cbn; lia. Qed.

(** A family holds the first parsed object of each hash. *)
Definition family {V} (m : gmap ObjectHash V) (f : list byte → option V) (l : list (list byte)) : Prop :=
  ∀ h, m !! h = first_of f h l.

Lemma family_skip {V} (m : gmap ObjectHash V) f l bytes :
  family m f l → (has_exact_object_prefix bytes = true → f bytes = None) → family m f (l ++ [bytes]).
Proof.
  intros Hm Hf h. rewrite first_of_snoc, <- (Hm h). destruct (m !! h) as [v|]; [done|].
  unfold names. destruct (has_exact_object_prefix bytes); cbn; [|done].
  rewrite Hf by done. by case_match.
Qed.

Lemma family_or_insert {V} (m : gmap ObjectHash V) f l bytes v :
  family m f l → has_exact_object_prefix bytes = true → f bytes = Some v →
  family (or_insert (object_hash bytes) v m) f (l ++ [bytes]).
Proof.
  intros Hm Hp Hf h. rewrite first_of_snoc, <- (Hm h). unfold names, or_insert.
  rewrite Hp, Hf. cbn.
  destruct (decide (object_hash bytes = h)) as [<-|Hne].
  - rewrite bool_decide_eq_true_2 by done. destruct (m !! object_hash bytes) as [w|] eqn:E.
    + by rewrite E.
    + by rewrite lookup_insert_eq.
  - rewrite bool_decide_eq_false_2 by done.
    destruct (m !! object_hash bytes) as [w|]; [by destruct (m !! h)|].
    rewrite lookup_insert_ne by done. by destruct (m !! h).
Qed.

(** The builder after accepting [l]. *)
Record inventoried (l : list (list byte)) (b : InventoryBuilder) : Prop := {
  in_count : blob_count b = Z.of_nat (length l);
  in_total : b_total_bytes b = total_length l;
  in_limits : Z.of_nat (length l) ≤ MAX_ARCHIVE_BLOBS_V1 ∧ total_length l ≤ MAX_TOTAL_ARCHIVE_BYTES_V1;
  in_objects : b_archive_object_count b
               = Z.of_nat (length (filter (λ x, has_exact_object_prefix x = true) l));
  in_others : b_archive_object_count b + b_non_object_file_count b = Z.of_nat (length l);
  in_entries : family (b_entries b) (parsed_of as_entry) l;
  in_grants : family (b_grants b) (parsed_of as_grant) l;
  in_receipts : family (b_receipts b) (parsed_of as_receipt) l;
  in_evidence : family (b_evidence b) (parsed_of as_evidence) l;
  in_trust : family (b_trust b) (parsed_of as_trust) l;
  in_destroyed : family (b_destroyed b) (parsed_of as_destroyed) l;
  in_malformed : family (b_malformed b) error_of l;
  in_seen : ∀ h, h ∈ b_seen b ↔ (0 < occurrences h l)%nat;
  in_quarantine : ∀ h, b_quarantine b !! h = pass_reason l h;
}.

Lemma inventoried_nil : inventoried [] default_builder.
Proof.
  split; try done; intros h; cbn; try by rewrite lookup_empty.
  split; [set_solver|intros ?; lia].
Qed.

Lemma lookup_escalate q h reason k :
  escalate q h reason !! k =
  if decide (h = k) then
    match q !! k with
    | Some old => Some (if precedence_rank reason <? precedence_rank old then reason else old)
    | None => Some reason
    end
  else q !! k.
Proof.
  unfold escalate. destruct (decide (h = k)) as [<-|Hne].
  - destruct (q !! h) as [old|] eqn:E; [case_match|]; by rewrite ?lookup_insert_eq, ?E.
  - destruct (q !! h); [case_match|]; by rewrite ?lookup_insert_ne.
Qed.

(** The bookkeeping of a hash: what was recorded, then a possible repetition,
    then a possible parse failure. *)
Definition noted (q : gmap ObjectHash QuarantineReason) (again failed : bool) (h : ObjectHash)
    : gmap ObjectHash QuarantineReason :=
  let q := if again then escalate q h Duplicate else q in
  if failed then escalate q h Malformed else q.

Lemma noted_pass_reason q l bytes :
  (∀ h, q !! h = pass_reason l h) → has_exact_object_prefix bytes = true →
  ∀ h, noted q (bool_decide (0 < occurrences (object_hash bytes) l)%nat)
         (bool_decide (is_Some (error_of bytes))) (object_hash bytes) !! h
       = pass_reason (l ++ [bytes]) h.
Proof.
  intros Hq Hp h. unfold pass_reason. rewrite first_of_snoc, occurrences_snoc.
  unfold names. rewrite Hp. cbn [andb]. specialize (Hq h). unfold pass_reason in Hq. unfold noted.
  destruct (decide (object_hash bytes = h)) as [<-|Hne].
  - rewrite (bool_decide_eq_true_2 (object_hash bytes = object_hash bytes)) by done.
    destruct (first_of error_of (object_hash bytes) l) as [c|]; cbn [mbind].
    + do 2 case_bool_decide; repeat rewrite lookup_escalate, decide_True by done; by rewrite Hq.
    + destruct (error_of bytes) as [c|] eqn:Ee.
      * rewrite (bool_decide_eq_true_2 (is_Some (Some c))) by done.
        case_bool_decide; repeat rewrite lookup_escalate, decide_True by done; rewrite ?Hq;
          repeat case_decide; done.
      * rewrite (bool_decide_eq_false_2 (is_Some None)) by (by intros []).
        case_bool_decide; rewrite ?lookup_escalate, ?decide_True by done; rewrite ?Hq;
          repeat case_decide; done || lia.
  - rewrite (bool_decide_eq_false_2 (object_hash bytes = h)) by done. rewrite Nat.add_0_r.
    do 2 case_bool_decide; repeat rewrite lookup_escalate, decide_False by done;
      rewrite Hq; by destruct (first_of error_of h l).
Qed.

(** What the parser yields for a byte sequence carries that sequence's hash. *)
Hypothesis (decode_hash : ∀ bytes p,
  decode_exact_object bytes = Ok p → parsed_hash p = object_hash bytes).

Lemma insert_parsed_families b parsed :
  let upd {V} (o : option (Parsed V)) (m : gmap ObjectHash (Parsed V)) :=
    match o with Some v => or_insert (parsed_hash parsed) v m | None => m end in
  insert_parsed b parsed =
  set_families b (upd (as_entry parsed) (b_entries b)) (upd (as_grant parsed) (b_grants b))
    (upd (as_receipt parsed) (b_receipts b)) (upd (as_evidence parsed) (b_evidence b))
    (upd (as_trust parsed) (b_trust b)) (upd (as_destroyed parsed) (b_destroyed b)).
Proof. by destruct parsed. Qed.

Lemma family_parsed {V} (sel : ParsedArchiveObject → option (Parsed V)) m l bytes parsed :
  family m (parsed_of sel) l → has_exact_object_prefix bytes = true →
  decode_exact_object bytes = Ok parsed →
  family (match sel parsed with Some v => or_insert (parsed_hash parsed) v m | None => m end)
    (parsed_of sel) (l ++ [bytes]).
Proof.
  intros Hm Hp Hd. rewrite (decode_hash _ _ Hd). destruct (sel parsed) as [v|] eqn:E.
  - apply family_or_insert; [done..|]. unfold parsed_of. by rewrite Hd.
  - apply family_skip; [done|]. intros _. unfold parsed_of. by rewrite Hd.
Qed.

Lemma family_unparsed {V} (sel : ParsedArchiveObject → option V) m l bytes code :
  family m (parsed_of sel) l → decode_exact_object bytes = Err code →
  family m (parsed_of sel) (l ++ [bytes]).
Proof. intros Hm Hd. apply family_skip; [done|]. intros _. unfold parsed_of. by rewrite Hd. Qed.

Lemma filter_prefix_snoc l bytes :
  length (filter (λ x, has_exact_object_prefix x = true) (l ++ [bytes]))
  = (length (filter (λ x, has_exact_object_prefix x = true) l)
     + if has_exact_object_prefix bytes then 1 else 0)%nat.
Proof.
  rewrite filter_app, length_app. f_equal.
  rewrite filter_cons, filter_nil. by case_decide as E; [rewrite E|apply not_true_is_false in E; rewrite E].
Qed.

(** The limits decide whether a byte sequence is accepted. *)
Lemma accept_limits l b bytes :
  inventoried l b →
  (∃ b', accept b bytes = Ok b') ↔
  Z.of_nat (length (l ++ [bytes])) ≤ MAX_ARCHIVE_BLOBS_V1
  ∧ total_length (l ++ [bytes]) ≤ MAX_TOTAL_ARCHIVE_BYTES_V1.
Proof.
  intros Hb. unfold accept. cbn zeta.
  rewrite (in_count _ _ Hb), (in_total _ _ Hb), length_app, total_length_snoc. cbn [length].
  pose proof (in_limits _ _ Hb) as [Hl Ht]. pose proof (total_length_nonneg l).
  unfold saturating_add, usize_max, u64_max, MAX_TOTAL_ARCHIVE_BYTES_V1 in *.
  case_match; [split; [by intros []|lia]|].
  case_match; [split; [by intros []|lia]|].
  split; [lia|]. intros _. case_match; [by eexists|]. by case_match; eexists.
Qed.

Lemma accept_inventoried l b bytes b' :
  inventoried l b → accept b bytes = Ok b' → inventoried (l ++ [bytes]) b'.
Proof.
  intros Hb Ha. destruct (proj1 (accept_limits l b bytes Hb) (ex_intro _ _ Ha)) as [Hc Ht].
  pose proof (in_limits _ _ Hb) as [Hl0 Ht0]. pose proof (total_length_nonneg l) as H0.
  assert (saturating_add usize_max (b_total_bytes b) (Z.of_nat (length bytes))
          = total_length (l ++ [bytes])) as Htot.
  { rewrite total_length_snoc in *. rewrite (in_total _ _ Hb).
    unfold saturating_add, usize_max, u64_max, MAX_TOTAL_ARCHIVE_BYTES_V1 in *. lia. }
  unfold accept in Ha. cbn zeta in Ha. rewrite Htot, (in_count _ _ Hb) in Ha.
  rewrite length_app in *. cbn [length] in *.
  do 2 (case_match; [done|]). destruct (has_exact_object_prefix bytes) eqn:Hp; cbn [negb] in Ha.
  2: { injection Ha as <-. split; cbn; try (apply family_skip; [apply Hb|congruence]).
       - rewrite length_app. cbn. lia.
       - done.
       - by rewrite length_app.
       - rewrite filter_prefix_snoc, Hp, Nat.add_0_r. apply Hb.
       - rewrite length_app. cbn. pose proof (in_others _ _ Hb). lia.
       - intros h. rewrite (in_seen _ _ Hb), occurrences_snoc. unfold names. rewrite Hp. cbn. lia.
       - intros h. rewrite (in_quarantine _ _ Hb). unfold pass_reason.
         rewrite first_of_snoc, occurrences_snoc. unfold names. rewrite Hp. cbn.
         rewrite Nat.add_0_r. by destruct (first_of error_of h l). }
  assert (∀ h, h ∈ {[object_hash bytes]} ∪ b_seen b ↔ (0 < occurrences h (l ++ [bytes]))%nat) as Hseen.
  { intros h. rewrite elem_of_union, elem_of_singleton, (in_seen _ _ Hb), occurrences_snoc.
    unfold names. rewrite Hp. cbn [andb]. clear Ha. case_bool_decide as Hh.
    - split; [lia|by left].
    - split; [intros [->|?]; [done|lia]|right; lia]. }
  pose proof (noted_pass_reason _ _ bytes (in_quarantine _ _ Hb) Hp) as Hq.
  unfold noted in Hq. rewrite <- (bool_decide_ext _ _ (in_seen _ _ Hb (object_hash bytes))) in Hq.
  assert (b_archive_object_count b + 1
    = Z.of_nat (length (filter (λ x, has_exact_object_prefix x = true) (l ++ [bytes])))) as Hobj.
  { rewrite filter_prefix_snoc, Hp, (in_objects _ _ Hb). lia. }
  pose proof (in_others _ _ Hb) as Hoth. unfold error_of in Hq.
  destruct (decode_exact_object bytes) as [parsed|code] eqn:Hd; injection Ha as <-.
  - rewrite insert_parsed_families. split; cbn; rewrite ?length_app; cbn; try lia;
      try (apply family_parsed; [apply Hb|done..]); try done.
    apply family_skip; [apply Hb|]. intros _. unfold error_of. by rewrite Hd.
  - split; cbn; rewrite ?length_app; cbn; try lia;
      try (eapply family_unparsed; [apply Hb|done]); try done.
    apply family_or_insert; [apply Hb|done|]. unfold error_of. by rewrite Hd.
Qed.

Definition within_limits (l : list (list byte)) : Prop :=
  Z.of_nat (length l) ≤ MAX_ARCHIVE_BLOBS_V1 ∧ total_length l ≤ MAX_TOTAL_ARCHIVE_BYTES_V1.

Lemma within_limits_prefix l k : within_limits (l ++ k) → within_limits l.
Proof.
  unfold within_limits. rewrite length_app.
  assert (total_length (l ++ k) = total_length l + total_length k) as ->.
  { unfold total_length. induction l as [|x l IH]; cbn; [done|]. rewrite IH. lia. }
  pose proof (total_length_nonneg k). lia.
Qed.

Lemma visit_inventoried pre b l b' :
  inventoried pre b → visit b l = Ok b' → inventoried (pre ++ l) b'.
Proof.
  revert pre b. induction l as [|x l IH]; intros pre b Hb H; cbn in H.
  - injection H as <-. by rewrite app_nil_r.
  - apply bind_Ok in H as (b1 & H1 & H). rewrite cons_middle, app_assoc.
    by eapply IH; [eapply accept_inventoried|].
Qed.

Lemma visit_within pre b l :
  inventoried pre b → within_limits (pre ++ l) → ∃ b', visit b l = Ok b'.
Proof.
  revert pre b. induction l as [|x l IH]; intros pre b Hb Hl; cbn; [by eexists|].
  rewrite cons_middle, app_assoc in Hl.
  destruct (proj2 (accept_limits pre b x Hb)) as [b1 H1]; [by apply within_limits_prefix in Hl|].
  rewrite H1. cbn. by apply (IH (pre ++ [x])); [eapply accept_inventoried|].
Qed.

(** A build that succeeds is the finish of a pass over all its bytes. *)
Lemma build_Ok source i :
  build source = Ok i →
  ∃ b, inventoried (blobs source) b ∧ failure source = None ∧ i = finish b.
Proof.
  unfold build. intros (b & Hb & H)%bind_Ok. destruct (failure source); [done|].
  injection H as <-. exists b. split_and!; [|done..].
  apply (visit_inventoried [] default_builder); [apply inventoried_nil|done].
Qed.

Lemma build_within source b :
  inventoried (blobs source) b → failure source = None → ∃ b', build source = Ok (finish b')
    ∧ inventoried (blobs source) b'.
Proof.
  intros Hb Hf. unfold build.
  destruct (visit_within [] default_builder (blobs source) inventoried_nil) as [b' Hv].
  { apply (in_limits _ _ Hb). }
  rewrite Hv. cbn. rewrite Hf. exists b'. split; [done|].
  by apply (visit_inventoried [] default_builder); [apply inventoried_nil|].
Qed.

(** *** Conflicts *)

(** Two members of a set differ. *)
Lemma size_gt_1 (X : gset ObjectHash) : (1 < size X)%nat ↔ ∃ x y, x ∈ X ∧ y ∈ X ∧ x ≠ y.
Proof.
  split.
  - intros Hs. destruct (size_pos_elem_of X) as [x Hx]; [lia|].
    destruct (decide (X ⊆ {[x]})) as [Hsub|Hn].
    + apply subseteq_size in Hsub. rewrite size_singleton in Hsub. lia.
    + assert (X ∖ {[x]} ≠ ∅) as [y Hy]%set_choose_L.
      { intros E. apply Hn. intros z Hz. destruct (decide (z = x)); set_solver. }
      exists x, y. set_solver.
  - intros (x & y & Hx & Hy & Hne).
    assert ({[x; y]} ⊆ X) as Hsub%subseteq_size by set_solver.
    rewrite size_union, !size_singleton in Hsub by set_solver. lia.
Qed.

Definition claim_slot (c : (ChainId * ChainSequence) * ObjectHash * ObjectHash) := c.1.1.
Definition claim_identity (c : (ChainId * ChainSequence) * ObjectHash * ObjectHash) := c.1.2.
Definition claim_member (c : (ChainId * ChainSequence) * ObjectHash * ObjectHash) := c.2.

Lemma claims_present cs slot :
  is_Some (foldl claim_in ∅ cs !! slot) ↔ ∃ c, c ∈ cs ∧ claim_slot c = slot.
Proof.
  induction cs as [|[[k i] m] cs IH] using rev_ind.
  - cbn. rewrite lookup_empty. split; [by intros []|]. by intros (c & ?%not_elem_of_nil & _).
  - rewrite foldl_app. cbn. rewrite lookup_insert_is_Some', IH. setoid_rewrite elem_of_snoc.
    split.
    + intros [->|(c & ? & ?)]; [exists (slot, i, m)|exists c]; split; auto.
    + intros (c & [Hc| ->] & Hs); [right; by exists c|by left].
Qed.

Lemma claims_gathered cs slot s :
  foldl claim_in ∅ cs !! slot = Some s →
  (∀ x, x ∈ identities s ↔ ∃ c, c ∈ cs ∧ claim_slot c = slot ∧ claim_identity c = x)
  ∧ (∀ x, x ∈ members s ↔ ∃ c, c ∈ cs ∧ claim_slot c = slot ∧ claim_member c = x).
Proof.
  revert s. induction cs as [|[[k i] m] cs IH] using rev_ind; intros s.
  { cbn. by rewrite lookup_empty. }
  rewrite foldl_app. cbn. setoid_rewrite elem_of_snoc.
  intros [[-> <-]|[Hne Hs]]%lookup_insert_Some; cbn.
  - destruct (foldl claim_in ∅ cs !! slot) as [s0|] eqn:E; cbn.
    + destruct (IH s0 eq_refl) as [H1 H2].
      setoid_rewrite elem_of_union. setoid_rewrite elem_of_singleton.
      setoid_rewrite H1. setoid_rewrite H2. split; intros x; split;
        first [solve [intros [->|(c & ? & ? & ?)]; [exists (slot, i, m)|exists c]; auto]
              |intros (c & [Hc| ->] & Hk & Hx); [right; by exists c|by left]].
    + assert (∀ c, c ∈ cs → claim_slot c ≠ slot) as Hno.
      { intros c Hc Hk. assert (is_Some (foldl claim_in ∅ cs !! slot)) as [? ?]
          by (apply claims_present; by exists c). congruence. }
      setoid_rewrite elem_of_union. setoid_rewrite elem_of_singleton. split; intros x; split;
        first [solve [intros [->|[]%not_elem_of_empty]; exists (slot, i, m); auto]
              |intros (c & [Hc| ->] & Hk & Hx); [by apply Hno in Hc|by left]].
  - destruct (IH s Hs) as [H1 H2]. setoid_rewrite H1. setoid_rewrite H2. split; intros x; split;
      first [solve [intros (c & ? & ? & ?); exists c; auto]
            |intros (c & [Hc| ->] & Hk & Hx); [by exists c|by apply Hne in Hk]].
Qed.

Lemma receipts_gathered ps k :
  (is_Some (foldl receipt_in ∅ ps !! k) ↔ ∃ p, p ∈ ps ∧ entry_object_hash (value p) = k)
  ∧ ∀ x, x ∈ default ∅ (foldl receipt_in ∅ ps !! k) ↔
         ∃ p, p ∈ ps ∧ entry_object_hash (value p) = k ∧ p_object_hash p = x.
Proof.
  induction ps as [|p ps [IH1 IH2]] using rev_ind.
  - cbn. rewrite lookup_empty. split.
    + split; [by intros []|]. by intros (c & ?%not_elem_of_nil & _).
    + intros x. split; [set_solver|]. by intros (c & ?%not_elem_of_nil & _).
  - rewrite foldl_app. cbn. unfold receipt_in. setoid_rewrite elem_of_snoc.
    rewrite lookup_insert_is_Some', IH1. split.
    + split.
      * intros [<-|(c & ? & ?)]; [exists p|exists c]; auto.
      * intros (c & [Hc| ->] & Hs); [right; by exists c|by left].
    + intros x. destruct (decide (entry_object_hash (value p) = k)) as [<-|Hne].
      * rewrite lookup_insert_eq. cbn. rewrite elem_of_union, elem_of_singleton, IH2. split.
        -- intros [->|(c & ? & ? & ?)]; [exists p|exists c]; auto.
        -- intros (c & [Hc| ->] & Hs & Hx); [right; by exists c|by left].
      * rewrite lookup_insert_ne, IH2 by done. split.
        -- intros (c & ? & ? & ?); exists c; auto.
        -- intros (c & [Hc| ->] & Hs & Hx); [by exists c|done].
Qed.

(** The claims an inventory's entries and stubs make on chain slots. *)
Definition slot_claims (es : list (Parsed EntryPackageV1)) (ds : list (Parsed DestroyedEntryStubV1))
    : list ((ChainId * ChainSequence) * ObjectHash * ObjectHash) :=
  (entry_claim <$> es) ++ (stub_claim <$> ds).

(** [h] claims a chain slot for which two original entries are claimed. *)
Definition slot_conflict (es : list (Parsed EntryPackageV1)) (ds : list (Parsed DestroyedEntryStubV1))
    (h : ObjectHash) : Prop :=
  ∃ c1 c2 c, c1 ∈ slot_claims es ds ∧ c2 ∈ slot_claims es ds ∧ c ∈ slot_claims es ds
    ∧ claim_slot c1 = claim_slot c ∧ claim_slot c2 = claim_slot c
    ∧ claim_identity c1 ≠ claim_identity c2 ∧ claim_member c = h.

(** [h] is one of several receipts for the same entry. *)
Definition receipt_conflict (rs : list (Parsed ReceiptV1)) (h : ObjectHash) : Prop :=
  ∃ r1 r2 r, r1 ∈ rs ∧ r2 ∈ rs ∧ r ∈ rs
    ∧ entry_object_hash (value r1) = entry_object_hash (value r)
    ∧ entry_object_hash (value r2) = entry_object_hash (value r)
    ∧ p_object_hash r1 ≠ p_object_hash r2 ∧ p_object_hash r = h.

Lemma elem_of_concat_fmap {A B} (f : A → list B) l x :
  x ∈ concat (f <$> l) ↔ ∃ y, y ∈ l ∧ x ∈ f y.
Proof.
  induction l as [|a l IH]; cbn; [set_solver|].
  rewrite elem_of_app, IH. setoid_rewrite elem_of_cons. naive_solver.
Qed.

Lemma sequence_conflicts_spec b h :
  h ∈ sequence_conflicts b ↔ slot_conflict (into_values (b_entries b)) (into_values (b_destroyed b)) h.
Proof.
  unfold sequence_conflicts. rewrite <- foldl_app.
  change (_ ++ _) with (slot_claims (into_values (b_entries b)) (into_values (b_destroyed b))).
  set (cs := slot_claims _ _). rewrite elem_of_concat_fmap. unfold slot_conflict. fold cs. split.
  - intros (s & Hs & Hm). apply list_elem_of_filter in Hs as [Hsz (slot & Hs)%elem_of_into_values].
    destruct (claims_gathered _ _ _ Hs) as [Hi Hmem]. rewrite elem_of_elements, Hmem in Hm.
    destruct Hm as (c & Hc & Hslot & Hh).
    apply size_gt_1 in Hsz as (x & y & Hx & Hy & Hne).
    apply Hi in Hx as (c1 & ? & ? & ?). apply Hi in Hy as (c2 & ? & ? & ?).
    exists c1, c2, c. split_and!; congruence.
  - intros (c1 & c2 & c & H1 & H2 & Hc & Hs1 & Hs2 & Hne & Hh).
    destruct (proj2 (claims_present cs (claim_slot c))) as [s Hs]; [by exists c|].
    destruct (claims_gathered _ _ _ Hs) as [Hi Hmem]. exists s. split.
    + apply list_elem_of_filter. split; [|by apply elem_of_into_values; eexists].
      apply size_gt_1. exists (claim_identity c1), (claim_identity c2).
      split_and!; [apply Hi; by exists c1|apply Hi; by exists c2|done].
    + rewrite elem_of_elements. apply Hmem. by exists c.
Qed.

Lemma receipt_conflicts_spec b h :
  h ∈ receipt_conflicts b ↔ receipt_conflict (into_values (b_receipts b)) h.
Proof.
  unfold receipt_conflicts, receipt_conflict. set (rs := into_values (b_receipts b)).
  rewrite elem_of_concat_fmap. split.
  - intros (X & HX & Hm). apply list_elem_of_filter in HX as [Hsz (k & Hk)%elem_of_into_values].
    destruct (receipts_gathered rs k) as [_ Hg]. rewrite Hk in Hg. cbn in Hg.
    rewrite elem_of_elements, Hg in Hm. destruct Hm as (r & Hr & Hrk & Hh).
    apply size_gt_1 in Hsz as (x & y & Hx & Hy & Hne).
    apply Hg in Hx as (r1 & ? & ? & ?). apply Hg in Hy as (r2 & ? & ? & ?).
    exists r1, r2, r. split_and!; congruence.
  - intros (r1 & r2 & r & H1 & H2 & Hr & Hk1 & Hk2 & Hne & Hh).
    destruct (receipts_gathered rs (entry_object_hash (value r))) as [Hp Hg].
    destruct (proj2 Hp) as [X HX]; [by exists r|]. rewrite HX in Hg. cbn in Hg.
    exists X. split.
    + apply list_elem_of_filter. split; [|by apply elem_of_into_values; eexists].
      apply size_gt_1. exists (p_object_hash r1), (p_object_hash r2).
      split_and!; [apply Hg; by exists r1|apply Hg; by exists r2|done].
    + rewrite elem_of_elements. apply Hg. by exists r.
Qed.

Definition conflicting (o : option QuarantineReason) : QuarantineReason :=
  match o with Some Malformed => Malformed | _ => Conflicting end.

Lemma lookup_conflicts q l h :
  foldl (λ q h, escalate q h Conflicting) q l !! h =
  if decide (h ∈ l) then Some (conflicting (q !! h)) else q !! h.
Proof.
  induction l as [|x l IH] using rev_ind; [done|].
  rewrite foldl_app. cbn [foldl]. rewrite lookup_escalate, IH.
  pose proof (elem_of_snoc h x l) as Hsnoc.
  destruct (decide (x = h)) as [->|Hne], (decide (h ∈ l)) as [Hin|Hin],
    (decide (h ∈ l ++ _)) as [Hin'|Hin']; try tauto; try (by destruct (q !! h) as [[]|]).
  exfalso. destruct Hsnoc as [[?| ->] _]; done.
Qed.

(** *** The quarantine *)

Definition malformed_in (l : list (list byte)) (h : ObjectHash) : Prop :=
  is_Some (first_of error_of h l).

Definition conflicted (i : ArchiveInventory) (h : ObjectHash) : Prop :=
  slot_conflict (entries i) (destroyed i) h ∨ receipt_conflict (receipts i) h.

(** The one reason a hash is quarantined for, by precedence. *)
Inductive quarantined_for (l : list (list byte)) (i : ArchiveInventory) (h : ObjectHash) :
    QuarantineReason → Prop :=
| for_malformed : malformed_in l h → quarantined_for l i h Malformed
| for_conflict : ¬ malformed_in l h → conflicted i h → quarantined_for l i h Conflicting
| for_duplicate : ¬ malformed_in l h → ¬ conflicted i h → (2 ≤ occurrences h l)%nat →
    quarantined_for l i h Duplicate.

Lemma malformed_in_spec l h :
  malformed_in l h ↔ ∃ bytes, bytes ∈ l ∧ has_exact_object_prefix bytes = true
    ∧ object_hash bytes = h ∧ ¬ is_ok (decode_exact_object bytes).
Proof.
  unfold malformed_in, first_of. split.
  - destruct (omap _ l) as [|c k] eqn:E; [by intros []|]. intros _.
    assert (c ∈ omap (λ bytes, if names h bytes then error_of bytes else None) l) as Hc
      by (rewrite E; by left).
    apply list_elem_of_omap in Hc as (bytes & Hin & Hb). exists bytes.
    unfold names, error_of in Hb. destruct (has_exact_object_prefix bytes); [|done].
    case_bool_decide as Hh; [|done]. cbn in Hb. split_and!; [done..|].
    destruct (decode_exact_object bytes); [discriminate Hb|by intros []].
  - intros (bytes & Hin & Hp & Hh & Hd).
    destruct (decode_exact_object bytes) as [p|c] eqn:E; [by destruct Hd|].
    assert (c ∈ omap (λ bytes, if names h bytes then error_of bytes else None) l) as Hc.
    { apply list_elem_of_omap. exists bytes. split; [done|]. unfold names, error_of.
      by rewrite Hp, bool_decide_eq_true_2, E. }
    destruct (omap _ l); [by apply not_elem_of_nil in Hc|]. by eexists.
Qed.

Lemma finish_quarantine l b h r :
  inventoried l b →
  {| q_object_hash := h; q_reason := r |} ∈ quarantined (finish b) ↔ quarantined_for l (finish b) h r.
Proof.
  intros Hb. cbn [finish quarantined]. rewrite list_elem_of_fmap.
  assert ((∃ y, {| q_object_hash := h; q_reason := r |} = {| q_object_hash := y.1; q_reason := y.2 |}
            ∧ y ∈ by_key (foldl (λ q h, escalate q h Conflicting)
                (foldl (λ q h, escalate q h Conflicting) (b_quarantine b) (sequence_conflicts b))
                (receipt_conflicts b))) ↔
    foldl (λ q h, escalate q h Conflicting)
      (foldl (λ q h, escalate q h Conflicting) (b_quarantine b) (sequence_conflicts b))
      (receipt_conflicts b) !! h = Some r) as ->.
  { split; [intros ([] & [= -> ->] & Hin); by apply elem_of_by_key in Hin|].
    intros Hin. exists (h, r). split; [done|]. by apply elem_of_by_key. }
  rewrite lookup_conflicts, lookup_conflicts, (in_quarantine _ _ Hb). unfold pass_reason.
  assert (conflicted (finish b) h ↔ h ∈ sequence_conflicts b ∨ h ∈ receipt_conflicts b) as Hc.
  { unfold conflicted. rewrite sequence_conflicts_spec, receipt_conflicts_spec. done. }
  assert (malformed_in l h ↔ is_Some (first_of error_of h l)) as Hm by done.
  destruct (first_of error_of h l) as [c|].
  - assert (malformed_in l h) as Hm' by (apply Hm; by eexists).
    repeat case_decide; cbn; (split; [intros [= <-]; by apply for_malformed|by intros []]).
  - assert (¬ malformed_in l h) as Hm' by (rewrite Hm; by intros []).
    destruct (decide (h ∈ receipt_conflicts b)) as [Hr|Hr], (decide (h ∈ sequence_conflicts b)) as [Hs|Hs];
      destruct (decide (2 ≤ occurrences h l)%nat) as [Ho|Ho]; cbn; (split;
      [intros [= <-]; constructor; (done || rewrite Hc; tauto)
      |intros [| |]; (done || tauto || (exfalso; rewrite Hc in *; tauto))]).
Qed.

(** *** The families *)

(** Distinct archive objects of [l] have distinct hashes. *)
Definition collision_free (l : list (list byte)) : Prop :=
  ∀ x y, x ∈ l → y ∈ l → has_exact_object_prefix x = true → has_exact_object_prefix y = true →
    object_hash x = object_hash y → x = y.

Lemma names_true h bytes :
  names h bytes = true ↔ has_exact_object_prefix bytes = true ∧ object_hash bytes = h.
Proof. unfold names. by rewrite andb_true_iff, bool_decide_eq_true. Qed.

Lemma first_of_Some {V} (f : list byte → option V) h l v :
  first_of f h l = Some v →
  ∃ bytes, bytes ∈ l ∧ has_exact_object_prefix bytes = true ∧ object_hash bytes = h ∧ f bytes = Some v.
Proof.
  unfold first_of. intros Hv. apply head_Some_elem_of in Hv.
  apply list_elem_of_omap in Hv as (bytes & Hin & Hb). exists bytes.
  destruct (names h bytes) eqn:E; [|done]. by apply names_true in E as [? ?].
Qed.

Lemma first_of_complete {V} (f : list byte → option V) h l bytes v :
  collision_free l → bytes ∈ l → has_exact_object_prefix bytes = true → object_hash bytes = h →
  f bytes = Some v → first_of f h l = Some v.
Proof.
  intros Hcf Hin Hp Hh Hf. destruct (first_of f h l) as [w|] eqn:E.
  - apply first_of_Some in E as (bytes' & Hin' & Hp' & Hh' & Hf').
    rewrite (Hcf bytes' bytes) in Hf' by congruence. congruence.
  - unfold first_of in E. apply head_None in E.
    assert (v ∈ omap (λ bytes, if names h bytes then f bytes else None) l) as Hv.
    { apply list_elem_of_omap. exists bytes. split; [done|].
      by rewrite (proj2 (names_true h bytes)). }
    rewrite E in Hv. by apply not_elem_of_nil in Hv.
Qed.

(** A family lists exactly the parsed objects of its kind, each hash once, in
    ascending order. *)
Definition lists_family {V} (vs : list (Parsed V)) (sel : ParsedArchiveObject → option (Parsed V))
    (l : list (list byte)) : Prop :=
  StronglySorted (key_lt p_object_hash) vs
  ∧ ∀ v, v ∈ vs ↔ ∃ bytes p, bytes ∈ l ∧ has_exact_object_prefix bytes = true
      ∧ decode_exact_object bytes = Ok p ∧ sel p = Some v.

Definition selects {V} (sel : ParsedArchiveObject → option (Parsed V)) : Prop :=
  ∀ p v, sel p = Some v → p_object_hash v = parsed_hash p.

Lemma family_key {V} (sel : ParsedArchiveObject → option (Parsed V)) m l h v :
  selects sel → family m (parsed_of sel) l → m !! h = Some v → p_object_hash v = h.
Proof.
  intros Hsel Hm Hv. rewrite Hm in Hv. apply first_of_Some in Hv as (bytes & _ & _ & <- & Hf).
  unfold parsed_of in Hf. destruct (decode_exact_object bytes) as [p|] eqn:E; [|done].
  by rewrite (Hsel _ _ Hf), (decode_hash _ _ E).
Qed.

Lemma family_sorted {V} (sel : ParsedArchiveObject → option (Parsed V)) m l :
  selects sel → family m (parsed_of sel) l → StronglySorted (key_lt p_object_hash) (into_values m).
Proof.
  intros Hsel Hm. unfold into_values. pose proof (by_key_strict m) as Hs.
  assert (∀ k v, (k, v) ∈ by_key m → p_object_hash v = k) as Hk.
  { intros k v Hin%elem_of_by_key. by eapply family_key. }
  induction Hs as [|[k v] kvs Hs IH Hall]; cbn; [constructor|].
  constructor; [apply IH; intros k' v' ?; apply Hk; by right|].
  rewrite Forall_forall in Hall. apply Forall_forall. intros w ([k' v'] & -> & Hin)%list_elem_of_fmap.
  specialize (Hall _ Hin). unfold key_lt in *. cbn in *.
  rewrite (Hk k v), (Hk k' v'); [done|by right|by left].
Qed.

Lemma family_lists {V} (sel : ParsedArchiveObject → option (Parsed V)) m l :
  selects sel → family m (parsed_of sel) l → collision_free l → lists_family (into_values m) sel l.
Proof.
  intros Hsel Hm Hcf. split; [by eapply family_sorted|].
  intros v. rewrite elem_of_into_values. split.
  - intros (h & Hv). rewrite Hm in Hv. apply first_of_Some in Hv as (bytes & Hin & Hp & _ & Hf).
    unfold parsed_of in Hf. destruct (decode_exact_object bytes) as [p|] eqn:E; [|done].
    by exists bytes, p.
  - intros (bytes & p & Hin & Hp & Hd & Hs). exists (object_hash bytes). rewrite Hm.
    eapply first_of_complete; eauto. unfold parsed_of. by rewrite Hd.
Qed.

Lemma selects_all :
  selects as_entry ∧ selects as_grant ∧ selects as_receipt ∧ selects as_evidence
  ∧ selects as_trust ∧ selects as_destroyed.
Proof. split_and!; intros [] v Hv; try done; by injection Hv as ->. Qed.

(** *** Order independence *)

Lemma first_of_perm {V} (f : list byte → option V) h l l' :
  collision_free l → l ≡ₚ l' → first_of f h l = first_of f h l'.
Proof.
  intros Hcf Hp. assert (collision_free l') as Hcf'.
  { intros x y Hx Hy. rewrite <- Hp in Hx, Hy. by apply Hcf. }
  destruct (first_of f h l') as [v|] eqn:E.
  - apply first_of_Some in E as (bytes & Hin & Hpre & Hh & Hf).
    rewrite <- Hp in Hin. by eapply first_of_complete.
  - destruct (first_of f h l) as [v|] eqn:E'; [|done].
    apply first_of_Some in E' as (bytes & Hin & Hpre & Hh & Hf). rewrite Hp in Hin.
    erewrite first_of_complete in E; eauto.
Qed.

Lemma occurrences_perm h l l' : l ≡ₚ l' → occurrences h l = occurrences h l'.
Proof. intros Hp. unfold occurrences. by rewrite Hp. Qed.

Lemma total_length_perm l l' : l ≡ₚ l' → total_length l = total_length l'.
Proof. unfold total_length. induction 1; cbn; lia. Qed.

Lemma inventoried_perm l l' b : collision_free l → l ≡ₚ l' → inventoried l b → inventoried l' b.
Proof.
  intros Hcf Hp Hb.
  assert (∀ V (m : gmap ObjectHash V) f, family m f l → family m f l') as Hfam.
  { intros V m f Hm h. by rewrite <- (first_of_perm f h l l' Hcf Hp). }
  split; try (apply Hfam, Hb).
  - by rewrite <- Hp, (in_count _ _ Hb).
  - by rewrite <- (total_length_perm _ _ Hp), (in_total _ _ Hb).
  - rewrite <- (total_length_perm _ _ Hp), <- Hp. apply Hb.
  - rewrite (in_objects _ _ Hb). by rewrite Hp.
  - rewrite <- Hp. apply Hb.
  - intros h. rewrite <- (occurrences_perm _ _ _ Hp). apply Hb.
  - intros h. unfold pass_reason.
    rewrite <- (first_of_perm _ h _ _ Hcf Hp), <- (occurrences_perm _ _ _ Hp). apply Hb.
Qed.

Lemma family_unique {V} (m m' : gmap ObjectHash V) f l : family m f l → family m' f l → m = m'.
Proof. intros H H'. apply map_eq. intros h. by rewrite (H h), (H' h). Qed.

Lemma inventoried_unique l b b' : inventoried l b → inventoried l b' → b = b'.
Proof.
  intros H H'. destruct b, b'.
  pose proof (in_objects _ _ H) as Ho. pose proof (in_objects _ _ H') as Ho'.
  pose proof (in_others _ _ H) as Hn. pose proof (in_others _ _ H') as Hn'.
  pose proof (in_count _ _ H) as Hc. pose proof (in_count _ _ H') as Hc'.
  pose proof (in_total _ _ H) as Ht. pose proof (in_total _ _ H') as Ht'.
  cbn in *. f_equal; try lia.
  - exact (family_unique _ _ _ _ (in_entries _ _ H) (in_entries _ _ H')).
  - exact (family_unique _ _ _ _ (in_grants _ _ H) (in_grants _ _ H')).
  - exact (family_unique _ _ _ _ (in_receipts _ _ H) (in_receipts _ _ H')).
  - exact (family_unique _ _ _ _ (in_evidence _ _ H) (in_evidence _ _ H')).
  - exact (family_unique _ _ _ _ (in_trust _ _ H) (in_trust _ _ H')).
  - exact (family_unique _ _ _ _ (in_destroyed _ _ H) (in_destroyed _ _ H')).
  - exact (family_unique _ _ _ _ (in_malformed _ _ H) (in_malformed _ _ H')).
  - apply set_eq. intros h. etrans; [apply (in_seen _ _ H h)|symmetry; apply (in_seen _ _ H' h)].
  - apply map_eq. intros h.
    etrans; [apply (in_quarantine _ _ H h)|symmetry; apply (in_quarantine _ _ H' h)].
Qed.

(** ** Theorems *)

(** A build that succeeds counts every byte sequence once,
    as an archive object exactly when it carries one of the six prefixes, and
    its six families list exactly the objects the parser accepts, each hash
    once, in ascending order of the hashes. *)
Theorem inventory_families source i :
  build source = Ok i → collision_free (blobs source) →
  archive_object_count i
    = Z.of_nat (length (filter (λ x, has_exact_object_prefix x = true) (blobs source)))
  ∧ archive_object_count i + non_object_file_count i = Z.of_nat (length (blobs source))
  ∧ lists_family (entries i) as_entry (blobs source)
  ∧ lists_family (grants i) as_grant (blobs source)
  ∧ lists_family (receipts i) as_receipt (blobs source)
  ∧ lists_family (evidence i) as_evidence (blobs source)
  ∧ lists_family (trust i) as_trust (blobs source)
  ∧ lists_family (destroyed i) as_destroyed (blobs source).
Proof.
  intros (b & Hb & _ & ->)%build_Ok Hcf.
  destruct selects_all as (? & ? & ? & ? & ? & ?).
  split_and!; try (apply family_lists; [done|apply Hb|done]); apply Hb.
Qed.

(** A hash is quarantined exactly when an object with
    it does not parse, or it takes part in a conflict over a chain slot or over
    the receipts of an entry, or it occurs more than once; the first reason
    that applies is the one recorded, the list is ascending and without
    repetition, and the format errors are exactly the malformed hashes. *)
Theorem inventory_quarantine source i :
  build source = Ok i →
  (∀ h r, {| q_object_hash := h; q_reason := r |} ∈ quarantined i
          ↔ quarantined_for (blobs source) i h r)
  ∧ StronglySorted (key_lt q_object_hash) (quarantined i)
  ∧ (∀ h, h ∈ fe_object_hash <$> format_errors i ↔ malformed_in (blobs source) h)
  ∧ StronglySorted (key_lt fe_object_hash) (format_errors i).
Proof.
  intros (b & Hb & _ & ->)%build_Ok. split_and!.
  - intros h r. by apply finish_quarantine.
  - cbn. apply sorted_fmap, by_key_strict.
  - intros h. cbn. rewrite <- list_fmap_compose. unfold malformed_in.
    rewrite <- (in_malformed _ _ Hb h), list_elem_of_fmap. split.
    + intros ([k c] & -> & Hin%elem_of_by_key). by eexists.
    + intros [c Hc]. exists (h, c). split; [done|]. by apply elem_of_by_key.
  - cbn. apply sorted_fmap, by_key_strict.
Qed.

(** The inventory does not depend on the order in which the
    source yields its bytes. *)
Theorem inventory_order_independent source source' i :
  build source = Ok i → blobs source ≡ₚ blobs source' → failure source' = None →
  collision_free (blobs source) → build source' = Ok i.
Proof.
  intros (b & Hb & _ & ->)%build_Ok Hp Hf Hcf.
  pose proof (inventoried_perm _ _ _ Hcf Hp Hb) as Hb'.
  destruct (build_within source' b Hb' Hf) as (b' & -> & Hb2).
  by rewrite (inventoried_unique _ _ _ Hb' Hb2).
Qed.

(** *** The trust port *)

Lemma binary_search_cons a l h :
  binary_search_hash (a :: l) h =
  if bool_decide (cmp (p_object_hash a) h = Lt) then S <$> binary_search_hash l h
  else if bool_decide (p_object_hash a = h) then Some 0%nat else None.
Proof.
  unfold binary_search_hash. cbn. destruct (bool_decide (cmp _ h = Lt)); cbn; [|done].
  destruct (l !! _) as [p|]; [|done]. by case_bool_decide.
Qed.

Lemma binary_search_spec l h n :
  StronglySorted (key_lt p_object_hash) l →
  binary_search_hash l h = Some n ↔ ∃ p, l !! n = Some p ∧ p_object_hash p = h.
Proof.
  intros Hs. revert n. induction Hs as [|a l Hs IH Ha]; intros n.
  { split; [done|by intros (p & ? & _)]. }
  assert (∀ m p, l !! m = Some p → cmp (p_object_hash a) (p_object_hash p) = Lt) as Hlt.
  { rewrite Forall_forall in Ha. intros m p Hp. apply Ha. by eapply list_elem_of_lookup_2. }
  rewrite binary_search_cons.
  destruct n as [|n]; cbn.
  - case_bool_decide as Hc; [|case_bool_decide as Heq].
    + split; [by intros (m & _ & ?)%fmap_Some|].
      intros (p & [= ->] & Heq). rewrite Heq, cmp_refl in Hc. done.
    + split; [by exists a|done].
    + split; [done|]. by intros (p & [= ->] & ?).
  - rewrite <- (IH n). case_bool_decide as Hc; [|case_bool_decide as Heq].
    + rewrite fmap_Some. split; [by intros (m & ? & [= ->])|by exists n].
    + split; [done|]. intros (p & Hp & Hh)%IH. specialize (Hlt _ _ Hp).
      rewrite Heq, Hh, cmp_refl in Hlt. done.
    + split; [done|]. intros (p & Hp & Hh)%IH. specialize (Hlt _ _ Hp). by rewrite Hh in Hlt.
Qed.

(** The trust port reads for a hash exactly the bytes of the
    parsed trust object with that hash, and nothing for every other hash. *)
Theorem trust_port_reads source i h bytes :
  build source = Ok i →
  read_exact_trust_object i h = Ok (Some bytes) ↔
  ∃ p, p ∈ trust i ∧ p_object_hash p = h ∧ exact_bytes p = bytes.
Proof.
  intros (b & Hb & _ & ->)%build_Ok.
  assert (StronglySorted (key_lt p_object_hash) (trust (finish b))) as Hs.
  { cbn. eapply family_sorted; [apply selects_all|apply Hb]. }
  unfold read_exact_trust_object. set (l := trust (finish b)) in *. split.
  - intros [= H]. apply bind_Some in H as (n & Hn & H).
    apply (binary_search_spec _ _ _ Hs) in Hn as (p & Hp & Hh).
    rewrite Hp in H. injection H as <-. exists p. split; [by eapply list_elem_of_lookup_2|done].
  - intros (p & Hin & Hh & <-). apply list_elem_of_lookup in Hin as [n Hn].
    assert (binary_search_hash l h = Some n) as Hb'.
    { apply (binary_search_spec _ _ _ Hs). by exists p. }
    rewrite Hb'. change (Ok (E:=TrustSourceError) (exact_bytes <$> l !! n) = Ok (Some (exact_bytes p))).
    by rewrite Hn.
Qed.
End Inventory.

(** ** A small archive *)

(** The sample parser reads entries (kind 1) with the slot in the next byte and
    trust objects (kind 5), and the sample hash is the byte sequence itself. *)
Definition sample_decode (bytes : list byte)
    : result string (@ParsedArchiveObject Z unit unit unit unit unit) :=
  match bytes !! 6%nat, bytes !! 9%nat with
  | Some x01, Some k =>
      Ok (Entry {| value := u8 k; exact_bytes := bytes; p_object_hash := bytes |})
  | Some x05, _ => Ok (Trust {| value := tt; exact_bytes := bytes; p_object_hash := bytes |})
  | _, _ => Err "EA-FORMAT-BODY"
  end.

Definition sample_object (kind slot extra : byte) : list byte :=
  [x85; x44; x45; x41; x31; x00; kind; x01; x80; slot; extra].

Definition sample_archive : @ArchiveSource :=
  {| blobs := [sample_object x01 x07 x00; [x00]; sample_object x01 x07 x01;
               sample_object x05 x00 x00; sample_object x02 x00 x00; sample_object x05 x00 x00];
     failure := None |}.

Definition sample_build := build (λ q : Z, ([x0c], q)) (λ _ : unit, ([x0c], 0)) (λ _, []) (λ _ : unit, [])
  (λ b, b) sample_decode.

Lemma sample_decode_hash bytes p : sample_decode bytes = Ok p → parsed_hash p = bytes.
Proof.
  unfold sample_decode. destruct (bytes !! 6%nat) as [[]|], (bytes !! 9%nat); intros [= <-]; done.
Qed.

Lemma sample_collision_free l : collision_free (λ b, b) l.
Proof. by intros x y _ _ _ _. Qed.

Definition sample_inventory : result ArchiveError _ := sample_build sample_archive.

Lemma inventory_families_witness :
  match sample_inventory with
  | Ok i => archive_object_count i + non_object_file_count i = 6 ∧ length (entries i) = 2%nat
  | Err _ => False
  end.
Proof.
  unfold sample_inventory, sample_build.
  destruct (build _ _ _ _ _ _ sample_archive) as [i|] eqn:E; [|by vm_compute in E].
  split; [|vm_compute in E; by injection E as <-].
  apply (inventory_families (λ q : Z, ([x0c], q)) (λ _ : unit, ([x0c], 0)) (λ _, []) (λ _ : unit, [])
           (λ b, b) sample_decode sample_decode_hash sample_archive i E), sample_collision_free.
Defined.

Lemma inventory_quarantine_witness :
  match sample_inventory with
  | Ok i => q_reason <$> quarantined i = [Conflicting; Conflicting; Malformed; Duplicate]
      ∧ StronglySorted (key_lt q_object_hash) (quarantined i)
  | Err _ => False
  end.
Proof.
  unfold sample_inventory, sample_build.
  destruct (build _ _ _ _ _ _ sample_archive) as [i|] eqn:E; [|by vm_compute in E].
  split; [vm_compute in E; by injection E as <-|].
  apply (inventory_quarantine (λ q : Z, ([x0c], q)) (λ _ : unit, ([x0c], 0)) (λ _, []) (λ _ : unit, [])
           (λ b, b) sample_decode sample_decode_hash sample_archive i E).
Defined.

Lemma inventory_order_independent_witness :
  sample_build {| blobs := reverse (blobs sample_archive); failure := None |} = sample_inventory.
Proof.
  unfold sample_inventory, sample_build.
  destruct (build _ _ _ _ _ _ sample_archive) as [i|] eqn:E; [|by vm_compute in E].
  apply (inventory_order_independent (λ q : Z, ([x0c], q)) (λ _ : unit, ([x0c], 0)) (λ _, [])
           (λ _ : unit, []) (λ b, b) sample_decode sample_decode_hash sample_archive _ i E).
  - cbn [blobs]. symmetry. apply reverse_Permutation.
  - done.
  - apply sample_collision_free.
Defined.

Lemma trust_port_reads_witness :
  match sample_inventory with
  | Ok i => read_exact_trust_object i (sample_object x05 x00 x00) = Ok (Some (sample_object x05 x00 x00))
  | Err _ => False
  end.
Proof.
  unfold sample_inventory, sample_build.
  destruct (build _ _ _ _ _ _ sample_archive) as [i|] eqn:E; [|by vm_compute in E].
  apply (trust_port_reads (λ q : Z, ([x0c], q)) (λ _ : unit, ([x0c], 0)) (λ _, []) (λ _ : unit, [])
           (λ b, b) sample_decode sample_decode_hash sample_archive i _ _ E).
  vm_compute in E. injection E as <-. eexists. split; [by left|done].
Defined.
