(* ===== verification/OperatorSession.v ===== *)
(** * OperatorSession: presence of an operator ([ea-operator])

    The binding of an operator to a device and an operating-system account
    ([account.rs]), the issue of a presence proof for one purpose, and its
    check against the current registry head ([session.rs]).

    The registry head is the record of what these functions read of it; the
    account port is a class; key thumbprints, the signature check and the
    platform's presence prompt are parameters, and the nonce is the result of
    the system generator. *)

From S2P Require Import Prelude Types Str.

(** ** Roles and kinds ([ea-format], [etb.rs]) *)

Inductive OperatorRoleV1 := RoleWriter | RoleReader | RoleOrganizationAdmin.

Inductive CertificateKindV1 :=
| KindWriter | KindReader | KindOrganizationAdmin | KindKeyApprover | KindRecoveryRecipient
| KindHistoricalGrantAuthority | KindServerReceipt | KindDeletionAttest.

#[export] Instance OperatorRoleV1_eq_dec : EqDecision OperatorRoleV1.
Proof. solve_decision. Defined.
#[export] Instance CertificateKindV1_eq_dec : EqDecision CertificateKindV1.
Proof. solve_decision. Defined.

(** ** Purposes ([session.rs]) *)

Inductive ReauthPurpose :=
| Finalize | DiscardDraft | RegistryStaleFinalize | PlaintextExport | AdminRootCeremony
| RecoveryTest | HistoricalRegrant | PurposeDestruction | ClockSkewRelease
| ArchiveProfileMigration | GoLivePostureDocumentation | ReaderKeyEscrowRecovery.

#[export] Instance ReauthPurpose_eq_dec : EqDecision ReauthPurpose.
Proof. solve_decision. Defined.

Definition is_writer_purpose (p : ReauthPurpose) : bool :=
  match p with Finalize | DiscardDraft | RegistryStaleFinalize => true | _ => false end.

Definition purpose_label (p : ReauthPurpose) : str :=
  match p with
  | Finalize => lit "finalize"
  | DiscardDraft => lit "discard-draft"
  | RegistryStaleFinalize => lit "registry-stale-finalize"
  | PlaintextExport => lit "plaintext-export"
  | AdminRootCeremony => lit "admin-root-ceremony"
  | RecoveryTest => lit "recovery-test"
  | HistoricalRegrant => lit "historical-regrant"
  | PurposeDestruction => lit "destruction"
  | ClockSkewRelease => lit "clock-skew-release"
  | ArchiveProfileMigration => lit "archive-profile-migration"
  | GoLivePostureDocumentation => lit "go-live-posture-documentation"
  | ReaderKeyEscrowRecovery => lit "reader-key-escrow-recovery"
  end.

(** ** Errors ([account.rs]) *)

Inductive OperatorError :=
| BindingNotActive | DeviceCertificateNotActive | DeviceMismatch | RoleMismatch | ProofMismatch
| AccountMismatch | InstanceKeyMissing | InstanceKeyMismatch | PresenceProofInvalid | LocalRng
| ValidityWindowUnrepresentable | Crypto (code : string).

Definition operator_error_code (e : OperatorError) : string :=
  match e with
  | BindingNotActive => "EA-OPERATOR-BINDING-NOT-ACTIVE"
  | DeviceCertificateNotActive => "EA-OPERATOR-DEVICE-CERTIFICATE-NOT-ACTIVE"
  | DeviceMismatch => "EA-OPERATOR-DEVICE-MISMATCH"
  | RoleMismatch => "EA-OPERATOR-ROLE-MISMATCH"
  | ProofMismatch => "EA-OPERATOR-PROOF-MISMATCH"
  | AccountMismatch => "EA-OPERATOR-ACCOUNT-MISMATCH"
  | InstanceKeyMissing => "EA-OPERATOR-INSTANCE-KEY-MISSING"
  | InstanceKeyMismatch => "EA-OPERATOR-INSTANCE-KEY-MISMATCH"
  | PresenceProofInvalid => "EA-OPERATOR-PRESENCE-PROOF-INVALID"
  | LocalRng => "EA-OPERATOR-LOCAL-RNG"
  | ValidityWindowUnrepresentable => "EA-OPERATOR-VALIDITY-WINDOW-UNREPRESENTABLE"
  | Crypto code => code
  end.

(** ** The registry head, as far as it is read *)

Record PreexistingEffectiveNow := {
  now_value : UnixMillis;
  persisted_floor : UnixMillis;
  wall_clock_ceiling : option UnixMillis;
  successor_ready_at : option UnixMillis;
}.

Record BindingFields := {
  bf_organization_id : OrganizationId;
  bf_device_certificate_hash : CertificateHash;
  bf_operator_role : OperatorRoleV1;
  bf_os_account_binding_hash : Hash32;
  bf_instance_key_thumbprint : Hash32;
}.

Record CertificateFields := { cf_device_id : DeviceId; cf_certificate_kind : CertificateKindV1 }.

Record RegistryHead := {
  active_operator_binding_fields : ObjectHash → option BindingFields;
  active_certificate_fields : CertificateHash → option CertificateFields;
  current_writer_certificate_hash : option CertificateHash;
  preexisting_effective_now : PreexistingEffectiveNow;
}.

(** ** The bound operator ([account.rs]) *)

Record BoundOperator := {
  bo_organization_id : OrganizationId;
  bo_device_id : DeviceId;
  bo_device_certificate_hash : CertificateHash;
  bo_operator_role : OperatorRoleV1;
  bo_binding_object_hash : ObjectHash;
  bo_os_account_binding_hash : Hash32;
  bo_instance_key_thumbprint : Hash32;
  bo_effective_now : UnixMillis;
  bo_writer_only : bool;
  bo_proof_not_after : option UnixMillis;
}.

(** [a.into_iter().chain(b).min()]. *)
Definition min_option (a b : option Z) : option Z :=
  match a, b with
  | Some a, Some b => Some (Z.min a b)
  | Some a, None => Some a
  | None, b => b
  end.

Definition after_ceiling (t : PreexistingEffectiveNow) : option UnixMillis :=
  (λ c, saturating_add i64_max c 1) <$> wall_clock_ceiling t.

Definition resolve_inner (head : RegistryHead) (binding_object_hash : ObjectHash) (writer_only : bool)
    : result OperatorError BoundOperator :=
  binding ← ok_or BindingNotActive (active_operator_binding_fields head binding_object_hash);
  certificate ← ok_or DeviceCertificateNotActive
                  (active_certificate_fields head (bf_device_certificate_hash binding));
  if writer_only
     && (bool_decide (bf_operator_role binding ≠ RoleWriter)
         || bool_decide (cf_certificate_kind certificate ≠ KindWriter)
         || bool_decide (current_writer_certificate_hash head
                         ≠ Some (bf_device_certificate_hash binding)))
  then Err RoleMismatch
  else
    let time := preexisting_effective_now head in
    Ok {| bo_organization_id := bf_organization_id binding;
          bo_device_id := cf_device_id certificate;
          bo_device_certificate_hash := bf_device_certificate_hash binding;
          bo_operator_role := bf_operator_role binding;
          bo_binding_object_hash := binding_object_hash;
          bo_os_account_binding_hash := bf_os_account_binding_hash binding;
          bo_instance_key_thumbprint := bf_instance_key_thumbprint binding;
          bo_effective_now := now_value time;
          bo_writer_only := writer_only;
          bo_proof_not_after :=
            if writer_only then min_option (after_ceiling time) (successor_ready_at time) else None |}.

Definition resolve (head : RegistryHead) (h : ObjectHash) : result OperatorError BoundOperator :=
  resolve_inner head h false.
Definition resolve_writer (head : RegistryHead) (h : ObjectHash) : result OperatorError BoundOperator :=
  resolve_inner head h true.

Definition permits_purpose (b : BoundOperator) (p : ReauthPurpose) : bool :=
  negb (bo_writer_only b) || is_writer_purpose p.

(** The account port reads the operating system; [Key] is a public instance
    key. *)
Class OsAccountProvider (Key A : Type) := {
  os_account_binding_hash : A → OrganizationId → DeviceId → result OperatorError Hash32;
  operator_instance_public_key : A → result OperatorError (option Key);
}.

(** ** Proofs ([session.rs]) *)

Definition REAUTH_CHALLENGE_DOMAIN : list byte := lit "EINSATZARCHIV-OPERATOR-REAUTH-v1".
Definition MAX_INACTIVITY_MS : Z := 5 * 60 * 1000.

Record OperatorSessionProof := {
  purpose : ReauthPurpose;
  organization_id : OrganizationId;
  device_id : DeviceId;
  binding_object_hash : ObjectHash;
  challenge_nonce : list byte;
  context_hash : option Hash32;
  issued_at : UnixMillis;
  expires_at : UnixMillis;
  invalidated : bool;
}.

Definition is_valid_at (p : OperatorSessionProof) (q : ReauthPurpose) (now : UnixMillis) : bool :=
  bool_decide (purpose p = q) && negb (invalidated p) && (now >=? issued_at p) && (now <? expires_at p).

Definition is_valid_for (p : OperatorSessionProof) (q : ReauthPurpose) (now : PreexistingEffectiveNow)
    : bool := is_valid_at p q (now_value now).

Definition invalidate_on_lock (p : OperatorSessionProof) : OperatorSessionProof :=
  {| purpose := purpose p; organization_id := organization_id p; device_id := device_id p;
     binding_object_hash := binding_object_hash p; challenge_nonce := challenge_nonce p;
     context_hash := context_hash p; issued_at := issued_at p; expires_at := expires_at p;
     invalidated := true |}.

Definition challenge_bytes (b : BoundOperator) (p : ReauthPurpose) (nonce : list byte)
    (issued_at expires_at : UnixMillis) : list byte :=
  let label := purpose_label p in
  REAUTH_CHALLENGE_DOMAIN
  ++ [byte_of (if Z.of_nat (length label) <=? u8_max then Z.of_nat (length label) else u8_max)]
  ++ label
  ++ bo_organization_id b
  ++ bo_device_id b
  ++ bo_binding_object_hash b
  ++ nonce
  ++ to_be_bytes 8 issued_at
  ++ to_be_bytes 8 expires_at.

Definition CONTEXT_MARK : list byte := [x00] ++ lit "exact-operation-context-v1" ++ [x00].

(** The bytes the instance key signs: the challenge and, if the operation has
    one, its exact context. *)
Definition signed_challenge (b : BoundOperator) (p : ReauthPurpose) (nonce : list byte)
    (issued_at expires_at : UnixMillis) (context : option Hash32) : list byte :=
  challenge_bytes b p nonce issued_at expires_at
  ++ match context with Some c => CONTEXT_MARK ++ c | None => [] end.

Section Authenticate.
Context {Key A : Type} `{OsAccountProvider Key A}.
(** The thumbprint of a key, the strict signature check, the presence prompt
    that signs a challenge. *)
Context (thumbprint : Key → Hash32).
Context (verify_ed25519_strict : Key → list byte → list byte → bool).
Context (prove_presence_and_sign : list byte → result OperatorError (list byte)).

Definition verify_account (b : BoundOperator) (account : A) : result OperatorError Key :=
  reported ← os_account_binding_hash account (bo_organization_id b) (bo_device_id b);
  if bool_decide (reported ≠ bo_os_account_binding_hash b) then Err AccountMismatch else
  key ← operator_instance_public_key account;
  key ← ok_or InstanceKeyMissing key;
  if bool_decide (thumbprint key ≠ bo_instance_key_thumbprint b) then Err InstanceKeyMismatch
  else Ok key.

Definition capped (expires : Z) (bound : option Z) : Z :=
  match bound with Some b => Z.min expires b | None => expires end.

(** [authenticate]; [nonce] is what the system generator yields. *)
Definition authenticate (b : BoundOperator) (account : A) (p : ReauthPurpose) (issued_at : UnixMillis)
    (context : option Hash32) (ceiling ready : option UnixMillis) (nonce : option (list byte))
    : result OperatorError OperatorSessionProof :=
  if negb (permits_purpose b p) then Err RoleMismatch else
  key ← verify_account b account;
  nonce ← ok_or LocalRng nonce;
  expires_at ← ok_or ValidityWindowUnrepresentable (checked_add i64_max issued_at MAX_INACTIVITY_MS);
  let expires_at := capped expires_at ((λ c, saturating_add i64_max c 1) <$> ceiling) in
  let expires_at := capped expires_at ready in
  let expires_at := capped expires_at (bo_proof_not_after b) in
  if expires_at <=? issued_at then Err PresenceProofInvalid else
  let challenge := signed_challenge b p nonce issued_at expires_at context in
  signature ← prove_presence_and_sign challenge;
  if negb (verify_ed25519_strict key challenge signature) then Err PresenceProofInvalid
  else Ok {| purpose := p; organization_id := bo_organization_id b; device_id := bo_device_id b;
             binding_object_hash := bo_binding_object_hash b; challenge_nonce := nonce;
             context_hash := context; issued_at := issued_at; expires_at := expires_at;
             invalidated := false |}.

Definition reauthenticate (b : BoundOperator) (account : A) (p : ReauthPurpose)
    (nonce : option (list byte)) : result OperatorError OperatorSessionProof :=
  authenticate b account p (bo_effective_now b) None None None nonce.

Definition reauthenticate_for_context (b : BoundOperator) (account : A) (p : ReauthPurpose)
    (now : PreexistingEffectiveNow) (context : Hash32) (nonce : option (list byte))
    : result OperatorError OperatorSessionProof :=
  if now_value now <? bo_effective_now b then Err PresenceProofInvalid
  else authenticate b account p (now_value now) (Some context) (wall_clock_ceiling now)
         (successor_ready_at now) nonce.

Definition verify_current_session (head : RegistryHead) (expected_certificate : CertificateHash)
    (expected_role : OperatorRoleV1) (proof : OperatorSessionProof) (q : ReauthPurpose) (account : A)
    : result OperatorError unit :=
  bound ← resolve head (binding_object_hash proof);
  if bool_decide (bo_device_certificate_hash bound ≠ expected_certificate) then Err DeviceMismatch else
  if bool_decide (bo_operator_role bound ≠ expected_role) then Err RoleMismatch else
  if bool_decide (organization_id proof ≠ bo_organization_id bound)
     || bool_decide (device_id proof ≠ bo_device_id bound)
     || bool_decide (binding_object_hash proof ≠ bo_binding_object_hash bound)
     || negb (is_valid_for proof q (preexisting_effective_now head))
  then Err ProofMismatch else
  _ ← verify_account bound account;
  Ok tt.

Definition verify_writer_session (head : RegistryHead) (expected_certificate : CertificateHash)
    (proof : OperatorSessionProof) (q : ReauthPurpose) (account : A) : result OperatorError unit :=
  bound ← resolve_writer head (binding_object_hash proof);
  if bool_decide (bo_device_certificate_hash bound ≠ expected_certificate) then Err DeviceMismatch else
  if negb (is_writer_purpose q)
     || bool_decide (organization_id proof ≠ bo_organization_id bound)
     || bool_decide (device_id proof ≠ bo_device_id bound)
     || negb (is_valid_for proof q (preexisting_effective_now head))
     || is_some_and (λ e, now_value (preexisting_effective_now head) >=? e) (bo_proof_not_after bound)
  then Err ProofMismatch else
  _ ← verify_account bound account;
  Ok tt.
End Authenticate.

(** ** The signed challenge names its inputs *)

Lemma purpose_label_inj p q : purpose_label p = purpose_label q → p = q.
Proof. by destruct p, q. Qed.

Lemma purpose_label_short p : Z.of_nat (length (purpose_label p)) ≤ u8_max.
Proof. destruct p; vm_compute; discriminate. Qed.

Lemma byte_of_small_inj a b : 0 ≤ a ≤ u8_max → 0 ≤ b ≤ u8_max → byte_of a = byte_of b → a = b.
Proof.
  unfold u8_max. intros Ha Hb H. apply (f_equal u8) in H. rewrite !u8_byte_of in H.
  by rewrite !Z.mod_small in H by lia.
Qed.

Lemma i64_bytes_inj v w : in_i64 v → in_i64 w → to_be_bytes 8 v = to_be_bytes 8 w → v = w.
Proof.
  unfold in_i64, i64_min, i64_max. intros Hv Hw H%to_be_bytes_inj.
  change (8 * Z.of_nat 8) with 64 in H.
  assert (∃ k, v - w = k * 2 ^ 64) as [k Hk].
  { exists (v / 2 ^ 64 - w / 2 ^ 64). pose proof (Z.div_mod v (2 ^ 64)). pose proof (Z.div_mod w (2 ^ 64)). lia. }
  assert (k = 0) by nia. lia.
Qed.

(** The widths the newtypes of the source guarantee. *)
Record challenge_widths (b : BoundOperator) (nonce : list byte) (context : option Hash32)
    (issued expires : UnixMillis) : Prop := {
  cw_organization : length (bo_organization_id b) = 16%nat;
  cw_device : length (bo_device_id b) = 16%nat;
  cw_binding : length (bo_binding_object_hash b) = 32%nat;
  cw_nonce : length nonce = 32%nat;
  cw_context : ∀ c, context = Some c → length c = 32%nat;
  cw_issued : in_i64 issued;
  cw_expires : in_i64 expires;
}.

(** The bytes an operator signs determine the purpose, the
    organization, the device, the binding, the nonce, both times and whether
    and which exact context was signed: no two different requests have the
    same challenge. *)
Theorem signed_challenge_injective b p nonce issued expires context
    b' p' nonce' issued' expires' context' :
  challenge_widths b nonce context issued expires →
  challenge_widths b' nonce' context' issued' expires' →
  signed_challenge b p nonce issued expires context
    = signed_challenge b' p' nonce' issued' expires' context' →
  p = p' ∧ bo_organization_id b = bo_organization_id b' ∧ bo_device_id b = bo_device_id b'
  ∧ bo_binding_object_hash b = bo_binding_object_hash b' ∧ nonce = nonce'
  ∧ issued = issued' ∧ expires = expires' ∧ context = context'.
Proof.
  intros W W' H. unfold signed_challenge, challenge_bytes in H. cbn zeta in H.
  pose proof (purpose_label_short p) as Hp. pose proof (purpose_label_short p') as Hp'.
  rewrite !(proj2 (Z.leb_le _ _)) in H by done.
  rewrite <- !app_assoc in H. apply app_inj_1 in H as [_ H]; [|done].
  apply app_inj_1 in H as [Hl H]; [|done]. injection Hl as Hl.
  apply byte_of_small_inj in Hl; [|lia..].
  apply app_inj_1 in H as [Hlab%purpose_label_inj H]; [|lia].
  apply app_inj_1 in H as [Horg H]; [|by rewrite (cw_organization _ _ _ _ _ W), (cw_organization _ _ _ _ _ W')].
  apply app_inj_1 in H as [Hdev H]; [|by rewrite (cw_device _ _ _ _ _ W), (cw_device _ _ _ _ _ W')].
  apply app_inj_1 in H as [Hbind H]; [|by rewrite (cw_binding _ _ _ _ _ W), (cw_binding _ _ _ _ _ W')].
  apply app_inj_1 in H as [Hnonce H]; [|by rewrite (cw_nonce _ _ _ _ _ W), (cw_nonce _ _ _ _ _ W')].
  apply app_inj_1 in H as [Hi%i64_bytes_inj H]; [|apply W|apply W'|by rewrite !length_to_be_bytes].
  apply app_inj_1 in H as [He%i64_bytes_inj H]; [|apply W|apply W'|by rewrite !length_to_be_bytes].
  split_and!; try done. destruct context as [c|], context' as [c'|]; try done.
  apply app_inj_1 in H as [_ H]; [|done]. by subst.
Qed.

Definition sample_binding : BoundOperator :=
  {| bo_organization_id := replicate 16 x01; bo_device_id := replicate 16 x02;
     bo_device_certificate_hash := replicate 32 x03; bo_operator_role := RoleWriter;
     bo_binding_object_hash := replicate 32 x04; bo_os_account_binding_hash := replicate 32 x05;
     bo_instance_key_thumbprint := replicate 32 x06; bo_effective_now := 1000;
     bo_writer_only := true; bo_proof_not_after := Some 200000 |}.

Lemma sample_widths : challenge_widths sample_binding (replicate 32 x07) None 1000 200000.
Proof. by constructor. Qed.

Lemma signed_challenge_injective_witness :
  challenge_widths sample_binding (replicate 32 x07) None 1000 200000 ∧ Finalize = Finalize.
Proof.
  split; [apply sample_widths|].
  eapply (signed_challenge_injective sample_binding Finalize (replicate 32 x07) 1000 200000 None
    sample_binding Finalize (replicate 32 x07) 1000 200000 None); [apply sample_widths..|reflexivity].
Defined.

(** ** The window of a proof *)

Lemma lt_capped t e bound : t < capped e bound ↔ t < e ∧ ∀ b, bound = Some b → t < b.
Proof.
  destruct bound as [b|]; simpl; [|naive_solver]. rewrite Z.min_glb_lt_iff. naive_solver.
Qed.

Lemma lt_after_ceiling t e ceiling :
  e ≤ i64_max →
  (t < capped e ((λ c, saturating_add i64_max c 1) <$> ceiling))
  ↔ t < e ∧ ∀ c, ceiling = Some c → t ≤ c.
Proof.
  intros He. rewrite lt_capped. destruct ceiling as [c|]; simpl; [|naive_solver].
  unfold saturating_add. split; intros [Ht Hc]; split; try done; intros ? [= <-].
  - specialize (Hc _ eq_refl). lia.
  - specialize (Hc _ eq_refl). lia.
Qed.

Lemma is_valid_at_iff p q t :
  is_valid_at p q t = true
  ↔ purpose p = q ∧ invalidated p = false ∧ issued_at p ≤ t ∧ t < expires_at p.
Proof.
  unfold is_valid_at. rewrite !andb_true_iff, bool_decide_eq_true, negb_true_iff, Z.geb_le, Z.ltb_lt.
  tauto.
Qed.

Lemma before_end_iff t (time : PreexistingEffectiveNow) :
  (∀ c, wall_clock_ceiling time = Some c → c < i64_max) →
  is_some_and (λ e, t >=? e) (min_option (after_ceiling time) (successor_ready_at time)) = false
  ↔ (∀ c, wall_clock_ceiling time = Some c → t ≤ c) ∧ (∀ r, successor_ready_at time = Some r → t < r).
Proof.
  unfold after_ceiling, saturating_add. destruct time as [n f [c|] [r|]]; cbn; intros Hc; rewrite ?Z.geb_leb, ?Z.leb_gt;
    try (specialize (Hc _ eq_refl)); (split; [intros Hlt; split; intros ? [= <-]; lia|]); intros [H1 H2];
    try (specialize (H1 _ eq_refl)); try (specialize (H2 _ eq_refl)); try lia; done.
Qed.

Section AuthenticateTheorems.
Context {Key A : Type} `{OsAccountProvider Key A}.
Context (thumbprint : Key → Hash32).

Lemma verify_account_iff b account key :
  verify_account thumbprint b account = Ok key
  ↔ os_account_binding_hash account (bo_organization_id b) (bo_device_id b)
      = Ok (bo_os_account_binding_hash b)
    ∧ operator_instance_public_key account = Ok (Some key)
    ∧ thumbprint key = bo_instance_key_thumbprint b.
Proof.
  unfold verify_account. split.
  - intros Hv. inv_ok. case_bool_decide as Ha; [done|]. inv_ok. case_bool_decide as Hk; [done|]. inv_ok.
    done.
  - intros (-> & -> & Hk). cbn. rewrite !bool_decide_eq_false_2; naive_solver.
Qed.

(** What the current head must say of a proof's binding, and the provider of
    the account, for [q] to be authorized at the head's time. *)
Record session_authorized (head : RegistryHead) (certificate : CertificateHash) (role : OperatorRoleV1)
    (proof : OperatorSessionProof) (q : ReauthPurpose) (account : A)
    (bf : BindingFields) (cf : CertificateFields) : Prop := {
  sa_binding_active : active_operator_binding_fields head (binding_object_hash proof) = Some bf;
  sa_certificate_active : active_certificate_fields head certificate = Some cf;
  sa_certificate : bf_device_certificate_hash bf = certificate;
  sa_role : bf_operator_role bf = role;
  sa_organization : organization_id proof = bf_organization_id bf;
  sa_device : device_id proof = cf_device_id cf;
  sa_valid : is_valid_at proof q (now_value (preexisting_effective_now head)) = true;
  sa_account : os_account_binding_hash account (bf_organization_id bf) (cf_device_id cf)
    = Ok (bf_os_account_binding_hash bf);
  sa_key : ∃ key, operator_instance_public_key account = Ok (Some key)
    ∧ thumbprint key = bf_instance_key_thumbprint bf;
}.

(** A session check at the current head succeeds exactly if the
    binding and its device certificate are active there, certificate and role
    are the expected ones, organization and device are those of the proof,
    the proof is valid for the purpose at the head's time, and account and
    instance key are the bound ones. *)
Theorem verify_current_session_iff head certificate role proof q account :
  verify_current_session thumbprint head certificate role proof q account = Ok tt
  ↔ ∃ bf cf, session_authorized head certificate role proof q account bf cf.
Proof.
  unfold verify_current_session, resolve, resolve_inner. split.
  - intros Hv. inv_ok. cbn [andb] in *. inv_ok. cbn in Hv.
    case_bool_decide as Hc; [done|]. case_bool_decide as Hr; [done|]. subst.
    destruct (_ || _) eqn:Hb in Hv; [done|]. rewrite !orb_false_iff, !bool_decide_eq_false in Hb.
    destruct Hb as (((Ho & Hd) & _) & Hval). apply dec_stable in Ho, Hd. apply negb_false_iff in Hval.
    apply bind_Ok in Hv as (key & (Ha & Hk & Ht)%verify_account_iff & _).
    eexists _, _. split; eauto.
  - intros (bf & cf & [Hbf Hcf <- <- Ho Hd Hv Ha (key & Hk & Ht)]).
    rewrite Hbf. cbn [ok_or mbind result_bind]. rewrite Hcf. cbn [ok_or mbind result_bind andb]. cbn.
    rewrite !bool_decide_eq_false_2 by naive_solver. unfold is_valid_for. rewrite Hv. cbn.
    rewrite (proj2 (verify_account_iff _ _ key)); [done|]. by cbn.
Qed.
(** The writer's session check succeeds exactly if the session is
    authorized with the writer role on the current writer certificate of
    writer kind, for one of the three writer purposes, and the head's time is
    at most the wall-clock ceiling and before the successor is ready. *)
Theorem verify_writer_session_iff head certificate proof q account :
  (∀ c, wall_clock_ceiling (preexisting_effective_now head) = Some c → c < i64_max) →
  verify_writer_session thumbprint head certificate proof q account = Ok tt
  ↔ ∃ bf cf, session_authorized head certificate RoleWriter proof q account bf cf
      ∧ cf_certificate_kind cf = KindWriter
      ∧ current_writer_certificate_hash head = Some certificate
      ∧ is_writer_purpose q = true
      ∧ (∀ c, wall_clock_ceiling (preexisting_effective_now head) = Some c →
           now_value (preexisting_effective_now head) ≤ c)
      ∧ (∀ r, successor_ready_at (preexisting_effective_now head) = Some r →
           now_value (preexisting_effective_now head) < r).
Proof.
  intros Hceil. unfold verify_writer_session, resolve_writer, resolve_inner. split.
  - intros Hv. inv_ok. cbn [andb] in *.
    match goal with H : (if ?c then Err RoleMismatch else _) = Ok _ |- _ => destruct c eqn:Hw in H end;
      [done|]. inv_ok. cbn in Hv. case_bool_decide as Hc; [done|]. subst.
    rewrite !orb_false_iff, !bool_decide_eq_false in Hw. destruct Hw as ((Hr & Hk) & Hcur).
    apply dec_stable in Hr, Hk, Hcur.
    destruct (_ || _) eqn:Hb in Hv; [done|]. rewrite !orb_false_iff, !bool_decide_eq_false in Hb.
    destruct Hb as ((((Hq & Ho) & Hd) & Hval) & Hend).
    apply dec_stable in Ho, Hd. apply negb_false_iff in Hval, Hq.
    apply bind_Ok in Hv as (key & (Ha & Hkey & Ht)%verify_account_iff & _).
    apply before_end_iff in Hend; [|done].
    eexists _, _. split; [split; eauto|]. naive_solver.
  - intros (bf & cf & [Hbf Hcf <- Hr Ho Hd Hv Ha (key & Hk & Ht)] & Hkind & Hcur & Hq & Hend).
    rewrite Hbf. cbn [ok_or mbind result_bind]. rewrite Hcf. cbn [ok_or mbind result_bind andb].
    rewrite !bool_decide_eq_false_2 by naive_solver. cbn [orb]. cbn.
    rewrite !bool_decide_eq_false_2 by naive_solver. unfold is_valid_for. rewrite Hv, Hq. cbn.
    rewrite (proj2 (before_end_iff _ _ Hceil)) by done.
    rewrite (proj2 (verify_account_iff _ _ key)); [done|]. by cbn.
Qed.
Context (verify_ed25519_strict : Key → list byte → list byte → bool).
Context (prove_presence_and_sign : list byte → result OperatorError (list byte)).

(** A proof that was issued is valid at exactly its own purpose and
    exactly the times from its issue until five minutes later, cut off after
    the wall-clock ceiling, at the successor's readiness and at the end the
    binding sets; it is valid at its time of issue, was issued only after a
    presence signature over the challenge with these very bounds verified
    under the bound key, and is never valid again after a lock. *)
Theorem session_window b account p issued context ceiling ready nonce proof :
  authenticate thumbprint verify_ed25519_strict prove_presence_and_sign
    b account p issued context ceiling ready nonce = Ok proof →
  (∀ q t, is_valid_at proof q t = true
    ↔ q = p ∧ issued ≤ t ∧ t < issued + 300000
      ∧ (∀ c, ceiling = Some c → t ≤ c)
      ∧ (∀ r, ready = Some r → t < r)
      ∧ (∀ e, bo_proof_not_after b = Some e → t < e))
  ∧ is_valid_at proof p issued = true
  ∧ (∃ key n signature, thumbprint key = bo_instance_key_thumbprint b ∧ nonce = Some n
      ∧ verify_ed25519_strict key (signed_challenge b p n issued (expires_at proof) context) signature = true)
  ∧ ∀ q t, is_valid_at (invalidate_on_lock proof) q t = false.
Proof.
  unfold authenticate. destruct (negb (permits_purpose b p)); [done|]. intros Hok. inv_ok.
  match goal with H : checked_add _ _ _ = Some _ |- _ => apply checked_add_Some in H as [-> Hmax] end.
  match type of Hok with (if ?c <=? _ then _ else _) = _ => set (e := c) in * end.
  destruct (Z.leb_spec e issued) as [|He]; [done|]. inv_ok.
  destruct (verify_ed25519_strict _ _ _) eqn:Hsig; [|done]. cbn [negb] in Hok. inv_ok.
  assert (∀ t, t < e ↔ t < issued + 300000 ∧ (∀ c, ceiling = Some c → t ≤ c)
      ∧ (∀ r, ready = Some r → t < r) ∧ (∀ x, bo_proof_not_after b = Some x → t < x)) as Hlt.
  { intros t. subst e. rewrite !lt_capped. rewrite <- (lt_capped t (issued + MAX_INACTIVITY_MS)).
    rewrite lt_after_ceiling by done. unfold MAX_INACTIVITY_MS. tauto. }
  split_and!.
  - intros q t. rewrite is_valid_at_iff. cbn. rewrite Hlt. intuition congruence.
  - apply is_valid_at_iff. cbn. split_and!; [done..|lia|done].
  - cbn. match goal with H : verify_account _ _ _ = Ok ?k |- _ => exists k; revert H end.
    rewrite verify_account_iff. intros (_ & _ & Hk). by eexists _, _.
  - intros q t. apply not_true_iff_false. rewrite is_valid_at_iff. cbn. naive_solver.
Qed.
End AuthenticateTheorems.

(** ** A sample device *)

Definition sample_account : OsAccountProvider (list byte) unit :=
  {| os_account_binding_hash := λ _ _ _, Ok (replicate 32 x05);
     operator_instance_public_key := λ _, Ok (Some (replicate 32 x06)) |}.

Definition sample_verify (key message signature : list byte) : bool := bool_decide (signature = key ++ message).
Definition sample_sign (message : list byte) : result OperatorError (list byte) :=
  Ok (replicate 32 x06 ++ message).

Definition sample_head : RegistryHead :=
  {| active_operator_binding_fields := λ h,
       if decide (h = replicate 32 x04)
       then Some {| bf_organization_id := replicate 16 x01; bf_device_certificate_hash := replicate 32 x03;
                    bf_operator_role := RoleWriter; bf_os_account_binding_hash := replicate 32 x05;
                    bf_instance_key_thumbprint := replicate 32 x06 |}
       else None;
     active_certificate_fields := λ h,
       if decide (h = replicate 32 x03)
       then Some {| cf_device_id := replicate 16 x02; cf_certificate_kind := KindWriter |} else None;
     current_writer_certificate_hash := Some (replicate 32 x03);
     preexisting_effective_now :=
       {| now_value := 1000; persisted_floor := 900; wall_clock_ceiling := Some 5000; successor_ready_at := Some 4000 |} |}.

Definition sample_proof : result OperatorError OperatorSessionProof :=
  authenticate (H := sample_account) id sample_verify sample_sign sample_binding tt Finalize 1000 None
    (Some 5000) (Some 4000) (Some (replicate 32 x07)).

Lemma session_window_witness : ∃ proof, sample_proof = Ok proof ∧ is_valid_at proof Finalize 3999 = true.
Proof.
  destruct sample_proof as [proof|e] eqn:E; [|vm_compute in E; discriminate E].
  exists proof. split; [done|].
  apply (proj1 (session_window (H := sample_account) id sample_verify sample_sign _ _ _ _ _ _ _ _ _ E)).
  split_and!; [done|lia|lia|intros ? [= <-]; lia|intros ? [= <-]; lia|intros ? [= <-]; lia].
Defined.

Lemma verify_writer_session_iff_witness :
  ∃ proof, sample_proof = Ok proof ∧
    is_ok (verify_writer_session (H := sample_account) id sample_head (replicate 32 x03) proof Finalize tt) = true.
Proof.
  destruct sample_proof as [proof|e] eqn:E; [|vm_compute in E; discriminate E].
  exists proof. split; [done|]. vm_compute in E. injection E as <-.
  rewrite (proj2 (verify_writer_session_iff (H := sample_account) id sample_head (replicate 32 x03) _ Finalize tt
    ltac:(intros ? [= <-]; reflexivity))); [done|].
  eexists _, _. split_and!; [split; try reflexivity; eexists; split; reflexivity|reflexivity..| |];
    intros ? [= <-]; cbn; lia.
Defined.
