(* ===== verification/Profile.v ===== *)
(** * Profile: the cores of archive profiles ([ea-format], [archive_profile.rs])

    The backend profile core, the inventory list and the active profile
    pointer with their deterministic encodings, and the profile of
    [ea-archive] ([profile.rs]) that is encoded.

    The encoder of [minicbor] writes shortest heads, the [head_bytes] of
    [Cbor]; its decoder is the class [Minicbor], Unicode normalization a
    parameter. *)

From S2P Require Import Prelude Types Utf8 Cbor CborTheorems Str ArchivePath PublicationQueue.

(** ** Errors ([object.rs]) *)

Module Fmt.
Inductive FormatError :=
| GlobalRawLimit | EipRawLimit | EagRawLimit | EsrRawLimit | EcpRawLimit | EtbRawLimit | EdsRawLimit
| Prefix | UnknownVersion | CriticalExtension | TagMismatch | CiphertextLength | Shape | Cose
| Duplicate | Unsorted | MissingRecovery | DuplicateRecovery | DuplicateRecipientKey
| DuplicateRecipientCertificate | InventoryDuplicate | InventoryPath | Cbor (error : CborError).

Definition format_error_code (e : FormatError) : string :=
  match e with
  | GlobalRawLimit => "EA-FORMAT-GLOBAL-RAW-LIMIT"
  | EipRawLimit => "EA-FORMAT-EIP-RAW-LIMIT"
  | EagRawLimit => "EA-FORMAT-EAG-RAW-LIMIT"
  | EsrRawLimit => "EA-FORMAT-ESR-RAW-LIMIT"
  | EcpRawLimit => "EA-FORMAT-ECP-RAW-LIMIT"
  | EtbRawLimit => "EA-FORMAT-ETB-RAW-LIMIT"
  | EdsRawLimit => "EA-FORMAT-EDS-RAW-LIMIT"
  | Prefix => "EA-FORMAT-PREFIX"
  | UnknownVersion => "EA-FORMAT-UNKNOWN-VERSION"
  | CriticalExtension => "EA-FORMAT-CRITICAL-EXTENSION"
  | TagMismatch => "EA-FORMAT-TAG-MISMATCH"
  | CiphertextLength => "EA-FORMAT-CIPHERTEXT-LENGTH"
  | Shape => "EA-FORMAT-SHAPE"
  | Cose => "EA-FORMAT-COSE"
  | Duplicate => "EA-FORMAT-DUPLICATE"
  | Unsorted => "EA-FORMAT-UNSORTED"
  | MissingRecovery => "EA-GRANT-MISSING-RECOVERY"
  | DuplicateRecovery => "EA-GRANT-DUPLICATE-RECOVERY"
  | DuplicateRecipientKey => "EA-GRANT-DUPLICATE-RECIPIENT-KEY"
  | DuplicateRecipientCertificate => "EA-GRANT-DUPLICATE-RECIPIENT-CERTIFICATE"
  | InventoryDuplicate => "EA-FORMAT-INVENTORY-DUPLICATE"
  | InventoryPath => "EA-FORMAT-INVENTORY-PATH"
  | Cbor error => cbor_code error
  end.
End Fmt.
Import Fmt(FormatError, format_error_code).

(** [map_err(ArchiveBackendError::Format)]. *)
Definition format_err {A} (r : result FormatError A) : result ArchiveBackendError A :=
  match r with Ok a => Ok a | Err e => Err (Format (format_error_code e)) end.

(** ** The encoder *)

(** A string that a machine can hold. *)
Definition sized {A} (l : list A) : Prop := len l ≤ u64_max.

Definition cbor_array (n : Z) : list byte := head_bytes 4 n.
Definition cbor_u64 (n : Z) : list byte := head_bytes 0 n.
Definition cbor_bytes (b : list byte) : list byte := head_bytes 2 (len b) ++ b.
Definition cbor_str (s : str) : list byte := head_bytes 3 (len s) ++ s.

(** ** The profile core *)

Inductive ArchiveProfileKindV1 := KindLocalPath | KindControlledNetworkPath.

#[export] Instance ArchiveProfileKindV1_eq_dec : EqDecision ArchiveProfileKindV1.
Proof. solve_decision. Defined.

Definition kind_code (k : ArchiveProfileKindV1) : Z :=
  match k with KindLocalPath => 0 | KindControlledNetworkPath => 1 end.

(** The thirteen fields: the kind and those of a network profile. *)
Record ArchiveBackendProfileCoreFieldsV1 := {
  kind : ArchiveProfileKindV1;
  fields : ControlledNetworkProfileV1;
}.

(** The result of comparing a window of two mount options. *)
Fixpoint check_options (options : list str) : result FormatError unit :=
  match options with
  | a :: ((b :: _) as rest) =>
      match cmp a b with
      | Lt => check_options rest
      | Eq => Err Fmt.Duplicate
      | Gt => Err Fmt.Unsorted
      end
  | _ => Ok tt
  end.

Definition is_empty {A} (l : list A) : bool := bool_decide (l = []).

(** Network parameters that a local profile must not have. *)
Definition has_network_parameters (f : ControlledNetworkProfileV1) : bool :=
  negb (is_empty (protocol_id f)) || negb (is_empty (server_product f))
  || negb (is_empty (server_version f)) || negb (is_empty (failover_config_id f))
  || negb (is_empty (mount_options f)) || negb (queue_max_objects f =? 0)
  || negb (queue_max_bytes f =? 0) || negb (resume_backoff_initial_ms f =? 0)
  || negb (resume_backoff_max_ms f =? 0) || negb (resume_max_attempts f =? 0).

(** [ArchiveBackendProfileCoreV1::new]. *)
Definition ProfileCore_new (c : ArchiveBackendProfileCoreFieldsV1)
    : result FormatError ArchiveBackendProfileCoreFieldsV1 :=
  let f := fields c in
  check_options (mount_options f);;
  if is_empty (filesystem_row_id f) || is_empty (capability_test_vector_id f) then Err Fmt.Shape else
  if bool_decide (kind c = KindLocalPath) && has_network_parameters f then Err Fmt.Shape else Ok c.

Definition encode_archive_backend_profile_core (c : ArchiveBackendProfileCoreFieldsV1) : list byte :=
  let f := fields c in
  cbor_array 15 ++ cbor_u64 1 ++ cbor_u64 (kind_code (kind c))
  ++ cbor_str (filesystem_row_id f) ++ cbor_str (protocol_id f) ++ cbor_str (server_product f)
  ++ cbor_str (server_version f) ++ cbor_array (len (mount_options f))
  ++ flat_map cbor_str (mount_options f)
  ++ cbor_str (failover_config_id f) ++ cbor_str (capability_test_vector_id f)
  ++ cbor_u64 (queue_max_objects f) ++ cbor_u64 (queue_max_bytes f)
  ++ cbor_u64 (resume_backoff_initial_ms f) ++ cbor_u64 (resume_backoff_max_ms f)
  ++ cbor_u64 (resume_max_attempts f) ++ cbor_array 0.

(** The fields of a profile; a local one has no network parameters. *)
Definition core_fields (p : ArchiveBackendProfileV1) : ArchiveBackendProfileCoreFieldsV1 :=
  match p with
  | LocalPath l =>
      {| kind := KindLocalPath;
         fields := {| filesystem_row_id := lp_filesystem_row_id l; protocol_id := [];
                      server_product := []; server_version := []; mount_options := [];
                      failover_config_id := [];
                      capability_test_vector_id := lp_capability_test_vector_id l;
                      queue_max_objects := 0; queue_max_bytes := 0;
                      resume_backoff_initial_ms := 0; resume_backoff_max_ms := 0;
                      resume_max_attempts := 0 |} |}
  | ControlledNetworkPath n => {| kind := KindControlledNetworkPath; fields := n |}
  end.

(** [ArchiveBackendProfileV1::core]. *)
Definition core (p : ArchiveBackendProfileV1) : result ArchiveBackendError ArchiveBackendProfileCoreFieldsV1 :=
  format_err (ProfileCore_new (core_fields p)).

(** [ArchiveBackendProfileV1::profile_hash]; [digest] is the domain-separated
    hash of [ea-crypto]. *)
Definition profile_hash (digest : list byte → Hash32) (p : ArchiveBackendProfileV1)
    : result ArchiveBackendError Hash32 :=
  c ← core p; Ok (digest (encode_archive_backend_profile_core c)).

(** ** The inventory list *)

Record ArchiveInventoryEntryV1 := { relative_path : str; content_hash : ObjectHash }.

#[export] Instance ArchiveInventoryEntryV1_eq_dec : EqDecision ArchiveInventoryEntryV1.
Proof. solve_decision. Defined.

Definition colon : byte := x3a.

Section Paths.
(** [unicode_normalization::is_nfc] and [nfc]. *)
Context (is_nfc : str → bool) (to_nfc : str → str).

Definition validate_inventory_path (path : str) : result FormatError unit :=
  if is_empty path || starts_with [slash] path || contains_byte backslash path || negb (is_nfc path)
  then Err Fmt.InventoryPath else
  if bool_decide (path !! 1%nat = Some colon) then Err Fmt.InventoryPath else
  if existsb (λ segment, is_empty segment || bool_decide (segment = [dot]) || bool_decide (segment = [dot; dot]))
       (split slash path)
  then Err Fmt.InventoryPath else
  if bool_decide (to_nfc path ≠ path) then Err Fmt.InventoryPath else Ok tt.

Fixpoint validate_entries (entries : list ArchiveInventoryEntryV1) : result FormatError unit :=
  match entries with
  | [] => Ok tt
  | e :: entries => validate_inventory_path (relative_path e);; validate_entries entries
  end.

Definition equal_neighbours (entries : list ArchiveInventoryEntryV1) : bool :=
  existsb (λ p, bool_decide (relative_path p.1 = relative_path p.2)) (windows2 entries).

(** [ArchiveInventoryListV1::new]: the stable sort by path. *)
Definition InventoryList_new (entries : list ArchiveInventoryEntryV1)
    : result FormatError (list ArchiveInventoryEntryV1) :=
  validate_entries entries;;
  let entries := sort_by_key relative_path entries in
  if equal_neighbours entries then Err Fmt.InventoryDuplicate else Ok entries.
End Paths.

Definition encode_inventory_entry (e : ArchiveInventoryEntryV1) : list byte :=
  cbor_array 2 ++ cbor_str (relative_path e) ++ cbor_bytes (content_hash e).

Definition encode_archive_inventory_list (l : list ArchiveInventoryEntryV1) : result FormatError (list byte) :=
  head ← ok_or Fmt.Shape (checked_add u64_max 2 (len l));
  Ok (cbor_array head ++ cbor_u64 1 ++ cbor_u64 (len l) ++ flat_map encode_inventory_entry l).

(** ** The active profile pointer *)

Record ActiveProfilePointerCoreV1 := { active_profile_hash : Hash32; generation : Z }.

#[export] Instance ActiveProfilePointerCoreV1_eq_dec : EqDecision ActiveProfilePointerCoreV1.
Proof. solve_decision. Defined.

Definition POINTER_MAX_ENCODED_BYTES : Z := 45.

Definition encode_active_profile_pointer_core (p : ActiveProfilePointerCoreV1) : list byte :=
  cbor_array 3 ++ cbor_u64 1 ++ cbor_bytes (active_profile_hash p) ++ cbor_u64 (generation p).

(** What is used of [minicbor::Decoder]: each call reads one item off the rest
    of the input; [None] in an array's length is the indefinite form. *)
Class Minicbor := {
  dec_array : list byte → option (option Z * list byte);
  dec_u64 : list byte → option (Z * list byte);
  dec_bytes : list byte → option (list byte * list byte);
}.

(** The decoder reads what the encoder writes. *)
Class MinicborLaws `{Minicbor} : Prop := {
  dec_array_law n r : in_u64 n → sized (cbor_array n ++ r) → dec_array (cbor_array n ++ r) = Some (Some n, r);
  dec_u64_law n r : in_u64 n → sized (cbor_u64 n ++ r) → dec_u64 (cbor_u64 n ++ r) = Some (n, r);
  dec_bytes_law b r : sized (cbor_bytes b ++ r) → dec_bytes (cbor_bytes b ++ r) = Some (b, r);
}.

Definition decode_active_profile_pointer_core `{Minicbor} (bytes : list byte)
    : result FormatError ActiveProfilePointerCoreV1 :=
  if len bytes >? POINTER_MAX_ENCODED_BYTES then Err Fmt.Shape else
  '(n, r) ← ok_or Fmt.Shape (dec_array bytes);
  if bool_decide (n ≠ Some 3) then Err Fmt.Shape else
  '(version, r) ← ok_or Fmt.Shape (dec_u64 r);
  if negb (version =? 1) then Err Fmt.Shape else
  '(b, r) ← ok_or Fmt.Shape (dec_bytes r);
  hash ← match Hash32_try_from b with Ok h => Ok h | Err _ => Err Fmt.Shape end;
  '(g, r) ← ok_or Fmt.Shape (dec_u64 r);
  let pointer := {| active_profile_hash := hash; generation := g |} in
  if negb (is_empty r) || bool_decide (encode_active_profile_pointer_core pointer ≠ bytes)
  then Err Fmt.Shape else Ok pointer.

(** ** Encodings are prefix-free *)

Lemma head_bytes_same m v w r r' :
  0 ≤ m < 8 → in_u64 v → in_u64 w → head_bytes m v ++ r = head_bytes m w ++ r' → v = w ∧ r = r'.
Proof. intros Hm Hv Hw H. by apply head_bytes_inj in H as (_ & ? & ?). Qed.

Lemma sized_suffix {A} (l k : list A) : sized (l ++ k) → sized k.
Proof. unfold sized. rewrite len_app. pose proof (len_nonneg l). lia. Qed.

Lemma sized_prefix {A} (l k : list A) : sized (l ++ k) → sized l.
Proof. unfold sized. rewrite len_app. pose proof (len_nonneg k). lia. Qed.

Lemma sized_u64 {A} (l : list A) : sized l → in_u64 (len l).
Proof. unfold sized, in_u64. pose proof (len_nonneg l). lia. Qed.

Lemma payload_inj m a b r r' :
  0 ≤ m < 8 → sized a → sized b →
  head_bytes m (len a) ++ a ++ r = head_bytes m (len b) ++ b ++ r' → a = b ∧ r = r'.
Proof.
  intros Hm Ha Hb H. apply head_bytes_same in H as [Hl H]; [|done|by apply sized_u64..].
  apply app_inj_1 in H; [done|]. unfold len in Hl. lia.
Qed.

Lemma cbor_str_inj a b r r' : sized a → sized b → cbor_str a ++ r = cbor_str b ++ r' → a = b ∧ r = r'.
Proof. unfold cbor_str. rewrite <- !app_assoc. by apply payload_inj. Qed.

Lemma cbor_bytes_inj a b r r' : sized a → sized b → cbor_bytes a ++ r = cbor_bytes b ++ r' → a = b ∧ r = r'.
Proof. unfold cbor_bytes. rewrite <- !app_assoc. by apply payload_inj. Qed.

Lemma cbor_u64_inj v w r r' : in_u64 v → in_u64 w → cbor_u64 v ++ r = cbor_u64 w ++ r' → v = w ∧ r = r'.
Proof. by apply head_bytes_same. Qed.

Lemma cbor_array_inj v w r r' : in_u64 v → in_u64 w → cbor_array v ++ r = cbor_array w ++ r' → v = w ∧ r = r'.
Proof. by apply head_bytes_same. Qed.

(** Lists of equal length with prefix-free elements. *)
Lemma flat_map_inj {A} (f : A → list byte) (P : A → Prop) l k r r' :
  (∀ a b s s', P a → P b → f a ++ s = f b ++ s' → a = b ∧ s = s') →
  Forall P l → Forall P k → length l = length k →
  flat_map f l ++ r = flat_map f k ++ r' → l = k ∧ r = r'.
Proof.
  intros Hf Hl. revert k. induction Hl as [|a l Ha _ IH]; intros k Hk Hlen H.
  - by destruct k.
  - destruct Hk as [|b k Hb Hk]; [done|]. cbn in H. rewrite <- !app_assoc in H.
    apply Hf in H as [-> H]; [|done..]. apply IH in H as [-> ->]; [done..|]. cbn in Hlen. lia.
Qed.

(** ** The profile core names its fields *)

(** The widths the types of the source guarantee. *)
Record core_sized (c : ArchiveBackendProfileCoreFieldsV1) : Prop := {
  cs_row : sized (filesystem_row_id (fields c));
  cs_protocol : sized (protocol_id (fields c));
  cs_product : sized (server_product (fields c));
  cs_version : sized (server_version (fields c));
  cs_options : sized (mount_options (fields c));
  cs_option : Forall sized (mount_options (fields c));
  cs_failover : sized (failover_config_id (fields c));
  cs_vector : sized (capability_test_vector_id (fields c));
  cs_numbers : Forall in_u64 [queue_max_objects (fields c); queue_max_bytes (fields c);
    resume_backoff_initial_ms (fields c); resume_backoff_max_ms (fields c); resume_max_attempts (fields c)];
}.

Lemma kind_code_inj a b : kind_code a = kind_code b → a = b.
Proof. by destruct a, b. Qed.

Lemma small_u64 n : 0 ≤ n < 256 → in_u64 n.
Proof. unfold in_u64, u64_max. lia. Qed.

(** The encoding of a profile core determines every field of the
    profile: two profiles with the same bytes under the profile hash are the
    same profile. *)
Theorem profile_core_injective c c' :
  core_sized c → core_sized c' →
  encode_archive_backend_profile_core c = encode_archive_backend_profile_core c' → c = c'.
Proof.
  intros W W' H. unfold encode_archive_backend_profile_core in H. cbn zeta in H.
  apply app_inv_head in H. apply app_inv_head in H.
  apply cbor_u64_inj in H as [Hk%kind_code_inj H]; [|apply small_u64; by destruct (kind c)|apply small_u64; by destruct (kind c')].
  apply cbor_str_inj in H as [H1 H]; [|apply (cs_row _ W)|apply (cs_row _ W')].
  apply cbor_str_inj in H as [H2 H]; [|apply (cs_protocol _ W)|apply (cs_protocol _ W')].
  apply cbor_str_inj in H as [H3 H]; [|apply (cs_product _ W)|apply (cs_product _ W')].
  apply cbor_str_inj in H as [H4 H]; [|apply (cs_version _ W)|apply (cs_version _ W')].
  apply cbor_array_inj in H as [Hl H]; [|apply sized_u64, (cs_options _ W)|apply sized_u64, (cs_options _ W')].
  apply (flat_map_inj _ sized) in H as [H5 H]; [|apply cbor_str_inj|apply (cs_option _ W)|apply (cs_option _ W')|by apply Nat2Z.inj].
  apply cbor_str_inj in H as [H6 H]; [|apply (cs_failover _ W)|apply (cs_failover _ W')].
  apply cbor_str_inj in H as [H7 H]; [|apply (cs_vector _ W)|apply (cs_vector _ W')].
  pose proof (cs_numbers _ W) as N. pose proof (cs_numbers _ W') as N'.
  rewrite !Forall_cons in N. rewrite !Forall_cons in N'.
  destruct N as (? & ? & ? & ? & ? & _), N' as (? & ? & ? & ? & ? & _).
  do 5 (apply cbor_u64_inj in H as [? H]; [|done..]).
  destruct c as [k f], c' as [k' f'], f, f'. cbn in *. by subst.
Qed.

Definition sample_core : ArchiveBackendProfileCoreFieldsV1 :=
  {| kind := KindControlledNetworkPath;
     fields := {| filesystem_row_id := lit "fs-1"; protocol_id := lit "smb"; server_product := lit "p";
                  server_version := lit "3"; mount_options := [lit "nobrl"; lit "sync"];
                  failover_config_id := lit "none"; capability_test_vector_id := lit "v1";
                  queue_max_objects := 100; queue_max_bytes := 70000; resume_backoff_initial_ms := 1;
                  resume_backoff_max_ms := 300; resume_max_attempts := 5 |} |}.

Lemma sample_core_sized : core_sized sample_core.
Proof.
  constructor; repeat apply Forall_cons_2; try apply Forall_nil_2;
    try split; unfold sized; apply Z.leb_le; vm_compute; reflexivity.
Qed.

Lemma profile_core_injective_witness : core_sized sample_core ∧ sample_core = sample_core.
Proof.
  split; [apply sample_core_sized|].
  apply profile_core_injective; [apply sample_core_sized..|reflexivity].
Defined.

(** ** Accepted profiles *)

Lemma check_options_Ok options :
  check_options options = Ok tt ↔ StronglySorted (key_lt id) options.
Proof.
  induction options as [|a options IH]; [split; [constructor|done]|].
  destruct options as [|b options]; [split; [repeat constructor|done]|].
  cbn [check_options]. split.
  - destruct (cmp a b) eqn:E; try done. intros Hs%IH. constructor; [done|].
    apply StronglySorted_inv in Hs as [Hs Hb]. constructor; [done|].
    eapply Forall_impl; [exact Hb|]. intros x Hx. unfold key_lt, id in *. by apply (cmp_lt_trans a b x).
  - intros [Hs Ha]%StronglySorted_inv. apply Forall_cons in Ha as [E _]. unfold key_lt, id in E.
    rewrite E. by apply IH.
Qed.

Lemma is_empty_true {A} (l : list A) : is_empty l = true ↔ l = [].
Proof. apply bool_decide_eq_true. Qed.
Lemma is_empty_false {A} (l : list A) : is_empty l = false ↔ l ≠ [].
Proof. apply bool_decide_eq_false. Qed.

Lemma format_err_Ok {A} (r : result FormatError A) a : format_err r = Ok a ↔ r = Ok a.
Proof. destruct r; cbn; split; congruence. Qed.

Lemma ProfileCore_new_Ok c c' :
  ProfileCore_new c = Ok c' ↔
  c' = c ∧ StronglySorted (key_lt id) (mount_options (fields c)) ∧ filesystem_row_id (fields c) ≠ []
  ∧ capability_test_vector_id (fields c) ≠ []
  ∧ (kind c = KindLocalPath → has_network_parameters (fields c) = false).
Proof.
  unfold ProfileCore_new. rewrite <- check_options_Ok. destruct (check_options _) as [[]|e]; cbn;
    [|split; [done|by intros (_ & ? & _)]].
  destruct (is_empty (filesystem_row_id _)) eqn:E1; cbn.
  { apply is_empty_true in E1. split; [done|]. by intros (_ & _ & ? & _). }
  destruct (is_empty (capability_test_vector_id _)) eqn:E2; cbn.
  { apply is_empty_true in E2. split; [done|]. by intros (_ & _ & _ & ? & _). }
  apply is_empty_false in E1, E2. destruct (has_network_parameters _); cbn;
    [|rewrite andb_false_r; split; [intros [= <-]|intros (-> & _)]; done].
  rewrite andb_true_r. case_bool_decide as Hk.
  - split; [done|]. intros (_ & _ & _ & _ & Hn). by specialize (Hn Hk).
  - split; [by intros [= <-]|by intros (-> & _)].
Qed.

(** A profile has a hash exactly if its file system row and its
    capability test vector are named and, for a network profile, its mount
    options ascend without repetition; the hash is the digest of the encoding
    of its own fields, which for a local profile are free of network
    parameters. *)
Theorem profile_hash_Ok_iff digest p h :
  profile_hash digest p = Ok h ↔
  h = digest (encode_archive_backend_profile_core (core_fields p)) ∧
  match p with
  | LocalPath l => lp_filesystem_row_id l ≠ [] ∧ lp_capability_test_vector_id l ≠ []
  | ControlledNetworkPath n =>
      filesystem_row_id n ≠ [] ∧ capability_test_vector_id n ≠ []
      ∧ StronglySorted (key_lt id) (mount_options n)
  end.
Proof.
  unfold profile_hash, core. rewrite bind_Ok. setoid_rewrite format_err_Ok.
  setoid_rewrite ProfileCore_new_Ok. split.
  - intros (c & (-> & Hs & Hr & Hv & _) & [= <-]). split; [done|]. by destruct p.
  - intros [-> Hp]. eexists. split; [|reflexivity]. split; [reflexivity|].
    destruct p as [l|n]; cbn in *; split_and!; try apply Hp; done || constructor.
Qed.

(** ** Inventory lists *)

Section InventoryTheorems.
Context (is_nfc : str → bool) (to_nfc : str → str).

Record inventory_path_ok (path : str) : Prop := {
  ip_nonempty : path ≠ [];
  ip_relative : starts_with [slash] path = false;
  ip_no_drive : path !! 1%nat ≠ Some colon;
  ip_no_backslash : backslash ∉ path;
  ip_segments : ∀ seg, seg ∈ split slash path → seg ≠ [] ∧ seg ≠ [dot] ∧ seg ≠ [dot; dot];
  ip_nfc : is_nfc path = true ∧ to_nfc path = path;
}.

Lemma validate_inventory_path_Ok path :
  validate_inventory_path is_nfc to_nfc path = Ok tt ↔ inventory_path_ok path.
Proof.
  unfold validate_inventory_path, contains_byte. split.
  - intros H. destruct (_ || _) eqn:E1 in H; [done|].
    rewrite !orb_false_iff, is_empty_false, bool_decide_eq_false, negb_false_iff in E1.
    case_bool_decide as E2; [done|]. destruct (existsb _ _) eqn:E3 in H; [done|].
    case_bool_decide as E4; [done|]. split; try naive_solver.
    intros seg Hs. apply existsb_false in E3. rewrite Forall_forall in E3. specialize (E3 seg Hs).
    rewrite !orb_false_iff, is_empty_false, !bool_decide_eq_false in E3. naive_solver.
  - intros [H1 H2 H3 H4 H5 [H6 H7]]. rewrite (proj2 (is_empty_false _) H1), H2, H6. cbn.
    rewrite bool_decide_eq_false_2 by done. rewrite bool_decide_eq_false_2 by done. cbn.
    rewrite (proj2 (existsb_false _ _)).
    + by rewrite bool_decide_eq_false_2 by (intros ?; done).
    + apply Forall_forall. intros seg (? & ? & ?)%H5.
      by rewrite (proj2 (is_empty_false _)), !bool_decide_eq_false_2.
Qed.

Lemma validate_entries_Ok entries :
  validate_entries is_nfc to_nfc entries = Ok tt ↔ Forall (inventory_path_ok ∘ relative_path) entries.
Proof.
  induction entries as [|e entries IH]; [split; [constructor|done]|].
  rewrite Forall_cons, <- IH. cbn [validate_entries compose]. rewrite <- validate_inventory_path_Ok.
  destruct (validate_inventory_path _ _ _) as [[]|]; cbn; [naive_solver|]. split; [done|by intros [? _]].
Qed.

(** An inventory list is built exactly from entries whose paths are
    all relative, normalized and free of dot segments, and no two of which
    share a path; it holds exactly these entries in ascending order of path. *)
Theorem inventory_list_new_iff entries l :
  InventoryList_new is_nfc to_nfc entries = Ok l ↔
  Forall (inventory_path_ok ∘ relative_path) entries ∧ l ≡ₚ entries
  ∧ StronglySorted (key_lt relative_path) l.
Proof.
  unfold InventoryList_new. rewrite bind_Ok. setoid_rewrite <- (validate_entries_Ok entries).
  pose proof (no_equal_neighbours relative_path _ (sort_by_key_sorted relative_path entries)) as Hn.
  unfold equal_neighbours. split.
  - intros ([] & Hv & Hl). destruct (existsb _ _) eqn:E in Hl; [done|]. injection Hl as <-.
    split; [done|]. split; [apply sort_by_key_perm|]. by apply Hn.
  - intros (Hv & Hp & Hs). exists tt. split; [done|].
    assert (l = sort_by_key relative_path entries) as ->.
    { apply sort_by_key_unique; [|done|].
      - eapply sorted_impl; [|exact Hs]. intros ? ? _ _. apply key_lt_le.
      - eapply key_inj_perm; [exact Hp|]. by apply key_inj_NoDup, key_lt_NoDup_keys. }
    by rewrite (proj2 Hn Hs).
Qed.
End InventoryTheorems.

Lemma inventory_bytes_inj l k bytes :
  Forall (λ e, sized (relative_path e) ∧ sized (content_hash e)) l →
  Forall (λ e, sized (relative_path e) ∧ sized (content_hash e)) k →
  encode_archive_inventory_list l = Ok bytes → encode_archive_inventory_list k = Ok bytes → l = k.
Proof.
  unfold encode_archive_inventory_list. intros Hl Hk El Ek. inv_ok.
  repeat match goal with H : checked_add _ _ _ = Some _ |- _ => apply checked_add_Some in H as [-> ?] end.
  pose proof (len_nonneg l). pose proof (len_nonneg k).
  match goal with E : _ = _ ++ _ |- _ => rename E into He end.
  apply cbor_array_inj in He as [_ He]; [|unfold in_u64; lia..]. injection He as He.
  apply cbor_u64_inj in He as [Hn He]; [|unfold in_u64; lia..].
  rewrite <- (app_nil_r (flat_map _ k)), <- (app_nil_r (flat_map _ l)) in He.
  apply (flat_map_inj _ (λ e, sized (relative_path e) ∧ sized (content_hash e))) in He as [-> _];
    [done| |done|done|by apply Nat2Z.inj].
  intros a b s s' [Hp Hc] [Hp' Hc']. unfold encode_inventory_entry. rewrite <- !app_assoc.
  intros E%app_inv_head. apply cbor_str_inj in E as [E1 E]; [|done..].
  apply cbor_bytes_inj in E as [E2 E]; [|done..]. destruct a, b. cbn in *. by subst.
Qed.

(** The bytes under the inventory hash determine the whole
    list, every path and every content hash of it. *)
Theorem inventory_encoding_injective l k bytes :
  Forall (λ e, sized (relative_path e) ∧ sized (content_hash e)) l →
  Forall (λ e, sized (relative_path e) ∧ sized (content_hash e)) k →
  encode_archive_inventory_list l = Ok bytes → encode_archive_inventory_list k = Ok bytes → l = k.
Proof. apply inventory_bytes_inj. Qed.

(** ** The pointer *)

Lemma pointer_length p :
  length (active_profile_hash p) = 32%nat → in_u64 (generation p) →
  len (encode_active_profile_pointer_core p) ≤ POINTER_MAX_ENCODED_BYTES.
Proof.
  intros Hh Hg. unfold encode_active_profile_pointer_core, cbor_bytes. rewrite !len_app.
  assert (len (active_profile_hash p) = 32) as -> by (unfold len; lia).
  assert (len (cbor_u64 (generation p)) ≤ 9) by (unfold cbor_u64, head_bytes; repeat case_match; done).
  change (len (cbor_array 3)) with 1. change (len (cbor_u64 1)) with 1.
  change (len (head_bytes 2 32)) with 2. unfold POINTER_MAX_ENCODED_BYTES. lia.
Qed.

(** Decoding a profile pointer accepts exactly the encodings of
    pointers with a 32-byte hash and a 64-bit generation, and gives the
    pointer back. *)
Theorem pointer_roundtrip `{MinicborLaws} bytes p :
  decode_active_profile_pointer_core bytes = Ok p ∧ in_u64 (generation p) ↔
  bytes = encode_active_profile_pointer_core p
  ∧ length (active_profile_hash p) = 32%nat ∧ in_u64 (generation p).
Proof.
  unfold decode_active_profile_pointer_core. split.
  - intros [Hd Hg]. destruct (_ >? _); [done|]. inv_ok.
    repeat match goal with x : _ * _ |- _ => destruct x end. cbn in Hd.
    case_bool_decide; [done|]. inv_ok.
    repeat match goal with x : _ * _ |- _ => destruct x end. cbn in Hd.
    destruct (negb (_ =? _)); [done|]. inv_ok.
    repeat match goal with x : _ * _ |- _ => destruct x end. cbn in Hd.
    unfold Hash32_try_from in Hd. destruct (decide (length _ = _)); cbn in Hd; [|done]. inv_ok.
    repeat match goal with x : _ * _ |- _ => destruct x end.
    destruct (negb (is_empty _)); [done|]. cbn [orb] in Hd. case_bool_decide; [done|]. inv_ok. done.
  - intros (-> & Hh & Hg). split; [|done]. pose proof (pointer_length p Hh Hg) as Hlen.
    destruct (_ >? _) eqn:E; [apply Z.gtb_lt in E; lia|].
    assert (sized (encode_active_profile_pointer_core p)) as S1.
    { unfold sized. transitivity POINTER_MAX_ENCODED_BYTES; done. }
    pose proof (sized_suffix _ _ S1) as S2. pose proof (sized_suffix _ _ S2) as S3.
    pose proof (sized_suffix _ _ S3) as S4. rewrite <- (app_nil_r (cbor_u64 (generation p))) in S4.
    set (tail := cbor_bytes (active_profile_hash p) ++ cbor_u64 (generation p)).
    change (dec_array _) with (dec_array (cbor_array 3 ++ cbor_u64 1 ++ tail)).
    rewrite dec_array_law by done. cbn [ok_or mbind result_bind]. rewrite bool_decide_eq_false_2 by auto.
    rewrite dec_u64_law by done. cbn [ok_or mbind result_bind Z.eqb Pos.eqb negb]. subst tail.
    rewrite dec_bytes_law by done. cbn [ok_or mbind result_bind].
    unfold Hash32_try_from. rewrite decide_True by done. cbn [ok_or mbind result_bind].
    rewrite <- (app_nil_r (cbor_u64 (generation p))). rewrite dec_u64_law by done.
    cbn [ok_or mbind result_bind]. destruct p. by rewrite bool_decide_eq_false_2 by auto.
Qed.

(** ** A concrete decoder *)

Definition read_head (major : Z) (b : list byte) : option (Z * list byte) :=
  match b with
  | [] => None
  | i :: r =>
      if Z.shiftr (u8 i) 5 =? major then
        match encode_read_argument (Z.land (u8 i) 31) {| input := r; position := 0 |} with
        | Ok (v, c) => Some (v, drop (Z.to_nat (position c)) r)
        | Err _ => None
        end
      else None
  end.

Definition take_payload (o : option (Z * list byte)) : option (list byte * list byte) :=
  '(n, r) ← o; Some (take (Z.to_nat n) r, drop (Z.to_nat n) r).

Definition simple_minicbor : Minicbor :=
  {| dec_array b := (λ '(n, r), (Some n, r)) <$> read_head 4 b;
     dec_u64 b := read_head 0 b;
     dec_bytes b := take_payload (read_head 2 b) |}.

Lemma read_head_law m v r :
  0 ≤ m < 8 → in_u64 v → sized (head_bytes m v ++ r) → read_head m (head_bytes m v ++ r) = Some (v, r).
Proof.
  intros Hm Hv Hs. rewrite head_bytes_split in *. cbn in *. pose proof (arg_split_range v Hv).
  pose proof (initial_join m (arg_split v).1 Hm ltac:(lia)) as [-> ->]. rewrite Z.eqb_refl.
  set (c := {| input := (arg_split v).2 ++ r; position := 0 |}).
  assert (cursor_ok c) as Hc.
  { unfold cursor_ok, sized, usize_max in *. rewrite len_cons in Hs. cbn.
    pose proof (len_nonneg ((arg_split v).2 ++ r)). lia. }
  rewrite (encode_read_argument_minimal _ c v (arg_split v).2 Hc Hv (surjective_pairing _)) by (by exists r).
  cbn [position skip c]. unfold len. rewrite Z.add_0_l, Nat2Z.id. by rewrite drop_app_length.
Qed.

#[export] Instance simple_minicbor_laws : @MinicborLaws simple_minicbor.
Proof.
  split; cbn.
  - intros n r Hn Hs. unfold cbor_array in *. by rewrite read_head_law.
  - intros n r Hn Hs. unfold cbor_u64 in *. by rewrite read_head_law.
  - intros b r Hs. unfold cbor_bytes in *. rewrite <- app_assoc in *.
    rewrite read_head_law by (done || apply sized_u64, (sized_prefix b r), (sized_suffix _ _ Hs)). cbn.
    unfold len. rewrite Nat2Z.id. by rewrite take_app_length, drop_app_length.
Qed.

Definition sample_pointer : ActiveProfilePointerCoreV1 :=
  {| active_profile_hash := replicate 32 x0a; generation := 70000 |}.

Lemma pointer_roundtrip_witness :
  decode_active_profile_pointer_core (H := simple_minicbor)
    (encode_active_profile_pointer_core sample_pointer) = Ok sample_pointer.
Proof.
  apply (proj2 (pointer_roundtrip (H := simple_minicbor) _ sample_pointer)).
  split_and!; [reflexivity|reflexivity|split; apply Z.leb_le; reflexivity].
Defined.

Definition sample_inventory : list ArchiveInventoryEntryV1 :=
  [ {| relative_path := lit "entries/e.eip"; content_hash := replicate 32 x01 |};
    {| relative_path := lit "grants/g.eag"; content_hash := replicate 32 x02 |} ].

Lemma sample_inventory_sized :
  Forall (λ e, sized (relative_path e) ∧ sized (content_hash e)) sample_inventory.
Proof. repeat constructor; apply Z.leb_le; reflexivity. Qed.

Lemma inventory_encoding_injective_witness : sample_inventory = sample_inventory.
Proof.
  eapply inventory_encoding_injective; [apply sample_inventory_sized..| |]; reflexivity.
Defined.
