(* ===== verification/LocalPath.v ===== *)
(** * LocalPath: an archive on the local file system ([ea-archive-fs], [local_path.rs])

    The calls of [std::fs] that [LocalPathBackend] makes act on a model disk:
    files by path below the archive's root, the directories that exist, the
    kernel's lock on the lock file, and the outcomes the operating system
    gives to the calls that follow. A call that breaks has no effect, except
    that a broken write leaves what it had written. Reading fails for the
    paths of [unreadable]. The backend is proved to keep the promises of the
    archive port, [ArchiveBackendLaws], as far as no path is unreadable. *)

From S2P Require Import Prelude Types Utf8 Cbor Str ArchivePath Transaction PublicationQueue Profile.

(** ** The disk *)

(** Files by path, as the archive port has them. *)
Abbreviation file_map :=
  (@gmap str (@list_eq_dec byte byte_eq_dec) (@list_countable byte byte_eq_dec byte_countable) (list byte)).

(** What the operating system does with a call: it works, or it fails, a write
    after [written] bytes. *)
Inductive io := Works | Breaks (written : nat).

Record Fs := {
  fs_files : file_map;
  fs_dirs : gset str;
  fs_locked : bool;
  fs_outcomes : list io;
}.

Definition set_files (d : Fs) (f : file_map) : Fs :=
  {| fs_files := f; fs_dirs := fs_dirs d; fs_locked := fs_locked d; fs_outcomes := fs_outcomes d |}.
Definition set_dirs (d : Fs) (s : gset str) : Fs :=
  {| fs_files := fs_files d; fs_dirs := s; fs_locked := fs_locked d; fs_outcomes := fs_outcomes d |}.
Definition set_locked (d : Fs) (b : bool) : Fs :=
  {| fs_files := fs_files d; fs_dirs := fs_dirs d; fs_locked := b; fs_outcomes := fs_outcomes d |}.

(** The outcome of the next call; calls after the list work. *)
Definition next_io (d : Fs) : io * Fs :=
  match fs_outcomes d with
  | [] => (Works, d)
  | o :: rest =>
      (o, {| fs_files := fs_files d; fs_dirs := fs_dirs d; fs_locked := fs_locked d; fs_outcomes := rest |})
  end.

(** [Path::parent] of a path below the root, the root being the empty path. *)
Definition parent (p : str) : str :=
  match rfind slash p with Some i => take i p | None => [] end.

(** A directory of the layout is written with a trailing slash. *)
Definition dir_path (d : str) : str :=
  if ends_with [slash] d then take (length d - 1) d else d.

(** A directory and every directory above it. *)
Definition with_ancestors (d : str) : list str :=
  [] :: ((λ n, join slash (take n (split slash d))) <$> seq 1 (length (split slash d))).

(** ** The backend *)

Definition CONTROL_LOCK : str := lit ".ea-writer.lock".
Definition CONTROL_POINTER : str := lit ".ea-active-profile".
Definition CONTROL_FILES_V1 : list str := [CONTROL_LOCK; CONTROL_POINTER].

Record LocalPathBackend := {
  existing_only : bool;
  profile : ArchiveBackendProfileV1;
  held : bool;
  foreign : gset str;
  disk : Fs;
}.

Definition set_disk (b : LocalPathBackend) (d : Fs) : LocalPathBackend :=
  {| existing_only := existing_only b; profile := profile b; held := held b; foreign := foreign b; disk := d |}.
Definition set_held (b : LocalPathBackend) (h : bool) : LocalPathBackend :=
  {| existing_only := existing_only b; profile := profile b; held := h; foreign := foreign b; disk := disk b |}.

(** A call that changes the backend and may fail. *)
Definition act (A : Type) : Type := LocalPathBackend → LocalPathBackend * result ArchiveBackendError A.

#[export] Instance act_ret : MRet act := λ A a b, (b, Ok a).
#[export] Instance act_bind : MBind act := λ A B k m b,
  match m b with
  | (b, Ok a) => k a b
  | (b, Err e) => (b, Err e)
  end.

Definition raise {A} (e : ArchiveBackendError) : act A := λ b, (b, Err e).
Definition lift {A} (r : result ArchiveBackendError A) : act A := λ b, (b, r).
Definition gets {A} (f : LocalPathBackend → A) : act A := λ b, (b, Ok (f b)).

(** One call of the operating system: [effect] if it works, [Err e] and the
    trace [broken] leaves if it does not. *)
Definition os (e : ArchiveBackendError) (effect : Fs → option Fs) (broken : nat → Fs → Fs) : act unit :=
  λ b,
    let '(o, d) := next_io (disk b) in
    match o with
    | Works => match effect d with Some d' => (set_disk b d', Ok tt) | None => (set_disk b d, Err e) end
    | Breaks n => (set_disk b (broken n d), Err e)
    end.

Definition no_trace (n : nat) (d : Fs) : Fs := d.
Definition unless {A} (bad : bool) (a : A) : option A := if bad then None else Some a.

Definition create_dir_all (dir : str) : act unit :=
  os Io (λ d, unless (existsb (λ a, bool_decide (is_Some (fs_files d !! a))) (with_ancestors dir))
                (set_dirs d (fs_dirs d ∪ list_to_set (with_ancestors dir)))) no_trace.

(** [fs::create_dir] for a path that is free. *)
Definition create_dir (dir : str) : act unit :=
  os Io (λ d, unless (negb (bool_decide (parent dir ∈ fs_dirs d))) (set_dirs d ({[ dir ]} ∪ fs_dirs d))) no_trace.

(** [OpenOptions::new().write(true).create_new(true).open(p)]. *)
Definition open_new (p : str) : act unit :=
  os Io (λ d, unless (bool_decide (is_Some (fs_files d !! p)) || bool_decide (p ∈ fs_dirs d)
                      || negb (bool_decide (parent p ∈ fs_dirs d)))
                (set_files d (<[p := []]> (fs_files d)))) no_trace.

Definition write_all (p : str) (bytes : list byte) : act unit :=
  os Io (λ d, Some (set_files d (<[p := bytes]> (fs_files d))))
    (λ n d, set_files d (<[p := take n bytes]> (fs_files d))).

(** [open_for_flush] or an open file, and [sync_all]. *)
Definition sync_all (p : str) : act unit :=
  os FlushFailed (λ d, unless (negb (bool_decide (is_Some (fs_files d !! p)))) d) no_trace.

Definition sync_directory_at (dir : str) : act unit :=
  os FlushFailed (λ d, unless (negb (bool_decide (dir ∈ fs_dirs d))) d) no_trace.

(** [fs::rename] replaces a file at [to]. *)
Definition fs_rename (from to : str) : act unit :=
  os Io (λ d, match fs_files d !! from with
              | Some bytes =>
                  unless (bool_decide (to ∈ fs_dirs d) || negb (bool_decide (parent to ∈ fs_dirs d)))
                    (set_files d (<[to := bytes]> (delete from (fs_files d))))
              | None => None
              end) no_trace.

(** [fs::remove_file] of a file that exists. *)
Definition fs_remove (p : str) : act unit :=
  os Io (λ d, unless (negb (bool_decide (is_Some (fs_files d !! p)))) (set_files d (delete p (fs_files d)))) no_trace.

Section Backend.
(** Paths the operating system does not let the process read, the device a
    directory lies on, and the domain-separated hashes of [ea-crypto]. *)
Context (unreadable : str → bool) (device_of : str → option Z).

(** [fs::read(path).ok()]. *)
Definition read_bytes (p : str) (b : LocalPathBackend) : option (list byte) :=
  if unreadable p then None else fs_files (disk b) !! p.

Definition read_relative (p : str) (b : LocalPathBackend) : option (list byte) := read_bytes p b.

Definition require_directory (dir : str) : act unit :=
  λ b, if bool_decide (dir ∈ fs_dirs (disk b)) then (b, Ok tt) else (b, Err Io).

Definition require_existing_root : act unit :=
  e ← gets existing_only; if e : bool then require_directory [] else mret tt.

(** Every caller passes the root or a directory below it. *)
Definition ensure_directory (dir : str) : act unit :=
  e ← gets existing_only;
  if negb e then create_dir_all dir else
  _ ← require_existing_root;
  if is_empty dir then mret tt else
  _ ← require_directory (parent dir);
  d ← gets disk;
  if bool_decide (dir ∈ fs_dirs d) || bool_decide (is_Some (fs_files d !! dir))
  then require_directory dir
  else create_dir dir.

Definition create_bytes_if_absent (relative : ArchivePath) (bytes : list byte) : act unit :=
  _ ← require_existing_root;
  let p := as_str relative in
  found ← gets (read_bytes p);
  match found with
  | Some existing => if bool_decide (existing = bytes) then mret tt else raise ByteConflict
  | None =>
      _ ← ensure_directory (parent p);
      _ ← open_new p;
      write_all p bytes
  end.

Definition local_sync_file (relative : ArchivePath) : act unit := sync_all (as_str relative).

Definition local_sync_directory (relative : ArchivePath) : act unit :=
  sync_directory_at (dir_path (directory relative)).

Definition remove_if_present (relative : ArchivePath) : act unit :=
  _ ← require_existing_root;
  let p := as_str relative in
  d ← gets disk;
  if bool_decide (fs_files d !! p = None) then mret tt else
  _ ← fs_remove p;
  sync_directory_at (dir_path (directory relative)).

Definition local_atomic_rename_same_fs (from to : ArchivePath) : act unit :=
  marked ← gets foreign;
  if bool_decide (as_str from ∈ (marked : gset str)) || bool_decide (as_str to ∈ marked)
  then raise NotSameFilesystem else
  _ ← require_existing_root;
  let source := as_str from in
  let target := as_str to in
  let target_directory := dir_path (directory to) in
  _ ← ensure_directory target_directory;
  if match device_of (dir_path (directory from)), device_of target_directory with
     | Some source_device, Some target_device => negb (source_device =? target_device)
     | _, _ => false
     end
  then raise NotSameFilesystem else
  found ← gets (read_bytes target);
  match found with
  | Some existing =>
      staged ← gets (read_bytes source);
      staged ← lift (ok_or Io staged);
      if bool_decide (existing ≠ staged) then raise ByteConflict else fs_remove source
  | None => fs_rename source target
  end.

Definition create_directory_if_absent (dir : str) : act unit :=
  if negb (bool_decide (dir ∈ LAYOUT_PATHS_V1)) || negb (ends_with [slash] dir) then raise Path else
  let absolute := dir_path dir in
  _ ← ensure_directory absolute;
  _ ← sync_directory_at absolute;
  sync_directory_at (parent absolute).

(** ** The writer lock *)

(** [open_and_lock_exclusively] of the lock file. *)
Definition open_and_lock_exclusively : act unit :=
  _ ← os Io (λ d, unless (negb (bool_decide ([] ∈ fs_dirs d)) || bool_decide (CONTROL_LOCK ∈ fs_dirs d))
                    (set_files d (partial_alter (λ o, Some (default [] o)) CONTROL_LOCK (fs_files d)))) no_trace;
  d ← gets disk;
  if fs_locked d then raise AlreadyLocked else os Io (λ d, Some (set_locked d true)) no_trace.

(** Both stages of the lock: the flag of this backend and the kernel's lock. *)
Definition lock_both : act unit := λ b,
  if held b then (b, Err AlreadyLocked) else
  match open_and_lock_exclusively (set_held b true) with
  | (b, Ok _) => (b, Ok tt)
  | (b, Err error) => (set_held b false, Err (if existing_only b then error else AlreadyLocked))
  end.

Definition acquire_writer_lock : act unit := _ ← require_existing_root; lock_both.

(** [LocalWriterLockRelease::release], when the guard is dropped. *)
Definition release_writer_lock (b : LocalPathBackend) : LocalPathBackend :=
  set_held (set_disk b (set_locked (disk b) false)) false.

(** ** Reading the whole archive *)

(** [walk]: the sorted paths but the control files; a directory that cannot be
    listed fails it. *)
Definition walk : act (list str) :=
  _ ← os Io (λ d, unless (negb (bool_decide ([] ∈ fs_dirs d))) d) no_trace;
  d ← gets disk;
  mret (sort_by_key id (filter (λ p, p ∉ CONTROL_FILES_V1) (fst <$> map_to_list (fs_files d)))).

Definition relative_paths : act (list str) := walk.

Definition staged_paths : act (list str) :=
  paths ← walk; mret (filter (λ p, is_staging_path p = true) paths).

(** Reads every path of the list, or fails at the first that cannot be read. *)
Fixpoint read_all (paths : list str) (b : LocalPathBackend)
    : result ArchiveBackendError (list (str * list byte)) :=
  match paths with
  | [] => Ok []
  | p :: paths =>
      bytes ← ok_or Io (read_bytes p b);
      rest ← read_all paths b;
      Ok ((p, bytes) :: rest)
  end.

Definition read_blobs (paths : list str) : act (list (str * list byte)) := λ b, (b, read_all paths b).

Section Hashes.
Context (is_nfc : str → bool) (to_nfc : str → str) (object_hash : list byte → ObjectHash).

Definition inventory : act (list ArchiveInventoryEntryV1) :=
  paths ← walk;
  blobs ← read_blobs paths;
  lift (format_err (InventoryList_new is_nfc to_nfc
    ((λ '(p, bytes), {| relative_path := p; content_hash := object_hash bytes |}) <$> blobs))).
End Hashes.

(** The blobs [LocalPathArchiveSource] yields to a visitor. *)
Definition visit_blobs : act (list (str * list byte)) :=
  paths ← walk;
  read_blobs (filter (λ p, is_staging_path p = false) paths).

(** ** The active profile pointer *)

Definition POINTER_STAGING : str := CONTROL_POINTER ++ STAGING_SUFFIX_V1.

(** The result of removing a leftover staging file is ignored. *)
Definition remove_leftover (p : str) : act unit := λ b, ((fs_remove p b).1, Ok tt).

Definition write_active_profile_pointer (pointer : ActiveProfilePointerCoreV1) : act unit :=
  _ ← require_existing_root;
  let bytes := encode_active_profile_pointer_core pointer in
  _ ← remove_leftover POINTER_STAGING;
  _ ← open_new POINTER_STAGING;
  _ ← write_all POINTER_STAGING bytes;
  _ ← sync_all POINTER_STAGING;
  _ ← fs_rename POINTER_STAGING CONTROL_POINTER;
  sync_directory_at [].

Definition active_profile_pointer_bytes (b : LocalPathBackend) : option (list byte) :=
  read_bytes CONTROL_POINTER b.

(** The archive port on the local file system. *)
Definition local_backend : ArchiveBackend LocalPathBackend := {|
  create_if_absent := create_bytes_if_absent;
  create_non_object_if_absent := create_bytes_if_absent;
  sync_file := local_sync_file;
  sync_directory := local_sync_directory;
  atomic_rename_same_fs := local_atomic_rename_same_fs;
  files b := fs_files (disk b);
|}.
End Backend.

(** ** What a call leaves *)

(** The files of a backend. *)
Definition held_files (b : LocalPathBackend) : file_map := fs_files (disk b).

Lemma act_bind_run {A B} (m : act A) (k : A → act B) b b' r :
  (m ≫= k) b = (b', r) →
  (∃ b1 a, m b = (b1, Ok a) ∧ k a b1 = (b', r)) ∨ (∃ e, m b = (b', Err e) ∧ r = Err e).
Proof.
  unfold mbind, act_bind. destruct (m b) as [b1 [a|e]].
  - intros H. left. by exists b1, a.
  - intros [= <- <-]. right. by exists e.
Qed.

(** A call of the operating system starts from a disk that differs in its
    pending outcomes only. *)
Lemma os_run e effect broken b b' r :
  os e effect broken b = (b', r) →
  ∃ d, fs_files d = held_files b ∧ fs_dirs d = fs_dirs (disk b) ∧ fs_locked d = fs_locked (disk b) ∧
    ((∃ d', effect d = Some d' ∧ b' = set_disk b d' ∧ r = Ok tt)
     ∨ (effect d = None ∧ b' = set_disk b d ∧ r = Err e)
     ∨ (∃ n, b' = set_disk b (broken n d) ∧ r = Err e)).
Proof.
  unfold os. destruct (next_io (disk b)) as [o d] eqn:E. intros H. exists d.
  unfold next_io in E. unfold held_files.
  destruct (fs_outcomes (disk b)); injection E as <- <-; cbn; (split; [done|]); (split; [done|]); (split; [done|]);
    [|destruct i]; try (destruct (effect _) eqn:E'); injection H as <- <-; eauto 10.
Qed.

(** Splits a run of the monad at its first call. *)
Ltac run_bind H :=
  let Hr := fresh in
  apply act_bind_run in H as [(? & ? & ? & H)|(? & H & Hr)]; [|first [discriminate Hr|subst]].

(** A relation between the files before and after every run of a call. *)
Definition leaves (R : relation file_map) {A} (m : act A) : Prop :=
  ∀ b b' r, m b = (b', r) → R (held_files b) (held_files b').

Abbreviation keeps := (leaves eq).

Section Leaves.
Context (R : relation file_map) `{!Reflexive R, !Transitive R}.

Lemma leaves_bind {A B} (m : act A) (k : A → act B) :
  leaves R m → (∀ a, leaves R (k a)) → leaves R (m ≫= k).
Proof.
  intros Hm Hk b b' r H. run_bind H; [|by apply (Hm _ _ _ H)].
  etransitivity; [by eapply Hm|by eapply Hk].
Qed.
Lemma leaves_ret {A} (a : A) : leaves R (mret a).
Proof. by intros b b' r [= <- _]. Qed.
Lemma leaves_raise {A} e : leaves R (raise e : act A).
Proof. by intros b b' r [= <- _]. Qed.
Lemma leaves_lift {A} (x : result ArchiveBackendError A) : leaves R (lift x).
Proof. by intros b b' r [= <- _]. Qed.
Lemma leaves_gets {A} (f : LocalPathBackend → A) : leaves R (gets f).
Proof. by intros b b' r [= <- _]. Qed.
Lemma leaves_require_directory dir : leaves R (require_directory dir).
Proof. unfold require_directory. intros b b' r. by case_bool_decide; intros [= <- _]. Qed.
Lemma leaves_os e effect broken :
  (∀ d d', effect d = Some d' → R (fs_files d) (fs_files d')) →
  (∀ n d, R (fs_files d) (fs_files (broken n d))) → leaves R (os e effect broken).
Proof.
  intros He Hb b b' r H. apply os_run in H as (d & Hf & _ & _ & [(d' & E & -> & _)|[(_ & -> & _)|(n & -> & _)]]);
    unfold held_files in *; cbn; rewrite <- Hf; eauto.
Qed.
End Leaves.

Create HintDb keeps.
#[export] Hint Resolve leaves_ret leaves_raise leaves_lift leaves_gets
  leaves_require_directory : keeps.

(** Splits a call into its parts and solves each with the hints. *)
Ltac solve_leaves :=
  repeat match goal with
  | |- leaves _ (mbind _ _) => apply leaves_bind; [apply _| |intros ?]
  | |- leaves _ (match ?c with _ => _ end) => destruct c
  | |- leaves _ _ => solve [auto with keeps typeclass_instances]
  end.

Lemma unless_Some {A} bad (a b : A) : unless bad a = Some b ↔ bad = false ∧ a = b.
Proof. destruct bad; cbn; split; naive_solver. Qed.

(** Calls that change no file. *)
Lemma keeps_os_quiet e effect :
  (∀ d d', effect d = Some d' → fs_files d' = fs_files d) → keeps (os e effect no_trace).
Proof. intros H. apply leaves_os; [apply _| |done]. intros d d' E. by rewrite (H d d' E). Qed.

Lemma keeps_create_dir_all dir : keeps (create_dir_all dir).
Proof. apply keeps_os_quiet. by intros d d' [_ <-]%unless_Some. Qed.
Lemma keeps_create_dir dir : keeps (create_dir dir).
Proof. apply keeps_os_quiet. by intros d d' [_ <-]%unless_Some. Qed.
Lemma keeps_sync_all p : keeps (sync_all p).
Proof. apply keeps_os_quiet. by intros d d' [_ <-]%unless_Some. Qed.
Lemma keeps_sync_directory_at dir : keeps (sync_directory_at dir).
Proof. apply keeps_os_quiet. by intros d d' [_ <-]%unless_Some. Qed.
#[export] Hint Resolve keeps_create_dir_all keeps_create_dir keeps_sync_all keeps_sync_directory_at : keeps.

Lemma keeps_require_existing_root : keeps require_existing_root.
Proof. unfold require_existing_root. solve_leaves. Qed.
#[export] Hint Resolve keeps_require_existing_root : keeps.

Lemma keeps_ensure_directory dir : keeps (ensure_directory dir).
Proof. unfold ensure_directory. solve_leaves. Qed.
#[export] Hint Resolve keeps_ensure_directory : keeps.

(** Calls that change one file. *)
Lemma open_new_run p b b' r :
  open_new p b = (b', r) →
  (r = Ok tt ∧ held_files b !! p = None ∧ held_files b' = <[p := []]> (held_files b))
  ∨ (r = Err Io ∧ held_files b' = held_files b).
Proof.
  intros (d & Hf & _ & _ & [(d' & E & -> & ->)|[(_ & -> & ->)|(n & -> & ->)]])%os_run; rewrite <- Hf;
    [left|by right..]. apply unless_Some in E as [E <-]. split; [done|]. split; [|done].
  apply orb_false_iff in E as [[E _]%orb_false_iff _]. by apply bool_decide_eq_false, eq_None_not_Some in E.
Qed.

Lemma write_all_run p bytes b b' r :
  write_all p bytes b = (b', r) →
  ∃ w, w `prefix_of` bytes ∧ held_files b' = <[p := w]> (held_files b)
    ∧ (r = Ok tt ∧ w = bytes ∨ r = Err Io).
Proof.
  intros (d & Hf & _ & _ & [(d' & E & -> & ->)|[(E & _)|(n & -> & ->)]])%os_run; rewrite <- Hf; [| done |].
  - injection E as <-. exists bytes. split; [done|]. split; [done|by left].
  - exists (take n bytes). split; [|split; [done|by right]]. exists (drop n bytes). by rewrite take_drop.
Qed.

Lemma fs_rename_run from to b b' r :
  fs_rename from to b = (b', r) →
  (r = Ok tt ∧ ∃ bytes, held_files b !! from = Some bytes
     ∧ held_files b' = <[to := bytes]> (delete from (held_files b)))
  ∨ (r = Err Io ∧ held_files b' = held_files b).
Proof.
  intros (d & Hf & _ & _ & [(d' & E & -> & ->)|[(_ & -> & ->)|(n & -> & ->)]])%os_run; rewrite <- Hf;
    [left|by right..]. destruct (fs_files d !! from) as [bytes|]; [|done].
  apply unless_Some in E as [_ <-]. split; [done|]. by exists bytes.
Qed.

Lemma fs_remove_run p b b' r :
  fs_remove p b = (b', r) →
  (r = Ok tt ∧ held_files b' = delete p (held_files b)) ∨ (r = Err Io ∧ held_files b' = held_files b).
Proof.
  intros (d & Hf & _ & _ & [(d' & E & -> & ->)|[(_ & -> & ->)|(n & -> & ->)]])%os_run; rewrite <- Hf;
    [left|by right..]. by apply unless_Some in E as [_ <-].
Qed.

(** ** The port's promises *)

Lemma create_bytes_run unreadable relative bytes b b' r :
  create_bytes_if_absent unreadable relative bytes b = (b', r) →
  (held_files b' = held_files b ∧ (r = Ok tt → held_files b !! as_str relative = Some bytes))
  ∨ (held_files b !! as_str relative = None ∧ ∃ w, w `prefix_of` bytes
     ∧ held_files b' = <[as_str relative := w]> (held_files b) ∧ (r = Ok tt → w = bytes)).
Proof.
  unfold create_bytes_if_absent. intros H. run_bind H.
  2: { left. by rewrite (keeps_require_existing_root _ _ _ H). }
  match goal with E : require_existing_root b = _ |- _ =>
    apply keeps_require_existing_root in E; rename E into E0 end.
  run_bind H; [|done]. match goal with E : gets _ _ = _ |- _ => injection E as <- <- end.
  rewrite E0. unfold read_bytes in H. destruct (if unreadable _ then _ else _) as [existing|] eqn:Er.
  { destruct (unreadable _); [done|]. case_bool_decide; injection H as <- <-; left; (split; [done|]); [|done].
    intros _. unfold held_files. congruence. }
  run_bind H; [|left; by rewrite (keeps_ensure_directory _ _ _ _ H)].
  match goal with E : ensure_directory _ _ = _ |- _ => apply keeps_ensure_directory in E; rename E into E1 end.
  rewrite E1. run_bind H; [|left; by apply open_new_run in H as [(? & _)|[_ ->]]].
  match goal with E : open_new _ _ = _ |- _ => apply open_new_run in E as [(_ & Hn & E2)|[? _]]; [|done] end.
  right. split; [done|]. apply write_all_run in H as (w & Hw & E3 & Hr). exists w. split; [done|].
  rewrite E3, E2. split; [by rewrite insert_insert_eq|]. naive_solver.
Qed.

Lemma local_creates unreadable device_of :
  @creates _ (local_backend unreadable device_of) (create_bytes_if_absent unreadable).
Proof.
  intros p bytes b b' r [[E Hr]|(Hn & w & _ & E & Hr)]%create_bytes_run; cbn; fold (held_files b) (held_files b').
  - rewrite E. done.
  - rewrite E. split; [|intros Hok; rewrite (Hr Hok); apply lookup_insert_eq].
    intros q [Hq|[x Hx]]; apply lookup_insert_ne; [done|congruence].
Qed.

(** Up to the read of the target, a rename changes no file. *)
Lemma local_rename_run unreadable device_of from to b b' r :
  local_atomic_rename_same_fs unreadable device_of from to b = (b', r) →
  (∃ e, r = Err e ∧ held_files b' = held_files b) ∨
  (∃ b1 existing, held_files b1 = held_files b ∧ unreadable (as_str to) = false
     ∧ held_files b !! as_str to = Some existing ∧ held_files b !! as_str from = Some existing
     ∧ fs_remove (as_str from) b1 = (b', r)) ∨
  (∃ b1, held_files b1 = held_files b
     ∧ (unreadable (as_str to) = true ∨ held_files b !! as_str to = None)
     ∧ fs_rename (as_str from) (as_str to) b1 = (b', r)).
Proof.
  unfold local_atomic_rename_same_fs. intros H. run_bind H; [|done].
  match goal with E : gets _ _ = _ |- _ => injection E as <- <- end.
  destruct (_ || _); [injection H as <- <-; eauto|].
  run_bind H; [|apply keeps_require_existing_root in H; eauto].
  match goal with E : require_existing_root _ = _ |- _ => apply keeps_require_existing_root in E; rename E into E0 end.
  run_bind H; [|apply keeps_ensure_directory in H; left; eexists; split; [done|congruence]].
  match goal with E : ensure_directory _ _ = _ |- _ => apply keeps_ensure_directory in E; rename E into E1 end.
  rewrite E1 in E0. rewrite E0. clear E0 E1. match type of H with (if ?c then _ else _) _ = _ => destruct c end.
  { injection H as <- <-. eauto. }
  run_bind H; [|done]. match goal with E : gets _ _ = _ |- _ => injection E as <- <- end.
  unfold read_bytes in H at 1. destruct (unreadable (as_str to)) eqn:Eu; [right; right; by eauto|].
  destruct (fs_files _ !! as_str to) as [existing|] eqn:Et in H; [|right; right; eauto].
  run_bind H; [|done]. match goal with E : gets _ _ = _ |- _ => injection E as <- <- end.
  run_bind H; [|injection H as <- _; eauto].
  match goal with E : lift _ _ = _ |- _ => injection E as <- E2 end. apply ok_or_Ok in E2.
  case_bool_decide as Hne; [injection H as <- <-; eauto|]. right. left.
  unfold read_bytes in E2. destruct (unreadable (as_str from)); [done|]. unfold held_files.
  eexists _, existing. split_and!; [reflexivity|done|done| |exact H].
  congruence.
Qed.

Lemma local_backend_laws_hold unreadable device_of :
  (∀ p, unreadable p = false) →
  @ArchiveBackendLaws LocalPathBackend (local_backend unreadable device_of).
Proof.
  intros Hu. split; [apply local_creates|apply local_creates|..]; cbn.
  - intros p b b' r H. symmetry. by apply keeps_sync_all in H.
  - intros p b b' r H. symmetry. by apply keeps_sync_directory_at in H.
  - intros from to b b' r H Hne. fold (held_files b) (held_files b').
    apply local_rename_run in H as [(e & -> & E)|[(b1 & existing & E & _ & Et & Ef & H)|(b1 & E & Ht & H)]]; [done|..].
    + apply fs_remove_run in H as [[-> E']|[-> E']]; rewrite E', E; [|done].
      exists existing. split; [done|]. split; [by right|]. by rewrite insert_id.
    + apply fs_rename_run in H as [(-> & bytes & Ef & E')|[-> E']]; rewrite E', E; [|done]. rewrite E in Ef.
      exists bytes. split; [done|]. split; [left; destruct Ht; congruence|]. by rewrite delete_insert_ne.
Qed.

(** C36. The local file system backend keeps every promise of the archive
    port, whichever of its calls to the operating system break and after
    however many bytes, as long as existing files can be read: creating never
    changes a file that exists, and a rename never replaces other bytes. *)
Theorem local_backend_laws unreadable device_of :
  (∀ p, unreadable p = false) →
  @ArchiveBackendLaws LocalPathBackend (local_backend unreadable device_of).
Proof. apply local_backend_laws_hold. Qed.

(** A rename onto an existing file that cannot be read
    succeeds, and the file then holds the bytes of the source, whatever it
    held before. *)
Theorem unreadable_target_overwritten unreadable device_of from to b b' :
  unreadable (as_str to) = true →
  local_atomic_rename_same_fs unreadable device_of from to b = (b', Ok tt) →
  ∃ bytes, held_files b !! as_str from = Some bytes ∧ held_files b' !! as_str to = Some bytes.
Proof.
  intros Hu [(e & ? & _)|[(b1 & existing & _ & Hf & _)|(b1 & E & _ & H)]]%local_rename_run; [done|congruence|].
  apply fs_rename_run in H as [(_ & bytes & Ef & E')|[? _]]; [|done]. rewrite E in *.
  exists bytes. split; [done|]. rewrite E'. apply lookup_insert_eq.
Qed.

Definition sample_disk (f : file_map) : Fs :=
  {| fs_files := f; fs_dirs := {[ []; lit "entries"; lit "grants" ]}; fs_locked := false; fs_outcomes := [] |}.

Definition sample_backend (f : file_map) : LocalPathBackend :=
  {| existing_only := true;
     profile := LocalPath {| lp_filesystem_row_id := lit "fs"; lp_capability_test_vector_id := lit "v" |};
     held := false; foreign := ∅; disk := sample_disk f |}.

Definition entry_at (name : string) : ArchivePath := {| value := lit "entries/" ++ lit name; directory_length := 8 |}.

Definition occupied : file_map :=
  <[as_str (entry_at "e.eip") := [x07]]> {[ as_str (entry_at "e.eip.staging") := [x01] ]}.

Lemma unreadable_target_overwritten_witness :
  let b := sample_backend occupied in
  held_files b !! as_str (entry_at "e.eip") = Some [x07] ∧
  held_files (local_atomic_rename_same_fs (λ _, true) (λ _, None)
    (entry_at "e.eip.staging") (entry_at "e.eip") b).1 !! as_str (entry_at "e.eip") = Some [x01].
Proof.
  intros b. split; [reflexivity|].
  destruct (local_atomic_rename_same_fs (λ _, true) (λ _, None) (entry_at "e.eip.staging") (entry_at "e.eip") b)
    as [b' r] eqn:E.
  assert (r = Ok tt) as -> by (pose proof (f_equal snd E) as Er; vm_compute in Er; by rewrite <- Er).
  destruct (unreadable_target_overwritten (λ _, true) (λ _, None) _ _ b b' eq_refl E) as (bytes & Ef & Et).
  exact (eq_trans Et (eq_trans (eq_sym Ef) eq_refl)).
Defined.

Lemma local_backend_laws_witness :
  files (ArchiveBackend := local_backend (λ _, false) (λ _, None))
    (create_if_absent (ArchiveBackend := local_backend (λ _, false) (λ _, None)) (entry_at "n.eip") [x09]
      (sample_backend occupied)).1 !! as_str (entry_at "e.eip") = Some [x07].
Proof.
  pose proof (local_backend_laws (λ _, false) (λ _, None) ltac:(reflexivity)) as [Hc _ _ _ _].
  destruct (create_if_absent _ _ _) as [b' r] eqn:E. apply Hc in E as [Hf _]. cbn.
  etransitivity; [apply Hf; left; discriminate|reflexivity].
Defined.

(** On the local file system, whichever calls of a commit break, an
    address that is not a staging address is afterwards as it was, or it was
    free and holds exactly the bytes planned for it. *)
Theorem local_commit_all_or_nothing unreadable device_of planned b b' r q :
  (∀ p, unreadable p = false) → plan_ok planned → is_staging_path q = false →
  @commit _ (local_backend unreadable device_of) planned b = (b', r) →
  held_files b' !! q = held_files b !! q ∨
  (held_files b !! q = None ∧ ∃ o, o ∈ planned ∧ as_str (Transaction.target o) = q
     ∧ held_files b' !! q = Some (staged_bytes (bytes o))).
Proof.
  intros Hu Hp Hq E. pose proof (local_backend_laws_hold unreadable device_of Hu) as HL.
  destruct (mapM (λ o, staging_path (Transaction.target o)) planned) as [staged|e] eqn:Hst.
  - by apply (@commit_effect _ (local_backend unreadable device_of) HL planned staged Hp Hst b b' r q).
  - left. by rewrite (@commit_staging_error _ (local_backend unreadable device_of) _ _ _ _ _ Hst E).
Qed.

Lemma local_commit_all_or_nothing_witness :
  let b := sample_backend occupied in
  held_files (@commit _ (local_backend (λ _, false) (λ _, None)) sample_plan b).1 !! lit "entries/e.eip" = Some [x07].
Proof.
  intros b. destruct (local_commit_all_or_nothing (λ _, false) (λ _, None) sample_plan b _ _ (lit "entries/e.eip")
    ltac:(reflexivity) sample_plan_ok eq_refl (surjective_pairing _)) as [E|[E _]].
  - rewrite E. reflexivity.
  - discriminate E.
Defined.

(** ** The writer lock *)

Lemma require_existing_root_Ok b b' : require_existing_root b = (b', Ok tt) → b' = b.
Proof.
  unfold require_existing_root, mbind, act_bind, gets. destruct (existing_only b); [|by intros [= <-]].
  unfold require_directory. case_bool_decide; by intros [= <-].
Qed.

Lemma require_existing_root_same b b' r : require_existing_root b = (b', r) → b' = b.
Proof.
  unfold require_existing_root, mbind, act_bind, gets. destruct (existing_only b); [|by intros [= <-]].
  unfold require_directory. case_bool_decide; by intros [= <-].
Qed.

(** Whether some process holds the kernel's lock on the archive. *)
Definition locked (b : LocalPathBackend) : bool := fs_locked (disk b).

Lemma open_and_lock_run b b' r :
  open_and_lock_exclusively b = (b', r) →
  held b' = held b ∧ existing_only b' = existing_only b
  ∧ (∀ q, q ≠ CONTROL_LOCK → held_files b' !! q = held_files b !! q)
  ∧ match r with Ok _ => locked b = false ∧ locked b' = true | Err _ => locked b' = locked b end.
Proof.
  unfold open_and_lock_exclusively, locked. intros H. run_bind H.
  - match goal with E : os _ _ _ _ = _ |- _ =>
      apply os_run in E as (d & Hf & _ & Hl & [(d' & Ee & -> & _)|[(_ & _ & ?)|(n & _ & ?)]]); [|done..] end.
    apply unless_Some in Ee as [_ <-]. run_bind H; [|done].
    match goal with E : gets _ _ = _ |- _ => injection E as <- <- end. cbn in H.
    destruct (fs_locked d) eqn:El.
    + injection H as <- <-. cbn. split_and!; [done|done| |congruence].
      intros q Hq. unfold held_files in *. cbn. rewrite <- Hf. by apply lookup_partial_alter_ne.
    + apply os_run in H as (d1 & Hf1 & _ & Hl1 & [(d' & E & -> & ->)|[(? & _)|(n & -> & ->)]]); [|done|].
      * injection E as <-. cbn. split_and!; [done|done| |congruence|done].
        intros q Hq. unfold held_files in *. cbn in *. rewrite Hf1, <- Hf. by apply lookup_partial_alter_ne.
      * unfold no_trace. cbn in *. split_and!; [done|done| |congruence].
        intros q Hq. unfold held_files in *. cbn in *. rewrite Hf1, <- Hf. by apply lookup_partial_alter_ne.
  - apply os_run in H as (d & Hf & _ & Hl & [(d' & _ & _ & ?)|[(_ & -> & _)|(n & -> & _)]]); [done|..];
      unfold no_trace, held_files in *; cbn; rewrite Hf; done.
Qed.

Lemma acquire_run b b' r :
  acquire_writer_lock b = (b', r) →
  (∀ q, q ≠ CONTROL_LOCK → held_files b' !! q = held_files b !! q) ∧
  match r with
  | Ok _ => held b = false ∧ locked b = false ∧ held b' = true ∧ locked b' = true
  | Err _ => held b' = held b ∧ locked b' = locked b
  end.
Proof.
  intros H. unfold acquire_writer_lock in H. run_bind H.
  2: { by apply require_existing_root_same in H as ->. }
  match goal with E : require_existing_root _ = _ |- _ => apply require_existing_root_same in E as -> end.
  unfold lock_both in H. destruct (held b) eqn:Eh; [by injection H as <- <-|].
  destruct (open_and_lock_exclusively _) as [c1 [[]|e]] eqn:E; injection H as <- <-;
    apply open_and_lock_run in E as (Hh & _ & Hf & Hl); unfold locked, held_files in *; cbn in *; naive_solver.
Qed.

(** Taking the writer lock succeeds only if neither this backend nor
    any other process holds it and then both stages are held; a failed attempt
    leaves both as they were; while it is held every attempt on the archive is
    refused, and dropping the guard frees both stages; no file but the lock
    file is touched. *)
Theorem writer_lock_exclusive b b' r :
  acquire_writer_lock b = (b', r) →
  (∀ q, q ≠ CONTROL_LOCK → held_files b' !! q = held_files b !! q) ∧
  match r with
  | Ok _ =>
      held b = false ∧ locked b = false ∧ held b' = true ∧ locked b' = true
      ∧ (∀ c, disk c = disk b' → (acquire_writer_lock c).2 ≠ Ok tt)
      ∧ held (release_writer_lock b') = false ∧ locked (release_writer_lock b') = false
  | Err _ => held b' = held b ∧ locked b' = locked b
  end.
Proof.
  intros H. apply acquire_run in H as Hb. destruct Hb as [Hf Hb]. split; [done|].
  destruct r; [|done]. destruct Hb as (? & ? & ? & Hl). split_and!; try done.
  intros c Hc. destruct (acquire_writer_lock c) as [c' [[]|e]] eqn:Ec; [|done].
  apply acquire_run in Ec as (_ & _ & Hl' & _). unfold locked in *. rewrite Hc in Hl'. congruence.
Qed.

Lemma writer_lock_exclusive_witness :
  let b := sample_backend occupied in
  held (acquire_writer_lock b).1 = true ∧ (acquire_writer_lock (acquire_writer_lock b).1).2 ≠ Ok tt.
Proof.
  intros b. destruct (acquire_writer_lock b) as [b' [[]|e]] eqn:E.
  2: { pose proof (f_equal snd E) as Er. vm_compute in Er. discriminate Er. }
  destruct (writer_lock_exclusive b b' (Ok tt) E) as [_ (_ & _ & Hh & _ & Hx & _)].
  split; [exact Hh|]. by apply Hx.
Defined.

(** ** The profile pointer *)

(** The files but the pointer and its staging file. *)
Definition same_but_pointer : relation file_map :=
  λ f g, ∀ q, q ≠ CONTROL_POINTER → q ≠ POINTER_STAGING → g !! q = f !! q.

#[export] Instance same_but_pointer_refl : Reflexive same_but_pointer.
Proof. by intros f q. Qed.
#[export] Instance same_but_pointer_trans : Transitive same_but_pointer.
Proof. intros f g h H1 H2 q Hq Hs. by rewrite H2, H1. Qed.

Lemma remove_leftover_run p b b' r :
  remove_leftover p b = (b', r) →
  r = Ok tt ∧ (held_files b' = delete p (held_files b) ∨ held_files b' = held_files b).
Proof.
  unfold remove_leftover. intros [= <- <-]. split; [done|].
  destruct (fs_remove p b) as [b1 r1] eqn:E. apply fs_remove_run in E. naive_solver.
Qed.

(** The staging file before the rename: the pointer is untouched. *)
Definition staging_only : relation file_map :=
  λ f g, same_but_pointer f g ∧ g !! CONTROL_POINTER = f !! CONTROL_POINTER.

#[export] Instance staging_only_refl : Reflexive staging_only.
Proof. by intros f. Qed.
#[export] Instance staging_only_trans : Transitive staging_only.
Proof. intros f g h [H1 P1] [H2 P2]. split; [by etransitivity|congruence]. Qed.

Lemma staging_only_insert f g w :
  staging_only f g → staging_only f (<[POINTER_STAGING := w]> g).
Proof.
  intros [H P]. split.
  - intros q Hq Hs. rewrite lookup_insert_ne by done. by apply H.
  - by rewrite lookup_insert_ne by done.
Qed.

Lemma staging_only_delete f g : staging_only f g → staging_only f (delete POINTER_STAGING g).
Proof.
  intros [H P]. split.
  - intros q Hq Hs. rewrite lookup_delete_ne by done. by apply H.
  - by rewrite lookup_delete_ne by done.
Qed.

Lemma os_error e effect broken b b' r : os e effect broken b = (b', r) → r = Ok tt ∨ r = Err e.
Proof. intros (d & _ & _ & _ & [(? & _ & _ & ->)|[(_ & _ & ->)|(? & _ & ->)]])%os_run; eauto. Qed.

(** Up to the rename only the staging file changes; then it holds the pointer. *)
Lemma pointer_staged bytes b b' r :
  (_ ← require_existing_root;
   _ ← remove_leftover POINTER_STAGING;
   _ ← open_new POINTER_STAGING;
   _ ← write_all POINTER_STAGING bytes;
   sync_all POINTER_STAGING) b = (b', r) →
  staging_only (held_files b) (held_files b') ∧ (r = Ok tt → held_files b' !! POINTER_STAGING = Some bytes).
Proof.
  intros H. run_bind H; [|by apply require_existing_root_same in H as ->].
  match goal with E : require_existing_root _ = _ |- _ => apply require_existing_root_same in E as -> end.
  run_bind H; [|by apply remove_leftover_run in H as [? _]].
  match goal with E : remove_leftover _ _ = (?c, _) |- _ =>
    apply remove_leftover_run in E as [_ El]; assert (staging_only (held_files b) (held_files c)) as H1;
      [destruct El as [->| ->]; [by apply staging_only_delete|done]|clear El] end.
  run_bind H; [|by apply open_new_run in H as [[? _]|[_ ->]]].
  match goal with E : open_new _ _ = _ |- _ => apply open_new_run in E as [(_ & _ & E1)|[? _]]; [|done] end.
  apply (staging_only_insert _ _ []) in H1. rewrite <- E1 in H1.
  run_bind H.
  - match goal with E : write_all _ _ _ = _ |- _ =>
      apply write_all_run in E as (w & _ & E2 & [[_ ->]|?]); [|done] end.
    apply (staging_only_insert _ _ bytes) in H1. rewrite <- E2 in H1.
    apply keeps_sync_all in H. rewrite <- H. split; [done|]. intros _. rewrite E2. apply lookup_insert_eq.
  - apply write_all_run in H as (w & _ & E2 & _).
    apply (staging_only_insert _ _ w) in H1. rewrite <- E2 in H1. done.
Qed.

Lemma act_bind_assoc {A B C} (m : act A) (k : A → act B) (l : B → act C) b :
  ((m ≫= k) ≫= l) b = (m ≫= (λ a, k a ≫= l)) b.
Proof. unfold mbind, act_bind. by destruct (m b) as [? [?|?]]. Qed.

Lemma act_bind_ext {A B} (m : act A) (k l : A → act B) b :
  (∀ a c, k a c = l a c) → (m ≫= k) b = (m ≫= l) b.
Proof. intros H. unfold mbind, act_bind. by destruct (m b) as [? [?|?]]. Qed.

Lemma pointer_write_parts pointer b b' r :
  write_active_profile_pointer pointer b = (b', r) →
  same_but_pointer (held_files b) (held_files b') ∧
  ((held_files b' !! CONTROL_POINTER = held_files b !! CONTROL_POINTER ∧ r ≠ Ok tt)
   ∨ (held_files b' !! CONTROL_POINTER = Some (encode_active_profile_pointer_core pointer)
      ∧ (r = Ok tt ∨ r = Err FlushFailed))).
Proof.
  intros H. set (bytes := encode_active_profile_pointer_core pointer).
  assert (((_ ← require_existing_root; _ ← remove_leftover POINTER_STAGING; _ ← open_new POINTER_STAGING;
            _ ← write_all POINTER_STAGING bytes; sync_all POINTER_STAGING) ≫= λ _ : unit,
           _ ← fs_rename POINTER_STAGING CONTROL_POINTER; sync_directory_at []) b = (b', r)) as H'.
  { rewrite <- H. unfold write_active_profile_pointer.
    repeat (rewrite act_bind_assoc; apply act_bind_ext; intros ? ?). done. }
  clear H. apply act_bind_run in H' as [(b1 & [] & E & H)|(e & E & ->)];
    apply pointer_staged in E as [[Hs Hp] Hw]; [|by eauto].
  specialize (Hw eq_refl). run_bind H.
  - match goal with E : fs_rename _ _ _ = _ |- _ =>
      apply fs_rename_run in E as [(_ & w & E1 & E2)|[? _]]; [|done] end.
    pose proof (os_error _ _ _ _ _ _ H) as Hr. apply keeps_sync_directory_at in H. rewrite <- H, E2.
    split; [|right; split; [rewrite lookup_insert_eq; congruence|done]].
    intros q Hq Hn. rewrite lookup_insert_ne, lookup_delete_ne by done. by apply Hs.
  - apply fs_rename_run in H as [[? _]|[_ E]]; [done|]. rewrite E. eauto.
Qed.

(** A write of the active profile pointer leaves the old pointer or
    the whole new one, never a part, and the new one if it succeeds; a write
    that fails with the new pointer in place failed at the last flush of the
    directory; no other file but the pointer's staging file changes. *)
Theorem pointer_write_atomic pointer b b' r :
  write_active_profile_pointer pointer b = (b', r) →
  same_but_pointer (held_files b) (held_files b') ∧
  ((held_files b' !! CONTROL_POINTER = held_files b !! CONTROL_POINTER ∧ r ≠ Ok tt)
   ∨ (held_files b' !! CONTROL_POINTER = Some (encode_active_profile_pointer_core pointer)
      ∧ (r = Ok tt ∨ r = Err FlushFailed))).
Proof. apply pointer_write_parts. Qed.

(** A disk whose last flush of the pointer's directory fails. *)
Definition flush_fails : LocalPathBackend :=
  let b := sample_backend occupied in
  set_disk b {| fs_files := fs_files (disk b); fs_dirs := fs_dirs (disk b); fs_locked := false;
                fs_outcomes := [Works; Works; Works; Works; Works; Breaks 0] |}.

Lemma pointer_write_atomic_witness :
  (write_active_profile_pointer sample_pointer flush_fails).2 = Err FlushFailed ∧
  held_files (write_active_profile_pointer sample_pointer flush_fails).1 !! CONTROL_POINTER
    = Some (encode_active_profile_pointer_core sample_pointer).
Proof.
  split; [vm_compute; reflexivity|].
  destruct (pointer_write_atomic sample_pointer flush_fails _ _ (surjective_pairing _)) as [_ [[Ho _]|[Hn _]]].
  - exfalso. vm_compute in Ho. discriminate Ho.
  - exact Hn.
Defined.

(** ** When a pointer write can fail *)

(** A relation between the disks before and after every run of a call. *)
Definition turns (R : relation Fs) {A} (m : act A) : Prop :=
  ∀ b b' r, m b = (b', r) → R (disk b) (disk b').

Section Turns.
Context (R : relation Fs) `{!Reflexive R, !Transitive R}.

Lemma turns_bind {A B} (m : act A) (k : A → act B) :
  turns R m → (∀ a, turns R (k a)) → turns R (m ≫= k).
Proof.
  intros Hm Hk b b' r H. run_bind H; [|by apply (Hm _ _ _ H)].
  etransitivity; [by eapply Hm|by eapply Hk].
Qed.
Lemma turns_ret {A} (a : A) : turns R (mret a).
Proof. by intros b b' r [= <- _]. Qed.
Lemma turns_raise {A} e : turns R (raise e : act A).
Proof. by intros b b' r [= <- _]. Qed.
Lemma turns_lift {A} (x : result ArchiveBackendError A) : turns R (lift x).
Proof. by intros b b' r [= <- _]. Qed.
Lemma turns_gets {A} (f : LocalPathBackend → A) : turns R (gets f).
Proof. by intros b b' r [= <- _]. Qed.
Lemma turns_require_directory dir : turns R (require_directory dir).
Proof. unfold require_directory. intros b b' r. by case_bool_decide; intros [= <- _]. Qed.
Lemma turns_read_blobs unreadable paths : turns R (read_blobs unreadable paths).
Proof. by intros b b' r [= <- _]. Qed.
Lemma turns_os e effect broken :
  (∀ d, R d (next_io d).2) → (∀ d d', effect d = Some d' → R d d') →
  (∀ n d, R d (broken n d)) → turns R (os e effect broken).
Proof.
  intros Hn He Hb b b' r. unfold os. pose proof (Hn (disk b)) as H1.
  destruct (next_io (disk b)) as [[|n] d]; cbn in H1; [destruct (effect d) as [d'|] eqn:E|]; intros [= <- _]; cbn;
    [etransitivity; [exact H1|by apply He]|done|etransitivity; [exact H1|done]].
Qed.
Lemma turns_remove_leftover p : turns R (fs_remove p) → turns R (remove_leftover p).
Proof.
  intros Hr b b' r. unfold remove_leftover. destruct (fs_remove p b) as [b1 r1] eqn:E. intros [= <- _].
  by eapply Hr.
Qed.
End Turns.

(** Calls take the outcomes of the operating system from the front. *)
Definition spent : relation Fs := λ d d', fs_outcomes d' `suffix_of` fs_outcomes d.
#[export] Instance spent_refl : Reflexive spent.
Proof. intros d. unfold spent. reflexivity. Qed.
#[export] Instance spent_trans : Transitive spent.
Proof. intros d1 d2 d3 H1 H2. unfold spent in *. by etransitivity. Qed.

Lemma spent_same d d' : fs_outcomes d' = fs_outcomes d → spent d d'.
Proof. unfold spent. by intros ->. Qed.
Lemma spent_next d : spent d (next_io d).2.
Proof. unfold spent, next_io. destruct (fs_outcomes d) as [|o l] eqn:E; cbn; [by rewrite E|]. by exists [o]. Qed.

Create HintDb turns.
#[export] Hint Resolve turns_ret turns_raise turns_lift turns_gets turns_require_directory
  turns_read_blobs turns_remove_leftover : turns.

Ltac solve_turns :=
  repeat match goal with
  | |- turns _ (mbind _ _) => apply turns_bind; [apply _| |intros ?]
  | |- turns _ (match ?c with _ => _ end) => destruct c
  | |- turns _ (os _ _ _) => apply turns_os;
      [apply _|apply spent_next|intros ? ?; repeat case_match; try done; intros [_ <-]%unless_Some; by apply spent_same|intros ? ?; by apply spent_same]
  | |- turns _ _ => solve [auto with turns typeclass_instances]
  end.

Lemma spent_require_existing_root : turns spent require_existing_root.
Proof. unfold require_existing_root. solve_turns. Qed.
#[export] Hint Resolve spent_require_existing_root : turns.

Lemma spent_ensure_directory dir : turns spent (ensure_directory dir).
Proof. unfold ensure_directory, create_dir_all, create_dir. solve_turns. Qed.
#[export] Hint Resolve spent_ensure_directory : turns.

Lemma spent_create_bytes unreadable p bytes : turns spent (create_bytes_if_absent unreadable p bytes).
Proof.
  unfold create_bytes_if_absent, open_new, write_all. solve_turns.
  apply turns_os; [apply _|apply spent_next|intros d ? [= <-]; by apply spent_same|intros ? ?; by apply spent_same].
Qed.

Lemma spent_walk : turns spent walk.
Proof. unfold walk. solve_turns. Qed.
Lemma spent_sync_all p : turns spent (sync_all p).
Proof. unfold sync_all. solve_turns. Qed.
Lemma spent_sync_directory_at dir : turns spent (sync_directory_at dir).
Proof. unfold sync_directory_at. solve_turns. Qed.
#[export] Hint Resolve spent_walk spent_sync_all spent_sync_directory_at spent_create_bytes : turns.

Lemma spent_write_pointer pointer : turns spent (write_active_profile_pointer pointer).
Proof.
  unfold write_active_profile_pointer, open_new, write_all, fs_rename. solve_turns.
  - apply turns_remove_leftover. unfold fs_remove. solve_turns.
  - apply turns_os; [apply _|apply spent_next|intros d ? [= <-]; by apply spent_same|intros ? ?; by apply spent_same].
Qed.

(** The names of pointer and staging file are free of directories and the root
    is there: nothing but a broken call stops a pointer write. *)
Record pointer_ready (b : LocalPathBackend) : Prop := {
  pr_root : [] ∈ fs_dirs (disk b);
  pr_staging : POINTER_STAGING ∉ fs_dirs (disk b);
  pr_pointer : CONTROL_POINTER ∉ fs_dirs (disk b);
}.

Definition same_dirs : relation Fs := λ d d', fs_dirs d' = fs_dirs d.
#[export] Instance same_dirs_refl : Reflexive same_dirs.
Proof. done. Qed.
#[export] Instance same_dirs_trans : Transitive same_dirs.
Proof. intros d1 d2 d3 H1 H2. unfold same_dirs in *. congruence. Qed.

Lemma os_same_dirs e effect broken :
  (∀ d d', effect d = Some d' → fs_dirs d' = fs_dirs d) → (∀ n d, fs_dirs (broken n d) = fs_dirs d) →
  turns same_dirs (os e effect broken).
Proof.
  intros He Hb. apply turns_os; [apply _| |done|done].
  intros d. unfold same_dirs, next_io. by destruct (fs_outcomes d).
Qed.

(** The directories an opened or renamed file needs. *)
Lemma open_new_dirs p b b' r :
  open_new p b = (b', r) →
  fs_dirs (disk b') = fs_dirs (disk b) ∧ (r = Ok tt → p ∉ fs_dirs (disk b)).
Proof.
  intros (d & _ & Hd & _ & [(d' & E & -> & _)|[(_ & -> & ->)|(n & -> & ->)]])%os_run; cbn; [|done..].
  apply unless_Some in E as [E <-]. cbn. split; [done|]. intros _.
  apply orb_false_iff in E as [[_ E]%orb_false_iff _]. rewrite <- Hd. by apply bool_decide_eq_false in E.
Qed.

Lemma fs_rename_dirs from to b b' r :
  fs_rename from to b = (b', r) →
  fs_dirs (disk b') = fs_dirs (disk b) ∧ (r = Ok tt → to ∉ fs_dirs (disk b)).
Proof.
  intros (d & _ & Hd & _ & [(d' & E & -> & _)|[(_ & -> & ->)|(n & -> & ->)]])%os_run; cbn; [|done..].
  destruct (fs_files d !! from); [|done]. apply unless_Some in E as [E <-]. cbn. split; [done|]. intros _.
  apply orb_false_iff in E as [E _]. rewrite <- Hd. by apply bool_decide_eq_false in E.
Qed.

Lemma sync_directory_dirs dir b b' r :
  sync_directory_at dir b = (b', r) →
  fs_dirs (disk b') = fs_dirs (disk b) ∧ (r = Ok tt → dir ∈ fs_dirs (disk b)).
Proof.
  intros (d & _ & Hd & _ & [(d' & E & -> & _)|[(_ & -> & ->)|(n & -> & ->)]])%os_run; cbn; [|done..].
  apply unless_Some in E as [E <-]. split; [done|]. intros _.
  rewrite <- Hd. by apply negb_false_iff, bool_decide_eq_true in E.
Qed.

(** After a pointer write that succeeded another one can only break. *)
Lemma pointer_write_ready pointer b b' :
  write_active_profile_pointer pointer b = (b', Ok tt) → pointer_ready b'.
Proof.
  unfold write_active_profile_pointer. intros H. run_bind H.
  match goal with E : require_existing_root _ = _ |- _ => apply require_existing_root_same in E as -> end.
  run_bind H. run_bind H. match goal with E : open_new _ _ = (_, Ok ?u) |- _ =>
    destruct u; apply open_new_dirs in E as [E1 Hs] end. specialize (Hs eq_refl).
  run_bind H. match goal with E : write_all _ _ _ = _ |- _ =>
    apply os_same_dirs in E; [unfold same_dirs in E|by intros d ? [= <-]|done] end.
  run_bind H. match goal with E : sync_all _ _ = _ |- _ =>
    apply os_same_dirs in E; [unfold same_dirs in E|by intros d ? [_ <-]%unless_Some|done] end.
  run_bind H. match goal with E : fs_rename _ _ _ = (_, Ok ?u) |- _ =>
    destruct u; apply fs_rename_dirs in E as [E2 Hp] end. specialize (Hp eq_refl).
  apply sync_directory_dirs in H as [E3 Hr]. specialize (Hr eq_refl).
  split; rewrite E3; [done|congruence..].
Qed.

(** The next [n] calls of the operating system work. *)
Definition works (n : nat) (d : Fs) : Prop := Forall (λ o, o = Works) (take n (fs_outcomes d)).

Lemma os_works e effect broken b n :
  works (S n) (disk b) →
  ∃ d, fs_files d = held_files b ∧ fs_dirs d = fs_dirs (disk b) ∧ works n d ∧
    os e effect broken b =
      match effect d with Some d' => (set_disk b d', Ok tt) | None => (set_disk b d, Err e) end.
Proof.
  unfold works, os, next_io, held_files. destruct (fs_outcomes (disk b)) as [|o l] eqn:E.
  - intros _. exists (disk b). rewrite E. destruct n; by split_and!.
  - intros [-> Hl]%Forall_cons. eexists. by split_and!; [| | |reflexivity].
Qed.

(** A call that succeeds, keeps the directories and leaves [n] working calls. *)
Definition succeeds (n : nat) (m : act unit) (b b' : LocalPathBackend) : Prop :=
  m b = (b', Ok tt) ∧ fs_dirs (disk b') = fs_dirs (disk b) ∧ works n (disk b').

Lemma os_succeeds e effect broken b n :
  works (S n) (disk b) →
  (∀ d, fs_files d = held_files b → fs_dirs d = fs_dirs (disk b) →
    ∃ f, effect d = Some (set_files d f)) →
  ∃ b' d f, succeeds n (os e effect broken) b b' ∧ fs_files d = held_files b
    ∧ effect d = Some (set_files d f) ∧ held_files b' = f.
Proof.
  intros Hw He. destruct (os_works e effect broken b n Hw) as (d & Hf & Hd & Hw' & E).
  destruct (He d Hf Hd) as [f Ef]. rewrite Ef in E. eexists _, d, f. split; [by split|]. done.
Qed.

Lemma set_files_inv d f g : set_files d f = set_files d g → f = g.
Proof. by intros [= ->]. Qed.
Lemma set_files_id d : set_files d (fs_files d) = d.
Proof. by destruct d. Qed.

(** Runs the call of the goal with [os_succeeds]. *)
Ltac os_succeeds Hw :=
  match goal with |- context [succeeds ?n (os ?e ?eff ?tr) ?bb] =>
    let b' := fresh "b'" in let d := fresh "d" in let f := fresh "f" in
    destruct (os_succeeds e eff tr bb n Hw) as (b' & d & f & ?H & _ & ?E & ?Eb) end.

Lemma remove_leftover_succeeds p b n :
  works (S n) (disk b) → ∃ b', succeeds n (remove_leftover p) b b' ∧ held_files b' !! p = None.
Proof.
  intros Hw. unfold succeeds, remove_leftover, fs_remove.
  match goal with |- context [os ?e ?f ?g _] => destruct (os_works e f g b n Hw) as (d & Hf & Hd & Hw' & ->) end.
  case_bool_decide as Hp; cbn; eexists; (split; [split; [done|by split]|]); unfold held_files; cbn.
  - apply lookup_delete_eq.
  - by apply eq_None_not_Some.
Qed.

Lemma open_new_succeeds p b n :
  works (S n) (disk b) → held_files b !! p = None → p ∉ fs_dirs (disk b) → parent p ∈ fs_dirs (disk b) →
  ∃ b', succeeds n (open_new p) b b'.
Proof.
  intros Hw Hn Hp Hd. unfold open_new. os_succeeds Hw; [|by eexists].
  intros d Ef Ed. eexists. cbn beta. rewrite Ef, Ed, Hn, (bool_decide_eq_false_2 (is_Some _)) by (by intros [? ?]).
  rewrite (bool_decide_eq_false_2 (p ∈ _)), bool_decide_eq_true_2 by done. reflexivity.
Qed.

Lemma write_all_succeeds p bytes b n :
  works (S n) (disk b) →
  ∃ b', succeeds n (write_all p bytes) b b' ∧ held_files b' !! p = Some bytes.
Proof.
  intros Hw. unfold write_all. os_succeeds Hw.
  2: { eexists. split; [done|]. rewrite Eb. cbn beta in E. injection E as <-. apply lookup_insert_eq. }
  intros d _ _. by eexists.
Qed.

Lemma sync_all_succeeds p b n :
  works (S n) (disk b) → is_Some (held_files b !! p) →
  ∃ b', succeeds n (sync_all p) b b' ∧ held_files b' = held_files b.
Proof.
  intros Hw Hp. unfold sync_all. os_succeeds Hw.
  2: { eexists. split; [done|]. destruct H as [H _]. symmetry. exact (keeps_sync_all p _ _ _ H). }
  intros d Ef _. exists (fs_files d). cbn beta. by rewrite set_files_id, Ef, bool_decide_eq_true_2.
Qed.

Lemma fs_rename_succeeds from to b n :
  works (S n) (disk b) → is_Some (held_files b !! from) → to ∉ fs_dirs (disk b) →
  parent to ∈ fs_dirs (disk b) → ∃ b', succeeds n (fs_rename from to) b b'.
Proof.
  intros Hw [bytes Hb] Ht Hp. unfold fs_rename. os_succeeds Hw; [|by eexists].
  intros d Ef Ed. eexists. cbn beta. rewrite Ef, Ed, Hb, bool_decide_eq_false_2, bool_decide_eq_true_2 by done.
  reflexivity.
Qed.

Lemma sync_directory_succeeds dir b n :
  works (S n) (disk b) → dir ∈ fs_dirs (disk b) → ∃ b', succeeds n (sync_directory_at dir) b b'.
Proof.
  intros Hw Hd. unfold sync_directory_at. os_succeeds Hw; [|by eexists].
  intros d Ef Ed. exists (fs_files d). cbn beta. by rewrite set_files_id, Ed, bool_decide_eq_true_2.
Qed.

(** A pointer write on a ready backend succeeds if its six calls work. *)
Lemma ready_pointer_write pointer b :
  pointer_ready b → works 6 (disk b) → ∃ b', write_active_profile_pointer pointer b = (b', Ok tt).
Proof.
  intros [Hr Hs Hp] Hw. unfold write_active_profile_pointer, mbind, act_bind.
  assert (require_existing_root b = (b, Ok tt)) as ->.
  { unfold require_existing_root, mbind, act_bind, gets, require_directory.
    destruct (existing_only b); [|done]. by rewrite bool_decide_eq_true_2. }
  destruct (remove_leftover_succeeds POINTER_STAGING b 5 Hw) as (b1 & (-> & E1 & W1) & Hn).
  destruct (open_new_succeeds POINTER_STAGING b1 4) as (b2 & -> & E2 & W2); [done|done|by rewrite E1| |].
  { rewrite E1. exact Hr. }
  destruct (write_all_succeeds POINTER_STAGING (encode_active_profile_pointer_core pointer) b2 3 W2)
    as (b3 & (-> & E3 & W3) & Hf).
  destruct (sync_all_succeeds POINTER_STAGING b3 2 W3) as (b4 & (-> & E4 & W4) & Ef); [by eexists|].
  destruct (fs_rename_succeeds POINTER_STAGING CONTROL_POINTER b4 1 W4) as (b5 & -> & E5 & W5).
  { rewrite Ef, Hf. by eexists. }
  { by rewrite E4, E3, E2, E1. }
  { rewrite E4, E3, E2, E1. exact Hr. }
  destruct (sync_directory_succeeds [] b5 0 W5) as (b6 & -> & _); [by rewrite E5, E4, E3, E2, E1|].
  by exists b6.
Qed.

(** So a write that fails right after one that succeeded has hit a broken call. *)
Lemma ready_write_breaks pointer b b' e :
  pointer_ready b → write_active_profile_pointer pointer b = (b', Err e) →
  ∃ n, Breaks n ∈ take 6 (fs_outcomes (disk b)).
Proof.
  intros Hr He. assert (∀ o, Decision (o = Works)) as Hdec by (intros []; [by left|by right]).
  destruct (decide (Forall (λ o, o = Works) (take 6 (fs_outcomes (disk b))))) as [Hw|Hw].
  - destruct (ready_pointer_write pointer b Hr Hw) as [b1 H]. congruence.
  - apply not_Forall_Exists, Exists_exists in Hw as (o & Ho & Hb); [|apply _].
    destruct o as [|n]; [by destruct Hb|]. by exists n.
Qed.

(** ** The inventory of the files *)

Lemma walk_run b b' paths :
  walk b = (b', Ok paths) →
  held_files b' = held_files b ∧
  paths = sort_by_key id (filter (λ p, p ∉ CONTROL_FILES_V1) (fst <$> map_to_list (held_files b))).
Proof.
  unfold walk. intros H. run_bind H.
  match goal with E : os _ _ _ _ = _ |- _ => apply keeps_os_quiet in E; [|by intros ? ? [_ <-]%unless_Some] end.
  run_bind H. match goal with E : gets _ _ = _ |- _ => injection E as <- <- end.
  unfold mret, act_ret in H. injection H as <- H. unfold held_files in *. split; congruence.
Qed.

Lemma elem_of_walk b b' paths p :
  walk b = (b', Ok paths) → p ∈ paths ↔ is_Some (held_files b !! p) ∧ p ∉ CONTROL_FILES_V1.
Proof.
  intros [_ ->]%walk_run. rewrite elem_of_sort_by_key, list_elem_of_filter, list_elem_of_fmap. split.
  - intros (Hc & [q x] & -> & Hx%elem_of_map_to_list). split; [|done]. by eexists.
  - intros [[x Hx] Hc]. split; [done|]. exists (p, x). split; [done|]. by apply elem_of_map_to_list.
Qed.

Lemma read_all_Ok unreadable paths b blobs :
  read_all unreadable paths b = Ok blobs →
  fst <$> blobs = paths ∧ ∀ p bytes, (p, bytes) ∈ blobs → held_files b !! p = Some bytes.
Proof.
  revert blobs. induction paths as [|p paths IH]; intros blobs H; cbn in H; inv_ok.
  { split; [done|]. by intros ? ? ?%elem_of_nil. }
  match goal with H : read_all _ _ _ = Ok _ |- _ => apply IH in H as [<- Hr] end. split; [done|].
  intros q bytes [[= -> ->]|Hq]%elem_of_cons; [|by apply Hr].
  match goal with H : read_bytes _ _ _ = _ |- _ => unfold read_bytes in H; by destruct (unreadable p) end.
Qed.

Lemma inventory_run unreadable is_nfc to_nfc object_hash b b' l :
  inventory unreadable is_nfc to_nfc object_hash b = (b', Ok l) →
  held_files b' = held_files b ∧ StronglySorted (key_lt relative_path) l ∧
  ∀ e, e ∈ l ↔ ∃ bytes, held_files b !! relative_path e = Some bytes
    ∧ (relative_path e ∉ CONTROL_FILES_V1) ∧ content_hash e = object_hash bytes.
Proof.
  unfold inventory. intros H. run_bind H. run_bind H.
  match goal with E : read_blobs _ _ _ = (_, Ok ?x) |- _ => rename x into blobs; injection E as <- Er end.
  match goal with E : walk _ = _ |- _ => pose proof (walk_run _ _ _ E) as [Ef _];
    assert (Hw := λ p, elem_of_walk _ _ _ p E) end.
  apply read_all_Ok in Er as [Hp Hb]. rewrite Ef in Hb.
  injection H as <- H. apply format_err_Ok, inventory_list_new_iff in H as (_ & Hperm & Hs).
  split_and!; [done..|]. intros e. rewrite Hperm, list_elem_of_fmap. split.
  - intros ([p bytes] & -> & Hin). exists bytes. cbn. split_and!; [by apply Hb| |done].
    apply Hw. rewrite <- Hp. by apply (list_elem_of_fmap_2 fst _ (p, bytes)).
  - intros (bytes & Hf & Hc & Hh). assert (relative_path e ∈ fst <$> blobs) as Hin.
    { rewrite Hp. apply Hw. split; [by eexists|done]. }
    apply list_elem_of_fmap in Hin as ([p bytes'] & Ep & Hin). cbn in Ep. subst p. exists (relative_path e, bytes').
    split; [|done]. specialize (Hb _ _ Hin). destruct e. cbn in *. congruence.
Qed.

(** An inventory lists exactly the files of the archive but the
    control files, each once with the hash of exactly its bytes, in ascending
    order of path, and changes nothing. *)
Theorem local_inventory_exact unreadable is_nfc to_nfc object_hash b b' l :
  inventory unreadable is_nfc to_nfc object_hash b = (b', Ok l) →
  held_files b' = held_files b ∧ StronglySorted (key_lt relative_path) l ∧
  ∀ e, e ∈ l ↔ ∃ bytes, held_files b !! relative_path e = Some bytes
    ∧ (relative_path e ∉ CONTROL_FILES_V1) ∧ content_hash e = object_hash bytes.
Proof. apply inventory_run. Qed.

Lemma local_inventory_exact_witness :
  let b := sample_backend occupied in
  ∃ l, (inventory (λ _, false) (λ _, true) id (λ bytes, bytes) b).2 = Ok l
    ∧ {| relative_path := as_str (entry_at "e.eip"); content_hash := [x07] |} ∈ l.
Proof.
  intros b. destruct (inventory (λ _, false) (λ _, true) id (λ bytes, bytes) b) as [b' [l|e]] eqn:E.
  2: { pose proof (f_equal snd E) as Er. vm_compute in Er. discriminate Er. }
  exists l. split; [done|].
  apply (local_inventory_exact (λ _, false) (λ _, true) id (λ bytes, bytes) b b' l E).
  exists [x07]. split_and!; [reflexivity| |reflexivity]. by vm_compute; intros [?|[?|?%elem_of_nil]%elem_of_cons]%elem_of_cons.
Defined.
