(* ===== verification/ProfileMigration.v ===== *)
(** * ProfileMigration: the audited change of the archive profile
    ([ea-archive-fs], [profile_migration.rs])

    The six steps of a change over the local backends of [LocalPath], the
    publication queues of [PublicationQueue] and the presence proof of
    [OperatorSession], with the fault points between the steps and the
    roll-back of a pointer that was already swapped. The verifier, the trust
    anchor and the hashes are parameters, the audit service is a class. *)

From S2P Require Import Prelude Types Utf8 Cbor Str ArchivePath Transaction PublicationQueue Profile LocalPath OperatorSession.

(** ** Fault points and state *)

Inductive MigrationFaultPoint :=
| BeforeFinalizationLock | AfterFinalizationLock | BeforeInventory | AfterInventory
| BeforeStagingCopy | AfterStagingCopy | BeforeTargetVerification | AfterTargetVerification
| BeforeDirectoryFlush | AfterDirectoryFlush | BeforePointerSwap | AfterPointerSwap
| BeforeAuditFlush | AfterAuditFlush.

#[export] Instance MigrationFaultPoint_eq_dec : EqDecision MigrationFaultPoint.
Proof. solve_decision. Defined.

Definition fault_name (p : MigrationFaultPoint) : string :=
  match p with
  | BeforeFinalizationLock => "before-finalization-lock"
  | AfterFinalizationLock => "after-finalization-lock"
  | BeforeInventory => "before-inventory"
  | AfterInventory => "after-inventory"
  | BeforeStagingCopy => "before-staging-copy"
  | AfterStagingCopy => "after-staging-copy"
  | BeforeTargetVerification => "before-target-verification"
  | AfterTargetVerification => "after-target-verification"
  | BeforeDirectoryFlush => "before-directory-flush"
  | AfterDirectoryFlush => "after-directory-flush"
  | BeforePointerSwap => "before-pointer-swap"
  | AfterPointerSwap => "after-pointer-swap"
  | BeforeAuditFlush => "before-audit-flush"
  | AfterAuditFlush => "after-audit-flush"
  end.

Record MigratorState := {
  ms_active_profile_hash : Hash32;
  ms_generation : Z;
  ms_finalization_locked : bool;
  ms_staged_objects : Z;
  ms_fault : option MigrationFaultPoint;
}.

Record MigrationResultV1 := {
  mr_audit_event_id : Id16;
  mr_source_inventory_hash : Hash32;
  mr_target_inventory_hash : Hash32;
  mr_active_pointer_hash : Hash32;
  mr_active_pointer_generation : Z;
  mr_source_remains_readable : bool;
}.

(** ** The audit port ([ea-audit], [event.rs]) *)

Record ArchiveProfileMigrationContextV1 := {
  ctx_source_profile_hash : Hash32;
  ctx_target_profile_hash : Hash32;
  ctx_inventory_hash : Hash32;
  ctx_active_pointer_hash : Hash32;
}.

Inductive LocalAuditOutcomeV1 := AuditOutcomeFailed | AuditOutcomeAccepted | AuditOutcomeCompleted.

(** Signs and stores a migration row; the row's identifier if it was stored. *)
Class LocalAuditService (Aud : Type) := {
  record_signed : OperatorSessionProof → ArchiveProfileMigrationContextV1 → LocalAuditOutcomeV1 →
    Aud → Aud * option Id16;
}.

(** ** The migrator *)

Record Migrator (T Aud : Type) := {
  source : LocalPathBackend;
  pending_queues : list (PublicationQueue T);
  target_backend : LocalPathBackend;
  policy : BoundArchiveProfilePolicyV1;
  audit : Aud;
  anchor_bytes : list byte;
  effective_now : PreexistingEffectiveNow;
  carried_proof : OperatorSessionProof;
  state : MigratorState;
}.
Arguments source {T Aud}.
Arguments pending_queues {T Aud}.
Arguments target_backend {T Aud}.
Arguments policy {T Aud}.
Arguments audit {T Aud}.
Arguments anchor_bytes {T Aud}.
Arguments effective_now {T Aud}.
Arguments carried_proof {T Aud}.
Arguments state {T Aud}.

Section Migration.
Context {T Aud Anchor : Type} `{PublicationTargetV1 T} `{LocalAuditService Aud}.
Context (unreadable : str → bool).
Context (is_nfc : str → bool) (to_nfc : str → str) (object_hash : list byte → ObjectHash).
Context (profile_digest inventory_digest pointer_digest : list byte → Hash32).
Context (decode_trust_anchor : list byte → option Anchor).
(** The report hash of the offline verification of an archive's blobs. *)
Context (verify_archive : list (str * list byte) → Anchor → UnixMillis → option Hash32).
(** What the publications the queues deliver leave in the source archive. *)
Context (delivered : list (PublicationQueue T) → file_map → file_map).

Abbreviation M := (Migrator T Aud).

(** A step of the migration. *)
Definition mig (A : Type) : Type := M → M * result ArchiveBackendError A.

#[export] Instance mig_ret : MRet mig := λ A a m, (m, Ok a).
#[export] Instance mig_bind : MBind mig := λ A B k x m,
  match x m with
  | (m, Ok a) => k a m
  | (m, Err e) => (m, Err e)
  end.

Definition set_source (m : M) (b : LocalPathBackend) : M :=
  {| source := b; pending_queues := pending_queues m; target_backend := target_backend m; policy := policy m;
     audit := audit m; anchor_bytes := anchor_bytes m; effective_now := effective_now m;
     carried_proof := carried_proof m; state := state m |}.
Definition set_queues (m : M) (q : list (PublicationQueue T)) : M :=
  {| source := source m; pending_queues := q; target_backend := target_backend m; policy := policy m;
     audit := audit m; anchor_bytes := anchor_bytes m; effective_now := effective_now m;
     carried_proof := carried_proof m; state := state m |}.
Definition set_target_backend (m : M) (b : LocalPathBackend) : M :=
  {| source := source m; pending_queues := pending_queues m; target_backend := b; policy := policy m;
     audit := audit m; anchor_bytes := anchor_bytes m; effective_now := effective_now m;
     carried_proof := carried_proof m; state := state m |}.
Definition set_audit (m : M) (a : Aud) : M :=
  {| source := source m; pending_queues := pending_queues m; target_backend := target_backend m; policy := policy m;
     audit := a; anchor_bytes := anchor_bytes m; effective_now := effective_now m;
     carried_proof := carried_proof m; state := state m |}.
Definition set_state (m : M) (s : MigratorState) : M :=
  {| source := source m; pending_queues := pending_queues m; target_backend := target_backend m; policy := policy m;
     audit := audit m; anchor_bytes := anchor_bytes m; effective_now := effective_now m;
     carried_proof := carried_proof m; state := s |}.

Definition set_finalization_locked (b : bool) (s : MigratorState) : MigratorState :=
  {| ms_active_profile_hash := ms_active_profile_hash s; ms_generation := ms_generation s;
     ms_finalization_locked := b; ms_staged_objects := ms_staged_objects s; ms_fault := ms_fault s |}.
Definition set_active (h : Hash32) (g : Z) (s : MigratorState) : MigratorState :=
  {| ms_active_profile_hash := h; ms_generation := g; ms_finalization_locked := ms_finalization_locked s;
     ms_staged_objects := ms_staged_objects s; ms_fault := ms_fault s |}.
Definition one_more_staged (s : MigratorState) : MigratorState :=
  {| ms_active_profile_hash := ms_active_profile_hash s; ms_generation := ms_generation s;
     ms_finalization_locked := ms_finalization_locked s; ms_staged_objects := ms_staged_objects s + 1;
     ms_fault := ms_fault s |}.

Definition m_raise {A} (e : ArchiveBackendError) : mig A := λ m, (m, Err e).
Definition m_lift {A} (r : result ArchiveBackendError A) : mig A := λ m, (m, r).
Definition m_gets {A} (f : M → A) : mig A := λ m, (m, Ok (f m)).
Definition m_modify (f : MigratorState → MigratorState) : mig unit := λ m, (set_state m (f (state m)), Ok tt).
Definition on_source {A} (a : act A) : mig A := λ m,
  let '(b, r) := a (source m) in (set_source m b, r).
Definition on_target {A} (a : act A) : mig A := λ m,
  let '(b, r) := a (target_backend m) in (set_target_backend m b, r).

(** [map_err(|_| e)]. *)
Definition or_fail {A} (e : ArchiveBackendError) (x : mig A) : mig A := λ m,
  match x m with (m, Ok a) => (m, Ok a) | (m, Err _) => (m, Err e) end.

(** [for x in l { f(x)?; }]. *)
Fixpoint m_for_each {A} (f : A → mig unit) (l : list A) : mig unit :=
  match l with
  | [] => mret tt
  | x :: l => _ ← f x; m_for_each f l
  end.

Definition fault_at (point : MigrationFaultPoint) : mig unit := λ m,
  if bool_decide (ms_fault (state m) = Some point) then (m, Err MigrationFault) else (m, Ok tt).

(** Resumes the queues in order until one has something outstanding. *)
Fixpoint resume_all (queues : list (PublicationQueue T)) : list (PublicationQueue T) * result ArchiveBackendError unit :=
  match queues with
  | [] => ([], Ok tt)
  | q :: queues =>
      let '(q, r) := resume q in
      match r with
      | Ok reply =>
          if nothing_outstanding (outcome reply)
          then let '(queues, r) := resume_all queues in (q :: queues, r)
          else (q :: queues, Err PendingPublication)
      | Err _ => (q :: queues, Err PendingPublication)
      end
  end.

Definition finish_pending : mig unit := λ m,
  let '(queues, r) := resume_all (pending_queues m) in
  let b := source m in
  (set_source (set_queues m queues) (set_disk b (set_files (disk b) (delivered queues (held_files b)))), r).

(** The bytes of an inventory and their digest. *)
Definition inventory_hash (l : list ArchiveInventoryEntryV1) : result ArchiveBackendError Hash32 :=
  bytes ← format_err (encode_archive_inventory_list l); Ok (inventory_digest bytes).

Abbreviation inventory_of := (inventory unreadable is_nfc to_nfc object_hash).

(** One object of the staging copy. *)
Definition copy_entry (entry : ArchiveInventoryEntryV1) : mig unit :=
  found ← m_gets (λ m, read_relative unreadable (relative_path entry) (source m));
  bytes ← m_lift (ok_or Io found);
  address ← m_lift (archive_path_of (relative_path entry));
  _ ← on_target (create_bytes_if_absent unreadable address bytes);
  m_modify one_more_staged.

Definition flush_entry (entry : ArchiveInventoryEntryV1) : mig unit :=
  address ← m_lift (archive_path_of (relative_path entry));
  _ ← on_target (local_sync_file address);
  on_target (local_sync_directory address).

(** Step four: both archives verified offline, with equal reports. *)
Definition verify_target : mig unit :=
  bytes ← m_gets anchor_bytes;
  anchor ← m_lift (ok_or VerificationFailed (decode_trust_anchor bytes));
  now ← m_gets (λ m, now_value (effective_now m));
  blobs ← or_fail VerificationFailed (on_source (visit_blobs unreadable));
  source_report ← m_lift (ok_or VerificationFailed (verify_archive blobs anchor now));
  blobs ← or_fail VerificationFailed (on_target (visit_blobs unreadable));
  target_report ← m_lift (ok_or VerificationFailed (verify_archive blobs anchor now));
  if bool_decide (source_report ≠ target_report) then m_raise InventoryMismatch else mret tt.

Definition record_migration (proof : OperatorSessionProof) (context : ArchiveProfileMigrationContextV1)
    (outcome : LocalAuditOutcomeV1) : mig Id16 := λ m,
  let '(a, r) := record_signed proof context outcome (audit m) in
  (set_audit m a, ok_or AuditFailed r).

Definition audit_after_swap (proof : OperatorSessionProof) (context : ArchiveProfileMigrationContextV1)
    : mig Id16 :=
  _ ← fault_at AfterPointerSwap;
  _ ← fault_at BeforeAuditFlush;
  id ← record_migration proof context AuditOutcomeCompleted;
  _ ← fault_at AfterAuditFlush;
  mret id.

Definition roll_back_pointer (proof : OperatorSessionProof) (source_profile_hash target_profile_hash
    inventory_hash : Hash32) (swapped_generation : Z) : M → M := λ m,
  match checked_add u64_max swapped_generation 1 with
  | None => m
  | Some generation =>
      let pointer := {| active_profile_hash := source_profile_hash; generation := generation |} in
      match on_target (write_active_profile_pointer pointer) m with
      | (m, Err _) => m
      | (m, Ok _) =>
          let m := set_state m (set_active source_profile_hash generation (state m)) in
          let bytes := encode_active_profile_pointer_core pointer in
          (record_migration proof
             {| ctx_source_profile_hash := source_profile_hash; ctx_target_profile_hash := target_profile_hash;
                ctx_inventory_hash := inventory_hash; ctx_active_pointer_hash := pointer_digest bytes |}
             AuditOutcomeFailed m).1
      end
  end.

(** Whether the source still has the inventory taken before. *)
Definition source_remains_readable (source_inventory_hash : Hash32) : mig bool := λ m,
  match on_source inventory_of m with
  | (m, Ok l) =>
      (m, Ok match inventory_hash l with
             | Ok h => bool_decide (h = source_inventory_hash)
             | Err _ => false
             end)
  | (m, Err _) => (m, Ok false)
  end.

(** Steps two to five a: what precedes the swap. *)
Definition prepare_target : mig (Hash32 * Hash32) :=
  _ ← fault_at BeforeInventory;
  _ ← finish_pending;
  source_inventory ← on_source inventory_of;
  source_inventory_hash ← m_lift (inventory_hash source_inventory);
  _ ← fault_at AfterInventory;
  _ ← fault_at BeforeStagingCopy;
  _ ← m_for_each copy_entry source_inventory;
  _ ← fault_at AfterStagingCopy;
  _ ← fault_at BeforeTargetVerification;
  _ ← verify_target;
  target_inventory ← on_target inventory_of;
  target_inventory_hash ← m_lift (inventory_hash target_inventory);
  if bool_decide (source_inventory_hash ≠ target_inventory_hash) then m_raise InventoryMismatch else
  _ ← fault_at AfterTargetVerification;
  _ ← fault_at BeforeDirectoryFlush;
  _ ← m_for_each flush_entry target_inventory;
  _ ← fault_at AfterDirectoryFlush;
  mret (source_inventory_hash, target_inventory_hash).

(** Step six: the audit row of the swap, or the roll-back. *)
Definition audit_or_roll_back (proof : OperatorSessionProof) (source_profile_hash target_profile_hash
    source_inventory_hash target_inventory_hash active_pointer_hash : Hash32) (generation : Z)
    : mig MigrationResultV1 := λ m,
  let context := {| ctx_source_profile_hash := source_profile_hash; ctx_target_profile_hash := target_profile_hash;
                    ctx_inventory_hash := target_inventory_hash; ctx_active_pointer_hash := active_pointer_hash |} in
  match audit_after_swap proof context m with
  | (m, Ok id) =>
      (readable ← source_remains_readable source_inventory_hash;
       mret {| mr_audit_event_id := id; mr_source_inventory_hash := source_inventory_hash;
               mr_target_inventory_hash := target_inventory_hash;
               mr_active_pointer_hash := active_pointer_hash;
               mr_active_pointer_generation := generation;
               mr_source_remains_readable := readable |}) m
  | (m, Err error) =>
      (roll_back_pointer proof source_profile_hash target_profile_hash target_inventory_hash generation m,
       Err error)
  end.

(** Steps five b and six. *)
Definition swap_and_audit (proof : OperatorSessionProof) (source_profile_hash target_profile_hash
    source_inventory_hash target_inventory_hash : Hash32) : mig MigrationResultV1 :=
  old ← m_gets (λ m, ms_generation (state m));
  generation ← m_lift (ok_or MigrationFault (checked_add u64_max old 1));
  let pointer := {| active_profile_hash := target_profile_hash; generation := generation |} in
  let active_pointer_hash := pointer_digest (encode_active_profile_pointer_core pointer) in
  _ ← fault_at BeforePointerSwap;
  _ ← on_target (write_active_profile_pointer pointer);
  _ ← m_modify (set_active target_profile_hash generation);
  audit_or_roll_back proof source_profile_hash target_profile_hash source_inventory_hash
    target_inventory_hash active_pointer_hash generation.

Definition migrate_under_lock (proof : OperatorSessionProof) (source_profile_hash target_profile_hash : Hash32)
    : mig MigrationResultV1 :=
  '(source_inventory_hash, target_inventory_hash) ← prepare_target;
  swap_and_audit proof source_profile_hash target_profile_hash source_inventory_hash target_inventory_hash.

(** [drop(writer_lock)]. *)
Definition drop_lock : M → M := λ m, set_source m (release_writer_lock (source m)).

(** What runs while the writer lock of the source is held; the guard is dropped
    on every way out. *)
Definition under_lock {A} (x : mig A) : mig A := λ m,
  let '(m, r) := x m in (drop_lock m, r).

Definition attempt (proof : OperatorSessionProof) : mig MigrationResultV1 :=
  now ← m_gets effective_now;
  if negb (is_valid_for proof ArchiveProfileMigration now) then m_raise ReauthMismatch else
  source_profile ← m_gets (λ m, profile (source m));
  source_profile_hash ← m_lift (profile_hash profile_digest source_profile);
  target_profile ← m_gets (λ m, profile (target_backend m));
  target_profile_hash ← m_lift (profile_hash profile_digest target_profile);
  allowed ← m_gets policy;
  _ ← m_lift (require allowed target_profile_hash);
  _ ← fault_at BeforeFinalizationLock;
  _ ← on_source acquire_writer_lock;
  under_lock (
    _ ← m_modify (set_finalization_locked true);
    _ ← fault_at AfterFinalizationLock;
    migrate_under_lock proof source_profile_hash target_profile_hash).

Definition execute (proof : OperatorSessionProof) : mig MigrationResultV1 := λ m,
  let '(m, r) := attempt proof m in
  (set_state m (set_finalization_locked false (state m)), r).

Definition run : mig MigrationResultV1 := λ m, execute (carried_proof m) m.
Definition run_with (proof : OperatorSessionProof) : mig MigrationResultV1 := execute proof.
End Migration.

(** [ProfileMigrator::new]. *)
Definition ProfileMigrator_new {T Aud} (profile_digest : list byte → Hash32) (s : LocalPathBackend)
    (queues : list (PublicationQueue T)) (t : LocalPathBackend) (p : BoundArchiveProfilePolicyV1) (a : Aud)
    (anchor : list byte) (now : PreexistingEffectiveNow) (proof : OperatorSessionProof)
    : result ArchiveBackendError (Migrator T Aud) :=
  h ← profile_hash profile_digest (profile s);
  Ok {| source := s; pending_queues := queues; target_backend := t; policy := p; audit := a;
        anchor_bytes := anchor; effective_now := now; carried_proof := proof;
        state := {| ms_active_profile_hash := h; ms_generation := 0; ms_finalization_locked := false;
                    ms_staged_objects := 0; ms_fault := None |} |}.

Definition with_fault {T Aud} (point : MigrationFaultPoint) (m : Migrator T Aud) : Migrator T Aud :=
  set_state m {| ms_active_profile_hash := ms_active_profile_hash (state m);
                 ms_generation := ms_generation (state m);
                 ms_finalization_locked := ms_finalization_locked (state m);
                 ms_staged_objects := ms_staged_objects (state m); ms_fault := Some point |}.

(** ** What a step leaves *)

(** Relations of the source's files, the target's files and the state. *)
Definition moves {T Aud} (RS RT : relation file_map) (RZ : relation MigratorState) : relation (Migrator T Aud) :=
  λ m m', RS (held_files (source m)) (held_files (source m'))
    ∧ RT (held_files (target_backend m)) (held_files (target_backend m')) ∧ RZ (state m) (state m').

#[export] Instance moves_refl {T Aud} RS RT RZ `{!Reflexive RS, !Reflexive RT, !Reflexive RZ} :
  Reflexive (@moves T Aud RS RT RZ).
Proof. by intros m. Qed.
#[export] Instance moves_trans {T Aud} RS RT RZ `{!Transitive RS, !Transitive RT, !Transitive RZ} :
  Transitive (@moves T Aud RS RT RZ).
Proof. intros m1 m2 m3 (? & ? & ?) (? & ? & ?). split_and!; by etransitivity. Qed.

(** No requirement. *)
Definition any {A} : relation A := λ _ _, True.
#[export] Instance any_refl {A} : Reflexive (@any A).
Proof. done. Qed.
#[export] Instance any_trans {A} : Transitive (@any A).
Proof. done. Qed.

Definition mleaves {T Aud A} (R : relation (Migrator T Aud)) (x : mig A) : Prop :=
  ∀ m m' r, x m = (m', r) → R m m'.

Lemma mig_bind_run {T Aud A B} (x : mig A) (k : A → mig B) (m m' : Migrator T Aud) r :
  (x ≫= k) m = (m', r) →
  (∃ m1 a, x m = (m1, Ok a) ∧ k a m1 = (m', r)) ∨ (∃ e, x m = (m', Err e) ∧ r = Err e).
Proof.
  unfold mbind, mig_bind. destruct (x m) as [m1 [a|e]].
  - intros H. left. by exists m1, a.
  - intros [= <- <-]. right. by exists e.
Qed.

(** Splits a run at its first step. *)
Ltac mrun H :=
  let Hr := fresh in
  apply mig_bind_run in H as [(? & ? & ? & H)|(? & H & Hr)]; [|first [discriminate Hr|subst]].

Section Leaves.
Context {T Aud : Type}.

Section Relation.
Context (R : relation (Migrator T Aud)) `{!Reflexive R, !Transitive R}.

Lemma mleaves_bind {A B} (x : mig A) (k : A → mig B) :
  mleaves R x → (∀ a, mleaves R (k a)) → mleaves R (x ≫= k).
Proof.
  intros Hm Hk m m' r H. mrun H; [|by apply (Hm _ _ _ H)].
  etransitivity; [by eapply Hm|by eapply Hk].
Qed.
Lemma mleaves_ret {A} (a : A) : mleaves R (mret a).
Proof. by intros m m' r [= <- _]. Qed.
Lemma mleaves_raise {A} e : mleaves R (m_raise e : mig A).
Proof. by intros m m' r [= <- _]. Qed.
Lemma mleaves_lift {A} (x : result ArchiveBackendError A) : mleaves R (m_lift x).
Proof. by intros m m' r [= <- _]. Qed.
Lemma mleaves_gets {A} (f : Migrator T Aud → A) : mleaves R (m_gets f).
Proof. by intros m m' r [= <- _]. Qed.
Lemma mleaves_fault_at point : mleaves R (fault_at point).
Proof. unfold fault_at. intros m m' r. by case_bool_decide; intros [= <- _]. Qed.
Lemma mleaves_or_fail {A} e (x : mig A) : mleaves R x → mleaves R (or_fail e x).
Proof.
  intros Hx m m' r. unfold or_fail. destruct (x m) as [m1 [a|e1]] eqn:E; intros [= <- _]; by eapply Hx.
Qed.
Lemma mleaves_for_each {A} (f : A → mig unit) l :
  (∀ a, mleaves R (f a)) → mleaves R (m_for_each f l).
Proof.
  intros Hf. induction l as [|a l IH]; cbn; [apply mleaves_ret|]. by apply mleaves_bind.
Qed.
End Relation.

Context (RS RT : relation file_map) (RZ : relation MigratorState).
Context `{!Reflexive RS, !Reflexive RT, !Reflexive RZ, !Transitive RS, !Transitive RT, !Transitive RZ}.

Lemma mleaves_on_source {A} (a : act A) : leaves RS a → mleaves (@moves T Aud RS RT RZ) (on_source a).
Proof.
  intros Ha m m' r. unfold on_source. destruct (a (source m)) as [b r1] eqn:E. intros [= <- _].
  by split_and!; [eapply Ha|..].
Qed.
Lemma mleaves_on_target {A} (a : act A) : leaves RT a → mleaves (@moves T Aud RS RT RZ) (on_target a).
Proof.
  intros Ha m m' r. unfold on_target. destruct (a (target_backend m)) as [b r1] eqn:E. intros [= <- _].
  by split_and!; [|eapply Ha|].
Qed.
Lemma mleaves_modify f : (∀ s, RZ s (f s)) → mleaves (@moves T Aud RS RT RZ) (m_modify f).
Proof. intros Hf m m' r [= <- _]. by split_and!. Qed.
End Leaves.

Create HintDb mig.
#[export] Hint Resolve mleaves_ret mleaves_raise mleaves_lift mleaves_gets mleaves_fault_at mleaves_or_fail
  mleaves_for_each mleaves_on_source mleaves_on_target mleaves_modify : mig.

#[export] Hint Extern 0 (Reflexive _) => typeclasses eauto : mig keeps.
#[export] Hint Extern 0 (Transitive _) => typeclasses eauto : mig keeps.

Ltac solve_mleaves :=
  repeat match goal with
  | |- mleaves _ (mbind _ _) => apply mleaves_bind; [apply _| |intros ?]
  | |- mleaves _ (match ?c with _ => _ end) => destruct c
  | |- mleaves _ (m_for_each _ _) => apply mleaves_for_each; [apply _..|intros ?]
  | |- mleaves _ (or_fail _ _) => apply mleaves_or_fail
  | |- mleaves _ _ => solve [auto with mig keeps]
  end.

(** ** The steps before the swap *)

Lemma leaves_of_keeps R `{!Reflexive R} {A} (a : act A) : keeps a → leaves R a.
Proof. intros Ha b b' r H. by rewrite (Ha b b' r H). Qed.

Lemma keeps_walk : keeps walk.
Proof.
  unfold walk. apply leaves_bind; [apply _| |intros ?; solve_leaves].
  apply keeps_os_quiet. by intros d d' [_ <-]%unless_Some.
Qed.
Lemma keeps_read_blobs unreadable paths : keeps (read_blobs unreadable paths).
Proof. by intros b b' r [= <- _]. Qed.
#[export] Hint Resolve keeps_walk keeps_read_blobs : keeps.

Lemma leaves_inventory R `{!Reflexive R} unreadable is_nfc to_nfc object_hash :
  leaves R (inventory unreadable is_nfc to_nfc object_hash).
Proof. apply leaves_of_keeps; [apply _|]. unfold inventory. solve_leaves. Qed.
Lemma leaves_visit_blobs R `{!Reflexive R} unreadable : leaves R (visit_blobs unreadable).
Proof. apply leaves_of_keeps; [apply _|]. unfold visit_blobs. solve_leaves. Qed.
Lemma leaves_sync_file R `{!Reflexive R} p : leaves R (local_sync_file p).
Proof. apply leaves_of_keeps; [apply _|]. apply keeps_sync_all. Qed.
Lemma leaves_sync_directory R `{!Reflexive R} p : leaves R (local_sync_directory p).
Proof. apply leaves_of_keeps; [apply _|]. apply keeps_sync_directory_at. Qed.
#[export] Hint Resolve leaves_inventory leaves_visit_blobs leaves_sync_file leaves_sync_directory : keeps.

(** An archive address is neither the profile pointer nor its staging file. *)
Lemma address_not_pointer s p :
  archive_path_of s = Ok p → as_str p = s ∧ s ≠ CONTROL_POINTER ∧ s ≠ POINTER_STAGING.
Proof.
  intros H. split; [by apply archive_path_of_spec|]. split; intros ->; vm_compute in H; discriminate H.
Qed.

(** Files that exist stay, the profile pointer stays. *)
Definition only_new : relation file_map :=
  λ f g, (∀ q, is_Some (f !! q) → g !! q = f !! q) ∧ g !! CONTROL_POINTER = f !! CONTROL_POINTER.
#[export] Instance only_new_refl : Reflexive only_new.
Proof. by intros f. Qed.
#[export] Instance only_new_trans : Transitive only_new.
Proof.
  intros f g h [H1 P1] [H2 P2]. split; [|congruence]. intros q Hq. rewrite <- (H1 q Hq). apply H2. by rewrite H1.
Qed.

Lemma create_only_new unreadable p bytes :
  as_str p ≠ CONTROL_POINTER → leaves only_new (create_bytes_if_absent unreadable p bytes).
Proof.
  intros Hp b b' r [[E _]|(Hn & w & _ & E & _)]%create_bytes_run; rewrite E; [done|].
  split; [|by rewrite lookup_insert_ne]. intros q [x Hq]. apply lookup_insert_ne. congruence.
Qed.

(** The active profile and the generation the migrator reports. *)
Definition same_active : relation MigratorState :=
  λ s s', ms_active_profile_hash s' = ms_active_profile_hash s ∧ ms_generation s' = ms_generation s
    ∧ ms_fault s' = ms_fault s.
#[export] Instance same_active_refl : Reflexive same_active.
Proof. done. Qed.
#[export] Instance same_active_trans : Transitive same_active.
Proof. intros s1 s2 s3 (? & ? & ?) (? & ? & ?). split_and!; congruence. Qed.

Lemma mleaves_lift_bind {T Aud A B} (R : relation (Migrator T Aud)) `{!Reflexive R, !Transitive R}
    (res : result ArchiveBackendError A) (k : A → mig B) :
  (∀ a, res = Ok a → mleaves R (k a)) → mleaves R (m_lift res ≫= k).
Proof.
  intros Hk m m' r. unfold mbind, mig_bind, m_lift. destruct res as [a|e]; [by eapply Hk|]. by intros [= <- _].
Qed.

Section Steps.
Context {T Aud Anchor : Type} `{PublicationTargetV1 T} `{LocalAuditService Aud}.
Context (unreadable : str → bool).
Context (is_nfc : str → bool) (to_nfc : str → str) (object_hash : list byte → ObjectHash).
Context (profile_digest inventory_digest pointer_digest : list byte → Hash32).
Context (decode_trust_anchor : list byte → option Anchor).
Context (verify_archive : list (str * list byte) → Anchor → UnixMillis → option Hash32).
Context (delivered : list (PublicationQueue T) → file_map → file_map).

Abbreviation calm := (@moves T Aud eq only_new same_active).

Lemma copy_entry_calm e : mleaves calm (copy_entry unreadable e).
Proof.
  unfold copy_entry. apply mleaves_bind; [apply _|solve_mleaves|intros found].
  apply mleaves_bind; [apply _|solve_mleaves|intros bytes]. apply mleaves_lift_bind; [apply _..|].
  intros p (Hp & Hn & _)%address_not_pointer. apply mleaves_bind; [apply _| |intros ?].
  - apply mleaves_on_target; try apply _. apply create_only_new. congruence.
  - by apply mleaves_modify.
Qed.

Lemma flush_entry_calm RS RT RZ `{!Reflexive RS, !Reflexive RT, !Reflexive RZ, !Transitive RS, !Transitive RT, !Transitive RZ} e :
  mleaves (@moves T Aud RS RT RZ) (flush_entry e).
Proof. unfold flush_entry. solve_mleaves. Qed.

Lemma verify_target_calm RS RT RZ `{!Reflexive RS, !Reflexive RT, !Reflexive RZ, !Transitive RS, !Transitive RT, !Transitive RZ} :
  mleaves (@moves T Aud RS RT RZ) (verify_target unreadable decode_trust_anchor verify_archive).
Proof. unfold verify_target. solve_mleaves. Qed.

(** A successful resumption leaves nothing outstanding. *)
Lemma resume_all_Ok queues queues' :
  resume_all queues = (queues', Ok tt) → Forall (λ q, pending q = None) queues'.
Proof.
  revert queues'. induction queues as [|q queues IH]; intros queues' E; cbn in E; [by injection E as <-|].
  destruct (resume q) as [q1 r] eqn:Eq. apply resume_cases in Eq as [_ Hq].
  destruct r as [reply|e]; [|done]. destruct (nothing_outstanding (outcome reply)) eqn:Ho; [|done].
  destruct (resume_all queues) as [qs r] eqn:Es. injection E as <- ->. constructor; [|by apply IH].
  destruct (pending q) as [plan|] eqn:Ep; [|by destruct Hq as [-> _]].
  destruct Hq as [[? _]|[_ [(sent & _ & [= ->])|(e & ? & _)]]]; done.
Qed.

Abbreviation finish := (finish_pending (T := T) (Aud := Aud) delivered).
Abbreviation preparing :=
  (prepare_target (T := T) (Aud := Aud) unreadable is_nfc to_nfc object_hash inventory_digest decode_trust_anchor
     verify_archive delivered).

Lemma finish_pending_run m m' r :
  finish m = (m', r) →
  held_files (source m') = delivered (pending_queues m') (held_files (source m))
  ∧ target_backend m' = target_backend m ∧ state m' = state m
  ∧ (r = Ok tt → Forall (λ q, pending q = None) (pending_queues m')).
Proof.
  unfold finish_pending. destruct (resume_all (pending_queues m)) as [queues r1] eqn:E. intros [= <- <-].
  split_and!; [done..|]. intros ->. by apply resume_all_Ok in E.
Qed.

Lemma finish_pending_calm : mleaves (moves any only_new same_active) finish.
Proof. intros m m' r (_ & Ht & Hs & _)%finish_pending_run. unfold moves. rewrite Ht, Hs. done. Qed.

Lemma moves_weaken (RS RS' RT RT' : relation file_map) (RZ RZ' : relation MigratorState) {A}
    (x : mig (T := T) (Aud := Aud) A) :
  (∀ f g, RS f g → RS' f g) → (∀ f g, RT f g → RT' f g) → (∀ s s', RZ s s' → RZ' s s') →
  mleaves (moves RS RT RZ) x → mleaves (moves RS' RT' RZ') x.
Proof. intros H1 H2 H3 Hx m m' r E. destruct (Hx m m' r E) as (? & ? & ?). split_and!; auto. Qed.

Lemma prepare_target_calm : mleaves (moves any only_new same_active) preparing.
Proof.
  assert (∀ e, mleaves (@moves T Aud any only_new same_active) (copy_entry unreadable e)) as Hc.
  { intros e. eapply moves_weaken, copy_entry_calm; done. }
  unfold prepare_target. solve_mleaves; eauto using finish_pending_calm, verify_target_calm, flush_entry_calm with mig.
Qed.

(** What the target's file system has used up of its outcomes. *)
Definition target_spent : relation (Migrator T Aud) :=
  λ m m', spent (disk (target_backend m)) (disk (target_backend m')).
#[local] Instance target_spent_refl : Reflexive target_spent.
Proof. intros m. unfold target_spent. reflexivity. Qed.
#[local] Instance target_spent_trans : Transitive target_spent.
Proof. intros m1 m2 m3 H1 H2. unfold target_spent in *. by etransitivity. Qed.

Lemma target_spent_on_source {A} (a : act A) : mleaves target_spent (on_source a).
Proof. intros m m' r. unfold on_source. destruct (a (source m)). intros [= <- _]. by apply spent_same. Qed.
Lemma target_spent_on_target {A} (a : act A) : turns spent a → mleaves target_spent (on_target a).
Proof.
  intros Ha m m' r. unfold on_target. destruct (a (target_backend m)) as [b r1] eqn:E. intros [= <- _].
  by eapply Ha.
Qed.
Lemma target_spent_modify f : mleaves target_spent (m_modify f).
Proof. intros m m' r [= <- _]. by apply spent_same. Qed.
Lemma target_spent_finish : mleaves target_spent finish.
Proof. intros m m' r (_ & E & _)%finish_pending_run. unfold target_spent. by rewrite E. Qed.
#[local] Hint Resolve target_spent_on_source target_spent_on_target target_spent_modify target_spent_finish : mig.

Lemma spent_visit_blobs : turns spent (visit_blobs unreadable).
Proof. unfold visit_blobs. solve_turns. Qed.
Lemma spent_inventory : turns spent (inventory unreadable is_nfc to_nfc object_hash).
Proof. unfold inventory. solve_turns. Qed.
#[local] Hint Resolve spent_visit_blobs spent_inventory : turns.
#[local] Hint Extern 1 (turns _ _) => solve [auto with turns] : mig.

Lemma prepare_target_spent : mleaves target_spent preparing.
Proof.
  unfold prepare_target, copy_entry, verify_target, flush_entry, local_sync_file, local_sync_directory.
  solve_mleaves.
Qed.

(** ** The swap *)

Definition pointer_file (m : Migrator T Aud) : option (list byte) :=
  held_files (target_backend m) !! CONTROL_POINTER.
Definition pointer_bytes (h : Hash32) (g : Z) : list byte :=
  encode_active_profile_pointer_core {| active_profile_hash := h; generation := g |}.

(** What a migration that failed leaves: the profile that was active, the
    source rolled back to, or, if the roll-back's own write fails, the target.
    Then that write was made on the target as the swap left it, its result is
    what the target holds at the end, and one of its six calls was broken. *)
Inductive left_by_failure (m m' : Migrator T Aud) (sph tph : Hash32) (e : ArchiveBackendError) : Prop :=
| NotSwapped :
    same_active (state m) (state m') →
    (pointer_file m' = pointer_file m
     ∨ (pointer_file m' = Some (pointer_bytes tph (ms_generation (state m) + 1)) ∧ e = FlushFailed)) →
    left_by_failure m m' sph tph e
| RolledBack :
    ms_active_profile_hash (state m') = sph → ms_generation (state m') = ms_generation (state m) + 2 →
    pointer_file m' = Some (pointer_bytes sph (ms_generation (state m) + 2)) →
    left_by_failure m m' sph tph e
| RollBackFailed :
    ms_active_profile_hash (state m') = tph → ms_generation (state m') = ms_generation (state m) + 1 →
    (pointer_file m' = Some (pointer_bytes tph (ms_generation (state m) + 1))
     ∨ pointer_file m' = Some (pointer_bytes sph (ms_generation (state m) + 2))) →
    (u64_max < ms_generation (state m) + 2
     ∨ ∃ b n e', spent (disk (target_backend m)) (disk b)
         ∧ held_files b !! CONTROL_POINTER = Some (pointer_bytes tph (ms_generation (state m) + 1))
         ∧ write_active_profile_pointer
             {| active_profile_hash := sph; generation := ms_generation (state m) + 2 |} b
           = (target_backend m', Err e')
         ∧ Breaks n ∈ take 6 (fs_outcomes (disk b))) →
    left_by_failure m m' sph tph e.

Lemma record_migration_calm proof context outcome :
  mleaves (@moves T Aud eq eq eq) (record_migration proof context outcome).
Proof. intros m m' r. unfold record_migration. destruct (record_signed _ _ _ _). by intros [= <- _]. Qed.

Lemma audit_after_swap_calm proof context :
  mleaves (@moves T Aud eq eq eq) (audit_after_swap proof context).
Proof. unfold audit_after_swap. solve_mleaves. apply record_migration_calm. Qed.

(** The audit does not touch the target. *)
Lemma audit_after_swap_target proof context :
  mleaves (λ m m' : Migrator T Aud, target_backend m' = target_backend m) (audit_after_swap proof context).
Proof.
  unfold audit_after_swap.
  assert (Transitive (λ m m' : Migrator T Aud, target_backend m' = target_backend m)) by (intros ???; congruence).
  assert (Reflexive (λ m m' : Migrator T Aud, target_backend m' = target_backend m)) by done.
  solve_mleaves. intros m m' r. unfold record_migration. destruct (record_signed _ _ _ _). by intros [= <- _].
Qed.

Lemma source_remains_readable_calm h :
  mleaves (@moves T Aud eq eq eq) (source_remains_readable unreadable is_nfc to_nfc object_hash inventory_digest h).
Proof.
  intros m m' r. unfold source_remains_readable.
  destruct (on_source _ m) as [m1 [l|e]] eqn:E; intros [= <- _]; revert E;
    apply mleaves_on_source; auto with keeps.
Qed.

Lemma on_target_pointer pointer m m' r :
  on_target (T := T) (Aud := Aud) (write_active_profile_pointer pointer) m = (m', r) →
  state m' = state m ∧ source m' = source m ∧
  ((pointer_file m' = pointer_file m ∧ r ≠ Ok tt)
   ∨ (pointer_file m' = Some (encode_active_profile_pointer_core pointer) ∧ (r = Ok tt ∨ r = Err FlushFailed)))
  ∧ write_active_profile_pointer pointer (target_backend m) = (target_backend m', r).
Proof.
  unfold on_target. destruct (write_active_profile_pointer _ _) as [b r1] eqn:E. intros [= <- <-].
  split_and!; [done|done| |done]. by apply pointer_write_parts in E as [_ ?].
Qed.

Lemma roll_back_run proof sph tph ih m0 m :
  ms_active_profile_hash (state m) = tph → ms_generation (state m) = ms_generation (state m0) + 1 →
  pointer_file m = Some (pointer_bytes tph (ms_generation (state m0) + 1)) →
  target_spent m0 m → pointer_ready (target_backend m) →
  ∀ e, left_by_failure m0
    (roll_back_pointer pointer_digest proof sph tph ih (ms_generation (state m0) + 1) m) sph tph e.
Proof.
  intros Ha Hg Hp Hu Hr e. unfold roll_back_pointer. destruct (checked_add _ _ _) as [g|] eqn:Ec.
  - apply checked_add_Some in Ec as [-> _]. replace (ms_generation (state m0) + 1 + 1) with (ms_generation (state m0) + 2) by lia.
    destruct (on_target _ m) as [m1 r] eqn:E. apply on_target_pointer in E as (Es & _ & Hf & Hw).
    destruct r as [[]|e1].
    + destruct Hf as [[_ ?]|[Hf _]]; [done|]. apply RolledBack; unfold pointer_file in *;
        (destruct (record_migration _ _ _ _) as [m2 r2] eqn:Er;
         apply record_migration_calm in Er as (_ & E2 & E3)); cbn; rewrite <- ?E3, <- ?E2; done.
    + destruct (ready_write_breaks _ _ _ _ Hr Hw) as [n Hn].
      apply RollBackFailed; [congruence|congruence| |right; by exists (target_backend m), n, e1].
      destruct Hf as [[Hf _]|[Hf _]]; rewrite Hf; [left; done|by right].
  - apply RollBackFailed; [done|done|by left|left].
    unfold checked_add in Ec. case_decide; [done|lia].
Qed.

Abbreviation swapping :=
  (swap_and_audit (T := T) (Aud := Aud) unreadable is_nfc to_nfc object_hash inventory_digest pointer_digest).

(** A migration that succeeded: the target is active on the next generation,
    on disk too, and the row that says so is stored. *)
Record swapped (proof : OperatorSessionProof) (m m' : Migrator T Aud) (sph tph : Hash32) (res : MigrationResultV1)
    : Prop := {
  sw_active : ms_active_profile_hash (state m') = tph;
  sw_generation : ms_generation (state m') = ms_generation (state m) + 1;
  sw_bound : ms_generation (state m) + 1 ≤ u64_max;
  sw_pointer : pointer_file m' = Some (pointer_bytes tph (ms_generation (state m) + 1));
  sw_result_generation : mr_active_pointer_generation res = ms_generation (state m) + 1;
  sw_result_pointer : mr_active_pointer_hash res = pointer_digest (pointer_bytes tph (ms_generation (state m) + 1));
  sw_audit : ∃ a a', record_signed proof
    {| ctx_source_profile_hash := sph; ctx_target_profile_hash := tph;
       ctx_inventory_hash := mr_target_inventory_hash res; ctx_active_pointer_hash := mr_active_pointer_hash res |}
    AuditOutcomeCompleted a = (a', Some (mr_audit_event_id res));
}.

Lemma audit_after_swap_Ok proof context m m' id :
  audit_after_swap (T := T) proof context m = (m', Ok id) →
  ∃ a a', record_signed proof context AuditOutcomeCompleted a = (a', Some id).
Proof.
  unfold audit_after_swap. intros Ha. mrun Ha. mrun Ha. mrun Ha. mrun Ha.
  unfold mret, mig_ret in Ha. injection Ha as _ ->.
  match goal with E : record_migration _ _ _ ?x = _ |- _ => unfold record_migration in E;
    destruct (record_signed proof context AuditOutcomeCompleted (audit x)) as [a o] eqn:Er;
    injection E as _ E; apply ok_or_Ok in E; subst o end. by eauto.
Qed.

Lemma leaves_write_pointer pointer : leaves same_but_pointer (write_active_profile_pointer pointer).
Proof. by intros b b' r [? _]%pointer_write_parts. Qed.

Abbreviation only_pointer := (@moves T Aud eq same_but_pointer any).

Lemma quiet_only_pointer {A} (x : mig A) : mleaves (@moves T Aud eq eq eq) x → mleaves only_pointer x.
Proof. apply moves_weaken; [done| |done]. by intros f ? <-. Qed.

Lemma roll_back_files proof sph tph ih g m :
  only_pointer m (roll_back_pointer pointer_digest proof sph tph ih g m).
Proof.
  unfold roll_back_pointer. destruct (checked_add _ _ _) as [g'|]; [|done].
  destruct (on_target _ m) as [m1 r] eqn:E.
  apply (mleaves_on_target eq same_but_pointer any _ (leaves_write_pointer _)) in E.
  destruct r; [|done]. etransitivity; [exact E|].
  destruct (record_migration _ _ _ _) as [m2 r2] eqn:Er. by apply quiet_only_pointer in Er; [|apply record_migration_calm].
Qed.

Lemma audit_or_roll_back_files proof sph tph sih tih ph g :
  mleaves only_pointer
    (audit_or_roll_back unreadable is_nfc to_nfc object_hash inventory_digest pointer_digest proof sph tph sih tih ph g).
Proof.
  intros m m' r. unfold audit_or_roll_back. cbn zeta.
  destruct (audit_after_swap _ _ m) as [m1 [id|e]] eqn:E;
    apply (quiet_only_pointer _ (audit_after_swap_calm _ _)) in E.
  - intros Hr. etransitivity; [exact E|]. revert Hr. apply mleaves_bind; [apply _| |intros ?; apply mleaves_ret; apply _].
    apply quiet_only_pointer, source_remains_readable_calm.
  - intros [= <- _]. etransitivity; [exact E|apply roll_back_files].
Qed.

Lemma swap_files proof sph tph sih tih : mleaves only_pointer (swapping proof sph tph sih tih).
Proof.
  unfold swap_and_audit. cbn zeta. solve_mleaves.
  - apply mleaves_on_target, leaves_write_pointer; apply _.
  - by apply mleaves_modify.
  - apply audit_or_roll_back_files.
Qed.

Lemma fault_at_same point (m m' : Migrator T Aud) r : fault_at point m = (m', r) → m' = m.
Proof. unfold fault_at. by case_bool_decide; intros [= <-]. Qed.

Lemma swap_state proof sph tph sih tih m m' r :
  swapping proof sph tph sih tih m = (m', r) →
  match r with
  | Err e => left_by_failure m m' sph tph e
  | Ok res => swapped proof m m' sph tph res ∧ mr_source_inventory_hash res = sih
      ∧ mr_target_inventory_hash res = tih
  end.
Proof.
  unfold swap_and_audit. intros Hs. mrun Hs; [|done].
  match goal with E : m_gets _ _ = _ |- _ => injection E as <- <- end. mrun Hs.
  2: { injection Hs as <- _. apply NotSwapped; [done|by left]. }
  match goal with E : m_lift _ _ = _ |- _ => injection E as <- E; apply ok_or_Ok, checked_add_Some in E as [-> Hb] end.
  mrun Hs; [|apply fault_at_same in Hs as ->; apply NotSwapped; [done|by left]].
  match goal with E : fault_at _ _ = _ |- _ => apply fault_at_same in E as -> end.
  mrun Hs.
  2: { apply on_target_pointer in Hs as (Es & _ & [[Hp _]|[Hp [?|[= ->]]]] & _); [|done|];
         (apply NotSwapped; [by rewrite Es|]); [by left|right; split; [exact Hp|done]]. }
  match goal with E : on_target _ _ = (?x, Ok ?u) |- _ => destruct u;
    pose proof (target_spent_on_target _ (spent_write_pointer _) _ _ _ E) as Hu;
    apply on_target_pointer in E as (Es & _ & [[_ ?]|[Hp _]] & Hw%pointer_write_ready); [done|]; rename x into m1 end.
  mrun Hs; [|done]. match goal with E : m_modify _ _ = _ |- _ => injection E as <- _ end.
  unfold audit_or_roll_back in Hs. cbn zeta in Hs.
  destruct (audit_after_swap _ _ _) as [m2 [id|e]] eqn:E;
    pose proof E as (_ & E2 & E3)%audit_after_swap_calm.
  - mrun Hs; [|unfold source_remains_readable in Hs; by repeat case_match].
    match goal with E : source_remains_readable _ _ _ _ _ _ _ = _ |- _ =>
      apply source_remains_readable_calm in E as (_ & E4 & E5) end.
    unfold mret, mig_ret in Hs. injection Hs as <- <-. cbn. split; [|done].
    apply audit_after_swap_Ok in E. split; cbn; try done; unfold pointer_file in *; rewrite <- ?E5, <- ?E3, <- ?E4, <- ?E2; done.
  - injection Hs as <- <-. apply audit_after_swap_target in E. cbn in E.
    apply roll_back_run; unfold target_spent, pointer_file in *; rewrite ?E, <- ?E3, <- ?E2; done.
Qed.

(** ** The whole migration *)

Abbreviation migrating :=
  (migrate_under_lock (T := T) (Aud := Aud) unreadable is_nfc to_nfc object_hash inventory_digest pointer_digest
     decode_trust_anchor verify_archive delivered).
Lemma left_after m m1 m' sph tph e :
  moves any only_new same_active m m1 → target_spent m m1 →
  left_by_failure m1 m' sph tph e → left_by_failure m m' sph tph e.
Proof.
  intros (_ & [_ Hp] & Hs) Hu [Ha Hf|Ha Hg Hf|Ha Hg Hf Hw]; fold (pointer_file m) (pointer_file m1) in *;
    destruct Hs as (E1 & E2 & E3).
  - apply NotSwapped; [by etransitivity; [|exact Ha]|]. by rewrite E2, Hp in Hf.
  - rewrite E2 in *. by apply RolledBack.
  - rewrite E2 in *. apply RollBackFailed; [done..|]. destruct Hw as [Hw|(b & n & e' & Hb & Hw)]; [by left|].
    right. exists b, n, e'. split; [by etransitivity|done].
Qed.

Lemma swapped_after proof m m1 m' sph tph res :
  moves any only_new same_active m m1 → swapped proof m1 m' sph tph res → swapped proof m m' sph tph res.
Proof. intros (_ & _ & (_ & E & _)) [? ? ? ? ? ? ?]. rewrite E in *. by split. Qed.

(** What [attempt] has checked when it takes the lock. *)
Record cleared (proof : OperatorSessionProof) (m : Migrator T Aud) (sph tph : Hash32) : Prop := {
  cl_presence : is_valid_for proof ArchiveProfileMigration (effective_now m) = true;
  cl_source : profile_hash profile_digest (profile (source m)) = Ok sph;
  cl_target : profile_hash profile_digest (profile (target_backend m)) = Ok tph;
  cl_policy : tph ∈ policy m;
  cl_lock : held (source m) = false ∧ locked (source m) = false;
}.

Definition same_but_lock : relation file_map := λ f g, ∀ q, q ≠ CONTROL_LOCK → g !! q = f !! q.

(** A run of [attempt] fails before it changes anything but the lock, or
    continues under the lock. *)
Lemma attempt_run proof m m' r :
  attempt (T := T) unreadable is_nfc to_nfc object_hash profile_digest inventory_digest pointer_digest
    decode_trust_anchor verify_archive delivered proof m = (m', r) →
  (∃ e, r = Err e ∧ state m' = state m ∧ target_backend m' = target_backend m
     ∧ same_but_lock (held_files (source m)) (held_files (source m'))
     ∧ held (source m') = held (source m)) ∨
  (∃ sph tph m1 m2, cleared proof m sph tph
     ∧ state m1 = set_finalization_locked true (state m) ∧ target_backend m1 = target_backend m
     ∧ same_but_lock (held_files (source m)) (held_files (source m1))
     ∧ (_ ← fault_at AfterFinalizationLock; migrating proof sph tph) m1 = (m2, r) ∧ m' = drop_lock m2).
Proof.
  unfold attempt. intros Ha. mrun Ha; [|done].
  match goal with E : m_gets _ _ = _ |- _ => injection E as <- <- end.
  assert (same_but_lock (held_files (source m)) (held_files (source m))) as Hrefl by (by intros ? ?).
  destruct (is_valid_for _ _ _) eqn:Hv; cbn [negb] in Ha; [|injection Ha as <- <-; left; eauto 10].
  mrun Ha; [|done]. match goal with E : m_gets _ _ = _ |- _ => injection E as <- <- end.
  mrun Ha; [|injection Ha as <- _; left; eauto 10].
  match goal with E : m_lift _ _ = (_, Ok ?x) |- _ => rename x into sph; injection E as <- Es end.
  mrun Ha; [|done]. match goal with E : m_gets _ _ = _ |- _ => injection E as <- <- end.
  mrun Ha; [|injection Ha as <- _; left; eauto 10].
  match goal with E : m_lift _ _ = (_, Ok ?x) |- _ => rename x into tph; injection E as <- Et end.
  mrun Ha; [|done]. match goal with E : m_gets _ _ = _ |- _ => injection E as <- <- end.
  mrun Ha; [|injection Ha as <- _; left; eauto 10].
  match goal with E : m_lift _ _ = _ |- _ => injection E as <- Ep end.
  mrun Ha; [|apply fault_at_same in Ha as ->; left; eauto 10].
  match goal with E : fault_at _ _ = _ |- _ => apply fault_at_same in E as -> end.
  mrun Ha.
  - match goal with E : on_source _ _ = _ |- _ => unfold on_source in E;
      destruct (acquire_writer_lock (source m)) as [b1 r1] eqn:El; injection E as <- -> end.
    apply acquire_run in El as [Hf (Hh & Hl & _)]. unfold under_lock in Ha.
    match type of Ha with (let '(_, _) := ?x ?y in _) = _ => destruct (x y) as [m2 r2] eqn:Er end.
    injection Ha as <- <-. right. mrun Er; [|done].
    match goal with E : m_modify _ _ = _ |- _ => injection E as <- _ end.
    eexists sph, tph, _, m2. split_and!; [|..|exact Er|reflexivity]; [|done..].
    split; try done. unfold require, permits in Ep. case_bool_decide; done.
  - unfold on_source in Ha. destruct (acquire_writer_lock (source m)) as [b1 r1] eqn:El. injection Ha as <- ->.
    apply acquire_run in El as [Hf [Hh _]]. left. eauto 10.
Qed.

Lemma migrate_run proof sph tph m m' r :
  (_ ← fault_at AfterFinalizationLock; migrating proof sph tph) m = (m', r) →
  (∃ e, r = Err e ∧ m' = m) ∨ (∃ e, r = Err e ∧ preparing m = (m', Err e)) ∨
  (∃ m1 sih tih, preparing m = (m1, Ok (sih, tih)) ∧ swapping proof sph tph sih tih m1 = (m', r)).
Proof.
  intros Hm. mrun Hm; [|apply fault_at_same in Hm as ->; left; eauto].
  match goal with E : fault_at _ _ = _ |- _ => apply fault_at_same in E as -> end.
  unfold migrate_under_lock in Hm. mrun Hm; [|eauto].
  match goal with p : (Hash32 * Hash32)%type |- _ => destruct p as [sih tih] end. right. right. eauto 10.
Qed.

Lemma failure_unlocked m m' sph tph e b :
  left_by_failure m m' sph tph e →
  left_by_failure m (set_state (drop_lock m') (set_finalization_locked b (state m'))) sph tph e.
Proof.
  intros [Ha Hf|Ha Hg Hf|Ha Hg Hf Hw]; [apply NotSwapped|apply RolledBack|apply RollBackFailed]; done.
Qed.

(** C28. Whatever a migration fails at, the finalization lock and the
    writer lock are free again as before, and it leaves the profile that was
    active with its generation and its pointer on disk; or, if it fails after
    the swap, the source profile on the generation after the swapped one. The
    target stays active only if the generation overflows or the write of the
    roll-back pointer was made on the target as the swap left it and broke at
    one of its calls; on a target whose calls all work the roll-back never
    fails. The pointer on disk names a target that is
    not active only if the flush after the swap failed. *)
Theorem migration_failure_contained proof m m' e :
  execute unreadable is_nfc to_nfc object_hash profile_digest inventory_digest pointer_digest
    decode_trust_anchor verify_archive delivered proof m = (m', Err e) →
  ms_finalization_locked (state m') = false ∧ held (source m') = held (source m) ∧
  ((same_active (state m) (state m') ∧ pointer_file m' = pointer_file m)
   ∨ ∃ sph tph, cleared proof m sph tph ∧ left_by_failure m m' sph tph e).
Proof.
  unfold execute. destruct (attempt _ _ _ _ _ _ _ _ _ _ _ _) as [m2 r] eqn:E. intros [= <- ->].
  split; [done|]. apply attempt_run in E as [(e' & _ & Es & Et & _ & Hh)|(sph & tph & m1 & m3 & Ha & Es & Et & _ & Hm & ->)].
  - split; [done|]. left. cbn. rewrite Es. split; [done|]. unfold pointer_file. cbn. by rewrite Et.
  - split; [symmetry; apply Ha|]. right. exists sph, tph. split; [done|].
    change (state (drop_lock m3)) with (state m3). apply failure_unlocked.
    assert (moves any only_new same_active m m1) as H1 by (unfold moves; rewrite Es, Et; done).
    apply (left_after _ m1); [done|unfold target_spent; by rewrite Et|].
    apply migrate_run in Hm as [(e' & _ & ->)|[(e' & _ & Hp)|(mp & sih & tih & Hp & Hs)]].
    + apply NotSwapped; [done|by left].
    + apply prepare_target_calm in Hp as (_ & [_ Hp] & Hst). apply NotSwapped; [done|by left].
    + pose proof (prepare_target_spent _ _ _ Hp). apply prepare_target_calm in Hp.
      apply (left_after _ mp); [done..|]. by apply swap_state in Hs.
Qed.

(** An inventory of files. *)
Definition lists (l : list ArchiveInventoryEntryV1) (f : file_map) : Prop :=
  StronglySorted (key_lt relative_path) l ∧
  ∀ e, e ∈ l ↔ ∃ bytes, f !! relative_path e = Some bytes
    ∧ (relative_path e ∉ CONTROL_FILES_V1) ∧ content_hash e = object_hash bytes.

Lemma on_source_inventory m m' l :
  on_source (T := T) (Aud := Aud) (inventory unreadable is_nfc to_nfc object_hash) m = (m', Ok l) →
  held_files (source m') = held_files (source m) ∧ target_backend m' = target_backend m
  ∧ lists l (held_files (source m)).
Proof.
  unfold on_source. destruct (inventory _ _ _ _ _) as [b r] eqn:E. intros [= <- ->].
  by apply inventory_run in E as (? & ? & ?).
Qed.

Lemma on_target_inventory m m' l :
  on_target (T := T) (Aud := Aud) (inventory unreadable is_nfc to_nfc object_hash) m = (m', Ok l) →
  held_files (target_backend m') = held_files (target_backend m) ∧ source m' = source m
  ∧ lists l (held_files (target_backend m)).
Proof.
  unfold on_target. destruct (inventory _ _ _ _ _) as [b r] eqn:E. intros [= <- ->].
  by apply inventory_run in E as (? & ? & ?).
Qed.

(** An object that was copied. *)
Definition copied (f g : file_map) (e : ArchiveInventoryEntryV1) : Prop :=
  relative_path e ≠ CONTROL_POINTER ∧ relative_path e ≠ POINTER_STAGING ∧
  ∃ bytes, f !! relative_path e = Some bytes ∧ g !! relative_path e = Some bytes.

Lemma copied_kept f g h e : only_new g h → copied f g e → copied f h e.
Proof.
  intros [Hn _] (Hp & Hs & bytes & Hf & Hg). split_and!; [done..|]. exists bytes. split; [done|].
  rewrite Hn; [done|by eexists].
Qed.

Lemma copy_entry_Ok e m m' :
  copy_entry (T := T) (Aud := Aud) unreadable e m = (m', Ok tt) →
  copied (held_files (source m)) (held_files (target_backend m')) e.
Proof.
  unfold copy_entry. intros Hc. mrun Hc. match goal with E : m_gets _ _ = _ |- _ => injection E as <- <- end.
  mrun Hc. match goal with E : m_lift _ _ = _ |- _ => injection E as <- E; apply ok_or_Ok in E; rename E into Er end.
  mrun Hc. match goal with E : m_lift _ _ = _ |- _ =>
    injection E as <- E; apply address_not_pointer in E as (Ea & Hp & Hs) end.
  mrun Hc. match goal with E : on_target _ _ = (_, Ok ?u) |- _ => destruct u; unfold on_target in E;
    destruct (create_bytes_if_absent _ _ _ _) as [b r] eqn:Ec; injection E as <- -> end.
  injection Hc as <-. split_and!; [done..|].
  match goal with E : read_relative _ _ _ = Some ?x |- _ => exists x end. split.
  { unfold read_relative, read_bytes in Er. by destruct (unreadable _). }
  cbn. apply create_bytes_run in Ec as [[Eq Ho]|(_ & w & _ & Eq & Ho)]; rewrite Eq, <- Ea.
  - by apply Ho.
  - rewrite (Ho eq_refl). apply lookup_insert_eq.
Qed.

Lemma copy_all_Ok l m m' :
  m_for_each (T := T) (Aud := Aud) (copy_entry unreadable) l m = (m', Ok tt) →
  ∀ e, e ∈ l → copied (held_files (source m)) (held_files (target_backend m')) e.
Proof.
  revert m. induction l as [|a l IH]; intros m Hc e; [by intros ?%elem_of_nil|]. cbn in Hc. mrun Hc.
  match goal with E : copy_entry _ _ _ = (?x, Ok ?u) |- _ => destruct u; rename E into Ea; rename x into m1 end.
  pose proof (copy_entry_calm a _ _ _ Ea) as (Es & _ & _).
  intros [->|He]%elem_of_cons; [|rewrite Es; by eapply IH].
  apply copy_entry_Ok in Ea. eapply copied_kept; [|exact Ea].
  by destruct (mleaves_for_each calm (copy_entry unreadable) l copy_entry_calm _ _ _ Hc) as (_ & ? & _).
Qed.

(** What a preparation that succeeded has established. *)
Lemma prepare_Ok m m' sih tih :
  preparing m = (m', Ok (sih, tih)) →
  sih = tih ∧ ∃ mf ls lt, finish m = (mf, Ok tt)
    ∧ held_files (source m') = held_files (source mf)
    ∧ lists ls (held_files (source mf)) ∧ lists lt (held_files (target_backend m'))
    ∧ inventory_hash inventory_digest ls = Ok sih ∧ inventory_hash inventory_digest lt = Ok tih
    ∧ ∀ e, e ∈ ls → copied (held_files (source mf)) (held_files (target_backend m')) e.
Proof.
  unfold prepare_target. intros Hp. mrun Hp.
  match goal with E : fault_at _ _ = _ |- _ => apply fault_at_same in E as -> end.
  mrun Hp. match goal with E : finish _ = (?x, Ok ?u) |- _ => destruct u; rename E into Ef; rename x into mf end.
  mrun Hp. match goal with E : on_source _ _ = (_, Ok ?x) |- _ =>
    rename x into ls; apply on_source_inventory in E as (E1 & _ & Hls) end.
  mrun Hp. match goal with E : m_lift _ _ = _ |- _ => injection E as <- Es end.
  mrun Hp. match goal with E : fault_at _ _ = _ |- _ => apply fault_at_same in E as -> end.
  mrun Hp. match goal with E : fault_at _ _ = _ |- _ => apply fault_at_same in E as -> end.
  mrun Hp. match goal with E : m_for_each _ _ _ = (?x, Ok ?u) |- _ => destruct u; rename x into mc;
    pose proof (mleaves_for_each calm (copy_entry unreadable) ls copy_entry_calm _ _ _ E) as (E2 & _ & _);
    pose proof (copy_all_Ok _ _ _ E) as Hc end.
  mrun Hp. match goal with E : fault_at _ _ = _ |- _ => apply fault_at_same in E as -> end.
  mrun Hp. match goal with E : fault_at _ _ = _ |- _ => apply fault_at_same in E as -> end.
  mrun Hp. match goal with E : verify_target _ _ _ _ = _ |- _ =>
    apply (verify_target_calm eq eq any) in E as (E3 & E4 & _) end.
  mrun Hp. match goal with E : on_target _ _ = (_, Ok ?x) |- _ =>
    rename x into lt; apply on_target_inventory in E as (E5 & E6 & Hlt) end.
  mrun Hp. match goal with E : m_lift _ _ = _ |- _ => injection E as <- Et end.
  case_bool_decide as Heq; [done|]. mrun Hp.
  match goal with E : fault_at _ _ = _ |- _ => apply fault_at_same in E as -> end.
  mrun Hp. match goal with E : fault_at _ _ = _ |- _ => apply fault_at_same in E as -> end.
  mrun Hp. match goal with E : m_for_each _ _ _ = _ |- _ =>
    apply (mleaves_for_each (moves eq eq any) flush_entry lt (flush_entry_calm eq eq any)) in E as (E7 & E8 & _) end.
  mrun Hp. match goal with E : fault_at _ _ = _ |- _ => apply fault_at_same in E as -> end.
  unfold mret, mig_ret in Hp. injection Hp as <- <- <-. split; [congruence|]. exists mf, ls, lt.
  rewrite <- E7, <- E8, E6, E5, <- E3, <- E4, <- E2, E1. rewrite E1 in Hc. split_and!; try done. by rewrite E4.
Qed.

(** A migration succeeds only with a presence proof for exactly
    this purpose that is valid now, onto a profile the policy allows, with the
    writer lock free before; then the target is active on the next generation,
    in the state and in the pointer on disk, both inventories have the
    reported hash, the audit row that names both profiles, the inventory and
    the pointer is stored, and both locks are free again. *)
Theorem migration_success proof m m' res :
  execute unreadable is_nfc to_nfc object_hash profile_digest inventory_digest pointer_digest
    decode_trust_anchor verify_archive delivered proof m = (m', Ok res) →
  ∃ sph tph, cleared proof m sph tph ∧ swapped proof m m' sph tph res
    ∧ mr_source_inventory_hash res = mr_target_inventory_hash res
    ∧ ms_finalization_locked (state m') = false ∧ held (source m') = false ∧ locked (source m') = false.
Proof.
  unfold execute. destruct (attempt _ _ _ _ _ _ _ _ _ _ _ _) as [m2 r] eqn:E. intros [= <- ->].
  apply attempt_run in E as [(e & [=] & _)|(sph & tph & m1 & m3 & Ha & Es & Et & _ & Hm & ->)].
  apply migrate_run in Hm as [(e & [=] & _)|[(e & [=] & _)|(mp & sih & tih & Hp & Hs)]].
  exists sph, tph. split; [done|].
  assert (moves any only_new same_active m m1) as H1 by (unfold moves; rewrite Es, Et; done).
  pose proof (prepare_target_calm _ _ _ Hp) as H2. apply prepare_Ok in Hp as [Heq _].
  apply swap_state in Hs as (Hsw & Hsi & Hti). split; [|split; [congruence|done]].
  apply (swapped_after _ _ mp _ _ _ _ H2), (swapped_after _ _ m1 _ _ _ _ H1) in Hsw. by destruct Hsw; split.
Qed.

Lemma prepare_source m m' r :
  preparing m = (m', r) →
  ∃ queues, held_files (source m') = held_files (source m)
    ∨ held_files (source m') = delivered queues (held_files (source m)).
Proof.
  unfold prepare_target. intros Hp. mrun Hp; [|apply fault_at_same in Hp as ->; exists []; by left].
  match goal with E : fault_at _ _ = _ |- _ => apply fault_at_same in E as -> end.
  mrun Hp; [|apply finish_pending_run in Hp as (Hf & _); eauto].
  match goal with E : finish _ = _ |- _ => apply finish_pending_run in E as (Hf & _) end.
  match type of Hp with ?x ?y = _ => assert (mleaves (@moves T Aud eq any any) x) as Hq end.
  { assert (∀ e, mleaves (@moves T Aud eq any any) (copy_entry unreadable e)) as Hc.
    { intros e. eapply moves_weaken, copy_entry_calm; done. }
    clear Hp. solve_mleaves; eauto using verify_target_calm, flush_entry_calm with mig. }
  apply Hq in Hp as (Hs & _). eexists. right. rewrite <- Hs. exact Hf.
Qed.

(** A migration writes nothing into the source archive: whatever it
    ends in, the source has the files it had, but for the lock file and what
    the pending publications deliver. *)
Theorem migration_reads_source proof m m' r :
  execute unreadable is_nfc to_nfc object_hash profile_digest inventory_digest pointer_digest
    decode_trust_anchor verify_archive delivered proof m = (m', r) →
  ∃ f queues, same_but_lock (held_files (source m)) f
    ∧ (held_files (source m') = f ∨ held_files (source m') = delivered queues f).
Proof.
  unfold execute. destruct (attempt _ _ _ _ _ _ _ _ _ _ _ _) as [m2 r'] eqn:E. intros [= <- ->].
  apply attempt_run in E as [(e & _ & _ & _ & Hf & _)|(sph & tph & m1 & m3 & _ & _ & _ & Hf & Hm & ->)].
  { eexists _, []. split; [exact Hf|]. by left. }
  match goal with |- context [held_files (source (set_state ?x ?y))] =>
    change (held_files (source (set_state x y))) with (held_files (source m3)) end.
  exists (held_files (source m1)).
  apply migrate_run in Hm as [(e & _ & ->)|[(e & _ & Hp)|(mp & sih & tih & Hp & Hs)]].
  - exists []. eauto.
  - apply prepare_source in Hp as (q & Hq). exists q. eauto.
  - apply swap_files in Hs as (Hs & _). rewrite <- Hs. apply prepare_source in Hp as (q & Hq). exists q. eauto.
Qed.

(** After a migration that succeeded every file of the source but
    the control files is in the target with the same bytes; if the hash of the
    inventory has no collision, the target has no other file. *)
Theorem migration_copies_everything proof m m' res :
  execute unreadable is_nfc to_nfc object_hash profile_digest inventory_digest pointer_digest
    decode_trust_anchor verify_archive delivered proof m = (m', Ok res) →
  (∀ p, (p ∉ CONTROL_FILES_V1) → is_Some (held_files (source m') !! p) →
     held_files (target_backend m') !! p = held_files (source m') !! p) ∧
  ((∀ x y, inventory_digest x = inventory_digest y → x = y) →
   (∀ b, sized (object_hash b)) →
   (∀ p, is_Some (held_files (source m') !! p) ∨ is_Some (held_files (target_backend m') !! p) → sized p) →
   ∀ p, (p ∉ CONTROL_FILES_V1) → p ≠ POINTER_STAGING → is_Some (held_files (target_backend m') !! p) →
     is_Some (held_files (source m') !! p)).
Proof.
  unfold execute. destruct (attempt _ _ _ _ _ _ _ _ _ _ _ _) as [m2 r] eqn:E. intros [= <- ->].
  apply attempt_run in E as [(e & [=] & _)|(sph & tph & m1 & m3 & _ & _ & _ & _ & Hm & ->)].
  apply migrate_run in Hm as [(e & [=] & _)|[(e & [=] & _)|(mp & sih & tih & Hp & Hs)]].
  set (m' := set_state _ _). change (held_files (source m')) with (held_files (source m3)).
  change (held_files (target_backend m')) with (held_files (target_backend m3)). clear m'.
  apply swap_files in Hs as (Hs & Ht & _). rewrite <- Hs.
  apply prepare_Ok in Hp as (-> & mf & ls & lt & _ & Hsrc & [Hls1 Hls] & [Hlt1 Hlt] & His & Hit & Hc).
  rewrite Hsrc. split.
  - intros p Hp [bytes Hb].
    destruct (Hc {| relative_path := p; content_hash := object_hash bytes |}) as (H1 & H2 & x & Hx & Hy).
    { apply Hls. by exists bytes. }
    cbn in *. rewrite Ht by done. congruence.
  - intros Hinj Hh Hsz p Hp Hps [bytes Hb].
    assert (∀ l f, lists l f → (∀ q, is_Some (f !! q) → sized q) →
      Forall (λ e, sized (relative_path e) ∧ sized (content_hash e)) l) as Hall.
    { intros l f [_ Hl] Hf. apply Forall_forall. intros e (x & Hx & _ & ->)%Hl. split; [|apply Hh]. apply Hf. by eexists. }
    unfold inventory_hash in His, Hit.
    apply bind_Ok in His as (xs & Ex%format_err_Ok & [= His]).
    apply bind_Ok in Hit as (xt & Et%format_err_Ok & [= Hit]).
    assert (xs = xt) as -> by (apply Hinj; congruence).
    assert (ls = lt) as ->.
    { eapply inventory_bytes_inj; [| |exact Ex|exact Et].
      - apply (Hall _ _ (conj Hls1 Hls)). eauto.
      - apply (Hall _ _ (conj Hlt1 Hlt)). intros q Hq.
        destruct (decide (q = CONTROL_POINTER)) as [->|]; [by apply Z.leb_le|].
        destruct (decide (q = POINTER_STAGING)) as [->|]; [by apply Z.leb_le|].
        apply Hsz. right. by rewrite Ht. }
    assert (p ≠ CONTROL_POINTER) as Hpp by (intros ->; apply Hp; by right; left).
    destruct (proj1 (Hls {| relative_path := p; content_hash := object_hash bytes |})) as (x & Hx & _); [|by eexists].
    apply Hlt. exists bytes. cbn. by rewrite <- Ht.
Qed.
End Steps.

(** ** A sample migration *)

Definition no_target : PublicationTargetV1 unit :=
  {| is_connected := λ t, (t, true); reconnect := λ t, t; publish_one := λ _ _ t, (t, Ok tt) |}.
Definition counting_audit : LocalAuditService nat :=
  {| record_signed := λ _ _ _ n, (S n, Some [byte_of (Z.of_nat n)]) |}.

Definition sample_session : OperatorSessionProof :=
  {| purpose := ArchiveProfileMigration; organization_id := []; device_id := []; binding_object_hash := [];
     challenge_nonce := []; context_hash := None; issued_at := 0; expires_at := 300000; invalidated := false |}.

Definition sample_target : LocalPathBackend :=
  let b := sample_backend ∅ in
  {| existing_only := true;
     profile := LocalPath {| lp_filesystem_row_id := lit "fs2"; lp_capability_test_vector_id := lit "v" |};
     held := false; foreign := ∅; disk := disk b |}.

Definition digest_of (p : ArchiveBackendProfileV1) : Hash32 :=
  encode_archive_backend_profile_core (core_fields p).

Definition sample_migrator (fault : option MigrationFaultPoint) : Migrator unit nat :=
  {| source := sample_backend occupied; pending_queues := []; target_backend := sample_target;
     policy := [digest_of (profile sample_target)]; audit := O; anchor_bytes := [];
     effective_now := {| now_value := 1000; persisted_floor := 0; wall_clock_ceiling := None; successor_ready_at := None |};
     carried_proof := sample_session;
     state := {| ms_active_profile_hash := digest_of (profile (sample_backend occupied)); ms_generation := 0;
                 ms_finalization_locked := false; ms_staged_objects := 0; ms_fault := fault |} |}.

Definition sample_execute (fault : option MigrationFaultPoint)
    : Migrator unit nat * result ArchiveBackendError MigrationResultV1 :=
  execute (H := no_target) (H0 := counting_audit) (λ _, false) (λ _, true) id (λ b, b) (λ b, b) (λ b, b) (λ b, b)
    (λ _, Some tt) (λ _ _ _, Some []) (λ _ f, f) sample_session (sample_migrator fault).

Lemma sample_succeeds : is_ok (sample_execute None).2 = true.
Proof. vm_compute. reflexivity. Qed.
Lemma sample_fails : (sample_execute (Some AfterPointerSwap)).2 = Err MigrationFault.
Proof. vm_compute. reflexivity. Qed.

Lemma migration_success_witness :
  ∃ m' res, sample_execute None = (m', Ok res) ∧ ms_finalization_locked (state m') = false.
Proof.
  pose proof sample_succeeds as Hok. unfold sample_execute in *.
  destruct (execute _ _ _ _ _ _ _ _ _ _ _ _) as [m' [res|e]] eqn:E; [|discriminate Hok].
  exists m', res. split; [reflexivity|].
  by destruct (migration_success _ _ _ _ _ _ _ _ _ _ _ _ _ _ E) as (sph & tph & _ & _ & _ & Hl & _).
Defined.

Lemma migration_failure_contained_witness :
  ∃ m', sample_execute (Some AfterPointerSwap) = (m', Err MigrationFault) ∧ held (source m') = false.
Proof.
  pose proof sample_fails as Hf. unfold sample_execute in *.
  destruct (execute _ _ _ _ _ _ _ _ _ _ _ _) as [m' r] eqn:E. cbn in Hf. subst r.
  exists m'. split; [reflexivity|].
  by destruct (migration_failure_contained _ _ _ _ _ _ _ _ _ _ _ _ _ _ E) as (_ & Hh & _).
Defined.

Lemma migration_reads_source_witness :
  held_files (source (sample_execute (Some AfterPointerSwap)).1) !! as_str (entry_at "e.eip") = Some [x07].
Proof.
  unfold sample_execute. destruct (execute _ _ _ _ _ _ _ _ _ _ _ _) as [m' r] eqn:E.
  destruct (migration_reads_source _ _ _ _ _ _ _ _ _ _ _ _ _ _ E) as (f & q & Hl & [Hf|Hf]);
    cbn [fst]; rewrite Hf, Hl; reflexivity || discriminate.
Defined.

Lemma migration_copies_everything_witness :
  ∃ m' res, sample_execute None = (m', Ok res) ∧
    (∀ p, (p ∉ CONTROL_FILES_V1) → is_Some (held_files (source m') !! p) →
       held_files (target_backend m') !! p = held_files (source m') !! p).
Proof.
  pose proof sample_succeeds as Hok. unfold sample_execute in *.
  destruct (execute _ _ _ _ _ _ _ _ _ _ _ _) as [m' [res|e]] eqn:E; [|discriminate Hok].
  exists m', res. split; [reflexivity|].
  apply (migration_copies_everything _ _ _ _ _ _ _ _ _ _ _ _ _ _ E).
Defined.
