(* ===== verification/ImportReport.v ===== *)
(** * ImportReport: the report of an import ([ea-format], [import_report.rs])

    The closed sets of sources and findings, the report with its sorted lists,
    its encoding and the hash over exactly these bytes.

    The report is encoded by [minicbor] and checked by [validate] of [Cbor];
    Unicode normalization and the object hash are parameters. *)

From S2P Require Import Prelude Types Utf8 Cbor CborSpec CborCanon CborTheorems Str ArchivePath PublicationQueue Profile.
Import Fmt(FormatError, format_error_code).

(** ** Sources *)

Inductive ImportSourceKindV1 := Persons | Vehicles.

#[export] Instance ImportSourceKindV1_eq_dec : EqDecision ImportSourceKindV1.
Proof. solve_decision. Defined.

Definition source_kind_code (k : ImportSourceKindV1) : Z :=
  match k with Persons => 0 | Vehicles => 1 end.

Definition source_id (k : ImportSourceKindV1) : str :=
  match k with Persons => lit "csv-persons" | Vehicles => lit "csv-vehicles" end.

Definition header_line (k : ImportSourceKindV1) : str :=
  match k with
  | Persons => lit "id,display_name,role,active"
  | Vehicles => lit "id,display_name,radio_call_sign,license_plate,active"
  end.

(** ** Findings *)

Module Issue.
Inductive ImportIssueCodeV1 :=
| ByteOrderMarkPresent | InputNotUtf8 | UnknownHeader | DuplicateHeaderColumn | AccessFormatDetected
| FieldCountMismatch | EmptyRequiredValue | InvalidBoolean | DuplicateMasterId | ValueNotInClosedSet
| ValueTooLong | InactiveRowImported | TrailingEmptyLineSkipped.

Definition issue_code (c : ImportIssueCodeV1) : Z :=
  match c with
  | ByteOrderMarkPresent => 0 | InputNotUtf8 => 1 | UnknownHeader => 2 | DuplicateHeaderColumn => 3
  | AccessFormatDetected => 4 | FieldCountMismatch => 5 | EmptyRequiredValue => 6
  | InvalidBoolean => 7 | DuplicateMasterId => 8 | ValueNotInClosedSet => 9 | ValueTooLong => 10
  | InactiveRowImported => 11 | TrailingEmptyLineSkipped => 12
  end.

Definition is_warning (c : ImportIssueCodeV1) : bool :=
  match c with InactiveRowImported | TrailingEmptyLineSkipped => true | _ => false end.

Definition is_file_wide (c : ImportIssueCodeV1) : bool :=
  match c with
  | ByteOrderMarkPresent | InputNotUtf8 | UnknownHeader | DuplicateHeaderColumn
  | AccessFormatDetected => true
  | _ => false
  end.

Definition issue_name (c : ImportIssueCodeV1) : string :=
  match c with
  | ByteOrderMarkPresent => "byte-order-mark-present"
  | InputNotUtf8 => "input-not-utf8"
  | UnknownHeader => "unknown-header"
  | DuplicateHeaderColumn => "duplicate-header-column"
  | AccessFormatDetected => "access-format-detected"
  | FieldCountMismatch => "field-count-mismatch"
  | EmptyRequiredValue => "empty-required-value"
  | InvalidBoolean => "invalid-boolean"
  | DuplicateMasterId => "duplicate-master-id"
  | ValueNotInClosedSet => "value-not-in-closed-set"
  | ValueTooLong => "value-too-long"
  | InactiveRowImported => "inactive-row-imported"
  | TrailingEmptyLineSkipped => "trailing-empty-line-skipped"
  end.
End Issue.
Import Issue(ImportIssueCodeV1, issue_code, is_warning, is_file_wide, issue_name).

#[export] Instance ImportIssueCodeV1_eq_dec : EqDecision ImportIssueCodeV1.
Proof. solve_decision. Defined.

Record ImportIssueV1 := {
  row : Z;
  column : option str;
  issue : ImportIssueCodeV1;
}.

#[export] Instance ImportIssueV1_eq_dec : EqDecision ImportIssueV1.
Proof. solve_decision. Defined.

(** The derived [Ord] of a finding compares row, column and code. *)
Definition issue_key (i : ImportIssueV1) : Z * (option str * Z) :=
  (row i, (column i, issue_code (issue i))).

Definition ImportIssueV1_new (r : Z) (c : option str) (code : ImportIssueCodeV1)
    : result FormatError ImportIssueV1 :=
  if (if is_file_wide code then negb (r =? 0) || bool_decide (is_Some c) else r =? 0)
  then Err Fmt.Shape else Ok {| row := r; column := c; issue := code |}.

(** ** The report *)

Record ImportReportFieldsV1 := {
  source_kind : ImportSourceKindV1;
  source_format_version : Z;
  input_file_hash : Hash32;
  report_header_line : str;
  imported_at : Z;
  row_count_total : Z;
  row_count_accepted : Z;
  row_count_rejected : Z;
  warnings : list ImportIssueV1;
  errors_on_the_wire : list ImportIssueV1;
}.

Definition REPORT_VERSION : Z := 1.
Definition SOURCE_FORMAT_VERSION : Z := 1.

(** [Encoder::i64]. *)
Definition cbor_i64 (v : Z) : list byte :=
  if 0 <=? v then head_bytes 0 v else head_bytes 1 (-1 - v).

(** [Encoder::null]. *)
Definition cbor_null : list byte := head_bytes 7 22.

Definition encode_issue (i : ImportIssueV1) : list byte :=
  cbor_array 3 ++ cbor_u64 (row i)
  ++ match column i with Some c => cbor_str c | None => cbor_null end
  ++ cbor_u64 (issue_code (issue i)).

Definition encode_issues (issues : list ImportIssueV1) : list byte :=
  cbor_array (len issues) ++ flat_map encode_issue issues.

Definition encoded_fields (f : ImportReportFieldsV1) : list byte :=
  cbor_array 12 ++ cbor_u64 REPORT_VERSION ++ cbor_u64 (source_kind_code (source_kind f))
  ++ cbor_str (source_id (source_kind f)) ++ cbor_u64 (source_format_version f)
  ++ cbor_bytes (input_file_hash f) ++ cbor_str (report_header_line f) ++ cbor_i64 (imported_at f)
  ++ cbor_u64 (row_count_total f) ++ cbor_u64 (row_count_accepted f)
  ++ cbor_u64 (row_count_rejected f)
  ++ encode_issues (warnings f) ++ encode_issues (errors_on_the_wire f).

Record ImportReportV1 := {
  fields_of : ImportReportFieldsV1;
  exact_bytes : list byte;
  import_protocol_hash : ObjectHash;
}.

Definition sorted_fields (f : ImportReportFieldsV1) : ImportReportFieldsV1 :=
  {| source_kind := source_kind f; source_format_version := source_format_version f;
     input_file_hash := input_file_hash f; report_header_line := report_header_line f;
     imported_at := imported_at f; row_count_total := row_count_total f;
     row_count_accepted := row_count_accepted f; row_count_rejected := row_count_rejected f;
     warnings := sort_by_key issue_key (warnings f);
     errors_on_the_wire := sort_by_key issue_key (errors_on_the_wire f) |}.

Definition has_equal_pair (l : list ImportIssueV1) : bool :=
  existsb (λ p, bool_decide (p.1 = p.2)) (windows2 l).

Section Report.
Context (nfc : list Z → list Z) (object_hash : list byte → ObjectHash).

(** The scanner's fuel is never used up, so [OutOfFuel] does not occur. *)
Definition encode_fields (f : ImportReportFieldsV1) : result FormatError (list byte) :=
  let exact := encoded_fields f in
  match validate nfc exact V1 with
  | Ok _ => Ok exact
  | Err (Fault e) => Err (Fmt.Cbor e)
  | Err OutOfFuel => Err (Fmt.Cbor Invalid)
  end.

Definition encode_import_report (r : ImportReportV1) : result FormatError (list byte) :=
  encode_fields (fields_of r).

Definition ImportReport_new (f : ImportReportFieldsV1) : result FormatError ImportReportV1 :=
  if bool_decide (report_header_line f ≠ header_line (source_kind f)) then Err Fmt.Shape else
  if negb (source_format_version f =? SOURCE_FORMAT_VERSION) then Err Fmt.Shape else
  if bool_decide (checked_add u64_max (row_count_accepted f) (row_count_rejected f)
                  ≠ Some (row_count_total f)) then Err Fmt.Shape else
  if existsb (λ i, negb (is_warning (issue i))) (warnings f)
     || existsb (λ i, is_warning (issue i)) (errors_on_the_wire f) then Err Fmt.Shape else
  let f := sorted_fields f in
  if has_equal_pair (warnings f) || has_equal_pair (errors_on_the_wire f) then Err Fmt.Duplicate else
  exact ← encode_fields f;
  Ok {| fields_of := f; exact_bytes := exact; import_protocol_hash := object_hash exact |}.
End Report.

Record ImportRowErrorV1 := { error_row : Z; error_issues : list ImportIssueV1 }.

(** One step of the grouping: the finding joins the last group if that has
    its row. *)
Definition group_step (grouped : list ImportRowErrorV1) (i : ImportIssueV1) : list ImportRowErrorV1 :=
  match last grouped with
  | Some l =>
      if error_row l =? row i
      then removelast grouped ++ [{| error_row := error_row l; error_issues := error_issues l ++ [i] |}]
      else grouped ++ [{| error_row := row i; error_issues := [i] |}]
  | None => grouped ++ [{| error_row := row i; error_issues := [i] |}]
  end.

(** [ImportReportV1::errors]. *)
Definition report_errors (r : ImportReportV1) : list ImportRowErrorV1 :=
  foldl group_step [] (errors_on_the_wire (fields_of r)).

(** ** The encoded tree *)

Definition int_tree (v : Z) : item := if 0 <=? v then UInt v else NInt (-1 - v).

Definition issue_tree (i : ImportIssueV1) : item :=
  Array [UInt (row i); match column i with Some c => Text c | None => Simple 22 end;
         UInt (issue_code (issue i))].

Definition report_tree (f : ImportReportFieldsV1) : item :=
  Array [UInt REPORT_VERSION; UInt (source_kind_code (source_kind f)); Text (source_id (source_kind f));
         UInt (source_format_version f); Bytes (input_file_hash f); Text (report_header_line f);
         int_tree (imported_at f); UInt (row_count_total f); UInt (row_count_accepted f);
         UInt (row_count_rejected f); Array (issue_tree <$> warnings f);
         Array (issue_tree <$> errors_on_the_wire f)].

Lemma enc_issue i : encode_issue i = enc (issue_tree i).
Proof. unfold encode_issue, issue_tree. cbn [enc flat_map]. rewrite app_nil_r. by destruct (column i). Qed.

Lemma enc_issues l : encode_issues l = enc (Array (issue_tree <$> l)).
Proof.
  unfold encode_issues. cbn [enc]. unfold cbor_array, len. rewrite length_fmap. f_equal.
  induction l as [|i l IH]; [done|]. cbn [flat_map fmap list_fmap]. by rewrite IH, enc_issue.
Qed.

Lemma enc_int v : cbor_i64 v = enc (int_tree v).
Proof. unfold cbor_i64, int_tree. by destruct (0 <=? v). Qed.

Lemma enc_report f : encoded_fields f = enc (report_tree f).
Proof.
  unfold encoded_fields, report_tree. rewrite !enc_issues, enc_int.
  remember (Array (issue_tree <$> warnings f)) as w. remember (Array (issue_tree <$> errors_on_the_wire f)) as e.
  remember (int_tree (imported_at f)) as n. cbn [enc flat_map]. by rewrite app_nil_r.
Qed.

(** Every finding is four items of the encoding. *)
Lemma count_issues l : count (Array (issue_tree <$> l)) = 1 + 4 * len l.
Proof.
  unfold len. induction l as [|i l IH]; [done|]. cbn [fmap list_fmap count sum_with foldr] in *.
  assert (count (issue_tree i) = 4) as -> by (unfold issue_tree; by destruct (column i)).
  rewrite length_cons. unfold sum_with in IH. lia.
Qed.

Lemma count_report f : count (report_tree f) = 13 + 4 * (len (warnings f) + len (errors_on_the_wire f)).
Proof.
  assert (∀ v, count (int_tree v) = 1) as Hi by (intros v; unfold int_tree; by case_match).
  pose proof (count_issues (warnings f)) as Hw. pose proof (count_issues (errors_on_the_wire f)) as He.
  unfold report_tree. remember (Array (issue_tree <$> warnings f)) as w eqn:Ew.
  remember (Array (issue_tree <$> errors_on_the_wire f)) as e eqn:Ee. clear Ew Ee.
  cbn [count sum_with foldr]. rewrite Hi, Hw, He. lia.
Qed.

(** ** Well-formed fields: the widths of the Rust types, and texts that are
    NFC-normalized *)

Section Tree.
Context (nfc : list Z → list Z).

Definition text_ok (s : str) : Prop := len s ≤ max_text_or_bytes V1 ∧ is_text nfc s.

Record issue_wf (i : ImportIssueV1) : Prop := {
  iw_row : in_u64 (row i);
  iw_column : ∀ c, column i = Some c → text_ok c;
}.

Record report_wf (f : ImportReportFieldsV1) : Prop := {
  rw_version : in_u64 (source_format_version f);
  rw_hash : length (input_file_hash f) = 32%nat;
  rw_at : in_i64 (imported_at f);
  rw_total : in_u64 (row_count_total f);
  rw_accepted : in_u64 (row_count_accepted f);
  rw_rejected : in_u64 (row_count_rejected f);
  rw_warnings : Forall issue_wf (warnings f);
  rw_errors : Forall issue_wf (errors_on_the_wire f);
  rw_slice : sized (encoded_fields f);
  rw_lists : sized (warnings f) ∧ sized (errors_on_the_wire f);
}.

(** ASCII text is in normal form. *)
Definition ascii_normal : Prop := ∀ cs, Forall (λ c, 0 ≤ c ≤ 127) cs → nfc cs = cs.

Context (Hnfc : ascii_normal).

Lemma ascii_text s : forallb (λ b, u8 b <=? 127) s = true → is_text nfc s.
Proof.
  intros H. assert (Forall (λ b, u8 b ≤ 127) s) as Hs.
  { apply Forall_forall. intros b Hb. rewrite forallb_forall in H. apply Z.leb_le, H. by apply list_elem_of_In. }
  exists (u8 <$> s). split; [by apply from_utf8_ascii|]. apply Hnfc. apply Forall_fmap.
  eapply Forall_impl; [exact Hs|]. intros b Hb. pose proof (u8_range b). unfold compose. cbn beta. cbn beta in Hb. lia.
Qed.

Lemma source_texts k : text_ok (source_id k) ∧ text_ok (header_line k).
Proof. by destruct k; split; (split; [by apply Z.leb_le|by apply ascii_text]). Qed.

Lemma issue_fits L strict i d :
  max_depth L = max_depth V1 → max_text_or_bytes L = max_text_or_bytes V1 → 3 ≤ max_container_items L →
  0 ≤ d < 14 → issue_wf i → fits nfc L strict d (issue_tree i).
Proof.
  intros Hd Ht Hc ? [Hr Hx]. apply fits_array. rewrite Hd. split; [done|]. split; [cbn; lia|].
  repeat apply Forall_cons_2; try apply Forall_nil_2; [done| |by destruct (issue i)].
  destruct (column i) as [c|] eqn:E; [|left; cbn; lia]. cbn. rewrite Ht. by apply Hx.
Qed.

Lemma issues_fit L strict l d :
  max_depth L = max_depth V1 → max_text_or_bytes L = max_text_or_bytes V1 → 3 ≤ max_container_items L →
  len l ≤ max_container_items L → 0 ≤ d < 13 → Forall issue_wf l →
  fits nfc L strict d (Array (issue_tree <$> l)).
Proof.
  intros Hd Ht Hc Hl ? Hf. apply fits_array. rewrite Hd. unfold len in *. rewrite length_fmap.
  split; [done|]. split; [cbn; lia|]. apply Forall_fmap. eapply Forall_impl; [exact Hf|].
  intros i Hi. apply issue_fits; done || lia.
Qed.

Lemma report_fits L strict f :
  max_depth L = max_depth V1 → max_text_or_bytes L = max_text_or_bytes V1 → 12 ≤ max_container_items L →
  len (warnings f) ≤ max_container_items L → len (errors_on_the_wire f) ≤ max_container_items L →
  report_header_line f = header_line (source_kind f) → report_wf f →
  fits nfc L strict 0 (report_tree f).
Proof.
  intros Hd Ht Hc Hw He Hh [R1 R2 R3 R4 R5 R6 R7 R8 R9 R10]. destruct (source_texts (source_kind f)) as [T1 T2].
  apply fits_array. rewrite Hd. split; [done|]. split; [done|].
  assert (fits nfc L strict 1 (int_tree (imported_at f))) as Hi.
  { unfold int_tree, in_i64, i64_min, i64_max in *. destruct (Z.leb_spec 0 (imported_at f)); cbn;
      unfold in_u64, u64_max; lia. }
  rewrite Hh. unfold text_ok in *. rewrite <- Ht in T1, T2.
  repeat apply Forall_cons_2; try apply Forall_nil_2; try done.
  all: try (apply issues_fit; done || lia).
  - by destruct (source_kind f).
  - cbn. rewrite Ht. unfold len. by rewrite R2.
Qed.

Lemma relaxed_fits f :
  report_header_line f = header_line (source_kind f) → report_wf f →
  fits nfc (relaxed V1) false 0 (report_tree f).
Proof. intros Hh W. apply report_fits; try done; apply (rw_lists _ W). Qed.

(** The bytes pass the strict check exactly if the findings fit into the
    10000 items a document may have. *)
Lemma encode_fields_Ok f bytes :
  report_header_line f = header_line (source_kind f) → report_wf f →
  encode_fields nfc f = Ok bytes ↔
  bytes = encoded_fields f ∧ len (warnings f) + len (errors_on_the_wire f) ≤ 2496.
Proof.
  intros Hh W. pose proof (len_nonneg (warnings f)). pose proof (len_nonneg (errors_on_the_wire f)).
  assert (validate nfc (encoded_fields f) V1 = Ok tt ↔ len (warnings f) + len (errors_on_the_wire f) ≤ 2496) as Hv.
  { rewrite enc_report, validate_enc; [|apply V1_ok| |by apply relaxed_fits].
    - unfold accepted. rewrite count_report. cbn [max_total_items V1]. split; [intros (_ & _ & ?); lia|].
      intros ?. split; [done|]. split; [|lia]. apply report_fits; try done; cbn; lia.
    - rewrite <- enc_report. apply (rw_slice _ W). }
  unfold encode_fields. destruct (validate nfc (encoded_fields f) V1) as [[]|[|e]].
  - split; [|by intros [-> _]]. intros [= <-]. split; [done|]. by apply Hv.
  - split; [done|]. intros [_ ?%Hv]. done.
  - split; [done|]. intros [_ ?%Hv]. done.
Qed.

Lemma encode_fields_Err f e :
  report_header_line f = header_line (source_kind f) → report_wf f →
  encode_fields nfc f = Err e → 2496 < len (warnings f) + len (errors_on_the_wire f) ∧ ∃ c, e = Fmt.Cbor c.
Proof.
  intros Hh W E. split.
  - apply Z.nle_gt. intros Hn. pose proof (proj2 (encode_fields_Ok f _ Hh W) (conj eq_refl Hn)). congruence.
  - unfold encode_fields in E. repeat case_match; simplify_eq; eauto.
Qed.
End Tree.

(** ** Construction *)

Lemma issue_code_inj c c' : issue_code c = issue_code c' → c = c'.
Proof. by destruct c, c'. Qed.

Lemma issue_key_inj i i' : issue_key i = issue_key i' → i = i'.
Proof. destruct i, i'. intros [= -> -> ->%issue_code_inj]. done. Qed.

Lemma sorted_issues_NoDup l : NoDup l → StronglySorted (key_lt issue_key) (sort_by_key issue_key l).
Proof.
  intros Hl. apply sorted_NoDup_strict; [apply sort_by_key_sorted|]. apply NoDup_fmap_2.
  - intros ? ?. apply issue_key_inj.
  - by rewrite sort_by_key_perm.
Qed.

Lemma has_equal_pair_false l : has_equal_pair (sort_by_key issue_key l) = false ↔ NoDup l.
Proof.
  assert (has_equal_pair (sort_by_key issue_key l) =
    existsb (λ p, bool_decide (issue_key p.1 = issue_key p.2)) (windows2 (sort_by_key issue_key l))) as ->.
  { unfold has_equal_pair. induction (windows2 _) as [|[a b] w IH]; [done|]. cbn. rewrite IH. f_equal.
    apply bool_decide_ext. split; [by intros ->|apply issue_key_inj]. }
  rewrite no_equal_neighbours by apply sort_by_key_sorted. split.
  - intros Hs%key_lt_NoDup. by rewrite sort_by_key_perm in Hs.
  - apply sorted_issues_NoDup.
Qed.

Lemma length_encode_issues l k : l ≡ₚ k → len (encode_issues l) = len (encode_issues k).
Proof.
  intros Hp. unfold encode_issues. rewrite !len_app. unfold len. rewrite (Permutation_length Hp).
  f_equal. by rewrite (Permutation_length (Permutation_flat_map encode_issue Hp)).
Qed.

Lemma sorted_wf nfc f : report_wf nfc f → report_wf nfc (sorted_fields f).
Proof.
  intros [R1 R2 R3 R4 R5 R6 R7 R8 R9 [R10 R11]].
  split; try done; unfold sorted_fields; cbn [warnings errors_on_the_wire]; rewrite ?sort_by_key_perm; try done.
  - unfold sized, encoded_fields in *. cbn [warnings errors_on_the_wire] in *. rewrite !len_app in *.
    by rewrite !(length_encode_issues _ _ (sort_by_key_perm _ _)).
  - unfold sized, len in *. by rewrite !(Permutation_length (sort_by_key_perm _ _)).
Qed.

Definition built (object_hash : list byte → ObjectHash) (f : ImportReportFieldsV1) : ImportReportV1 :=
  {| fields_of := sorted_fields f; exact_bytes := encoded_fields (sorted_fields f);
     import_protocol_hash := object_hash (encoded_fields (sorted_fields f)) |}.

(** Fields the constructor does not refuse for their shape. *)
Record shaped (f : ImportReportFieldsV1) : Prop := {
  sh_header : report_header_line f = header_line (source_kind f);
  sh_version : source_format_version f = 1;
  sh_counts : row_count_total f = row_count_accepted f + row_count_rejected f;
  sh_warnings : Forall (λ i, is_warning (issue i) = true) (warnings f);
  sh_errors : Forall (λ i, is_warning (issue i) = false) (errors_on_the_wire f);
}.

Lemma sorted_lengths f :
  len (warnings (sorted_fields f)) = len (warnings f)
  ∧ len (errors_on_the_wire (sorted_fields f)) = len (errors_on_the_wire f).
Proof. unfold len. cbn. by rewrite !(Permutation_length (sort_by_key_perm _ _)). Qed.

Lemma new_shaped nfc object_hash f :
  in_u64 (row_count_total f) → shaped f → NoDup (warnings f) → NoDup (errors_on_the_wire f) →
  ImportReport_new nfc object_hash f =
    (exact ← encode_fields nfc (sorted_fields f);
     Ok {| fields_of := sorted_fields f; exact_bytes := exact; import_protocol_hash := object_hash exact |}).
Proof.
  intros Ht [S1 S2 S3 S4 S5] Hw He. unfold ImportReport_new.
  rewrite bool_decide_eq_false_2 by (intros H; apply H, S1). rewrite S2. cbn -[sorted_fields].
  rewrite bool_decide_eq_false_2.
  2: { intros H. apply H, checked_add_Some. split; [done|]. rewrite <- S3. apply Ht. }
  rewrite (proj2 (existsb_false _ (warnings f))), (proj2 (existsb_false _ (errors_on_the_wire f)));
    [|done|by eapply Forall_impl; [exact S4|]; intros i ->].
  cbn -[sorted_fields]. unfold sorted_fields at 1 2. cbn [warnings errors_on_the_wire].
  by rewrite !(proj2 (has_equal_pair_false _)).
Qed.

Lemma new_Ok_shaped nfc object_hash f r :
  ImportReport_new nfc object_hash f = Ok r →
  shaped f ∧ NoDup (warnings f) ∧ NoDup (errors_on_the_wire f) ∧ fields_of r = sorted_fields f
  ∧ encode_fields nfc (sorted_fields f) = Ok (exact_bytes r)
  ∧ import_protocol_hash r = object_hash (exact_bytes r).
Proof.
  unfold ImportReport_new. intros H. case_bool_decide as H1; [done|].
  destruct (Z.eqb_spec (source_format_version f) SOURCE_FORMAT_VERSION) as [H2|]; [|done]. cbn -[sorted_fields] in H.
  case_bool_decide as H3; [done|]. destruct (_ || _) eqn:H4 in H; [done|].
  destruct (_ || _) eqn:H5 in H; [done|].
  apply orb_false_iff in H4 as [H4 H4'], H5 as [H5 H5']. apply existsb_false in H4, H4'.
  cbn in H5, H5'. apply has_equal_pair_false in H5, H5'. inv_ok.
  apply checked_add_Some in H3 as [H3 _].
  split; [|done]. split; try done.
  eapply Forall_impl; [exact H4|]. intros i. cbn. by destruct (is_warning _).
Qed.

(** An import report is built exactly from fields with the source's
    header and version, counts that add up, warnings and errors in their own
    lists without repetition, and at most 2496 findings; it holds the sorted
    lists, and its hash is the object hash of exactly its bytes. *)
Theorem import_report_new_iff nfc object_hash f r :
  ascii_normal nfc → report_wf nfc f →
  ImportReport_new nfc object_hash f = Ok r ↔
  shaped f ∧ NoDup (warnings f) ∧ NoDup (errors_on_the_wire f)
  ∧ len (warnings f) + len (errors_on_the_wire f) ≤ 2496 ∧ r = built object_hash f.
Proof.
  intros Hn W. pose proof (sorted_wf nfc f W) as W'. destruct (sorted_lengths f) as [L1 L2]. split.
  - intros (S & Hw & He & Hf & Hb & Hh)%new_Ok_shaped.
    apply encode_fields_Ok in Hb as [Hb Hl]; [|done|by apply S|done]. rewrite L1, L2 in Hl.
    split_and!; try done. unfold built. destruct r; cbn in *. by subst.
  - intros (S & Hw & He & Hl & ->). rewrite new_shaped by (done || apply W).
    rewrite <- L1, <- L2 in Hl. rewrite (proj2 (encode_fields_Ok nfc Hn (sorted_fields f) _ (sh_header _ S) W') (conj eq_refl Hl)).
    done.
Qed.

(** ** The bytes determine the report *)

Lemma issue_tree_inj i i' : issue_tree i = issue_tree i' → i = i'.
Proof.
  destruct i as [r c k], i' as [r' c' k']. unfold issue_tree. cbn.
  intros [= -> Hc ->%issue_code_inj]. by destruct c, c'; simplify_eq.
Qed.

#[export] Instance issue_tree_Inj : Inj (=) (=) issue_tree.
Proof. intros i i'. apply issue_tree_inj. Qed.

Lemma int_tree_inj v v' : int_tree v = int_tree v' → v = v'.
Proof. unfold int_tree. do 2 case_match; intros [=]; lia. Qed.

Lemma report_tree_inj f f' : report_tree f = report_tree f' → f = f'.
Proof.
  destruct f as [k v h hl at_ t a r w e], f' as [k' v' h' hl' at' t' a' r' w' e']. unfold report_tree. cbn.
  intros [= Hk _ -> -> -> Hi -> -> -> Hw He]. apply int_tree_inj in Hi. subst.
  apply (inj (fmap issue_tree)) in Hw, He. subst. by destruct k, k'.
Qed.

(** The bytes under the protocol hash determine the whole report:
    source, input hash, time, counts and every finding. *)
Theorem import_report_bytes_injective nfc object_hash f f' r r' :
  ascii_normal nfc → report_wf nfc f → report_wf nfc f' →
  ImportReport_new nfc object_hash f = Ok r → ImportReport_new nfc object_hash f' = Ok r' →
  exact_bytes r = exact_bytes r' → fields_of r = fields_of r'.
Proof.
  intros Hn W W' (S & _ & _ & -> & Hb & _)%new_Ok_shaped (S' & _ & _ & -> & Hb' & _)%new_Ok_shaped E.
  apply sorted_wf in W, W'.
  apply encode_fields_Ok in Hb as [Hb _], Hb' as [Hb' _]; try done; [|apply S'|apply S].
  rewrite Hb, Hb', !enc_report in E. apply (f_equal (λ l, l ++ [])) in E.
  apply (enc_decodes nfc (relaxed V1) (relaxed_ok _ V1_ok) _ 0 0) in E as [E _].
  - by apply report_tree_inj.
  - apply relaxed_fits; [done|apply S|done].
  - apply relaxed_fits; [done|apply S'|done].
Qed.

(** ** One entry per faulty row *)

Record grouped (l : list ImportIssueV1) (gs : list ImportRowErrorV1) : Prop := {
  gr_all : concat (error_issues <$> gs) = l;
  gr_rows : Forall (λ g, error_issues g ≠ [] ∧ Forall (λ i, row i = error_row g) (error_issues g)) gs;
  gr_ascending : StronglySorted Z.lt (error_row <$> gs);
}.

Lemma group_step_grouped l gs i :
  grouped l gs → Forall (λ j, row j ≤ row i) l → grouped (l ++ [i]) (group_step gs i).
Proof.
  intros [Ha Hr Hs] Hl. unfold group_step.
  destruct gs as [|g0 gs0 _] using rev_ind; cbn -[last removelast].
  { cbn in Ha. subst. split; [done|by repeat constructor|by repeat constructor]. }
  rewrite last_snoc. rewrite fmap_app, concat_app in Ha. cbn in Ha. rewrite app_nil_r in Ha.
  apply Forall_app in Hr as [Hr0 Hg]. apply Forall_singleton in Hg as [Hne Hg].
  rewrite fmap_app in Hs. subst l. apply Forall_app in Hl as [Hl0 Hlg].
  assert (error_row g0 ≤ row i) as Hle.
  { destruct (error_issues g0) as [|j js]; [done|]. apply Forall_cons in Hg as [<- _].
    by apply Forall_cons in Hlg as [? _]. }
  destruct (Z.eqb_spec (error_row g0) (row i)) as [E|E].
  - rewrite removelast_last. split.
    + rewrite fmap_app, concat_app. cbn. by rewrite app_nil_r, (assoc_L (++)).
    + apply Forall_app. split; [done|]. apply Forall_singleton. cbn. split; [by destruct (error_issues g0)|].
      apply Forall_app. split; [done|]. by repeat constructor.
    + by rewrite fmap_app.
  - split.
    + rewrite !fmap_app, !concat_app. cbn. by rewrite app_nil_r.
    + apply Forall_app. split; [apply Forall_app; split; [done|by apply Forall_singleton]|].
      apply Forall_singleton. cbn. split; [done|by repeat constructor].
    + rewrite !fmap_app. cbn. apply StronglySorted_app. split_and!; [|done|by repeat constructor].
      intros x y Hx ->%list_elem_of_singleton. apply elem_of_app in Hx as [Hx| ->%list_elem_of_singleton]; [|lia].
      apply StronglySorted_app in Hs as (Hlt & _). specialize (Hlt x (error_row g0) Hx ltac:(by apply list_elem_of_singleton)). lia.
Qed.

Lemma foldl_grouped l :
  StronglySorted (key_le issue_key) l → grouped l (foldl group_step [] l).
Proof.
  induction l as [|i l IH] using rev_ind; intros Hs; [by split; [done|constructor|constructor]|].
  rewrite foldl_app. cbn. apply StronglySorted_app in Hs as (Hle & Hs & _).
  apply group_step_grouped; [by apply IH|]. apply Forall_forall. intros j Hj.
  specialize (Hle j i Hj ltac:(by apply list_elem_of_singleton)). unfold key_le, issue_key in Hle.
  unfold cmp, prod_cmp, prod_compare in Hle. cbn [fst snd] in Hle. unfold cmp at 1 in Hle. unfold Z_cmp in Hle.
  destruct (Z.compare_spec (row j) (row i)); [lia|lia|done].
Qed.

(** The row-wise view of a report has exactly one entry per faulty
    row, in ascending order, with all findings of that row and no other. *)
Theorem report_errors_by_row nfc object_hash f r :
  ImportReport_new nfc object_hash f = Ok r →
  grouped (errors_on_the_wire (fields_of r)) (report_errors r).
Proof.
  intros (_ & _ & _ & Hf & _)%new_Ok_shaped. unfold report_errors. rewrite Hf.
  apply foldl_grouped, sort_by_key_sorted.
Qed.

(** ** A concrete report *)

Definition sample_report : ImportReportFieldsV1 :=
  {| source_kind := Persons; source_format_version := 1; input_file_hash := replicate 32 x07;
     report_header_line := header_line Persons; imported_at := 1700000000000;
     row_count_total := 3; row_count_accepted := 1; row_count_rejected := 2;
     warnings := [{| row := 2; column := Some (lit "active"); issue := Issue.InactiveRowImported |}];
     errors_on_the_wire :=
       [{| row := 3; column := None; issue := Issue.FieldCountMismatch |};
        {| row := 1; column := Some (lit "id"); issue := Issue.EmptyRequiredValue |};
        {| row := 1; column := Some (lit "active"); issue := Issue.InvalidBoolean |}] |}.

Lemma sample_ascii_normal : ascii_normal id.
Proof. by intros ?. Qed.

Lemma sample_text s :
  forallb (λ b, u8 b <=? 127) s = true → (len s <=? 1048592) = true → text_ok id s.
Proof. intros Hs Hl. split; [by apply Z.leb_le|by apply ascii_text]. Qed.

Lemma sample_report_wf : report_wf id sample_report.
Proof.
  split; try reflexivity; try (split; apply Z.leb_le; reflexivity).
  - apply Forall_singleton. split; [split; apply Z.leb_le; reflexivity|]. intros ? [= <-]. by apply sample_text.
  - repeat apply Forall_cons_2; try apply Forall_nil_2; (split; [split; apply Z.leb_le; reflexivity|]);
      intros ? [=]; subst; by apply sample_text.
  - apply Z.leb_le. vm_compute. reflexivity.
Qed.

Lemma sample_shaped :
  shaped sample_report ∧ NoDup (warnings sample_report) ∧ NoDup (errors_on_the_wire sample_report).
Proof.
  split; [split; try reflexivity; repeat constructor|].
  split; apply (bool_decide_eq_true_1 _); reflexivity.
Qed.

Lemma import_report_new_iff_witness :
  ImportReport_new id id sample_report = Ok (built id sample_report).
Proof.
  apply (import_report_new_iff id id sample_report _ sample_ascii_normal sample_report_wf).
  destruct sample_shaped as (? & ? & ?). split_and!; try done.
Defined.

Lemma import_report_bytes_injective_witness :
  fields_of (built id sample_report) = fields_of (built id sample_report).
Proof.
  apply (import_report_bytes_injective id id sample_report sample_report _ _ sample_ascii_normal
           sample_report_wf sample_report_wf); vm_compute; reflexivity.
Defined.

Lemma report_errors_by_row_witness :
  error_row <$> report_errors (built id sample_report) = [1; 3] ∧
  grouped (errors_on_the_wire (fields_of (built id sample_report))) (report_errors (built id sample_report)).
Proof.
  split; [vm_compute; reflexivity|]. apply (report_errors_by_row id id sample_report).
  vm_compute. reflexivity.
Defined.
