(* ===== verification/CsvImport.v ===== *)
(** * CsvImport: the import of master data ([ea-draft], [csv_import.rs] and
    [master_data.rs])

    Parsing of the two frozen CSV formats into accepted rows and findings, the
    dry run, the commit of an unchanged input and the master data repository
    with its snapshots ([ea-schema], [model.rs]).

    SHA-256, the object hash, Unicode normalization and the clock are
    parameters. The encrypted database is a record of its three tables with
    the constraints of the migration [0003_master_data.sql], and a list that
    says which of its next statements fail. *)

From S2P Require Import Prelude Types Utf8 Cbor CborSpec CborTheorems Str ArchivePath PublicationQueue Profile ImportReport.
Import Fmt(FormatError, format_error_code).
Import Issue(ImportIssueCodeV1, issue_code, is_warning, is_file_wide, issue_name).

(** ** Errors *)

Module Store.
(** The arms of [StoreError] that a statement can end in. *)
Inductive StoreError := Database | Constraint | Shape.

Definition store_error_code (e : StoreError) : string :=
  match e with
  | Database => "EA-STORE-DATABASE" | Constraint => "EA-STORE-CONSTRAINT" | Shape => "EA-STORE-SHAPE"
  end.
End Store.

Inductive MasterDataError :=
| UnknownMasterId | SnapshotError | RevisionOverflow | StoreFailed (e : Store.StoreError).

Definition master_data_error_code (e : MasterDataError) : string :=
  match e with
  | UnknownMasterId => "EA-MASTER-UNKNOWN-ID"
  | SnapshotError => "EA-MASTER-SNAPSHOT"
  | RevisionOverflow => "EA-MASTER-REVISION-OVERFLOW"
  | StoreFailed e => Store.store_error_code e
  end.

Module Csv.
Inductive ImportError :=
| ByteOrderMark | NotUtf8 | UnknownHeader (expected : str) | DuplicateHeaderColumn
| AccessFormatDetected | InputTooLarge | ReportHasErrors | InputChanged | ReportMismatch
| Report (e : FormatError) | MasterData (e : MasterDataError).

Definition import_error_code (e : ImportError) : string :=
  match e with
  | ByteOrderMark => "EA-IMPORT-BYTE-ORDER-MARK"
  | NotUtf8 => "EA-IMPORT-NOT-UTF8"
  | UnknownHeader _ => "EA-IMPORT-UNKNOWN-HEADER"
  | DuplicateHeaderColumn => "EA-IMPORT-DUPLICATE-HEADER-COLUMN"
  | AccessFormatDetected => "EA-IMPORT-ACCESS-FORMAT"
  | InputTooLarge => "EA-IMPORT-INPUT-TOO-LARGE"
  | ReportHasErrors => "EA-IMPORT-REPORT-HAS-ERRORS"
  | InputChanged => "EA-IMPORT-INPUT-CHANGED"
  | ReportMismatch => "EA-IMPORT-REPORT-MISMATCH"
  | Report e => format_error_code e
  | MasterData e => master_data_error_code e
  end.

(** [ImportError::issue_code]. *)
Definition file_issue (e : ImportError) : option ImportIssueCodeV1 :=
  match e with
  | ByteOrderMark => Some Issue.ByteOrderMarkPresent
  | NotUtf8 => Some Issue.InputNotUtf8
  | UnknownHeader _ => Some Issue.UnknownHeader
  | DuplicateHeaderColumn => Some Issue.DuplicateHeaderColumn
  | AccessFormatDetected => Some Issue.AccessFormatDetected
  | _ => None
  end.
End Csv.
Import Csv(ImportError, file_issue).

(** [From<FormatError>]. *)
Definition reported {A} (r : result FormatError A) : result ImportError A :=
  match r with Ok a => Ok a | Err e => Err (Csv.Report e) end.

(** ** Rows *)

Record ImportedPersonRowV1 := {
  ip_master_personnel_id : str;
  ip_display_name : str;
  ip_role_or_function : option str;
  ip_active : bool;
}.

Record ImportedVehicleRowV1 := {
  iv_master_vehicle_id : str;
  iv_display_name : str;
  iv_radio_call_sign : option str;
  iv_license_plate : option str;
  iv_active : bool;
}.

Inductive ImportedRowsV1 :=
| PersonRows (rows : list ImportedPersonRowV1)
| VehicleRows (rows : list ImportedVehicleRowV1).

(** ** Parsing *)

Definition UTF8_BOM : list byte := [xef; xbb; xbf].
Definition ACCESS_MAGICS : list (list byte) :=
  [ [x00; x01; x00; x00] ++ lit "Standard Jet DB"; [x00; x01; x00; x00] ++ lit "Standard ACE DB" ].

Definition MAX_INPUT_BYTES : Z := 1048576.
Definition SNAPSHOT_TEXT_MAX_CHARS_V1 : Z := 200.
Definition MAX_FIELD_CHARS : Z := SNAPSHOT_TEXT_MAX_CHARS_V1.
Definition ID_COLUMN : str := lit "id".
Definition DISPLAY_NAME_COLUMN : str := lit "display_name".
Definition ACTIVE_COLUMN : str := lit "active".

Definition newline : byte := x0a.
Definition carriage_return : byte := x0d.
Definition comma : byte := x2c.

(** [chars().count()]: the bytes that do not continue a character. *)
Definition char_count (s : str) : Z :=
  len (List.filter (λ b, negb ((128 <=? u8 b) && (u8 b <=? 191))) s).

(** [strip_suffix('\r').unwrap_or(..)]. *)
Definition strip_cr (line : str) : str :=
  match last line with
  | Some b => if decide (b = carriage_return) then removelast line else line
  | None => line
  end.

(** A column that occurs before. *)
Fixpoint duplicate_column (before columns : list str) : bool :=
  match columns with
  | [] => false
  | c :: columns => bool_decide (c ∈ before) || duplicate_column (before ++ [c]) columns
  end.

(** [data.split_last()] with an empty last line. *)
Definition without_terminator (data : list str) : list str :=
  match last data with Some [] => removelast data | _ => data end.

(** [rposition(|line| !line.is_empty())]. *)
Fixpoint last_filled (data : list str) : option nat :=
  match data with
  | [] => None
  | l :: data =>
      match last_filled data with
      | Some n => Some (S n)
      | None => if is_empty l then None else Some O
      end
  end.

Definition optional_field (value : str) : option str := if is_empty value then None else Some value.

(** The variables of the loop. *)
Record Parsing := {
  p_warnings : list ImportIssueV1;
  p_errors : list ImportIssueV1;
  p_persons : list ImportedPersonRowV1;
  p_vehicles : list ImportedVehicleRowV1;
  p_seen_ids : list str;
  p_total : Z;
  p_accepted : Z;
  p_rejected : Z;
}.

Definition no_rows : Parsing :=
  {| p_warnings := []; p_errors := []; p_persons := []; p_vehicles := []; p_seen_ids := [];
     p_total := 0; p_accepted := 0; p_rejected := 0 |}.

Definition push_issue (r : Z) (c : option str) (code : ImportIssueCodeV1) (l : list ImportIssueV1)
    : result ImportError (list ImportIssueV1) :=
  i ← reported (ImportIssueV1_new r c code); Ok (l ++ [i]).

Definition warn (l : list ImportIssueV1) (p : Parsing) : Parsing :=
  {| p_warnings := l; p_errors := p_errors p; p_persons := p_persons p; p_vehicles := p_vehicles p;
     p_seen_ids := p_seen_ids p; p_total := p_total p; p_accepted := p_accepted p; p_rejected := p_rejected p |}.

Definition see_id (id : str) (p : Parsing) : Parsing :=
  {| p_warnings := p_warnings p; p_errors := p_errors p; p_persons := p_persons p; p_vehicles := p_vehicles p;
     p_seen_ids := id :: p_seen_ids p; p_total := p_total p; p_accepted := p_accepted p; p_rejected := p_rejected p |}.

Definition count_row (p : Parsing) : Parsing :=
  {| p_warnings := p_warnings p; p_errors := p_errors p; p_persons := p_persons p; p_vehicles := p_vehicles p;
     p_seen_ids := p_seen_ids p; p_total := p_total p + 1; p_accepted := p_accepted p; p_rejected := p_rejected p |}.

Definition reject_row (errors : list ImportIssueV1) (p : Parsing) : Parsing :=
  {| p_warnings := p_warnings p; p_errors := p_errors p ++ errors; p_persons := p_persons p;
     p_vehicles := p_vehicles p; p_seen_ids := p_seen_ids p; p_total := p_total p;
     p_accepted := p_accepted p; p_rejected := p_rejected p + 1 |}.

Definition accept_row (kind : ImportSourceKindV1) (fields : list str) (active : bool) (p : Parsing) : Parsing :=
  let field n := default [] (fields !! n) in
  {| p_warnings := p_warnings p; p_errors := p_errors p;
     p_persons := p_persons p ++ match kind with
       | Persons => [{| ip_master_personnel_id := field 0%nat; ip_display_name := field 1%nat;
                        ip_role_or_function := optional_field (field 2%nat); ip_active := active |}]
       | Vehicles => [] end;
     p_vehicles := p_vehicles p ++ match kind with
       | Persons => []
       | Vehicles => [{| iv_master_vehicle_id := field 0%nat; iv_display_name := field 1%nat;
                         iv_radio_call_sign := optional_field (field 2%nat);
                         iv_license_plate := optional_field (field 3%nat); iv_active := active |}] end;
     p_seen_ids := p_seen_ids p; p_total := p_total p; p_accepted := p_accepted p + 1;
     p_rejected := p_rejected p |}.

(** The loop over the columns of a row: its errors and whether it is active. *)
Fixpoint check_fields (r : Z) (columns fields : list str) (row_errors : list ImportIssueV1) (active : bool)
    : result ImportError (list ImportIssueV1 * bool) :=
  match columns, fields with
  | column :: columns, value :: fields =>
      if char_count value >? MAX_FIELD_CHARS then
        row_errors ← push_issue r (Some column) Issue.ValueTooLong row_errors;
        check_fields r columns fields row_errors active
      else if (bool_decide (column = ID_COLUMN) || bool_decide (column = DISPLAY_NAME_COLUMN)) && is_empty value then
        row_errors ← push_issue r (Some column) Issue.EmptyRequiredValue row_errors;
        check_fields r columns fields row_errors active
      else if bool_decide (column = ACTIVE_COLUMN) then
        if bool_decide (value = lit "true") then check_fields r columns fields row_errors true
        else if bool_decide (value = lit "false") then check_fields r columns fields row_errors false
        else
          row_errors ← push_issue r (Some column) Issue.InvalidBoolean row_errors;
          check_fields r columns fields row_errors active
      else check_fields r columns fields row_errors active
  | _, _ => Ok (row_errors, active)
  end.

(** [BTreeSet::contains]; the set is the list of what was inserted. *)
Definition contains_id (seen : list str) (id : str) : bool := bool_decide (id ∈ seen).

(** One line of the data, at [position]. *)
Definition parse_line (kind : ImportSourceKindV1) (columns : list str) (filled : option nat)
    (position : nat) (line : str) (p : Parsing) : result ImportError Parsing :=
  let r := Z.of_nat position + 1 in
  if is_empty line then
    if match filled with None => true | Some filled => bool_decide (filled < position)%nat end then
      w ← push_issue r None Issue.TrailingEmptyLineSkipped (p_warnings p);
      Ok (warn w p)
    else
      e ← push_issue r None Issue.FieldCountMismatch [];
      Ok (reject_row e (count_row p))
  else
    let p := count_row p in
    let fields := split comma line in
    if bool_decide (length fields ≠ length columns) then
      e ← push_issue r None Issue.FieldCountMismatch [];
      Ok (reject_row e p)
    else
      '(row_errors, active) ← check_fields r columns fields [] false;
      let id := default [] (head fields) in
      '(row_errors, p) ←
        (if is_empty id then Ok (row_errors, p)
         else if contains_id (p_seen_ids p) id then
           row_errors ← push_issue r (Some ID_COLUMN) Issue.DuplicateMasterId row_errors;
           Ok (row_errors, p)
         else Ok (row_errors, see_id id p));
      if is_empty row_errors then
        p ← (if active then Ok p
             else w ← push_issue r (Some ACTIVE_COLUMN) Issue.InactiveRowImported (p_warnings p);
                  Ok (warn w p));
        Ok (accept_row kind fields active p)
      else Ok (reject_row row_errors p).

Fixpoint parse_lines (kind : ImportSourceKindV1) (columns : list str) (filled : option nat)
    (position : nat) (data : list str) (p : Parsing) : result ImportError Parsing :=
  match data with
  | [] => Ok p
  | line :: data =>
      p ← parse_line kind columns filled position line p;
      parse_lines kind columns filled (S position) data p
  end.

(** The lines after the header, without the terminator. *)
Definition data_lines (lines : list str) : list str := without_terminator (strip_cr <$> lines).

Record ParsedImport := { report : ImportReportV1; rows : ImportedRowsV1 }.

(** What is refused before the rows are read: the header's columns or the
    lines of the input. *)
Definition open_input (source : ImportSourceKindV1) (input : list byte)
    : result ImportError (list str * list str) :=
  if len input >? MAX_INPUT_BYTES then Err Csv.InputTooLarge else
  if starts_with UTF8_BOM input then Err Csv.ByteOrderMark else
  if existsb (λ magic, starts_with magic input) ACCESS_MAGICS then Err Csv.AccessFormatDetected else
  text ← ok_or Csv.NotUtf8 ((λ _, input) <$> from_utf8 input);
  let lines := split newline text in
  let header := strip_cr (default [] (head lines)) in
  let columns := split comma header in
  if duplicate_column [] columns then Err Csv.DuplicateHeaderColumn else
  if bool_decide (header ≠ header_line source) then Err (Csv.UnknownHeader (header_line source)) else
  Ok (columns, tail lines).

Section Importer.
Context (nfc : list Z → list Z) (object_hash : list byte → ObjectHash) (raw_sha256 : list byte → Hash32).

(** [CsvImporter::parse]; [now] is the clock at its end. *)
Definition parse (now : Z) (source : ImportSourceKindV1) (input : list byte)
    : result ImportError ParsedImport :=
  '(columns, lines) ← open_input source input;
  let data := data_lines lines in
  p ← parse_lines source columns (last_filled data) 0 data no_rows;
  report ← reported (ImportReport_new nfc object_hash
    {| source_kind := source; source_format_version := SOURCE_FORMAT_VERSION;
       input_file_hash := raw_sha256 input; report_header_line := header_line source;
       imported_at := now; row_count_total := p_total p; row_count_accepted := p_accepted p;
       row_count_rejected := p_rejected p; warnings := p_warnings p; errors_on_the_wire := p_errors p |});
  Ok {| report := report;
        rows := match source with
                | Persons => PersonRows (p_persons p)
                | Vehicles => VehicleRows (p_vehicles p) end |}.

Definition dry_run (now : Z) (source : ImportSourceKindV1) (input : list byte)
    : result ImportError ImportReportV1 :=
  p ← parse now source input; Ok (report p).
End Importer.

(** ** What a row must satisfy

    A reading of the format that does not mention the order of checks. *)

Section Rows.
Context (kind : ImportSourceKindV1) (data : list str).

Definition columns_of : list str := split comma (header_line kind).

(** The fields of a line that has as many as the header has columns. *)
Definition fields_at (n : nat) : option (list str) :=
  line ← data !! n;
  if is_empty line then None else
  if bool_decide (length (split comma line) = length columns_of) then Some (split comma line) else None.

(** Line [n] belongs to the blank lines at the end. *)
Definition trailing (n : nat) : Prop := ∀ m line, (n ≤ m)%nat → data !! m = Some line → line = [].

Inductive field_violation (column value : str) : ImportIssueCodeV1 → Prop :=
| TooLong : MAX_FIELD_CHARS < char_count value → field_violation column value Issue.ValueTooLong
| Missing : column = ID_COLUMN ∨ column = DISPLAY_NAME_COLUMN → value = [] →
    field_violation column value Issue.EmptyRequiredValue
| NotBoolean : column = ACTIVE_COLUMN → char_count value ≤ MAX_FIELD_CHARS → value ≠ lit "true" →
    value ≠ lit "false" → field_violation column value Issue.InvalidBoolean.

Inductive violates : ImportIssueV1 → Prop :=
| WrongCount n : is_Some (data !! n) → ¬ trailing n → fields_at n = None →
    violates {| row := Z.of_nat n + 1; column := None; issue := Issue.FieldCountMismatch |}
| FieldViolation n fields j column value code :
    fields_at n = Some fields → columns_of !! j = Some column → fields !! j = Some value →
    field_violation column value code →
    violates {| row := Z.of_nat n + 1; column := Some column; issue := code |}
| RepeatedId n m id rest rest' :
    fields_at n = Some (id :: rest) → id ≠ [] → (m < n)%nat → fields_at m = Some (id :: rest') →
    violates {| row := Z.of_nat n + 1; column := Some ID_COLUMN; issue := Issue.DuplicateMasterId |}.

(** A row without violations. *)
Definition accepted_at (n : nat) : Prop :=
  is_Some (fields_at n) ∧ ∀ i, violates i → row i ≠ Z.of_nat n + 1.

(** Its last field, [active]. *)
Definition active_field (fields : list str) : bool := bool_decide (last fields = Some (lit "true")).

Inductive warned : ImportIssueV1 → Prop :=
| SkippedLine n : is_Some (data !! n) → trailing n →
    warned {| row := Z.of_nat n + 1; column := None; issue := Issue.TrailingEmptyLineSkipped |}
| InactiveRow n fields : accepted_at n → fields_at n = Some fields → active_field fields = false →
    warned {| row := Z.of_nat n + 1; column := Some ACTIVE_COLUMN; issue := Issue.InactiveRowImported |}.

(** The lines that are rows. *)
Definition row_lines : nat := match last_filled data with Some n => S n | None => 0%nat end.
End Rows.

Definition person_of (fields : list str) : ImportedPersonRowV1 :=
  let field n := default [] (fields !! n) in
  {| ip_master_personnel_id := field 0%nat; ip_display_name := field 1%nat;
     ip_role_or_function := optional_field (field 2%nat); ip_active := active_field fields |}.

Definition vehicle_of (fields : list str) : ImportedVehicleRowV1 :=
  let field n := default [] (fields !! n) in
  {| iv_master_vehicle_id := field 0%nat; iv_display_name := field 1%nat;
     iv_radio_call_sign := optional_field (field 2%nat); iv_license_plate := optional_field (field 3%nat);
     iv_active := active_field fields |}.

(** ** The loop computes it *)

Lemma last_filled_None data : last_filled data = None → trailing data 0.
Proof.
  induction data as [|l data IH]; [by intros _ m line|]. cbn. destruct (last_filled data); [done|].
  destruct (is_empty l) eqn:E; [|done]. apply is_empty_true in E as ->. intros _ [|m] line _ Hl; [by injection Hl|].
  by apply (IH eq_refl m); [lia|].
Qed.

Lemma last_filled_spec data n :
  last_filled data = Some n → (∃ line, data !! n = Some line ∧ line ≠ []) ∧ trailing data (S n).
Proof.
  revert n. induction data as [|l data IH]; intros n; [done|]. cbn.
  pose proof (last_filled_None data) as Hnone.
  destruct (last_filled data) as [k|].
  - intros [= <-]. destruct (IH k eq_refl) as [? Ht]. split; [done|].
    intros [|m] line Hm Hl; [lia|]. apply (Ht m); [lia|done].
  - destruct (is_empty l) eqn:E; [done|]. intros [= <-]. apply is_empty_false in E. split; [by exists l|].
    intros [|m] line Hm Hl; [lia|]. by apply (Hnone eq_refl m); [lia|].
Qed.

Lemma push_issue_row r c code l :
  is_file_wide code = false → r ≠ 0 →
  push_issue r c code l = Ok (l ++ [{| row := r; column := c; issue := code |}]).
Proof.
  intros Hc Hr. unfold push_issue, ImportIssueV1_new. rewrite Hc. by rewrite (proj2 (Z.eqb_neq r 0) Hr).
Qed.

Lemma blank_trailing data n :
  data !! n = Some [] →
  match last_filled data with None => true | Some f => bool_decide (f < n)%nat end = true ↔ trailing data n.
Proof.
  intros Hn. destruct (last_filled data) as [f|] eqn:E.
  - apply last_filled_spec in E as [(line & Hl & Hne) Ht]. rewrite bool_decide_eq_true. split.
    + intros Hf m line' Hm. apply Ht. lia.
    + intros H. apply Nat.nle_gt. intros Hle. by apply Hne, (H f).
  - apply last_filled_None in E. split; [|done]. intros _ m line Hm. apply E. lia.
Qed.

(** The finding of one field. *)
Definition field_issue (r : Z) (c v : str) : list ImportIssueV1 :=
  let found code := [{| row := r; column := Some c; issue := code |}] in
  if char_count v >? MAX_FIELD_CHARS then found Issue.ValueTooLong else
  if (bool_decide (c = ID_COLUMN) || bool_decide (c = DISPLAY_NAME_COLUMN)) && is_empty v
  then found Issue.EmptyRequiredValue else
  if bool_decide (c = ACTIVE_COLUMN) && negb (bool_decide (v = lit "true")) && negb (bool_decide (v = lit "false"))
  then found Issue.InvalidBoolean else [].

Definition field_issues (r : Z) (columns fields : list str) : list ImportIssueV1 :=
  concat (zip_with (field_issue r) columns fields).

Lemma elem_of_field_issue r c v i :
  i ∈ field_issue r c v ↔
  ∃ code, field_violation c v code ∧ i = {| row := r; column := Some c; issue := code |}.
Proof.
  unfold field_issue. rewrite Z.gtb_ltb. destruct (Z.ltb_spec MAX_FIELD_CHARS (char_count v)) as [Hl|Hl].
  { rewrite list_elem_of_singleton. split; [intros ->; eexists; split; [by apply TooLong|done]|].
    intros (code & [H|H ->|H H' _ _] & ->); [done|done|lia]. }
  destruct (_ && _) eqn:E.
  { apply andb_true_iff in E as [Hc Hv]. rewrite orb_true_iff, !bool_decide_eq_true in Hc.
    apply is_empty_true in Hv. rewrite list_elem_of_singleton.
    split; [intros ->; eexists; split; [by apply Missing|done]|].
    intros (code & [H|H _|H _ _ _] & ->); [lia|done|]. exfalso. subst. by destruct Hc. }
  destruct (_ && _) eqn:E' in |- *.
  { rewrite !andb_true_iff, !negb_true_iff, !bool_decide_eq_true, !bool_decide_eq_false in E'.
    destruct E' as [[-> ?] ?].
    rewrite list_elem_of_singleton. split; [intros ->; eexists; split; [by apply NotBoolean|done]|].
    intros (code & [H'|H' Hv|H' _ _ _] & ->); [lia| |done]. exfalso. by destruct H'. }
  rewrite elem_of_nil. split; [done|]. intros (code & [H|H Hv|H _ Ht Hf] & ->); [lia| |].
  - subst. rewrite andb_false_iff, orb_false_iff, !bool_decide_eq_false in E. naive_solver.
  - rewrite (bool_decide_eq_true_2 (c = _) H), (bool_decide_eq_false_2 _ Ht), (bool_decide_eq_false_2 _ Hf) in E'. done.
Qed.

Lemma check_fields_run r columns fields es a :
  r ≠ 0 → ∃ a', check_fields r columns fields es a = Ok (es ++ field_issues r columns fields, a').
Proof.
  intros Hr. revert fields es a. induction columns as [|c columns IH]; intros [|v fields] es a; cbn [check_fields];
    try by eexists; rewrite app_nil_r.
  unfold field_issues. cbn [zip_with concat]. fold (field_issues r columns fields). unfold field_issue.
  repeat case_match; rewrite ?push_issue_row by done; cbn [mbind result_bind];
    rewrite ?(assoc_L (++)); try apply IH; cbn [app]; rewrite ?app_nil_r; try apply IH;
    repeat match goal with H : _ && _ = _ |- _ => rewrite ?andb_true_iff, ?andb_false_iff in H end; naive_solver.
Qed.

Lemma check_fields_active r columns fields a :
  length fields = length columns → last columns = Some ACTIVE_COLUMN →
  field_issues r columns fields = [] →
  check_fields r columns fields [] a = Ok ([], active_field fields).
Proof.
  revert fields a. induction columns as [|c columns IH]; intros [|v fields] a Hlen Hl Hi; try done.
  unfold field_issues in Hi. cbn [zip_with concat] in Hi. apply app_eq_nil in Hi as [Hv Hi].
  fold (field_issues r columns fields) in Hi. cbn [check_fields].
  destruct columns as [|c' columns].
  - destruct fields; [|done]. injection Hl as ->. unfold field_issue in Hv. unfold active_field. cbn [last].
    destruct (char_count v >? MAX_FIELD_CHARS); [done|]. destruct (_ && is_empty v); [done|].
    cbn [negb andb] in Hv. rewrite bool_decide_eq_true_2 in * by done.
    case_bool_decide as Ht; [by rewrite bool_decide_eq_true_2 by congruence|].
    case_bool_decide; [|done]. by rewrite bool_decide_eq_false_2 by congruence.
  - assert (last (v :: fields) = last fields) as Hlast by (by destruct fields).
    assert (∀ a, check_fields r (c' :: columns) fields [] a = Ok ([], active_field (v :: fields))) as Hrec.
    { intros a'. unfold active_field. rewrite Hlast. apply IH; [by injection Hlen|by destruct columns|done]. }
    unfold field_issue in Hv. repeat (case_match; try done); try apply Hrec.
Qed.

Definition duplicate_issue (r : Z) (seen : list str) (id : str) : list ImportIssueV1 :=
  if negb (is_empty id) && contains_id seen id
  then [{| row := r; column := Some ID_COLUMN; issue := Issue.DuplicateMasterId |}] else [].

Definition see_new (id : str) (p : Parsing) : Parsing :=
  if is_empty id || contains_id (p_seen_ids p) id then p else see_id id p.

(** A line with the right number of fields. *)
Lemma parse_line_fields kind filled n line p :
  line ≠ [] → length (split comma line) = length (columns_of kind) →
  let fields := split comma line in
  let r := Z.of_nat n + 1 in
  let id := default [] (head fields) in
  let es := field_issues r (columns_of kind) fields ++ duplicate_issue r (p_seen_ids p) id in
  let q := see_new id (count_row p) in
  parse_line kind (columns_of kind) filled n line p =
    Ok (match es with
        | [] => accept_row kind fields (active_field fields)
                  (warn (p_warnings p ++ if active_field fields then []
                           else [{| row := r; column := Some ACTIVE_COLUMN; issue := Issue.InactiveRowImported |}]) q)
        | _ => reject_row es q
        end).
Proof.
  intros Hne Hlen fields r id es q. unfold parse_line. rewrite (proj2 (is_empty_false line) Hne).
  cbn zeta. fold fields r. rewrite bool_decide_eq_false_2 by (intros H; by apply H).
  assert (r ≠ 0) as Hr by (unfold r; lia).
  destruct (check_fields_run r (columns_of kind) fields [] false Hr) as [a' Hc]. rewrite Hc. cbn [mbind result_bind app].
  fold id.
  assert ((if is_empty id then Ok (field_issues r (columns_of kind) fields, count_row p)
     else if contains_id (p_seen_ids (count_row p)) id
     then row_errors ← push_issue r (Some ID_COLUMN) Issue.DuplicateMasterId (field_issues r (columns_of kind) fields);
          Ok (row_errors, count_row p)
     else Ok (field_issues r (columns_of kind) fields, see_id id (count_row p)))
     = Ok (E := ImportError) (es, q)) as ->.
  { unfold es, q, duplicate_issue, see_new. cbn [p_seen_ids count_row].
    destruct (is_empty id); cbn [negb andb orb]; [by rewrite app_nil_r|].
    change (p_seen_ids (count_row p)) with (p_seen_ids p).
    destruct (contains_id (p_seen_ids p) id); [rewrite (push_issue_row r _ Issue.DuplicateMasterId _ eq_refl Hr); reflexivity|by rewrite app_nil_r]. }
  cbn [mbind result_bind]. destruct es as [|e es'] eqn:Ees; [|done]. cbn [is_empty].
  apply app_eq_nil in Ees as [Hf Hd].
  rewrite (check_fields_active r (columns_of kind) fields false Hlen) in Hc by (done || by destruct kind).
  injection Hc as _ Ha. rewrite <- Ha.
  assert (p_warnings q = p_warnings p) as Hw by (unfold q, see_new; by destruct (_ || _)).
  destruct (active_field fields); cbn [mbind result_bind].
  - rewrite app_nil_r, <- Hw. by destruct q.
  - rewrite push_issue_row by done. cbn. by rewrite Hw.
Qed.

Section Loop.
Context (kind : ImportSourceKindV1) (data : list str).

(** What the loop variables hold after the first [n] lines. *)
Record parsed_upto (n : nat) (p : Parsing) : Prop := {
  u_errors : ∀ i, i ∈ p_errors p ↔ violates kind data i ∧ row i ≤ Z.of_nat n;
  u_errors_NoDup : NoDup (p_errors p);
  u_warnings : ∀ i, i ∈ p_warnings p ↔ warned kind data i ∧ row i ≤ Z.of_nat n;
  u_warnings_NoDup : NoDup (p_warnings p);
  u_seen : ∀ id, id ∈ p_seen_ids p ↔
    id ≠ [] ∧ ∃ m rest, (m < n)%nat ∧ fields_at kind data m = Some (id :: rest);
  u_total : p_total p = Z.of_nat (min n (row_lines data));
  u_counts : p_total p = p_accepted p + p_rejected p;
  u_rejected : 0 ≤ p_rejected p;
  u_rows : ∃ ps, StronglySorted lt ps ∧ (∀ m, m ∈ ps ↔ (m < n)%nat ∧ accepted_at kind data m)
    ∧ p_accepted p = len ps
    ∧ match kind with
      | Persons => Forall2 (λ m r, person_of <$> fields_at kind data m = Some r) ps (p_persons p)
      | Vehicles => Forall2 (λ m r, vehicle_of <$> fields_at kind data m = Some r) ps (p_vehicles p)
      end;
}.

(** The findings of line [n] are appended to those of the lines before. *)
Lemma extend_issues (P : ImportIssueV1 → Prop) n (l es : list ImportIssueV1) :
  (∀ i, i ∈ l ↔ P i ∧ row i ≤ Z.of_nat n) → NoDup l →
  (∀ i, i ∈ es ↔ P i ∧ row i = Z.of_nat n + 1) → NoDup es →
  (∀ i, i ∈ l ++ es ↔ P i ∧ row i ≤ Z.of_nat (S n)) ∧ NoDup (l ++ es).
Proof.
  intros Hl Nl He Ne. split.
  - intros i. rewrite elem_of_app, Hl, He. split; [naive_solver lia|]. intros [HP Hi].
    destruct (decide (row i = Z.of_nat n + 1)); [by right|left; split; [done|lia]].
  - apply NoDup_app. split_and!; [done| |done]. intros i [_ Hi]%Hl [_ Hj]%He. lia.
Qed.

Lemma extend_none (P : ImportIssueV1 → Prop) n (l : list ImportIssueV1) :
  (∀ i, i ∈ l ↔ P i ∧ row i ≤ Z.of_nat n) → (∀ i, P i → row i ≠ Z.of_nat n + 1) →
  ∀ i, i ∈ l ↔ P i ∧ row i ≤ Z.of_nat (S n).
Proof.
  intros Hl Hn i. rewrite Hl. split; [naive_solver lia|]. intros [HP Hi]. split; [done|].
  specialize (Hn i HP). lia.
Qed.

Lemma row_inj n m : Z.of_nat n + 1 = Z.of_nat m + 1 → n = m.
Proof. lia. Qed.

Lemma trailing_fields n : trailing data n → fields_at kind data n = None.
Proof.
  intros Ht. unfold fields_at. destruct (data !! n) as [line|] eqn:E; [|done]. cbn.
  by rewrite (Ht n line (le_n n) E).
Qed.

Lemma fields_at_line n line :
  data !! n = Some line →
  fields_at kind data n =
    if is_empty line then None else
    if bool_decide (length (split comma line) = length (columns_of kind)) then Some (split comma line) else None.
Proof. unfold fields_at. by intros ->. Qed.

(** No row, no findings of fields. *)
Lemma violates_no_fields n i :
  fields_at kind data n = None → violates kind data i → row i = Z.of_nat n + 1 →
  i = {| row := Z.of_nat n + 1; column := None; issue := Issue.FieldCountMismatch |}
  ∧ is_Some (data !! n) ∧ ¬ trailing data n.
Proof.
  intros Hf [m Hs Ht Hm|m fs j c v code Hm _ _ _|m k id rs rs' Hm _ _ _] E%row_inj; cbn in *; subst; try congruence.
  done.
Qed.

Lemma row_lines_le n : is_Some (data !! n) → ¬ trailing data n → (n < row_lines data)%nat.
Proof.
  intros _ Ht. unfold row_lines. destruct (last_filled data) as [f|] eqn:E.
  - apply last_filled_spec in E as [_ H]. apply Nat.nle_gt. intros Hle. apply Ht. intros m line Hm. apply H. lia.
  - apply last_filled_None in E. destruct Ht. intros m line Hm. apply E. lia.
Qed.

Lemma row_lines_ge n : trailing data n → (row_lines data ≤ n)%nat.
Proof.
  intros Ht. unfold row_lines. destruct (last_filled data) as [f|] eqn:E; [|lia].
  apply last_filled_spec in E as [(line & Hl & Hne) _]. apply Nat.nlt_ge. intros Hlt. by apply Hne, (Ht f line); [lia|].
Qed.

(** A line without accepted fields adds no accepted row. *)
Lemma rows_skip n p :
  parsed_upto n p → ¬ accepted_at kind data n →
  ∃ ps, StronglySorted lt ps ∧ (∀ m, m ∈ ps ↔ (m < S n)%nat ∧ accepted_at kind data m)
    ∧ p_accepted p = len ps
    ∧ match kind with
      | Persons => Forall2 (λ m r, person_of <$> fields_at kind data m = Some r) ps (p_persons p)
      | Vehicles => Forall2 (λ m r, vehicle_of <$> fields_at kind data m = Some r) ps (p_vehicles p)
      end.
Proof.
  intros U Hn. destruct (u_rows _ _ U) as (ps & H1 & H2 & H3 & H4). exists ps. split_and!; try done.
  intros m. rewrite H2. split; [naive_solver lia|]. intros [Hm Ha]. split; [|done].
  destruct (decide (m = n)) as [->|]; [done|lia].
Qed.

Lemma seen_skip n p :
  parsed_upto n p → fields_at kind data n = None →
  ∀ id, id ∈ p_seen_ids p ↔ id ≠ [] ∧ ∃ m rest, (m < S n)%nat ∧ fields_at kind data m = Some (id :: rest).
Proof.
  intros U Hn id. rewrite (u_seen _ _ U).
  split; [intros [? (m & rest & ? & ?)]; split; [done|]; exists m, rest; split; [lia|done]|]. intros [Hne (m & rest & Hm & Hf)].
  split; [done|]. exists m, rest. split; [|done]. destruct (decide (m = n)) as [->|]; [congruence|lia].
Qed.

Lemma not_accepted n : fields_at kind data n = None → ¬ accepted_at kind data n.
Proof. intros E [[? ?] _]. congruence. Qed.

Lemma elem_of_field_issues r columns fields i :
  i ∈ field_issues r columns fields ↔
  ∃ j c v code, columns !! j = Some c ∧ fields !! j = Some v ∧ field_violation c v code
    ∧ i = {| row := r; column := Some c; issue := code |}.
Proof.
  revert fields. induction columns as [|c columns IH]; intros [|v fields].
  1-3: unfold field_issues; cbn; rewrite elem_of_nil; split; [done|];
    intros (j & c' & v' & code & H1 & H2 & _); by destruct j.
  unfold field_issues. cbn [zip_with concat]. fold (field_issues r columns fields).
  rewrite elem_of_app, elem_of_field_issue, IH. split.
  - intros [(code & H & ->)|(j & c' & v' & code & H)]; [by exists 0%nat, c, v, code|by exists (S j), c', v', code].
  - intros ([|j] & c' & v' & code & H1 & H2 & H); cbn in H1, H2; [|right; by exists j, c', v', code].
    simplify_eq. left. by exists code.
Qed.

Lemma NoDup_field_issues r columns fields : NoDup columns → NoDup (field_issues r columns fields).
Proof.
  intros Hc. revert fields. induction Hc as [|c columns Hn Hc IH]; intros [|v fields]; try constructor.
  unfold field_issues. cbn [zip_with concat]. fold (field_issues r columns fields). apply NoDup_app. split_and!; [| |done].
  - unfold field_issue. repeat case_match; repeat constructor; by intros ?%elem_of_nil.
  - intros i (code & _ & ->)%elem_of_field_issue (j & c' & v' & code' & Hj & _ & _ & E)%elem_of_field_issues.
    simplify_eq. apply Hn. by eapply list_elem_of_lookup_2.
Qed.

Lemma columns_of_NoDup : NoDup (columns_of kind).
Proof. apply (bool_decide_eq_true_1 _). by destruct kind. Qed.

Definition row_issues (n : nat) (p : Parsing) (fields : list str) : list ImportIssueV1 :=
  field_issues (Z.of_nat n + 1) (columns_of kind) fields
  ++ duplicate_issue (Z.of_nat n + 1) (p_seen_ids p) (default [] (head fields)).

Lemma elem_of_duplicate_issue r seen id i :
  i ∈ duplicate_issue r seen id ↔
  id ≠ [] ∧ id ∈ seen ∧ i = {| row := r; column := Some ID_COLUMN; issue := Issue.DuplicateMasterId |}.
Proof.
  unfold duplicate_issue, contains_id. destruct (is_empty id) eqn:E; cbn [negb andb].
  { apply is_empty_true in E. rewrite elem_of_nil. naive_solver. }
  apply is_empty_false in E. case_bool_decide; rewrite ?list_elem_of_singleton, ?elem_of_nil; naive_solver.
Qed.

Lemma row_issues_spec n p fields :
  parsed_upto n p → fields_at kind data n = Some fields →
  (∀ i, i ∈ row_issues n p fields ↔ violates kind data i ∧ row i = Z.of_nat n + 1) ∧ NoDup (row_issues n p fields).
Proof.
  intros U Hf. split.
  - intros i. unfold row_issues. rewrite elem_of_app, elem_of_field_issues, elem_of_duplicate_issue, (u_seen _ _ U). split.
    + intros [(j & c & v & code & Hc & Hv & H & ->)|(Hne & (_ & m & rest & Hm & Hg) & ->)].
      * split; [by eapply FieldViolation|done].
      * split; [|done]. destruct fields as [|id fields]; [done|]. by eapply RepeatedId.
    + intros [[m _ _ Hm|m fs j c v code Hm Hc Hv H|m k id rs rs' Hm Hne Hk Hg] E%row_inj]; cbn in *; subst; simplify_eq.
      * left. by exists j, c, v, code.
      * right. cbn. split_and!; eauto.
  - apply NoDup_app. split_and!.
    + apply NoDup_field_issues, columns_of_NoDup.
    + intros i (j & c & v & code & _ & _ & H & ->)%elem_of_field_issues (_ & _ & E)%elem_of_duplicate_issue.
      simplify_eq. inversion H.
    + unfold duplicate_issue. case_match; repeat constructor. by intros ?%elem_of_nil.
Qed.

Lemma accepted_iff n p fields :
  parsed_upto n p → fields_at kind data n = Some fields →
  accepted_at kind data n ↔ row_issues n p fields = [].
Proof.
  intros U Hf. destruct (row_issues_spec n p fields U Hf) as [Hi _]. split.
  - intros [_ Ha]. apply elem_of_nil_inv. intros i [Hv Hr]%Hi. by apply (Ha i).
  - intros E. split; [by eexists|]. intros i Hv Hr. assert (i ∈ row_issues n p fields) as H by (by apply Hi).
    rewrite E in H. by apply elem_of_nil in H.
Qed.

Lemma elem_of_one (P : ImportIssueV1 → Prop) (r : Z) (x : ImportIssueV1) :
  P x → row x = r → (∀ i, P i → row i = r → i = x) → ∀ i, i ∈ [x] ↔ P i ∧ row i = r.
Proof. intros Hx Hr Hu i. rewrite list_elem_of_singleton. split; [by intros ->|intros [? ?]; by apply Hu]. Qed.

Abbreviation step n line p := (parse_line kind (columns_of kind) (last_filled data) n line p).

Lemma step_trailing n p :
  data !! n = Some [] → trailing data n → parsed_upto n p →
  ∃ q, step n [] p = Ok q ∧ parsed_upto (S n) q.
Proof.
  intros Hl Ht U. pose proof (trailing_fields n Ht) as Hf. eexists. split.
  { unfold parse_line. cbn [is_empty]. rewrite (proj2 (blank_trailing data n Hl) Ht).
    rewrite push_issue_row by (done || lia). reflexivity. }
  destruct (extend_issues (warned kind data) n (p_warnings p)
    [{| row := Z.of_nat n + 1; column := None; issue := Issue.TrailingEmptyLineSkipped |}]) as [W1 W2];
    [apply U|apply U| |by repeat constructor; intros ?%elem_of_nil|].
  { apply elem_of_one; [by constructor|done|]. intros i [m _ _|m fs [Hs _] _ _] E%row_inj; cbn in *; subst; [done|].
    destruct Hs. congruence. }
  split; cbn -[Nat.min Z.of_nat Z.add]; try done; try apply U.
  - eapply extend_none; [apply U|]. intros i Hi Hr. by destruct (violates_no_fields n i Hf Hi Hr) as (_ & _ & ?).
  - by apply seen_skip.
  - rewrite (u_total _ _ U). pose proof (row_lines_ge n Ht). lia.
  - apply (rows_skip n p U). by apply not_accepted.
Qed.

Lemma step_miscount n line p :
  data !! n = Some line → ¬ trailing data n → fields_at kind data n = None → parsed_upto n p →
  ∃ q, step n line p = Ok q ∧ parsed_upto (S n) q.
Proof.
  intros Hl Ht Hf U. set (x := {| row := Z.of_nat n + 1; column := None; issue := Issue.FieldCountMismatch |}).
  exists (reject_row [x] (count_row p)). split.
  { unfold parse_line. rewrite (fields_at_line n line Hl) in Hf. destruct (is_empty line) eqn:E.
    - apply is_empty_true in E as ->. pose proof (blank_trailing data n Hl) as Hb.
      destruct (match last_filled data with None => true | Some f => _ end); [by destruct Ht; apply Hb|].
      by rewrite push_issue_row by (done || lia).
    - cbn zeta. case_bool_decide; [done|]. rewrite bool_decide_eq_true_2 by done.
      by rewrite push_issue_row by (done || lia). }
  destruct (extend_issues (violates kind data) n (p_errors p) [x]) as [E1 E2];
    [apply U|apply U| |by repeat constructor; intros ?%elem_of_nil|].
  { apply elem_of_one; [by constructor|done|]. intros i Hi Hr. by destruct (violates_no_fields n i Hf Hi Hr). }
  split; cbn -[Nat.min Z.of_nat Z.add]; try done; try apply U.
  - eapply extend_none; [apply U|]. intros i [m _ Hm|m fs [Hs _] _ _] E%row_inj; cbn in *; subst; [done|].
    destruct Hs. congruence.
  - by apply seen_skip.
  - rewrite (u_total _ _ U). assert (n < row_lines data)%nat by (by apply row_lines_le). lia.
  - rewrite (u_counts _ _ U). lia.
  - pose proof (u_rejected _ _ U). lia.
  - apply (rows_skip n p U). by apply not_accepted.
Qed.

Lemma seen_next n p id rest :
  parsed_upto n p → fields_at kind data n = Some (id :: rest) →
  ∀ i, i ∈ p_seen_ids (see_new id (count_row p)) ↔
    i ≠ [] ∧ ∃ m rest, (m < S n)%nat ∧ fields_at kind data m = Some (i :: rest).
Proof.
  intros U Hf i. assert (i ∈ p_seen_ids (see_new id (count_row p)) ↔ i ∈ p_seen_ids p ∨ (i = id ∧ id ≠ [])) as ->.
  { unfold see_new, contains_id. cbn [p_seen_ids count_row]. destruct (is_empty id) eqn:E; cbn [orb].
    - apply is_empty_true in E. cbn. naive_solver.
    - apply is_empty_false in E. case_bool_decide; cbn; [naive_solver|]. rewrite elem_of_cons. naive_solver. }
  rewrite (u_seen _ _ U). split.
  - intros [[? (m & rs & ? & ?)]|[-> ?]]; (split; [done|]); [exists m, rs|exists n, rest]; (split; [lia|done]).
  - intros [Hne (m & rs & Hm & Hg)]. destruct (decide (m = n)) as [->|]; [right; split; congruence|].
    left. split; [done|]. exists m, rs. split; [lia|done].
Qed.

Lemma fields_at_Some n line fields :
  data !! n = Some line → fields_at kind data n = Some fields →
  line ≠ [] ∧ length (split comma line) = length (columns_of kind) ∧ fields = split comma line
  ∧ ¬ trailing data n ∧ ∃ id rest, fields = id :: rest.
Proof.
  intros Hl Hf. pose proof (trailing_fields n) as Ht. rewrite (fields_at_line n line Hl) in Hf.
  destruct (is_empty line) eqn:E; [done|]. case_bool_decide; [|done]. injection Hf as <-. apply is_empty_false in E.
  split_and!; try done.
  - intros H'. by apply E, (H' n line (le_n n)).
  - destruct (split comma line) eqn:Es; [by apply split_not_nil in Es|eauto].
Qed.

Lemma see_new_same id p :
  p_warnings (see_new id p) = p_warnings p ∧ p_errors (see_new id p) = p_errors p
  ∧ p_persons (see_new id p) = p_persons p ∧ p_vehicles (see_new id p) = p_vehicles p
  ∧ p_total (see_new id p) = p_total p ∧ p_accepted (see_new id p) = p_accepted p
  ∧ p_rejected (see_new id p) = p_rejected p.
Proof. unfold see_new. by destruct (_ || _). Qed.

(** The warning of an accepted row. *)
Lemma warned_row n fields i :
  accepted_at kind data n → fields_at kind data n = Some fields →
  i ∈ (if active_field fields then []
       else [{| row := Z.of_nat n + 1; column := Some ACTIVE_COLUMN; issue := Issue.InactiveRowImported |}]) ↔
  warned kind data i ∧ row i = Z.of_nat n + 1.
Proof.
  intros Ha Hf. assert (∀ i, warned kind data i → row i = Z.of_nat n + 1 →
    active_field fields = false ∧
    i = {| row := Z.of_nat n + 1; column := Some ACTIVE_COLUMN; issue := Issue.InactiveRowImported |}) as Hw.
  { intros j [m _ Hm|m fs _ Hm Hi] E%row_inj; cbn in *; subst; [|by simplify_eq].
    rewrite (trailing_fields n Hm) in Hf. done. }
  destruct (active_field fields) eqn:E.
  - rewrite elem_of_nil. split; [done|]. intros [Hi Hr]. by destruct (Hw i Hi Hr).
  - rewrite list_elem_of_singleton. split; [intros ->; split; [by eapply InactiveRow|done]|].
    intros [Hi Hr]. by destruct (Hw i Hi Hr).
Qed.

Lemma rows_next n p fields ps :
  accepted_at kind data n → fields_at kind data n = Some fields → StronglySorted lt ps →
  (∀ m, m ∈ ps ↔ (m < n)%nat ∧ accepted_at kind data m) → p_accepted p = len ps →
  StronglySorted lt (ps ++ [n]) ∧ (∀ m, m ∈ ps ++ [n] ↔ (m < S n)%nat ∧ accepted_at kind data m)
  ∧ p_accepted p + 1 = len (ps ++ [n]).
Proof.
  intros Ha Hf Hs Hm Hp. split_and!.
  - apply StronglySorted_app. split_and!; [|done|by repeat constructor].
    intros x y [Hx _]%Hm ->%list_elem_of_singleton. done.
  - intros m. rewrite elem_of_app, Hm, list_elem_of_singleton. split.
    + intros [[? ?]| ->]; (split; [lia|done]).
    + intros [? ?]. destruct (decide (m = n)); [by right|left; split; [lia|done]].
  - rewrite len_app, Hp. done.
Qed.

Lemma step_fields n line fields p :
  data !! n = Some line → fields_at kind data n = Some fields → parsed_upto n p →
  ∃ q, step n line p = Ok q ∧ parsed_upto (S n) q.
Proof.
  intros Hl Hf U. destruct (fields_at_Some n line fields Hl Hf) as (Hne & Hlen & Hs & Ht & id & rest & Hid).
  pose proof (parse_line_fields kind (last_filled data) n line p Hne Hlen) as Hstep. cbn zeta in Hstep.
  rewrite <- Hs in Hstep. fold (row_issues n p fields) in Hstep. eexists. split; [exact Hstep|]. clear Hstep.
  destruct (row_issues_spec n p fields U Hf) as [Hi Hn]. pose proof (accepted_iff n p fields U Hf) as Ha.
  pose proof (row_lines_le n ltac:(by eexists) Ht) as Hrow.
  assert (default [] (head fields) = id) as -> by (by rewrite Hid).
  rewrite Hid in Hf. pose proof (seen_next n p id rest U Hf) as Hseen. rewrite <- Hid in Hf.
  destruct (see_new_same id (count_row p)) as (Q1 & Q2 & Q3 & Q4 & Q5 & Q6 & Q7).
  remember (see_new id (count_row p)) as q eqn:Eq. clear Eq. cbn [count_row p_warnings p_errors p_persons p_vehicles
    p_total p_accepted p_rejected] in *.
  destruct (row_issues n p fields) as [|e es'] eqn:Ees.
  - assert (accepted_at kind data n) as Hacc by (by apply Ha).
    set (ws := if active_field fields then [] else _).
    destruct (extend_issues (warned kind data) n (p_warnings p) ws) as [W1 W2];
      [apply U|apply U| | |].
    { intros i. by apply warned_row. }
    { unfold ws. destruct (active_field fields); repeat constructor. by intros ?%elem_of_nil. }
    split; cbn -[Nat.min Z.of_nat Z.add]; rewrite ?Q1, ?Q2, ?Q3, ?Q4, ?Q5, ?Q6, ?Q7; try done; try apply U.
    + eapply extend_none; [apply U|]. intros i Hv Hr. destruct Hacc as [_ Hx]. by apply (Hx i).
    + rewrite (u_total _ _ U). lia.
    + rewrite (u_counts _ _ U). lia.
    + destruct (u_rows _ _ U) as (ps & S1 & S2 & S3 & S4).
      destruct (rows_next n p fields ps Hacc Hf S1 S2 S3) as (T1 & T2 & T3). exists (ps ++ [n]).
      split_and!; try done. clear -S4 Hf. destruct kind; (apply Forall2_app; [done|]);
        constructor; [rewrite Hf; done|constructor|rewrite Hf; done|constructor].
  - destruct (extend_issues (violates kind data) n (p_errors p) (e :: es')) as [E1 E2]; [apply U|apply U|done|done|].
    assert (¬ accepted_at kind data n) as Hacc by (intros H; by apply Ha in H).
    split; cbn -[Nat.min Z.of_nat Z.add]; rewrite ?Q1, ?Q2, ?Q3, ?Q4, ?Q5, ?Q6, ?Q7; try done; try apply U.
    + eapply extend_none; [apply U|]. intros i [m _ Hm|m fs Hm _ _] E%row_inj; cbn in *; subst; done.
    + rewrite (u_total _ _ U). lia.
    + rewrite (u_counts _ _ U). lia.
    + pose proof (u_rejected _ _ U). lia.
    + by apply (rows_skip n p U).
Qed.

Lemma parse_lines_upto rest n p :
  drop n data = rest → parsed_upto n p →
  ∃ q, parse_lines kind (columns_of kind) (last_filled data) n rest p = Ok q ∧ parsed_upto (n + length rest) q.
Proof.
  revert n p. induction rest as [|line rest IH]; intros n p Hd U; cbn [parse_lines length].
  { exists p. by rewrite Nat.add_0_r. }
  assert (data !! n = Some line) as Hl by (rewrite <- (Nat.add_0_r n), <- lookup_drop, Hd; done).
  assert (∃ q, step n line p = Ok q ∧ parsed_upto (S n) q) as (q & -> & Uq).
  { destruct (fields_at kind data n) as [fields|] eqn:Hf; [by eapply step_fields|].
    destruct (decide (Forall (λ l, l = []) (drop n data))) as [Ht|Ht].
    - assert (trailing data n) as Ht'.
      { intros m l Hm Hml. rewrite Forall_lookup in Ht. apply (Ht (m - n)%nat). rewrite lookup_drop.
        by replace (n + (m - n))%nat with m by lia. }
      pose proof (Ht' n line (le_n n) Hl) as ->. by apply step_trailing.
    - apply step_miscount; [done| |done|done]. intros Ht'. apply Ht, Forall_lookup. intros i l Hil.
      rewrite lookup_drop in Hil. apply (Ht' (n + i)%nat l); [lia|done]. }
  cbn [mbind result_bind]. destruct (IH (S n) q) as (q' & -> & U'); [|done|].
  - rewrite <- Nat.add_1_r, <- drop_drop, Hd. done.
  - exists q'. split; [done|]. by replace (n + S (length rest))%nat with (S n + length rest)%nat by lia.
Qed.

Lemma parsed_none : parsed_upto 0 no_rows.
Proof.
  split; cbn -[Nat.min Z.of_nat]; try done; try constructor; try by intros ?%elem_of_nil.
  - intros [[n _ _ _|n fs j c v code _ _ _ _|n m id rs rs' _ _ _ _] Hr]; cbn in Hr; lia.
  - intros [[n _ _|n fs _ _ _] Hr]; cbn in Hr; lia.
  - intros [_ (m & rs & Hm & _)]. lia.
  - exists []. split; [constructor|]. split; [|split; [done|by destruct kind]]. intros m. rewrite elem_of_nil. split; [done|lia].
Qed.
End Loop.

(** ** The report of an input *)

Lemma open_input_columns source input columns lines :
  open_input source input = Ok (columns, lines) → columns = columns_of source ∧ len input ≤ MAX_INPUT_BYTES
    ∧ lines = tail (split newline input).
Proof.
  unfold open_input. rewrite Z.gtb_ltb. destruct (Z.ltb_spec MAX_INPUT_BYTES (len input)) as [|Hs]; [done|].
  destruct (starts_with _ _); [done|]. destruct (existsb _ _); [done|].
  destruct (from_utf8 input); [|done]. cbn -[split strip_cr header_line]. intros H'.
  destruct (duplicate_column _ _); [done|]. case_bool_decide as Hh; [done|]. injection H' as <- <-.
  split_and!; [by rewrite Hh|done|done].
Qed.

Section Parsed.
Context (nfc : list Z → list Z) (object_hash : list byte → ObjectHash) (raw_sha256 : list byte → Hash32).

Definition report_fields (now : Z) (source : ImportSourceKindV1) (input : list byte) (p : Parsing)
    : ImportReportFieldsV1 :=
  {| source_kind := source; source_format_version := SOURCE_FORMAT_VERSION;
     input_file_hash := raw_sha256 input; report_header_line := header_line source;
     imported_at := now; row_count_total := p_total p; row_count_accepted := p_accepted p;
     row_count_rejected := p_rejected p; warnings := p_warnings p; errors_on_the_wire := p_errors p |}.

Definition parsed_rows (source : ImportSourceKindV1) (p : Parsing) : ImportedRowsV1 :=
  match source with Persons => PersonRows (p_persons p) | Vehicles => VehicleRows (p_vehicles p) end.

(** After the input is opened only the construction of the report can fail. *)
Lemma parse_opened now source input columns lines :
  open_input source input = Ok (columns, lines) →
  ∃ p, parsed_upto source (data_lines lines) (length (data_lines lines)) p ∧
    parse nfc object_hash raw_sha256 now source input =
      (r ← reported (ImportReport_new nfc object_hash (report_fields now source input p));
       Ok {| report := r; rows := parsed_rows source p |}).
Proof.
  intros Ho. destruct (open_input_columns _ _ _ _ Ho) as (-> & _ & _).
  destruct (parse_lines_upto source (data_lines lines) (data_lines lines) 0 no_rows) as (p & Hp & U);
    [by rewrite drop_0|apply parsed_none|].
  exists p. split; [done|]. unfold parse. rewrite Ho. cbn [mbind result_bind]. rewrite Hp. by destruct source.
Qed.

Lemma lines_upto {A} (P : ImportIssueV1 → Prop) (l : list A) i :
  (∀ j, P j → ∃ n, is_Some (l !! n) ∧ row j = Z.of_nat n + 1) →
  P i ∧ row i ≤ Z.of_nat (length l) ↔ P i.
Proof.
  intros H. split; [by intros [? _]|]. intros Hi. split; [done|]. destruct (H i Hi) as (n & [x Hn] & ->).
  apply lookup_lt_Some in Hn. lia.
Qed.

Lemma fields_line kind data n fields : fields_at kind data n = Some fields → is_Some (data !! n).
Proof. unfold fields_at. destruct (data !! n); [by eexists|done]. Qed.

Lemma violates_line kind data i : violates kind data i → ∃ n, is_Some (data !! n) ∧ row i = Z.of_nat n + 1.
Proof. intros []; eauto using fields_line. Qed.

Lemma warned_line kind data i : warned kind data i → ∃ n, is_Some (data !! n) ∧ row i = Z.of_nat n + 1.
Proof. intros []; eauto using fields_line. Qed.

Lemma row_lines_length data : (row_lines data ≤ length data)%nat.
Proof.
  unfold row_lines. destruct (last_filled data) eqn:E; [|lia].
  apply last_filled_spec in E as [(line & Hl%lookup_lt_Some & _) _]. exact Hl.
Qed.

Lemma parse_Ok now source input p :
  parse nfc object_hash raw_sha256 now source input = Ok p →
  ∃ columns lines q, open_input source input = Ok (columns, lines)
    ∧ parsed_upto source (data_lines lines) (length (data_lines lines)) q
    ∧ ImportReport_new nfc object_hash (report_fields now source input q) = Ok (report p)
    ∧ rows p = parsed_rows source q.
Proof.
  intros H. destruct (open_input source input) as [[columns lines]|e] eqn:Ho.
  2: { unfold parse in H. by rewrite Ho in H. }
  destruct (parse_opened now source input columns lines Ho) as (q & U & E). rewrite E in H.
  exists columns, lines, q. inv_ok. unfold reported in *. case_match; [|done]. by simplify_eq.
Qed.
End Parsed.

(** C37. The errors of a report are exactly the violations of the rows,
    its warnings exactly the skipped blank lines and the accepted inactive
    rows, it counts every row as accepted or rejected, and it carries the hash
    of exactly the input. A row is the text between its commas: a double quote
    is a character like any other, so a quoted field is no violation of its own
    ([csv_quoted_field_accepted]). *)
Theorem csv_findings_exact nfc object_hash raw_sha256 now source input p :
  parse nfc object_hash raw_sha256 now source input = Ok p →
  ∃ lines, open_input source input = Ok (columns_of source, lines) ∧
  let data := data_lines lines in
  let f := fields_of (report p) in
  (∀ i, i ∈ errors_on_the_wire f ↔ violates source data i) ∧
  (∀ i, i ∈ warnings f ↔ warned source data i) ∧
  row_count_total f = Z.of_nat (row_lines data) ∧
  row_count_total f = row_count_accepted f + row_count_rejected f ∧
  input_file_hash f = raw_sha256 input ∧ source_kind f = source.
Proof.
  intros (columns & lines & q & Ho & U & (_ & _ & _ & Hf & _)%new_Ok_shaped & _)%parse_Ok.
  destruct (open_input_columns _ _ _ _ Ho) as (-> & _). exists lines. split; [done|]. cbn zeta. rewrite Hf.
  unfold sorted_fields, report_fields. cbn [errors_on_the_wire warnings row_count_total row_count_accepted
    row_count_rejected input_file_hash source_kind].
  split_and!; try done.
  - intros i. rewrite elem_of_sort_by_key, (u_errors _ _ _ _ U). apply lines_upto, violates_line.
  - intros i. rewrite elem_of_sort_by_key, (u_warnings _ _ _ _ U). apply lines_upto, warned_line.
  - rewrite (u_total _ _ _ _ U). pose proof (row_lines_length (data_lines lines)). by rewrite Nat.min_r.
  - apply (u_counts _ _ _ _ U).
Qed.

(** The accepted rows of an input are exactly its lines without a
    violation, each once and in the order of the input, with the values of its
    fields. *)
Theorem csv_rows_exact nfc object_hash raw_sha256 now source input p :
  parse nfc object_hash raw_sha256 now source input = Ok p →
  ∃ lines ps, open_input source input = Ok (columns_of source, lines) ∧ StronglySorted lt ps ∧
  let data := data_lines lines in
  (∀ n, n ∈ ps ↔ accepted_at source data n) ∧ row_count_accepted (fields_of (report p)) = len ps ∧
  match rows p with
  | PersonRows l => source = Persons ∧ Forall2 (λ n r, person_of <$> fields_at source data n = Some r) ps l
  | VehicleRows l => source = Vehicles ∧ Forall2 (λ n r, vehicle_of <$> fields_at source data n = Some r) ps l
  end.
Proof.
  intros (columns & lines & q & Ho & U & (_ & _ & _ & Hf & _)%new_Ok_shaped & Hr)%parse_Ok.
  destruct (open_input_columns _ _ _ _ Ho) as (-> & _). destruct (u_rows _ _ _ _ U) as (ps & S1 & S2 & S3 & S4).
  exists lines, ps. split; [done|]. split; [done|]. cbn zeta. split_and!.
  - intros n. rewrite S2. split; [by intros [_ ?]|]. intros Ha. split; [|done].
    destruct Ha as [[fs Hfs%fields_line] _]. destruct Hfs as [? ?]. by eapply lookup_lt_Some.
  - rewrite Hf. exact S3.
  - rewrite Hr. by destruct source.
Qed.

(** ** When a dry run fails *)

Lemma head_bytes_le m v : len (head_bytes m v) ≤ 9.
Proof. unfold head_bytes. repeat case_match; done. Qed.

Lemma encode_issue_le i : (∀ c, column i = Some c → len c ≤ 15) → len (encode_issue i) ≤ 51.
Proof.
  intros Hc. unfold encode_issue, cbor_array, cbor_u64. rewrite !len_app.
  pose proof (head_bytes_le 4 3). pose proof (head_bytes_le 0 (row i)). pose proof (head_bytes_le 0 (issue_code (issue i))).
  assert (len match column i with Some c => cbor_str c | None => cbor_null end ≤ 24); [|lia].
  destruct (column i) as [c|]; [|done]. unfold cbor_str. rewrite len_app.
  pose proof (head_bytes_le 3 (len c)). specialize (Hc c eq_refl). lia.
Qed.

Lemma encode_issues_le l :
  Forall (λ i, ∀ c, column i = Some c → len c ≤ 15) l → len (encode_issues l) ≤ 9 + 51 * len l.
Proof.
  intros Hl. unfold encode_issues, cbor_array. rewrite len_app. pose proof (head_bytes_le 4 (len l)).
  assert (len (flat_map encode_issue l) ≤ 51 * len l); [|lia].
  clear H. induction Hl as [|i l Hi Hl IH]; [done|]. cbn [flat_map]. rewrite len_app, len_cons.
  pose proof (encode_issue_le i Hi). lia.
Qed.

(** The columns a finding can name. *)
Definition named (kind : ImportSourceKindV1) (i : ImportIssueV1) : Prop :=
  ∀ c, column i = Some c → c ∈ columns_of kind.

Lemma id_column kind : ID_COLUMN ∈ columns_of kind ∧ ACTIVE_COLUMN ∈ columns_of kind.
Proof. by destruct kind; split; apply (bool_decide_eq_true_1 _). Qed.

Lemma violates_named kind data i : violates kind data i → named kind i.
Proof.
  intros []; intros c' E; simplify_eq/=.
  - by eapply list_elem_of_lookup_2.
  - apply id_column.
Qed.

Lemma warned_named kind data i : warned kind data i → named kind i.
Proof. intros []; intros c' E; simplify_eq/=. apply id_column. Qed.

Lemma columns_short kind c : c ∈ columns_of kind → len c ≤ 15 ∧ forallb (λ b, u8 b <=? 127) c = true.
Proof.
  intros Hc. assert (Forall (λ c, len c ≤ 15 ∧ forallb (λ b, u8 b <=? 127) c = true) (columns_of kind)) as H.
  { destruct kind; vm_compute; repeat constructor; done. }
  rewrite Forall_forall in H. by apply H.
Qed.

(** Distinct findings about [n] lines. *)
Lemma issues_bound kind n (l : list ImportIssueV1) :
  NoDup l → Forall (λ i, named kind i ∧ 1 ≤ row i ≤ Z.of_nat n) l → len l ≤ 78 * Z.of_nat n.
Proof.
  intros Hn Hl. set (codes := issue_code <$> [Issue.ByteOrderMarkPresent; Issue.InputNotUtf8; Issue.UnknownHeader;
    Issue.DuplicateHeaderColumn; Issue.AccessFormatDetected; Issue.FieldCountMismatch; Issue.EmptyRequiredValue;
    Issue.InvalidBoolean; Issue.DuplicateMasterId; Issue.ValueNotInClosedSet; Issue.ValueTooLong;
    Issue.InactiveRowImported; Issue.TrailingEmptyLineSkipped]).
  set (all := list_prod ((λ m, Z.of_nat m + 1) <$> seq 0 n) (list_prod (None :: (Some <$> columns_of kind)) codes)).
  assert (length l ≤ length all)%nat as Hle.
  { rewrite <- (length_fmap issue_key l). apply NoDup_incl_length.
    - apply NoDup_ListNoDup, NoDup_fmap_2; [intros ? ?; apply issue_key_inj|done].
    - intros k Hk. apply list_elem_of_In, list_elem_of_fmap in Hk as (i & -> & Hi).
      rewrite Forall_forall in Hl. destruct (Hl i Hi) as [Hc Hr]. apply in_prod; [|apply in_prod].
      + apply list_elem_of_In, list_elem_of_fmap. exists (Z.to_nat (row i - 1)). split; [lia|].
        apply elem_of_seq. lia.
      + destruct (column i) as [c|] eqn:E; [right|by left]. apply list_elem_of_In, list_elem_of_fmap_2. by apply Hc.
      + apply list_elem_of_In, list_elem_of_fmap_2. destruct (issue i); repeat (by left) || right. }
  unfold all in Hle. rewrite !length_prod, !length_fmap, length_seq, length_cons, length_fmap in Hle.
  assert (length (columns_of kind) ≤ 5)%nat by (by destruct kind; vm_compute; lia).
  change (length codes) with 13%nat in Hle. unfold len. nia.
Qed.

Lemma length_split sep s : (length (split sep s) ≤ S (length s))%nat.
Proof.
  induction s as [|b s IH]; cbn; [lia|]. case_decide; cbn; [lia|].
  destruct (split sep s); cbn in *; lia.
Qed.

Lemma length_data_lines lines : (length (data_lines lines) ≤ length lines)%nat.
Proof.
  unfold data_lines, without_terminator. rewrite <- (length_fmap strip_cr lines).
  destruct (last _) as [[|]|]; [|lia..].
  destruct (strip_cr <$> lines) as [|x l _] using rev_ind; [done|]. rewrite removelast_last, length_app. lia.
Qed.

Lemma opened_short source input columns lines :
  open_input source input = Ok (columns, lines) → Z.of_nat (length (data_lines lines)) ≤ 1048577.
Proof.
  intros (_ & Hs & ->)%open_input_columns. pose proof (length_data_lines (tail (split newline input))) as H1.
  pose proof (length_split newline input) as H2.
  assert (length (tail (split newline input)) ≤ length (split newline input))%nat by (destruct (split newline input); cbn; lia).
  unfold len, MAX_INPUT_BYTES in Hs. unfold str in *. lia.
Qed.

Section DryRun.
Context (nfc : list Z → list Z) (object_hash : list byte → ObjectHash) (raw_sha256 : list byte → Hash32).
Context (Hnfc : ascii_normal nfc) (Hsha : ∀ b, length (raw_sha256 b) = 32%nat).
Context (source : ImportSourceKindV1) (data : list str) (Hdata : Z.of_nat (length data) ≤ 1048577).

Lemma finding_wf kind i : named kind i → 1 ≤ row i ≤ Z.of_nat (length data) → issue_wf nfc i.
Proof.
  intros Hi Hr. split; [unfold in_u64, u64_max; lia|]. intros c Hc.
  destruct (columns_short kind c (Hi c Hc)). split; [cbn; lia|by apply ascii_text].
Qed.

Lemma findings_located p :
  parsed_upto source data (length data) p →
  Forall (λ i, named source i ∧ 1 ≤ row i ≤ Z.of_nat (length data)) (p_errors p) ∧
  Forall (λ i, named source i ∧ 1 ≤ row i ≤ Z.of_nat (length data)) (p_warnings p).
Proof.
  intros U. split; apply Forall_forall; intros i Hi.
  - apply (u_errors _ _ _ _ U) in Hi as [Hv Hr]. split; [by eapply violates_named|].
    destruct (violates_line _ _ _ Hv) as (n & _ & ?). lia.
  - apply (u_warnings _ _ _ _ U) in Hi as [Hv Hr]. split; [by eapply warned_named|].
    destruct (warned_line _ _ _ Hv) as (n & _ & ?). lia.
Qed.

Lemma located_short l :
  Forall (λ i, named source i ∧ 1 ≤ row i ≤ Z.of_nat (length data)) l →
  Forall (λ i, ∀ c, column i = Some c → len c ≤ 15) l ∧ Forall (issue_wf nfc) l.
Proof.
  intros Hl. split; (eapply Forall_impl; [exact Hl|]); intros i [Hi Hr].
  - intros c Hc. by apply (columns_short source), Hi.
  - by eapply finding_wf.
Qed.

Lemma parsed_wf now input p :
  in_i64 now → parsed_upto source data (length data) p →
  report_wf nfc (report_fields raw_sha256 now source input p).
Proof.
  intros Hnow U. destruct (findings_located p U) as [He Hw].
  pose proof (issues_bound source (length data) _ (u_errors_NoDup _ _ _ _ U) He) as Be.
  pose proof (issues_bound source (length data) _ (u_warnings_NoDup _ _ _ _ U) Hw) as Bw.
  destruct (located_short _ He) as [Se We], (located_short _ Hw) as [Sw Ww].
  pose proof (encode_issues_le _ Se). pose proof (encode_issues_le _ Sw).
  pose proof (u_total _ _ _ _ U). pose proof (u_counts _ _ _ _ U). pose proof (u_rejected _ _ _ _ U).
  destruct (u_rows _ _ _ _ U) as (ps & _ & _ & Hps & _). pose proof (len_nonneg ps).
  split; try done; try apply Hsha; cbn [row_count_total row_count_accepted row_count_rejected report_fields].
  - unfold in_u64, u64_max. lia.
  - unfold in_u64, u64_max. lia.
  - unfold in_u64, u64_max. lia.
  - unfold sized, encoded_fields, report_fields, cbor_array, cbor_u64, cbor_bytes, cbor_str, cbor_i64.
    cbn [source_kind source_format_version input_file_hash report_header_line imported_at row_count_total
      row_count_accepted row_count_rejected warnings errors_on_the_wire].
    assert (len (if 0 <=? now then head_bytes 0 now else head_bytes 1 (-1 - now)) ≤ 9)
      by (case_match; apply head_bytes_le).
    assert (len (raw_sha256 input) = 32) by (unfold len; by rewrite Hsha).
    assert (len (source_id source) ≤ 60 ∧ len (header_line source) ≤ 60) as [? ?]
      by (destruct source; split; by apply Z.leb_le).
    repeat match goal with |- context [head_bytes ?m ?v] =>
      let H := fresh in pose proof (head_bytes_le m v) as H; remember (head_bytes m v) eqn:HeqX; clear HeqX end.
    rewrite !len_app. unfold u64_max. lia.
  - unfold sized, u64_max, report_fields. cbn [warnings errors_on_the_wire]. lia.
Qed.
End DryRun.

(** A dry run fails before it reads rows, with the reason for the
    whole file; or it returns a report, whatever the rows contain, as long as
    they have at most 2496 findings; with more it fails although every finding
    is about a row. *)
Theorem csv_dry_run_outcome nfc object_hash raw_sha256 now source input :
  ascii_normal nfc → (∀ b, length (raw_sha256 b) = 32%nat) → in_i64 now →
  match open_input source input with
  | Err e => dry_run nfc object_hash raw_sha256 now source input = Err e
  | Ok (columns, lines) =>
      ∃ es ws, NoDup es ∧ NoDup ws ∧ (∀ i, i ∈ es ↔ violates source (data_lines lines) i)
        ∧ (∀ i, i ∈ ws ↔ warned source (data_lines lines) i)
        ∧ if bool_decide (len ws + len es ≤ 2496)
          then ∃ r, dry_run nfc object_hash raw_sha256 now source input = Ok r
          else ∃ c, dry_run nfc object_hash raw_sha256 now source input = Err (Csv.Report (Fmt.Cbor c))
  end.
Proof.
  intros Hn Hs Hnow. destruct (open_input source input) as [[columns lines]|e] eqn:Ho.
  2: { unfold dry_run, parse. by rewrite Ho. }
  destruct (parse_opened nfc object_hash raw_sha256 now source input columns lines Ho) as (p & U & E).
  pose proof (parsed_wf nfc raw_sha256 Hn Hs source (data_lines lines) (opened_short _ _ _ _ Ho) now input p Hnow U) as W.
  exists (p_errors p), (p_warnings p). split_and!; [apply U|apply U| | |].
  { intros i. rewrite (u_errors _ _ _ _ U). apply lines_upto, violates_line. }
  { intros i. rewrite (u_warnings _ _ _ _ U). apply lines_upto, warned_line. }
  assert (shaped (report_fields raw_sha256 now source input p)) as S.
  { split; try done; cbn; [apply U| |]; apply Forall_forall; intros i Hi.
    - apply (u_warnings _ _ _ _ U) in Hi as [[] _]; done.
    - apply (u_errors _ _ _ _ U) in Hi as [[? ? ? ?|? ? ? ? ? ? ? ? ? []|] _]; done. }
  unfold dry_run. rewrite E, new_shaped by (done || apply W || apply U).
  destruct (sorted_lengths (report_fields raw_sha256 now source input p)) as [L1 L2].
  apply sorted_wf in W.
  destruct (encode_fields nfc (sorted_fields _)) as [b|e] eqn:Ee.
  - apply encode_fields_Ok in Ee as [_ Hl]; [|done..]. rewrite L1, L2 in Hl. rewrite bool_decide_eq_true_2 by exact Hl.
    by eexists.
  - apply encode_fields_Err in Ee as [Hl [c ->]]; [|done..]. rewrite L1, L2 in Hl.
    rewrite bool_decide_eq_false_2 by (cbn in Hl; lia). by exists c.
Qed.

(** ** A concrete file *)

Definition sample_csv : list byte :=
  lit "id,display_name,role,active" ++ [carriage_return; newline] ++ lit "p1,Anna,,true" ++ [newline]
  ++ lit "p2,Bob,Arzt,false" ++ [newline] ++ lit "p1,,x,maybe" ++ [newline; newline] ++ lit "a,b" ++ [newline; newline].

Definition zero_hash : list byte → Hash32 := λ _, replicate 32 x00.

Definition sample_lines : list str := tail (split newline sample_csv).

Lemma csv_findings_exact_witness :
  ∃ p, parse id zero_hash zero_hash 5 Persons sample_csv = Ok p
    ∧ row_count_total (fields_of (report p)) = 5 ∧ row_count_accepted (fields_of (report p)) = 2
    ∧ violates Persons (data_lines sample_lines)
        {| row := 3; column := Some ID_COLUMN; issue := Issue.DuplicateMasterId |}.
Proof.
  destruct (parse id zero_hash zero_hash 5 Persons sample_csv) as [p|] eqn:E; [|vm_compute in E; discriminate].
  exists p. split; [reflexivity|]. pose proof E as E'. vm_compute in E'. injection E' as Ep.
  split; [by rewrite <- Ep|]. split; [by rewrite <- Ep|].
  destruct (csv_findings_exact id zero_hash zero_hash 5 Persons sample_csv p E) as (lines & Ho & Hv & _).
  assert (lines = sample_lines) as -> by (vm_compute in Ho; vm_compute; congruence).
  apply Hv. rewrite <- Ep. cbn [report fields_of errors_on_the_wire]. apply (bool_decide_eq_true_1 _). vm_compute. reflexivity.
Defined.

Lemma csv_rows_exact_witness :
  ∃ p, parse id zero_hash zero_hash 5 Persons sample_csv = Ok p
    ∧ accepted_at Persons (data_lines sample_lines) 0.
Proof.
  destruct (parse id zero_hash zero_hash 5 Persons sample_csv) as [p|] eqn:E; [|vm_compute in E; discriminate].
  exists p. split; [reflexivity|].
  destruct (csv_rows_exact id zero_hash zero_hash 5 Persons sample_csv p E) as (lines & ps & Ho & Hs & Hp & Hl & Hr).
  assert (lines = sample_lines) as -> by (vm_compute in Ho; vm_compute; congruence).
  vm_compute in E. injection E as Ep. rewrite <- Ep in Hr. cbn [rows] in Hr. destruct Hr as [_ Hr].
  apply Hp. destruct ps as [|n ps]; [by inversion Hr|]. apply Forall2_cons in Hr as [Hn _].
  destruct n as [|[|[|[|[|[|n]]]]]]; vm_compute in Hn; try discriminate. by left.
Defined.

(** More rows with the wrong number of fields than a report can hold. *)
Definition crowded_csv : list byte :=
  lit "id,display_name,role,active" ++ concat (replicate 2497 (newline :: lit "a")).

Lemma csv_dry_run_outcome_witness :
  (∃ r, dry_run id zero_hash zero_hash 5 Persons sample_csv = Ok r) ∧
  is_ok (dry_run id zero_hash zero_hash 5 Persons crowded_csv) = false ∧
  is_ok (open_input Persons crowded_csv) = true.
Proof.
  assert (∀ b, length (zero_hash b) = 32%nat) as Hs by done.
  pose proof (csv_dry_run_outcome id zero_hash zero_hash 5 Persons sample_csv sample_ascii_normal Hs
    ltac:(split; apply Z.leb_le; reflexivity)) as H.
  split; [|split; vm_compute; reflexivity].
  assert (open_input Persons sample_csv = Ok (columns_of Persons, sample_lines)) as E by (vm_compute; reflexivity).
  rewrite E in H. destruct H as (es & ws & _ & _ & _ & _ & H). case_bool_decide; [exact H|].
  destruct H as [c H]. vm_compute in H. discriminate.
Defined.

(** ** Quoted fields *)

Definition quote : byte := x22.

(** A quoted name without a comma, and a row of three quoted-style fields whose
    name has a comma. *)
Definition quoted_csv : list byte :=
  lit "id,display_name,role,active" ++ [newline]
  ++ lit "p1," ++ [quote] ++ lit "Ada" ++ [quote] ++ lit ",Arzt,true" ++ [newline]
  ++ lit "p2," ++ [quote] ++ lit "Lovelace, Ada" ++ [quote] ++ lit ",true" ++ [newline].

(** The import accepts both rows without a finding: the first with the quotes in
    the name, the second with the name cut at its comma and the rest as the role.
    The documentation of the importer and its test promise that a quoted field is
    refused as [field-count-mismatch]. *)
Theorem csv_quoted_field_accepted :
  match parse id zero_hash zero_hash 5 Persons quoted_csv with
  | Ok p =>
      errors_on_the_wire (fields_of (report p)) = [] ∧ warnings (fields_of (report p)) = [] ∧
      rows p = PersonRows [
        {| ip_master_personnel_id := lit "p1"; ip_display_name := [quote] ++ lit "Ada" ++ [quote];
           ip_role_or_function := Some (lit "Arzt"); ip_active := true |};
        {| ip_master_personnel_id := lit "p2"; ip_display_name := [quote] ++ lit "Lovelace";
           ip_role_or_function := Some (lit " Ada" ++ [quote]); ip_active := true |}]
  | Err _ => False
  end.
Proof. vm_compute. by split_and!. Qed.
