(* ===== verification/MasterData.v ===== *)
(** * MasterData: the master data of the writer ([ea-draft], [master_data.rs])

    The commit of an import ([csv_import.rs]) and the repository over the
    tables of the migration [0003_master_data.sql] with their constraints:
    primary keys, checks and the foreign key from a row to the bytes of the
    report it came from; the snapshots of [ea-schema] ([model.rs]).

    [faults] says of each further statement whether the database fails it;
    a transaction that is not committed leaves the tables as they were. *)

From S2P Require Import Prelude Types Utf8 Cbor CborSpec CborTheorems Str ArchivePath PublicationQueue Profile ImportReport CsvImport.
Import Fmt(FormatError).
Import Csv(ImportError).

(** ** Tables *)

(** A table by its primary key, a string or a hash. *)
Abbreviation table :=
  (@gmap str (@list_eq_dec byte byte_eq_dec) (@list_countable byte byte_eq_dec byte_countable)).

Record ImportReportRow := {
  ir_exact_bytes : list byte;
  ir_source_kind : Z;
  ir_imported_at : Z;
}.

Record MasterPersonRow := {
  mp_display_name : str;
  mp_role_or_function : option str;
  mp_revision : Z;
  mp_active : bool;
  mp_source_id : str;
  mp_source_format_version : Z;
  mp_import_protocol_hash : ObjectHash;
  mp_updated_at_ms : Z;
}.

Record MasterVehicleRow := {
  mv_display_name : str;
  mv_radio_call_sign : option str;
  mv_license_plate : option str;
  mv_revision : Z;
  mv_active : bool;
  mv_source_id : str;
  mv_source_format_version : Z;
  mv_import_protocol_hash : ObjectHash;
  mv_updated_at_ms : Z;
}.

Record Tables := {
  import_reports : table ImportReportRow;
  master_persons : table MasterPersonRow;
  master_vehicles : table MasterVehicleRow;
}.

Record EncryptedDatabase := { tables : Tables; faults : list bool }.

(** ** Statements and transactions *)

Definition db (A : Type) : Type := EncryptedDatabase → EncryptedDatabase * result MasterDataError A.

#[export] Instance db_ret : MRet db := λ A a d, (d, Ok a).
#[export] Instance db_bind : MBind db := λ A B k x d,
  match x d with (d, Ok a) => k a d | (d, Err e) => (d, Err e) end.

Definition db_lift {A} (r : result MasterDataError A) : db A := λ d, (d, r).

(** [execute] and [query_row]. *)
Definition statement {A} (f : Tables → result Store.StoreError (Tables * A)) : db A := λ d,
  let rest := tail (faults d) in
  if default false (head (faults d)) then
    ({| tables := tables d; faults := rest |}, Err (StoreFailed Store.Database))
  else match f (tables d) with
       | Ok (t, a) => ({| tables := t; faults := rest |}, Ok a)
       | Err e => ({| tables := tables d; faults := rest |}, Err (StoreFailed e))
       end.

Definition query {A} (f : Tables → A) : db A := statement (λ t, Ok (t, f t)).

(** [EncryptedDatabase::transaction]: begin, work, commit; what is not
    committed is rolled back. *)
Definition transaction {A} (work : db A) : db A := λ d,
  match (_ ← query (λ _, tt); a ← work; _ ← query (λ _, tt); mret a) d with
  | (d', Ok a) => (d', Ok a)
  | (d', Err e) => ({| tables := tables d; faults := faults d' |}, Err e)
  end.

(** [length(..) > 0] of a text: SQLite counts the characters before the first
    NUL. *)
Definition has_length (s : str) : bool :=
  match s with [] => false | b :: _ => negb (bool_decide (b = x00)) end.

Definition hash_sized (h : ObjectHash) : bool := bool_decide (length h = 32%nat).

(** A row refers to a report that is kept. *)
Definition refers (t : Tables) (h : ObjectHash) : bool := bool_decide (is_Some (import_reports t !! h)).

Definition insert_report (h : ObjectHash) (r : ImportReportRow) (t : Tables) : result Store.StoreError (Tables * unit) :=
  if negb (hash_sized h) || negb (bool_decide (ir_source_kind r = 0) || bool_decide (ir_source_kind r = 1))
     || bool_decide (is_Some (import_reports t !! h))
  then Err Store.Constraint
  else Ok ({| import_reports := <[h := r]> (import_reports t); master_persons := master_persons t;
              master_vehicles := master_vehicles t |}, tt).

Definition person_allowed (t : Tables) (id : str) (r : MasterPersonRow) : bool :=
  has_length id && has_length (mp_display_name r) && (1 <=? mp_revision r)
  && hash_sized (mp_import_protocol_hash r) && refers t (mp_import_protocol_hash r).

Definition vehicle_allowed (t : Tables) (id : str) (r : MasterVehicleRow) : bool :=
  has_length id && has_length (mv_display_name r) && (1 <=? mv_revision r)
  && hash_sized (mv_import_protocol_hash r) && refers t (mv_import_protocol_hash r).

Definition put_person (id : str) (r : MasterPersonRow) (t : Tables) : Tables :=
  {| import_reports := import_reports t; master_persons := <[id := r]> (master_persons t);
     master_vehicles := master_vehicles t |}.

Definition put_vehicle (id : str) (r : MasterVehicleRow) (t : Tables) : Tables :=
  {| import_reports := import_reports t; master_persons := master_persons t;
     master_vehicles := <[id := r]> (master_vehicles t) |}.

Definition insert_person (id : str) (r : MasterPersonRow) (t : Tables) : result Store.StoreError (Tables * unit) :=
  if person_allowed t id r && bool_decide (master_persons t !! id = None)
  then Ok (put_person id r t, tt) else Err Store.Constraint.

Definition insert_vehicle (id : str) (r : MasterVehicleRow) (t : Tables) : result Store.StoreError (Tables * unit) :=
  if vehicle_allowed t id r && bool_decide (master_vehicles t !! id = None)
  then Ok (put_vehicle id r t, tt) else Err Store.Constraint.

(** ** The commit of an import *)

Fixpoint db_for_each {A} (f : A → db unit) (l : list A) : db unit :=
  match l with [] => mret tt | a :: l => _ ← f a; db_for_each f l end.

(** [integer_or_shape]. *)
Definition integer_or_shape (value : Z) : result MasterDataError Z :=
  if value <=? i64_max then Ok value else Err (StoreFailed Store.Shape).

Definition insert_imported_person (now : Z) (r : ImportReportV1) (p : ImportedPersonRowV1) : db unit :=
  version ← db_lift (integer_or_shape (source_format_version (fields_of r)));
  statement (insert_person (ip_master_personnel_id p)
    {| mp_display_name := ip_display_name p; mp_role_or_function := ip_role_or_function p; mp_revision := 1;
       mp_active := ip_active p; mp_source_id := source_id (source_kind (fields_of r));
       mp_source_format_version := version; mp_import_protocol_hash := import_protocol_hash r;
       mp_updated_at_ms := now |}).

Definition insert_imported_vehicle (now : Z) (r : ImportReportV1) (v : ImportedVehicleRowV1) : db unit :=
  version ← db_lift (integer_or_shape (source_format_version (fields_of r)));
  statement (insert_vehicle (iv_master_vehicle_id v)
    {| mv_display_name := iv_display_name v; mv_radio_call_sign := iv_radio_call_sign v;
       mv_license_plate := iv_license_plate v; mv_revision := 1; mv_active := iv_active v;
       mv_source_id := source_id (source_kind (fields_of r)); mv_source_format_version := version;
       mv_import_protocol_hash := import_protocol_hash r; mv_updated_at_ms := now |}).

Definition commit_import (now : Z) (r : ImportReportV1) (imported : ImportedRowsV1) : db unit :=
  transaction (
    _ ← statement (insert_report (import_protocol_hash r)
          {| ir_exact_bytes := exact_bytes r; ir_source_kind := source_kind_code (source_kind (fields_of r));
             ir_imported_at := imported_at (fields_of r) |});
    match imported with
    | PersonRows persons => db_for_each (insert_imported_person now r) persons
    | VehicleRows vehicles => db_for_each (insert_imported_vehicle now r) vehicles
    end).

Section Commit.
Context (nfc : list Z → list Z) (object_hash : list byte → ObjectHash) (raw_sha256 : list byte → Hash32).

(** [CsvImporter::commit]; the clock reads [parsed_at] when the input is parsed
    again and [now] when the rows are written. *)
Definition commit (parsed_at now : Z) (r : ImportReportV1) (input : list byte) (d : EncryptedDatabase)
    : EncryptedDatabase * result ImportError unit :=
  if negb (is_empty (errors_on_the_wire (fields_of r))) then (d, Err Csv.ReportHasErrors) else
  if bool_decide (raw_sha256 input ≠ input_file_hash (fields_of r)) then (d, Err Csv.InputChanged) else
  match parse nfc object_hash raw_sha256 parsed_at (source_kind (fields_of r)) input with
  | Err e => (d, Err e)
  | Ok p =>
      let f := fields_of (report p) in
      if negb (row_count_total f =? row_count_total (fields_of r))
         || negb (row_count_accepted f =? row_count_accepted (fields_of r))
         || negb (row_count_rejected f =? row_count_rejected (fields_of r))
         || bool_decide (errors_on_the_wire f ≠ errors_on_the_wire (fields_of r))
         || bool_decide (warnings f ≠ warnings (fields_of r))
      then (d, Err Csv.ReportMismatch)
      else match commit_import now r (rows p) d with
           | (d, Ok _) => (d, Ok tt)
           | (d, Err e) => (d, Err (Csv.MasterData e))
           end
  end.
End Commit.

(** ** Snapshots ([ea-schema], [model.rs]) *)

(** Code and field of a [SchemaError]. *)
Record SchemaError := { schema_code : string; schema_field : string }.

Definition invalid {A} (c f : string) : result SchemaError A := Err {| schema_code := c; schema_field := f |}.

Inductive MasterDataRevisionV1 := RevisionNumber (n : Z) | ChangedAt (at_ms : Z).

Record ImportedProvenanceV1 := {
  pv_source_id : str;
  pv_source_format_version : Z;
  pv_import_protocol_hash : ObjectHash;
}.

Module Person.
Inductive PersonnelSnapshotV1 :=
| Master (master_personnel_id display_name : str) (role_or_function : option str)
    (revision : MasterDataRevisionV1) (imported_provenance : option ImportedProvenanceV1)
| AdHoc (display_name : str) (role_or_function : option str).
End Person.
Import Person(PersonnelSnapshotV1).

Module Vehicle.
Inductive VehicleSnapshotV1 :=
| Master (master_vehicle_id display_name : str) (radio_call_sign license_plate : option str)
    (revision : MasterDataRevisionV1) (imported_provenance : option ImportedProvenanceV1)
| AdHoc (display_name : str) (radio_call_sign license_plate : option str).
End Vehicle.
Import Vehicle(VehicleSnapshotV1).

Section Snapshots.
Context (to_nfc : str → str).

Definition normalize_text (value : str) : str := to_nfc value.

Definition validate_char_count (value : str) (minimum maximum : Z) (field : string) : result SchemaError unit :=
  if bool_decide (to_nfc value ≠ value) then invalid "EA-SCHEMA-NON-NFC" field else
  let count := char_count value in
  if negb ((minimum <=? count) && (count <=? maximum)) then invalid "EA-SCHEMA-LENGTH" field else Ok tt.

Definition validate_snapshot_text (value : str) (field : string) : result SchemaError unit :=
  validate_char_count value 1 SNAPSHOT_TEXT_MAX_CHARS_V1 field.

Definition validate_optional_snapshot_text (value : option str) (field : string) : result SchemaError unit :=
  match value with None => Ok tt | Some value => validate_snapshot_text value field end.

Definition validate_provenance (p : ImportedProvenanceV1) : result SchemaError unit :=
  validate_snapshot_text (pv_source_id p) "importedProvenance.sourceId".

Definition ImportedProvenance_new (source : str) (version : Z) (h : ObjectHash) : result SchemaError ImportedProvenanceV1 :=
  let value := {| pv_source_id := normalize_text source; pv_source_format_version := version;
                  pv_import_protocol_hash := h |} in
  validate_provenance value;; Ok value.

Definition validate_person (s : PersonnelSnapshotV1) : result SchemaError unit :=
  match s with
  | Person.Master id name role _ provenance =>
      validate_snapshot_text id "personnel.masterPersonnelId";;
      validate_snapshot_text name "personnel.displayName";;
      validate_optional_snapshot_text role "personnel.roleOrFunction";;
      match provenance with Some p => validate_provenance p | None => Ok tt end
  | Person.AdHoc name role =>
      validate_snapshot_text name "personnel.displayName";;
      validate_optional_snapshot_text role "personnel.roleOrFunction"
  end.

Definition validate_vehicle (s : VehicleSnapshotV1) : result SchemaError unit :=
  match s with
  | Vehicle.Master id name sign plate _ provenance =>
      validate_snapshot_text id "vehicles.masterVehicleId";;
      validate_snapshot_text name "vehicles.displayName";;
      validate_optional_snapshot_text sign "vehicles.radioCallSign";;
      validate_optional_snapshot_text plate "vehicles.licensePlate";;
      match provenance with Some p => validate_provenance p | None => Ok tt end
  | Vehicle.AdHoc name sign plate =>
      validate_snapshot_text name "vehicles.displayName";;
      validate_optional_snapshot_text sign "vehicles.radioCallSign";;
      validate_optional_snapshot_text plate "vehicles.licensePlate"
  end.

Definition person_master (id name : str) (role : option str) (revision : MasterDataRevisionV1)
    (provenance : option ImportedProvenanceV1) : result SchemaError PersonnelSnapshotV1 :=
  let value := Person.Master (normalize_text id) (normalize_text name) (normalize_text <$> role) revision provenance in
  validate_person value;; Ok value.

Definition person_ad_hoc (name : str) (role : option str) : result SchemaError PersonnelSnapshotV1 :=
  let value := Person.AdHoc (normalize_text name) (normalize_text <$> role) in
  validate_person value;; Ok value.

Definition vehicle_master (id name : str) (sign plate : option str) (revision : MasterDataRevisionV1)
    (provenance : option ImportedProvenanceV1) : result SchemaError VehicleSnapshotV1 :=
  let value := Vehicle.Master (normalize_text id) (normalize_text name) (normalize_text <$> sign)
                 (normalize_text <$> plate) revision provenance in
  validate_vehicle value;; Ok value.

Definition vehicle_ad_hoc (name : str) (sign plate : option str) : result SchemaError VehicleSnapshotV1 :=
  let value := Vehicle.AdHoc (normalize_text name) (normalize_text <$> sign) (normalize_text <$> plate) in
  validate_vehicle value;; Ok value.

(** ** The repository *)

(** [map_err(|_| MasterDataError::Snapshot)]. *)
Definition snapshot_err {A} (r : result SchemaError A) : result MasterDataError A :=
  match r with Ok a => Ok a | Err _ => Err SnapshotError end.

(** [u64::try_from] of a column. *)
Definition column_u64 (v : Z) : result MasterDataError Z :=
  if 0 <=? v then Ok v else Err (StoreFailed Store.Shape).

Definition revision_of (v : Z) : result MasterDataError MasterDataRevisionV1 :=
  n ← column_u64 v; Ok (RevisionNumber n).

Definition provenance_of (source : str) (version : Z) (h : ObjectHash) : result MasterDataError ImportedProvenanceV1 :=
  h ← match Hash32_try_from h with Ok h => Ok h | Err _ => Err (StoreFailed Store.Shape) end;
  version ← column_u64 version;
  snapshot_err (ImportedProvenance_new source version h).

Definition person_count : db Z := query (λ t, Z.of_nat (size (master_persons t))).
Definition vehicle_count : db Z := query (λ t, Z.of_nat (size (master_vehicles t))).

Definition snapshot_person (id : str) : db PersonnelSnapshotV1 :=
  found ← query (λ t, master_persons t !! id);
  r ← db_lift (ok_or UnknownMasterId found);
  revision ← db_lift (revision_of (mp_revision r));
  provenance ← db_lift (provenance_of (mp_source_id r) (mp_source_format_version r) (mp_import_protocol_hash r));
  db_lift (snapshot_err (person_master id (mp_display_name r) (mp_role_or_function r) revision (Some provenance))).

Definition snapshot_vehicle (id : str) : db VehicleSnapshotV1 :=
  found ← query (λ t, master_vehicles t !! id);
  r ← db_lift (ok_or UnknownMasterId found);
  revision ← db_lift (revision_of (mv_revision r));
  provenance ← db_lift (provenance_of (mv_source_id r) (mv_source_format_version r) (mv_import_protocol_hash r));
  db_lift (snapshot_err (vehicle_master id (mv_display_name r) (mv_radio_call_sign r) (mv_license_plate r)
                           revision (Some provenance))).

Definition ad_hoc_person (name : str) (role : option str) : result MasterDataError PersonnelSnapshotV1 :=
  snapshot_err (person_ad_hoc name role).
Definition ad_hoc_vehicle (name : str) (sign plate : option str) : result MasterDataError VehicleSnapshotV1 :=
  snapshot_err (vehicle_ad_hoc name sign plate).
End Snapshots.

(** [UPDATE .. SET display_name, revision = revision + 1]: the checks of the
    table hold for the new row, and a sum that is no 64-bit integer is refused
    by the strict column. The result is the number of rows changed. *)
Definition renamed_person (name : str) (now : Z) (r : MasterPersonRow) : MasterPersonRow :=
  {| mp_display_name := name; mp_role_or_function := mp_role_or_function r; mp_revision := mp_revision r + 1;
     mp_active := mp_active r; mp_source_id := mp_source_id r;
     mp_source_format_version := mp_source_format_version r;
     mp_import_protocol_hash := mp_import_protocol_hash r; mp_updated_at_ms := now |}.

Definition renamed_vehicle (name : str) (now : Z) (r : MasterVehicleRow) : MasterVehicleRow :=
  {| mv_display_name := name; mv_radio_call_sign := mv_radio_call_sign r; mv_license_plate := mv_license_plate r;
     mv_revision := mv_revision r + 1; mv_active := mv_active r; mv_source_id := mv_source_id r;
     mv_source_format_version := mv_source_format_version r;
     mv_import_protocol_hash := mv_import_protocol_hash r; mv_updated_at_ms := now |}.

Definition update_person (id name : str) (now : Z) (t : Tables) : result Store.StoreError (Tables * nat) :=
  match master_persons t !! id with
  | None => Ok (t, 0%nat)
  | Some r =>
      let r := renamed_person name now r in
      if person_allowed t id r && (mp_revision r <=? i64_max) then Ok (put_person id r t, 1%nat)
      else Err Store.Constraint
  end.

Definition update_vehicle (id name : str) (now : Z) (t : Tables) : result Store.StoreError (Tables * nat) :=
  match master_vehicles t !! id with
  | None => Ok (t, 0%nat)
  | Some r =>
      let r := renamed_vehicle name now r in
      if vehicle_allowed t id r && (mv_revision r <=? i64_max) then Ok (put_vehicle id r t, 1%nat)
      else Err Store.Constraint
  end.

Definition rename (update : Tables → result Store.StoreError (Tables * nat)) (select : Tables → option Z) : db Z :=
  transaction (
    changed ← statement update;
    if bool_decide (changed = 0%nat) then db_lift (Err UnknownMasterId) else
    found ← query select;
    revision ← db_lift (ok_or UnknownMasterId found);
    db_lift (if 0 <=? revision then Ok revision else Err RevisionOverflow)).

Definition rename_person (id name : str) (now : Z) : db Z :=
  rename (update_person id name now) (λ t, mp_revision <$> master_persons t !! id).
Definition rename_vehicle (id name : str) (now : Z) : db Z :=
  rename (update_vehicle id name now) (λ t, mv_revision <$> master_vehicles t !! id).

Definition import_report_bytes (h : ObjectHash) : db (option (list byte)) :=
  query (λ t, ir_exact_bytes <$> import_reports t !! h).

(** ** Transactions are all or nothing *)

Lemma db_bind_run {A B} (x : db A) (k : A → db B) d d' r :
  (x ≫= k) d = (d', r) →
  (∃ e, x d = (d', Err e) ∧ r = Err e) ∨ (∃ d1 a, x d = (d1, Ok a) ∧ k a d1 = (d', r)).
Proof. unfold mbind, db_bind. destruct (x d) as [d1 [a|e]]; [eauto|]. intros [= -> <-]. eauto. Qed.

Lemma db_bind_Ok {A B} (x : db A) (k : A → db B) d d' b :
  (x ≫= k) d = (d', Ok b) → ∃ d1 a, x d = (d1, Ok a) ∧ k a d1 = (d', Ok b).
Proof. intros [(e & _ & ?)|H]%db_bind_run; [done|exact H]. Qed.

Lemma statement_Ok {A} (f : Tables → result Store.StoreError (Tables * A)) d d' a :
  statement f d = (d', Ok a) → f (tables d) = Ok (tables d', a).
Proof. unfold statement. repeat case_match; by intros [= <- <-]. Qed.

Lemma query_Ok {A} (f : Tables → A) d d' a :
  query f d = (d', Ok a) → tables d' = tables d ∧ a = f (tables d).
Proof. intros H%statement_Ok. by injection H. Qed.

Lemma transaction_Err {A} (work : db A) d d' e :
  transaction work d = (d', Err e) → tables d' = tables d.
Proof. unfold transaction. case_match. case_match; by intros [= <- _]. Qed.

Lemma transaction_Ok {A} (work : db A) d d' a :
  transaction work d = (d', Ok a) →
  ∃ d1 d2, tables d1 = tables d ∧ work d1 = (d2, Ok a) ∧ tables d' = tables d2.
Proof.
  unfold transaction. match goal with |- context [match ?x d with _ => _ end] => destruct (x d) as [d0 [b|e]] eqn:E end;
    [|done]. intros [= <- <-].
  apply db_bind_Ok in E as (d1 & [] & [H1 _]%query_Ok & E). apply db_bind_Ok in E as (d2 & b' & Hw & E).
  apply db_bind_Ok in E as (d3 & [] & [H3 _]%query_Ok & E). injection E as <- <-. eauto.
Qed.

(** ** What a commit writes *)

Definition report_row (r : ImportReportV1) : ImportReportRow :=
  {| ir_exact_bytes := exact_bytes r; ir_source_kind := source_kind_code (source_kind (fields_of r));
     ir_imported_at := imported_at (fields_of r) |}.

Definition person_row (now : Z) (r : ImportReportV1) (p : ImportedPersonRowV1) : str * MasterPersonRow :=
  (ip_master_personnel_id p,
   {| mp_display_name := ip_display_name p; mp_role_or_function := ip_role_or_function p; mp_revision := 1;
      mp_active := ip_active p; mp_source_id := source_id (source_kind (fields_of r));
      mp_source_format_version := source_format_version (fields_of r);
      mp_import_protocol_hash := import_protocol_hash r; mp_updated_at_ms := now |}).

Definition vehicle_row (now : Z) (r : ImportReportV1) (v : ImportedVehicleRowV1) : str * MasterVehicleRow :=
  (iv_master_vehicle_id v,
   {| mv_display_name := iv_display_name v; mv_radio_call_sign := iv_radio_call_sign v;
      mv_license_plate := iv_license_plate v; mv_revision := 1; mv_active := iv_active v;
      mv_source_id := source_id (source_kind (fields_of r));
      mv_source_format_version := source_format_version (fields_of r);
      mv_import_protocol_hash := import_protocol_hash r; mv_updated_at_ms := now |}).

Lemma insert_into_union {V} (m m' : table V) l k v :
  m !! k = None → list_to_map l ##ₘ <[k := v]> m → m' = list_to_map l ∪ <[k := v]> m →
  list_to_map ((k, v) :: l) ##ₘ m ∧ m' = list_to_map ((k, v) :: l) ∪ m.
Proof.
  intros Hk Hd ->. apply map_disjoint_insert_r in Hd as [Hl Hd]. split.
  - cbn. by apply map_disjoint_insert_l.
  - cbn. by rewrite <- insert_union_l, insert_union_r.
Qed.

Lemma inserted_persons now r l d d' :
  db_for_each (insert_imported_person now r) l d = (d', Ok tt) →
  let new := list_to_map (person_row now r <$> l) in
  new ##ₘ master_persons (tables d) ∧ master_persons (tables d') = new ∪ master_persons (tables d)
  ∧ import_reports (tables d') = import_reports (tables d) ∧ master_vehicles (tables d') = master_vehicles (tables d).
Proof.
  revert d. induction l as [|p l IH]; intros d; cbn [db_for_each fmap list_fmap].
  - intros [= <-]. cbn. split; [apply map_disjoint_empty_l|]. by rewrite (left_id_L ∅ (∪)).
  - intros (d1 & [] & H & H1)%db_bind_Ok. apply db_bind_Ok in H as (d2 & v & Hv & H).
    unfold db_lift, integer_or_shape in Hv. destruct (_ <=? _); [|done]. injection Hv as <- <-.
    apply statement_Ok in H. unfold insert_person in H. destruct (_ && _) eqn:E; [|done]. injection H as Ht.
    apply andb_true_iff in E as [_ E]. apply bool_decide_eq_true in E.
    apply IH in H1 as (Hd & Hm & Hi & Hv). rewrite <- Ht in Hd, Hm, Hi, Hv. cbn in Hd, Hm, Hi, Hv.
    destruct (insert_into_union _ _ _ _ _ E Hd Hm). split_and!; congruence || done.
Qed.

Lemma inserted_vehicles now r l d d' :
  db_for_each (insert_imported_vehicle now r) l d = (d', Ok tt) →
  let new := list_to_map (vehicle_row now r <$> l) in
  new ##ₘ master_vehicles (tables d) ∧ master_vehicles (tables d') = new ∪ master_vehicles (tables d)
  ∧ import_reports (tables d') = import_reports (tables d) ∧ master_persons (tables d') = master_persons (tables d).
Proof.
  revert d. induction l as [|p l IH]; intros d; cbn [db_for_each fmap list_fmap].
  - intros [= <-]. cbn. split; [apply map_disjoint_empty_l|]. by rewrite (left_id_L ∅ (∪)).
  - intros (d1 & [] & H & H1)%db_bind_Ok. apply db_bind_Ok in H as (d2 & v & Hv & H).
    unfold db_lift, integer_or_shape in Hv. destruct (_ <=? _); [|done]. injection Hv as <- <-.
    apply statement_Ok in H. unfold insert_vehicle in H. destruct (_ && _) eqn:E; [|done]. injection H as Ht.
    apply andb_true_iff in E as [_ E]. apply bool_decide_eq_true in E.
    apply IH in H1 as (Hd & Hm & Hi & Hv). rewrite <- Ht in Hd, Hm, Hi, Hv. cbn in Hd, Hm, Hi, Hv.
    destruct (insert_into_union _ _ _ _ _ E Hd Hm). split_and!; congruence || done.
Qed.

(** The tables [t'] are [t] with the report and the rows added, none of which
    was there. *)
Record added (now : Z) (r : ImportReportV1) (imported : ImportedRowsV1) (t t' : Tables) : Prop := {
  ad_fresh : import_reports t !! import_protocol_hash r = None;
  ad_report : import_reports t' = <[import_protocol_hash r := report_row r]> (import_reports t);
  ad_rows : match imported with
    | PersonRows l => let new := list_to_map (person_row now r <$> l) in
        new ##ₘ master_persons t ∧ master_persons t' = new ∪ master_persons t ∧ master_vehicles t' = master_vehicles t
    | VehicleRows l => let new := list_to_map (vehicle_row now r <$> l) in
        new ##ₘ master_vehicles t ∧ master_vehicles t' = new ∪ master_vehicles t ∧ master_persons t' = master_persons t
    end;
}.

Lemma commit_import_Ok now r imported d d' :
  commit_import now r imported d = (d', Ok tt) → added now r imported (tables d) (tables d').
Proof.
  intros (d1 & d2 & <- & H & ->)%transaction_Ok. apply db_bind_Ok in H as (d3 & [] & H & Hr).
  apply statement_Ok in H. unfold insert_report in H. destruct (_ || _) eqn:E; [done|].
  rewrite !orb_false_iff, bool_decide_eq_false in E. destruct E as [_ E%eq_None_not_Some].
  injection H as H. destruct imported as [l|l].
  - apply inserted_persons in Hr as (Hd & Hm & Hi & Hv). rewrite <- H in Hd, Hm, Hi, Hv. done.
  - apply inserted_vehicles in Hr as (Hd & Hm & Hi & Hv). rewrite <- H in Hd, Hm, Hi, Hv. done.
Qed.

Lemma commit_run nfc object_hash raw_sha256 parsed_at now r input d d' res :
  commit nfc object_hash raw_sha256 parsed_at now r input d = (d', res) →
  match res with
  | Err _ => tables d' = tables d
  | Ok _ =>
      errors_on_the_wire (fields_of r) = [] ∧ raw_sha256 input = input_file_hash (fields_of r) ∧
      ∃ p, parse nfc object_hash raw_sha256 parsed_at (source_kind (fields_of r)) input = Ok p
        ∧ errors_on_the_wire (fields_of (report p)) = []
        ∧ warnings (fields_of (report p)) = warnings (fields_of r)
        ∧ row_count_accepted (fields_of (report p)) = row_count_accepted (fields_of r)
        ∧ added now r (rows p) (tables d) (tables d')
  end.
Proof.
  unfold commit. destruct (is_empty (errors_on_the_wire (fields_of r))) eqn:He; cbn [negb]; [|by intros [= <- <-]].
  apply is_empty_true in He. case_bool_decide as Hh; [by intros [= <- <-]|].
  destruct (parse _ _ _ _ _ _) as [p|e]; [|by intros [= <- <-]]. cbn zeta. destruct (_ || _) eqn:E; [by intros [= <- <-]|].
  rewrite !orb_false_iff, !negb_false_iff, !Z.eqb_eq, !bool_decide_eq_false in E.
  destruct E as ((((_ & Ha) & _) & Hee) & Hww). apply dec_stable in Hee, Hww.
  destruct (commit_import _ _ _ d) as [d1 [[]|e]] eqn:Ec; intros [= <- <-].
  - split_and!; [done|done|]. exists p. split_and!; try done; [congruence|]. by apply commit_import_Ok.
  - by apply transaction_Err in Ec.
Qed.

(** C38. A commit succeeds only for a report without errors over exactly
    the input it was made for, whose findings and counts a second parse gives
    again; it then adds the bytes of the report and one row of revision 1 per
    accepted row, none of which existed. Otherwise, whichever statement fails,
    no table changes. *)
Theorem import_commit_exact nfc object_hash raw_sha256 parsed_at now r input d d' res :
  commit nfc object_hash raw_sha256 parsed_at now r input d = (d', res) →
  match res with
  | Err _ => tables d' = tables d
  | Ok _ =>
      errors_on_the_wire (fields_of r) = [] ∧ raw_sha256 input = input_file_hash (fields_of r) ∧
      ∃ p, parse nfc object_hash raw_sha256 parsed_at (source_kind (fields_of r)) input = Ok p
        ∧ errors_on_the_wire (fields_of (report p)) = []
        ∧ warnings (fields_of (report p)) = warnings (fields_of r)
        ∧ row_count_accepted (fields_of (report p)) = row_count_accepted (fields_of r)
        ∧ added now r (rows p) (tables d) (tables d')
  end.
Proof. apply commit_run. Qed.

Lemma commit_tables nfc object_hash raw_sha256 parsed_at now r input d d' res :
  commit nfc object_hash raw_sha256 parsed_at now r input d = (d', res) →
  tables d' = tables d ∨ ∃ imported, added now r imported (tables d) (tables d').
Proof. intros H%commit_run. destruct res; [|by left]. destruct H as (_ & _ & p & _ & _ & _ & _ & H). eauto. Qed.

(** ** A protocol hash always has its preimage *)

Section Provenance.
Context (nfc : list Z → list Z) (object_hash : list byte → ObjectHash) (raw_sha256 : list byte → Hash32).

(** A report is only made by its constructor. *)
Definition made (r : ImportReportV1) : Prop := ∃ f, ImportReport_new nfc object_hash f = Ok r.

Inductive reachable : EncryptedDatabase → Prop :=
| Fresh faults : reachable {| tables := {| import_reports := ∅; master_persons := ∅; master_vehicles := ∅ |}; faults := faults |}
| Imported parsed_at now r input d d' res : reachable d → made r →
    commit nfc object_hash raw_sha256 parsed_at now r input d = (d', res) → reachable d'
| RenamedPerson id name now d d' res : reachable d → rename_person id name now d = (d', res) → reachable d'
| RenamedVehicle id name now d d' res : reachable d → rename_vehicle id name now d = (d', res) → reachable d'.

(** The bytes a hash names are kept. *)
Definition kept (t : Tables) (h : ObjectHash) : Prop :=
  ∃ row, import_reports t !! h = Some row ∧ object_hash (ir_exact_bytes row) = h.

Record provenanced (t : Tables) : Prop := {
  pr_persons : ∀ id r, master_persons t !! id = Some r → kept t (mp_import_protocol_hash r) ∧ 1 ≤ mp_revision r;
  pr_vehicles : ∀ id r, master_vehicles t !! id = Some r → kept t (mv_import_protocol_hash r) ∧ 1 ≤ mv_revision r;
}.

Lemma kept_mono t t' h : import_reports t ⊆ import_reports t' → kept t h → kept t' h.
Proof. intros Hs (row & H & Hr). exists row. split; [|done]. by eapply lookup_weaken. Qed.

Lemma added_provenanced now r imported t t' :
  made r → provenanced t → added now r imported t t' → provenanced t'.
Proof.
  intros (f & (_ & _ & _ & _ & _ & Hh)%new_Ok_shaped) [Hp Hv] [Hf Hr Hrows].
  assert (kept t' (import_protocol_hash r)) as Hnew.
  { exists (report_row r). rewrite Hr. split; [apply lookup_insert_eq|done]. }
  assert (∀ h, kept t h → kept t' h) as Hold.
  { intros h. apply kept_mono. rewrite Hr. by apply insert_subseteq. }
  destruct imported as [l|l]; cbn in Hrows; destruct Hrows as (_ & Hm & Ho); split; intros id q Hq.
  2, 3: rewrite Ho in Hq; naive_solver.
  - rewrite Hm in Hq. apply lookup_union_Some_raw in Hq as [Hq|[_ Hq]]; [|naive_solver].
    apply elem_of_list_to_map_2, list_elem_of_fmap in Hq as (x & [= -> ->] & _). cbn. split; [done|lia].
  - rewrite Hm in Hq. apply lookup_union_Some_raw in Hq as [Hq|[_ Hq]]; [|naive_solver].
    apply elem_of_list_to_map_2, list_elem_of_fmap in Hq as (x & [= -> ->] & _). cbn. split; [done|lia].
Qed.

Lemma rename_tables update select d d' res :
  rename update select d = (d', res) → tables d' = tables d ∨ ∃ n, update (tables d) = Ok (tables d', n).
Proof.
  destruct res as [z|e]; [|intros H%transaction_Err; by left].
  intros (d1 & d2 & E1 & H & E2)%transaction_Ok. rewrite E2, <- E1.
  apply db_bind_Ok in H as (d3 & n & H%statement_Ok & H'). case_bool_decide; [done|].
  apply db_bind_Ok in H' as (d4 & o & [E3 _]%query_Ok & H'). apply db_bind_Ok in H' as (d5 & v & H5 & H6).
  unfold db_lift in H5, H6. injection H5 as <- _. injection H6 as <- _. rewrite E3. eauto.
Qed.

Lemma update_person_provenanced id name now t t' n :
  update_person id name now t = Ok (t', n) → provenanced t → provenanced t'.
Proof.
  unfold update_person. intros H [Hp Hv]. destruct (master_persons t !! id) as [r|] eqn:E; [|by simplify_eq].
  cbn zeta in H. destruct (_ && _); [|done]. injection H as <- _. split; cbn; intros id' r' Hr'; [|eauto].
  destruct (decide (id' = id)) as [->|Hne]; [rewrite lookup_insert_eq in Hr'|rewrite lookup_insert_ne in Hr' by done; eauto].
  injection Hr' as <-. destruct (Hp id r E) as [Hk Hn]. cbn. split; [exact Hk|lia].
Qed.

Lemma update_vehicle_provenanced id name now t t' n :
  update_vehicle id name now t = Ok (t', n) → provenanced t → provenanced t'.
Proof.
  unfold update_vehicle. intros H [Hp Hv]. destruct (master_vehicles t !! id) as [r|] eqn:E; [|by simplify_eq].
  cbn zeta in H. destruct (_ && _); [|done]. injection H as <- _. split; cbn; intros id' r' Hr'; [eauto|].
  destruct (decide (id' = id)) as [->|Hne]; [rewrite lookup_insert_eq in Hr'|rewrite lookup_insert_ne in Hr' by done; eauto].
  injection Hr' as <-. destruct (Hv id r E) as [Hk Hn]. cbn. split; [exact Hk|lia].
Qed.
End Provenance.

(** Under every sequence of commits and renames, with statements
    failing anywhere, each master data row names a protocol hash whose exact
    report bytes are kept and hash to it, and has a revision of at least 1. *)
Theorem provenance_retained nfc object_hash raw_sha256 d :
  reachable nfc object_hash raw_sha256 d → provenanced object_hash (tables d).
Proof.
  induction 1 as [fs|pa now r input d d' res _ IH Hm H|id name now d d' res _ IH H|id name now d d' res _ IH H].
  - split; intros id r; cbn; by rewrite lookup_empty.
  - apply commit_tables in H as [->|(p & H)]; [done|]. by eapply added_provenanced.
  - apply rename_tables in H as [->|[n H]]; [done|]. by eapply update_person_provenanced.
  - apply rename_tables in H as [->|[n H]]; [done|]. by eapply update_vehicle_provenanced.
Qed.

(** ** Snapshots of stored rows *)

(** What Unicode normalization to NFC promises. *)
Class NfcLaws (to_nfc : str → str) : Prop := {
  nfc_idempotent : ∀ s, to_nfc (to_nfc s) = to_nfc s;
  nfc_present : ∀ s, 1 ≤ char_count s → 1 ≤ char_count (to_nfc s);
  nfc_ascii : ∀ s, forallb (λ b, u8 b <=? 127) s = true → to_nfc s = s;
}.

Section SnapshotTheorems.
Context (to_nfc : str → str) `{!NfcLaws to_nfc}.

Lemma snapshot_text_Ok s field :
  1 ≤ char_count s →
  validate_snapshot_text to_nfc (to_nfc s) field = Ok tt ↔ char_count (to_nfc s) ≤ SNAPSHOT_TEXT_MAX_CHARS_V1.
Proof.
  intros Hs%nfc_present. unfold validate_snapshot_text, validate_char_count.
  rewrite bool_decide_eq_false_2 by (intros H; by apply H, nfc_idempotent). cbn zeta.
  rewrite (proj2 (Z.leb_le _ _) Hs). cbn [andb]. destruct (Z.leb_spec (char_count (to_nfc s)) SNAPSHOT_TEXT_MAX_CHARS_V1);
    cbn [negb]; split; done || lia.
Qed.

(** A text that is there and, normalized, has at most 200 characters. *)
Definition fits_snapshot (s : str) : Prop := char_count (to_nfc s) ≤ SNAPSHOT_TEXT_MAX_CHARS_V1.

Lemma snapshot_optional_Ok o field :
  (∀ s, o = Some s → 1 ≤ char_count s) →
  validate_optional_snapshot_text to_nfc (normalize_text to_nfc <$> o) field = Ok tt ↔
  ∀ s, o = Some s → fits_snapshot s.
Proof.
  intros Ho. destruct o as [s|]; cbn; [|by split].
  rewrite snapshot_text_Ok by eauto. unfold fits_snapshot. naive_solver.
Qed.

Lemma provenance_ok k version h :
  0 ≤ version → length h = 32%nat →
  provenance_of to_nfc (source_id k) version h =
    Ok {| pv_source_id := source_id k; pv_source_format_version := version; pv_import_protocol_hash := h |}
  ∧ validate_provenance to_nfc {| pv_source_id := source_id k; pv_source_format_version := version;
       pv_import_protocol_hash := h |} = Ok tt.
Proof.
  intros Hv Hh. assert (to_nfc (source_id k) = source_id k) as Hn by (apply nfc_ascii; by destruct k).
  assert (validate_snapshot_text to_nfc (source_id k) "importedProvenance.sourceId" = Ok tt) as Hs.
  { rewrite <- Hn. apply snapshot_text_Ok; rewrite ?Hn; by destruct k; apply Z.leb_le. }
  split; [|exact Hs].
  unfold provenance_of, Hash32_try_from. rewrite Hh. cbn [mbind result_bind].
  unfold column_u64. rewrite (proj2 (Z.leb_le 0 version) Hv). cbn [mbind result_bind].
  unfold ImportedProvenance_new, normalize_text, validate_provenance. cbn [pv_source_id]. rewrite Hn, Hs. done.
Qed.

Lemma seq_Ok (a b : result SchemaError unit) : (a;; b) = Ok tt ↔ a = Ok tt ∧ b = Ok tt.
Proof. destruct a as [[]|]; cbn; naive_solver. Qed.

Lemma snapshot_err_Ok {A} (v : result SchemaError unit) (a s : A) :
  snapshot_err (v;; Ok a) = Ok s ↔ v = Ok tt ∧ s = a.
Proof. destruct v as [[]|]; cbn; naive_solver. Qed.

Lemma query_healthy {A} (f : Tables → A) d : faults d = [] → query f d = (d, Ok (f (tables d))).
Proof. destruct d as [t fs]. cbn. by intros ->. Qed.

(** The snapshot of a stored person is taken exactly if identifier,
    name and role still have at most 200 characters once they are normalized;
    it then has the normalized texts, the revision of the row and the
    provenance of its import. *)
Theorem snapshot_person_iff id r k d s :
  faults d = [] → master_persons (tables d) !! id = Some r →
  mp_source_id r = source_id k → 0 ≤ mp_source_format_version r → length (mp_import_protocol_hash r) = 32%nat →
  1 ≤ mp_revision r → 1 ≤ char_count id → 1 ≤ char_count (mp_display_name r) →
  (∀ role, mp_role_or_function r = Some role → 1 ≤ char_count role) →
  (snapshot_person to_nfc id d).2 = Ok s ↔
  fits_snapshot id ∧ fits_snapshot (mp_display_name r) ∧ (∀ role, mp_role_or_function r = Some role → fits_snapshot role)
  ∧ s = Person.Master (to_nfc id) (to_nfc (mp_display_name r)) (to_nfc <$> mp_role_or_function r)
          (RevisionNumber (mp_revision r))
          (Some {| pv_source_id := source_id k; pv_source_format_version := mp_source_format_version r;
                   pv_import_protocol_hash := mp_import_protocol_hash r |}).
Proof.
  intros Hd Hr Hk Hv Hh Hrev Hid Hname Hrole. unfold snapshot_person. unfold mbind, db_bind.
  rewrite query_healthy by done. rewrite Hr. cbn [ok_or db_lift].
  unfold revision_of, column_u64. rewrite (proj2 (Z.leb_le 0 (mp_revision r))) by lia. cbn [mbind result_bind].
  destruct (provenance_ok k (mp_source_format_version r) (mp_import_protocol_hash r) Hv Hh) as [Hp Hpv].
  rewrite Hk, Hp. cbn [snd]. unfold person_master, db_lift. cbn [snd]. rewrite snapshot_err_Ok. cbn [validate_person].
  rewrite !seq_Ok, Hpv. unfold normalize_text at 1 2. rewrite !snapshot_text_Ok, snapshot_optional_Ok by done.
  unfold fits_snapshot. naive_solver.
Qed.
End SnapshotTheorems.

(** ** A concrete import *)

Definition one_hash : list byte → ObjectHash := λ _, replicate 32 x01.

Definition clean_csv : list byte :=
  lit "id,display_name,role,active" ++ [newline] ++ lit "p1,Anna,,true" ++ [newline] ++ lit "p2,Bob,Arzt,true" ++ [newline].

Definition fresh_database (fs : list bool) : EncryptedDatabase :=
  {| tables := {| import_reports := ∅; master_persons := ∅; master_vehicles := ∅ |}; faults := fs |}.

(** The report of a dry run and the database after its commit. *)
Definition import_file (input : list byte) (fs : list bool) : EncryptedDatabase * result ImportError unit :=
  match dry_run id one_hash zero_hash 5 Persons input with
  | Ok r => commit id one_hash zero_hash 6 7 r input (fresh_database fs)
  | Err e => (fresh_database fs, Err e)
  end.

Definition clean_report : ImportReportFieldsV1 :=
  {| source_kind := Persons; source_format_version := 1; input_file_hash := replicate 32 x00;
     report_header_line := header_line Persons; imported_at := 5; row_count_total := 2;
     row_count_accepted := 2; row_count_rejected := 0; warnings := []; errors_on_the_wire := [] |}.

Lemma clean_dry_run : dry_run id one_hash zero_hash 5 Persons clean_csv = Ok (built one_hash clean_report).
Proof. vm_compute. reflexivity. Qed.

Lemma import_commit_exact_witness :
  ∃ d', commit id one_hash zero_hash 6 7 (built one_hash clean_report) clean_csv (fresh_database [false]) = (d', Ok tt)
    ∧ import_reports (tables d') !! replicate 32 x01 = Some (report_row (built one_hash clean_report)).
Proof.
  destruct (commit id one_hash zero_hash 6 7 (built one_hash clean_report) clean_csv (fresh_database [false]))
    as [d' res] eqn:E.
  assert (res = Ok tt) as ->.
  { transitivity (commit id one_hash zero_hash 6 7 (built one_hash clean_report) clean_csv (fresh_database [false])).2;
      [by rewrite E|vm_compute; reflexivity]. }
  exists d'. split; [reflexivity|]. apply import_commit_exact in E as (_ & _ & p & _ & _ & _ & _ & A).
  rewrite (ad_report _ _ _ _ _ A). apply lookup_insert_eq.
Defined.

Lemma provenance_retained_witness :
  provenanced one_hash
    (tables (commit id one_hash zero_hash 6 7 (built one_hash clean_report) clean_csv (fresh_database [])).1).
Proof.
  apply (provenance_retained id one_hash zero_hash).
  eapply (Imported _ _ _ 6 7 (built one_hash clean_report) clean_csv); [apply Fresh| |apply surjective_pairing].
  exists clean_report. vm_compute. reflexivity.
Defined.

(** The letter U+0958 two hundred times: its normal form is the letters U+0915
    U+093C, twice as long. *)
Definition qa_name : str := concat (replicate 200 [xe0; xa5; x98]).
Definition qa_normal : str := concat (replicate 200 [xe0; xa4; x95; xe0; xa4; xbc]).

(** Normalization on this text and on texts in normal form. *)
Definition sample_nfc (s : str) : str := if bool_decide (s = qa_name) then qa_normal else s.

#[export] Instance sample_nfc_laws : NfcLaws sample_nfc.
Proof.
  split; unfold sample_nfc; intros s.
  - case_bool_decide; case_bool_decide; done.
  - case_bool_decide; [by intros _; apply Z.leb_le; vm_compute|done].
  - case_bool_decide as E; [|done]. subst s. vm_compute. discriminate.
Qed.

Definition qa_csv : list byte :=
  lit "id,display_name,role,active" ++ [newline] ++ lit "p1," ++ qa_name ++ lit ",,true" ++ [newline].

(** A file whose dry run is clean and whose commit succeeds, but no snapshot
    can be taken of its only row. *)
Example clean_import_without_snapshot :
  (∃ r, dry_run id one_hash zero_hash 5 Persons qa_csv = Ok r
     ∧ errors_on_the_wire (fields_of r) = [] ∧ warnings (fields_of r) = []) ∧
  (import_file qa_csv []).2 = Ok tt ∧
  (snapshot_person sample_nfc (lit "p1") (import_file qa_csv []).1).2 = Err SnapshotError.
Proof.
  split; [|split; vm_compute; reflexivity].
  destruct (dry_run id one_hash zero_hash 5 Persons qa_csv) as [r|] eqn:E; vm_compute in E; [|discriminate].
  exists r. split; [done|]. injection E as <-. done.
Qed.

Definition stored_person : MasterPersonRow :=
  {| mp_display_name := qa_name; mp_role_or_function := Some (lit "Arzt"); mp_revision := 2; mp_active := true;
     mp_source_id := source_id Persons; mp_source_format_version := 1;
     mp_import_protocol_hash := replicate 32 x01; mp_updated_at_ms := 7 |}.

Definition stored_database : EncryptedDatabase :=
  {| tables := put_person (lit "p1") stored_person (tables (fresh_database [])); faults := [] |}.

Lemma snapshot_person_iff_witness :
  ¬ ∃ s, (snapshot_person sample_nfc (lit "p1") stored_database).2 = Ok s.
Proof.
  intros [s H]. apply (snapshot_person_iff sample_nfc (lit "p1") stored_person Persons) in H as (_ & Hn & _).
  - revert Hn. unfold fits_snapshot. apply Z.lt_nge, Z.ltb_lt. vm_compute. reflexivity.
  - done.
  - apply lookup_insert_eq.
  - done.
  - done.
  - done.
  - done.
  - apply Z.leb_le. vm_compute. reflexivity.
  - apply Z.leb_le. vm_compute. reflexivity.
  - intros role [= <-]. apply Z.leb_le. vm_compute. reflexivity.
Defined.
