(* ===== verification/KeyStore.v ===== *)
(** * KeyStore: the key port of the writer ([ea-key-provider]) and its cipher

    The handles and purposes of the port ([contract.rs]), the profile a
    writer's keys must have ([profile.rs]), the in-process provider
    ([in_memory.rs]) and the authenticated encryption of [ea-crypto]
    ([aead.rs]).

    The port is the class [KeyProvider]; [KeyProviderLaws] is what its contract
    says, and the in-process provider is an instance. Signing needs Ed25519 and
    is left out. The stream cipher is a parameter. *)

From S2P Require Import Prelude Types Str.

(** ** Errors *)

Module Crypto.
Inductive CryptoError :=
| InvalidCose | UnsupportedSuite | InvalidPublicKey | SignerMismatch | SignerUnresolved
| SignerUnauthorized | SignatureInvalid | AeadOpen | HpkeKey | HpkeOpen | LocalRng | SizeLimit
| InvalidOsAccount | InvalidProtocolCore.

Definition crypto_error_code (e : CryptoError) : string :=
  match e with
  | InvalidCose => "EA-CRYPTO-INVALID-COSE"
  | UnsupportedSuite => "EA-CRYPTO-UNSUPPORTED-SUITE"
  | InvalidPublicKey => "EA-CRYPTO-INVALID-PUBLIC-KEY"
  | SignerMismatch => "EA-TRUST-SIGNER-MISMATCH"
  | SignerUnresolved => "EA-TRUST-SIGNER-UNRESOLVED"
  | SignerUnauthorized => "EA-TRUST-SIGNER-UNAUTHORIZED"
  | SignatureInvalid => "EA-TRUST-SIGNATURE-INVALID"
  | AeadOpen => "EA-CRYPTO-AEAD-OPEN"
  | HpkeKey => "EA-CRYPTO-HPKE-KEY"
  | HpkeOpen => "EA-CRYPTO-HPKE-OPEN"
  | LocalRng => "EA-LOCAL-CRYPTO-RNG"
  | SizeLimit => "EA-CRYPTO-SIZE-LIMIT"
  | InvalidOsAccount => "EA-IDENTITY-INVALID-OS-ACCOUNT"
  | InvalidProtocolCore => "EA-CRYPTO-INVALID-PROTOCOL-CORE"
  end.

Definition technical_code (e : CryptoError) : TechnicalErrorCode :=
  match e with
  | InvalidCose | UnsupportedSuite | InvalidPublicKey | InvalidProtocolCore => InvalidObject
  | SignerMismatch | SignerUnresolved | SignerUnauthorized | SignatureInvalid | AeadOpen
  | HpkeOpen => TrustViolation
  | HpkeKey | SizeLimit | InvalidOsAccount => InvalidInput
  | LocalRng => LocalResourceUnavailable
  end.
End Crypto.
Import Crypto(CryptoError).

Module Key.
Inductive KeyError :=
| NotFound | ProviderUnavailable | PurposeMismatch | ForbiddenPurpose | ProtectionProfileMismatch
| UnsupportedProtectionProfile | UnreachableProtectionProfile | UnknownCapability
| ForbiddenCapability | FromCrypto (e : CryptoError).

Definition key_error_code (e : KeyError) : string :=
  match e with
  | NotFound => "EA-KEY-NOT-FOUND"
  | ProviderUnavailable => "EA-KEY-PROVIDER-UNAVAILABLE"
  | PurposeMismatch => "EA-KEY-PURPOSE-MISMATCH"
  | ForbiddenPurpose => "EA-KEY-FORBIDDEN-PURPOSE"
  | ProtectionProfileMismatch => "EA-KEY-PROTECTION-PROFILE-MISMATCH"
  | UnsupportedProtectionProfile => "EA-KEY-PROTECTION-PROFILE-UNSUPPORTED"
  | UnreachableProtectionProfile => "EA-KEY-PROTECTION-PROFILE-UNREACHABLE"
  | UnknownCapability => "EA-KEY-UNKNOWN-CAPABILITY"
  | ForbiddenCapability => "EA-KEY-FORBIDDEN-CAPABILITY"
  | FromCrypto e => Crypto.crypto_error_code e
  end.
End Key.
Import Key(KeyError).

(** ** Handles ([contract.rs]) *)

Inductive SecretPurpose := WriterSigningKey | OperatorInstanceKey | DraftDek | LocalDatabaseKey.
Inductive KeyPurpose := ReaderKem | RecoveryKem | HistoricalGrantAuthorityKey | KeyApproverKey.
Inductive KeystoreProvider := OperatingSystem | InMemory.

#[export] Instance SecretPurpose_eq_dec : EqDecision SecretPurpose.
Proof. solve_decision. Defined.
#[export] Instance KeystoreProvider_eq_dec : EqDecision KeystoreProvider.
Proof. solve_decision. Defined.

(** The application and the policy of a handle are the same for every handle. *)
Record KeyHandle := {
  keystore_provider : KeystoreProvider;
  account_instance : Hash32;
  handle_purpose : SecretPurpose;
}.

#[export] Instance KeyHandle_eq_dec : EqDecision KeyHandle.
Proof. solve_decision. Defined.

Definition require_purpose (h : KeyHandle) (permitted : list SecretPurpose) : result KeyError unit :=
  if bool_decide (handle_purpose h ∈ permitted) then Ok tt else Err Key.PurposeMismatch.

(** ** The profile of a writer's keys ([profile.rs]) *)

Inductive KeyProtectionProfileV1 :=
| OsWrapped | HardwareNonExportable | OfflineEncryptedContainer | Pkcs11 | ServerSecretStoreOrHsm.

Inductive CertificateCapability :=
| InitialGrant | HistoricalGrant | OrganizationAdminApprove | HistoricalGrantApprove
| DestructionApprove | ServerReceipt | DeletionAttest.

#[export] Instance KeyProtectionProfileV1_eq_dec : EqDecision KeyProtectionProfileV1.
Proof. solve_decision. Defined.
#[export] Instance CertificateCapability_eq_dec : EqDecision CertificateCapability.
Proof. solve_decision. Defined.

Definition capability_as_str (c : CertificateCapability) : str :=
  match c with
  | InitialGrant => lit "initialGrant"
  | HistoricalGrant => lit "historicalGrant"
  | OrganizationAdminApprove => lit "organizationAdminApprove"
  | HistoricalGrantApprove => lit "historicalGrantApprove"
  | DestructionApprove => lit "destructionApprove"
  | ServerReceipt => lit "serverReceipt"
  | DeletionAttest => lit "deletionAttest"
  end.

Definition same_text (a b : str) : bool := bool_decide (a = b).

Definition capability_try_from (s : str) : result CryptoError CertificateCapability :=
  if same_text s (lit "initialGrant") then Ok InitialGrant
  else if same_text s (lit "historicalGrant") then Ok HistoricalGrant
  else if same_text s (lit "organizationAdminApprove") then Ok OrganizationAdminApprove
  else if same_text s (lit "historicalGrantApprove") then Ok HistoricalGrantApprove
  else if same_text s (lit "destructionApprove") then Ok DestructionApprove
  else if same_text s (lit "serverReceipt") then Ok ServerReceipt
  else if same_text s (lit "deletionAttest") then Ok DeletionAttest
  else Err Crypto.SignerMismatch.

Definition WRITER_CAPABILITIES : list CertificateCapability := [InitialGrant].
Definition HARDWARE_CAPABLE_PROVIDERS : list KeystoreProvider := [].

Definition validate_foreign (purposes : list KeyPurpose) : result KeyError unit :=
  match purposes with [] => Ok tt | _ => Err Key.ForbiddenPurpose end.

Fixpoint validate_local (purposes : list SecretPurpose) : result KeyError unit :=
  match purposes with
  | [] => Ok tt
  | p :: purposes =>
      match p with
      | WriterSigningKey | OperatorInstanceKey | DraftDek | LocalDatabaseKey => validate_local purposes
      end
  end.

Fixpoint validate_capabilities (claimed : list str) : result KeyError (list CertificateCapability) :=
  match claimed with
  | [] => Ok []
  | literal :: claimed =>
      match capability_try_from literal with
      | Err _ => Err Key.UnknownCapability
      | Ok capability =>
          if bool_decide (capability ∈ WRITER_CAPABILITIES)
          then parsed ← validate_capabilities claimed; Ok (capability :: parsed)
          else Err Key.ForbiddenCapability
      end
  end.

Definition require_stage_two_protection_profile (p : KeyProtectionProfileV1) : result KeyError unit :=
  match p with
  | OsWrapped | HardwareNonExportable => Ok tt
  | OfflineEncryptedContainer | Pkcs11 | ServerSecretStoreOrHsm => Err Key.UnsupportedProtectionProfile
  end.

Definition require_claimed_protection_profile (provider : KeystoreProvider)
    (reached claimed : KeyProtectionProfileV1) : result KeyError unit :=
  _ ← require_stage_two_protection_profile reached;
  _ ← require_stage_two_protection_profile claimed;
  if bool_decide (reached ≠ claimed) then Err Key.ProtectionProfileMismatch else
  if bool_decide (claimed = HardwareNonExportable)
     && negb (bool_decide (provider ∈ HARDWARE_CAPABLE_PROVIDERS))
  then Err Key.UnreachableProtectionProfile else Ok tt.

(** ** The port *)

Definition secret := list byte.

(** [entries] is what the store holds. *)
Class KeyProvider (K : Type) := {
  wrap_secret : SecretPurpose → secret → K → K * result KeyError KeyHandle;
  unwrap_secret : KeyHandle → K → K * result KeyError secret;
  delete_key : KeyHandle → K → K * result KeyError unit;
  contains_key : KeyHandle → K → K * result KeyError bool;
  entries : K → KeyHandle → option secret;
}.

(** A handle is the address of its entry: one store and one account have one
    entry for each purpose, and a second wrap replaces the first. Only the
    entry that is named changes, and only the answers [Ok] and [NotFound] say
    what the store holds. *)
Class KeyProviderLaws (K : Type) `{KeyProvider K} : Prop := {
  wrap_law : ∀ p s (k k' : K) h, wrap_secret p s k = (k', Ok h) →
    handle_purpose h = p ∧
    entries k' h = Some s ∧ ∀ g, g ≠ h → entries k' g = entries k g;
  wrap_frame : ∀ p s (k k' : K) e g, wrap_secret p s k = (k', Err e) →
    handle_purpose g ≠ p → entries k' g = entries k g;
  unwrap_law : ∀ h (k k' : K) r, unwrap_secret h k = (k', r) →
    (∀ g, entries k' g = entries k g) ∧
    (∀ s, r = Ok s → entries k h = Some s) ∧ (r = Err Key.NotFound → entries k h = None);
  delete_law : ∀ h (k k' : K) r, delete_key h k = (k', r) →
    (∀ g, g ≠ h → entries k' g = entries k g) ∧
    (r = Ok tt ∨ r = Err Key.NotFound → entries k' h = None) ∧
    (entries k h = None → entries k' h = None);
  contains_law : ∀ h (k k' : K) r, contains_key h k = (k', r) →
    (∀ g, entries k' g = entries k g) ∧
    (∀ b, r = Ok b → b = bool_decide (is_Some (entries k h)));
}.

(** ** The in-process provider ([in_memory.rs]) *)

Record InMemoryKeyProvider := {
  im_account_instance : Hash32;
  im_seed : list byte;
  im_entries : KeyHandle → option secret;
  im_epochs : SecretPurpose → Z;
}.

Definition purpose_tag (p : SecretPurpose) : Z :=
  match p with WriterSigningKey => 1 | OperatorInstanceKey => 2 | DraftDek => 3 | LocalDatabaseKey => 4 end.

(** What [derive] adds to the byte at [index] of the seed. *)
Definition derive_mask (p : SecretPurpose) (epoch : Z) (index : nat) : Z :=
  let mixer := Z.lor (Z.of_nat index) 1 in
  (purpose_tag p * mixer + u8 (default x00 (to_be_bytes 4 epoch !! (index mod 4)%nat))) mod 256.

Definition derive_material (seed : list byte) (p : SecretPurpose) (epoch : Z) : list byte :=
  imap (λ index b, byte_of (Z.lxor (u8 b) (derive_mask p epoch index))) seed.

Definition im_put (h : KeyHandle) (v : option secret) (k : InMemoryKeyProvider) : InMemoryKeyProvider :=
  {| im_account_instance := im_account_instance k; im_seed := im_seed k;
     im_entries := λ g, if bool_decide (g = h) then v else im_entries k g; im_epochs := im_epochs k |}.

Definition new_for_test (seed : list byte) : InMemoryKeyProvider :=
  {| im_account_instance := seed; im_seed := seed; im_entries := λ _, None; im_epochs := λ _, 0 |}.

Definition im_handle (p : SecretPurpose) (k : InMemoryKeyProvider) : KeyHandle :=
  {| keystore_provider := InMemory; account_instance := im_account_instance k; handle_purpose := p |}.

Definition im_material (h : KeyHandle) (k : InMemoryKeyProvider) : result KeyError secret :=
  ok_or Key.NotFound (im_entries k h).

Definition insert_fresh_material (h : KeyHandle) (p : SecretPurpose) (k : InMemoryKeyProvider) : InMemoryKeyProvider :=
  im_put h (Some (derive_material (im_seed k) p (im_epochs k p))) k.

Definition im_generate (p : SecretPurpose) (protection : KeyProtectionProfileV1) (k : InMemoryKeyProvider)
    : InMemoryKeyProvider * result KeyError KeyHandle :=
  match (_ ← validate_local [p]; require_stage_two_protection_profile protection) with
  | Err e => (k, Err e)
  | Ok _ =>
      if bool_decide (protection ≠ OsWrapped) then (k, Err Key.UnreachableProtectionProfile)
      else (insert_fresh_material (im_handle p k) p k, Ok (im_handle p k))
  end.

Definition im_wrap_secret (p : SecretPurpose) (s : secret) (k : InMemoryKeyProvider)
    : InMemoryKeyProvider * result KeyError KeyHandle :=
  match require_purpose (im_handle p k) [DraftDek] with
  | Err e => (k, Err e)
  | Ok _ => (im_put (im_handle p k) (Some s) k, Ok (im_handle p k))
  end.

Definition im_unwrap_secret (h : KeyHandle) (k : InMemoryKeyProvider) : InMemoryKeyProvider * result KeyError secret :=
  (k, _ ← require_purpose h [DraftDek]; im_material h k).

Definition im_unwrap_database_key (h : KeyHandle) (k : InMemoryKeyProvider)
    : InMemoryKeyProvider * result KeyError secret :=
  (k, _ ← require_purpose h [LocalDatabaseKey]; im_material h k).

(** The entry goes and the epoch of its purpose rises, at its 32 bits. *)
Definition im_delete (h : KeyHandle) (k : InMemoryKeyProvider) : InMemoryKeyProvider * result KeyError unit :=
  let k := im_put h None k in
  ({| im_account_instance := im_account_instance k; im_seed := im_seed k; im_entries := im_entries k;
      im_epochs := λ p, if bool_decide (p = handle_purpose h) then (im_epochs k p + 1) mod 2 ^ 32
                        else im_epochs k p |}, Ok tt).

Definition im_contains (h : KeyHandle) (k : InMemoryKeyProvider) : InMemoryKeyProvider * result KeyError bool :=
  (k, Ok (bool_decide (is_Some (im_entries k h)))).

Definition im_reached_protection_profile (h : KeyHandle) (k : InMemoryKeyProvider)
    : result KeyError KeyProtectionProfileV1 :=
  _ ← im_material h k; Ok OsWrapped.

#[export] Instance in_memory_provider : KeyProvider InMemoryKeyProvider := {
  wrap_secret := im_wrap_secret;
  unwrap_secret := im_unwrap_secret;
  delete_key := im_delete;
  contains_key := im_contains;
  entries := im_entries;
}.

#[export] Instance in_memory_provider_laws : KeyProviderLaws InMemoryKeyProvider.
Proof.
  split.
  - intros p s k k' h. cbn. unfold im_wrap_secret. case_match; [|done]. intros [= <- <-]. cbn.
    repeat split; [by rewrite bool_decide_eq_true_2|]. intros g Hg. by rewrite bool_decide_eq_false_2.
  - intros p s k k' e g. cbn. unfold im_wrap_secret. case_match; [done|]. by intros [= <- <-].
  - intros h k k' r. cbn. intros [= <- <-]. unfold im_material.
    split; [done|]. unfold require_purpose. case_bool_decide; cbn; [|done].
    destruct (im_entries k h); cbn; split; naive_solver.
  - intros h k k' r. cbn. intros [= <- <-]. cbn. split; [|by rewrite bool_decide_eq_true_2].
    intros g Hg. by rewrite bool_decide_eq_false_2.
  - intros h k k' r. cbn. intros [= <- <-]. split; [done|]. by intros b [= <-].
Qed.

(** ** Authenticated encryption ([aead.rs]) *)

Definition CEK_SIZE : Z := 32.
Definition AEAD_NONCE_SIZE : nat := 12.
Definition AEAD_OVERHEAD : Z := 16.

(** The stream cipher: key, nonce, message and associated data. *)
Class AeadCipher := {
  cipher_encrypt : secret → list byte → list byte → list byte → option (list byte);
  cipher_decrypt : secret → list byte → list byte → list byte → option (list byte);
}.

(** A message decrypts under the key, nonce and data it was encrypted with;
    the tag is sixteen bytes. *)
Class AeadLaws `{AeadCipher} : Prop := {
  decrypt_encrypt : ∀ k n m a c, cipher_encrypt k n m a = Some c → cipher_decrypt k n c a = Some m;
  encrypt_length : ∀ k n m a c, cipher_encrypt k n m a = Some c →
    Z.of_nat (length c) = Z.of_nat (length m) + AEAD_OVERHEAD;
}.

Section Aead.
Context `{AeadCipher}.

Definition checked_ciphertext_length (n : Z) : result CryptoError Z :=
  ok_or Crypto.SizeLimit (checked_add usize_max n AEAD_OVERHEAD).

Definition aead_seal (cek : secret) (nonce plaintext aad : list byte) : result CryptoError (list byte) :=
  expected_length ← checked_ciphertext_length (Z.of_nat (length plaintext));
  ciphertext ← ok_or Crypto.SizeLimit (cipher_encrypt cek nonce plaintext aad);
  if bool_decide (Z.of_nat (length ciphertext) ≠ expected_length) then Err Crypto.SizeLimit
  else Ok ciphertext.

Definition aead_open (cek : secret) (nonce ciphertext aad : list byte) : result CryptoError (list byte) :=
  if Z.of_nat (length ciphertext) <? AEAD_OVERHEAD then Err Crypto.AeadOpen
  else ok_or Crypto.AeadOpen (cipher_decrypt cek nonce ciphertext aad).

Lemma open_seal `{!AeadLaws} k n m a c : aead_seal k n m a = Ok c → aead_open k n c a = Ok m.
Proof.
  unfold aead_seal, aead_open, checked_ciphertext_length. intros Hs.
  apply bind_Ok in Hs as (x & Hx & Hs). apply bind_Ok in Hs as (y & Hy & Hs).
  apply ok_or_Ok in Hy. case_bool_decide as Hl; [done|]. injection Hs as ->.
  pose proof (encrypt_length _ _ _ _ _ Hy) as Hlen.
  rewrite (proj2 (Z.ltb_ge _ _)) by lia. by rewrite (decrypt_encrypt _ _ _ _ _ Hy).
Qed.

(** Sealing fails only when the length is no [usize] or the cipher refuses. *)
Lemma seal_total `{!AeadLaws} k n m a :
  Z.of_nat (length m) + AEAD_OVERHEAD ≤ usize_max → is_Some (cipher_encrypt k n m a) →
  ∃ c, aead_seal k n m a = Ok c.
Proof.
  intros Hm [c Hc]. exists c. unfold aead_seal, checked_ciphertext_length.
  rewrite (proj2 (checked_add_Some _ _ _ _) (conj eq_refl Hm)). cbn. rewrite Hc. cbn.
  pose proof (encrypt_length _ _ _ _ _ Hc) as Hl. by rewrite bool_decide_eq_false_2 by lia.
Qed.
End Aead.

(** ** Derived material *)

Lemma lxor_cancel a x y : Z.lxor a x = Z.lxor a y → x = y.
Proof. intros H. apply (f_equal (Z.lxor a)) in H. by rewrite <- !Z.lxor_assoc, Z.lxor_nilpotent, !Z.lxor_0_l in H. Qed.

Lemma lxor_byte a b : 0 ≤ a < 256 → 0 ≤ b < 256 → 0 ≤ Z.lxor a b < 256.
Proof.
  intros Ha Hb. split; [apply Z.lxor_nonneg; lia|].
  destruct (decide (Z.lxor a b = 0)) as [->|Hn]; [lia|].
  assert (0 < Z.lxor a b) by (pose proof (proj2 (Z.lxor_nonneg a b)); lia).
  change 256 with (2 ^ 8). apply Z.log2_lt_pow2; [done|].
  eapply Z.le_lt_trans; [apply Z.log2_lxor; lia|]. apply Z.max_lub_lt.
  - destruct (decide (a = 0)) as [->|]; [done|]. apply Z.log2_lt_pow2; lia.
  - destruct (decide (b = 0)) as [->|]; [done|]. apply Z.log2_lt_pow2; lia.
Qed.

(** Equal material has equal masks at every byte of the seed. *)
Lemma derive_masks seed p q e e' i :
  derive_material seed p e = derive_material seed q e' → (i < length seed)%nat →
  derive_mask p e i = derive_mask q e' i.
Proof.
  intros Heq [b Hb]%lookup_lt_is_Some.
  assert (Hm : ∀ p e, 0 ≤ derive_mask p e i < 256) by (intros; apply Z.mod_pos_bound; lia).
  apply (f_equal (lookup i)) in Heq. unfold derive_material in Heq.
  rewrite !list_lookup_imap, Hb in Heq. cbn in Heq. injection Heq as Heq.
  apply (f_equal u8) in Heq. rewrite !u8_byte_of in Heq.
  rewrite !Z.mod_small in Heq by (apply lxor_byte; auto using u8_range).
  by eapply lxor_cancel.
Qed.

Lemma derive_mask_at p e i b :
  to_be_bytes 4 e !! (i mod 4)%nat = Some b →
  derive_mask p e i = (purpose_tag p * Z.lor (Z.of_nat i) 1 + u8 b) mod 256.
Proof. unfold derive_mask. by intros ->. Qed.

Lemma mod_256_eq a b : a mod 256 = b mod 256 → ∃ k, a - b = k * 256.
Proof.
  intros H. exists (a / 256 - b / 256). pose proof (Z.div_mod a 256). pose proof (Z.div_mod b 256). lia.
Qed.

(** The four bytes of an epoch. *)
Lemma epoch_bytes e : ∃ b0 b1 b2 b3, to_be_bytes 4 e = [b0; b1; b2; b3].
Proof. cbn. eauto. Qed.

(** The material names its purpose and its epoch: two derivations from one seed
    agree only when both agree. *)
Lemma derive_material_inj seed p q e e' :
  length seed = 32%nat → 0 ≤ e < 2 ^ 32 → 0 ≤ e' < 2 ^ 32 →
  derive_material seed p e = derive_material seed q e' → p = q ∧ e = e'.
Proof.
  intros Hl He He' Heq.
  destruct (epoch_bytes e) as (b0 & b1 & b2 & b3 & Hb), (epoch_bytes e') as (c0 & c1 & c2 & c3 & Hc).
  assert (Hm : ∀ i, (i < 32)%nat → derive_mask p e i = derive_mask q e' i)
    by (intros; eapply derive_masks; [done|lia]).
  pose proof (Hm 0%nat ltac:(lia)) as M0. pose proof (Hm 1%nat ltac:(lia)) as M1.
  pose proof (Hm 2%nat ltac:(lia)) as M2. pose proof (Hm 3%nat ltac:(lia)) as M3.
  pose proof (Hm 4%nat ltac:(lia)) as M4.
  rewrite (derive_mask_at p e 0 b0), (derive_mask_at q e' 0 c0) in M0 by (by rewrite ?Hb, ?Hc).
  rewrite (derive_mask_at p e 1 b1), (derive_mask_at q e' 1 c1) in M1 by (by rewrite ?Hb, ?Hc).
  rewrite (derive_mask_at p e 2 b2), (derive_mask_at q e' 2 c2) in M2 by (by rewrite ?Hb, ?Hc).
  rewrite (derive_mask_at p e 3 b3), (derive_mask_at q e' 3 c3) in M3 by (by rewrite ?Hb, ?Hc).
  rewrite (derive_mask_at p e 4 b0), (derive_mask_at q e' 4 c0) in M4 by (by rewrite ?Hb, ?Hc).
  assert (Ht : p = q).
  { apply mod_256_eq in M0 as [k Hk], M4 as [k' Hk'].
    change (Z.lor (Z.of_nat 0) 1) with 1 in Hk. change (Z.lor (Z.of_nat 4) 1) with 5 in Hk'.
    destruct p, q; first [done|cbn [purpose_tag] in Hk, Hk'; lia]. }
  subst q. split; [done|].
  assert (Hu : ∀ x b c, (x + u8 b) mod 256 = (x + u8 c) mod 256 → b = c).
  { intros x b c [k Hk]%mod_256_eq. apply u8_inj. pose proof (u8_range b). pose proof (u8_range c). lia. }
  apply Hu in M0, M1, M2, M3. subst. rewrite <- Hc in Hb. apply to_be_bytes_inj in Hb.
  change (8 * Z.of_nat 4) with 32 in Hb. by rewrite !Z.mod_small in Hb by lia.
Qed.

(** [new_for_test] and the operations keep the seed and the epochs in their
    ranges. *)
Record provider_wf (k : InMemoryKeyProvider) : Prop := {
  wf_seed : length (im_seed k) = 32%nat;
  wf_epochs : ∀ p, 0 ≤ im_epochs k p < 2 ^ 32;
}.

(** A deleted key does not come back: what [generate] makes after the deletion
    is at the same address and differs from what it made before. *)
Lemma deleted_key_not_regenerated k p k1 h k2 k3 h' :
  provider_wf k → im_generate p OsWrapped k = (k1, Ok h) → im_delete h k1 = (k2, Ok tt) →
  im_generate p OsWrapped k2 = (k3, Ok h') → h' = h ∧ im_entries k3 h ≠ im_entries k1 h.
Proof.
  intros [Hs He] G1 D G2. unfold im_generate in G1, G2.
  assert (Hp : validate_local [p] = Ok tt) by (by destruct p). rewrite Hp in G1, G2. cbn in G1, G2.
  injection G1 as <- <-. injection D as <-. injection G2 as <- <-. cbn.
  split; [done|]. rewrite !bool_decide_eq_true_2 by done. intros [= Heq].
  apply derive_material_inj in Heq as [_ Heq]; [|done| |done].
  - pose proof (He p). destruct (decide (im_epochs k p + 1 = 2 ^ 32)) as [E|E].
    + rewrite E, Z_mod_same_full in Heq. lia.
    + rewrite Z.mod_small in Heq; lia.
  - apply Z.mod_pos_bound. lia.
Qed.

(** A capability is read back from its literal, and only a literal is read. *)
Lemma capability_try_from_spec s c : capability_try_from s = Ok c ↔ s = capability_as_str c.
Proof.
  split; [|intros ->; by destruct c].
  unfold capability_try_from, same_text. repeat (case_bool_decide; [by intros [= <-]|]). done.
Qed.

(** The capabilities of a writer are what it may claim. *)
Lemma validate_capabilities_Ok claimed cs :
  validate_capabilities claimed = Ok cs ↔ claimed = capability_as_str <$> cs ∧ Forall (λ c, c ∈ WRITER_CAPABILITIES) cs.
Proof.
  revert cs. induction claimed as [|s claimed IH]; intros cs; cbn.
  - split; [by intros [= <-]|]. by intros [[=<-%symmetry%fmap_nil_inv] _].
  - destruct (capability_try_from s) as [c|e] eqn:E.
    + apply capability_try_from_spec in E as ->. case_bool_decide as Hc.
      * rewrite bind_Ok. setoid_rewrite IH. split.
        -- intros (cs' & [-> HF] & [= <-]). by split; [|constructor].
        -- intros [Heq HF]. destruct cs as [|c' cs]; [done|]. cbn in Heq. injection Heq as Hcc ->.
           apply (f_equal capability_try_from) in Hcc.
           rewrite !(proj2 (capability_try_from_spec _ _) eq_refl) in Hcc. injection Hcc as <-.
           inversion HF; subst. eauto.
      * split; [done|]. intros [Heq HF]. destruct cs as [|c' cs]; [done|]. cbn in Heq. injection Heq as Hcc _.
        apply (f_equal capability_try_from) in Hcc.
        rewrite !(proj2 (capability_try_from_spec _ _) eq_refl) in Hcc. injection Hcc as <-. by inversion HF.
    + split; [done|]. intros [Heq _]. destruct cs as [|c cs]; [done|]. cbn in Heq. injection Heq as -> _.
      by rewrite (proj2 (capability_try_from_spec _ c) eq_refl) in E.
Qed.

(** ** A cipher for examples: the message with a tag of sixteen zeros. *)
Module ExampleCipher.
#[export] Instance cipher : AeadCipher := {
  cipher_encrypt := λ _ _ m _, Some (m ++ repeat x00 16);
  cipher_decrypt := λ _ _ c _, Some (take (length c - 16) c);
}.

#[export] Instance cipher_laws : AeadLaws.
Proof.
  split; cbn; intros k n m a c [= <-]; rewrite length_app; [|unfold AEAD_OVERHEAD; cbn; lia].
  cbn. replace (length m + 16 - 16)%nat with (length m) by lia. by rewrite take_app_length.
Qed.
End ExampleCipher.
