(* ===== verification/Draft.v ===== *)
(** * Draft: the one draft of the writer ([ea-draft])

    The encrypted draft row with its compare-and-swap save ([autosave.rs]),
    the transition slot that holds a discard intent or a prepared
    finalization, and the binding of a draft to destruction evidence
    ([evidence.rs]). The service that discards a draft is in [Discard].

    The database is a record of the tables these functions use, with the
    constraints of its migrations; [w_faults] says of each further statement
    whether it fails. The key store is outside the transactions, so that what
    it did stays done when one rolls back. The random generator and the object
    hash are parameters, like the cipher. *)

From S2P Require Import Prelude Types Utf8 Str CsvImport KeyStore.

(** ** Errors ([model.rs]) *)

Module DraftErr.
Inductive DraftError :=
| RevisionConflict | EvidenceReserved | EvidenceBinding | EvidenceOccupied | IncidentNumberTaken
| NoDraft | LockHeld | TransitionUnavailable | Payload | LocalRng | ReauthRequired
| ReauthPurposeMismatch | ReauthBindingMismatch | PreparedFinalizationPresent | NoPendingDiscard
| KeyDeletionNotConfirmed | FromCrypto (e : Crypto.CryptoError) | FromKey (e : Key.KeyError)
| FromStore (e : Store.StoreError).

Definition draft_error_code (e : DraftError) : string :=
  match e with
  | RevisionConflict => "EA-DRAFT-REVISION-CONFLICT"
  | EvidenceReserved => "EA-DRAFT-EVIDENCE-RESERVED"
  | EvidenceBinding => "EA-DRAFT-EVIDENCE-BINDING"
  | EvidenceOccupied => "EA-DRAFT-EVIDENCE-OCCUPIED"
  | IncidentNumberTaken => "EA-DRAFT-INCIDENT-NUMBER-TAKEN"
  | NoDraft => "EA-DRAFT-NOT-FOUND"
  | LockHeld => "EA-DRAFT-LOCK-HELD"
  | TransitionUnavailable => "EA-DRAFT-TRANSITION-UNAVAILABLE"
  | Payload => "EA-DRAFT-PAYLOAD"
  | LocalRng => "EA-DRAFT-LOCAL-RNG"
  | ReauthRequired => "EA-DRAFT-REAUTH-REQUIRED"
  | ReauthPurposeMismatch => "EA-DRAFT-REAUTH-PURPOSE-MISMATCH"
  | ReauthBindingMismatch => "EA-DRAFT-REAUTH-BINDING-MISMATCH"
  | PreparedFinalizationPresent => "EA-DRAFT-PREPARED-FINALIZATION-PRESENT"
  | NoPendingDiscard => "EA-DRAFT-NO-PENDING-DISCARD"
  | KeyDeletionNotConfirmed => "EA-DRAFT-KEY-DELETION-NOT-CONFIRMED"
  | FromCrypto e => Crypto.crypto_error_code e
  | FromKey e => Key.key_error_code e
  | FromStore e => Store.store_error_code e
  end.
End DraftErr.
Import DraftErr(DraftError).

(** ** Values ([model.rs]) *)

Record DraftV := { d_draft_id : Id16; d_revision : Z; d_notes : str }.

Definition with_notes (notes : str) (d : DraftV) : DraftV :=
  {| d_draft_id := d_draft_id d; d_revision := d_revision d; d_notes := notes |}.

Record SavedDraft := { sd_draft_id : Id16; sd_revision : Z }.
Record DiscardIntent := { di_draft_id : Id16; di_revision : Z }.
Record DiscardOutcome := { do_discarded : Id16; do_blank : SavedDraft }.

(** ** Tables *)

(** The row of [draft]; its keys are a singleton. *)
Record DraftRow := {
  dr_draft_id : list byte;
  dr_ciphertext : list byte;
  dr_nonce : list byte;
  dr_keystore_provider : Z;
  dr_account_instance : list byte;
  dr_save_revision : Z;
}.

(** The row of [draft_transition]: kind 0 is a discard intent, kind 1 a
    prepared finalization with its marker. *)
Inductive TransitionRow :=
| DiscardRow (draft_id : list byte) (save_revision : Z)
| FinalizationRow (draft_id : list byte) (save_revision : Z) (marker : list byte).

Record EvidenceDraftSource := {
  es_organization_id : OrganizationId;
  es_destruction_id : DestructionId;
  es_authorization_hash : ObjectHash;
  es_preflight_hash : ObjectHash;
}.

Record EvidenceDraftBinding := { eb_draft_id : Id16; eb_source : EvidenceDraftSource }.

#[export] Instance EvidenceDraftSource_eq_dec : EqDecision EvidenceDraftSource.
Proof. solve_decision. Defined.
#[export] Instance EvidenceDraftBinding_eq_dec : EqDecision EvidenceDraftBinding.
Proof. solve_decision. Defined.

Record DraftTables := {
  t_draft : option DraftRow;
  t_transition : option TransitionRow;
  t_discard_migration : bool;
  t_evidence_table : bool;
  t_evidence_migration : bool;
  t_evidence : option EvidenceDraftBinding;
  t_jobs_table : bool;
  t_jobs : OrganizationId → DestructionId → option (Hash32 * list byte);
}.

Definition set_draft (d : option DraftRow) (e : option EvidenceDraftBinding) (t : DraftTables) : DraftTables :=
  {| t_draft := d; t_transition := t_transition t; t_discard_migration := t_discard_migration t;
     t_evidence_table := t_evidence_table t; t_evidence_migration := t_evidence_migration t;
     t_evidence := e; t_jobs_table := t_jobs_table t; t_jobs := t_jobs t |}.

Definition set_transition (x : option TransitionRow) (t : DraftTables) : DraftTables :=
  {| t_draft := t_draft t; t_transition := x; t_discard_migration := t_discard_migration t;
     t_evidence_table := t_evidence_table t; t_evidence_migration := t_evidence_migration t;
     t_evidence := t_evidence t; t_jobs_table := t_jobs_table t; t_jobs := t_jobs t |}.

(** ** Statements, with the constraints of the tables *)

Definition draft_allowed (r : DraftRow) : bool :=
  bool_decide (length (dr_draft_id r) = 16%nat) && bool_decide (length (dr_nonce r) = AEAD_NONCE_SIZE)
  && bool_decide (length (dr_account_instance r) = 32%nat) && (0 <=? dr_save_revision r).

Definition insert_draft (r : DraftRow) (t : DraftTables) : result Store.StoreError (DraftTables * unit) :=
  match t_draft t with
  | Some _ => Err Store.Constraint
  | None => if draft_allowed r then Ok (set_draft (Some r) (t_evidence t) t, tt) else Err Store.Constraint
  end.

(** The binding to evidence goes with the draft ([ON DELETE CASCADE]). *)
Definition delete_draft (t : DraftTables) : result Store.StoreError (DraftTables * unit) :=
  Ok (match t_draft t with Some _ => set_draft None None t | None => t end, tt).

Definition saved_row (ciphertext nonce : list byte) (target : Z) (r : DraftRow) : DraftRow :=
  {| dr_draft_id := dr_draft_id r; dr_ciphertext := ciphertext; dr_nonce := nonce;
     dr_keystore_provider := dr_keystore_provider r; dr_account_instance := dr_account_instance r;
     dr_save_revision := target |}.

(** The result is the number of rows changed. *)
Definition update_draft (ciphertext nonce : list byte) (target old : Z) (t : DraftTables)
    : result Store.StoreError (DraftTables * nat) :=
  match t_draft t with
  | Some r =>
      if bool_decide (dr_save_revision r = old) then
        let r := saved_row ciphertext nonce target r in
        if draft_allowed r then Ok (set_draft (Some r) (t_evidence t) t, 1%nat) else Err Store.Constraint
      else Ok (t, 0%nat)
  | None => Ok (t, 0%nat)
  end.

Definition transition_key (x : TransitionRow) : list byte * Z :=
  match x with DiscardRow i r => (i, r) | FinalizationRow i r _ => (i, r) end.

(** [UPSERT_TRANSITION]: the table has one row, and exists since its migration. *)
Definition upsert_transition (x : TransitionRow) (t : DraftTables) : result Store.StoreError (DraftTables * unit) :=
  if negb (t_discard_migration t) then Err Store.Database else
  let '(i, r) := transition_key x in
  if bool_decide (length i = 16%nat) && (0 <=? r) then Ok (set_transition (Some x) t, tt)
  else Err Store.Constraint.

Definition delete_transition (t : DraftTables) : result Store.StoreError (DraftTables * unit) :=
  if t_discard_migration t then Ok (set_transition None t, tt) else Err Store.Database.

Definition delete_finalization (t : DraftTables) : result Store.StoreError (DraftTables * unit) :=
  if negb (t_discard_migration t) then Err Store.Database else
  Ok (match t_transition t with Some (FinalizationRow _ _ _) => set_transition None t | _ => t end, tt).

Definition select_transition (t : DraftTables) : result Store.StoreError (option TransitionRow) :=
  if t_discard_migration t then Ok (t_transition t) else Err Store.Database.

Definition select_discard (t : DraftTables) : result Store.StoreError (option (list byte * Z)) :=
  x ← select_transition t;
  Ok match x with Some (DiscardRow i r) => Some (i, r) | _ => None end.

Definition select_marker (t : DraftTables) : result Store.StoreError (option (list byte)) :=
  x ← select_transition t;
  Ok match x with Some (FinalizationRow _ _ m) => Some m | _ => None end.

Definition evidence_allowed (b : EvidenceDraftBinding) : bool :=
  bool_decide (length (eb_draft_id b) = 16%nat)
  && bool_decide (length (es_organization_id (eb_source b)) = 16%nat)
  && bool_decide (length (es_destruction_id (eb_source b)) = 16%nat)
  && bool_decide (length (es_authorization_hash (eb_source b)) = 32%nat)
  && bool_decide (length (es_preflight_hash (eb_source b)) = 32%nat).

Definition insert_evidence (b : EvidenceDraftBinding) (t : DraftTables) : result Store.StoreError (DraftTables * unit) :=
  if negb (t_evidence_table t) then Err Store.Database else
  match t_evidence t, t_draft t, t_jobs t (es_organization_id (eb_source b)) (es_destruction_id (eb_source b)) with
  | None, Some d, Some _ =>
      if evidence_allowed b then Ok (set_draft (Some d) (Some b) t, tt) else Err Store.Constraint
  | _, _, _ => Err Store.Constraint
  end.

(** ** The world of a process *)

(** [w_created] is the cell of the call that is creating a blank draft,
    [w_locked] says that the draft lock cannot be taken. *)
Record World (K : Type) := {
  w_tables : DraftTables;
  w_faults : list bool;
  w_keys : K;
  w_draws : nat;
  w_created : option KeyHandle;
  w_locked : bool;
}.
Arguments w_tables {K}.
Arguments w_faults {K}.
Arguments w_keys {K}.
Arguments w_draws {K}.
Arguments w_created {K}.
Arguments w_locked {K}.

(** The object hash, and the result of the random generator for its [n]-th
    call and a number of bytes. *)
Class Primitives := {
  object_hash : list byte → ObjectHash;
  random : nat → nat → option (list byte);
}.

Definition dm (K A : Type) : Type := World K → World K * result DraftError A.

#[export] Instance dm_ret K : MRet (dm K) := λ A a w, (w, Ok a).
#[export] Instance dm_bind K : MBind (dm K) := λ A B k x w,
  match x w with (w, Ok a) => k a w | (w, Err e) => (w, Err e) end.

Definition dm_lift {K A} (r : result DraftError A) : dm K A := λ w, (w, r).
Definition fail {K A} (e : DraftError) : dm K A := dm_lift (Err e).

Section World.
Context {K : Type}.

Definition set_tables (w : World K) (t : DraftTables) (fs : list bool) : World K :=
  {| w_tables := t; w_faults := fs; w_keys := w_keys w; w_draws := w_draws w;
     w_created := w_created w; w_locked := w_locked w |}.
Definition set_keys (w : World K) (k : K) : World K :=
  {| w_tables := w_tables w; w_faults := w_faults w; w_keys := k; w_draws := w_draws w;
     w_created := w_created w; w_locked := w_locked w |}.
Definition set_locked (w : World K) (b : bool) : World K :=
  {| w_tables := w_tables w; w_faults := w_faults w; w_keys := w_keys w; w_draws := w_draws w;
     w_created := w_created w; w_locked := b |}.
Definition draw (w : World K) : World K :=
  {| w_tables := w_tables w; w_faults := w_faults w; w_keys := w_keys w; w_draws := S (w_draws w);
     w_created := w_created w; w_locked := w_locked w |}.
Definition set_created (w : World K) (h : option KeyHandle) : World K :=
  {| w_tables := w_tables w; w_faults := w_faults w; w_keys := w_keys w; w_draws := w_draws w;
     w_created := h; w_locked := w_locked w |}.

(** One statement. *)
Definition d_execute {A} (f : DraftTables → result Store.StoreError (DraftTables * A)) : dm K A := λ w,
  let rest := tail (w_faults w) in
  if default false (head (w_faults w))
  then (set_tables w (w_tables w) rest, Err (DraftErr.FromStore Store.Database))
  else match f (w_tables w) with
       | Ok (t, a) => (set_tables w t rest, Ok a)
       | Err e => (set_tables w (w_tables w) rest, Err (DraftErr.FromStore e))
       end.

Definition d_query {A} (f : DraftTables → result Store.StoreError A) : dm K A :=
  d_execute (λ t, a ← f t; Ok (t, a)).

Definition no_statement : dm K unit := d_query (λ _, Ok tt).

(** A transaction begins and commits with a statement each; an error rolls the
    tables back, and nothing else. *)
Definition d_transaction {A} (work : dm K A) : dm K A := λ w,
  match (_ ← no_statement; a ← work; _ ← no_statement; mret a) w with
  | (w', Ok a) => (w', Ok a)
  | (w', Err e) => (set_tables w' (w_tables w) (w_faults w'), Err e)
  end.

(** A call of the key store. *)
Definition on_keys {A} (f : K → K * result Key.KeyError A) : dm K A := λ w,
  let '(k, r) := f (w_keys w) in
  (set_keys w k, match r with Ok a => Ok a | Err e => Err (DraftErr.FromKey e) end).

Definition crypto {A} (r : result Crypto.CryptoError A) : dm K A :=
  dm_lift match r with Ok a => Ok a | Err e => Err (DraftErr.FromCrypto e) end.

Definition payload {A} (r : option A) : dm K A := dm_lift (ok_or DraftErr.Payload r).
End World.

Section Repository.
Context {K : Type} `{KeyProvider K} `{AeadCipher} `{Primitives}.

(** [fresh::<N>]. *)
Definition fresh_bytes (n : nat) : dm K (list byte) := λ w,
  (draw w, ok_or DraftErr.LocalRng (random (w_draws w) n)).

(** ** Evidence ([evidence.rs]) *)

Definition require_job (source : EvidenceDraftSource) : dm K unit :=
  found ← d_query (λ t, if t_jobs_table t then Ok (t_jobs t (es_organization_id source) (es_destruction_id source))
                        else Err Store.Database);
  '(authorization, core) ← dm_lift (ok_or DraftErr.EvidenceBinding found);
  if bool_decide (authorization ≠ es_authorization_hash source)
     || bool_decide (object_hash core ≠ es_preflight_hash source)
  then fail DraftErr.EvidenceBinding else mret tt.

(** The columns of the join: the binding and the draft's identifier. *)
Definition bound_row (t : DraftTables) : result Store.StoreError (option (EvidenceDraftBinding * option (list byte))) :=
  Ok ((λ b, (b, dr_draft_id <$> t_draft t)) <$> t_evidence t).

Definition read_binding : dm K (option EvidenceDraftBinding) :=
  present ← d_query (λ t, Ok (t_evidence_table t));
  if negb present then
    migrated ← d_query (λ t, Ok (t_evidence_migration t));
    if (migrated : bool) then fail DraftErr.EvidenceBinding else mret None
  else
    row ← d_query bound_row;
    match row with
    | None => mret None
    | Some (b, current) =>
        current ← dm_lift (ok_or (DraftErr.FromStore Store.Shape) current);
        if bool_decide (eb_draft_id b ≠ current) then fail DraftErr.EvidenceBinding else
        _ ← require_job (eb_source b);
        mret (Some b)
    end.

(** [require_evidence_access_in]. *)
Definition require_evidence_access (expected : option EvidenceDraftBinding) : dm K unit :=
  actual ← read_binding;
  match expected, actual with
  | None, None => mret tt
  | Some e, Some a => if bool_decide (e = a) then mret tt else fail DraftErr.EvidenceBinding
  | None, Some _ => fail DraftErr.EvidenceReserved
  | Some _, None => fail DraftErr.EvidenceBinding
  end.

Definition check_evidence_access (expected : option EvidenceDraftBinding) : dm K unit :=
  d_transaction (require_evidence_access expected).

(** ** The repository ([autosave.rs]) *)

Definition provider_code (p : KeystoreProvider) : Z := match p with OperatingSystem => 0 | InMemory => 1 end.

Definition provider_from_code (code : Z) : option KeystoreProvider :=
  if code =? 0 then Some OperatingSystem else if code =? 1 then Some InMemory else None.

Definition associated_data (draft_id : Id16) (revision : Z) : list byte :=
  draft_id ++ to_be_bytes 8 revision.

Record StoredDraftRow := {
  sr_draft_id : Id16;
  sr_ciphertext : list byte;
  sr_nonce : list byte;
  sr_handle : KeyHandle;
  sr_revision : Z;
}.

(** The conversions of [read_row]. *)
Definition stored_row (r : DraftRow) : option StoredDraftRow :=
  if negb (bool_decide (length (dr_draft_id r) = 16%nat)) then None else
  if negb (bool_decide (length (dr_nonce r) = AEAD_NONCE_SIZE)) then None else
  provider ← provider_from_code (dr_keystore_provider r);
  if negb (bool_decide (length (dr_account_instance r) = 32%nat)) then None else
  if dr_save_revision r <? 0 then None else
  Some {| sr_draft_id := dr_draft_id r; sr_ciphertext := dr_ciphertext r; sr_nonce := dr_nonce r;
          sr_handle := {| keystore_provider := provider; account_instance := dr_account_instance r;
                          handle_purpose := DraftDek |};
          sr_revision := dr_save_revision r |}.

Definition read_row : dm K (option StoredDraftRow) :=
  row ← d_query (λ t, Ok (t_draft t));
  match row with
  | None => mret None
  | Some r => r ← payload (stored_row r); mret (Some r)
  end.

(** [self.read_row(..)?.ok_or(NoDraft)?]. *)
Definition require_row : dm K StoredDraftRow :=
  row ← read_row;
  dm_lift (ok_or DraftErr.NoDraft row).

Definition remember_created (h : KeyHandle) : dm K unit := λ w, (set_created w (Some h), Ok tt).

Definition create_blank : dm K SavedDraft :=
  draft_id ← fresh_bytes 16;
  draft_id ← payload (if bool_decide (length draft_id = 16%nat) then Some draft_id else None);
  dek ← fresh_bytes 32;
  handle ← on_keys (wrap_secret DraftDek dek);
  _ ← remember_created handle;
  dek ← on_keys (unwrap_secret handle);
  nonce ← fresh_bytes AEAD_NONCE_SIZE;
  ciphertext ← crypto (aead_seal dek nonce [] (associated_data draft_id 0));
  _ ← d_execute (insert_draft
        {| dr_draft_id := draft_id; dr_ciphertext := ciphertext; dr_nonce := nonce;
           dr_keystore_provider := provider_code (keystore_provider handle);
           dr_account_instance := account_instance handle; dr_save_revision := 0 |});
  mret {| sd_draft_id := draft_id; sd_revision := 0 |}.

Definition transition_table_exists : dm K bool := d_query (λ t, Ok (t_discard_migration t)).

Section Autosave.
(** The binding the repository was opened for. *)
Context (evidence : option EvidenceDraftBinding).

(** The fresh key of a transaction that did not commit is deleted; what the
    deletion says is ignored. *)
Definition transaction_creating_blank {A} (work : dm K A) : dm K A := λ w,
  match d_transaction (_ ← require_evidence_access evidence; work) (set_created w None) with
  | (w', Ok a) => (set_created w' None, Ok a)
  | (w', Err e) =>
      match w_created w' with
      | Some h => (set_created (set_keys w' (delete_key h (w_keys w')).1) None, Err e)
      | None => (w', Err e)
      end
  end.

Definition load_row (row : StoredDraftRow) : dm K DraftV :=
  dek ← on_keys (unwrap_secret (sr_handle row));
  plaintext ← crypto (aead_open dek (sr_nonce row) (sr_ciphertext row)
                        (associated_data (sr_draft_id row) (sr_revision row)));
  notes ← payload (_ ← from_utf8 plaintext; Some plaintext);
  mret {| d_draft_id := sr_draft_id row; d_revision := sr_revision row; d_notes := notes |}.

Definition load_or_create : dm K DraftV :=
  transaction_creating_blank (
    row ← read_row;
    match row with
    | Some row => load_row row
    | None =>
        blank ← create_blank;
        mret {| d_draft_id := sd_draft_id blank; d_revision := sd_revision blank; d_notes := [] |}
    end).

Definition save (draft : DraftV) : dm K SavedDraft :=
  if bool_decide (is_Some evidence) && negb (bool_decide (d_notes draft = [])) then fail DraftErr.EvidenceBinding else
  d_transaction (
    _ ← require_evidence_access evidence;
    row ← require_row;
    if bool_decide (sr_draft_id row ≠ d_draft_id draft) || bool_decide (sr_revision row ≠ d_revision draft)
    then fail DraftErr.RevisionConflict else
    target ← dm_lift (ok_or DraftErr.RevisionConflict (checked_add u64_max (sr_revision row) 1));
    dek ← on_keys (unwrap_secret (sr_handle row));
    nonce ← fresh_bytes AEAD_NONCE_SIZE;
    ciphertext ← crypto (aead_seal dek nonce (d_notes draft) (associated_data (sr_draft_id row) target));
    new ← payload (if target <=? i64_max then Some target else None);
    old ← payload (if sr_revision row <=? i64_max then Some (sr_revision row) else None);
    changed ← d_execute (update_draft ciphertext nonce new old);
    if bool_decide (changed ≠ 1%nat) then fail DraftErr.RevisionConflict
    else mret {| sd_draft_id := sr_draft_id row; sd_revision := target |}).

Definition draft_dek_handle (draft : SavedDraft) : dm K KeyHandle :=
  d_transaction (
    _ ← require_evidence_access evidence;
    row ← require_row;
    if bool_decide (sr_draft_id row ≠ sd_draft_id draft) then fail DraftErr.NoDraft
    else mret (sr_handle row)).

Definition commit_discard_intent (draft : SavedDraft) : dm K DiscardIntent :=
  exists_ ← transition_table_exists;
  if negb exists_ then fail DraftErr.TransitionUnavailable else
  d_transaction (
    _ ← require_evidence_access evidence;
    row ← require_row;
    if bool_decide (sr_draft_id row ≠ sd_draft_id draft) || bool_decide (sr_revision row ≠ sd_revision draft)
    then fail DraftErr.RevisionConflict else
    marker ← d_query select_marker;
    if bool_decide (is_Some marker) then fail DraftErr.PreparedFinalizationPresent else
    revision ← payload (if sr_revision row <=? i64_max then Some (sr_revision row) else None);
    _ ← d_execute (upsert_transition (DiscardRow (sr_draft_id row) revision));
    mret {| di_draft_id := sr_draft_id row; di_revision := sr_revision row |}).

Definition pending_discard : dm K (option DiscardIntent) :=
  _ ← check_evidence_access evidence;
  exists_ ← transition_table_exists;
  if negb exists_ then mret None else
  row ← d_query select_discard;
  match row with
  | None => mret None
  | Some (i, r) =>
      i ← payload (if bool_decide (length i = 16%nat) then Some i else None);
      r ← payload (if 0 <=? r then Some r else None);
      mret (Some {| di_draft_id := i; di_revision := r |})
  end.

Definition replace_with_blank : dm K SavedDraft :=
  clear_transition ← transition_table_exists;
  transaction_creating_blank (
    _ ← (if bool_decide (is_Some evidence) then
           marker ← d_query select_marker;
           if bool_decide (marker = None) then fail DraftErr.EvidenceBinding else mret tt
         else mret tt);
    _ ← (if (clear_transition : bool) then d_execute delete_transition else mret tt);
    _ ← d_execute delete_draft;
    create_blank).

(** The check of a bound repository that the intent is the saved one. *)
Definition require_saved_intent (intent : DiscardIntent) : dm K unit :=
  if bool_decide (is_Some evidence) then
    saved ← d_query select_discard;
    '(i, r) ← dm_lift (ok_or DraftErr.EvidenceBinding saved);
    if bool_decide (i ≠ di_draft_id intent) then fail DraftErr.EvidenceBinding else
    revision ← dm_lift (if di_revision intent <=? i64_max then Ok (di_revision intent) else Err DraftErr.EvidenceBinding);
    if bool_decide (r ≠ revision) then fail DraftErr.EvidenceBinding else mret tt
  else mret tt.

Definition remove_ciphertext_and_intent_create_blank (intent : DiscardIntent) : dm K DiscardOutcome :=
  exists_ ← transition_table_exists;
  if negb exists_ then fail DraftErr.TransitionUnavailable else
  transaction_creating_blank (
    _ ← require_saved_intent intent;
    row ← require_row;
    if bool_decide (sr_draft_id row ≠ di_draft_id intent) then fail DraftErr.NoDraft else
    _ ← d_execute delete_transition;
    _ ← d_execute delete_draft;
    blank ← create_blank;
    mret {| do_discarded := sr_draft_id row; do_blank := blank |}).

(** [read_prepared_marker_in]. *)
Definition prepared_finalization_marker : dm K (option (list byte)) :=
  d_transaction (
    _ ← require_evidence_access evidence;
    migrated ← d_query (λ t, Ok (t_discard_migration t));
    if negb migrated then mret None else d_query select_marker).

Definition ID16_ZERO : Id16 := repeat x00 16.

Definition replace_prepared_finalization_marker (marker : option (list byte)) : dm K unit :=
  exists_ ← transition_table_exists;
  if negb exists_ then fail DraftErr.TransitionUnavailable else
  d_transaction (
    _ ← require_evidence_access evidence;
    match marker with
    | Some m => d_execute (upsert_transition (FinalizationRow ID16_ZERO 0 m))
    | None => d_execute delete_finalization
    end).

(** [acquire_draft_lock] with the guard that releases the lock. *)
Definition with_draft_lock {A} (body : dm K A) : dm K A := λ w,
  if w_locked w then (w, Err DraftErr.LockHeld)
  else let '(w', r) := body (set_locked w true) in (set_locked w' false, r).

Definition evidence_draft_source : dm K (option EvidenceDraftSource) :=
  _ ← check_evidence_access evidence;
  mret (eb_source <$> evidence).

(** ** Reserving the draft for evidence ([evidence.rs]) *)

Definition evidence_binding : dm K (option EvidenceDraftBinding) := d_transaction read_binding.

Definition select_draft_key (t : DraftTables) : result Store.StoreError (option (list byte * Z)) :=
  Ok ((λ r, (dr_draft_id r, dr_save_revision r)) <$> t_draft t).

(** The writing transaction of [reserve_evidence_draft]. *)
Definition bind_draft (draft : DraftV) (source : EvidenceDraftSource) : dm K EvidenceDraftBinding :=
  d_transaction (
    _ ← require_evidence_access evidence;
    _ ← require_job source;
    row ← d_query select_draft_key;
    '(i, r) ← dm_lift (ok_or DraftErr.NoDraft row);
    if bool_decide (i ≠ d_draft_id draft) then fail DraftErr.RevisionConflict else
    revision ← dm_lift (if d_revision draft <=? i64_max then Ok (d_revision draft) else Err DraftErr.RevisionConflict);
    if bool_decide (r ≠ revision) then fail DraftErr.RevisionConflict else
    occupied ← d_query select_transition;
    if bool_decide (is_Some occupied) then fail DraftErr.EvidenceOccupied else
    _ ← d_execute (insert_evidence {| eb_draft_id := d_draft_id draft; eb_source := source |});
    bound ← read_binding;
    dm_lift (ok_or DraftErr.EvidenceBinding bound)).

Definition reserve_evidence_draft (source : EvidenceDraftSource) : dm K EvidenceDraftBinding :=
  with_draft_lock (
    existing ← evidence_binding;
    match existing with
    | Some b => if bool_decide (eb_source b = source) then mret b else fail DraftErr.EvidenceBinding
    | None =>
        intent ← pending_discard;
        if bool_decide (is_Some (intent : option DiscardIntent)) then fail DraftErr.EvidenceOccupied else
        marker ← prepared_finalization_marker;
        if bool_decide (is_Some (marker : option (list byte))) then fail DraftErr.EvidenceOccupied else
        draft ← load_or_create;
        if negb (bool_decide (d_notes draft = [])) then fail DraftErr.EvidenceOccupied else
        bind_draft draft source
    end).

(** The repository for a binding is this one opened for it. *)
Definition for_evidence_draft (b : EvidenceDraftBinding) : dm K (option EvidenceDraftBinding) :=
  bound ← evidence_binding;
  if bool_decide (bound ≠ Some b) then fail DraftErr.EvidenceBinding else mret (Some b).
End Autosave.
End Repository.

(** ** Weakest preconditions

    [wp m Q w]: the run of [m] from [w] ends in a world and a result for which
    [Q] holds. The rules quantify over what is left of the fault list, so that
    a proof covers every pattern of failing statements. *)

Section Wp.
Context {K : Type}.
Implicit Types w : World K.

Definition wp {A} (m : dm K A) (Q : World K → result DraftError A → Prop) w : Prop := Q (m w).1 (m w).2.

Lemma wp_run {A} (m : dm K A) Q w : wp m Q w ↔ ∀ w' r, m w = (w', r) → Q w' r.
Proof. unfold wp. destruct (m w) as [w' r]. cbn. split; [by intros ? ?? [= <- <-]|eauto]. Qed.

Lemma wp_mono {A} (m : dm K A) (Q R : World K → result DraftError A → Prop) w :
  wp m Q w → (∀ w' r, Q w' r → R w' r) → wp m R w.
Proof. unfold wp. eauto. Qed.

Lemma wp_and {A} (m : dm K A) (Q R : World K → result DraftError A → Prop) w :
  wp m Q w → wp m R w → wp m (λ w' r, Q w' r ∧ R w' r) w.
Proof. unfold wp. eauto. Qed.

Lemma wp_bind {A B} (x : dm K A) (k : A → dm K B) Q w :
  wp x (λ w' r, match r with Ok a => wp (k a) Q w' | Err e => Q w' (Err e) end) w → wp (x ≫= k) Q w.
Proof. unfold wp, mbind, dm_bind. by destruct (x w) as [w' [a|e]]. Qed.

Lemma wp_ret {A} (a : A) (Q : World K → result DraftError A → Prop) w : Q w (Ok a) → wp (mret a) Q w.
Proof. done. Qed.
Lemma wp_fail {A} e (Q : World K → result DraftError A → Prop) w : Q w (Err e) → wp (fail e) Q w.
Proof. done. Qed.
Lemma wp_lift {A} (r : result DraftError A) Q w : Q w r → wp (dm_lift r) Q w.
Proof. done. Qed.

(** The world after reads: only the fault list moved on. *)
Definition read_world w (fs : list bool) : World K := set_tables w (w_tables w) fs.

Lemma wp_execute {A} (f : DraftTables → result Store.StoreError (DraftTables * A)) Q w :
  (∀ fs e, Q (read_world w fs) (Err (DraftErr.FromStore e))) →
  (∀ fs t a, f (w_tables w) = Ok (t, a) → Q (set_tables w t fs) (Ok a)) →
  wp (d_execute f) Q w.
Proof.
  unfold wp, d_execute. intros HE HQ. destruct (default false (head (w_faults w))); [apply HE|].
  destruct (f (w_tables w)) as [[t a]|e] eqn:E; cbn; [by apply HQ|apply HE].
Qed.

Lemma wp_query {A} (f : DraftTables → result Store.StoreError A) Q w :
  (∀ fs e, Q (read_world w fs) (Err (DraftErr.FromStore e))) →
  (∀ fs a, f (w_tables w) = Ok a → Q (read_world w fs) (Ok a)) →
  wp (d_query f) Q w.
Proof.
  intros HE HQ. apply wp_execute; [done|]. intros fs t a Hf. apply bind_Ok in Hf as (a' & Hf & [= <- <-]).
  by apply HQ.
Qed.

Lemma wp_transaction {A} (work : dm K A) Q w :
  (∀ fs e, Q (read_world w fs) (Err (DraftErr.FromStore e))) →
  (∀ fs, wp work (λ w' r, match r with
                          | Ok a => (∀ fs, Q (set_tables w' (w_tables w') fs) (Ok a))
                                    ∧ ∀ fs e, Q (set_tables w' (w_tables w) fs) (Err (DraftErr.FromStore e))
                          | Err e => ∀ fs, Q (set_tables w' (w_tables w) fs) (Err e)
                          end) (read_world w fs)) →
  wp (d_transaction work) Q w.
Proof.
  intros HE HW. unfold wp at 1, d_transaction.
  set (body := _ ← no_statement; _).
  assert (Hb : wp body (λ w' r, match r with
      | Ok a => Q w' (Ok a) | Err e => Q (set_tables w' (w_tables w) (w_faults w')) (Err e) end) w).
  { apply wp_bind, wp_query; [intros; apply HE|]. intros fs _ _. apply wp_bind.
    eapply wp_mono; [apply HW|]. intros w' [a|e] Hr; [|apply Hr].
    destruct Hr as [HO HR]. apply wp_bind, wp_query; [intros; apply HR|]. intros; apply HO. }
  unfold wp in Hb. destruct (body w) as [w' [a|e]]; exact Hb.
Qed.

Lemma wp_on_keys {A} (f : K → K * result Key.KeyError A) Q w :
  (∀ k e, f (w_keys w) = (k, Err e) → Q (set_keys w k) (Err (DraftErr.FromKey e))) →
  (∀ k a, f (w_keys w) = (k, Ok a) → Q (set_keys w k) (Ok a)) →
  wp (on_keys f) Q w.
Proof. unfold wp, on_keys. intros HE HQ. destruct (f (w_keys w)) as [k [a|e]]; cbn; eauto. Qed.

Lemma wp_crypto {A} (r : result Crypto.CryptoError A) Q w :
  (∀ e, r = Err e → Q w (Err (DraftErr.FromCrypto e))) → (∀ a, r = Ok a → Q w (Ok a)) → wp (crypto r) Q w.
Proof. intros HE HQ. apply wp_lift. destruct r; eauto. Qed.

Lemma wp_payload {A} (r : option A) Q w :
  Q w (Err DraftErr.Payload) → (∀ a, r = Some a → Q w (Ok a)) → wp (payload r) Q w.
Proof. intros HE HQ. apply wp_lift. destruct r; cbn; eauto. Qed.

Lemma wp_ok_or {A} e (r : option A) Q w :
  Q w (Err e) → (∀ a, r = Some a → Q w (Ok a)) → wp (dm_lift (ok_or e r)) Q w.
Proof. intros HE HQ. apply wp_lift. destruct r; cbn; eauto. Qed.

(** ** Computations that only read *)

(** Such a computation ends in no error of the key store or the cipher. *)
Definition local_error (e : DraftError) : Prop :=
  match e with DraftErr.FromKey _ | DraftErr.FromCrypto _ => False | _ => True end.

(** [m] changes nothing but the fault list, and what it yields satisfies [P]. *)
Definition reads {A} (m : dm K A) (P : DraftTables → A → Prop) : Prop :=
  ∀ w, wp m (λ w' r, (∃ fs, w' = read_world w fs) ∧
    match r with Ok a => P (w_tables w) a | Err e => local_error e end) w.

Lemma reads_ret {A} (a : A) (P : DraftTables → A → Prop) : (∀ t, P t a) → reads (mret a) P.
Proof. intros HP w. apply wp_ret. split; [by exists (w_faults w); destruct w|]. apply HP. Qed.

Lemma reads_lift {A} (r : result DraftError A) (P : DraftTables → A → Prop) :
  (∀ t, match r with Ok a => P t a | Err e => local_error e end) → reads (dm_lift r) P.
Proof. intros HP w. apply wp_lift. split; [by exists (w_faults w); destruct w|]. apply HP. Qed.

Lemma reads_ok_or {A} e (o : option A) (P : DraftTables → A → Prop) :
  local_error e → (∀ t a, o = Some a → P t a) → reads (dm_lift (ok_or e o)) P.
Proof. intros He HP. apply reads_lift. intros t. destruct o; cbn; auto. Qed.

Lemma reads_fail {A} e (P : DraftTables → A → Prop) : local_error e → reads (fail e) P.
Proof. intros He. by apply reads_lift. Qed.

Lemma reads_query {A} (f : DraftTables → result Store.StoreError A) : reads (d_query f) (λ t a, f t = Ok a).
Proof. intros w. apply wp_query; intros; (split; [eauto|done]). Qed.

Lemma reads_bind {A B} (x : dm K A) (k : A → dm K B) (P : DraftTables → A → Prop) (R : A → DraftTables → B → Prop)
    (Q : DraftTables → B → Prop) :
  reads x P → (∀ a, reads (k a) (R a)) → (∀ t a b, P t a → R a t b → Q t b) → reads (x ≫= k) Q.
Proof.
  intros Hx Hk HQ w. apply wp_bind. eapply wp_mono; [apply Hx|].
  intros w' [a|e] [[fs ->] HP]; [|by split; [eauto|]].
  eapply wp_mono; [apply Hk|]. intros w' [b|e] [[fs' ->] HR]; (split; [by exists fs'|]); eauto.
Qed.

Lemma reads_transaction {A} (m : dm K A) P : reads m P → reads (d_transaction m) P.
Proof.
  intros Hm w. apply wp_transaction; [intros; split; [eauto|done]|]. intros fs.
  eapply wp_mono; [apply Hm|]. intros w' [a|e] [[fs' ->] HP]; [|intros; split; [by eexists|done]].
  split; intros; (split; [by eexists|done]).
Qed.

Lemma reads_mono {A} (m : dm K A) (P Q : DraftTables → A → Prop) :
  reads m P → (∀ t a, P t a → Q t a) → reads m Q.
Proof. intros Hm HPQ w. eapply wp_mono; [apply Hm|]. intros w' [a|e] [? HP]; eauto. Qed.

(** The rule that clients use. *)
Lemma wp_reads {A} (m : dm K A) P Q w :
  reads m P → (∀ fs e, local_error e → Q (read_world w fs) (Err e)) →
  (∀ fs a, P (w_tables w) a → Q (read_world w fs) (Ok a)) → wp m Q w.
Proof. intros Hm HE HQ. eapply wp_mono; [apply Hm|]. intros w' [a|e] [[fs ->] HP]; eauto. Qed.
End Wp.

Section Reads.
Context {K : Type} `{KeyProvider K} `{AeadCipher} `{Primitives}.

(** What the routing of a draft to evidence needs of the tables. *)
Definition bound_ok (b : EvidenceDraftBinding) (t : DraftTables) : Prop :=
  t_evidence_table t = true ∧ t_evidence t = Some b ∧ dr_draft_id <$> t_draft t = Some (eb_draft_id b) ∧
  t_jobs_table t = true ∧
  ∃ core, t_jobs t (es_organization_id (eb_source b)) (es_destruction_id (eb_source b))
          = Some (es_authorization_hash (eb_source b), core) ∧
          object_hash core = es_preflight_hash (eb_source b).

Definition unbound_ok (t : DraftTables) : Prop :=
  if t_evidence_table t then t_evidence t = None else t_evidence_migration t = false.

Definition binding_ok (b : option EvidenceDraftBinding) (t : DraftTables) : Prop :=
  match b with Some b => bound_ok b t | None => unbound_ok t end.

Lemma reads_job source :
  reads (K:=K) (require_job source) (λ t _, t_jobs_table t = true ∧
    ∃ core, t_jobs t (es_organization_id source) (es_destruction_id source)
            = Some (es_authorization_hash source, core) ∧ object_hash core = es_preflight_hash source).
Proof.
  unfold require_job. eapply reads_bind; [apply reads_query| |].
  - intros found. eapply (reads_bind _ _ (λ _ x, found = Some x) (λ x _ _, x.1 = es_authorization_hash source ∧
      object_hash x.2 = es_preflight_hash source) (λ t _, ∃ x, found = Some x ∧ x.1 = es_authorization_hash source ∧
      object_hash x.2 = es_preflight_hash source)); [|intros [au core]|naive_solver].
    + by apply reads_ok_or.
    + cbn. case_bool_decide as Hau; cbn; [by apply reads_fail|]. case_bool_decide as Hc; [by apply reads_fail|].
      by apply reads_ret.
  - cbn. intros t found _ Hf ([au core] & -> & Hau & Hc). destruct (t_jobs_table t); [|done].
    injection Hf as Hf. split; [done|]. cbn in *. subst au. eauto.
Qed.

Lemma reads_binding : reads (K:=K) read_binding (λ t b, binding_ok b t).
Proof.
  unfold read_binding. eapply reads_bind; [apply reads_query|..].
  - intros present. instantiate (1 := λ present t b, t_evidence_table t = present → binding_ok b t).
    destruct present; cbn.
    + eapply reads_bind; [apply reads_query|..].
      * intros [[b current]|].
        -- instantiate (1 := λ row t b, Ok (E:=Store.StoreError) row = bound_row t → t_evidence_table t = true → binding_ok b t).
           eapply (reads_bind _ _ (λ t d, current = Some d)).
           ++ by apply reads_ok_or.
           ++ intros d. instantiate (1 := λ d t o, o = Some b ∧ eb_draft_id b = d ∧ t_jobs_table t = true ∧
                ∃ core, t_jobs t (es_organization_id (eb_source b)) (es_destruction_id (eb_source b))
                = Some (es_authorization_hash (eb_source b), core) ∧ object_hash core = es_preflight_hash (eb_source b)).
              case_bool_decide as Hd; [by apply reads_fail|].
              eapply reads_bind; [apply reads_job|intros u; by apply (reads_ret _ (λ _ o, o = Some b))|].
              intros t u o [? ?] ->. eauto.
           ++ cbn. intros t d o -> (-> & Hd & Hj) Hrow Ht. injection Hrow as Hrow.
              destruct (t_evidence t) as [b'|] eqn:Eb; [|done]. injection Hrow as <- Hrow.
              unfold binding_ok, bound_ok. repeat split; [done|by rewrite Eb| |apply Hj|apply Hj].
              by rewrite <- Hrow, Hd.
        -- apply reads_ret. intros t Hrow Ht. injection Hrow as Hrow. cbn. unfold unbound_ok. rewrite Ht.
           by destruct (t_evidence t).
      * cbn. intros t row b Hrow Hb Ht. apply Hb; [by symmetry|done].
    + eapply reads_bind; [apply reads_query|..].
      * intros migrated. instantiate (1 := λ migrated t b, t_evidence_migration t = migrated → t_evidence_table t = false → binding_ok b t).
        destruct migrated; [by apply reads_fail|]. apply reads_ret. intros t Hm Ht. cbn. unfold unbound_ok. by rewrite Ht.
      * cbn. intros t m b [= Hm] Hb. by apply Hb.
  - cbn. intros t p b [= Hp] Hb. by apply Hb.
Qed.

Lemma reads_access ev : reads (K:=K) (require_evidence_access ev) (λ t _, binding_ok ev t).
Proof.
  unfold require_evidence_access. eapply reads_bind; [apply reads_binding| |].
  - intros actual. instantiate (1 := λ actual _ _, actual = ev).
    destruct ev, actual; try (by apply reads_fail); [|by apply reads_ret].
    case_bool_decide; [|by apply reads_fail]. apply reads_ret. by subst.
  - by cbn; intros t a _ Hb ->.
Qed.

Lemma reads_row : reads (K:=K) read_row (λ t o, match o with
  | None => t_draft t = None | Some row => ∃ d, t_draft t = Some d ∧ stored_row d = Some row end).
Proof.
  unfold read_row. eapply reads_bind; [apply reads_query| |].
  - intros row. instantiate (1 := λ row _ o, match o with
      | None => row = None | Some r => ∃ d, row = Some d ∧ stored_row d = Some r end).
    destruct row as [d|]; [|by apply reads_ret].
    eapply (reads_bind _ _ (λ _ r, stored_row d = Some r) (λ r _ o, o = Some r)); [|by intros; apply reads_ret|].
    + by apply reads_ok_or.
    + intros _ r o Hr ->. eauto.
  - cbn. intros t row [r|] [= <-] Hr; exact Hr.
Qed.

Lemma reads_require_row : reads (K:=K) require_row (λ t row, ∃ d, t_draft t = Some d ∧ stored_row d = Some row).
Proof.
  unfold require_row. eapply reads_bind; [apply reads_row| |].
  - intros o. instantiate (1 := λ o _ r, o = Some r). by apply reads_ok_or.
  - by cbn; intros t o r Ho ->.
Qed.

Lemma reads_marker ev :
  reads (K:=K) (prepared_finalization_marker ev) (λ t m, binding_ok ev t ∧
    if t_discard_migration t then select_marker t = Ok m else m = None).
Proof.
  apply reads_transaction. eapply reads_bind; [apply reads_access| |].
  - intros u. instantiate (1 := λ _ t m, if t_discard_migration t then select_marker t = Ok m else m = None).
    eapply reads_bind; [apply reads_query| |].
    + intros migrated. instantiate (1 := λ migrated t m, if migrated then select_marker t = Ok m else m = None).
      destruct migrated; cbn; [apply reads_query|by apply reads_ret].
    + cbn. by intros t b m [= ->].
  - done.
Qed.

Lemma reads_pending ev :
  reads (K:=K) (pending_discard ev) (λ t o, binding_ok ev t ∧ match o with
    | Some i => t_discard_migration t = true ∧ t_transition t = Some (DiscardRow (di_draft_id i) (di_revision i))
                ∧ length (di_draft_id i) = 16%nat ∧ 0 ≤ di_revision i
    | None => t_discard_migration t = true → select_discard t = Ok None end).
Proof.
  unfold pending_discard, check_evidence_access. eapply reads_bind; [apply reads_transaction, reads_access| |].
  - intros u. eapply reads_bind; [apply reads_query| |].
    + intros ex. instantiate (1 := λ ex t (o : option DiscardIntent), if (ex : bool) then
        match o with Some i => select_discard t = Ok (Some (di_draft_id i, di_revision i)) ∧
                               length (di_draft_id i) = 16%nat ∧ 0 ≤ di_revision i
                   | None => select_discard t = Ok None end else o = None).
      destruct ex; cbn; [|by apply reads_ret].
      eapply reads_bind; [apply reads_query| |].
      * intros row. instantiate (1 := λ row _ (o : option DiscardIntent), match o with
          | Some i => row = Some (di_draft_id i, di_revision i) ∧ length (di_draft_id i) = 16%nat ∧ 0 ≤ di_revision i
          | None => row = None end).
        destruct row as [[i r]|]; [|by apply reads_ret].
        eapply (reads_bind _ _ (λ _ j, j = i ∧ length i = 16%nat)
                  (λ j _ o, match o with Some d => d = {| di_draft_id := j; di_revision := r |} ∧ 0 ≤ r | None => False end)).
        -- apply reads_ok_or; [done|]. intros _ j. case_bool_decide; [|done]. by intros [= <-].
        -- intros j. eapply (reads_bind _ _ (λ _ s, s = r ∧ 0 ≤ r) (λ s _ o, o = Some {| di_draft_id := j; di_revision := s |})).
           ++ apply reads_ok_or; [done|]. intros _ s. destruct (0 <=? r) eqn:E; [|done]. apply Z.leb_le in E. by intros [= <-].
           ++ intros s. by apply reads_ret.
           ++ by intros _ s o [-> ?] ->.
        -- intros _ j [d|] [-> ?]; [|done]. intros [-> ?]. cbn. auto.
      * cbn. intros t row [i|] Hrow; [intros [-> ?]; by rewrite Hrow|by intros ->].
    + cbn. intros t ex o [= Hex]. instantiate (1 := λ _ t o, match o with
        | Some i => t_discard_migration t = true ∧ t_transition t = Some (DiscardRow (di_draft_id i) (di_revision i))
                    ∧ length (di_draft_id i) = 16%nat ∧ 0 ≤ di_revision i
        | None => t_discard_migration t = true → select_discard t = Ok None end).
      destruct ex; [|intros ->; congruence]. destruct o as [i|]; [|by intros]. intros (Hs & ? & ?).
      unfold select_discard, select_transition in Hs. rewrite Hex in Hs. cbn in Hs.
      destruct (t_transition t) as [[? ?|? ? ?]|] eqn:E; simplify_eq. done.
  - cbn. tauto.
Qed.
End Reads.

(** ** What the writing operations do, whatever fails *)

Section Writes.
Context {K : Type} `{KeyProviderLaws K} `{AeadCipher} `{Primitives}.
Implicit Types w : World K.

Definition same_entries (k k' : K) : Prop := ∀ g, entries k' g = entries k g.

(** The row of a blank draft: its key is in the store and sealed its empty
    text. *)
Definition is_blank (k : K) (row : DraftRow) : Prop :=
  ∃ sr dek, stored_row row = Some sr ∧ sr_revision sr = 0 ∧ entries k (sr_handle sr) = Some dek ∧
    aead_seal dek (sr_nonce sr) [] (associated_data (sr_draft_id sr) 0) = Ok (sr_ciphertext sr).

Lemma provider_code_inv p : provider_from_code (provider_code p) = Some p.
Proof. by destruct p. Qed.

Lemma stored_row_inv r sr :
  stored_row r = Some sr →
  sr_draft_id sr = dr_draft_id r ∧ sr_revision sr = dr_save_revision r ∧ sr_nonce sr = dr_nonce r ∧
  sr_ciphertext sr = dr_ciphertext r ∧ handle_purpose (sr_handle sr) = DraftDek ∧ draft_allowed r = true.
Proof.
  unfold stored_row, draft_allowed. repeat case_bool_decide; cbn; try done.
  - destruct (provider_from_code _); cbn; [|done]. destruct (dr_save_revision r <? 0) eqn:E; [done|].
    apply Z.ltb_ge in E. intros [= <-]. cbn. repeat split. by apply Z.leb_le.
  - by destruct (provider_from_code _).
Qed.

(** What [create_blank] writes when it succeeds. *)
Definition created_blank w (sv : SavedDraft) w' : Prop :=
  sd_revision sv = 0 ∧ t_draft (w_tables w) = None ∧ w_locked w' = w_locked w ∧
  ∃ row, w_tables w' = set_draft (Some row) (t_evidence (w_tables w)) (w_tables w) ∧
    dr_draft_id row = sd_draft_id sv ∧ is_blank (w_keys w') row ∧
    ∀ sr g, stored_row row = Some sr → g ≠ sr_handle sr → entries (w_keys w') g = entries (w_keys w) g.

Lemma blank_row_stored row provider :
  draft_allowed row = true → provider_from_code (dr_keystore_provider row) = Some provider →
  stored_row row = Some {| sr_draft_id := dr_draft_id row; sr_ciphertext := dr_ciphertext row; sr_nonce := dr_nonce row;
    sr_handle := {| keystore_provider := provider; account_instance := dr_account_instance row;
                    handle_purpose := DraftDek |}; sr_revision := dr_save_revision row |}.
Proof.
  unfold draft_allowed, stored_row. rewrite !andb_true_iff, !bool_decide_eq_true, Z.leb_le.
  intros [[[? ?] ?] ?] Hp. rewrite !bool_decide_eq_true_2 by done. cbn. rewrite Hp. cbn.
  by rewrite (proj2 (Z.ltb_ge _ _)) by done.
Qed.

Lemma wp_fresh n Q w :
  Q (draw w) (Err DraftErr.LocalRng) → (∀ b, random (w_draws w) n = Some b → Q (draw w) (Ok b)) →
  wp (fresh_bytes n) Q w.
Proof. unfold wp, fresh_bytes. cbn. destruct (random _ n); cbn; eauto. Qed.

Lemma wp_remember h (Q : World K → result DraftError unit → Prop) w :
  Q (set_created w (Some h)) (Ok tt) → wp (remember_created h) Q w.
Proof. done. Qed.

Lemma wp_create_blank w :
  wp create_blank (λ w' r, match r with
    | Ok sv => created_blank w sv w'
    | Err _ => w_locked w' = w_locked w
    end) w.
Proof.
  unfold create_blank.
  apply wp_bind, wp_fresh; [done|]. intros id _.
  apply wp_bind, wp_payload; [done|]. intros id' Hid. destruct (bool_decide _); [|done]. injection Hid as <-.
  apply wp_bind, wp_fresh; [done|]. intros dek _.
  apply wp_bind, wp_on_keys; [done|]. intros k h (Hp & Hh & Hg)%wrap_law.
  apply wp_bind, wp_remember.
  apply wp_bind, wp_on_keys; [done|]. intros k' dek' (Hs & Hd & _)%unwrap_law.
  specialize (Hd _ eq_refl). cbn in Hd. rewrite Hh in Hd. injection Hd as <-.
  apply wp_bind, wp_fresh; [done|]. intros nonce _.
  apply wp_bind, wp_crypto; [done|]. intros c Hc.
  apply wp_bind, wp_execute; [done|]. intros fs t [] Hi. unfold insert_draft in Hi.
  cbn in Hi. destruct (t_draft (w_tables w)) eqn:Ed; [done|]. case_match eqn:Ea; [|done]. injection Hi as <-.
  apply wp_ret. split_and!; [done|done|done|]. eexists. split_and!; [reflexivity|done|..]; cbn.
  - pose proof (blank_row_stored _ (keystore_provider h) Ea (provider_code_inv _)) as Hst.
    eexists _, dek. rewrite Hst. cbn. repeat split; [|done]. rewrite <- Hh, <- Hs. f_equal. destruct h; cbn in *. by subst.
  - intros sr g Hst Hne. rewrite Hs. apply Hg. intros ->. apply Hne.
    pose proof (blank_row_stored _ (keystore_provider h) Ea (provider_code_inv _)) as Hst'. cbn in Hst'.
    rewrite Hst' in Hst. injection Hst as <-. cbn. destruct h; cbn in *. by subst.
Qed.

(** The keys after the clean-up of a failed creation. *)
Definition keys_after w (k : K) : Prop :=
  match w_created w with Some h => k = (delete_key h (w_keys w)).1 | None => k = w_keys w end.

(** The world of a failed creation that started in [w] and got to [w']. *)
Definition undone w w' (fs : list bool) (k : K) : World K :=
  set_created (set_keys (set_tables w' (w_tables w) fs) k) None.

Lemma wp_creating {A} ev (work : dm K A) Q w :
  (∀ fs e, local_error e → Q (undone w w fs (w_keys w)) (Err e)) →
  (∀ fs, binding_ok ev (w_tables w) →
    wp work (λ w' r,
      (∀ fs e k, keys_after w' k → local_error e ∨ r = Err e → Q (undone w w' fs k) (Err e)) ∧
      ∀ a fs, r = Ok a → Q (set_created (set_tables w' (w_tables w') fs) None) (Ok a))
      (set_created (read_world w fs) None)) →
  wp (transaction_creating_blank ev work) Q w.
Proof.
  intros HE HW. unfold wp at 1, transaction_creating_blank.
  set (w0 := set_created w None).
  assert (Ht : wp (d_transaction (_ ← require_evidence_access ev; work)) (λ w' r, match r with
      | Ok a => Q (set_created w' None) (Ok a)
      | Err e => ∀ k, keys_after w' k → Q (set_created (set_keys w' k) None) (Err e) end) w0).
  { apply wp_transaction; [unfold keys_after; cbn; intros fs e k ->; by apply HE|]. intros fs. apply wp_bind.
    eapply wp_reads; [apply reads_access|unfold keys_after; cbn; intros fs' e He fs'' k ->; by apply HE|]. intros fs' u Hev.
    eapply wp_mono; [by apply HW|]. intros w' [a|e] [HEr HOk]; [|intros fs'' k Hk; apply HEr; by auto].
    split; [intros fs''; by apply HOk|]. intros fs'' e k Hk. apply HEr; cbn; auto. }
  unfold wp in Ht. destruct (d_transaction _ w0) as [w' [a|e]]; cbn in *; [done|].
  unfold keys_after in Ht. destruct (w_created w') eqn:Ec; [by apply Ht|].
  specialize (Ht _ eq_refl). destruct w' as [? ? ? ? c ?]; cbn in *. by subst c.
Qed.

(** The state [load_or_create] can leave: the tables, or the tables with a
    blank draft where there was none. *)
Definition loaded (t t' : DraftTables) : Prop :=
  t' = t ∨ t_draft t = None ∧ ∃ row, is_Some (stored_row row) ∧ dr_save_revision row = 0 ∧
             t' = set_draft (Some row) (t_evidence t) t.

(** A draft that is there stays there with its key. *)
Definition draft_kept w w' : Prop :=
  w_tables w' = w_tables w ∧ w_locked w' = w_locked w ∧
  (t_draft (w_tables w) ≠ None → same_entries (w_keys w) (w_keys w')).

Lemma draft_kept_read w fs : draft_kept w (read_world w fs).
Proof. by repeat split. Qed.
Hint Resolve draft_kept_read : core.

Definition loaded_draft ev w (d : DraftV) w' : Prop :=
  binding_ok ev (w_tables w) ∧ w_locked w' = w_locked w ∧ loaded (w_tables w) (w_tables w') ∧
  (t_draft (w_tables w) ≠ None → same_entries (w_keys w) (w_keys w')) ∧
  ∃ row, t_draft (w_tables w') = Some row ∧ dr_draft_id row = d_draft_id d ∧
    dr_save_revision row = d_revision d ∧ draft_allowed row = true.

(** Opening a stored row. *)
Lemma wp_load_row row w :
  wp (load_row row) (λ w' r, (∃ k, w' = set_keys w k ∧ same_entries (w_keys w) k) ∧
    ∀ d, r = Ok d → d_draft_id d = sr_draft_id row ∧ d_revision d = sr_revision row) w.
Proof.
  unfold load_row. apply wp_bind, wp_on_keys.
  - intros k e (Hs & _)%unwrap_law. split; [by exists k|done].
  - intros k dek (Hs & _)%unwrap_law.
    assert (∃ k', set_keys w k = set_keys w k' ∧ same_entries (w_keys w) k') by (by exists k).
    apply wp_bind, wp_crypto; [done|]. intros m _. apply wp_bind, wp_payload; [done|]. intros n _.
    apply wp_ret. split; [done|]. by intros d [= <-].
Qed.

Lemma wp_load_or_create ev w :
  wp (load_or_create ev) (λ w' r, match r with
    | Ok d => loaded_draft ev w d w'
    | Err _ => draft_kept w w'
    end) w.
Proof.
  apply wp_creating; [by repeat split|]. intros fs Hev. apply wp_bind.
  eapply wp_reads; [apply reads_row|by intros fs' e He; split; [unfold keys_after; cbn; intros ??? ->; repeat split|]|].
  intros fs' [sr|]; cbn; [intros (row & Hrow & Hst)|intros Hd].
  - eapply wp_mono; [apply wp_load_row|]. intros w' r [(k & -> & Hk) Hr]. split.
    + unfold keys_after; cbn. intros fs2 e k2 -> _. by repeat split.
    + intros d fs2 ->. destruct (Hr d eq_refl) as [Hi Hrev].
      apply stored_row_inv in Hst as (Hid & Hrv & _ & _ & _ & Hal).
      split_and!; [done|done|by left|done|]. exists row. by rewrite Hi, Hrev, <- Hid, <- Hrv.
  - apply wp_bind. eapply wp_mono; [apply wp_create_blank|]. intros w' [sv|e] Hr.
    + destruct Hr as (Hrv & _ & Hlk & row & Ht & Hid & Hbl & Hfr). apply wp_ret. split.
      * intros fs2 e k2 Hk2 _. by repeat split.
      * intros d fs2 [= <-]. destruct Hbl as (sr & dek & Hst & Hz & _). pose proof Hst as Hst'.
        apply stored_row_inv in Hst as (_ & Hr & _ & _ & _ & Hal). rewrite Hz in Hr.
        split_and!; [done|exact Hlk|right; split; [done|exists row; by eauto]|done|].
        exists row. cbn. rewrite Ht. split_and!; [done|done|by rewrite <- Hr, Hrv|done].
    + split; [|done]. intros fs2 e2 k2 Hk2 _. repeat split; [exact Hr|]. by intros [].
Qed.
End Writes.

Section Operations.
Context {K : Type} `{KeyProviderLaws K} `{AeadCipher} `{Primitives}.
Implicit Types w : World K.

(** Nothing that lasts has changed. *)
Definition kept w w' : Prop :=
  w_tables w' = w_tables w ∧ w_locked w' = w_locked w ∧ same_entries (w_keys w) (w_keys w').

Lemma kept_read w fs : kept w (read_world w fs).
Proof. by repeat split. Qed.
Hint Resolve kept_read : core.

Lemma kept_draft w w' : kept w w' → draft_kept w w'.
Proof. by intros (? & ? & ?). Qed.

(** What a durable intent is. *)
Definition intent_committed ev (draft : SavedDraft) w (i : DiscardIntent) w' : Prop :=
  binding_ok ev (w_tables w) ∧ t_discard_migration (w_tables w) = true ∧ select_marker (w_tables w) = Ok None ∧
  ∃ row fs, t_draft (w_tables w) = Some row ∧ draft_allowed row = true ∧
    dr_draft_id row = sd_draft_id draft ∧ dr_save_revision row = sd_revision draft ∧
    i = {| di_draft_id := dr_draft_id row; di_revision := dr_save_revision row |} ∧
    w' = set_tables w (set_transition (Some (DiscardRow (dr_draft_id row) (dr_save_revision row))) (w_tables w)) fs.

Lemma wp_commit_discard_intent ev draft w :
  wp (commit_discard_intent ev draft) (λ w' r, match r with
    | Ok i => intent_committed ev draft w i w'
    | Err _ => kept w w'
    end) w.
Proof.
  unfold commit_discard_intent. apply wp_bind. eapply wp_reads; [apply reads_query|done|].
  intros fs ex [= Hex]. destruct ex; cbn [negb]; [|by apply wp_fail].
  apply wp_transaction; [done|]. intros fs1.
  apply wp_bind. eapply wp_reads; [apply reads_access|done|]. intros fs2 u Hev.
  apply wp_bind. eapply wp_reads; [apply reads_require_row|done|]. intros fs3 sr (row & Hrow & Hst).
  case_bool_decide as Hi; [by apply wp_fail|]. case_bool_decide as Hr; [by apply wp_fail|]. cbn [orb].
  apply wp_bind, wp_query; [done|]. intros fs4 m Hm. case_bool_decide as Hs; [apply wp_fail; done|].
  apply wp_bind, wp_payload; [done|]. intros rev Hrev. case_match; [|done]. injection Hrev as <-.
  apply wp_bind, wp_execute; [done|]. intros fs5 t [] Hup. apply wp_ret. cbn in *.
  apply stored_row_inv in Hst as (Hid & Hrv & _ & _ & _ & Hal).
  destruct m; [by destruct Hs|].
  split; [|by repeat split]. intros fs6. split_and!; [done|done|done|].
  unfold upsert_transition in Hup. rewrite Hex in Hup. cbn in Hup. case_match; [|done]. injection Hup as <-.
  exists row, fs6. rewrite <- Hid, <- Hrv. by split_and!; auto.
Qed.

Lemma reads_dek_handle ev draft :
  reads (K:=K) (draft_dek_handle ev draft) (λ t h, ∃ row sr, t_draft t = Some row ∧ stored_row row = Some sr ∧
    sr_draft_id sr = sd_draft_id draft ∧ h = sr_handle sr).
Proof.
  apply reads_transaction. eapply reads_bind; [apply reads_access| |].
  - intros u. eapply reads_bind; [apply reads_require_row| |].
    + intros sr. instantiate (1 := λ sr _ h, sr_draft_id sr = sd_draft_id draft ∧ h = sr_handle sr).
      case_bool_decide; [by apply reads_fail|by apply reads_ret].
    + cbn. intros t sr h (row & Hr & Hst) [? ?].
      instantiate (1 := λ _ t h, ∃ row sr, t_draft t = Some row ∧ stored_row row = Some sr ∧
        sr_draft_id sr = sd_draft_id draft ∧ h = sr_handle sr). cbn. eauto 10.
  - cbn. auto.
Qed.

Lemma reads_saved_intent ev i : reads (K:=K) (require_saved_intent ev i) (λ _ _, True).
Proof.
  unfold require_saved_intent. case_bool_decide; [|by apply reads_ret].
  eapply (reads_bind _ _ (λ _ _, True) (λ _ _ _, True)); [eapply reads_mono; [apply reads_query|done]| |done].
  intros saved. eapply (reads_bind _ _ (λ _ _, True) (λ _ _ _, True)); [by apply reads_ok_or| |done].
  intros [j r]. case_bool_decide; [by apply reads_fail|].
  eapply (reads_bind _ _ (λ _ _, True) (λ _ _ _, True)); [by apply reads_lift; intros; destruct (_ <=? _)| |done].
  intros rv. case_bool_decide; [by apply reads_fail|by apply reads_ret].
Qed.

(** What remains of a draft that was removed: the blank one with its key. *)
Definition draft_removed w (old : DraftRow) (sv : SavedDraft) w' : Prop :=
  sd_revision sv = 0 ∧ w_locked w' = w_locked w ∧ ∃ blank,
    w_tables w' = set_draft (Some blank) None (set_transition None (w_tables w)) ∧
    dr_draft_id blank = sd_draft_id sv ∧ is_blank (w_keys w') blank ∧
    ∀ sr g, stored_row blank = Some sr → g ≠ sr_handle sr → entries (w_keys w') g = entries (w_keys w) g.

Lemma wp_remove ev i w :
  wp (remove_ciphertext_and_intent_create_blank ev i) (λ w' r, match r with
    | Ok out => ∃ old, t_draft (w_tables w) = Some old ∧ dr_draft_id old = di_draft_id i ∧
                       do_discarded out = di_draft_id i ∧ draft_removed w old (do_blank out) w'
    | Err _ => w_tables w' = w_tables w ∧ w_locked w' = w_locked w
    end) w.
Proof.
  unfold remove_ciphertext_and_intent_create_blank. apply wp_bind. eapply wp_reads; [apply reads_query|done|].
  intros fs ex [= Hex]. destruct ex; cbn [negb]; [|by apply wp_fail].
  apply wp_creating; [done|]. intros fs1 Hev.
  apply wp_bind. eapply wp_reads; [apply reads_saved_intent|done|]. intros fs2 u _.
  apply wp_bind. eapply wp_reads; [apply reads_require_row|done|]. intros fs3 sr (row & Hrow & Hst). cbn in Hrow.
  case_bool_decide as Hi; [apply wp_fail; done|].
  apply wp_bind, wp_execute; [done|]. intros fs4 t [] Ht. unfold delete_transition in Ht. cbn in Ht.
  rewrite Hex in Ht. injection Ht as <-.
  apply wp_bind, wp_execute; [done|]. intros fs5 t [] Ht. unfold delete_draft in Ht. cbn in Ht.
  rewrite Hrow in Ht. injection Ht as <-.
  apply wp_bind. eapply wp_mono; [apply wp_create_blank|]. intros w' [sv|e] Hw'.
  - destruct Hw' as (Hrv & _ & Hlk & blank & Ht & Hid & Hbl & Hfr). apply wp_ret. split; [by repeat split|].
    intros out fs6 [= <-]. apply stored_row_inv in Hst as (Hsid & _). exists row.
    split_and!; [done|congruence|done|]. split_and!; [done|exact Hlk|].
    exists blank. split_and!; [exact Ht|done|done|exact Hfr].
  - split; [|done]. intros fs6 e' k _ _. by split.
Qed.
End Operations.

(** ** Runs in which nothing fails *)

Section Healthy.
Context {K : Type} `{KeyProviderLaws K} `{AeadCipher} `{Primitives}.
Implicit Types w : World K.

(** A key store that answers, as long as [I] holds. *)
Record keys_answer (I : K → Prop) : Prop := {
  ka_wrap : ∀ s k, I k → ∃ k' h, wrap_secret DraftDek s k = (k', Ok h) ∧ length (account_instance h) = 32%nat ∧ I k';
  ka_unwrap : ∀ h s k, I k → handle_purpose h = DraftDek → entries k h = Some s →
    ∃ k', unwrap_secret h k = (k', Ok s) ∧ I k';
  ka_missing : ∀ h k, I k → handle_purpose h = DraftDek → entries k h = None →
    ∃ k', unwrap_secret h k = (k', Err Key.NotFound) ∧ I k';
  ka_delete : ∀ h k, I k → ∃ k' r, delete_key h k = (k', r) ∧ (r = Ok tt ∨ r = Err Key.NotFound) ∧ I k';
  ka_contains : ∀ h k, I k → ∃ k' b, contains_key h k = (k', Ok b) ∧ I k';
}.

(** A generator that yields, and a cipher that seals. *)
Record primitives_answer : Prop := {
  pa_random : ∀ i n, ∃ b, random i n = Some b ∧ length b = n;
  pa_seal : ∀ k n m a, Z.of_nat (length m) + AEAD_OVERHEAD ≤ usize_max → ∃ c, aead_seal k n m a = Ok c;
}.

(** [m] succeeds from [w] without a fault and leaves a world like it. *)
Definition succeeds (I : K → Prop) {A} (m : dm K A) w (Q : World K → A → Prop) : Prop :=
  w_faults w = [] → I (w_keys w) →
  ∃ w' a, m w = (w', Ok a) ∧ w_faults w' = [] ∧ I (w_keys w') ∧ Q w' a.

Lemma bind_run {A B} (x : dm K A) (k : A → dm K B) w w' a : x w = (w', Ok a) → (x ≫= k) w = k a w'.
Proof. unfold mbind, dm_bind. by intros ->. Qed.

Context (I : K → Prop).

Lemma succeeds_bind {A B} (x : dm K A) (k : A → dm K B) w P Q :
  succeeds I x w P → (∀ w' a, P w' a → succeeds I (k a) w' Q) → succeeds I (x ≫= k) w Q.
Proof.
  intros Hx Hk Hf HI. destruct (Hx Hf HI) as (w' & a & Hr & Hf' & HI' & HP).
  rewrite (bind_run _ _ _ _ _ Hr). by apply Hk.
Qed.

Lemma succeeds_ret {A} (a : A) w Q : Q w a → succeeds I (mret a) w Q.
Proof. intros HQ Hf HI. by exists w, a. Qed.

Lemma succeeds_lift {A} (r : result DraftError A) a w Q : r = Ok a → Q w a → succeeds I (dm_lift r) w Q.
Proof. intros -> HQ Hf HI. by exists w, a. Qed.

Lemma succeeds_execute {A} (f : DraftTables → result Store.StoreError (DraftTables * A)) t a w Q :
  f (w_tables w) = Ok (t, a) → Q (set_tables w t []) a → succeeds I (d_execute f) w Q.
Proof. intros Hr HQ Hf HI. exists (set_tables w t []), a. unfold d_execute. rewrite Hf, Hr. done. Qed.

Lemma read_world_healthy w : w_faults w = [] → read_world w [] = w.
Proof. destruct w; cbn. by intros ->. Qed.

Lemma succeeds_query {A} (f : DraftTables → result Store.StoreError A) a w (Q : World K → A → Prop) :
  f (w_tables w) = Ok a → Q w a → succeeds I (d_query f) w Q.
Proof.
  intros Hr HQ Hf HI. exists w, a. unfold d_query, d_execute. rewrite Hf, Hr. cbn. split_and!; [|done..].
  f_equal. by apply read_world_healthy.
Qed.

Lemma succeeds_transaction {A} (m : dm K A) w Q : succeeds I m w Q → succeeds I (d_transaction m) w Q.
Proof.
  intros Hm Hf HI. destruct (Hm Hf HI) as (w' & a & Hr & Hf' & HI' & HQ). exists w', a. split_and!; [|done..].
  assert (Hn : ∀ v : World K, w_faults v = [] → no_statement v = (v, Ok tt)).
  { intros v Hv. unfold no_statement, d_query, d_execute. rewrite Hv. cbn. f_equal. by apply read_world_healthy. }
  unfold d_transaction. rewrite (bind_run _ _ _ _ _ (Hn w Hf)), (bind_run _ _ _ _ _ Hr), (bind_run _ _ _ _ _ (Hn w' Hf')).
  done.
Qed.

Lemma succeeds_mono {A} (m : dm K A) w (P Q : World K → A → Prop) :
  succeeds I m w P → (∀ w' a, P w' a → Q w' a) → succeeds I m w Q.
Proof. intros Hm HPQ Hf HI. destruct (Hm Hf HI) as (w' & a & ? & ? & ? & ?). exists w', a. eauto. Qed.

(** What a successful run establishes when it does not fail. *)
Lemma succeeds_wp {A} (m : dm K A) w (P Q : World K → A → Prop) R :
  succeeds I m w P → wp m R w → (∀ w' a, P w' a → R w' (Ok a) → Q w' a) → succeeds I m w Q.
Proof.
  intros Hm HR HQ Hf HI. destruct (Hm Hf HI) as (w' & a & Hr & ? & ? & ?). exists w', a.
  pose proof (proj1 (wp_run _ _ _) HR _ _ Hr). split_and!; auto.
Qed.

(** A read that succeeds leaves the world as it was. *)
Lemma succeeds_reads {A} (m : dm K A) w (P : DraftTables → A → Prop) (Q : World K → A → Prop) :
  reads m P → succeeds I m w (λ _ _, True) → (∀ a, P (w_tables w) a → Q w a) → succeeds I m w Q.
Proof.
  intros Hm Hs HQ Hf HI. destruct (Hs Hf HI) as (w' & a & Hr & Hf' & HI' & _).
  pose proof (proj1 (wp_run _ _ _) (Hm w) _ _ Hr) as [[fs ->] HP]. cbn in Hf'. subst fs.
  rewrite read_world_healthy in * by done. exists w, a. eauto 10.
Qed.

Lemma succeeds_on_keys {A} (f : K → K * result Key.KeyError A) k a w (Q : World K → A → Prop) :
  f (w_keys w) = (k, Ok a) → I k → Q (set_keys w k) a → succeeds I (on_keys f) w Q.
Proof. intros Hr HI' HQ Hf HI. exists (set_keys w k), a. unfold on_keys. by rewrite Hr. Qed.

Lemma access_succeeds ev w : binding_ok ev (w_tables w) → succeeds I (require_evidence_access ev) w (λ w' _, w' = w).
Proof.
  intros Hb. eapply succeeds_reads; [apply reads_access| |done].
  unfold require_evidence_access. apply (succeeds_bind _ _ _ (λ _ a, a = ev)).
  - destruct ev as [b|]; cbn in Hb.
    + destruct Hb as (Ht & He & Hd & Hj & core & Hc & Ho). destruct (t_draft (w_tables w)) as [row|] eqn:Er; [|done].
      injection Hd as Hd. unfold read_binding.
      eapply (succeeds_bind _ _ _ (λ w' a, w' = w ∧ a = true)); [by eapply succeeds_query|]. intros ? ? [-> ->]. cbn [negb].
      eapply (succeeds_bind _ _ _ (λ w' a, w' = w ∧ a = Some (b, Some (dr_draft_id row))));
        [eapply succeeds_query; [by unfold bound_row; rewrite He, Er|done]|]. intros ? ? [-> ->].
      eapply (succeeds_bind _ _ _ (λ w' a, w' = w ∧ a = dr_draft_id row)); [by eapply succeeds_lift|]. intros ? ? [-> ->].
      rewrite bool_decide_eq_false_2 by auto. eapply (succeeds_bind _ _ _ (λ _ _, True)); [|by intros; apply succeeds_ret].
      unfold require_job. eapply (succeeds_bind _ _ _ (λ w' a, w' = w ∧ a = Some (es_authorization_hash (eb_source b), core)));
        [eapply succeeds_query; [by rewrite Hj, Hc|done]|]. intros ? ? [-> ->].
      eapply (succeeds_bind _ _ _ (λ w' a, w' = w ∧ a = (es_authorization_hash (eb_source b), core)));
        [by eapply succeeds_lift|]. intros ? ? [-> ->].
      rewrite !bool_decide_eq_false_2 by auto. by apply succeeds_ret.
    + unfold unbound_ok in Hb. unfold read_binding.
      eapply (succeeds_bind _ _ _ (λ w' a, w' = w ∧ a = t_evidence_table (w_tables w))); [by eapply succeeds_query|].
      intros ? ? [-> ->]. destruct (t_evidence_table (w_tables w)) eqn:Et; cbn [negb].
      * eapply (succeeds_bind _ _ _ (λ w' a, w' = w ∧ a = None)); [eapply succeeds_query; [by unfold bound_row; rewrite Hb|done]|].
        intros ? ? [-> ->]. by apply succeeds_ret.
      * eapply (succeeds_bind _ _ _ (λ w' a, w' = w ∧ a = false)); [by eapply succeeds_query; [rewrite Hb|]|].
        intros ? ? [-> ->]. by apply succeeds_ret.
  - intros w' a ->. destruct ev; [rewrite bool_decide_eq_true_2 by done|]; by apply succeeds_ret.
Qed.

Lemma row_succeeds w row sr : t_draft (w_tables w) = Some row → stored_row row = Some sr →
  succeeds I read_row w (λ w' a, w' = w ∧ a = Some sr).
Proof.
  intros Hr Hst. unfold read_row. eapply (succeeds_bind _ _ _ (λ w' a, w' = w ∧ a = Some row));
    [eapply succeeds_query; [by rewrite Hr|done]|]. intros ? ? [-> ->].
  eapply (succeeds_bind _ _ _ (λ w' a, w' = w ∧ a = sr)); [eapply succeeds_lift; [by rewrite Hst|done]|].
  intros ? ? [-> ->]. by apply succeeds_ret.
Qed.

Lemma require_row_succeeds w row sr : t_draft (w_tables w) = Some row → stored_row row = Some sr →
  succeeds I require_row w (λ w' a, w' = w ∧ a = sr).
Proof.
  intros Hr Hst. unfold require_row. eapply succeeds_bind; [by eapply row_succeeds|]. intros ? ? [-> ->].
  by eapply succeeds_lift.
Qed.

Lemma exists_succeeds w : succeeds I transition_table_exists w (λ w' a, w' = w ∧ a = t_discard_migration (w_tables w)).
Proof. by eapply succeeds_query. Qed.

(** The calls of the generator, the key store and the cipher. *)
Context (HI : keys_answer I) (HP : primitives_answer).

Lemma fresh_succeeds n w : succeeds I (fresh_bytes n) w (λ w' b, w' = draw w ∧ length b = n).
Proof.
  intros Hf Hk. destruct (pa_random HP (w_draws w) n) as (b & Hb & Hl). exists (draw w), b.
  unfold fresh_bytes. by rewrite Hb.
Qed.

Lemma create_blank_succeeds w : t_draft (w_tables w) = None → succeeds I create_blank w (λ w' sv, created_blank w sv w').
Proof.
  intros Hd. eapply (succeeds_wp _ _ (λ _ _, True)); [|apply wp_create_blank|by intros w' sv _ Hc; exact Hc].
  unfold create_blank.
  eapply succeeds_bind; [apply fresh_succeeds|]. intros ? id [-> Hid].
  eapply (succeeds_bind _ _ _ (λ w' a, w' = draw w ∧ a = id));
    [apply (succeeds_lift _ id); [by rewrite bool_decide_eq_true_2|done]|]. intros ? ? [-> ->].
  eapply succeeds_bind; [apply fresh_succeeds|]. intros ? dek [-> Hdl].
  eapply (succeeds_bind _ _ _ (λ w' h, w_tables w' = w_tables w ∧ handle_purpose h = DraftDek ∧
    length (account_instance h) = 32%nat ∧ entries (w_keys w') h = Some dek)).
  { intros Hf Hk. destruct (ka_wrap I HI dek _ Hk) as (k' & h & Hw & Hl & Hk').
    pose proof (wrap_law _ _ _ _ _ Hw) as (Hp & He & _).
    eapply succeeds_on_keys; [exact Hw|done|by split_and!|done|done]. }
  intros w1 h (Ht & Hp & Hl & He).
  eapply (succeeds_bind _ _ _ (λ w' _, w' = set_created w1 (Some h))); [by intros Hf Hk; exists (set_created w1 (Some h)), tt|].
  intros ? ? ->.
  eapply (succeeds_bind _ _ _ (λ w' d, w_tables w' = w_tables w ∧ d = dek)).
  { intros Hf Hk. destruct (ka_unwrap I HI h dek _ Hk Hp He) as (k' & Hu & Hk').
    eapply succeeds_on_keys; [exact Hu|done|by split_and!|done|done]. }
  intros w2 ? [Ht2 ->].
  eapply succeeds_bind; [apply fresh_succeeds|]. intros ? nonce [-> Hn].
  destruct (pa_seal HP dek nonce [] (associated_data id 0)) as [c Hc]; [done|].
  eapply (succeeds_bind _ _ _ (λ w' a, w' = draw w2 ∧ a = c)); [eapply succeeds_lift; [by rewrite Hc|done]|]. intros ? ? [-> ->].
  eapply (succeeds_bind _ _ _ (λ _ _, True)); [|by intros; apply succeeds_ret].
  eapply succeeds_execute; [|done]. unfold insert_draft. cbn. rewrite Ht2, Hd.
  unfold draft_allowed. cbn. by rewrite !bool_decide_eq_true_2.
Qed.

Lemma creating_succeeds {A} ev (m : dm K A) w (P : World K → A → Prop) (Q : World K → A → Prop) :
  binding_ok ev (w_tables w) → succeeds I m (set_created w None) P →
  (∀ w' a, P w' a → Q (set_created w' None) a) → succeeds I (transaction_creating_blank ev m) w Q.
Proof.
  intros Hb Hm HQ Hf Hk.
  assert (Ht : succeeds I (d_transaction (_ ← require_evidence_access ev; m)) (set_created w None) P).
  { apply succeeds_transaction. eapply succeeds_bind; [by apply access_succeeds|]. by intros ? ? ->. }
  destruct (Ht Hf Hk) as (w' & a & Hr & Hf' & Hk' & HPa). exists (set_created w' None), a.
  unfold transaction_creating_blank. rewrite Hr. by split_and!; auto.
Qed.

Lemma dek_handle_succeeds ev draft w row sr :
  binding_ok ev (w_tables w) → t_draft (w_tables w) = Some row → stored_row row = Some sr →
  sr_draft_id sr = sd_draft_id draft → succeeds I (draft_dek_handle ev draft) w (λ w' h, w' = w ∧ h = sr_handle sr).
Proof.
  intros Hb Hr Hst Hi. apply succeeds_transaction. eapply succeeds_bind; [by apply access_succeeds|]. intros ? ? ->.
  eapply succeeds_bind; [by eapply require_row_succeeds|]. intros ? ? [-> ->].
  rewrite bool_decide_eq_false_2 by auto. by apply succeeds_ret.
Qed.

Lemma marker_succeeds ev w m :
  binding_ok ev (w_tables w) → t_discard_migration (w_tables w) = true → select_marker (w_tables w) = Ok m →
  succeeds I (prepared_finalization_marker ev) w (λ w' a, w' = w ∧ a = m).
Proof.
  intros Hb Hm Hs. apply succeeds_transaction. eapply succeeds_bind; [by apply access_succeeds|]. intros ? ? ->.
  eapply (succeeds_bind _ _ _ (λ w' a, w' = w ∧ a = true)); [by eapply succeeds_query; [rewrite Hm|]|].
  intros ? ? [-> ->]. cbn [negb]. by eapply succeeds_query.
Qed.

Lemma pending_succeeds ev w i r :
  binding_ok ev (w_tables w) → t_discard_migration (w_tables w) = true →
  t_transition (w_tables w) = Some (DiscardRow i r) → length i = 16%nat → 0 ≤ r →
  succeeds I (pending_discard ev) w (λ w' a, w' = w ∧ a = Some {| di_draft_id := i; di_revision := r |}).
Proof.
  intros Hb Hm Ht Hi Hr. unfold pending_discard.
  eapply succeeds_bind; [by apply succeeds_transaction, access_succeeds|]. intros ? ? ->.
  eapply succeeds_bind; [apply exists_succeeds|]. intros ? ? [-> ->]. rewrite Hm. cbn [negb].
  eapply (succeeds_bind _ _ _ (λ w' a, w' = w ∧ a = Some (i, r))).
  { eapply succeeds_query; [|done]. unfold select_discard, select_transition. by rewrite Hm, Ht. }
  intros ? ? [-> ->].
  eapply (succeeds_bind _ _ _ (λ w' a, w' = w ∧ a = i)); [apply (succeeds_lift _ i); [by rewrite bool_decide_eq_true_2|done]|].
  intros ? ? [-> ->].
  eapply (succeeds_bind _ _ _ (λ w' a, w' = w ∧ a = r)); [apply (succeeds_lift _ r); [by rewrite (proj2 (Z.leb_le _ _)) by done|done]|].
  intros ? ? [-> ->]. by apply succeeds_ret.
Qed.

Lemma no_pending_succeeds ev w :
  binding_ok ev (w_tables w) → t_discard_migration (w_tables w) = true → t_transition (w_tables w) = None →
  succeeds I (pending_discard ev) w (λ w' a, w' = w ∧ a = None).
Proof.
  intros Hb Hm Ht. unfold pending_discard.
  eapply succeeds_bind; [by apply succeeds_transaction, access_succeeds|]. intros ? ? ->.
  eapply succeeds_bind; [apply exists_succeeds|]. intros ? ? [-> ->]. rewrite Hm. cbn [negb].
  eapply (succeeds_bind _ _ _ (λ w' a, w' = w ∧ a = None)).
  { eapply succeeds_query; [|done]. unfold select_discard, select_transition. by rewrite Hm, Ht. }
  intros ? ? [-> ->]. by apply succeeds_ret.
Qed.

Lemma saved_intent_succeeds ev w i :
  t_discard_migration (w_tables w) = true → di_revision i ≤ i64_max →
  t_transition (w_tables w) = Some (DiscardRow (di_draft_id i) (di_revision i)) →
  succeeds I (require_saved_intent ev i) w (λ w' _, w' = w).
Proof.
  intros Hm Hr Ht. unfold require_saved_intent. case_bool_decide; [|by apply succeeds_ret].
  eapply (succeeds_bind _ _ _ (λ w' a, w' = w ∧ a = Some (di_draft_id i, di_revision i))).
  { eapply succeeds_query; [|done]. unfold select_discard, select_transition. by rewrite Hm, Ht. }
  intros ? ? [-> ->].
  eapply (succeeds_bind _ _ _ (λ w' a, w' = w ∧ a = (di_draft_id i, di_revision i))); [by eapply succeeds_lift|].
  intros ? ? [-> ->]. rewrite bool_decide_eq_false_2 by auto.
  eapply (succeeds_bind _ _ _ (λ w' a, w' = w ∧ a = di_revision i));
    [apply (succeeds_lift _ (di_revision i)); [by rewrite (proj2 (Z.leb_le _ _)) by done|done]|].
  intros ? ? [-> ->]. rewrite bool_decide_eq_false_2 by auto. by apply succeeds_ret.
Qed.

Lemma remove_succeeds ev w i row sr :
  binding_ok ev (w_tables w) → t_discard_migration (w_tables w) = true →
  t_transition (w_tables w) = Some (DiscardRow (di_draft_id i) (di_revision i)) →
  t_draft (w_tables w) = Some row → stored_row row = Some sr → dr_draft_id row = di_draft_id i →
  di_revision i ≤ i64_max →
  succeeds I (remove_ciphertext_and_intent_create_blank ev i) w (λ _ _, True).
Proof.
  intros Hb Hm Htr Hrow Hst Hi Hr. unfold remove_ciphertext_and_intent_create_blank.
  eapply succeeds_bind; [apply exists_succeeds|]. intros ? ? [-> ->]. rewrite Hm. cbn [negb].
  eapply creating_succeeds; [done| |by instantiate (1 := λ _ _, True)].
  eapply succeeds_bind; [by apply saved_intent_succeeds|]. intros ? ? ->.
  eapply succeeds_bind; [by eapply require_row_succeeds|]. intros ? ? [-> ->].
  pose proof (stored_row_inv _ _ Hst) as (Hsi & _). rewrite bool_decide_eq_false_2 by congruence.
  eapply (succeeds_bind _ _ _ (λ w' _, t_draft (w_tables w') = Some row)).
  { eapply succeeds_execute; [unfold delete_transition; cbn; by rewrite Hm|done]. }
  intros w1 [] Hd1. eapply (succeeds_bind _ _ _ (λ w' _, t_draft (w_tables w') = None)).
  { eapply succeeds_execute; [unfold delete_draft; by rewrite Hd1|done]. }
  intros w2 [] Hd2. eapply (succeeds_bind _ _ _ (λ _ _, True)); [|by intros; apply succeeds_ret].
  eapply succeeds_mono; [by apply create_blank_succeeds|done].
Qed.

(** ** Loading a draft that is there *)

Lemma load_row_succeeds w sr dek notes :
  handle_purpose (sr_handle sr) = DraftDek →
  entries (w_keys w) (sr_handle sr) = Some dek →
  aead_open dek (sr_nonce sr) (sr_ciphertext sr) (associated_data (sr_draft_id sr) (sr_revision sr)) = Ok notes →
  is_Some (from_utf8 notes) →
  succeeds I (load_row sr) w (λ w' d, w_tables w' = w_tables w ∧ same_entries (w_keys w) (w_keys w') ∧
    d = {| d_draft_id := sr_draft_id sr; d_revision := sr_revision sr; d_notes := notes |}).
Proof.
  intros Hp He Ho [cs Hcs] Hf Hk. destruct (ka_unwrap I HI _ _ _ Hk Hp He) as (k & Hu & Hk').
  pose proof (unwrap_law _ _ _ _ Hu) as (Hs & _).
  exists (set_keys w k), {| d_draft_id := sr_draft_id sr; d_revision := sr_revision sr; d_notes := notes |}.
  split_and!; try done. unfold load_row. rewrite (bind_run _ _ w (set_keys w k) dek); [|unfold on_keys; by rewrite Hu].
  rewrite Ho. rewrite (bind_run _ _ _ (set_keys w k) notes) by done. unfold payload. by rewrite Hcs.
Qed.

Lemma load_succeeds ev w row sr dek notes :
  binding_ok ev (w_tables w) → t_draft (w_tables w) = Some row → stored_row row = Some sr →
  entries (w_keys w) (sr_handle sr) = Some dek →
  aead_open dek (sr_nonce sr) (sr_ciphertext sr) (associated_data (sr_draft_id sr) (sr_revision sr)) = Ok notes →
  is_Some (from_utf8 notes) →
  succeeds I (load_or_create ev) w (λ w' d, w_tables w' = w_tables w ∧ same_entries (w_keys w) (w_keys w') ∧
    d = {| d_draft_id := sr_draft_id sr; d_revision := sr_revision sr; d_notes := notes |}).
Proof.
  intros Hb Hr Hst He Ho Hu Hf Hk. pose proof (stored_row_inv _ _ Hst) as (_ & _ & _ & _ & Hp & _).
  revert Hf Hk. eapply creating_succeeds; [done| |intros w' d Hd; exact Hd].
  eapply succeeds_bind; [by eapply row_succeeds|]. intros ? ? [-> ->].
  eapply succeeds_mono; [by eapply load_row_succeeds|done].
Qed.

(** A draft whose key is gone does not load. *)
Lemma load_missing ev w row sr :
  w_faults w = [] → I (w_keys w) →
  binding_ok ev (w_tables w) → t_draft (w_tables w) = Some row → stored_row row = Some sr →
  entries (w_keys w) (sr_handle sr) = None →
  ∃ w', load_or_create ev w = (w', Err (DraftErr.FromKey Key.NotFound)) ∧ w_faults w' = [] ∧ I (w_keys w') ∧
        kept w w'.
Proof.
  intros Hf Hk Hb Hr Hst He. pose proof (stored_row_inv _ _ Hst) as (_ & _ & _ & _ & Hp & _).
  destruct (ka_missing I HI _ _ Hk Hp He) as (k & Hu & Hk').
  pose proof (unwrap_law _ _ _ _ Hu) as (Hs & _).
  set (w0 := set_created w None).
  assert (Hacc : require_evidence_access ev w0 = (w0, Ok tt)).
  { destruct (access_succeeds ev w0 Hb Hf Hk) as (w' & [] & Hrun & _ & _ & ->). done. }
  assert (Hrow : read_row w0 = (w0, Ok (Some sr))).
  { destruct (row_succeeds w0 row sr Hr Hst Hf Hk) as (w' & a & Hrun & _ & _ & -> & ->). done. }
  assert (Hno : no_statement w0 = (w0, Ok tt)).
  { unfold no_statement, d_query, d_execute. change (w_faults w0) with (w_faults w). rewrite Hf. cbn. f_equal.
    exact (read_world_healthy w0 Hf). }
  exists (set_keys w0 k). split_and!; [|done|done|by repeat split].
  unfold load_or_create, transaction_creating_blank, d_transaction. fold w0.
  rewrite (bind_run _ _ _ _ _ Hno). unfold mbind at 1, dm_bind at 1.
  rewrite (bind_run _ _ _ _ _ Hacc), (bind_run _ _ _ _ _ Hrow). unfold load_row.
  unfold mbind at 1, dm_bind at 1. unfold on_keys. change (w_keys w0) with (w_keys w). rewrite Hu. cbn.
  done.
Qed.

(** The slot is cleared, the draft goes with its binding and a blank one comes. *)
Definition replaced w (sv : SavedDraft) w' : Prop :=
  ∃ blank, w_tables w' = (if t_discard_migration (w_tables w) then set_transition None else id)
      (set_draft (Some blank) (match t_draft (w_tables w) with Some _ => None | None => t_evidence (w_tables w) end)
         (w_tables w)) ∧
    dr_draft_id blank = sd_draft_id sv ∧ is_blank (w_keys w') blank.

Lemma wp_delete_and_create w w1 :
  w_tables w1 = (if t_discard_migration (w_tables w) then set_transition None else id) (w_tables w) →
  wp (_ ← d_execute delete_draft; create_blank) (λ w' r, ∀ sv, r = Ok sv → replaced w sv w') w1.
Proof.
  intros Hw1. apply wp_bind, wp_execute; [done|]. intros fs2 t [] [= <-].
  eapply wp_mono; [apply wp_create_blank|]. intros w2 [sv|e] Hc; [|done].
  intros ? [= <-]. destruct Hc as (_ & _ & _ & blank & Ht & Hid & Hbl & _). exists blank. split; [|done].
  rewrite Ht. cbn. rewrite Hw1. destruct (t_discard_migration (w_tables w)); cbn; by destruct (t_draft (w_tables w)).
Qed.

Lemma wp_replace_with_blank ev w :
  wp (replace_with_blank ev) (λ w' r, ∀ sv, r = Ok sv → replaced w sv w') w.
Proof.
  unfold replace_with_blank. apply wp_bind. eapply wp_reads; [apply reads_query|done|].
  intros fs ex [= Hex]. apply wp_creating; [done|]. intros fs1 Hev. apply wp_bind.
  eapply (wp_reads _ (λ _ _, True)); [|done|].
  { case_bool_decide; [|by apply reads_ret]. eapply (reads_bind _ _ (λ _ _, True) (λ _ _ _, True));
      [eapply reads_mono; [apply reads_query|done]| |done].
    intros m. case_bool_decide; [by apply reads_fail|by apply reads_ret]. }
  intros fs2 u _. apply wp_bind.
  assert (Hfin : ∀ w1 : World K, w_tables w1 = (if ex then set_transition None else id) (w_tables w) →
    wp (_ ← d_execute delete_draft; create_blank) (λ w' r,
      (∀ fs e k, keys_after w' k → local_error e ∨ r = Err e → ∀ sv : SavedDraft, Err e = Ok sv → replaced w sv (undone (read_world w fs) w' fs k)) ∧
      (∀ a fs, r = Ok a → ∀ sv, Ok (E:=DraftError) a = Ok sv → replaced w sv (set_created (set_tables w' (w_tables w') fs) None))) w1).
  { intros w1 Hw1. eapply wp_mono; [apply (wp_delete_and_create w); by rewrite Hex|].
    intros w2 r Hr. split; [done|]. intros a fs3 -> sv [= <-]. exact (Hr _ eq_refl). }
  destruct ex.
  - apply wp_execute; [done|]. intros fs3 t [] Ht. unfold delete_transition in Ht. cbn in Ht. rewrite Hex in Ht.
    injection Ht as <-. by apply Hfin.
  - apply wp_ret. by apply Hfin.
Qed.

Lemma replace_succeeds w :
  binding_ok None (w_tables w) → succeeds I (replace_with_blank None) w (λ w' sv, replaced w sv w').
Proof.
  intros Hb. eapply (succeeds_wp _ _ (λ _ _, True)); [|apply wp_replace_with_blank|by intros w' sv _ Hc; apply Hc].
  unfold replace_with_blank. eapply succeeds_bind; [apply exists_succeeds|]. intros ? ? [-> ->].
  eapply creating_succeeds; [done| |by instantiate (1 := λ _ _, True)].
  rewrite bool_decide_eq_false_2 by (by intros []).
  eapply (succeeds_bind _ _ _ (λ w' _, w' = set_created w None)); [by apply succeeds_ret|]. intros ? ? ->.
  eapply (succeeds_bind _ _ _ (λ _ _, True)).
  { destruct (t_discard_migration (w_tables w)) eqn:E; [|by apply succeeds_ret].
    eapply succeeds_execute; [unfold delete_transition; cbn; by rewrite E|done]. }
  intros w1 [] _. eapply (succeeds_bind _ _ _ (λ w' _, t_draft (w_tables w') = None)).
  { eapply succeeds_execute; [done|]. cbn. by destruct (t_draft (w_tables w1)) eqn:E. }
  intros w2 [] Hd. eapply succeeds_mono; [by apply create_blank_succeeds|done].
Qed.
End Healthy.

(** ** Saving *)

Section Save.
Context {K : Type} `{KeyProviderLaws K} `{AeadCipher} `{Primitives}.
Implicit Types w : World K.

(** What a successful save did: the row it read is the one the draft was read
    from, and only its ciphertext, nonce and revision are new. *)
Definition saved ev (draft : DraftV) w (sv : SavedDraft) w' : Prop :=
  binding_ok ev (w_tables w) ∧ d_revision draft + 1 ≤ i64_max ∧
  sv = {| sd_draft_id := d_draft_id draft; sd_revision := d_revision draft + 1 |} ∧
  ∃ row sr dek c nonce, t_draft (w_tables w) = Some row ∧ stored_row row = Some sr ∧
    dr_draft_id row = d_draft_id draft ∧ dr_save_revision row = d_revision draft ∧
    entries (w_keys w) (sr_handle sr) = Some dek ∧
    aead_seal dek nonce (d_notes draft) (associated_data (d_draft_id draft) (d_revision draft + 1)) = Ok c ∧
    length nonce = AEAD_NONCE_SIZE ∧
    w_tables w' = set_draft (Some (saved_row c nonce (d_revision draft + 1) row)) (t_evidence (w_tables w)) (w_tables w).

Lemma update_draft_Ok c nonce target old t t' n row :
  t_draft t = Some row → update_draft c nonce target old t = Ok (t', n) → n = 1%nat →
  dr_save_revision row = old ∧ draft_allowed (saved_row c nonce target row) = true ∧
  t' = set_draft (Some (saved_row c nonce target row)) (t_evidence t) t.
Proof.
  unfold update_draft. intros ->. case_bool_decide; [|by intros [= _ <-]].
  case_match; [|done]. by intros [= <- _] _.
Qed.

Lemma wp_save ev draft w :
  wp (save ev draft) (λ w' r, same_entries (w_keys w) (w_keys w') ∧ match r with
    | Ok sv => saved ev draft w sv w'
    | Err _ => w_tables w' = w_tables w
    end) w.
Proof.
  unfold save. destruct (_ && _); [by apply wp_fail|].
  apply wp_transaction; [done|]. intros fs. apply wp_bind.
  eapply wp_reads; [apply reads_access|done|]. intros fs1 u Hev.
  apply wp_bind. eapply wp_reads; [apply reads_require_row|done|]. intros fs2 sr (row & Hrow & Hst).
  pose proof (stored_row_inv _ _ Hst) as (Hid & Hrv & _).
  case_bool_decide as Hi; [by apply wp_fail|]. case_bool_decide as Hr; [by apply wp_fail|]. cbn [orb].
  apply wp_bind, wp_ok_or; [done|]. intros target [-> _]%checked_add_Some.
  apply wp_bind, wp_on_keys; [by intros k e (Hs & _)%unwrap_law|]. intros k dek (Hs & Hd & _)%unwrap_law.
  specialize (Hd _ eq_refl). cbn in Hd.
  apply wp_bind, wp_fresh; [done|]. intros nonce _.
  apply wp_bind, wp_crypto; [done|]. intros c Hc.
  apply wp_bind, wp_payload; [done|]. intros new Hnew. destruct (_ <=? i64_max) eqn:E1 in Hnew; [|done]. injection Hnew as <-.
  apply wp_bind, wp_payload; [done|]. intros old Hold. destruct (_ <=? i64_max) eqn:E2 in Hold; [|done]. injection Hold as <-.
  apply wp_bind, wp_execute; [done|]. intros fs3 t n Hup.
  case_bool_decide as Hn; [by apply wp_fail|]. apply wp_ret.
  apply Z.leb_le in E1. cbn in Hrow, Hup.
  destruct (update_draft_Ok _ _ _ _ _ _ _ row Hrow Hup Hn) as (_ & Hal & ->).
  unfold draft_allowed in Hal. rewrite !andb_true_iff, !bool_decide_eq_true in Hal. destruct Hal as [[[_ Hnl] _] _].
  split; [|by intros; split]. intros fs4. split; [done|]. rewrite Hi, Hr in *.
  split_and!; [done|done|done|]. exists row, sr, dek, c, nonce. split_and!; try done; congruence.
Qed.

Lemma stored_saved row sr c nonce target :
  stored_row row = Some sr → length nonce = AEAD_NONCE_SIZE → 0 ≤ target →
  stored_row (saved_row c nonce target row) = Some {| sr_draft_id := sr_draft_id sr; sr_ciphertext := c;
    sr_nonce := nonce; sr_handle := sr_handle sr; sr_revision := target |}.
Proof.
  intros Hst Hn Ht. pose proof (stored_row_inv _ _ Hst) as (Hsi & _ & _ & _ & _ & Hal).
  unfold draft_allowed in Hal. rewrite !andb_true_iff, !bool_decide_eq_true, Z.leb_le in Hal.
  destruct Hal as [[[H16 Hnl] H32] Hpos]. unfold stored_row in Hst |- *. cbn [saved_row dr_draft_id dr_nonce
    dr_keystore_provider dr_account_instance dr_save_revision dr_ciphertext].
  rewrite !(bool_decide_eq_true_2 _ H16), !(bool_decide_eq_true_2 _ H32) in *.
  rewrite (bool_decide_eq_true_2 _ Hnl) in Hst. rewrite (bool_decide_eq_true_2 _ Hn). cbn [negb] in *.
  destruct (provider_from_code _); [|done]. cbn [mbind option_bind] in *.
  rewrite (proj2 (Z.ltb_ge _ _) Hpos) in Hst. rewrite (proj2 (Z.ltb_ge _ _) Ht). by injection Hst as <-.
Qed.

(** C30. A save is a compare-and-swap: it succeeds only against the revision
    that is stored, and then stores the next one; when it fails, nothing has
    changed. Of two saves of the same revision at most one succeeds, whatever
    fails. *)
Theorem save_compare_and_swap ev d1 d2 w :
  d_revision d2 = d_revision d1 →
  wp (save ev d1) (λ w1 r1, match r1 with
    | Ok sv => saved ev d1 w sv w1 ∧ wp (save ev d2) (λ w2 r2, is_ok r2 = false ∧ w_tables w2 = w_tables w1) w1
    | Err _ => w_tables w1 = w_tables w
    end) w.
Proof.
  intros Hrev. eapply wp_mono; [apply wp_save|]. intros w1 [sv|e] [_ Hs]; [|done]. split; [done|].
  eapply wp_mono; [apply wp_save|]. intros w2 [sv2|e] [_ Hs2]; [|done]. exfalso.
  destruct Hs as (_ & _ & _ & row & sr & dek & c & nonce & _ & _ & _ & _ & _ & _ & _ & Ht).
  destruct Hs2 as (_ & _ & _ & row2 & ? & ? & ? & ? & Hrow2 & _ & _ & Hr2 & _).
  rewrite Ht in Hrow2. injection Hrow2 as <-. cbn in Hr2. lia.
Qed.

(** What was saved is what is loaded: after a save a load in which nothing
    fails yields the same draft with the saved text at the next revision. *)
Theorem save_load_roundtrip `{!AeadLaws} (I : K → Prop) ev draft w w' sv :
  keys_answer I → is_Some (from_utf8 (d_notes draft)) →
  save ev draft w = (w', Ok sv) → w_faults w' = [] → I (w_keys w') →
  ∃ w'', load_or_create ev w' = (w'', Ok {| d_draft_id := d_draft_id draft; d_revision := d_revision draft + 1;
                                            d_notes := d_notes draft |}) ∧ w_tables w'' = w_tables w'.
Proof.
  intros HI Hu Hrun Hf Hk. pose proof (proj1 (wp_run _ _ _) (wp_save ev draft w) _ _ Hrun) as [Hs Hsv].
  destruct Hsv as (Hb & _ & _ & row & sr & dek & c & nonce & Hrow & Hst & Hid & Hrv & He & Hc & Hn & Ht).
  set (row' := saved_row c nonce (d_revision draft + 1) row).
  set (sr' := {| sr_draft_id := sr_draft_id sr; sr_ciphertext := c; sr_nonce := nonce; sr_handle := sr_handle sr;
                 sr_revision := d_revision draft + 1 |}).
  pose proof (stored_row_inv _ _ Hst) as (Hsi & Hsr & _ & _ & _ & Hal).
  assert (Hst' : stored_row row' = Some sr').
  { apply stored_saved; [done|done|]. unfold draft_allowed in Hal.
    rewrite !andb_true_iff, Z.leb_le in Hal. lia. }
  destruct (load_succeeds I HI ev w' row' sr' dek (d_notes draft)) as (w'' & d & Hload & _ & _ & Ht' & _ & ->); try done.
  - rewrite Ht. destruct ev as [b|]; cbn in *; [|done]. unfold bound_ok in *. rewrite Hrow in Hb. exact Hb.
  - by rewrite Ht.
  - cbn. by rewrite Hs.
  - cbn. rewrite Hsi, Hid. by apply open_seal.
  - exists w''. split; [|done]. rewrite Hload. cbn. by rewrite Hsi, Hid.
Qed.
End Save.

(** ** A reserved draft *)

Section Reserved.
Context {K : Type} `{KeyProviderLaws K} `{AeadCipher} `{Primitives}.
Implicit Types w : World K.

(** The run failed and left tables and key store alone. *)
Definition refused {A} w (w' : World K) (r : result DraftError A) : Prop :=
  is_ok r = false ∧ w_tables w' = w_tables w ∧ w_keys w' = w_keys w.

Definition reserved (t : DraftTables) : Prop := t_evidence_table t = true ∧ is_Some (t_evidence t).

Lemma reserved_unbound t : reserved t → ¬ binding_ok None t.
Proof. intros [Ht [b Hb]]. cbn. unfold unbound_ok. rewrite Ht, Hb. done. Qed.

Lemma refused_transaction {A} (work : dm K A) w :
  reserved (w_tables w) → wp (d_transaction (_ ← require_evidence_access None; work)) (refused w) w.
Proof.
  intros Hr. apply wp_transaction; [done|]. intros fs. apply wp_bind.
  eapply wp_reads; [apply reads_access|done|]. intros fs' u Hb. by destruct (reserved_unbound _ Hr).
Qed.

Lemma refused_creating {A} (work : dm K A) w :
  reserved (w_tables w) → wp (transaction_creating_blank None work) (refused w) w.
Proof. intros Hr. apply wp_creating; [done|]. intros fs Hb. by destruct (reserved_unbound _ Hr). Qed.

Lemma refused_after_read {A B} (x : dm K A) (k : A → dm K B) w :
  reads x (λ _ _, True) → (∀ a fs, wp (k a) (refused w) (read_world w fs)) → wp (x ≫= k) (refused w) w.
Proof. intros Hx Hk. apply wp_bind. eapply wp_reads; [done|done|]. intros fs a _. apply Hk. Qed.

Lemma reads_exists : reads (K:=K) transition_table_exists (λ _ _, True).
Proof. eapply reads_mono; [apply reads_query|done]. Qed.

(** While the draft is reserved for destruction evidence, no operation of
    a repository that was not opened for the binding reads, writes or removes
    it: every one fails and leaves tables and keys as they are. *)
Theorem reserved_draft_is_guarded w draft sd intent marker :
  reserved (w_tables w) →
  wp (load_or_create None) (refused w) w ∧ wp (save None draft) (refused w) w ∧
  wp (draft_dek_handle None sd) (refused w) w ∧ wp (commit_discard_intent None sd) (refused w) w ∧
  wp (pending_discard None) (refused w) w ∧ wp (replace_with_blank None) (refused w) w ∧
  wp (remove_ciphertext_and_intent_create_blank None intent) (refused w) w ∧
  wp (prepared_finalization_marker None) (refused w) w ∧
  wp (replace_prepared_finalization_marker None marker) (refused w) w.
Proof.
  intros Hr. split_and!.
  - by apply refused_creating.
  - unfold save. cbn [andb]. rewrite (bool_decide_eq_false_2 (is_Some None)) by (by intros []). by apply refused_transaction.
  - by apply refused_transaction.
  - apply refused_after_read; [apply reads_exists|]. intros [] fs; [|by apply wp_fail].
    exact (refused_transaction _ (read_world w fs) Hr).
  - unfold pending_discard. apply wp_bind. eapply wp_reads; [apply reads_transaction, reads_access|done|].
    intros fs u Hb. by destruct (reserved_unbound _ Hr).
  - apply refused_after_read; [apply reads_exists|]. intros b fs. exact (refused_creating _ (read_world w fs) Hr).
  - apply refused_after_read; [apply reads_exists|]. intros [] fs; [|by apply wp_fail].
    exact (refused_creating _ (read_world w fs) Hr).
  - by apply refused_transaction.
  - apply refused_after_read; [apply reads_exists|]. intros [] fs; [|by apply wp_fail].
    exact (refused_transaction _ (read_world w fs) Hr).
Qed.

(** ** Reserving *)

Lemma wp_with_lock {A} (body : dm K A) (Q : World K → result DraftError A → Prop) w :
  Q w (Err DraftErr.LockHeld) → wp body (λ w' r, Q (set_locked w' false) r) (set_locked w true) →
  wp (with_draft_lock body) Q w.
Proof. unfold wp, with_draft_lock. intros HE HQ. destruct (w_locked w); [done|]. by destruct (body _). Qed.

Lemma wp_bind_draft ev draft source w :
  wp (bind_draft ev draft source) (λ w' r, match r with
    | Ok b => b = {| eb_draft_id := d_draft_id draft; eb_source := source |} ∧ bound_ok b (w_tables w')
    | Err _ => w_tables w' = w_tables w end) w.
Proof.
  apply wp_transaction; [done|]. intros fs.
  apply wp_bind. eapply wp_reads; [apply reads_access|done|]. intros fs1 u _.
  apply wp_bind. eapply wp_reads; [apply reads_job|done|]. intros fs2 u2 _.
  apply wp_bind, wp_query; [done|]. intros fs3 row _.
  apply wp_bind, wp_ok_or; [done|]. intros [i r] ->.
  case_bool_decide; [by apply wp_fail|]. apply wp_bind, wp_lift. destruct (_ <=? _); [|done].
  case_bool_decide; [by apply wp_fail|].
  apply wp_bind, wp_query; [done|]. intros fs4 o _. case_bool_decide; [by apply wp_fail|].
  apply wp_bind, wp_execute; [done|]. intros fs5 t [] Hins.
  apply wp_bind. eapply wp_reads; [apply reads_binding|done|]. intros fs6 b Hb.
  apply wp_ok_or; [done|]. intros b' ->. cbn in Hb. cbn.
  assert (He : t_evidence t = Some {| eb_draft_id := d_draft_id draft; eb_source := source |}).
  { unfold insert_evidence in Hins. destruct (t_evidence_table _); [|done]. cbn [negb] in Hins.
    repeat (case_match; try done). by injection Hins as <-. }
  split; [|done]. intros fs7. pose proof Hb as (_ & Hb' & _). rewrite He in Hb'. injection Hb' as <-. done.
Qed.

(** A reservation that succeeds binds the draft to the job it names: the
    job is there with the authorization and the preflight of the source, and
    the binding names the stored draft. A reservation that fails changes
    nothing but may leave a blank draft where there was none. *)
Theorem reserve_binds_existing_job source w :
  wp (reserve_evidence_draft None source) (λ w' r, match r with
    | Ok b => eb_source b = source ∧ bound_ok b (w_tables w')
    | Err _ => loaded (w_tables w) (w_tables w') end) w.
Proof.
  apply wp_with_lock; [by left|]. apply wp_bind.
  eapply wp_reads; [apply reads_transaction, reads_binding|by left|]. intros fs [b|] Hb; cbn.
  - case_bool_decide; [apply wp_ret|apply wp_fail]; [done|by left].
  - apply wp_bind. eapply wp_reads; [apply reads_pending|by left|]. intros fs1 i _.
    case_bool_decide; [apply wp_fail; by left|].
    apply wp_bind. eapply wp_reads; [apply reads_marker|by left|]. intros fs2 m _.
    case_bool_decide; [apply wp_fail; by left|].
    apply wp_bind. eapply wp_mono; [apply wp_load_or_create|]. intros w1 [d|e] Hl; [|left; apply Hl].
    destruct Hl as (_ & _ & Hl & _). destruct (negb _); [by apply wp_fail|].
    eapply wp_mono; [apply wp_bind_draft|]. intros w2 [b|e]; [by intros [-> ?]|]. intros ->. exact Hl.
Qed.
End Reserved.

(** ** Examples *)

Module Example.
Export ExampleCipher.

#[export] Instance primitives : Primitives := {
  object_hash := λ b, take 32 (b ++ repeat x00 32);
  random := λ i n, Some (repeat (byte_of (Z.of_nat i)) n);
}.

Lemma primitives_ok : primitives_answer.
Proof.
  split; [intros i n; exists (repeat (byte_of (Z.of_nat i)) n); by rewrite repeat_length|].
  intros k n m a Hm. by apply seal_total; [|eexists].
Qed.

Definition account_wf (k : InMemoryKeyProvider) : Prop := length (im_account_instance k) = 32%nat.

Lemma in_memory_answers : keys_answer account_wf.
Proof.
  split.
  - intros s k Hk. eexists _, (im_handle DraftDek k). by split_and!.
  - intros h s k Hk Hp He. exists k. split; [|done]. cbn in He |- *. unfold im_unwrap_secret, require_purpose, im_material.
    by rewrite Hp, He.
  - intros h k Hk Hp He. exists k. split; [|done]. cbn in He |- *. unfold im_unwrap_secret, require_purpose, im_material.
    by rewrite Hp, He.
  - intros h k Hk. by eexists _, (Ok tt); split_and!; [|left|].
  - intros h k Hk. by eexists _, _.
Qed.

(** A store with the key of a draft whose text is saved at revision 3. *)
Definition dek : secret := repeat x05 32.
Definition keys : InMemoryKeyProvider := (im_wrap_secret DraftDek dek (new_for_test (repeat x09 32))).1.

Definition row : DraftRow :=
  {| dr_draft_id := repeat x01 16; dr_ciphertext := [x68; x69] ++ repeat x00 16; dr_nonce := repeat x02 12;
     dr_keystore_provider := 1; dr_account_instance := repeat x09 32; dr_save_revision := 3 |}.

Definition tables : DraftTables :=
  {| t_draft := Some row; t_transition := None; t_discard_migration := true; t_evidence_table := true;
     t_evidence_migration := true; t_evidence := None; t_jobs_table := true;
     t_jobs := λ _ _, Some (repeat x03 32, repeat x04 32) |}.

Definition world (t : DraftTables) (fs : list bool) (k : InMemoryKeyProvider) : World InMemoryKeyProvider :=
  {| w_tables := t; w_faults := fs; w_keys := k; w_draws := 0; w_created := None; w_locked := false |}.

Definition source : EvidenceDraftSource :=
  {| es_organization_id := repeat x06 16; es_destruction_id := repeat x07 16;
     es_authorization_hash := repeat x03 32; es_preflight_hash := repeat x04 32 |}.

Definition bound_tables : DraftTables :=
  set_draft (Some row) (Some {| eb_draft_id := repeat x01 16; eb_source := source |}) tables.

Definition draft : DraftV := {| d_draft_id := repeat x01 16; d_revision := 3; d_notes := [x68; x6f] |}.
End Example.
Import Example.

Lemma save_compare_and_swap_witness :
  d_revision Example.draft = d_revision Example.draft ∧
  wp (save None Example.draft) (λ w1 r1, match r1 with
    | Ok sv => saved None Example.draft (Example.world Example.tables [] Example.keys) sv w1 ∧
               wp (save None Example.draft) (λ w2 r2, is_ok r2 = false ∧ w_tables w2 = w_tables w1) w1
    | Err _ => w_tables w1 = Example.tables
    end) (Example.world Example.tables [] Example.keys).
Proof. split; [done|]. by apply (save_compare_and_swap None Example.draft Example.draft). Defined.

Lemma save_load_roundtrip_witness :
  ∃ w'', load_or_create None (save None Example.draft (Example.world Example.tables [] Example.keys)).1
         = (w'', Ok {| d_draft_id := repeat x01 16; d_revision := 4; d_notes := [x68; x6f] |}) ∧
         t_draft (w_tables w'') ≠ Some Example.row.
Proof.
  destruct (save_load_roundtrip Example.account_wf None Example.draft (Example.world Example.tables [] Example.keys)
    (save None Example.draft (Example.world Example.tables [] Example.keys)).1
    {| sd_draft_id := repeat x01 16; sd_revision := 4 |}) as (w'' & Hl & Ht).
  - exact Example.in_memory_answers.
  - vm_compute. by eexists.
  - vm_compute. reflexivity.
  - vm_compute. reflexivity.
  - vm_compute. reflexivity.
  - exists w''. split; [exact Hl|]. rewrite Ht. vm_compute. discriminate.
Defined.

Lemma reserved_draft_is_guarded_witness :
  reserved Example.bound_tables ∧
  wp (load_or_create None) (refused (Example.world Example.bound_tables [] Example.keys))
     (Example.world Example.bound_tables [] Example.keys).
Proof.
  assert (Hr : reserved Example.bound_tables) by (split; [done|by eexists]). split; [exact Hr|].
  apply (reserved_draft_is_guarded (Example.world Example.bound_tables [] Example.keys) Example.draft
    {| sd_draft_id := []; sd_revision := 0 |} {| di_draft_id := []; di_revision := 0 |} None Hr).
Defined.

Lemma reserve_binds_existing_job_witness :
  (∃ b, (reserve_evidence_draft None Example.source
           (Example.world (set_draft None None Example.tables) [] Example.keys)).2 = Ok b) ∧
  wp (reserve_evidence_draft None Example.source) (λ w' r, match r with
    | Ok b => eb_source b = Example.source ∧ bound_ok b (w_tables w')
    | Err _ => loaded (set_draft None None Example.tables) (w_tables w') end)
    (Example.world (set_draft None None Example.tables) [] Example.keys).
Proof.
  split; [vm_compute; by eexists|].
  apply (reserve_binds_existing_job Example.source (Example.world (set_draft None None Example.tables) [] Example.keys)).
Defined.
