(* ===== verification/Discard.v ===== *)
(** * Discard: the service that destroys a draft ([discard.rs], [fault.rs])

    The order of the durable steps: the intent is written, the draft's key is
    deleted and its absence confirmed, then ciphertext and intent go and a
    blank draft comes in one transaction. Every entry needs a presence proof
    for this purpose and yields to a prepared finalization. *)

From S2P Require Import Prelude Types Utf8 Str CsvImport OperatorSession KeyStore Draft.
Import DraftErr(DraftError).

Inductive DiscardFaultPoint :=
| BeforeIntentCommit | AfterIntentCommit | AfterKeystoreDelete | AfterAbsenceConfirmation
| AfterDraftRemoval | BackupRestoreAfterKeyDeletion.

Inductive RestartState := OriginalDraftUnchanged | NewBlankDraft | PreparedFinalizationPending.

Inductive DiscardPhase := Editable | IntentDurable | KeyAbsent | DraftRemoved.

#[export] Instance DiscardFaultPoint_eq_dec : EqDecision DiscardFaultPoint.
Proof. solve_decision. Defined.
#[export] Instance RestartState_eq_dec : EqDecision RestartState.
Proof. solve_decision. Defined.

(** [ReauthPurpose::ALL]. *)
Definition ALL_PURPOSES : list ReauthPurpose :=
  [Finalize; DiscardDraft; RegistryStaleFinalize; PlaintextExport; AdminRootCeremony; RecoveryTest;
   HistoricalRegrant; PurposeDestruction; ClockSkewRelease; ArchiveProfileMigration;
   GoLivePostureDocumentation; ReaderKeyEscrowRecovery].

Definition require_fresh_proof (proof : OperatorSessionProof) (bound : ObjectHash) (now : PreexistingEffectiveNow)
    : result DraftError unit :=
  if bool_decide (binding_object_hash proof ≠ bound) then Err DraftErr.ReauthBindingMismatch else
  if is_valid_for proof DiscardDraft now then Ok tt else
  if existsb (λ p, is_valid_for proof p now) (filter (λ p, p ≠ DiscardDraft) ALL_PURPOSES)
  then Err DraftErr.ReauthPurposeMismatch else Err DraftErr.ReauthRequired.

Section Service.
Context {K : Type} `{KeyProvider K} `{AeadCipher} `{Primitives}.

(** The repository of the service, the binding it acts for and the time of the
    registry head. *)
Context (evidence : option EvidenceDraftBinding) (bound : ObjectHash) (now : PreexistingEffectiveNow).

Definition enter (proof : OperatorSessionProof) : dm K unit :=
  _ ← dm_lift (require_fresh_proof proof bound now);
  marker ← prepared_finalization_marker evidence;
  if bool_decide (is_Some marker) then fail DraftErr.PreparedFinalizationPresent else mret tt.

Definition commit_intent : dm K DiscardIntent :=
  draft ← load_or_create evidence;
  commit_discard_intent evidence {| sd_draft_id := d_draft_id draft; sd_revision := d_revision draft |}.

Definition delete_draft_dek (h : KeyHandle) : dm K unit := λ w,
  let '(k, r) := delete_key h (w_keys w) in
  (set_keys w k, match r with
                 | Ok _ | Err Key.NotFound => Ok tt
                 | Err e => Err (DraftErr.FromKey e)
                 end).

Definition intent_dek_handle (intent : DiscardIntent) : dm K KeyHandle :=
  draft_dek_handle evidence {| sd_draft_id := di_draft_id intent; sd_revision := di_revision intent |}.

Definition confirm_absence (h : KeyHandle) : dm K unit :=
  present ← on_keys (contains_key h);
  if (present : bool) then fail DraftErr.KeyDeletionNotConfirmed else mret tt.

Definition complete (intent : DiscardIntent) : dm K DiscardOutcome :=
  handle ← intent_dek_handle intent;
  _ ← delete_draft_dek handle;
  _ ← confirm_absence handle;
  remove_ciphertext_and_intent_create_blank evidence intent.

Definition begin_discard (proof : OperatorSessionProof) : dm K DiscardOutcome :=
  with_draft_lock (
    _ ← enter proof;
    intent ← commit_intent;
    complete intent).

Definition resume_discard (proof : OperatorSessionProof) : dm K DiscardOutcome :=
  with_draft_lock (
    _ ← enter proof;
    intent ← pending_discard evidence;
    intent ← dm_lift (ok_or DraftErr.NoPendingDiscard intent);
    complete intent).

(** The draft is gone for good exactly when its key is gone or does not open
    it; every other error stops. *)
Definition load_or_replace : dm K RestartState := λ w,
  match load_or_create evidence w with
  | (w, Ok draft) =>
      (w, Ok (if bool_decide (d_revision draft = 0) && bool_decide (d_notes draft = []) then NewBlankDraft
              else OriginalDraftUnchanged))
  | (w, Err (DraftErr.FromKey Key.NotFound)) | (w, Err (DraftErr.FromCrypto Crypto.AeadOpen)) =>
      (_ ← replace_with_blank evidence; mret NewBlankDraft) w
  | (w, Err other) => (w, Err other)
  end.

Definition resume_after_restart (proof : OperatorSessionProof) : dm K RestartState :=
  with_draft_lock (
    _ ← dm_lift (require_fresh_proof proof bound now);
    marker ← prepared_finalization_marker evidence;
    if bool_decide (is_Some marker) then mret PreparedFinalizationPending else
    intent ← pending_discard evidence;
    match intent with
    | Some intent => _ ← complete intent; mret NewBlankDraft
    | None => load_or_replace
    end).

Definition begin_discard_interrupted_at (proof : OperatorSessionProof) (point : DiscardFaultPoint) : dm K unit :=
  with_draft_lock (
    _ ← enter proof;
    if bool_decide (point = BeforeIntentCommit) then mret tt else
    intent ← commit_intent;
    if bool_decide (point = AfterIntentCommit) then mret tt else
    handle ← intent_dek_handle intent;
    _ ← delete_draft_dek handle;
    if bool_decide (point = AfterKeystoreDelete) then mret tt else
    _ ← confirm_absence handle;
    if bool_decide (point = AfterAbsenceConfirmation) || bool_decide (point = BackupRestoreAfterKeyDeletion)
    then mret tt else
    _ ← remove_ciphertext_and_intent_create_blank evidence intent;
    mret tt).
End Service.

(** ** Every interruption leaves one of the phases *)

Section Phases.
Context {K : Type} `{KeyProviderLaws K} `{AeadCipher} `{Primitives}.
Implicit Types w : World K.

(** The draft that is discarded: the one of the tables or, when there is none,
    the blank one that [load_or_create] puts there. *)
Definition draft_of (t t' : DraftTables) (row : DraftRow) : Prop :=
  loaded t t' ∧ t_draft t' = Some row.

(** The phases of a discard that started in [w]. Before the intent the draft
    is there with its key; after it the intent names the draft; once the key is
    absent the store does not hold it; at the end a blank draft with a key of
    its own is all there is, and an old key survives nowhere. *)
Definition in_phase (p : DiscardPhase) w w' : Prop :=
  match p with
  | Editable => loaded (w_tables w) (w_tables w') ∧
                (t_draft (w_tables w) ≠ None → same_entries (w_keys w) (w_keys w'))
  | IntentDurable => ∃ t row, draft_of (w_tables w) t row ∧
      w_tables w' = set_transition (Some (DiscardRow (dr_draft_id row) (dr_save_revision row))) t
  | KeyAbsent => ∃ t row sr, draft_of (w_tables w) t row ∧ stored_row row = Some sr ∧
      w_tables w' = set_transition (Some (DiscardRow (dr_draft_id row) (dr_save_revision row))) t ∧
      entries (w_keys w') (sr_handle sr) = None
  | DraftRemoved => ∃ t row sr blank bsr, draft_of (w_tables w) t row ∧ stored_row row = Some sr ∧
      stored_row blank = Some bsr ∧ w_tables w' = set_draft (Some blank) None (set_transition None t) ∧
      is_blank (w_keys w') blank ∧
      (sr_handle sr ≠ sr_handle bsr → entries (w_keys w') (sr_handle sr) = None)
  end.

Lemma fresh_proof_local proof bound now :
  match require_fresh_proof proof bound now with
  | Ok _ => require_fresh_proof proof bound now = Ok tt | Err e => local_error e end.
Proof.
  unfold require_fresh_proof. destruct (bool_decide _); [done|]. destruct (is_valid_for _ _ _); [done|].
  by destruct (existsb _ _).
Qed.

Lemma reads_enter evidence bound now proof :
  reads (K:=K) (enter evidence bound now proof) (λ t _, require_fresh_proof proof bound now = Ok tt ∧
    binding_ok evidence t ∧ (if t_discard_migration t then select_marker t = Ok None else True)).
Proof.
  unfold enter. eapply reads_bind.
  - apply (reads_lift _ (λ _ _, require_fresh_proof proof bound now = Ok tt)). intros _. apply fresh_proof_local.
  - intros u. eapply reads_bind; [apply reads_marker| |].
    + intros m. instantiate (1 := λ m _ _, m = None). destruct m; [by apply reads_fail|by apply reads_ret].
    + cbn. intros t m v Hm ->. instantiate (1 := λ _ t _, binding_ok evidence t ∧ (if t_discard_migration t then select_marker t = Ok None else True)).
      destruct Hm as [? Hm]. split; [done|]. by destruct (t_discard_migration t).
  - done.
Qed.

Lemma wp_commit_intent evidence w :
  wp (commit_intent evidence) (λ w' r, match r with
    | Ok i => ∃ t row, draft_of (w_tables w) t row ∧ draft_allowed row = true ∧ t_discard_migration t = true ∧
        i = {| di_draft_id := dr_draft_id row; di_revision := dr_save_revision row |} ∧
        w_tables w' = set_transition (Some (DiscardRow (dr_draft_id row) (dr_save_revision row))) t
    | Err _ => in_phase Editable w w'
    end ∧ w_locked w' = w_locked w) w.
Proof.
  unfold commit_intent. apply wp_bind. eapply wp_mono; [apply wp_load_or_create|].
  intros w1 [d|e].
  - intros (Hev & Hlk & Hld & Hk & row & Hrow & Hid & Hrv & Hal).
    eapply wp_mono; [apply wp_commit_discard_intent|]. intros w2 [i|e].
    + intros (_ & Hm & _ & row' & fs & Hrow' & _ & _ & _ & -> & ->). rewrite Hrow in Hrow'. injection Hrow' as <-.
      split; [|done]. exists (w_tables w1), row. by split_and!.
    + intros (Ht & Hl & Hs). split; [|congruence]. split; [by rewrite Ht|].
      intros Hd g. rewrite Hs. by apply Hk.
  - intros (Ht & Hl & Hk). split; [|done]. split; [left; done|done].
Qed.

Lemma wp_delete_dek h w :
  wp (delete_draft_dek h) (λ w' r, ∃ k, w' = set_keys w k ∧ (r = Ok tt → entries k h = None)) w.
Proof.
  unfold wp, delete_draft_dek. destruct (delete_key h (w_keys w)) as [k r] eqn:E.
  apply delete_law in E as (_ & Hr & _). cbn. exists k. split; [done|].
  destruct r as [[]|[]]; first [by intros; apply Hr; auto|done].
Qed.

Lemma wp_confirm_absence h w :
  wp (confirm_absence h) (λ w' r, ∃ k, w' = set_keys w k ∧ same_entries (w_keys w) k ∧
    (r = Ok tt → entries k h = None)) w.
Proof.
  unfold confirm_absence. apply wp_bind, wp_on_keys.
  - intros k e [Hs _]%contains_law. by exists k.
  - intros k b [Hs Hb]%contains_law. specialize (Hb _ eq_refl). destruct b.
    + apply wp_fail. by exists k.
    + apply wp_ret. exists k. split_and!; [done..|]. intros _. rewrite Hs. symmetry in Hb.
      apply bool_decide_eq_false in Hb. by apply eq_None_not_Some.
Qed.

(** The completion of a durable intent ends in the same phase or at the end. *)
Lemma wp_complete evidence i w t row :
  t_draft t = Some row → i = {| di_draft_id := dr_draft_id row; di_revision := dr_save_revision row |} →
  w_tables w = set_transition (Some (DiscardRow (dr_draft_id row) (dr_save_revision row))) t →
  wp (complete evidence i) (λ w' r, match r with
    | Ok out => do_discarded out = dr_draft_id row ∧
        ∃ sr blank bsr, stored_row row = Some sr ∧ stored_row blank = Some bsr ∧
          dr_draft_id blank = sd_draft_id (do_blank out) ∧
          w_tables w' = set_draft (Some blank) None (set_transition None t) ∧ is_blank (w_keys w') blank ∧
          (sr_handle sr ≠ sr_handle bsr → entries (w_keys w') (sr_handle sr) = None)
    | Err _ => w_tables w' = w_tables w
    end ∧ w_locked w' = w_locked w) w.
Proof.
  intros Hrow -> Hw. unfold complete, intent_dek_handle.
  apply wp_bind. eapply wp_reads; [apply reads_dek_handle|done|].
  intros fs h (row' & sr & Hr' & Hst & _ & ->). rewrite Hw in Hr'. cbn in Hr'. rewrite Hrow in Hr'. injection Hr' as <-.
  apply wp_bind. eapply wp_mono; [apply wp_delete_dek|]. intros w1 [[]|e] (k & -> & Hk); [|done].
  apply wp_bind. eapply wp_mono; [apply wp_confirm_absence|]. intros w2 [[]|e] (k2 & -> & _ & Hk2); [|done].
  specialize (Hk2 eq_refl). eapply wp_mono; [apply wp_remove|]. intros w3 [out|e]; [|done].
  intros (old & _ & _ & Hout & Hrv & Hlk & blank & Ht & Hid & Hbl & Hfr). cbn in *.
  split; [|done]. split; [done|]. pose proof Hbl as (bsr & dek & Hbs & _).
  exists sr, blank, bsr. split_and!; [done|done|done| |done|].
  - rewrite Ht, Hw. done.
  - intros Hne. rewrite (Hfr bsr) by done. done.
Qed.

(** C29. Whatever statement fails and whatever the key store answers, a discard
    ends in one of its phases: when it succeeds, the draft and its key are gone
    and a blank draft with a key of its own is all there is; when it fails, the
    draft is there with its key, or the durable intent names it. The lock is
    released. *)
Theorem begin_discard_phases evidence bound now proof w :
  wp (begin_discard evidence bound now proof) (λ w' r, match r with
    | Ok out => in_phase DraftRemoved w w' ∧
                ∃ t row, draft_of (w_tables w) t row ∧ do_discarded out = dr_draft_id row
    | Err _ => in_phase Editable w w' ∨ in_phase IntentDurable w w'
    end ∧ w_locked w' = w_locked w) w.
Proof.
  destruct (w_locked w) eqn:El; [by unfold wp, begin_discard, with_draft_lock; rewrite El; cbn; split; [left; split; [left|]|]|].
  apply wp_with_lock; [by split; [left; split; [left|]|]|].
  apply wp_bind. eapply wp_reads; [apply reads_enter|by split; [left; split; [left|]|]|]. intros fs u Hent.
  apply wp_bind. eapply wp_mono; [apply wp_commit_intent|]. intros w1 [i|e] [Hw1 Hl1]; [|split; [left; exact Hw1|done]].
  destruct Hw1 as (t & row & Hd & Hal & _ & -> & Ht).
  eapply wp_mono; [eapply wp_complete; [apply Hd|done|done]|]. intros w2 [out|e] [Hw2 Hl2].
  - destruct Hw2 as (Hout & sr & blank & bsr & Hst & Hb & _ & Ht2 & Hbl & Hk). split; [|done].
    split; [|eauto]. exists t, row, sr, blank, bsr. by split_and!.
  - split; [|done]. right. exists t, row. split; [done|]. cbn. by rewrite Hw2.
Qed.

(** The phase each interruption point names. *)
Definition phase_of (p : DiscardFaultPoint) : DiscardPhase :=
  match p with
  | BeforeIntentCommit => Editable
  | AfterIntentCommit => IntentDurable
  | AfterKeystoreDelete | AfterAbsenceConfirmation | BackupRestoreAfterKeyDeletion => KeyAbsent
  | AfterDraftRemoval => DraftRemoved
  end.

(** A discard that is interrupted at a point has reached the phase of that
    point, with nothing of the next durable step done. *)
Theorem interrupted_discard_phase evidence bound now proof point w :
  wp (begin_discard_interrupted_at evidence bound now proof point) (λ w' r, r = Ok tt → in_phase (phase_of point) w w') w.
Proof.
  apply wp_with_lock; [done|]. apply wp_bind. eapply wp_reads; [apply reads_enter|done|]. intros fs u Hent.
  case_bool_decide as H1'; [subst; apply wp_ret; intros _; by split; [left|]|].
  apply wp_bind. eapply wp_mono; [apply wp_commit_intent|]. intros w1 [i|e] [Hw1 Hl1]; [|done].
  destruct Hw1 as (t & row & Hd & Hal & _ & -> & Ht). cbn in Hd.
  case_bool_decide as H2'; [subst; apply wp_ret; intros _; by exists t, row|].
  apply wp_bind. unfold intent_dek_handle. eapply wp_reads; [apply reads_dek_handle|done|].
  intros fs' h (row' & sr & Hr' & Hst & _ & ->). rewrite Ht in Hr'. cbn in Hr'.
  destruct Hd as [Hld Hrow]. rewrite Hrow in Hr'. injection Hr' as <-.
  apply wp_bind. eapply wp_mono; [apply wp_delete_dek|]. intros w2 [[]|e] (k & -> & Hk); [|done].
  specialize (Hk eq_refl).
  case_bool_decide as H3'; [subst; apply wp_ret; intros _; by exists t, row, sr|].
  apply wp_bind. eapply wp_mono; [apply wp_confirm_absence|]. intros w3 [[]|e] (k' & -> & _ & Hk'); [|done].
  specialize (Hk' eq_refl).
  case_bool_decide as H4'; [subst; apply wp_ret; intros _; by exists t, row, sr|].
  case_bool_decide as H5'; [subst; apply wp_ret; intros _; by exists t, row, sr|]. cbn [orb].
  apply wp_bind. eapply wp_mono; [apply wp_remove|]. intros w4 [out|e]; [|done].
  intros (old & _ & _ & _ & _ & _ & blank & Ht4 & _ & Hbl & Hfr). apply wp_ret. intros _.
  destruct point; try done. pose proof Hbl as (bsr & dek & Hb & _).
  exists t, row, sr, blank, bsr. split_and!; [by split|done|done|by cbn; rewrite Ht4; cbn; rewrite Ht|done|].
  intros Hne. cbn. by rewrite (Hfr bsr).
Qed.

(** ** A prepared finalization comes first *)

(** The tables and the keys are as they were. *)
Definition untouched w w' : Prop := w_tables w' = w_tables w ∧ w_keys w' = w_keys w ∧ w_locked w' = w_locked w.

(** While the marker of a prepared finalization lies in the transition
    slot, no entry of the service writes a table or calls the key store: a new
    discard and a resumed one fail, and a restart reports the finalization or
    fails. *)
Theorem finalization_beats_discard evidence bound now proof w i r m :
  t_discard_migration (w_tables w) = true → t_transition (w_tables w) = Some (FinalizationRow i r m) →
  wp (begin_discard evidence bound now proof) (λ w' r, untouched w w' ∧ is_ok r = false) w ∧
  wp (resume_discard evidence bound now proof) (λ w' r, untouched w w' ∧ is_ok r = false) w ∧
  wp (resume_after_restart evidence bound now proof)
     (λ w' r, untouched w w' ∧ ∀ s, r = Ok s → s = PreparedFinalizationPending) w.
Proof.
  intros Hm Ht. assert (Hs : select_marker (w_tables w) = Ok (Some m)).
  { unfold select_marker, select_transition. by rewrite Hm, Ht. }
  split_and!; (destruct (w_locked w) eqn:El;
    [by unfold wp, begin_discard, resume_discard, resume_after_restart, with_draft_lock; rewrite El|]);
    (apply wp_with_lock; [done|]); apply wp_bind.
  - eapply wp_reads; [apply reads_enter|done|]. intros fs u (_ & _ & Hn). cbn in Hn. rewrite Hm in Hn. congruence.
  - eapply wp_reads; [apply reads_enter|done|]. intros fs u (_ & _ & Hn). cbn in Hn. rewrite Hm in Hn. congruence.
  - apply wp_lift. case_match; [|done]. apply wp_bind. eapply wp_reads; [apply reads_marker|done|].
    intros fs o (_ & Ho). cbn in Ho. rewrite Hm, Hs in Ho. injection Ho as <-.
    cbn. apply wp_ret. split; [done|]. by intros s [= <-].
Qed.

(** ** A draft that opens is not destroyed by a restart *)

(** The draft of the tables opens: its key is in the store and decrypts it to
    a text. *)
Definition openable (k : K) (row : DraftRow) (notes : str) : Prop :=
  ∃ sr dek, stored_row row = Some sr ∧ entries k (sr_handle sr) = Some dek ∧
    aead_open dek (sr_nonce sr) (sr_ciphertext sr) (associated_data (sr_draft_id sr) (sr_revision sr)) = Ok notes ∧
    is_Some (from_utf8 notes).

(** The two errors after which the draft is replaced. *)
Definition unopenable (e : DraftError) : bool :=
  match e with DraftErr.FromKey Key.NotFound | DraftErr.FromCrypto Crypto.AeadOpen => true | _ => false end.

Lemma wp_load_openable evidence row notes w :
  t_draft (w_tables w) = Some row → openable (w_keys w) row notes →
  wp (load_or_create evidence) (λ w' r, kept w w' ∧ match r with
    | Ok d => d = {| d_draft_id := dr_draft_id row; d_revision := dr_save_revision row; d_notes := notes |}
    | Err e => unopenable e = false end) w.
Proof.
  intros Hrow (sr & dek & Hst & Hdek & Hop & Hu).
  assert (HL : ∀ e, local_error e → unopenable e = false) by (by intros []).
  assert (HK : ∀ w' fs k e, kept w w' → keys_after w' k → w_created w' = None →
    unopenable e = false → kept w (undone w w' fs k) ∧ unopenable e = false).
  { intros w' fs k e (? & ? & ?) Hk Hc He. unfold keys_after in Hk. rewrite Hc in Hk. subst k. by repeat split. }
  apply wp_creating; [by intros fs e He%HL|]. intros fs Hev. apply wp_bind.
  eapply wp_reads; [apply reads_row|intros fs' e He%HL; split; [|done]; intros ??? Hk [?%HL| [= <-]]; by apply HK|].
  intros fs' [sr'|]; cbn; [|congruence]. intros (row' & Hr' & Hst'). rewrite Hrow in Hr'. injection Hr' as <-.
  rewrite Hst in Hst'. injection Hst' as <-.
  unfold load_row. apply wp_bind, wp_on_keys.
  - cbn. intros k e (Hs & _ & Hn)%unwrap_law. split; [|done]. intros fs2 e2 k2 Hk2 He2.
    apply HK; [by repeat split|done|done|]. destruct He2 as [?%HL|[= <-]]; [done|].
    destruct e; try done. rewrite Hn in Hdek; done.
  - cbn. intros k dek' (Hs & Hd & _)%unwrap_law. specialize (Hd _ eq_refl). rewrite Hdek in Hd. injection Hd as <-.
    rewrite Hop. apply wp_bind, wp_lift. destruct Hu as [cs Hcs]. cbn. rewrite Hcs. cbn.
    apply wp_bind, wp_lift. apply wp_ret. apply stored_row_inv in Hst as (Hid & Hrv & _). split.
    + intros fs2 e k2 Hk2 [He%HL|He]; [|done]. apply HK; [by repeat split|done|done|done].
    + intros d fs2 [= <-]. split; [by repeat split|]. by rewrite Hid, Hrv.
Qed.

Lemma keeps_openable evidence bound now proof row notes w :
  t_transition (w_tables w) = None → t_draft (w_tables w) = Some row → openable (w_keys w) row notes →
  wp (resume_after_restart evidence bound now proof) (λ w' r, kept w w' ∧
    ∀ s, r = Ok s → s = if bool_decide (dr_save_revision row = 0) && bool_decide (notes = [])
                        then NewBlankDraft else OriginalDraftUnchanged) w.
Proof.
  intros Htr Hrow Hop. destruct (w_locked w) eqn:El;
    [by unfold wp, resume_after_restart, with_draft_lock; rewrite El; repeat split|].
  assert (HT : ∀ w', kept (set_locked w true) w' → kept w (set_locked w' false)) by (by intros w' (? & ? & ?); rewrite <- El).
  apply wp_with_lock; [by repeat split|]. apply wp_bind, wp_lift. case_match; [|by split; [apply HT|]].
  apply wp_bind. eapply wp_reads; [apply reads_marker|by intros; split; [apply HT|]|].
  intros fs m [_ Hm]. cbn in Hm. assert (m = None) as ->.
  { unfold select_marker, select_transition in Hm. destruct (t_discard_migration _); [|done].
    rewrite Htr in Hm. by injection Hm. }
  cbn. apply wp_bind. eapply wp_reads; [apply reads_pending|by intros; split; [apply HT|]|].
  intros fs2 o [_ Ho]. cbn in Ho. destruct o as [i|]; [destruct Ho as (_ & Ho & _); congruence|].
  unfold wp, load_or_replace. pose proof (wp_load_openable evidence row notes (read_world (read_world (set_locked w true) fs) fs2) Hrow Hop) as HL.
  unfold wp in HL. destruct (load_or_create _ _) as [w' [d|e]]; cbn in HL; destruct HL as [Hk HL]; cbn.
  - subst d. split; [by apply HT|]. cbn. by intros s [= <-].
  - destruct e as [| | | | | | | | | | | | | | | |[]|[]|]; cbn in *; try done; by split; [apply HT|].
Qed.

(** A restart never destroys a draft that opens: with no transition in the
    slot and a key in the store that opens the draft, the tables and the store
    are the same after a restart, whatever fails, and a success reports the
    draft as unchanged, or as blank when nothing was ever saved in it. *)
Theorem restart_keeps_openable_draft evidence bound now proof row notes w :
  t_transition (w_tables w) = None → t_draft (w_tables w) = Some row → openable (w_keys w) row notes →
  wp (resume_after_restart evidence bound now proof) (λ w' r, kept w w' ∧
    ∀ s, r = Ok s → s = if bool_decide (dr_save_revision row = 0) && bool_decide (notes = [])
                        then NewBlankDraft else OriginalDraftUnchanged) w.
Proof. apply keeps_openable. Qed.
End Phases.

(** ** A durable intent is completed *)

Section Progress.
Context {K : Type} `{KeyProviderLaws K} `{AeadCipher} `{Primitives}.
Context (I : K → Prop) (HI : keys_answer I) (HP : primitives_answer).
Implicit Types w : World K.

(** The stored draft is one that [read_row] accepts, at a 64-bit revision. *)
Definition tables_wf (t : DraftTables) : Prop :=
  ∀ row, t_draft t = Some row → is_Some (stored_row row) ∧ dr_save_revision row ≤ i64_max.

Lemma binding_loaded ev t t' : loaded t t' → binding_ok ev t → binding_ok ev t'.
Proof.
  intros [->|(Hn & row & _ & _ & ->)]; [done|]. destruct ev as [b|]; [|done].
  intros (_ & _ & Hd & _). by rewrite Hn in Hd.
Qed.

Lemma wf_loaded t t' : loaded t t' → tables_wf t → tables_wf t'.
Proof.
  intros [->|(Hn & row & Hs & Hz & ->)]; [done|]. intros _ r [= <-]. by rewrite Hz.
Qed.

Lemma migration_loaded t t' : loaded t t' → t_discard_migration t' = t_discard_migration t.
Proof. by intros [->|(_ & row & _ & _ & ->)]. Qed.

Lemma delete_dek_succeeds h w : succeeds I (delete_draft_dek h) w (λ w' _, ∃ k, w' = set_keys w k ∧ entries k h = None).
Proof.
  intros Hf Hk. destruct (ka_delete I HI h _ Hk) as (k & r & Hd & Hr & Hk').
  exists (set_keys w k), tt. unfold delete_draft_dek. rewrite Hd. pose proof (delete_law _ _ _ _ Hd) as (_ & Hn & _).
  split_and!; [by destruct Hr as [-> | ->]|done|done|]. exists k. auto.
Qed.

Lemma confirm_succeeds h w : entries (w_keys w) h = None → succeeds I (confirm_absence h) w (λ w' _, ∃ k, w' = set_keys w k).
Proof.
  intros He Hf Hk. destruct (ka_contains I HI h _ Hk) as (k & b & Hc & Hk').
  pose proof (contains_law _ _ _ _ Hc) as [_ Hb]. specialize (Hb _ eq_refl).
  rewrite He, bool_decide_eq_false_2 in Hb by (by intros []). subst b.
  exists (set_keys w k), tt. split_and!; [|done|done|eauto].
  unfold confirm_absence. rewrite (bind_run _ _ w (set_keys w k) false); [done|]. unfold on_keys. by rewrite Hc.
Qed.

Lemma complete_succeeds evidence w t row sr :
  binding_ok evidence t → t_discard_migration t = true → t_draft t = Some row → stored_row row = Some sr →
  dr_save_revision row ≤ i64_max →
  w_tables w = set_transition (Some (DiscardRow (dr_draft_id row) (dr_save_revision row))) t →
  succeeds I (complete evidence {| di_draft_id := dr_draft_id row; di_revision := dr_save_revision row |}) w (λ _ _, True).
Proof.
  intros Hb Hm Hrow Hst Hr Hw. pose proof (stored_row_inv _ _ Hst) as (Hid & _). unfold complete, intent_dek_handle.
  eapply succeeds_bind; [eapply dek_handle_succeeds; rewrite ?Hw; [by destruct evidence|done|done|done]|].
  intros ? ? [-> ->].
  eapply succeeds_bind; [apply delete_dek_succeeds|]. intros w1 ? (k & -> & Hk).
  eapply succeeds_bind; [by apply confirm_succeeds|]. intros w2 ? (k' & ->).
  eapply remove_succeeds; try done; cbn; rewrite Hw; [by destruct evidence|done..].
Qed.

Lemma lock_succeeds {A} (body : dm K A) w (P Q : World K → A → Prop) :
  w_locked w = false → succeeds I body (set_locked w true) P → (∀ w' a, P w' a → Q (set_locked w' false) a) →
  succeeds I (with_draft_lock body) w Q.
Proof.
  intros Hl Hb HQ Hf Hk. destruct (Hb Hf Hk) as (w' & a & Hr & ? & ? & ?).
  exists (set_locked w' false), a. unfold with_draft_lock. rewrite Hl, Hr. split_and!; auto.
Qed.

Lemma restart_completes evidence bound now proof w0 w :
  in_phase IntentDurable w0 w ∨ in_phase KeyAbsent w0 w →
  binding_ok evidence (w_tables w0) → t_discard_migration (w_tables w0) = true → tables_wf (w_tables w0) →
  require_fresh_proof proof bound now = Ok tt → w_locked w = false → w_faults w = [] → I (w_keys w) →
  ∃ w', resume_after_restart evidence bound now proof w = (w', Ok NewBlankDraft) ∧ in_phase DraftRemoved w0 w' ∧
        w_locked w' = false ∧ w_faults w' = [] ∧ I (w_keys w').
Proof.
  intros Hph Hb Hm Hwf Hproof Hl Hf Hk.
  assert (∃ t row, draft_of (w_tables w0) t row ∧
    w_tables w = set_transition (Some (DiscardRow (dr_draft_id row) (dr_save_revision row))) t) as (t & row & [Hld Hrow] & Hw).
  { destruct Hph as [?|(t & row & sr & ? & _ & ? & _)]; [done|by exists t, row]. }
  assert (Hbt : binding_ok evidence t) by (by eapply binding_loaded).
  assert (Hmt : t_discard_migration t = true) by (by rewrite (migration_loaded _ _ Hld)).
  destruct (wf_loaded _ _ Hld Hwf row Hrow) as [[sr Hst] Hr].
  pose proof (stored_row_inv _ _ Hst) as (_ & _ & _ & _ & _ & Hal).
  unfold draft_allowed in Hal. rewrite !andb_true_iff, !bool_decide_eq_true, Z.leb_le in Hal.
  destruct Hal as [[[Hid16 _] _] Hpos].
  set (P := λ (w' : World K) (a : RestartState), a = NewBlankDraft ∧ in_phase DraftRemoved w0 w').
  assert (HS : succeeds I (resume_after_restart evidence bound now proof) w (λ w' a, P w' a ∧ w_locked w' = false)).
  { eapply (lock_succeeds _ _ P); [done| |by intros w' a HPa; split].
    eapply (succeeds_bind _ _ _ _ (λ w' _, w' = set_locked w true)); [by eapply succeeds_lift|]. intros ? ? ->.
    eapply succeeds_bind; [eapply (marker_succeeds _ _ _ None); cbn; rewrite Hw; [by destruct evidence|done|]|].
    { unfold select_marker, select_transition. cbn. by rewrite Hmt. }
    intros ? ? [-> ->]. cbn.
    eapply succeeds_bind; [eapply pending_succeeds; cbn; [rewrite Hw; by destruct evidence|by rewrite Hw|by rewrite Hw|done|done]|].
    intros ? ? [-> ->]. eapply succeeds_bind; [|intros w1 out Ho; apply succeeds_ret; split; [done|exact Ho]].
    eapply succeeds_wp; [by eapply complete_succeeds|by eapply wp_complete|].
    intros w1 out _ [(_ & sr' & blank & bsr & ? & ? & _ & ? & ? & ?) _].
    exists t, row, sr', blank, bsr. by split_and!. }
  destruct (HS Hf Hk) as (w' & a & Hrun & Hf' & Hk' & [-> HPw] & Hl'). by exists w'.
Qed.
(** Once the intent is durable, a restart in which nothing fails completes
    the discard, from the phase [IntentDurable] and from [KeyAbsent] alike: it
    reports a blank draft, and the draft and its key are gone. *)
Theorem restart_completes_discard evidence bound now proof w0 w :
  in_phase IntentDurable w0 w ∨ in_phase KeyAbsent w0 w →
  binding_ok evidence (w_tables w0) → t_discard_migration (w_tables w0) = true → tables_wf (w_tables w0) →
  require_fresh_proof proof bound now = Ok tt → w_locked w = false → w_faults w = [] → I (w_keys w) →
  ∃ w', resume_after_restart evidence bound now proof w = (w', Ok NewBlankDraft) ∧ in_phase DraftRemoved w0 w' ∧
        w_locked w' = false.
Proof.
  intros. destruct (restart_completes evidence bound now proof w0 w) as (w' & ? & ? & ? & _); try done. by exists w'.
Qed.

(** A blank draft is an openable one. *)
Lemma blank_openable `{!AeadLaws} k row : is_blank k row → openable k row [] ∧ dr_save_revision row = 0.
Proof.
  intros (sr & dek & Hst & Hz & He & Hs). pose proof (stored_row_inv _ _ Hst) as (_ & Hr & _). split; [|congruence].
  exists sr, dek. rewrite Hz. split_and!; [done|done|by apply open_seal|by eexists].
Qed.

(** A restart that finds an openable draft and no transition succeeds. *)
Lemma restart_openable_succeeds bound now proof w row notes :
  binding_ok None (w_tables w) → t_discard_migration (w_tables w) = true → t_transition (w_tables w) = None →
  t_draft (w_tables w) = Some row → openable (w_keys w) row notes →
  require_fresh_proof proof bound now = Ok tt → w_locked w = false →
  succeeds I (resume_after_restart None bound now proof) w (λ _ _, True).
Proof.
  intros Hb Hm Ht Hrow (sr & dek & Hst & He & Ho & Hu) Hproof Hl.
  eapply (lock_succeeds _ _ (λ _ _, True)); [done| |done].
  eapply (succeeds_bind _ _ _ _ (λ w' _, w' = set_locked w true)); [by eapply succeeds_lift|]. intros ? ? ->.
  eapply succeeds_bind; [eapply (marker_succeeds _ _ _ None); [done|done|]|].
  { unfold select_marker, select_transition. cbn. by rewrite Hm, Ht. }
  intros ? ? [-> ->]. cbn. eapply succeeds_bind; [by apply no_pending_succeeds|]. intros ? ? [-> ->].
  intros Hf Hk. destruct (load_succeeds I HI None (set_locked w true) row sr dek notes) as (w' & d & Hrun & ? & ? & _); try done.
  unfold load_or_replace. rewrite Hrun. by eexists _, _.
Qed.

(** A second restart after a completed discard changes nothing and reports
    the same. *)
Theorem second_restart_is_noop `{!AeadLaws} bound now proof w0 w :
  in_phase IntentDurable w0 w ∨ in_phase KeyAbsent w0 w →
  binding_ok None (w_tables w0) → t_discard_migration (w_tables w0) = true → tables_wf (w_tables w0) →
  require_fresh_proof proof bound now = Ok tt → w_locked w = false → w_faults w = [] → I (w_keys w) →
  ∃ w' w'', resume_after_restart None bound now proof w = (w', Ok NewBlankDraft) ∧
            resume_after_restart None bound now proof w' = (w'', Ok NewBlankDraft) ∧ kept w' w''.
Proof.
  intros Hph Hb Hm Hwf Hproof Hl Hf Hk.
  destruct (restart_completes None bound now proof w0 w) as (w1 & Hr1 & Hrm & Hl1 & Hf1 & Hk1); try done.
  destruct Hrm as (t & row & sr & blank & bsr & [Hld _] & _ & _ & Ht1 & Hbl & _).
  pose proof (binding_loaded None _ _ Hld Hb) as Hbt. cbn in Hbt. unfold unbound_ok in Hbt.
  destruct (blank_openable _ _ Hbl) as [Hop Hz].
  assert (HS : succeeds I (resume_after_restart None bound now proof) w1 (λ w' s, kept w1 w' ∧ s = NewBlankDraft)).
  { eapply succeeds_wp; [eapply (restart_openable_succeeds bound now proof w1 blank []); try done|
      apply (keeps_openable None bound now proof blank [] w1); [by rewrite Ht1|by rewrite Ht1|done]|].
    - rewrite Ht1. cbn. unfold unbound_ok. cbn. by destruct (t_evidence_table t).
    - rewrite Ht1. cbn. by rewrite (migration_loaded _ _ Hld).
    - by rewrite Ht1.
    - by rewrite Ht1.
    - intros w' s _ [Hkp Hs]. split; [done|]. rewrite (Hs _ eq_refl), Hz. done. }
  destruct (HS Hf1 Hk1) as (w2 & s & Hr2 & _ & _ & Hkp & ->). by exists w1, w2.
Qed.

(** A draft whose key is gone, as after the restore of a backup, is
    replaced by a blank one with a key of its own. *)
Theorem restart_replaces_lost_draft bound now proof w row sr :
  binding_ok None (w_tables w) → t_discard_migration (w_tables w) = true → t_transition (w_tables w) = None →
  t_draft (w_tables w) = Some row → stored_row row = Some sr → entries (w_keys w) (sr_handle sr) = None →
  require_fresh_proof proof bound now = Ok tt → w_locked w = false → w_faults w = [] → I (w_keys w) →
  ∃ w' blank, resume_after_restart None bound now proof w = (w', Ok NewBlankDraft) ∧
    w_tables w' = set_transition None (set_draft (Some blank) None (w_tables w)) ∧ is_blank (w_keys w') blank.
Proof.
  intros Hb Hm Ht Hrow Hst He Hproof Hl Hf Hk.
  set (Q := λ (w' : World K) (s : RestartState), s = NewBlankDraft ∧ ∃ blank,
    w_tables w' = set_transition None (set_draft (Some blank) None (w_tables w)) ∧ is_blank (w_keys w') blank).
  assert (HS : succeeds I (resume_after_restart None bound now proof) w Q).
  { eapply (lock_succeeds _ _ Q); [done| |done].
    eapply (succeeds_bind _ _ _ _ (λ w' _, w' = set_locked w true)); [by eapply succeeds_lift|]. intros ? ? ->.
    eapply succeeds_bind; [eapply (marker_succeeds _ _ _ None); [done|done|]|].
    { unfold select_marker, select_transition. cbn. by rewrite Hm, Ht. }
    intros ? ? [-> ->]. cbn. eapply succeeds_bind; [by apply no_pending_succeeds|]. intros ? ? [-> ->].
    intros Hf' Hk'. destruct (load_missing I HI None (set_locked w true) row sr) as (w1 & Hrun & Hf1 & Hk1 & Hkp); try done.
    destruct Hkp as (Ht1 & _ & _). unfold load_or_replace. rewrite Hrun. revert Hf1 Hk1.
    eapply succeeds_bind; [apply (replace_succeeds I HI HP); by rewrite Ht1|].
    intros w2 sv (blank & Htb & _ & Hbl). apply succeeds_ret. split; [done|]. exists blank. split; [|done].
    rewrite Htb, Ht1. cbn. by rewrite Hm, Hrow. }
  destruct (HS Hf Hk) as (w' & s & Hrun & _ & _ & -> & blank & ? & ?). by exists w', blank.
Qed.
End Progress.

(** ** Examples *)

Import Example.

Module DiscardExample.
Definition bound : ObjectHash := repeat x0a 32.
Definition now : PreexistingEffectiveNow :=
  {| now_value := 1000; persisted_floor := 0; wall_clock_ceiling := None; successor_ready_at := None |}.
Definition proof : OperatorSessionProof :=
  {| purpose := DiscardDraft; organization_id := repeat x06 16; device_id := repeat x0b 16;
     binding_object_hash := bound; challenge_nonce := repeat x0c 32; context_hash := None;
     issued_at := 500; expires_at := 300500; invalidated := false |}.

(** The worlds of an untouched draft, a durable intent, a lost key and a
    prepared finalization. *)
Definition editable : World InMemoryKeyProvider := Example.world Example.tables [] Example.keys.
Definition intent_durable : World InMemoryKeyProvider :=
  Example.world (set_transition (Some (DiscardRow (repeat x01 16) 3)) Example.tables) [] Example.keys.
Definition key_lost : World InMemoryKeyProvider :=
  Example.world Example.tables [] (new_for_test (repeat x09 32)).
Definition finalizing : World InMemoryKeyProvider :=
  Example.world (set_transition (Some (FinalizationRow ID16_ZERO 0 [x01])) Example.tables) [] Example.keys.
(** A discard in which statement [n] fails. *)
Definition faulty (n : nat) : World InMemoryKeyProvider :=
  Example.world Example.tables (repeat false n ++ [true]) Example.keys.

Lemma in_intent_durable : in_phase IntentDurable editable intent_durable.
Proof. exists Example.tables, Example.row. by split; [split; [left|]|]. Qed.

Lemma tables_ok : tables_wf Example.tables.
Proof. intros r [= <-]. split; [by vm_compute; eexists|by vm_compute]. Qed.
End DiscardExample.
Import DiscardExample.

Lemma begin_discard_phases_witness :
  is_ok (begin_discard None bound now proof editable).2 = true ∧
  is_ok (begin_discard None bound now proof (faulty 25)).2 = false ∧
  wp (begin_discard None bound now proof) (λ w' r, match r with
    | Ok out => in_phase DraftRemoved (faulty 25) w' ∧
                ∃ t row, draft_of (w_tables (faulty 25)) t row ∧ do_discarded out = dr_draft_id row
    | Err _ => in_phase Editable (faulty 25) w' ∨ in_phase IntentDurable (faulty 25) w'
    end ∧ w_locked w' = w_locked (faulty 25)) (faulty 25).
Proof.
  split; [vm_compute; reflexivity|]. split; [vm_compute; reflexivity|].
  exact (begin_discard_phases None bound now proof (faulty 25)).
Defined.

Lemma interrupted_discard_phase_witness :
  in_phase KeyAbsent editable (begin_discard_interrupted_at None bound now proof AfterKeystoreDelete editable).1.
Proof.
  apply (interrupted_discard_phase None bound now proof AfterKeystoreDelete editable). vm_compute. reflexivity.
Defined.

Lemma finalization_beats_discard_witness :
  wp (resume_after_restart None bound now proof)
     (λ w' r, untouched finalizing w' ∧ ∀ s, r = Ok s → s = PreparedFinalizationPending) finalizing.
Proof.
  apply (finalization_beats_discard None bound now proof finalizing ID16_ZERO 0 [x01]); reflexivity.
Defined.

Lemma restart_keeps_openable_draft_witness :
  wp (resume_after_restart None bound now proof) (λ w' r, kept editable w' ∧
    ∀ s, r = Ok s → s = OriginalDraftUnchanged) editable.
Proof.
  apply (restart_keeps_openable_draft None bound now proof Example.row [x68; x69] editable); [done|done|].
  eexists _, dek. split_and!; [reflexivity|reflexivity|reflexivity|vm_compute; by eexists].
Defined.

Lemma restart_completes_discard_witness :
  ∃ w', resume_after_restart None bound now proof intent_durable = (w', Ok NewBlankDraft) ∧
        in_phase DraftRemoved editable w' ∧ w_locked w' = false.
Proof.
  apply (restart_completes_discard account_wf in_memory_answers primitives_ok None bound now proof editable intent_durable);
    first [left; exact in_intent_durable|exact tables_ok|reflexivity].
Defined.

Lemma second_restart_is_noop_witness :
  ∃ w' w'', resume_after_restart None bound now proof intent_durable = (w', Ok NewBlankDraft) ∧
            resume_after_restart None bound now proof w' = (w'', Ok NewBlankDraft) ∧ kept w' w''.
Proof.
  apply (second_restart_is_noop account_wf in_memory_answers primitives_ok bound now proof editable intent_durable);
    first [left; exact in_intent_durable|exact tables_ok|reflexivity].
Defined.

Lemma restart_replaces_lost_draft_witness :
  ∃ w' blank, resume_after_restart None bound now proof key_lost = (w', Ok NewBlankDraft) ∧
    w_tables w' = set_transition None (set_draft (Some blank) None Example.tables) ∧ is_blank (w_keys w') blank.
Proof.
  eapply (restart_replaces_lost_draft account_wf in_memory_answers primitives_ok bound now proof key_lost Example.row);
    reflexivity.
Defined.
