(* ===== verification/SearchIndex.v ===== *)
(** * SearchIndex: the reader's inverted index ([ea-index])

    The records a reader hands over, the index over them with its three posting
    lists, and the search ([inverted.rs]); the schema labels of a row
    ([schema_view.rs]); the errors ([lib.rs]).

    A [BTreeMap] is a [gmap] and a [BTreeSet] a [gset]; what iterates over them
    sees ascending keys. Unicode composition and lower case are the parameters
    [to_nfc] and [to_lowercase]. The specification of the index is the map of
    its packages: the posting lists are a function of it ([postings_exact]). *)

From S2P Require Import Prelude Types Utf8 Cbor Str KeyStore.
Import Crypto(CryptoError).

(** ** Errors *)

Module Schema.
Inductive SchemaError :=
| Unsupported (schema_id : str) (schema_version : Z)
| Invalid (code : string) (field : option string)
| Cbor (e : CborError).

Definition schema_error_code (e : SchemaError) : string :=
  match e with
  | Unsupported _ _ => "EA-SCHEMA-UNSUPPORTED"
  | Invalid code _ => code
  | Cbor e => cbor_code e
  end.
End Schema.

Module Idx.
Inductive IndexError :=
| BlobFormat
| Crypto (e : CryptoError)
| Cbor (e : CborError)
| Schema (e : Schema.SchemaError).

Definition index_error_code (e : IndexError) : string :=
  match e with
  | BlobFormat => "EA-INDEX-BLOB-FORMAT"
  | Crypto e => KeyStore.Crypto.crypto_error_code e
  | Cbor e => cbor_code e
  | Schema e => SearchIndex.Schema.schema_error_code e
  end.
End Idx.
Import Idx(IndexError).

(** ** Data *)

(** The bound above which the index asks to be split. *)
Definition MONOLITHIC_INDEX_MAX_PACKAGES_V1 : Z := 50000.

Inductive IndexPressureV1 :=
| Nominal
| SegmentationRequired (indexed_packages : Z).

Record IndexableRecordV1 := {
  source_entry_hash : EntryHash;
  record_chain_sequence : ChainSequence;
  record_record_id : Id16;
  record_source_schema_id : str;
  record_source_schema_version : Z;
  record_target_schema_id : str;
  record_target_schema_version : Z;
  record_human_incident_number : str;
  record_occurred_at_start : UnixMillis;
  record_occurred_at_end : option UnixMillis;
  record_keyword_terms : list str;
  record_vehicle_terms : list str;
  record_person_terms : list str;
}.

Record ReaderSearchHitV1 := {
  entry_hash : EntryHash;
  chain_sequence : ChainSequence;
  record_id : Id16;
  human_incident_number : str;
  occurred_at_start : UnixMillis;
  source_schema_id : str;
  source_schema_version : Z;
  target_schema_id : str;
  target_schema_version : Z;
}.

Record IndexedPackageV1 := {
  hit : ReaderSearchHitV1;
  occurred_at_end : option UnixMillis;
  keyword_terms : gset str;
  vehicle_terms : gset str;
  person_terms : gset str;
}.

Record ReaderQueryV1 := {
  query_period : option (UnixMillis * UnixMillis);
  query_keyword : option str;
  query_vehicle : option str;
  query_person : option str;
}.

(** What a posting list names: the packages with a term. *)
Abbreviation postings := (gmap str (gset EntryHash)).

Record InvertedIndexV1 := {
  packages : gmap EntryHash IndexedPackageV1;
  keyword : postings;
  vehicle : postings;
  person : postings;
}.

Definition query_default : ReaderQueryV1 :=
  {| query_period := None; query_keyword := None; query_vehicle := None; query_person := None |}.

Definition and_period (from to : UnixMillis) (q : ReaderQueryV1) : ReaderQueryV1 :=
  {| query_period := Some (from, to); query_keyword := query_keyword q;
     query_vehicle := query_vehicle q; query_person := query_person q |}.

Definition empty_index : InvertedIndexV1 :=
  {| packages := ∅; keyword := ∅; vehicle := ∅; person := ∅ |}.

(** ** The registered schemas ([ea-schema] [registry.rs]) *)

Definition SCHEMA_VERSION_V1 : Z := 1.

Record SchemaDescriptor := { descriptor_schema_id : str; record_type : str }.

Definition V1_SCHEMAS : list SchemaDescriptor :=
  [ {| descriptor_schema_id := lit "ea.genesis"; record_type := lit "genesis" |};
    {| descriptor_schema_id := lit "ea.incident"; record_type := lit "incident" |};
    {| descriptor_schema_id := lit "ea.amendment"; record_type := lit "amendment" |};
    {| descriptor_schema_id := lit "ea.key-transition"; record_type := lit "keyTransition" |};
    {| descriptor_schema_id := lit "ea.destruction-evidence"; record_type := lit "destructionEvidence" |} ].

Definition PROJECTED_TARGET_SCHEMA_ID_V1 : str := lit "ea.incident".

Definition unsupported {A} (id : str) (version : Z) : result IndexError A :=
  Err (Idx.Schema (Schema.Unsupported id version)).

Definition registered_schema_id (schema_id : str) (schema_version : Z) : result IndexError str :=
  match list_find (λ d, descriptor_schema_id d = schema_id ∧ schema_version = SCHEMA_VERSION_V1) V1_SCHEMAS with
  | Some (_, d) => Ok (descriptor_schema_id d)
  | None => unsupported schema_id schema_version
  end.

Record SchemaViewV1 := {
  view_source_schema : str * Z;
  view_target_schema : str * Z;
  view_human_incident_number : str;
}.

(** ** Posting lists *)

(** One term of a replaced row: its package leaves the list, and an empty list
    goes. *)
Definition remove_posting (h : EntryHash) (m : postings) (t : str) : postings :=
  match m !! t with
  | None => m
  | Some entries =>
      let entries := entries ∖ {[h]} in
      if bool_decide (entries = ∅) then delete t m else <[t := entries]> m
  end.

Definition add_posting (h : EntryHash) (m : postings) (t : str) : postings :=
  <[t := {[h]} ∪ default ∅ (m !! t)]> m.

(** The members of a [BTreeSet] in its order. *)
Definition in_order {A} `{Countable A, Cmp A} (s : gset A) : list A := sort_by_key id (elements s).

Definition remove_postings (h : EntryHash) (terms : gset str) (m : postings) : postings :=
  foldl (remove_posting h) m (in_order terms).

Definition add_postings (h : EntryHash) (terms : gset str) (m : postings) : postings :=
  foldl (add_posting h) m (in_order terms).

(** [replace]: the row of the same origin leaves, then the package enters. *)
Definition replace (p : IndexedPackageV1) (i : InvertedIndexV1) : InvertedIndexV1 :=
  let h := entry_hash (hit p) in
  let i := match packages i !! h with
           | Some previous =>
               {| packages := delete h (packages i);
                  keyword := remove_postings h (keyword_terms previous) (keyword i);
                  vehicle := remove_postings h (vehicle_terms previous) (vehicle i);
                  person := remove_postings h (person_terms previous) (person i) |}
           | None => i
           end in
  {| packages := <[h := p]> (packages i);
     keyword := add_postings h (keyword_terms p) (keyword i);
     vehicle := add_postings h (vehicle_terms p) (vehicle i);
     person := add_postings h (person_terms p) (person i) |}.

Definition indexed_packages (i : InvertedIndexV1) : Z := Z.of_nat (size (packages i)).

Definition pressure (i : InvertedIndexV1) : IndexPressureV1 :=
  if indexed_packages i >=? MONOLITHIC_INDEX_MAX_PACKAGES_V1
  then SegmentationRequired (indexed_packages i) else Nominal.

Definition hit_for (i : InvertedIndexV1) (h : EntryHash) : option ReaderSearchHitV1 :=
  hit <$> packages i !! h.

(** ** Search *)

(** A row without an end is a point in time. *)
Definition overlaps (p : IndexedPackageV1) (from to : UnixMillis) : bool :=
  let start := occurred_at_start (hit p) in
  let end_ := default start (occurred_at_end p) in
  (start <=? to) && (end_ >=? from).

Definition narrow (candidates : option (gset EntryHash)) (axis : option str * postings)
    : option (gset EntryHash) :=
  match axis with
  | (None, _) => candidates
  | (Some term, m) =>
      let matched := default ∅ (m !! term) in
      Some match candidates with Some previous => previous ∩ matched | None => matched end
  end.

Definition candidates (i : InvertedIndexV1) (q : ReaderQueryV1) : option (gset EntryHash) :=
  foldl narrow None
    [(query_keyword q, keyword i); (query_vehicle q, vehicle i); (query_person q, person i)].

(** The order of the hits: the chain's. *)
Definition hit_key (p : IndexedPackageV1) : Z * EntryHash := (chain_sequence (hit p), entry_hash (hit p)).

Definition search (i : InvertedIndexV1) (q : ReaderQueryV1) : result IndexError (list ReaderSearchHitV1) :=
  let hits := match candidates i q with
              | Some hashes => omap (λ h, packages i !! h) (in_order hashes)
              | None => into_values (packages i)
              end in
  let hits := match query_period q with
              | Some (from, to) => filter (λ p, overlaps p from to = true) hits
              | None => hits
              end in
  Ok (hit <$> sort_by_key hit_key hits).

(** ** Terms and records *)

(** [unicode-normalization] and [str::to_lowercase]. *)
Class Unicode := {
  to_nfc : str → str;
  to_lowercase : str → str;
}.

Section Text.
Context `{Unicode}.

Definition normalize_term (value : str) : str := to_nfc (to_lowercase (to_nfc value)).

Definition normalize_display (value : str) : str := to_nfc value.

Definition term_keys (values : list str) : gset str :=
  list_to_set (filter (λ t, t ≠ []) (normalize_term <$> values)).

Definition and_keyword (term : str) (q : ReaderQueryV1) : ReaderQueryV1 :=
  {| query_period := query_period q; query_keyword := Some (normalize_term term);
     query_vehicle := query_vehicle q; query_person := query_person q |}.

Definition and_vehicle (term : str) (q : ReaderQueryV1) : ReaderQueryV1 :=
  {| query_period := query_period q; query_keyword := query_keyword q;
     query_vehicle := Some (normalize_term term); query_person := query_person q |}.

Definition and_person (term : str) (q : ReaderQueryV1) : ReaderQueryV1 :=
  {| query_period := query_period q; query_keyword := query_keyword q;
     query_vehicle := query_vehicle q; query_person := Some (normalize_term term) |}.

Definition derive (r : IndexableRecordV1) : result IndexError SchemaViewV1 :=
  source ← registered_schema_id (record_source_schema_id r) (record_source_schema_version r);
  target ← registered_schema_id (record_target_schema_id r) (record_target_schema_version r);
  if bool_decide (target ≠ PROJECTED_TARGET_SCHEMA_ID_V1)
  then unsupported target (record_target_schema_version r)
  else Ok {| view_source_schema := (source, record_source_schema_version r);
             view_target_schema := (target, record_target_schema_version r);
             view_human_incident_number := normalize_display (record_human_incident_number r) |}.

(** The row of a record under its view. *)
Definition package_of (r : IndexableRecordV1) (view : SchemaViewV1) : IndexedPackageV1 :=
  {| hit := {| entry_hash := source_entry_hash r; chain_sequence := record_chain_sequence r;
               record_id := record_record_id r;
               human_incident_number := view_human_incident_number view;
               occurred_at_start := record_occurred_at_start r;
               source_schema_id := (view_source_schema view).1;
               source_schema_version := (view_source_schema view).2;
               target_schema_id := (view_target_schema view).1;
               target_schema_version := (view_target_schema view).2 |};
     occurred_at_end := record_occurred_at_end r;
     keyword_terms := term_keys (record_keyword_terms r);
     vehicle_terms := term_keys (record_vehicle_terms r);
     person_terms := term_keys (record_person_terms r) |}.

(** [upsert] changes the index only when it succeeds. *)
Definition upsert (r : IndexableRecordV1) (i : InvertedIndexV1)
    : InvertedIndexV1 * result IndexError IndexPressureV1 :=
  match derive r with
  | Err e => (i, Err e)
  | Ok view => let i := replace (package_of r view) i in (i, Ok (pressure i))
  end.

Fixpoint rebuild_loop (rs : list IndexableRecordV1) (i : InvertedIndexV1) : result IndexError InvertedIndexV1 :=
  match rs with
  | [] => Ok i
  | r :: rs => match upsert r i with
               | (i, Ok _) => rebuild_loop rs i
               | (_, Err e) => Err e
               end
  end.

Definition rebuild_from (rs : list IndexableRecordV1) : result IndexError InvertedIndexV1 :=
  rebuild_loop rs empty_index.
End Text.

(** ** Posting lists name what the packages carry *)

(** The packages a term is listed for. *)
Definition listed (m : postings) (t : str) : gset EntryHash := default ∅ (m !! t).

(** One posting list against the packages: it names exactly the packages with
    the term, and no list is empty. *)
Record axis_ok (terms : IndexedPackageV1 → gset str) (ps : gmap EntryHash IndexedPackageV1) (m : postings) : Prop := {
  axis_exact : ∀ t h, h ∈ listed m t ↔ ∃ p, ps !! h = Some p ∧ t ∈ terms p;
  axis_nonempty : ∀ t s, m !! t = Some s → s ≠ ∅;
}.

(** The index invariant. *)
Record index_wf (i : InvertedIndexV1) : Prop := {
  wf_keyword : axis_ok keyword_terms (packages i) (keyword i);
  wf_vehicle : axis_ok vehicle_terms (packages i) (vehicle i);
  wf_person : axis_ok person_terms (packages i) (person i);
  wf_origin : ∀ h p, packages i !! h = Some p → entry_hash (hit p) = h;
}.

Lemma elem_of_in_order {A} `{Countable A, !Cmp A, !CmpLaws A} (s : gset A) x : x ∈ in_order s ↔ x ∈ s.
Proof. unfold in_order. by rewrite elem_of_sort_by_key, elem_of_elements. Qed.

Lemma in_order_strict {A} `{Countable A, !Cmp A, !CmpLaws A} (s : gset A) :
  StronglySorted (key_lt id) (in_order s).
Proof.
  unfold in_order. apply sorted_NoDup_strict; [apply sort_by_key_sorted|].
  rewrite list_fmap_id, sort_by_key_perm. apply NoDup_elements.
Qed.

Lemma listed_remove h m t u g :
  g ∈ listed (remove_posting h m t) u ↔ g ∈ listed m u ∧ ¬ (g = h ∧ u = t).
Proof.
  unfold listed, remove_posting. destruct (m !! t) as [s|] eqn:E.
  - case_bool_decide as Hs; (destruct (decide (u = t)) as [->|Hu];
      [rewrite ?lookup_delete_eq, ?lookup_insert_eq, ?E; cbn
      |rewrite ?lookup_delete_ne, ?lookup_insert_ne by done]); set_solver.
  - split; [|by intros [? _]]. intros Hg. split; [done|]. intros [-> ->]. rewrite E in Hg. set_solver.
Qed.

Lemma listed_add h m t u g :
  g ∈ listed (add_posting h m t) u ↔ g ∈ listed m u ∨ (g = h ∧ u = t).
Proof.
  unfold listed, add_posting. destruct (decide (u = t)) as [->|Hu].
  - rewrite lookup_insert_eq. cbn. set_solver.
  - rewrite lookup_insert_ne by done. naive_solver.
Qed.

Lemma listed_removes h ts m u g :
  g ∈ listed (remove_postings h ts m) u ↔ g ∈ listed m u ∧ ¬ (g = h ∧ u ∈ ts).
Proof.
  unfold remove_postings. setoid_rewrite <- (elem_of_in_order ts).
  generalize (in_order ts) as l. clear ts. intros l. revert m.
  induction l as [|t l IH]; intros m; cbn; [set_solver|]. rewrite IH, listed_remove, elem_of_cons. naive_solver.
Qed.

Lemma listed_adds h ts m u g :
  g ∈ listed (add_postings h ts m) u ↔ g ∈ listed m u ∨ (g = h ∧ u ∈ ts).
Proof.
  unfold add_postings. setoid_rewrite <- (elem_of_in_order ts).
  generalize (in_order ts) as l. clear ts. intros l. revert m.
  induction l as [|t l IH]; intros m; cbn; [set_solver|]. rewrite IH, listed_add, elem_of_cons. naive_solver.
Qed.

Definition no_empty (m : postings) : Prop := ∀ t s, m !! t = Some s → s ≠ ∅.

Lemma no_empty_foldl (f : postings → str → postings) l m :
  (∀ m t, no_empty m → no_empty (f m t)) → no_empty m → no_empty (foldl f m l).
Proof. intros Hf. revert m. induction l as [|t l IH]; intros m Hm; cbn; auto. Qed.

Lemma no_empty_remove h m t : no_empty m → no_empty (remove_posting h m t).
Proof.
  intros Hm u s. unfold remove_posting. destruct (m !! t) eqn:E; [|apply Hm].
  case_bool_decide as Hs.
  - intros [_ ?]%lookup_delete_Some. by eapply Hm.
  - intros [[<- <-]|[_ ?]]%lookup_insert_Some; [done|by eapply Hm].
Qed.

Lemma no_empty_add h m t : no_empty m → no_empty (add_posting h m t).
Proof.
  intros Hm u s. unfold add_posting. intros [[<- <-]|[_ ?]]%lookup_insert_Some; [set_solver|by eapply Hm].
Qed.

Lemma axis_remove terms ps m h previous :
  axis_ok terms ps m → ps !! h = Some previous →
  axis_ok terms (delete h ps) (remove_postings h (terms previous) m).
Proof.
  intros [Hx Hn] Hp. split; [|by apply no_empty_foldl; [apply no_empty_remove|]].
  intros t g. rewrite listed_removes, Hx. setoid_rewrite lookup_delete_Some. split.
  - intros [(p & Hg & Ht) Hno]. exists p. split_and!; [|done..]. intros <-.
    apply Hno. split; [done|]. congruence.
  - intros (p & [Hne Hg] & Ht). split; [eauto|]. by intros [-> _].
Qed.

Lemma axis_add terms ps m h p :
  axis_ok terms ps m → ps !! h = None → axis_ok terms (<[h := p]> ps) (add_postings h (terms p) m).
Proof.
  intros [Hx Hn] Hp. split; [|by apply no_empty_foldl; [apply no_empty_add|]].
  intros t g. rewrite listed_adds, Hx. setoid_rewrite lookup_insert_Some. split.
  - intros [(q & Hg & Ht)|[-> Ht]]; [|by eauto].
    exists q. split; [|done]. right. split; [congruence|done].
  - intros (q & [[<- <-]|[_ Hg]] & Ht); [by right|left; eauto].
Qed.

(** The posting lists are a function of the packages. *)
Lemma axis_unique terms ps m m' : axis_ok terms ps m → axis_ok terms ps m' → m = m'.
Proof.
  intros [Hx Hn] [Hx' Hn']. apply map_eq. intros t.
  assert (He : listed m t = listed m' t) by (apply set_eq; intros h; by rewrite Hx, Hx').
  unfold listed in He. specialize (Hn t). specialize (Hn' t).
  destruct (m !! t), (m' !! t); cbn in *; [congruence|..|done]; exfalso; naive_solver.
Qed.

Lemma postings_exact i j : index_wf i → index_wf j → packages i = packages j → i = j.
Proof.
  intros [Hk Hv Hp _] [Hk' Hv' Hp' _] E. rewrite <- E in *. destruct i, j; cbn in *. subst. f_equal.
  - exact (axis_unique _ _ _ _ Hk Hk').
  - exact (axis_unique _ _ _ _ Hv Hv').
  - exact (axis_unique _ _ _ _ Hp Hp').
Qed.

Lemma empty_wf : index_wf empty_index.
Proof. split; [split; [|done]; intros t h; unfold listed; cbn; rewrite lookup_empty; set_solver..|done]. Qed.

Lemma replace_packages p i : packages (replace p i) = <[entry_hash (hit p) := p]> (packages i).
Proof. unfold replace. destruct (packages i !! _) eqn:E; cbn; [by rewrite insert_delete_eq|done]. Qed.

Lemma replace_wf p i : index_wf i → index_wf (replace p i).
Proof.
  intros [Hk Hv Hp Ho].
  assert (Horigin : ∀ h q, packages (replace p i) !! h = Some q → entry_hash (hit q) = h).
  { intros h q. rewrite replace_packages. intros [[<- <-]|[_ ?]]%lookup_insert_Some; [done|by apply Ho]. }
  split; [..|exact Horigin]; unfold replace; destruct (packages i !! entry_hash (hit p)) as [previous|] eqn:E; cbn;
    apply axis_add; try done; solve [by apply axis_remove|apply lookup_delete_eq].
Qed.
#[export] Hint Resolve empty_wf replace_wf : ea.

(** ** Search is a filter *)

(** What a query asks of a package. *)
Definition carries (q : option str) (terms : gset str) : bool :=
  match q with Some t => bool_decide (t ∈ terms) | None => true end.

Definition in_period (q : ReaderQueryV1) (p : IndexedPackageV1) : bool :=
  match query_period q with Some (from, to) => overlaps p from to | None => true end.

Definition matches (q : ReaderQueryV1) (p : IndexedPackageV1) : bool :=
  carries (query_keyword q) (keyword_terms p) && carries (query_vehicle q) (vehicle_terms p)
  && carries (query_person q) (person_terms p) && in_period q p.

(** The reference search over the packages alone. *)
Definition scan (ps : gmap EntryHash IndexedPackageV1) (q : ReaderQueryV1) : list ReaderSearchHitV1 :=
  hit <$> sort_by_key hit_key (filter (λ p, matches q p = true) (into_values ps)).

Definition selects (c : option (gset EntryHash)) (h : EntryHash) : Prop :=
  match c with Some s => h ∈ s | None => True end.

Lemma narrow_selects c t m h :
  selects (narrow c (t, m)) h ↔ selects c h ∧ match t with Some t => h ∈ listed m t | None => True end.
Proof. unfold narrow, listed. destruct t, c; cbn; set_solver. Qed.

Lemma axis_carries terms ps m h p t :
  axis_ok terms ps m → ps !! h = Some p →
  (match t with Some t => h ∈ listed m t | None => True end) ↔ carries t (terms p) = true.
Proof.
  intros [Hx _] Hp. destruct t as [t|]; cbn; [|done]. rewrite Hx, bool_decide_eq_true. naive_solver.
Qed.

(** A posting list names packages that exist. *)
Lemma candidates_exist i q s h : index_wf i → candidates i q = Some s → h ∈ s → is_Some (packages i !! h).
Proof.
  intros [[Hk _] [Hv _] [Hp _] _] Hc Hh.
  assert (selects (candidates i q) h) as Hs by (by rewrite Hc). unfold candidates in *. cbn [foldl] in *.
  rewrite !narrow_selects in Hs.
  destruct (query_keyword q), (query_vehicle q), (query_person q); rewrite ?Hk, ?Hv, ?Hp in Hs;
    first [discriminate Hc|naive_solver].
Qed.

Lemma candidates_carry i q h p :
  index_wf i → packages i !! h = Some p →
  selects (candidates i q) h ↔
  carries (query_keyword q) (keyword_terms p) && carries (query_vehicle q) (vehicle_terms p)
  && carries (query_person q) (person_terms p) = true.
Proof.
  intros [Hk Hv Hp _] Hh. unfold candidates. cbn [foldl]. rewrite !narrow_selects.
  rewrite (axis_carries _ _ _ _ _ _ Hk Hh), (axis_carries _ _ _ _ _ _ Hv Hh), (axis_carries _ _ _ _ _ _ Hp Hh).
  rewrite !andb_true_iff. cbn. naive_solver.
Qed.

(** The packages the posting lists leave over. *)
Definition selected (i : InvertedIndexV1) (q : ReaderQueryV1) : list IndexedPackageV1 :=
  match candidates i q with
  | Some hashes => omap (λ h, packages i !! h) (in_order hashes)
  | None => into_values (packages i)
  end.

Lemma elem_of_selected i q p :
  p ∈ selected i q ↔ ∃ h, packages i !! h = Some p ∧ selects (candidates i q) h.
Proof.
  unfold selected. destruct (candidates i q); cbn.
  - rewrite list_elem_of_omap. setoid_rewrite elem_of_in_order. naive_solver.
  - rewrite elem_of_into_values. naive_solver.
Qed.

Lemma NoDup_omap_inj {A B} (f : A → option B) l :
  (∀ x y b, f x = Some b → f y = Some b → x = y) → NoDup l → NoDup (omap f l).
Proof.
  intros Hf. induction 1 as [|x l Hx Hl IH]; cbn; [constructor|].
  destruct (f x) as [b|] eqn:E; [|done]. constructor; [|done].
  intros (y & Hy & Ey)%list_elem_of_omap. by rewrite (Hf _ _ _ E Ey) in Hx.
Qed.

Lemma NoDup_in_order {A} `{Countable A, !Cmp A, !CmpLaws A} (s : gset A) : NoDup (in_order s).
Proof. unfold in_order. rewrite sort_by_key_perm. apply NoDup_elements. Qed.

Section Wf.
Context (i : InvertedIndexV1) (Hi : index_wf i).

Lemma origin_inj h h' p : packages i !! h = Some p → packages i !! h' = Some p → h = h'.
Proof. intros H H'. by rewrite <- (wf_origin _ Hi _ _ H), <- (wf_origin _ Hi _ _ H'). Qed.

Lemma NoDup_values : NoDup (into_values (packages i)).
Proof.
  unfold into_values, by_key. rewrite sort_by_key_perm.
  apply (NoDup_fmap_2_strong snd); [|apply NoDup_map_to_list].
  intros [h p] [h' p'] H%elem_of_map_to_list H'%elem_of_map_to_list. cbn. intros <-.
  by rewrite (origin_inj _ _ _ H H').
Qed.

Lemma NoDup_selected q : NoDup (selected i q).
Proof.
  unfold selected. destruct (candidates i q); [|apply NoDup_values].
  apply NoDup_omap_inj; [intros; by eapply origin_inj|apply NoDup_in_order].
Qed.

Lemma values_key_inj (l : list IndexedPackageV1) :
  (∀ p, p ∈ l → ∃ h, packages i !! h = Some p) → key_inj hit_key l.
Proof.
  intros Hl p p' Hp Hp' [= _ E]. apply Hl in Hp as [h Hh], Hp' as [h' Hh'].
  rewrite (wf_origin _ Hi _ _ Hh), (wf_origin _ Hi _ _ Hh') in E. subst. congruence.
Qed.
End Wf.

Lemma filter_period q (l : list IndexedPackageV1) :
  (match query_period q with
   | Some (from, to) => filter (λ p, overlaps p from to = true) l
   | None => l
   end) = filter (λ p, in_period q p = true) l.
Proof.
  unfold in_period. destruct (query_period q) as [[from to]|]; [done|].
  symmetry. induction l as [|p l IH]; [done|]. by rewrite filter_cons_True, IH by done.
Qed.

(** The posting lists lose no package and add none. *)
Lemma search_scans i q : index_wf i → search i q = Ok (scan (packages i) q).
Proof.
  intros Hi. unfold search, scan. fold (selected i q). rewrite filter_period. do 2 f_equal.
  assert (Hin : ∀ p, p ∈ filter (λ p, in_period q p = true) (selected i q) ↔
                     p ∈ filter (λ p, matches q p = true) (into_values (packages i))).
  { intros p. rewrite !list_elem_of_filter, elem_of_selected, elem_of_into_values. split.
    - intros (Ht & h & Hh & Hs). split; [|eauto]. unfold matches. rewrite Ht, andb_true_r.
      by apply (candidates_carry i q h p).
    - intros (Hm & h & Hh). unfold matches in Hm. apply andb_true_iff in Hm as [Hc Ht].
      split; [done|]. exists h. split; [done|]. by apply (candidates_carry i q h p). }
  apply sort_by_key_proper.
  - apply NoDup_Permutation; [apply NoDup_filter, NoDup_selected; done|apply NoDup_filter, NoDup_values; done|done].
  - apply (values_key_inj i Hi). intros p [_ (h & Hh & _)%elem_of_selected]%list_elem_of_filter. eauto.
Qed.

(** The index answers a query as a scan of its packages would: the packages
    that carry every asked term and overlap the period, in the order of chain
    sequence and entry hash; no posting list loses or adds a package. *)
Theorem search_is_scan i q : index_wf i → search i q = Ok (scan (packages i) q).
Proof. apply search_scans. Qed.

(** ** Labels *)

Lemma registered_Ok id version d :
  registered_schema_id id version = Ok d ↔
  d = id ∧ version = SCHEMA_VERSION_V1 ∧ id ∈ descriptor_schema_id <$> V1_SCHEMAS.
Proof.
  unfold registered_schema_id. destruct (list_find _ _) as [[n x]|] eqn:E.
  - apply list_find_Some in E as (Hx & [Hd Hv] & _). split.
    + intros [= <-]. split_and!; [done..|]. rewrite <- Hd. apply list_elem_of_fmap_2. by eapply list_elem_of_lookup_2.
    + intros (-> & _ & _). by rewrite Hd.
  - split; [done|]. intros (-> & Hv & (x & -> & Hx)%list_elem_of_fmap).
    apply list_find_None in E. rewrite Forall_forall in E. by apply E in Hx as [].
Qed.

Lemma registered_Err id version e :
  registered_schema_id id version = Err e → e = Idx.Schema (Schema.Unsupported id version).
Proof. unfold registered_schema_id. destruct (list_find _ _) as [[]|]; [done|]. by intros [= <-]. Qed.

Section TextTheorems.
Context `{Unicode}.

(** The records this version projects: a registered source and the one target,
    both in version 1. *)
Definition supported (r : IndexableRecordV1) : Prop :=
  record_source_schema_id r ∈ descriptor_schema_id <$> V1_SCHEMAS
  ∧ record_source_schema_version r = SCHEMA_VERSION_V1
  ∧ record_target_schema_id r = PROJECTED_TARGET_SCHEMA_ID_V1
  ∧ record_target_schema_version r = SCHEMA_VERSION_V1.

#[export] Instance supported_dec r : Decision (supported r).
Proof. unfold supported. apply _. Defined.

(** The row of a record. *)
Definition row (r : IndexableRecordV1) : IndexedPackageV1 :=
  package_of r {| view_source_schema := (record_source_schema_id r, record_source_schema_version r);
                  view_target_schema := (record_target_schema_id r, record_target_schema_version r);
                  view_human_incident_number := normalize_display (record_human_incident_number r) |}.

Lemma derive_supported r :
  supported r →
  derive r = Ok {| view_source_schema := (record_source_schema_id r, record_source_schema_version r);
                   view_target_schema := (record_target_schema_id r, record_target_schema_version r);
                   view_human_incident_number := normalize_display (record_human_incident_number r) |}.
Proof.
  intros (Hs & Hsv & Ht & Htv). unfold derive.
  rewrite (proj2 (registered_Ok _ _ _) (conj eq_refl (conj Hsv Hs))). cbn.
  assert (Hin : record_target_schema_id r ∈ descriptor_schema_id <$> V1_SCHEMAS) by (rewrite Ht; right; left).
  rewrite (proj2 (registered_Ok _ _ _) (conj eq_refl (conj Htv Hin))).
  cbn. by rewrite bool_decide_eq_false_2 by auto.
Qed.

Lemma derive_Ok r v : derive r = Ok v → supported r.
Proof.
  unfold derive. intros Hd. inv_ok.
  repeat match goal with H : registered_schema_id _ _ = Ok _ |- _ => apply registered_Ok in H as (-> & ? & ?) end.
  case_bool_decide as E; [done|]. by split_and!.
Qed.

(** Of two unsupported labels the source's is named. *)
Definition unsupported_label (r : IndexableRecordV1) : str * Z :=
  if decide (record_source_schema_id r ∈ descriptor_schema_id <$> V1_SCHEMAS
             ∧ record_source_schema_version r = SCHEMA_VERSION_V1)
  then (record_target_schema_id r, record_target_schema_version r)
  else (record_source_schema_id r, record_source_schema_version r).

Lemma derive_unsupported r :
  ¬ supported r →
  derive r = Err (Idx.Schema (Schema.Unsupported (unsupported_label r).1 (unsupported_label r).2)).
Proof.
  intros Hn. unfold derive, unsupported_label. case_decide as Hs.
  - destruct Hs as [Hs Hv].
    rewrite (proj2 (registered_Ok _ _ _) (conj eq_refl (conj Hv Hs))). cbn.
    destruct (registered_schema_id (record_target_schema_id r) _) as [d|e] eqn:E; cbn.
    + apply registered_Ok in E as (-> & Ht & _). rewrite bool_decide_eq_true_2; [done|].
      intros E. by destruct Hn.
    + by apply registered_Err in E as ->.
  - destruct (registered_schema_id (record_source_schema_id r) _) as [d|e] eqn:E; cbn.
    + apply registered_Ok in E as (-> & Ht & Hin). by destruct Hs.
    + by apply registered_Err in E as ->.
Qed.

Lemma upsert_spec r i :
  upsert r i = if decide (supported r) then (replace (row r) i, Ok (pressure (replace (row r) i)))
               else (i, Err (Idx.Schema (Schema.Unsupported (unsupported_label r).1 (unsupported_label r).2))).
Proof.
  unfold upsert. case_decide as Hs.
  - by rewrite derive_supported.
  - by rewrite derive_unsupported.
Qed.

(** C31. [upsert] refines the insertion into a map from entry hashes to rows:
    a supported record replaces the row of its origin, keeps the index
    consistent and reports the pressure of the new size; any other record
    leaves the index as it was and is named in the error. *)
Theorem upsert_refines_insert r i j res :
  index_wf i → upsert r i = (j, res) →
  index_wf j ∧
  if decide (supported r)
  then packages j = <[source_entry_hash r := row r]> (packages i)
       ∧ res = Ok (if 50000 <=? Z.of_nat (size (packages j)) then SegmentationRequired (Z.of_nat (size (packages j))) else Nominal)
  else j = i ∧ res = Err (Idx.Schema (Schema.Unsupported (unsupported_label r).1 (unsupported_label r).2)).
Proof.
  intros Hi. rewrite upsert_spec. case_decide as Hs; intros [= <- <-].
  - split; [auto with ea|]. rewrite replace_packages. split; [done|].
    unfold pressure, indexed_packages. by rewrite replace_packages, Z.geb_leb.
  - done.
Qed.

(** ** Rebuilding *)

Definition rows (rs : list IndexableRecordV1) (ps : gmap EntryHash IndexedPackageV1) : gmap EntryHash IndexedPackageV1 :=
  foldl (λ m r, <[source_entry_hash r := row r]> m) ps rs.

Lemma rebuild_loop_spec rs i :
  index_wf i →
  match rebuild_loop rs i with
  | Ok j => Forall supported rs ∧ index_wf j ∧ packages j = rows rs (packages i)
  | Err e => ∃ r, list_find (λ r, ¬ supported r) rs = Some r
                ∧ e = Idx.Schema (Schema.Unsupported (unsupported_label r.2).1 (unsupported_label r.2).2)
  end.
Proof.
  revert i. induction rs as [|r rs IH]; intros i Hi; [by split|].
  cbn [rebuild_loop]. rewrite upsert_spec. case_decide as Hs.
  - specialize (IH (replace (row r) i) (replace_wf _ _ Hi)).
    destruct (rebuild_loop rs _).
    + destruct IH as (HF & Hj & ->). split_and!; [by constructor|done|]. by rewrite replace_packages.
    + destruct IH as ([n x] & Hx & ->). exists (S n, x). cbn.
      rewrite decide_False by tauto. by rewrite Hx.
  - exists (0%nat, r). cbn. by rewrite decide_True.
Qed.

Lemma rebuild_Ok rs i :
  rebuild_from rs = Ok i ↔ Forall supported rs ∧ index_wf i ∧ packages i = rows rs ∅.
Proof.
  pose proof (rebuild_loop_spec rs empty_index empty_wf) as Hl. unfold rebuild_from.
  destruct (rebuild_loop rs empty_index) as [j|e].
  - destruct Hl as (HF & Hj & Hp). split; [by intros [= <-]|]. intros (_ & Hi & E). f_equal.
    apply postings_exact; try done. by rewrite E, Hp.
  - destruct Hl as ([n r] & Hr & ->). split; [done|]. intros [HF _].
    apply list_find_Some in Hr as (Hr & Hn & _). rewrite Forall_lookup in HF. by apply HF in Hr.
Qed.

Lemma rows_perm rs rs' m :
  NoDup (source_entry_hash <$> rs) → rs ≡ₚ rs' → rows rs m = rows rs' m.
Proof.
  intros Hn Hp. revert m Hn. unfold rows.
  induction Hp as [|r rs rs' _ IH|r r' rs|rs1 rs2 rs3 H1 IH1 H2 IH2]; intros m Hn; cbn; [done|..].
  - apply IH. by inversion Hn.
  - f_equal. apply insert_insert_ne. cbn in Hn. inversion Hn; subst. set_solver.
  - rewrite IH1 by done. apply IH2. by rewrite <- H1.
Qed.

(** A rebuild is a reconstruction: the records of distinct entries give the
    same index in every order, and it fails in one order exactly if it fails in
    every other. *)
Theorem rebuild_order_independent rs rs' i :
  NoDup (source_entry_hash <$> rs) → rs ≡ₚ rs' → rebuild_from rs = Ok i ↔ rebuild_from rs' = Ok i.
Proof. intros Hn Hp. rewrite !rebuild_Ok, (rows_perm rs rs') by done. by setoid_rewrite Hp. Qed.

(** Running the rebuild over what is already indexed changes nothing. *)
Theorem upsert_idempotent r i j k p q :
  index_wf i → upsert r i = (j, p) → upsert r j = (k, q) → j = k ∧ p = q.
Proof.
  intros Hi. rewrite !upsert_spec. case_decide; intros [= <- <-] [= <- <-]; [|done].
  assert (E : replace (row r) (replace (row r) i) = replace (row r) i).
  { apply postings_exact; auto with ea. rewrite !replace_packages. apply insert_insert_eq. }
  by rewrite E.
Qed.

(** ** What a search over records finds *)

(** The query of a search form, field by field. *)
Definition ask (period : option (UnixMillis * UnixMillis)) (k v p : option str) : ReaderQueryV1 :=
  let q := query_default in
  let q := match period with Some (from, to) => and_period from to q | None => q end in
  let q := match k with Some t => and_keyword t q | None => q end in
  let q := match v with Some t => and_vehicle t q | None => q end in
  match p with Some t => and_person t q | None => q end.

(** A field has the term up to normalization; an empty term is on no field. *)
Definition has_term (t : option str) (values : list str) : Prop :=
  match t with
  | Some t => normalize_term t ≠ [] ∧ ∃ v, v ∈ values ∧ normalize_term v = normalize_term t
  | None => True
  end.

(** The incident is within the period at some time. *)
Definition during (period : option (UnixMillis * UnixMillis)) (r : IndexableRecordV1) : Prop :=
  match period with
  | Some (from, to) => record_occurred_at_start r ≤ to
      ∧ from ≤ match record_occurred_at_end r with Some e => e | None => record_occurred_at_start r end
  | None => True
  end.

Lemma elem_of_term_keys values t :
  t ∈ term_keys values ↔ t ≠ [] ∧ ∃ v, v ∈ values ∧ normalize_term v = t.
Proof.
  unfold term_keys. rewrite elem_of_list_to_set, list_elem_of_filter, list_elem_of_fmap. naive_solver.
Qed.

Lemma carries_term_keys t values : carries (normalize_term <$> t) (term_keys values) = true ↔ has_term t values.
Proof. destruct t as [t|]; cbn; [|done]. by rewrite bool_decide_eq_true, elem_of_term_keys. Qed.

Lemma matches_ask period k v p r :
  matches (ask period k v p) (row r) = true ↔
  has_term k (record_keyword_terms r) ∧ has_term v (record_vehicle_terms r)
  ∧ has_term p (record_person_terms r) ∧ during period r.
Proof.
  assert (Hq : ask period k v p =
    {| query_period := period; query_keyword := normalize_term <$> k;
       query_vehicle := normalize_term <$> v; query_person := normalize_term <$> p |})
    by (by destruct period as [[]|], k, v, p).
  rewrite Hq. unfold matches. cbn [query_keyword query_vehicle query_person row package_of keyword_terms vehicle_terms person_terms].
  rewrite !andb_true_iff, !carries_term_keys. unfold in_period, overlaps, during. cbn.
  destruct period as [[from to]|]; [|tauto].
  rewrite andb_true_iff, Z.leb_le, Z.geb_leb, Z.leb_le. unfold default, from_option, id. tauto.
Qed.

Lemma lookup_rows rs h p :
  NoDup (source_entry_hash <$> rs) →
  rows rs ∅ !! h = Some p ↔ ∃ r, r ∈ rs ∧ source_entry_hash r = h ∧ row r = p.
Proof.
  intros Hn. assert (H0 : ∀ r, r ∈ rs → (∅ : gmap EntryHash IndexedPackageV1) !! source_entry_hash r = None) by done.
  enough (Hg : ∀ m, (∀ r, r ∈ rs → m !! source_entry_hash r = None) →
    rows rs m !! h = Some p ↔ m !! h = Some p ∨ ∃ r, r ∈ rs ∧ source_entry_hash r = h ∧ row r = p).
  { rewrite Hg by done. rewrite lookup_empty. naive_solver. }
  clear H0. induction rs as [|r rs IH]; intros m Hm; cbn; [set_solver|].
  cbn in Hn. apply NoDup_cons in Hn as [Hr Hn]. unfold rows in IH. rewrite IH; [|done|].
  - rewrite lookup_insert_Some. split.
    + intros [[[<- <-]|[_ ?]]|(r' & ? & ? & ?)]; [right; exists r; by repeat split; [left|..]|by left|].
      right. exists r'. by repeat split; [right|..].
    + intros [Hh|(r' & [->|Hr']%elem_of_cons & <- & <-)]; [|by left; left|by right; eauto].
      left. right. split; [|done]. intros <-. rewrite Hm in Hh by left. done.
  - intros r' Hr'. rewrite lookup_insert_ne; [apply Hm; by right|].
    intros E. apply Hr. rewrite E. by apply list_elem_of_fmap_2.
Qed.

Lemma scan_sorted ps q :
  (∀ h p, ps !! h = Some p → entry_hash (hit p) = h) →
  StronglySorted (key_lt (λ x, (chain_sequence x, entry_hash x))) (scan ps q).
Proof.
  intros Ho. unfold scan. apply sorted_fmap. apply sorted_NoDup_strict; [apply sort_by_key_sorted|].
  rewrite sort_by_key_perm. apply NoDup_fmap_2_strong.
  - intros p p' [_ [h Hh]%elem_of_into_values]%list_elem_of_filter [_ [h' Hh']%elem_of_into_values]%list_elem_of_filter.
    intros [= _ E]. rewrite (Ho _ _ Hh), (Ho _ _ Hh') in E. congruence.
  - apply NoDup_filter. unfold into_values, by_key. rewrite sort_by_key_perm.
    apply (NoDup_fmap_2_strong snd); [|apply NoDup_map_to_list].
    intros [h p] [h' p'] H1%elem_of_map_to_list H2%elem_of_map_to_list. cbn. intros <-.
    by rewrite <- (Ho _ _ H1), <- (Ho _ _ H2).
Qed.

(** C32. A search over a rebuilt index finds exactly the records with a keyword,
    a vehicle and a person equal to the asked terms up to normalization and
    with the asked period, each once and in the order of the chain. *)
Theorem rebuilt_search_finds rs i period k v p :
  NoDup (source_entry_hash <$> rs) → rebuild_from rs = Ok i →
  ∃ hits, search i (ask period k v p) = Ok hits
  ∧ StronglySorted (key_lt (λ x, (chain_sequence x, entry_hash x))) hits
  ∧ ∀ x, x ∈ hits ↔ ∃ r, r ∈ rs ∧ x = hit (row r)
      ∧ has_term k (record_keyword_terms r) ∧ has_term v (record_vehicle_terms r)
      ∧ has_term p (record_person_terms r) ∧ during period r.
Proof.
  intros Hn (_ & Hi & Hp)%rebuild_Ok. eexists. split_and!.
  - by apply search_scans.
  - apply scan_sorted, (wf_origin _ Hi).
  - intros x. unfold scan. rewrite list_elem_of_fmap. setoid_rewrite elem_of_sort_by_key.
    setoid_rewrite list_elem_of_filter. setoid_rewrite elem_of_into_values. rewrite Hp.
    setoid_rewrite lookup_rows; [|done]. setoid_rewrite <- matches_ask. split.
    + intros (q & -> & Hm & h & r & Hr & _ & <-). eauto.
    + intros (r & Hr & -> & Hm). exists (row r). eauto 7.
Qed.
End TextTheorems.

(** ** Example: three incidents, ASCII text *)
Module IndexExample.
Definition ascii_lower (b : byte) : byte := if (65 <=? u8 b) && (u8 b <=? 90) then byte_of (u8 b + 32) else b.

(** Text outside ASCII is left alone. *)
Definition is_ascii (s : str) : bool := forallb (λ b, u8 b <=? 127) s.

#[export] Instance ascii : Unicode :=
  {| to_nfc := id; to_lowercase s := if is_ascii s then ascii_lower <$> s else s |}.

Definition incident (n : byte) (seq start : Z) (end_ : option Z) (k v p : list string) : IndexableRecordV1 :=
  {| source_entry_hash := replicate 32 n; record_chain_sequence := seq; record_record_id := replicate 16 n;
     record_source_schema_id := lit "ea.incident"; record_source_schema_version := 1;
     record_target_schema_id := lit "ea.incident"; record_target_schema_version := 1;
     record_human_incident_number := lit "2026-1"; record_occurred_at_start := start;
     record_occurred_at_end := end_; record_keyword_terms := lit <$> k;
     record_vehicle_terms := lit <$> v; record_person_terms := lit <$> p |}.

Definition fire : IndexableRecordV1 := incident x03 7 100 (Some 200) ["Brand"; "BRAND"] ["LF 1"] ["Ada"].
Definition flood : IndexableRecordV1 := incident x02 9 300 None ["Wasser"] ["LF 1"; "TLF"] ["Ada"; "Bob"].
Definition alarm : IndexableRecordV1 := incident x01 8 150 None ["brand"] [] [].

Definition amendment : IndexableRecordV1 :=
  {| source_entry_hash := replicate 32 x04; record_chain_sequence := 10; record_record_id := replicate 16 x04;
     record_source_schema_id := lit "ea.amendment"; record_source_schema_version := 1;
     record_target_schema_id := lit "ea.amendment"; record_target_schema_version := 1;
     record_human_incident_number := []; record_occurred_at_start := 0; record_occurred_at_end := None;
     record_keyword_terms := []; record_vehicle_terms := []; record_person_terms := [] |}.

Definition all_three : list IndexableRecordV1 := [fire; flood; alarm].
Definition three : InvertedIndexV1 := foldl (λ i r, replace (row r) i) empty_index all_three.

Lemma three_distinct : NoDup (source_entry_hash <$> all_three).
Proof. apply (bool_decide_unpack _). vm_compute. exact I. Qed.

Lemma three_rebuilt : rebuild_from all_three = Ok three.
Proof. reflexivity. Qed.

Lemma three_wf : index_wf three.
Proof. unfold three, all_three. cbn [foldl]. auto with ea. Qed.

(** Upper case, a shared vehicle, a period and an amendment. *)
Example search_keyword : search three (ask None (Some (lit "bRaNd")) None None) = Ok [hit (row fire); hit (row alarm)].
Proof. vm_compute. reflexivity. Qed.
Example search_conjunction : search three (ask (Some (250, 400)) None (Some (lit "lf 1")) (Some (lit "ADA"))) = Ok [hit (row flood)].
Proof. vm_compute. reflexivity. Qed.
Example search_empty_term : search three (ask None (Some []) None None) = Ok [].
Proof. vm_compute. reflexivity. Qed.
End IndexExample.
Import IndexExample.

Lemma search_is_scan_witness : search three query_default = Ok (scan (packages three) query_default).
Proof. apply search_is_scan. apply three_wf. Defined.

Lemma upsert_refines_insert_witness :
  (index_wf (upsert amendment three).1 ∧ (upsert amendment three).1 = three)
  ∧ packages (upsert fire three).1 = <[source_entry_hash fire := row fire]> (packages three).
Proof.
  split.
  - destruct (upsert_refines_insert amendment three _ _ three_wf (surjective_pairing (upsert amendment three))) as [Hw He].
    split; [exact Hw|]. destruct (decide (supported amendment)) as [Hs|Hs]; [|exact (proj1 He)].
    exfalso. destruct Hs as (_ & _ & Hs & _). discriminate Hs.
  - destruct (upsert_refines_insert fire three _ _ three_wf (surjective_pairing (upsert fire three))) as [Hw He].
    destruct (decide (supported fire)) as [Hs|Hs]; [exact (proj1 He)|].
    exfalso. apply Hs. split_and!; [right; left|reflexivity..].
Defined.

Lemma rebuild_order_independent_witness : rebuild_from [alarm; flood; fire] = Ok three.
Proof.
  exact (proj1 (rebuild_order_independent all_three [alarm; flood; fire] three three_distinct
                  (Permutation_rev all_three)) three_rebuilt).
Defined.

Lemma upsert_idempotent_witness :
  (upsert fire empty_index).1 = (upsert fire (upsert fire empty_index).1).1.
Proof.
  exact (proj1 (upsert_idempotent fire empty_index _ _ _ _ empty_wf
    (surjective_pairing (upsert fire empty_index))
    (surjective_pairing (upsert fire (upsert fire empty_index).1)))).
Defined.

Lemma rebuilt_search_finds_witness :
  ∃ hits, search three (ask (Some (180, 400)) (Some (lit "BRAND")) (Some (lit "LF 1")) None) = Ok hits
  ∧ hit (row fire) ∈ hits.
Proof.
  destruct (rebuilt_search_finds all_three three (Some (180, 400)) (Some (lit "BRAND")) (Some (lit "LF 1")) None
              three_distinct three_rebuilt) as (hits & Hs & _ & Hx).
  exists hits. split; [exact Hs|]. apply Hx. exists fire.
  split_and!; [left|reflexivity| | |exact I|cbn; lia..].
  - split; [discriminate|]. exists (lit "Brand"). split; [left|reflexivity].
  - split; [discriminate|]. exists (lit "LF 1"). split; [left|reflexivity].
Defined.
