(* ===== verification/IndexBlob.v ===== *)
(** * IndexBlob: the sealed index of the reader ([ea-index], [blob.rs])

    The body of an index as deterministic CBOR, its sealing under a key with the
    header as associated data, and the way back: checking the header, opening,
    validating, decoding and rebuilding. The cipher is [AeadCipher] of
    [KeyStore]; [minicbor]'s decoder is [Minicbor] of [Profile] with the two
    calls [MinicborText] adds. A nonce is twelve bytes, so the length the code
    asserts of the header holds. *)

From S2P Require Import Prelude Types Utf8 Cbor CborSpec CborCanon CborTheorems Str Profile ImportReport KeyStore SearchIndex.
Import Idx(IndexError).

(** ** Format *)

Definition INDEX_BLOB_MAGIC_V1 : list byte := lit "EINSATZARCHIV-READER-INDEX-v1" ++ [x0a].
Definition INDEX_FORMAT_VERSION_V1 : Z := 1.
Definition INDEX_BLOB_HEADER_BYTES_V1 : Z := len INDEX_BLOB_MAGIC_V1 + 4 + Z.of_nat AEAD_NONCE_SIZE.
Definition INDEX_BLOB_MAX_PACKAGES_V1 : Z := 4 * MONOLITHIC_INDEX_MAX_PACKAGES_V1.

Definition INDEX_PARSER_LIMITS_V1 : ParserLimits :=
  {| max_depth := 8; max_container_items := INDEX_BLOB_MAX_PACKAGES_V1;
     max_total_items := 32 * INDEX_BLOB_MAX_PACKAGES_V1; max_text_or_bytes := 1048592 |}.

Definition PACKAGE_ROW_POSITIONS_V1 : Z := 13.

(** ** Encoding *)

Definition encode_end (e : option UnixMillis) : list byte :=
  match e with
  | None => cbor_array 0
  | Some end_ => cbor_array 1 ++ cbor_i64 end_
  end.

Definition encode_terms (terms : gset str) : list byte :=
  cbor_array (Z.of_nat (size terms)) ++ flat_map cbor_str (in_order terms).

Definition encode_row (p : IndexedPackageV1) : list byte :=
  cbor_array PACKAGE_ROW_POSITIONS_V1 ++ cbor_bytes (entry_hash (hit p))
  ++ cbor_u64 (chain_sequence (hit p)) ++ cbor_bytes (record_id (hit p))
  ++ cbor_str (source_schema_id (hit p)) ++ cbor_u64 (source_schema_version (hit p))
  ++ cbor_str (target_schema_id (hit p)) ++ cbor_u64 (target_schema_version (hit p))
  ++ cbor_str (human_incident_number (hit p)) ++ cbor_i64 (occurred_at_start (hit p))
  ++ encode_end (occurred_at_end p) ++ encode_terms (keyword_terms p)
  ++ encode_terms (vehicle_terms p) ++ encode_terms (person_terms p).

Definition encode_body (i : InvertedIndexV1) : list byte :=
  cbor_array (Z.of_nat (size (packages i))) ++ flat_map encode_row (into_values (packages i)).

(** ** Decoding *)

(** Two further calls of [minicbor::Decoder]. *)
Class MinicborText := {
  dec_str : list byte → option (str * list byte);
  dec_i64 : list byte → option (Z * list byte);
}.

(** A Rust [str] is UTF-8. *)
Definition valid_str (s : str) : Prop := is_Some (from_utf8 s).

Class MinicborTextLaws `{MinicborText} : Prop := {
  dec_str_law s r : valid_str s → sized (cbor_str s ++ r) → dec_str (cbor_str s ++ r) = Some (s, r);
  dec_i64_law v r : in_i64 v → sized (cbor_i64 v ++ r) → dec_i64 (cbor_i64 v ++ r) = Some (v, r);
}.

Section Decode.
Context `{Minicbor, MinicborText}.

(** A failed call and an array of indefinite length are a malformed body. *)
Definition malformed {A} (o : option A) : result IndexError A := ok_or Idx.BlobFormat o.

Definition read_array (r : list byte) : result IndexError (Z * list byte) :=
  '(n, r) ← malformed (dec_array r);
  n ← malformed n;
  Ok (n, r).

Definition sized_bytes {E} (f : list byte → result E (list byte)) (r : list byte)
    : result IndexError (list byte * list byte) :=
  '(b, r) ← malformed (dec_bytes r);
  match f b with Ok h => Ok (h, r) | Err _ => Err Idx.BlobFormat end.

Fixpoint terms_loop (n : nat) (previous : option str) (r : list byte) : result IndexError (list str * list byte) :=
  match n with
  | O => Ok ([], r)
  | S n =>
      '(term, r) ← malformed (dec_str r);
      if is_some_and (λ p, negb (bool_decide (cmp p term = Lt))) previous then Err Idx.BlobFormat else
      '(terms, r) ← terms_loop n (Some term) r;
      Ok (term :: terms, r)
  end.

Definition decode_terms (r : list byte) : result IndexError (list str * list byte) :=
  '(count, r) ← read_array r;
  terms_loop (Z.to_nat count) None r.

Definition decode_end (r : list byte) : result IndexError (option UnixMillis * list byte) :=
  '(n, r) ← read_array r;
  if n =? 0 then Ok (None, r) else
  if n =? 1 then '(end_, r) ← malformed (dec_i64 r); Ok (Some end_, r)
  else Err Idx.BlobFormat.

Definition decode_row (previous : option EntryHash) (r : list byte)
    : result IndexError (IndexableRecordV1 * list byte) :=
  '(positions, r) ← read_array r;
  if negb (positions =? PACKAGE_ROW_POSITIONS_V1) then Err Idx.BlobFormat else
  '(h, r) ← sized_bytes Hash32_try_from r;
  if is_some_and (λ p, negb (bool_decide (cmp p h = Lt))) previous then Err Idx.BlobFormat else
  '(sequence, r) ← malformed (dec_u64 r);
  '(id, r) ← sized_bytes Id16_try_from r;
  '(source_id, r) ← malformed (dec_str r);
  '(source_version, r) ← malformed (dec_u64 r);
  '(target_id, r) ← malformed (dec_str r);
  '(target_version, r) ← malformed (dec_u64 r);
  '(number, r) ← malformed (dec_str r);
  '(start, r) ← malformed (dec_i64 r);
  '(end_, r) ← decode_end r;
  '(keywords, r) ← decode_terms r;
  '(vehicles, r) ← decode_terms r;
  '(persons, r) ← decode_terms r;
  Ok ({| source_entry_hash := h; record_chain_sequence := sequence; record_record_id := id;
         record_source_schema_id := source_id; record_source_schema_version := source_version;
         record_target_schema_id := target_id; record_target_schema_version := target_version;
         record_human_incident_number := number; record_occurred_at_start := start;
         record_occurred_at_end := end_; record_keyword_terms := keywords;
         record_vehicle_terms := vehicles; record_person_terms := persons |}, r).

Fixpoint rows_loop (n : nat) (previous : option EntryHash) (r : list byte)
    : result IndexError (list IndexableRecordV1 * list byte) :=
  match n with
  | O => Ok ([], r)
  | S n =>
      '(record, r) ← decode_row previous r;
      '(records, r) ← rows_loop n (Some (source_entry_hash record)) r;
      Ok (record :: records, r)
  end.

Definition decode_body (body : list byte) : result IndexError (list IndexableRecordV1) :=
  '(n, r) ← read_array body;
  '(records, r) ← rows_loop (Z.to_nat n) None r;
  if negb (is_empty r) then Err Idx.BlobFormat else Ok records.
End Decode.

(** ** Sealing and opening *)

Section Blob.
Context (nfc : list Z → list Z) `{AeadCipher, Minicbor, MinicborText, Unicode}.

(** The scanner's fuel is never used up, so [OutOfFuel] does not occur. *)
Definition check_body (body : list byte) : result IndexError unit :=
  match validate nfc body INDEX_PARSER_LIMITS_V1 with
  | Ok _ => Ok tt
  | Err (Fault e) => Err (Idx.Cbor e)
  | Err OutOfFuel => Err (Idx.Cbor Invalid)
  end.

Definition crypted {A} (r : result Crypto.CryptoError A) : result IndexError A :=
  match r with Ok a => Ok a | Err e => Err (Idx.Crypto e) end.

Definition blob_header (nonce : list byte) : list byte :=
  INDEX_BLOB_MAGIC_V1 ++ to_be_bytes 4 INDEX_FORMAT_VERSION_V1 ++ nonce.

Definition seal (i : InvertedIndexV1) (key : secret) (nonce : list byte) : result IndexError (list byte) :=
  let body := encode_body i in
  check_body body;;
  let header := blob_header nonce in
  ciphertext ← crypted (aead_seal key nonce body header);
  Ok (header ++ ciphertext).

Definition open_blob (bytes : list byte) (key : secret) : result IndexError InvertedIndexV1 :=
  if len bytes <? INDEX_BLOB_HEADER_BYTES_V1 + AEAD_OVERHEAD then Err Idx.BlobFormat else
  let header := take (Z.to_nat INDEX_BLOB_HEADER_BYTES_V1) bytes in
  let ciphertext := drop (Z.to_nat INDEX_BLOB_HEADER_BYTES_V1) bytes in
  if bool_decide (take (length INDEX_BLOB_MAGIC_V1) header ≠ INDEX_BLOB_MAGIC_V1) then Err Idx.BlobFormat else
  let rest := drop (length INDEX_BLOB_MAGIC_V1) header in
  if negb (from_be_bytes (take 4 rest) =? INDEX_FORMAT_VERSION_V1) then Err Idx.BlobFormat else
  let nonce := drop 4 rest in
  body ← crypted (aead_open key nonce ciphertext header);
  check_body body;;
  records ← decode_body body;
  rebuild_from records.
End Blob.

(** ** Decoding what was encoded *)

(** What holds of every row the index keeps: the widths of its fields, text in
    UTF-8, a projected schema, display text composed and terms folded. *)
Record row_wf `{Unicode} (p : IndexedPackageV1) : Prop := {
  rw_hash : length (entry_hash (hit p)) = 32%nat;
  rw_id : length (record_id (hit p)) = 16%nat;
  rw_sequence : in_u64 (chain_sequence (hit p));
  rw_start : in_i64 (occurred_at_start (hit p));
  rw_end : ∀ e, occurred_at_end p = Some e → in_i64 e;
  rw_source : source_schema_id (hit p) ∈ descriptor_schema_id <$> V1_SCHEMAS;
  rw_source_version : source_schema_version (hit p) = SCHEMA_VERSION_V1;
  rw_target : target_schema_id (hit p) = PROJECTED_TARGET_SCHEMA_ID_V1;
  rw_target_version : target_schema_version (hit p) = SCHEMA_VERSION_V1;
  rw_number : valid_str (human_incident_number (hit p))
    ∧ normalize_display (human_incident_number (hit p)) = human_incident_number (hit p);
  rw_terms : ∀ t, t ∈ keyword_terms p ∪ vehicle_terms p ∪ person_terms p →
    valid_str t ∧ t ≠ [] ∧ normalize_term t = t;
}.

(** The record a row is decoded to. *)
Definition record_of (p : IndexedPackageV1) : IndexableRecordV1 :=
  {| source_entry_hash := entry_hash (hit p); record_chain_sequence := chain_sequence (hit p);
     record_record_id := record_id (hit p);
     record_source_schema_id := source_schema_id (hit p);
     record_source_schema_version := source_schema_version (hit p);
     record_target_schema_id := target_schema_id (hit p);
     record_target_schema_version := target_schema_version (hit p);
     record_human_incident_number := human_incident_number (hit p);
     record_occurred_at_start := occurred_at_start (hit p);
     record_occurred_at_end := occurred_at_end p;
     record_keyword_terms := in_order (keyword_terms p);
     record_vehicle_terms := in_order (vehicle_terms p);
     record_person_terms := in_order (person_terms p) |}.

Lemma schema_valid id : id ∈ descriptor_schema_id <$> V1_SCHEMAS → valid_str id.
Proof.
  intros (d & -> & Hd)%list_elem_of_fmap. unfold V1_SCHEMAS in Hd.
  repeat (apply elem_of_cons in Hd as [->|Hd]; [by eexists|]). by apply elem_of_nil in Hd.
Qed.

Lemma follows_ok {A} `{!Cmp A} (previous : option A) x :
  (∀ p, previous = Some p → cmp p x = Lt) →
  is_some_and (λ p, negb (bool_decide (cmp p x = Lt))) previous = false.
Proof. destruct previous; cbn; [|done]. intros Hp. by rewrite bool_decide_eq_true_2 by eauto. Qed.

Lemma length_in_order {A} `{Countable A, !Cmp A} (s : gset A) : length (in_order s) = size s.
Proof. unfold in_order. by rewrite sort_by_key_perm. Qed.

Lemma cbor_str_nonempty s : cbor_str s ≠ [].
Proof. unfold cbor_str. rewrite head_bytes_split. done. Qed.

Lemma flat_map_nonempty {A} (f : A → list byte) l :
  (∀ x, f x ≠ []) → (length l ≤ length (flat_map f l))%nat.
Proof.
  intros Hf. induction l as [|x l IH]; cbn; [lia|]. rewrite length_app. specialize (Hf x).
  destruct (f x); [done|]. cbn. lia.
Qed.

Lemma flat_map_length_in {A} (f : A → list byte) l x :
  x ∈ l → (length (f x) ≤ length (flat_map f l))%nat.
Proof. induction 1; cbn; rewrite length_app; lia. Qed.

Section Roundtrip.
Context `{MinicborLaws, MinicborTextLaws}.

Lemma read_array_law n r : in_u64 n → sized (cbor_array n ++ r) → read_array (cbor_array n ++ r) = Ok (n, r).
Proof. intros Hn Hs. unfold read_array. by rewrite dec_array_law. Qed.

Lemma sized_bytes_law {E} (f : list byte → result E (list byte)) b r :
  f b = Ok b → sized (cbor_bytes b ++ r) → sized_bytes f (cbor_bytes b ++ r) = Ok (b, r).
Proof. intros Hf Hs. unfold sized_bytes. rewrite dec_bytes_law by done. cbn. by rewrite Hf. Qed.

Lemma str_law s r : valid_str s → sized (cbor_str s ++ r) → malformed (dec_str (cbor_str s ++ r)) = Ok (s, r).
Proof. intros. by rewrite dec_str_law. Qed.

Lemma u64_law v r : in_u64 v → sized (cbor_u64 v ++ r) → malformed (dec_u64 (cbor_u64 v ++ r)) = Ok (v, r).
Proof. intros. by rewrite dec_u64_law. Qed.

Lemma i64_law v r : in_i64 v → sized (cbor_i64 v ++ r) → malformed (dec_i64 (cbor_i64 v ++ r)) = Ok (v, r).
Proof. intros. by rewrite dec_i64_law. Qed.

Lemma terms_loop_law l previous r :
  StronglySorted (key_lt id) l → Forall valid_str l →
  (∀ p t, previous = Some p → t ∈ l → cmp p t = Lt) → sized (flat_map cbor_str l ++ r) →
  terms_loop (length l) previous (flat_map cbor_str l ++ r) = Ok (l, r).
Proof.
  intros Hs. revert previous. induction Hs as [|t l Hs IH Hlt]; intros previous HF Hp Hz; [done|].
  inversion HF as [|? ? Ht HF']; subst. cbn [flat_map length terms_loop] in *. rewrite <- app_assoc in *.
  rewrite str_law by done. cbn [mbind result_bind].
  rewrite follows_ok by (intros p E; apply (Hp p t E); left).
  rewrite IH; [done|done| |by eapply sized_suffix].
  intros p u [= <-] Hu. rewrite Forall_forall in Hlt. by apply Hlt.
Qed.

Lemma size_u64 (s : gset str) r :
  sized (flat_map cbor_str (in_order s) ++ r) → in_u64 (Z.of_nat (size s)).
Proof.
  intros Hs%sized_prefix. rewrite <- length_in_order. unfold sized, in_u64, len in *.
  pose proof (flat_map_nonempty cbor_str (in_order s) cbor_str_nonempty). lia.
Qed.

Lemma decode_terms_law terms r :
  (∀ t, t ∈ terms → valid_str t) → sized (encode_terms terms ++ r) →
  decode_terms (encode_terms terms ++ r) = Ok (in_order terms, r).
Proof.
  intros Ht Hs. unfold decode_terms, encode_terms in *. rewrite <- app_assoc in *.
  rewrite read_array_law; [|by eapply size_u64, sized_suffix|done].
  cbn [mbind result_bind]. rewrite Nat2Z.id, <- length_in_order.
  apply terms_loop_law; [apply in_order_strict| |done|by eapply sized_suffix].
  apply Forall_forall. intros t. rewrite elem_of_in_order. apply Ht.
Qed.

Lemma decode_end_law e r :
  (∀ v, e = Some v → in_i64 v) → sized (encode_end e ++ r) → decode_end (encode_end e ++ r) = Ok (e, r).
Proof.
  intros He Hs. unfold decode_end, encode_end in *. destruct e as [v|].
  - rewrite <- app_assoc in *. rewrite read_array_law by done. cbn [mbind result_bind].
    change (1 =? 0) with false. change (1 =? 1) with true. cbn iota.
    rewrite i64_law; [done|by apply He|by eapply sized_suffix].
  - by rewrite read_array_law.
Qed.

(** Passes to the rest of the input after a call. *)
Ltac dec_next Hs := apply sized_suffix in Hs; cbn [mbind result_bind].

(** One row. *)
Lemma decode_row_law `{Unicode} p previous r :
  row_wf p → (∀ h, previous = Some h → cmp h (entry_hash (hit p)) = Lt) → sized (encode_row p ++ r) →
  decode_row previous (encode_row p ++ r) = Ok (record_of p, r).
Proof.
  intros W Hp Hs. unfold decode_row, encode_row in *. rewrite <- !app_assoc in *.
  rewrite read_array_law by (done || by apply small_u64). dec_next Hs.
  rewrite Z.eqb_refl. cbn [negb].
  rewrite sized_bytes_law by (done || (unfold Hash32_try_from; by rewrite decide_True by apply W)). dec_next Hs.
  rewrite follows_ok by done.
  rewrite u64_law by (done || apply W). dec_next Hs.
  rewrite sized_bytes_law by (done || (unfold Id16_try_from; by rewrite decide_True by apply W)). dec_next Hs.
  rewrite str_law by (done || apply schema_valid, W). dec_next Hs.
  rewrite u64_law by (done || by rewrite (rw_source_version _ W)). dec_next Hs.
  rewrite str_law by (done || (apply schema_valid; rewrite (rw_target _ W); right; left)). dec_next Hs.
  rewrite u64_law by (done || by rewrite (rw_target_version _ W)). dec_next Hs.
  rewrite str_law by (done || apply (rw_number _ W)). dec_next Hs.
  rewrite i64_law by (done || apply W). dec_next Hs.
  rewrite decode_end_law by (done || apply W). dec_next Hs.
  assert (Ht : ∀ t, t ∈ keyword_terms p ∪ vehicle_terms p ∪ person_terms p → valid_str t) by (intros; by apply (rw_terms _ W)).
  rewrite decode_terms_law by (done || set_solver). dec_next Hs.
  rewrite decode_terms_law by (done || set_solver). dec_next Hs.
  by rewrite decode_terms_law by (done || set_solver).
Qed.

Definition after (previous : option EntryHash) (p : IndexedPackageV1) : Prop :=
  ∀ h, previous = Some h → cmp h (entry_hash (hit p)) = Lt.

Lemma rows_loop_law `{Unicode} l previous r :
  StronglySorted (key_lt (λ p, entry_hash (hit p))) l → Forall row_wf l → Forall (after previous) l →
  sized (flat_map encode_row l ++ r) →
  rows_loop (length l) previous (flat_map encode_row l ++ r) = Ok (record_of <$> l, r).
Proof.
  intros Hs. revert previous. induction Hs as [|p l Hs IH Hlt]; intros previous HF Hp Hz; [done|].
  inversion HF as [|? ? Ht HF']; subst. inversion Hp as [|? ? Hp1 Hp2]; subst.
  cbn [flat_map length rows_loop] in *. rewrite <- app_assoc in *.
  rewrite decode_row_law by done. dec_next Hz. rewrite IH; [done|done| |done].
  rewrite Forall_forall in Hlt. apply Forall_forall. intros q Hq h [= <-]. by apply Hlt.
Qed.
End Roundtrip.

(** ** What the index keeps *)

(** The laws of Unicode text the index relies on: composition is idempotent,
    composed lower case is lower case, and both keep UTF-8. *)
Class UnicodeLaws `{Unicode} : Prop := {
  nfc_idempotent s : valid_str s → to_nfc (to_nfc s) = to_nfc s;
  lower_stable s : valid_str s → to_lowercase (to_nfc (to_lowercase s)) = to_nfc (to_lowercase s);
  nfc_valid s : valid_str s → valid_str (to_nfc s);
  lower_valid s : valid_str s → valid_str (to_lowercase s);
}.

(** The types of a record's fields. *)
Record record_wf (r : IndexableRecordV1) : Prop := {
  rec_hash : length (source_entry_hash r) = 32%nat;
  rec_id : length (record_record_id r) = 16%nat;
  rec_sequence : in_u64 (record_chain_sequence r);
  rec_start : in_i64 (record_occurred_at_start r);
  rec_end : ∀ e, record_occurred_at_end r = Some e → in_i64 e;
  rec_number : valid_str (record_human_incident_number r);
  rec_terms : ∀ t, t ∈ record_keyword_terms r ++ record_vehicle_terms r ++ record_person_terms r → valid_str t;
}.

(** A consistent index of well-formed rows. *)
Record stored_wf `{Unicode} (i : InvertedIndexV1) : Prop := {
  stored_index : index_wf i;
  stored_rows : ∀ h p, packages i !! h = Some p → row_wf p;
}.

Section Stored.
Context `{UnicodeLaws}.

Lemma term_idempotent t : valid_str t → normalize_term (normalize_term t) = normalize_term t.
Proof.
  intros Hv. unfold normalize_term. pose proof (nfc_valid _ Hv). pose proof (lower_valid _ (nfc_valid _ Hv)).
  rewrite (nfc_idempotent (to_lowercase _)), lower_stable, nfc_idempotent by done. done.
Qed.

Lemma term_keys_wf values t :
  (∀ v, v ∈ values → valid_str v) → t ∈ term_keys values → valid_str t ∧ t ≠ [] ∧ normalize_term t = t.
Proof.
  intros Hv (Hne & v & Hin & <-)%elem_of_term_keys. specialize (Hv v Hin).
  split_and!; [|done|by apply term_idempotent]. unfold normalize_term. auto using nfc_valid, lower_valid.
Qed.

Lemma row_row_wf r : record_wf r → supported r → row_wf (row r).
Proof.
  intros [] (Hs & Hsv & Ht & Htv). split; cbn; try done.
  - unfold normalize_display. split; [by apply nfc_valid|by apply nfc_idempotent].
  - intros t [[Hk|Hk]%elem_of_union|Hk]%elem_of_union;
      (eapply term_keys_wf; [|done]; intros v Hv'; apply rec_terms0; rewrite !elem_of_app; tauto).
Qed.

Lemma empty_stored : stored_wf empty_index.
Proof. split; [apply empty_wf|done]. Qed.

Lemma upsert_stored r i : record_wf r → stored_wf i → stored_wf (upsert r i).1.
Proof.
  intros Hr [Hi Hrows]. rewrite upsert_spec. case_decide; cbn; [|done]. split; [auto with ea|].
  intros h p. rewrite replace_packages. intros [[_ <-]|[_ ?]]%lookup_insert_Some; [by apply row_row_wf|by eapply Hrows].
Qed.

(** Every index that upserts reach from the empty one. *)
Definition upserts (rs : list IndexableRecordV1) (i : InvertedIndexV1) : InvertedIndexV1 :=
  foldl (λ i r, (upsert r i).1) i rs.

Lemma upserts_stored rs i : Forall record_wf rs → stored_wf i → stored_wf (upserts rs i).
Proof.
  intros HF. revert i. induction HF as [|r rs Hr HF IH]; intros i Hi; [done|]. by apply IH, upsert_stored.
Qed.

(** C34. Taking records in keeps the index well-typed: each row has the widths of
    its fields, text in UTF-8, a registered source and the projected target
    schema, a composed incident number and folded, non-empty terms, under the
    entry hash it names. *)
Theorem upserts_well_typed rs h p :
  Forall record_wf rs → packages (upserts rs empty_index) !! h = Some p → row_wf p ∧ entry_hash (hit p) = h.
Proof.
  intros HF Hp. destruct (upserts_stored rs empty_index HF empty_stored) as [Hi Hr].
  split; [by eapply Hr|by apply (wf_origin _ Hi)].
Qed.

Lemma term_keys_in_order (s : gset str) :
  (∀ t, t ∈ s → t ≠ [] ∧ normalize_term t = t) → term_keys (in_order s) = s.
Proof.
  intros Hs. apply set_eq. intros t. rewrite elem_of_term_keys. setoid_rewrite elem_of_in_order. split.
  - intros (_ & v & Hv & <-). by rewrite (proj2 (Hs v Hv)).
  - intros Ht. destruct (Hs t Ht). eauto.
Qed.

(** Decoding a row and taking its record in gives the row back. *)
Lemma row_record_of p : row_wf p → row (record_of p) = p.
Proof.
  intros [? ? ? ? ? ? ? ? ? [_ Hn] Ht]. unfold row, package_of, record_of. destruct p as [[] ? k v q].
  cbn in Hn, Ht. cbn -[term_keys in_order normalize_display]. rewrite !term_keys_in_order by (intros t Hin; apply (Ht t); set_solver). by rewrite Hn.
Qed.

Lemma record_of_supported p : row_wf p → supported (record_of p).
Proof. by intros []. Qed.

Lemma values_keys i : index_wf i → StronglySorted (key_lt (λ p, entry_hash (hit p))) (into_values (packages i)).
Proof.
  intros Hi. unfold into_values. apply (sorted_fmap snd). eapply sorted_impl; [|apply by_key_strict].
  intros [h p] [h' p'] H1%elem_of_by_key H2%elem_of_by_key. unfold key_lt. cbn.
  by rewrite (wf_origin _ Hi _ _ H1), (wf_origin _ Hi _ _ H2).
Qed.

(** The decoded rows rebuild the index. *)
Lemma rebuild_record_of i : stored_wf i → rebuild_from (record_of <$> into_values (packages i)) = Ok i.
Proof.
  intros [Hi Hr]. apply rebuild_Ok. split_and!; [|done|].
  - apply Forall_forall. intros r (p & -> & [h Hh]%elem_of_into_values)%list_elem_of_fmap.
    by eapply record_of_supported, Hr.
  - apply map_eq. intros h. apply option_eq. intros p. rewrite lookup_rows.
    + split.
      * intros Hp. exists (record_of p). split; [apply list_elem_of_fmap_2, elem_of_into_values; eauto|].
        cbn. split; [by apply (wf_origin _ Hi)|by eapply row_record_of, Hr].
      * intros (r & (q & -> & [h' Hq]%elem_of_into_values)%list_elem_of_fmap & Hh & Hrow). cbn in Hh.
        rewrite (wf_origin _ Hi _ _ Hq) in Hh. subst h'. rewrite row_record_of in Hrow by (by eapply Hr). by subst.
    + rewrite <- list_fmap_compose. eapply key_lt_NoDup_keys, values_keys, Hi.
Qed.
End Stored.

(** ** The sealed blob *)

Lemma check_body_Ok nfc body u : check_body nfc body = Ok u → validate nfc body INDEX_PARSER_LIMITS_V1 = Ok tt.
Proof. unfold check_body. by destruct (validate _ _ _) as [[]|[|e]]. Qed.

Lemma crypted_Ok {A} (r : result Crypto.CryptoError A) a : crypted r = Ok a ↔ r = Ok a.
Proof. destruct r; cbn; split; congruence. Qed.

Lemma blob_header_length nonce :
  length nonce = AEAD_NONCE_SIZE → length (blob_header nonce) = Z.to_nat INDEX_BLOB_HEADER_BYTES_V1.
Proof. intros Hn. unfold blob_header. rewrite !length_app, Hn. reflexivity. Qed.

Lemma length_values i : length (into_values (packages i)) = size (packages i).
Proof. unfold into_values, by_key. rewrite length_fmap, sort_by_key_perm. apply length_map_to_list. Qed.

(** The version field has one spelling. *)
Lemma version_bytes b : length b = 4%nat → from_be_bytes b = INDEX_FORMAT_VERSION_V1 → b = to_be_bytes 4 INDEX_FORMAT_VERSION_V1.
Proof. intros Hl [Hb _]%from_be_bytes_iff. by rewrite Hl in Hb. Qed.

Lemma drop_take_cut (bytes : list byte) n m k :
  (m + k ≤ n)%nat → take k (drop m (take n bytes)) = take k (drop m bytes).
Proof. intros Hn. rewrite !take_drop_commute, take_take. do 2 f_equal. lia. Qed.

Section BlobTheorems.
Context (nfc : list Z → list Z) `{AeadLaws, MinicborLaws, MinicborTextLaws, UnicodeLaws}.

Lemma decode_body_law i : stored_wf i → sized (encode_body i) → decode_body (encode_body i) = Ok (record_of <$> into_values (packages i)).
Proof.
  intros [Hi Hr] Hs. unfold decode_body, encode_body in *. set (l := into_values (packages i)) in *.
  assert (Hl : size (packages i) = length l) by (symmetry; apply length_values).
  assert (HF : Forall row_wf l).
  { apply Forall_forall. intros p [h Hh]%elem_of_into_values. by eapply Hr. }
  rewrite Hl in *.
  rewrite read_array_law; [| |done].
  - cbn [mbind result_bind]. rewrite Nat2Z.id. rewrite <- (app_nil_r (flat_map encode_row l)).
    rewrite rows_loop_law; [done|by apply values_keys|done| |].
    + by apply Forall_true.
    + rewrite app_nil_r. by eapply sized_suffix.
  - apply sized_suffix in Hs. unfold sized, in_u64, len in *.
    pose proof (flat_map_nonempty encode_row l ltac:(done)). lia.
Qed.

(** The header a sealed blob starts with passes the checks of the opening. *)
Lemma open_header nonce c key :
  length nonce = AEAD_NONCE_SIZE → AEAD_OVERHEAD ≤ len c →
  open_blob nfc (blob_header nonce ++ c) key =
  (body ← crypted (aead_open key nonce c (blob_header nonce));
   check_body nfc body;; records ← decode_body body; rebuild_from records).
Proof.
  intros Hn Hc. unfold open_blob. pose proof (blob_header_length nonce Hn) as Hl.
  assert (Hlen : len (blob_header nonce) = INDEX_BLOB_HEADER_BYTES_V1) by (unfold len; rewrite Hl; reflexivity).
  rewrite len_app, (proj2 (Z.ltb_ge _ _)) by lia.
  rewrite <- Hl. rewrite take_app_length, drop_app_length.
  assert (Ht : take (length INDEX_BLOB_MAGIC_V1) (blob_header nonce) = INDEX_BLOB_MAGIC_V1) by apply take_app_length.
  assert (Hd : drop (length INDEX_BLOB_MAGIC_V1) (blob_header nonce) = to_be_bytes 4 INDEX_FORMAT_VERSION_V1 ++ nonce)
    by apply drop_app_length.
  rewrite Ht, Hd, bool_decide_eq_false_2 by auto.
  change (take 4 (to_be_bytes 4 INDEX_FORMAT_VERSION_V1 ++ nonce)) with (to_be_bytes 4 INDEX_FORMAT_VERSION_V1).
  change (drop 4 (to_be_bytes 4 INDEX_FORMAT_VERSION_V1 ++ nonce)) with nonce. reflexivity.
Qed.

Lemma seal_open i key nonce blob :
  stored_wf i → length nonce = AEAD_NONCE_SIZE → seal nfc i key nonce = Ok blob → open_blob nfc blob key = Ok i.
Proof.
  intros Hi Hn Hs. unfold seal in Hs. apply bind_Ok in Hs as (u & Hv & Hs). apply bind_Ok in Hs as (c & Hc & Hs).
  assert (blob = blob_header nonce ++ c) as -> by congruence. clear Hs. apply crypted_Ok in Hc.
  assert (Hz : sized (encode_body i) ∧ AEAD_OVERHEAD ≤ len c).
  { pose proof Hc as Hc'. unfold aead_seal, checked_ciphertext_length in Hc'.
    apply bind_Ok in Hc' as (x & Hx & Hc'). apply ok_or_Ok, checked_add_Some in Hx as [-> Hx].
    apply bind_Ok in Hc' as (y & Hy & Hc'). case_bool_decide as Hl; [done|]. injection Hc' as ->.
    unfold sized, len, usize_max, AEAD_OVERHEAD in *. lia. }
  destruct Hz as [Hz Hlen]. rewrite open_header by done. rewrite (open_seal _ _ _ _ _ Hc). cbn [crypted mbind result_bind].
  rewrite Hv. cbn [mbind result_bind]. rewrite decode_body_law by done. cbn [mbind result_bind].
  by apply rebuild_record_of.
Qed.

(** C33. Whatever records an index has taken in, refused or replaced, the blob
    it seals opens under the same key to the same index: rows, posting lists
    and pressure. *)
Theorem seal_open_roundtrip rs key nonce blob :
  Forall record_wf rs → length nonce = AEAD_NONCE_SIZE →
  seal nfc (upserts rs empty_index) key nonce = Ok blob →
  open_blob nfc blob key = Ok (upserts rs empty_index).
Proof. intros HF. apply seal_open, upserts_stored; [done|apply empty_stored]. Qed.

(** An artefact without the header is told apart from a wrong key: it is
    refused as malformed whatever the key is. *)
Lemma foreign_blob_refused bytes key :
  len bytes < INDEX_BLOB_HEADER_BYTES_V1 + AEAD_OVERHEAD
  ∨ ¬ (INDEX_BLOB_MAGIC_V1 ++ to_be_bytes 4 INDEX_FORMAT_VERSION_V1) `prefix_of` bytes →
  open_blob nfc bytes key = Err Idx.BlobFormat.
Proof.
  intros Hb. unfold open_blob. destruct (_ <? _) eqn:E; [done|]. apply Z.ltb_ge in E.
  destruct Hb as [?|Hb]; [lia|]. case_bool_decide as Hm; [done|].
  destruct (negb _) eqn:Ev; [done|]. exfalso. apply negb_false_iff, Z.eqb_eq in Ev. apply Hb.
  rewrite drop_take_cut in Ev by (vm_compute; lia).
  rewrite take_take in Hm. change (_ `min` _)%nat with (length INDEX_BLOB_MAGIC_V1) in Hm.
  apply version_bytes in Ev.
  - rewrite <- (take_drop (length INDEX_BLOB_MAGIC_V1) bytes), Hm. apply prefix_app.
    rewrite <- (take_drop 4 (drop _ bytes)), Ev. by eexists.
  - rewrite length_take, length_drop. unfold len in E. revert E.
    change (length INDEX_BLOB_MAGIC_V1) with 30%nat. change (INDEX_BLOB_HEADER_BYTES_V1 + AEAD_OVERHEAD) with 62. lia.
Qed.
End BlobTheorems.

(** ** Which indexes fit into a blob *)

Definition end_tree (e : option UnixMillis) : item :=
  Array match e with Some v => [int_tree v] | None => [] end.

Definition terms_tree (s : gset str) : item := Array (Text <$> in_order s).

Definition package_tree (p : IndexedPackageV1) : item :=
  Array [Bytes (entry_hash (hit p)); UInt (chain_sequence (hit p)); Bytes (record_id (hit p));
         Text (source_schema_id (hit p)); UInt (source_schema_version (hit p));
         Text (target_schema_id (hit p)); UInt (target_schema_version (hit p));
         Text (human_incident_number (hit p)); int_tree (occurred_at_start (hit p));
         end_tree (occurred_at_end p); terms_tree (keyword_terms p); terms_tree (vehicle_terms p);
         terms_tree (person_terms p)].

Definition body_tree (i : InvertedIndexV1) : item := Array (package_tree <$> into_values (packages i)).

Lemma flat_map_enc {A} (f : A → list byte) (t : A → item) l :
  (∀ x, f x = enc (t x)) → flat_map f l = flat_map enc (t <$> l).
Proof. intros Hf. induction l as [|x l IH]; [done|]. cbn. by rewrite IH, Hf. Qed.

Lemma enc_terms s : encode_terms s = enc (terms_tree s).
Proof.
  unfold encode_terms, terms_tree. cbn [enc]. unfold len. rewrite length_fmap, length_in_order.
  unfold cbor_array. f_equal. by apply flat_map_enc.
Qed.

Lemma enc_end e : encode_end e = enc (end_tree e).
Proof. destruct e as [v|]; [|done]. cbn. by rewrite enc_int, app_nil_r. Qed.

Lemma enc_package p : encode_row p = enc (package_tree p).
Proof.
  unfold encode_row, package_tree. rewrite enc_end, !enc_terms, enc_int.
  generalize (end_tree (occurred_at_end p)) as e, (terms_tree (keyword_terms p)) as k,
    (terms_tree (vehicle_terms p)) as v, (terms_tree (person_terms p)) as q, (int_tree (occurred_at_start (hit p))) as s.
  intros. cbn [enc flat_map]. rewrite app_nil_r. reflexivity.
Qed.

Lemma enc_body i : encode_body i = enc (body_tree i).
Proof.
  unfold encode_body, body_tree. cbn [enc]. unfold len. rewrite length_fmap, length_values. unfold cbor_array.
  f_equal. apply flat_map_enc, enc_package.
Qed.

(** The items of a row: fourteen, one for an end and one for each term. *)
Definition marks (p : IndexedPackageV1) : Z :=
  14 + match occurred_at_end p with Some _ => 1 | None => 0 end + Z.of_nat (size (keyword_terms p))
  + Z.of_nat (size (vehicle_terms p)) + Z.of_nat (size (person_terms p)).

Lemma count_int v : count (int_tree v) = 1.
Proof. unfold int_tree. by case_match. Qed.

Lemma count_terms s : count (terms_tree s) = 1 + Z.of_nat (size s).
Proof.
  unfold terms_tree. rewrite <- length_in_order. cbn [count]. f_equal.
  induction (in_order s) as [|t l IH]; [done|]. cbn [fmap list_fmap sum_with foldr count length] in *.
  unfold sum_with in IH. rewrite IH. lia.
Qed.

Lemma count_package p : count (package_tree p) = marks p.
Proof.
  assert (He : count (end_tree (occurred_at_end p)) = 1 + match occurred_at_end p with Some _ => 1 | None => 0 end).
  { destruct (occurred_at_end p); cbn; by rewrite ?count_int. }
  unfold package_tree, marks. pose proof (count_terms (keyword_terms p)) as Hk.
  pose proof (count_terms (vehicle_terms p)) as Hv. pose proof (count_terms (person_terms p)) as Hp.
  pose proof (count_int (occurred_at_start (hit p))) as Hi. revert He Hk Hv Hp Hi.
  generalize (end_tree (occurred_at_end p)) as e, (terms_tree (keyword_terms p)) as k,
    (terms_tree (vehicle_terms p)) as v, (terms_tree (person_terms p)) as q, (int_tree (occurred_at_start (hit p))) as s.
  intros e k v q s He Hk Hv Hp Hi. cbn [count sum_with foldr]. rewrite He, Hk, Hv, Hp, Hi. lia.
Qed.

Lemma count_body i : count (body_tree i) = 1 + sum_with marks (into_values (packages i)).
Proof.
  unfold body_tree. cbn [count]. f_equal. induction (into_values (packages i)) as [|p l IH]; [done|].
  cbn [fmap list_fmap sum_with foldr] in *. unfold sum_with in IH. by rewrite IH, count_package.
Qed.

Lemma terms_length p :
  (size (keyword_terms p) ≤ length (encode_row p))%nat ∧ (size (vehicle_terms p) ≤ length (encode_row p))%nat
  ∧ (size (person_terms p) ≤ length (encode_row p))%nat.
Proof.
  assert (Ht : ∀ s, (size s ≤ length (encode_terms s))%nat).
  { intros s. unfold encode_terms. rewrite length_app, <- length_in_order.
    pose proof (flat_map_nonempty cbor_str (in_order s) cbor_str_nonempty). lia. }
  pose proof (Ht (keyword_terms p)). pose proof (Ht (vehicle_terms p)). pose proof (Ht (person_terms p)).
  unfold encode_row. rewrite !length_app. lia.
Qed.

Lemma row_length i h p : packages i !! h = Some p → (length (encode_row p) ≤ length (encode_body i))%nat.
Proof.
  intros Hh. unfold encode_body. rewrite length_app.
  pose proof (flat_map_length_in encode_row (into_values (packages i)) p
    ltac:(apply elem_of_into_values; eauto)). lia.
Qed.

Lemma packages_length i : (size (packages i) ≤ length (encode_body i))%nat.
Proof.
  unfold encode_body. rewrite length_app, <- length_values.
  pose proof (flat_map_nonempty encode_row (into_values (packages i)) ltac:(done)). lia.
Qed.

Section Limits.
Context (nfc : list Z → list Z) `{UnicodeLaws}.

(** Composed text passes the scanner's check of normalization. *)
Context (Hnfc : ∀ s, valid_str s → to_nfc s = s → is_text nfc s).
(** The schema identifiers are composed. *)
Context (Hid : ∀ d, d ∈ V1_SCHEMAS → is_text nfc (descriptor_schema_id d)).

(** No text is longer than a payload may make it. *)
Definition short_texts (p : IndexedPackageV1) : Prop :=
  ∀ t, t ∈ {[human_incident_number (hit p)]} ∪ keyword_terms p ∪ vehicle_terms p ∪ person_terms p → len t ≤ 1048592.

Lemma term_text t : valid_str t → normalize_term t = t → is_text nfc t.
Proof.
  intros Hv Ht. apply Hnfc; [done|]. rewrite <- Ht. unfold normalize_term.
  by apply nfc_idempotent, lower_valid, nfc_valid.
Qed.

Lemma schema_text id : id ∈ descriptor_schema_id <$> V1_SCHEMAS → is_text nfc id ∧ len id ≤ 1048592.
Proof.
  intros (d & -> & Hd)%list_elem_of_fmap. split; [by apply Hid|]. unfold V1_SCHEMAS in Hd.
  repeat (apply elem_of_cons in Hd as [->|Hd]; [by apply Z.leb_le|]). by apply elem_of_nil in Hd.
Qed.

Lemma int_fits L strict d v : in_i64 v → fits nfc L strict d (int_tree v).
Proof.
  unfold int_tree, in_i64, i64_min, i64_max. destruct (Z.leb_spec 0 v); cbn; unfold in_u64, u64_max; lia.
Qed.

Section Fits.
Context (L : ParserLimits) (strict : bool) (Hdepth : max_depth L = 8) (Htext : max_text_or_bytes L = 1048592)
  (Hitems : 13 ≤ max_container_items L).

Lemma terms_fit (s : gset str) :
  (∀ t, t ∈ s → is_text nfc t ∧ len t ≤ 1048592) → Z.of_nat (size s) ≤ max_container_items L →
  fits nfc L strict 2 (terms_tree s).
Proof.
  intros Ht Hs. apply fits_array. rewrite Hdepth. unfold len. rewrite length_fmap, length_in_order.
  split_and!; [done|lia|]. apply Forall_fmap, Forall_forall. intros t Hin%elem_of_in_order. cbn. rewrite Htext.
  by destruct (Ht t Hin).
Qed.

Definition terms_within (n : Z) (p : IndexedPackageV1) : Prop :=
  Z.of_nat (size (keyword_terms p)) ≤ n ∧ Z.of_nat (size (vehicle_terms p)) ≤ n ∧ Z.of_nat (size (person_terms p)) ≤ n.

Lemma package_fits p :
  row_wf p → short_texts p → terms_within (max_container_items L) p → fits nfc L strict 1 (package_tree p).
Proof.
  intros W Hshort (Hk & Hv & Hp). apply fits_array. rewrite Hdepth. split; [done|]. split; [lia|].
  destruct (schema_text _ (rw_source _ W)) as [S1 S2].
  destruct (schema_text PROJECTED_TARGET_SCHEMA_ID_V1) as [T1 T2]; [right; left|].
  assert (Ht : ∀ t, t ∈ keyword_terms p ∪ vehicle_terms p ∪ person_terms p → is_text nfc t ∧ len t ≤ 1048592).
  { intros t Hin. destruct (rw_terms _ W t Hin) as (? & ? & ?). split; [by apply term_text|apply Hshort; set_solver]. }
  destruct (rw_number _ W) as [N1 N2].
  repeat apply Forall_cons_2; try apply Forall_nil_2.
  - cbn. rewrite Htext. unfold len. rewrite (rw_hash _ W). lia.
  - apply W.
  - cbn. rewrite Htext. unfold len. rewrite (rw_id _ W). lia.
  - cbn. by rewrite Htext.
  - cbn. by rewrite (rw_source_version _ W).
  - cbn. rewrite Htext, (rw_target _ W). done.
  - cbn. by rewrite (rw_target_version _ W).
  - cbn. rewrite Htext. split; [apply Hshort; set_solver|by apply Hnfc].
  - apply int_fits, W.
  - apply fits_array. rewrite Hdepth. destruct (occurred_at_end p) as [e|] eqn:E; (split; [unfold len; cbn; lia|split; [lia|]]).
    + apply Forall_cons_2; [|apply Forall_nil_2]. by apply int_fits, W.
    + apply Forall_nil_2.
  - apply terms_fit; [set_solver|done].
  - apply terms_fit; [set_solver|done].
  - apply terms_fit; [set_solver|done].
Qed.

Lemma body_fits i :
  stored_wf i → (∀ h p, packages i !! h = Some p → short_texts p ∧ terms_within (max_container_items L) p) →
  Z.of_nat (size (packages i)) ≤ max_container_items L → fits nfc L strict 0 (body_tree i).
Proof.
  intros [Hi Hr] Hp Hs. apply fits_array. rewrite Hdepth. unfold len. rewrite length_fmap, length_values.
  split; [done|]. split; [lia|]. apply Forall_fmap, Forall_forall. intros p [h Hh]%elem_of_into_values.
  apply package_fits; [by eapply Hr|by eapply Hp..].
Qed.
End Fits.

Lemma index_limits_ok : limits_ok INDEX_PARSER_LIMITS_V1.
Proof. by repeat split. Qed.

(** The limits of a blob, in packages, terms and items. *)
Record fits_in_blob (i : InvertedIndexV1) : Prop := {
  fb_packages : Z.of_nat (size (packages i)) ≤ 200000;
  fb_terms : ∀ h p, packages i !! h = Some p → terms_within 200000 p;
  fb_marks : 1 + sum_with marks (into_values (packages i)) ≤ 6400000;
}.

Lemma body_accepted i :
  stored_wf i → (∀ h p, packages i !! h = Some p → short_texts p) →
  accepted nfc INDEX_PARSER_LIMITS_V1 true (body_tree i) ↔ fits_in_blob i.
Proof.
  intros Hi Hshort. unfold accepted. rewrite count_body. split.
  - intros (_ & Hf & Hc). apply fits_array in Hf as (Hs & _ & Hf). unfold len in Hs. rewrite length_fmap, length_values in Hs.
    split; [done| |done]. intros h p Hh. rewrite Forall_fmap, Forall_forall in Hf.
    specialize (Hf p ltac:(by apply elem_of_into_values; eauto)). apply fits_array in Hf as (_ & _ & Hf).
    repeat match goal with Hx : Forall _ (_ :: _) |- _ => apply Forall_cons in Hx as [? Hx] end.
    unfold terms_within, terms_tree in *.
    repeat match goal with Hx : fits _ _ _ _ (Array _) |- _ => apply fits_array in Hx as (? & _ & _) end.
    unfold len in *. rewrite !length_fmap, !length_in_order in *. done.
  - intros [Hs Ht Hm]. split_and!; [done| |done]. apply body_fits; [done|done|done|done| |done].
    intros h p Hh. split; [by eapply Hshort|by eapply Ht].
Qed.

(** An index seals exactly if it keeps the limits of a blob: 200000
    packages, 200000 terms on each axis of a package, and 6400000 items, of
    which a package takes fourteen, one for an end and one for each term. *)
Theorem seal_limits `{AeadLaws} i key nonce :
  stored_wf i → (∀ h p, packages i !! h = Some p → short_texts p) →
  len (encode_body i) + AEAD_OVERHEAD ≤ usize_max →
  is_Some (cipher_encrypt key nonce (encode_body i) (blob_header nonce)) →
  (∃ blob, seal nfc i key nonce = Ok blob) ↔ fits_in_blob i.
Proof.
  intros Hi Hshort Hlen Hc. rewrite <- body_accepted by done.
  assert (Hsl : is_slice (encode_body i)) by (unfold is_slice, AEAD_OVERHEAD in *; lia).
  assert (Hrel : fits nfc (relaxed INDEX_PARSER_LIMITS_V1) false 0 (body_tree i)).
  { apply body_fits; [done|done|done|done| |].
    - intros h p Hh. split; [by eapply Hshort|]. cbn. unfold is_slice, len in Hsl.
      pose proof (terms_length p). pose proof (row_length i h p Hh). unfold terms_within. lia.
    - cbn. unfold is_slice, len in Hsl. pose proof (packages_length i). lia. }
  rewrite enc_body in Hsl. rewrite <- (validate_enc nfc _ _ index_limits_ok Hsl Hrel), <- enc_body.
  unfold seal, check_body. destruct (validate _ _ _) as [[]|[|e]].
  - cbn [mbind result_bind]. split; [done|]. intros _.
    destruct (seal_total key nonce (encode_body i) (blob_header nonce) Hlen Hc) as [c Hs]. rewrite Hs. by eexists.
  - split; [by intros [? ?]|done].
  - split; [by intros [? ?]|done].
Qed.
End Limits.

(** ** Example: the three incidents of [SearchIndex] *)
Module BlobExample.
Import IndexExample ExampleCipher.

#[export] Instance decoder : Minicbor := simple_minicbor.
#[export] Instance text_decoder : MinicborText :=
  {| dec_str b := take_payload (read_head 3 b);
     dec_i64 b := match read_head 0 b with
                  | Some v => Some v
                  | None => '(n, r) ← read_head 1 b; Some (-1 - n, r)
                  end |}.

Lemma read_other_head m m' v r : 0 ≤ m' < 8 → in_u64 v → m ≠ m' → read_head m (head_bytes m' v ++ r) = None.
Proof.
  intros Hm Hv Hne. rewrite head_bytes_split. cbn. pose proof (arg_split_range v Hv).
  destruct (initial_join m' (arg_split v).1 Hm ltac:(lia)) as [-> _].
  by rewrite (proj2 (Z.eqb_neq m' m)) by auto.
Qed.

#[export] Instance text_decoder_laws : MinicborTextLaws.
Proof.
  split; cbn.
  - intros s r _ Hs. unfold cbor_str in *. rewrite <- app_assoc in *.
    rewrite read_head_law by (done || apply sized_u64, (sized_prefix s r), (sized_suffix _ _ Hs)). cbn.
    unfold len. rewrite Nat2Z.id. by rewrite take_app_length, drop_app_length.
  - intros v r Hv Hs. unfold cbor_i64 in *. unfold in_i64, i64_min, i64_max in Hv.
    destruct (Z.leb_spec 0 v).
    + rewrite read_head_law; [done|lia| |done]. unfold in_u64, u64_max. lia.
    + rewrite read_other_head; [|lia|unfold in_u64, u64_max; lia|done].
      rewrite read_head_law; [cbn; do 2 f_equal; lia|lia| |done]. unfold in_u64, u64_max. lia.
Qed.

Lemma ascii_valid s : is_ascii s = true → valid_str s.
Proof.
  intros Hs. exists (u8 <$> s). apply from_utf8_ascii. apply Forall_forall. intros b Hb.
  unfold is_ascii in Hs. rewrite forallb_forall in Hs. apply Z.leb_le, Hs. by apply list_elem_of_In.
Qed.

Lemma lower_range b : u8 b ≤ 127 → u8 (ascii_lower b) ≤ 127 ∧ ascii_lower (ascii_lower b) = ascii_lower b.
Proof. destruct b; by vm_compute. Qed.

Lemma lower_ascii s : is_ascii s = true → is_ascii (ascii_lower <$> s) = true ∧ ascii_lower <$> (ascii_lower <$> s) = ascii_lower <$> s.
Proof.
  unfold is_ascii. induction s as [|b s IH]; cbn; [done|]. rewrite !andb_true_iff, !Z.leb_le. intros [Hb Hs].
  destruct (lower_range b Hb) as [? Hl], (IH Hs) as [? Hr]. cbn in Hr. by rewrite Hl, Hr.
Qed.

#[export] Instance ascii_laws : UnicodeLaws.
Proof.
  split; cbn [to_nfc to_lowercase ascii]; unfold id; try done.
  - intros s _. destruct (is_ascii s) eqn:E; [|by rewrite E].
    destruct (lower_ascii s E) as [H1 H2]. by rewrite H1, H2.
  - intros s Hs. destruct (is_ascii s) eqn:E; [|done]. by apply ascii_valid, lower_ascii.
Qed.

Lemma string_valid s : is_ascii (lit s) = true → valid_str (lit s).
Proof. apply ascii_valid. Qed.

Lemma three_records : Forall record_wf all_three.
Proof.
  repeat apply Forall_cons_2; try apply Forall_nil_2;
    (split; [done|done|by apply (bool_decide_unpack _)|done|by intros e [= <-]|by apply ascii_valid|]);
    intros t Ht; cbn in Ht; repeat (apply elem_of_cons in Ht as [->|Ht]; [by apply ascii_valid|]); by apply elem_of_nil in Ht.
Qed.

Definition key : secret := replicate 32 x05.
Definition nonce : list byte := replicate 12 x06.

Definition three_blob : list byte := blob_header nonce ++ encode_body three ++ repeat x00 16.

Lemma three_sealed : seal id (upserts all_three empty_index) key nonce = Ok three_blob.
Proof. vm_compute. reflexivity. Qed.

Lemma three_stored : stored_wf three.
Proof. exact (upserts_stored all_three empty_index three_records empty_stored). Qed.

Lemma three_short h p : packages three !! h = Some p → short_texts p.
Proof.
  assert (Hs : map_Forall (λ _ p, set_Forall (λ t, len t ≤ 1048592)
    ({[human_incident_number (hit p)]} ∪ keyword_terms p ∪ vehicle_terms p ∪ person_terms p)) (packages three))
    by (apply (bool_decide_unpack _); vm_compute; exact I).
  intros Hp t Ht. exact (Hs h p Hp t Ht).
Qed.

Lemma three_fits : fits_in_blob three.
Proof.
  split; [by apply Z.leb_le; vm_compute| |by apply Z.leb_le; vm_compute].
  assert (Hs : map_Forall (λ _ p, Z.of_nat (size (keyword_terms p)) ≤ 200000
    ∧ Z.of_nat (size (vehicle_terms p)) ≤ 200000 ∧ Z.of_nat (size (person_terms p)) ≤ 200000) (packages three))
    by (apply (bool_decide_unpack _); vm_compute; exact I).
  exact Hs.
Qed.
End BlobExample.
Import IndexExample ExampleCipher BlobExample.

Lemma seal_open_roundtrip_witness : open_blob id three_blob key = Ok (upserts all_three empty_index).
Proof. exact (seal_open_roundtrip id all_three key nonce three_blob three_records eq_refl three_sealed). Defined.

Lemma upserts_well_typed_witness : row_wf (row fire) ∧ entry_hash (hit (row fire)) = replicate 32 x03.
Proof. apply (upserts_well_typed all_three (replicate 32 x03) (row fire) three_records). vm_compute. reflexivity. Defined.

Lemma seal_limits_witness : ∃ blob, seal id three key nonce = Ok blob.
Proof.
  apply (proj2 (seal_limits id (λ s '(ex_intro _ cs Hcs) _, ex_intro _ cs (conj Hcs eq_refl))
    (λ d Hd, let '(ex_intro _ cs Hcs) := schema_valid _ (list_elem_of_fmap_2 descriptor_schema_id _ _ Hd) in
             ex_intro _ cs (conj Hcs eq_refl))
    three key nonce three_stored three_short
    ltac:(apply Z.leb_le; vm_compute; reflexivity) ltac:(eexists; reflexivity))).
  exact three_fits.
Defined.
