(* ===== verification/Bundle.v ===== *)
(** * Bundle: an archive in one file ([ea-archive], [bundle.rs], [bundle_error.rs])

    The container: a header, an index of paths with offsets and lengths, and the
    blobs one after another; its strict reader, and its writer of
    [ea-archive-fs] ([bundle.rs]). The loop over the index takes fuel; a record
    is eighteen bytes or more, so the length of the input is enough
    ([index_loop_total]). *)

From S2P Require Import Prelude Types Utf8 Cbor Str Profile Inventory.

Module Bun.
Inductive BundleError :=
| SourceNotFullyVerified | TargetOccupied | Malformed | BlobLimit | TotalByteLimit | Io.

Definition bundle_error_code (e : BundleError) : string :=
  match e with
  | SourceNotFullyVerified => "EA-BUNDLE-SOURCE-NOT-FULLY-VERIFIED"
  | TargetOccupied => "EA-BUNDLE-TARGET-OCCUPIED"
  | Malformed => "EA-BUNDLE-MALFORMED"
  | BlobLimit => "EA-BUNDLE-BLOB-LIMIT"
  | TotalByteLimit => "EA-BUNDLE-TOTAL-BYTE-LIMIT"
  | Io => "EA-BUNDLE-IO"
  end.
End Bun.
Import Bun(BundleError).

(** ** The container *)

Definition BUNDLE_MAGIC_V1 : list byte := lit "EINSATZARCHIV-ARCHIVE-BUNDLE-v1" ++ [x0a].
Definition BUNDLE_HEADER_BYTES_V1 : Z := 48.
Definition INDEX_RECORD_FIXED_BYTES : Z := 2 + 8 + 8.

Record BundleIndexEntry := {
  bundle_path : str;
  bundle_offset : Z;
  bundle_length : Z;
}.

Record ArchiveBundleSource := {
  container_bytes : list byte;
  bundle_index : list BundleIndexEntry;
  payload_start : Z;
}.

(** ** Reading *)

Definition read_u64_raw (bytes : list byte) (at_ : Z) : result BundleError Z :=
  eight ← ok_or Bun.Malformed (slice_get bytes at_ (at_ + 8));
  Ok (from_be_bytes eight).

(** Every [u64] is a [usize]. *)
Definition read_u64 (bytes : list byte) (at_ : Z) : result BundleError Z := read_u64_raw bytes at_.

Definition validate_bundle_path (path : str) : result BundleError unit :=
  if is_empty path || starts_with [slash] path || contains_byte backslash path then Err Bun.Malformed else
  if bool_decide (path !! 1%nat = Some colon) then Err Bun.Malformed else
  if existsb (λ segment, is_empty segment || bool_decide (segment = [dot]) || bool_decide (segment = [dot; dot]))
       (split slash path)
  then Err Bun.Malformed else Ok tt.

(** The order of the bytes of two paths. *)
Definition before (p q : str) : bool := bool_decide (@cmp (list byte) list_cmp p q = Lt).

(** The body of the loop over the index: the record at [at_], where it ends and
    the bytes of the payload up to the end of its blob. *)
Definition record_at (bytes : list byte) (start at_ consumed : Z) (previous : option str)
    : result BundleError (BundleIndexEntry * Z * Z) :=
  two ← ok_or Bun.Malformed (slice_get bytes at_ (at_ + 2));
  let path_length := from_be_bytes two in
  record_end ← ok_or Bun.Malformed
    (end_ ← checked_add usize_max at_ INDEX_RECORD_FIXED_BYTES; checked_add usize_max end_ path_length);
  if record_end >? start then Err Bun.Malformed else
  let path : str := slice bytes (at_ + 2) (at_ + 2 + path_length) in
  _ ← ok_or Bun.Malformed (from_utf8 path);
  _ ← validate_bundle_path path;
  if is_some_and (λ p, negb (before p path)) previous then Err Bun.Malformed else
  offset ← read_u64 bytes (at_ + 2 + path_length);
  length_ ← read_u64 bytes (at_ + 2 + path_length + 8);
  if negb (offset =? consumed) then Err Bun.Malformed else
  consumed ← ok_or Bun.TotalByteLimit (checked_add usize_max consumed length_);
  if consumed >? MAX_TOTAL_ARCHIVE_BYTES_V1 then Err Bun.TotalByteLimit else
  Ok ({| bundle_path := path; bundle_offset := offset; bundle_length := length_ |}, record_end, consumed).

Fixpoint index_loop (fuel : nat) (bytes : list byte) (start at_ consumed : Z) (previous : option str)
    : option (result BundleError (list BundleIndexEntry * Z)) :=
  if at_ <? start then
    match fuel with
    | O => None
    | S fuel =>
        match record_at bytes start at_ consumed previous with
        | Err e => Some (Err e)
        | Ok (entry, record_end, consumed) =>
            match index_loop fuel bytes start record_end consumed (Some (bundle_path entry)) with
            | Some (Ok (entries, consumed)) => Some (Ok (entry :: entries, consumed))
            | other => other
            end
        end
    end
  else Some (Ok ([], consumed)).

(** The loop does not run out of fuel. *)
Definition read_index (bytes : list byte) (start : Z) : result BundleError (list BundleIndexEntry * Z) :=
  default (Err Bun.Malformed) (index_loop (length bytes) bytes start BUNDLE_HEADER_BYTES_V1 0 None).

Definition from_bytes (bytes : list byte) : result BundleError ArchiveBundleSource :=
  if len bytes <? BUNDLE_HEADER_BYTES_V1 then Err Bun.Malformed else
  if bool_decide (take (length BUNDLE_MAGIC_V1) bytes ≠ BUNDLE_MAGIC_V1) then Err Bun.Malformed else
  blob_count ← read_u64_raw bytes 32;
  if blob_count >? MAX_ARCHIVE_BLOBS_V1 then Err Bun.BlobLimit else
  index_length ← read_u64 bytes 40;
  start ← ok_or Bun.Malformed (checked_add usize_max BUNDLE_HEADER_BYTES_V1 index_length);
  if start >? len bytes then Err Bun.Malformed else
  '(index, consumed) ← read_index bytes start;
  if negb (len index =? blob_count) then Err Bun.Malformed else
  if negb (len bytes - start =? consumed) then Err Bun.Malformed else
  Ok {| container_bytes := bytes; bundle_index := index; payload_start := start |}.

(** What [visit_blobs] shows a visitor that does not stop it. *)
Definition bundle_blobs (s : ArchiveBundleSource) : list (str * list byte) :=
  (λ e, let start := payload_start s + bundle_offset e in
        (bundle_path e, slice (container_bytes s) start (start + bundle_length e))) <$> bundle_index s.

(** ** Writing *)

Definition u64_of (v : Z) : list byte := to_be_bytes 8 v.

Definition index_record (path : str) (offset length_ : Z) : list byte :=
  to_be_bytes 2 (len path) ++ path ++ u64_of offset ++ u64_of length_.

(** The index region from [offset] on, and where the payload ends. *)
Fixpoint encode_index (blobs : list (str * list byte)) (offset : Z) : result BundleError (list byte * Z) :=
  match blobs with
  | [] => Ok ([], offset)
  | (path, bytes) :: blobs =>
      if len path >? u16_max then Err Bun.Malformed else
      next ← ok_or Bun.TotalByteLimit (checked_add usize_max offset (len bytes));
      '(index, end_) ← encode_index blobs next;
      Ok (index_record path offset (len bytes) ++ index, end_)
  end.

Definition encode_bundle (blobs : list (str * list byte)) : result BundleError (list byte) :=
  '(index, _) ← encode_index blobs 0;
  Ok (BUNDLE_MAGIC_V1 ++ u64_of (len blobs) ++ u64_of (len index) ++ index ++ concat (snd <$> blobs)).

(** ** The index as a list of records *)

Definition record_bytes (e : BundleIndexEntry) : list byte :=
  index_record (bundle_path e) (bundle_offset e) (bundle_length e).

(** A path the reader accepts. *)
Definition path_ok (p : str) : Prop :=
  is_Some (from_utf8 p) ∧ validate_bundle_path p = Ok tt ∧ len p ≤ u16_max.

(** Records in the order of their paths, without gaps in the payload. *)
Fixpoint entries_ok (previous : option str) (consumed : Z) (es : list BundleIndexEntry) : Prop :=
  match es with
  | [] => True
  | e :: es =>
      path_ok (bundle_path e) ∧ (∀ p, previous = Some p → before p (bundle_path e) = true)
      ∧ bundle_offset e = consumed ∧ 0 ≤ bundle_length e
      ∧ consumed + bundle_length e ≤ MAX_TOTAL_ARCHIVE_BYTES_V1
      ∧ entries_ok (Some (bundle_path e)) (consumed + bundle_length e) es
  end.

Definition total_length (es : list BundleIndexEntry) : Z := foldr (λ e n, bundle_length e + n) 0 es.

Lemma follows_iff (previous : option str) p :
  is_some_and (λ q, negb (before q p)) previous = false ↔ ∀ q, previous = Some q → before q p = true.
Proof.
  rewrite is_some_and_false. split; intros H q Hq.
  - specialize (H q Hq). by apply negb_false_iff in H.
  - apply negb_false_iff. by apply H.
Qed.

Lemma slice_get_mid (pre x post : list byte) a b :
  a = len pre → b = a + len x → slice_get (pre ++ x ++ post) a b = Some x.
Proof.
  intros -> ->. unfold slice_get, len. rewrite decide_True by (rewrite !length_app; lia).
  rewrite Nat2Z.id, drop_app_length. replace (Z.to_nat _) with (length x) by lia. by rewrite take_app_length.
Qed.

Lemma cut (l : list byte) n : (n ≤ length l)%nat → ∃ a b, l = a ++ b ∧ length a = n.
Proof. intros Hn. exists (take n l), (drop n l). rewrite take_drop. split; [done|]. by apply length_take_le. Qed.

Lemma len_be n v : len (to_be_bytes n v) = Z.of_nat n.
Proof. unfold len. by rewrite length_to_be_bytes. Qed.

Lemma from_to_be n v : 0 ≤ v < 2 ^ (8 * Z.of_nat n) → from_be_bytes (to_be_bytes n v) = v.
Proof. intros Hv. apply from_be_bytes_iff. by rewrite length_to_be_bytes. Qed.

Lemma to_from_be n l : length l = n → to_be_bytes n (from_be_bytes l) = l.
Proof. intros <-. symmetry. exact (proj1 (proj1 (from_be_bytes_iff l _) eq_refl)). Qed.

Lemma from_be_bytes_range l : 0 ≤ from_be_bytes l < 2 ^ (8 * len l).
Proof. by destruct (proj1 (from_be_bytes_iff l _) eq_refl). Qed.

Lemma len_index_record p o n : len (index_record p o n) = 18 + len p.
Proof. unfold index_record, u64_of. rewrite !len_app, !len_be. lia. Qed.

Section Loop.
Context (pre rest : list byte).

(** What [record_at] does on the bytes of a record. *)
Lemma record_at_run two (path : str) offset length_ region bytes start at_ consumed previous :
  bytes = pre ++ (two ++ path ++ offset ++ length_ ++ region) ++ rest → len bytes ≤ usize_max →
  at_ = len pre → start = at_ + len (two ++ path ++ offset ++ length_ ++ region) →
  length two = 2%nat → len path = from_be_bytes two → length offset = 8%nat → length length_ = 8%nat →
  record_at bytes start at_ consumed previous =
  (_ ← ok_or Bun.Malformed (from_utf8 path);
   _ ← validate_bundle_path path;
   if is_some_and (λ p, negb (before p path)) previous then Err Bun.Malformed else
   if negb (from_be_bytes offset =? consumed) then Err Bun.Malformed else
   consumed ← ok_or Bun.TotalByteLimit (checked_add usize_max consumed (from_be_bytes length_));
   if consumed >? MAX_TOTAL_ARCHIVE_BYTES_V1 then Err Bun.TotalByteLimit else
   Ok ({| bundle_path := path; bundle_offset := from_be_bytes offset; bundle_length := from_be_bytes length_ |},
       at_ + 18 + len path, consumed)).
Proof.
  intros Hb Hu -> -> H2 Hp Ho Hl. unfold record_at, read_u64, read_u64_raw.
  assert (L2 : len two = 2) by (unfold len; lia). assert (LO : len offset = 8) by (unfold len; lia).
  assert (LL : len length_ = 8) by (unfold len; lia).
  pose proof (len_nonneg pre). pose proof (len_nonneg path). pose proof (len_nonneg region). pose proof (len_nonneg rest).
  assert (Hlen : len bytes = len pre + 18 + len path + len region + len rest) by (rewrite Hb, !len_app; lia).
  rewrite !len_app, L2, LO, LL.
  replace (slice_get bytes (len pre) (len pre + 2)) with (Some two)
    by (symmetry; rewrite Hb, <- !app_assoc; apply slice_get_mid; lia).
  cbn [ok_or mbind result_bind]. rewrite <- Hp.
  replace (checked_add usize_max (len pre) INDEX_RECORD_FIXED_BYTES) with (Some (len pre + 18))
    by (symmetry; apply checked_add_Some; unfold INDEX_RECORD_FIXED_BYTES; lia).
  cbn [mbind option_bind].
  replace (checked_add usize_max (len pre + 18) (len path)) with (Some (len pre + 18 + len path))
    by (symmetry; apply checked_add_Some; lia).
  cbn [ok_or mbind result_bind option_bind].
  rewrite Z.gtb_ltb, (proj2 (Z.ltb_ge _ _)) by lia.
  replace (slice bytes (len pre + 2) (len pre + 2 + len path)) with path.
  2:{ unfold slice. replace (slice_get _ _ _) with (Some path); [done|]. symmetry.
      rewrite Hb, <- !app_assoc, (app_assoc pre). apply slice_get_mid; rewrite ?len_app; lia. }
  replace (slice_get bytes (len pre + 2 + len path) (len pre + 2 + len path + 8)) with (Some offset).
  2:{ symmetry. rewrite Hb, <- !app_assoc, (app_assoc pre), (app_assoc (pre ++ two)). apply slice_get_mid; rewrite ?len_app; lia. }
  replace (slice_get bytes (len pre + 2 + len path + 8) (len pre + 2 + len path + 8 + 8)) with (Some length_).
  2:{ symmetry. rewrite Hb, <- !app_assoc, (app_assoc pre), (app_assoc (pre ++ two)), (app_assoc ((pre ++ two) ++ path)).
      apply slice_get_mid; rewrite ?len_app; lia. }
  reflexivity.
Qed.
End Loop.

(** The region starts with the fields of a record, or it is too short. *)
Definition shaped (region two path offset length_ region' : list byte) : Prop :=
  region = two ++ path ++ offset ++ length_ ++ region' ∧ length two = 2%nat
  ∧ len path = from_be_bytes two ∧ length offset = 8%nat ∧ length length_ = 8%nat.

Lemma record_short pre region rest bytes consumed previous :
  bytes = pre ++ region ++ rest → (∀ two path offset length_ region', ¬ shaped region two path offset length_ region') →
  record_at bytes (len pre + len region) (len pre) consumed previous = Err Bun.Malformed.
Proof.
  intros Hb Hn. unfold record_at. destruct (slice_get bytes (len pre) (len pre + 2)) as [two|] eqn:E2; [|done].
  cbn [ok_or mbind result_bind]. destruct (checked_add usize_max (len pre) _) as [e1|] eqn:E; [|done].
  apply checked_add_Some in E as [-> _]. cbn [mbind option_bind].
  destruct (checked_add usize_max _ _) as [e2|] eqn:E; [|done]. apply checked_add_Some in E as [-> _].
  cbn [ok_or mbind result_bind]. destruct (_ >? _) eqn:E; [done|]. exfalso.
  rewrite Z.gtb_ltb in E. apply Z.ltb_ge in E. unfold INDEX_RECORD_FIXED_BYTES in E.
  pose proof (from_be_bytes_range two) as Hr. set (n := Z.to_nat (from_be_bytes two)) in *.
  destruct (cut region 2) as (a & r1 & -> & Ha); [unfold len in E; lia|].
  assert (a = two) as ->.
  { rewrite Hb, <- app_assoc in E2. rewrite (slice_get_mid pre a) in E2; [by injection E2|done|unfold len; lia]. }
  rewrite len_app in E. unfold len in E.
  destruct (cut r1 n) as (path & r2 & -> & Hp); [lia|]. rewrite length_app in E.
  destruct (cut r2 8) as (o & r3 & -> & Ho); [lia|]. rewrite length_app in E.
  destruct (cut r3 8) as (l & r4 & -> & Hl); [lia|].
  apply (Hn two path o l r4). repeat split; try done. unfold len. lia.
Qed.

Lemma record_bytes_shaped e r :
  len (bundle_path e) ≤ u16_max →
  shaped (record_bytes e ++ r) (to_be_bytes 2 (len (bundle_path e))) (bundle_path e)
    (u64_of (bundle_offset e)) (u64_of (bundle_length e)) r.
Proof.
  intros Hp. unfold shaped, record_bytes, index_record, u64_of. rewrite <- !app_assoc.
  split_and!; [done|apply length_to_be_bytes| |apply length_to_be_bytes..].
  rewrite from_to_be; [done|]. pose proof (len_nonneg (bundle_path e)). unfold u16_max in Hp.
  change (2 ^ (8 * Z.of_nat 2)) with 65536. change (2 ^ 16) with 65536 in Hp. lia.
Qed.

(** The record with given fields. *)
Lemma shaped_record region two path offset length_ r :
  shaped region two path offset length_ r →
  region = record_bytes {| bundle_path := path; bundle_offset := from_be_bytes offset;
                           bundle_length := from_be_bytes length_ |} ++ r ∧ len path ≤ u16_max.
Proof.
  intros (-> & H2 & Hp & Ho & Hl). unfold record_bytes, index_record, u64_of.
  cbn [bundle_path bundle_offset bundle_length]. rewrite <- !app_assoc. pose proof (from_be_bytes_range two) as Hr. unfold len in Hr. rewrite H2 in Hr.
  change (2 ^ (8 * Z.of_nat 2)) with 65536 in Hr. split; [|rewrite Hp; change u16_max with 65535; lia].
  by rewrite Hp, !to_from_be.
Qed.

(** A region starts with at most one record. *)
Lemma shaped_unique region two path offset length_ r two' path' offset' length_' r' :
  shaped region two path offset length_ r → shaped region two' path' offset' length_' r' →
  two = two' ∧ path = path' ∧ offset = offset' ∧ length_ = length_' ∧ r = r'.
Proof.
  intros (-> & H2 & Hp & Ho & Hl) (E & H2' & Hp' & Ho' & Hl').
  apply app_inj_1 in E as [-> E]; [|congruence]. rewrite <- Hp' in Hp. unfold len in Hp.
  apply app_inj_1 in E as [-> E]; [|lia]. apply app_inj_1 in E as [-> E]; [|congruence].
  apply app_inj_1 in E as [-> ->]; [|congruence]. done.
Qed.

Lemma flat_map_record_nil es : flat_map record_bytes es = [] → es = [].
Proof.
  destruct es as [|e es]; [done|]. cbn [flat_map]. intros [H _]%app_eq_nil.
  apply (f_equal len) in H. unfold record_bytes in H. rewrite len_index_record in H.
  pose proof (len_nonneg (bundle_path e)). change (len []) with 0 in H. lia.
Qed.

(** The fields of the record at the start decide about it. *)
Lemma record_at_Ok pre two (path : str) offset length_ region rest bytes consumed previous e end_ c :
  let here := two ++ path ++ offset ++ length_ ++ region in
  shaped here two path offset length_ region → bytes = pre ++ here ++ rest → len bytes ≤ usize_max → 0 ≤ consumed →
  record_at bytes (len pre + len here) (len pre) consumed previous = Ok (e, end_, c) ↔
  e = {| bundle_path := path; bundle_offset := from_be_bytes offset; bundle_length := from_be_bytes length_ |}
  ∧ end_ = len pre + len (record_bytes e) ∧ c = consumed + bundle_length e
  ∧ path_ok (bundle_path e) ∧ (∀ p, previous = Some p → before p (bundle_path e) = true)
  ∧ bundle_offset e = consumed ∧ 0 ≤ bundle_length e ∧ consumed + bundle_length e ≤ MAX_TOTAL_ARCHIVE_BYTES_V1.
Proof.
  intros here Hsh Hb Hu Hc. subst here. pose proof (shaped_record _ _ _ _ _ _ Hsh) as [_ Hlen].
  destruct Hsh as (_ & H2 & Hp & Ho & Hl).
  rewrite (record_at_run pre rest two path offset length_ region bytes _ _ consumed previous Hb Hu eq_refl eq_refl H2 Hp Ho Hl).
  unfold path_ok. destruct (from_utf8 path) as [cs|] eqn:Eu; cbn [ok_or mbind result_bind].
  2:{ split; [done|]. intros (-> & _ & _ & ([? ?] & _) & _). cbn [bundle_path] in *; congruence. }
  destruct (validate_bundle_path path) as [[]|] eqn:Ev; cbn [mbind result_bind].
  2:{ split; [done|]. intros (-> & _ & _ & (_ & ? & _) & _). cbn [bundle_path] in *; congruence. }
  destruct (is_some_and (λ p, negb (before p path)) previous) eqn:Ep.
  { split; [done|]. intros (-> & _ & _ & _ & Hq & _). apply follows_iff in Hq. cbn [bundle_path] in Hq. congruence. }
  pose proof (proj1 (follows_iff previous path) Ep) as Ep2. destruct (Z.eqb_spec (from_be_bytes offset) consumed) as [Eo|Eo]; cbn [negb].
  2:{ split; [done|]. intros (-> & _ & _ & _ & _ & ? & _). done. }
  pose proof (from_be_bytes_range length_) as Hr.
  assert (Hrec : ∀ o n, len (record_bytes {| bundle_path := path; bundle_offset := o; bundle_length := n |}) = 18 + len path)
    by (intros o n; unfold record_bytes; cbn [bundle_path bundle_offset bundle_length]; by rewrite len_index_record).
  destruct (checked_add _ _ _) as [v|] eqn:Ec; cbn [ok_or mbind result_bind].
  - apply checked_add_Some in Ec as [-> Hov]. rewrite Z.gtb_ltb. destruct (Z.ltb_spec MAX_TOTAL_ARCHIVE_BYTES_V1 (consumed + from_be_bytes length_)).
    + split; [done|]. intros (-> & _ & _ & _ & _ & _ & _ & ?). cbn [bundle_length] in *; lia.
    + split.
      * intros [= <- <- <-]. rewrite Hrec. cbn [bundle_path bundle_offset bundle_length]. rewrite Eu. split_and!; try done; try lia; eauto.
      * intros (-> & -> & -> & _). rewrite Hrec. cbn [bundle_length]. do 3 f_equal. lia.
  - split; [done|]. intros (-> & _ & _ & _ & _ & _ & _ & Hm). cbn [bundle_length] in Hm. exfalso.
    assert (checked_add usize_max consumed (from_be_bytes length_) = Some (consumed + from_be_bytes length_)).
    { apply checked_add_Some. split; [done|]. transitivity MAX_TOTAL_ARCHIVE_BYTES_V1; [done|by vm_compute]. }
    congruence.
Qed.

Lemma shaped_dec region :
  (∃ two path offset length_ r, shaped region two path offset length_ r)
  ∨ (∀ two path offset length_ r, ¬ shaped region two path offset length_ r).
Proof.
  destruct (decide (2 ≤ length region)%nat) as [H2|H2].
  - destruct (cut region 2 H2) as (two & r1 & -> & Ht).
    destruct (decide (Z.to_nat (from_be_bytes two) + 16 ≤ length r1)%nat) as [Hr|Hr].
    + left. pose proof (from_be_bytes_range two).
      destruct (cut r1 (Z.to_nat (from_be_bytes two))) as (path & r2 & -> & Hp); [lia|]. rewrite length_app in Hr.
      destruct (cut r2 8) as (o & r3 & -> & Ho); [lia|]. rewrite length_app in Hr.
      destruct (cut r3 8) as (l & r4 & -> & Hl); [lia|].
      exists two, path, o, l, r4. repeat split; try done. unfold len. lia.
    + right. intros t p o l r (E & Hl2 & Hp & Ho & Hl). apply app_inj_1 in E as [-> ->]; [|congruence].
      rewrite !length_app in Hr. unfold len in Hp. lia.
  - right. intros t p o l r (-> & Hl2 & _). rewrite length_app in H2. lia.
Qed.

Lemma entries_ok_path previous consumed e es : entries_ok previous consumed (e :: es) → len (bundle_path e) ≤ u16_max.
Proof. by intros ((_ & _ & ?) & _). Qed.

Lemma first_record region two path o l r previous consumed e es :
  shaped region two path o l r → 0 ≤ consumed → entries_ok previous consumed (e :: es) →
  region = flat_map record_bytes (e :: es) →
  e = {| bundle_path := path; bundle_offset := from_be_bytes o; bundle_length := from_be_bytes l |}
  ∧ r = flat_map record_bytes es.
Proof.
  intros Hsh Hc Hok E.
  pose proof (record_bytes_shaped e (flat_map record_bytes es) (entries_ok_path _ _ _ _ Hok)) as Hsh'.
  cbn [flat_map] in E. rewrite <- E in Hsh'.
  destruct (shaped_unique _ _ _ _ _ _ _ _ _ _ _ Hsh Hsh') as (_ & Ep & Eo & El & ->).
  split; [|done]. destruct Hok as (_ & _ & Hoff & Hn & Hm & _). destruct e as [p' o' l'].
  cbn [bundle_path bundle_offset bundle_length] in *. subst p' o l. unfold u64_of.
  change MAX_TOTAL_ARCHIVE_BYTES_V1 with 2147483648 in Hm.
  rewrite !from_to_be; [done|..]; change (2 ^ (8 * Z.of_nat 8)) with 18446744073709551616; lia.
Qed.

(** The loop reads exactly the regions that are a list of good records. *)
Lemma index_loop_Ok fuel pre region rest bytes consumed previous es c :
  bytes = pre ++ region ++ rest → len bytes ≤ usize_max → (length region ≤ fuel)%nat → 0 ≤ consumed →
  index_loop fuel bytes (len pre + len region) (len pre) consumed previous = Some (Ok (es, c)) ↔
  region = flat_map record_bytes es ∧ entries_ok previous consumed es ∧ c = consumed + total_length es.
Proof.
  revert pre region consumed previous es c. induction fuel as [|fuel IH]; intros pre region consumed previous es c Hb Hu Hf Hc.
  all: destruct (decide (region = [])) as [->|Hne].
  1, 3: cbn [index_loop]; change (len []) with 0; rewrite Z.add_0_r, Z.ltb_irrefl; split;
      [intros [= <- <-]; cbn; split_and!; [done..|lia]
      |intros (->%symmetry%flat_map_record_nil & _ & ->); cbn; do 3 f_equal; lia].
  { destruct region; [done|]. cbn in Hf. lia. }
  assert (Hlt : (len pre <? len pre + len region) = true).
  { apply Z.ltb_lt. unfold len. destruct region; [done|]. cbn. lia. }
  cbn [index_loop]. rewrite Hlt. destruct (shaped_dec region) as [(two & path & o & l & r & Hsh)|Hn].
  2:{ rewrite (record_short pre region rest) by done. split; [done|]. intros (E & Hok & _). exfalso.
      destruct es as [|e es]; [done|]. subst region. eapply Hn, record_bytes_shaped, entries_ok_path, Hok. }
  pose proof Hsh as (Er & _). pose proof (shaped_record _ _ _ _ _ _ Hsh) as [Hrec Hpl].
  set (e0 := {| bundle_path := path; bundle_offset := from_be_bytes o; bundle_length := from_be_bytes l |}) in *.
  pose proof (λ e end_ c, record_at_Ok pre two path o l r rest bytes consumed previous e end_ c
    ltac:(rewrite <- Er; exact Hsh) ltac:(rewrite <- Er; exact Hb) Hu Hc) as Hat. rewrite <- Er in Hat.
  pose proof (λ e es, first_record region two path o l r previous consumed e es Hsh Hc) as Hfirst. fold e0 in Hfirst.
  destruct (record_at _ _ _ _ _) as [[[e end_] c']|x] eqn:E.
  2:{ split; [done|]. intros (Ereg & Hok & _). exfalso. destruct es as [|e es]; [done|].
      destruct (Hfirst e es Hok Ereg) as [-> ->]. destruct Hok as (? & ? & ? & ? & ? & _).
      assert (Err x = Ok (e0, len pre + len (record_bytes e0), consumed + bundle_length e0)) by (apply Hat; done). done. }
  clear E. destruct (proj1 (Hat e end_ c') eq_refl) as (-> & -> & -> & Hp & Hprev & Hoff & Hlen & Hmax). clear Hat. fold e0 in Hp, Hprev, Hoff, Hlen, Hmax |- *.
  assert (Hb' : bytes = (pre ++ record_bytes e0) ++ r ++ rest) by (by rewrite Hb, Hrec, <- !app_assoc).
  assert (Hstart : len pre + len region = len (pre ++ record_bytes e0) + len r) by (rewrite Hrec, !len_app; lia).
  rewrite Hstart, <- (len_app pre (record_bytes e0)).
  assert (Hfr : (length r ≤ fuel)%nat).
  { assert (length (record_bytes e0) ≠ 0%nat).
    { pose proof (len_index_record path (from_be_bytes o) (from_be_bytes l)) as Hl0. unfold len in Hl0.
      unfold record_bytes, e0. cbn [bundle_path bundle_offset bundle_length]. lia. }
    rewrite Hrec, length_app in Hf. lia. }
  specialize (λ es c, IH (pre ++ record_bytes e0) r (consumed + bundle_length e0) (Some (bundle_path e0)) es c
    Hb' Hu Hfr ltac:(lia)). split.
  - destruct (index_loop fuel _ _ _ _ _) as [[[es1 c1]|]|] ; [|done..]. intros [= <- <-].
    destruct (proj1 (IH es1 c1) eq_refl) as (-> & Hok & ->). cbn [flat_map entries_ok]. split; [done|]. split; [done|].
    cbn [total_length foldr]. unfold total_length. lia.
  - intros (Ereg & Hok & ->). destruct es as [|e es]; [done|]. destruct (Hfirst e es Hok Ereg) as [-> ->].
    destruct Hok as (_ & _ & _ & _ & _ & Hok).
    rewrite (proj2 (IH es (consumed + bundle_length e0 + total_length es)) (conj eq_refl (conj Hok eq_refl))).
    cbn [total_length foldr]. do 3 f_equal. unfold total_length. lia.
Qed.

(** A record ends behind its start and within the index. *)
Lemma record_at_progress bytes start at_ consumed previous e end_ c :
  record_at bytes start at_ consumed previous = Ok (e, end_, c) → at_ + 18 ≤ end_ ≤ start.
Proof.
  unfold record_at. destruct (slice_get bytes at_ (at_ + 2)) as [two|]; [|done]. cbn [ok_or mbind result_bind].
  pose proof (from_be_bytes_range two).
  destruct (checked_add _ at_ _) as [x|] eqn:E; [|done]. apply checked_add_Some in E as [-> _]. cbn [mbind option_bind].
  destruct (checked_add _ _ _) as [x|] eqn:E; [|done]. apply checked_add_Some in E as [-> _]. cbn [ok_or mbind result_bind].
  unfold INDEX_RECORD_FIXED_BYTES. rewrite Z.gtb_ltb. destruct (Z.ltb_spec start (at_ + (2 + 8 + 8) + from_be_bytes two)); [done|].
  intros Hr. apply bind_Ok in Hr as (? & _ & Hr). apply bind_Ok in Hr as (? & _ & Hr).
  destruct (is_some_and _ _); [done|]. apply bind_Ok in Hr as (? & _ & Hr). apply bind_Ok in Hr as (? & _ & Hr).
  destruct (negb _); [done|]. apply bind_Ok in Hr as (? & _ & Hr). destruct (_ >? _); [done|].
  injection Hr as _ <- _. lia.
Qed.

Lemma index_loop_total fuel bytes start at_ consumed previous :
  (Z.to_nat (start - at_) ≤ fuel)%nat → index_loop fuel bytes start at_ consumed previous ≠ None.
Proof.
  revert at_ consumed previous. induction fuel as [|fuel IH]; intros at_ consumed previous Hf; cbn [index_loop];
    destruct (Z.ltb_spec at_ start); try done; [lia|].
  destruct (record_at _ _ _ _ _) as [[[e end_] c]|x] eqn:E; [|done]. apply record_at_progress in E.
  specialize (IH end_ c (Some (bundle_path e)) ltac:(lia)).
  by destruct (index_loop _ _ _ _ _ _) as [[[]|]|].
Qed.

Lemma read_index_Ok pre region rest bytes es c :
  bytes = pre ++ region ++ rest → len bytes ≤ usize_max → len pre = BUNDLE_HEADER_BYTES_V1 →
  read_index bytes (BUNDLE_HEADER_BYTES_V1 + len region) = Ok (es, c) ↔
  region = flat_map record_bytes es ∧ entries_ok None 0 es ∧ c = total_length es.
Proof.
  intros Hb Hu Hp. unfold read_index. rewrite <- Hp.
  assert (Hf : (length region ≤ length bytes)%nat) by (rewrite Hb, !length_app; lia).
  pose proof (index_loop_Ok (length bytes) pre region rest bytes 0 None es c Hb Hu Hf ltac:(lia)) as Hl.
  rewrite Z.add_0_l in Hl. rewrite <- Hl.
  assert (Ht : index_loop (length bytes) bytes (len pre + len region) (len pre) 0 None ≠ None).
  { apply index_loop_total. unfold len. lia. }
  clear Hl. destruct (index_loop _ _ _ _ _ _) as [r|]; [|done]. cbn. split; [by intros ->|by intros [= ->]].
Qed.

(** The bytes of a container with these records and this payload. *)
Definition container (es : list BundleIndexEntry) (payload : list byte) : list byte :=
  BUNDLE_MAGIC_V1 ++ u64_of (len es) ++ u64_of (len (flat_map record_bytes es)) ++ flat_map record_bytes es ++ payload.

Lemma len_u64_of v : len (u64_of v) = 8.
Proof. apply len_be. Qed.

Lemma len_container es payload :
  len (container es payload) = BUNDLE_HEADER_BYTES_V1 + len (flat_map record_bytes es) + len payload.
Proof.
  unfold container. rewrite !len_app, !len_u64_of. change (len BUNDLE_MAGIC_V1) with 32.
  unfold BUNDLE_HEADER_BYTES_V1. lia.
Qed.

Lemma len_flat_map_records es : len es ≤ len (flat_map record_bytes es).
Proof.
  induction es as [|e es IH]; [done|]. cbn [flat_map]. rewrite len_cons, len_app.
  unfold record_bytes at 1. rewrite len_index_record. pose proof (len_nonneg (bundle_path e)). lia.
Qed.

(** [from_bytes] on the fields of a header. *)
Lemma from_bytes_fields m a b rest :
  length m = 32%nat → length a = 8%nat → length b = 8%nat → len (m ++ a ++ b ++ rest) ≤ usize_max →
  from_bytes (m ++ a ++ b ++ rest) =
  if bool_decide (m ≠ BUNDLE_MAGIC_V1) then Err Bun.Malformed else
  if from_be_bytes a >? MAX_ARCHIVE_BLOBS_V1 then Err Bun.BlobLimit else
  if from_be_bytes b >? len rest then Err Bun.Malformed else
  '(index, consumed) ← read_index (m ++ a ++ b ++ rest) (BUNDLE_HEADER_BYTES_V1 + from_be_bytes b);
  if negb (len index =? from_be_bytes a) then Err Bun.Malformed else
  if negb (len rest - from_be_bytes b =? consumed) then Err Bun.Malformed else
  Ok {| container_bytes := m ++ a ++ b ++ rest; bundle_index := index;
        payload_start := BUNDLE_HEADER_BYTES_V1 + from_be_bytes b |}.
Proof.
  intros Hm Ha Hb Hu. set (bytes := m ++ a ++ b ++ rest) in *.
  assert (LM : len m = 32) by (unfold len; lia). assert (LA : len a = 8) by (unfold len; lia).
  assert (LB : len b = 8) by (unfold len; lia).
  assert (Hl : len bytes = 48 + len rest) by (unfold bytes; rewrite !len_app; lia).
  pose proof (len_nonneg rest). pose proof (from_be_bytes_range b).
  unfold from_bytes, read_u64, read_u64_raw, BUNDLE_HEADER_BYTES_V1. rewrite (proj2 (Z.ltb_ge _ _)) by lia.
  replace (take (length BUNDLE_MAGIC_V1) bytes) with m.
  2:{ unfold bytes. change (length BUNDLE_MAGIC_V1) with 32%nat. rewrite <- Hm. by rewrite take_app_length. }
  destruct (bool_decide _); [done|].
  replace (slice_get bytes 32 (32 + 8)) with (Some a) by (symmetry; unfold bytes; apply slice_get_mid; lia).
  cbn [ok_or mbind result_bind]. destruct (_ >? MAX_ARCHIVE_BLOBS_V1); [done|].
  replace (slice_get bytes 40 (40 + 8)) with (Some b)
    by (symmetry; unfold bytes; rewrite (app_assoc m); apply slice_get_mid; rewrite ?len_app; lia).
  cbn [ok_or mbind result_bind].
  destruct (checked_add usize_max 48 (from_be_bytes b)) as [v|] eqn:E.
  - apply checked_add_Some in E as [-> _]. cbn [ok_or mbind result_bind]. rewrite Hl.
    replace (48 + from_be_bytes b >? 48 + len rest) with (from_be_bytes b >? len rest)
      by (rewrite !Z.gtb_ltb; destruct (Z.ltb_spec (len rest) (from_be_bytes b)), (Z.ltb_spec (48 + len rest) (48 + from_be_bytes b)); lia).
    destruct (_ >? len rest); [done|]. destruct (read_index _ _) as [[es c]|]; [|done].
    cbn [mbind result_bind]. destruct (negb _); [done|].
    replace (48 + len rest - (48 + from_be_bytes b)) with (len rest - from_be_bytes b) by lia. done.
  - destruct (_ >? len rest) eqn:E2; [done|]. rewrite Z.gtb_ltb in E2. apply Z.ltb_ge in E2.
    assert (checked_add usize_max 48 (from_be_bytes b) = Some (48 + from_be_bytes b)) by (apply checked_add_Some; lia).
    congruence.
Qed.

(** A container from its first 48 bytes on. *)
Lemma cut_header (bytes : list byte) :
  (48 ≤ length bytes)%nat →
  ∃ m a b rest, bytes = m ++ a ++ b ++ rest ∧ length m = 32%nat ∧ length a = 8%nat ∧ length b = 8%nat.
Proof.
  intros Hl. destruct (cut bytes 32) as (m & r & -> & Hm); [lia|]. rewrite length_app in Hl.
  destruct (cut r 8) as (a & r1 & -> & Ha); [lia|]. rewrite length_app in Hl.
  destruct (cut r1 8) as (b & rest & -> & Hb); [lia|]. by exists m, a, b, rest.
Qed.

(** [read_index] behind a header. *)
Lemma read_index_header m a b region payload es c :
  length m = 32%nat → length a = 8%nat → length b = 8%nat → len (m ++ a ++ b ++ region ++ payload) ≤ usize_max →
  read_index (m ++ a ++ b ++ region ++ payload) (BUNDLE_HEADER_BYTES_V1 + len region) = Ok (es, c) ↔
  region = flat_map record_bytes es ∧ entries_ok None 0 es ∧ c = total_length es.
Proof.
  intros Hm Ha Hb Hu. apply (read_index_Ok (m ++ a ++ b) region payload).
  - by rewrite <- !app_assoc.
  - done.
  - unfold len, BUNDLE_HEADER_BYTES_V1. rewrite !length_app. lia.
Qed.

Definition source_of (es : list BundleIndexEntry) (payload : list byte) : ArchiveBundleSource :=
  {| container_bytes := container es payload; bundle_index := es;
     payload_start := BUNDLE_HEADER_BYTES_V1 + len (flat_map record_bytes es) |}.

(** What a container must hold. *)
Record container_ok (es : list BundleIndexEntry) (payload : list byte) : Prop := {
  co_entries : entries_ok None 0 es;
  co_count : len es ≤ MAX_ARCHIVE_BLOBS_V1;
  co_payload : len payload = total_length es;
}.

Lemma from_bytes_sound bytes s :
  len bytes ≤ usize_max → from_bytes bytes = Ok s →
  ∃ es payload, bytes = container es payload ∧ s = source_of es payload ∧ container_ok es payload.
Proof.
  intros Hu. destruct (decide (48 ≤ length bytes)%nat) as [Hl|Hl].
  2:{ unfold from_bytes. by rewrite (proj2 (Z.ltb_lt _ _)) by (unfold len, BUNDLE_HEADER_BYTES_V1; lia). }
  destruct (cut_header bytes Hl) as (m & a & b & rest & -> & Hm & Ha & Hb).
  rewrite from_bytes_fields by done. case_bool_decide as Hmagic; [done|]. rewrite !Z.gtb_ltb.
  destruct (Z.ltb_spec MAX_ARCHIVE_BLOBS_V1 (from_be_bytes a)); [done|].
  destruct (Z.ltb_spec (len rest) (from_be_bytes b)); [done|]. pose proof (from_be_bytes_range b).
  destruct (cut rest (Z.to_nat (from_be_bytes b))) as (region & payload & -> & Hr); [unfold len in *; lia|].
  assert (Hlr : from_be_bytes b = len region) by (unfold len; lia). rewrite Hlr.
  destruct (read_index _ _) as [[es c]|] eqn:Ei; [|done]. cbn [mbind result_bind].
  apply read_index_header in Ei as (-> & Hok & ->); [|done..].
  destruct (Z.eqb_spec (len es) (from_be_bytes a)) as [Ea|]; [|done]. cbn [negb].
  destruct (Z.eqb_spec (len (flat_map record_bytes es ++ payload) - len (flat_map record_bytes es)) (total_length es)) as [Ep|];
    [|done]. cbn [negb]. rewrite len_app in Ep.
  assert (E : m ++ a ++ b ++ flat_map record_bytes es ++ payload = container es payload).
  { unfold container. rewrite Ea, <- Hlr, <- Hmagic. unfold u64_of. by rewrite !to_from_be. }
  rewrite E. intros [= <-]. exists es, payload. split_and!; [done|done|]. split; [done|lia|lia].
Qed.

Lemma from_bytes_complete es payload :
  len (container es payload) ≤ usize_max → container_ok es payload →
  from_bytes (container es payload) = Ok (source_of es payload).
Proof.
  intros Hu [Hok Hn Hp]. pose proof (len_nonneg es). pose proof (len_nonneg (flat_map record_bytes es)).
  pose proof (len_nonneg payload). pose proof Hu as Hu'. rewrite len_container in Hu'. unfold BUNDLE_HEADER_BYTES_V1 in Hu'.
  assert (Hcount : from_be_bytes (u64_of (len es)) = len es).
  { apply from_to_be. split; [lia|]. change MAX_ARCHIVE_BLOBS_V1 with 1048576 in Hn.
    change (2 ^ (8 * Z.of_nat 8)) with 18446744073709551616. lia. }
  assert (Hlen : from_be_bytes (u64_of (len (flat_map record_bytes es))) = len (flat_map record_bytes es)).
  { apply from_to_be. split; [lia|]. unfold usize_max, u64_max in Hu'. change (2 ^ (8 * Z.of_nat 8)) with (2 ^ 64). lia. }
  assert (Hidx : read_index (container es payload) (BUNDLE_HEADER_BYTES_V1 + len (flat_map record_bytes es)) = Ok (es, total_length es)).
  { apply read_index_header; [done|apply length_to_be_bytes..|done|done]. }
  unfold source_of. unfold container in Hu, Hidx |- *. rewrite from_bytes_fields by (done || apply length_to_be_bytes).
  rewrite bool_decide_eq_false_2 by auto. rewrite Hcount, Hlen, !Z.gtb_ltb.
  rewrite (proj2 (Z.ltb_ge _ _) Hn), (proj2 (Z.ltb_ge _ _)) by (rewrite len_app; lia).
  rewrite Hidx. cbn [mbind result_bind]. rewrite Z.eqb_refl. cbn [negb]. rewrite len_app.
  replace (len (flat_map record_bytes es) + len payload - len (flat_map record_bytes es)) with (len payload) by lia.
  by rewrite Hp, Z.eqb_refl.
Qed.

(** ** The container of a list of blobs *)

Definition payload_of (blobs : list (str * list byte)) : list byte := concat (snd <$> blobs).

Fixpoint entries_from (offset : Z) (blobs : list (str * list byte)) : list BundleIndexEntry :=
  match blobs with
  | [] => []
  | (p, b) :: blobs =>
      {| bundle_path := p; bundle_offset := offset; bundle_length := len b |} :: entries_from (offset + len b) blobs
  end.

(** The lists of blobs a bundle holds: acceptable paths in strictly ascending
    order, not too many and not too long. *)
Record blobs_ok (blobs : list (str * list byte)) : Prop := {
  bo_paths : Forall (λ pb, path_ok pb.1) blobs;
  bo_sorted : StronglySorted (λ pb qb, before pb.1 qb.1 = true) blobs;
  bo_count : len blobs ≤ MAX_ARCHIVE_BLOBS_V1;
  bo_total : len (payload_of blobs) ≤ MAX_TOTAL_ARCHIVE_BYTES_V1;
}.

Lemma before_trans p q r : before p q = true → before q r = true → before p r = true.
Proof. unfold before. rewrite !bool_decide_eq_true. apply cmp_lt_trans. Qed.

Lemma payload_cons p b blobs : payload_of ((p, b) :: blobs) = b ++ payload_of blobs.
Proof. done. Qed.

Lemma len_entries_from o blobs : len (entries_from o blobs) = len blobs.
Proof. revert o. induction blobs as [|[p b] blobs IH]; intros o; [done|]. cbn. rewrite !len_cons. by rewrite IH. Qed.

Lemma total_entries_from o blobs : total_length (entries_from o blobs) = len (payload_of blobs).
Proof.
  revert o. induction blobs as [|[p b] blobs IH]; intros o; [done|].
  rewrite payload_cons, len_app, <- (IH (o + len b)). done.
Qed.

Lemma encode_index_spec blobs o :
  0 ≤ o → o + len (payload_of blobs) ≤ usize_max → Forall (λ pb, len pb.1 ≤ u16_max) blobs →
  encode_index blobs o = Ok (flat_map record_bytes (entries_from o blobs), o + len (payload_of blobs)).
Proof.
  revert o. induction blobs as [|[p b] blobs IH]; intros o Ho Hu HF; cbn [encode_index].
  { cbn. by rewrite Z.add_0_r. }
  inversion HF as [|? ? Hp HF']; subst. cbn in Hp. rewrite payload_cons, len_app in *. pose proof (len_nonneg b).
  pose proof (len_nonneg (payload_of blobs)).
  rewrite Z.gtb_ltb, (proj2 (Z.ltb_ge _ _) Hp).
  rewrite (proj2 (checked_add_Some usize_max o (len b) (o + len b)) ltac:(lia)). cbn [ok_or mbind result_bind].
  rewrite IH by (done || lia). cbn [mbind result_bind]. rewrite <- Z.add_assoc. done.
Qed.

Lemma encode_index_paths blobs o r : encode_index blobs o = Ok r → Forall (λ pb, len pb.1 ≤ u16_max) blobs.
Proof.
  revert o r. induction blobs as [|[p b] blobs IH]; intros o r; cbn [encode_index]; [constructor|].
  rewrite Z.gtb_ltb. destruct (Z.ltb_spec u16_max (len p)); [done|]. intros Hr.
  apply bind_Ok in Hr as (n & _ & Hr). apply bind_Ok in Hr as (x & Hx & _). constructor; [done|by eapply IH].
Qed.

Lemma encode_bundle_ok blobs :
  blobs_ok blobs → encode_bundle blobs = Ok (container (entries_from 0 blobs) (payload_of blobs)).
Proof.
  intros [Hp _ Hc Ht]. unfold encode_bundle. rewrite encode_index_spec; [|done|..].
  - cbn [mbind result_bind]. unfold container. by rewrite len_entries_from.
  - rewrite Z.add_0_l. transitivity MAX_TOTAL_ARCHIVE_BYTES_V1; [done|by vm_compute].
  - eapply Forall_impl; [exact Hp|]. by intros pb (_ & _ & ?).
Qed.

Lemma entries_ok_iff previous o blobs :
  entries_ok previous o (entries_from o blobs) ↔
  Forall (λ pb, path_ok pb.1) blobs ∧ StronglySorted (λ pb qb, before pb.1 qb.1 = true) blobs
  ∧ (∀ p pb, previous = Some p → pb ∈ blobs → before p pb.1 = true)
  ∧ (blobs ≠ [] → o + len (payload_of blobs) ≤ MAX_TOTAL_ARCHIVE_BYTES_V1).
Proof.
  revert previous o. induction blobs as [|[p b] blobs IH]; intros previous o; cbn [entries_from entries_ok].
  { split; [|done]. intros _. split_and!; [constructor..| |done]. intros ? ? _ ?%elem_of_nil. done. }
  cbn [bundle_path bundle_offset bundle_length]. rewrite IH, payload_cons, len_app. pose proof (len_nonneg b).
  pose proof (len_nonneg (payload_of blobs)). split.
  - intros (Hp & Hprev & _ & _ & Hm & HF & Hs & Hlt & Ht). split_and!.
    + by constructor.
    + constructor; [done|]. apply Forall_forall. intros qb Hq. by eapply Hlt.
    + intros q pb Hq [->|Hin]%elem_of_cons; [by apply Hprev|]. eapply before_trans; [by apply Hprev|by eapply Hlt].
    + intros _. destruct blobs as [|qb blobs]; [change (len (payload_of [])) with 0; lia|]. specialize (Ht ltac:(done)). lia.
  - intros (HF & Hs & Hlt & Ht). inversion HF; subst. inversion Hs as [|? ? Hs' Hall]; subst. specialize (Ht ltac:(done)).
    split_and!; try done.
    + intros q Hq. apply (Hlt q (p, b)); [done|by left].
    + lia.
    + intros q pb [= <-] Hin. rewrite Forall_forall in Hall. by apply (Hall pb).
    + intros _. lia.
Qed.

Lemma container_ok_iff blobs : container_ok (entries_from 0 blobs) (payload_of blobs) ↔ blobs_ok blobs.
Proof.
  split.
  - intros [(HF & Hs & _ & Ht)%entries_ok_iff Hc _]. rewrite len_entries_from in Hc. split; try done.
    destruct blobs as [|qb blobs]; [done|]. specialize (Ht ltac:(done)). lia.
  - intros [HF Hs Hc Ht]. split; [apply entries_ok_iff; split_and!; try done; intros _; by rewrite Z.add_0_l|by rewrite len_entries_from|by rewrite total_entries_from].
Qed.

(** A good index and payload come from a list of blobs. *)
Lemma entries_blobs previous o es payload :
  entries_ok previous o es → len payload = total_length es →
  ∃ blobs, es = entries_from o blobs ∧ payload = payload_of blobs.
Proof.
  revert previous o payload. induction es as [|e es IH]; intros previous o payload Hok Hl.
  { exists []. cbn in Hl. destruct payload; [done|]. rewrite len_cons in Hl. pose proof (len_nonneg payload). lia. }
  destruct Hok as (_ & _ & Ho & Hn & _ & Hok). cbn [total_length foldr] in Hl. fold total_length in Hl.
  assert (Hcut : ∃ b rest, payload = b ++ rest ∧ len b = bundle_length e ∧ len rest = total_length es).
  { assert (0 ≤ total_length es).
    { clear -Hok. revert Hok. generalize (Some (bundle_path e)) as q, (o + bundle_length e) as n.
      induction es as [|x es IHe]; intros q n; [done|]. intros (_ & _ & _ & ? & _ & Hok). apply IHe in Hok. cbn. unfold total_length in Hok. lia. }
    destruct (cut payload (Z.to_nat (bundle_length e))) as (b & rest & -> & Hb); [unfold len in Hl; unfold total_length in *; lia|].
    exists b, rest. rewrite len_app in Hl. unfold len in *. unfold total_length in *. split_and!; [done|lia|lia]. }
  destruct Hcut as (b & rest & -> & Hb & Hrest). destruct (IH _ _ _ Hok Hrest) as (blobs & -> & ->).
  exists ((bundle_path e, b) :: blobs). rewrite payload_cons. split; [|done]. cbn. rewrite Hb. destruct e. cbn in *. by subst.
Qed.

Lemma blobs_from pre seen blobs bytes start o :
  bytes = pre ++ seen ++ payload_of blobs → start = len pre → o = len seen →
  (λ e, let first := start + bundle_offset e in
        (bundle_path e, slice bytes first (first + bundle_length e))) <$> entries_from o blobs = blobs.
Proof.
  intros Hb -> ->. revert seen Hb. induction blobs as [|[p b] blobs IH]; intros seen Hb; [done|].
  cbn [entries_from fmap list_fmap]. rewrite payload_cons in Hb. cbn [bundle_path bundle_offset bundle_length]. f_equal.
  - f_equal. unfold slice. rewrite Hb, app_assoc.
    by rewrite (slice_get_mid (pre ++ seen) b (payload_of blobs)) by (rewrite ?len_app; lia).
  - rewrite <- len_app. apply IH. by rewrite Hb, <- app_assoc.
Qed.

Lemma bundle_blobs_source blobs : bundle_blobs (source_of (entries_from 0 blobs) (payload_of blobs)) = blobs.
Proof.
  unfold bundle_blobs, source_of. cbn [container_bytes bundle_index payload_start].
  apply (blobs_from (BUNDLE_MAGIC_V1 ++ u64_of (len (entries_from 0 blobs))
    ++ u64_of (len (flat_map record_bytes (entries_from 0 blobs))) ++ flat_map record_bytes (entries_from 0 blobs)) []).
  - unfold container. by rewrite <- !app_assoc.
  - rewrite !len_app, !len_u64_of. change (len BUNDLE_MAGIC_V1) with 32. unfold BUNDLE_HEADER_BYTES_V1. lia.
  - done.
Qed.

(** The reader accepts exactly what the writer makes of good blobs. *)
Lemma from_bytes_iff bytes blobs :
  len bytes ≤ usize_max →
  (∃ s, from_bytes bytes = Ok s ∧ bundle_blobs s = blobs) ↔ encode_bundle blobs = Ok bytes ∧ blobs_ok blobs.
Proof.
  intros Hu. split.
  - intros (s & Hs & <-). apply from_bytes_sound in Hs as (es & payload & -> & -> & Hok); [|done].
    destruct (entries_blobs None 0 es payload (co_entries _ _ Hok) (co_payload _ _ Hok)) as (blobs & -> & ->).
    rewrite bundle_blobs_source. apply container_ok_iff in Hok. by rewrite encode_bundle_ok.
  - intros [He Hok]. rewrite encode_bundle_ok in He by done. injection He as <-.
    exists (source_of (entries_from 0 blobs) (payload_of blobs)). split; [|apply bundle_blobs_source].
    apply from_bytes_complete; [done|]. by apply container_ok_iff.
Qed.

(** C35. A bundle opens to a list of blobs exactly if it is, byte for byte, what
    the writer makes of that list, and the list has acceptable paths in
    strictly ascending order and keeps the limits of an archive: there is one
    file for an archive, and one archive in a file. *)
Theorem bundle_roundtrip bytes blobs :
  len bytes ≤ usize_max →
  (∃ s, from_bytes bytes = Ok s ∧ bundle_blobs s = blobs) ↔ encode_bundle blobs = Ok bytes ∧ blobs_ok blobs.
Proof. apply from_bytes_iff. Qed.

Lemma bind_Err {E A B} (m : result E A) (k : A → result E B) e :
  m ≫= k = Err e → m = Err e ∨ ∃ a, m = Ok a ∧ k a = Err e.
Proof. destruct m; cbn; [eauto|]. intros [= ->]. by left. Qed.

(** Where the error of a run of the error monad comes from. *)
Ltac inv_err := repeat match goal with
  | H : mbind _ _ = Err _ |- _ => apply bind_Err in H as [H|(? & _ & H)]
  | H : ok_or _ ?o = Err _ |- _ => destruct o; [discriminate H|injection H as <-]
  | H : (if ?b then _ else _) = Err _ |- _ => destruct b
  | H : Err _ = Err _ |- _ => injection H as <-
  | H : Ok _ = Err _ |- _ => discriminate H
  end.

Lemma record_at_errors bytes start at_ consumed previous e :
  record_at bytes start at_ consumed previous = Err e → e ≠ Bun.BlobLimit.
Proof. unfold record_at, read_u64, read_u64_raw, validate_bundle_path. intros Hr. by inv_err. Qed.

Lemma index_loop_errors fuel bytes start at_ consumed previous e :
  index_loop fuel bytes start at_ consumed previous = Some (Err e) → e ≠ Bun.BlobLimit.
Proof.
  revert at_ consumed previous. induction fuel as [|fuel IH]; intros at_ consumed previous; cbn [index_loop];
    destruct (at_ <? start); try done.
  destruct (record_at _ _ _ _ _) as [[[x end_] c]|y] eqn:E.
  - destruct (index_loop fuel _ _ _ _ _) as [[[]|]|] eqn:El; try done. intros [= <-]. by eapply IH.
  - intros [= <-]. by eapply record_at_errors.
Qed.

(** The number of blobs is checked on the header alone: a container is
    refused for it exactly if it has the magic and claims more than 1048576,
    whatever the index holds. *)
Theorem bundle_blob_limit m a b rest :
  length m = 32%nat → length a = 8%nat → length b = 8%nat → len (m ++ a ++ b ++ rest) ≤ usize_max →
  from_bytes (m ++ a ++ b ++ rest) = Err Bun.BlobLimit ↔ m = BUNDLE_MAGIC_V1 ∧ MAX_ARCHIVE_BLOBS_V1 < from_be_bytes a.
Proof.
  intros Hm Ha Hb Hu. rewrite from_bytes_fields by done. case_bool_decide as Hmagic.
  { split; [done|]. by intros [-> _]. }
  rewrite Z.gtb_ltb. destruct (Z.ltb_spec MAX_ARCHIVE_BLOBS_V1 (from_be_bytes a)).
  { split; [|done]. intros _. split; [|done]. exact Hmagic. }
  split; [|intros [_ ?]; lia]. destruct (_ >? _); [done|].
  destruct (read_index _ _) as [[es c]|e] eqn:E; cbn [mbind result_bind].
  - destruct (negb _); [done|]. by destruct (negb _).
  - intros [= ->]. exfalso. revert E. unfold read_index. destruct (index_loop _ _ _ _ _ _) as [r|] eqn:El; [|done].
    cbn. intros ->. by apply index_loop_errors in El.
Qed.

(** The host's bound on the length of a file ([ea-archive-fs], [bundle.rs]). *)
Definition MAX_BUNDLE_FILE_BYTES_V1 : Z :=
  BUNDLE_HEADER_BYTES_V1 + MAX_ARCHIVE_BLOBS_V1 * (INDEX_RECORD_FIXED_BYTES + u16_max) + MAX_TOTAL_ARCHIVE_BYTES_V1.

Lemma len_records_bound previous o es :
  entries_ok previous o es → len (flat_map record_bytes es) ≤ len es * (INDEX_RECORD_FIXED_BYTES + u16_max).
Proof.
  revert previous o. induction es as [|e es IH]; intros previous o; [done|]. intros Hok.
  pose proof (entries_ok_path _ _ _ _ Hok) as Hp. destruct Hok as (_ & _ & _ & _ & _ & Hok). apply IH in Hok.
  cbn [flat_map]. rewrite len_app, len_cons. unfold record_bytes at 1. rewrite len_index_record.
  unfold INDEX_RECORD_FIXED_BYTES in *. lia.
Qed.

(** The bound refuses no file that the reader would take. *)
Lemma host_bound_loose bytes s :
  len bytes ≤ usize_max → from_bytes bytes = Ok s → len bytes ≤ MAX_BUNDLE_FILE_BYTES_V1.
Proof.
  intros Hu Hs. apply from_bytes_sound in Hs as (es & payload & -> & _ & Hok); [|done].
  rewrite len_container. destruct (entries_blobs None 0 es payload (co_entries _ _ Hok) (co_payload _ _ Hok)) as (blobs & -> & ->).
  pose proof (len_records_bound _ _ _ (co_entries _ _ Hok)) as Hr. pose proof (co_count _ _ Hok) as Hc.
  apply container_ok_iff in Hok. pose proof (bo_total _ Hok) as Ht. unfold MAX_BUNDLE_FILE_BYTES_V1, BUNDLE_HEADER_BYTES_V1.
  change (INDEX_RECORD_FIXED_BYTES + u16_max) with 65553 in *. change MAX_ARCHIVE_BLOBS_V1 with 1048576 in *. lia.
Qed.

(** ** Witnesses *)

Definition demo_blobs : list (str * list byte) :=
  [(lit "archive.json", lit "{}"); (lit "objects/a.cbor", [xa0; x00])].

Definition demo_bundle : list byte :=
  match encode_bundle demo_blobs with Ok bytes => bytes | Err _ => [] end.

Lemma bundle_roundtrip_witness : encode_bundle demo_blobs = Ok demo_bundle ∧ blobs_ok demo_blobs.
Proof.
  apply (bundle_roundtrip demo_bundle demo_blobs); [by vm_compute|].
  destruct (from_bytes demo_bundle) as [s|] eqn:E.
  - exists s. split; [done|]. revert E. vm_compute. by intros [= <-].
  - exfalso. revert E. by vm_compute.
Defined.
