(* ===== verification/ServerDb.v ===== *)
(** * ServerDb: the commit transaction of the synchronization server

    The tables an entry commit touches, with the constraints of
    [migrations/0001_initial.sql], and the transaction that makes a commit
    visible ([apps/server], [adapters/postgres.rs]); its commands and errors
    are those of [ea-sync-server] ([models.rs]).

    Several transactions run at once. A transaction is cut into the steps
    between which others may commit: it locks the head row of its chain if there
    is one, looks its entry up, compares position and checkpoint, and writes.
    The writes of a transaction are one step: they fail on the first broken
    constraint or become visible together. A row that does not exist yet cannot
    be locked, so that the first commits of a chain race.

    The lengths of identifiers are those of their types and not checked again.
    The identity columns that only paging reads are left out. *)

From S2P Require Import Prelude Types.

Module Repo.
Inductive RepositoryError :=
| HeadConflict | CommitIdentityConflict | RequestIdReplay | CheckpointPredecessorConflict | Unavailable.

Definition repository_error_code (e : RepositoryError) : string :=
  match e with
  | HeadConflict => "EA-DB-HEAD-CONFLICT"
  | CommitIdentityConflict => "EA-DB-COMMIT-IDENTITY-CONFLICT"
  | RequestIdReplay => "EA-DB-REQUEST-ID-REPLAY"
  | CheckpointPredecessorConflict => "EA-DB-CHECKPOINT-PREDECESSOR"
  | Unavailable => "EA-DB-UNAVAILABLE"
  end.
End Repo.
Import Repo(RepositoryError).

Module Ot.
Inductive ObjectTypeV1 := Entry | Grant | Receipt | Evidence | Trust | Destroyed.
End Ot.
Import Ot(ObjectTypeV1).

#[export] Instance ObjectTypeV1_eq_dec : EqDecision ObjectTypeV1.
Proof. solve_decision. Defined.

Definition object_type_code (k : ObjectTypeV1) : Z :=
  match k with
  | Ot.Entry => 1 | Ot.Grant => 2 | Ot.Receipt => 3 | Ot.Evidence => 4 | Ot.Trust => 5 | Ot.Destroyed => 6
  end.

Definition object_type_of_code (code : Z) : result RepositoryError ObjectTypeV1 :=
  if code =? 1 then Ok Ot.Entry else
  if code =? 2 then Ok Ot.Grant else
  if code =? 3 then Ok Ot.Receipt else
  if code =? 4 then Ok Ot.Evidence else
  if code =? 5 then Ok Ot.Trust else
  if code =? 6 then Ok Ot.Destroyed else Err Repo.Unavailable.

(** ** Commands ([models.rs]) *)

Record IndexedObjectV1 := { ob_kind : ObjectTypeV1; ob_hash : ObjectHash; ob_size : Z }.

Record GrantRecipientV1 := { gr_object : ObjectHash; gr_thumbprint : Hash32 }.

Record CommitIdentityV1 := {
  id_entry_hash : EntryHash;
  id_entry_object : ObjectHash;
  id_plan : Hash32;
  id_grants : list ObjectHash;
}.

Record CheckpointCommitV1 := {
  cc_object : ObjectHash;
  cc_covered : ChainSequence;
  cc_issued : UnixMillis;
  cc_previous : option ObjectHash;
}.

Record CommitDbCommand := {
  cd_organization : OrganizationId;
  cd_chain : ChainId;
  cd_device : DeviceId;
  cd_sequence : ChainSequence;
  cd_previous : option EntryHash;
  cd_identity : CommitIdentityV1;
  cd_recipients : list GrantRecipientV1;
  cd_receipt : ObjectHash;
  cd_accepted : UnixMillis;
  cd_due : option UnixMillis;
  cd_registry_version : Z;
  cd_registry_head : ObjectHash;
  cd_objects : list IndexedObjectV1;
  cd_checkpoint : CheckpointCommitV1;
}.

Record ChainHeadStateV1 := { ch_sequence : ChainSequence; ch_entry : EntryHash; ch_accepted : UnixMillis }.

Record CommittedDbState := {
  cs_sequence : ChainSequence;
  cs_entry : EntryHash;
  cs_receipt : ObjectHash;
  cs_checkpoint : ObjectHash;
  cs_accepted : UnixMillis;
  cs_new : bool;
}.

(** ** Tables *)

Record HeadRow := {
  hd_sequence : Z;
  hd_entry : EntryHash;
  hd_accepted : Z;
  hd_revision : Z;
}.

Record EntryRow := {
  en_organization : OrganizationId;
  en_chain : ChainId;
  en_sequence : Z;
  en_previous : option EntryHash;
  en_object : ObjectHash;
  en_plan : Hash32;
  en_receipt : ObjectHash;
  en_device : DeviceId;
  en_accepted : Z;
  en_due : option Z;
  en_registry_version : Z;
  en_registry_head : ObjectHash;
}.

Record IndexRow := { ix_organization : OrganizationId; ix_type : Z; ix_size : Z; ix_stored : Z }.

Inductive GrantKind := Initial | Historical.
#[export] Instance GrantKind_eq_dec : EqDecision GrantKind.
Proof. solve_decision. Defined.

Record GrantRow := {
  gw_organization : OrganizationId;
  gw_entry : EntryHash;
  gw_thumbprint : Hash32;
  gw_kind : GrantKind;
  gw_expires : option Z;
}.

Record ReceiptRow := {
  rc_organization : OrganizationId;
  rc_entry : EntryHash;
  rc_accepted : Z;
  rc_due : option Z;
}.

Record CheckpointRow := {
  ck_organization : OrganizationId;
  ck_chain : ChainId;
  ck_covered : Z;
  ck_issued : Z;
}.

Record CommitTables := {
  t_organizations : gset OrganizationId;
  t_heads : gmap (OrganizationId * ChainId) HeadRow;
  t_entries : gmap EntryHash EntryRow;
  t_objects : gmap ObjectHash IndexRow;
  t_grants : gmap ObjectHash GrantRow;
  t_receipts : gmap ObjectHash ReceiptRow;
  t_checkpoints : gmap ObjectHash CheckpointRow;
}.

Definition set_heads m t := {|
  t_organizations := t_organizations t; t_heads := m; t_entries := t_entries t; t_objects := t_objects t;
  t_grants := t_grants t; t_receipts := t_receipts t; t_checkpoints := t_checkpoints t |}.
Definition set_entries m t := {|
  t_organizations := t_organizations t; t_heads := t_heads t; t_entries := m; t_objects := t_objects t;
  t_grants := t_grants t; t_receipts := t_receipts t; t_checkpoints := t_checkpoints t |}.
Definition set_objects m t := {|
  t_organizations := t_organizations t; t_heads := t_heads t; t_entries := t_entries t; t_objects := m;
  t_grants := t_grants t; t_receipts := t_receipts t; t_checkpoints := t_checkpoints t |}.
Definition set_grants m t := {|
  t_organizations := t_organizations t; t_heads := t_heads t; t_entries := t_entries t; t_objects := t_objects t;
  t_grants := m; t_receipts := t_receipts t; t_checkpoints := t_checkpoints t |}.
Definition set_receipts m t := {|
  t_organizations := t_organizations t; t_heads := t_heads t; t_entries := t_entries t; t_objects := t_objects t;
  t_grants := t_grants t; t_receipts := m; t_checkpoints := t_checkpoints t |}.
Definition set_checkpoints m t := {|
  t_organizations := t_organizations t; t_heads := t_heads t; t_entries := t_entries t; t_objects := t_objects t;
  t_grants := t_grants t; t_receipts := t_receipts t; t_checkpoints := m |}.

(** The errors of a statement: a broken unique constraint, by its name, or
    another failure, such as a broken foreign key. *)
Inductive SqlError := Unique (constraint : string) | OtherSql.

Definition map_commit_error (e : SqlError) : RepositoryError :=
  match e with
  | Unique c =>
      if bool_decide (c = "entries_chain_id_sequence_number_key" ∨ c = "chain_heads_pkey")
      then Repo.HeadConflict
      else if bool_decide (c = "checkpoints_organization_id_chain_id_covered_sequence_key")
      then Repo.CheckpointPredecessorConflict
      else Repo.CommitIdentityConflict
  | OtherSql => Repo.Unavailable
  end.

(** [Result::map_err]. *)
Definition map_err {E F A} (f : E → F) (r : result E A) : result F A :=
  match r with Ok a => Ok a | Err e => Err (f e) end.

Definition chain_key (c : CommitDbCommand) : OrganizationId * ChainId := (cd_organization c, cd_chain c).

(** *** Statements: unique constraints are checked in the order of the table's
    definition, then foreign keys. *)

Definition insert_object (c : CommitDbCommand) (o : IndexedObjectV1) (t : CommitTables) : result RepositoryError CommitTables :=
  if ob_size o >? i64_max then Err Repo.Unavailable else
  match t_objects t !! ob_hash o with
  | Some _ => Ok t
  | None =>
      if bool_decide (cd_organization c ∈ t_organizations t)
      then Ok (set_objects (<[ob_hash o := {| ix_organization := cd_organization c; ix_type := object_type_code (ob_kind o);
                                              ix_size := ob_size o; ix_stored := cd_accepted c |}]> (t_objects t)) t)
      else Err Repo.Unavailable
  end.

Fixpoint insert_objects (c : CommitDbCommand) (os : list IndexedObjectV1) (t : CommitTables) : result RepositoryError CommitTables :=
  match os with
  | [] => Ok t
  | o :: os => t ← insert_object c o t; insert_objects c os t
  end.

Definition entry_row (c : CommitDbCommand) : EntryRow := {|
  en_organization := cd_organization c; en_chain := cd_chain c; en_sequence := cd_sequence c;
  en_previous := cd_previous c; en_object := id_entry_object (cd_identity c); en_plan := id_plan (cd_identity c);
  en_receipt := cd_receipt c; en_device := cd_device c; en_accepted := cd_accepted c; en_due := cd_due c;
  en_registry_version := cd_registry_version c; en_registry_head := cd_registry_head c |}.

Definition insert_entry (e : EntryHash) (r : EntryRow) (t : CommitTables) : result SqlError CommitTables :=
  if bool_decide (is_Some (t_entries t !! e)) then Err (Unique "entries_pkey") else
  if bool_decide (map_Exists (λ _ r', en_object r' = en_object r) (t_entries t))
  then Err (Unique "entries_entry_object_hash_key") else
  if bool_decide (map_Exists (λ _ r', en_chain r' = en_chain r ∧ en_sequence r' = en_sequence r) (t_entries t))
  then Err (Unique "entries_chain_id_sequence_number_key") else
  if bool_decide (en_organization r ∈ t_organizations t) then Ok (set_entries (<[e := r]> (t_entries t)) t)
  else Err OtherSql.

Definition insert_grant (g : ObjectHash) (r : GrantRow) (t : CommitTables) : result SqlError CommitTables :=
  match t_grants t !! g with
  | Some _ => Ok t
  | None =>
      if bool_decide (is_Some (t_objects t !! g)) && bool_decide (is_Some (t_entries t !! gw_entry r))
         && bool_decide (gw_organization r ∈ t_organizations t)
      then Ok (set_grants (<[g := r]> (t_grants t)) t)
      else Err OtherSql
  end.

Definition recipient_of (c : CommitDbCommand) (g : ObjectHash) : option GrantRecipientV1 :=
  snd <$> list_find (λ r, gr_object r = g) (cd_recipients c).

Definition grant_row (c : CommitDbCommand) (thumbprint : Hash32) : GrantRow := {|
  gw_organization := cd_organization c; gw_entry := id_entry_hash (cd_identity c); gw_thumbprint := thumbprint;
  gw_kind := Initial; gw_expires := None |}.

Fixpoint insert_grants (c : CommitDbCommand) (gs : list ObjectHash) (t : CommitTables) : result RepositoryError CommitTables :=
  match gs with
  | [] => Ok t
  | g :: gs =>
      recipient ← ok_or Repo.Unavailable (recipient_of c g);
      t ← map_err map_commit_error (insert_grant g (grant_row c (gr_thumbprint recipient)) t);
      insert_grants c gs t
  end.

Definition receipt_row (c : CommitDbCommand) : ReceiptRow := {|
  rc_organization := cd_organization c; rc_entry := id_entry_hash (cd_identity c);
  rc_accepted := cd_accepted c; rc_due := cd_due c |}.

Definition insert_receipt (h : ObjectHash) (r : ReceiptRow) (t : CommitTables) : result SqlError CommitTables :=
  if bool_decide (is_Some (t_receipts t !! h)) then Err (Unique "receipts_pkey") else
  if bool_decide (map_Exists (λ _ r', rc_entry r' = rc_entry r) (t_receipts t))
  then Err (Unique "receipts_entry_hash_key") else
  if bool_decide (is_Some (t_objects t !! h)) && bool_decide (is_Some (t_entries t !! rc_entry r))
     && bool_decide (rc_organization r ∈ t_organizations t)
  then Ok (set_receipts (<[h := r]> (t_receipts t)) t) else Err OtherSql.

Definition checkpoint_row (c : CommitDbCommand) : CheckpointRow := {|
  ck_organization := cd_organization c; ck_chain := cd_chain c;
  ck_covered := cc_covered (cd_checkpoint c); ck_issued := cc_issued (cd_checkpoint c) |}.

Definition insert_checkpoint (h : ObjectHash) (r : CheckpointRow) (t : CommitTables) : result SqlError CommitTables :=
  if bool_decide (is_Some (t_checkpoints t !! h)) then Err (Unique "checkpoints_pkey") else
  if bool_decide (map_Exists (λ _ r', ck_organization r' = ck_organization r ∧ ck_chain r' = ck_chain r
                                      ∧ ck_covered r' = ck_covered r) (t_checkpoints t))
  then Err (Unique "checkpoints_organization_id_chain_id_covered_sequence_key") else
  if bool_decide (is_Some (t_objects t !! h)) && bool_decide (ck_organization r ∈ t_organizations t)
  then Ok (set_checkpoints (<[h := r]> (t_checkpoints t)) t) else Err OtherSql.

(** The upsert of the head row with the revision read before; the number of
    rows it changed comes with the tables. *)
Definition upsert_head (c : CommitDbCommand) (revision : Z) (t : CommitTables) : result SqlError (CommitTables * Z) :=
  let row r := {| hd_sequence := cd_sequence c; hd_entry := id_entry_hash (cd_identity c);
                  hd_accepted := cd_accepted c; hd_revision := r |} in
  match t_heads t !! chain_key c with
  | None =>
      if bool_decide (cd_organization c ∈ t_organizations t)
      then Ok (set_heads (<[chain_key c := row 0]> (t_heads t)) t, 1) else Err OtherSql
  | Some h =>
      if hd_revision h =? revision then
        if hd_revision h + 1 >? i64_max then Err OtherSql
        else Ok (set_heads (<[chain_key c := row (hd_revision h + 1)]> (t_heads t)) t, 1)
      else Ok (t, 0)
  end.

(** *** Queries *)

Definition head_row_of (c : CommitDbCommand) (t : CommitTables) : option HeadRow := t_heads t !! chain_key c.

Definition head_state (o : OrganizationId) (ch : ChainId) (t : CommitTables) : option ChainHeadStateV1 :=
  (λ h, {| ch_sequence := hd_sequence h; ch_entry := hd_entry h; ch_accepted := hd_accepted h |}) <$> t_heads t !! (o, ch).

(** The checkpoints of a chain in the order of the sequences they cover. *)
Definition chain_checkpoints (o : OrganizationId) (ch : ChainId) (t : CommitTables) : list (ObjectHash * CheckpointRow) :=
  sort_by_key (λ p, ck_covered p.2)
    (filter (λ p, ck_organization p.2 = o ∧ ck_chain p.2 = ch) (map_to_list (t_checkpoints t))).

Definition checkpoint_head (o : OrganizationId) (ch : ChainId) (t : CommitTables) : option ObjectHash :=
  fst <$> last (chain_checkpoints o ch t).

Definition stored_checkpoint (c : CommitDbCommand) (t : CommitTables) : result RepositoryError ObjectHash :=
  if cd_sequence c >? i64_max then Err Repo.Unavailable else
  ok_or Repo.Unavailable
    (fst <$> head (filter (λ p, ck_covered p.2 = cd_sequence c) (chain_checkpoints (cd_organization c) (cd_chain c) t))).

Definition stored_grants (e : EntryHash) (t : CommitTables) : list ObjectHash :=
  sort_by_key id (fst <$> filter (λ p, gw_entry p.2 = e ∧ gw_kind p.2 = Initial) (map_to_list (t_grants t))).

Definition stored_grants_match (c : CommitDbCommand) (t : CommitTables) : bool :=
  bool_decide (stored_grants (id_entry_hash (cd_identity c)) t = id_grants (cd_identity c)).

(** ** The transaction ([commit_locked_head]) *)

(** The idempotent case: the entry is stored. *)
Definition find_replay (c : CommitDbCommand) (t : CommitTables) : result RepositoryError (option CommittedDbState) :=
  match t_entries t !! id_entry_hash (cd_identity c) with
  | None => Ok None
  | Some existing =>
      if bool_decide (en_object existing ≠ id_entry_object (cd_identity c))
         || bool_decide (en_plan existing ≠ id_plan (cd_identity c))
         || bool_decide (en_sequence existing ≠ cd_sequence c)
         || negb (stored_grants_match c t)
      then Err Repo.CommitIdentityConflict else
      checkpoint ← stored_checkpoint c t;
      Ok (Some {| cs_sequence := cd_sequence c; cs_entry := id_entry_hash (cd_identity c);
                  cs_receipt := en_receipt existing; cs_checkpoint := checkpoint;
                  cs_accepted := en_accepted existing; cs_new := false |})
  end.

Definition check_position (c : CommitDbCommand) (head : option HeadRow) : result RepositoryError unit :=
  expected ← match head with
             | Some h => ok_or Repo.Unavailable (checked_add u64_max (hd_sequence h) 1)
             | None => Ok 0
             end;
  if bool_decide (cd_sequence c ≠ expected) then Err Repo.HeadConflict else
  if bool_decide (hd_entry <$> head ≠ cd_previous c) then Err Repo.HeadConflict else
  if is_some_and (λ h, cd_accepted c <? hd_accepted h) head then Err Repo.HeadConflict else Ok tt.

Definition check_checkpoint (c : CommitDbCommand) (t : CommitTables) : result RepositoryError unit :=
  if bool_decide (checkpoint_head (cd_organization c) (cd_chain c) t ≠ cc_previous (cd_checkpoint c))
  then Err Repo.CheckpointPredecessorConflict else Ok tt.

Definition write_commit (c : CommitDbCommand) (head : option HeadRow) (t : CommitTables) : result RepositoryError CommitTables :=
  t ← insert_objects c (cd_objects c) t;
  if (cd_sequence c >? i64_max) || (cd_registry_version c >? i64_max) then Err Repo.Unavailable else
  t ← map_err map_commit_error (insert_entry (id_entry_hash (cd_identity c)) (entry_row c) t);
  t ← insert_grants c (id_grants (cd_identity c)) t;
  t ← map_err map_commit_error (insert_receipt (cd_receipt c) (receipt_row c) t);
  if cc_covered (cd_checkpoint c) >? i64_max then Err Repo.Unavailable else
  t ← map_err map_commit_error (insert_checkpoint (cc_object (cd_checkpoint c)) (checkpoint_row c) t);
  '(t, rows) ← map_err map_commit_error (upsert_head c (default 0 (hd_revision <$> head)) t);
  if negb (rows =? 1) then Err Repo.HeadConflict else Ok t.

Definition new_state (c : CommitDbCommand) : CommittedDbState := {|
  cs_sequence := cd_sequence c; cs_entry := id_entry_hash (cd_identity c); cs_receipt := cd_receipt c;
  cs_checkpoint := cc_object (cd_checkpoint c); cs_accepted := cd_accepted c; cs_new := true |}.

(** How far a transaction is, with the head row it read. *)
Inductive Progress :=
| Begun
| HeadRead (head : option HeadRow)
| IdentityFree (head : option HeadRow)
| PositionChecked (head : option HeadRow)
| Answered (r : result RepositoryError CommittedDbState).

Definition tx_step (c : CommitDbCommand) (p : Progress) (t : CommitTables) : CommitTables * Progress :=
  match p with
  | Begun => (t, HeadRead (head_row_of c t))
  | HeadRead head =>
      (t, match find_replay c t with
          | Ok None => IdentityFree head
          | Ok (Some stored) => Answered (Ok stored)
          | Err e => Answered (Err e)
          end)
  | IdentityFree head =>
      (t, match check_position c head with
          | Ok _ => match check_checkpoint c t with Ok _ => PositionChecked head | Err e => Answered (Err e) end
          | Err e => Answered (Err e)
          end)
  | PositionChecked head =>
      match write_commit c head t with
      | Ok t' => (t', Answered (Ok (new_state c)))
      | Err e => (t, Answered (Err e))
      end
  | Answered r => (t, Answered r)
  end.

(** What can go wrong besides: the database fails before the end, or the
    acknowledgement of the commit is lost. *)
Inductive DbFault := NoFault | Broken | AckLost.

(** The transaction alone, from beginning to end. *)
Definition commit_locked_head (f : DbFault) (c : CommitDbCommand) (t : CommitTables)
    : CommitTables * result RepositoryError CommittedDbState :=
  match f with
  | Broken => (t, Err Repo.Unavailable)
  | _ =>
      let '(t, p) := tx_step c Begun t in
      let '(t, p) := tx_step c p t in
      let '(t, p) := tx_step c p t in
      let '(t, p) := tx_step c p t in
      (t, match p with
          | Answered (Ok s) =>
              if cs_new s then match f with AckLost => Err Repo.Unavailable | _ => Ok s end else Ok s
          | Answered (Err e) => Err e
          | _ => Err Repo.Unavailable
          end)
  end.

(** ** Transactions side by side *)

Record System := {
  sys_tables : CommitTables;
  sys_running : gmap nat (CommitDbCommand * Progress);
  (** the commits in the order in which they became visible *)
  sys_log : list CommitDbCommand;
}.

(** A transaction that found a head row holds its lock until it answers. *)
Definition lock_of (p : Progress) : option HeadRow :=
  match p with HeadRead head | IdentityFree head | PositionChecked head => head | Begun | Answered _ => None end.

Definition holds_lock (k : OrganizationId * ChainId) (x : CommitDbCommand * Progress) : Prop :=
  chain_key x.1 = k ∧ is_Some (lock_of x.2).

Definition committed_by (c : CommitDbCommand) (p p' : Progress) : list CommitDbCommand :=
  match p, p' with PositionChecked _, Answered (Ok _) => [c] | _, _ => [] end.

Section Steps.
(** The commands clients may send. *)
Context (admissible : CommitDbCommand → Prop).

Inductive db_step (s : System) : System → Prop :=
| step_begin i c :
    sys_running s !! i = None → admissible c →
    db_step s {| sys_tables := sys_tables s; sys_running := <[i := (c, Begun)]> (sys_running s); sys_log := sys_log s |}
| step_advance i c p t' p' :
    sys_running s !! i = Some (c, p) →
    (p = Begun → ∀ j x, sys_running s !! j = Some x → ¬ holds_lock (chain_key c) x) →
    tx_step c p (sys_tables s) = (t', p') →
    db_step s {| sys_tables := t'; sys_running := <[i := (c, p')]> (sys_running s);
                 sys_log := sys_log s ++ committed_by c p p' |}
| step_broken i c p :
    sys_running s !! i = Some (c, p) → (∀ r, p ≠ Answered r) →
    db_step s {| sys_tables := sys_tables s; sys_running := <[i := (c, Answered (Err Repo.Unavailable))]> (sys_running s);
                 sys_log := sys_log s |}
| step_ack_lost i c head t' :
    sys_running s !! i = Some (c, PositionChecked head) → write_commit c head (sys_tables s) = Ok t' →
    db_step s {| sys_tables := t'; sys_running := <[i := (c, Answered (Err Repo.Unavailable))]> (sys_running s);
                 sys_log := sys_log s ++ [c] |}.

Definition empty_tables (orgs : gset OrganizationId) : CommitTables := {|
  t_organizations := orgs; t_heads := ∅; t_entries := ∅; t_objects := ∅; t_grants := ∅; t_receipts := ∅;
  t_checkpoints := ∅ |}.

Definition initial_system (orgs : gset OrganizationId) : System := {|
  sys_tables := empty_tables orgs; sys_running := ∅; sys_log := [] |}.

Inductive reachable (orgs : gset OrganizationId) : System → Prop :=
| reach_initial : reachable orgs (initial_system orgs)
| reach_step s s' : reachable orgs s → db_step s s' → reachable orgs s'.
End Steps.

(** ** What a transaction writes *)

Lemma map_err_Ok {E F A} (f : E → F) (r : result E A) a : map_err f r = Ok a ↔ r = Ok a.
Proof. destruct r; cbn; split; congruence. Qed.

Lemma insert_objects_Ok c os t t' :
  insert_objects c os t = Ok t' → ∃ m, t' = set_objects m t ∧ t_objects t ⊆ m ∧ ∀ o, o ∈ os → is_Some (m !! ob_hash o).
Proof.
  revert t. induction os as [|o os IH]; intros t; cbn [insert_objects].
  { intros [= <-]. exists (t_objects t). split; [by destruct t|]. split; [done|]. by intros o ?%elem_of_nil. }
  intros Hr. apply bind_Ok in Hr as (t1 & Ho & Hr). apply IH in Hr as (m & -> & Hs & Hm).
  unfold insert_object in Ho. destruct (_ >? _); [done|].
  destruct (t_objects t !! ob_hash o) as [r|] eqn:E.
  - injection Ho as <-. exists m. split; [done|]. split; [done|]. intros o' [->|Ho']%elem_of_cons; [|by apply Hm].
    exists r. by eapply lookup_weaken.
  - case_bool_decide; [|done]. injection Ho as <-. exists m. split; [done|].
    cbn in Hs. split; [etransitivity; [by apply insert_subseteq|exact Hs]|].
    intros o' [->|Ho']%elem_of_cons; [|by apply Hm]. eexists. eapply lookup_weaken; [apply lookup_insert_eq|exact Hs].
Qed.

Lemma insert_grants_Ok c gs t t' :
  insert_grants c gs t = Ok t' → ∃ m, t' = set_grants m t ∧ (∀ g, g ∈ gs → is_Some (recipient_of c g)) ∧ ∀ g,
    m !! g = match t_grants t !! g with
             | Some r => Some r
             | None => if decide (g ∈ gs) then (λ r, grant_row c (gr_thumbprint r)) <$> recipient_of c g else None
             end.
Proof.
  revert t. induction gs as [|g gs IH]; intros t; cbn [insert_grants].
  { intros [= <-]. exists (t_grants t). split; [by destruct t|]. split; [by intros g ?%elem_of_nil|]. intros g. destruct (t_grants t !! g); [done|].
    rewrite decide_False; [done|apply not_elem_of_nil]. }
  intros Hr. apply bind_Ok in Hr as (r & Hrec & Hr). apply ok_or_Ok in Hrec.
  apply bind_Ok in Hr as (t1 & Hg & Hr). apply map_err_Ok in Hg. apply IH in Hr as (m & -> & Hrs & Hm).
  assert (∀ h, h ∈ g :: gs → is_Some (recipient_of c h)) as Hrec'.
  { intros h [->|Hh]%elem_of_cons; [by exists r|by apply Hrs]. }
  unfold insert_grant in Hg. destruct (t_grants t !! g) as [x|] eqn:E.
  - injection Hg as <-. exists m. split; [done|]. split; [done|]. intros h. rewrite Hm. destruct (t_grants t !! h) eqn:Eh; [done|].
    assert (h ≠ g) by congruence. repeat case_decide; set_solver.
  - destruct (_ && _); [|done]. injection Hg as <-. exists m. split; [done|]. split; [done|]. intros h. rewrite Hm. cbn.
    destruct (decide (g = h)) as [<-|Hne].
    + rewrite lookup_insert_eq, E, decide_True, Hrec by set_solver. done.
    + rewrite lookup_insert_ne by done. destruct (t_grants t !! h); [done|]. repeat case_decide; set_solver.
Qed.

(** Everything a successful write tells about the tables before and after. *)
Record commit_written (c : CommitDbCommand) (head : option HeadRow) (t t' : CommitTables) : Prop := {
  w_entry_free : t_entries t !! id_entry_hash (cd_identity c) = None;
  w_object_free e r : t_entries t !! e = Some r → en_object r ≠ id_entry_object (cd_identity c);
  w_sequence_free e r : t_entries t !! e = Some r → en_chain r = cd_chain c → en_sequence r ≠ cd_sequence c;
  w_receipt_free : t_receipts t !! cd_receipt c = None;
  w_checkpoint_free : t_checkpoints t !! cc_object (cd_checkpoint c) = None;
  w_revision h : t_heads t !! chain_key c = Some h → hd_revision h = default 0 (hd_revision <$> head);
  w_bounds : cd_sequence c ≤ i64_max ∧ cd_registry_version c ≤ i64_max;
  w_organization : cd_organization c ∈ t_organizations t;
  w_organizations : t_organizations t' = t_organizations t;
  w_entries : t_entries t' = <[id_entry_hash (cd_identity c) := entry_row c]> (t_entries t);
  w_receipts : t_receipts t' = <[cd_receipt c := receipt_row c]> (t_receipts t);
  w_checkpoints : t_checkpoints t' = <[cc_object (cd_checkpoint c) := checkpoint_row c]> (t_checkpoints t);
  w_heads : t_heads t' = <[chain_key c := {|
      hd_sequence := cd_sequence c; hd_entry := id_entry_hash (cd_identity c); hd_accepted := cd_accepted c;
      hd_revision := match t_heads t !! chain_key c with Some h => hd_revision h + 1 | None => 0 end |}]> (t_heads t);
  w_grants g : t_grants t' !! g =
    match t_grants t !! g with
    | Some r => Some r
    | None => if decide (g ∈ id_grants (cd_identity c)) then (λ r, grant_row c (gr_thumbprint r)) <$> recipient_of c g else None
    end;
  w_recipients g : g ∈ id_grants (cd_identity c) → is_Some (recipient_of c g);
  w_objects : t_objects t ⊆ t_objects t' ∧ ∀ o, o ∈ cd_objects c → is_Some (t_objects t' !! ob_hash o);
}.

Lemma insert_entry_Ok e r t t' :
  insert_entry e r t = Ok t' ↔
  t_entries t !! e = None ∧ (∀ e' r', t_entries t !! e' = Some r' → en_object r' ≠ en_object r) ∧
  (∀ e' r', t_entries t !! e' = Some r' → en_chain r' = en_chain r → en_sequence r' ≠ en_sequence r) ∧
  en_organization r ∈ t_organizations t ∧ t' = set_entries (<[e := r]> (t_entries t)) t.
Proof.
  unfold insert_entry. case_bool_decide as H1.
  { split; [done|]. intros (H & _). rewrite H in H1. by destruct H1. }
  apply eq_None_not_Some in H1. case_bool_decide as H2.
  { split; [done|]. intros (_ & H & _). destruct H2 as (x & y & Hx & Hy). by apply H in Hx. }
  case_bool_decide as H3.
  { split; [done|]. intros (_ & _ & H & _). destruct H3 as (x & y & Hx & Hy & Hz). by apply H in Hx. }
  case_bool_decide as H4; split.
  - intros [= <-]. split_and!; try done.
    + intros e' r' Hr Ho. apply H2. by exists e', r'.
    + intros e' r' Hr Hc Hs. apply H3. by exists e', r'.
  - by intros (_ & _ & _ & _ & ->).
  - done.
  - by intros (_ & _ & _ & ? & _).
Qed.

Lemma write_commit_Ok c head t t' : write_commit c head t = Ok t' → commit_written c head t t'.
Proof.
  unfold write_commit. intros Hr. apply bind_Ok in Hr as (t1 & Ho & Hr).
  apply insert_objects_Ok in Ho as (mo & -> & Hsub & Hobj).
  destruct (_ || _) eqn:Eb; [done|]. apply orb_false_iff in Eb as [Eb1 Eb2].
  apply bind_Ok in Hr as (t2 & He & Hr). apply map_err_Ok, insert_entry_Ok in He as (H1 & H2 & H3 & H4 & ->).
  apply bind_Ok in Hr as (t3 & Hg & Hr). apply insert_grants_Ok in Hg as (mg & -> & Hrec & Hg).
  apply bind_Ok in Hr as (t4 & Hc & Hr). apply map_err_Ok in Hc. unfold insert_receipt in Hc.
  case_bool_decide as Hr1; [done|]. case_bool_decide as Hr2; [done|]. destruct (_ && _); [|done]. injection Hc as <-.
  destruct (cc_covered (cd_checkpoint c) >? i64_max); [done|].
  apply bind_Ok in Hr as (t5 & Hc & Hr). apply map_err_Ok in Hc. unfold insert_checkpoint in Hc.
  case_bool_decide as Hk1; [done|]. case_bool_decide as Hk2; [done|]. destruct (_ && _); [|done]. injection Hc as <-.
  apply bind_Ok in Hr as ([t6 rows] & Hh & Hr). apply map_err_Ok in Hh. destruct (negb _) eqn:Erows; [done|].
  injection Hr as <-. unfold upsert_head in Hh. cbn in *. apply eq_None_not_Some in Hr1, Hk1.
  destruct (t_heads t !! chain_key c) as [h|] eqn:Eh.
  - destruct (hd_revision h =? _) eqn:Erev; [|injection Hh as <- <-; done].
    destruct (hd_revision h + 1 >? i64_max); [done|]. injection Hh as <- <-. apply Z.eqb_eq in Erev.
    split; cbn; try done; try lia; try rewrite Eh; try done.
    intros h' [= <-]. done.
  - case_bool_decide; [|done]. injection Hh as <- <-. split; cbn; try done; try lia; rewrite Eh; try done.
Qed.

(** ** The log of commits *)

Definition entry_of (c : CommitDbCommand) : EntryHash := id_entry_hash (cd_identity c).
Definition commit_grants (c : CommitDbCommand) : list ObjectHash := id_grants (cd_identity c).
Definition checkpoint_of (c : CommitDbCommand) : ObjectHash := cc_object (cd_checkpoint c).

Definition chain_commits (k : OrganizationId * ChainId) (log : list CommitDbCommand) : list CommitDbCommand :=
  filter (λ c, chain_key c = k) log.

Definition previous {A} (l : list A) (n : nat) : option A :=
  match n with O => None | S m => l !! m end.

(** A chain without forks: the sequences count up from zero, each commit names
    the entry and the checkpoint of the one before it, and the times of
    acceptance do not go back. *)
Definition linked (l : list CommitDbCommand) : Prop :=
  ∀ n c, l !! n = Some c →
    cd_sequence c = Z.of_nat n ∧
    cd_previous c = entry_of <$> previous l n ∧
    cc_previous (cd_checkpoint c) = checkpoint_of <$> previous l n ∧
    ∀ p, previous l n = Some p → cd_accepted p ≤ cd_accepted c.

Lemma previous_snoc {A} (l : list A) x n : (n ≤ length l)%nat → previous (l ++ [x]) n = previous l n.
Proof. destruct n as [|n]; cbn; [done|]. intros Hn. by rewrite lookup_app_l by lia. Qed.

Lemma previous_length {A} (l : list A) : previous l (length l) = last l.
Proof. rewrite last_lookup. by destruct l. Qed.

Lemma linked_snoc l c :
  linked l → cd_sequence c = Z.of_nat (length l) → cd_previous c = entry_of <$> last l →
  cc_previous (cd_checkpoint c) = checkpoint_of <$> last l →
  (∀ p, last l = Some p → cd_accepted p ≤ cd_accepted c) → linked (l ++ [c]).
Proof.
  intros Hl Hs Hp Hc Ha n x Hx. apply lookup_app_Some in Hx as [Hx|[Hn Hx]].
  - pose proof (lookup_lt_Some _ _ _ Hx). rewrite previous_snoc by lia. by apply Hl.
  - apply list_lookup_singleton_Some in Hx as [Hn' <-]. assert (n = length l) as -> by lia.
    by rewrite previous_snoc, previous_length by lia.
Qed.

Lemma chain_commits_app k l l' : chain_commits k (l ++ l') = chain_commits k l ++ chain_commits k l'.
Proof. apply filter_app. Qed.

Lemma chain_commits_snoc k l c :
  chain_commits k (l ++ [c]) = if decide (chain_key c = k) then chain_commits k l ++ [c] else chain_commits k l.
Proof.
  rewrite chain_commits_app. unfold chain_commits at 2. rewrite filter_cons, filter_nil.
  case_decide; [done|]. by rewrite app_nil_r.
Qed.

Lemma elem_of_chain_commits k l c : c ∈ chain_commits k l ↔ chain_key c = k ∧ c ∈ l.
Proof. unfold chain_commits. by rewrite list_elem_of_filter. Qed.

(** The row of the head after a commit. *)
Definition head_row (c : CommitDbCommand) : HeadRow := {|
  hd_sequence := cd_sequence c; hd_entry := entry_of c; hd_accepted := cd_accepted c; hd_revision := cd_sequence c |}.

(** A table whose rows are those of a log, with one more row. *)
Lemma log_insert {V} (m : gmap Hash32 V) (key : CommitDbCommand → Hash32) (row : CommitDbCommand → V) log c :
  (∀ h r, m !! h = Some r ↔ ∃ x, x ∈ log ∧ key x = h ∧ row x = r) → m !! key c = None →
  ∀ h r, <[key c := row c]> m !! h = Some r ↔ ∃ x, x ∈ log ++ [c] ∧ key x = h ∧ row x = r.
Proof.
  intros Hm Hn h r. setoid_rewrite elem_of_app. setoid_rewrite list_elem_of_singleton.
  rewrite lookup_insert_Some, Hm. split.
  - intros [[<- <-]|[_ (x & ? & ? & ?)]]; [exists c|exists x]; auto.
  - intros (x & [Hx| ->] & <- & <-); [right|by left]. split; [|eauto]. intros He.
    rewrite He, (proj2 (Hm (key x) (row x))) in Hn by eauto. done.
Qed.

Lemma unique_snoc (R : relation CommitDbCommand) log c :
  Symmetric R → (∀ x y, x ∈ log → y ∈ log → R x y → x = y) → (∀ x, x ∈ log → ¬ R x c) →
  ∀ x y, x ∈ log ++ [c] → y ∈ log ++ [c] → R x y → x = y.
Proof.
  intros Hs Hl Hc x y. rewrite !elem_of_app, !list_elem_of_singleton. intros [Hx| ->] [Hy| ->] Hr; [by apply Hl| |  |done].
  - by apply Hc in Hr.
  - symmetry in Hr. by apply Hc in Hr.
Qed.

Section Invariant.
(** The entry that the grant object under a hash names; the service compares it
    before it sends a command. *)
Context (grant_entry : ObjectHash → EntryHash).
(** The chain that the entry under a hash belongs to. *)
Context (entry_chain : EntryHash → OrganizationId * ChainId).

(** The commands the service sends. *)
Record well_formed (c : CommitDbCommand) : Prop := {
  wf_covered : cc_covered (cd_checkpoint c) = cd_sequence c;
  wf_issued : cc_issued (cd_checkpoint c) = cd_accepted c;
  wf_chain : entry_chain (entry_of c) = chain_key c;
  wf_sorted : StronglySorted (key_lt id) (commit_grants c);
  wf_names g : g ∈ commit_grants c → grant_entry g = entry_of c;
}.

(** The tables hold exactly the commits of a log without forks. *)
Record holds (log : list CommitDbCommand) (t : CommitTables) : Prop := {
  h_heads k : t_heads t !! k = head_row <$> last (chain_commits k log);
  h_entries e r : t_entries t !! e = Some r ↔ ∃ c, c ∈ log ∧ entry_of c = e ∧ entry_row c = r;
  h_receipts h r : t_receipts t !! h = Some r ↔ ∃ c, c ∈ log ∧ cd_receipt c = h ∧ receipt_row c = r;
  h_checkpoints h r : t_checkpoints t !! h = Some r ↔ ∃ c, c ∈ log ∧ checkpoint_of c = h ∧ checkpoint_row c = r;
  h_grants g r : t_grants t !! g = Some r ↔
    ∃ c x, c ∈ log ∧ g ∈ commit_grants c ∧ recipient_of c g = Some x ∧ grant_row c (gr_thumbprint x) = r;
  h_recipients c g : c ∈ log → g ∈ commit_grants c → is_Some (recipient_of c g);
  h_entry_unique c c' : c ∈ log → c' ∈ log → entry_of c = entry_of c' → c = c';
  h_sequence_unique c c' : c ∈ log → c' ∈ log → cd_chain c = cd_chain c' → cd_sequence c = cd_sequence c' → c = c';
  h_linked k : linked (chain_commits k log);
  h_well_formed c : c ∈ log → well_formed c;
}.

Lemma holds_initial orgs : holds [] (empty_tables orgs).
Proof.
  split; cbn; intros *; rewrite ?lookup_empty; try done; try (split; [done|]); try set_solver.
Qed.

Lemma linked_last l p : linked l → last l = Some p → cd_sequence p + 1 = Z.of_nat (length l).
Proof.
  intros Hl. rewrite last_lookup. intros Hp. destruct (Hl _ _ Hp) as [-> _]. apply lookup_lt_Some in Hp. lia.
Qed.

Section Write.
Context (log : list CommitDbCommand) (c : CommitDbCommand) (head : option HeadRow) (t t' : CommitTables).
Context (H : holds log t) (Hwf : well_formed c) (W : commit_written c head t t').

Lemma write_entry_fresh x : x ∈ log → entry_of x ≠ entry_of c.
Proof.
  intros Hx He. pose proof (w_entry_free _ _ _ _ W) as Hn. fold (entry_of c) in Hn.
  rewrite (proj2 (h_entries _ _ H (entry_of c) (entry_row x))) in Hn by eauto. done.
Qed.

Lemma write_sequence_fresh x : x ∈ log → cd_chain x = cd_chain c → cd_sequence x ≠ cd_sequence c.
Proof.
  intros Hx Hch. apply (w_sequence_free _ _ _ _ W (entry_of x) (entry_row x)); [|done].
  apply (h_entries _ _ H). eauto.
Qed.

Lemma write_heads k :
  cd_sequence c = Z.of_nat (length (chain_commits (chain_key c) log)) →
  t_heads t' !! k = head_row <$> last (chain_commits k (log ++ [c])).
Proof.
  intros Hs. rewrite (w_heads _ _ _ _ W), chain_commits_snoc. destruct (decide (chain_key c = k)) as [<-|Hne].
  - rewrite lookup_insert_eq, last_snoc. cbn. unfold head_row. do 2 f_equal. rewrite (h_heads _ _ H).
    destruct (last (chain_commits (chain_key c) log)) as [p|] eqn:E; cbn.
    + rewrite Hs. by apply linked_last; [apply (h_linked _ _ H)|].
    + apply last_None in E. rewrite Hs, E. done.
  - rewrite lookup_insert_ne by done. apply (h_heads _ _ H).
Qed.

Lemma write_grants g r :
  t_grants t' !! g = Some r ↔
  ∃ x z, x ∈ log ++ [c] ∧ g ∈ commit_grants x ∧ recipient_of x g = Some z ∧ grant_row x (gr_thumbprint z) = r.
Proof.
  rewrite (w_grants _ _ _ _ W). setoid_rewrite elem_of_app. setoid_rewrite list_elem_of_singleton.
  pose proof (λ x Hx, wf_names _ (h_well_formed _ _ H x Hx) g) as Hnames.
  destruct (t_grants t !! g) as [x|] eqn:E.
  - apply (h_grants _ _ H) in E as (y & z & Hy & Hg & Hz & <-). split.
    + intros [= <-]. exists y, z. auto.
    + intros (y' & z' & [Hy'| ->] & Hg' & Hz' & <-).
      * assert (y = y') as <- by (apply (h_entry_unique _ _ H); try done; by rewrite <- !Hnames by done). congruence.
      * exfalso. apply (write_entry_fresh y Hy). rewrite <- (Hnames y Hy Hg). apply (wf_names _ Hwf g Hg').
  - fold (commit_grants c). split.
    + case_decide as Hg; [|done]. intros (z & Hz & ->)%fmap_Some. exists c, z. auto.
    + intros (y & z & [Hy| ->] & Hg & Hz & <-); [|by rewrite decide_True, Hz].
      rewrite (proj2 (h_grants _ _ H g (grant_row y (gr_thumbprint z)))) in E by eauto 10. done.
Qed.

(** A commit in the position after the last of its chain keeps the invariant. *)
Lemma holds_write :
  cd_sequence c = Z.of_nat (length (chain_commits (chain_key c) log)) →
  cd_previous c = entry_of <$> last (chain_commits (chain_key c) log) →
  cc_previous (cd_checkpoint c) = checkpoint_of <$> last (chain_commits (chain_key c) log) →
  (∀ p, last (chain_commits (chain_key c) log) = Some p → cd_accepted p ≤ cd_accepted c) →
  holds (log ++ [c]) t'.
Proof.
  intros Hs Hp Hc Ha. split.
  - intros k. by apply write_heads.
  - rewrite (w_entries _ _ _ _ W). apply (log_insert _ entry_of); [apply (h_entries _ _ H)|apply (w_entry_free _ _ _ _ W)].
  - rewrite (w_receipts _ _ _ _ W). apply (log_insert _ cd_receipt); [apply (h_receipts _ _ H)|apply (w_receipt_free _ _ _ _ W)].
  - rewrite (w_checkpoints _ _ _ _ W).
    apply (log_insert _ checkpoint_of); [apply (h_checkpoints _ _ H)|apply (w_checkpoint_free _ _ _ _ W)].
  - apply write_grants.
  - intros x g [Hx| ->%list_elem_of_singleton]%elem_of_app; [by apply (h_recipients _ _ H)|apply (w_recipients _ _ _ _ W)].
  - apply (unique_snoc (λ x y, entry_of x = entry_of y)); [by intros ???|apply (h_entry_unique _ _ H)|apply write_entry_fresh].
  - intros x y Hx Hy Hch He. apply (unique_snoc (λ x y, cd_chain x = cd_chain y ∧ cd_sequence x = cd_sequence y) log c); try done.
    + by intros ?? [-> ->].
    + intros ?? ?? []. by apply (h_sequence_unique _ _ H).
    + intros z Hz []. by apply (write_sequence_fresh z).
  - intros k. rewrite chain_commits_snoc. case_decide as Hk; [subst k|apply (h_linked _ _ H)].
    by apply linked_snoc; [apply (h_linked _ _ H)|..].
  - intros x [Hx| ->%list_elem_of_singleton]%elem_of_app; [by apply (h_well_formed _ _ H)|done].
Qed.
End Write.

(** Sorting an enumeration of the elements of a strictly sorted list gives that
    list. *)
Lemma sort_by_key_enum {A K} `{CmpLaws K} (key : A → K) l k :
  StronglySorted (key_lt key) l → NoDup k → (∀ x, x ∈ l ↔ x ∈ k) → sort_by_key key k = l.
Proof.
  intros Hl Hk Hext. assert (l ≡ₚ k) as Hp by (apply NoDup_Permutation; [by eapply key_lt_NoDup|done|done]).
  symmetry. apply sort_by_key_unique; [|done|].
  - eapply sorted_impl; [|exact Hl]. intros x y _ _. apply key_lt_le.
  - eapply key_inj_perm; [exact Hp|]. by apply key_inj_NoDup, key_lt_NoDup_keys.
Qed.

Lemma linked_prefix l c : linked (l ++ [c]) → linked l.
Proof.
  intros Hl n x Hx. pose proof (lookup_lt_Some _ _ _ Hx). destruct (Hl n x) as (H1 & H2 & H3 & H4).
  - by apply lookup_app_l_Some.
  - rewrite previous_snoc in H2, H3, H4 by lia. done.
Qed.

Lemma linked_lookup l c : linked l → c ∈ l → l !! Z.to_nat (cd_sequence c) = Some c ∧ 0 ≤ cd_sequence c < Z.of_nat (length l).
Proof.
  intros Hl [n Hn]%list_elem_of_lookup. destruct (Hl n c Hn) as [-> _]. rewrite Nat2Z.id. split; [done|].
  apply lookup_lt_Some in Hn. lia.
Qed.

Lemma linked_sorted l : linked l → StronglySorted (key_lt cd_sequence) l.
Proof.
  induction l as [|c l IH] using rev_ind; intros Hl; [constructor|].
  apply StronglySorted_app_2; [|by apply IH; eapply linked_prefix|by repeat constructor].
  intros x y Hx ->%list_elem_of_singleton. unfold key_lt. apply Z.compare_lt_iff.
  destruct (Hl (length l) c) as [-> _]; [by rewrite list_lookup_middle|].
  apply (linked_lookup l x); [by eapply linked_prefix|done].
Qed.

Lemma filter_fmap {A B} (f : A → B) (P : B → Prop) `{∀ x, Decision (P x)} (l : list A) :
  filter P (f <$> l) = f <$> filter (λ x, P (f x)) l.
Proof. induction l as [|x l IH]; [done|]. cbn [fmap list_fmap]. rewrite !filter_cons, IH. by case_decide. Qed.

Section Held.
Context (log : list CommitDbCommand) (t : CommitTables) (H : holds log t).

(** The checkpoints of a chain are those of its commits, in their order. *)
Lemma chain_checkpoints_held o ch :
  chain_checkpoints o ch t = (λ c, (checkpoint_of c, checkpoint_row c)) <$> chain_commits (o, ch) log.
Proof.
  apply sort_by_key_enum.
  - apply sorted_fmap. eapply sorted_impl; [|apply linked_sorted, (h_linked _ _ H)].
    intros x y [_ Hx]%elem_of_chain_commits [_ Hy]%elem_of_chain_commits. unfold key_lt. cbn.
    by rewrite (wf_covered _ (h_well_formed _ _ H x Hx)), (wf_covered _ (h_well_formed _ _ H y Hy)).
  - apply NoDup_filter, NoDup_map_to_list.
  - intros [h r]. rewrite list_elem_of_filter, list_elem_of_fmap, elem_of_map_to_list, (h_checkpoints _ _ H). cbn.
    setoid_rewrite elem_of_chain_commits. unfold chain_key. split.
    + intros (x & [= -> ->] & [= <- <-] & Hx). split; [done|]. by exists x.
    + intros [[<- <-] (x & Hx & <- & <-)]. by exists x.
Qed.

Lemma checkpoint_head_held o ch :
  checkpoint_head o ch t = checkpoint_of <$> last (chain_commits (o, ch) log).
Proof.
  unfold checkpoint_head. rewrite chain_checkpoints_held, fmap_last, <- option_fmap_compose. done.
Qed.

Lemma stored_grants_held c : c ∈ log → stored_grants (entry_of c) t = commit_grants c.
Proof.
  intros Hc. pose proof (h_well_formed _ _ H c Hc) as Hwf. apply sort_by_key_enum; [apply (wf_sorted _ Hwf)| |].
  - apply (NoDup_fmap_fst (filter _ _)); [|apply NoDup_filter, NoDup_map_to_list].
    intros h r r' [_ Hr]%list_elem_of_filter [_ Hr']%list_elem_of_filter.
    apply elem_of_map_to_list in Hr, Hr'. congruence.
  - intros g. rewrite list_elem_of_fmap. setoid_rewrite list_elem_of_filter. split.
    + intros Hg. destruct (h_recipients _ _ H c g Hc Hg) as [x Hx]. exists (g, grant_row c (gr_thumbprint x)).
      split_and!; [done|done|done|]. apply elem_of_map_to_list, (h_grants _ _ H). eauto 10.
    + intros ([g' r] & -> & [He _] & Hr). apply elem_of_map_to_list, (h_grants _ _ H) in Hr as (y & z & Hy & Hg & _ & <-).
      cbn in *. by rewrite <- (h_entry_unique _ _ H y c Hy Hc He).
Qed.

(** A repeated commit is answered with what is stored. *)
Lemma find_replay_held c c' :
  c ∈ log → cd_identity c' = cd_identity c → chain_key c' = chain_key c → cd_sequence c' = cd_sequence c →
  cd_sequence c ≤ i64_max →
  find_replay c' t = Ok (Some {| cs_sequence := cd_sequence c; cs_entry := entry_of c; cs_receipt := cd_receipt c;
                                 cs_checkpoint := checkpoint_of c; cs_accepted := cd_accepted c; cs_new := false |}).
Proof.
  intros Hc Hi [= Ho Hch] Hs Hb. unfold find_replay. rewrite Hi, Hs. fold (entry_of c).
  rewrite (proj2 (h_entries _ _ H (entry_of c) (entry_row c))) by eauto. cbn [entry_row en_object en_plan en_sequence].
  unfold stored_grants_match. rewrite Hi. fold (entry_of c) (commit_grants c). rewrite stored_grants_held by done.
  rewrite !bool_decide_eq_false_2 by (by intros []). rewrite bool_decide_eq_true_2 by done. cbn [orb negb].
  assert (stored_checkpoint c' t = Ok (checkpoint_of c)) as ->; [|done].
  unfold stored_checkpoint. rewrite Hs, Ho, Hch, chain_checkpoints_held, filter_fmap.
  destruct (cd_sequence c >? i64_max) eqn:E; [lia|].
  match goal with |- context [filter ?P ?l] => assert (filter P l = [c]) as ->; [|done] end.
  apply (strictly_sorted_ext cd_sequence); [|by repeat constructor|].
  - eapply sorted_sublist; [apply sublist_filter|]. apply linked_sorted, (h_linked _ _ H).
  - intros x. rewrite list_elem_of_filter, elem_of_chain_commits, list_elem_of_singleton. cbn. split.
    + intros (Hx & [= Hxo Hxc] & Hin). rewrite (wf_covered _ (h_well_formed _ _ H x Hin)) in Hx.
      by apply (h_sequence_unique _ _ H).
    + intros ->. split; [|done]. apply (wf_covered _ (h_well_formed _ _ H c Hc)).
Qed.
End Held.

(** ** Interleavings *)

(** A commit of the chain after the one whose head row was read. *)
Definition moved (log : list CommitDbCommand) (c : CommitDbCommand) (x : option CommitDbCommand) : Prop :=
  ∃ y, y ∈ chain_commits (chain_key c) log ∧ from_option (λ x, cd_sequence x < cd_sequence y) True x.

(** [head] is the row of a commit [x] of the chain. *)
Definition head_seen (log : list CommitDbCommand) (c : CommitDbCommand) (head : option HeadRow)
    (x : option CommitDbCommand) : Prop :=
  head = head_row <$> x ∧ from_option (λ x, x ∈ chain_commits (chain_key c) log) True x.

(** The answer [st] to [c] is that of a commit [x] with its identity. *)
Definition answers (log : list CommitDbCommand) (c : CommitDbCommand) (st : CommittedDbState) : Prop :=
  ∃ x, x ∈ log ∧ cd_identity x = cd_identity c ∧ chain_key x = chain_key c ∧ cd_sequence x = cd_sequence c ∧
    st = {| cs_sequence := cd_sequence x; cs_entry := entry_of x; cs_receipt := cd_receipt x;
            cs_checkpoint := checkpoint_of x; cs_accepted := cd_accepted x; cs_new := cs_new st |} ∧
    (cs_new st = true → x = c).

Definition coherent (log : list CommitDbCommand) (c : CommitDbCommand) (p : Progress) : Prop :=
  match p with
  | Begun | Answered (Err _) => True
  | Answered (Ok st) => answers log c st
  | HeadRead head | IdentityFree head => ∃ x, head_seen log c head x
  | PositionChecked head => ∃ x, head_seen log c head x ∧ check_position c head = Ok tt ∧
      (cc_previous (cd_checkpoint c) = checkpoint_of <$> x ∨ moved log c x)
  end.

Lemma elem_of_chain_commits_snoc k log c x : x ∈ chain_commits k log → x ∈ chain_commits k (log ++ [c]).
Proof. rewrite !elem_of_chain_commits, elem_of_app. tauto. Qed.

Lemma moved_snoc log c y x : moved log c x → moved (log ++ [y]) c x.
Proof. intros (z & Hz & Hx). exists z. split; [by apply elem_of_chain_commits_snoc|done]. Qed.

Lemma head_seen_snoc log c y head x : head_seen log c head x → head_seen (log ++ [y]) c head x.
Proof. intros [-> Hx]. split; [done|]. destruct x; [by apply elem_of_chain_commits_snoc|done]. Qed.

Lemma coherent_snoc log c y p : coherent log c p → coherent (log ++ [y]) c p.
Proof.
  destruct p as [|head|head|head|[st|e]]; cbn; try done.
  - intros [x Hx]. exists x. by apply head_seen_snoc.
  - intros [x Hx]. exists x. by apply head_seen_snoc.
  - intros (x & Hx & Hp & Hm). exists x. split; [by apply head_seen_snoc|]. split; [done|].
    destruct Hm; [by left|right; by apply moved_snoc].
  - intros (x & Hx & Ha). exists x. split; [set_solver|done].
Qed.

Lemma check_position_Ok c head :
  check_position c head = Ok tt →
  cd_sequence c = match head with Some h => hd_sequence h + 1 | None => 0 end ∧
  cd_previous c = hd_entry <$> head ∧ ∀ h, head = Some h → hd_accepted h ≤ cd_accepted c.
Proof.
  unfold check_position. intros Hr. apply bind_Ok in Hr as (n & Hn & Hr).
  case_bool_decide as Hs; [done|]. case_bool_decide as Hp; [done|]. destruct (is_some_and _ _) eqn:Ea; [done|].
  split_and!; [|done|].
  - destruct head as [h|]; cbn in Hn; [|by injection Hn as <-]. apply ok_or_Ok, checked_add_Some in Hn as [-> _]. done.
  - intros h ->. rewrite is_some_and_false in Ea. specialize (Ea h eq_refl). lia.
Qed.

Section Position.
Context (log : list CommitDbCommand) (t : CommitTables) (H : holds log t) (c : CommitDbCommand).

Abbreviation commits := (chain_commits (chain_key c) log).

(** The position after [x] is free only if [x] is the last of its chain. *)
Lemma free_position_last x :
  from_option (λ x, x ∈ commits) True x → cd_sequence c = from_option (λ x, cd_sequence x + 1) 0 x →
  (∀ y, y ∈ commits → cd_sequence y ≠ cd_sequence c) → last commits = x ∧ ¬ moved log c x.
Proof.
  intros Hx Hs Hfree. pose proof (h_linked _ _ H (chain_key c)) as Hl.
  assert (∀ n y, commits !! n = Some y → n ≠ Z.to_nat (cd_sequence c)) as Hn.
  { intros n y Hy ->. apply (Hfree y); [by eapply list_elem_of_lookup_2|]. destruct (Hl _ _ Hy) as [-> _].
    destruct x as [x|]; cbn in Hs; [|lia]. destruct (linked_lookup _ x Hl Hx). lia. }
  assert (length commits ≤ Z.to_nat (cd_sequence c))%nat as Hlen.
  { destruct (decide (length commits ≤ Z.to_nat (cd_sequence c))%nat); [done|exfalso].
    destruct (lookup_lt_is_Some_2 commits (Z.to_nat (cd_sequence c))) as [y Hy]; [lia|]. by apply Hn in Hy. }
  split.
  - destruct x as [x|]; cbn in Hs.
    + destruct (linked_lookup _ x Hl Hx) as [Hi Hb]. rewrite last_lookup, <- Hi. f_equal. lia.
    + rewrite Hs in Hlen. destruct commits; [done|cbn in Hlen; lia].
  - intros (y & Hy & Hlt). destruct (linked_lookup _ y Hl Hy). destruct x as [x|]; cbn in *; lia.
Qed.

Lemma last_position x : last commits = x → Z.of_nat (length commits) = from_option (λ x, cd_sequence x + 1) 0 x.
Proof.
  intros <-. destruct (last commits) as [p|] eqn:E; cbn; [symmetry; by apply linked_last; [apply (h_linked _ _ H)|]|].
  apply last_None in E. by rewrite E.
Qed.

(** Whatever happened since a transaction checked its position, a write that
    succeeds comes after the last commit of its chain. *)
Lemma coherent_write head t' :
  well_formed c → coherent log c (PositionChecked head) → commit_written c head t t' → holds (log ++ [c]) t'.
Proof.
  intros Hwf (x & [-> Hx] & Hpos & Hm) W. apply check_position_Ok in Hpos as (Hs & Hp & Ha).
  assert (cd_sequence c = from_option (λ x, cd_sequence x + 1) 0 x) as Hs' by (rewrite Hs; by destruct x).
  destruct (free_position_last x Hx Hs') as [Hlast Hnm].
  { intros y [[= Ho Hch] Hy]%elem_of_chain_commits. by apply (write_sequence_fresh log c _ t t' H W). }
  apply (holds_write log c (head_row <$> x) t t' H Hwf W).
  - rewrite (last_position x Hlast). exact Hs'.
  - rewrite Hlast, Hp. by destruct x.
  - rewrite Hlast. by destruct Hm.
  - rewrite Hlast. intros p ->. by apply (Ha (head_row p)).
Qed.

Lemma check_checkpoint_coherent head x :
  head_seen log c head x → check_position c head = Ok tt → check_checkpoint c t = Ok tt →
  coherent log c (PositionChecked head).
Proof.
  intros Hx Hp Hc. exists x. split; [done|]. split; [done|]. unfold check_checkpoint in Hc.
  case_bool_decide as E; [done|]. rewrite (checkpoint_head_held log t H) in E. fold (chain_key c) in E.
  destruct (last commits) as [y|] eqn:El.
  - destruct Hx as [_ Hx]. pose proof (h_linked _ _ H (chain_key c)) as Hl.
    assert (y ∈ commits) as Hy by (apply last_Some in El as [l ->]; apply elem_of_app; right; by left).
    destruct x as [x|]; [|right; by exists y]. cbn in Hx. pose proof (linked_last _ _ Hl El).
    destruct (linked_lookup _ x Hl Hx) as [Hix Hbx], (linked_lookup _ y Hl Hy) as [Hiy _].
    destruct (decide (cd_sequence x = cd_sequence y)) as [Eq|].
    + left. rewrite Eq in Hix. by simplify_eq.
    + right. exists y. split; [done|]. cbn. lia.
  - apply last_None in El. destruct Hx as [_ Hx]. destruct x as [x|]; [|by left]. cbn in Hx. rewrite El in Hx. by apply elem_of_nil in Hx.
Qed.
End Position.

(** The stored answer to a repeated commit is that of the commit. *)
Lemma find_replay_answers log t c st :
  holds log t → well_formed c → find_replay c t = Ok (Some st) → answers log c st.
Proof.
  intros H Hwf. unfold find_replay. fold (entry_of c). destruct (t_entries t !! entry_of c) as [r|] eqn:E; [|done].
  pose proof E as (x & Hx & He & <-)%(h_entries _ _ H). cbn [entry_row en_object en_plan en_sequence en_receipt en_accepted].
  destruct (_ || _) eqn:Eb; [done|]. intros Hr. apply bind_Ok in Hr as (k & Hk & [= <-]).
  rewrite !orb_false_iff, !bool_decide_eq_false, negb_false_iff in Eb. destruct Eb as [[[Eo Ep] Es] Eg].
  apply dec_stable in Eo, Ep, Es. unfold stored_grants_match in Eg. apply bool_decide_eq_true in Eg.
  fold (entry_of c) in Eg. rewrite <- He, (stored_grants_held log t H x Hx) in Eg.
  assert (cd_identity x = cd_identity c) as Hid.
  { destruct (cd_identity x) eqn:Ex, (cd_identity c) eqn:Ec. unfold entry_of, commit_grants in *.
    rewrite ?Ex, ?Ec in *. cbn in *. by subst. }
  assert (chain_key x = chain_key c) as Hkey.
  { rewrite <- (wf_chain _ Hwf), <- (wf_chain _ (h_well_formed _ _ H x Hx)). by rewrite He. }
  assert (cd_sequence c ≤ i64_max) as Hb.
  { unfold stored_checkpoint in Hk. destruct (cd_sequence c >? i64_max) eqn:E'; [done|lia]. }
  assert (k = checkpoint_of x) as ->.
  { pose proof (find_replay_held log t H x c Hx ltac:(done) ltac:(done) ltac:(done) ltac:(lia)) as Hf.
    unfold find_replay in Hf. fold (entry_of c) in Hf. rewrite E in Hf. cbn [entry_row en_object en_plan en_sequence en_receipt en_accepted] in Hf.
    destruct (_ || _); [done|]. rewrite Hk in Hf. cbn in Hf. by injection Hf. }
  exists x. cbn. rewrite Es. fold (entry_of c). by rewrite He.
Qed.

Definition system_ok (s : System) : Prop :=
  holds (sys_log s) (sys_tables s) ∧
  ∀ i c p, sys_running s !! i = Some (c, p) → well_formed c ∧ coherent (sys_log s) c p.

(** One step of one transaction. *)
Lemma tx_step_ok log t c p t' p' :
  holds log t → well_formed c → coherent log c p → tx_step c p t = (t', p') →
  holds (log ++ committed_by c p p') t' ∧ coherent (log ++ committed_by c p p') c p'.
Proof.
  intros H Hwf Hco. destruct p as [|head|head|head|r]; cbn [tx_step].
  - intros [= <- <-]. cbn. rewrite app_nil_r. split; [done|]. exists (last (chain_commits (chain_key c) log)).
    split; [apply (h_heads _ _ H)|]. destruct (last _) as [x|] eqn:E; [|done].
    apply last_Some in E as [l E]. cbn. rewrite E. apply elem_of_app. right. by left.
  - intros [= <- <-]. destruct (find_replay c t) as [[st|]|e] eqn:Ef; cbn; rewrite app_nil_r; [|done|done].
    split; [done|]. by eapply find_replay_answers.
  - intros [= <- <-]. destruct (check_position c head) as [[]|e] eqn:Ep; [|cbn; by rewrite app_nil_r].
    destruct (check_checkpoint c t) as [[]|e] eqn:Ec; [|cbn; by rewrite app_nil_r].
    rewrite app_nil_r. split; [done|]. destruct Hco as [x Hx]. by eapply check_checkpoint_coherent.
  - destruct (write_commit c head t) as [t1|e] eqn:Ew; intros [= <- <-]; [|cbn; by rewrite app_nil_r].
    cbn. split; [by eapply coherent_write; [exact H|exact Hwf|exact Hco|apply write_commit_Ok]|].
    exists c. split; [set_solver|]. done.
  - intros [= <- <-]. cbn [committed_by]. by rewrite app_nil_r.
Qed.

Lemma system_ok_running s i c p log' :
  system_ok s → well_formed c → (log' = sys_log s ∨ ∃ y, log' = sys_log s ++ [y]) → coherent log' c p →
  ∀ j c' p', <[i := (c, p)]> (sys_running s) !! j = Some (c', p') → well_formed c' ∧ coherent log' c' p'.
Proof.
  intros [_ Hr] Hwf Hlog Hco j c' p' [[<- [= <- <-]]|[Hne Hj]]%lookup_insert_Some; [done|].
  apply Hr in Hj as [Hw Hc]. split; [done|]. destruct Hlog as [->|[y ->]]; [done|by apply coherent_snoc].
Qed.

Lemma db_step_ok s s' : system_ok s → db_step well_formed s s' → system_ok s'.
Proof.
  intros Hs Hstep. pose proof Hs as [H Hr].
  destruct Hstep as [i c Hi Hwf|i c p t' p' Hi Hlock Hx|i c p Hi Hp|i c head t' Hi Hw]; split; cbn.
  - done.
  - apply system_ok_running; [done|done|by left|done].
  - apply Hr in Hi as [Hwf Hco]. by eapply tx_step_ok.
  - apply Hr in Hi as [Hwf Hco]. destruct (tx_step_ok _ _ _ _ _ _ H Hwf Hco Hx) as [_ Hco'].
    apply system_ok_running; [done|done| |done]. unfold committed_by.
    destruct p, p' as [| | | |[]]; try (left; by rewrite app_nil_r). right. eauto.
  - done.
  - apply Hr in Hi as [Hwf _]. apply system_ok_running; [done|done|by left|done].
  - apply Hr in Hi as [Hwf Hco]. by eapply coherent_write; [exact H|exact Hwf|exact Hco|apply write_commit_Ok].
  - apply Hr in Hi as [Hwf _]. apply system_ok_running; [done|done|right; eauto|done].
Qed.

Lemma reachable_ok orgs s : reachable well_formed orgs s → system_ok s.
Proof.
  induction 1 as [|s s' _ IH Hstep].
  - split; [apply holds_initial|]. intros i c p Hi. cbn in Hi. by rewrite lookup_empty in Hi.
  - by eapply db_step_ok.
Qed.

(** *** The lock of the head row *)

Definition locked_ok (s : System) : Prop :=
  ∀ i c p h, sys_running s !! i = Some (c, p) → lock_of p = Some h →
    t_heads (sys_tables s) !! chain_key c = Some h ∧
    ∀ j x, sys_running s !! j = Some x → holds_lock (chain_key c) x → j = i.

(** A transaction that holds no lock afterwards and moved no locked head. *)
Lemma locked_release s i c p t' log' :
  locked_ok s → lock_of p = None →
  (∀ j c' p' h, j ≠ i → sys_running s !! j = Some (c', p') → lock_of p' = Some h →
     t_heads t' !! chain_key c' = t_heads (sys_tables s) !! chain_key c') →
  locked_ok {| sys_tables := t'; sys_running := <[i := (c, p)]> (sys_running s); sys_log := log' |}.
Proof.
  intros Hs Hp Ht j c' p' h Hj Hl. cbn in *.
  apply lookup_insert_Some in Hj as [[<- [= <- <-]]|[Hne Hj]]; [congruence|].
  destruct (Hs _ _ _ _ Hj Hl) as [Hh Hx]. split; [rewrite (Ht j c' p' h); auto|].
  intros k x [[<- <-]|[_ Hk]]%lookup_insert_Some Hlk; [|by apply (Hx k x)].
  destruct Hlk as [_ [? E]]. cbn in E. congruence.
Qed.

(** A transaction that keeps its lock. *)
Lemma locked_keep s i c p p' log' :
  locked_ok s → sys_running s !! i = Some (c, p) → lock_of p' = lock_of p →
  locked_ok {| sys_tables := sys_tables s; sys_running := <[i := (c, p')]> (sys_running s); sys_log := log' |}.
Proof.
  intros Hs Hi Hl j c' q h Hj Hq. cbn in *.
  assert (∃ q', sys_running s !! j = Some (c', q') ∧ lock_of q' = Some h) as (q' & Hj' & Hq').
  { apply lookup_insert_Some in Hj as [[<- [= <- <-]]|[_ Hj]]; [exists p; by rewrite <- Hl|by exists q]. }
  destruct (Hs _ _ _ _ Hj' Hq') as [Hh Hx]. split; [done|].
  intros k x [[<- <-]|[_ Hk]]%lookup_insert_Some Hlk; [|by apply (Hx k x)].
  apply (Hx i (c, p)); [done|]. destruct Hlk as [? [y Hy]]. split; [done|]. cbn in *. rewrite <- Hl. by exists y.
Qed.

(** A transaction that takes the lock of a head nobody holds. *)
Lemma locked_take s i c log' :
  locked_ok s → (∀ j x, sys_running s !! j = Some x → ¬ holds_lock (chain_key c) x) →
  locked_ok {| sys_tables := sys_tables s; sys_running := <[i := (c, HeadRead (head_row_of c (sys_tables s)))]> (sys_running s);
               sys_log := log' |}.
Proof.
  intros Hs Hfree j c' q h Hj Hq. cbn in *. apply lookup_insert_Some in Hj as [[<- [= <- <-]]|[Hne Hj]]; cbn in Hq.
  - split; [done|]. intros k x [[<- <-]|[_ Hk]]%lookup_insert_Some Hlk; [done|]. by apply Hfree in Hk.
  - destruct (Hs _ _ _ _ Hj Hq) as [Hh Hx]. split; [done|].
    intros k x [[<- <-]|[_ Hk]]%lookup_insert_Some Hlk; [|by apply (Hx k x)].
    destruct Hlk as [Hc _]. destruct (Hfree j (c', q)); [done|]. split; [done|by exists h].
Qed.

(** A write moves no head that another transaction has locked. *)
Lemma write_spares_locked s i c head t' :
  system_ok s → locked_ok s → sys_running s !! i = Some (c, PositionChecked head) →
  commit_written c head (sys_tables s) t' →
  ∀ j c' p' h, j ≠ i → sys_running s !! j = Some (c', p') → lock_of p' = Some h →
    t_heads t' !! chain_key c' = t_heads (sys_tables s) !! chain_key c'.
Proof.
  intros [H Hr] Hl Hi W j c' p' h Hne Hj Hp'. rewrite (w_heads _ _ _ _ W), lookup_insert_ne; [done|]. intros Hk.
  destruct (Hl _ _ _ _ Hj Hp') as [Hh Hx]. destruct head as [h'|].
  { apply Hne. symmetry. apply (Hx i (c, PositionChecked (Some h'))); [done|]. split; [done|by exists h']. }
  destruct (Hr _ _ _ Hi) as [_ ([x|] & [Ex _] & Hpos & _)]; [done|]. apply check_position_Ok in Hpos as (Hs & _).
  destruct (free_position_last _ _ H c None I Hs) as [Hlast _].
  { intros y [[= Ho Hch] Hy]%elem_of_chain_commits. by apply (write_sequence_fresh _ c None _ t' H W). }
  rewrite <- Hk, (h_heads _ _ H), Hlast in Hh. done.
Qed.

Lemma locked_step s s' : system_ok s → locked_ok s → db_step well_formed s s' → locked_ok s'.
Proof.
  intros Hs Hl Hstep. destruct Hstep as [i c Hi Hwf|i c p t' p' Hi Hlock Hx|i c p Hi Hp|i c head t' Hi Hw].
  - by apply locked_release.
  - destruct p as [|head|head|head|r]; cbn [tx_step] in Hx.
    + injection Hx as <- <-. apply locked_take; [done|by apply Hlock].
    + injection Hx as <- <-. destruct (find_replay c (sys_tables s)) as [[st|]|e];
        [by apply locked_release|by eapply locked_keep|by apply locked_release].
    + injection Hx as <- <-. destruct (check_position c head); [|by apply locked_release].
      destruct (check_checkpoint c (sys_tables s)); [by eapply locked_keep|by apply locked_release].
    + destruct (write_commit c head (sys_tables s)) as [t1|e] eqn:Ew; injection Hx as <- <-;
        [|by apply locked_release]. apply locked_release; [done|done|]. by eapply write_spares_locked, write_commit_Ok.
    + injection Hx as <- <-. by apply locked_release.
  - by apply locked_release.
  - apply locked_release; [done|done|]. by eapply write_spares_locked, write_commit_Ok.
Qed.

Lemma reachable_locked orgs s : reachable well_formed orgs s → locked_ok s.
Proof.
  induction 1 as [|s s' Hr IH Hstep].
  - intros i c p h Hi. cbn in Hi. by rewrite lookup_empty in Hi.
  - by eapply locked_step; [eapply reachable_ok| |].
Qed.

(** *** What a failing write says *)

Lemma insert_objects_Err c os t e : insert_objects c os t = Err e → e = Repo.Unavailable.
Proof.
  revert t. induction os as [|o os IH]; intros t; cbn [insert_objects]; [done|].
  destruct (insert_object c o t) as [t1|e1] eqn:E; cbn; [apply IH|]. intros [= <-]. unfold insert_object in E.
  destruct (ob_size o >? i64_max); [congruence|]. destruct (t_objects t !! ob_hash o); [done|]. case_bool_decide; congruence.
Qed.

Lemma insert_grants_Err c gs t e : insert_grants c gs t = Err e → e = Repo.Unavailable.
Proof.
  revert t. induction gs as [|g gs IH]; intros t; cbn [insert_grants]; [done|].
  destruct (recipient_of c g) as [r|]; cbn; [|congruence].
  destruct (insert_grant g _ t) as [t1|e1] eqn:E; cbn; [apply IH|]. intros [= <-]. unfold insert_grant in E.
  destruct (t_grants t !! g); [done|]. destruct (_ && _); [done|]. by injection E as <-.
Qed.

Lemma insert_entry_conflict e r t x :
  map_err map_commit_error (insert_entry e r t) = Err x → x ≠ Repo.Unavailable → x ≠ Repo.CommitIdentityConflict →
  ∃ e' r', t_entries t !! e' = Some r' ∧ en_chain r' = en_chain r ∧ en_sequence r' = en_sequence r.
Proof.
  unfold insert_entry. case_bool_decide; [by intros [= <-]|]. case_bool_decide; [by intros [= <-]|].
  case_bool_decide as Hrow; [by intros; exact Hrow|]. case_bool_decide; [done|]. by intros [= <-].
Qed.

Lemma insert_receipt_Err h r t x :
  map_err map_commit_error (insert_receipt h r t) = Err x → x = Repo.Unavailable ∨ x = Repo.CommitIdentityConflict.
Proof.
  unfold insert_receipt. case_bool_decide; [intros [= <-]; by right|]. case_bool_decide; [intros [= <-]; by right|].
  destruct (_ && _); [done|]. intros [= <-]. by left.
Qed.

Lemma insert_checkpoint_conflict h r t x :
  map_err map_commit_error (insert_checkpoint h r t) = Err x → x ≠ Repo.Unavailable → x ≠ Repo.CommitIdentityConflict →
  ∃ h' r', t_checkpoints t !! h' = Some r' ∧ ck_organization r' = ck_organization r ∧ ck_chain r' = ck_chain r ∧
    ck_covered r' = ck_covered r.
Proof.
  unfold insert_checkpoint. case_bool_decide; [by intros [= <-]|]. case_bool_decide as Hrow; [by intros; exact Hrow|].
  destruct (_ && _); [done|]. by intros [= <-].
Qed.

(** A write is answered with a lost race or a fork only if another row is in
    the place of its own. *)
Lemma write_conflict c head t e :
  write_commit c head t = Err e → e ≠ Repo.Unavailable → e ≠ Repo.CommitIdentityConflict →
  (∃ x r, t_entries t !! x = Some r ∧ en_chain r = cd_chain c ∧ en_sequence r = cd_sequence c) ∨
  (∃ x r, t_checkpoints t !! x = Some r ∧ ck_organization r = cd_organization c ∧ ck_chain r = cd_chain c
          ∧ ck_covered r = cc_covered (cd_checkpoint c)) ∨
  (∃ h, t_heads t !! chain_key c = Some h ∧ hd_revision h ≠ default 0 (hd_revision <$> head)).
Proof.
  unfold write_commit. intros Hr H1 H2.
  destruct (insert_objects c _ t) as [t1|e1] eqn:E1; [|cbn in Hr; injection Hr as ->; by apply insert_objects_Err in E1].
  apply insert_objects_Ok in E1 as (mo & -> & _). cbn [mbind result_bind] in Hr. destruct (_ || _); [congruence|].
  destruct (map_err _ (insert_entry _ _ _)) as [t2|e2] eqn:E2; cbn [mbind result_bind] in Hr.
  2: { injection Hr as ->. left. by apply insert_entry_conflict in E2. }
  apply map_err_Ok, insert_entry_Ok in E2 as (_ & _ & _ & _ & ->).
  destruct (insert_grants c _ _) as [t3|e3] eqn:E3; cbn [mbind result_bind] in Hr; [|injection Hr as ->; by apply insert_grants_Err in E3].
  apply insert_grants_Ok in E3 as (mg & -> & _ & _).
  destruct (map_err _ (insert_receipt _ _ _)) as [t4|e4] eqn:E4; cbn [mbind result_bind] in Hr.
  2: { injection Hr as ->. apply insert_receipt_Err in E4. tauto. }
  apply map_err_Ok in E4. unfold insert_receipt in E4. do 2 (case_bool_decide; [done|]). destruct (_ && _); [|done].
  injection E4 as <-. destruct (cc_covered (cd_checkpoint c) >? i64_max); [congruence|].
  destruct (map_err _ (insert_checkpoint _ _ _)) as [t5|e5] eqn:E5; cbn [mbind result_bind] in Hr.
  2: { injection Hr as ->. right. left. by apply insert_checkpoint_conflict in E5. }
  apply map_err_Ok in E5. unfold insert_checkpoint in E5. do 2 (case_bool_decide; [done|]). destruct (_ && _); [|done].
  injection E5 as <-. right. right. unfold upsert_head in Hr. cbn in Hr.
  destruct (t_heads t !! chain_key c) as [h|]; [|case_bool_decide; cbn in Hr; congruence].
  exists h. split; [done|]. destruct (Z.eqb_spec (hd_revision h) (default 0 (hd_revision <$> head))); [|done].
  destruct (hd_revision h + 1 >? i64_max); cbn in Hr; congruence.
Qed.

(** The chain of a commit has a first commit. *)
Lemma first_commit log t z :
  holds log t → z ∈ log → ∃ w, w ∈ log ∧ chain_key w = chain_key z ∧ cd_sequence w = 0.
Proof.
  intros H Hz. pose proof (h_linked _ _ H (chain_key z)) as Hl.
  destruct (linked_lookup _ z Hl) as [_ Hb]; [by apply elem_of_chain_commits|].
  destruct (lookup_lt_is_Some_2 (chain_commits (chain_key z) log) 0) as [w Hw]; [lia|].
  exists w. destruct (Hl 0%nat w Hw) as [Hs _]. by apply list_elem_of_lookup_2, elem_of_chain_commits in Hw as [? ?].
Qed.

(** A chain belongs to one organization. *)
Lemma chain_one_organization log t x y :
  holds log t → x ∈ log → y ∈ log → cd_chain x = cd_chain y → chain_key x = chain_key y.
Proof.
  intros H Hx Hy Hch. destruct (first_commit log t x H Hx) as (v & Hv & Ev & Hv0).
  destruct (first_commit log t y H Hy) as (w & Hw & Ew & Hw0). rewrite <- Ev, <- Ew.
  assert (v = w) as ->; [|done]. apply (h_sequence_unique _ _ H); [done|done| |lia].
  injection Ev as _ ->. by injection Ew as _ ->.
Qed.

(** The place after the last commit of a chain is free. *)
Lemma next_place_free log t c y :
  holds log t → (∀ x, x ∈ log → cd_chain x = cd_chain c → chain_key x = chain_key c) →
  cd_sequence c = Z.of_nat (length (chain_commits (chain_key c) log)) →
  y ∈ log → cd_chain y = cd_chain c → cd_sequence y ≠ cd_sequence c.
Proof.
  intros H Hone Hs Hy Hch. pose proof (h_linked _ _ H (chain_key c)) as Hl.
  destruct (linked_lookup _ y Hl) as [_ Hb]; [apply elem_of_chain_commits; auto|]. lia.
Qed.

(** A transaction that holds the lock of its head row meets no rival: its write
    is not answered with a lost race or a fork. *)
Lemma locked_write s i c h e :
  system_ok s → locked_ok s → sys_running s !! i = Some (c, PositionChecked (Some h)) →
  write_commit c (Some h) (sys_tables s) = Err e → e = Repo.Unavailable ∨ e = Repo.CommitIdentityConflict.
Proof.
  intros [H Hr] Hl Hi Hw. destruct (Hl _ _ _ _ Hi eq_refl) as [Hh _].
  destruct (Hr _ _ _ Hi) as [Hwf (x & [Ex Hx] & Hpos & _)]. destruct x as [x|]; [|done]. injection Ex as Ex. cbn in Hx.
  apply check_position_Ok in Hpos as (Hs & _). rewrite (h_heads _ _ H) in Hh. apply fmap_Some in Hh as (p & Hp & Ep).
  assert (cd_sequence c = Z.of_nat (length (chain_commits (chain_key c) (sys_log s)))) as Hs'.
  { rewrite <- (linked_last _ _ (h_linked _ _ H _) Hp), Hs, Ep. done. }
  assert (∀ y, y ∈ sys_log s → cd_chain y = cd_chain c → chain_key y = chain_key c) as Hone.
  { apply elem_of_chain_commits in Hx as [Hk Hx]. intros y Hy Hch. rewrite <- Hk.
    apply (chain_one_organization _ _ y x H Hy Hx). rewrite Hch. by injection Hk. }
  pose proof (λ y, next_place_free _ _ c y H Hone Hs') as Hfree.
  destruct e; try (by left); try (by right); exfalso;
    (apply write_conflict in Hw as [(k & r & Hk & Hc1 & Hc2)|[(k & r & Hk & Ho & Hc1 & Hc2)|(h' & Hh' & Hne)]]; [| | |done|done]).
  all: try (apply (h_entries _ _ H) in Hk as (y & Hy & _ & <-); by apply (Hfree y)).
  all: try (apply (h_checkpoints _ _ H) in Hk as (y & Hy & _ & <-); apply (Hfree y); [done|done|];
            by rewrite <- (wf_covered _ Hwf), <- (wf_covered _ (h_well_formed _ _ H y Hy))).
  all: apply Hne; rewrite (h_heads _ _ H), Hp in Hh'; injection Hh' as <-; cbn; by rewrite Ep.
Qed.

(** ** Accepting a commit *)

(** A command that fits: it is in the next place of its chain and names no
    object that another commit has used. *)
Record fits (log : list CommitDbCommand) (t : CommitTables) (c : CommitDbCommand) : Prop := {
  f_organization : cd_organization c ∈ t_organizations t;
  f_one x : x ∈ log → cd_chain x = cd_chain c → chain_key x = chain_key c;
  f_sequence : cd_sequence c = Z.of_nat (length (chain_commits (chain_key c) log));
  f_previous : cd_previous c = entry_of <$> last (chain_commits (chain_key c) log);
  f_checkpoint : cc_previous (cd_checkpoint c) = checkpoint_of <$> last (chain_commits (chain_key c) log);
  f_accepted p : last (chain_commits (chain_key c) log) = Some p → cd_accepted p ≤ cd_accepted c;
  f_bounds : cd_sequence c ≤ i64_max ∧ cd_registry_version c ≤ i64_max;
  f_sizes o : o ∈ cd_objects c → ob_size o ≤ i64_max;
  f_indexed h : h ∈ cd_receipt c :: checkpoint_of c :: commit_grants c → ∃ o, o ∈ cd_objects c ∧ ob_hash o = h;
  f_recipients g : g ∈ commit_grants c → is_Some (recipient_of c g);
  f_fresh x : x ∈ log → entry_of x ≠ entry_of c ∧ id_entry_object (cd_identity x) ≠ id_entry_object (cd_identity c) ∧
    cd_receipt x ≠ cd_receipt c ∧ checkpoint_of x ≠ checkpoint_of c;
}.

Lemma insert_objects_total c os t :
  cd_organization c ∈ t_organizations t → (∀ o, o ∈ os → ob_size o ≤ i64_max) → ∃ t', insert_objects c os t = Ok t'.
Proof.
  revert t. induction os as [|o os IH]; intros t Ho Hsz; cbn [insert_objects]; [by eexists|].
  assert (∃ t1, insert_object c o t = Ok t1 ∧ t_organizations t1 = t_organizations t) as (t1 & -> & E).
  { unfold insert_object. pose proof (Hsz o ltac:(by left)). destruct (Z.gtb_spec (ob_size o) i64_max); [lia|].
    destruct (t_objects t !! ob_hash o); [by eexists|]. rewrite bool_decide_eq_true_2 by done. by eexists. }
  cbn. apply IH; [by rewrite E|]. intros o' Ho'. apply Hsz. by right.
Qed.

Lemma insert_grants_total c gs t :
  cd_organization c ∈ t_organizations t → is_Some (t_entries t !! entry_of c) →
  (∀ g, g ∈ gs → is_Some (recipient_of c g) ∧ is_Some (t_objects t !! g)) → ∃ t', insert_grants c gs t = Ok t'.
Proof.
  revert t. induction gs as [|g gs IH]; intros t Ho He Hg; cbn [insert_grants]; [by eexists|].
  destruct (Hg g ltac:(by left)) as [[r ->] Hix]. cbn [ok_or mbind result_bind].
  assert (∃ m, insert_grant g (grant_row c (gr_thumbprint r)) t = Ok (set_grants m t)) as [m ->].
  { unfold insert_grant. destruct (t_grants t !! g); [exists (t_grants t); by destruct t|].
    rewrite !bool_decide_eq_true_2 by done. by eexists. }
  cbn. apply IH; [done|done|]. intros g' Hg'. apply Hg. by right.
Qed.

Lemma insert_receipt_total h r t :
  t_receipts t !! h = None → (∀ h' r', t_receipts t !! h' = Some r' → rc_entry r' ≠ rc_entry r) →
  is_Some (t_objects t !! h) → is_Some (t_entries t !! rc_entry r) → rc_organization r ∈ t_organizations t →
  insert_receipt h r t = Ok (set_receipts (<[h := r]> (t_receipts t)) t).
Proof.
  intros H1 H2 H3 H4 H5. unfold insert_receipt. rewrite bool_decide_eq_false_2 by (rewrite H1; by intros []).
  rewrite bool_decide_eq_false_2 by (intros (x & y & Hx & Hy); by apply H2 in Hx).
  by rewrite !bool_decide_eq_true_2.
Qed.

Lemma insert_checkpoint_total h r t :
  t_checkpoints t !! h = None →
  (∀ h' r', t_checkpoints t !! h' = Some r' → ck_chain r' = ck_chain r → ck_covered r' ≠ ck_covered r) →
  is_Some (t_objects t !! h) → ck_organization r ∈ t_organizations t →
  insert_checkpoint h r t = Ok (set_checkpoints (<[h := r]> (t_checkpoints t)) t).
Proof.
  intros H1 H2 H3 H4. unfold insert_checkpoint. rewrite bool_decide_eq_false_2 by (rewrite H1; by intros []).
  rewrite bool_decide_eq_false_2 by (intros (x & y & Hx & _ & Hy & Hz); by apply (H2 x y)).
  by rewrite !bool_decide_eq_true_2.
Qed.

Section Fits.
Context (log : list CommitDbCommand) (t : CommitTables) (c : CommitDbCommand).
Context (H : holds log t) (Hwf : well_formed c) (Hfit : fits log t c).

Abbreviation last_commit := (last (chain_commits (chain_key c) log)).

Lemma fits_entry e r : t_entries t !! e = Some r → e ≠ entry_of c ∧ en_object r ≠ id_entry_object (cd_identity c) ∧
  (en_chain r = cd_chain c → en_sequence r ≠ cd_sequence c).
Proof.
  intros (x & Hx & <- & <-)%(h_entries _ _ H). destruct (f_fresh _ _ _ Hfit x Hx) as (H1 & H2 & _). split_and!; [done|done|].
  intros Hch. by apply (next_place_free log t c x H (f_one _ _ _ Hfit) (f_sequence _ _ _ Hfit)).
Qed.

Lemma fits_insert_entry m :
  insert_entry (entry_of c) (entry_row c) (set_objects m t) =
  Ok (set_entries (<[entry_of c := entry_row c]> (t_entries t)) (set_objects m t)).
Proof.
  apply insert_entry_Ok. split_and!; cbn.
  - apply eq_None_not_Some. intros [r Hr]. by apply fits_entry in Hr as [? _].
  - intros e r Hr. by apply fits_entry in Hr as (_ & ? & _).
  - intros e r Hr. by apply fits_entry in Hr as (_ & _ & ?).
  - apply (f_organization _ _ _ Hfit).
  - done.
Qed.

Lemma fits_upsert t1 :
  t_heads t1 = t_heads t → t_organizations t1 = t_organizations t →
  ∃ t2, upsert_head c (default 0 (hd_revision <$> (head_row <$> last_commit))) t1 = Ok (t2, 1).
Proof.
  intros Hh Ho. unfold upsert_head. rewrite Hh, Ho, (h_heads _ _ H). destruct last_commit as [p|] eqn:E; cbn.
  - rewrite Z.eqb_refl. pose proof (linked_last _ _ (h_linked _ _ H _) E) as Hp.
    rewrite <- (f_sequence _ _ _ Hfit) in Hp. destruct (f_bounds _ _ _ Hfit).
    destruct (Z.gtb_spec (cd_sequence p + 1) i64_max); [lia|]. by eexists.
  - rewrite bool_decide_eq_true_2 by apply (f_organization _ _ _ Hfit). by eexists.
Qed.

Lemma fits_write : ∃ t', write_commit c (head_row <$> last_commit) t = Ok t'.
Proof.
  destruct (insert_objects_total c (cd_objects c) t (f_organization _ _ _ Hfit) (f_sizes _ _ _ Hfit)) as [t1 E1].
  pose proof E1 as (m & -> & _ & Hm)%insert_objects_Ok.
  assert (∀ h, h ∈ cd_receipt c :: checkpoint_of c :: commit_grants c → is_Some (m !! h)) as Hix.
  { intros h (o & Ho & <-)%(f_indexed _ _ _ Hfit). by apply Hm. }
  unfold write_commit. rewrite E1. cbn [mbind result_bind]. destruct (f_bounds _ _ _ Hfit).
  destruct (Z.gtb_spec (cd_sequence c) i64_max); [lia|]. destruct (Z.gtb_spec (cd_registry_version c) i64_max); [lia|].
  cbn [orb]. fold (entry_of c) (commit_grants c) (checkpoint_of c). rewrite fits_insert_entry. cbn [map_err mbind result_bind].
  match goal with |- context [insert_grants c (commit_grants c) ?u] => destruct (insert_grants_total c (commit_grants c) u) as [t2 E2] end.
  - apply (f_organization _ _ _ Hfit).
  - cbn. rewrite lookup_insert_eq. by eexists.
  - intros g Hg. split; [by apply (f_recipients _ _ _ Hfit)|]. apply Hix. by do 2 right.
  - rewrite E2. pose proof E2 as (mg & -> & _)%insert_grants_Ok. cbn [mbind result_bind].
    rewrite insert_receipt_total; cbn.
    + rewrite (wf_covered _ Hwf). destruct (Z.gtb_spec (cd_sequence c) i64_max); [lia|].
      rewrite insert_checkpoint_total; cbn.
      * match goal with |- context [upsert_head c _ ?u] => destruct (fits_upsert u) as [t3 E3] end; [done|done|].
        cbn in E3. rewrite E3. cbn. by eexists.
      * apply eq_None_not_Some. intros [r (x & Hx & Ex & _)%(h_checkpoints _ _ H)].
        by destruct (f_fresh _ _ _ Hfit x Hx) as (_ & _ & _ & ?).
      * intros h r (x & Hx & _ & <-)%(h_checkpoints _ _ H). cbn.
        rewrite (wf_covered _ (h_well_formed _ _ H x Hx)), (wf_covered _ Hwf).
        intros Hch. by apply (next_place_free log t c x H (f_one _ _ _ Hfit) (f_sequence _ _ _ Hfit)).
      * apply Hix. right. by left.
      * apply (f_organization _ _ _ Hfit).
    + apply eq_None_not_Some. intros [r (x & Hx & Ex & _)%(h_receipts _ _ H)].
      by destruct (f_fresh _ _ _ Hfit x Hx) as (_ & _ & ? & _).
    + intros h r (x & Hx & _ & <-)%(h_receipts _ _ H). by destruct (f_fresh _ _ _ Hfit x Hx) as (? & _).
    + apply Hix. by left.
    + rewrite lookup_insert_eq. by eexists.
    + apply (f_organization _ _ _ Hfit).
Qed.

Lemma fits_position : check_position c (head_row <$> last_commit) = Ok tt.
Proof.
  unfold check_position. pose proof (last_position log t H c _ eq_refl) as Hl. rewrite <- (f_sequence _ _ _ Hfit) in Hl.
  pose proof (f_previous _ _ _ Hfit) as Hp. pose proof (f_accepted _ _ _ Hfit) as Ha. destruct (f_bounds _ _ _ Hfit) as [Hb _].
  destruct last_commit as [p|]; cbn in *.
  - rewrite (proj2 (checked_add_Some u64_max (cd_sequence p) 1 (cd_sequence c))) by (unfold u64_max, i64_max in *; lia). cbn.
    rewrite !bool_decide_eq_false_2 by (intros []; done). specialize (Ha p eq_refl).
    destruct (Z.ltb_spec (cd_accepted c) (cd_accepted p)); [lia|done].
  - rewrite !bool_decide_eq_false_2 by (intros []; done). done.
Qed.

(** A command that fits is accepted. *)
Lemma fits_accepted :
  ∃ t', commit_locked_head NoFault c t = (t', Ok (new_state c)) ∧ holds (log ++ [c]) t'.
Proof.
  destruct fits_write as [t' Hw]. exists t'. split.
  - unfold commit_locked_head. cbn [tx_step]. unfold head_row_of. rewrite (h_heads _ _ H).
    assert (find_replay c t = Ok None) as ->.
    { unfold find_replay. fold (entry_of c). destruct (t_entries t !! entry_of c) as [r|] eqn:E; [|done].
      by apply fits_entry in E as [? _]. }
    cbn [tx_step]. rewrite fits_position. unfold check_checkpoint. rewrite (checkpoint_head_held log t H). fold (chain_key c).
    rewrite bool_decide_eq_false_2 by (intros Hn; apply Hn; symmetry; apply (f_checkpoint _ _ _ Hfit)).
    cbn [tx_step]. by rewrite Hw.
  - apply (holds_write log c _ t t' H Hwf (write_commit_Ok _ _ _ _ Hw)); apply Hfit.
Qed.
End Fits.

(** *** Theorems *)

(** C23. Whatever transactions run side by side, fail or lose their
    acknowledgement, the tables hold exactly the commits of a log in which every
    chain counts up without forks, each commit names the entry and the
    checkpoint before it, times of acceptance do not go back, and the head row
    is that of the last commit. *)
Theorem server_chains_never_fork orgs s :
  reachable well_formed orgs s → holds (sys_log s) (sys_tables s).
Proof. intros Hr. by destruct (reachable_ok orgs s Hr). Qed.

(** C24. An entry is committed once: two transactions that were answered with
    success for the same entry, new or repeated, got the same receipt,
    checkpoint and time of acceptance, and they are those of the commit in the
    log. *)
Theorem commit_answers_agree orgs s i j c c' st st' :
  reachable well_formed orgs s →
  sys_running s !! i = Some (c, Answered (Ok st)) → sys_running s !! j = Some (c', Answered (Ok st')) →
  entry_of c = entry_of c' →
  answers (sys_log s) c st ∧ cs_receipt st = cs_receipt st' ∧ cs_checkpoint st = cs_checkpoint st' ∧
  cs_accepted st = cs_accepted st'.
Proof.
  intros [H Hr]%reachable_ok Hi Hj He. apply Hr in Hi as [_ Ha]. apply Hr in Hj as [_ Ha']. split; [done|].
  destruct Ha as (x & Hx & Hid & _ & _ & -> & _), Ha' as (y & Hy & Hid' & _ & _ & -> & _). cbn.
  assert (x = y) as ->; [|done]. apply (h_entry_unique _ _ H); [done|done|].
  unfold entry_of in *. congruence.
Qed.

(** C25. A commit that is in the next place of its chain and reuses no object is
    accepted; a repeated one is answered with what is stored, and changes
    nothing. *)
Theorem commit_locked_head_accepts orgs s c :
  reachable well_formed orgs s → well_formed c →
  (fits (sys_log s) (sys_tables s) c → ∃ t', commit_locked_head NoFault c (sys_tables s) = (t', Ok (new_state c)) ∧
     holds (sys_log s ++ [c]) t') ∧
  ∀ x f, x ∈ sys_log s → cd_identity c = cd_identity x → chain_key c = chain_key x → cd_sequence c = cd_sequence x →
    cd_sequence x ≤ i64_max → f ≠ Broken →
    commit_locked_head f c (sys_tables s) =
      (sys_tables s, Ok {| cs_sequence := cd_sequence x; cs_entry := entry_of x; cs_receipt := cd_receipt x;
                           cs_checkpoint := checkpoint_of x; cs_accepted := cd_accepted x; cs_new := false |}).
Proof.
  intros [H _]%reachable_ok Hwf. split; [by apply fits_accepted|].
  intros x f Hx Hid Hk Hs Hb Hf. unfold commit_locked_head. cbn [tx_step].
  rewrite (find_replay_held _ _ H x c Hx Hid Hk Hs Hb). by destruct f.
Qed.

(** A transaction that found a head row has the chain for itself: until it
    answers, the head stays what it read, and its write is never answered with a
    lost race or a fork. *)
Theorem locked_commit_meets_no_rival orgs s i c h :
  reachable well_formed orgs s → sys_running s !! i = Some (c, PositionChecked (Some h)) →
  t_heads (sys_tables s) !! chain_key c = Some h ∧
  ∀ e, write_commit c (Some h) (sys_tables s) = Err e → e = Repo.Unavailable ∨ e = Repo.CommitIdentityConflict.
Proof.
  intros Hr Hi. pose proof (reachable_locked _ _ Hr) as Hl. split; [by apply (Hl _ _ _ _ Hi)|].
  intros e. by apply (locked_write s i c h e (reachable_ok _ _ Hr) Hl).
Qed.

Lemma reach_begin orgs s i c :
  reachable well_formed orgs s → sys_running s !! i = None → well_formed c →
  reachable well_formed orgs {| sys_tables := sys_tables s; sys_running := <[i := (c, Begun)]> (sys_running s); sys_log := sys_log s |}.
Proof. intros Hr Hi Hc. eapply reach_step; [exact Hr|]. by apply step_begin. Qed.

(** While no chain has a head, nobody holds a lock. *)
Lemma reach_advance orgs s i c p t' p' :
  reachable well_formed orgs s → sys_running s !! i = Some (c, p) →
  (p = Begun → t_heads (sys_tables s) !! chain_key c = None) → tx_step c p (sys_tables s) = (t', p') →
  reachable well_formed orgs {| sys_tables := t'; sys_running := <[i := (c, p')]> (sys_running s);
                                sys_log := sys_log s ++ committed_by c p p' |}.
Proof.
  intros Hr Hi Hn Hx. eapply reach_step; [exact Hr|]. apply (step_advance _ _ i c p); [done| |done].
  intros Hp j [c' q] Hj [Hk [h Hh]]. destruct (reachable_locked _ _ Hr j c' q h Hj Hh) as [E _].
  cbn in Hk. rewrite Hk, Hn in E; done.
Qed.

(** Two commands that would be the first of a chain. *)
Record first_commit_of (orgs : gset OrganizationId) (k : OrganizationId * ChainId) (c : CommitDbCommand) : Prop := {
  fc_key : chain_key c = k;
  fc_well_formed : well_formed c;
  fc_fits : fits [] (empty_tables orgs) c;
}.

Section Race.
Context (orgs : gset OrganizationId) (k : OrganizationId * ChainId) (c c' : CommitDbCommand).
Context (Hc : first_commit_of orgs k c) (Hc' : first_commit_of orgs k c').

Lemma first_checks x t : first_commit_of orgs k x → t = empty_tables orgs →
  tx_step x Begun t = (t, HeadRead None) ∧ tx_step x (HeadRead None) t = (t, IdentityFree None) ∧
  tx_step x (IdentityFree None) t = (t, PositionChecked None) ∧
  ∃ t', tx_step x (PositionChecked None) t = (t', Answered (Ok (new_state x))) ∧ holds [x] t'.
Proof.
  intros [_ Hwf Hfit] ->. pose proof (holds_initial orgs) as H0. destruct (fits_write [] _ x H0 Hwf Hfit) as [t' Hw].
  split_and!; [done|done| |].
  - cbn [tx_step]. pose proof (fits_position [] _ x H0 Hfit) as Hp. cbn [chain_commits last filter list_filter fmap option_fmap option_map] in Hp.
    rewrite Hp. unfold check_checkpoint. rewrite bool_decide_eq_false_2; [done|].
    intros Hn. apply Hn. symmetry. apply (f_checkpoint _ _ _ Hfit).
  - exists t'. cbn [tx_step]. cbn [chain_commits last filter list_filter fmap option_fmap option_map] in Hw. rewrite Hw.
    split; [done|]. apply (holds_write [] x _ _ t' H0 Hwf (write_commit_Ok _ _ _ _ Hw)); apply Hfit.
Qed.

(** The first has passed its checks, the second has found no entry. *)
Lemma race_begun : ∃ s, reachable well_formed orgs s ∧ sys_tables s = empty_tables orgs ∧
  sys_running s !! 0%nat = Some (c, PositionChecked None) ∧ sys_running s !! 1%nat = Some (c', IdentityFree None).
Proof.
  destruct (first_checks c _ Hc eq_refl) as (H1 & H2 & H3 & _), (first_checks c' _ Hc' eq_refl) as (H1' & H2' & _).
  pose proof (reach_begin orgs (initial_system orgs) 0 c (reach_initial _ _) eq_refl (fc_well_formed _ _ _ Hc)) as R.
  eapply (reach_begin _ _ 1 c') in R; [|done|apply Hc'].
  eapply (reach_advance _ _ 1 c' Begun) in R; [|done|done|exact H1'].
  eapply (reach_advance _ _ 1 c' (HeadRead None)) in R; [|done|done|exact H2'].
  eapply (reach_advance _ _ 0 c Begun) in R; [|done|done|exact H1].
  eapply (reach_advance _ _ 0 c (HeadRead None)) in R; [|done|done|exact H2].
  eapply (reach_advance _ _ 0 c (IdentityFree None)) in R; [|done|done|exact H3].
  eexists. split; [exact R|]. done.
Qed.

(** The loser of a race is told that the checkpoints fork. *)
Lemma race_fork : ∃ s, reachable well_formed orgs s ∧
  sys_running s !! 0%nat = Some (c, Answered (Ok (new_state c))) ∧
  sys_running s !! 1%nat = Some (c', Answered (Err Repo.CheckpointPredecessorConflict)).
Proof.
  destruct race_begun as (s & R & Ht & Hr0 & Hr1). destruct (first_checks c _ Hc Ht) as (_ & _ & _ & t' & Hx & H).
  eapply (reach_advance _ _ 0 c) in R; [|done|done|exact Hx].
  eapply (reach_advance _ _ 1 c' (IdentityFree None) t' (Answered (Err Repo.CheckpointPredecessorConflict))) in R; cbn [sys_running sys_tables].
  - eexists. split; [exact R|]. cbn. split; [by rewrite lookup_insert_ne, lookup_insert_eq by done|apply lookup_insert_eq].
  - by rewrite lookup_insert_ne by done.
  - done.
  - pose proof (holds_initial orgs) as H0. pose proof (fits_position [] _ c' H0 (fc_fits _ _ _ Hc')) as Hp.
    cbn [chain_commits last filter list_filter fmap option_fmap option_map] in Hp. cbn [tx_step]. rewrite Hp.
    unfold check_checkpoint. rewrite (checkpoint_head_held _ _ H). fold (chain_key c').
    rewrite (fc_key _ _ _ Hc'), <- (fc_key _ _ _ Hc). unfold chain_commits. rewrite filter_cons_True by done. cbn.
    rewrite bool_decide_eq_true_2; [done|]. rewrite (f_checkpoint _ _ _ (fc_fits _ _ _ Hc')). done.
Qed.
End Race.

(** The copy of a commit that was sent twice is told that the identity differs. *)
Lemma race_retry orgs k c : first_commit_of orgs k c → ∃ s, reachable well_formed orgs s ∧
  sys_running s !! 0%nat = Some (c, Answered (Ok (new_state c))) ∧
  sys_running s !! 1%nat = Some (c, Answered (Err Repo.CommitIdentityConflict)).
Proof.
  intros Hc. destruct (race_begun orgs k c c Hc Hc) as (s & R & Ht & Hr0 & Hr1).
  destruct (first_checks orgs k c _ Hc Ht) as (_ & _ & H3 & t' & Hx & H).
  eapply (reach_advance _ _ 1 c) in R; [|done|done|exact H3].
  eapply (reach_advance _ _ 0 c) in R; [|cbn; by rewrite lookup_insert_ne by done|done|exact Hx].
  eapply (reach_advance _ _ 1 c (PositionChecked None) t' (Answered (Err Repo.CommitIdentityConflict))) in R; cbn [sys_running sys_tables].
  - eexists. split; [exact R|]. cbn. split; [by rewrite lookup_insert_ne, lookup_insert_eq by done|apply lookup_insert_eq].
  - by rewrite lookup_insert_ne, lookup_insert_eq by done.
  - done.
  - cbn [tx_step]. unfold write_commit. pose proof (fc_fits _ _ _ Hc) as Hfit. rewrite Ht in Hx.
    assert (t_organizations t' = orgs) as Ho.
    { cbn [tx_step] in Hx. destruct (write_commit c None (empty_tables orgs)) eqn:Ew; [|done]. injection Hx as ->.
      by rewrite (w_organizations _ _ _ _ (write_commit_Ok _ _ _ _ Ew)). }
    destruct (insert_objects_total c (cd_objects c) t') as [t1 E1]; [rewrite Ho; apply Hfit|apply Hfit|].
    rewrite E1. apply insert_objects_Ok in E1 as (m & -> & _ & _). cbn [mbind result_bind]. destruct (f_bounds _ _ _ Hfit).
    destruct (Z.gtb_spec (cd_sequence c) i64_max); [lia|]. destruct (Z.gtb_spec (cd_registry_version c) i64_max); [lia|].
    cbn [orb]. unfold insert_entry. cbn [set_objects t_entries]. fold (entry_of c).
    rewrite (proj2 (h_entries _ _ H (entry_of c) (entry_row c))); [done|]. exists c. split; [by left|done].
Qed.

(** C26. A lost race for the first commit of a chain is not always answered as
    one: there is no head row to lock yet, so that a second first commit can be
    told that the checkpoints fork, and the copy of a first commit that was sent
    twice that its identity differs. *)
Theorem first_commit_race_accuses orgs k c c' :
  first_commit_of orgs k c → first_commit_of orgs k c' →
  (∃ s, reachable well_formed orgs s ∧ sys_running s !! 0%nat = Some (c, Answered (Ok (new_state c))) ∧
     sys_running s !! 1%nat = Some (c', Answered (Err Repo.CheckpointPredecessorConflict))) ∧
  ∃ s, reachable well_formed orgs s ∧ sys_running s !! 0%nat = Some (c, Answered (Ok (new_state c))) ∧
     sys_running s !! 1%nat = Some (c, Answered (Err Repo.CommitIdentityConflict)).
Proof. intros Hc Hc'. split; [by apply (race_fork orgs k)|by apply (race_retry orgs k)]. Qed.
End Invariant.

(** ** Running a schedule *)

Inductive Action := ABegin (i : nat) (c : CommitDbCommand) | AAdvance (i : nat).

#[export] Instance holds_lock_dec k x : Decision (holds_lock k x).
Proof. unfold holds_lock. apply _. Defined.

Definition may_advance (i : nat) (s : System) : bool :=
  match sys_running s !! i with
  | Some (c, Begun) => bool_decide (map_Forall (λ _ x, ¬ holds_lock (chain_key c) x) (sys_running s))
  | Some _ => true
  | None => false
  end.

Definition act_on (a : Action) (s : System) : option System :=
  match a with
  | ABegin i c =>
      match sys_running s !! i with
      | None => Some {| sys_tables := sys_tables s; sys_running := <[i := (c, Begun)]> (sys_running s); sys_log := sys_log s |}
      | Some _ => None
      end
  | AAdvance i =>
      match sys_running s !! i with
      | Some (c, p) =>
          if may_advance i s then
            let '(t', p') := tx_step c p (sys_tables s) in
            Some {| sys_tables := t'; sys_running := <[i := (c, p')]> (sys_running s); sys_log := sys_log s ++ committed_by c p p' |}
          else None
      | None => None
      end
  end.

Fixpoint schedule (l : list Action) (s : System) : option System :=
  match l with [] => Some s | a :: l => s ← act_on a s; schedule l s end.

Definition begins (admissible : CommitDbCommand → Prop) (a : Action) : Prop :=
  match a with ABegin _ c => admissible c | AAdvance _ => True end.

Lemma schedule_reachable admissible orgs l s s' :
  reachable admissible orgs s → Forall (begins admissible) l → schedule l s = Some s' → reachable admissible orgs s'.
Proof.
  revert s. induction l as [|a l IH]; intros s Hr Hl; [by intros [= <-]|]. apply Forall_cons in Hl as [Ha Hl].
  cbn [schedule]. destruct (act_on a s) as [s1|] eqn:E; [|done]. cbn. apply IH; [|done].
  eapply reach_step; [exact Hr|]. destruct a as [i c|i]; cbn [act_on] in E.
  - destruct (sys_running s !! i) eqn:Ei; [done|]. injection E as <-. by apply step_begin.
  - destruct (sys_running s !! i) as [[c p]|] eqn:Ei; [|done]. destruct (may_advance i s) eqn:Em; [|done].
    destruct (tx_step c p (sys_tables s)) as [t' p'] eqn:Ex. injection E as <-. apply (step_advance _ _ i c p); [done| |done].
    intros ->. unfold may_advance in Em. rewrite Ei in Em. apply bool_decide_eq_true in Em. intros j x Hj. by apply (Em j x).
Qed.

(** ** Witnesses *)

Definition sample_orgs : gset OrganizationId := {[ replicate 16 x01 ]}.
Definition sample_key : OrganizationId * ChainId := (replicate 16 x01, replicate 16 x02).
Definition sample_hash (n : Z) (tag : byte) : Hash32 := byte_of n :: replicate 31 tag.
Definition sample_grant_entry (g : ObjectHash) : EntryHash := hd x00 g :: replicate 31 x00.

(** The commit in place [n] of the chain; [v] tells two of them apart. *)
Definition sample_commit (v n : Z) : CommitDbCommand := {|
  cd_organization := sample_key.1; cd_chain := sample_key.2; cd_device := replicate 16 x03; cd_sequence := n;
  cd_previous := if n =? 0 then None else Some (sample_hash (v + n - 1) x00);
  cd_identity := {| id_entry_hash := sample_hash (v + n) x00; id_entry_object := sample_hash (v + n) x01;
                    id_plan := sample_hash 0 x05; id_grants := [sample_hash (v + n) x02] |};
  cd_recipients := [{| gr_object := sample_hash (v + n) x02; gr_thumbprint := sample_hash 0 x06 |}];
  cd_receipt := sample_hash (v + n) x03; cd_accepted := 1000 + n; cd_due := None;
  cd_registry_version := 1; cd_registry_head := sample_hash 0 x07;
  cd_objects := [{| ob_kind := Ot.Entry; ob_hash := sample_hash (v + n) x01; ob_size := 10 |};
                 {| ob_kind := Ot.Grant; ob_hash := sample_hash (v + n) x02; ob_size := 10 |};
                 {| ob_kind := Ot.Receipt; ob_hash := sample_hash (v + n) x03; ob_size := 10 |};
                 {| ob_kind := Ot.Evidence; ob_hash := sample_hash (v + n) x04; ob_size := 10 |}];
  cd_checkpoint := {| cc_object := sample_hash (v + n) x04; cc_covered := n; cc_issued := 1000 + n;
                      cc_previous := if n =? 0 then None else Some (sample_hash (v + n - 1) x04) |} |}.

Definition sample_wf : CommitDbCommand → Prop := well_formed sample_grant_entry (λ _, sample_key).

Lemma sample_well_formed v n : sample_wf (sample_commit v n).
Proof. split; [done|done|done|by repeat constructor|]. cbn. by intros g ->%list_elem_of_singleton. Qed.

(** One commit runs to its end, is sent again, and a second one has passed its
    checks. *)
Definition sample_schedule : list Action :=
  [ABegin 0 (sample_commit 0 0); AAdvance 0; AAdvance 0; AAdvance 0; AAdvance 0;
   ABegin 1 (sample_commit 0 0); AAdvance 1; AAdvance 1;
   ABegin 2 (sample_commit 0 1); AAdvance 2; AAdvance 2; AAdvance 2].

Definition sample_system : System := default (initial_system sample_orgs) (schedule sample_schedule (initial_system sample_orgs)).

Lemma sample_reachable : reachable sample_wf sample_orgs sample_system.
Proof.
  apply (schedule_reachable sample_wf sample_orgs sample_schedule (initial_system sample_orgs)); [constructor| |].
  - repeat constructor; apply sample_well_formed.
  - unfold sample_system. destruct (schedule sample_schedule (initial_system sample_orgs)) eqn:E; [done|].
    exfalso. revert E. by vm_compute.
Qed.

Lemma server_chains_never_fork_witness :
  length (sys_log sample_system) = 1%nat ∧
  holds sample_grant_entry (λ _, sample_key) (sys_log sample_system) (sys_tables sample_system).
Proof.
  split; [by vm_compute|]. apply (server_chains_never_fork sample_grant_entry (λ _, sample_key) sample_orgs sample_system).
  exact sample_reachable.
Defined.

Definition sample_replay : CommittedDbState := {|
  cs_sequence := 0; cs_entry := sample_hash 0 x00; cs_receipt := sample_hash 0 x03;
  cs_checkpoint := sample_hash 0 x04; cs_accepted := 1000; cs_new := false |}.

Lemma commit_answers_agree_witness :
  cs_receipt (new_state (sample_commit 0 0)) = cs_receipt sample_replay.
Proof.
  destruct (commit_answers_agree sample_grant_entry (λ _, sample_key) sample_orgs sample_system 0 1
    (sample_commit 0 0) (sample_commit 0 0) (new_state (sample_commit 0 0)) sample_replay) as (_ & H & _);
    [exact sample_reachable|by vm_compute|by vm_compute|done|exact H].
Defined.

Lemma sample_indexed v n h :
  h ∈ cd_receipt (sample_commit v n) :: checkpoint_of (sample_commit v n) :: commit_grants (sample_commit v n) →
  ∃ o, o ∈ cd_objects (sample_commit v n) ∧ ob_hash o = h.
Proof.
  intros [->|[->|[->|?%elem_of_nil]%elem_of_cons]%elem_of_cons]%elem_of_cons; [| | |done]; eexists.
  - split; [by right; right; left|done].
  - split; [by right; right; right; left|done].
  - split; [by right; left|done].
Qed.

Lemma sample_fits : fits (sys_log sample_system) (sys_tables sample_system) (sample_commit 0 1).
Proof.
  replace (sys_log sample_system) with [sample_commit 0 0] by (by vm_compute).
  split.
  - apply (bool_decide_eq_true_1 _). by vm_compute.
  - by intros x ->%list_elem_of_singleton.
  - by vm_compute.
  - by vm_compute.
  - by vm_compute.
  - intros p. vm_compute. by intros [= <-].
  - split; by vm_compute.
  - cbn. intros o Ho. repeat (apply elem_of_cons in Ho as [->|Ho]; [by vm_compute|]). by apply elem_of_nil in Ho.
  - apply sample_indexed.
  - cbn. intros g ->%list_elem_of_singleton. by eexists.
  - intros x ->%list_elem_of_singleton. split_and!; by vm_compute.
Qed.

Lemma commit_locked_head_accepts_witness :
  ∃ t', commit_locked_head NoFault (sample_commit 0 1) (sys_tables sample_system) = (t', Ok (new_state (sample_commit 0 1))).
Proof.
  destruct (commit_locked_head_accepts sample_grant_entry (λ _, sample_key) sample_orgs sample_system (sample_commit 0 1)) as [H _];
    [exact sample_reachable|apply sample_well_formed|]. destruct (H sample_fits) as (t' & Ht & _). by exists t'.
Defined.

Lemma locked_commit_meets_no_rival_witness :
  t_heads (sys_tables sample_system) !! sample_key = Some (head_row (sample_commit 0 0)).
Proof.
  refine (proj1 (locked_commit_meets_no_rival sample_grant_entry (λ _, sample_key) sample_orgs sample_system 2
    (sample_commit 0 1) (head_row (sample_commit 0 0)) sample_reachable _)). by vm_compute.
Defined.

Lemma sample_first v : first_commit_of sample_grant_entry (λ _, sample_key) sample_orgs sample_key (sample_commit v 0).
Proof.
  split; [done|apply sample_well_formed|]. split.
  - apply (bool_decide_eq_true_1 _). by vm_compute.
  - by intros x ?%elem_of_nil.
  - done.
  - done.
  - done.
  - done.
  - split; by vm_compute.
  - cbn. intros o Ho. repeat (apply elem_of_cons in Ho as [->|Ho]; [by vm_compute|]). by apply elem_of_nil in Ho.
  - apply sample_indexed.
  - intros g ->%list_elem_of_singleton. unfold recipient_of. cbn [sample_commit cd_recipients list_find gr_object].
    rewrite decide_True by done. by eexists.
  - by intros x ?%elem_of_nil.
Qed.

Lemma first_commit_race_accuses_witness :
  ∃ s, reachable sample_wf sample_orgs s ∧
    sys_running s !! 1%nat = Some (sample_commit 0 0, Answered (Err Repo.CommitIdentityConflict)).
Proof.
  destruct (first_commit_race_accuses sample_grant_entry (λ _, sample_key) sample_orgs sample_key
    (sample_commit 0 0) (sample_commit 7 0)) as [_ (s & Hr & _ & H)]; [apply sample_first|apply sample_first|].
  exists s. split; [exact Hr|exact H].
Defined.
