(* ===== verification/GrantPlan.v ===== *)
(** * GrantPlan: the recipients an entry is granted to ([ea-format], [eag.rs])

    A plan lists the recipients of the initial grants of an entry: exactly one
    recovery recipient, and no key and no certificate twice. Its hash, which the
    signed manifest carries, names the set of recipients. *)

From S2P Require Import Prelude Types Utf8 Cbor Str Profile.
Import Fmt(FormatError).

Module Gp.
Inductive GrantPurposeV1 := Recovery | Reader.
End Gp.
Import Gp(GrantPurposeV1).

#[export] Instance GrantPurposeV1_eq_dec : EqDecision GrantPurposeV1.
Proof. solve_decision. Defined.

Definition purpose_code (p : GrantPurposeV1) : Z := match p with Gp.Recovery => 0 | Gp.Reader => 1 end.

Definition GRANT_SUITE_ID : str := lit "EINSATZARCHIV-HPKE-1".

Record GrantPlanItemV1 := {
  pi_thumbprint : Hash32;
  pi_certificate : CertificateHash;
  pi_purpose : GrantPurposeV1;
}.

#[export] Instance GrantPlanItemV1_eq_dec : EqDecision GrantPlanItemV1.
Proof. solve_decision. Defined.

(** What [tuple_cmp] compares, in this order. *)
Definition tuple_key (i : GrantPlanItemV1) : Hash32 * (Hash32 * Z) :=
  (pi_thumbprint i, (pi_certificate i, purpose_code (pi_purpose i))).

(** The loop over the items with the keys and certificates seen so far. *)
Fixpoint check_recipients (keys certificates : gset Hash32) (items : list GrantPlanItemV1) : result FormatError unit :=
  match items with
  | [] => Ok tt
  | i :: items =>
      if bool_decide (pi_thumbprint i ∈ keys) then Err Fmt.DuplicateRecipientKey else
      if bool_decide (pi_certificate i ∈ certificates) then Err Fmt.DuplicateRecipientCertificate else
      check_recipients ({[ pi_thumbprint i ]} ∪ keys) ({[ pi_certificate i ]} ∪ certificates) items
  end.

Definition recoveries (items : list GrantPlanItemV1) : list GrantPlanItemV1 :=
  filter (λ i, pi_purpose i = Gp.Recovery) items.

Definition validate_plan_items (items : list GrantPlanItemV1) : result FormatError unit :=
  match length (recoveries items) with
  | 0%nat => Err Fmt.MissingRecovery
  | 1%nat => check_recipients ∅ ∅ items
  | _ => Err Fmt.DuplicateRecovery
  end.

Definition encode_plan_item (i : GrantPlanItemV1) : list byte :=
  cbor_array 4 ++ cbor_bytes (pi_thumbprint i) ++ cbor_bytes (pi_certificate i) ++ cbor_str GRANT_SUITE_ID
  ++ cbor_u64 (purpose_code (pi_purpose i)).

Definition encode_plan_items (items : list GrantPlanItemV1) : list byte :=
  cbor_array (len items) ++ flat_map encode_plan_item items.

Record GrantPlanV1 := { gp_items : list GrantPlanItemV1; gp_exact : list byte; gp_hash : Hash32 }.

Section Plan.
(** [ea_crypto::grant_plan_digest]. *)
Context (grant_plan_digest : list byte → Hash32).

(** [GrantPlanV1::new]. *)
Definition GrantPlanV1_new (items : list GrantPlanItemV1) : result FormatError GrantPlanV1 :=
  _ ← validate_plan_items items;
  let items := sort_by_key tuple_key items in
  let exact := encode_plan_items items in
  Ok {| gp_items := items; gp_exact := exact; gp_hash := grant_plan_digest exact |}.

(** ** What a plan is *)

Lemma check_recipients_Ok keys certificates items :
  check_recipients keys certificates items = Ok tt ↔
  NoDup (pi_thumbprint <$> items) ∧ NoDup (pi_certificate <$> items) ∧
  ∀ i, i ∈ items → (pi_thumbprint i ∉ keys) ∧ (pi_certificate i ∉ certificates).
Proof.
  revert keys certificates. induction items as [|i items IH]; intros keys certificates; cbn [check_recipients].
  { split; [|done]. intros _. split_and!; [constructor..|]. by intros i ?%elem_of_nil. }
  cbn [fmap list_fmap]. rewrite !NoDup_cons, !list_elem_of_fmap. case_bool_decide as H1.
  { split; [done|]. intros (_ & _ & H). by destruct (H i ltac:(by left)). }
  case_bool_decide as H2.
  { split; [done|]. intros (_ & _ & H). by destruct (H i ltac:(by left)). }
  rewrite IH. split.
  - intros (N1 & N2 & H). split_and!; [|done| |done|].
    + intros (j & E & Hj). apply H in Hj. set_solver.
    + intros (j & E & Hj). apply H in Hj. set_solver.
    + intros j [->|Hj]%elem_of_cons; [done|]. apply H in Hj. set_solver.
  - intros ([M1 N1] & [M2 N2] & H). split_and!; [done|done|]. intros j Hj.
    destruct (H j ltac:(by right)). split; apply not_elem_of_union; (split; [|done]); apply not_elem_of_singleton; intros E;
      [apply M1|apply M2]; exists j; by rewrite E.
Qed.

(** Exactly one recovery recipient and no recipient twice. *)
Record plan_ok (items : list GrantPlanItemV1) : Prop := {
  po_recovery : ∃ r, recoveries items = [r];
  po_keys : NoDup (pi_thumbprint <$> items);
  po_certificates : NoDup (pi_certificate <$> items);
}.

Lemma validate_plan_items_Ok items : validate_plan_items items = Ok tt ↔ plan_ok items.
Proof.
  unfold validate_plan_items. destruct (recoveries items) as [|r [|r' l]] eqn:E; cbn.
  - split; [done|]. intros [[r Hr] _ _]. congruence.
  - rewrite check_recipients_Ok. split.
    + intros (H1 & H2 & _). split; [by exists r|done|done].
    + intros [_ H1 H2]. split_and!; [done|done|]. intros i _. split; apply not_elem_of_empty.
  - split; [done|]. intros [[x Hx] _ _]. congruence.
Qed.

(** ** The hash names the recipients *)

(** The widths of the fields. *)
Definition item_sized (i : GrantPlanItemV1) : Prop := sized (pi_thumbprint i) ∧ sized (pi_certificate i).

Lemma plan_item_inj a b r r' :
  item_sized a → item_sized b → encode_plan_item a ++ r = encode_plan_item b ++ r' → a = b ∧ r = r'.
Proof.
  intros [A1 A2] [B1 B2]. unfold encode_plan_item. rewrite <- !app_assoc. intros H.
  apply app_inv_head in H. apply cbor_bytes_inj in H as [H1 H]; [|done..]. apply cbor_bytes_inj in H as [H2 H]; [|done..].
  apply app_inv_head in H. apply cbor_u64_inj in H as [H3 ->].
  - split; [|done]. destruct a as [k c p], b as [k' c' p']. cbn in *. subst. by destruct p, p'.
  - unfold in_u64. by destruct (pi_purpose a).
  - unfold in_u64. by destruct (pi_purpose b).
Qed.

Lemma plan_items_inj a b :
  Forall item_sized a → Forall item_sized b → sized a → sized b → encode_plan_items a = encode_plan_items b → a = b.
Proof.
  unfold encode_plan_items. intros Ha Hb La Lb H.
  rewrite <- (app_nil_r (flat_map _ a)), <- (app_nil_r (flat_map _ b)) in H.
  apply cbor_array_inj in H as [Hl H]; [|by apply sized_u64..].
  apply (flat_map_inj _ item_sized) in H as [-> _]; [done|apply plan_item_inj|done|done|]. unfold len in Hl. lia.
Qed.

Lemma plan_hash_items a b p q :
  (∀ x y, grant_plan_digest x = grant_plan_digest y → x = y) →
  Forall item_sized a → Forall item_sized b → sized a → sized b →
  GrantPlanV1_new a = Ok p → GrantPlanV1_new b = Ok q → gp_hash p = gp_hash q → a ≡ₚ b.
Proof.
  intros Hinj Ha Hb La Lb Hp Hq He. unfold GrantPlanV1_new in *. inv_ok. cbn in He.
  assert (∀ l, sized l → sized (sort_by_key tuple_key l)) as Hsz.
  { intros l. unfold sized, len. by rewrite sort_by_key_perm. }
  apply Hinj, plan_items_inj in He; [|by rewrite sort_by_key_perm|by rewrite sort_by_key_perm|by apply Hsz..].
  by rewrite <- (sort_by_key_perm tuple_key a), He, sort_by_key_perm.
Qed.
End Plan.
