(* ===== verification/ObjectStore.v ===== *)
(** * ObjectStore: the bucket of the synchronization server ([apps/server], [s3.rs])

    Exact bytes are streamed under a temporary key, hashed on the way, and then
    taken over under the key made of their kind and their hash, if there is
    nothing yet. [ea-sync-server] ([ports.rs], [models.rs]) names these
    operations; the bucket is that of one organization.

    The state of the server is the bucket, the tables of [ServerDb], the security
    events and the readings of the clock. Each request to the bucket, to the
    database or to the sink of events takes the next element of [sv_calls]: what
    other requests did before it, and whether it fails. Other requests commit
    with the transaction of [ServerDb] or put an object under its own key.

    Parser and digest are parameters. A body is the list of the chunks it
    arrives in; none of them fails, for bodies come from memory here. *)

From S2P Require Import Prelude Types Utf8 Cbor Str Profile Inventory GrantPlan ServerDb.
Import Fmt(FormatError) Repo(RepositoryError) Ot(ObjectTypeV1) Gp(GrantPurposeV1).

(** ** What the parser gives ([ea-format]) *)

Record ManifestCoreFieldsV1 := {
  mf_organization : OrganizationId;
  mf_chain : ChainId;
  mf_sequence : ChainSequence;
  mf_previous : option EntryHash;
  mf_writer : CertificateHash;
  mf_transition : option ObjectHash;
  mf_registry_version : Z;
  mf_registry_head : Hash32;
  mf_plan : Hash32;
}.

Record EntryPackageV1 := {
  ep_entry_hash : EntryHash;
  ep_manifest : ManifestCoreFieldsV1;
  ep_signed_manifest : list byte;
  ep_signature : list byte;
}.

Inductive GrantKindV1 := GInitial | GHistorical.
#[export] Instance GrantKindV1_eq_dec : EqDecision GrantKindV1.
Proof. solve_decision. Defined.

Record GrantV1 := {
  gt_organization : OrganizationId;
  gt_kind : GrantKindV1;
  gt_entry_hash : EntryHash;
  gt_purpose : GrantPurposeV1;
  gt_thumbprint : Hash32;
  gt_certificate : CertificateHash;
  gt_body : list byte;
  gt_signature : list byte;
}.

Abbreviation Object := (@ParsedArchiveObject EntryPackageV1 GrantV1 unit unit unit unit).

(** ** Keys, staged objects and events ([models.rs]) *)

Definition hex_digit (n : Z) : Z := if n <? 10 then n + 48 else n + 87.

(** [hex::encode]. *)
Definition hex_encode (bytes : list byte) : str :=
  flat_map (λ b, [byte_of (hex_digit (u8 b / 16)); byte_of (hex_digit (u8 b mod 16))]) bytes.

Definition object_type_segment (k : ObjectTypeV1) : str :=
  lit match k with
      | Ot.Entry => "eip" | Ot.Grant => "eag" | Ot.Receipt => "esr"
      | Ot.Evidence => "ecp" | Ot.Trust => "etb" | Ot.Destroyed => "eds"
      end.

Definition object_key (k : ObjectTypeV1) (h : ObjectHash) : str := object_type_segment k ++ lit "/" ++ hex_encode h.

Record StagedObject := { so_kind : ObjectTypeV1; so_hash : ObjectHash; so_size : Z; so_key : str }.

Definition staged_key (s : StagedObject) : str := object_key (so_kind s) (so_hash s).

Record StoredObject := { st_kind : ObjectTypeV1; st_hash : ObjectHash; st_size : Z; st_newly : bool }.

Module Sec.
Inductive SecurityEventKindV1 :=
| ObjectHashConflict | EntryIdentityMismatch | SequenceFork | PredecessorMismatch | WriterUnauthorized
| CheckpointPredecessorConflict.

Definition event_code (k : SecurityEventKindV1) : string :=
  match k with
  | ObjectHashConflict => "object-hash-conflict"
  | EntryIdentityMismatch => "entry-identity-mismatch"
  | SequenceFork => "sequence-fork"
  | PredecessorMismatch => "predecessor-mismatch"
  | WriterUnauthorized => "writer-unauthorized"
  | CheckpointPredecessorConflict => "checkpoint-predecessor-conflict"
  end.
End Sec.
Import Sec(SecurityEventKindV1).

#[export] Instance SecurityEventKindV1_eq_dec : EqDecision SecurityEventKindV1.
Proof. solve_decision. Defined.

Record SecurityEventV1 := {
  ev_organization : OrganizationId;
  ev_kind : SecurityEventKindV1;
  ev_subject : str;
  ev_observed : UnixMillis;
}.

Module Obj.
Inductive StoreError := HashConflict | LimitExceeded | ObjectTypeMismatch | NotFound | Unavailable.

Definition object_store_error_code (e : StoreError) : string :=
  match e with
  | HashConflict => "EA-STORE-HASH-CONFLICT"
  | LimitExceeded => "EA-STORE-LIMIT"
  | ObjectTypeMismatch => "EA-STORE-OBJECT-TYPE"
  | NotFound => "EA-STORE-NOT-FOUND"
  | Unavailable => "EA-STORE-UNAVAILABLE"
  end.
End Obj.
Import Obj(StoreError).

#[export] Instance StoreError_eq_dec : EqDecision StoreError.
Proof. solve_decision. Defined.

(** ** The server *)

Inductive Rival :=
| RivalCommit (f : DbFault) (c : CommitDbCommand)
| RivalPut (k : ObjectTypeV1) (bytes : list byte).

Record Server := {
  sv_bucket : gmap str (list byte);
  sv_tables : CommitTables;
  (** the entries whose destruction has begun *)
  sv_targets : gset (OrganizationId * EntryHash);
  sv_events : list SecurityEventV1;
  sv_clock : list UnixMillis;
  (** [SystemTime] in nanoseconds and [STAGING_COUNTER] *)
  sv_nanos : Z;
  sv_counter : Z;
  sv_calls : list (list Rival * DbFault);
}.

Definition with_bucket m s := {| sv_bucket := m; sv_tables := sv_tables s; sv_targets := sv_targets s; sv_events := sv_events s;
  sv_clock := sv_clock s; sv_nanos := sv_nanos s; sv_counter := sv_counter s; sv_calls := sv_calls s |}.
Definition with_tables t s := {| sv_bucket := sv_bucket s; sv_tables := t; sv_targets := sv_targets s; sv_events := sv_events s;
  sv_clock := sv_clock s; sv_nanos := sv_nanos s; sv_counter := sv_counter s; sv_calls := sv_calls s |}.
Definition with_events l s := {| sv_bucket := sv_bucket s; sv_tables := sv_tables s; sv_targets := sv_targets s; sv_events := l;
  sv_clock := sv_clock s; sv_nanos := sv_nanos s; sv_counter := sv_counter s; sv_calls := sv_calls s |}.
Definition with_clock l s := {| sv_bucket := sv_bucket s; sv_tables := sv_tables s; sv_targets := sv_targets s; sv_events := sv_events s;
  sv_clock := l; sv_nanos := sv_nanos s; sv_counter := sv_counter s; sv_calls := sv_calls s |}.
Definition with_counter n s := {| sv_bucket := sv_bucket s; sv_tables := sv_tables s; sv_targets := sv_targets s; sv_events := sv_events s;
  sv_clock := sv_clock s; sv_nanos := sv_nanos s; sv_counter := n; sv_calls := sv_calls s |}.
Definition with_calls l s := {| sv_bucket := sv_bucket s; sv_tables := sv_tables s; sv_targets := sv_targets s; sv_events := sv_events s;
  sv_clock := sv_clock s; sv_nanos := sv_nanos s; sv_counter := sv_counter s; sv_calls := l |}.

(** Code that acts on the server and may fail. *)
Definition io (E A : Type) : Type := Server → Server * result E A.

#[export] Instance io_ret E : MRet (io E) := λ A a s, (s, Ok a).
#[export] Instance io_bind E : MBind (io E) := λ A B k m s,
  match m s with (s, Ok a) => k a s | (s, Err e) => (s, Err e) end.

Definition io_of {E A} (r : result E A) : io E A := λ s, (s, r).
(** [Result::map_err] on the result of a call. *)
Definition io_map_err {E F A} (f : E → F) (m : io E A) : io F A := λ s, let '(s, r) := m s in (s, map_err f r).
(** A call whose outcome is dropped. *)
Definition io_ignore {E F A} (m : io E A) : io F unit := λ s, ((m s).1, Ok tt).
(** The outcome of a call as a value. *)
Definition io_try {E F A} (m : io E A) : io F (result E A) := λ s, let '(s, r) := m s in (s, Ok r).

(** [ServerClock::now]. *)
Definition clock_now {E} : io E UnixMillis := λ s, (with_clock (tail (sv_clock s)) s, Ok (default 0 (head (sv_clock s)))).

Section Adapter.
(** [ea_crypto::object_hash]. *)
Context (object_hash : list byte → ObjectHash).
Context (decode_exact_object : list byte → result FormatError Object).
(** The organization of the bucket. *)
Context (organization : OrganizationId).
(** Whether the service reports the length of an object. *)
Context (reports_length : bool).

(** *** What other requests do *)

Definition rival_act (r : Rival) (s : Server) : Server :=
  match r with
  | RivalCommit f c => with_tables (commit_locked_head f c (sv_tables s)).1 s
  | RivalPut k bytes =>
      match sv_bucket s !! object_key k (object_hash bytes) with
      | Some _ => s
      | None => with_bucket (<[object_key k (object_hash bytes) := bytes]> (sv_bucket s)) s
      end
  end.

(** The next request: its fault, after what others did. *)
Definition next_call (s : Server) : Server * DbFault :=
  match sv_calls s with
  | [] => (s, NoFault)
  | (rivals, fault) :: calls => (foldl (λ s r, rival_act r s) (with_calls calls s) rivals, fault)
  end.

(** A request that reads, one that writes, and one that removes; an
    acknowledgement may be lost after a write. *)
Definition read_request {E A} (e : E) (f : Server → result E A) : io E A := λ s,
  let '(s, fault) := next_call s in
  match fault with NoFault => (s, f s) | _ => (s, Err e) end.

Definition write_request {E} (e : E) (f : Server → result E Server) : io E unit := λ s,
  let '(s, fault) := next_call s in
  match fault with
  | Broken => (s, Err e)
  | NoFault => match f s with Ok s' => (s', Ok tt) | Err e => (s, Err e) end
  | AckLost => match f s with Ok s' => (s', Err e) | Err e => (s, Err e) end
  end.

(** [SecurityEventSink::record]. *)
Definition sink_record (event : SecurityEventV1) : io RepositoryError unit :=
  write_request Repo.Unavailable (λ s, Ok (with_events (sv_events s ++ [event]) s)).

(** *** Requests to the bucket *)

Definition get_object (key : str) : io StoreError (option (list byte)) :=
  read_request Obj.Unavailable (λ s, Ok (sv_bucket s !! key)).

Definition put_object (key : str) (bytes : list byte) : io StoreError unit :=
  write_request Obj.Unavailable (λ s, Ok (with_bucket (<[key := bytes]> (sv_bucket s)) s)).

Definition copy_object (source target : str) : io StoreError unit :=
  write_request Obj.Unavailable (λ s,
    bytes ← ok_or Obj.Unavailable (sv_bucket s !! source);
    Ok (with_bucket (<[target := bytes]> (sv_bucket s)) s)).

Definition delete_object (key : str) : io StoreError unit :=
  write_request Obj.Unavailable (λ s, Ok (with_bucket (base.delete key (sv_bucket s)) s)).

(** A request of a multipart upload before its completion. *)
Definition upload_request : io StoreError unit := write_request Obj.Unavailable Ok.

Definition content_length (bytes : list byte) : option Z := if reports_length then Some (len bytes) else None.

Definition length_proves_conflict (stored : option Z) (staged : Z) : bool :=
  match stored with Some l => negb (l =? staged) | None => false end.

Definition stored_hash (key : str) : io StoreError ObjectHash :=
  found ← get_object key;
  io_of (object_hash <$> ok_or Obj.Unavailable found).

Definition record_hash_conflict (key : str) : io StoreError unit :=
  now ← clock_now;
  io_ignore (sink_record {| ev_organization := organization; ev_kind := Sec.ObjectHashConflict;
                            ev_subject := key; ev_observed := now |}).

(** *** Staging *)

Definition STAGING_PREFIX : str := lit "staging".
Definition STAGING_PART_BYTES : Z := 5 * 1024 * 1024.
Definition i32_max : Z := 2147483647.
Definition MAX_ARCHIVE_OBJECT_BYTES_V1 : Z := 4194304.

Definition exact_object_prefix (k : ObjectTypeV1) : list byte :=
  [x85; x44; x45; x41; x31; x00; byte_of (object_type_code k); x01; x80].

Definition entry_membership (k : ObjectTypeV1) (exact : list byte) : result StoreError EntryHash :=
  match decode_exact_object exact with
  | Ok (Entry e) =>
      if bool_decide (k = Ot.Entry) && bool_decide (mf_organization (ep_manifest (value e)) = organization)
      then Ok (ep_entry_hash (value e)) else Err Obj.ObjectTypeMismatch
  | Ok (Grant g) =>
      if bool_decide (k = Ot.Grant) && bool_decide (gt_organization (value g) = organization)
      then Ok (gt_entry_hash (value g)) else Err Obj.ObjectTypeMismatch
  | _ => Err Obj.ObjectTypeMismatch
  end.

(** The fence against destruction ([postgres_destruction.rs]). *)
Definition begin_object_write (entry : EntryHash) : io RepositoryError unit :=
  read_request Repo.Unavailable (λ s,
    if bool_decide (organization ∉ t_organizations (sv_tables s)) then Err Repo.HeadConflict else
    if bool_decide ((organization, entry) ∈ sv_targets s) then Err Repo.HeadConflict else Ok tt).

Definition staging_nonce (s : Server) : list byte :=
  to_be_bytes 8 (sv_nanos s mod 2 ^ 64) ++ to_be_bytes 8 (sv_counter s mod 2 ^ 64).

Definition staging_key (k : ObjectTypeV1) : io StoreError str := λ s,
  (with_counter (sv_counter s + 1) s,
   Ok (STAGING_PREFIX ++ lit "/" ++ object_type_segment k ++ lit "/" ++ hex_encode (staging_nonce s))).

Fixpoint collect_body (limit : Z) (exact : list byte) (body : list (list byte)) : result StoreError (list byte) :=
  match body with
  | [] => Ok exact
  | chunk :: body =>
      if (len exact + len chunk >? limit) || (len exact + len chunk >? MAX_ARCHIVE_OBJECT_BYTES_V1)
      then Err Obj.LimitExceeded else collect_body limit (exact ++ chunk) body
  end.

Definition upload_part (parts : list (list byte)) (payload : list byte) : io StoreError (list (list byte)) :=
  if len parts + 1 >? i32_max then io_of (Err Obj.LimitExceeded) else
  _ ← upload_request;
  mret (parts ++ [payload]).

(** The inner loop over full parts; [fuel] is the length of the buffer. *)
Fixpoint upload_full (fuel : nat) (parts : list (list byte)) (buffer : list byte)
    : io StoreError (list (list byte) * list byte) :=
  match fuel with
  | O => mret (parts, buffer)
  | S fuel =>
      if len buffer >=? STAGING_PART_BYTES then
        parts ← upload_part parts (take (Z.to_nat STAGING_PART_BYTES) buffer);
        upload_full fuel parts (drop (Z.to_nat STAGING_PART_BYTES) buffer)
      else mret (parts, buffer)
  end.

Record Streamed := {
  sm_head : list byte;
  sm_buffer : list byte;
  sm_parts : list (list byte);
  sm_total : Z;
  (** what the streaming hasher has seen *)
  sm_seen : list byte;
}.

Fixpoint stream_chunks (prefix : list byte) (limit : Z) (m : Streamed) (body : list (list byte)) : io StoreError Streamed :=
  match body with
  | [] => mret m
  | chunk :: body =>
      let total := Z.min u64_max (sm_total m + len chunk) in
      if total >? limit then io_of (Err Obj.LimitExceeded) else
      let head := if len (sm_head m) <? len prefix
                  then sm_head m ++ take (length prefix - length (sm_head m)) chunk else sm_head m in
      if (len (sm_head m) <? len prefix) && (len head =? len prefix) && bool_decide (head ≠ prefix)
      then io_of (Err Obj.ObjectTypeMismatch) else
      let buffer := sm_buffer m ++ chunk in
      '(parts, buffer) ← upload_full (length buffer) (sm_parts m) buffer;
      stream_chunks prefix limit {| sm_head := head; sm_buffer := buffer; sm_parts := parts; sm_total := total;
                                    sm_seen := sm_seen m ++ chunk |} body
  end.

Definition stream_into_parts (k : ObjectTypeV1) (body : list (list byte)) (limit : Z) (key : str)
    : io StoreError StagedObject :=
  let prefix := exact_object_prefix k in
  m ← stream_chunks prefix limit {| sm_head := []; sm_buffer := []; sm_parts := []; sm_total := 0; sm_seen := [] |} body;
  if len (sm_head m) <? len prefix then io_of (Err Obj.ObjectTypeMismatch) else
  parts ← (if is_empty (sm_buffer m) then mret (sm_parts m) else upload_part (sm_parts m) (sm_buffer m));
  _ ← put_object key (concat parts);
  mret {| so_kind := k; so_hash := object_hash (sm_seen m); so_size := sm_total m; so_key := key |}.

Definition guarded (k : ObjectTypeV1) : bool := bool_decide (k = Ot.Entry) || bool_decide (k = Ot.Grant).

Definition stage_stream (k : ObjectTypeV1) (body : list (list byte)) (limit : Z) : io StoreError StagedObject :=
  body ← (if guarded k then
            exact ← io_of (collect_body limit [] body);
            entry ← io_of (entry_membership k exact);
            _ ← io_map_err (λ _, Obj.Unavailable) (begin_object_write entry);
            mret [exact]
          else mret body);
  key ← staging_key k;
  _ ← upload_request;
  r ← io_try (stream_into_parts k body limit key);
  match r with
  | Ok staged => mret staged
  | Err e => _ ← io_ignore (E := StoreError) (write_request Obj.Unavailable Ok); io_of (Err e)
  end.

(** *** Taking over *)

(** The bytes of an entry or grant are read again before they are taken over. *)
Definition recheck_staged (staged : StagedObject) : io StoreError unit :=
  found ← get_object (so_key staged);
  exact ← io_of (ok_or Obj.Unavailable found);
  if negb (is_some_and (λ n, n <=? MAX_ARCHIVE_OBJECT_BYTES_V1) (content_length exact)) then io_of (Err Obj.LimitExceeded) else
  if bool_decide (object_hash exact ≠ so_hash staged) then io_of (Err Obj.HashConflict) else
  entry ← io_of (entry_membership (so_kind staged) exact);
  io_map_err (λ _, Obj.Unavailable) (begin_object_write entry).

Definition stored_object (staged : StagedObject) (newly : bool) : StoredObject := {|
  st_kind := so_kind staged; st_hash := so_hash staged; st_size := so_size staged; st_newly := newly |}.

Definition put_if_absent (staged : StagedObject) : io StoreError StoredObject :=
  _ ← (if guarded (so_kind staged) then recheck_staged staged else mret tt);
  existing ← get_object (staged_key staged);
  match existing with
  | Some bytes =>
      conflict ← (if length_proves_conflict (content_length bytes) (so_size staged) then mret true else
                  h ← stored_hash (staged_key staged);
                  mret (bool_decide (h ≠ so_hash staged)));
      if conflict : bool then
        _ ← record_hash_conflict (staged_key staged);
        _ ← io_ignore (E := StoreError) (delete_object (so_key staged));
        io_of (Err Obj.HashConflict)
      else
        _ ← io_ignore (E := StoreError) (delete_object (so_key staged));
        mret (stored_object staged false)
  | None =>
      _ ← copy_object (so_key staged) (staged_key staged);
      _ ← io_ignore (E := StoreError) (delete_object (so_key staged));
      mret (stored_object staged true)
  end.

(** *** Reading *)

(** [ObjectTypeDirectory::object_type_of]. *)
Definition directory_type_of (h : ObjectHash) : io RepositoryError (option ObjectTypeV1) :=
  read_request Repo.Unavailable (λ s,
    match t_objects (sv_tables s) !! h with
    | None => Ok None
    | Some row => Some <$> object_type_of_code (ix_type row)
    end).

Definition get_exact_in (k : ObjectTypeV1) (h : ObjectHash) : io StoreError (list byte) :=
  found ← get_object (object_key k h);
  io_of (ok_or Obj.NotFound found).

Definition get_exact (h : ObjectHash) : io StoreError (list byte) :=
  found ← io_map_err (λ _, Obj.Unavailable) (directory_type_of h);
  kind ← io_of (ok_or Obj.NotFound found);
  get_exact_in kind h.
(** ** What every call keeps *)

(** The keys of staged objects are apart from those of objects. *)
Definition is_staging (key : str) : Prop := ∃ rest, key = STAGING_PREFIX ++ rest.

Lemma object_key_not_staging k h : ¬ is_staging (object_key k h).
Proof. intros [rest E]. destruct k; cbn in E; discriminate E. Qed.

(** The bucket holds bytes under their kind and hash. *)
Definition stored (s : Server) (k : ObjectTypeV1) (h : ObjectHash) : Prop :=
  ∃ b, sv_bucket s !! object_key k h = Some b ∧ object_hash b = h.

(** The staged bytes are still there. *)
Definition staged_there (s : Server) (o : StagedObject) : Prop :=
  ∃ b, sv_bucket s !! so_key o = Some b ∧ object_hash b = so_hash o.

(** Commits of others are commands of the service. *)
Context (grant_entry : ObjectHash → EntryHash) (entry_chain : EntryHash → OrganizationId * ChainId).

Definition rival_ok (r : Rival) : Prop :=
  match r with RivalCommit _ c => well_formed grant_entry entry_chain c | RivalPut _ _ => True end.

Definition calls_ok (s : Server) : Prop := Forall (λ p, Forall rival_ok p.1) (sv_calls s).

(** Objects stay, and the tables hold a log that only grows. *)
Record grows (s s' : Server) : Prop := {
  gr_stored k h : stored s k h → stored s' k h;
  gr_tables : calls_ok s → calls_ok s' ∧ ∀ log, holds grant_entry entry_chain log (sv_tables s) →
    ∃ more, holds grant_entry entry_chain (log ++ more) (sv_tables s');
}.

#[local] Instance grows_preorder : PreOrder grows.
Proof.
  split.
  - intros s. split; [done|]. intros Hc. split; [done|]. intros log H. exists []. by rewrite app_nil_r.
  - intros s1 s2 s3 [S1 T1] [S2 T2]. split; [auto|]. intros Hc. destruct (T1 Hc) as [Hc2 L1]. destruct (T2 Hc2) as [Hc3 L2].
    split; [done|]. intros log H. destruct (L1 log H) as [m1 H1]. destruct (L2 _ H1) as [m2 H2].
    exists (m1 ++ m2). by rewrite app_assoc.
Qed.

(** The transaction keeps what the tables hold, and its answer is that of a
    commit in the log. *)
Lemma commit_held log t f c t' r :
  holds grant_entry entry_chain log t → well_formed grant_entry entry_chain c → commit_locked_head f c t = (t', r) →
  ∃ more, holds grant_entry entry_chain (log ++ more) t' ∧ ∀ st, r = Ok st → answers (log ++ more) c st.
Proof.
  intros H Hwf. unfold commit_locked_head.
  assert (∀ f', (let '(t1, p) := tx_step c Begun t in
      let '(t2, p) := tx_step c p t1 in let '(t3, p) := tx_step c p t2 in let '(t4, p) := tx_step c p t3 in
      (t4, match p with
           | Answered (Ok st) => if cs_new st then match f' with AckLost => Err Repo.Unavailable | _ => Ok st end else Ok st
           | Answered (Err e) => Err e
           | _ => Err Repo.Unavailable
           end)) = (t', r) →
    ∃ more, holds grant_entry entry_chain (log ++ more) t' ∧ ∀ st, r = Ok st → answers (log ++ more) c st) as Hrun.
  { intros f'. destruct (tx_step c Begun t) as [t1 p1] eqn:E1. destruct (tx_step c p1 t1) as [t2 p2] eqn:E2.
    destruct (tx_step c p2 t2) as [t3 p3] eqn:E3. destruct (tx_step c p3 t3) as [t4 p4] eqn:E4. intros [= <- <-].
    destruct (tx_step_ok _ _ log t c Begun t1 p1 H Hwf I E1) as [H1 C1].
    destruct (tx_step_ok _ _ _ _ _ _ _ _ H1 Hwf C1 E2) as [H2 C2].
    destruct (tx_step_ok _ _ _ _ _ _ _ _ H2 Hwf C2 E3) as [H3 C3].
    destruct (tx_step_ok _ _ _ _ _ _ _ _ H3 Hwf C3 E4) as [H4 C4].
    rewrite <- !app_assoc in H4, C4. eexists. split; [exact H4|]. intros st Hst.
    destruct p4 as [| | | |[st'|e]]; try discriminate Hst. cbn in C4.
    destruct (cs_new st'), f'; try discriminate Hst; by injection Hst as <-. }
  destruct f; [exact (Hrun NoFault)| |exact (Hrun AckLost)].
  intros [= <- <-]. exists []. rewrite app_nil_r. done.
Qed.

Lemma rival_keeps r s : sv_calls (rival_act r s) = sv_calls s ∧ (∀ k h, stored s k h → stored (rival_act r s) k h) ∧
  ∀ key, is_staging key → sv_bucket (rival_act r s) !! key = sv_bucket s !! key.
Proof.
  destruct r as [f c|k b]; cbn [rival_act]; [done|].
  destruct (sv_bucket s !! _) eqn:E; [done|]. split_and!; [done| |].
  - intros k' h (b' & Hb & Hh). exists b'. split; [|done]. cbn. rewrite lookup_insert_ne; [done|]. congruence.
  - intros key Hk. cbn. rewrite lookup_insert_ne; [done|]. intros <-. by eapply object_key_not_staging.
Qed.

Lemma rival_tables r s log : rival_ok r → holds grant_entry entry_chain log (sv_tables s) →
  ∃ more, holds grant_entry entry_chain (log ++ more) (sv_tables (rival_act r s)).
Proof.
  destruct r as [f c|k b]; intros Hok H; cbn [rival_act].
  - cbn [sv_tables with_tables]. destruct (commit_locked_head f c (sv_tables s)) as [t r] eqn:E.
    destruct (commit_held _ _ _ _ _ _ H Hok E) as (more & Hm & _). by exists more.
  - exists []. rewrite app_nil_r. by destruct (sv_bucket s !! _).
Qed.

Lemma rivals_keep rivals s : sv_calls (foldl (λ s r, rival_act r s) s rivals) = sv_calls s ∧
  (∀ k h, stored s k h → stored (foldl (λ s r, rival_act r s) s rivals) k h) ∧
  (∀ key, is_staging key → sv_bucket (foldl (λ s r, rival_act r s) s rivals) !! key = sv_bucket s !! key) ∧
  ∀ log, Forall rival_ok rivals → holds grant_entry entry_chain log (sv_tables s) →
    ∃ more, holds grant_entry entry_chain (log ++ more) (sv_tables (foldl (λ s r, rival_act r s) s rivals)).
Proof.
  revert s. induction rivals as [|r rivals IH]; intros s; cbn [foldl].
  { split_and!; [done|done|done|]. intros log _ H. exists []. by rewrite app_nil_r. }
  destruct (rival_keeps r s) as (Ec & Hs & Hk). destruct (IH (rival_act r s)) as (Ec' & Hs' & Hk' & Hl).
  split_and!; [congruence|auto|intros key Hkey; rewrite Hk' by done; auto|].
  intros log [Hr Hrs]%Forall_cons H. destruct (rival_tables r s log Hr H) as [m1 H1].
  destruct (Hl _ Hrs H1) as [m2 H2]. exists (m1 ++ m2). by rewrite app_assoc.
Qed.

Lemma next_call_grows s s' f : next_call s = (s', f) →
  grows s s' ∧ ∀ key, is_staging key → sv_bucket s' !! key = sv_bucket s !! key.
Proof.
  unfold next_call. destruct (sv_calls s) as [|[rivals f'] calls] eqn:E.
  { intros [= <- <-]. split; [reflexivity|done]. }
  intros [= <- <-]. destruct (rivals_keep rivals (with_calls calls s)) as (Ec & Hs & Hk & Hl). split; [|done].
  split; [done|]. unfold calls_ok. rewrite Ec, E. intros [Hr Hc]%Forall_cons. split; [done|]. intros log. by apply Hl.
Qed.

(** *** Code that keeps everything, whatever its state *)

Definition keeps {E A} (m : io E A) : Prop := ∀ s s' r, m s = (s', r) → grows s s'.

Lemma keeps_of {E A} (r : result E A) : keeps (io_of r).
Proof. intros s s' r' [= <- <-]. reflexivity. Qed.

Lemma keeps_ret {E A} (a : A) : keeps (mret a : io E A).
Proof. intros s s' r' [= <- <-]. reflexivity. Qed.

Lemma keeps_bind {E A B} (m : io E A) (k : A → io E B) :
  keeps m → (∀ s s' a, m s = (s', Ok a) → keeps (k a)) → keeps (m ≫= k).
Proof.
  intros Hm Hk s s' r. unfold mbind, io_bind. destruct (m s) as [s1 [a|e]] eqn:Em; intros Hr.
  - etransitivity; [by eapply Hm|by eapply Hk].
  - injection Hr as <- <-. by eapply Hm.
Qed.

Lemma keeps_map_err {E F A} (f : E → F) (m : io E A) : keeps m → keeps (io_map_err f m).
Proof. intros Hm s s' r. unfold io_map_err. destruct (m s) as [s1 r1] eqn:Em. intros [= <- <-]. by eapply Hm. Qed.

Lemma keeps_ignore {E F A} (m : io E A) : keeps m → keeps (io_ignore m : io F unit).
Proof. intros Hm s s' r. unfold io_ignore. destruct (m s) as [s1 r1] eqn:Em. intros [= <- <-]. by eapply Hm. Qed.

Lemma keeps_try {E F A} (m : io E A) : keeps m → keeps (io_try m : io F (result E A)).
Proof. intros Hm s s' r. unfold io_try. destruct (m s) as [s1 r1] eqn:Em. intros [= <- <-]. by eapply Hm. Qed.

Lemma keeps_read {E A} (e : E) (f : Server → result E A) : keeps (read_request e f).
Proof.
  intros s s' r. unfold read_request. destruct (next_call s) as [s1 fault] eqn:En.
  apply next_call_grows in En as [Hg _]. by destruct fault; intros [= <- <-].
Qed.

Lemma keeps_write {E} (e : E) (f : Server → result E Server) :
  (∀ s s', f s = Ok s' → grows s s') → keeps (write_request e f).
Proof.
  intros Hf s s' r. unfold write_request. destruct (next_call s) as [s1 fault] eqn:En.
  apply next_call_grows in En as [Hg _]. destruct fault; [|by intros [= <- <-]|];
    (destruct (f s1) as [s2|e'] eqn:Ef; intros [= <- <-]; [etransitivity; [exact Hg|by apply Hf]|done]).
Qed.

Lemma keeps_clock {E} : keeps (clock_now : io E UnixMillis).
Proof. intros s s' r [= <- <-]. split; [done|]. intros Hc. split; [done|]. intros log H. exists []. by rewrite app_nil_r. Qed.

Lemma keeps_record event : keeps (sink_record event).
Proof.
  apply keeps_write. intros s s' [= <-]. split; [done|]. intros Hc. split; [done|]. intros log H. exists []. by rewrite app_nil_r.
Qed.

Lemma grows_bucket s m : (∀ k h, stored s k h → stored (with_bucket m s) k h) → grows s (with_bucket m s).
Proof. intros Hs. split; [done|]. intros Hc. split; [done|]. intros log H. exists []. by rewrite app_nil_r. Qed.

Lemma keeps_put key bytes : is_staging key → keeps (put_object key bytes).
Proof.
  intros Hk. apply keeps_write. intros s s' [= <-]. apply grows_bucket. intros k h (b & Hb & Hh). exists b. split; [|done].
  cbn. rewrite lookup_insert_ne; [done|]. intros ->. by eapply object_key_not_staging.
Qed.

Lemma keeps_delete key : is_staging key → keeps (delete_object key).
Proof.
  intros Hk. apply keeps_write. intros s s' [= <-]. apply grows_bucket. intros k h (b & Hb & Hh). exists b. split; [|done].
  cbn. rewrite lookup_delete_ne; [done|]. intros ->. by eapply object_key_not_staging.
Qed.

Lemma keeps_upload : keeps upload_request.
Proof. apply keeps_write. intros s s' [= <-]. reflexivity. Qed.

Lemma keeps_staging_key k : keeps (staging_key k).
Proof. intros s s' r [= <- <-]. split; [done|]. intros Hc. split; [done|]. intros log H. exists []. by rewrite app_nil_r. Qed.

Ltac keep_step :=
  lazymatch goal with
  | |- keeps (mbind _ _) => apply keeps_bind; [|intros ?s ?s' ?a ?E]
  | |- keeps (mret _) => apply keeps_ret
  | |- keeps (io_of _) => apply keeps_of
  | |- keeps (io_map_err _ _) => apply keeps_map_err
  | |- keeps (io_ignore _) => apply keeps_ignore
  | |- keeps (io_try _) => apply keeps_try
  | |- keeps (read_request _ _) => apply keeps_read
  | |- keeps (sink_record _) => apply keeps_record
  | |- keeps clock_now => apply keeps_clock
  | |- keeps upload_request => apply keeps_upload
  | |- keeps (write_request _ Ok) => apply keeps_upload
  | |- keeps (staging_key _) => apply keeps_staging_key
  | |- keeps (if ?b then _ else _) => destruct b eqn:?
  | |- keeps (match ?x with _ => _ end) => destruct x eqn:?
  end.
Ltac keep := repeat first [keep_step | assumption].

Lemma keeps_upload_part parts payload : keeps (upload_part parts payload).
Proof. unfold upload_part. keep. Qed.

Lemma keeps_upload_full fuel parts buffer : keeps (upload_full fuel parts buffer).
Proof.
  revert parts buffer. induction fuel as [|fuel IH]; intros parts buffer; cbn [upload_full]; keep; [|apply IH].
  apply keeps_upload_part.
Qed.

Lemma keeps_stream_chunks prefix limit m body : keeps (stream_chunks prefix limit m body).
Proof.
  revert m. induction body as [|chunk body IH]; intros m; cbn [stream_chunks]; keep; [|apply IH]. apply keeps_upload_full.
Qed.

Lemma keeps_stream k body limit key : is_staging key → keeps (stream_into_parts k body limit key).
Proof.
  intros Hk. unfold stream_into_parts. keep; [apply keeps_stream_chunks|apply keeps_upload_part|by apply keeps_put].
Qed.

Lemma staging_key_staging k s s' key : staging_key k s = (s', Ok key) → is_staging key.
Proof. intros [= <- <-]. by eexists. Qed.

Lemma keeps_stage k body limit : keeps (stage_stream k body limit).
Proof.
  unfold stage_stream, begin_object_write. keep. apply keeps_stream. by eapply staging_key_staging.
Qed.

(** *** What staging answers *)

Lemma io_bind_Ok {E A B} (m : io E A) (k : A → io E B) s s' b :
  (m ≫= k) s = (s', Ok b) → ∃ s1 a, m s = (s1, Ok a) ∧ k a s1 = (s', Ok b).
Proof. unfold mbind, io_bind. destruct (m s) as [s1 [a|e]]; [|done]. by exists s1, a. Qed.

Lemma io_of_Ok {E A} (r : result E A) s s' a : io_of r s = (s', Ok a) → s' = s ∧ r = Ok a.
Proof. by intros [= <- ->]. Qed.

Lemma io_map_err_Ok {E F A} (f : E → F) (m : io E A) s s' a : io_map_err f m s = (s', Ok a) → m s = (s', Ok a).
Proof. unfold io_map_err. destruct (m s) as [s1 [x|e]]; cbn; congruence. Qed.

Lemma upload_part_Ok parts payload s s' parts' :
  upload_part parts payload s = (s', Ok parts') → parts' = parts ++ [payload].
Proof.
  unfold upload_part. destruct (_ >? _); [by intros (_ & ?)%io_of_Ok|].
  intros (s1 & [] & _ & H)%io_bind_Ok. by injection H.
Qed.

Lemma upload_full_Ok fuel parts buffer s s' parts' buffer' :
  upload_full fuel parts buffer s = (s', Ok (parts', buffer')) → concat parts' ++ buffer' = concat parts ++ buffer.
Proof.
  revert parts buffer s. induction fuel as [|fuel IH]; intros parts buffer s; cbn [upload_full]; [by intros [= <- <- <-]|].
  destruct (_ >=? _); [|by intros [= <- <- <-]]. intros (s1 & p1 & Hp & H)%io_bind_Ok. apply upload_part_Ok in Hp as ->.
  apply IH in H as ->. rewrite concat_app. cbn [concat]. rewrite app_nil_r, <- app_assoc. by rewrite take_drop.
Qed.

(** What was read of a body is in the parts and the buffer. *)
Definition streamed_ok (m : Streamed) : Prop :=
  concat (sm_parts m) ++ sm_buffer m = sm_seen m ∧ sm_total m = Z.min u64_max (len (sm_seen m)).

Lemma stream_chunks_Ok prefix limit m body s s' m' :
  stream_chunks prefix limit m body s = (s', Ok m') → streamed_ok m → streamed_ok m' ∧ sm_seen m' = sm_seen m ++ concat body.
Proof.
  revert m s. induction body as [|chunk body IH]; intros m s; cbn [stream_chunks].
  { intros [= <- <-] Hm. cbn [concat]. by rewrite app_nil_r. }
  destruct (_ >? _); [by intros (_ & ?)%io_of_Ok|]. destruct (_ && _); [by intros (_ & ?)%io_of_Ok|].
  intros (s1 & [parts buffer] & Hu & H)%io_bind_Ok [Hm Ht]. apply upload_full_Ok in Hu. apply IH in H as [Hok Hseen].
  - split; [done|]. rewrite Hseen. cbn [sm_seen concat]. by rewrite app_assoc.
  - split; cbn [sm_parts sm_buffer sm_seen sm_total].
    + by rewrite Hu, app_assoc, Hm.
    + rewrite Ht. unfold len. rewrite length_app. lia.
Qed.

Lemma put_object_Ok key bytes s s' : put_object key bytes s = (s', Ok tt) → sv_bucket s' !! key = Some bytes.
Proof.
  unfold put_object, write_request. destruct (next_call s) as [s1 []]; [|done|done]. intros [= <-]. cbn. apply lookup_insert_eq.
Qed.

Lemma stream_into_parts_Ok k body limit key s s' o :
  stream_into_parts k body limit key s = (s', Ok o) →
  o = {| so_kind := k; so_hash := object_hash (concat body); so_size := Z.min u64_max (len (concat body)); so_key := key |} ∧
  sv_bucket s' !! key = Some (concat body).
Proof.
  unfold stream_into_parts. intros (s1 & m & Hm & H)%io_bind_Ok.
  apply stream_chunks_Ok in Hm as [[Hp Ht] Hseen]; [|by split]. cbn [sm_seen app] in Hseen.
  destruct (_ <? _); [by apply io_of_Ok in H as [_ ?]|]. apply io_bind_Ok in H as (s2 & parts & Hparts & H).
  apply io_bind_Ok in H as (s3 & [] & Hput & H). injection H as <- <-. apply put_object_Ok in Hput.
  assert (concat parts = concat body) as E.
  { rewrite <- Hseen, <- Hp. unfold is_empty in Hparts. case_bool_decide as Hb.
    - injection Hparts as _ <-. by rewrite Hb, app_nil_r.
    - apply upload_part_Ok in Hparts as ->. rewrite concat_app. cbn [concat]. by rewrite app_nil_r. }
  rewrite Ht, Hseen, <- E. done.
Qed.

Lemma collect_body_Ok limit exact body bytes : collect_body limit exact body = Ok bytes → bytes = exact ++ concat body.
Proof.
  revert exact. induction body as [|chunk body IH]; intros exact; cbn [collect_body concat].
  { intros [= <-]. by rewrite app_nil_r. }
  destruct (_ || _); [done|]. intros ->%IH. by rewrite app_assoc.
Qed.

Lemma stage_stream_Ok k body limit s s' o :
  stage_stream k body limit s = (s', Ok o) →
  so_kind o = k ∧ so_hash o = object_hash (concat body) ∧ so_size o = Z.min u64_max (len (concat body)) ∧
  is_staging (so_key o) ∧ staged_there s' o.
Proof.
  unfold stage_stream. intros (s1 & body1 & Hb & H)%io_bind_Ok. apply io_bind_Ok in H as (s2 & key & Hk & H).
  apply staging_key_staging in Hk. apply io_bind_Ok in H as (s3 & [] & _ & H). apply io_bind_Ok in H as (s4 & r & Hr & H).
  assert (concat body1 = concat body) as E.
  { destruct (guarded k); [|by injection Hb as _ <-]. apply io_bind_Ok in Hb as (t1 & exact & Hc & Hb).
    apply io_of_Ok in Hc as [_ Hc%collect_body_Ok]. apply io_bind_Ok in Hb as (t2 & e & _ & Hb).
    apply io_bind_Ok in Hb as (t3 & [] & _ & Hb). injection Hb as _ <-. cbn [concat]. by rewrite app_nil_r, Hc. }
  unfold io_try in Hr. destruct (stream_into_parts k body1 limit key s3) as [s5 r'] eqn:Es. injection Hr as <- <-.
  destruct r' as [o'|e].
  - injection H as <- <-. apply stream_into_parts_Ok in Es as [-> Hs]. cbn. rewrite E in *. split_and!; try done.
    exists (concat body). done.
  - apply io_bind_Ok in H as (s6 & [] & _ & H). by apply io_of_Ok in H as [_ ?].
Qed.

(** *** What taking over answers *)

Lemma hex_digit_inj a b : 0 ≤ a < 16 → 0 ≤ b < 16 → byte_of (hex_digit a) = byte_of (hex_digit b) → a = b.
Proof.
  intros Ha Hb H. apply (f_equal u8) in H. rewrite !u8_byte_of in H. unfold hex_digit in H.
  destruct (a <? 10) eqn:Ea, (b <? 10) eqn:Eb; rewrite !Z.mod_small in H by lia; lia.
Qed.

Lemma hex_encode_inj a b : hex_encode a = hex_encode b → a = b.
Proof.
  revert b. induction a as [|x a IH]; intros [|y b]; unfold hex_encode; cbn [flat_map app]; try done. intros [= H1 H2 H].
  pose proof (u8_range x). pose proof (u8_range y).
  assert (∀ n, 0 ≤ n < 256 → 0 ≤ n / 16 < 16 ∧ 0 ≤ n mod 16 < 16) as Hr.
  { intros n Hn. split; [|apply Z.mod_pos_bound; lia]. split; [apply Z.div_pos; lia|apply Z.div_lt_upper_bound; lia]. }
  apply hex_digit_inj in H1, H2; [|by apply Hr..]. f_equal; [|by apply IH].
  apply u8_inj. rewrite (Z.div_mod (u8 x) 16), (Z.div_mod (u8 y) 16) by lia. by rewrite H1, H2.
Qed.

Lemma object_key_inj k h k' h' : object_key k h = object_key k' h' → k = k' ∧ h = h'.
Proof.
  unfold object_key. intros H. apply app_inj_1 in H as [Hk Hh]; [|by destruct k, k'].
  apply app_inv_head, hex_encode_inj in Hh as ->. split; [|done]. by destruct k, k'.
Qed.

Lemma get_object_Ok key s s' b :
  get_object key s = (s', Ok b) → sv_bucket s' !! key = b ∧
    ∀ staging, is_staging staging → sv_bucket s' !! staging = sv_bucket s !! staging.
Proof.
  unfold get_object, read_request. destruct (next_call s) as [s1 f] eqn:En. apply next_call_grows in En as [_ Hk].
  destruct f; intros [= <- <-]. done.
Qed.

Lemma read_staging {E A} (e : E) (f : Server → result E A) s s' r key :
  read_request e f s = (s', r) → is_staging key → sv_bucket s' !! key = sv_bucket s !! key.
Proof.
  unfold read_request. destruct (next_call s) as [s1 fault] eqn:En. apply next_call_grows in En as [_ Hk].
  intros H. assert (s' = s1) as -> by (destruct fault; congruence). apply Hk.
Qed.

Lemma recheck_Ok o s s' :
  is_staging (so_key o) → recheck_staged o s = (s', Ok tt) → staged_there s' o.
Proof.
  intros Hst. unfold recheck_staged. intros (s1 & found & Hg & H)%io_bind_Ok. apply get_object_Ok in Hg as [Hg _].
  apply io_bind_Ok in H as (s2 & exact & He & H). apply io_of_Ok in He as [-> He]. apply ok_or_Ok in He as ->.
  destruct (negb _); [by apply io_of_Ok in H as [_ ?]|]. case_bool_decide as Hh; [by apply io_of_Ok in H as [_ ?]|].
  apply io_bind_Ok in H as (s3 & entry & He & H). apply io_of_Ok in He as [-> _]. apply io_map_err_Ok in H.
  exists exact. split; [|done]. unfold begin_object_write in H. by rewrite (read_staging _ _ _ _ _ _ H Hst).
Qed.

Lemma keeps_recheck o : keeps (recheck_staged o).
Proof. unfold recheck_staged, get_object, begin_object_write. keep. Qed.

Lemma copy_grows o s s' r :
  is_staging (so_key o) → staged_there s o → copy_object (so_key o) (staged_key o) s = (s', r) →
  grows s s' ∧ (r = Ok tt → stored s' (so_kind o) (so_hash o)).
Proof.
  intros Hst (b & Hb & Hh). unfold copy_object, write_request. destruct (next_call s) as [s1 f] eqn:En.
  apply next_call_grows in En as [Hg Hk]. rewrite (Hk _ Hst), Hb. cbn.
  set (s2 := with_bucket _ s1). assert (stored s2 (so_kind o) (so_hash o)) as Hput.
  { exists b. split; [|done]. apply lookup_insert_eq. }
  assert (grows s s2) as Hg2.
  { etransitivity; [exact Hg|]. apply grows_bucket. intros k h (b' & Hb' & Hh').
    destruct (decide (object_key k h = staged_key o)) as [E|E].
    - apply object_key_inj in E as [-> ->]. exact Hput.
    - exists b'. split; [|done]. cbn. by rewrite lookup_insert_ne by congruence. }
  destruct f; intros [= <- <-]; done.
Qed.

Lemma stored_hash_Ok key s s' h : stored_hash key s = (s', Ok h) → ∃ b, sv_bucket s' !! key = Some b ∧ object_hash b = h.
Proof.
  unfold stored_hash. intros (s1 & found & Hg & H)%io_bind_Ok. apply get_object_Ok in Hg as [Hg _].
  apply io_of_Ok in H as [-> H]. destruct found as [b|]; cbn in H; [|done]. injection H as <-. by exists b.
Qed.

Lemma keeps_stored_hash key : keeps (stored_hash key).
Proof. unfold stored_hash, get_object. keep. Qed.

Lemma keeps_discard {E} key : is_staging key → keeps (io_ignore (delete_object key) : io E unit).
Proof. intros Hk. apply keeps_ignore. by apply keeps_delete. Qed.

(** A run of code that keeps everything. *)
Ltac kept H := match type of H with ?m ?s = _ => cut (keeps m); [intros Hkeeps; exact (Hkeeps _ _ _ H)|] end.

Lemma put_existing o bytes s s' r :
  is_staging (so_key o) →
  (conflict ← (if length_proves_conflict (content_length bytes) (so_size o) then mret true else
               h ← stored_hash (staged_key o);
               mret (bool_decide (h ≠ so_hash o)));
   if conflict : bool then
     _ ← record_hash_conflict (staged_key o);
     _ ← io_ignore (E := StoreError) (delete_object (so_key o));
     io_of (Err Obj.HashConflict)
   else
     _ ← io_ignore (E := StoreError) (delete_object (so_key o));
     mret (stored_object o false)) s = (s', r) →
  grows s s' ∧ ∀ x, r = Ok x → stored s' (so_kind o) (so_hash o).
Proof.
  intros Hst Hr. split.
  { kept Hr. unfold record_hash_conflict. keep; [apply keeps_stored_hash|by apply keeps_delete..]. }
  intros x ->. apply io_bind_Ok in Hr as (s1 & conflict & Hc & Hr). destruct conflict.
  { apply io_bind_Ok in Hr as (? & [] & _ & Hr). apply io_bind_Ok in Hr as (? & [] & _ & Hr). by apply io_of_Ok in Hr as [_ ?]. }
  apply io_bind_Ok in Hr as (s2 & [] & Hd & Hr). injection Hr as <- _.
  apply (gr_stored _ _ (keeps_discard _ Hst _ _ _ Hd)). destruct (length_proves_conflict _ _); [done|].
  apply io_bind_Ok in Hc as (s3 & h & Hh & Hc). apply stored_hash_Ok in Hh as (b & Hb & <-). injection Hc as <- Hc.
  apply bool_decide_eq_false in Hc. apply dec_stable in Hc. by exists b.
Qed.

Lemma put_if_absent_spec o s s' r :
  is_staging (so_key o) → guarded (so_kind o) = true ∨ staged_there s o → put_if_absent o s = (s', r) →
  grows s s' ∧ ∀ x, r = Ok x → stored s' (so_kind o) (so_hash o).
Proof.
  intros Hst Hpre. unfold put_if_absent at 1.
  set (first := if guarded (so_kind o) then recheck_staged o else mret tt).
  assert (keeps first) as Hfirst by (unfold first; keep; apply keeps_recheck).
  unfold mbind at 1, io_bind at 1. destruct (first s) as [s1 [[]|e]] eqn:E1; intros Hr.
  2:{ injection Hr as <- <-. split; [by eapply Hfirst|done]. }
  assert (staged_there s1 o) as Hthere.
  { unfold first in E1. destruct (guarded (so_kind o)); [by eapply recheck_Ok|]. injection E1 as <-. by destruct Hpre. }
  enough (grows s1 s' ∧ ∀ x, r = Ok x → stored s' (so_kind o) (so_hash o)) as [Hg Hs].
  { split; [|done]. etransitivity; [by eapply Hfirst|done]. }
  clear E1 Hfirst Hpre. unfold mbind at 1, io_bind at 1 in Hr.
  assert (keeps (get_object (staged_key o))) as Hget by apply keeps_read.
  destruct (get_object (staged_key o) s1) as [s2 [existing|e]] eqn:E2.
  2:{ injection Hr as <- <-. split; [by eapply Hget|done]. }
  enough (grows s2 s' ∧ ∀ x, r = Ok x → stored s' (so_kind o) (so_hash o)) as [Hg Hs].
  { split; [|done]. etransitivity; [by eapply Hget|done]. }
  destruct existing as [bytes|]; [by eapply put_existing|].
  assert (staged_there s2 o) as Hthere2.
  { destruct Hthere as (b & Hb & Hh). exists b. split; [|done]. apply get_object_Ok in E2 as [_ Hk]. by rewrite Hk. }
  unfold mbind at 1, io_bind at 1 in Hr. destruct (copy_object (so_key o) (staged_key o) s2) as [s3 r3] eqn:E3.
  destruct (copy_grows o s2 s3 r3 Hst Hthere2 E3) as [Hg Hs]. destruct r3 as [[]|e].
  2:{ by injection Hr as <- <-. }
  assert (grows s3 s') as Hg'.
  { kept Hr. keep. by apply keeps_delete. }
  split; [by etransitivity|]. intros x ->. apply (gr_stored _ _ Hg'). by apply Hs.
Qed.

(** Staging and taking over at once, as the service does with its own documents. *)
Lemma keeps_directory h : keeps (directory_type_of h).
Proof. apply keeps_read. Qed.

Lemma keeps_get_exact_in k h : keeps (get_exact_in k h).
Proof. unfold get_exact_in, get_object. keep. Qed.

Lemma keeps_get_exact h : keeps (get_exact h).
Proof. unfold get_exact, directory_type_of. keep. apply keeps_get_exact_in. Qed.

(** ** What is recorded *)

(** A call that succeeds records nothing; one that fails records events that
    its error stands for. *)
Definition tells {E A} (stands : E → SecurityEventKindV1 → Prop) (m : io E A) : Prop := ∀ s s' r, m s = (s', r) →
  ∃ l, sv_events s' = sv_events s ++ l ∧
    match r with Ok _ => l = [] | Err e => Forall (λ v, stands e (ev_kind v)) l end.

Lemma rivals_silent rivals s : sv_events (foldl (λ s r, rival_act r s) s rivals) = sv_events s.
Proof.
  revert s. induction rivals as [|r rivals IH]; intros s; cbn [foldl]; [done|]. rewrite IH.
  destruct r; cbn [rival_act]; [done|]. by destruct (sv_bucket s !! _).
Qed.

Lemma next_call_silent s s' f : next_call s = (s', f) → sv_events s' = sv_events s.
Proof.
  unfold next_call. destruct (sv_calls s) as [|[rivals f'] calls]; [by intros [= <- <-]|].
  intros [= <- <-]. by rewrite rivals_silent.
Qed.

Section Tells.
Context {E : Type} (stands : E → SecurityEventKindV1 → Prop).

Lemma tells_silent {A} (m : io E A) : (∀ s s' r, m s = (s', r) → sv_events s' = sv_events s) → tells stands m.
Proof. intros Hm s s' r Hr. exists []. rewrite app_nil_r. split; [by eapply Hm|]. destruct r; [done|constructor]. Qed.

Lemma tells_of {A} (r : result E A) : tells stands (io_of r).
Proof. apply tells_silent. by intros s s' r' [= <- <-]. Qed.

Lemma tells_ret {A} (a : A) : tells stands (mret a : io E A).
Proof. apply tells_silent. by intros s s' r' [= <- <-]. Qed.

Lemma tells_clock : tells stands clock_now.
Proof. apply tells_silent. by intros s s' r' [= <- <-]. Qed.

Lemma tells_read {A} (e : E) (f : Server → result E A) : tells stands (read_request e f).
Proof.
  apply tells_silent. intros s s' r. unfold read_request. destruct (next_call s) as [s1 fault] eqn:En.
  apply next_call_silent in En. by destruct fault; intros [= <- <-].
Qed.

Lemma tells_bind {A B} (m : io E A) (k : A → io E B) : tells stands m → (∀ a, tells stands (k a)) → tells stands (m ≫= k).
Proof.
  intros Hm Hk s s' r. unfold mbind, io_bind. destruct (m s) as [s1 [a|e]] eqn:Em; destruct (Hm _ _ _ Em) as (l & El & Hl).
  - subst l. rewrite app_nil_r in El. intros Hr. rewrite <- El. by apply Hk in Hr.
  - intros [= <- <-]. by exists l.
Qed.

(** A failure that is taken up is answered with an error for it. *)
Lemma tells_handle {F A B} (stands' : F → SecurityEventKindV1 → Prop) (m : io F A) (k : result F A → io E B) :
  tells stands' m → (∀ a, tells stands (k (Ok a))) →
  (∀ e, (∃ f, ∀ s, k (Err e) s = (s, Err f) ∧ ∀ v, stands' e v → stands f v) ∨
        (tells stands (k (Err e)) ∧ ∃ f, (∀ s, (k (Err e) s).2 = Err f) ∧ ∀ v, stands' e v → stands f v)) →
  tells stands (r ← io_try m; k r).
Proof.
  intros Hm Hok Herr s s' r. unfold mbind, io_bind, io_try. destruct (m s) as [s1 [a|e]] eqn:Em;
    destruct (Hm _ _ _ Em) as (l & El & Hl).
  - subst l. rewrite app_nil_r in El. intros Hr. rewrite <- El. by apply Hok in Hr.
  - intros Hr. destruct (Herr e) as [(f & Hf)|(Ht & f & Hf & Hv)].
    + destruct (Hf s1) as [Hf1 Hv]. rewrite Hf1 in Hr. injection Hr as <- <-. exists l. split; [done|].
      eapply Forall_impl; [exact Hl|]. intros v. apply Hv.
    + destruct (Ht _ _ _ Hr) as (l' & El' & Hl'). specialize (Hf s1). rewrite Hr in Hf. cbn in Hf. subst r.
      exists (l ++ l'). rewrite El', El, app_assoc. split; [done|]. apply Forall_app. split; [|done].
      eapply Forall_impl; [exact Hl|]. intros v. apply Hv.
Qed.

Lemma tells_write (e : E) (f : Server → result E Server) :
  (∀ s s', f s = Ok s' → sv_events s' = sv_events s) → tells stands (write_request e f).
Proof.
  intros Hf. apply tells_silent. intros s s' r. unfold write_request. destruct (next_call s) as [s1 fault] eqn:En.
  apply next_call_silent in En. destruct fault; [|by intros [= <- <-]|];
    (destruct (f s1) as [s2|e'] eqn:Ef; intros [= <- <-]; [by rewrite (Hf _ _ Ef)|done]).
Qed.

Lemma tells_map_err {F A} (stands' : F → SecurityEventKindV1 → Prop) (f : F → E) (m : io F A) :
  tells stands' m → (∀ e v, stands' e v → stands (f e) v) → tells stands (io_map_err f m).
Proof.
  intros Hm Hf s s' r. unfold io_map_err. destruct (m s) as [s1 r1] eqn:Em. intros [= <- <-].
  destruct (Hm _ _ _ Em) as (l & El & Hl). exists l. split; [done|]. destruct r1; [done|]. cbn.
  eapply Forall_impl; [exact Hl|]. intros v. apply Hf.
Qed.

(** A dropped outcome of a call that records nothing. *)
Lemma tells_ignore {F A} (stands' : F → SecurityEventKindV1 → Prop) (m : io F A) :
  (∀ e v, ¬ stands' e v) → tells stands' m → tells stands (io_ignore m : io E unit).
Proof.
  intros Hn Hm s s' r. unfold io_ignore. destruct (m s) as [s1 r1] eqn:Em. intros [= <- <-].
  destruct (Hm _ _ _ Em) as (l & El & Hl). exists l. split; [done|]. destruct r1 as [a|e]; [done|].
  destruct l as [|v l]; [done|]. inversion Hl as [|? ? Hv _]; subst. by apply Hn in Hv.
Qed.

(** An event, and then the error that stands for it. *)
Lemma tells_event {A} event (k : io E A) f :
  stands f (ev_kind event) → tells stands k → (∀ s, (k s).2 = Err f) →
  tells stands (_ ← io_ignore (sink_record event); k).
Proof.
  intros Hs Hk Hf s s' r. unfold mbind, io_bind, io_ignore. set (s1 := (sink_record event s).1).
  assert (∃ l, sv_events s1 = sv_events s ++ l ∧ Forall (λ v, stands f (ev_kind v)) l) as (l & El & Hl).
  { unfold s1, sink_record, write_request. destruct (next_call s) as [s2 fault] eqn:En. apply next_call_silent in En.
    destruct fault; cbn; rewrite En; [exists [event]|exists []; rewrite app_nil_r|exists [event]]; (split; [done|by repeat constructor]). }
  intros Hr. destruct (Hk _ _ _ Hr) as (l' & El' & Hl'). specialize (Hf s1). rewrite Hr in Hf. cbn in Hf. subst r.
  exists (l ++ l'). rewrite El', El, app_assoc. split; [done|]. apply Forall_app. done.
Qed.
End Tells.

(** *** The events of the bucket *)

Definition nothing {E} (_ : E) (_ : SecurityEventKindV1) : Prop := False.

Definition store_stands (e : StoreError) (k : SecurityEventKindV1) : Prop := e = Obj.HashConflict ∧ k = Sec.ObjectHashConflict.

Lemma tells_try {E F A} (stands : E → SecurityEventKindV1 → Prop) (m : io F A) :
  tells nothing m → tells stands (io_try m : io E (result F A)).
Proof.
  intros Hm. apply tells_silent. intros s s' r. unfold io_try. destruct (m s) as [s1 r1] eqn:Em. intros [= <- _].
  destruct (Hm _ _ _ Em) as (l & -> & Hl). destruct r1; [by rewrite Hl, app_nil_r|].
  destruct l as [|v l]; [by rewrite app_nil_r|]. by inversion Hl.
Qed.

Lemma tells_delete {E} (stands : E → SecurityEventKindV1 → Prop) key : tells stands (io_ignore (delete_object key)).
Proof. apply (tells_ignore _ nothing); [by intros ? ? []|]. apply tells_write. by intros s s' [= <-]. Qed.

Ltac tell_step :=
  lazymatch goal with
  | |- tells _ (mbind _ _) => apply tells_bind; [|intros ?]
  | |- tells _ (mret _) => apply tells_ret
  | |- tells _ (io_of _) => apply tells_of
  | |- tells _ (read_request _ _) => apply tells_read
  | |- tells _ upload_request => apply tells_write; by intros ? ? [= <-]
  | |- tells _ (put_object _ _) => apply tells_write; by intros ? ? [= <-]
  | |- tells _ (get_object _) => apply tells_read
  | |- tells _ (stored_hash _) => unfold stored_hash
  | |- tells _ (staging_key _) => apply tells_silent; by intros ? ? ? [= <- <-]
  | |- tells _ (io_map_err _ (begin_object_write _)) => apply (tells_map_err _ nothing); [apply tells_read|by intros ? ? []]
  | |- tells _ (if ?b then _ else _) => destruct b eqn:?
  | |- tells _ (match ?x with _ => _ end) => destruct x eqn:?
  end.
Ltac tell := repeat first [tell_step | assumption | apply tells_delete].

Lemma tells_upload_part parts payload : tells nothing (upload_part parts payload).
Proof. unfold upload_part. tell. Qed.

Lemma tells_upload_full fuel parts buffer : tells nothing (upload_full fuel parts buffer).
Proof.
  revert parts buffer. induction fuel as [|fuel IH]; intros parts buffer; cbn [upload_full]; tell; [|apply IH].
  apply tells_upload_part.
Qed.

Lemma tells_stream_chunks prefix limit m body : tells nothing (stream_chunks prefix limit m body).
Proof.
  revert m. induction body as [|chunk body IH]; intros m; cbn [stream_chunks]; tell; [|apply IH]. apply tells_upload_full.
Qed.

Lemma tells_stage k body limit : tells nothing (stage_stream k body limit).
Proof.
  unfold stage_stream. tell.
  - apply tells_try. unfold stream_into_parts. tell; [apply tells_stream_chunks|apply tells_upload_part].
  - apply (tells_ignore _ nothing); [by intros ? ? []|]. apply tells_write. by intros ? ? [= <-].
Qed.

Lemma tells_conflict {A} key (k : io StoreError A) :
  tells store_stands k → (∀ s, (k s).2 = Err Obj.HashConflict) → tells store_stands (_ ← record_hash_conflict key; k).
Proof.
  intros Hk Hf s s' r Hr. set (now := default 0 (head (sv_clock s))).
  apply (tells_event store_stands {| ev_organization := organization; ev_kind := Sec.ObjectHashConflict;
    ev_subject := key; ev_observed := now |} k Obj.HashConflict (conj eq_refl eq_refl) Hk Hf (with_clock (tail (sv_clock s)) s)).
  exact Hr.
Qed.

Lemma tells_put_if_absent o : tells store_stands (put_if_absent o).
Proof.
  unfold put_if_absent, recheck_staged. apply tells_bind; [tell|intros _]. apply tells_bind; [tell|intros existing].
  destruct existing as [bytes|].
  - apply tells_bind; [tell|intros conflict]. destruct conflict; [|tell]. apply tells_conflict; [tell|].
    intros s. done.
  - tell. apply tells_write. intros s s' Hr. apply bind_Ok in Hr as (b & _ & [= <-]). done.
Qed.

Lemma tells_get_exact h : tells nothing (get_exact h).
Proof.
  unfold get_exact, get_exact_in, directory_type_of. tell. apply (tells_map_err _ nothing); [apply tells_read|by intros ? ? []].
Qed.

(** *** The requests a call makes *)

(** Requests take their outcomes from the front, and events are only added. *)
Record went (s s' : Server) : Prop := {
  wt_events : sv_events s `prefix_of` sv_events s';
  wt_calls : sv_calls s' `suffix_of` sv_calls s;
}.

#[export] Instance went_preorder : PreOrder went.
Proof.
  split; [intros s; split; reflexivity|].
  intros s1 s2 s3 [? ?] [? ?]. split; etransitivity; eassumption.
Qed.

Definition forth {E A} (m : io E A) : Prop := ∀ s s' r, m s = (s', r) → went s s'.

Lemma went_same s s' : sv_events s' = sv_events s → sv_calls s' = sv_calls s → went s s'.
Proof. intros E1 E2. split; [by rewrite E1|by rewrite E2]. Qed.

Lemma rivals_calls rivals s : sv_calls (foldl (λ s r, rival_act r s) s rivals) = sv_calls s.
Proof.
  revert s. induction rivals as [|r rivals IH]; intros s; cbn [foldl]; [done|]. rewrite IH.
  destruct r; cbn [rival_act]; [done|]. by destruct (sv_bucket s !! _).
Qed.

(** A request is broken only if its outcome in the list is. *)
Lemma next_call_went s s' f :
  next_call s = (s', f) → went s s' ∧ (f = Broken → ∃ rivals, sv_calls s = (rivals, Broken) :: sv_calls s').
Proof.
  intros H. pose proof (next_call_silent _ _ _ H) as He. revert H. unfold next_call.
  destruct (sv_calls s) as [|[rivals f'] calls] eqn:Ec; intros [= <- <-].
  - split; [reflexivity|done].
  - split; [|intros ->; exists rivals; by rewrite rivals_calls].
    split; [by rewrite He|]. rewrite rivals_calls, Ec. cbn. by exists [(rivals, f')].
Qed.

Lemma forth_bind {E A B} (m : io E A) (k : A → io E B) : forth m → (∀ a, forth (k a)) → forth (m ≫= k).
Proof.
  intros Hm Hk s s' r. unfold mbind, io_bind. destruct (m s) as [s1 [a|e]] eqn:Em; pose proof (Hm _ _ _ Em).
  - intros Hr. etransitivity; [done|by eapply Hk].
  - by intros [= <- <-].
Qed.
Lemma forth_of {E A} (r : result E A) : forth (io_of r).
Proof. intros s s' r' [= <- _]. reflexivity. Qed.
Lemma forth_ret {E A} (a : A) : forth (mret a : io E A).
Proof. intros s s' r' [= <- _]. reflexivity. Qed.
Lemma forth_clock {E} : forth (clock_now : io E _).
Proof. intros s s' r' [= <- _]. by apply went_same. Qed.
Lemma forth_staging_key k : forth (staging_key k).
Proof. intros s s' r' [= <- _]. by apply went_same. Qed.
Lemma forth_read {E A} (e : E) (f : Server → result E A) : forth (read_request e f).
Proof.
  intros s s' r. unfold read_request. destruct (next_call s) as [s1 fault] eqn:En.
  apply next_call_went in En as [? _]. by destruct fault; intros [= <- _].
Qed.
Lemma forth_write {E} (e : E) (f : Server → result E Server) :
  (∀ s s', f s = Ok s' → went s s') → forth (write_request e f).
Proof.
  intros Hf s s' r. unfold write_request. destruct (next_call s) as [s1 fault] eqn:En.
  apply next_call_went in En as [? _]. destruct fault; [|by intros [= <- _]|];
    (destruct (f s1) as [s2|e'] eqn:Ef; intros [= <- _]; [etransitivity; [done|by apply Hf]|done]).
Qed.
Lemma forth_map_err {E F A} (f : E → F) (m : io E A) : forth m → forth (io_map_err f m).
Proof. intros Hm s s' r. unfold io_map_err. destruct (m s) eqn:E1. intros [= <- _]. by eapply Hm. Qed.
Lemma forth_ignore {E F A} (m : io E A) : forth m → forth (io_ignore m : io F unit).
Proof. intros Hm s s' r. unfold io_ignore. destruct (m s) eqn:E1. intros [= <- _]. by eapply Hm. Qed.
Lemma forth_try {E F A} (m : io E A) : forth m → forth (io_try m : io F _).
Proof. intros Hm s s' r. unfold io_try. destruct (m s) eqn:E1. intros [= <- _]. by eapply Hm. Qed.

Lemma forth_upload : forth upload_request.
Proof. apply forth_write. intros s s' [= <-]. reflexivity. Qed.
Lemma forth_put_object key bytes : forth (put_object key bytes).
Proof. apply forth_write. intros s s' [= <-]. by apply went_same. Qed.
Lemma forth_delete_object key : forth (delete_object key).
Proof. apply forth_write. intros s s' [= <-]. by apply went_same. Qed.
Lemma forth_copy_object source target : forth (copy_object source target).
Proof. apply forth_write. intros s s' (b & _ & [= <-])%bind_Ok. by apply went_same. Qed.
Lemma forth_sink event : forth (sink_record event).
Proof. apply forth_write. intros s s' [= <-]. split; [by exists [event]|done]. Qed.

Ltac forth_step :=
  lazymatch goal with
  | |- forth (mbind _ _) => apply forth_bind; [|intros ?]
  | |- forth (mret _) => apply forth_ret
  | |- forth (io_of _) => apply forth_of
  | |- forth (io_map_err _ _) => apply forth_map_err
  | |- forth (io_ignore _) => apply forth_ignore
  | |- forth (io_try _) => apply forth_try
  | |- forth (read_request _ _) => apply forth_read
  | |- forth (get_object _) => apply forth_read
  | |- forth (write_request _ Ok) => apply forth_upload
  | |- forth upload_request => apply forth_upload
  | |- forth (put_object _ _) => apply forth_put_object
  | |- forth (delete_object _) => apply forth_delete_object
  | |- forth (copy_object _ _) => apply forth_copy_object
  | |- forth (sink_record _) => apply forth_sink
  | |- forth (staging_key _) => apply forth_staging_key
  | |- forth clock_now => apply forth_clock
  | |- forth (if ?b then _ else _) => destruct b
  | |- forth (match ?x with _ => _ end) => destruct x
  end.
Ltac forth := repeat first [forth_step | assumption].

Lemma forth_upload_part parts payload : forth (upload_part parts payload).
Proof. unfold upload_part. forth. Qed.
Lemma forth_upload_full fuel parts buffer : forth (upload_full fuel parts buffer).
Proof.
  revert parts buffer. induction fuel as [|fuel IH]; intros parts buffer; cbn [upload_full]; forth; [apply forth_upload_part|apply IH].
Qed.
Lemma forth_stream_chunks prefix limit m body : forth (stream_chunks prefix limit m body).
Proof.
  revert m. induction body as [|chunk body IH]; intros m; cbn [stream_chunks]; forth; [apply forth_upload_full|apply IH].
Qed.
Lemma forth_stage k body limit : forth (stage_stream k body limit).
Proof.
  unfold stage_stream, begin_object_write, stream_into_parts. forth; [apply forth_stream_chunks|apply forth_upload_part].
Qed.
Lemma forth_put_if_absent o : forth (put_if_absent o).
Proof.
  unfold put_if_absent, recheck_staged, begin_object_write, stored_hash, record_hash_conflict. forth.
Qed.
Lemma forth_get_exact h : forth (get_exact h).
Proof. unfold get_exact, get_exact_in, directory_type_of. forth. Qed.

(** The sink keeps an event unless its request is broken. *)
Lemma sink_keeps event s :
  let s' := (sink_record event s).1 in
  event ∈ drop (length (sv_events s)) (sv_events s') ∨
  ∃ rivals, sv_calls s = (rivals, Broken) :: sv_calls s'.
Proof.
  unfold sink_record, write_request. destruct (next_call s) as [s1 fault] eqn:En.
  pose proof (next_call_silent _ _ _ En) as He. apply next_call_went in En as [_ Hb].
  destruct fault; cbn; [left|right; by apply Hb|left]; rewrite He, drop_app_length; constructor.
Qed.
End Adapter.

(** The same steps for code of other files. *)
Ltac keep_step :=
  lazymatch goal with
  | |- keeps _ _ _ (mbind _ _) => apply keeps_bind; [|intros ?s ?s' ?a ?E]
  | |- keeps _ _ _ (mret _) => apply keeps_ret
  | |- keeps _ _ _ (io_of _) => apply keeps_of
  | |- keeps _ _ _ (io_map_err _ _) => apply keeps_map_err
  | |- keeps _ _ _ (io_ignore _) => apply keeps_ignore
  | |- keeps _ _ _ (io_try _) => apply keeps_try
  | |- keeps _ _ _ (read_request _ _ _) => apply keeps_read
  | |- keeps _ _ _ (sink_record _ _) => apply keeps_record
  | |- keeps _ _ _ clock_now => apply keeps_clock
  | |- keeps _ _ _ (if ?b then _ else _) => destruct b eqn:?
  | |- keeps _ _ _ (match ?x with _ => _ end) => destruct x eqn:?
  end.
Ltac keep := repeat first [keep_step | assumption].

Ltac tell_step :=
  lazymatch goal with
  | |- tells _ (mbind _ _) => apply tells_bind; [|intros ?]
  | |- tells _ (mret _) => apply tells_ret
  | |- tells _ (io_of _) => apply tells_of
  | |- tells _ clock_now => apply tells_clock
  | |- tells _ (read_request _ _ _) => apply tells_read
  | |- tells _ (if ?b then _ else _) => destruct b eqn:?
  | |- tells _ (match ?x with _ => _ end) => destruct x eqn:?
  end.
Ltac tell := repeat first [tell_step | assumption].

Ltac forth_step :=
  lazymatch goal with
  | |- forth (mbind _ _) => apply forth_bind; [|intros ?]
  | |- forth (mret _) => apply forth_ret
  | |- forth (io_of _) => apply forth_of
  | |- forth (io_map_err _ _) => apply forth_map_err
  | |- forth (io_ignore _) => apply forth_ignore
  | |- forth (io_try _) => apply forth_try
  | |- forth (read_request _ _ _) => apply forth_read
  | |- forth (sink_record _ _) => apply forth_sink
  | |- forth clock_now => apply forth_clock
  | |- forth (if ?b then _ else _) => destruct b
  | |- forth (match ?x with _ => _ end) => destruct x
  end.
Ltac forth := repeat first [forth_step | assumption].
