(* ===== verification/CommitChecks.v ===== *)
(** * CommitChecks: what the server checks and signs for a commit ([ea-sync-server])

    The request of a commit ([ea-sync-protocol]), the checks of [validation.rs],
    the receipt of [receipt.rs] and the checkpoint of [checkpoint.rs] with their
    encodings ([ea-format], [esr.rs] and [ecp.rs]), and the errors of the commit
    service with their codes and statuses.

    Parser, digests and signatures are parameters. *)

From S2P Require Import Prelude Types Utf8 Cbor Str Profile ImportReport OperatorSession Inventory GrantPlan ServerDb ObjectStore.
Import Fmt(FormatError) Repo(RepositoryError) Ot(ObjectTypeV1) Gp(GrantPurposeV1) Obj(StoreError).

(** ** Errors *)

Module Cv.
Inductive CommitValidationError :=
| ObjectFamily | EntryInvalid | OrganizationMismatch | ChainMismatch | WriterUnauthorized | WriterRevoked
| WriterSignature | WriterTransitionMismatch | SuiteUnsupported | RegistryMismatch | GrantPlanMismatch
| GrantSetIncomplete | GrantInvalid | GrantSignature.

Definition validation_error_code (e : CommitValidationError) : string :=
  match e with
  | ObjectFamily => "EA-COMMIT-OBJECT-FAMILY"
  | EntryInvalid => "EA-COMMIT-ENTRY-INVALID"
  | OrganizationMismatch => "EA-COMMIT-ORGANIZATION"
  | ChainMismatch => "EA-COMMIT-CHAIN"
  | WriterUnauthorized => "EA-COMMIT-WRITER-UNAUTHORIZED"
  | WriterRevoked => "EA-COMMIT-WRITER-REVOKED"
  | WriterSignature => "EA-COMMIT-WRITER-SIGNATURE"
  | WriterTransitionMismatch => "EA-COMMIT-WRITER-TRANSITION"
  | SuiteUnsupported => "EA-COMMIT-SUITE"
  | RegistryMismatch => "EA-COMMIT-REGISTRY"
  | GrantPlanMismatch => "EA-COMMIT-GRANT-PLAN"
  | GrantSetIncomplete => "EA-COMMIT-GRANT-SET"
  | GrantInvalid => "EA-COMMIT-GRANT-INVALID"
  | GrantSignature => "EA-COMMIT-GRANT-SIGNATURE"
  end.

Definition is_writer_violation (e : CommitValidationError) : bool :=
  match e with WriterUnauthorized | WriterRevoked | WriterSignature => true | _ => false end.
End Cv.
Import Cv(CommitValidationError, is_writer_violation).

Module Rcp.
Inductive ReceiptError := GrantHashes | EvidenceOverflow | Shape | Signature | ReadBack.

Definition receipt_error_code (e : ReceiptError) : string :=
  match e with
  | GrantHashes => "EA-RECEIPT-GRANT-HASHES"
  | EvidenceOverflow => "EA-RECEIPT-EVIDENCE-OVERFLOW"
  | Shape => "EA-RECEIPT-SHAPE"
  | Signature => "EA-RECEIPT-SIGNATURE"
  | ReadBack => "EA-RECEIPT-READ-BACK"
  end.

Definition receipt_of_format (e : FormatError) : ReceiptError :=
  match e with Fmt.Duplicate | Fmt.Unsorted => GrantHashes | Fmt.Cose => Signature | _ => Shape end.
End Rcp.
Import Rcp(ReceiptError).

Module Cpt.
Inductive CheckpointError := Shape | Signature | ReadBack | PredecessorConflict.

Definition checkpoint_error_code (e : CheckpointError) : string :=
  match e with
  | Shape => "EA-CHECKPOINT-SHAPE"
  | Signature => "EA-CHECKPOINT-SIGNATURE"
  | ReadBack => "EA-CHECKPOINT-READ-BACK"
  | PredecessorConflict => "EA-CHECKPOINT-PREDECESSOR-CONFLICT"
  end.

Definition checkpoint_http_status (e : CheckpointError) : Z := match e with PredecessorConflict => 409 | _ => 500 end.

Definition checkpoint_of_format (e : FormatError) : CheckpointError := match e with Fmt.Cose => Signature | _ => Shape end.
End Cpt.
Import Cpt(CheckpointError).

Inductive AuthorityError := AuthorityUnavailable | AuthorityStateConflict.

Module Svc.
(** Of the protocol errors the service only raises the limit of a body. *)
Inductive CommitServiceError :=
| Validation (e : CommitValidationError) | Receipt (e : ReceiptError) | Checkpoint (e : CheckpointError)
| IdentityConflict | SequenceFork | PredecessorMismatch | HeadConflict | ObjectConflict | RegistryHeadRequired
| NoApplicableRegistryHead | StateConflict | DependencyUnavailable | Internal | BodyLimit.

Definition service_error_code (e : CommitServiceError) : string :=
  match e with
  | Validation e => Cv.validation_error_code e
  | Receipt e => Rcp.receipt_error_code e
  | Checkpoint e => Cpt.checkpoint_error_code e
  | IdentityConflict => "EA-COMMIT-IDENTITY-CONFLICT"
  | SequenceFork => "EA-COMMIT-SEQUENCE-FORK"
  | PredecessorMismatch => "EA-COMMIT-PREDECESSOR"
  | HeadConflict => "EA-COMMIT-HEAD-CONFLICT"
  | ObjectConflict => "EA-COMMIT-OBJECT-CONFLICT"
  | RegistryHeadRequired => "EA-COMMIT-REGISTRY-HEAD-REQUIRED"
  | NoApplicableRegistryHead => "EA-COMMIT-NO-REGISTRY-HEAD"
  | StateConflict => "EA-TRUST-STATE-CONFLICT"
  | DependencyUnavailable => "EA-COMMIT-DEPENDENCY-UNAVAILABLE"
  | Internal => "EA-COMMIT-INTERNAL"
  | BodyLimit => "EA-SYNC-BODY-LIMIT"
  end.

Definition commit_http_status (e : CommitServiceError) : Z :=
  match e with
  | Validation Cv.WriterUnauthorized | Validation Cv.WriterRevoked | Validation Cv.RegistryMismatch
  | IdentityConflict | SequenceFork | PredecessorMismatch | HeadConflict | ObjectConflict | RegistryHeadRequired => 409
  | Checkpoint e => Cpt.checkpoint_http_status e
  | Validation Cv.OrganizationMismatch => 403
  | Validation _ | NoApplicableRegistryHead | Receipt Rcp.EvidenceOverflow => 422
  | Receipt _ | Internal => 500
  | StateConflict | DependencyUnavailable => 503
  | BodyLimit => 413
  end.

Definition of_store (e : StoreError) : CommitServiceError :=
  match e with
  | Obj.HashConflict => ObjectConflict
  | Obj.ObjectTypeMismatch => Validation Cv.ObjectFamily
  | Obj.LimitExceeded => BodyLimit
  | Obj.NotFound => Receipt Rcp.ReadBack
  | Obj.Unavailable => DependencyUnavailable
  end.

Definition of_repository (e : RepositoryError) : CommitServiceError :=
  match e with
  | Repo.HeadConflict => HeadConflict
  | Repo.CommitIdentityConflict => IdentityConflict
  | Repo.RequestIdReplay => Internal
  | Repo.CheckpointPredecessorConflict => Checkpoint Cpt.PredecessorConflict
  | Repo.Unavailable => DependencyUnavailable
  end.

Definition of_authority (e : AuthorityError) : CommitServiceError :=
  match e with AuthorityUnavailable => DependencyUnavailable | AuthorityStateConflict => StateConflict end.
End Svc.
Import Svc(CommitServiceError).

Record CommitFailure := {
  cf_error : CommitServiceError;
  cf_required_version : option Z;
  cf_required_head : option ObjectHash;
}.

Definition failure (e : CommitServiceError) : CommitFailure :=
  {| cf_error := e; cf_required_version := None; cf_required_head := None |}.

Definition requiring_head (e : CommitServiceError) (version : Z) (head_hash : ObjectHash) : CommitFailure :=
  {| cf_error := e; cf_required_version := Some version; cf_required_head := Some head_hash |}.

(** ** What the registry gives ([ports.rs]) *)

Record PolicyFieldsV1 := {
  pf_operating_profile : Z;
  pf_evidence_max_delay_ms : Z;
  pf_suites : list str;
  pf_format_versions : list Z;
}.

Record DeviceCertificateFieldsV1 := {
  dc_device : DeviceId;
  dc_kind : CertificateKindV1;
  dc_kem_thumbprint : option Hash32;
}.

Record EffectiveWriterTransitionV1 := {
  wt_object : ObjectHash;
  wt_old : CertificateHash;
  wt_new : CertificateHash;
  wt_from : ChainSequence;
  wt_previous : EntryHash;
}.

Record ActiveRegistryHeadV1 := {
  ah_version : Z;
  ah_hash : ObjectHash;
  ah_chain : ChainId;
  ah_policy_hash : ObjectHash;
  ah_policy : PolicyFieldsV1;
  ah_certificates : list (CertificateHash * DeviceCertificateFieldsV1);
  ah_transition : option EffectiveWriterTransitionV1;
}.

Inductive RegistryHeadSelectionV1 :=
| Selected (head : ActiveRegistryHeadV1)
| PendingFuture (version : Z) (head_hash : ObjectHash)
| NoApplicableHead.

(** ** The request ([ea-sync-protocol], [commit.rs]) *)

Record EntryCommitIdentity := {
  ei_entry_hash : EntryHash;
  ei_entry_object : ObjectHash;
  ei_plan : Hash32;
  ei_grants : list ObjectHash;
}.

Record EntryCommitRequestV1 := {
  rq_entry : list byte;
  rq_plan : GrantPlanV1;
  rq_grants : list (list byte);
  rq_identity : EntryCommitIdentity;
}.

Module Sp.
Inductive SyncProtocolError := FrameShape | BodyLimit | ItemLimit | GrantLimit | DuplicateObject | FromFormat (e : FormatError).
End Sp.
Import Sp(SyncProtocolError).

Definition EIP_MAX_RAW_BYTES_V1 : Z := 2097152.
Definition ESR_MAX_RAW_BYTES_V1 : Z := 65536.
Definition ECP_MAX_RAW_BYTES_V1 : Z := 4194304.
Definition MAX_ENTRY_OBJECT_BYTES_V1 : Z := EIP_MAX_RAW_BYTES_V1.
Definition MAX_GRANT_OBJECT_BYTES_V1 : Z := 2 * 1024.
Definition MAX_GRANT_PLAN_ITEMS_V1 : Z := 10000.
Definition MAX_ENTRY_COMMIT_BODY_BYTES_V1 : Z := 24 * 1024 * 1024.

Definition encode_request (entry : list byte) (plan : GrantPlanV1) (grants : list (list byte)) : list byte :=
  cbor_array 5 ++ cbor_u64 1 ++ cbor_bytes entry ++ gp_exact plan ++ cbor_array (len grants)
  ++ flat_map cbor_bytes grants ++ cbor_array 0.

Section Request.
Context (decode_exact_object : list byte → result FormatError Object).

Fixpoint hash_grants (grants : list (list byte)) : result SyncProtocolError (list (ObjectHash * list byte)) :=
  match grants with
  | [] => Ok []
  | grant :: grants =>
      match decode_exact_object grant with
      | Ok (Grant parsed) => rest ← hash_grants grants; Ok ((p_object_hash parsed, grant) :: rest)
      | Ok _ => Err Sp.FrameShape
      | Err e => Err (Sp.FromFormat e)
      end
  end.

(** [EntryCommitRequestV1::new]. *)
Definition EntryCommitRequestV1_new (entry_bytes : list byte) (plan : GrantPlanV1) (grant_bytes : list (list byte))
    : result SyncProtocolError EntryCommitRequestV1 :=
  if len entry_bytes >? MAX_ENTRY_OBJECT_BYTES_V1 then Err Sp.BodyLimit else
  if is_empty grant_bytes then Err Sp.FrameShape else
  if (len grant_bytes >? MAX_GRANT_PLAN_ITEMS_V1) || (len (gp_items plan) >? MAX_GRANT_PLAN_ITEMS_V1)
  then Err Sp.ItemLimit else
  if existsb (λ g, len g >? MAX_GRANT_OBJECT_BYTES_V1) grant_bytes then Err Sp.GrantLimit else
  match decode_exact_object entry_bytes with
  | Err e => Err (Sp.FromFormat e)
  | Ok (Entry entry) =>
      hashed ← hash_grants grant_bytes;
      let hashed := sort_by_key fst hashed in
      if existsb (λ p, bool_decide (p.1.1 = p.2.1)) (windows2 hashed) then Err Sp.DuplicateObject else
      let identity := {| ei_entry_hash := ep_entry_hash (value entry); ei_entry_object := p_object_hash entry;
                         ei_plan := gp_hash plan; ei_grants := fst <$> hashed |} in
      let sorted := snd <$> hashed in
      if len (encode_request entry_bytes plan sorted) >? MAX_ENTRY_COMMIT_BODY_BYTES_V1 then Err Sp.BodyLimit else
      Ok {| rq_entry := entry_bytes; rq_plan := plan; rq_grants := sorted; rq_identity := identity |}
  | Ok _ => Err Sp.FrameShape
  end.
End Request.

(** ** Receipts ([receipt.rs], [ea-format] [esr.rs]) *)

Definition EVIDENCE_GRADE_OPERATING_PROFILE_V1 : Z := 1.

Definition accepted_at (server_now : UnixMillis) (predecessor : option UnixMillis) : UnixMillis :=
  match predecessor with
  | Some previous => if previous >? server_now then previous else server_now
  | None => server_now
  end.

Definition evidence_due_at (policy : PolicyFieldsV1) (accepted : UnixMillis) : result ReceiptError (option UnixMillis) :=
  if negb (pf_operating_profile policy =? EVIDENCE_GRADE_OPERATING_PROFILE_V1) then Ok None else
  if pf_evidence_max_delay_ms policy >? i64_max then Err Rcp.EvidenceOverflow else
  due ← ok_or Rcp.EvidenceOverflow (checked_add i64_max accepted (pf_evidence_max_delay_ms policy));
  Ok (Some due).

Definition sorted_grant_object_hashes (hashes : list ObjectHash) : result ReceiptError (list ObjectHash) :=
  if is_empty hashes then Err Rcp.GrantHashes else
  let sorted := sort_by_key id hashes in
  if existsb (λ p, bool_decide (p.1 = p.2)) (windows2 sorted) then Err Rcp.GrantHashes else Ok sorted.

Record ReceiptCoreFieldsV1 := {
  rf_organization : OrganizationId;
  rf_chain : ChainId;
  rf_sequence : ChainSequence;
  rf_entry_hash : EntryHash;
  rf_entry_object : ObjectHash;
  rf_previous : option EntryHash;
  rf_registry_version : Z;
  rf_registry_head : Hash32;
  rf_policy : ObjectHash;
  rf_plan : Hash32;
  rf_grants : list ObjectHash;
  rf_accepted : UnixMillis;
  rf_due : option UnixMillis;
  rf_thumbprint : Hash32;
  rf_certificate : CertificateHash;
}.

Fixpoint strictly_ascending (hashes : list ObjectHash) : result FormatError unit :=
  match hashes with
  | a :: ((b :: _) as rest) =>
      match @cmp Hash32 _ a b with
      | Lt => strictly_ascending rest
      | Eq => Err Fmt.Duplicate
      | Gt => Err Fmt.Unsorted
      end
  | _ => Ok tt
  end.

Definition validate_receipt_fields (f : ReceiptCoreFieldsV1) : result FormatError unit :=
  if is_empty (rf_grants f) || Bool.eqb (rf_sequence f =? 0) (bool_decide (is_Some (rf_previous f)))
  then Err Fmt.Shape else strictly_ascending (rf_grants f).

Definition optional_hash (h : option Hash32) : list byte := match h with Some h => cbor_bytes h | None => cbor_null end.

Definition encode_receipt_core (f : ReceiptCoreFieldsV1) : list byte :=
  cbor_array 17 ++ cbor_u64 1 ++ cbor_bytes (rf_organization f) ++ cbor_bytes (rf_chain f) ++ cbor_u64 (rf_sequence f)
  ++ cbor_bytes (rf_entry_hash f) ++ cbor_bytes (rf_entry_object f) ++ optional_hash (rf_previous f)
  ++ cbor_u64 (rf_registry_version f) ++ cbor_bytes (rf_registry_head f) ++ cbor_bytes (rf_policy f)
  ++ cbor_bytes (rf_plan f) ++ cbor_array (len (rf_grants f)) ++ flat_map cbor_bytes (rf_grants f)
  ++ cbor_i64 (rf_accepted f) ++ match rf_due f with Some v => cbor_i64 v | None => cbor_null end
  ++ cbor_bytes (rf_thumbprint f) ++ cbor_bytes (rf_certificate f) ++ cbor_array 0.

(** [wrap_object] and [encode_object] ([object.rs], [parser.rs]). *)
Definition wrap_object (code : byte) (body : list byte) : list byte :=
  [x85; x44; x45; x41; x31; x00; code; x01; x80] ++ body.

Definition EAG_MAX_RAW_BYTES_V1 : Z := 65536.
Definition ETB_MAX_RAW_BYTES_V1 : Z := 4194304.
Definition EDS_MAX_RAW_BYTES_V1 : Z := 262144.

Definition family_limit (code : Z) : option (Z * FormatError) :=
  if code =? 1 then Some (EIP_MAX_RAW_BYTES_V1, Fmt.EipRawLimit) else
  if code =? 2 then Some (EAG_MAX_RAW_BYTES_V1, Fmt.EagRawLimit) else
  if code =? 3 then Some (ESR_MAX_RAW_BYTES_V1, Fmt.EsrRawLimit) else
  if code =? 4 then Some (ECP_MAX_RAW_BYTES_V1, Fmt.EcpRawLimit) else
  if code =? 5 then Some (ETB_MAX_RAW_BYTES_V1, Fmt.EtbRawLimit) else
  if code =? 6 then Some (EDS_MAX_RAW_BYTES_V1, Fmt.EdsRawLimit) else None.

(** [nfc] is the normal form that [Cbor.validate] asks for; that function never
    runs out of fuel. *)
Definition encode_object (nfc : list Z → list Z) (code : Z) (body : list byte) : result FormatError (list byte) :=
  raw_length ← ok_or Fmt.GlobalRawLimit (checked_add usize_max 9 (len body));
  if raw_length >? MAX_ARCHIVE_OBJECT_BYTES_V1 then Err Fmt.GlobalRawLimit else
  '(limit, error) ← ok_or Fmt.Prefix (family_limit code);
  if raw_length >? limit then Err error else
  let exact := wrap_object (byte_of code) body in
  match validate nfc exact V1 with
  | Ok _ => Ok exact
  | Err (Fault e) => Err (Fmt.Cbor e)
  | Err OutOfFuel => Err Fmt.Shape
  end.

(** [ServerSigner] and the checks that a signature covers its core. *)
Class Signer := {
  signer_thumbprint : Hash32;
  signer_certificate : CertificateHash;
  sign_receipt : list byte → option (list byte);
  sign_checkpoint : list byte → option (list byte);
  (** [parse_cose_sign1] with the comparison of digest, key and certificate *)
  receipt_signature_binds : list byte → list byte → bool;
  (** [validate_unsigned_protocol_core] *)
  checkpoint_core_valid : list byte → bool;
  (** [decode_standard] of core and signature *)
  checkpoint_signature_binds : list byte → list byte → result FormatError unit;
}.

Record ReceiptBindingV1 := {
  rb_organization : OrganizationId;
  rb_chain : ChainId;
  rb_sequence : ChainSequence;
  rb_entry_hash : EntryHash;
  rb_entry_object : ObjectHash;
  rb_previous : option EntryHash;
  rb_registry_version : Z;
  rb_registry_head : Hash32;
  rb_policy : ObjectHash;
  rb_plan : Hash32;
  rb_grants : list ObjectHash;
}.

Record ReceiptV1 := { rv_fields : ReceiptCoreFieldsV1; rv_body : list byte }.

Section Documents.
Context `{Signer} (nfc : list Z → list Z).

Definition ReceiptV1_new (f : ReceiptCoreFieldsV1) (signature : list byte) : result FormatError ReceiptV1 :=
  let core := encode_receipt_core f in
  if negb (receipt_signature_binds core signature) then Err Fmt.Cose else
  Ok {| rv_fields := f; rv_body := cbor_array 2 ++ core ++ signature |}.

Definition build_receipt (b : ReceiptBindingV1) (policy : PolicyFieldsV1) (accepted : UnixMillis)
    : result ReceiptError ReceiptV1 :=
  grants ← sorted_grant_object_hashes (rb_grants b);
  due ← evidence_due_at policy accepted;
  let f := {| rf_organization := rb_organization b; rf_chain := rb_chain b; rf_sequence := rb_sequence b;
              rf_entry_hash := rb_entry_hash b; rf_entry_object := rb_entry_object b; rf_previous := rb_previous b;
              rf_registry_version := rb_registry_version b; rf_registry_head := rb_registry_head b;
              rf_policy := rb_policy b; rf_plan := rb_plan b; rf_grants := grants; rf_accepted := accepted;
              rf_due := due; rf_thumbprint := signer_thumbprint; rf_certificate := signer_certificate |} in
  _ ← map_err Rcp.receipt_of_format (validate_receipt_fields f);
  signature ← ok_or Rcp.Signature (sign_receipt (encode_receipt_core f));
  map_err Rcp.receipt_of_format (ReceiptV1_new f signature).

Definition exact_receipt_bytes (r : ReceiptV1) : result ReceiptError (list byte) :=
  map_err Rcp.receipt_of_format (encode_object nfc 3 (rv_body r)).

(** ** Checkpoints ([checkpoint.rs], [ea-format] [ecp.rs]) *)

Record CheckpointBindingV1 := {
  cb_organization : OrganizationId;
  cb_chain : ChainId;
  cb_sequence : ChainSequence;
  cb_head : EntryHash;
  cb_registry_head : Hash32;
  cb_previous : option ObjectHash;
}.

Definition encode_checkpoint_core (b : CheckpointBindingV1) (issued : UnixMillis) : list byte :=
  cbor_array 11 ++ cbor_u64 1 ++ cbor_str (lit "EINSATZARCHIV-CHECKPOINT-v1") ++ cbor_bytes (cb_organization b)
  ++ cbor_bytes (cb_chain b) ++ cbor_u64 (cb_sequence b) ++ cbor_u64 (cb_sequence b) ++ cbor_bytes (cb_head b)
  ++ cbor_bytes (cb_registry_head b) ++ cbor_i64 issued ++ optional_hash (cb_previous b) ++ cbor_array 0.

(** The exact bytes of the standard checkpoint. *)
Definition build_checkpoint (b : CheckpointBindingV1) (issued : UnixMillis) : result CheckpointError (list byte) :=
  let core := encode_checkpoint_core b issued in
  if negb (checkpoint_core_valid core) then Err Cpt.Shape else
  signature ← ok_or Cpt.Signature (sign_checkpoint core);
  _ ← map_err Cpt.checkpoint_of_format (checkpoint_signature_binds core signature);
  let body := cbor_array 2 ++ cbor_u64 0 ++ cbor_array 2 ++ core ++ signature in
  exact ← map_err Cpt.checkpoint_of_format (encode_object nfc 4 body);
  if len exact >? ECP_MAX_RAW_BYTES_V1 then Err Cpt.Shape else Ok exact.
End Documents.

(** ** Step 2: the checks ([validation.rs]) *)

Record ValidatedCommitV1 := {
  vc_entry_hash : EntryHash;
  vc_entry_object : ObjectHash;
  vc_sequence : ChainSequence;
  vc_previous : option EntryHash;
  vc_device : DeviceId;
  vc_objects : list IndexedObjectV1;
  vc_grants : list ObjectHash;
  vc_recipients : list GrantRecipientV1;
}.

Definition FORMAT_VERSION_V1 : Z := 1.
Definition SUITE_ID : str := lit "EINSATZARCHIV-SUITE-1".

Section Validation.
Context (decode_exact_object : list byte → result FormatError Object).
Context (grant_plan_digest : list byte → Hash32).
(** [verify_cose_sign1] against the certificates of the head, for the record of
    an entry and for the initial grant of an entry in a sequence. *)
Context (writer_signature_valid : ActiveRegistryHeadV1 → EntryPackageV1 → bool).
Context (issuer_signature_valid : ActiveRegistryHeadV1 → ChainSequence → GrantV1 → bool).

Definition parse_entry (bytes : list byte) : result CommitValidationError (Parsed EntryPackageV1) :=
  match decode_exact_object bytes with
  | Ok (Entry entry) => Ok entry
  | Ok _ => Err Cv.ObjectFamily
  | Err _ => Err Cv.EntryInvalid
  end.

Definition active_writer (head : ActiveRegistryHeadV1) (writer : CertificateHash) : result CommitValidationError DeviceId :=
  ok_or Cv.WriterUnauthorized
    ((λ p, dc_device p.2.2) <$> list_find (λ p, p.1 = writer ∧ dc_kind p.2 = KindWriter) (ah_certificates head)).

Definition verify_writer_transition_hash (m : ManifestCoreFieldsV1) (transition : option EffectiveWriterTransitionV1)
    : result CommitValidationError unit :=
  let expected := transition ≫= λ t, if wt_from t =? mf_sequence m then Some t else None in
  match mf_transition m, expected with
  | None, None => Ok tt
  | Some claimed, Some t =>
      if bool_decide (claimed = wt_object t) && bool_decide (mf_previous m = Some (wt_previous t))
         && bool_decide (mf_writer m = wt_new t)
      then Ok tt else Err Cv.WriterTransitionMismatch
  | _, _ => Err Cv.WriterTransitionMismatch
  end.

Fixpoint parse_grants (head : ActiveRegistryHeadV1) (entry_hash : EntryHash) (sequence : ChainSequence)
    (grants : list (list byte)) : result CommitValidationError (list (Parsed GrantV1)) :=
  match grants with
  | [] => Ok []
  | bytes :: grants =>
      match decode_exact_object bytes with
      | Ok (Grant grant) =>
          if bool_decide (gt_kind (value grant) ≠ GInitial) || bool_decide (gt_entry_hash (value grant) ≠ entry_hash)
          then Err Cv.GrantInvalid else
          if negb (issuer_signature_valid head sequence (value grant)) then Err Cv.GrantSignature else
          rest ← parse_grants head entry_hash sequence grants;
          Ok (grant :: rest)
      | Ok _ => Err Cv.ObjectFamily
      | Err _ => Err Cv.GrantInvalid
      end
  end.

Definition plan_item (g : GrantV1) : GrantPlanItemV1 :=
  {| pi_thumbprint := gt_thumbprint g; pi_certificate := gt_certificate g; pi_purpose := gt_purpose g |}.

(** The item the plan must have for an active certificate. *)
Definition expected_purpose (k : CertificateKindV1) : option GrantPurposeV1 :=
  match k with KindReader => Some Gp.Reader | KindRecoveryRecipient => Some Gp.Recovery | _ => None end.

Fixpoint expected_items (certificates : list (CertificateHash * DeviceCertificateFieldsV1))
    : result CommitValidationError (list GrantPlanItemV1) :=
  match certificates with
  | [] => Ok []
  | (hash, fields) :: certificates =>
      match expected_purpose (dc_kind fields) with
      | None => expected_items certificates
      | Some purpose =>
          thumbprint ← ok_or Cv.GrantSetIncomplete (dc_kem_thumbprint fields);
          rest ← expected_items certificates;
          Ok ({| pi_thumbprint := thumbprint; pi_certificate := hash; pi_purpose := purpose |} :: rest)
      end
  end.

Definition expected_plan (head : ActiveRegistryHeadV1) : result CommitValidationError GrantPlanV1 :=
  items ← expected_items (ah_certificates head);
  map_err (λ _, Cv.GrantSetIncomplete) (GrantPlanV1_new grant_plan_digest items).

Definition suite_allowed (p : PolicyFieldsV1) : bool :=
  bool_decide (SUITE_ID ∈ pf_suites p) && bool_decide (FORMAT_VERSION_V1 ∈ pf_format_versions p).

Definition validate_commit (request : EntryCommitRequestV1) (entry : Parsed EntryPackageV1)
    (organization : OrganizationId) (chain : ChainId) (writer : CertificateHash) (head : ActiveRegistryHeadV1)
    : result CommitValidationError ValidatedCommitV1 :=
  let m := ep_manifest (value entry) in
  if bool_decide (mf_organization m ≠ organization) then Err Cv.OrganizationMismatch else
  if bool_decide (mf_chain m ≠ chain) || bool_decide (mf_chain m ≠ ah_chain head) then Err Cv.ChainMismatch else
  if bool_decide (mf_writer m ≠ writer) then Err Cv.WriterUnauthorized else
  if is_some_and (λ t, bool_decide (wt_old t = writer)) (ah_transition head) then Err Cv.WriterRevoked else
  device ← active_writer head writer;
  _ ← verify_writer_transition_hash m (ah_transition head);
  if negb (suite_allowed (ah_policy head)) then Err Cv.SuiteUnsupported else
  if negb (mf_registry_version m =? ah_version head) || bool_decide (mf_registry_head m ≠ ah_hash head)
  then Err Cv.RegistryMismatch else
  if negb (writer_signature_valid head (value entry)) then Err Cv.WriterSignature else
  if bool_decide (gp_hash (rq_plan request) ≠ mf_plan m) then Err Cv.GrantPlanMismatch else
  grants ← parse_grants head (ep_entry_hash (value entry)) (mf_sequence m) (rq_grants request);
  reconstructed ← map_err (λ _, Cv.GrantPlanMismatch)
    (GrantPlanV1_new grant_plan_digest ((λ g, plan_item (value g)) <$> grants));
  if bool_decide (gp_hash reconstructed ≠ gp_hash (rq_plan request)) then Err Cv.GrantPlanMismatch else
  expected ← expected_plan head;
  if bool_decide (gp_hash expected ≠ gp_hash (rq_plan request)) then Err Cv.GrantSetIncomplete else
  Ok {| vc_entry_hash := ep_entry_hash (value entry); vc_entry_object := p_object_hash entry;
        vc_sequence := mf_sequence m; vc_previous := mf_previous m; vc_device := device;
        vc_objects := {| ob_kind := Ot.Entry; ob_hash := p_object_hash entry; ob_size := len (rq_entry request) |}
          :: zip_with (λ g b, {| ob_kind := Ot.Grant; ob_hash := p_object_hash g; ob_size := len b |}) grants (rq_grants request);
        vc_grants := p_object_hash <$> grants;
        vc_recipients := (λ g, {| gr_object := p_object_hash g; gr_thumbprint := gt_thumbprint (value g) |}) <$> grants |}.
End Validation.

(** ** What a request is *)

Lemma sorted_without_repeats {A K} `{CmpLaws K} `{EqDecision K} (key : A → K) l :
  existsb (λ p, bool_decide (key p.1 = key p.2)) (windows2 (sort_by_key key l)) = false →
  StronglySorted (key_lt key) (sort_by_key key l).
Proof. intros He. apply no_equal_neighbours; [apply sort_by_key_sorted|done]. Qed.

Section Requests.
Context (decode_exact_object : list byte → result FormatError Object).

(** The bytes are those of a grant with this hash. *)
Definition grant_with (h : ObjectHash) (bytes : list byte) : Prop :=
  ∃ g, decode_exact_object bytes = Ok (Grant g) ∧ p_object_hash g = h.

Lemma hash_grants_Ok gs l :
  hash_grants decode_exact_object gs = Ok l → Forall (λ p, grant_with p.1 p.2) l ∧ snd <$> l = gs.
Proof.
  revert l. induction gs as [|g gs IH]; intros l; cbn [hash_grants].
  { intros [= <-]. by split. }
  destruct (decode_exact_object g) as [[e|p|p|p|p|p]|e] eqn:E; try done. intros Hr. apply bind_Ok in Hr as (rest & Hr & [= <-]).
  apply IH in Hr as [Hf <-]. split; [|done]. constructor; [by exists p|done].
Qed.

(** A request has one entry and grants without repetition, in the order of their
    hashes, and its identity names them. *)
Record request_ok (r : EntryCommitRequestV1) : Prop := {
  rk_entry : ∃ e, decode_exact_object (rq_entry r) = Ok (Entry e) ∧
    ei_entry_hash (rq_identity r) = ep_entry_hash (value e) ∧ ei_entry_object (rq_identity r) = p_object_hash e;
  rk_plan : ei_plan (rq_identity r) = gp_hash (rq_plan r);
  rk_grants : Forall2 grant_with (ei_grants (rq_identity r)) (rq_grants r);
  rk_sorted : StronglySorted (key_lt id) (ei_grants (rq_identity r));
  rk_nonempty : rq_grants r ≠ [];
  rk_count : len (rq_grants r) ≤ MAX_GRANT_PLAN_ITEMS_V1;
}.

Lemma fmap_key_lt {A K} `{Cmp K} (key : A → K) l : StronglySorted (key_lt key) l → StronglySorted (key_lt id) (key <$> l).
Proof.
  induction 1 as [|x l Hs IH Hx]; [constructor|]. cbn. constructor; [done|]. rewrite Forall_fmap. exact Hx.
Qed.

Lemma request_new_ok entry plan grants r :
  EntryCommitRequestV1_new decode_exact_object entry plan grants = Ok r → request_ok r.
Proof.
  unfold EntryCommitRequestV1_new. destruct (_ >? _); [done|]. destruct (is_empty grants) eqn:Ene; [done|].
  unfold is_empty in Ene. apply bool_decide_eq_false in Ene.
  destruct (_ || _) eqn:Ec; [done|]. apply orb_false_iff in Ec as [Ec _]. destruct (existsb _ _); [done|].
  destruct (decode_exact_object entry) as [[e|p|p|p|p|p]|e] eqn:E; try done. intros Hr.
  apply bind_Ok in Hr as (hashed & Hh & Hr). apply hash_grants_Ok in Hh as [Hf Hg].
  destruct (existsb _ (windows2 _)) eqn:Ed; [done|]. destruct (len (encode_request _ _ _) >? _); [done|]. injection Hr as <-.
  apply sorted_without_repeats in Ed. split; cbn [rq_entry rq_plan rq_grants rq_identity ei_entry_hash ei_entry_object ei_plan ei_grants]; [by exists e|done| | | |].
  - apply Forall2_fmap_l, Forall2_fmap_r, Forall_Forall2_diag.
    rewrite sort_by_key_perm. exact Hf.
  - by apply fmap_key_lt.
  - intros Hn%(f_equal length). rewrite length_fmap in Hn. rewrite sort_by_key_perm in Hn. rewrite <- Hg in Ene.
    apply Ene. by destruct hashed.
  - unfold len in *. rewrite length_fmap, (Permutation_length (sort_by_key_perm fst hashed)), <- (length_fmap snd), Hg. lia.
Qed.
End Requests.

(** ** What a validated commit is *)

Section Validated.
Context (decode_exact_object : list byte → result FormatError Object).
Context (grant_plan_digest : list byte → Hash32).
Context (writer_signature_valid : ActiveRegistryHeadV1 → EntryPackageV1 → bool).
Context (issuer_signature_valid : ActiveRegistryHeadV1 → ChainSequence → GrantV1 → bool).

Abbreviation validate_commit := (validate_commit decode_exact_object grant_plan_digest writer_signature_valid issuer_signature_valid).

Lemma parse_grants_Ok head entry sequence bytes grants :
  parse_grants decode_exact_object issuer_signature_valid head entry sequence bytes = Ok grants →
  Forall2 (λ b g, decode_exact_object b = Ok (Grant g) ∧ gt_kind (value g) = GInitial ∧ gt_entry_hash (value g) = entry ∧
    issuer_signature_valid head sequence (value g) = true) bytes grants.
Proof.
  revert grants. induction bytes as [|b bytes IH]; intros grants; cbn [parse_grants]; [by intros [= <-]|].
  destruct (decode_exact_object b) as [[p|g|p|p|p|p]|e] eqn:E; try done.
  destruct (_ || _) eqn:Eb; [done|]. apply orb_false_iff in Eb as [E1 E2].
  apply bool_decide_eq_false in E1, E2. apply dec_stable in E1, E2.
  destruct (issuer_signature_valid _ _ _) eqn:Es; [|done]. cbn [negb]. intros Hr.
  apply bind_Ok in Hr as (rest & Hr & [= <-]). constructor; [done|]. by apply IH.
Qed.

(** Everything that was checked. *)
Record validated (request : EntryCommitRequestV1) (entry : Parsed EntryPackageV1) (o : OrganizationId) (ch : ChainId)
    (writer : CertificateHash) (head : ActiveRegistryHeadV1) (v : ValidatedCommitV1) (grants : list (Parsed GrantV1)) : Prop := {
  vd_organization : mf_organization (ep_manifest (value entry)) = o;
  vd_chain : mf_chain (ep_manifest (value entry)) = ch ∧ ah_chain head = ch;
  vd_writer : mf_writer (ep_manifest (value entry)) = writer ∧ writer_signature_valid head (value entry) = true;
  vd_active : ∃ c, (writer, c) ∈ ah_certificates head ∧ dc_kind c = KindWriter ∧ vc_device v = dc_device c;
  vd_registry : mf_registry_version (ep_manifest (value entry)) = ah_version head ∧
    mf_registry_head (ep_manifest (value entry)) = ah_hash head;
  vd_grants : parse_grants decode_exact_object issuer_signature_valid head (ep_entry_hash (value entry))
    (mf_sequence (ep_manifest (value entry))) (rq_grants request) = Ok grants;
  vd_plans : mf_plan (ep_manifest (value entry)) = gp_hash (rq_plan request) ∧
    ∃ p q, GrantPlanV1_new grant_plan_digest ((λ g, plan_item (value g)) <$> grants) = Ok p ∧
      expected_plan grant_plan_digest head = Ok q ∧ gp_hash p = gp_hash (rq_plan request) ∧ gp_hash q = gp_hash (rq_plan request);
  vd_answer : vc_entry_hash v = ep_entry_hash (value entry) ∧ vc_entry_object v = p_object_hash entry ∧
    vc_sequence v = mf_sequence (ep_manifest (value entry)) ∧ vc_previous v = mf_previous (ep_manifest (value entry)) ∧
    vc_grants v = p_object_hash <$> grants;
}.

Lemma validate_commit_Ok request entry o ch writer head v :
  validate_commit request entry o ch writer head = Ok v → ∃ grants, validated request entry o ch writer head v grants.
Proof.
  unfold CommitChecks.validate_commit. case_bool_decide as H1; [done|]. destruct (_ || _) eqn:E2; [done|].
  apply orb_false_iff in E2 as [H2 H3]. apply bool_decide_eq_false in H2, H3. apply dec_stable in H2, H3.
  case_bool_decide as H4; [done|]. destruct (is_some_and _ _); [done|]. intros Hr.
  apply bind_Ok in Hr as (device & Hd & Hr). apply bind_Ok in Hr as (u & _ & Hr).
  destruct (negb (suite_allowed _)); [done|]. destruct (_ || _) eqn:E5; [done|].
  apply orb_false_iff in E5 as [H5 H6]. apply bool_decide_eq_false in H6. apply dec_stable in H6.
  apply negb_false_iff, Z.eqb_eq in H5. destruct (writer_signature_valid _ _) eqn:Ew; [|done]. cbn [negb] in Hr.
  case_bool_decide as H7; [done|]. apply bind_Ok in Hr as (grants & Hg & Hr). apply bind_Ok in Hr as (p & Hp & Hr).
  apply map_err_Ok in Hp. case_bool_decide as H8; [done|]. apply bind_Ok in Hr as (q & Hq & Hr).
  case_bool_decide as H9; [done|]. injection Hr as <-. exists grants.
  unfold active_writer in Hd. apply ok_or_Ok, fmap_Some in Hd as ([i [w c]] & Hf & ->).
  apply list_find_Some in Hf as (Hi & [Hw Hk] & _). cbn in *. subst w. apply list_elem_of_lookup_2 in Hi.
  split; cbn; try done.
  - split; congruence.
  - by exists c.
  - split; [done|]. by exists p, q.
Qed.

(** *** Grants and recipients *)

Lemma expected_items_Ok certificates items :
  expected_items certificates = Ok items → ∀ i, i ∈ items ↔ ∃ c, (pi_certificate i, c) ∈ certificates ∧
    expected_purpose (dc_kind c) = Some (pi_purpose i) ∧ dc_kem_thumbprint c = Some (pi_thumbprint i).
Proof.
  revert items. induction certificates as [|[h c] certificates IH]; intros items; cbn [expected_items].
  { intros [= <-] i. split; [by intros ?%elem_of_nil|]. by intros (c & ?%elem_of_nil & _). }
  destruct (expected_purpose (dc_kind c)) as [p|] eqn:Ep.
  - intros Hr i. apply bind_Ok in Hr as (k & Hk & Hr). apply ok_or_Ok in Hk. apply bind_Ok in Hr as (rest & Hr & [= <-]).
    rewrite elem_of_cons, (IH _ Hr i). split.
    + intros [->|(c' & Hc & Hp)]; [exists c; by split; [left|]|exists c'; by split; [right|]].
    + intros (c' & [[= E ->]|Hc]%elem_of_cons & Hp & Hk'); [left|right; eauto].
      destruct i; cbn in *. congruence.
  - intros Hr i. rewrite (IH _ Hr i). split; intros (c' & Hc & Hp & Hk).
    + exists c'. split_and!; [by right|done|done].
    + apply elem_of_cons in Hc as [[= E ->]|Hc]; [congruence|]. by exists c'.
Qed.

Lemma expected_items_complete certificates items h c p :
  expected_items certificates = Ok items → (h, c) ∈ certificates → expected_purpose (dc_kind c) = Some p →
  is_Some (dc_kem_thumbprint c).
Proof.
  revert items. induction certificates as [|[h' c'] certificates IH]; intros items Hr Hin Hp; [by apply elem_of_nil in Hin|].
  cbn [expected_items] in Hr. apply elem_of_cons in Hin as [[= <- <-]|Hin].
  - rewrite Hp in Hr. apply bind_Ok in Hr as (k & Hk & _). apply ok_or_Ok in Hk. by exists k.
  - destruct (expected_purpose (dc_kind c')); [|by eapply IH].
    apply bind_Ok in Hr as (k & _ & Hr). apply bind_Ok in Hr as (rest & Hr & _). by eapply IH.
Qed.

Lemma expected_items_length certificates items : expected_items certificates = Ok items → len items ≤ len certificates.
Proof.
  revert items. induction certificates as [|[h c] certificates IH]; intros items; cbn [expected_items]; [by intros [= <-]|].
  unfold len in *. destruct (expected_purpose _); cbn [length]; intros Hr.
  - apply bind_Ok in Hr as (k & _ & Hr). apply bind_Ok in Hr as (rest & Hr & [= <-]). apply IH in Hr. cbn. lia.
  - apply IH in Hr. lia.
Qed.

(** The widths of what the registry and the parser give. *)
Definition certificate_sized (p : CertificateHash * DeviceCertificateFieldsV1) : Prop :=
  sized p.1 ∧ ∀ k, dc_kem_thumbprint p.2 = Some k → sized k.

(** Each active reader and the recovery recipient have one grant, and nobody
    else has one. *)
Record grants_exact (head : ActiveRegistryHeadV1) (grants : list GrantV1) : Prop := {
  ge_recipients h c p : (h, c) ∈ ah_certificates head → expected_purpose (dc_kind c) = Some p →
    ∃ k g, dc_kem_thumbprint c = Some k ∧ g ∈ grants ∧ gt_certificate g = h ∧ gt_thumbprint g = k ∧ gt_purpose g = p;
  ge_only g : g ∈ grants → ∃ c, (gt_certificate g, c) ∈ ah_certificates head ∧
    expected_purpose (dc_kind c) = Some (gt_purpose g) ∧ dc_kem_thumbprint c = Some (gt_thumbprint g);
  ge_recovery : length (filter (λ g, gt_purpose g = Gp.Recovery) grants) = 1%nat;
  ge_once : NoDup (gt_thumbprint <$> grants) ∧ NoDup (gt_certificate <$> grants);
}.

Lemma plan_items_exact head grants items :
  plan_item <$> grants ≡ₚ items → expected_items (ah_certificates head) = Ok items → plan_ok (plan_item <$> grants) →
  grants_exact head grants.
Proof.
  intros Hp Hi [[r Hr] Hk Hc]. split.
  - intros h c p Hin Hpur. destruct (expected_items_complete _ _ _ _ _ Hi Hin Hpur) as [k Hkem].
    assert ({| pi_thumbprint := k; pi_certificate := h; pi_purpose := p |} ∈ items) as Hin'.
    { apply (expected_items_Ok _ _ Hi). by exists c. }
    rewrite <- Hp in Hin'. apply list_elem_of_fmap in Hin' as (g & [= -> -> ->] & Hg). by exists (gt_thumbprint g), g.
  - intros g Hg. assert (plan_item g ∈ items) as Hin by (rewrite <- Hp; by apply list_elem_of_fmap_2).
    by apply (expected_items_Ok _ _ Hi) in Hin.
  - unfold recoveries in Hr. apply (f_equal length) in Hr. cbn in Hr. rewrite <- Hr. clear.
    induction grants as [|g grants IH]; [done|]. cbn [fmap list_fmap]. rewrite !filter_cons. cbn [plan_item pi_purpose].
    case_decide; cbn; congruence.
  - rewrite <- !list_fmap_compose in Hk, Hc. done.
Qed.

End Validated.

(** ** What a receipt states *)

Section Receipts.
Context `{Signer} (nfc : list Z → list Z).

Record receipt_states (b : ReceiptBindingV1) (policy : PolicyFieldsV1) (accepted : UnixMillis) (r : ReceiptV1) : Prop := {
  rs_place : rf_organization (rv_fields r) = rb_organization b ∧ rf_chain (rv_fields r) = rb_chain b ∧
    rf_sequence (rv_fields r) = rb_sequence b ∧ rf_previous (rv_fields r) = rb_previous b;
  rs_entry : rf_entry_hash (rv_fields r) = rb_entry_hash b ∧ rf_entry_object (rv_fields r) = rb_entry_object b ∧
    rf_plan (rv_fields r) = rb_plan b;
  rs_registry : rf_registry_version (rv_fields r) = rb_registry_version b ∧
    rf_registry_head (rv_fields r) = rb_registry_head b ∧ rf_policy (rv_fields r) = rb_policy b;
  rs_grants : rf_grants (rv_fields r) = sort_by_key id (rb_grants b) ∧ StronglySorted (key_lt id) (rf_grants (rv_fields r));
  rs_times : rf_accepted (rv_fields r) = accepted ∧ evidence_due_at policy accepted = Ok (rf_due (rv_fields r));
  rs_body : ∃ signature, rv_body r = cbor_array 2 ++ encode_receipt_core (rv_fields r) ++ signature ∧
    receipt_signature_binds (encode_receipt_core (rv_fields r)) signature = true;
}.

Lemma build_receipt_Ok b policy accepted r :
  build_receipt b policy accepted = Ok r → receipt_states b policy accepted r.
Proof.
  unfold build_receipt. intros Hr. apply bind_Ok in Hr as (grants & Hg & Hr). apply bind_Ok in Hr as (due & Hd & Hr).
  unfold sorted_grant_object_hashes in Hg. destruct (is_empty _); [done|]. destruct (existsb _ _) eqn:Ee; [done|].
  injection Hg as <-. apply (sorted_without_repeats id) in Ee.
  apply bind_Ok in Hr as (u & _ & Hr). apply bind_Ok in Hr as (signature & _ & Hr). apply map_err_Ok in Hr.
  unfold ReceiptV1_new in Hr. destruct (receipt_signature_binds _ _) eqn:Es; [|done]. injection Hr as <-.
  split; cbn; try done. by exists signature.
Qed.

Lemma encode_object_Ok code body exact : encode_object nfc code body = Ok exact → exact = wrap_object (byte_of code) body.
Proof.
  unfold encode_object. intros Hr. apply bind_Ok in Hr as (n & _ & Hr). destruct (_ >? _); [done|].
  apply bind_Ok in Hr as ([limit error] & _ & Hr). destruct (_ >? _); [done|].
  destruct (validate _ _ _) as [u|fault]; [by injection Hr|by destruct fault].
Qed.

Lemma exact_receipt_bytes_Ok r exact : exact_receipt_bytes nfc r = Ok exact → exact = wrap_object x03 (rv_body r).
Proof. unfold exact_receipt_bytes. intros He%map_err_Ok. by apply encode_object_Ok in He. Qed.

(** The bytes of a receipt. *)
Definition receipt_document (f : ReceiptCoreFieldsV1) (bytes : list byte) : Prop :=
  ∃ signature, bytes = wrap_object x03 (cbor_array 2 ++ encode_receipt_core f ++ signature) ∧
    receipt_signature_binds (encode_receipt_core f) signature = true.

Lemma receipt_document_of b policy accepted r exact :
  build_receipt b policy accepted = Ok r → exact_receipt_bytes nfc r = Ok exact → receipt_document (rv_fields r) exact.
Proof.
  intros Hr%build_receipt_Ok ->%exact_receipt_bytes_Ok. destruct (rs_body _ _ _ _ Hr) as (signature & -> & Hs).
  by exists signature.
Qed.

(** A receipt has room for fewer grants than a request may carry. *)
Lemma grant_hashes_length hashes :
  Forall (λ h : ObjectHash, length h = 32%nat) hashes → len (flat_map cbor_bytes hashes) = 34 * len hashes.
Proof.
  induction 1 as [|h hashes Hh _ IH]; [done|]. cbn [flat_map]. rewrite len_app, IH. unfold cbor_bytes. rewrite len_app.
  assert (len h = 32) as Hl by (unfold len; lia). rewrite Hl. change (len (head_bytes 2 32)) with 2.
  unfold len. cbn [length]. lia.
Qed.

Lemma receipt_core_length f :
  Forall (λ h : ObjectHash, length h = 32%nat) (rf_grants f) → 34 * len (rf_grants f) ≤ len (encode_receipt_core f).
Proof.
  intros Hf%grant_hashes_length. unfold encode_receipt_core. rewrite !len_app, Hf. unfold len. lia.
Qed.

Definition MAX_RECEIPT_GRANTS : Z := 1927.

Lemma exact_receipt_room r exact :
  (∃ signature, rv_body r = cbor_array 2 ++ encode_receipt_core (rv_fields r) ++ signature) →
  Forall (λ h : ObjectHash, length h = 32%nat) (rf_grants (rv_fields r)) →
  exact_receipt_bytes nfc r = Ok exact → len (rf_grants (rv_fields r)) ≤ MAX_RECEIPT_GRANTS.
Proof.
  intros (signature & Hb) Hf%receipt_core_length Hr%map_err_Ok. unfold encode_object in Hr.
  apply bind_Ok in Hr as (n & Hn & Hr). apply ok_or_Ok, checked_add_Some in Hn as [-> _].
  destruct (_ >? _); [done|]. apply bind_Ok in Hr as ([limit error] & Hl & Hr). apply ok_or_Ok in Hl. injection Hl as <- <-.
  destruct (9 + len (rv_body r) >? ESR_MAX_RAW_BYTES_V1) eqn:E; [done|]. rewrite Hb, !len_app in E.
  rewrite Z.gtb_ltb, Z.ltb_ge in E. unfold ESR_MAX_RAW_BYTES_V1, MAX_RECEIPT_GRANTS, len in *. lia.
Qed.

(** The time of acceptance does not go back behind the entry before. *)
Lemma accepted_at_after now previous : now ≤ accepted_at now previous ∧ ∀ p, previous = Some p → p ≤ accepted_at now previous.
Proof.
  unfold accepted_at. destruct previous as [p|]; [|split; [lia|done]].
  destruct (p >? now) eqn:E; (split; [|intros ? [= <-]]); lia.
Qed.
End Receipts.

(** ** A sample chain *)

Module Sample.
Definition org : OrganizationId := replicate 16 x01.
Definition chain : ChainId := replicate 16 x02.
Definition writer : CertificateHash := replicate 32 x03.
Definition recovery : CertificateHash := replicate 32 x04.
Definition kem : Hash32 := replicate 32 x05.
Definition entry_hash : EntryHash := replicate 32 x06.
Definition head_hash : ObjectHash := replicate 32 x07.

(** Digests without collisions. *)
Definition hash (b : list byte) : ObjectHash := b.
Definition digest (b : list byte) : Hash32 := b.

Definition object_bytes (code tag : byte) : list byte := wrap_object code (cbor_bytes (replicate 22 tag)).
Definition entry_bytes : list byte := object_bytes x01 x0a.
Definition grant_bytes : list byte := object_bytes x02 x0b.

Definition item : GrantPlanItemV1 := {| pi_thumbprint := kem; pi_certificate := recovery; pi_purpose := Gp.Recovery |}.
Definition plan : GrantPlanV1 :=
  {| gp_items := [item]; gp_exact := encode_plan_items [item]; gp_hash := digest (encode_plan_items [item]) |}.

Definition manifest : ManifestCoreFieldsV1 := {|
  mf_organization := org; mf_chain := chain; mf_sequence := 0; mf_previous := None; mf_writer := writer;
  mf_transition := None; mf_registry_version := 1; mf_registry_head := head_hash; mf_plan := gp_hash plan |}.
Definition entry : Parsed EntryPackageV1 := {|
  value := {| ep_entry_hash := entry_hash; ep_manifest := manifest; ep_signed_manifest := []; ep_signature := [] |};
  exact_bytes := entry_bytes; p_object_hash := hash entry_bytes |}.
Definition grant : Parsed GrantV1 := {|
  value := {| gt_organization := org; gt_kind := GInitial; gt_entry_hash := entry_hash; gt_purpose := Gp.Recovery;
              gt_thumbprint := kem; gt_certificate := recovery; gt_body := []; gt_signature := [] |};
  exact_bytes := grant_bytes; p_object_hash := hash grant_bytes |}.

Definition decode (b : list byte) : result FormatError Object :=
  if bool_decide (b = entry_bytes) then Ok (Entry entry) else
  if bool_decide (b = grant_bytes) then Ok (Grant grant) else Err Fmt.Shape.

Definition head : ActiveRegistryHeadV1 := {|
  ah_version := 1; ah_hash := head_hash; ah_chain := chain; ah_policy_hash := replicate 32 x08;
  ah_policy := {| pf_operating_profile := 1; pf_evidence_max_delay_ms := 1000; pf_suites := [SUITE_ID]; pf_format_versions := [1] |};
  ah_certificates := [(writer, {| dc_device := replicate 16 x09; dc_kind := KindWriter; dc_kem_thumbprint := None |});
                      (recovery, {| dc_device := replicate 16 x0a; dc_kind := KindRecoveryRecipient; dc_kem_thumbprint := Some kem |})];
  ah_transition := None |}.

Definition request : EntryCommitRequestV1 := {|
  rq_entry := entry_bytes; rq_plan := plan; rq_grants := [grant_bytes];
  rq_identity := {| ei_entry_hash := entry_hash; ei_entry_object := hash entry_bytes; ei_plan := gp_hash plan;
                    ei_grants := [hash grant_bytes] |} |}.

Lemma request_new : EntryCommitRequestV1_new decode entry_bytes plan [grant_bytes] = Ok request.
Proof. vm_compute. reflexivity. Qed.

Definition valid : ValidatedCommitV1 := {|
  vc_entry_hash := entry_hash; vc_entry_object := hash entry_bytes; vc_sequence := 0; vc_previous := None;
  vc_device := replicate 16 x09;
  vc_objects := [{| ob_kind := Ot.Entry; ob_hash := hash entry_bytes; ob_size := len entry_bytes |};
                 {| ob_kind := Ot.Grant; ob_hash := hash grant_bytes; ob_size := len grant_bytes |}];
  vc_grants := [hash grant_bytes];
  vc_recipients := [{| gr_object := hash grant_bytes; gr_thumbprint := kem |}] |}.

Lemma decode_grant b g : decode b = Ok (Grant g) → g = grant.
Proof. unfold decode. case_bool_decide; [done|]. case_bool_decide; [|done]. by intros [= <-]. Qed.

Lemma decode_entry b e : decode b = Ok (Entry e) → e = entry.
Proof. unfold decode. case_bool_decide; [by intros [= <-]|]. by case_bool_decide. Qed.
End Sample.

