(* ===== verification/ServerCommit.v ===== *)
(** * ServerCommit: the commit of an entry on the server ([ea-sync-server], [commit.rs])

    The nine steps of a commit over the bucket of [ObjectStore], the checks and
    documents of [CommitChecks] and the transaction of [ServerDb], and the
    judgement of objects that no commit names ([reconcile.rs]).

    The choice of the registry head is a parameter; it answers from the time of
    acceptance and the sequence. Between any two requests of a commit other
    commits and uploads of objects may act ([sv_calls]); destruction requests,
    which delete objects, are not among them. *)

From S2P Require Import Prelude Types Utf8 Cbor Str Profile ImportReport OperatorSession Inventory GrantPlan ServerDb ObjectStore CommitChecks.
Import Fmt(FormatError) Repo(RepositoryError) Ot(ObjectTypeV1) Gp(GrantPurposeV1) Obj(StoreError) Sec(SecurityEventKindV1).
Import Cv(CommitValidationError, is_writer_violation) Rcp(ReceiptError) Cpt(CheckpointError) Svc(CommitServiceError).

(** ** Outcomes *)

Inductive CommitOutcome :=
| Accepted (receipt checkpoint : list byte)
| IdempotentReplay (receipt checkpoint : list byte).

Definition receipt_bytes (o : CommitOutcome) : list byte :=
  match o with Accepted r _ | IdempotentReplay r _ => r end.
Definition checkpoint_bytes (o : CommitOutcome) : list byte :=
  match o with Accepted _ c | IdempotentReplay _ c => c end.

Definition retryable (e : CommitServiceError) : bool :=
  let status := Svc.commit_http_status e in (status =? 429) || (status =? 500) || (status =? 503).

Definition db_identity (i : EntryCommitIdentity) : CommitIdentityV1 := {|
  id_entry_hash := ei_entry_hash i; id_entry_object := ei_entry_object i; id_plan := ei_plan i; id_grants := ei_grants i |}.

Definition bound_head (entry : Parsed EntryPackageV1) : Z * Hash32 :=
  (mf_registry_version (ep_manifest (value entry)), mf_registry_head (ep_manifest (value entry))).

Definition head_identity (h : ChainHeadStateV1) : Z * EntryHash * UnixMillis := (ch_sequence h, ch_entry h, ch_accepted h).

(** The chain head a commit may follow. *)
Definition next_sequence (current : option ChainHeadStateV1) : option Z :=
  match current with Some h => checked_add u64_max (ch_sequence h) 1 | None => Some 0 end.

Section Commit.
Context `{Signer}.
Context (nfc : list Z → list Z).
Context (object_hash : list byte → ObjectHash).
Context (grant_plan_digest : list byte → Hash32).
Context (decode_exact_object : list byte → result FormatError Object).
Context (writer_signature_valid : ActiveRegistryHeadV1 → EntryPackageV1 → bool).
Context (issuer_signature_valid : ActiveRegistryHeadV1 → ChainSequence → GrantV1 → bool).
(** [RegistryHeadDirectory::select_head_for_sequence]. *)
Context (select_head_for_sequence : OrganizationId → ChainSequence → UnixMillis → result AuthorityError RegistryHeadSelectionV1).
Context (reports_length : bool).

Abbreviation cio := (io CommitFailure).

Definition call_store {A} (m : io StoreError A) : cio A := io_map_err (λ e, failure (Svc.of_store e)) m.
Definition call_repository {A} (m : io RepositoryError A) : cio A := io_map_err (λ e, failure (Svc.of_repository e)) m.

(** *** Requests to the database *)

Definition read_head_state (o : OrganizationId) (ch : ChainId) : io RepositoryError (option ChainHeadStateV1) :=
  read_request object_hash Repo.Unavailable (λ s, Ok (head_state o ch (sv_tables s))).

Definition read_checkpoint_head (o : OrganizationId) (ch : ChainId) : io RepositoryError (option ObjectHash) :=
  read_request object_hash Repo.Unavailable (λ s, Ok (checkpoint_head o ch (sv_tables s))).

Definition commit_request (c : CommitDbCommand) : io RepositoryError CommittedDbState := λ s,
  let '(s, fault) := next_call object_hash s in
  let '(t, r) := commit_locked_head fault c (sv_tables s) in
  (with_tables t s, r).

(** *** Security events *)

Definition record_subject (o : OrganizationId) (k : SecurityEventKindV1) (subject : str) (now : UnixMillis) : cio unit :=
  io_ignore (sink_record object_hash
    {| ev_organization := o; ev_kind := k; ev_subject := subject; ev_observed := now |}).

Definition record (o : OrganizationId) (k : SecurityEventKindV1) (entry : EntryHash) (now : UnixMillis) : cio unit :=
  record_subject o k (hex_encode entry) now.

(** *** Helpers of the steps *)

Definition select_head (o : OrganizationId) (sequence : ChainSequence) (now : UnixMillis) : result CommitFailure ActiveRegistryHeadV1 :=
  match select_head_for_sequence o sequence now with
  | Err e => Err (failure (Svc.of_authority e))
  | Ok (Selected head) => Ok head
  | Ok (PendingFuture version head_hash) => Err (requiring_head Svc.RegistryHeadRequired version head_hash)
  | Ok NoApplicableHead => Err (failure Svc.NoApplicableRegistryHead)
  end.

Definition mismatch_failure (e : CommitValidationError) (bound : Z * Hash32) (head : ActiveRegistryHeadV1) : CommitFailure :=
  match e with
  | Cv.RegistryMismatch =>
      if bound.1 >? ah_version head then requiring_head Svc.RegistryHeadRequired bound.1 bound.2
      else requiring_head (Svc.Validation e) (ah_version head) (ah_hash head)
  | _ => failure (Svc.Validation e)
  end.

Definition validation_failure {A} (e : CommitValidationError) (entry : EntryHash) (bound : Z * Hash32)
    (head : ActiveRegistryHeadV1) (o : OrganizationId) (now : UnixMillis) : cio A :=
  _ ← (if is_writer_violation e then record o Sec.WriterUnauthorized entry now else mret tt);
  io_of (Err (mismatch_failure e bound head)).

Definition classify_head_conflict {A} (v : ValidatedCommitV1) (current : option ChainHeadStateV1) (o : OrganizationId)
    (ch : ChainId) (now : UnixMillis) : cio A :=
  reread ← io_try (read_head_state o ch);
  match reread with
  | Err _ => io_of (Err (failure Svc.HeadConflict))
  | Ok observed =>
      if bool_decide (head_identity <$> observed ≠ head_identity <$> current) then io_of (Err (failure Svc.HeadConflict)) else
      match next_sequence current with
      | None => io_of (Err (failure Svc.Internal))
      | Some expected =>
          if negb (vc_sequence v =? expected) then
            _ ← record o Sec.SequenceFork (vc_entry_hash v) now;
            io_of (Err (failure Svc.SequenceFork))
          else if bool_decide (vc_previous v ≠ ch_entry <$> current) then
            _ ← record o Sec.PredecessorMismatch (vc_entry_hash v) now;
            io_of (Err (failure Svc.PredecessorMismatch))
          else io_of (Err (failure Svc.HeadConflict))
      end
  end.

Definition store_stage (o : OrganizationId) (k : ObjectTypeV1) (bytes : list byte) (limit : Z) : cio StagedObject :=
  call_store (stage_stream object_hash decode_exact_object o k [bytes] limit).

Fixpoint stage_grants (o : OrganizationId) (grants : list (list byte)) : cio (list StagedObject) :=
  match grants with
  | [] => mret []
  | bytes :: grants =>
      staged ← store_stage o Ot.Grant bytes MAX_GRANT_OBJECT_BYTES_V1;
      rest ← stage_grants o grants;
      mret (staged :: rest)
  end.

Definition put_verified (staged : StagedObject) (o : OrganizationId) (now : UnixMillis) : cio unit :=
  r ← io_try (put_if_absent object_hash decode_exact_object o reports_length staged);
  match r with
  | Ok _ => mret tt
  | Err Obj.HashConflict =>
      _ ← record_subject o Sec.ObjectHashConflict (staged_key staged) now;
      io_of (Err (failure Svc.ObjectConflict))
  | Err e => io_of (Err (failure (Svc.of_store e)))
  end.

Fixpoint put_all (staged : list StagedObject) (o : OrganizationId) (now : UnixMillis) : cio unit :=
  match staged with
  | [] => mret tt
  | s :: staged => _ ← put_verified s o now; put_all staged o now
  end.

Definition read_back (h : ObjectHash) (missing : CommitServiceError) : cio (list byte) :=
  r ← io_try (get_exact object_hash h);
  match r with
  | Ok bytes => if bool_decide (object_hash bytes ≠ h) then io_of (Err (failure missing)) else mret bytes
  | Err Obj.NotFound => io_of (Err (failure missing))
  | Err e => io_of (Err (failure (Svc.of_store e)))
  end.

Definition indexed (staged : StagedObject) (k : ObjectTypeV1) : IndexedObjectV1 :=
  {| ob_kind := k; ob_hash := so_hash staged; ob_size := so_size staged |}.

(** *** The steps *)

(** Steps 1, 2, 4 and 5: what is known before anything is put. *)
Record Checked := {
  cx_entry : StagedObject;
  cx_grants : list StagedObject;
  cx_now : UnixMillis;
  cx_current : option ChainHeadStateV1;
  cx_accepted : UnixMillis;
  cx_head : ActiveRegistryHeadV1;
  cx_valid : ValidatedCommitV1;
}.

Definition hashes_agree (staged : list StagedObject) (expected : list ObjectHash) : bool :=
  forallb (λ p, bool_decide (so_hash p.1 = p.2)) (zip staged expected).

Definition check_request (request : EntryCommitRequestV1) (o : OrganizationId) (ch : ChainId) (writer : CertificateHash)
    : cio Checked :=
  staged_entry ← store_stage o Ot.Entry (rq_entry request) MAX_ENTRY_OBJECT_BYTES_V1;
  staged_grants ← stage_grants o (rq_grants request);
  entry ← io_of (map_err (λ e, failure (Svc.Validation e)) (parse_entry decode_exact_object (rq_entry request)));
  now ← clock_now;
  current ← call_repository (read_head_state o ch);
  let accepted := accepted_at now (ch_accepted <$> current) in
  head ← io_of (select_head o (mf_sequence (ep_manifest (value entry))) accepted);
  if bool_decide (so_hash staged_entry ≠ p_object_hash entry) then io_of (Err (failure Svc.ObjectConflict)) else
  match validate_commit decode_exact_object grant_plan_digest writer_signature_valid issuer_signature_valid
          request entry o ch writer head with
  | Err e => validation_failure e (ep_entry_hash (value entry)) (bound_head entry) head o now
  | Ok v =>
      if negb (len staged_grants =? len (vc_grants v)) then io_of (Err (failure Svc.Internal)) else
      if negb (hashes_agree staged_grants (vc_grants v)) then io_of (Err (failure Svc.ObjectConflict)) else
      mret {| cx_entry := staged_entry; cx_grants := staged_grants; cx_now := now; cx_current := current;
              cx_accepted := accepted; cx_head := head; cx_valid := v |}
  end.

Definition receipt_binding (request : EntryCommitRequestV1) (o : OrganizationId) (ch : ChainId) (x : Checked)
    : ReceiptBindingV1 := {|
  rb_organization := o; rb_chain := ch; rb_sequence := vc_sequence (cx_valid x); rb_entry_hash := vc_entry_hash (cx_valid x);
  rb_entry_object := vc_entry_object (cx_valid x); rb_previous := vc_previous (cx_valid x);
  rb_registry_version := ah_version (cx_head x); rb_registry_head := ah_hash (cx_head x);
  rb_policy := ah_policy_hash (cx_head x); rb_plan := ei_plan (rq_identity request); rb_grants := vc_grants (cx_valid x) |}.

Definition checkpoint_binding (o : OrganizationId) (ch : ChainId) (x : Checked) (previous : option ObjectHash)
    : CheckpointBindingV1 := {|
  cb_organization := o; cb_chain := ch; cb_sequence := vc_sequence (cx_valid x); cb_head := vc_entry_hash (cx_valid x);
  cb_registry_head := ah_hash (cx_head x); cb_previous := previous |}.

(** Steps 3 and 7 and the checkpoint: everything is put, nothing is visible. *)
Record Prepared := {
  pp_receipt : ReceiptV1;
  pp_receipt_bytes : list byte;
  pp_receipt_object : StagedObject;
  pp_previous : option ObjectHash;
  pp_checkpoint_bytes : list byte;
  pp_checkpoint_object : StagedObject;
}.

Definition prepare_documents (request : EntryCommitRequestV1) (o : OrganizationId) (ch : ChainId) (x : Checked) : cio Prepared :=
  receipt ← io_of (map_err (λ e, failure (Svc.Receipt e))
    (build_receipt (receipt_binding request o ch x) (ah_policy (cx_head x)) (cx_accepted x)));
  receipt_exact ← io_of (map_err (λ e, failure (Svc.Receipt e)) (exact_receipt_bytes nfc receipt));
  staged_receipt ← store_stage o Ot.Receipt receipt_exact ESR_MAX_RAW_BYTES_V1;
  _ ← put_verified staged_receipt o (cx_now x);
  previous ← call_repository (read_checkpoint_head o ch);
  checkpoint ← io_of (map_err (λ e, failure (Svc.Checkpoint e))
    (build_checkpoint nfc (checkpoint_binding o ch x previous) (cx_accepted x)));
  staged_checkpoint ← store_stage o Ot.Evidence checkpoint ECP_MAX_RAW_BYTES_V1;
  _ ← put_verified staged_checkpoint o (cx_now x);
  mret {| pp_receipt := receipt; pp_receipt_bytes := receipt_exact; pp_receipt_object := staged_receipt;
          pp_previous := previous; pp_checkpoint_bytes := checkpoint; pp_checkpoint_object := staged_checkpoint |}.

Definition prepare_commit (request : EntryCommitRequestV1) (o : OrganizationId) (ch : ChainId) (x : Checked) : cio Prepared :=
  _ ← put_verified (cx_entry x) o (cx_now x);
  _ ← put_all (cx_grants x) o (cx_now x);
  prepare_documents request o ch x.

Definition commit_command (request : EntryCommitRequestV1) (o : OrganizationId) (ch : ChainId) (x : Checked) (p : Prepared)
    : CommitDbCommand := {|
  cd_organization := o; cd_chain := ch; cd_device := vc_device (cx_valid x); cd_sequence := vc_sequence (cx_valid x);
  cd_previous := vc_previous (cx_valid x); cd_identity := db_identity (rq_identity request);
  cd_recipients := vc_recipients (cx_valid x); cd_receipt := so_hash (pp_receipt_object p); cd_accepted := cx_accepted x;
  cd_due := rf_due (rv_fields (pp_receipt p)); cd_registry_version := ah_version (cx_head x);
  cd_registry_head := ah_hash (cx_head x);
  cd_objects := vc_objects (cx_valid x) ++ [indexed (pp_receipt_object p) Ot.Receipt; indexed (pp_checkpoint_object p) Ot.Evidence];
  cd_checkpoint := {| cc_object := so_hash (pp_checkpoint_object p); cc_covered := vc_sequence (cx_valid x);
                      cc_issued := cx_accepted x; cc_previous := pp_previous p |} |}.

(** Step 8. *)
Definition make_visible (request : EntryCommitRequestV1) (o : OrganizationId) (ch : ChainId) (x : Checked) (p : Prepared)
    : cio CommittedDbState :=
  r ← io_try (commit_request (commit_command request o ch x p));
  match r with
  | Ok committed => mret committed
  | Err Repo.CommitIdentityConflict =>
      _ ← record o Sec.EntryIdentityMismatch (vc_entry_hash (cx_valid x)) (cx_now x);
      io_of (Err (failure Svc.IdentityConflict))
  | Err Repo.HeadConflict => classify_head_conflict (cx_valid x) (cx_current x) o ch (cx_now x)
  | Err Repo.CheckpointPredecessorConflict =>
      _ ← record_subject o Sec.CheckpointPredecessorConflict (object_key Ot.Evidence (so_hash (pp_checkpoint_object p))) (cx_now x);
      io_of (Err (failure (Svc.Checkpoint Cpt.PredecessorConflict)))
  | Err e => io_of (Err (failure (Svc.of_repository e)))
  end.

(** Step 9. *)
Definition deliver (p : Prepared) (committed : CommittedDbState) : cio CommitOutcome :=
  stored ← read_back (cs_receipt committed) (Svc.Receipt Rcp.ReadBack);
  stored_checkpoint ← read_back (cs_checkpoint committed) (Svc.Checkpoint Cpt.ReadBack);
  if cs_new committed then
    if bool_decide (stored ≠ pp_receipt_bytes p) then io_of (Err (failure (Svc.Receipt Rcp.ReadBack))) else
    if bool_decide (stored_checkpoint ≠ pp_checkpoint_bytes p) then io_of (Err (failure (Svc.Checkpoint Cpt.ReadBack))) else
    mret (Accepted stored stored_checkpoint)
  else mret (IdempotentReplay stored stored_checkpoint).

Definition commit_entry (request : EntryCommitRequestV1) (o : OrganizationId) (ch : ChainId) (writer : CertificateHash)
    : cio CommitOutcome :=
  x ← check_request request o ch writer;
  p ← prepare_commit request o ch x;
  committed ← make_visible request o ch x p;
  deliver p committed.

(** ** Objects no commit names ([reconcile.rs]) *)

Definition parsed_type (p : Object) : ObjectTypeV1 :=
  match p with
  | Entry _ => Ot.Entry | Grant _ => Ot.Grant | Receipt _ => Ot.Receipt
  | Evidence _ => Ot.Evidence | Trust _ => Ot.Trust | Destroyed _ => Ot.Destroyed
  end.

Inductive ReconcileOutcomeV1 := Adopted | InvisibleOrphan | Quarantined.
Inductive ReconcileError := ReconcileNotFound | ReconcileUnavailable.

Definition reconcile_error_code (e : ReconcileError) : string :=
  match e with
  | ReconcileNotFound => "EA-RECONCILE-NOT-FOUND"
  | ReconcileUnavailable => "EA-RECONCILE-DEPENDENCY-UNAVAILABLE"
  end.

Definition quarantine (h : ObjectHash) (expected : ObjectTypeV1) (o : OrganizationId) : io ReconcileError ReconcileOutcomeV1 :=
  now ← clock_now;
  _ ← io_ignore (sink_record object_hash {| ev_organization := o; ev_kind := Sec.ObjectHashConflict;
                                            ev_subject := object_key expected h; ev_observed := now |});
  mret Quarantined.

Definition reconcile_object (h : ObjectHash) (expected : ObjectTypeV1) (o : OrganizationId)
    : io ReconcileError ReconcileOutcomeV1 :=
  bytes ← io_map_err (λ e, match e with Obj.NotFound => ReconcileNotFound | _ => ReconcileUnavailable end)
    (get_exact_in object_hash expected h);
  if bool_decide (object_hash bytes ≠ h) then quarantine h expected o else
  match decode_exact_object bytes with
  | Err _ => quarantine h expected o
  | Ok object =>
      if bool_decide (parsed_type object ≠ expected) then quarantine h expected o else
      referenced ← io_map_err (λ _, ReconcileUnavailable) (directory_type_of object_hash h);
      match referenced with
      | Some kind => if bool_decide (kind = expected) then mret Adopted else quarantine h expected o
      | None => mret InvisibleOrphan
      end
  end.

(** ** What every commit keeps *)

Context (grant_entry : ObjectHash → EntryHash) (entry_chain : EntryHash → OrganizationId * ChainId).
Abbreviation keeps := (keeps object_hash grant_entry entry_chain).
Abbreviation grows := (grows object_hash grant_entry entry_chain).
Abbreviation held := (holds grant_entry entry_chain).

#[local] Existing Instance grows_preorder.

Lemma keeps_commit_request c : well_formed grant_entry entry_chain c → keeps (commit_request c).
Proof.
  intros Hwf s s' r. unfold commit_request. destruct (next_call object_hash s) as [s1 f] eqn:En.
  apply (next_call_grows _ grant_entry entry_chain) in En as [Hg _].
  destruct (commit_locked_head f c (sv_tables s1)) as [t r1] eqn:Ec. intros [= <- <-]. etransitivity; [exact Hg|].
  split; [done|]. intros Hc. split; [done|]. intros log Hl. destruct (commit_held _ _ _ _ _ _ _ _ Hl Hwf Ec) as (more & Hm & _).
  by exists more.
Qed.

Lemma keeps_record_subject o k subject now : keeps (record_subject o k subject now).
Proof. unfold record_subject. keep. Qed.

Lemma keeps_event o k entry now : keeps (record o k entry now).
Proof. apply keeps_record_subject. Qed.

Lemma keeps_store_stage o k bytes limit : keeps (store_stage o k bytes limit).
Proof. unfold store_stage, call_store. keep. apply keeps_stage. Qed.

Lemma keeps_stage_grants o grants : keeps (stage_grants o grants).
Proof. induction grants as [|b grants IH]; cbn [stage_grants]; keep. apply keeps_store_stage. Qed.

Lemma keeps_validation_failure {A} e entry bound head o now : keeps (validation_failure (A := A) e entry bound head o now).
Proof. unfold validation_failure. keep. apply keeps_event. Qed.

Lemma keeps_classify {A} v current o ch now : keeps (classify_head_conflict (A := A) v current o ch now).
Proof. unfold classify_head_conflict, read_head_state. keep; apply keeps_event. Qed.

Lemma keeps_read_back h missing : keeps (read_back h missing).
Proof. unfold read_back. keep. apply keeps_get_exact. Qed.

Lemma keeps_deliver p committed : keeps (deliver p committed).
Proof. unfold deliver. keep; apply keeps_read_back. Qed.

Lemma keeps_check_request request o ch writer : keeps (check_request request o ch writer).
Proof.
  unfold check_request, call_repository, read_head_state. keep;
    [apply keeps_store_stage|apply keeps_stage_grants|apply keeps_validation_failure].
Qed.

(** ** Steps with what they need and leave *)

Abbreviation stored := (stored object_hash).
Abbreviation staged_there := (staged_there object_hash).

(** From a state with [P] the code keeps everything; a result has [Q]. *)
Definition triple {E A} (P : Server → Prop) (m : io E A) (Q : A → Server → Prop) : Prop :=
  ∀ s s' r, P s → m s = (s', r) → grows s s' ∧ ∀ a, r = Ok a → Q a s'.

Lemma triple_bind {E A B} P (m : io E A) Q (k : A → io E B) R :
  triple P m Q → (∀ a, triple (Q a) (k a) R) → triple P (m ≫= k) R.
Proof.
  intros Hm Hk s s' r HP. unfold mbind, io_bind. destruct (m s) as [s1 [a|e]] eqn:Em.
  - destruct (Hm _ _ _ HP Em) as [Hg HQ]. intros Hr. destruct (Hk a _ _ _ (HQ a eq_refl) Hr) as [Hg' HR].
    split; [by etransitivity|done].
  - intros [= <- <-]. split; [by eapply Hm|done].
Qed.

Lemma triple_keeps {E A} P (m : io E A) : keeps m → triple P m (λ a s', ∃ s, P s ∧ m s = (s', Ok a)).
Proof. intros Hm s s' r HP Hr. split; [by eapply Hm|]. intros a ->. by exists s. Qed.

Lemma triple_any {E A} P (m : io E A) : keeps m → triple P m (λ _ _, True).
Proof. intros Hm s s' r HP Hr. split; [by eapply Hm|done]. Qed.

Lemma triple_of {E A} P (r : result E A) : triple P (io_of r) (λ a s, r = Ok a ∧ P s).
Proof. intros s s' r' HP [= <- <-]. split; [reflexivity|]. by intros a ->. Qed.

Lemma triple_ret {E A} (a : A) (Q : A → Server → Prop) : triple (Q a) (mret a : io E A) Q.
Proof. intros s s' r HQ [= <- <-]. split; [reflexivity|]. by intros ? [= <-]. Qed.

Lemma triple_weaken {E A} P P' (m : io E A) Q Q' :
  triple P m Q → (∀ s, P' s → P s) → (∀ a s, Q a s → Q' a s) → triple P' m Q'.
Proof. intros Ht HP HQ s s' r Hs Hr. destruct (Ht s s' r (HP _ Hs) Hr) as [Hg Ha]. split; [done|]. eauto. Qed.

(** What is stored stays stored. *)
Definition all_stored (l : list (ObjectTypeV1 * ObjectHash)) (s : Server) : Prop := Forall (λ p, stored s p.1 p.2) l.

Lemma all_stored_grows l s s' : grows s s' → all_stored l s → all_stored l s'.
Proof. intros [Hs _] Hl. eapply Forall_impl; [exact Hl|]. intros p. apply Hs. Qed.

Lemma triple_frame {E A} l P (m : io E A) Q :
  triple P m Q → triple (λ s, P s ∧ all_stored l s) m (λ a s, Q a s ∧ all_stored l s).
Proof.
  intros Ht s s' r [HP Hl] Hr. destruct (Ht s s' r HP Hr) as [Hg Ha]. split; [done|]. intros a Ea. split; [by apply Ha|].
  by eapply all_stored_grows.
Qed.

Lemma put_verified_triple o org now :
  is_staging (so_key o) →
  triple (λ s, guarded (so_kind o) = true ∨ staged_there s o) (put_verified o org now)
    (λ _ s, stored s (so_kind o) (so_hash o)).
Proof.
  intros Hst s s' r Hpre. unfold put_verified, mbind at 1, io_bind at 1, io_try.
  destruct (put_if_absent object_hash decode_exact_object org reports_length o s) as [s1 r1] eqn:Ep.
  destruct (put_if_absent_spec _ _ _ _ grant_entry entry_chain _ _ _ _ Hst Hpre Ep) as [Hg Hs].
  destruct r1 as [x|e]; intros Hr.
  { injection Hr as <- <-. split; [done|]. intros _ _. by eapply Hs. }
  match type of Hr with ?m s1 = _ => assert (keeps m) as Hk end.
  { keep. apply keeps_record_subject. }
  split; [etransitivity; [exact Hg|by eapply Hk]|]. intros a ->. exfalso. clear - Hr. destruct e.
  1: apply io_bind_Ok in Hr as (? & [] & _ & Hr).
  all: by apply io_of_Ok in Hr as [_ ?].
Qed.

Lemma put_all_triple l org now :
  Forall (λ o, is_staging (so_key o) ∧ guarded (so_kind o) = true) l →
  triple (λ _, True) (put_all l org now) (λ _ s, all_stored ((λ o, (so_kind o, so_hash o)) <$> l) s).
Proof.
  induction 1 as [|o l [Hst Hg] _ IH]; cbn [put_all].
  { eapply triple_weaken; [apply (triple_ret tt (λ _ _, True))|done|]. intros _ s _. exact (Forall_nil_2 _). }
  eapply triple_bind.
  - apply (triple_weaken _ (λ _, True) _ _ (λ _ s, True ∧ all_stored [(so_kind o, so_hash o)] s) (put_verified_triple o org now Hst));
      [intros; by left|]. intros _ s Hs. split; [done|]. constructor; [exact Hs|constructor].
  - intros u. eapply triple_weaken; [apply (triple_frame [(so_kind o, so_hash o)] _ _ _ IH)|done|].
    intros _ s [Hl Hs]. cbn. inversion Hs; subst. by constructor.
Qed.

(** Staging and taking over a document of the service. *)
Lemma stage_triple org k bytes limit P :
  triple P (store_stage org k bytes limit) (λ o s, so_kind o = k ∧ so_hash o = object_hash bytes ∧ is_staging (so_key o) ∧
    staged_there s o).
Proof.
  intros s s' r _ Hr. split; [by eapply keeps_store_stage|]. intros a ->. unfold store_stage, call_store in Hr.
  apply io_map_err_Ok, stage_stream_Ok in Hr as (H1 & H2 & _ & H3 & H4). cbn [concat] in H2. by rewrite app_nil_r in H2.
Qed.

(** *** The steps of a commit *)

(** What is known of a request that passed the checks. *)
Record checked_ok (request : EntryCommitRequestV1) (o : OrganizationId) (ch : ChainId) (writer : CertificateHash) (x : Checked)
    (entry : Parsed EntryPackageV1) (grants : list (Parsed GrantV1)) : Prop := {
  co_entry : decode_exact_object (rq_entry request) = Ok (Entry entry);
  co_valid : validated decode_exact_object grant_plan_digest writer_signature_valid issuer_signature_valid
    request entry o ch writer (cx_head x) (cx_valid x) grants;
  co_staged_entry : so_kind (cx_entry x) = Ot.Entry ∧ so_hash (cx_entry x) = p_object_hash entry ∧ is_staging (so_key (cx_entry x));
  co_staged_grants : Forall (λ g, so_kind g = Ot.Grant ∧ is_staging (so_key g)) (cx_grants x) ∧
    so_hash <$> cx_grants x = vc_grants (cx_valid x);
  co_accepted : cx_accepted x = accepted_at (cx_now x) (ch_accepted <$> cx_current x);
}.

Lemma stage_grants_Ok o grants s s' l :
  stage_grants o grants s = (s', Ok l) → Forall (λ g, so_kind g = Ot.Grant ∧ is_staging (so_key g)) l.
Proof.
  revert s l. induction grants as [|b grants IH]; intros s l; cbn [stage_grants]; [by intros [= <- <-]|].
  intros (s1 & g & Hg & H1)%io_bind_Ok. apply io_bind_Ok in H1 as (s2 & rest & Hr & H1). injection H1 as <- <-.
  apply (stage_triple o _ _ _ (λ _, True) _ _ _ I) in Hg as [_ Hg]. destruct (Hg _ eq_refl) as (? & _ & ? & _).
  constructor; [done|]. by eapply IH.
Qed.

Lemma hashes_agree_Ok staged expected :
  len staged = len expected → hashes_agree staged expected = true → so_hash <$> staged = expected.
Proof.
  unfold hashes_agree, len. revert expected. induction staged as [|x staged IH]; intros [|e expected]; cbn; try done; try lia.
  intros Hl [He Ha]%andb_true_iff. apply bool_decide_eq_true in He. f_equal; [done|]. apply IH; [lia|done].
Qed.

Lemma check_request_Ok request o ch writer s s' x :
  check_request request o ch writer s = (s', Ok x) → ∃ entry grants, checked_ok request o ch writer x entry grants.
Proof.
  unfold check_request. intros (s1 & se & Hse & H1)%io_bind_Ok. apply io_bind_Ok in H1 as (s2 & sg & Hsg & H1).
  apply io_bind_Ok in H1 as (s3 & entry & He & H1). apply io_of_Ok in He as [-> He]. apply map_err_Ok in He.
  apply io_bind_Ok in H1 as (s4 & now & _ & H1). apply io_bind_Ok in H1 as (s5 & current & _ & H1).
  apply io_bind_Ok in H1 as (s6 & head & _ & H1). case_bool_decide as Hh; [by apply io_of_Ok in H1 as [_ ?]|].
  destruct (validate_commit _ _ _ _ _ _ _ _ _ _) as [v|e] eqn:Ev.
  2:{ unfold validation_failure in H1. apply io_bind_Ok in H1 as (? & [] & _ & H1). by apply io_of_Ok in H1 as [_ ?]. }
  destruct (negb _) eqn:El; [by apply io_of_Ok in H1 as [_ ?]|]. apply negb_false_iff, Z.eqb_eq in El.
  destruct (negb _) eqn:Eg; [by apply io_of_Ok in H1 as [_ ?]|]. apply negb_false_iff in Eg. injection H1 as <- <-.
  apply validate_commit_Ok in Ev as [grants Hv]. exists entry, grants. split; cbn; try done.
  - unfold parse_entry in He. destruct (decode_exact_object (rq_entry request)) as [[]|]; try done. by injection He as <-.
  - apply (stage_triple o _ _ _ (λ _, True) _ _ _ I) in Hse as [_ Hse]. destruct (Hse _ eq_refl) as (? & _ & ? & _). done.
  - split; [by eapply stage_grants_Ok|by apply hashes_agree_Ok].
Qed.

(** What is put before a commit becomes visible. *)
Record prepared_ok (request : EntryCommitRequestV1) (o : OrganizationId) (ch : ChainId) (x : Checked) (p : Prepared) (s : Server) : Prop := {
  po_entry : stored s Ot.Entry (so_hash (cx_entry x));
  po_grants : Forall (λ g, stored s Ot.Grant (so_hash g)) (cx_grants x);
  po_receipt : stored s Ot.Receipt (so_hash (pp_receipt_object p)) ∧
    so_hash (pp_receipt_object p) = object_hash (pp_receipt_bytes p);
  po_checkpoint : stored s Ot.Evidence (so_hash (pp_checkpoint_object p)) ∧
    so_hash (pp_checkpoint_object p) = object_hash (pp_checkpoint_bytes p);
  po_built : build_receipt (receipt_binding request o ch x) (ah_policy (cx_head x)) (cx_accepted x) = Ok (pp_receipt p) ∧
    exact_receipt_bytes nfc (pp_receipt p) = Ok (pp_receipt_bytes p) ∧
    build_checkpoint nfc (checkpoint_binding o ch x (pp_previous p)) (cx_accepted x) = Ok (pp_checkpoint_bytes p);
}.

Lemma document_triple {A} o k bytes limit now (next : StagedObject → cio A) (l : list (ObjectTypeV1 * ObjectHash)) (R : A → Server → Prop) :
  (∀ so, so_kind so = k → so_hash so = object_hash bytes →
     triple (all_stored ((k, object_hash bytes) :: l)) (next so) R) →
  triple (all_stored l) (so ← store_stage o k bytes limit; _ ← put_verified so o now; next so) R.
Proof.
  intros Hnext. eapply triple_bind.
  { eapply triple_weaken; [apply (triple_frame l (λ _, True)), stage_triple|done|]. intros so s Hq. exact Hq. }
  intros so. intros s s' r [(Hk & Hh & Hst & Hthere) Hl]. revert s s' r Hthere Hl.
  enough (triple (λ s, staged_there s so ∧ all_stored l s) (_ ← put_verified so o now; next so) R) as Ht.
  { intros s s' r H1 H2. by apply Ht. }
  eapply triple_bind.
  { eapply triple_weaken; [apply (triple_frame l), (put_verified_triple so o now Hst)| |].
    - intros s [Ht Hl]. split; [by right|done].
    - intros u s Hq. exact Hq. }
  intros u. eapply triple_weaken; [by apply (Hnext so)| |done]. intros s [Hs Hl].
  constructor; [|done]. cbn. by rewrite <- Hk, <- Hh.
Qed.

(** A pure step in between. *)
Lemma pure_triple {A B} (r : result CommitFailure A) (next : A → cio B) P R :
  (∀ a, r = Ok a → triple P (next a) R) → triple P (a ← io_of r; next a) R.
Proof.
  intros Hn. eapply triple_bind; [apply triple_of|]. intros a s s' r' [Ha HP]. by apply (Hn a Ha).
Qed.

(** A step of which only what it keeps matters. *)
Lemma skip_triple {A B} (m : cio A) (next : A → cio B) l R :
  keeps m → (∀ a, triple (all_stored l) (next a) R) → triple (all_stored l) (a ← m; next a) R.
Proof.
  intros Hm Hn. eapply triple_bind; [|exact Hn].
  eapply triple_weaken; [apply (triple_frame l (λ _, True)), triple_any, Hm|done|]. by intros a s [_ Hl].
Qed.

(** The keys under which the entry and the grants are put. *)
Definition request_keys (x : Checked) : list (ObjectTypeV1 * ObjectHash) :=
  (so_kind (cx_entry x), so_hash (cx_entry x)) :: ((λ o, (so_kind o, so_hash o)) <$> cx_grants x).

Lemma documents_triple request o ch writer x entry grants :
  checked_ok request o ch writer x entry grants →
  triple (all_stored (request_keys x)) (prepare_documents request o ch x) (prepared_ok request o ch x).
Proof.
  intros [_ _ (Hk & _ & Hst) [Hg _] _]. unfold prepare_documents.
  apply pure_triple. intros receipt Hr%map_err_Ok. apply pure_triple. intros exact_ He%map_err_Ok.
  apply document_triple. intros so Hso Hsh. apply skip_triple; [unfold call_repository, read_checkpoint_head; keep|].
  intros previous. apply pure_triple. intros checkpoint Hc%map_err_Ok.
  apply document_triple. intros so' Hso' Hsh'.
  eapply triple_weaken; [apply triple_ret with (Q := λ p s, prepared_ok request o ch x p s)| |done].
  intros s Hl. apply Forall_cons in Hl as [H1 Hl]. apply Forall_cons in Hl as [H2 Hl].
  apply Forall_cons in Hl as [H3 Hl]. cbn [fst snd] in *. split; cbn.
  - by rewrite <- Hk.
  - rewrite Forall_fmap in Hl. pose proof (conj Hl Hg) as Hb. rewrite <- Forall_and in Hb. eapply Forall_impl; [exact Hb|].
    intros g [Hgs [Hgk _]]. cbn in Hgs. by rewrite <- Hgk.
  - by rewrite Hsh.
  - by rewrite Hsh'.
  - done.
Qed.

Lemma prepare_triple request o ch writer x entry grants P :
  checked_ok request o ch writer x entry grants →
  triple P (prepare_commit request o ch x) (prepared_ok request o ch x).
Proof.
  intros Hx. pose proof Hx as [_ _ (Hk & _ & Hst) [Hg _] _]. unfold prepare_commit. set (e := (so_kind (cx_entry x), so_hash (cx_entry x))).
  apply (triple_bind _ _ (λ _ s, True ∧ all_stored [e] s)).
  { eapply triple_weaken; [apply (put_verified_triple _ o (cx_now x) Hst)| |].
    - intros s _. left. by rewrite Hk.
    - intros u s Hs. split; [done|]. constructor; [exact Hs|constructor]. }
  intros _u. eapply triple_bind.
  { apply (triple_frame [e]), (put_all_triple (cx_grants x)).
    eapply Forall_impl; [exact Hg|]. intros g [Hgk Hgs]. split; [done|by rewrite Hgk]. }
  intros _v. eapply triple_weaken; [by eapply documents_triple| |done].
  intros s [Hl He]. inversion He; subst. by constructor.
Qed.

(** *** The command of a commit *)

(** The hash of a grant determines the entry it names, and the hash of an entry
    the chain it belongs to. *)
Record object_names : Prop := {
  on_grant b g : decode_exact_object b = Ok (Grant g) → grant_entry (p_object_hash g) = gt_entry_hash (value g);
  on_entry b e : decode_exact_object b = Ok (Entry e) →
    entry_chain (ep_entry_hash (value e)) = (mf_organization (ep_manifest (value e)), mf_chain (ep_manifest (value e)));
}.

Lemma grants_named request o ch writer x entry grants :
  request_ok decode_exact_object request → checked_ok request o ch writer x entry grants →
  vc_grants (cx_valid x) = ei_grants (rq_identity request) ∧
  (object_names → ∀ g, g ∈ ei_grants (rq_identity request) → grant_entry g = ep_entry_hash (value entry)).
Proof.
  intros Hq Hx. destruct (vd_answer _ _ _ _ _ _ _ _ _ _ _ _ (co_valid _ _ _ _ _ _ _ Hx)) as (_ & _ & _ & _ & ->).
  pose proof (parse_grants_Ok _ _ _ _ _ _ _ (vd_grants _ _ _ _ _ _ _ _ _ _ _ _ (co_valid _ _ _ _ _ _ _ Hx))) as Hp.
  pose proof (rk_grants _ _ Hq) as Hr. revert Hp Hr. generalize (ei_grants (rq_identity request)).
  generalize (rq_grants request). clear Hq Hx. intros bytes hashes Hp. revert hashes.
  induction Hp as [|b g bytes grants (Hd & _ & He & _) _ IH]; intros hashes Hr; inversion Hr as [|h ? hashes' ? (g' & Hd' & Hg') Hr']; subst.
  { split; [done|]. by intros _ g ?%elem_of_nil. }
  assert (g' = g) as -> by congruence. destruct (IH _ Hr') as [<- Hn]. split; [done|].
  intros Ho h [->|Hh]%elem_of_cons; [|by apply Hn]. by rewrite (on_grant Ho b g Hd).
Qed.

Lemma command_well_formed request o ch writer x entry grants p :
  object_names → request_ok decode_exact_object request → checked_ok request o ch writer x entry grants →
  well_formed grant_entry entry_chain (commit_command request o ch x p).
Proof.
  intros Ho Hq Hx. destruct (rk_entry _ _ Hq) as (e & He & Heh & _).
  assert (e = entry) as -> by (pose proof (co_entry _ _ _ _ _ _ _ Hx); congruence).
  destruct (grants_named _ _ _ _ _ _ _ Hq Hx) as [_ Hn]. split; cbn.
  - done.
  - done.
  - unfold entry_of. cbn. rewrite Heh, (on_entry Ho _ _ He). pose proof (co_valid _ _ _ _ _ _ _ Hx) as Hv.
    rewrite (vd_organization _ _ _ _ _ _ _ _ _ _ _ _ Hv). by destruct (vd_chain _ _ _ _ _ _ _ _ _ _ _ _ Hv) as [-> _].
  - apply (rk_sorted _ _ Hq).
  - intros g Hg. unfold entry_of. cbn. rewrite Heh. by apply (Hn Ho).
Qed.

Lemma keeps_make_visible request o ch writer x entry grants p :
  object_names → request_ok decode_exact_object request → checked_ok request o ch writer x entry grants →
  keeps (make_visible request o ch x p).
Proof.
  intros Ho Hq Hx. unfold make_visible. keep;
    first [eapply keeps_commit_request, command_well_formed; eassumption|apply keeps_event|apply keeps_classify|apply keeps_record_subject].
Qed.

Lemma make_visible_Ok request o ch writer x entry grants p s s' st log :
  object_names → request_ok decode_exact_object request → checked_ok request o ch writer x entry grants →
  make_visible request o ch x p s = (s', Ok st) → calls_ok grant_entry entry_chain s → held log (sv_tables s) →
  calls_ok grant_entry entry_chain s' ∧
  ∃ more, held (log ++ more) (sv_tables s') ∧ answers (log ++ more) (commit_command request o ch x p) st.
Proof.
  intros Ho Hq Hx Hr Hc Hl. pose proof (command_well_formed _ _ _ _ _ _ _ p Ho Hq Hx) as Hwf. unfold make_visible in Hr.
  apply io_bind_Ok in Hr as (s1 & r & Hr & Hd). unfold io_try, commit_request in Hr.
  destruct (next_call object_hash s) as [s2 f] eqn:En. apply (next_call_grows _ grant_entry entry_chain) in En as [Hg _].
  destruct (gr_tables _ _ _ _ _ Hg Hc) as [Hc2 Ht]. destruct (Ht log Hl) as [m1 Hm1].
  destruct (commit_locked_head f _ (sv_tables s2)) as [t r2] eqn:Ec. injection Hr as <- <-.
  destruct (commit_held _ _ _ _ _ _ _ _ Hm1 Hwf Ec) as (m2 & Hm2 & Ha).
  assert (r2 = Ok st ∧ s' = with_tables t s2) as [-> ->].
  { clear - Hd. destruct r2 as [st'|e]; [injection Hd as <- <-; done|]. exfalso. destruct e.
    1: unfold classify_head_conflict in Hd.
    all: repeat (first [apply io_of_Ok in Hd as [_ ?]; done
      | apply io_bind_Ok in Hd as (? & ? & _ & Hd); try (destruct a; []) | case_bool_decide
      | match type of Hd with (match ?x with _ => _ end) _ = _ => destruct x | (if ?x then _ else _) _ = _ => destruct x end]). }
  split; [done|]. rewrite <- app_assoc in Hm2, Ha. exists (m1 ++ m2). split; [done|]. by apply Ha.
Qed.

(** *** The answer *)

Lemma read_back_Ok h missing s s' b : read_back h missing s = (s', Ok b) → object_hash b = h.
Proof.
  unfold read_back. intros (s1 & r & _ & Hr)%io_bind_Ok. destruct r as [bytes|e].
  - case_bool_decide as Hh; [by apply io_of_Ok in Hr as [_ ?]|]. by injection Hr as _ <-.
  - destruct e; by apply io_of_Ok in Hr as [_ ?].
Qed.

Lemma deliver_Ok p st s s' outcome :
  deliver p st s = (s', Ok outcome) →
  object_hash (receipt_bytes outcome) = cs_receipt st ∧ object_hash (checkpoint_bytes outcome) = cs_checkpoint st ∧
  (if cs_new st then outcome = Accepted (pp_receipt_bytes p) (pp_checkpoint_bytes p)
   else outcome = IdempotentReplay (receipt_bytes outcome) (checkpoint_bytes outcome)).
Proof.
  unfold deliver. intros (s1 & b1 & H1 & Hr)%io_bind_Ok. apply io_bind_Ok in Hr as (s2 & b2 & H2 & Hr).
  apply read_back_Ok in H1, H2. destruct (cs_new st).
  - case_bool_decide as E1; [by apply io_of_Ok in Hr as [_ ?]|]. case_bool_decide as E2; [by apply io_of_Ok in Hr as [_ ?]|].
    injection Hr as <- <-. cbn. by subst.
  - by injection Hr as <- <-.
Qed.

(** The receipt [f] states what the database holds of the commit [x]. *)
Record receipt_of_commit (f : ReceiptCoreFieldsV1) (x : CommitDbCommand) : Prop := {
  rc_place : rf_organization f = cd_organization x ∧ rf_chain f = cd_chain x ∧ rf_sequence f = cd_sequence x ∧
    rf_previous f = cd_previous x;
  rc_identity : rf_entry_hash f = entry_of x ∧ rf_entry_object f = id_entry_object (cd_identity x) ∧
    rf_plan f = id_plan (cd_identity x) ∧ rf_grants f = commit_grants x;
  rc_head : rf_registry_version f = cd_registry_version x ∧ rf_registry_head f = cd_registry_head x;
  rc_times : rf_accepted f = cd_accepted x ∧ rf_due f = cd_due x;
}.

(** What an answered request can rely on: [x] is its commit in the log, entry and
    grants are stored, and the answer has the bytes of the receipt and the
    checkpoint that the commit names. *)
Record delivered (request : EntryCommitRequestV1) (o : OrganizationId) (ch : ChainId) (s : Server) (outcome : CommitOutcome)
    (log : list CommitDbCommand) (x : CommitDbCommand) : Prop := {
  dl_held : held log (sv_tables s);
  dl_log : x ∈ log;
  dl_identity : cd_identity x = db_identity (rq_identity request) ∧ chain_key x = (o, ch);
  dl_stored : stored s Ot.Entry (ei_entry_object (rq_identity request)) ∧
    Forall (stored s Ot.Grant) (ei_grants (rq_identity request));
  dl_bytes : object_hash (receipt_bytes outcome) = cd_receipt x ∧ object_hash (checkpoint_bytes outcome) = checkpoint_of x;
  dl_accepted r c : outcome = Accepted r c →
    stored s Ot.Receipt (cd_receipt x) ∧ stored s Ot.Evidence (checkpoint_of x) ∧
    ∃ f, receipt_document f r ∧ receipt_of_commit f x;
}.

Lemma prepared_receipt request o ch writer x entry grants p s :
  request_ok decode_exact_object request → checked_ok request o ch writer x entry grants →
  prepared_ok request o ch x p s →
  receipt_document (rv_fields (pp_receipt p)) (pp_receipt_bytes p) ∧
  receipt_of_commit (rv_fields (pp_receipt p)) (commit_command request o ch x p).
Proof.
  intros Hq Hx [_ _ _ _ (Hb & He & _)]. split; [by eapply receipt_document_of|].
  destruct (build_receipt_Ok _ _ _ _ Hb) as [(P1 & P2 & P3 & P4) (E1 & E2 & E3) (R1 & R2 & _) [G1 _] [T1 T2] _].
  destruct (grants_named _ _ _ _ _ _ _ Hq Hx) as [Hgr _]. destruct (rk_entry _ _ Hq) as (e & Hd & Heh & Heo).
  assert (e = entry) as -> by (pose proof (co_entry _ _ _ _ _ _ _ Hx); congruence).
  destruct (vd_answer _ _ _ _ _ _ _ _ _ _ _ _ (co_valid _ _ _ _ _ _ _ Hx)) as (A1 & A2 & _).
  cbn in *. split; cbn; split_and?; unfold entry_of, commit_grants; cbn; try congruence.
  rewrite G1, Hgr. apply sort_by_key_id, (rk_sorted _ _ Hq).
Qed.

Lemma answers_app log more c st : answers log c st → answers (log ++ more) c st.
Proof. intros (x & Hx & Ha). exists x. split; [apply elem_of_app; by left|done]. Qed.

(** The run of a commit, step by step. *)
Lemma commit_entry_steps request o ch writer s s' r :
  object_names → request_ok decode_exact_object request → commit_entry request o ch writer s = (s', r) →
  grows s s' ∧ ∀ outcome, r = Ok outcome → ∃ x entry grants p s1 s2 st,
    checked_ok request o ch writer x entry grants ∧ grows s s1 ∧ prepared_ok request o ch x p s1 ∧
    make_visible request o ch x p s1 = (s2, Ok st) ∧ grows s1 s2 ∧ deliver p st s2 = (s', Ok outcome) ∧ grows s2 s'.
Proof.
  intros Ho Hq. unfold commit_entry. unfold mbind at 1, io_bind at 1.
  destruct (check_request request o ch writer s) as [s1 [x|e]] eqn:E1; pose proof (keeps_check_request _ _ _ _ _ _ _ E1) as G1.
  2:{ intros [= <- <-]. done. }
  destruct (check_request_Ok _ _ _ _ _ _ _ E1) as (entry & grants & Hx). unfold mbind at 1, io_bind at 1.
  destruct (prepare_commit request o ch x s1) as [s2 [p|e]] eqn:E2;
    destruct (prepare_triple _ _ _ _ _ _ _ (λ _, True) Hx _ _ _ I E2) as [G2 Hp].
  2:{ intros [= <- <-]. split; [by etransitivity|done]. }
  unfold mbind at 1, io_bind at 1.
  destruct (make_visible request o ch x p s2) as [s3 [st|e]] eqn:E3;
    pose proof (keeps_make_visible _ _ _ _ _ _ _ p Ho Hq Hx _ _ _ E3) as G3.
  2:{ intros [= <- <-]. split; [etransitivity; [by etransitivity|done]|done]. }
  intros E4. pose proof (keeps_deliver _ _ _ _ _ E4) as G4. split; [etransitivity; [etransitivity; [exact G1|exact G2]|by etransitivity]|].
  intros outcome ->. exists x, entry, grants, p, s2, s3, st. split_and!; try done; [by etransitivity|by apply Hp].
Qed.

(** C19. Whatever other commits and uploads of objects do in between (a
    destruction of entries, which deletes objects, does not run beside it) and
    wherever the bucket, the database or the sink fails: a commit that is answered, newly or again, is in
    the log of its chain with the identity of the request. Its entry and grants
    are in the bucket, and the answer has exactly the bytes under the hashes of
    the receipt and checkpoint that the database names. A new receipt states the
    place, grants, registry head and times that the database holds. *)
Theorem commit_entry_delivers request entry plan grants o ch writer s s' outcome log :
  object_names → EntryCommitRequestV1_new decode_exact_object entry plan grants = Ok request →
  calls_ok grant_entry entry_chain s → held log (sv_tables s) →
  commit_entry request o ch writer s = (s', Ok outcome) →
  ∃ more x, delivered request o ch s' outcome (log ++ more) x.
Proof.
  intros Ho Hq%request_new_ok Hc Hl Hr.
  destruct (commit_entry_steps _ _ _ _ _ _ _ Ho Hq Hr) as [_ Hs].
  destruct (Hs outcome eq_refl) as (x & e & gs & p & s1 & s2 & st & Hx & G1 & Hp & Hv & G2 & Hd & G3).
  destruct (gr_tables _ _ _ _ _ G1 Hc) as [Hc1 Ht1]. destruct (Ht1 log Hl) as [m1 Hl1].
  destruct (make_visible_Ok _ _ _ _ _ _ _ _ _ _ _ _ Ho Hq Hx Hv Hc1 Hl1) as (Hc2 & m2 & Hl2 & Ha).
  destruct (gr_tables _ _ _ _ _ G3 Hc2) as [_ Ht3]. destruct (Ht3 _ Hl2) as [m3 Hl3].
  destruct (deliver_Ok _ _ _ _ _ Hd) as (Hb1 & Hb2 & Hout). assert (grows s1 s') as G23 by (by etransitivity).
  destruct (prepared_receipt _ _ _ _ _ _ _ _ _ Hq Hx Hp) as [Hdoc Hof]. destruct Hp as [P1 P2 [P3 _] [P4 _] _].
  apply (answers_app _ m3) in Ha as (c & Hin & Hid & Hkey & _ & Hst & Hnew).
  rewrite Hst in Hb1, Hb2. cbn in Hb1, Hb2.
  exists (m1 ++ m2 ++ m3), c. rewrite !app_assoc. split; [done|done|exact (conj Hid Hkey)| |exact (conj Hb1 Hb2)|].
  - destruct (rk_entry _ _ Hq) as (e' & Hde & _ & ->).
    assert (e' = e) as -> by (pose proof (co_entry _ _ _ _ _ _ _ Hx); congruence).
    destruct (co_staged_entry _ _ _ _ _ _ _ Hx) as (_ & <- & _). destruct (grants_named _ _ _ _ _ _ _ Hq Hx) as [<- _].
    destruct (co_staged_grants _ _ _ _ _ _ _ Hx) as [_ <-]. split; [by apply (gr_stored _ _ _ _ _ G23)|].
    rewrite Forall_fmap. eapply Forall_impl; [exact P2|]. intros g Hg. by apply (gr_stored _ _ _ _ _ G23).
  - intros r k ->. destruct (cs_new st); [|discriminate Hout]. rewrite (Hnew eq_refl). injection Hout as -> ->.
    split_and!; [by apply (gr_stored _ _ _ _ _ G23)|by apply (gr_stored _ _ _ _ _ G23)|].
    by exists (rv_fields (pp_receipt p)).
Qed.

(** C20. Answered or not, a commit only adds to the log of the chains, whatever
    fails and whatever other commits and uploads do, and takes no stored object
    away. *)
Theorem commit_entry_keeps_chains request entry plan grants o ch writer s s' r log :
  object_names → EntryCommitRequestV1_new decode_exact_object entry plan grants = Ok request →
  calls_ok grant_entry entry_chain s → held log (sv_tables s) → commit_entry request o ch writer s = (s', r) →
  (∃ more, held (log ++ more) (sv_tables s')) ∧ ∀ k h, stored s k h → stored s' k h.
Proof.
  intros Ho Hq%request_new_ok Hc Hl Hr. destruct (commit_entry_steps _ _ _ _ _ _ _ Ho Hq Hr) as [[Hs Ht] _].
  destruct (Ht Hc) as [_ Hm]. split; [by apply Hm|exact Hs].
Qed.


(** C27. An answered commit, new or repeated, never has more than 1927 grants: its
    receipt, which lists them, would be larger than a receipt may be. A request
    may carry ten thousand. *)
Theorem answered_commit_grant_bound request entry plan grants o ch writer s s' outcome :
  (∀ b g, decode_exact_object b = Ok (Grant g) → length (p_object_hash g) = 32%nat) →
  EntryCommitRequestV1_new decode_exact_object entry plan grants = Ok request →
  commit_entry request o ch writer s = (s', Ok outcome) → len (rq_grants request) ≤ MAX_RECEIPT_GRANTS.
Proof.
  intros Hw Hq%request_new_ok Hr. unfold commit_entry in Hr. apply io_bind_Ok in Hr as (s1 & x & Hx & Hr).
  apply io_bind_Ok in Hr as (s2 & p & Hp & _). apply check_request_Ok in Hx as (e & gs & Hx).
  destruct (prepare_triple _ _ _ _ _ _ _ (λ _, True) Hx _ _ _ I Hp) as [_ Hok].
  destruct (po_built _ _ _ _ _ _ (Hok _ eq_refl)) as (Hb & He & _). apply build_receipt_Ok in Hb.
  destruct (rs_grants _ _ _ _ Hb) as [Hg _]. destruct (rs_body _ _ _ _ Hb) as (signature & Hbody & _).
  destruct (grants_named _ _ _ _ _ _ _ Hq Hx) as [Hv _]. cbn [receipt_binding rb_grants] in Hg. rewrite Hv in Hg.
  pose proof (rk_grants _ _ Hq) as Hf.
  assert (len (rq_grants request) = len (rf_grants (rv_fields (pp_receipt p)))) as ->.
  { rewrite Hg. unfold len. rewrite sort_by_key_perm. by rewrite (Forall2_length _ _ _ Hf). }
  eapply exact_receipt_room; [by exists signature| |exact He]. rewrite Hg, sort_by_key_perm.
  apply Forall_forall. intros h Hh. apply list_elem_of_lookup in Hh as [i Hi].
  destruct (Forall2_lookup_l _ _ _ _ _ Hf Hi) as (b & _ & g & Hd & <-). by apply (Hw b).
Qed.

(** ** What is recorded *)

(** The error a security event stands for. *)
Definition commit_stands (f : CommitFailure) (k : SecurityEventKindV1) : Prop :=
  match k with
  | Sec.ObjectHashConflict => cf_error f = Svc.ObjectConflict
  | Sec.EntryIdentityMismatch => cf_error f = Svc.IdentityConflict
  | Sec.SequenceFork => cf_error f = Svc.SequenceFork
  | Sec.PredecessorMismatch => cf_error f = Svc.PredecessorMismatch
  | Sec.WriterUnauthorized => ∃ e, is_writer_violation e = true ∧ cf_error f = Svc.Validation e
  | Sec.CheckpointPredecessorConflict => cf_error f = Svc.Checkpoint Cpt.PredecessorConflict
  end.

Lemma tells_of_nothing {E A} (m : io E A) (g : E → CommitFailure) : tells nothing m → tells commit_stands (io_map_err g m).
Proof. intros Hm. apply (tells_map_err _ nothing); [done|by intros ? ? []]. Qed.

Lemma tells_record {A} o k subject now f :
  commit_stands f k → tells commit_stands (_ ← record_subject o k subject now; io_of (Err f) : cio A).
Proof. intros Hf. apply (tells_event _ _ _ _ f); [done|apply tells_of|done]. Qed.

Lemma tells_store_stage o k bytes limit : tells commit_stands (store_stage o k bytes limit).
Proof. apply tells_of_nothing, tells_stage. Qed.

Lemma tells_stage_grants o grants : tells commit_stands (stage_grants o grants).
Proof. induction grants as [|b grants IH]; cbn [stage_grants]; tell. apply tells_store_stage. Qed.

Lemma tells_put_verified o org now : tells commit_stands (put_verified o org now).
Proof.
  apply (tells_handle _ store_stands); [apply tells_put_if_absent|intros; apply tells_ret|].
  intros e. destruct (decide (e = Obj.HashConflict)) as [->|Hn].
  - right. split; [by apply tells_record|]. exists (failure Svc.ObjectConflict). split; [done|]. by intros v [_ ->].
  - left. exists (failure (Svc.of_store e)). intros s. split; [by destruct e|]. by intros v [? _].
Qed.

Lemma tells_put_all l org now : tells commit_stands (put_all l org now).
Proof. induction l as [|o l IH]; cbn [put_all]; tell. apply tells_put_verified. Qed.

Lemma tells_check_request request o ch writer : tells commit_stands (check_request request o ch writer).
Proof.
  unfold check_request. tell; [apply tells_store_stage|apply tells_stage_grants| |].
  - apply tells_of_nothing, tells_read.
  - unfold validation_failure. destruct (is_writer_violation _) eqn:Ew; [|tell]. apply tells_record.
    exists e. split; [done|]. by destruct e.
Qed.

Lemma tells_prepare request o ch x : tells commit_stands (prepare_commit request o ch x).
Proof.
  unfold prepare_commit, prepare_documents. tell;
    first [apply tells_put_verified|apply tells_put_all|apply tells_store_stage|apply tells_of_nothing, tells_read].
Qed.

Lemma tells_classify {A} v current o ch now : tells commit_stands (classify_head_conflict (A := A) v current o ch now).
Proof.
  unfold classify_head_conflict. apply tells_bind; [apply tells_try, tells_read|]. intros [observed|e]; [|tell].
  case_bool_decide; [tell|]. destruct (next_sequence current); [|tell].
  destruct (negb _); [by apply tells_record|]. case_bool_decide; [by apply tells_record|tell].
Qed.

Lemma tells_make_visible request o ch x p : tells commit_stands (make_visible request o ch x p).
Proof.
  unfold make_visible. apply tells_bind.
  - apply tells_try, tells_silent. intros s s' r. unfold commit_request. destruct (next_call object_hash s) as [s1 f] eqn:En.
    apply next_call_silent in En. by destruct (commit_locked_head _ _ _); intros [= <- <-].
  - intros [st|[]]; first [by apply tells_record|apply tells_classify|tell].
Qed.

Lemma tells_read_back h missing : tells commit_stands (read_back h missing).
Proof. unfold read_back. apply tells_bind; [apply tells_try, tells_get_exact|]. intros [b|[]]; tell. Qed.

(** *** Every accusation is recorded *)

(** The event that an error accusing the writer or a rival asks for. *)
Definition accused (e : CommitServiceError) : option SecurityEventKindV1 :=
  match e with
  | Svc.IdentityConflict => Some Sec.EntryIdentityMismatch
  | Svc.SequenceFork => Some Sec.SequenceFork
  | Svc.PredecessorMismatch => Some Sec.PredecessorMismatch
  | Svc.Checkpoint Cpt.PredecessorConflict => Some Sec.CheckpointPredecessorConflict
  | Svc.Validation e => if is_writer_violation e then Some Sec.WriterUnauthorized else None
  | _ => None
  end.

(** An event of this kind was added, or the last request, the one to the sink,
    was broken. *)
Definition event_left (o : OrganizationId) (k : SecurityEventKindV1) (s s' : Server) : Prop :=
  (∃ v, v ∈ drop (length (sv_events s)) (sv_events s') ∧ ev_kind v = k ∧ ev_organization v = o) ∨
  (∃ before rivals, sv_calls s = before ++ (rivals, Broken) :: sv_calls s').

Definition reports {A} (o : OrganizationId) (m : cio A) : Prop :=
  ∀ s s' f k, m s = (s', Err f) → accused (cf_error f) = Some k → event_left o k s s'.

Lemma event_left_after o k s s1 s' : went s s1 → event_left o k s1 s' → event_left o k s s'.
Proof.
  intros [[l El] [c Ec]] [(v & Hv & Hk)|(before & rivals & Hb)]; [left|right].
  - exists v. split; [|done]. rewrite El, length_app, <- drop_drop in Hv.
    revert Hv. generalize (drop (length (sv_events s)) (sv_events s')) as d. intros d Hv.
    rewrite <- (take_drop (length l) d). apply elem_of_app. by right.
  - exists (c ++ before), rivals. by rewrite Ec, Hb, app_assoc.
Qed.

Lemma reports_bind {A B} o (m : cio A) (k : A → cio B) :
  forth m → reports o m → (∀ a, reports o (k a)) → reports o (m ≫= k).
Proof.
  intros Hf Hm Hk s s' f v. unfold mbind, io_bind. destruct (m s) as [s1 [a|e]] eqn:Em.
  - intros Hr Hv. eapply event_left_after; [by eapply Hf|by eapply Hk].
  - intros [= <- <-]. by apply Hm.
Qed.

(** A call whose errors accuse nobody. *)
Lemma reports_none {A} o (m : cio A) :
  (∀ s s' f, m s = (s', Err f) → accused (cf_error f) = None) → reports o m.
Proof. intros Hm s s' f k Hr Hk. rewrite (Hm _ _ _ Hr) in Hk. done. Qed.
Lemma reports_ret {A} o (a : A) : reports o (mret a : cio A).
Proof. by apply reports_none. Qed.
Lemma reports_of {A} o (r : result CommitFailure A) :
  (∀ f, r = Err f → accused (cf_error f) = None) → reports o (io_of r).
Proof. intros Hf. apply reports_none. intros s s' f [= _ ->]. by apply Hf. Qed.
Lemma reports_try {F A} o (m : io F A) : reports o (io_try m : cio _).
Proof. apply reports_none. intros s s' f. unfold io_try. by destruct (m s). Qed.

Lemma reports_record {A} o k subject now f :
  accused (cf_error f) = Some k ∨ accused (cf_error f) = None →
  reports o (_ ← record_subject o k subject now; io_of (Err f) : cio A).
Proof.
  intros Hf s s' f' k' Hr Hk. unfold mbind, io_bind, record_subject, io_ignore, io_of in Hr.
  injection Hr as <- <-. destruct Hf as [Hf|Hf]; rewrite Hf in Hk; [injection Hk as <-|done].
  match goal with |- event_left _ _ _ (sink_record _ ?ev s).1 => destruct (sink_keeps object_hash ev s) as [Hv|[rivals Hb]] end.
  - left. by eexists.
  - right. by exists [], rivals.
Qed.

Lemma reports_call_store {A} o (m : io StoreError A) : reports o (call_store m).
Proof.
  apply reports_none. intros s s' f. unfold call_store, io_map_err. destruct (m s) as [s1 [a|e]]; [done|].
  intros [= _ <-]. by destruct e.
Qed.

Lemma reports_read {A} o (g : Server → A) :
  reports o (call_repository (read_request object_hash Repo.Unavailable (λ s, Ok (g s)))).
Proof.
  apply reports_none. intros s s' f. unfold call_repository, io_map_err, read_request.
  destruct (next_call object_hash s) as [s1 []]; cbn; [done|by intros [= _ <-]..].
Qed.

Lemma reports_put_verified so o now : reports o (put_verified so o now).
Proof.
  apply reports_bind; [apply forth_try, forth_put_if_absent|apply reports_try|].
  intros [x|[]]; [apply reports_ret|apply reports_record; by right|apply reports_of; by intros ? [= <-]..].
Qed.

Lemma forth_put_verified so o now : forth (put_verified so o now).
Proof. unfold put_verified, record_subject. forth. apply forth_put_if_absent. Qed.

Lemma put_all_reports l o now : reports o (put_all l o now) ∧ forth (put_all l o now).
Proof.
  induction l as [|so l [IH1 IH2]]; cbn [put_all]; [split; [apply reports_ret|apply forth_ret]|]. split.
  - apply reports_bind; [apply forth_put_verified|apply reports_put_verified|done].
  - apply forth_bind; [apply forth_put_verified|done].
Qed.

Lemma forth_store_stage o k bytes limit : forth (store_stage o k bytes limit).
Proof. unfold store_stage, call_store. forth. apply forth_stage. Qed.

Lemma stage_grants_reports o grants : reports o (stage_grants o grants) ∧ forth (stage_grants o grants).
Proof.
  induction grants as [|g grants [IH1 IH2]]; cbn [stage_grants]; [split; [apply reports_ret|apply forth_ret]|]. split.
  - apply reports_bind; [apply forth_store_stage|apply reports_call_store|intros staged].
    apply reports_bind; [done|done|intros; apply reports_ret].
  - apply forth_bind; [apply forth_store_stage|intros staged]. apply forth_bind; [done|intros; apply forth_ret].
Qed.

Lemma validation_failure_reports {A} e entry bound head o now :
  reports o (validation_failure (A := A) e entry bound head o now).
Proof.
  assert (cf_error (mismatch_failure e bound head) = Svc.Validation e ∨ accused (cf_error (mismatch_failure e bound head)) = None)
    as He by (destruct e; cbn; try (by left); case_match; [by right|by left]).
  unfold validation_failure. destruct (is_writer_violation e) eqn:Ew.
  - apply reports_record. destruct He as [He|He]; [left; rewrite He; cbn; by rewrite Ew|by right].
  - apply reports_bind; [apply forth_ret|apply reports_ret|]. intros _. apply reports_of. intros f [= <-].
    destruct He as [->|He]; [cbn; by rewrite Ew|done].
Qed.

Lemma forth_validation_failure {A} e entry bound head o now :
  forth (validation_failure (A := A) e entry bound head o now).
Proof. unfold validation_failure, record, record_subject. forth. Qed.

Lemma reports_map_err {E A} o (g : E → CommitFailure) (r : result E A) :
  (∀ e, r = Err e → accused (cf_error (g e)) = None) → reports o (io_of (map_err g r)).
Proof. intros Hg. apply reports_of. intros f. destruct r as [a|e]; [done|]. intros [= <-]. by apply Hg. Qed.

Lemma check_request_reports request o ch writer : reports o (check_request request o ch writer).
Proof.
  unfold check_request. apply reports_bind; [apply forth_store_stage|apply reports_call_store|intros staged].
  apply reports_bind; [apply stage_grants_reports..|intros grants].
  apply reports_bind; [apply forth_of| |intros entry].
  { apply reports_map_err. intros e. unfold parse_entry. by destruct (decode_exact_object _) as [[]|]; intros [= <-]. }
  apply reports_bind; [apply forth_clock|by apply reports_none|intros now].
  apply reports_bind; [apply forth_map_err, forth_read|apply reports_read|intros current].
  apply reports_bind; [apply forth_of| |intros head].
  { apply reports_of. intros f. unfold select_head.
    destruct (select_head_for_sequence _ _ _) as [[]|[]]; by intros [= <-]. }
  case_bool_decide; [by apply reports_of; intros ? [= <-]|].
  destruct (validate_commit _ _ _ _ _ _ _ _ _ _) as [v|e]; [|apply validation_failure_reports].
  repeat case_match; first [apply reports_ret|by apply reports_of; intros ? [= <-]].
Qed.

Lemma forth_check_request request o ch writer : forth (check_request request o ch writer).
Proof.
  unfold check_request, call_repository, read_head_state. forth;
    [apply forth_store_stage|apply stage_grants_reports|apply forth_validation_failure].
Qed.

Lemma build_checkpoint_error b issued e : build_checkpoint nfc b issued = Err e → e ≠ Cpt.PredecessorConflict.
Proof.
  unfold build_checkpoint. intros He ->. revert He. case_match; [done|].
  unfold mbind, result_bind. destruct (sign_checkpoint _); cbn; [|done].
  destruct (checkpoint_signature_binds _ _) as [[]|[]]; cbn; try done.
  destruct (encode_object _ _ _) as [x|[]]; cbn; try done. by case_match.
Qed.

Lemma prepare_reports request o ch x : reports o (prepare_commit request o ch x).
Proof.
  unfold prepare_commit. apply reports_bind; [apply forth_put_verified|apply reports_put_verified|intros _].
  apply reports_bind; [apply put_all_reports..|intros _]. unfold prepare_documents.
  apply reports_bind; [apply forth_of|by apply reports_map_err|intros receipt].
  apply reports_bind; [apply forth_of|by apply reports_map_err|intros exact_].
  apply reports_bind; [apply forth_store_stage|apply reports_call_store|intros staged].
  apply reports_bind; [apply forth_put_verified|apply reports_put_verified|intros _].
  apply reports_bind; [apply forth_map_err, forth_read|apply reports_read|intros previous].
  apply reports_bind; [apply forth_of| |intros checkpoint].
  { apply reports_map_err. intros e He%build_checkpoint_error. by destruct e. }
  apply reports_bind; [apply forth_store_stage|apply reports_call_store|intros staged'].
  apply reports_bind; [apply forth_put_verified|apply reports_put_verified|intros _]. apply reports_ret.
Qed.

Lemma forth_prepare request o ch x : forth (prepare_commit request o ch x).
Proof.
  unfold prepare_commit, prepare_documents, call_repository, read_checkpoint_head.
  forth; first [apply forth_put_verified|apply put_all_reports|apply forth_store_stage].
Qed.

Lemma classify_reports {A} v current o ch now : reports o (classify_head_conflict (A := A) v current o ch now).
Proof.
  unfold classify_head_conflict. apply reports_bind; [apply forth_try, forth_read|apply reports_try|].
  intros [observed|e]; repeat case_match;
    first [apply reports_record; by left|apply reports_of; by intros ? [= <-]].
Qed.

Lemma forth_commit_request c : forth (commit_request c).
Proof.
  intros s s' r. unfold commit_request. destruct (next_call object_hash s) as [s1 f] eqn:En.
  apply next_call_went in En as [Hw _]. destruct (commit_locked_head _ _ _). intros [= <- _].
  etransitivity; [exact Hw|by apply went_same].
Qed.

Lemma make_visible_reports request o ch x p : reports o (make_visible request o ch x p).
Proof.
  unfold make_visible. apply reports_bind; [apply forth_try, forth_commit_request|apply reports_try|].
  intros [st|[]]; first [apply reports_ret|apply classify_reports|apply reports_record; by left
    |apply reports_of; by intros ? [= <-]].
Qed.

Lemma forth_make_visible request o ch x p : forth (make_visible request o ch x p).
Proof.
  unfold make_visible, classify_head_conflict, record, record_subject, read_head_state.
  forth. apply forth_commit_request.
Qed.

Lemma deliver_reports o p committed : reports o (deliver p committed).
Proof.
  assert (∀ h missing, accused missing = None → reports o (read_back h missing) ∧ forth (read_back h missing)) as Hr.
  { intros h missing Hm. split; [|unfold read_back; forth; apply forth_get_exact].
    apply reports_bind; [apply forth_try, forth_get_exact|apply reports_try|].
    intros [b|[]]; repeat case_match; first [apply reports_ret|apply reports_of; by intros ? [= <-]]. }
  unfold deliver. apply reports_bind; [by apply Hr..|intros stored_]. apply reports_bind; [by apply Hr..|intros checkpoint].
  repeat case_match; first [apply reports_ret|apply reports_of; by intros ? [= <-]].
Qed.

Lemma commit_entry_reports request o ch writer : reports o (commit_entry request o ch writer).
Proof.
  unfold commit_entry. apply reports_bind; [apply forth_check_request|apply check_request_reports|intros x].
  apply reports_bind; [apply forth_prepare|apply prepare_reports|intros p].
  apply reports_bind; [apply forth_make_visible|apply make_visible_reports|intros st]. apply deliver_reports.
Qed.

(** C21. An answered commit and one answered with a head conflict leave no
    security event, and every event a failed commit leaves stands for the error
    it is answered with. Conversely a commit refused for its writer, as a fork or
    wrong predecessor, for a known entry with another identity or a conflicting
    checkpoint leaves the event of this refusal for its organization, unless the
    request to the sink, then the last one it made, was broken. *)
Theorem commit_events_match_errors request o ch writer s :
  let '(s', r) := commit_entry request o ch writer s in
  ∃ l, sv_events s' = sv_events s ++ l ∧
    match r with
    | Ok _ => l = []
    | Err f =>
        Forall (λ v, commit_stands f (ev_kind v)) l ∧ (cf_error f = Svc.HeadConflict → l = []) ∧
        ∀ k, accused (cf_error f) = Some k →
          (∃ v, v ∈ l ∧ ev_kind v = k ∧ ev_organization v = o) ∨
          (∃ before rivals, sv_calls s = before ++ (rivals, Broken) :: sv_calls s')
    end.
Proof.
  destruct (commit_entry request o ch writer s) as [s' r] eqn:Hr.
  assert (tells commit_stands (commit_entry request o ch writer)) as Ht.
  { unfold commit_entry, deliver. tell; first [apply tells_check_request|apply tells_prepare|apply tells_make_visible|apply tells_read_back]. }
  destruct (Ht _ _ _ Hr) as (l & El & Hl). exists l. split; [done|]. destruct r as [outcome|f]; [done|]. split; [done|]. split.
  - intros Hf. destruct l as [|v l]; [done|]. inversion Hl as [|? ? Hv _]; subst. unfold commit_stands in Hv. rewrite Hf in Hv.
    destruct (ev_kind v); try done. by destruct Hv as (? & _ & ?).
  - intros k Hk. destruct (commit_entry_reports _ _ _ _ _ _ _ _ Hr Hk) as [Hv|Hb]; [left|by right].
    by rewrite El, drop_app_length in Hv.
Qed.

(** ** Objects that a commit may name *)

(** The judgement of an object adopts it only if its bytes have the hash and
    kind of their key and the index names it with this kind; it is an orphan only
    if the index does not name it. *)
Theorem reconcile_adopts_only_visible h expected o s s' r :
  reconcile_object h expected o s = (s', Ok r) → r ≠ Quarantined →
  stored s' expected h ∧
  (∃ b object, object_hash b = h ∧ decode_exact_object b = Ok object ∧ parsed_type object = expected) ∧
  match t_objects (sv_tables s') !! h with
  | Some row => r = Adopted ∧ object_type_of_code (ix_type row) = Ok expected
  | None => r = InvisibleOrphan
  end.
Proof.
  intros Hr Hq. unfold reconcile_object in Hr. apply io_bind_Ok in Hr as (s1 & b & Hg & Hr). apply io_map_err_Ok in Hg.
  apply io_bind_Ok in Hg as (s0 & found & Hg & Hf). apply get_object_Ok in Hg as [Hb _]; [|exact grant_entry|exact entry_chain].
  apply io_of_Ok in Hf as [-> Hf]. apply ok_or_Ok in Hf as ->.
  assert (∀ s s', quarantine h expected o s = (s', Ok r) → r = Quarantined) as Hqr.
  { intros t t' Ht. unfold quarantine in Ht. apply io_bind_Ok in Ht as (? & ? & _ & Ht).
    apply io_bind_Ok in Ht as (? & ? & _ & Ht). by injection Ht. }
  case_bool_decide as Hh; [by apply Hqr in Hr|].
  destruct (decode_exact_object b) as [object|e] eqn:Ed; [|by apply Hqr in Hr].
  case_bool_decide as Hk; [by apply Hqr in Hr|]. apply io_bind_Ok in Hr as (s2 & referenced & Hd & Hr).
  apply io_map_err_Ok in Hd. pose proof (keeps_directory object_hash grant_entry entry_chain h _ _ _ Hd) as Hg.
  assert (stored s2 expected h) as Hst by (apply (gr_stored _ _ _ _ _ Hg); by exists b).
  unfold directory_type_of, read_request in Hd. destruct (next_call object_hash s0) as [s3 f]. destruct f; [|discriminate Hd..].
  injection Hd as <- Hd. destruct (t_objects (sv_tables s3) !! h) as [row|] eqn:Erow.
  - destruct (object_type_of_code (ix_type row)) as [k|] eqn:Ek; [|discriminate Hd]. injection Hd as <-.
    case_bool_decide as Hkk; [|by apply Hqr in Hr]. subst k. injection Hr as <- <-. rewrite Erow. split; [done|].
    split; [by exists b, object|done].
  - injection Hd as <-. injection Hr as <- <-. rewrite Erow. split; [done|]. split; [by exists b, object|done].
Qed.
End Commit.

(** ** A sample run *)

Module SampleRun.
#[export] Instance signer : Signer := {
  signer_thumbprint := replicate 32 x0b;
  signer_certificate := replicate 32 x0c;
  sign_receipt _ := Some [x40];
  sign_checkpoint _ := Some [x40];
  receipt_signature_binds _ signature := bool_decide (signature = [x40]);
  checkpoint_core_valid _ := true;
  checkpoint_signature_binds _ _ := Ok tt;
}.

Definition select (_ : OrganizationId) (_ : ChainSequence) (_ : UnixMillis) : result AuthorityError RegistryHeadSelectionV1 :=
  Ok (Selected Sample.head).

Definition server (bucket : gmap str (list byte)) (calls : list (list Rival * DbFault)) : Server := {|
  sv_bucket := bucket; sv_tables := empty_tables {[ Sample.org ]}; sv_targets := ∅; sv_events := []; sv_clock := [1000; 2000];
  sv_nanos := 5; sv_counter := 0; sv_calls := calls |}.

Definition commit : Server → Server * result CommitFailure CommitOutcome :=
  commit_entry id Sample.hash Sample.digest Sample.decode (λ _ _, true) (λ _ _ _, true) select true
    Sample.request Sample.org Sample.chain Sample.writer.

Definition grant_entry (_ : ObjectHash) : EntryHash := Sample.entry_hash.
Definition entry_chain (_ : EntryHash) : OrganizationId * ChainId := (Sample.org, Sample.chain).

Lemma names : object_names Sample.decode grant_entry entry_chain.
Proof. split; [by intros b g ->%Sample.decode_grant|by intros b e ->%Sample.decode_entry]. Qed.

(** Another request puts the grant before this one does. *)
Definition start : Server := server ∅ [([RivalPut Ot.Grant Sample.grant_bytes], NoFault)].

Definition final : Server := (commit start).1.
Definition answer : CommitOutcome := match (commit start).2 with Ok outcome => outcome | Err _ => Accepted [] [] end.

Lemma committed : commit start = (final, Ok answer).
Proof.
  assert (is_ok (commit start).2 = true) as Hok by by vm_compute.
  unfold final, answer. by destruct (commit start) as [s [outcome|f]].
Qed.

Lemma start_calls : calls_ok grant_entry entry_chain start.
Proof. repeat constructor. Qed.

(** What becomes of the entry afterwards. *)
Definition judged : Server * result ReconcileError ReconcileOutcomeV1 :=
  reconcile_object Sample.hash Sample.decode (Sample.hash Sample.entry_bytes) Ot.Entry Sample.org final.

Lemma judged_adopted : judged.2 = Ok Adopted.
Proof. by vm_compute. Qed.

(** The [n]-th request of the commit loses its answer. *)
Definition lossy (n : nat) : Server := server ∅ (replicate n ([], NoFault) ++ [([], AckLost)]).

(** Other bytes stand under the key of the entry. *)
Definition occupied : Server := server {[ object_key Ot.Entry (Sample.hash Sample.entry_bytes) := [x00] ]} [].

Definition visible (s : Server) : bool := bool_decide (is_Some (t_entries (sv_tables s) !! Sample.entry_hash)).
End SampleRun.

#[local] Existing Instance SampleRun.signer.

(** ** Witnesses *)

Lemma commit_entry_delivers_witness :
  ∃ more x, delivered Sample.hash SampleRun.grant_entry SampleRun.entry_chain Sample.request Sample.org Sample.chain
    SampleRun.final SampleRun.answer ([] ++ more) x.
Proof.
  refine (commit_entry_delivers id Sample.hash Sample.digest Sample.decode (λ _ _, true) (λ _ _ _, true) SampleRun.select true
    SampleRun.grant_entry SampleRun.entry_chain Sample.request Sample.entry_bytes Sample.plan [Sample.grant_bytes]
    Sample.org Sample.chain Sample.writer SampleRun.start _ _ [] SampleRun.names Sample.request_new SampleRun.start_calls
    _ SampleRun.committed).
  apply holds_initial.
Defined.

Lemma commit_entry_keeps_chains_witness :
  (∃ more, holds SampleRun.grant_entry SampleRun.entry_chain ([] ++ more) (sv_tables (SampleRun.commit (SampleRun.lossy 32)).1)) ∧
  ∀ k h, stored Sample.hash (SampleRun.lossy 32) k h → stored Sample.hash (SampleRun.commit (SampleRun.lossy 32)).1 k h.
Proof.
  refine (commit_entry_keeps_chains id Sample.hash Sample.digest Sample.decode (λ _ _, true) (λ _ _ _, true) SampleRun.select true
    SampleRun.grant_entry SampleRun.entry_chain Sample.request Sample.entry_bytes Sample.plan [Sample.grant_bytes]
    Sample.org Sample.chain Sample.writer (SampleRun.lossy 32) _ (SampleRun.commit (SampleRun.lossy 32)).2 []
    SampleRun.names Sample.request_new _ _ _).
  - apply Forall_app. split; [apply Forall_replicate; constructor|repeat constructor].
  - apply holds_initial.
  - apply surjective_pairing.
Defined.

Lemma answered_commit_grant_bound_witness : len [Sample.grant_bytes] ≤ MAX_RECEIPT_GRANTS.
Proof.
  refine (answered_commit_grant_bound id Sample.hash Sample.digest Sample.decode (λ _ _, true) (λ _ _ _, true) SampleRun.select true
    SampleRun.grant_entry SampleRun.entry_chain Sample.request Sample.entry_bytes Sample.plan [Sample.grant_bytes]
    Sample.org Sample.chain Sample.writer SampleRun.start _ _ _ Sample.request_new SampleRun.committed).
  by intros b g ->%Sample.decode_grant.
Defined.

Lemma reconcile_adopts_only_visible_witness :
  stored Sample.hash SampleRun.judged.1 Ot.Entry (Sample.hash Sample.entry_bytes).
Proof.
  refine (proj1 (reconcile_adopts_only_visible Sample.hash Sample.decode SampleRun.grant_entry SampleRun.entry_chain
    (Sample.hash Sample.entry_bytes) Ot.Entry Sample.org SampleRun.final SampleRun.judged.1 Adopted _ _)); [|done].
  rewrite <- SampleRun.judged_adopted. apply surjective_pairing.
Defined.

(** *** Observations *)

(** A commit whose answer from the database, or from the bucket afterwards, is
    lost fails, and is visible all the same. *)
Theorem failed_commit_may_be_visible :
  forallb (λ n, let '(s, r) := SampleRun.commit (SampleRun.lossy n) in negb (is_ok r) && SampleRun.visible s) (seq 32 5) = true.
Proof. by vm_compute. Qed.

(** The bucket and the service both record the same conflict. *)
Theorem conflict_recorded_twice :
  let '(s, r) := SampleRun.commit SampleRun.occupied in
  r = Err (failure Svc.ObjectConflict) ∧ ev_kind <$> sv_events s = [Sec.ObjectHashConflict; Sec.ObjectHashConflict].
Proof. vm_compute. done. Qed.
