(* ===== verification/IncidentNumbers.v ===== *)
(** * IncidentNumbers: the register of used incident numbers ([ea-draft], [incident_number.rs])

    A number is used up per organization and civil year, compared in its
    normalized form. A finalization that fails before its irreversible step
    releases its number again; the destruction of an entry retains a token of
    its number, so that it stays used when the register row is gone.

    Each operation is what one transaction of the database does. Unicode
    normalization and the authentication code are parameters. *)

From S2P Require Import Prelude Types Utf8 Cbor Str CsvImport KeyStore Draft.
Import DraftErr(DraftError).

Record NumberTables := {
  nt_register : gset (OrganizationId * Z * list byte);
  nt_retained_key : option (list byte);
  nt_retained_tokens : gset (list byte);
  (** [PRAGMA synchronous]. *)
  nt_synchronous : Z;
}.

Definition set_register (r : gset (OrganizationId * Z * list byte)) (t : NumberTables) : NumberTables :=
  {| nt_register := r; nt_retained_key := nt_retained_key t; nt_retained_tokens := nt_retained_tokens t;
     nt_synchronous := nt_synchronous t |}.

Definition set_retained (k : option (list byte)) (l : gset (list byte)) (t : NumberTables) : NumberTables :=
  {| nt_register := nt_register t; nt_retained_key := k; nt_retained_tokens := l; nt_synchronous := nt_synchronous t |}.

(** Normalization of a text, and HMAC-SHA-256 of a key and a message. *)
Class NumberPrimitives := { to_nfc : str → str; hmac_sha256 : list byte → list byte → list byte }.

Section Register.
Context `{NumberPrimitives}.

Definition register_key (number : str) : list byte := to_nfc number.

Definition same_number (left right : str) : bool := bool_decide (register_key left = register_key right).

Definition RETAINED_DOMAIN : list byte := lit "EINSATZARCHIV-INCIDENT-NUMBER-RETAINED-v1" ++ [x00].

(** What the authentication code is computed of; a year is an [i32]. *)
Definition token_message (org : OrganizationId) (year : Z) (number : str) : list byte :=
  RETAINED_DOMAIN ++ org ++ to_be_bytes 4 (year mod 2 ^ 32) ++ to_be_bytes 8 (len (register_key number)) ++ register_key number.

(** The key of the retained tokens: read, or drawn as [fresh] if it may be
    created. A store that has tokens and no key is broken. *)
Definition retained_key (create : bool) (fresh : option (list byte)) (t : NumberTables)
    : result DraftError (NumberTables * option (list byte)) :=
  match nt_retained_key t with
  | Some key => Ok (t, Some key)
  | None =>
      if negb (bool_decide (nt_retained_tokens t = ∅)) then Err (DraftErr.FromStore Store.Database) else
      if negb create then Ok (t, None) else
      key ← ok_or DraftErr.LocalRng fresh;
      if bool_decide (length key = 32%nat) then Ok (set_retained (Some key) (nt_retained_tokens t) t, Some key)
      else Err (DraftErr.FromStore Store.Constraint)
  end.

Definition retained_token (create : bool) (fresh : option (list byte)) (org : OrganizationId) (year : Z) (number : str)
    (t : NumberTables) : result DraftError (NumberTables * option (list byte)) :=
  '(t, key) ← retained_key create fresh t;
  match key with
  | None => Ok (t, None)
  | Some key =>
      if bool_decide (length key = 32%nat) then Ok (t, Some (hmac_sha256 key (token_message org year number)))
      else Err (DraftErr.FromStore Store.Shape)
  end.

Definition retained_contains (org : OrganizationId) (year : Z) (number : str) (t : NumberTables) : result DraftError bool :=
  '(_, token) ← retained_token false None org year number t;
  Ok match token with Some token => bool_decide (token ∈ nt_retained_tokens t) | None => false end.

Definition retain_for_destruction_in (fresh : option (list byte)) (org : OrganizationId) (year : Z) (number : str)
    (t : NumberTables) : result DraftError NumberTables :=
  if negb ((nt_synchronous t =? 2) || (nt_synchronous t =? 3)) then Err (DraftErr.FromStore Store.Database) else
  '(t, token) ← retained_token true fresh org year number t;
  token ← ok_or (DraftErr.FromStore Store.Database) token;
  if bool_decide (length token = 32%nat) then Ok (set_retained (nt_retained_key t) ({[ token ]} ∪ nt_retained_tokens t) t)
  else Err (DraftErr.FromStore Store.Constraint).

Definition number_key (org : OrganizationId) (year : Z) (number : str) : OrganizationId * Z * list byte :=
  (org, year, register_key number).

Definition claim_in (org : OrganizationId) (year : Z) (number : str) (t : NumberTables) : result DraftError NumberTables :=
  retained ← retained_contains org year number t;
  if (retained : bool) then Err DraftErr.IncidentNumberTaken else
  if bool_decide (number_key org year number ∈ nt_register t) || negb (bool_decide (length org = 16%nat))
  then Err DraftErr.IncidentNumberTaken
  else Ok (set_register ({[ number_key org year number ]} ∪ nt_register t) t).

Definition release_in (org : OrganizationId) (year : Z) (number : str) (t : NumberTables) : NumberTables :=
  set_register (nt_register t ∖ {[ number_key org year number ]}) t.

Definition contains_number (org : OrganizationId) (year : Z) (number : str) (t : NumberTables) : result DraftError bool :=
  retained ← retained_contains org year number t;
  Ok (retained || bool_decide (number_key org year number ∈ nt_register t)).

(** ** What the register promises *)

(** The token of the number is retained. *)
Definition token_retained (org : OrganizationId) (year : Z) (number : str) (t : NumberTables) : bool :=
  match nt_retained_key t with
  | Some key => bool_decide (hmac_sha256 key (token_message org year number) ∈ nt_retained_tokens t)
  | None => false
  end.

(** A number is used up: it is registered, or its token is retained. *)
Definition used (org : OrganizationId) (year : Z) (number : str) (t : NumberTables) : Prop :=
  number_key org year number ∈ nt_register t ∨ token_retained org year number t = true.

(** The retained tables as their constraints and triggers keep them. *)
Definition retained_ok (t : NumberTables) : Prop :=
  match nt_retained_key t with Some key => length key = 32%nat | None => nt_retained_tokens t = ∅ end.

Lemma retained_contains_spec org year number t :
  retained_ok t → retained_contains org year number t = Ok (token_retained org year number t).
Proof.
  unfold retained_ok, retained_contains, retained_token, retained_key, token_retained.
  destruct (nt_retained_key t) as [key|]; intros Hk; cbn.
  - by rewrite (bool_decide_eq_true_2 _ Hk).
  - by rewrite Hk, bool_decide_eq_true_2.
Qed.

Lemma contains_spec org year number t :
  retained_ok t → ∃ b, contains_number org year number t = Ok b ∧ (b = true ↔ used org year number t).
Proof.
  intros Ht. unfold contains_number. rewrite (retained_contains_spec _ _ _ _ Ht). cbn. eexists. split; [done|].
  rewrite orb_true_iff, !bool_decide_eq_true. unfold used. tauto.
Qed.

Lemma claim_spec org year number t :
  retained_ok t → length org = 16%nat →
  (used org year number t ∧ claim_in org year number t = Err DraftErr.IncidentNumberTaken) ∨
  (¬ used org year number t ∧
   claim_in org year number t = Ok (set_register ({[ number_key org year number ]} ∪ nt_register t) t)).
Proof.
  intros Ht Ho. unfold claim_in. rewrite (retained_contains_spec _ _ _ _ Ht). cbn. unfold used.
  destruct (token_retained _ _ _ _) eqn:Hr; [left; split; [by right|done]|]. rewrite (bool_decide_eq_true_2 _ Ho). cbn [negb].
  rewrite orb_false_r. case_bool_decide as Hk; [left; split; [by left|done]|right]. split; [naive_solver|done].
Qed.

Lemma same_number_key org year a b : same_number a b = true → number_key org year a = number_key org year b.
Proof. unfold same_number, number_key. by intros ->%bool_decide_eq_true. Qed.

Lemma retain_keeps fresh org year number t t' :
  retained_ok t → retain_for_destruction_in fresh org year number t = Ok t' →
  retained_ok t' ∧ nt_register t' = nt_register t ∧ used org year number (set_register ∅ t') ∧
  ∀ o y n, used o y n t → used o y n t'.
Proof.
  intros Ht Hr. unfold retain_for_destruction_in in Hr. destruct (negb _); [done|].
  apply bind_Ok in Hr as ([t1 token] & Hk & Hr). apply bind_Ok in Hr as (tk & Htk & Hr). apply ok_or_Ok in Htk as ->.
  case_bool_decide as Hl; [|done]. injection Hr as <-.
  unfold retained_token in Hk. apply bind_Ok in Hk as ([t2 key] & Hk & Hm). destruct key as [key|]; [|done].
  case_bool_decide as Hkl; [|done]. injection Hm as <- <-.
  assert (nt_retained_key t2 = Some key ∧ nt_register t2 = nt_register t ∧ nt_retained_tokens t2 = nt_retained_tokens t ∧
    ∀ k, nt_retained_key t = Some k → k = key) as (H1 & H2 & H3 & H4).
  { unfold retained_key in Hk. destruct (nt_retained_key t) as [k|] eqn:Ek.
    - injection Hk as <- <-. split_and!; [done..|]. by intros ? [= <-].
    - destruct (negb _); [done|]. cbn in Hk. apply bind_Ok in Hk as (f & Hf & Hk). case_bool_decide; [|done].
      injection Hk as <- <-. done. }
  split_and!.
  - unfold retained_ok. cbn. by rewrite H1.
  - done.
  - right. unfold token_retained. cbn. rewrite H1. apply bool_decide_eq_true_2. set_solver.
  - intros o y n [Hu|Hu]; [left; cbn; by rewrite H2|right]. unfold token_retained in *. cbn. rewrite H1.
    destruct (nt_retained_key t) as [k|]; [|done]. rewrite (H4 k eq_refl) in Hu. apply bool_decide_eq_true in Hu.
    apply bool_decide_eq_true_2. rewrite H3. set_solver.
Qed.
End Register.

(** C18. A number in any spelling of the same normal form is claimed once per
    organization and year: the claim succeeds exactly if the number is not used,
    [contains] says whether it is, a release undoes the claim and nothing else,
    and a retained number stays used when its row is released. *)
Theorem incident_number_exclusive `{NumberPrimitives} org year a b t fresh t1 :
  retained_ok t → length org = 16%nat → same_number a b = true →
  (used org year a t ↔ claim_in org year a t = Err DraftErr.IncidentNumberTaken) ∧
  (∀ t', claim_in org year a t = Ok t' →
     claim_in org year b t' = Err DraftErr.IncidentNumberTaken ∧ contains_number org year b t' = Ok true ∧
     release_in org year b t' = t) ∧
  (retain_for_destruction_in fresh org year a t = Ok t1 →
     claim_in org year b (release_in org year b t1) = Err DraftErr.IncidentNumberTaken).
Proof.
  intros Ht Ho Hs. pose proof (same_number_key org year a b Hs) as Hk. split_and!.
  - destruct (claim_spec org year a t Ht Ho) as [[Hu ->]|[Hu ->]]; naive_solver.
  - intros t' Hc. destruct (claim_spec org year a t Ht Ho) as [[_ Hc']|[Hu Hc']]; rewrite Hc in Hc'; [done|].
    injection Hc' as ->. set (t' := set_register _ t). assert (retained_ok t') as Ht' by done.
    assert (used org year b t') as Hb by (left; cbn; rewrite <- Hk; set_solver).
    destruct (claim_spec org year b t' Ht' Ho) as [[_ ->]|[Hn _]]; [|done].
    destruct (contains_spec org year b t' Ht') as ([] & -> & Hcb); [|naive_solver]. split_and!; [done..|].
    unfold release_in, t', set_register. cbn. rewrite <- Hk. destruct t as [r k tk sy]. cbn in *. f_equal.
    apply set_eq. intros x. unfold used in Hu. cbn in Hu. destruct (decide (x = number_key org year a)); set_solver.
  - intros Hr. destruct (retain_keeps _ _ _ _ _ _ Ht Hr) as (Ht1 & _ & Hu & _).
    assert (used org year b (release_in org year b t1)) as Hb.
    { right. destruct Hu as [Hu|Hu]; [cbn in Hu; set_solver|]. unfold token_retained, token_message in *. cbn in *.
      apply bool_decide_eq_true in Hs. by rewrite <- Hs. }
    assert (retained_ok (release_in org year b t1)) as Hok by done.
    by destruct (claim_spec org year b _ Hok Ho) as [[_ ->]|[Hn _]].
Qed.

(** Concrete primitives: no text needs normalization, and the code is the end of
    the message and the key. *)
Definition sample_numbers : NumberPrimitives :=
  {| to_nfc s := s; hmac_sha256 k m := take 32 (drop 58 m ++ k) |}.

Lemma incident_number_exclusive_witness :
  let t := {| nt_register := ∅; nt_retained_key := None; nt_retained_tokens := ∅; nt_synchronous := 2 |} in
  let org := replicate 16 x01 in
  claim_in (H := sample_numbers) org 2026 (lit "17") (release_in (H := sample_numbers) org 2026 (lit "17")
    (set_retained (Some (replicate 32 x07))
       {[ take 32 (drop 58 (token_message (H := sample_numbers) org 2026 (lit "17")) ++ replicate 32 x07) ]} t))
  = Err DraftErr.IncidentNumberTaken.
Proof.
  intros t org. pose proof (incident_number_exclusive (H := sample_numbers) org 2026 (lit "17") (lit "17") t
    (Some (replicate 32 x07)) (set_retained (Some (replicate 32 x07))
       {[ take 32 (drop 58 (token_message (H := sample_numbers) org 2026 (lit "17")) ++ replicate 32 x07) ]} t)
    ltac:(done) ltac:(reflexivity) ltac:(reflexivity)) as (_ & _ & H).
  apply H. unfold retain_for_destruction_in. cbn [nt_synchronous t]. vm_compute. reflexivity.
Defined.
