(* ===== verification/WriterMarker.v ===== *)
(** * WriterMarker: the prepared transaction of a finalization ([ea-writer], [marker.rs])

    Before a finalization crosses its irreversible step it stores, in one row of
    the encrypted database, every byte it is going to publish and the name of
    every file. After a restart this marker is the only source the entry is
    completed from, so it is checked against its own bytes and against the
    objects it carries. The errors of the writer are here as well ([error.rs]).

    The object parser is a parameter, as in [ObjectStore]; the decoder of
    [minicbor] is the class [Minicbor] of [Profile]. *)

From S2P Require Import Prelude Types Utf8 Cbor Str ArchivePath Profile CsvImport KeyStore Chain Inventory GrantPlan ServerDb ObjectStore Draft.
Import Fmt(FormatError) DraftErr(DraftError) Gp(GrantPurposeV1).

(** ** Errors ([error.rs]) *)

Module Wr.
(** The errors of [ea-audit] and [ea-schema] are carried by their codes. *)
Inductive WriterError :=
| ChainHeadUnusable (e : ChainError) | RollbackDetected | SequenceLeaseExhausted | RegistryStaleBlocked
| NoActiveRecoveryRecipient | ReaderWithoutKemKey | ArchiveProfileNotAllowed | IncidentNumberTaken
| OperatorProfileCommitment | OperatorProfileMissing | ReauthRequired | ReauthPurposeMismatch
| ReauthBindingMismatch | HeadReconciliationRequired | ChainIdMismatch | WriterRevoked
| WriterTransitionRequired | WriterTransitionMismatch | PreparedFinalizationPresent | NoPreparedFinalization
| PreparedFinalizationUnreadable | PreparedFinalizationInconsistent | StaleAckPreviewMismatch | StaleAckRequired
| StaleAckReplay | LocalRng | KeyDeletionNotConfirmed | NoDraftContent | OriginalIdentityMissing
| OriginalIdentityMismatch | DestructionEvidenceInvalid | OriginalArchiveUnverified
| FromArchive (e : ArchiveError) | FromBackend (e : ArchiveBackendError) | FromCrypto (e : Crypto.CryptoError)
| FromDraft (e : DraftError) | FromFormat (e : FormatError) | FromKey (e : Key.KeyError) | FromAudit (code : string)
| FromStore (e : Store.StoreError) | Payload (code : string).

Definition writer_error_code (e : WriterError) : string :=
  match e with
  | OriginalIdentityMissing => "EA-WRITER-ORIGINAL-IDENTITY-MISSING"
  | OriginalIdentityMismatch => "EA-WRITER-ORIGINAL-IDENTITY-MISMATCH"
  | DestructionEvidenceInvalid => "EA-WRITER-DESTRUCTION-EVIDENCE-INVALID"
  | OriginalArchiveUnverified => "EA-WRITER-ORIGINAL-ARCHIVE-UNVERIFIED"
  | ChainHeadUnusable _ => "EA-WRITER-CHAIN-HEAD-UNUSABLE"
  | RollbackDetected => "EA-WRITER-ROLLBACK-DETECTED"
  | SequenceLeaseExhausted => "EA-WRITER-SEQUENCE-LEASE-EXHAUSTED"
  | RegistryStaleBlocked => "EA-REGISTRY-STALE-BLOCKED"
  | NoActiveRecoveryRecipient => "EA-WRITER-NO-ACTIVE-RECOVERY-RECIPIENT"
  | ReaderWithoutKemKey => "EA-WRITER-READER-WITHOUT-KEM-KEY"
  | ArchiveProfileNotAllowed => "EA-ARCHIVE-PROFILE-NOT-ALLOWED"
  | IncidentNumberTaken => "EA-WRITER-INCIDENT-NUMBER-TAKEN"
  | OperatorProfileCommitment => "EA-OPERATOR-PROFILE-COMMITMENT"
  | OperatorProfileMissing => "EA-OPERATOR-PROFILE-MISSING"
  | ReauthRequired => "EA-WRITER-REAUTH-REQUIRED"
  | ReauthPurposeMismatch => "EA-WRITER-REAUTH-PURPOSE-MISMATCH"
  | ReauthBindingMismatch => "EA-WRITER-REAUTH-BINDING-MISMATCH"
  | HeadReconciliationRequired => "EA-WRITER-HEAD-RECONCILIATION-REQUIRED"
  | ChainIdMismatch => "EA-WRITER-CHAIN-ID-MISMATCH"
  | WriterRevoked => "EA-WRITER-REVOKED"
  | WriterTransitionRequired => "EA-WRITER-TRANSITION-REQUIRED"
  | WriterTransitionMismatch => "EA-WRITER-TRANSITION-MISMATCH"
  | PreparedFinalizationPresent => "EA-WRITER-PREPARED-FINALIZATION-PRESENT"
  | NoPreparedFinalization => "EA-WRITER-NO-PREPARED-FINALIZATION"
  | PreparedFinalizationUnreadable => "EA-WRITER-PREPARED-FINALIZATION-UNREADABLE"
  | PreparedFinalizationInconsistent => "EA-WRITER-PREPARED-FINALIZATION-INCONSISTENT"
  | StaleAckPreviewMismatch => "EA-REGISTRY-STALE-ACK-PREVIEW-MISMATCH"
  | StaleAckRequired => "EA-REGISTRY-STALE-ACK-REQUIRED"
  | StaleAckReplay => "EA-REGISTRY-STALE-ACK-REPLAY"
  | LocalRng => "EA-WRITER-LOCAL-RNG"
  | KeyDeletionNotConfirmed => "EA-WRITER-KEY-DELETION-NOT-CONFIRMED"
  | NoDraftContent => "EA-WRITER-NO-DRAFT-CONTENT"
  | FromArchive e => archive_error_code e
  | FromBackend e => backend_error_code e
  | FromCrypto e => Crypto.crypto_error_code e
  | FromDraft e => DraftErr.draft_error_code e
  | FromFormat e => Fmt.format_error_code e
  | FromKey e => Key.key_error_code e
  | FromAudit code => code
  | FromStore e => Store.store_error_code e
  | Payload code => code
  end.
End Wr.
Import Wr(WriterError).

(** ** The prepared transaction *)

Definition MARKER_VERSION_V1 : Z := 1.
Definition ENTRIES_DIR_V1 : str := lit "entries/".
Definition GRANTS_DIR_V1 : str := lit "grants/".

Record PreparedTransactionV1 := {
  pt_sequence : ChainSequence;
  pt_entry_hash : EntryHash;
  pt_entry_object_hash : ObjectHash;
  pt_entry_bytes : list byte;
  pt_grant_object_hashes : list Hash32;
  pt_grant_bytes : list (list byte);
  pt_grant_plan_hash : list byte;
}.

#[export] Instance PreparedTransactionV1_eq_dec : EqDecision PreparedTransactionV1.
Proof. solve_decision. Defined.

(** The addresses in the order of publication: the grants, then the entry. *)
Record PreparedTargetsV1 := { tg_grants : list ArchivePath; tg_entry : ArchivePath }.

(** The decimal digits of a number, with as many steps as it may have digits;
    a [u64] has at most twenty. *)
Fixpoint decimal (fuel : nat) (n : Z) : str :=
  match fuel with
  | O => []
  | S fuel => if n <? 10 then [byte_of (n + 48)] else decimal fuel (n / 10) ++ [byte_of (n mod 10 + 48)]
  end.

(** [format!("{:012}", n)]. *)
Definition padded (n : Z) : str := let d := decimal 20 n in replicate (12 - length d) x30 ++ d.

Definition entry_name (t : PreparedTransactionV1) : str :=
  padded (pt_sequence t) ++ lit "_" ++ hex_encode (pt_entry_hash t) ++ lit ".eip".
Definition grant_name (t : PreparedTransactionV1) (h : Hash32) : str :=
  hex_encode (pt_entry_hash t) ++ lit "_" ++ hex_encode h ++ lit ".eag".

Definition targets (t : PreparedTransactionV1) : result ArchiveBackendError PreparedTargetsV1 :=
  entry ← in_dir ENTRIES_DIR_V1 (entry_name t);
  grants ← mapM (λ h, in_dir GRANTS_DIR_V1 (grant_name t h)) (pt_grant_object_hashes t);
  Ok {| tg_grants := grants; tg_entry := entry |}.

(** The staging addresses with their bytes, in the same order. *)
Definition staged_pairs (t : PreparedTransactionV1) (g : PreparedTargetsV1)
    : result ArchiveBackendError (list (ArchivePath * list byte)) :=
  mapM (λ '(target, bytes), staging ← staging_path target; Ok (staging, bytes))
    (zip (tg_grants g) (pt_grant_bytes t) ++ [(tg_entry g, pt_entry_bytes t)]).

(** The encoder writes into a vector and cannot fail. *)
Definition encode_marker (t : PreparedTransactionV1) : list byte :=
  cbor_array 7 ++ cbor_u64 MARKER_VERSION_V1 ++ cbor_u64 (pt_sequence t) ++ cbor_bytes (pt_entry_hash t)
  ++ cbor_bytes (pt_entry_object_hash t) ++ cbor_bytes (pt_grant_plan_hash t) ++ cbor_bytes (pt_entry_bytes t)
  ++ cbor_array (len (pt_grant_bytes t))
  ++ flat_map (λ '(h, grant), cbor_array 2 ++ cbor_bytes h ++ cbor_bytes grant)
       (zip (pt_grant_object_hashes t) (pt_grant_bytes t)).

Section Marker.
Context `{Minicbor}.
Context (decode_exact_object : list byte → result FormatError Object).

Abbreviation unreadable := Wr.PreparedFinalizationUnreadable.

Definition read_hash (r : list byte) : result WriterError (Hash32 * list byte) :=
  '(b, r) ← ok_or unreadable (dec_bytes r);
  match Hash32_try_from b with Ok h => Ok (h, r) | Err _ => Err unreadable end.

(** The loop over the grants. *)
Fixpoint decode_grants (count : nat) (r : list byte) : result WriterError (list (Hash32 * list byte) * list byte) :=
  match count with
  | O => Ok ([], r)
  | S count =>
      '(n, r) ← ok_or unreadable (dec_array r);
      if bool_decide (n ≠ Some 2) then Err unreadable else
      '(h, r) ← read_hash r;
      '(grant, r) ← ok_or unreadable (dec_bytes r);
      '(grants, r) ← decode_grants count r;
      Ok ((h, grant) :: grants, r)
  end.

Definition decode_marker (input : list byte) : result WriterError PreparedTransactionV1 :=
  '(n, r) ← ok_or unreadable (dec_array input);
  if bool_decide (n ≠ Some 7) then Err unreadable else
  '(version, r) ← ok_or unreadable (dec_u64 r);
  if negb (version =? MARKER_VERSION_V1) then Err unreadable else
  '(sequence, r) ← ok_or unreadable (dec_u64 r);
  '(entry_hash, r) ← read_hash r;
  '(entry_object_hash, r) ← read_hash r;
  '(plan, r) ← ok_or unreadable (dec_bytes r);
  '(entry, r) ← ok_or unreadable (dec_bytes r);
  '(count, r) ← ok_or unreadable (dec_array r);
  count ← ok_or unreadable count;
  '(grants, r) ← decode_grants (Z.to_nat count) r;
  if negb (is_empty r) then Err unreadable else
  Ok {| pt_sequence := sequence; pt_entry_hash := entry_hash; pt_entry_object_hash := entry_object_hash;
        pt_entry_bytes := entry; pt_grant_object_hashes := fst <$> grants; pt_grant_bytes := snd <$> grants;
        pt_grant_plan_hash := plan |}.

(** *** The check of a marker against itself *)

Inductive PreparedMarkerDiscrepancyV1 :=
| NoncanonicalReencoding | GrantCountMismatch | EmptyGrants | GrantDecode | GrantType | GrantObjectHash
| EntryDecode | EntryType | EntryObjectHash | EntryHashMismatch | Sequence | GrantPlanHash.

Inductive PreparedMarkerDiagnosisV1 :=
| Unreadable | StructurallyConsistent | Inconsistent (d : PreparedMarkerDiscrepancyV1).

Fixpoint verify_grants (l : list (Hash32 * list byte)) : result PreparedMarkerDiscrepancyV1 unit :=
  match l with
  | [] => Ok tt
  | (h, bytes) :: l =>
      match decode_exact_object bytes with
      | Err _ => Err GrantDecode
      | Ok (Grant grant) =>
          if bool_decide (p_object_hash grant ≠ h) then Err GrantObjectHash else verify_grants l
      | Ok _ => Err GrantType
      end
  end.

Definition verify_entry (t : PreparedTransactionV1) : result PreparedMarkerDiscrepancyV1 unit :=
  match decode_exact_object (pt_entry_bytes t) with
  | Err _ => Err EntryDecode
  | Ok (Entry entry) =>
      if bool_decide (p_object_hash entry ≠ pt_entry_object_hash t) then Err EntryObjectHash else
      if bool_decide (ep_entry_hash (value entry) ≠ pt_entry_hash t) then Err EntryHashMismatch else
      if negb (mf_sequence (ep_manifest (value entry)) =? pt_sequence t) then Err Sequence else
      if bool_decide (mf_plan (ep_manifest (value entry)) ≠ pt_grant_plan_hash t) then Err GrantPlanHash else Ok tt
  | Ok _ => Err EntryType
  end.

Definition verify_detailed (t : PreparedTransactionV1) (exact : list byte) : result PreparedMarkerDiscrepancyV1 unit :=
  if bool_decide (encode_marker t ≠ exact) then Err NoncanonicalReencoding else
  if negb (len (pt_grant_object_hashes t) =? len (pt_grant_bytes t)) then Err GrantCountMismatch else
  if bool_decide (pt_grant_bytes t = []) then Err EmptyGrants else
  _ ← verify_grants (zip (pt_grant_object_hashes t) (pt_grant_bytes t));
  verify_entry t.

Definition verify_marker (t : PreparedTransactionV1) (exact : list byte) : result WriterError unit :=
  map_err (λ _, Wr.PreparedFinalizationInconsistent) (verify_detailed t exact).

Definition diagnose_prepared_marker (exact : list byte) : PreparedMarkerDiagnosisV1 :=
  match decode_marker exact with
  | Err _ => Unreadable
  | Ok t => match verify_detailed t exact with Ok _ => StructurallyConsistent | Err d => Inconsistent d end
  end.
End Marker.

(** ** What a consistent marker says *)

Section Meaning.
Context (decode_exact_object : list byte → result FormatError Object).

(** The objects of a transaction are what it says of them. *)
Record consistent (t : PreparedTransactionV1) : Prop := {
  cn_grants : Forall2 (λ h b, ∃ g, decode_exact_object b = Ok (Grant g) ∧ p_object_hash g = h)
                (pt_grant_object_hashes t) (pt_grant_bytes t);
  cn_some : pt_grant_bytes t ≠ [];
  cn_entry : ∃ e, decode_exact_object (pt_entry_bytes t) = Ok (Entry e) ∧
    p_object_hash e = pt_entry_object_hash t ∧ ep_entry_hash (value e) = pt_entry_hash t ∧
    mf_sequence (ep_manifest (value e)) = pt_sequence t ∧ mf_plan (ep_manifest (value e)) = pt_grant_plan_hash t;
}.

Lemma verify_grants_Ok hs bs :
  length hs = length bs →
  verify_grants decode_exact_object (zip hs bs) = Ok tt ↔
  Forall2 (λ h b, ∃ g, decode_exact_object b = Ok (Grant g) ∧ p_object_hash g = h) hs bs.
Proof.
  revert bs. induction hs as [|h hs IH]; intros [|b bs] Hl; try done; cbn.
  rewrite Forall2_cons. destruct (decode_exact_object b) as [[]|] eqn:E; try (split; [done|naive_solver]).
  case_bool_decide as Hh; [split; [done|naive_solver]|]. rewrite IH by (cbn in Hl; lia). naive_solver.
Qed.

Lemma verify_entry_Ok t :
  verify_entry decode_exact_object t = Ok tt ↔
  ∃ e, decode_exact_object (pt_entry_bytes t) = Ok (Entry e) ∧
    p_object_hash e = pt_entry_object_hash t ∧ ep_entry_hash (value e) = pt_entry_hash t ∧
    mf_sequence (ep_manifest (value e)) = pt_sequence t ∧ mf_plan (ep_manifest (value e)) = pt_grant_plan_hash t.
Proof.
  unfold verify_entry. destruct (decode_exact_object _) as [[]|]; try (split; [done|naive_solver]).
  case_bool_decide; [split; [done|naive_solver]|]. case_bool_decide; [split; [done|naive_solver]|].
  destruct (_ =? _) eqn:Es; cbn; [apply Z.eqb_eq in Es|apply Z.eqb_neq in Es; split; [done|naive_solver]].
  case_bool_decide; [split; [done|naive_solver]|]. naive_solver.
Qed.

Lemma verify_detailed_Ok t exact :
  verify_detailed decode_exact_object t exact = Ok tt ↔ encode_marker t = exact ∧ consistent t.
Proof.
  unfold verify_detailed. case_bool_decide as He; [naive_solver|].
  destruct (_ =? _) eqn:El; cbn; [apply Z.eqb_eq in El|apply Z.eqb_neq in El].
  2:{ split; [done|]. intros (_ & [Hg _ _]). apply Forall2_length in Hg. unfold len in El. lia. }
  assert (length (pt_grant_object_hashes t) = length (pt_grant_bytes t)) as Hl by (unfold len in El; lia).
  case_bool_decide as Hn; [split; [done|by intros (_ & [_ ? _])]|]. split.
  - intros H. apply bind_Ok in H as ([] & Hg & Hv). split; [done|]. split; [by apply verify_grants_Ok|done|].
    by apply verify_entry_Ok.
  - intros (_ & [Hg _ Hv]). apply bind_Ok. exists tt. split; [by apply verify_grants_Ok|by apply verify_entry_Ok].
Qed.
End Meaning.

(** The widths of the fields. *)
Record marker_sized (t : PreparedTransactionV1) : Prop := {
  ms_sequence : in_u64 (pt_sequence t);
  ms_entry_hash : length (pt_entry_hash t) = 32%nat;
  ms_entry_object : length (pt_entry_object_hash t) = 32%nat;
  ms_grant_hashes : Forall (λ h : Hash32, length h = 32%nat) (pt_grant_object_hashes t);
  ms_pairs : length (pt_grant_object_hashes t) = length (pt_grant_bytes t);
  ms_size : sized (encode_marker t);
}.

Section Reading.
Context `{MinicborLaws}.

Lemma read_hash_law h r : length h = 32%nat → sized (cbor_bytes h ++ r) → read_hash (cbor_bytes h ++ r) = Ok (h, r).
Proof.
  intros Hl Hs. unfold read_hash. rewrite dec_bytes_law by done. cbn. unfold Hash32_try_from.
  by rewrite decide_True.
Qed.

Lemma read_hash_width b h r : read_hash b = Ok (h, r) → length h = 32%nat.
Proof.
  unfold read_hash. intros E. apply bind_Ok in E as ([b' r'] & _ & E). unfold Hash32_try_from in E.
  case_decide; [|done]. by injection E as <- <-.
Qed.

Lemma decode_grants_law hs bs r :
  length hs = length bs → Forall (λ h : Hash32, length h = 32%nat) hs →
  sized (flat_map (λ '(h, grant), cbor_array 2 ++ cbor_bytes h ++ cbor_bytes grant) (zip hs bs) ++ r) →
  decode_grants (length bs) (flat_map (λ '(h, grant), cbor_array 2 ++ cbor_bytes h ++ cbor_bytes grant) (zip hs bs) ++ r)
  = Ok (zip hs bs, r).
Proof.
  revert bs. induction hs as [|h hs IH]; intros [|b bs] Hl Hw Hs; try done.
  apply Forall_cons in Hw as [Hh Hw]. cbn [zip zip_with flat_map decode_grants length] in *. rewrite <- !app_assoc in *.
  rewrite dec_array_law; [|done|done]. cbn [ok_or mbind result_bind]. rewrite bool_decide_eq_false_2 by auto.
  apply sized_suffix in Hs. rewrite read_hash_law by done. cbn [mbind result_bind].
  apply sized_suffix in Hs. rewrite dec_bytes_law by done. cbn [ok_or mbind result_bind].
  apply sized_suffix in Hs. rewrite IH; [done|cbn in Hl; lia|done|done].
Qed.

Lemma decode_grants_shape n b l r :
  decode_grants n b = Ok (l, r) → Forall (λ p : Hash32 * list byte, length p.1 = 32%nat) l.
Proof.
  revert b l r. induction n as [|n IH]; intros b l r; cbn; [intros [= <- <-]; constructor|].
  intros E. apply bind_Ok in E as ([? r1] & _ & E). case_bool_decide; [done|].
  apply bind_Ok in E as ([h r2] & Hh & E). apply bind_Ok in E as ([g r3] & _ & E).
  apply bind_Ok in E as ([gs r4] & Hg & E). injection E as <- <-. constructor; [by eapply read_hash_width|by eapply IH].
Qed.

Lemma decode_encode_marker t : marker_sized t → decode_marker (encode_marker t) = Ok t.
Proof.
  intros [Hq He Ho Hh Hl Hs]. unfold decode_marker. unfold encode_marker in *.
  rewrite dec_array_law; [|done|done]. cbn [ok_or mbind result_bind]. rewrite bool_decide_eq_false_2 by auto.
  apply sized_suffix in Hs. rewrite dec_u64_law; [|done|done]. cbn [ok_or mbind result_bind negb].
  change (MARKER_VERSION_V1 =? MARKER_VERSION_V1) with true. cbn [negb].
  apply sized_suffix in Hs. rewrite dec_u64_law; [|done|done]. cbn [ok_or mbind result_bind].
  apply sized_suffix in Hs. rewrite read_hash_law by done. cbn [mbind result_bind].
  apply sized_suffix in Hs. rewrite read_hash_law by done. cbn [mbind result_bind].
  apply sized_suffix in Hs. rewrite dec_bytes_law by done. cbn [ok_or mbind result_bind].
  apply sized_suffix in Hs. rewrite dec_bytes_law by done. cbn [ok_or mbind result_bind].
  apply sized_suffix in Hs.
  assert (in_u64 (len (pt_grant_bytes t))) as Hn.
  { apply sized_u64. pose proof (sized_suffix _ _ Hs) as Hs'. revert Hs' Hl. unfold sized. clear.
    generalize (pt_grant_object_hashes t) (pt_grant_bytes t). intros hs bs Hs Hl.
    assert (len bs ≤ len (flat_map (λ '(h, grant), cbor_array 2 ++ cbor_bytes h ++ cbor_bytes grant) (zip hs bs))) as Hb; [|lia].
    clear Hs. revert bs Hl. induction hs as [|h hs IH]; intros [|b bs] Hl; try done. cbn [zip zip_with flat_map].
    rewrite len_app, len_app, len_cons. specialize (IH bs ltac:(cbn in Hl; lia)).
    pose proof (len_nonneg (cbor_bytes h ++ cbor_bytes b)). change (len (cbor_array 2)) with 1. unfold zip in *. lia. }
  rewrite dec_array_law; [|done|done]. cbn [ok_or mbind result_bind].
  apply sized_suffix in Hs. unfold len at 1. rewrite Nat2Z.id.
  rewrite <- (app_nil_r (flat_map _ _)) in Hs |- *. rewrite decode_grants_law by done. cbn [mbind result_bind is_empty negb].
  destruct t. cbn in *. f_equal. f_equal; [by rewrite fst_zip by lia|by rewrite snd_zip by lia].
Qed.
End Reading.

(** C17. A marker is read back as the transaction it was written from, and is
    found consistent exactly if its grants and its entry are objects with the
    hashes, sequence and plan it names; whatever bytes are found consistent are
    the encoding of such a transaction. *)
Theorem prepared_marker_exact `{MinicborLaws} decode_exact_object t exact :
  (marker_sized t → decode_marker (encode_marker t) = Ok t ∧
     (diagnose_prepared_marker decode_exact_object (encode_marker t) = StructurallyConsistent
      ↔ consistent decode_exact_object t)) ∧
  (diagnose_prepared_marker decode_exact_object exact = StructurallyConsistent →
     ∃ u, decode_marker exact = Ok u ∧ encode_marker u = exact ∧ consistent decode_exact_object u).
Proof.
  split.
  - intros Ht. pose proof (decode_encode_marker t Ht) as Hd. split; [done|]. unfold diagnose_prepared_marker. rewrite Hd.
    pose proof (verify_detailed_Ok decode_exact_object t (encode_marker t)) as Hv.
    destruct (verify_detailed _ _ _) as [[]|d]; [naive_solver|]. split; [done|]. intros Hc. by destruct Hv as [_ Hv]; discriminate Hv.
  - unfold diagnose_prepared_marker. destruct (decode_marker exact) as [u|]; [|done].
    pose proof (verify_detailed_Ok decode_exact_object u exact) as Hv.
    destruct (verify_detailed _ _ _) as [[]|d]; [|done]. intros _. exists u. naive_solver.
Qed.

(** ** Addresses *)

(** Letters of hexadecimal and decimal numbers, dots and underscores. *)
Definition plain (s : str) : Prop := (slash ∉ s) ∧ (backslash ∉ s).

Lemma plain_app s t : plain s → plain t → plain (s ++ t).
Proof. unfold plain. set_solver. Qed.

Lemma plain_normal s : plain s → (3 ≤ length s)%nat → normal s.
Proof.
  intros [Hs Hb] Hl. split; [done|]. rewrite split_no_sep by done. constructor; [|constructor].
  split_and!; intros E; apply (f_equal length) in E; cbn in E; lia.
Qed.

Lemma plain_byte z : z ≠ 47 → z ≠ 92 → 0 ≤ z < 256 → plain [byte_of z].
Proof.
  intros H1 H2 Hz. split; rewrite list_elem_of_singleton; intros E; apply (f_equal u8) in E;
    rewrite u8_byte_of, Z.mod_small in E by lia; cbn in E; lia.
Qed.

Lemma plain_hex b : plain (hex_encode b).
Proof.
  induction b as [|x b IH]; [by split; apply not_elem_of_nil|]. cbn [hex_encode flat_map].
  assert (∀ d, 0 ≤ d < 16 → plain [byte_of (hex_digit d)]) as Hd.
  { intros d Hd. apply plain_byte; unfold hex_digit; destruct (d <? 10) eqn:E;
      [apply Z.ltb_lt in E|apply Z.ltb_ge in E|apply Z.ltb_lt in E|apply Z.ltb_ge in E|apply Z.ltb_lt in E|apply Z.ltb_ge in E]; lia. }
  pose proof (u8_range x). apply plain_app; [|exact IH].
  change [byte_of (hex_digit (u8 x / 16)); byte_of (hex_digit (u8 x mod 16))]
    with ([byte_of (hex_digit (u8 x / 16))] ++ [byte_of (hex_digit (u8 x mod 16))]).
  apply plain_app; apply Hd; [split; [apply Z.div_pos|apply Z.div_lt_upper_bound]; lia|apply Z.mod_pos_bound; lia].
Qed.

Lemma plain_decimal fuel n : 0 ≤ n → plain (decimal fuel n).
Proof.
  revert n. induction fuel as [|fuel IH]; intros n Hn; [by split; apply not_elem_of_nil|]. cbn.
  destruct (n <? 10) eqn:E; [apply Z.ltb_lt in E; apply plain_byte; lia|].
  apply plain_app; [apply IH, Z.div_pos; lia|]. pose proof (Z.mod_pos_bound n 10 ltac:(lia)). apply plain_byte; lia.
Qed.

Lemma plain_padded n : 0 ≤ n → plain (padded n).
Proof.
  intros Hn. apply plain_app; [|by apply plain_decimal]. split; intros Hx%elem_of_replicate_inv; done.
Qed.

Lemma layout_entries : layout_dir ENTRIES_DIR_V1.
Proof. split; [apply (bool_decide_unpack _); vm_compute; exact I|reflexivity]. Qed.
Lemma layout_grants : layout_dir GRANTS_DIR_V1.
Proof. split; [apply (bool_decide_unpack _); vm_compute; exact I|reflexivity]. Qed.

Definition entry_path (t : PreparedTransactionV1) : ArchivePath :=
  {| ArchivePath.value := ENTRIES_DIR_V1 ++ entry_name t; directory_length := 8 |}.
Definition grant_path (t : PreparedTransactionV1) (h : Hash32) : ArchivePath :=
  {| ArchivePath.value := GRANTS_DIR_V1 ++ grant_name t h; directory_length := 7 |}.

Lemma entry_in_dir t : 0 ≤ pt_sequence t → in_dir ENTRIES_DIR_V1 (entry_name t) = Ok (entry_path t).
Proof.
  intros Hq. apply in_dir_Ok. split; [apply layout_entries|]. split; [|done]. apply plain_normal.
  - unfold entry_name. apply plain_app; [by apply plain_padded|]. apply plain_app; [|apply plain_app; [apply plain_hex|]];
      split; apply (bool_decide_unpack _); vm_compute; exact I.
  - unfold entry_name. rewrite !length_app. cbn. lia.
Qed.

Lemma grant_in_dir t h : in_dir GRANTS_DIR_V1 (grant_name t h) = Ok (grant_path t h).
Proof.
  apply in_dir_Ok. split; [apply layout_grants|]. split; [|done]. apply plain_normal.
  - repeat apply plain_app; first [apply plain_hex|split; apply (bool_decide_unpack _); vm_compute; exact I].
  - unfold grant_name. rewrite !length_app. cbn. lia.
Qed.

Lemma mapM_Ok {E A B} (f : A → result E B) (g : A → B) l : (∀ x, f x = Ok (g x)) → mapM f l = Ok (g <$> l).
Proof. intros Hf. induction l as [|x l IH]; [done|]. cbn. by rewrite Hf, IH. Qed.

Lemma targets_Ok t :
  0 ≤ pt_sequence t → targets t = Ok {| tg_grants := grant_path t <$> pt_grant_object_hashes t; tg_entry := entry_path t |}.
Proof.
  intros Hq. unfold targets. rewrite entry_in_dir by done. cbn [mbind result_bind].
  by rewrite (mapM_Ok _ (grant_path t)) by (intros; apply grant_in_dir).
Qed.

(** The objects of a transaction with their addresses. *)
Definition prepared_objects (t : PreparedTransactionV1) : list (ArchivePath * list byte) :=
  zip (grant_path t <$> pt_grant_object_hashes t) (pt_grant_bytes t) ++ [(entry_path t, pt_entry_bytes t)].

Definition staging_of (p : ArchivePath) : ArchivePath :=
  {| ArchivePath.value := as_str p ++ STAGING_SUFFIX_V1; directory_length := directory_length p |}.

(** The paths of a transaction are addresses with a directory, and no staging
    addresses. *)
Definition publishable (p : ArchivePath) : Prop :=
  is_address p ∧ directory p ≠ [] ∧ staging_path p = Ok (staging_of p) ∧ is_staging_path (as_str p) = false.

Lemma not_staging s ext : ext ∈ [lit ".eip"; lit ".eag"] → is_staging_path (s ++ ext) = false.
Proof.
  intros Hx. apply bool_decide_eq_false_2. intros [k Hk]. change STAGING_SUFFIX_V1 with (lit ".sta" ++ lit "ging") in Hk.
  rewrite app_assoc in Hk. set_unfold in Hx. destruct Hx as [->|[->|[]]]; by apply app_inj_2 in Hk as [_ Hk].
Qed.

Lemma publishable_in_dir d r n ext p :
  in_dir d r = Ok p → r = n ++ ext → d ≠ [] → ext ∈ [lit ".eip"; lit ".eag"] → publishable p.
Proof.
  intros H -> Hd Hx. assert (is_address p) as Ha by (left; eauto). apply in_dir_Ok in H as (_ & _ & ->).
  assert (directory {| ArchivePath.value := d ++ n ++ ext; directory_length := length d |} = d) as E.
  { unfold directory. cbn. by rewrite take_app_length. }
  split; [done|]. split; [by rewrite E|]. split.
  - rewrite (staging_path_eq _ Ha) by (by rewrite E). by rewrite E.
  - unfold as_str. cbn. rewrite app_assoc. by apply not_staging.
Qed.

Lemma publishable_entry t : 0 ≤ pt_sequence t → publishable (entry_path t).
Proof.
  intros Hq. eapply (publishable_in_dir _ _ (padded (pt_sequence t) ++ lit "_" ++ hex_encode (pt_entry_hash t)) (lit ".eip"));
    [by apply entry_in_dir|by unfold entry_name; rewrite <- !app_assoc|done|set_solver].
Qed.

Lemma publishable_grant t h : publishable (grant_path t h).
Proof.
  eapply (publishable_in_dir _ _ (hex_encode (pt_entry_hash t) ++ lit "_" ++ hex_encode h) (lit ".eag"));
    [by apply grant_in_dir|by unfold grant_name; rewrite <- !app_assoc|done|set_solver].
Qed.

Lemma prepared_publishable t o : 0 ≤ pt_sequence t → o ∈ prepared_objects t → publishable o.1.
Proof.
  intros Hq [Ho|Ho]%elem_of_app.
  - destruct o as [p b]. apply elem_of_zip_l in Ho. apply list_elem_of_fmap in Ho as (h & -> & _). apply publishable_grant.
  - apply list_elem_of_singleton in Ho as ->. by apply publishable_entry.
Qed.

Lemma staged_pairs_Ok t :
  0 ≤ pt_sequence t →
  staged_pairs t {| tg_grants := grant_path t <$> pt_grant_object_hashes t; tg_entry := entry_path t |}
  = Ok ((λ o, (staging_of o.1, o.2)) <$> prepared_objects t).
Proof.
  intros Hq. unfold staged_pairs. cbn [tg_grants tg_entry]. change (zip _ _ ++ _) with (prepared_objects t).
  assert (Forall (λ o, publishable o.1) (prepared_objects t)) as Hp.
  { apply Forall_forall. intros o Ho. by eapply prepared_publishable. }
  induction Hp as [|[p b] l (_ & _ & Hs & _) _ IH]; [done|]. cbn in *. rewrite Hs. cbn. by rewrite IH.
Qed.

Lemma grant_path_inj t g h : as_str (grant_path t g) = as_str (grant_path t h) → g = h.
Proof.
  unfold as_str, grant_path, grant_name. cbn [ArchivePath.value]. intros E.
  apply (inj (GRANTS_DIR_V1 ++.)), (inj (hex_encode (pt_entry_hash t) ++.)), (inj (lit "_" ++.)), (inj (.++ lit ".eag")) in E.
  by apply hex_encode_inj.
Qed.

Lemma grant_not_entry t h : as_str (grant_path t h) ≠ as_str (entry_path t).
Proof. unfold as_str, grant_path, entry_path. cbn [ArchivePath.value]. discriminate. Qed.

(** Different grants have different addresses, and no grant that of the entry. *)
Lemma prepared_distinct t :
  NoDup (pt_grant_object_hashes t) → NoDup ((λ o, as_str o.1) <$> prepared_objects t).
Proof.
  intros Hn. unfold prepared_objects. rewrite fmap_app. apply NoDup_app. split_and!; [| |apply NoDup_singleton].
  - generalize (pt_grant_bytes t). induction Hn as [|h hs Hh Hn IH]; intros [|b bs]; try apply NoDup_nil_2.
    cbn. apply NoDup_cons. split; [|apply IH]. intros ([p b'] & E & Hin)%list_elem_of_fmap. apply elem_of_zip_l in Hin.
    apply list_elem_of_fmap in Hin as (g & -> & Hg). cbn in E. apply grant_path_inj in E. congruence.
  - intros s ([p b] & -> & Hin)%list_elem_of_fmap. apply elem_of_zip_l in Hin. apply list_elem_of_fmap in Hin as (g & -> & _).
    cbn [fmap list_fmap fst]. rewrite list_elem_of_singleton. apply grant_not_entry.
Qed.

(** *** A sample *)

Module SampleMarker.
Definition entry_bytes : list byte := lit "the entry".
Definition grant_bytes : list byte := lit "the grant".
Definition entry_hash : EntryHash := replicate 32 x01.
Definition entry_object : ObjectHash := replicate 32 x02.
Definition grant_object : ObjectHash := replicate 32 x03.
Definition plan : Hash32 := replicate 32 x04.

Definition entry : Parsed EntryPackageV1 := {|
  value := {| ep_entry_hash := entry_hash;
              ep_manifest := {| mf_organization := replicate 16 x05; mf_chain := replicate 16 x06; mf_sequence := 7;
                                mf_previous := Some (replicate 32 x07); mf_writer := replicate 32 x08; mf_transition := None;
                                mf_registry_version := 3; mf_registry_head := replicate 32 x09; mf_plan := plan |};
              ep_signed_manifest := []; ep_signature := [] |};
  exact_bytes := entry_bytes; p_object_hash := entry_object |}.

Definition grant : Parsed GrantV1 := {|
  value := {| gt_organization := replicate 16 x05; gt_kind := GInitial; gt_entry_hash := entry_hash;
              gt_purpose := Gp.Recovery; gt_thumbprint := replicate 32 x0a; gt_certificate := replicate 32 x0b;
              gt_body := []; gt_signature := [] |};
  exact_bytes := grant_bytes; p_object_hash := grant_object |}.

Definition decode (b : list byte) : result FormatError Object :=
  if bool_decide (b = entry_bytes) then Ok (Entry entry)
  else if bool_decide (b = grant_bytes) then Ok (Grant grant) else Err Fmt.Shape.

Definition transaction : PreparedTransactionV1 := {|
  pt_sequence := 7; pt_entry_hash := entry_hash; pt_entry_object_hash := entry_object; pt_entry_bytes := entry_bytes;
  pt_grant_object_hashes := [grant_object]; pt_grant_bytes := [grant_bytes]; pt_grant_plan_hash := plan |}.

Lemma transaction_sized : marker_sized transaction.
Proof. split; try reflexivity; [by split|repeat constructor|]. unfold sized. apply Z.leb_le. vm_compute. reflexivity. Qed.

Lemma transaction_consistent : consistent decode transaction.
Proof. split; [repeat constructor; by exists grant|done|by exists entry]. Qed.
End SampleMarker.

Lemma prepared_marker_exact_witness :
  diagnose_prepared_marker (H := simple_minicbor) SampleMarker.decode (encode_marker SampleMarker.transaction)
  = StructurallyConsistent.
Proof.
  apply (proj2 (proj1 (prepared_marker_exact (H := simple_minicbor) SampleMarker.decode SampleMarker.transaction [])
    SampleMarker.transaction_sized)).
  apply SampleMarker.transaction_consistent.
Defined.
