(* ===== verification/WriterFinalize.v ===== *)
(** * WriterFinalize: completing an entry ([ea-writer], [finalize.rs], [recover.rs])

    The second half of a finalization: from the claim of the incident number
    over staging, the durable marker and the deletion of the draft's key, the
    irreversible step, to the publication and the blank draft; the recovery that
    a restart runs, and the clean-up after it. The journal of claimed incident
    numbers ([original_source.rs], [stale_registry.rs]) is here as well.

    The repository of the draft is that of [Draft], the archive the port of
    [Transaction] with three more calls. What the first half builds, the bytes
    of the entry and its grants, is an argument; so is the gate that checks the
    binding of destruction evidence. Each of the journal's transactions is one
    call that may fail and then has no effect. The finalization of destruction
    evidence differs in step 8 and is not here. *)

From S2P Require Import Prelude Types Utf8 Cbor Str ArchivePath Transaction Profile CsvImport OperatorSession Inventory KeyStore GrantPlan ServerDb ObjectStore Draft Discard IncidentNumbers WriterMarker.
Import Fmt(FormatError) DraftErr(DraftError) Gp(GrantPurposeV1) Wr(WriterError).

(** ** Steps, phases and interruption points ([fault.rs]) *)

Module Step.
Inductive FinalizationStep :=
| RebuildLocalHead | CompareServerCheckpoint | SelectRegistryHeadAndOperator | ValidateAndSerialize
| BuildAndHashGrantPlan | DrawSecretsAndBuildEntryHash | ProduceGrantsAndEntryBytes | StageAndFlush
| ZeroAndDeleteDraftKey | PublishGrants | PublishEntryLast | PublishToNetworkArchive | ReconcileAndOpenBlankDraft.
End Step.
Import Step(FinalizationStep).

Module Phase.
Inductive FinalizationPhase :=
| ReversibleDraft | PreparedAndFlushed | DraftKeyAbsent | GrantsPublished | EntryCommitted
| NetworkArchivePublished | Reconciled.

Definition is_irreversible (p : FinalizationPhase) : bool :=
  match p with ReversibleDraft | PreparedAndFlushed => false | _ => true end.
End Phase.
Import Phase(FinalizationPhase).

Module Point.
Inductive FinalizationFaultPoint :=
| BeforeStagingCreate | AfterStagingCreateBeforeFileFlush | AfterStagingFileFlushBeforeDirectoryFlush
| AfterStagingDirectoryFlushBeforeMarker | AfterPreparedMarkerCommit | AfterKeystoreDelete
| AfterAbsenceConfirmation | AfterGrantPublishBeforeEntryRename | AfterEntryRenameBeforeDirectoryFlush
| AfterEntryDirectoryFlush | AfterReconciliationBeforeBlankDraft | BackupRestoreAfterKeyDeletion.

(** The phase in which a restart finds the point. *)
Definition point_phase (p : FinalizationFaultPoint) : FinalizationPhase :=
  match p with
  | BeforeStagingCreate | AfterStagingCreateBeforeFileFlush | AfterStagingFileFlushBeforeDirectoryFlush
  | AfterStagingDirectoryFlushBeforeMarker => Phase.ReversibleDraft
  | AfterPreparedMarkerCommit => Phase.PreparedAndFlushed
  | AfterKeystoreDelete | AfterAbsenceConfirmation | BackupRestoreAfterKeyDeletion => Phase.DraftKeyAbsent
  | AfterGrantPublishBeforeEntryRename => Phase.GrantsPublished
  | AfterEntryRenameBeforeDirectoryFlush | AfterEntryDirectoryFlush => Phase.EntryCommitted
  | AfterReconciliationBeforeBlankDraft => Phase.NetworkArchivePublished
  end.
End Point.
Import Point(FinalizationFaultPoint).

#[export] Instance FinalizationStep_eq_dec : EqDecision FinalizationStep.
Proof. solve_decision. Defined.
#[export] Instance FinalizationFaultPoint_eq_dec : EqDecision FinalizationFaultPoint.
Proof. solve_decision. Defined.

(** Where a run of the second half may stop; the comparison of a preview
    belongs to the first half. *)
Inductive Stop :=
| After (step : FinalizationStep)
| AtFault (point : FinalizationFaultPoint)
| Confirmed
| WithStale (event : Id16) (fault : option FinalizationFaultPoint).

Definition ends_after (stop : Stop) (step : FinalizationStep) : bool :=
  match stop with After s => bool_decide (s = step) | _ => false end.

Definition breaks_at (stop : Stop) (point : FinalizationFaultPoint) : bool :=
  match stop with
  | AtFault p | WithStale _ (Some p) => bool_decide (p = point)
  | _ => false
  end.

Record FinalizeOutcome := { fo_sequence : ChainSequence; fo_entry_hash : EntryHash; fo_object_hash : ObjectHash }.

(** What the second half adds to [ReachedState]. *)
Record ReachedState := { rs_phase : FinalizationPhase; rs_outcome : option FinalizeOutcome }.

Definition reached (p : FinalizationPhase) : ReachedState := {| rs_phase := p; rs_outcome := None |}.

(** ** The journal of claimed numbers *)

(** A row of [writer_incident_claim] or [writer_stale_claim]. *)
Record ClaimRow := {
  cr_draft_id : list byte;
  cr_revision : Z;
  cr_organization : OrganizationId;
  cr_year : Z;
  cr_number : str;
}.

Record OriginalIdentityRow := { oi_object_hash : ObjectHash; oi_record_id : Id16; oi_sequence : Z;
  oi_organization : OrganizationId; oi_year : Z; oi_number : str }.

(** [ClaimedIncidentNumber]. *)
Record ClaimedIncidentNumber := {
  cn_source_claim : option Z;
  cn_stale_event : option Id16;
  cn_organization : OrganizationId;
  cn_year : Z;
  cn_number : str;
}.

Record OriginalIncidentIdentity := { id_record_id : Id16; id_organization : OrganizationId; id_year : Z; id_number : str;
  id_sequence : ChainSequence }.

(** The tables of the journal. The claims of [writer_incident_claim] are
    numbered from one; [j_original] says that its tables exist. *)
Record Journal := {
  j_numbers : NumberTables;
  j_original : bool;
  j_claims : list ClaimRow;
  j_released : gset Z;
  j_identities : gmap EntryHash OriginalIdentityRow;
  j_published : gset EntryHash;
  j_stale_consumed : gset Id16;
  j_stale_prepared : gmap EntryHash (Id16 * (OrganizationId * Z * str));
  j_stale_claims : list (Id16 * ClaimRow);
  j_stale_released : gset Id16;
}.

Definition with_numbers n j := {| j_numbers := n; j_original := j_original j; j_claims := j_claims j; j_released := j_released j;
  j_identities := j_identities j; j_published := j_published j; j_stale_consumed := j_stale_consumed j;
  j_stale_prepared := j_stale_prepared j; j_stale_claims := j_stale_claims j; j_stale_released := j_stale_released j |}.
Definition with_original b c r i p j := {| j_numbers := j_numbers j; j_original := b; j_claims := c; j_released := r;
  j_identities := i; j_published := p; j_stale_consumed := j_stale_consumed j;
  j_stale_prepared := j_stale_prepared j; j_stale_claims := j_stale_claims j; j_stale_released := j_stale_released j |}.
Definition with_stale p c r j := {| j_numbers := j_numbers j; j_original := j_original j; j_claims := j_claims j;
  j_released := j_released j; j_identities := j_identities j; j_published := j_published j;
  j_stale_consumed := j_stale_consumed j; j_stale_prepared := p; j_stale_claims := c; j_stale_released := r |}.

(** ** The archive *)

(** The calls beside those of [Transaction]. A read shows every blob or fails;
    the visitors here never stop it. *)
Class ArchiveStore (B : Type) `{ArchiveBackend B} := {
  staged_paths : B → B * result ArchiveBackendError (list str);
  remove_if_present : ArchivePath → step B;
  visit_blobs : B → B * result ArchiveError (list (str * list byte));
}.

(** ** The writer *)

Record Writer (K B : Type) := {
  wr_world : World K;
  wr_archive : B;
  wr_locked : bool;
  wr_journal : Journal;
  wr_claimed : option ClaimedIncidentNumber;
}.
Arguments wr_world {K B}.
Arguments wr_archive {K B}.
Arguments wr_locked {K B}.
Arguments wr_journal {K B}.
Arguments wr_claimed {K B}.

Definition wm (K B A : Type) : Type := Writer K B → Writer K B * result WriterError A.

#[export] Instance wm_ret K B : MRet (wm K B) := λ A a s, (s, Ok a).
#[export] Instance wm_bind K B : MBind (wm K B) := λ A C k m s,
  match m s with (s, Ok a) => k a s | (s, Err e) => (s, Err e) end.

Section Monad.
Context {K B : Type}.

Definition with_world w (s : Writer K B) : Writer K B :=
  {| wr_world := w; wr_archive := wr_archive s; wr_locked := wr_locked s; wr_journal := wr_journal s; wr_claimed := wr_claimed s |}.
Definition with_archive b (s : Writer K B) : Writer K B :=
  {| wr_world := wr_world s; wr_archive := b; wr_locked := wr_locked s; wr_journal := wr_journal s; wr_claimed := wr_claimed s |}.
Definition with_lock l (s : Writer K B) : Writer K B :=
  {| wr_world := wr_world s; wr_archive := wr_archive s; wr_locked := l; wr_journal := wr_journal s; wr_claimed := wr_claimed s |}.
Definition with_journal j (s : Writer K B) : Writer K B :=
  {| wr_world := wr_world s; wr_archive := wr_archive s; wr_locked := wr_locked s; wr_journal := j; wr_claimed := wr_claimed s |}.
Definition with_claimed c (s : Writer K B) : Writer K B :=
  {| wr_world := wr_world s; wr_archive := wr_archive s; wr_locked := wr_locked s; wr_journal := wr_journal s; wr_claimed := c |}.

Definition w_lift {A} (r : result WriterError A) : wm K B A := λ s, (s, r).
Definition w_fail {A} (e : WriterError) : wm K B A := w_lift (Err e).

Definition on_draft {A} (m : dm K A) : wm K B A := λ s,
  let '(w, r) := m (wr_world s) in (with_world w s, map_err Wr.FromDraft r).

(** The outcome of a call of the repository as a value. *)
Definition try_draft {A} (m : dm K A) : wm K B (result DraftError A) := λ s,
  let '(w, r) := m (wr_world s) in (with_world w s, Ok r).

(** The outcome of a call of the key store as a value. *)
Definition try_keys {A} (f : K → K * result Key.KeyError A) : wm K B (result Key.KeyError A) := λ s,
  let '(k, r) := f (w_keys (wr_world s)) in (with_world (set_keys (wr_world s) k) s, Ok r).

Definition on_archive (m : step B) : wm K B unit := λ s,
  let '(b, r) := m (wr_archive s) in (with_archive b s, map_err Wr.FromBackend r).

Definition try_archive (m : step B) : wm K B (result ArchiveBackendError unit) := λ s,
  let '(b, r) := m (wr_archive s) in (with_archive b s, Ok r).

Definition set_claimed (c : option ClaimedIncidentNumber) : wm K B unit := λ s, (with_claimed c s, Ok tt).

(** One transaction on the journal. *)
Definition journal {A} (f : DraftTables → Journal → result WriterError (Journal * A)) : wm K B A := λ s,
  let w := wr_world s in
  let s' := with_world (set_tables w (w_tables w) (tail (w_faults w))) s in
  if default false (head (w_faults w)) then (s', Err (Wr.FromStore Store.Database)) else
  match f (w_tables w) (wr_journal s) with
  | Ok (j, a) => (with_journal j s', Ok a)
  | Err e => (s', Err e)
  end.

(** [acquire_writer_lock] and [acquire_draft_lock] with their guards. *)
Definition with_locks {A} (body : wm K B A) : wm K B A := λ s,
  if wr_locked s then (s, Err (Wr.FromBackend AlreadyLocked)) else
  if w_locked (wr_world s) then (s, Err (Wr.FromDraft DraftErr.LockHeld)) else
  let '(s', r) := body (with_world (Draft.set_locked (wr_world s) true) (with_lock true s)) in
  (with_world (Draft.set_locked (wr_world s') false) (with_lock false s'), r).

(** [for x in l { f(x)?; }]. *)
Fixpoint w_each {A} (f : A → wm K B unit) (l : list A) : wm K B unit :=
  match l with
  | [] => mret tt
  | x :: l => _ ← f x; w_each f l
  end.
End Monad.

Section Service.
Context {K B : Type} `{KeyProvider K} `{AeadCipher} `{Primitives} `{ArchiveStore B} `{NumberPrimitives} `{Minicbor}.
Context (decode_exact_object : list byte → result FormatError Object).
(** Whether the entry keeps the binding of destruction evidence it has, or
    has none; with a source, whether it has exactly that one. *)
Context (prepared_evidence_valid : option EvidenceDraftSource → list byte → Writer K B → bool).
(** The binding the repository was opened for, and whether the store of stale
    receipts is attached. *)
Context (evidence : option EvidenceDraftBinding) (stale_store : bool).

Abbreviation wmu := (wm K B unit).

(** ** Claims ([original_source.rs]) *)

Definition ensure_original_source : wmu :=
  journal (λ _ j, Ok (with_original true (j_claims j) (j_released j) (j_identities j) (j_published j) j, tt)).

(** The stored draft is the one that was loaded. *)
Definition loaded_is_stored (d : DraftV) (t : DraftTables) : result WriterError unit :=
  row ← ok_or Wr.PreparedFinalizationInconsistent (t_draft t);
  if bool_decide (dr_draft_id row ≠ d_draft_id d) || bool_decide (dr_save_revision row ≠ d_revision d)
  then Err Wr.PreparedFinalizationInconsistent else Ok tt.

Definition claim_number_in (c : ClaimedIncidentNumber) (n : NumberTables) : result WriterError NumberTables :=
  map_err (λ e, match e with DraftErr.IncidentNumberTaken => Wr.IncidentNumberTaken | e => Wr.FromDraft e end)
    (claim_in (cn_organization c) (cn_year c) (cn_number c) n).

Definition claim_row (d : DraftV) (c : ClaimedIncidentNumber) : result WriterError ClaimRow :=
  if d_revision d <=? i64_max
  then Ok {| cr_draft_id := d_draft_id d; cr_revision := d_revision d; cr_organization := cn_organization c;
             cr_year := cn_year c; cr_number := cn_number c |}
  else Err Wr.PreparedFinalizationInconsistent.

Definition claim_original_number (c : ClaimedIncidentNumber) : wm K B Z :=
  _ ← ensure_original_source;
  draft ← on_draft (load_or_create evidence);
  journal (λ t j,
    _ ← loaded_is_stored draft t;
    numbers ← claim_number_in c (j_numbers j);
    row ← claim_row draft c;
    Ok (with_original (j_original j) (j_claims j ++ [row]) (j_released j) (j_identities j) (j_published j)
          (with_numbers numbers j), Z.of_nat (length (j_claims j)) + 1)).

(** A stored row names an organization and a year of its types. *)
Definition claim_typed (r : ClaimRow) : bool :=
  bool_decide (length (cr_organization r) = 16%nat) && (- 2 ^ 31 <=? cr_year r) && (cr_year r <? 2 ^ 31).

Definition find_claim (id : Z) (j : Journal) : option ClaimRow :=
  if (id <? 1) || bool_decide (id ∈ j_released j) then None else j_claims j !! Z.to_nat (id - 1).

Definition release_original_claim (id : Z) : wmu :=
  journal (λ _ j,
    match find_claim id j with
    | None => Ok (j, tt)
    | Some r =>
        if negb (claim_typed r) then Err Wr.PreparedFinalizationInconsistent else
        Ok (with_original (j_original j) (j_claims j) ({[ id ]} ∪ j_released j) (j_identities j) (j_published j)
              (with_numbers (release_in (cr_organization r) (cr_year r) (cr_number r) (j_numbers j)) j), tt)
    end).

(** The unreleased claims of a draft at this revision or an earlier one, by
    their numbers. *)
Definition claims_of (draft_id : list byte) (revision : Z) (j : Journal) : list Z :=
  filter (λ id, is_some_and (λ r, bool_decide (cr_draft_id r = draft_id) && (cr_revision r <=? revision)) (find_claim id j) = true)
    (Z.of_nat <$> seq 1 (length (j_claims j))).

(** [loop]: one claim after the other; a pass releases one, so that there are
    no more passes than claims. *)
Fixpoint release_claims (fuel : nat) (d : DraftV) : wmu :=
  found ← journal (λ _ j,
    if d_revision d <=? i64_max then Ok (j, head (claims_of (d_draft_id d) (d_revision d) j))
    else Err Wr.PreparedFinalizationInconsistent);
  match found, fuel with
  | Some id, S fuel => _ ← release_original_claim id; release_claims fuel d
  | _, _ => mret tt
  end.

Definition recover_original_claims : wmu :=
  present ← journal (λ _ j, Ok (j, j_original j));
  if negb present then mret tt else
  some ← journal (λ t j, Ok (j, match t_draft t with
                                | Some r => claims_of (dr_draft_id r) (dr_save_revision r) j
                                | None => [] end));
  if bool_decide (some = []) then mret tt else
  draft ← on_draft (load_or_create evidence);
  release_claims (length some) draft.

Definition record_original_identity (i : OriginalIncidentIdentity) (t : PreparedTransactionV1) : wmu :=
  _ ← ensure_original_source;
  journal (λ _ j,
    if id_sequence i >? i64_max then Err Wr.OriginalIdentityMismatch else
    if bool_decide (is_Some (j_identities j !! pt_entry_hash t)) then Err (Wr.FromStore Store.Constraint) else
    Ok (with_original (j_original j) (j_claims j) (j_released j)
          (<[pt_entry_hash t := {| oi_object_hash := pt_entry_object_hash t; oi_record_id := id_record_id i;
                                   oi_sequence := id_sequence i; oi_organization := id_organization i;
                                   oi_year := id_year i; oi_number := id_number i |}]> (j_identities j)) (j_published j) j, tt)).

Definition confirm_original_publication (t : PreparedTransactionV1) : wmu :=
  present ← journal (λ _ j, Ok (j, j_original j));
  if negb present then mret tt else
  journal (λ _ j,
    match j_identities j !! pt_entry_hash t with
    | None => Ok (j, tt)
    | Some row =>
        if bool_decide (oi_object_hash row ≠ pt_entry_object_hash t) || bool_decide (oi_sequence row ≠ pt_sequence t)
        then Err Wr.OriginalIdentityMismatch
        else Ok (with_original (j_original j) (j_claims j) (j_released j) (j_identities j)
                   ({[ pt_entry_hash t ]} ∪ j_published j) j, tt)
    end).

(** ** Claims under a stale registry head ([stale_registry.rs]) *)

Definition claim_stale_number (event : Id16) (d : DraftV) (c : ClaimedIncidentNumber) : wmu :=
  journal (λ t j,
    _ ← loaded_is_stored d t;
    numbers ← claim_number_in c (j_numbers j);
    row ← claim_row d c;
    if bool_decide (event ∉ j_stale_consumed j) || bool_decide (event ∈ fst <$> j_stale_claims j)
    then Err (Wr.FromStore Store.Constraint)
    else Ok (with_stale (j_stale_prepared j) (j_stale_claims j ++ [(event, row)]) (j_stale_released j) (with_numbers numbers j), tt)).

Definition find_stale_claim (event : Id16) (j : Journal) : option ClaimRow :=
  if bool_decide (event ∈ j_stale_released j) then None
  else snd <$> head (filter (λ p, p.1 = event) (j_stale_claims j)).

Definition release_stale_claim (event : Id16) : wmu :=
  journal (λ _ j,
    match find_stale_claim event j with
    | None => Ok (j, tt)
    | Some r =>
        if negb (claim_typed r) then Err Wr.PreparedFinalizationInconsistent else
        Ok (with_stale (j_stale_prepared j) (j_stale_claims j) ({[ event ]} ∪ j_stale_released j)
              (with_numbers (release_in (cr_organization r) (cr_year r) (cr_number r) (j_numbers j)) j), tt)
    end).

Definition stale_claims_of (draft_id : list byte) (revision : Z) (j : Journal) : list Id16 :=
  fst <$> filter (λ p, (p.1 ∉ j_stale_released j) ∧ cr_draft_id p.2 = draft_id ∧ cr_revision p.2 ≤ revision) (j_stale_claims j).

Fixpoint release_stale_claims (fuel : nat) (d : DraftV) : wmu :=
  found ← journal (λ _ j,
    if d_revision d <=? i64_max then Ok (j, head (stale_claims_of (d_draft_id d) (d_revision d) j))
    else Err Wr.PreparedFinalizationInconsistent);
  match found, fuel with
  | Some event, S fuel => _ ← release_stale_claim event; release_stale_claims fuel d
  | _, _ => mret tt
  end.

(** There are no more claims to release than claims. *)
Definition recover_reversible_claims (d : DraftV) : wmu := λ s,
  release_stale_claims (length (j_stale_claims (wr_journal s))) d s.

Definition has_unreleased_claims : wm K B bool :=
  journal (λ _ j, Ok (j, existsb (λ p, bool_decide (p.1 ∉ j_stale_released j)) (j_stale_claims j))).

Definition record_prepared_claim (event : Id16) (entry_hash : EntryHash) (c : ClaimedIncidentNumber) : wmu :=
  journal (λ _ j,
    if bool_decide (event ∉ j_stale_consumed j) || bool_decide (is_Some (j_stale_prepared j !! entry_hash))
       || existsb (λ p, bool_decide (p.2.1 = event)) (map_to_list (j_stale_prepared j))
    then Err (Wr.FromStore Store.Constraint)
    else Ok (with_stale (<[entry_hash := (event, (cn_organization c, cn_year c, cn_number c))]> (j_stale_prepared j)) (j_stale_claims j) (j_stale_released j) j, tt)).

(** ** Publication: steps 10 to 13 *)

Definition w_path {A} (r : result ArchiveBackendError A) : wm K B A := w_lift (map_err Wr.FromBackend r).

Definition read_blobs : wm K B (list (str * list byte)) := λ s,
  let '(b, r) := visit_blobs (wr_archive s) in (with_archive b s, map_err Wr.FromArchive r).

Definition object_is_published (target : ArchivePath) : wm K B bool :=
  blobs ← read_blobs;
  mret (existsb (λ p, bool_decide (p.1 = as_str target)) blobs).

Definition publish_object (target : ArchivePath) (bytes : list byte) : wmu :=
  staging ← w_path (staging_path target);
  renamed ← try_archive (atomic_rename_same_fs staging target);
  _ ← match renamed with
      | Ok _ => mret tt
      | Err error =>
          published ← object_is_published target;
          if negb published then w_fail (Wr.FromBackend error) else on_archive (create_if_absent target bytes)
      end;
  on_archive (sync_file target).

(** The bytes of a grant, decoded again before they are published. *)
Definition publish_grant (o : ArchivePath * list byte) : wmu :=
  parsed ← w_lift (map_err Wr.FromFormat (decode_exact_object o.2));
  match parsed with
  | Grant grant => publish_object o.1 (exact_bytes grant)
  | _ => w_fail Wr.PreparedFinalizationUnreadable
  end.

Definition publish_entry (o : ArchivePath * list byte) : wmu :=
  parsed ← w_lift (map_err Wr.FromFormat (decode_exact_object o.2));
  match parsed with
  | Entry entry => publish_object o.1 (exact_bytes entry)
  | _ => w_fail Wr.PreparedFinalizationUnreadable
  end.

Definition require_evidence (source : option EvidenceDraftSource) (entry_bytes : list byte) : wmu := λ s,
  (s, if prepared_evidence_valid source entry_bytes s then Ok tt else Err Wr.DestructionEvidenceInvalid).

Definition sync_first (l : list ArchivePath) : wmu :=
  match l with first :: _ => on_archive (sync_directory first) | [] => mret tt end.

(** Steps 11 to 13: the entry, last of the objects, and the blank draft. Step 12
    only reports to a port of the host. *)
Definition publish_entry_last (t : PreparedTransactionV1) (entry : ArchivePath) (stop : Stop) : wm K B ReachedState :=
  _ ← publish_entry (entry, pt_entry_bytes t);
  if breaks_at stop Point.AfterEntryRenameBeforeDirectoryFlush then mret (reached Phase.EntryCommitted) else
  _ ← on_archive (sync_directory entry);
  _ ← confirm_original_publication t;
  if breaks_at stop Point.AfterEntryDirectoryFlush || ends_after stop Step.PublishEntryLast
  then mret (reached Phase.EntryCommitted) else
  if ends_after stop Step.PublishToNetworkArchive || breaks_at stop Point.AfterReconciliationBeforeBlankDraft
  then mret (reached Phase.NetworkArchivePublished) else
  _ ← on_draft (replace_with_blank evidence);
  mret {| rs_phase := Phase.Reconciled;
          rs_outcome := Some {| fo_sequence := pt_sequence t; fo_entry_hash := pt_entry_hash t;
                                fo_object_hash := pt_entry_object_hash t |} |}.

Definition publish_from_prepared (t : PreparedTransactionV1) (stop : Stop) : wm K B ReachedState :=
  _ ← require_evidence None (pt_entry_bytes t);
  g ← w_path (targets t);
  _ ← w_each publish_grant (zip (tg_grants g) (pt_grant_bytes t));
  _ ← sync_first (tg_grants g);
  if breaks_at stop Point.AfterGrantPublishBeforeEntryRename || ends_after stop Step.PublishGrants
  then mret (reached Phase.GrantsPublished)
  else publish_entry_last t (tg_entry g) stop.

(** ** Steps 8 and 9 *)

Definition stage_object (o : ArchivePath * list byte) : wmu :=
  parsed ← w_lift (map_err Wr.FromFormat (decode_exact_object o.2));
  match parsed with
  | Entry entry => on_archive (create_if_absent o.1 (exact_bytes entry))
  | Grant grant => on_archive (create_if_absent o.1 (exact_bytes grant))
  | _ => w_fail Wr.PreparedFinalizationUnreadable
  end.

(** The deletion of the draft's key and the question whether it is gone; where
    the store does not say, the number stays used. *)
Definition delete_draft_key (stop : Stop) : wm K B (option ReachedState) :=
  draft ← on_draft (load_or_create evidence);
  saved ← on_draft (save evidence draft);
  handle ← on_draft (draft_dek_handle evidence saved);
  deleted ← try_keys (delete_key handle);
  match deleted with
  | Ok _ | Err Key.NotFound =>
      if breaks_at stop Point.AfterKeystoreDelete then mret (Some (reached Phase.PreparedAndFlushed)) else
      present ← try_keys (contains_key handle);
      match present with
      | Ok true => w_fail Wr.KeyDeletionNotConfirmed
      | Ok false => _ ← set_claimed None; mret None
      | Err error => _ ← set_claimed None; w_fail (Wr.FromKey error)
      end
  | Err other => _ ← set_claimed None; w_fail (Wr.FromKey other)
  end.

Definition stale_event (stop : Stop) : option Id16 := match stop with WithStale e _ => Some e | _ => None end.

(** The claim of the marker of a stale receipt. *)
Definition journal_prepared (t : PreparedTransactionV1) (stop : Stop) : wmu := λ s,
  match stale_event stop, wr_claimed s with
  | Some event, Some c =>
      if stale_store then record_prepared_claim event (pt_entry_hash t) c s else (s, Err Wr.StaleAckRequired)
  | _, _ => (s, Ok tt)
  end.

Definition stage_and_flush (t : PreparedTransactionV1) (identity : option OriginalIncidentIdentity) (stop : Stop)
    : wm K B (option ReachedState) :=
  _ ← match identity with Some i => record_original_identity i t | None => mret tt end;
  g ← w_path (targets t);
  if breaks_at stop Point.BeforeStagingCreate then mret (Some (reached Phase.ReversibleDraft)) else
  pairs ← w_path (staged_pairs t g);
  _ ← w_each stage_object pairs;
  if breaks_at stop Point.AfterStagingCreateBeforeFileFlush then mret (Some (reached Phase.ReversibleDraft)) else
  _ ← w_each (λ o, on_archive (sync_file o.1)) pairs;
  if breaks_at stop Point.AfterStagingFileFlushBeforeDirectoryFlush then mret (Some (reached Phase.ReversibleDraft)) else
  _ ← w_each (λ o, on_archive (sync_directory o.1)) pairs;
  if breaks_at stop Point.AfterStagingDirectoryFlushBeforeMarker then mret (Some (reached Phase.ReversibleDraft)) else
  _ ← journal_prepared t stop;
  _ ← on_draft (replace_prepared_finalization_marker evidence (Some (encode_marker t)));
  if breaks_at stop Point.AfterPreparedMarkerCommit || ends_after stop Step.StageAndFlush
  then mret (Some (reached Phase.PreparedAndFlushed)) else mret None.

(** The durable claim of the incident number. *)
Definition claim_number (claim : option ClaimedIncidentNumber) (stop : Stop) : wmu :=
  match claim with
  | None => mret tt
  | Some c =>
      match stale_event stop with
      | Some event =>
          draft ← on_draft (load_or_create evidence);
          _ ← (if stale_store then claim_stale_number event draft c else w_fail Wr.StaleAckRequired);
          set_claimed (Some {| cn_source_claim := None; cn_stale_event := Some event; cn_organization := cn_organization c;
                               cn_year := cn_year c; cn_number := cn_number c |})
      | None =>
          id ← claim_original_number c;
          set_claimed (Some {| cn_source_claim := Some id; cn_stale_event := None; cn_organization := cn_organization c;
                               cn_year := cn_year c; cn_number := cn_number c |})
      end
  end.

(** The second half of [run_claiming], from the claim on; [built] is what steps
    6 and 7 drew, signed and encoded. A run that is to stop after one of the first
    five steps does not get here. *)
Definition finish (claim : option ClaimedIncidentNumber) (identity : option OriginalIncidentIdentity)
    (built : result WriterError PreparedTransactionV1) (stop : Stop) : wm K B ReachedState :=
  _ ← claim_number claim stop;
  t ← w_lift built;
  if ends_after stop Step.DrawSecretsAndBuildEntryHash || ends_after stop Step.ProduceGrantsAndEntryBytes
  then mret (reached Phase.ReversibleDraft) else
  stopped ← stage_and_flush t identity stop;
  match stopped with
  | Some state => mret state
  | None =>
      stopped ← delete_draft_key stop;
      match stopped with
      | Some state => mret state
      | None =>
          if breaks_at stop Point.AfterAbsenceConfirmation || breaks_at stop Point.BackupRestoreAfterKeyDeletion
             || ends_after stop Step.ZeroAndDeleteDraftKey
          then mret (reached Phase.DraftKeyAbsent)
          else publish_from_prepared t stop
      end
  end.

(** The release of a claim that is still reported; what it answers is ignored. *)
Definition release_claimed (c : ClaimedIncidentNumber) : wmu :=
  match cn_source_claim c, cn_stale_event c with
  | Some id, _ => release_original_claim id
  | None, Some event => if stale_store then release_stale_claim event else mret tt
  | None, None =>
      journal (λ _ j, Ok (with_numbers (release_in (cn_organization c) (cn_year c) (cn_number c) (j_numbers j)) j, tt))
  end.

(** [run]: an error releases the claimed number, unless the step after which
    it is used up was done or is open. *)
Definition run (claim : option ClaimedIncidentNumber) (identity : option OriginalIncidentIdentity)
    (built : result WriterError PreparedTransactionV1) (stop : Stop) : wm K B ReachedState := λ s,
  match finish claim identity built stop (with_claimed None s) with
  | (s, Ok state) => (s, Ok state)
  | (s, Err e) =>
      match wr_claimed s with
      | Some c => ((release_claimed c s).1, Err e)
      | None => (s, Err e)
      end
  end.

(** ** Recovery ([recover.rs]) *)

Inductive RecoveryOutcome :=
| NothingPending | DraftRestored (unused_sequence : ChainSequence) | CommittedFromPreparedBytes (sequence : ChainSequence).

Definition recover_unmarked_stale_claims : wmu :=
  _ ← recover_original_claims;
  if stale_store then
    some ← has_unreleased_claims;
    if (some : bool) then draft ← on_draft (load_or_create evidence); recover_reversible_claims draft else mret tt
  else mret tt.

(** The witness of the boundary: the draft, if it still opens. *)
Definition original_draft : wm K B (option DraftV) :=
  r ← try_draft (load_or_create evidence);
  match r with
  | Ok draft => mret (Some draft)
  | Err (DraftErr.FromKey Key.NotFound) | Err (DraftErr.FromCrypto Crypto.AeadOpen) => mret None
  | Err other => w_fail (Wr.FromDraft other)
  end.

Definition recover_marked (bound : option EvidenceDraftSource) (marker : list byte) : wm K B RecoveryOutcome :=
  t ← w_lift (decode_marker marker);
  _ ← w_lift (verify_marker decode_exact_object t marker);
  _ ← match bound with Some b => require_evidence (Some b) (pt_entry_bytes t) | None => mret tt end;
  original ← original_draft;
  match original with
  | Some draft =>
      _ ← recover_original_claims;
      _ ← (if stale_store then recover_reversible_claims draft else mret tt);
      _ ← on_draft (replace_prepared_finalization_marker evidence None);
      mret (DraftRestored (pt_sequence t))
  | None =>
      _ ← publish_from_prepared t (After Step.ReconcileAndOpenBlankDraft);
      mret (CommittedFromPreparedBytes (pt_sequence t))
  end.

Definition recover_pending_bound (expected : option EvidenceDraftSource) : wm K B RecoveryOutcome :=
  with_locks (
    bound ← on_draft (evidence_draft_source evidence);
    if bool_decide (is_Some expected) && bool_decide (expected ≠ bound) then w_fail (Wr.FromDraft DraftErr.EvidenceBinding) else
    marker ← on_draft (prepared_finalization_marker evidence);
    match marker with
    | None => _ ← recover_unmarked_stale_claims; mret NothingPending
    | Some marker => recover_marked bound marker
    end).

Definition recover_pending : wm K B RecoveryOutcome := recover_pending_bound None.
Definition recover_pending_for_evidence (expected : EvidenceDraftSource) : wm K B RecoveryOutcome :=
  recover_pending_bound (Some expected).

(** ** Clean-up *)

Inductive ReconciliationOutcomeV1 := NotProven | ReconciledV1 (removed_staging removed_orphan_grants : nat).

(** [archive_path_of] of [recover.rs]: the first segment is the directory. *)
Definition reconciled_path (relative : str) : result ArchiveBackendError ArchivePath :=
  '(dir, name) ← ok_or Path (split_once slash relative);
  in_dir (dir ++ lit "/") name.

(** The entries and the grants of the archive, by what they decode to. *)
Definition committed_entries (blobs : list (str * list byte)) : list EntryHash :=
  omap (λ p, if is_staging_path p.1 then None else
             match decode_exact_object p.2 with Ok (Entry e) => Some (ep_entry_hash (value e)) | _ => None end) blobs.
Definition found_grants (blobs : list (str * list byte)) : list (str * EntryHash) :=
  omap (λ p, if is_staging_path p.1 then None else
             match decode_exact_object p.2 with
             | Ok (Grant g) => if starts_with GRANTS_DIR_V1 p.1 then Some (p.1, gt_entry_hash (value g)) else None
             | _ => None end) blobs.

Definition remove_path (relative : str) : wmu :=
  p ← w_path (reconciled_path relative);
  on_archive (remove_if_present p).

Definition reconcile_to_completion : wm K B ReconciliationOutcomeV1 :=
  with_locks (
    marker ← on_draft (prepared_finalization_marker evidence);
    if bool_decide (is_Some (marker : option (list byte))) then mret NotProven else
    _ ← recover_unmarked_stale_claims;
    staging ← (λ s, let '(b, r) := staged_paths (wr_archive s) in (with_archive b s, map_err Wr.FromBackend r));
    blobs ← read_blobs;
    _ ← w_each remove_path staging;
    let orphans := filter (λ g, g.2 ∉ committed_entries blobs) (found_grants blobs) in
    _ ← w_each (λ g, remove_path g.1) orphans;
    mret (ReconciledV1 (length staging) (length orphans))).
End Service.
