(* ===== verification/WriterPhases.v ===== *)
(** * WriterPhases: the second half of a finalization keeps its boundary

    Weakest preconditions of the writer, what each of its operations keeps, and
    the proof that a run of the second half of a finalization ends in the state
    of the phase it reports, and after an error before the boundary or with the
    marker in place: nothing is published while the key of the draft is in the
    store. *)

From S2P Require Import Prelude Types Utf8 Cbor Str ArchivePath Transaction Profile CsvImport OperatorSession Inventory KeyStore GrantPlan ServerDb ObjectStore Draft Discard IncidentNumbers WriterMarker WriterFinalize.
Import Fmt(FormatError) DraftErr(DraftError) Gp(GrantPurposeV1) Wr(WriterError) Step(FinalizationStep) Phase(FinalizationPhase) Point(FinalizationFaultPoint).

(** ** Weakest preconditions of the writer *)

Section Wwp.
Context {K B : Type}.
Implicit Types s : Writer K B.

Definition wwp {A} (m : wm K B A) (Q : Writer K B → result WriterError A → Prop) s : Prop := Q (m s).1 (m s).2.

Lemma wwp_run {A} (m : wm K B A) Q s : wwp m Q s ↔ ∀ s' r, m s = (s', r) → Q s' r.
Proof. unfold wwp. destruct (m s) as [s' r]. cbn. split; [by intros ? ?? [= <- <-]|eauto]. Qed.

Lemma wwp_mono {A} (m : wm K B A) (Q R : Writer K B → result WriterError A → Prop) s :
  wwp m Q s → (∀ s' r, Q s' r → R s' r) → wwp m R s.
Proof. unfold wwp. eauto. Qed.

Lemma wwp_and {A} (m : wm K B A) (Q R : Writer K B → result WriterError A → Prop) s :
  wwp m Q s → wwp m R s → wwp m (λ s' r, Q s' r ∧ R s' r) s.
Proof. by split. Qed.

Lemma wwp_bind {A C} (m : wm K B A) (k : A → wm K B C) Q s :
  wwp m (λ s' r, match r with Ok a => wwp (k a) Q s' | Err e => Q s' (Err e) end) s → wwp (m ≫= k) Q s.
Proof. unfold wwp, mbind, wm_bind. by destruct (m s) as [s' [a|e]]. Qed.

Lemma wwp_ret {A} (a : A) (Q : Writer K B → result WriterError A → Prop) s : Q s (Ok a) → wwp (mret a) Q s.
Proof. done. Qed.
Lemma wwp_lift {A} (r : result WriterError A) Q s : Q s r → wwp (w_lift r) Q s.
Proof. done. Qed.
Lemma wwp_fail {A} e (Q : Writer K B → result WriterError A → Prop) s : Q s (Err e) → wwp (w_fail e) Q s.
Proof. done. Qed.

Lemma wwp_draft {A} (m : dm K A) Q s :
  wp m (λ w r, Q (with_world w s) (map_err Wr.FromDraft r)) (wr_world s) → wwp (on_draft m) Q s.
Proof. unfold wwp, wp, on_draft. by destruct (m (wr_world s)). Qed.

Lemma wwp_try_draft {A} (m : dm K A) Q s :
  wp m (λ w r, Q (with_world w s) (Ok r)) (wr_world s) → wwp (try_draft m) Q s.
Proof. unfold wwp, wp, try_draft. by destruct (m (wr_world s)). Qed.

Lemma wwp_try_keys {A} (f : K → K * result Key.KeyError A) (Q : Writer K B → result WriterError (result Key.KeyError A) → Prop) s :
  (∀ k r, f (w_keys (wr_world s)) = (k, r) → Q (with_world (set_keys (wr_world s) k) s) (Ok r)) → wwp (try_keys f) Q s.
Proof. unfold wwp, try_keys. destruct (f _) as [k r]. eauto. Qed.

Lemma wwp_archive (m : step B) Q s :
  (∀ b r, m (wr_archive s) = (b, r) → Q (with_archive b s) (map_err Wr.FromBackend r)) → wwp (on_archive m) Q s.
Proof. unfold wwp, on_archive. destruct (m _) as [b r]. eauto. Qed.

Lemma wwp_try_archive (m : step B) (Q : Writer K B → result WriterError (result ArchiveBackendError unit) → Prop) s :
  (∀ b r, m (wr_archive s) = (b, r) → Q (with_archive b s) (Ok r)) → wwp (try_archive m) Q s.
Proof. unfold wwp, try_archive. destruct (m _) as [b r]. eauto. Qed.

(** The state after a transaction on the journal. *)
Definition journaled (j : Journal) s s' : Prop := ∃ fs, s' = with_journal j (with_world (read_world (wr_world s) fs) s).

Lemma wwp_journal {A} (f : DraftTables → Journal → result WriterError (Journal * A)) Q s :
  (∀ s' e, journaled (wr_journal s) s s' → Q s' (Err e)) →
  (∀ s' j a, f (w_tables (wr_world s)) (wr_journal s) = Ok (j, a) → journaled j s s' → Q s' (Ok a)) →
  wwp (journal f) Q s.
Proof.
  unfold wwp, journal, journaled. intros HE HQ.
  destruct (default false (head (w_faults (wr_world s)))); [apply HE; by eexists|].
  destruct (f _ _) as [[j a]|e]; cbn; [by eapply HQ; eauto|apply HE; by eexists].
Qed.

Lemma wwp_locks {A} (body : wm K B A) Q s :
  (∀ e, Q s (Err e)) →
  wwp body (λ s' r, Q (with_world (Draft.set_locked (wr_world s') false) (with_lock false s')) r)
    (with_world (Draft.set_locked (wr_world s) true) (with_lock true s)) →
  wwp (with_locks body) Q s.
Proof.
  unfold wwp, with_locks. intros HE HQ. destruct (wr_locked s); [apply HE|]. destruct (w_locked (wr_world s)); [apply HE|].
  by destruct (body _).
Qed.

(** A loop keeps what every pass keeps, and after it what each pass gains holds
    of every element, if no later pass loses it. *)
Lemma wwp_each {A} (f : A → wm K B unit) (I : Writer K B → Prop) (P : A → Writer K B → Prop) l s :
  (∀ x s, x ∈ l → I s → wwp (f x) (λ s' r, I s' ∧ (r = Ok tt → P x s') ∧ ∀ y, P y s → P y s') s) →
  I s → wwp (w_each f l) (λ s' r, I s' ∧ (r = Ok tt → ∀ x, x ∈ l → P x s') ∧ ∀ y, P y s → P y s') s.
Proof.
  revert s. induction l as [|x l IH]; intros s Hf Hs; cbn.
  - apply wwp_ret. split; [done|]. split; [|done]. by intros _ x ?%elem_of_nil.
  - apply wwp_bind. eapply wwp_mono; [apply Hf; [by left|done]|]. intros s1 [[]|e] (HI & HP & Hk); [|done].
    eapply wwp_mono; [apply IH; [intros y s2 Hy; apply Hf; by right|done]|].
    intros s2 r (HI2 & HP2 & Hk2). split; [done|]. split; [|eauto]. intros Hr y [->|Hy]%elem_of_cons; eauto.
Qed.

Lemma wwp_each_inv {A} (f : A → wm K B unit) (I : Writer K B → Prop) l s :
  (∀ x s, x ∈ l → I s → wwp (f x) (λ s' _, I s') s) → I s → wwp (w_each f l) (λ s' _, I s') s.
Proof.
  intros Hf Hs. eapply wwp_mono; [apply (wwp_each f I (λ _ _, True)); [|done]|by intros s' r (? & _)].
  intros x s1 Hx H1. eapply wwp_mono; [by apply Hf|]. by intros.
Qed.
End Wwp.

(** ** What the draft's operations do to the key store *)

(** A store holds what it held or was given, and nothing else. *)
Class KeyProviderOnly (K : Type) `{KeyProvider K} : Prop := {
  wrap_only : ∀ p x (k k' : K) r g, wrap_secret p x k = (k', r) →
    entries k' g = entries k g ∨ entries k' g = None ∨ entries k' g = Some x;
  delete_only : ∀ h (k k' : K) r g, delete_key h k = (k', r) → entries k' g = entries k g ∨ entries k' g = None;
}.

#[export] Instance in_memory_only : KeyProviderOnly InMemoryKeyProvider.
Proof.
  split.
  - intros p x k k' r g. cbn. unfold im_wrap_secret. case_match; intros [= <- <-]; [|by left]. cbn.
    case_bool_decide; auto.
  - intros h k k' r g. cbn. intros [= <- <-]. cbn. case_bool_decide; auto.
Qed.

Section Frame.
Context {K : Type} `{HKp : KeyProvider K} `{!KeyProviderLaws K} `{!KeyProviderOnly K} `{HA : AeadCipher} `{HPr : Primitives}.
Implicit Types w : World K.

(** The generator moves on, and a secret that was not there before was drawn
    from it. *)
Definition frame w w' : Prop :=
  (w_draws w ≤ w_draws w')%nat ∧
  ∀ g, entries (w_keys w') g = entries (w_keys w) g ∨ entries (w_keys w') g = None ∨
       ∃ i x, (w_draws w ≤ i)%nat ∧ random i 32 = Some x ∧ entries (w_keys w') g = Some x.

Lemma frame_refl w : frame w w.
Proof. split; [done|]. by left. Qed.

Lemma frame_same w w' : (w_draws w ≤ w_draws w')%nat → same_entries (w_keys w) (w_keys w') → frame w w'.
Proof. intros Hd Hs. split; [done|]. by left. Qed.

#[local] Instance frame_trans : Transitive frame.
Proof.
  intros w1 w2 w3 [Hd Hg] [Hd' Hg']. split; [lia|]. intros g.
  destruct (Hg' g) as [->|[->|(i & x & Hi & Hx & ->)]]; [apply Hg|by auto|]. right; right. exists i, x. split; [lia|done].
Qed.

Definition framed {A} (m : dm K A) : Prop := ∀ w, wp m (λ w' _, frame w w') w.

Lemma framed_bind {A C} (m : dm K A) (k : A → dm K C) : framed m → (∀ a, framed (k a)) → framed (m ≫= k).
Proof.
  intros Hm Hk w. apply wp_bind. eapply wp_mono; [apply Hm|]. intros w1 [a|e] H1; [|done].
  eapply wp_mono; [apply Hk|]. intros w2 r H2. by trans w1.
Qed.

Lemma framed_lift {A} (r : result DraftError A) : framed (dm_lift r).
Proof. intros w. apply wp_lift, frame_refl. Qed.
Lemma framed_ret {A} (a : A) : framed (mret a).
Proof. intros w. apply wp_ret, frame_refl. Qed.

Lemma framed_execute {A} (f : DraftTables → result Store.StoreError (DraftTables * A)) : framed (d_execute f).
Proof. intros w. by apply wp_execute; intros; apply frame_same. Qed.

Lemma framed_reads {A} (m : dm K A) P : reads m P → framed m.
Proof. intros Hm w. eapply wp_reads; [done|..]; intros; by apply frame_same. Qed.

Lemma framed_transaction {A} (m : dm K A) : framed m → framed (d_transaction m).
Proof.
  intros Hm w. apply wp_transaction; [by intros; apply frame_same|]. intros fs. eapply wp_mono; [apply Hm|].
  by intros w' [a|e] Hf; [split|]; intros.
Qed.

Lemma framed_creating {A} ev (m : dm K A) : framed m → framed (transaction_creating_blank ev m).
Proof.
  intros Hm w. apply wp_creating; [by intros; apply frame_same|]. intros fs _. eapply wp_mono; [apply Hm|].
  intros w' r Hf. split; [|done]. intros fs' e k Hk _. unfold keys_after in Hk. destruct (w_created w') as [h|]; [|by subst k].
  trans w'; [exact Hf|]. subst k. destruct (delete_key h (w_keys w')) as [k r'] eqn:Ed. split; [done|]. intros g.
  destruct (delete_only _ _ _ _ g Ed); auto.
Qed.

Lemma framed_unwrap h : framed (on_keys (unwrap_secret h)).
Proof. intros w. apply wp_on_keys; intros k ? (Hs & _)%unwrap_law; by apply frame_same. Qed.

Lemma framed_fresh n : framed (fresh_bytes n).
Proof. intros w. apply wp_fresh; intros; apply frame_same; cbn; first [lia|done]. Qed.

Lemma framed_wrap : framed (dek ← fresh_bytes 32; on_keys (wrap_secret DraftDek dek)).
Proof.
  intros w. apply wp_bind, wp_fresh; [apply frame_same; cbn; first [lia|done]|]. intros x Hx.
  assert (∀ k r, wrap_secret DraftDek x (w_keys w) = (k, r) → frame w (set_keys (draw w) k)) as Hw.
  { intros k r E. split; [cbn; lia|]. intros g. destruct (wrap_only _ _ _ _ _ g E) as [?|[?|?]]; auto.
    right; right. exists (w_draws w), x. by split. }
  by apply wp_on_keys; intros; eapply Hw.
Qed.

Lemma framed_create_blank : framed create_blank.
Proof.
  unfold create_blank. apply framed_bind; [apply framed_fresh|]. intros i. apply framed_bind; [apply framed_lift|]. intros j.
  (* The draw and the wrap of the key belong together. *)
  intros w. apply wp_bind, wp_fresh; [apply frame_same; cbn; first [lia|done]|]. intros x Hx. apply wp_bind.
  assert (wp (on_keys (wrap_secret DraftDek x)) (λ w' _, frame w w') (draw w)) as Hw.
  { pose proof (framed_wrap w) as Hf. unfold wp, mbind, dm_bind, fresh_bytes in Hf |- *. cbn in Hf. rewrite Hx in Hf. exact Hf. }
  eapply wp_mono; [exact Hw|]. intros w1 [h|e] H1; [|done].
  eapply wp_mono; [|by intros w2 r H2; trans w1; [exact H1|exact H2]]. revert w1 H1. intros w1 _. revert w1.
  change (framed (_ ← remember_created h; dek ← on_keys (unwrap_secret h); nonce ← fresh_bytes AEAD_NONCE_SIZE;
    ciphertext ← crypto (aead_seal dek nonce [] (associated_data j 0));
    _ ← d_execute (insert_draft {| dr_draft_id := j; dr_ciphertext := ciphertext; dr_nonce := nonce;
      dr_keystore_provider := provider_code (keystore_provider h); dr_account_instance := account_instance h;
      dr_save_revision := 0 |}); mret {| sd_draft_id := j; sd_revision := 0 |})).
  apply framed_bind; [by intros w1; apply wp_remember, frame_same|]. intros _.
  apply framed_bind; [apply framed_unwrap|]. intros dek. apply framed_bind; [apply framed_fresh|]. intros n.
  apply framed_bind; [apply framed_lift|]. intros c. apply framed_bind; [apply framed_execute|]. intros _. apply framed_ret.
Qed.

Lemma framed_load ev : framed (load_or_create ev).
Proof.
  apply framed_creating, framed_bind; [eapply framed_reads, reads_row|]. intros [sr|].
  - apply framed_bind; [apply framed_unwrap|]. intros dek. apply framed_bind; [apply framed_lift|]. intros p.
    apply framed_bind; [apply framed_lift|]. intros n. apply framed_ret.
  - apply framed_bind; [apply framed_create_blank|]. intros sv. apply framed_ret.
Qed.

Lemma framed_save ev d : framed (save ev d).
Proof.
  unfold save. destruct (_ && _); [apply framed_lift|]. apply framed_transaction.
  apply framed_bind; [eapply framed_reads, reads_access|]. intros _. apply framed_bind; [eapply framed_reads, reads_require_row|].
  intros sr. destruct (_ || _); [apply framed_lift|]. apply framed_bind; [apply framed_lift|]. intros target.
  apply framed_bind; [apply framed_unwrap|]. intros dek. apply framed_bind; [apply framed_fresh|]. intros n.
  apply framed_bind; [apply framed_lift|]. intros c. apply framed_bind; [apply framed_lift|]. intros new.
  apply framed_bind; [apply framed_lift|]. intros old. apply framed_bind; [apply framed_execute|]. intros changed.
  destruct (bool_decide _); [apply framed_lift|apply framed_ret].
Qed.

Lemma framed_replace ev : framed (replace_with_blank ev).
Proof.
  unfold replace_with_blank. apply framed_bind; [apply framed_execute|]. intros c. apply framed_creating.
  apply framed_bind; [destruct (bool_decide _); [|apply framed_ret];
    apply framed_bind; [apply framed_execute|]; intros m; destruct (bool_decide _); [apply framed_lift|apply framed_ret]|].
  intros _. apply framed_bind; [destruct (c : bool); [apply framed_execute|apply framed_ret]|]. intros _.
  apply framed_bind; [apply framed_execute|]. intros _. apply framed_create_blank.
Qed.

(** A replacement that fails leaves the tables. *)
Lemma wp_replace_any ev w :
  wp (replace_with_blank ev) (λ w' r, match r with
    | Ok sv => replaced w sv w' | Err _ => w_tables w' = w_tables w end) w.
Proof.
  assert (wp (replace_with_blank ev) (λ w' r, is_ok r = false → w_tables w' = w_tables w) w) as Hf.
  { unfold replace_with_blank. apply wp_bind. eapply wp_reads; [apply reads_query|done|]. intros fs ex _.
    apply wp_creating; [done|]. intros fs1 _. apply wp_run. intros w' r _. by split. }
  eapply wp_mono; [apply wp_and; [apply wp_replace_with_blank|exact Hf]|].
  intros w' [sv|e] [Hr He]; [by apply Hr|by apply He].
Qed.
End Frame.

(** ** What the archive's further calls promise *)

Class ArchiveStoreLaws (B : Type) `{ArchiveStore B} : Prop := {
  staged_law b b' r : staged_paths b = (b', r) → files b' = files b ∧
    ∀ l, r = Ok l → ∀ p, p ∈ l ↔ is_staging_path p = true ∧ is_Some (files b !! p);
  (** A file goes, or nothing happens; what cannot be said is whether the
      removal lasts. *)
  remove_law p b b' r : remove_if_present p b = (b', r) →
    (files b' = files b ∨ files b' = delete (as_str p) (files b)) ∧ (r = Ok tt → files b' !! as_str p = None);
  (** A visitor is shown the files below the root but those being staged, or
      fails. *)
  visit_law b b' r : visit_blobs b = (b', r) → files b' = files b ∧
    ∀ l, r = Ok l →
      (∀ p x, (p, x) ∈ l → files b !! p = Some x ∧ is_staging_path p = false) ∧
      (∀ p x, files b !! p = Some x → is_staging_path p = false → slash ∈ p → (p, x) ∈ l);
}.

(** ** Calls that leave draft, keys and archive alone *)

Section Calm.
Context {K B : Type} `{HKp : KeyProvider K} `{!KeyProviderLaws K} `{!KeyProviderOnly K} `{HA : AeadCipher} `{HPr : Primitives}
  `{HB : ArchiveBackend B} `{!ArchiveBackendLaws B} `{HS : !ArchiveStore B} `{!ArchiveStoreLaws B} `{HN : NumberPrimitives}
  `{HM : Minicbor}.
Implicit Types s : Writer K B.
Context (evidence : option EvidenceDraftBinding).

Abbreviation T s := (w_tables (wr_world s)).
Abbreviation keys s := (w_keys (wr_world s)).
Abbreviation F s := (files (wr_archive s)).

Record calm s s' : Prop := {
  ca_tables : T s' = T s;
  ca_keys : same_entries (keys s) (keys s');
  ca_files : F s' = F s;
  ca_draws : (w_draws (wr_world s) ≤ w_draws (wr_world s'))%nat;
}.

Lemma calm_refl s : calm s s.
Proof. by split. Qed.

#[local] Instance calm_trans : Transitive calm.
Proof. intros s1 s2 s3 [? H1 ? ?] [? H2 ? ?]. split; [congruence|by intros g; rewrite H2|congruence|lia]. Qed.

(** Where a draft is stored, [m] is calm. *)
Definition calms {A} (m : wm K B A) : Prop := ∀ s, t_draft (T s) ≠ None → wwp m (λ s' _, calm s s') s.

Lemma calms_bind {A C} (m : wm K B A) (k : A → wm K B C) : calms m → (∀ a, calms (k a)) → calms (m ≫= k).
Proof.
  intros Hm Hk s Hs. apply wwp_bind. eapply wwp_mono; [by apply Hm|]. intros s1 [a|e] H1; [|done].
  eapply wwp_mono; [apply Hk; by rewrite (ca_tables _ _ H1)|]. intros s2 r H2. by trans s1.
Qed.

Lemma calms_ret {A} (a : A) : calms (mret a).
Proof. intros s _. apply wwp_ret, calm_refl. Qed.
Lemma calms_lift {A} (r : result WriterError A) : calms (w_lift r).
Proof. intros s _. apply wwp_lift, calm_refl. Qed.

Lemma journaled_calm j s s' : journaled j s s' → calm s s'.
Proof. by intros [fs ->]. Qed.

Lemma calms_journal {A} (f : DraftTables → Journal → result WriterError (Journal * A)) : calms (journal f).
Proof. intros s _. by apply wwp_journal; intros; eapply journaled_calm. Qed.

(** What [load_or_create] leaves of a draft that is there. *)
Lemma wp_load_there ev w :
  t_draft (w_tables w) ≠ None →
  wp (load_or_create ev) (λ w' r, w_tables w' = w_tables w ∧ same_entries (w_keys w) (w_keys w') ∧
    (w_draws w ≤ w_draws w')%nat) w.
Proof.
  intros Hd. eapply wp_mono; [apply wp_and; [apply wp_load_or_create|apply framed_load]|].
  intros w' [d|e] [Hl [Hdr _]].
  - destruct Hl as (_ & _ & [Ht|[? _]] & Hs & _); [|done]. by repeat split; auto.
  - destruct Hl as (Ht & _ & Hs). by repeat split; auto.
Qed.

Lemma calms_load : calms (on_draft (load_or_create evidence)).
Proof.
  intros s Hs. apply wwp_draft. eapply wp_mono; [by apply wp_load_there|]. intros w' r (Ht & Hk & Hd). by split.
Qed.

Lemma calms_archive (m : step B) : (∀ b b' r, m b = (b', r) → files b' = files b) → calms (on_archive m).
Proof. intros Hm s _. apply wwp_archive. intros b r Hr%Hm. by split. Qed.

Lemma calms_set_claimed c : calms (set_claimed c).
Proof. by intros s _. Qed.

Lemma calms_require_evidence valid source entry : calms (require_evidence (K:=K) (B:=B) valid source entry).
Proof. intros s _. unfold wwp, require_evidence. by destruct (valid _ _ _). Qed.

Ltac calm := repeat (first [apply calms_journal | apply calms_ret | apply calms_lift | apply calms_load
  | apply calms_set_claimed | apply calms_bind; [|intros ?] | case_match]).

Lemma calms_release_original id : calms (release_original_claim id).
Proof. apply calms_journal. Qed.

Lemma calms_release_claims fuel d : calms (release_claims fuel d).
Proof. induction fuel as [|fuel IH]; cbn; calm; done. Qed.

Lemma calms_recover_original : calms (recover_original_claims evidence).
Proof.
  unfold recover_original_claims. apply calms_bind; [apply calms_journal|]. intros p. destruct (negb p); [apply calms_ret|].
  apply calms_bind; [apply calms_journal|]. intros l. destruct (bool_decide _); [apply calms_ret|].
  apply calms_bind; [apply calms_load|]. intros d. apply calms_release_claims.
Qed.

Lemma calms_release_stale_claims fuel d : calms (release_stale_claims fuel d).
Proof. induction fuel as [|fuel IH]; cbn; calm; done. Qed.

Lemma calms_recover_reversible d : calms (recover_reversible_claims d).
Proof. intros s Hs. by apply calms_release_stale_claims. Qed.

Lemma calms_claim_number stale claim stop : calms (claim_number evidence stale claim stop).
Proof.
  unfold claim_number, claim_stale_number, claim_original_number, ensure_original_source, w_fail. calm.
Qed.

Lemma calms_release_claimed stale c : calms (release_claimed stale c).
Proof. unfold release_claimed, release_original_claim, release_stale_claim. calm. Qed.

(** *** Calls that leave the numbers alone as well *)

Definition quiet s s' : Prop :=
  calm s s' ∧ j_numbers (wr_journal s') = j_numbers (wr_journal s) ∧ wr_claimed s' = wr_claimed s.

Lemma quiet_refl s : quiet s s.
Proof. split; [apply calm_refl|done]. Qed.

#[local] Instance quiet_trans : Transitive quiet.
Proof. intros s1 s2 s3 (H1 & E1 & C1) (H2 & E2 & C2). split; [by trans s2|]. split; congruence. Qed.

Definition quiets {A} (m : wm K B A) : Prop := ∀ s, t_draft (T s) ≠ None → wwp m (λ s' _, quiet s s') s.

Lemma quiets_bind {A C} (m : wm K B A) (k : A → wm K B C) : quiets m → (∀ a, quiets (k a)) → quiets (m ≫= k).
Proof.
  intros Hm Hk s Hs. apply wwp_bind. eapply wwp_mono; [by apply Hm|]. intros s1 [a|e] H1; [|done].
  eapply wwp_mono; [apply Hk; by rewrite (ca_tables _ _ (proj1 H1))|]. intros s2 r H2. by trans s1.
Qed.

Lemma quiets_ret {A} (a : A) : quiets (mret a).
Proof. intros s _. apply wwp_ret, quiet_refl. Qed.
Lemma quiets_lift {A} (r : result WriterError A) : quiets (w_lift r).
Proof. intros s _. apply wwp_lift, quiet_refl. Qed.

Lemma quiets_journal {A} (f : DraftTables → Journal → result WriterError (Journal * A)) :
  (∀ t j j' a, f t j = Ok (j', a) → j_numbers j' = j_numbers j) → quiets (journal f).
Proof.
  intros Hf s _. apply wwp_journal; [by intros s' e [fs ->]|]. intros s' j a Hj%Hf [fs ->]. by repeat split.
Qed.

Lemma quiets_load : quiets (on_draft (load_or_create evidence)).
Proof.
  intros s Hs. apply wwp_draft. eapply wp_mono; [by apply wp_load_there|]. intros w' r (Ht & Hk & Hd). by repeat split.
Qed.

Lemma quiets_archive (m : step B) : (∀ b b' r, m b = (b', r) → files b' = files b) → quiets (on_archive m).
Proof. intros Hm s _. apply wwp_archive. intros b r Hr%Hm. by repeat split. Qed.

Lemma quiets_sync_file p : quiets (on_archive (sync_file p)).
Proof. apply quiets_archive. intros b b' r. apply sync_file_law. Qed.
Lemma quiets_sync_directory p : quiets (on_archive (sync_directory p)).
Proof. apply quiets_archive. intros b b' r. apply sync_directory_law. Qed.

Lemma quiets_each {A} (f : A → wm K B unit) l : (∀ x, quiets (f x)) → quiets (w_each f l).
Proof. intros Hf. induction l as [|x l IH]; cbn; [apply quiets_ret|]. by apply quiets_bind; [|intros _]. Qed.

Lemma quiets_sync_first l : quiets (sync_first (K:=K) l).
Proof. destruct l; [apply quiets_ret|apply quiets_sync_directory]. Qed.

Lemma quiets_require_evidence valid source entry : quiets (require_evidence (K:=K) (B:=B) valid source entry).
Proof. intros s _. unfold wwp, require_evidence. by destruct (valid _ _ _). Qed.

Lemma quiets_ensure : quiets ensure_original_source.
Proof. apply quiets_journal. by intros t j j' a [= <- <-]. Qed.

Lemma quiets_record_identity i t : quiets (record_original_identity i t).
Proof.
  apply quiets_bind; [apply quiets_ensure|]. intros _. apply quiets_journal. intros t' j j' a.
  repeat case_match; try done. by intros [= <- <-].
Qed.

Lemma quiets_confirm t : quiets (confirm_original_publication t).
Proof.
  apply quiets_bind; [apply quiets_journal; by intros t' j j' a [= <- <-]|]. intros p. destruct (negb p); [apply quiets_ret|].
  apply quiets_journal. intros t' j j' a. repeat case_match; try done; by intros [= <- <-].
Qed.

Lemma quiets_journal_prepared stale t stop : quiets (journal_prepared stale t stop).
Proof.
  intros s Hs. unfold wwp, journal_prepared. destruct (stale_event stop) as [e|]; [|apply quiet_refl].
  destruct (wr_claimed s) as [c|] eqn:Ec; [|apply quiet_refl]. destruct stale; [|apply quiet_refl].
  revert s Hs Ec. intros s Hs _. revert s Hs. apply quiets_journal. intros t' j j' a. case_match; [done|]. by intros [= <- <-].
Qed.
End Calm.

(** ** The state of a finalization *)

(** A decoded entry or grant keeps the bytes it was decoded from. *)
Definition keeps_bytes (decode_exact_object : list byte → result FormatError Object) : Prop :=
  ∀ b, match decode_exact_object b with
       | Ok (Entry e) => exact_bytes e = b
       | Ok (Grant g) => exact_bytes g = b
       | _ => True
       end.

(** The grants of a transaction with their addresses. *)
Definition prepared_grants (t : PreparedTransactionV1) : list (ArchivePath * list byte) :=
  zip (grant_path t <$> pt_grant_object_hashes t) (pt_grant_bytes t).

Definition target_of (o : ArchivePath * list byte) : str := as_str o.1.
Definition staged_at (o : ArchivePath * list byte) : str := as_str (staging_of o.1).

Abbreviation archive_files := (@gmap str (@list_eq_dec byte byte_eq_dec) (@list_countable byte byte_eq_dec byte_countable) (list byte)).

Section Files.
Context (t : PreparedTransactionV1).
Implicit Types f : archive_files.
Implicit Types o : ArchivePath * list byte.

Definition published f o : Prop := f !! target_of o = Some o.2.
Definition unpublished f : Prop := ∀ o, o ∈ prepared_objects t → f !! target_of o = None.

(** Every object lies at its address or, still, at its staging address. *)
Definition laid f : Prop :=
  ∀ o, o ∈ prepared_objects t → published f o ∨ f !! target_of o = None ∧ f !! staged_at o = Some o.2.

(** No entry without its grants. *)
Definition ordered f : Prop :=
  is_Some (f !! as_str (entry_path t)) → ∀ o, o ∈ prepared_grants t → published f o.

Context (Hq : 0 ≤ pt_sequence t) (Hnd : NoDup (pt_grant_object_hashes t)).

Lemma prepared_split : prepared_objects t = prepared_grants t ++ [(entry_path t, pt_entry_bytes t)].
Proof. done. Qed.

Lemma elem_of_prepared o : o ∈ prepared_objects t ↔ o ∈ prepared_grants t ∨ o = (entry_path t, pt_entry_bytes t).
Proof. by rewrite prepared_split, elem_of_app, list_elem_of_singleton. Qed.

Lemma target_inj o o' : o ∈ prepared_objects t → o' ∈ prepared_objects t → target_of o = target_of o' → o = o'.
Proof.
  pose proof (prepared_distinct t Hnd) as Hd. fold target_of in Hd. intros Ho Ho' E.
  apply list_elem_of_lookup in Ho as [i Hi], Ho' as [j Hj].
  assert (i = j) as ->; [|congruence]. eapply (NoDup_lookup _ i j (target_of o)); [exact Hd|..]; rewrite list_lookup_fmap.
  - by rewrite Hi.
  - rewrite Hj. cbn. f_equal. by symmetry.
Qed.

Lemma staged_inj o o' : staged_at o = staged_at o' → target_of o = target_of o'.
Proof. unfold staged_at, staging_of, as_str at 1 3. cbn. apply (inj (.++ STAGING_SUFFIX_V1)). Qed.

Lemma staged_not_target o o' : o ∈ prepared_objects t → staged_at o' ≠ target_of o.
Proof.
  intros Ho E. apply (prepared_publishable t o Hq) in Ho as (_ & _ & _ & Hs). fold (target_of o) in Hs. rewrite <- E in Hs.
  assert (is_staging_path (staged_at o') = true) as Ht; [|congruence]. unfold is_staging_path, ends_with.
  apply bool_decide_eq_true_2. by exists (as_str o'.1).
Qed.

(** The move of an object to its address. *)
Definition moved o f : archive_files := delete (staged_at o) (<[target_of o := o.2]> f).

Lemma moved_target o o' f :
  o ∈ prepared_objects t → o' ∈ prepared_objects t → published f o' ∨ o' = o → published (moved o f) o'.
Proof.
  intros Ho Ho' Hp. unfold published, moved. rewrite lookup_delete_ne by (by apply staged_not_target).
  destruct (decide (target_of o = target_of o')) as [E|E].
  - rewrite E, lookup_insert_eq. by rewrite (target_inj _ _ Ho Ho' E).
  - rewrite lookup_insert_ne by done. by destruct Hp as [?| ->].
Qed.

Lemma moved_other o o' f :
  o ∈ prepared_objects t → o' ∈ prepared_objects t → o' ≠ o → moved o f !! target_of o' = f !! target_of o' ∧
  moved o f !! staged_at o' = f !! staged_at o'.
Proof.
  intros Ho Ho' Hne. assert (target_of o ≠ target_of o') as Ht by (intros E; by destruct Hne; symmetry; apply target_inj).
  unfold moved. split.
  - rewrite lookup_delete_ne by (by apply staged_not_target). by rewrite lookup_insert_ne.
  - rewrite lookup_delete_ne by (by intros E%staged_inj). rewrite lookup_insert_ne; [done|]. intros E. symmetry in E. revert E.
    by apply staged_not_target.
Qed.

Lemma moved_laid o f : o ∈ prepared_objects t → laid f → laid (moved o f).
Proof.
  intros Ho Hl o' Ho'. destruct (decide (o' = o)) as [->|Hne]; [left; apply moved_target; auto|].
  destruct (moved_other o o' f Ho Ho' Hne) as [E1 E2]. unfold published. rewrite E1, E2. by apply Hl.
Qed.

Lemma laid_unpublished_ordered f : unpublished f → ordered f.
Proof.
  intros Hu [x Hx] o _. specialize (Hu (entry_path t, pt_entry_bytes t)). unfold target_of in Hu. cbn [fst] in Hu.
  rewrite Hu in Hx; [done|]. rewrite elem_of_prepared. by right.
Qed.
End Files.

Section Publication.
Context {K B : Type} `{HKp : KeyProvider K} `{!KeyProviderLaws K} `{!KeyProviderOnly K} `{HA : AeadCipher} `{HPr : Primitives}
  `{HB : ArchiveBackend B} `{!ArchiveBackendLaws B} `{HS : !ArchiveStore B} `{!ArchiveStoreLaws B} `{HN : NumberPrimitives}
  `{HM : Minicbor}.
Implicit Types s : Writer K B.
Context (decode_exact_object : list byte → result FormatError Object) (Hexact : keeps_bytes decode_exact_object).
Context (t : PreparedTransactionV1) (Hq : 0 ≤ pt_sequence t) (Hnd : NoDup (pt_grant_object_hashes t)).

Abbreviation F s := (files (wr_archive s)).

Lemma wwp_read_blobs Q s :
  (∀ b r, visit_blobs (wr_archive s) = (b, r) → Q (with_archive b s) (map_err Wr.FromArchive r)) → wwp read_blobs Q s.
Proof. unfold wwp, read_blobs. destruct (visit_blobs _) as [b r]. eauto. Qed.

(** One object: it is moved, or nothing happens; on success it is published. *)
Lemma wwp_publish_object o s :
  o ∈ prepared_objects t → laid t (F s) →
  wwp (publish_object o.1 o.2) (λ s' r, ∃ b, s' = with_archive b s ∧ (files b = F s ∨ files b = moved o (F s)) ∧
    (r = Ok tt → published (files b) o)) s.
Proof.
  intros Ho Hl. pose proof (prepared_publishable t o Hq Ho) as (_ & _ & Hst & _).
  unfold publish_object. apply wwp_bind, wwp_lift. rewrite Hst. cbn [map_err]. apply wwp_bind, wwp_try_archive.
  intros b r Hr. apply rename_law in Hr; [|intros E; by apply (staged_not_target t Hq o o Ho)].
  assert (∀ b1, files b1 = F s ∨ files b1 = moved o (F s) → published (files b1) o →
    wwp (on_archive (sync_file o.1)) (λ s' r, ∃ b, s' = with_archive b s ∧ (files b = F s ∨ files b = moved o (F s)) ∧
      (r = Ok tt → published (files b) o)) (with_archive b1 s)) as Hsync.
  { intros b1 Hb1 Hp. apply wwp_archive. cbn. intros b2 r2 E%sync_file_law. exists b2. rewrite E. split_and!; [by destruct s|done|done]. }
  destruct r as [[]|e].
  - apply wwp_bind, wwp_ret. destruct Hr as (x & Hx & Ht & E). fold (staged_at o) in Hx, E. fold (target_of o) in Ht, E.
    assert (x = o.2) as ->.
    { destruct (Hl o Ho) as [Hp|[_ Hs]]; [|congruence]. unfold published in Hp. destruct Ht; congruence. }
    apply Hsync; [by right|]. rewrite E. by apply (moved_target t Hq Hnd); auto.
  - apply wwp_bind, wwp_bind. unfold object_is_published. apply wwp_bind.
    apply wwp_read_blobs. cbn [wr_archive with_archive]. intros b1 r1 Ev.
    apply visit_law in Ev as [E1 Hv]. rewrite Hr in E1. destruct r1 as [l|e1]; cbn [map_err].
    2: { exists b1. rewrite E1. split_and!; [by destruct s|by left|done]. }
    apply wwp_ret. destruct (existsb _ l) eqn:Ex; cbn [negb].
    2: { apply wwp_fail. exists b1. rewrite E1. split_and!; [by destruct s|by left|done]. }
    apply existsb_exists in Ex as ([p x] & Hin & Hp). apply bool_decide_eq_true in Hp. cbn in Hp. subst p.
    apply list_elem_of_In in Hin. apply (Hv l eq_refl) in Hin as [Hx _]. rewrite Hr in Hx. fold (target_of o) in Hx.
    apply wwp_archive. cbn. intros b2 r2 Hc. pose proof (create_law _ _ _ _ _ Hc) as [Hk Hok].
    assert (files b2 = F s) as E2.
    { apply map_eq. intros q. rewrite <- E1. apply Hk. destruct (decide (q = as_str o.1)) as [->|]; [|by left].
      right. rewrite E1. fold (target_of o). by rewrite Hx. }
    destruct r2 as [[]|e2]; cbn.
    + assert (published (files b2) o) as Hp by (by apply Hok).
      replace (with_archive b2 (with_archive b1 (with_archive b s))) with (with_archive b2 s) by (by destruct s).
      apply Hsync; [by left|done].
    + exists b2. split_and!; [by destruct s|by left|done].
Qed.

(** What publishing the objects of a list does to the archive. *)
Record advanced (l : list (ArchivePath * list byte)) s s' : Prop := {
  av_only : ∃ b, s' = with_archive b s;
  av_laid : laid t (F s');
  av_kept : ∀ o, o ∈ prepared_objects t → published (F s) o → published (F s') o;
  av_others : ∀ o, o ∈ prepared_objects t → o ∉ l → F s' !! target_of o = F s !! target_of o;
}.

Lemma advanced_refl l s : laid t (F s) → advanced l s s.
Proof. intros Hl. split; [exists (wr_archive s); by destruct s|done..]. Qed.

Lemma advanced_trans l s1 s2 s3 : advanced l s1 s2 → advanced l s2 s3 → advanced l s1 s3.
Proof.
  intros [[b ->] L1 K1 O1] [[b' ->] L2 K2 O2]. split; [exists b'; by destruct s1|done|auto|].
  intros o Ho Hl. by rewrite O2, O1.
Qed.

Lemma wwp_publish_advanced l o s :
  o ∈ prepared_objects t → o ∈ l → laid t (F s) →
  wwp (publish_object o.1 o.2) (λ s' r, advanced l s s' ∧ (r = Ok tt → published (F s') o)) s.
Proof.
  intros Ho Hol Hl. eapply wwp_mono; [by apply wwp_publish_object|]. intros s' r (b & -> & Hb & Hp). split; [|done].
  destruct Hb as [E|E]; (split; [by exists b|..]); cbn; rewrite E; try done.
  - by apply moved_laid.
  - intros o' Ho' Hp'. by apply (moved_target t Hq Hnd); auto.
  - intros o' Ho' Hn. apply (moved_other t Hq Hnd); [done..|]. by intros ->.
Qed.

Lemma wwp_publish_grant l o s :
  o ∈ prepared_objects t → o ∈ l → laid t (F s) →
  wwp (publish_grant decode_exact_object o) (λ s' r, advanced l s s' ∧ (r = Ok tt → published (F s') o)) s.
Proof.
  intros Ho Hol Hl. unfold publish_grant. apply wwp_bind, wwp_lift. pose proof (Hexact o.2) as Hx.
  destruct (decode_exact_object o.2) as [[]|e]; cbn [map_err];
    first [apply wwp_fail; split; [by apply advanced_refl|done]|split; [by apply advanced_refl|done]|idtac].
  rewrite Hx. by apply wwp_publish_advanced.
Qed.

Lemma wwp_publish_entry l o s :
  o ∈ prepared_objects t → o ∈ l → laid t (F s) →
  wwp (publish_entry decode_exact_object o) (λ s' r, advanced l s s' ∧ (r = Ok tt → published (F s') o)) s.
Proof.
  intros Ho Hol Hl. unfold publish_entry. apply wwp_bind, wwp_lift. pose proof (Hexact o.2) as Hx.
  destruct (decode_exact_object o.2) as [[]|e]; cbn [map_err];
    first [apply wwp_fail; split; [by apply advanced_refl|done]|split; [by apply advanced_refl|done]|idtac].
  rewrite Hx. by apply wwp_publish_advanced.
Qed.

Lemma wwp_publish_grants s :
  laid t (F s) →
  wwp (w_each (publish_grant decode_exact_object) (prepared_grants t)) (λ s' r, advanced (prepared_grants t) s s' ∧
    (r = Ok tt → ∀ o, o ∈ prepared_grants t → published (F s') o)) s.
Proof.
  intros Hl. eapply wwp_mono.
  - apply (wwp_each _ (λ s', advanced (prepared_grants t) s s') (λ o s', o ∈ prepared_objects t → published (F s') o)); [|by apply advanced_refl].
    intros o s1 Ho H1. assert (o ∈ prepared_objects t) as Ho' by (apply elem_of_prepared; by left).
    eapply wwp_mono; [apply (wwp_publish_grant (prepared_grants t)); [done|done|apply (av_laid _ _ _ H1)]|].
    intros s2 r [H2 Hp]. split; [exact (advanced_trans _ _ _ _ H1 H2)|]. split; [by auto|]. intros y Hy Hyo. by apply (av_kept _ _ _ H2); auto.
  - intros s' r (H1 & H2 & _). split; [done|]. intros Hr o Ho. apply H2; [done|done|]. apply elem_of_prepared. by left.
Qed.
End Publication.

Section State.
Context {K B : Type} `{HKp : KeyProvider K} `{HA : AeadCipher} `{HPr : Primitives} `{HB : ArchiveBackend B}.
Implicit Types s : Writer K B.
(** The transaction, the address and the value of the draft's key, and the
    state of the generator when the finalization began. *)
Context (t : PreparedTransactionV1) (h : KeyHandle) (old : secret) (d0 : nat).

Abbreviation T s := (w_tables (wr_world s)).
Abbreviation keys s := (w_keys (wr_world s)).
Abbreviation F s := (files (wr_archive s)).

(** The stored draft was sealed with the key [old]. *)
Definition drafted (tb : DraftTables) : Prop :=
  ∃ row sr notes, t_draft tb = Some row ∧ stored_row row = Some sr ∧ sr_handle sr = h ∧
    aead_seal old (sr_nonce sr) notes (associated_data (sr_draft_id sr) (sr_revision sr)) = Ok (sr_ciphertext sr).

(** The key is in the store; it is not, and at most a key that was drawn later
    lies in its place. *)
Definition held s : Prop := KeyStore.entries (keys s) h = Some old.
Definition gone s : Prop :=
  ∀ x, KeyStore.entries (keys s) h = Some x → ∃ i, (d0 ≤ i)%nat ∧ random i 32 = Some x.

Record ready s : Prop := {
  rd_draft : drafted (T s);
  rd_key : held s;
  rd_files : unpublished t (F s);
  rd_draws : (d0 ≤ w_draws (wr_world s))%nat;
}.

(** Nothing but staging addresses has changed. *)
Record reversible s s' : Prop := {
  rv_tables : T s' = T s;
  rv_keys : same_entries (keys s) (keys s');
  rv_draws : (w_draws (wr_world s) ≤ w_draws (wr_world s'))%nat;
  rv_files : ∀ q, (q ∉ staged_at <$> prepared_objects t) → F s' !! q = F s !! q;
}.

(** The marker lies, with every object at one of its two addresses; nothing is
    published while the key of the draft is there. *)
Record carried s : Prop := {
  cy_marker : t_transition (T s) = Some (FinalizationRow ID16_ZERO 0 (encode_marker t));
  cy_table : t_discard_migration (T s) = true;
  cy_draft : drafted (T s);
  cy_laid : laid t (F s);
  cy_ordered : ordered t (F s);
  cy_key : gone s ∨ held s ∧ unpublished t (F s);
  cy_draws : (d0 ≤ w_draws (wr_world s))%nat;
}.

(** The entry is complete and a blank draft is open. *)
Record finished s : Prop := {
  fi_published : ∀ o, o ∈ prepared_objects t → published (F s) o;
  fi_marker : t_transition (T s) = None;
  fi_key : gone s;
  fi_blank : ∃ blank, t_draft (T s) = Some blank ∧ is_blank (keys s) blank;
}.

(** What a reported phase says of the state. *)
Definition phase_holds s (p : FinalizationPhase) s' : Prop :=
  match p with
  | Phase.ReversibleDraft => reversible s s'
  | Phase.PreparedAndFlushed => carried s' ∧ unpublished t (F s')
  | Phase.DraftKeyAbsent => carried s' ∧ gone s' ∧ unpublished t (F s')
  | Phase.GrantsPublished => carried s' ∧ gone s' ∧ ∀ o, o ∈ prepared_grants t → published (F s') o
  | Phase.EntryCommitted | Phase.NetworkArchivePublished =>
      carried s' ∧ gone s' ∧ ∀ o, o ∈ prepared_objects t → published (F s') o
  | Phase.Reconciled => finished s'
  end.

Definition the_outcome : FinalizeOutcome :=
  {| fo_sequence := pt_sequence t; fo_entry_hash := pt_entry_hash t; fo_object_hash := pt_entry_object_hash t |}.

Definition outcome_of (st : ReachedState) : Prop :=
  rs_outcome st = match rs_phase st with Phase.Reconciled => Some the_outcome | _ => None end.

Lemma gone_frame s s' :
  frame (wr_world s) (wr_world s') → (d0 ≤ w_draws (wr_world s))%nat → gone s → gone s'.
Proof.
  intros [Hd Hf] Hd0 Hg x Hx. destruct (Hf h) as [E|[E|(i & y & Hi & Hy & E)]].
  - apply Hg. congruence.
  - congruence.
  - exists i. split; [lia|]. congruence.
Qed.

Lemma gone_same s s' : same_entries (keys s) (keys s') → gone s → gone s'.
Proof. intros He Hg x. rewrite He. apply Hg. Qed.

Lemma held_same s s' : same_entries (keys s) (keys s') → held s → held s'.
Proof. unfold held. intros He. by rewrite He. Qed.

Lemma drafted_row tb : drafted tb → t_draft tb ≠ None.
Proof. intros (row & sr & n & -> & _). done. Qed.

Lemma carried_calm s s' : calm s s' → carried s → carried s'.
Proof.
  intros [Ht Hk Hf Hd] [M D Dr L O Ke Dd]. split; rewrite ?Ht, ?Hf; try done; [|lia].
  destruct Ke as [Hg|[Hh Hu]]; [left; by eapply gone_same|right; split; [by eapply held_same|done]].
Qed.

Lemma reversible_calm s s1 s2 : reversible s s1 → calm s1 s2 → reversible s s2.
Proof.
  intros [T1 K1 D1 F1] [T2 K2 F2 D2]. split; [congruence|intros g; by rewrite K2|lia|by rewrite F2].
Qed.

Lemma calm_reversible s s' : calm s s' → reversible s s'.
Proof. intros Hc. by apply (reversible_calm s s); [split|]. Qed.

Lemma reversible_unpublished s s' :
  0 ≤ pt_sequence t → reversible s s' → unpublished t (F s) → unpublished t (F s').
Proof.
  intros Hq [_ _ _ Hf] Hu o Ho. rewrite Hf; [by apply Hu|]. intros (o' & E & _)%list_elem_of_fmap.
  by apply (staged_not_target t Hq o o' Ho).
Qed.

Lemma reversible_held s s' : reversible s s' → held s → held s'.
Proof. intros Hr. by apply held_same, rv_keys. Qed.
End State.

Section Marker.
Context {K : Type} `{HKp : KeyProvider K} `{HPr : Primitives}.
Implicit Types w : World K.

Definition marked_tables (m : option (list byte)) (tb : DraftTables) : DraftTables :=
  match m with
  | Some b => set_transition (Some (FinalizationRow ID16_ZERO 0 b)) tb
  | None => match t_transition tb with Some (FinalizationRow _ _ _) => set_transition None tb | _ => tb end
  end.

Lemma wp_replace_marker ev m w :
  wp (replace_prepared_finalization_marker ev m) (λ w' r, w_keys w' = w_keys w ∧ w_draws w' = w_draws w ∧
    match r with
    | Ok _ => t_discard_migration (w_tables w) = true ∧ w_tables w' = marked_tables m (w_tables w)
    | Err _ => w_tables w' = w_tables w
    end) w.
Proof.
  unfold replace_prepared_finalization_marker. apply wp_bind, wp_query; [done|]. intros fs ex [= <-].
  destruct (t_discard_migration (w_tables w)) eqn:Em; cbn [negb]; [|by apply wp_fail].
  apply wp_transaction; [done|]. intros fs1. apply wp_bind. eapply wp_reads; [apply reads_access|done|].
  intros fs2 u _. destruct m as [b|]; (apply wp_execute; [done|]); intros fs3 tb [] Hx.
  - unfold upsert_transition in Hx. cbn in Hx. rewrite Em in Hx. cbn in Hx. injection Hx as <-. by repeat split.
  - unfold delete_finalization in Hx. cbn in Hx. rewrite Em in Hx. cbn in Hx. injection Hx as <-. by repeat split.
Qed.
End Marker.

Section Finalization.
Context {K B : Type} `{HKp : KeyProvider K} `{!KeyProviderLaws K} `{!KeyProviderOnly K} `{HA : AeadCipher} `{HPr : Primitives}
  `{HB : ArchiveBackend B} `{!ArchiveBackendLaws B} `{HS : !ArchiveStore B} `{!ArchiveStoreLaws B} `{HN : NumberPrimitives}
  `{HM : Minicbor}.
Implicit Types s : Writer K B.
Context (decode_exact_object : list byte → result FormatError Object) (Hexact : keeps_bytes decode_exact_object).
Context (prepared_evidence_valid : option EvidenceDraftSource → list byte → Writer K B → bool).
Context (evidence : option EvidenceDraftBinding) (stale_store : bool).
Context (t : PreparedTransactionV1) (Hq : 0 ≤ pt_sequence t) (Hnd : NoDup (pt_grant_object_hashes t)).
Context (h : KeyHandle) (old : secret) (d0 : nat).

Abbreviation T s := (w_tables (wr_world s)).
Abbreviation F s := (files (wr_archive s)).
Abbreviation carried := (carried t h old d0).
Abbreviation gone := (gone h d0).
Abbreviation held := (held h old).
Abbreviation finished := (finished t h d0).

Lemma wwp_quiet {A} (m : wm K B A) (Q : Writer K B → result WriterError A → Prop) s :
  quiets m → t_draft (T s) ≠ None → (∀ s' r, quiet s s' → Q s' r) → wwp m Q s.
Proof. intros Hm Hd HQ. eapply wwp_mono; [by apply Hm|]. intros s' r. apply HQ. Qed.

(** Numbers and the claim of a run are as in [s]. *)
Definition settled s s' : Prop :=
  j_numbers (wr_journal s') = j_numbers (wr_journal s) ∧ wr_claimed s' = wr_claimed s.

(** Past the boundary: the key is gone and the marker still lies. *)
Definition going s s' : Prop := carried s' ∧ gone s' ∧ settled s s'.

Lemma going_quiet s s1 s2 : going s s1 → quiet s1 s2 → going s s2.
Proof.
  intros (Hc & Hg & Hn & Hcl) (Hq1 & Hn1 & Hcl1). split; [by eapply carried_calm|]. split; [by eapply gone_same, Hg; apply Hq1|].
  split; congruence.
Qed.

Lemma going_draft s s' : going s s' → t_draft (T s') ≠ None.
Proof. intros (Hc & _). eapply drafted_row, cy_draft, Hc. Qed.

Lemma going_advanced s s1 s2 l :
  going s s1 → advanced t l s1 s2 → ordered t (F s2) → going s s2.
Proof.
  intros (Hc & Hg & Hs) [[b ->] L _ _] Ho. split; [|done]. destruct Hc as [M D Dr _ _ _ Dd]. split; try done. by left.
Qed.

Lemma entry_prepared : (entry_path t, pt_entry_bytes t) ∈ prepared_objects t.
Proof. apply elem_of_prepared. by right. Qed.

Lemma entry_no_grant : (entry_path t, pt_entry_bytes t) ∉ prepared_grants t.
Proof.
  intros Hin. apply elem_of_zip_l in Hin. apply list_elem_of_fmap in Hin as (x & E & _). symmetry in E.
  apply (grant_not_entry t x). by rewrite E.
Qed.

Lemma grants_ordered s s' : advanced t (prepared_grants t) s s' → ordered t (F s) → ordered t (F s').
Proof.
  intros [_ _ Hk Ho] Hord He o Hg. apply Hk; [apply elem_of_prepared; by left|]. apply Hord; [|done].
  pose proof (Ho _ entry_prepared entry_no_grant) as E. change (target_of (entry_path t, pt_entry_bytes t)) with (as_str (entry_path t)) in E.
  by rewrite <- E.
Qed.

(** The last step: the marker goes and the blank draft comes, or neither. *)
Lemma wwp_blank s0 s :
  going s0 s → (∀ o, o ∈ prepared_objects t → published (F s) o) →
  wwp (on_draft (replace_with_blank evidence)) (λ s' r, match r with
    | Ok _ => finished s' ∧ settled s0 s' | Err _ => going s0 s' end) s.
Proof.
  intros (Hc & Hg & Hs) Hp. apply wwp_draft. eapply wp_mono; [apply wp_and; [apply wp_replace_any|apply framed_replace]|].
  intros w r [Hr Hf].
  assert (gone (with_world w s)) as Hg' by (eapply gone_frame; [exact Hf|by apply Hc|done]).
  destruct r as [sv|e]; cbn.
  - split; [|done]. destruct Hr as (blank & Ht & _ & Hb). rewrite (cy_table _ _ _ _ _ Hc) in Ht.
    split; [done|by cbn; rewrite Ht|done|]. exists blank. cbn. by rewrite Ht.
  - split; [|by split]. destruct Hc as [M D Dr L O _ Dd]. split; cbn; rewrite ?Hr; try done; [by left|].
    destruct Hf as [Hd _]. lia.
Qed.

(** What steps 10 to 13 answer. *)
Definition publication s0 stop s s' (r : result WriterError ReachedState) : Prop :=
  settled s s' ∧ match r with
    | Ok st => phase_holds t h old d0 s0 (rs_phase st) s' ∧ outcome_of t st ∧
               (stop = After Step.ReconcileAndOpenBlankDraft → rs_phase st = Phase.Reconciled)
    | Err _ => carried s' ∧ gone s'
    end.

Lemma publication_error s0 stop s s' e : going s s' → publication s0 stop s s' (Err e).
Proof. by intros (? & ? & ?). Qed.

(** Once everything is published, a stop reports it. *)
Lemma publication_stop s0 stop s s' p :
  going s s' → (∀ o, o ∈ prepared_objects t → published (F s') o) →
  p = Phase.EntryCommitted ∨ p = Phase.NetworkArchivePublished → stop ≠ After Step.ReconcileAndOpenBlankDraft →
  publication s0 stop s s' (Ok (reached p)).
Proof. intros (Hc & Hg & Hs) Hall Hp Hst. split; [done|]. destruct Hp as [->| ->]; (split_and!; [done..|by intros ?%Hst]). Qed.

Lemma wwp_publish_entry_last s0 s1 s stop :
  going s1 s → (∀ o, o ∈ prepared_grants t → published (F s) o) →
  wwp (publish_entry_last decode_exact_object evidence t (entry_path t) stop) (publication s0 stop s1) s.
Proof.
  intros Hs Hg. unfold publish_entry_last. apply wwp_bind.
  eapply wwp_mono; [apply (wwp_publish_entry decode_exact_object Hexact t Hq Hnd (prepared_objects t));
    [apply entry_prepared|apply entry_prepared|apply Hs]|]. intros s4 r [H4 He].
  assert (∀ o, o ∈ prepared_grants t → published (F s4) o) as Hg4.
  { intros o Ho. apply (av_kept _ _ _ _ H4); [apply elem_of_prepared; by left|by apply Hg]. }
  assert (going s1 s4) as G4 by (eapply going_advanced; [exact Hs|exact H4|by intros _]).
  destruct r as [[]|e]; [|by apply publication_error]. specialize (He eq_refl).
  assert (∀ s', F s' = F s4 → ∀ o, o ∈ prepared_objects t → published (F s') o) as Hall.
  { intros s' ->. intros o [Ho|Ho]%elem_of_prepared; [by apply Hg4|by subst o]. }
  destruct (breaks_at stop Point.AfterEntryRenameBeforeDirectoryFlush) eqn:Estop.
  { apply wwp_ret, publication_stop; [done|by apply Hall|by left|by intros ->]. }
  clear Estop. apply wwp_bind, wwp_quiet; [apply quiets_sync_directory|by eapply going_draft|].
  intros s5 r H5. pose proof (going_quiet _ _ _ G4 H5) as G5. destruct r as [[]|e]; [|by apply publication_error].
  apply wwp_bind, wwp_quiet; [apply quiets_confirm|by eapply going_draft|].
  intros s6 r H6. pose proof (going_quiet _ _ _ G5 H6) as G6. destruct r as [[]|e]; [|by apply publication_error].
  assert (F s6 = F s4) as E6 by (rewrite (ca_files _ _ (proj1 H6)); apply (ca_files _ _ (proj1 H5))).
  destruct (_ || _) eqn:Estop; [apply wwp_ret, publication_stop; [done|by apply Hall|by left|by intros ->; cbn in Estop]|].
  clear Estop. destruct (_ || _) eqn:Estop; [apply wwp_ret, publication_stop; [done|by apply Hall|by right|by intros ->; cbn in Estop]|].
  clear Estop. apply wwp_bind. eapply wwp_mono; [apply wwp_blank; [exact G6|by apply Hall]|].
  intros s7 [sv|e] H7; [|by apply publication_error]. apply wwp_ret. by destruct H7.
Qed.

(** Steps 10 to 13 from a state past the boundary. *)
Lemma wwp_publish_from_prepared s0 s stop :
  going s s →
  wwp (publish_from_prepared decode_exact_object prepared_evidence_valid evidence t stop) (publication s0 stop s) s.
Proof.
  intros Hs. unfold publish_from_prepared.
  apply wwp_bind, wwp_quiet; [apply quiets_require_evidence|by eapply going_draft|]. intros s1 r H1.
  pose proof (going_quiet _ _ _ Hs H1) as G1. destruct r as [[]|e]; [|by apply publication_error]. clear H1.
  apply wwp_bind, wwp_lift. rewrite (targets_Ok t Hq). cbn [map_err tg_grants tg_entry]. fold (prepared_grants t).
  apply wwp_bind. eapply wwp_mono; [apply wwp_publish_grants; [done|done|done|apply G1]|]. intros s2 r [H2 Hg].
  assert (going s s2) as G2 by (eapply going_advanced; [exact G1|exact H2|]; eapply grants_ordered; [exact H2|apply G1]).
  destruct r as [[]|e]; [|by apply publication_error]. specialize (Hg eq_refl).
  apply wwp_bind, wwp_quiet; [apply quiets_sync_first|by eapply going_draft|].
  intros s3 r H3. pose proof (going_quiet _ _ _ G2 H3) as G3. destruct r as [[]|e]; [|by apply publication_error].
  assert (∀ o, o ∈ prepared_grants t → published (F s3) o) as Hg3 by (rewrite (ca_files _ _ (proj1 H3)); done).
  destruct (_ || _) eqn:Estop.
  - apply wwp_ret. destruct G3 as (? & ? & ?). split; [done|]. split; [done|]. split; [done|]. intros ->. by cbn in Estop.
  - by apply wwp_publish_entry_last.
Qed.

(** *** Staging *)

Lemma wwp_stage_object o s :
  wwp (stage_object decode_exact_object (staging_of o.1, o.2)) (λ s' r, ∃ b, s' = with_archive b s ∧
    (∀ q, q ≠ staged_at o ∨ is_Some (F s !! q) → files b !! q = F s !! q) ∧
    (r = Ok tt → files b !! staged_at o = Some o.2)) s.
Proof.
  assert (∀ x, x = o.2 → wwp (on_archive (create_if_absent (staging_of o.1) x)) (λ s' r, ∃ b, s' = with_archive b s ∧
    (∀ q, q ≠ staged_at o ∨ is_Some (F s !! q) → files b !! q = F s !! q) ∧
    (r = Ok tt → files b !! staged_at o = Some o.2)) s) as Hc.
  { intros x ->. apply wwp_archive. intros b r Hr. exists b. apply create_law in Hr as [Hk Hok]. split; [done|]. split; [done|].
    destruct r as [[]|e]; [|done]. intros _. by apply Hok. }
  assert (∀ r : result WriterError unit, r ≠ Ok tt → ∃ b, s = with_archive b s ∧
    (∀ q, q ≠ staged_at o ∨ is_Some (F s !! q) → files b !! q = F s !! q) ∧ (r = Ok tt → files b !! staged_at o = Some o.2)) as Hn.
  { intros r Hr. exists (wr_archive s). by destruct s. }
  unfold stage_object. cbn [fst snd]. apply wwp_bind, wwp_lift. pose proof (Hexact o.2) as Hx.
  destruct (decode_exact_object o.2) as [[]|e]; cbn [map_err]; first [by apply Hc|apply wwp_fail; by apply Hn|by apply Hn].
Qed.

Lemma wwp_stage_all s0 s :
  reversible t s0 s →
  wwp (w_each (stage_object decode_exact_object) ((λ o, (staging_of o.1, o.2)) <$> prepared_objects t)) (λ s' r,
    reversible t s0 s' ∧ settled s s' ∧
    (r = Ok tt → ∀ o, o ∈ prepared_objects t → F s' !! staged_at o = Some o.2)) s.
Proof.
  intros Hs. eapply wwp_mono.
  - apply (wwp_each _ (λ s', reversible t s0 s' ∧ settled s s') (λ p s', F s' !! as_str p.1 = Some p.2)); [|by repeat split; apply Hs].
    intros p s1 (o & -> & Ho)%list_elem_of_fmap [H1 Hse]. eapply wwp_mono; [apply wwp_stage_object|].
    intros s2 r (b & -> & Hk & Hok). split; [split; [|done]|split; [done|]].
    + destruct H1 as [Ht Hks Hd Hf]. split; [done..|]. cbn. intros q Hq'. rewrite Hk; [by apply Hf|]. left. intros ->.
      by apply Hq', list_elem_of_fmap_2.
    + cbn. intros p Hp. rewrite Hk; [done|]. right. by rewrite Hp.
  - intros s' r ([Hr Hse] & Hok & _). split; [done|]. split; [done|]. intros E o Ho.
    apply (Hok E (staging_of o.1, o.2)). by apply (list_elem_of_fmap_2 (λ o, (staging_of o.1, o.2))).
Qed.

(** Before the boundary: the marker lies, the key is there, nothing is
    published. *)
Definition standing s s' : Prop := carried s' ∧ held s' ∧ unpublished t (F s') ∧ settled s s'.

(** A state of staging, and that its claim is as in [s1]. *)
Definition staging_state s0 s1 s : Prop := reversible t s0 s ∧ settled s1 s.

Lemma staging_quiet s0 s1 s s' : staging_state s0 s1 s → quiet s s' → staging_state s0 s1 s'.
Proof.
  intros [Hr [Hn Hc]] (Hq1 & Hn1 & Hc1). split; [by eapply reversible_calm|]. split; congruence.
Qed.

Lemma staging_draft s0 s1 s : ready t h old d0 s0 → staging_state s0 s1 s → t_draft (T s) ≠ None.
Proof. intros Hr [Hs _]. rewrite (rv_tables _ _ _ Hs). by eapply drafted_row, rd_draft. Qed.

(** The marker is written over objects that are all staged, or is not. *)
Lemma wwp_write_marker s0 s1 s :
  ready t h old d0 s0 → staging_state s0 s1 s → (∀ o, o ∈ prepared_objects t → F s !! staged_at o = Some o.2) →
  wwp (on_draft (replace_prepared_finalization_marker evidence (Some (encode_marker t)))) (λ s' r, match r with
    | Ok _ => standing s1 s' | Err _ => staging_state s0 s1 s' end) s.
Proof.
  intros Hrd [Hr Hse] Hst. pose proof (reversible_unpublished t s0 s Hq Hr (rd_files _ _ _ _ _ Hrd)) as Hu.
  pose proof (reversible_held t h old s0 s Hr (rd_key _ _ _ _ _ Hrd)) as Hh.
  apply wwp_draft. eapply wp_mono; [apply wp_replace_marker|]. intros w r (Hk & Hd & Hw).
  assert (held (with_world w s)) as Hh' by (red; cbn; by rewrite Hk).
  destruct Hr as [Ht Hks Hdr Hf]. destruct r as [u|e]; cbn.
  - destruct Hw as [Hm Hw]. split; [|done]. split; cbn; rewrite ?Hw; cbn; try done.
    + rewrite Ht. destruct (rd_draft _ _ _ _ _ Hrd) as (row & sr & n & Hrow & ?). by exists row, sr, n.
    + intros o Ho. right. split; [by apply Hu|by apply Hst].
    + by apply laid_unpublished_ordered.
    + by right.
    + rewrite Hd. pose proof (rd_draws _ _ _ _ _ Hrd). lia.
  - split; [|done]. split; cbn; [congruence|by rewrite Hk|lia|done].
Qed.

Lemma wwp_stage_and_flush s0 s identity stop :
  ready t h old d0 s0 → reversible t s0 s →
  wwp (stage_and_flush decode_exact_object evidence stale_store t identity stop) (λ s' r, match r with
    | Ok None => standing s s'
    | Ok (Some st) => phase_holds t h old d0 s0 (rs_phase st) s' ∧ outcome_of t st ∧ settled s s'
    | Err _ => staging_state s0 s s'
    end) s.
Proof.
  intros Hrd Hrev. unfold stage_and_flush.
  assert (staging_state s0 s s) as G0 by (by repeat split; apply Hrev).
  assert (∀ s', staging_state s0 s s' → phase_holds t h old d0 s0 Phase.ReversibleDraft s' ∧
    outcome_of t (reached Phase.ReversibleDraft) ∧ settled s s') as HR by (by intros s' [? ?]).
  apply wwp_bind, wwp_quiet; [destruct identity; [apply quiets_record_identity|apply quiets_ret]|by eapply staging_draft|].
  intros s1 r H1. pose proof (staging_quiet _ _ _ _ G0 H1) as G1. destruct r as [[]|e]; [|done].
  apply wwp_bind, wwp_lift. rewrite (targets_Ok t Hq). cbn [map_err].
  destruct (breaks_at stop _); [by apply wwp_ret, HR|].
  apply wwp_bind, wwp_lift. rewrite (staged_pairs_Ok t Hq). cbn [map_err]. apply wwp_bind.
  eapply wwp_mono; [apply (wwp_stage_all s0), G1|]. intros s2 r (H2 & Hs2 & Hst).
  assert (staging_state s0 s s2) as G2 by (destruct G1 as [_ [? ?]], Hs2; split; [done|]; split; congruence).
  destruct r as [[]|e]; [|done]. specialize (Hst eq_refl). destruct (breaks_at stop _); [by apply wwp_ret, HR|].
  apply wwp_bind, wwp_quiet; [apply quiets_each; intros; apply quiets_sync_file|by eapply staging_draft|].
  intros s3 r H3. pose proof (staging_quiet _ _ _ _ G2 H3) as G3. destruct r as [[]|e]; [|done].
  destruct (breaks_at stop _); [by apply wwp_ret, HR|].
  apply wwp_bind, wwp_quiet; [apply quiets_each; intros; apply quiets_sync_directory|by eapply staging_draft|].
  intros s4 r H4. pose proof (staging_quiet _ _ _ _ G3 H4) as G4. destruct r as [[]|e]; [|done].
  destruct (breaks_at stop _); [by apply wwp_ret, HR|].
  apply wwp_bind, wwp_quiet; [apply quiets_journal_prepared|by eapply staging_draft|].
  intros s5 r H5. pose proof (staging_quiet _ _ _ _ G4 H5) as G5. destruct r as [[]|e]; [|done].
  apply wwp_bind. eapply wwp_mono; [apply (wwp_write_marker s0 s); [done|done|]|].
  { rewrite (ca_files _ _ (proj1 H5)), (ca_files _ _ (proj1 H4)), (ca_files _ _ (proj1 H3)). exact Hst. }
  intros s6 [u|e] H6; [|done]. destruct (_ || _); apply wwp_ret; [|done].
  by destruct H6 as (? & ? & ? & ?).
Qed.

(** *** The deletion of the key *)

(** A save seals the draft with the same key. *)
Lemma drafted_saved s w d sv :
  drafted h old (T s) → held s → saved evidence d (wr_world s) sv w → drafted h old (w_tables w).
Proof.
  intros (row & sr & n & Hrow & Hst & Hh & _) Hk (_ & _ & _ & row' & sr' & dek & c & nonce & Hrow' & Hst' & Hi & Hrv & He & Hc & Hn & Ht).
  rewrite Hrow in Hrow'. injection Hrow' as <-. rewrite Hst in Hst'. injection Hst' as <-.
  red in Hk. rewrite <- Hh, He in Hk. injection Hk as ->.
  pose proof (stored_row_inv _ _ Hst) as (Hsi & _ & _ & _ & _ & Hal). unfold draft_allowed in Hal.
  rewrite !andb_true_iff, Z.leb_le in Hal.
  exists (saved_row c nonce (d_revision d + 1) row). eexists _, (d_notes d). split; [by rewrite Ht|].
  split; [apply stored_saved; [done|done|lia]|]. cbn. split; [done|]. by rewrite Hsi, Hi.
Qed.

Lemma standing_quiet s s1 s2 : standing s s1 → quiet s1 s2 → standing s s2.
Proof.
  intros (Hc & Hh & Hu & Hn & Hcl) (Hq1 & Hn1 & Hcl1). split; [by eapply carried_calm|].
  split; [by eapply held_same, Hh; apply Hq1|]. split; [by rewrite (ca_files _ _ Hq1)|]. split; congruence.
Qed.

Lemma standing_draft s s' : standing s s' → t_draft (T s') ≠ None.
Proof. intros (Hc & _). by eapply drafted_row, cy_draft. Qed.

Lemma wwp_save_standing s0 s d :
  standing s0 s → wwp (on_draft (save evidence d)) (λ s' _, standing s0 s') s.
Proof.
  intros (Hc & Hh & Hu & Hse). apply wwp_draft. eapply wp_mono; [apply wp_and; [apply wp_save|apply framed_save]|].
  intros w r [[Hk Hr] [Hd _]].
  assert (held (with_world w s)) as Hh' by (by eapply held_same).
  assert (drafted h old (w_tables w)) as Hdr.
  { destruct r as [sv|e]; [by eapply drafted_saved; [apply Hc|exact Hh|]|rewrite Hr; apply Hc]. }
  assert (t_transition (w_tables w) = t_transition (T s) ∧ t_discard_migration (w_tables w) = t_discard_migration (T s)) as [E1 E2].
  { destruct r as [sv|e]; [|by rewrite Hr]. destruct Hr as (_ & _ & _ & row & sr & dek & c & n & _ & _ & _ & _ & _ & _ & _ & ->). done. }
  split; [|done]. destruct Hc as [M D _ L O Ke Dd]. split; cbn; rewrite ?E1, ?E2; try done; [by right|lia].
Qed.

Lemma wwp_handle_standing s0 s sv :
  standing s0 s → wwp (on_draft (draft_dek_handle evidence sv)) (λ s' r, standing s0 s' ∧ ∀ g, r = Ok g → g = h) s.
Proof.
  intros Hs. assert (∀ fs, quiet s (with_world (read_world (wr_world s) fs) s)) as Hq' by (by repeat split).
  apply wwp_draft. eapply wp_reads; [apply reads_dek_handle|..].
  - intros fs e _. split; [by eapply standing_quiet|done].
  - intros fs g (row & sr & Hrow & Hst & _ & ->). split; [by eapply standing_quiet|]. intros g' [= <-].
    destruct Hs as ([_ _ (row' & sr' & n & Hrow' & Hst' & Hh & _) _ _ _ _] & _). rewrite Hrow in Hrow'. injection Hrow' as <-.
    rewrite Hst in Hst'. by injection Hst' as <-.
Qed.

Lemma wwp_claimed c (Q : Writer K B → result WriterError unit → Prop) s : Q (with_claimed c s) (Ok tt) → wwp (set_claimed c) Q s.
Proof. done. Qed.

Definition deletion s s' (r : result WriterError (option ReachedState)) : Prop :=
  carried s' ∧ unpublished t (F s') ∧ j_numbers (wr_journal s') = j_numbers (wr_journal s) ∧ match r with
    | Ok None => gone s' ∧ wr_claimed s' = None
    | Ok (Some st) => st = reached Phase.PreparedAndFlushed
    | Err _ => held s' ∨ wr_claimed s' = None
    end.

(** After a deletion that was answered: a store that keeps its contract does
    not say that the key is still there. *)
Lemma wwp_absence s0 s stop :
  deletion s0 s (Ok (Some (reached Phase.PreparedAndFlushed))) ∧ gone s →
  KeyStore.entries (w_keys (wr_world s)) h = None →
  wwp (if breaks_at stop Point.AfterKeystoreDelete then mret (Some (reached Phase.PreparedAndFlushed)) else
       present ← try_keys (contains_key h);
       match present with
       | Ok true => w_fail Wr.KeyDeletionNotConfirmed
       | Ok false => _ ← set_claimed None; mret None
       | Err error => _ ← set_claimed None; w_fail (Wr.FromKey error)
       end) (deletion s0) s.
Proof.
  intros [(Hc & Hu & Hn & _) Hg] He. destruct (breaks_at _ _); [by apply wwp_ret|].
  apply wwp_bind, wwp_try_keys. intros k r [Hs Hb]%contains_law.
  set (s1 := with_world (set_keys (wr_world s) k) s). assert (calm s s1) as Hcalm by (by split).
  assert (calm s (with_claimed None s1)) as Hcalm' by (by split).
  destruct r as [[|]|e].
  - specialize (Hb _ eq_refl). symmetry in Hb. apply bool_decide_eq_true in Hb as [x Hx]. congruence.
  - apply wwp_bind, wwp_claimed, wwp_ret. split_and!; [by eapply carried_calm|done|done|by eapply gone_same|done].
  - apply wwp_bind, wwp_claimed, wwp_fail. split_and!; [by eapply carried_calm|done|done|by right].
Qed.

Lemma wwp_delete_draft_key s stop :
  standing s s →
  wwp (delete_draft_key evidence stop) (deletion s) s.
Proof.
  intros Hs. unfold delete_draft_key.
  assert (∀ s' e, standing s s' → deletion s s' (Err e)) as HE by (intros s' e (? & ? & ? & ? & ?); split_and!; auto).
  apply wwp_bind, wwp_quiet; [apply quiets_load|by eapply standing_draft|]. intros s1 r H1.
  pose proof (standing_quiet _ _ _ Hs H1) as G1. destruct r as [d|e]; [|by apply HE]. clear H1 Hs.
  apply wwp_bind. eapply wwp_mono; [by apply wwp_save_standing|]. intros s2 [sv|e] G2; [|by apply HE].
  apply wwp_bind. eapply wwp_mono; [by apply wwp_handle_standing|]. intros s3 r [G3 Hg]. destruct r as [g|e]; [|by apply HE].
  specialize (Hg _ eq_refl). subst g. clear G1 G2 s1 s2 d sv.
  apply wwp_bind, wwp_try_keys. intros k r Hr. set (s4 := with_world (set_keys (wr_world s3) k) s3).
  pose proof (delete_law _ _ _ _ Hr) as (_ & Hn & _). pose proof (delete_only _ _ _ _ h Hr) as Hon.
  destruct G3 as (Hc & Hh & Hu & Hnum & Hcl).
  assert (held s4 ∨ gone s4) as Hkey.
  { destruct Hon as [E|E]; [left; red; cbn; red in Hh; congruence|right; intros x Hx; cbn in Hx; congruence]. }
  assert (carried s4) as Hc4 by (destruct Hc as [M D Dr L O _ Dd]; split; try done; destruct Hkey; [by right|by left]).
  assert (∀ e, wwp (_ ← set_claimed None; w_fail (Wr.FromKey e)) (deletion s) s4) as Ho.
  { intros e. apply wwp_bind, wwp_claimed, wwp_fail. split_and!; [by eapply carried_calm, Hc4|done|done|by right]. }
  assert (KeyStore.entries k h = None → deletion s s4 (Ok (Some (reached Phase.PreparedAndFlushed))) ∧ gone s4) as Hd.
  { intros E. split; [by split_and!|]. intros x Hx. cbn in Hx. congruence. }
  destruct r as [[]|e]; [apply wwp_absence; [by apply Hd, Hn; left|by apply Hn; left]|].
  destruct e; first [apply wwp_absence; [by apply Hd, Hn; right|by apply Hn; right]|apply Ho].
Qed.

(** *** The whole second half *)

Definition taken (c : ClaimedIncidentNumber) s : Prop :=
  number_key (cn_organization c) (cn_year c) (cn_number c) ∈ nt_register (j_numbers (wr_journal s)).

Lemma claim_number_taken c n n' :
  claim_number_in c n = Ok n' → number_key (cn_organization c) (cn_year c) (cn_number c) ∈ nt_register n'.
Proof.
  unfold claim_number_in, claim_in. intros H. destruct (retained_contains _ _ _ _) as [[]|]; try done. cbn in H.
  destruct (_ || _); [done|]. injection H as <-. cbn. set_solver.
Qed.

Lemma wwp_claim_number claim stop s :
  t_draft (T s) ≠ None →
  wwp (claim_number evidence stale_store claim stop) (λ s' r, calm s s' ∧ (r = Ok tt → ∀ c, claim = Some c → taken c s')) s.
Proof.
  intros Hd. apply wwp_and; [by apply calms_claim_number|]. unfold claim_number.
  destruct claim as [c|]; [|by apply wwp_ret].
  assert (∀ (m : wm K B unit) s, wwp m (λ _ _, True) s) as Hany by done.
  destruct (stale_event stop) as [event|].
  - apply wwp_bind. eapply wwp_mono; [instantiate (1 := λ _ _, True); done|]. intros s1 [d|e] _; [|done].
    apply wwp_bind. destruct stale_store; [|by apply wwp_fail]. apply wwp_journal; [done|]. intros s2 j [] Hj [fs ->].
    apply wwp_claimed. intros _ ? [= <-]. unfold taken. cbn.
    apply bind_Ok in Hj as (? & _ & Hj). apply bind_Ok in Hj as (n & Hn & Hj). apply bind_Ok in Hj as (? & _ & Hj).
    destruct (_ || _); [done|]. injection Hj as <-. cbn. by eapply claim_number_taken.
  - apply wwp_bind. unfold claim_original_number. apply wwp_bind. eapply wwp_mono; [instantiate (1 := λ _ _, True); done|].
    intros s1 [[]|e] _; [|done]. apply wwp_bind. eapply wwp_mono; [instantiate (1 := λ _ _, True); done|]. intros s2 [d|e] _; [|done].
    apply wwp_journal; [done|]. intros s3 j a Hj [fs ->]. apply wwp_claimed. intros _ ? [= <-]. unfold taken. cbn.
    apply bind_Ok in Hj as (? & _ & Hj). apply bind_Ok in Hj as (n & Hn & Hj). apply bind_Ok in Hj as (? & _ & Hj).
    injection Hj as <- _. cbn. by eapply claim_number_taken.
Qed.

(** Where a run may end. *)
Definition ended s0 s' (r : result WriterError ReachedState) : Prop :=
  match r with
  | Ok st => phase_holds t h old d0 s0 (rs_phase st) s' ∧ outcome_of t st
  | Err _ => reversible t s0 s' ∨ carried s'
  end.

(** What it says of the claimed number. *)
Definition accounted (claim : option ClaimedIncidentNumber) s' : Prop := ∀ c, claim = Some c → held s' ∨ taken c s'.

Lemma accounted_settled claim s s' :
  (∀ c, claim = Some c → taken c s) → j_numbers (wr_journal s') = j_numbers (wr_journal s) → accounted claim s'.
Proof. intros Hc Hn c Hcl. right. unfold taken. rewrite Hn. by apply Hc. Qed.

Lemma wwp_finish s0 s claim identity built stop :
  ready t h old d0 s0 → calm s0 s → (∀ u, built = Ok u → u = t) →
  wwp (finish decode_exact_object prepared_evidence_valid evidence stale_store claim identity built stop) (λ s' r,
    ended s0 s' r ∧ accounted claim s' ∧ (is_ok r = false → wr_claimed s' = None ∨ held s')) s.
Proof.
  intros Hrd H0 Hbuilt. unfold finish.
  assert (∀ s', reversible t s0 s' → held s') as HH by (intros s' Hs; eapply reversible_held; [done|apply Hrd]).
  assert (∀ s' e, reversible t s0 s' → ended s0 s' (Err e) ∧ accounted claim s' ∧
    (is_ok (Err (A:=ReachedState) e) = false → wr_claimed s' = None ∨ held s')) as HE.
  { intros s' e Hs. split; [by left|]. split; [intros c _; left; by apply HH|]. intros _. right. by apply HH. }
  apply wwp_bind. eapply wwp_mono; [apply wwp_claim_number|].
  { rewrite (ca_tables _ _ H0). eapply drafted_row, Hrd. }
  intros s1 r [H1 Hcl]. pose proof (reversible_calm t s0 s s1 (calm_reversible t s0 s H0) H1) as R1.
  destruct r as [[]|e]; [|by apply HE]. specialize (Hcl eq_refl).
  apply wwp_bind, wwp_lift. destruct built as [u|e]; [|by apply HE]. specialize (Hbuilt _ eq_refl) as ->.
  destruct (_ || _).
  { apply wwp_ret. split; [done|]. split; [intros c _; left; by apply HH|done]. }
  apply wwp_bind. eapply wwp_mono; [by apply (wwp_stage_and_flush s0)|]. intros s2 [[st|]|e] H2.
  - apply wwp_ret. destruct H2 as (Hp & Ho & Hn & _). split; [done|]. split; [by eapply accounted_settled|done].
  - destruct H2 as (Hc & Hh & Hu & Hn & _). apply wwp_bind. eapply wwp_mono; [by apply wwp_delete_draft_key|].
    intros s3 r (Hc3 & Hu3 & Hn3 & Hr3).
    assert (accounted claim s3) as Ha3 by (eapply accounted_settled; [done|congruence]).
    destruct r as [[st|]|e].
    + subst st. apply wwp_ret. done.
    + destruct Hr3 as [Hg3 Hcl3]. destruct (_ || _); [by apply wwp_ret|].
      eapply wwp_mono; [by apply (wwp_publish_from_prepared s0)|]. intros s4 r ((Hn4 & Hcl4) & Hr4).
      assert (accounted claim s4) as Ha4 by (eapply accounted_settled; [done|congruence]).
      destruct r as [st|e]; [by destruct Hr4 as (? & ? & _)|]. split; [by right; apply Hr4|]. split; [done|].
      intros _. left. congruence.
    + split; [by right|]. split; [done|]. intros _. tauto.
  - by apply HE, H2.
Qed.

Lemma wwp_run_ends s claim identity built stop :
  ready t h old d0 s → (∀ u, built = Ok u → u = t) →
  wwp (run decode_exact_object prepared_evidence_valid evidence stale_store claim identity built stop) (λ s' r,
    ended s s' r ∧ accounted claim s') s.
Proof.
  intros Hrd Hb. unfold wwp, run.
  pose proof (wwp_finish s (with_claimed None s) claim identity built stop Hrd ltac:(by split) Hb) as Hf. unfold wwp in Hf.
  destruct (finish _ _ _ _ _ _ _ _ _) as [s1 [st|e]]; cbn in *; [tauto|]. destruct Hf as (He & Ha & Hcl).
  destruct (wr_claimed s1) as [c|]; [|done]. destruct Hcl as [Hcl|Hh]; [done|done|].
  pose proof (calms_release_claimed stale_store c s1) as Hr. unfold wwp in Hr. cbn.
  assert (t_draft (T s1) ≠ None) as Hd.
  { destruct He as [He|He]; [rewrite (rv_tables _ _ _ He); eapply drafted_row, Hrd|eapply drafted_row, cy_draft, He]. }
  specialize (Hr Hd). split.
  - destruct He as [He|He]; [left; by eapply reversible_calm|right; by eapply carried_calm].
  - intros c' _. left. by eapply held_same, Hh; apply Hr.
Qed.

(** C12. From the claim of the incident number to the blank draft, a run of the
    second half of a finalization ends, whatever fails and wherever it is
    stopped, in the state of the phase it reports; after an error the draft is
    as it was and nothing is published, or the marker lies with every object at
    one of its two addresses. Nothing is published while the key of the draft is
    in the store, no entry without its grants, and the claimed number is free
    again only if that key is still there. *)
Theorem finalization_keeps_boundary s claim identity built stop :
  ready t h old d0 s → (∀ u, built = Ok u → u = t) →
  wwp (run decode_exact_object prepared_evidence_valid evidence stale_store claim identity built stop) (λ s' r,
    ended s s' r ∧ accounted claim s') s.
Proof. apply wwp_run_ends. Qed.
End Finalization.
