(* ===== verification/WriterClaims.v ===== *)
(** * WriterClaims: what a restart does to the claimed incident numbers

    A finalization writes every number it takes into a journal, with the draft
    and its revision. A restart that finds the draft in place releases the
    claims of that draft in a loop, one transaction per claim. The loop is shown
    to end with every such claim released and its number free; the fuel of the
    model is the number of claims, and each pass releases one. *)

From S2P Require Import Prelude Types Utf8 Cbor Str ArchivePath Transaction Profile CsvImport OperatorSession Inventory KeyStore GrantPlan ServerDb ObjectStore Draft Discard IncidentNumbers WriterMarker WriterFinalize WriterPhases.
Import Fmt(FormatError) DraftErr(DraftError) Wr(WriterError).

Section Claims.
Context {K B : Type} `{HKp : KeyProvider K} `{!KeyProviderLaws K} `{!KeyProviderOnly K} `{HA : AeadCipher} `{HPr : Primitives}
  `{HB : ArchiveBackend B} `{HS : !ArchiveStore B} `{HN : NumberPrimitives}.
Implicit Types (s : Writer K B) (j : Journal).
Context (evidence : option EvidenceDraftBinding) (stale_store : bool).

Abbreviation T s := (w_tables (wr_world s)).
Abbreviation J s := (wr_journal s).

(** What releases do: the claims stay, released stays released, and numbers
    only leave the register. *)
Record shrinks j j' : Prop := {
  sh_original : j_original j' = j_original j;
  sh_claims : j_claims j' = j_claims j;
  sh_stale_claims : j_stale_claims j' = j_stale_claims j;
  sh_released : j_released j ⊆ j_released j';
  sh_stale_released : j_stale_released j ⊆ j_stale_released j';
  sh_register : nt_register (j_numbers j') ⊆ nt_register (j_numbers j);
}.

Lemma shrinks_refl j : shrinks j j.
Proof. by split. Qed.

#[local] Instance shrinks_trans : Transitive shrinks.
Proof. intros j1 j2 j3 [] []. split; congruence || by etrans. Qed.

Definition number_free (r : ClaimRow) j : Prop :=
  number_key (cr_organization r) (cr_year r) (cr_number r) ∉ nt_register (j_numbers j).

(** The claim is released and its number is free. *)
Definition freed j (id : Z) : Prop :=
  id ∈ j_released j ∧ ∀ r, j_claims j !! Z.to_nat (id - 1) = Some r → number_free r j.
Definition stale_freed j (event : Id16) : Prop :=
  event ∈ j_stale_released j ∧ ∀ r, snd <$> head (filter (λ p, p.1 = event) (j_stale_claims j)) = Some r → number_free r j.

Lemma number_free_shrinks r j j' : shrinks j j' → number_free r j → number_free r j'.
Proof. intros [] Hf Hin. by apply Hf, sh_register0. Qed.

Lemma freed_shrinks j j' id : shrinks j j' → freed j id → freed j' id.
Proof.
  intros Hs [Hr Hf]. split; [by apply Hs|]. intros r. rewrite (sh_claims _ _ Hs). intros Hr'%Hf. by eapply number_free_shrinks.
Qed.

Lemma stale_freed_shrinks j j' e : shrinks j j' → stale_freed j e → stale_freed j' e.
Proof.
  intros Hs [Hr Hf]. split; [by apply Hs|]. intros r. rewrite (sh_stale_claims _ _ Hs). intros Hr'%Hf. by eapply number_free_shrinks.
Qed.

Lemma released_free r j : number_free r (with_numbers (release_in (cr_organization r) (cr_year r) (cr_number r) (j_numbers j)) j).
Proof. unfold number_free, release_in, with_numbers, set_register. cbn. set_solver. Qed.

(** ** One release *)

Lemma wwp_release_original id s :
  wwp (release_original_claim id) (λ s' r, shrinks (J s) (J s') ∧
    (r = Ok tt → is_Some (find_claim id (J s)) → freed (J s') id ∧ j_released (J s') = {[ id ]} ∪ j_released (J s))) s.
Proof.
  unfold release_original_claim. apply wwp_journal.
  - intros s' e [fs ->]. split; [apply shrinks_refl|done].
  - intros s' j a Hj [fs ->]. cbn. destruct (find_claim id (J s)) as [r|] eqn:Ef.
    + destruct (negb (claim_typed r)); [done|]. injection Hj as <- <-. split.
      { split; try done; cbn; [set_solver|unfold set_register; cbn; set_solver]. }
      intros _ _. split; [|done]. split; [cbn; set_solver|]. cbn. intros r' Hr'. unfold find_claim in Ef.
      destruct (_ || _); [done|]. rewrite Hr' in Ef. injection Ef as <-. apply released_free.
    + injection Hj as <- <-. split; [apply shrinks_refl|]. by intros _ [? ?].
Qed.

Lemma wwp_release_stale e s :
  wwp (release_stale_claim e) (λ s' r, shrinks (J s) (J s') ∧
    (r = Ok tt → is_Some (find_stale_claim e (J s)) →
       stale_freed (J s') e ∧ j_stale_released (J s') = {[ e ]} ∪ j_stale_released (J s))) s.
Proof.
  unfold release_stale_claim. apply wwp_journal.
  - intros s' err [fs ->]. split; [apply shrinks_refl|done].
  - intros s' j a Hj [fs ->]. cbn. destruct (find_stale_claim e (J s)) as [r|] eqn:Ef.
    + destruct (negb (claim_typed r)); [done|]. injection Hj as <- <-. split.
      { split; try done; cbn; [set_solver|unfold set_register; cbn; set_solver]. }
      intros _ _. split; [|done]. split; [cbn; set_solver|]. cbn. intros r' Hr'. unfold find_stale_claim in Ef.
      case_bool_decide; [done|]. rewrite Hr' in Ef. injection Ef as <-. apply released_free.
    + injection Hj as <- <-. split; [apply shrinks_refl|]. by intros _ [? ?].
Qed.

(** ** The claims that are left *)

Lemma elem_of_claims_of id i r j :
  id ∈ claims_of i r j ↔ id ∈ (Z.of_nat <$> seq 1 (length (j_claims j))) ∧
    is_some_and (λ c, bool_decide (cr_draft_id c = i) && (cr_revision c <=? r)) (find_claim id j) = true.
Proof. unfold claims_of. rewrite list_elem_of_filter. naive_solver. Qed.

Lemma claims_of_found id i r j : id ∈ claims_of i r j → is_Some (find_claim id j).
Proof. rewrite elem_of_claims_of. destruct (find_claim id j); naive_solver. Qed.

(** A release takes exactly its claim out of those that are left. *)
Lemma claims_of_release i r id j j' :
  j_claims j' = j_claims j → j_released j' = {[ id ]} ∪ j_released j → claims_of i r j' = filter (λ x, x ≠ id) (claims_of i r j).
Proof.
  intros Hc Hr. unfold claims_of. rewrite Hc, list_filter_filter. apply list_filter_iff. intros x. unfold find_claim. rewrite Hc, Hr.
  destruct (decide (x = id)) as [->|Hne].
  - rewrite (bool_decide_eq_true_2 (id ∈ _)) by set_solver. rewrite orb_true_r. naive_solver.
  - rewrite (bool_decide_ext (x ∈ {[id]} ∪ j_released j) (x ∈ j_released j)) by set_solver. naive_solver.
Qed.

Lemma elem_of_stale_claims_of e i r j :
  e ∈ stale_claims_of i r j ↔
  ∃ c, (e, c) ∈ j_stale_claims j ∧ (e ∉ j_stale_released j) ∧ cr_draft_id c = i ∧ cr_revision c ≤ r.
Proof.
  unfold stale_claims_of. rewrite list_elem_of_fmap. split.
  - intros ([e' c] & -> & ((? & ? & ?) & ?)%list_elem_of_filter). by exists c.
  - intros (c & ? & ? & ? & ?). exists (e, c). split; [done|]. by apply list_elem_of_filter.
Qed.

Lemma stale_claims_of_found e i r j : e ∈ stale_claims_of i r j → is_Some (find_stale_claim e j).
Proof.
  intros (c & Hc & Hn & _)%elem_of_stale_claims_of. unfold find_stale_claim. rewrite bool_decide_eq_false_2 by done.
  assert ((e, c) ∈ filter (λ p, p.1 = e) (j_stale_claims j)) as Hf by (by apply list_elem_of_filter).
  destruct (filter _ _) as [|p l]; [by apply elem_of_nil in Hf|]. by eexists.
Qed.

Lemma stale_claims_of_release i r e j j' :
  j_stale_claims j' = j_stale_claims j → j_stale_released j' = {[ e ]} ∪ j_stale_released j →
  stale_claims_of i r j' = filter (λ x, x ≠ e) (stale_claims_of i r j).
Proof.
  intros Hc Hr. unfold stale_claims_of. rewrite Hc, Hr. generalize (j_stale_claims j). intros l.
  induction l as [|[e' c] l IH]; [done|]. rewrite !filter_cons. cbn [fst snd]. repeat case_decide; try set_solver; cbn;
    rewrite ?filter_cons; repeat case_decide; cbn; rewrite ?IH; done || set_solver.
Qed.

(** ** The loop *)

Section Loop.
Context {X : Type} (query : wm K B (option X)) (release : X → wm K B unit) (left : Journal → list X) (done_with : Journal → X → Prop).

(** The shape of both loops. *)
Fixpoint release_loop (fuel : nat) : wm K B unit :=
  found ← query;
  match found, fuel with
  | Some x, S fuel => _ ← release x; release_loop fuel
  | _, _ => mret tt
  end.

Context (Hquery : ∀ s, wwp query (λ s' r, J s' = J s ∧ ∀ o, r = Ok o → o = head (left (J s))) s).
Context (Hrelease : ∀ s x, x ∈ left (J s) → wwp (release x) (λ s' r, shrinks (J s) (J s') ∧
  (r = Ok tt → done_with (J s') x ∧ (length (left (J s')) < length (left (J s)))%nat ∧
     ∀ y, y ∈ left (J s) → y = x ∨ y ∈ left (J s'))) s).
Context (Hdone : ∀ j j' x, shrinks j j' → done_with j x → done_with j' x).

Lemma wwp_release_loop fuel s :
  (length (left (J s)) ≤ fuel)%nat →
  wwp (release_loop fuel) (λ s' r, shrinks (J s) (J s') ∧ (r = Ok tt → ∀ x, x ∈ left (J s) → done_with (J s') x)) s.
Proof.
  revert s. induction fuel as [|fuel IH]; intros s Hle; cbn; apply wwp_bind; (eapply wwp_mono; [apply Hquery|]);
    intros s1 [o|e] [E Ho]; try (rewrite E; by split; [apply shrinks_refl|]); rewrite (Ho o eq_refl).
  - destruct (left (J s)) as [|x l]; [|cbn in Hle; lia]. apply wwp_ret. rewrite E. split; [apply shrinks_refl|].
    by intros _ x ?%elem_of_nil.
  - destruct (left (J s)) as [|x l] eqn:El.
    { apply wwp_ret. rewrite E. split; [apply shrinks_refl|]. by intros _ x ?%elem_of_nil. }
    cbn [head]. apply wwp_bind. eapply wwp_mono; [apply Hrelease; rewrite E, El; by left|].
    rewrite E, El. intros s2 [[]|e] [Hs Hr]; [|by split]. destruct (Hr eq_refl) as (Hd & Hl & Hy).
    eapply wwp_mono; [apply IH; lia|]. intros s3 r [Hs' Hr']. split; [by trans (J s2)|].
    intros Hok y [->|Hin]%Hy; [by eapply Hdone|by apply Hr'].
Qed.
End Loop.

Lemma wwp_query {X} (C : Journal → list X) (ok : bool) s :
  wwp (journal (λ _ j, if ok then Ok (j, head (C j)) else Err Wr.PreparedFinalizationInconsistent))
    (λ s' r, J s' = J s ∧ ∀ o, r = Ok o → o = head (C (J s))) s.
Proof.
  apply wwp_journal; [by intros s' e [fs ->]|]. intros s' j a Hj [fs ->]. destruct ok; [|done]. injection Hj as <- <-.
  by split; [|intros o [= <-]].
Qed.

Lemma release_claims_loop fuel d s :
  release_claims fuel d s =
  release_loop (journal (λ _ j, if d_revision d <=? i64_max then Ok (j, head (claims_of (d_draft_id d) (d_revision d) j))
                         else Err Wr.PreparedFinalizationInconsistent)) release_original_claim fuel s.
Proof.
  revert s. induction fuel as [|fuel IH]; intros s; [done|]. cbn [release_claims release_loop]. unfold mbind at 1 3, wm_bind at 1 3.
  destruct (journal _ s) as [s1 [[id|]|e]]; [|done..]. unfold mbind, wm_bind.
  destruct (release_original_claim id s1) as [s2 [[]|e]]; [apply IH|done].
Qed.

Lemma release_stale_claims_loop fuel d s :
  release_stale_claims fuel d s =
  release_loop (journal (λ _ j, if d_revision d <=? i64_max then Ok (j, head (stale_claims_of (d_draft_id d) (d_revision d) j))
                         else Err Wr.PreparedFinalizationInconsistent)) release_stale_claim fuel s.
Proof.
  revert s. induction fuel as [|fuel IH]; intros s; [done|]. cbn [release_stale_claims release_loop]. unfold mbind at 1 3, wm_bind at 1 3.
  destruct (journal _ s) as [s1 [[e|]|e]]; [|done..]. unfold mbind, wm_bind.
  destruct (release_stale_claim e s1) as [s2 [[]|err]]; [apply IH|done].
Qed.

(** Taking one element out of a list of those that are left. *)
Lemma without_one {X} `{EqDecision X} (l l' : list X) x :
  l' = filter (λ y, y ≠ x) l → x ∈ l → (length l' < length l)%nat ∧ ∀ y, y ∈ l → y = x ∨ y ∈ l'.
Proof.
  intros -> Hx. split; [by apply (length_filter_lt _ _ x); [|tauto]|]. intros y Hy.
  destruct (decide (y = x)); [by left|right]. by apply list_elem_of_filter.
Qed.

Lemma wwp_release_claims fuel d s :
  (length (claims_of (d_draft_id d) (d_revision d) (J s)) ≤ fuel)%nat →
  wwp (release_claims fuel d) (λ s' r, shrinks (J s) (J s') ∧
    (r = Ok tt → ∀ id, id ∈ claims_of (d_draft_id d) (d_revision d) (J s) → freed (J s') id)) s.
Proof.
  intros Hf. unfold wwp. rewrite release_claims_loop. apply (wwp_release_loop _ _ (claims_of (d_draft_id d) (d_revision d))); [| |apply freed_shrinks|done].
  - intros s1. apply (wwp_query (claims_of _ _)).
  - intros s1 id Hid. eapply wwp_mono; [apply wwp_release_original|]. intros s2 r [Hs Hr]. split; [done|]. intros Hok.
    destruct (Hr Hok (claims_of_found _ _ _ _ Hid)) as [Hfr E]. split; [done|].
    apply without_one; [|done]. apply claims_of_release; [apply Hs|done].
Qed.

Lemma wwp_release_stale_claims fuel d s :
  (length (stale_claims_of (d_draft_id d) (d_revision d) (J s)) ≤ fuel)%nat →
  wwp (release_stale_claims fuel d) (λ s' r, shrinks (J s) (J s') ∧
    (r = Ok tt → ∀ e, e ∈ stale_claims_of (d_draft_id d) (d_revision d) (J s) → stale_freed (J s') e)) s.
Proof.
  intros Hf. unfold wwp. rewrite release_stale_claims_loop.
  apply (wwp_release_loop _ _ (stale_claims_of (d_draft_id d) (d_revision d))); [| |apply stale_freed_shrinks|done].
  - intros s1. apply (wwp_query (stale_claims_of _ _)).
  - intros s1 e He. eapply wwp_mono; [apply wwp_release_stale|]. intros s2 r [Hs Hr]. split; [done|]. intros Hok.
    destruct (Hr Hok (stale_claims_of_found _ _ _ _ He)) as [Hfr E]. split; [done|].
    apply without_one; [|done]. apply stale_claims_of_release; [apply Hs|done].
Qed.

(** ** The two recoveries of claims *)

(** The draft that is loaded is the one that is stored. *)
Definition describes (d : DraftV) (row : DraftRow) : Prop :=
  d_draft_id d = dr_draft_id row ∧ d_revision d = dr_save_revision row.

Lemma wp_load_describes row w :
  t_draft (w_tables w) = Some row →
  wp (load_or_create evidence) (λ w' r, w_tables w' = w_tables w ∧ ∀ d, r = Ok d → describes d row) w.
Proof.
  intros Hrow. eapply wp_mono; [apply wp_and; [apply wp_load_or_create|apply wp_load_there; by rewrite Hrow]|].
  intros w' r [Hl (Ht & _)]. split; [done|]. intros d ->. destruct Hl as (_ & _ & _ & _ & row' & Hr' & Hi & Hv & _).
  rewrite Ht, Hrow in Hr'. injection Hr' as <-. by split.
Qed.

Lemma wwp_recover_original row s :
  t_draft (T s) = Some row →
  wwp (recover_original_claims evidence) (λ s' r, shrinks (J s) (J s') ∧
    (r = Ok tt → j_original (J s) = true → ∀ id, id ∈ claims_of (dr_draft_id row) (dr_save_revision row) (J s) → freed (J s') id)) s.
Proof.
  intros Hrow. unfold recover_original_claims. apply wwp_bind, wwp_journal.
  { intros s' e [fs ->]. split; [apply shrinks_refl|done]. }
  intros s1 j p [= <- <-] [fs1 ->]. destruct (negb _) eqn:Hp.
  { apply wwp_ret. split; [apply shrinks_refl|]. intros _ Ho. by rewrite Ho in Hp. }
  apply wwp_bind, wwp_journal; [intros s' e [fs ->]; split; [apply shrinks_refl|done]|].
  intros s2 j l Hl [fs2 ->]. cbn in Hl. rewrite Hrow in Hl. injection Hl as <- <-. cbn.
  case_bool_decide as He.
  { apply wwp_ret. split; [apply shrinks_refl|]. intros _ _ id. cbn in He. rewrite He. by intros ?%elem_of_nil. }
  apply wwp_bind, wwp_draft. eapply wp_mono; [by apply (wp_load_describes row)|]. intros w [d|e] [Ht Hd]; cbn [map_err];
    [|split; [apply shrinks_refl|done]].
  destruct (Hd d eq_refl) as [Hi Hv]. eapply wwp_mono; [apply wwp_release_claims; cbn; by rewrite Hi, Hv|].
  intros s3 r [Hs Hr]. split; [done|]. intros Hok _. rewrite Hi, Hv in Hr. by apply Hr.
Qed.

(** The claims under stale receipts are not touched by it. *)
Definition keeps_stale {A} (m : wm K B A) : Prop := ∀ s, wwp m (λ s' _, j_stale_released (J s') = j_stale_released (J s)) s.

Lemma keeps_stale_bind {A C} (m : wm K B A) (k : A → wm K B C) : keeps_stale m → (∀ a, keeps_stale (k a)) → keeps_stale (m ≫= k).
Proof.
  intros Hm Hk s. apply wwp_bind. eapply wwp_mono; [apply Hm|]. intros s1 [a|e] H1; [|done].
  eapply wwp_mono; [apply Hk|]. intros s2 r H2. congruence.
Qed.

Lemma keeps_stale_journal {A} (f : DraftTables → Journal → result WriterError (Journal * A)) :
  (∀ t j j' a, f t j = Ok (j', a) → j_stale_released j' = j_stale_released j) → keeps_stale (journal f).
Proof. intros Hf s. apply wwp_journal; [by intros s' e [fs ->]|]. by intros s' j a Hj%Hf [fs ->]. Qed.

Lemma keeps_stale_release fuel d : keeps_stale (release_claims fuel d).
Proof.
  assert (∀ id, keeps_stale (release_original_claim id)) as Hrel.
  { intros id. apply keeps_stale_journal. intros t j j' a. repeat case_match; try done; by intros [= <- <-]. }
  induction fuel as [|fuel IH]; cbn; (apply keeps_stale_bind; [apply keeps_stale_journal|]);
    try (intros t j j' a; case_match; [by intros [= <- <-]|done]); intros [id|]; try done.
  by apply keeps_stale_bind; [|intros []].
Qed.

Lemma keeps_stale_recover : keeps_stale (recover_original_claims evidence).
Proof.
  unfold recover_original_claims. apply keeps_stale_bind; [apply keeps_stale_journal; by intros t j j' a [= <- <-]|].
  intros p. destruct (negb p); [done|]. apply keeps_stale_bind; [apply keeps_stale_journal; by intros t j j' a [= <- <-]|].
  intros l. case_bool_decide; [done|]. apply keeps_stale_bind; [|intros d; apply keeps_stale_release].
  intros s. apply wwp_draft. unfold wp. by destruct (load_or_create _ _).
Qed.

Lemma wwp_recover_reversible d s :
  wwp (recover_reversible_claims d) (λ s' r, shrinks (J s) (J s') ∧
    (r = Ok tt → ∀ e, e ∈ stale_claims_of (d_draft_id d) (d_revision d) (J s) → stale_freed (J s') e)) s.
Proof.
  apply wwp_release_stale_claims. unfold stale_claims_of. rewrite length_fmap. apply length_filter.
Qed.

(** Every claim of the draft of [s] is released in [s'] and its number free:
    those of the register of claims, if its tables exist, and those under stale
    receipts, if their store is attached. *)
Definition claims_freed s s' : Prop := ∀ row, t_draft (T s) = Some row →
  (j_original (J s) = true → ∀ id, id ∈ claims_of (dr_draft_id row) (dr_save_revision row) (J s) → freed (J s') id) ∧
  (stale_store = true → ∀ e, e ∈ stale_claims_of (dr_draft_id row) (dr_save_revision row) (J s) → stale_freed (J s') e).

(** The part of a restart that gives the draft back. *)
Lemma wwp_restore_frees {A} d row s (q : A) :
  t_draft (T s) = Some row → describes d row →
  wwp (_ ← recover_original_claims evidence;
       _ ← (if stale_store then recover_reversible_claims d else mret tt);
       _ ← on_draft (replace_prepared_finalization_marker evidence None);
       mret q) (λ s' r, is_ok r = true → claims_freed s s') s.
Proof.
  intros Hrow [Hi Hv]. apply wwp_bind. eapply wwp_mono; [apply wwp_and; [by apply wwp_recover_original|apply keeps_stale_recover]|].
  intros s1 [[]|e] [[Hs1 Ho] Hk]; [|done].
  assert (∀ a b, stale_claims_of a b (J s1) = stale_claims_of a b (J s)) as Hst.
  { intros a b. unfold stale_claims_of. by rewrite Hk, (sh_stale_claims _ _ Hs1). }
  apply wwp_bind. eapply (wwp_mono _ (λ s2 r, r = Ok tt → claims_freed s s2)).
  - eapply (wwp_mono _ (λ s2 r, shrinks (J s1) (J s2) ∧ (r = Ok tt → stale_store = true → ∀ e,
      e ∈ stale_claims_of (dr_draft_id row) (dr_save_revision row) (J s) → stale_freed (J s2) e))).
    + destruct stale_store; [|by apply wwp_ret; split; [apply shrinks_refl|]].
      eapply wwp_mono; [apply wwp_recover_reversible|]. intros s2 r [Hs Hr]. split; [done|]. intros Hok _. rewrite Hst, Hi, Hv in Hr. by apply Hr.
    + intros s2 r [Hs Hr] Hok row' Hrow'. rewrite Hrow in Hrow'. injection Hrow' as <-. split; [|by apply Hr].
      intros Hor id Hid. eapply freed_shrinks; [exact Hs|]. by apply Ho.
  - intros s2 [[]|e] H2; [|done]. specialize (H2 eq_refl). apply wwp_bind, wwp_draft. unfold wp.
    destruct (replace_prepared_finalization_marker _ _ _) as [w [u|e]]; cbn [map_err fst snd]; [|done].
    by apply wwp_ret.
Qed.
End Claims.
