(* ===== verification/WriterRecovery.v ===== *)
(** * WriterRecovery: restarts and the clean-up of the writer

    A restart after an interrupted finalization either gives the draft back or
    publishes what was prepared, and a further failure leaves the marker for the
    next one; so after a run and any number of restarts the entry and a draft
    that opens are never both there. The clean-up removes what was only staged
    and the grants of entries that were never committed. *)

From S2P Require Import Prelude Types Utf8 Cbor Str ArchivePath Transaction Profile CsvImport OperatorSession Inventory KeyStore GrantPlan ServerDb ObjectStore Draft Discard IncidentNumbers WriterMarker WriterFinalize WriterPhases WriterClaims.
Import Fmt(FormatError) DraftErr(DraftError) Gp(GrantPurposeV1) Wr(WriterError) Step(FinalizationStep) Phase(FinalizationPhase) Point(FinalizationFaultPoint).

(** ** The clean-up *)

Section Cleanup.
Context {K B : Type} `{HKp : KeyProvider K} `{!KeyProviderLaws K} `{!KeyProviderOnly K} `{HA : AeadCipher} `{HPr : Primitives}
  `{HB : ArchiveBackend B} `{HS : !ArchiveStore B} `{!ArchiveStoreLaws B} `{HN : NumberPrimitives}.
Implicit Types s : Writer K B.
Context (decode_exact_object : list byte → result FormatError Object).
Context (evidence : option EvidenceDraftBinding) (stale_store : bool).

Abbreviation T s := (w_tables (wr_world s)).
Abbreviation F s := (files (wr_archive s)).

(** No marker lies; without its table there is none. *)
Definition unmarked (tb : DraftTables) : Prop :=
  match t_discard_migration tb, t_transition tb with true, Some (FinalizationRow _ _ _) => False | _, _ => True end.

Lemma unmarked_select tb m :
  (if t_discard_migration tb then select_marker tb = Ok m else m = None) → unmarked tb ↔ m = None.
Proof.
  unfold unmarked, select_marker, select_transition. destruct (t_discard_migration tb); [|by intros ->].
  destruct (t_transition tb) as [[]|]; cbn; by intros [= <-].
Qed.

Lemma calms_unmarked_claims : calms (recover_unmarked_stale_claims evidence stale_store).
Proof.
  unfold recover_unmarked_stale_claims. apply calms_bind; [apply calms_recover_original|]. intros _.
  destruct stale_store; [|apply calms_ret]. apply calms_bind; [apply calms_journal|]. intros [|]; [|apply calms_ret].
  apply calms_bind; [apply calms_load|]. apply calms_recover_reversible.
Qed.

Lemma split_once_eq sep p a b : split_once sep p = Some (a, b) → p = a ++ sep :: b.
Proof.
  revert a. induction p as [|c p IH]; intros a H; cbn in H; [done|]. case_decide as Hc.
  - injection H as <- <-. by subst.
  - destruct (split_once sep p) as [[l r]|]; [|done]. injection H as <- <-. cbn. by rewrite (IH l).
Qed.

Lemma reconciled_path_Ok p a : reconciled_path p = Ok a → as_str a = p.
Proof.
  unfold reconciled_path. intros H. apply bind_Ok in H as ([d n] & Hs & H). apply ok_or_Ok, split_once_eq in Hs as ->.
  apply in_dir_Ok in H as (_ & _ & ->). unfold as_str. cbn. by rewrite <- app_assoc.
Qed.

(** What removing files named in [l] may do. *)
Definition pruned (l : list str) s s' : Prop :=
  (∃ b, s' = with_archive b s) ∧ ∀ p, F s' !! p = F s !! p ∨ F s' !! p = None ∧ p ∈ l.

Lemma pruned_refl l s : pruned l s s.
Proof. split; [exists (wr_archive s); by destruct s|]. by left. Qed.

Lemma pruned_trans l1 l2 s1 s2 s3 : pruned l1 s1 s2 → pruned l2 s2 s3 → pruned (l1 ++ l2) s1 s3.
Proof.
  intros [[b ->] H1] [[b' ->] H2]. split; [exists b'; by destruct s1|]. intros p. cbn in *.
  destruct (H2 p) as [->|[-> ?]]; [|right; set_solver]. destruct (H1 p) as [->|[-> ?]]; [by left|right; set_solver].
Qed.

Lemma wwp_remove_path p s : wwp (remove_path p) (λ s' r, pruned [p] s s' ∧ (r = Ok tt → F s' !! p = None)) s.
Proof.
  unfold remove_path. apply wwp_bind, wwp_lift. destruct (reconciled_path p) as [a|e] eqn:Ea; cbn [map_err].
  - apply reconciled_path_Ok in Ea. apply wwp_archive. intros b r Hr. apply remove_law in Hr as [Hf Hok].
    rewrite Ea in Hf, Hok. split; [|destruct r as [[]|]; [by cbn; auto|done]]. split; [by exists b|]. intros q. cbn.
    destruct Hf as [->| ->]; [by left|]. destruct (decide (q = p)) as [->|Hne]; [right|left; by rewrite lookup_delete_ne].
    rewrite lookup_delete_eq. set_solver.
  - split; [apply pruned_refl|done].
Qed.

Lemma wwp_remove_all {A} (f : A → str) l s :
  wwp (w_each (λ x, remove_path (f x)) l) (λ s' r, pruned (f <$> l) s s' ∧ (r = Ok tt → ∀ p, p ∈ f <$> l → F s' !! p = None)) s.
Proof.
  eapply wwp_mono.
  - apply (wwp_each _ (λ s', pruned (f <$> l) s s') (λ x s', F s' !! f x = None)); [|apply pruned_refl].
    intros x s1 Hx [[b ->] H1]. eapply wwp_mono; [apply wwp_remove_path|]. intros s2 r [[[b' ->] H2] Hok]. cbn in *.
    split; [split; [exists b'; by destruct s|]|split; [done|]].
    + intros p. cbn. destruct (H2 p) as [->|[-> Hp]]; [apply H1|]. right. split; [done|]. apply list_elem_of_singleton in Hp as ->.
      by apply list_elem_of_fmap_2.
    + intros y Hy. destruct (H2 (f y)) as [->|[-> _]]; done.
  - intros s' r (H1 & H2 & _). split; [done|]. intros Hr p (x & -> & Hx)%list_elem_of_fmap. by apply H2.
Qed.

(** An entry with this hash lies in the archive, in a directory of it. *)
Definition committed (eh : EntryHash) (f : archive_files) : Prop :=
  ∃ p x e, f !! p = Some x ∧ is_staging_path p = false ∧ slash ∈ p ∧
    decode_exact_object x = Ok (Entry e) ∧ ep_entry_hash (value e) = eh.

(** A grant under its directory, for the entry with this hash. *)
Definition grant_at (p : str) (eh : EntryHash) (f : archive_files) : Prop :=
  ∃ x g, f !! p = Some x ∧ starts_with GRANTS_DIR_V1 p = true ∧ decode_exact_object x = Ok (Grant g) ∧
    gt_entry_hash (value g) = eh.

(** What the clean-up may remove of an archive with the files [f]. *)
Definition removable (f : archive_files) (p : str) : Prop :=
  is_staging_path p = true ∨ ∃ eh, grant_at p eh f ∧ ¬ committed eh f.

Definition cleaned s s' (r : result WriterError ReconciliationOutcomeV1) : Prop :=
  T s' = T s ∧ same_entries (w_keys (wr_world s)) (w_keys (wr_world s')) ∧
  (∀ p, F s' !! p = F s !! p ∨ F s' !! p = None ∧ removable (F s) p ∧ unmarked (T s)) ∧
  match r with
  | Ok NotProven => ¬ unmarked (T s)
  | Ok (ReconciledV1 _ _) => ∀ p, is_staging_path p = true → F s' !! p = None
  | Err _ => True
  end.

Lemma cleaned_calm s s1 s2 r : calm s s1 → cleaned s1 s2 r → cleaned s s2 r.
Proof.
  intros [Ht Hk Hf _] (Ht2 & Hk2 & Hf2 & Hr). rewrite Ht in *. rewrite Hf in *. split; [done|]. split; [|done].
  intros g. by rewrite Hk2.
Qed.

(** The orphans the code finds are grants without a committed entry. *)
Lemma orphans_removable b b' blobs p :
  visit_blobs b = (b', Ok blobs) →
  p ∈ fst <$> filter (λ g : str * EntryHash, g.2 ∉ committed_entries decode_exact_object blobs) (found_grants decode_exact_object blobs) →
  removable (files b) p.
Proof.
  intros [_ Hv]%visit_law. destruct (Hv _ eq_refl) as [Hsound Hcomplete].
  intros ([q eh] & -> & Hin)%list_elem_of_fmap. apply list_elem_of_filter in Hin as [Hno Hin]. cbn in *.
  unfold found_grants in Hin. apply list_elem_of_omap in Hin as ([p x] & Hin & Hx). cbn [fst snd] in Hx.
  destruct (is_staging_path p); [done|]. destruct (decode_exact_object x) as [[]|] eqn:Ex; try done.
  destruct (starts_with GRANTS_DIR_V1 p) eqn:Eg; [|done]. injection Hx as <- <-.
  right. eexists. split; [eexists x, _; split_and!; [by apply Hsound|done|done|done]|].
  intros (q & y & e & Hp & Hs & Hsl & He & Heh). apply Hno. unfold committed_entries. apply list_elem_of_omap.
  exists (q, y). split; [by apply Hcomplete|]. cbn. by rewrite Hs, He, Heh.
Qed.

(** The removals, once nothing is pending. *)
Lemma wwp_removals s :
  unmarked (T s) →
  wwp (staging ← (λ s, let '(b, r) := staged_paths (wr_archive s) in (with_archive b s, map_err Wr.FromBackend r));
       blobs ← read_blobs;
       _ ← w_each remove_path staging;
       let orphans := filter (λ g, g.2 ∉ committed_entries decode_exact_object blobs) (found_grants decode_exact_object blobs) in
       _ ← w_each (λ g, remove_path g.1) orphans;
       mret (ReconciledV1 (length staging) (length orphans))) (cleaned s) s.
Proof.
  intros Hum. assert (∀ s' e, (∃ b, s' = with_archive b s) → (∀ p, F s' !! p = F s !! p ∨ F s' !! p = None ∧ removable (F s) p) →
    cleaned s s' (Err e)) as HE.
  { intros s' e [b ->] Hp. split_and!; try done. intros p. destruct (Hp p) as [?|[? ?]]; auto. }
  apply wwp_bind. unfold wwp at 1. destruct (staged_paths (wr_archive s)) as [b r] eqn:Est. cbn [fst snd].
  apply staged_law in Est as [E1 Hst]. destruct r as [staging|e]; cbn [map_err].
  2: { apply HE; [by exists b|]. cbn. rewrite E1. by left. }
  specialize (Hst _ eq_refl). apply wwp_bind, wwp_read_blobs. cbn [wr_archive with_archive]. intros b2 r Hv.
  pose proof (visit_law _ _ _ Hv) as [E2 _]. rewrite E1 in E2. destruct r as [blobs|e]; cbn [map_err].
  2: { apply HE; [exists b2; by destruct s|]. cbn. rewrite E2. by left. }
  assert (∀ p, p ∈ staging → removable (F s) p) as Hs1 by (intros p Hp; left; by apply Hst).
  assert (∀ p, p ∈ fst <$> filter (λ g : str * EntryHash, g.2 ∉ committed_entries decode_exact_object blobs)
    (found_grants decode_exact_object blobs) → removable (F s) p) as Hs2.
  { intros p Hp. rewrite <- E1. by eapply orphans_removable. }
  set (s2 := with_archive b2 (with_archive b s)). assert (F s2 = F s) as EF by done.
  assert (∀ l s', pruned l s2 s' → (∀ p, p ∈ l → removable (F s) p) → (∃ b, s' = with_archive b s) ∧
    ∀ p, F s' !! p = F s !! p ∨ F s' !! p = None ∧ removable (F s) p) as HP.
  { intros l s' [[b' ->] Hp] Hl. split; [exists b'; by destruct s|]. intros p. rewrite <- EF.
    destruct (Hp p) as [?|[? ?]]; [by left|right; rewrite EF; auto]. }
  apply wwp_bind. eapply wwp_mono; [apply (wwp_remove_all id)|]. rewrite list_fmap_id. intros s3 r [H3 Hok3].
  destruct r as [[]|e]; [|destruct (HP _ _ H3 Hs1); by apply HE]. specialize (Hok3 eq_refl).
  apply wwp_bind. eapply wwp_mono; [apply (wwp_remove_all fst)|]. intros s4 r [H4 _].
  pose proof (pruned_trans _ _ _ _ _ H3 H4) as H34.
  destruct (HP _ _ H34) as [Hb4 Hp4]; [intros p [?|?]%elem_of_app; auto|].
  destruct r as [[]|e]; [|by apply HE]. apply wwp_ret. destruct Hb4 as [b4 ->].
  split_and!; [done|done|intros p; destruct (Hp4 p) as [?|[? ?]]; auto|]. intros p Hp.
  destruct (proj2 H4 p) as [->|[-> _]]; [|done]. destruct (F s !! p) as [x|] eqn:Ep.
  - apply Hok3, Hst. by rewrite Ep.
  - destruct (proj2 H3 p) as [->|[-> _]]; [by rewrite EF|done].
Qed.

Lemma wwp_reconcile s :
  t_draft (T s) ≠ None →
  wwp (reconcile_to_completion decode_exact_object evidence stale_store) (cleaned s) s.
Proof.
  intros Hd. assert (∀ s' e, calm s s' → cleaned s s' (Err e)) as HE.
  { intros s' e [Ht Hk Hf _]. split_and!; [done..| |done]. rewrite Hf. by left. }
  unfold reconcile_to_completion. apply wwp_locks; [intros; apply HE, calm_refl|].
  set (s1 := with_world (Draft.set_locked (wr_world s) true) (with_lock true s)).
  eapply (wwp_mono _ (cleaned s)); [|by intros s' r].
  apply wwp_bind, wwp_draft. eapply wp_reads; [apply reads_marker|by intros; apply HE; split|]. intros fs m [_ Hm]. cbn [map_err].
  set (s2 := with_world (read_world (wr_world s1) fs) s1). assert (calm s s2) as H2 by (by split).
  case_bool_decide as Hs.
  { apply wwp_ret. split_and!; [done|done|by left|]. intros Hum. apply (unmarked_select _ _ Hm) in Hum as ->. by destruct Hs. }
  assert (unmarked (T s)) as Hum by (apply (unmarked_select _ _ Hm); by apply eq_None_not_Some).
  apply wwp_bind. eapply wwp_mono; [apply calms_unmarked_claims; done|]. intros s3 r H3.
  pose proof (calm_trans _ _ _ H2 H3) as H23. destruct r as [[]|e]; [|by apply HE].
  eapply wwp_mono; [apply wwp_removals; by rewrite (ca_tables _ _ H23)|]. intros s4 r. by apply cleaned_calm.
Qed.

(** A staging file at the root of the archive has no address. *)
Lemma rootless_path p : slash ∉ p → is_ok (reconciled_path p) = false.
Proof.
  intros Hp. unfold reconciled_path. destruct (split_once slash p) as [[d n]|] eqn:E; [|done]. apply split_once_eq in E.
  destruct Hp. rewrite E. apply elem_of_app. right. apply elem_of_cons. by left.
Qed.

Lemma wwp_remove_all_addressed l s :
  wwp (w_each (remove_path (K:=K)) l) (λ _ r, r = Ok tt → ∀ p, p ∈ l → is_ok (reconciled_path p) = true) s.
Proof.
  eapply wwp_mono; [apply (wwp_each _ (λ _, True) (λ p _, is_ok (reconciled_path p) = true)); [|done]|by intros s' r (_ & ? & _)].
  intros p s1 _ _. unfold remove_path. apply wwp_bind, wwp_lift. destruct (reconciled_path p) as [a|e] eqn:Ea; cbn [map_err].
  - apply wwp_run. by intros.
  - done.
Qed.

(** A clean-up that completes has removed every staged file; so one file at the
    root that ends like a staging file keeps every clean-up from completing. *)
Theorem rootless_staging_blocks_cleanup s p :
  is_staging_path p = true → slash ∉ p → is_Some (F s !! p) → t_draft (T s) ≠ None →
  wwp (reconcile_to_completion decode_exact_object evidence stale_store) (λ _ r, ∀ a b, r ≠ Ok (ReconciledV1 a b)) s.
Proof.
  intros Hst Hsl Hp Hd. unfold reconcile_to_completion. apply wwp_locks; [done|].
  apply wwp_bind, wwp_draft. eapply wp_reads; [apply reads_marker|done|]. intros fs m _. cbn [map_err].
  case_bool_decide; [by apply wwp_ret|]. apply wwp_bind. eapply wwp_mono; [by apply calms_unmarked_claims|].
  intros s1 [[]|e] H1; [|done]. apply wwp_bind. unfold wwp at 1.
  destruct (staged_paths (wr_archive s1)) as [b [l|e]] eqn:El; cbn [map_err fst snd]; [|done].
  apply staged_law in El as [_ Hl]. specialize (Hl _ eq_refl p).
  apply wwp_bind, wwp_read_blobs. cbn [wr_archive with_archive]. intros b2 [blobs|e] _; cbn [map_err]; [|done].
  apply wwp_bind. eapply wwp_mono; [apply wwp_remove_all_addressed|]. intros s2 [[]|e] Ha; [|done].
  specialize (Ha eq_refl p). rewrite (rootless_path p Hsl) in Ha. exfalso. discriminate Ha. apply Hl. split; [done|].
  pose proof (ca_files _ _ H1) as E. by rewrite E.
Qed.

(** C16. The clean-up removes nothing while a marker lies; without one it
    removes only staged files and grants whose entry is not in the archive, and
    when it completes, no staged file is left. Draft and keys stay. *)
Theorem cleanup_removes_only_leftovers s :
  t_draft (T s) ≠ None → wwp (reconcile_to_completion decode_exact_object evidence stale_store) (cleaned s) s.
Proof. apply wwp_reconcile. Qed.
End Cleanup.

(** ** Restarts *)

Section Recovery.
Context {K B : Type} `{HKp : KeyProvider K} `{!KeyProviderLaws K} `{!KeyProviderOnly K} `{HA : AeadCipher} `{HPr : Primitives}
  `{HB : ArchiveBackend B} `{!ArchiveBackendLaws B} `{HS : !ArchiveStore B} `{!ArchiveStoreLaws B} `{HN : NumberPrimitives}
  `{HM : Minicbor}.
Implicit Types s : Writer K B.
Context (decode_exact_object : list byte → result FormatError Object) (Hexact : keeps_bytes decode_exact_object).
Context (prepared_evidence_valid : option EvidenceDraftSource → list byte → Writer K B → bool).
Context (evidence : option EvidenceDraftBinding) (stale_store : bool).
Context (t : PreparedTransactionV1) (Hq : 0 ≤ pt_sequence t) (Hnd : NoDup (pt_grant_object_hashes t)).
Context (h : KeyHandle) (old : secret) (d0 : nat).

Abbreviation T s := (w_tables (wr_world s)).
Abbreviation F s := (files (wr_archive s)).
Abbreviation carried := (carried t h old d0).
Abbreviation gone := (gone h d0).
Abbreviation held := (held h old).
Abbreviation finished := (finished t h d0).

(** *** Recovery *)

(** What the outcome of loading the row says of the key. *)
Definition load_says (k : K) (sr : StoredDraftRow) (r : result DraftError DraftV) : Prop :=
  let opens x := aead_open x (sr_nonce sr) (sr_ciphertext sr) (associated_data (sr_draft_id sr) (sr_revision sr)) in
  match r with
  | Ok _ => ∃ x notes, KeyStore.entries k (sr_handle sr) = Some x ∧ opens x = Ok notes
  | Err (DraftErr.FromKey Key.NotFound) => KeyStore.entries k (sr_handle sr) = None
  | Err (DraftErr.FromCrypto Crypto.AeadOpen) =>
      ∃ x, KeyStore.entries k (sr_handle sr) = Some x ∧ opens x = Err Crypto.AeadOpen
  | Err _ => True
  end.

Lemma wp_load_says ev row sr w :
  t_draft (w_tables w) = Some row → stored_row row = Some sr →
  wp (load_or_create ev) (λ _ r, load_says (w_keys w) sr r) w.
Proof.
  intros Hrow Hst. assert (∀ e, local_error e → load_says (w_keys w) sr (Err e)) as HL by (by intros []).
  apply wp_creating; [by auto|]. intros fs Hev. apply wp_bind.
  eapply wp_reads; [apply reads_row|intros fs' e He; split; [|done]; intros ??? _ [?| [= <-]]; by apply HL|].
  intros fs' [sr'|]; cbn; [|congruence]. intros (row' & Hr' & Hst'). rewrite Hrow in Hr'. injection Hr' as <-.
  rewrite Hst in Hst'. injection Hst' as <-.
  eapply (wp_mono _ (λ _ r, load_says (w_keys w) sr r)).
  - unfold load_row. apply wp_bind, wp_on_keys; cbn.
    + intros k e (_ & _ & Hn)%unwrap_law. destruct e; try done. by apply Hn.
    + intros k x (_ & Hd & _)%unwrap_law. specialize (Hd _ eq_refl). apply wp_bind, wp_crypto.
      * intros e He. destruct e; try done. by exists x.
      * intros m Hm. apply wp_bind, wp_payload; [done|]. intros n _. apply wp_ret. by exists x, m.
  - intros w' r HP. split; [intros ??? _ [?| ->]; [by apply HL|done]|by intros d fs2 ->].
Qed.

(** No key that is drawn later opens what was sealed with [old]. *)
Definition foreign : Prop := ∀ i x nonce notes ad c,
  (d0 ≤ i)%nat → random i 32 = Some x → aead_seal old nonce notes ad = Ok c → aead_open x nonce c ad = Err Crypto.AeadOpen.

Context {HAL : AeadLaws} (Hforeign : foreign).

Lemma wwp_original_draft s :
  carried s → wwp (original_draft evidence) (λ s' r, quiet s s' ∧ match r with
    | Ok (Some _) => held s' ∧ unpublished t (F s') | Ok None => gone s' | Err _ => True end) s.
Proof.
  intros Hc. destruct (cy_draft _ _ _ _ _ Hc) as (row & sr & notes & Hrow & Hst & Hh & Hseal).
  unfold original_draft. apply wwp_bind, wwp_try_draft.
  eapply wp_mono; [apply wp_and; [apply wp_load_there; by rewrite Hrow|by apply (wp_load_says _ row sr)]|].
  intros w r [(Ht & Hk & Hd) Hr]. set (s1 := with_world w s).
  assert (quiet s s1) as H1 by (by repeat split). unfold load_says in Hr. rewrite Hh in Hr.
  destruct r as [d|e].
  - apply wwp_ret. split; [done|]. destruct Hr as (x & m & Hx & Ho).
    destruct (cy_key _ _ _ _ _ Hc) as [Hg|[Hhe Hu]]; [|split; [by eapply held_same|done]].
    destruct (Hg x Hx) as (i & Hi & Hxi). rewrite (Hforeign _ _ _ _ _ _ Hi Hxi Hseal) in Ho. done.
  - assert ((∀ x, KeyStore.entries (w_keys (wr_world s)) h = Some x → x ≠ old) → gone s1) as HG.
    { intros Hne. destruct (cy_key _ _ _ _ _ Hc) as [Hg|[Hhe _]]; [by eapply gone_same|]. by destruct (Hne old). }
    destruct e as [| | | | | | | | | | | | | | | |ce|ke|se]; try (by apply wwp_fail).
    + destruct ce; try (by apply wwp_fail). apply wwp_ret. split; [done|]. apply HG. intros x Hx ->.
      destruct Hr as (y & Hy & Ho). rewrite Hx in Hy. injection Hy as <-. by rewrite (open_seal _ _ _ _ _ Hseal) in Ho.
    + destruct ke; try (by apply wwp_fail). apply wwp_ret. split; [done|]. apply HG. intros x Hx. congruence.
Qed.

(** The draft is back: its row and its key are as they were, the marker is
    gone, and nothing was published. *)
Record restored s s' : Prop := {
  rs_tables : T s' = set_transition None (T s);
  rs_key : held s';
  rs_files : F s' = F s;
  rs_unpublished : unpublished t (F s');
}.

Definition recovered s s' (r : result WriterError RecoveryOutcome) : Prop :=
  match r with
  | Ok NothingPending => False
  | Ok (DraftRestored q) => q = pt_sequence t ∧ restored s s'
  | Ok (CommittedFromPreparedBytes q) => q = pt_sequence t ∧ finished s'
  | Err _ => carried s'
  end ∧ (held s' ∨ j_numbers (wr_journal s') = j_numbers (wr_journal s)).

Lemma recovered_calm_after s s1 s2 r :
  recovered s s1 r → calm s1 s2 → j_numbers (wr_journal s2) = j_numbers (wr_journal s1) → recovered s s2 r.
Proof.
  intros [Hr Hn] Hc Hj. split; [|destruct Hn as [Hh|Hn]; [left; by eapply held_same; [apply Hc|]|right; congruence]].
  destruct r as [[|q|q]|e]; [done|..|by eapply carried_calm].
  - destruct Hr as [-> [Ht Hk Hf Hu]]. split; [done|]. destruct Hc as [Ht' Hk' Hf' _].
    split; [congruence|by eapply held_same|congruence|by rewrite Hf'].
  - destruct Hr as [-> [Hp Hm Hg (b & Hb & Hbl)]]. split; [done|]. destruct Hc as [Ht Hk Hf _].
    split; [by rewrite Hf|by rewrite Ht|by eapply gone_same|]. exists b. rewrite Ht. split; [done|].
    destruct Hbl as (sr & x & ? & ? & ? & ?). exists sr, x. by rewrite Hk.
Qed.

Lemma recovered_calm_before s s1 s2 r :
  calm s s1 → j_numbers (wr_journal s1) = j_numbers (wr_journal s) → recovered s1 s2 r → recovered s s2 r.
Proof.
  intros [Ht _ Hf _] Hj [Hr Hn]. split; [|destruct Hn; [by left|right; congruence]].
  destruct r as [[|q|q]|e]; try done. destruct Hr as [-> [Ht' Hk' Hf' Hu']]. split; [done|]. split; congruence || done.
Qed.

(** The draft still opens: its claims are released and the marker goes. *)
Lemma wwp_restore s d :
  carried s → held s → unpublished t (F s) →
  wwp (_ ← recover_original_claims evidence;
       _ ← (if stale_store then recover_reversible_claims d else mret tt);
       _ ← on_draft (replace_prepared_finalization_marker evidence None);
       mret (DraftRestored (pt_sequence t))) (recovered s) s.
Proof.
  intros Hc Hh Hu.
  assert (∀ s' e, calm s s' → recovered s s' (Err e)) as HE.
  { intros s' e H1. split; [by eapply carried_calm|left; by eapply held_same; [apply H1|]]. }
  assert (∀ s', calm s s' → t_draft (T s') ≠ None) as HD.
  { intros s' H1. rewrite (ca_tables _ _ H1). eapply drafted_row, cy_draft, Hc. }
  apply wwp_bind. eapply wwp_mono; [apply calms_recover_original, HD, calm_refl|]. intros s1 r H1.
  destruct r as [[]|e]; [|by apply HE].
  apply wwp_bind. eapply wwp_mono; [instantiate (1 := λ s' _, calm s s')|].
  { eapply wwp_mono; [destruct stale_store; [apply calms_recover_reversible|apply calms_ret]; by apply HD|].
    intros s2 r H2. by eapply calm_trans. }
  intros s2 r H2. destruct r as [[]|e]; [|by apply HE]. clear H1 s1.
  apply wwp_bind, wwp_draft. eapply wp_mono; [apply wp_replace_marker|]. intros w r (Hk & Hd & Hw).
  destruct r as [u|e]; cbn [map_err].
  - apply wwp_ret. destruct Hw as [_ Hw]. destruct H2 as [Ht2 Hk2 Hf2 _].
    assert (held (with_world w s2)) as Hh2 by (red; cbn; rewrite Hk, Hk2; exact Hh).
    split; [split; [done|]|by left]. split; cbn; [|done|done|by rewrite Hf2].
    rewrite Hw. unfold marked_tables. rewrite Ht2, (cy_marker _ _ _ _ _ Hc). done.
  - apply HE. eapply calm_trans; [exact H2|]. split; cbn; [done|by intros g; rewrite Hk|done|lia].
Qed.

Context {HML : MinicborLaws} (Hsized : marker_sized t).

Lemma wwp_recover_marked s bound :
  carried s →
  wwp (recover_marked decode_exact_object prepared_evidence_valid evidence stale_store bound (encode_marker t)) (recovered s) s.
Proof.
  intros Hc. unfold recover_marked.
  assert (∀ s' e, quiet s s' → recovered s s' (Err e)) as HE.
  { intros s' e H1. split; [by eapply carried_calm; [apply H1|]|right; by apply H1]. }
  apply wwp_bind, wwp_lift. rewrite (decode_encode_marker t Hsized).
  apply wwp_bind, wwp_lift. destruct (verify_marker _ _ _) as [[]|e]; [|by apply HE; split; [apply calm_refl|]].
  apply wwp_bind, wwp_quiet; [destruct bound; [apply quiets_require_evidence|apply quiets_ret]|eapply drafted_row, cy_draft, Hc|].
  intros s1 r H1. destruct r as [[]|e]; [|by apply HE]. pose proof (carried_calm t h old d0 s s1 (proj1 H1) Hc) as Hc1.
  apply wwp_bind. eapply wwp_mono; [by apply wwp_original_draft|]. intros s2 r [H2 Hr].
  pose proof (quiet_trans _ _ _ H1 H2) as H12. pose proof (carried_calm t h old d0 s s2 (proj1 H12) Hc) as Hc2.
  destruct r as [[d|]|e]; [| |by apply HE].
  - destruct Hr as [Hh Hu]. eapply wwp_mono; [by apply wwp_restore|]. intros s3 r.
    apply recovered_calm_before; [apply H12|apply H12].
  - apply wwp_bind. eapply wwp_mono; [by apply (wwp_publish_from_prepared decode_exact_object Hexact prepared_evidence_valid evidence t Hq Hnd h old d0 s2)|]. intros s3 r [[Hn _] Hr3].
    destruct r as [st|e]; [|split; [apply Hr3|right; destruct H12 as (_ & ? & _); congruence]].
    apply wwp_ret. destruct Hr3 as (Hp & _ & Hst). rewrite (Hst eq_refl) in Hp. split; [done|]. right. destruct H12 as (_ & ? & _). congruence.
Qed.

Lemma reads_source : reads (K:=K) (evidence_draft_source evidence) (λ _ _, True).
Proof.
  unfold evidence_draft_source, check_evidence_access.
  eapply (reads_bind _ _ (λ _ _, True) (λ _ _ _, True)); [eapply reads_mono; [apply reads_transaction, reads_access|done]| |done].
  intros []. by apply reads_ret.
Qed.

Lemma wwp_recover_pending s expected :
  carried s →
  wwp (recover_pending_bound decode_exact_object prepared_evidence_valid evidence stale_store expected) (recovered s) s.
Proof.
  intros Hc. assert (∀ s' e, quiet s s' → recovered s s' (Err e)) as HE.
  { intros s' e H1. split; [by eapply carried_calm; [apply H1|]|right; by apply H1]. }
  unfold recover_pending_bound. apply wwp_locks; [intros e; by apply HE; split; [apply calm_refl|]|].
  set (s1 := with_world (Draft.set_locked (wr_world s) true) (with_lock true s)).
  assert (quiet s s1) as H1 by (by repeat split).
  eapply (wwp_mono _ (recovered s)); [|intros s' r Hr; by eapply recovered_calm_after].
  apply wwp_bind, wwp_draft. eapply wp_reads; [apply reads_source|by intros; apply HE|]. intros fs bound _. cbn [map_err].
  set (s2 := with_world (read_world (wr_world s1) fs) s1). assert (quiet s s2) as H2 by (by repeat split).
  destruct (_ && _); [by apply wwp_fail, HE|].
  apply wwp_bind, wwp_draft. eapply wp_reads; [apply reads_marker|by intros; apply HE|]. intros fs' m [_ Hm]. cbn [map_err].
  set (s3 := with_world (read_world (wr_world s2) fs') s2). assert (quiet s s3) as H3 by (by repeat split).
  cbn in Hm. rewrite (cy_table _ _ _ _ _ Hc) in Hm. unfold select_marker, select_transition in Hm. cbn in Hm.
  rewrite (cy_table _ _ _ _ _ Hc), (cy_marker _ _ _ _ _ Hc) in Hm. injection Hm as <-.
  eapply wwp_mono; [apply wwp_recover_marked; by eapply carried_calm; [apply H3|]|].
  intros s4 r. apply recovered_calm_before; apply H3.
Qed.

(** *** The claims of a draft that is given back *)

Lemma wwp_recover_frees s expected :
  wwp (recover_pending_bound decode_exact_object prepared_evidence_valid evidence stale_store expected) (λ s' r,
    ∀ q, r = Ok (DraftRestored q) → claims_freed stale_store s s') s.
Proof.
  destruct (t_draft (T s)) as [row|] eqn:Hrow.
  2: { apply wwp_run. intros s' r _ q _ row Hr. congruence. }
  unfold recover_pending_bound. apply wwp_locks; [done|].
  apply wwp_bind, wwp_draft. eapply wp_reads; [apply reads_source|done|]. intros fs bound _. cbn [map_err].
  destruct (_ && _); [done|].
  apply wwp_bind, wwp_draft. eapply wp_reads; [apply reads_marker|done|]. intros fs' m _. cbn [map_err].
  destruct m as [m|].
  2: { apply wwp_bind, wwp_run. intros s' [[]|e] _; [by apply wwp_ret|done]. }
  unfold recover_marked. apply wwp_bind, wwp_lift. destruct (decode_marker m) as [u|e]; [|done].
  apply wwp_bind, wwp_lift. destruct (verify_marker _ _ _) as [[]|e]; [|done].
  set (s1 := with_world _ _). apply wwp_bind. eapply (wwp_mono _ (λ s2 _, s2 = s1)).
  { destruct bound; [|done]. unfold wwp, require_evidence. done. }
  intros s2 [[]|e] ->; [|done].
  apply wwp_bind. unfold original_draft. apply wwp_bind, wwp_try_draft. eapply wp_mono; [by apply (wp_load_describes evidence row)|].
  intros w [d|e] [Ht Hd]; cbn.
  - eapply wwp_mono; [eapply (wwp_restore_frees _ _ d row); [cbn; by rewrite Ht|by apply Hd]|].
    intros s3 r H3 q -> row' Hr'. rewrite Hrow in Hr'. injection Hr' as <-. apply (H3 eq_refl row). cbn. by rewrite Ht.
  - repeat case_match; try done; apply wwp_bind, wwp_run; intros s3 [st|e'] _; done.
Qed.

(** *** Any number of restarts *)

(** Without a marker a restart leaves draft, keys and archive alone. *)
Lemma wwp_recover_unmarked s expected :
  unmarked (T s) → t_draft (T s) ≠ None →
  wwp (recover_pending_bound decode_exact_object prepared_evidence_valid evidence stale_store expected) (λ s' _, calm s s') s.
Proof.
  intros Hm Hd. unfold recover_pending_bound. apply wwp_locks; [intros; apply calm_refl|].
  set (s1 := with_world (Draft.set_locked (wr_world s) true) (with_lock true s)).
  assert (calm s s1) as H1 by (by split).
  eapply (wwp_mono _ (λ s' _, calm s s')); [|intros s' r Hr; by eapply calm_trans; [exact Hr|split]].
  apply wwp_bind, wwp_draft. eapply wp_reads; [apply reads_source|by intros; split|]. intros fs bound _. cbn [map_err].
  destruct (_ && _); [by apply wwp_fail|].
  apply wwp_bind, wwp_draft. eapply wp_reads; [apply reads_marker|by intros; split|]. intros fs' m [_ Hs]. cbn [map_err].
  apply unmarked_select in Hs. rewrite (proj1 Hs Hm). apply wwp_bind.
  eapply wwp_mono; [by apply calms_unmarked_claims|]. intros s2 r H2.
  assert (calm s s2) as H12 by (eapply calm_trans; [|exact H2]; by split). by destruct r as [[]|e].
Qed.

(** A new process over the same stores: its memory is empty, and which of its
    statements will fail is open. *)
Definition restart (fs : list bool) s : Writer K B :=
  with_claimed None (with_lock false (with_world (set_created (Draft.set_locked (read_world (wr_world s) fs) false) None) s)).

Lemma restart_calm fs s : calm s (restart fs s).
Proof. by split. Qed.

(** A run of the second half on the transaction [t], and then restarts. *)
Inductive history s : Writer K B → Prop :=
| History_run claim identity built stop :
    (∀ u, built = Ok u → u = t) →
    history s (run decode_exact_object prepared_evidence_valid evidence stale_store claim identity built stop s).1
| History_restart fs expected s' :
    history s s' →
    history s (recover_pending_bound decode_exact_object prepared_evidence_valid evidence stale_store expected (restart fs s')).1.

(** The draft is as it was and nothing is published. *)
Record kept_draft s : Prop := {
  kd_draft : drafted h old (T s);
  kd_marker : unmarked (T s);
  kd_key : held s;
  kd_files : unpublished t (F s);
}.

Definition resolved s : Prop := kept_draft s ∨ carried s ∨ finished s.

Lemma resolved_calm s s' : calm s s' → resolved s → resolved s'.
Proof.
  intros Hc [Hk|[Hk|Hk]]; [left|right; left; by eapply carried_calm|right; right].
  - destruct Hk, Hc as [Ht Hk Hf _]. split; [by rewrite Ht|by rewrite Ht|by eapply held_same|by rewrite Hf].
  - destruct Hk as [Hp Hm Hg (b & Hb & sr & x & ? & ? & Hx & ?)], Hc as [Ht Hk Hf _].
    split; [by rewrite Hf|by rewrite Ht|by eapply gone_same|]. exists b. rewrite Ht. split; [done|]. exists sr, x. by rewrite Hk.
Qed.

Lemma run_resolved s s' r :
  ready t h old d0 s → unmarked (T s) → ended t h old d0 s s' r → resolved s'.
Proof.
  intros Hrd Hum He. assert (reversible t s s' → resolved s') as HR.
  { intros Hr. left. split; [rewrite (rv_tables _ _ _ Hr); apply Hrd|by rewrite (rv_tables _ _ _ Hr)|
      eapply reversible_held; [exact Hr|apply Hrd]|eapply reversible_unpublished; [done|exact Hr|apply Hrd]]. }
  destruct r as [st|e]; [|destruct He as [He|He]; [by apply HR|by right; left]].
  destruct He as [Hp _]. destruct (rs_phase st); cbn in Hp; [by apply HR|right; left; apply Hp..|by right; right].
Qed.

Lemma recover_resolved s expected :
  resolved s →
  resolved (recover_pending_bound decode_exact_object prepared_evidence_valid evidence stale_store expected s).1.
Proof.
  intros Hs. assert (unmarked (T s) → t_draft (T s) ≠ None → resolved
    (recover_pending_bound decode_exact_object prepared_evidence_valid evidence stale_store expected s).1) as HU.
  { intros Hm Hd. eapply resolved_calm, Hs. by apply (wwp_recover_unmarked s expected). }
  destruct Hs as [Hs|[Hs|Hs]].
  - apply HU; [apply Hs|eapply drafted_row, Hs].
  - pose proof (wwp_recover_pending s expected Hs) as Hr. unfold wwp in Hr.
    destruct (recover_pending_bound _ _ _ _ _ s) as [s' r]. cbn in *. destruct Hr as [Hr _].
    destruct r as [[|q|q]|e]; [done|left|right; right; apply Hr|by right; left].
    destruct Hr as [_ [Ht Hk Hf Hu]]. split; [|unfold unmarked; rewrite Ht; cbn; by destruct (t_discard_migration _)|done|done].
    rewrite Ht. destruct (cy_draft _ _ _ _ _ Hs) as (row & sr & n & ?). by exists row, sr, n.
  - apply HU; [unfold unmarked; rewrite (fi_marker _ _ _ _ Hs); by destruct (t_discard_migration _)|]. destruct (fi_blank _ _ _ _ Hs) as (b & -> & _). done.
Qed.

Lemma history_resolved s s' : ready t h old d0 s → unmarked (T s) → history s s' → resolved s'.
Proof.
  intros Hrd Hum. induction 1 as [claim identity built stop Hb|fs expected s' _ IH].
  - eapply run_resolved; [done|done|]. by apply (wwp_run_ends decode_exact_object Hexact prepared_evidence_valid evidence stale_store t Hq Hnd h old d0 s claim identity built stop Hrd Hb).
  - apply recover_resolved. eapply resolved_calm, IH. apply restart_calm.
Qed.

(** What is published of the entry tells that the key is gone. *)
Lemma resolved_entry s :
  resolved s → is_Some (F s !! as_str (entry_path t)) → gone s ∧ ∀ o, o ∈ prepared_grants t → published (F s) o.
Proof.
  intros [Hs|[Hs|Hs]] He.
  - destruct Hs as [_ _ _ Hu]. destruct He as [x Hx]. specialize (Hu _ (entry_prepared t)). unfold target_of in Hu. cbn [fst] in Hu. congruence.
  - split; [|by apply Hs]. destruct (cy_key _ _ _ _ _ Hs) as [?|[_ Hu]]; [done|]. destruct He as [x Hx].
    specialize (Hu _ (entry_prepared t)). unfold target_of in Hu. cbn [fst] in Hu. congruence.
  - split; [apply Hs|]. intros o Ho. apply Hs, elem_of_prepared. by left.
Qed.

(** *** A restart in which nothing fails *)

(** An archive that answers for the objects of the transaction, as long as [J]
    holds. *)
Record archive_answers (J : B → Prop) : Prop := {
  aa_rename : ∀ o b, o ∈ prepared_objects t → J b → files b !! staged_at o = Some o.2 → files b !! target_of o = None →
    ∃ b', atomic_rename_same_fs (staging_of o.1) o.1 b = (b', Ok tt);
  aa_rename_any : ∀ o b, o ∈ prepared_objects t → J b → J (atomic_rename_same_fs (staging_of o.1) o.1 b).1;
  aa_visit : ∀ b, J b → ∃ b' l, visit_blobs b = (b', Ok l) ∧ J b';
  aa_create : ∀ o b, o ∈ prepared_objects t → J b → published (files b) o →
    ∃ b', create_if_absent o.1 o.2 b = (b', Ok tt) ∧ J b';
  aa_sync_file : ∀ o b, o ∈ prepared_objects t → J b → published (files b) o →
    ∃ b', sync_file o.1 b = (b', Ok tt) ∧ J b';
  aa_sync_directory : ∀ p b, p = entry_path t ∨ p ∈ grant_path t <$> pt_grant_object_hashes t → J b →
    ∃ b', sync_directory p b = (b', Ok tt) ∧ J b';
}.

Section Healthy.
Context (I : K → Prop) (J : B → Prop).
Context (HI : keys_answer I) (HP : primitives_answer) (HJ : archive_answers J).

Definition healthy s : Prop := w_faults (wr_world s) = [] ∧ I (w_keys (wr_world s)) ∧ J (wr_archive s).

(** [m] succeeds from [s], and the stores still answer. *)
Definition works {A} (m : wm K B A) s (Q : Writer K B → A → Prop) : Prop :=
  healthy s → ∃ s' a, m s = (s', Ok a) ∧ healthy s' ∧ Q s' a.

Lemma w_bind_run {A C} (m : wm K B A) (k : A → wm K B C) s s' a : m s = (s', Ok a) → (m ≫= k) s = k a s'.
Proof. unfold mbind, wm_bind. by intros ->. Qed.

Lemma works_bind {A C} (m : wm K B A) (k : A → wm K B C) s P Q :
  works m s P → (∀ s' a, P s' a → works (k a) s' Q) → works (m ≫= k) s Q.
Proof. intros Hm Hk Hs. destruct (Hm Hs) as (s' & a & Hr & Hs' & Ha). rewrite (w_bind_run _ _ _ _ _ Hr). by apply Hk. Qed.

Lemma works_mono {A} (m : wm K B A) s (P Q : Writer K B → A → Prop) :
  works m s P → (∀ s' a, P s' a → Q s' a) → works m s Q.
Proof. intros Hm HQ Hs. destruct (Hm Hs) as (s' & a & ? & ? & ?). exists s', a. by split_and!; auto. Qed.

Lemma works_ret {A} (a : A) s (Q : Writer K B → A → Prop) : Q s a → works (mret a) s Q.
Proof. intros HQ Hs. by exists s, a. Qed.

Lemma works_lift {A} (r : result WriterError A) a s (Q : Writer K B → A → Prop) : r = Ok a → Q s a → works (w_lift r) s Q.
Proof. intros -> HQ Hs. by exists s, a. Qed.

Lemma works_draft {A} (m : dm K A) s Q R :
  succeeds I m (wr_world s) R → (∀ w a, R w a → Q (with_world w s) a) → works (on_draft m) s Q.
Proof.
  intros Hm HQ (Hf & Hk & Hj). destruct (Hm Hf Hk) as (w & a & Hr & Hf' & Hk' & Ha). exists (with_world w s), a.
  unfold on_draft. rewrite Hr. by split_and!; auto.
Qed.

Lemma works_archive (m : step B) b s (Q : Writer K B → unit → Prop) :
  m (wr_archive s) = (b, Ok tt) → J b → Q (with_archive b s) tt → works (on_archive m) s Q.
Proof. intros Hm Hj HQ (Hf & Hk & _). exists (with_archive b s), tt. unfold on_archive. rewrite Hm. by split_and!. Qed.

Lemma works_wwp {A} (m : wm K B A) s (P Q : Writer K B → A → Prop) R :
  works m s P → wwp m R s → (∀ s' a, P s' a → R s' (Ok a) → Q s' a) → works m s Q.
Proof.
  intros Hm HR HQ Hs. destruct (Hm Hs) as (s' & a & Hr & Hs' & Ha). exists s', a.
  pose proof (proj1 (wwp_run _ _ _) HR _ _ Hr). split_and!; auto.
Qed.

Lemma works_journal {A} (f : DraftTables → Journal → result WriterError (Journal * A)) j a s (Q : Writer K B → A → Prop) :
  f (T s) (wr_journal s) = Ok (j, a) → Q (with_journal j s) a → works (journal f) s Q.
Proof.
  intros Hf HQ (Hfs & Hk & Hj). exists (with_journal j s), a. split_and!; [|done..]. unfold journal. rewrite Hfs. cbn.
  rewrite Hf. repeat f_equal. destruct s as [[] ? ? ? ?]; cbn in *. by subst.
Qed.

Lemma works_each {A} (f : A → wm K B unit) (P : Writer K B → Prop) l s :
  (∀ x s, x ∈ l → P s → works (f x) s (λ s' _, P s')) → P s → works (w_each f l) s (λ s' _, P s').
Proof.
  revert s. induction l as [|x l IH]; intros s Hf Hs; cbn; [by apply works_ret|].
  eapply works_bind; [apply Hf; [by left|done]|]. intros s' [] Hs'. apply IH; [|done]. intros y s2 Hy. apply Hf. by right.
Qed.

Lemma target_slash o : o ∈ prepared_objects t → slash ∈ target_of o.
Proof.
  rewrite elem_of_prepared. intros [Ho|Ho].
  - destruct o as [p b]. apply elem_of_zip_l in Ho. apply list_elem_of_fmap in Ho as (x & -> & _).
    unfold target_of, as_str, grant_path. cbn [fst ArchivePath.value]. apply elem_of_app. left.
    apply (bool_decide_unpack _). vm_compute. constructor.
  - subst o. unfold target_of, as_str, entry_path. cbn [fst ArchivePath.value]. apply elem_of_app. left.
    apply (bool_decide_unpack _). vm_compute. constructor.
Qed.

(** An object that is published already is accepted again. *)
Lemma published_again_works o e s :
  o ∈ prepared_objects t → published (F s) o →
  works (published ← object_is_published o.1;
         if negb published then w_fail (Wr.FromBackend e) else on_archive (create_if_absent o.1 o.2)) s
    (λ s' _, ∃ b, s' = with_archive b s ∧ published (files b) o).
Proof.
  intros Ho Hp (Hf & Hk & Hj). pose proof (prepared_publishable t o Hq Ho) as (_ & _ & _ & Hns). fold (target_of o) in Hns.
  destruct (aa_visit J HJ _ Hj) as (b1 & l & Hv & Hb1). pose proof (visit_law _ _ _ Hv) as [E1 Hl1].
  destruct (Hl1 _ eq_refl) as [_ Hin]. specialize (Hin _ _ Hp Hns (target_slash o Ho)).
  destruct (aa_create J HJ o b1 Ho Hb1) as (b2 & Hc & Hb2); [rewrite E1; exact Hp|].
  pose proof (create_law _ _ _ _ _ Hc) as [_ Hok]. exists (with_archive b2 s), tt.
  split_and!; [|done..|exists b2; split; [done|by apply Hok]].
  unfold object_is_published, read_blobs. unfold mbind at 1, wm_bind at 1. unfold mbind at 1, wm_bind at 1.
  rewrite Hv. cbn [map_err].
  assert (existsb (λ p, bool_decide (p.1 = as_str o.1)) l = true) as Hex.
  { apply existsb_exists. exists (target_of o, o.2). split; [by apply list_elem_of_In|by apply bool_decide_eq_true_2]. }
  unfold mret, wm_ret. rewrite Hex. cbn [negb]. unfold on_archive. cbn [wr_archive with_archive]. rewrite Hc. by destruct s.
Qed.

Lemma publish_object_works o s :
  o ∈ prepared_objects t → laid t (F s) → works (publish_object o.1 o.2) s (λ _ _, True).
Proof.
  intros Ho Hl. pose proof (prepared_publishable t o Hq Ho) as (_ & _ & Hst & _).
  unfold publish_object. eapply (works_bind _ _ _ (λ s' p, s' = s ∧ p = staging_of o.1)); [eapply works_lift; [by rewrite Hst|done]|].
  intros ? ? [-> ->]. intros Hh. pose proof Hh as (Hf & Hk & Hj).
  assert (∀ b, published (files b) o → works (on_archive (sync_file o.1)) (with_archive b s) (λ _ _, True)) as Hsync.
  { intros b Hp Hhb. destruct (aa_sync_file J HJ o b Ho (proj2 (proj2 Hhb)) Hp) as (b' & Hr & Hb'). revert Hhb. by eapply works_archive. }
  destruct (atomic_rename_same_fs (staging_of o.1) o.1 (wr_archive s)) as [b r] eqn:Er.
  pose proof (aa_rename_any J HJ o _ Ho Hj) as Hb. rewrite Er in Hb. cbn in Hb.
  rewrite (w_bind_run _ _ _ (with_archive b s) r) by (unfold try_archive; by rewrite Er).
  assert (healthy (with_archive b s)) as Hhb by done. revert Hhb.
  pose proof (rename_law _ _ _ _ _ Er) as Hre. specialize (Hre (λ E, staged_not_target t Hq o o Ho E)).
  destruct r as [[]|e].
  - eapply (works_bind _ _ _ (λ s' _, s' = with_archive b s)); [by apply works_ret|]. intros ? [] ->. apply Hsync.
    destruct Hre as (x & Hx & Ht & E). unfold published, target_of. rewrite E.
    assert (x = o.2) as ->.
    { fold (staged_at o) in Hx. fold (target_of o) in Ht. destruct (Hl o Ho) as [Hp|[_ Hs]]; [unfold published in Hp; destruct Ht; congruence|congruence]. }
    by apply (moved_target t Hq Hnd o o (F s)); auto.
  - assert (published (F s) o) as Hp.
    { destruct (Hl o Ho) as [?|[Hn Hs]]; [done|]. destruct (aa_rename J HJ o _ Ho Hj Hs Hn) as (b' & Hr). congruence. }
    eapply works_bind; [apply published_again_works; [done|cbn; by rewrite Hre]|]. intros ? [] (b2 & -> & Hp2).
    replace (with_archive b2 (with_archive b s)) with (with_archive b2 s) by (by destruct s). by apply Hsync.
Qed.

Context (Hev : evidence = None) (Hvalid : ∀ s, prepared_evidence_valid None (pt_entry_bytes t) s = true).
Context (Hcons : consistent decode_exact_object t).

(** The archive has moved on from [s], and nothing else. *)
Definition moved_on s s' : Prop := laid t (F s') ∧ ∃ b, s' = with_archive b s.

Lemma moved_on_works (m : wm K B unit) l o s s1 :
  moved_on s s1 → works m s1 (λ _ _, True) → wwp m (λ s' r, advanced t l s1 s' ∧ (r = Ok tt → published (F s') o)) s1 →
  works m s1 (λ s' _, moved_on s s').
Proof.
  intros [_ [b ->]] Hw Hm. eapply works_wwp; [exact Hw|exact Hm|]. intros s' [] _ [[[b' ->] Hl _ _] _].
  split; [done|]. exists b'. by destruct s.
Qed.

Lemma publish_grant_works o s :
  o ∈ prepared_grants t → laid t (F s) → works (publish_grant decode_exact_object o) s (λ _ _, True).
Proof.
  intros Ho Hl. assert (o ∈ prepared_objects t) as Ho' by (apply elem_of_prepared; by left).
  assert (∃ g, decode_exact_object o.2 = Ok (Grant g)) as [g Hg].
  { destruct o as [p b]. apply elem_of_zip_r in Ho. apply list_elem_of_lookup in Ho as [i Hi].
    destruct (Forall2_lookup_r _ _ _ i b (cn_grants _ _ Hcons) Hi) as (hh & _ & g & Hg & _). by exists g. }
  unfold publish_grant. eapply (works_bind _ _ _ (λ s' a, s' = s ∧ a = Grant g)); [eapply works_lift; [by rewrite Hg|done]|].
  intros ? ? [-> ->]. pose proof (Hexact o.2) as Hx. rewrite Hg in Hx. rewrite Hx. by apply publish_object_works.
Qed.

Lemma publish_entry_works s :
  laid t (F s) → works (publish_entry decode_exact_object (entry_path t, pt_entry_bytes t)) s (λ _ _, True).
Proof.
  intros Hl. destruct (cn_entry _ _ Hcons) as (e & He & _). unfold publish_entry.
  eapply (works_bind _ _ _ (λ s' a, s' = s ∧ a = Entry e)); [eapply works_lift; [cbn [snd]; by rewrite He|done]|].
  intros ? ? [-> ->]. pose proof (Hexact (pt_entry_bytes t)) as Hx. rewrite He in Hx. rewrite Hx.
  apply (publish_object_works (entry_path t, pt_entry_bytes t)); [apply entry_prepared|done].
Qed.

(** The journal has the identity of the entry, if it has one. *)
Definition identity_ok (j : Journal) : Prop :=
  ∀ row, j_identities j !! pt_entry_hash t = Some row →
    oi_object_hash row = pt_entry_object_hash t ∧ oi_sequence row = pt_sequence t.

Lemma confirm_works s : identity_ok (wr_journal s) → works (confirm_original_publication t) s (λ s' _, ∃ j, s' = with_journal j s).
Proof.
  intros Hid. unfold confirm_original_publication.
  eapply (works_bind _ _ _ (λ s' a, s' = s)); [eapply works_journal; [done|by destruct s]|]. intros ? present ->.
  destruct (negb present); [apply works_ret; exists (wr_journal s); by destruct s|].
  destruct (j_identities (wr_journal s) !! pt_entry_hash t) as [row|] eqn:Er.
  - destruct (Hid row Er) as [E1 E2]. eapply works_journal; [|by eexists].
    rewrite Er, !bool_decide_eq_false_2 by (intros ?; done). done.
  - eapply works_journal; [by rewrite Er|by eexists].
Qed.

Lemma sync_directory_works p s s1 :
  p = entry_path t ∨ p ∈ grant_path t <$> pt_grant_object_hashes t → moved_on s s1 → works (on_archive (sync_directory p)) s1 (λ s' _, moved_on s s').
Proof.
  intros Hp [Hl [b ->]] Hs. destruct (aa_sync_directory J HJ p b Hp) as (b' & Hr & Hb); [apply Hs|].
  revert Hs. eapply works_archive; [exact Hr|done|]. apply sync_directory_law in Hr.
  split; [cbn; by rewrite Hr|exists b'; by destruct s].
Qed.

Lemma sync_first_works s s1 :
  moved_on s s1 → works (sync_first (grant_path t <$> pt_grant_object_hashes t)) s1 (λ s' _, moved_on s s').
Proof.
  intros Hs. destruct (grant_path t <$> pt_grant_object_hashes t) as [|p l] eqn:E; [by apply works_ret|].
  apply sync_directory_works; [right; rewrite E; by left|done].
Qed.

Lemma publish_from_prepared_works s :
  laid t (F s) → binding_ok None (T s) → identity_ok (wr_journal s) →
  works (publish_from_prepared decode_exact_object prepared_evidence_valid evidence t (After Step.ReconcileAndOpenBlankDraft)) s (λ _ _, True).
Proof.
  intros Hl Hb Hid. unfold publish_from_prepared, publish_entry_last.
  eapply (works_bind _ _ _ (λ s' _, s' = s)).
  { intros Hh. exists s, tt. unfold require_evidence. by rewrite Hvalid. }
  intros ? [] ->. eapply (works_bind _ _ _ (λ s' a, s' = s ∧ a = {| tg_grants := grant_path t <$> pt_grant_object_hashes t; tg_entry := entry_path t |}));
    [eapply works_lift; [by rewrite (targets_Ok t Hq)|done]|].
  intros ? ? [-> ->]. cbn [tg_grants tg_entry]. fold (prepared_grants t).
  eapply (works_bind _ _ _ (λ s' _, moved_on s s')).
  { apply works_each; [|split; [done|exists (wr_archive s); by destruct s]]. intros o s1 Ho H1.
    eapply (moved_on_works _ (prepared_grants t)); [done|apply publish_grant_works; [done|apply H1]|].
    apply (wwp_publish_grant decode_exact_object Hexact t Hq Hnd (prepared_grants t)); [apply elem_of_prepared; by left|done|apply H1]. }
  intros s1 [] H1. eapply works_bind; [by apply sync_first_works|]. intros s2 [] H2. cbn [breaks_at ends_after orb].
  rewrite !bool_decide_eq_false_2 by done. cbn [orb].
  eapply (works_bind _ _ _ (λ s' _, moved_on s s')).
  { eapply (moved_on_works _ (prepared_objects t)); [done|apply publish_entry_works, H2|].
    apply (wwp_publish_entry decode_exact_object Hexact t Hq Hnd (prepared_objects t)); [apply entry_prepared|apply entry_prepared|apply H2]. }
  intros s3 [] H3. eapply works_bind; [by apply sync_directory_works; [left|]|]. intros s4 [] [_ [b ->]].
  eapply works_bind; [by apply confirm_works|]. intros ? [] [j ->].
  eapply (works_bind _ _ _ (λ _ _, True)); [|by intros; apply works_ret].
  eapply works_draft; [rewrite Hev; by apply replace_succeeds|done].
Qed.

Lemma works_locks {A} (body : wm K B A) s (Q : Writer K B → A → Prop) :
  wr_locked s = false → w_locked (wr_world s) = false →
  works body (with_world (Draft.set_locked (wr_world s) true) (with_lock true s)) (λ _ a, ∀ s', Q s' a) →
  works (with_locks body) s Q.
Proof.
  intros H1 H2 Hb Hs. destruct (Hb Hs) as (s' & a & Hr & (Hf & Hk & Hj) & HQ).
  exists (with_world (Draft.set_locked (wr_world s') false) (with_lock false s')), a.
  unfold with_locks. rewrite H1, H2, Hr. by split_and!.
Qed.

(** A draft whose key is gone is found to be gone. *)
Lemma original_draft_works s :
  carried s → KeyStore.entries (w_keys (wr_world s)) h = None → binding_ok None (T s) →
  works (original_draft evidence) s (λ s' a, a = None ∧ T s' = T s ∧ F s' = F s ∧ wr_journal s' = wr_journal s).
Proof.
  intros Hc Hk Hb (Hf & HIk & Hj). destruct (cy_draft _ _ _ _ _ Hc) as (row & sr & n & Hrow & Hst & Hh & _).
  rewrite <- Hh in Hk. destruct (load_missing I HI None (wr_world s) row sr Hf HIk Hb Hrow Hst Hk) as (w & Hl & Hf' & Hk' & Ht & _ & _).
  exists (with_world w s), None. unfold original_draft. rewrite Hev.
  rewrite (w_bind_run _ _ _ (with_world w s) (Err (DraftErr.FromKey Key.NotFound))) by (unfold try_draft; by rewrite Hl).
  by split_and!.
Qed.

Lemma recover_marked_works s :
  carried s → KeyStore.entries (w_keys (wr_world s)) h = None → binding_ok None (T s) → identity_ok (wr_journal s) →
  works (recover_marked decode_exact_object prepared_evidence_valid evidence stale_store None (encode_marker t)) s
    (λ _ a, a = CommittedFromPreparedBytes (pt_sequence t)).
Proof.
  intros Hc Hk Hb Hid. unfold recover_marked.
  eapply (works_bind _ _ _ (λ s' a, s' = s ∧ a = t)); [by eapply works_lift; [apply decode_encode_marker|]|]. intros ? ? [-> ->].
  eapply (works_bind _ _ _ (λ s' _, s' = s)).
  { eapply works_lift; [|done]. unfold verify_marker. by rewrite (proj2 (verify_detailed_Ok decode_exact_object t (encode_marker t))). }
  intros ? [] ->. eapply (works_bind _ _ _ (λ s' _, s' = s)); [by apply works_ret|]. intros ? [] ->.
  eapply works_bind; [by apply original_draft_works|]. intros s1 ? (-> & Ht & Hf & Hj).
  eapply (works_bind _ _ _ (λ _ _, True)); [|by intros; apply works_ret].
  apply publish_from_prepared_works; [rewrite Hf; apply Hc|by rewrite Ht|by rewrite Hj].
Qed.

(** The restart that finds the key gone publishes what was prepared. *)
Lemma recover_works s :
  carried s → KeyStore.entries (w_keys (wr_world s)) h = None → binding_ok None (T s) → identity_ok (wr_journal s) →
  wr_locked s = false → w_locked (wr_world s) = false →
  works (recover_pending decode_exact_object prepared_evidence_valid evidence stale_store) s
    (λ s' a, a = CommittedFromPreparedBytes (pt_sequence t) ∧ finished s').
Proof.
  intros Hc Hk Hb Hid Hl1 Hl2.
  eapply (works_wwp _ _ (λ _ a, a = CommittedFromPreparedBytes (pt_sequence t))); [|by apply (wwp_recover_pending s None)|].
  2: { intros s' ? -> [[_ Hf] _]. done. }
  apply works_locks; [done..|]. set (s1 := with_world (Draft.set_locked (wr_world s) true) (with_lock true s)).
  eapply (works_mono _ _ (λ _ a, a = CommittedFromPreparedBytes (pt_sequence t))); [|by intros].
  assert (carried s1) as Hc1 by (by eapply carried_calm; [|exact Hc]; split).
  eapply (works_bind _ _ _ (λ s' a, s' = s1 ∧ a = None)).
  { rewrite Hev. eapply (works_draft _ _ _ (λ w a, w = wr_world s1 ∧ a = None)); [|by intros w a [-> ->]].
    unfold evidence_draft_source. eapply succeeds_bind; [by apply succeeds_transaction, access_succeeds|]. intros ? [] ->.
    by apply succeeds_ret. }
  intros ? ? [-> ->]. cbn [bool_decide andb].
  eapply (works_bind _ _ _ (λ s' a, s' = s1 ∧ a = Some (encode_marker t))).
  { rewrite Hev. eapply (works_draft _ _ _ (λ w a, w = wr_world s1 ∧ a = Some (encode_marker t))); [|by intros w a [-> ->]].
    apply marker_succeeds; [done|apply Hc|]. unfold select_marker, select_transition. cbn.
    by rewrite (cy_table _ _ _ _ _ Hc), (cy_marker _ _ _ _ _ Hc). }
  intros ? ? [-> ->]. by apply recover_marked_works.
Qed.
End Healthy.
(** *** The properties of restarts *)

(** C13. A restart that finds the marker of an interrupted finalization gives
    the draft back, if its key is still there, with nothing published, every
    claim of the draft released and its number free; or publishes the prepared
    grants and then the entry byte for byte and opens a blank draft; or fails,
    and the marker lies as before. *)
Theorem recovery_resolves s expected :
  carried s →
  wwp (recover_pending_bound decode_exact_object prepared_evidence_valid evidence stale_store expected) (λ s' r,
    recovered s s' r ∧ ∀ q, r = Ok (DraftRestored q) → claims_freed stale_store s s') s.
Proof. intros Hc. apply wwp_and; [by apply wwp_recover_pending|apply wwp_recover_frees]. Qed.

(** C14. After a run of the finalization and any number of restarts, whatever
    fails in them, the draft is as it was and nothing of the entry is published,
    or the marker lies, or the entry is complete; and an entry in the archive
    has all its grants beside it and no draft that its key would open. *)
Theorem entry_and_draft_never_both s s' :
  ready t h old d0 s → unmarked (T s) → history s s' →
  resolved s' ∧ (is_Some (F s' !! as_str (entry_path t)) → gone s' ∧ ∀ o, o ∈ prepared_grants t → published (F s') o).
Proof.
  intros Hrd Hum Hh. pose proof (history_resolved s s' Hrd Hum Hh) as Hr. split; [done|by apply resolved_entry].
Qed.

(** C15. Once the key of the draft is deleted, a restart in which nothing fails
    completes the entry: every prepared object is at its address, the marker is
    gone and a blank draft is open. *)
Theorem interrupted_finalization_completes (I : K → Prop) (J : B → Prop) s :
  keys_answer I → primitives_answer → archive_answers J → evidence = None →
  (∀ s, prepared_evidence_valid None (pt_entry_bytes t) s = true) → consistent decode_exact_object t →
  carried s → KeyStore.entries (w_keys (wr_world s)) h = None → binding_ok None (T s) → identity_ok (wr_journal s) →
  wr_locked s = false → w_locked (wr_world s) = false → healthy I J s →
  ∃ s', recover_pending decode_exact_object prepared_evidence_valid evidence stale_store s
        = (s', Ok (CommittedFromPreparedBytes (pt_sequence t))) ∧ finished s'.
Proof.
  intros HI HP HJ Hev Hv Hcons Hc Hk Hb Hid Hl1 Hl2 Hh.
  destruct (recover_works I J HI HP HJ Hev Hv Hcons s Hc Hk Hb Hid Hl1 Hl2 Hh) as (s' & a & Hr & _ & -> & Hf). by exists s'.
Qed.

End Recovery.
