(* ===== verification/WriterLocal.v ===== *)
(** * WriterLocal: the writer over the local file system

    The local file system backend of [LocalPath] as the archive of the writer,
    the proof that it keeps what [WriterPhases] asks of an archive, and samples
    of finalizations, restarts and clean-ups over it. *)

From S2P Require Import Prelude Types Utf8 Cbor Str ArchivePath Transaction Profile LocalPath CsvImport OperatorSession Inventory KeyStore GrantPlan ServerDb ObjectStore Draft Discard IncidentNumbers WriterMarker WriterFinalize WriterPhases WriterClaims WriterRecovery.
Import Fmt(FormatError) DraftErr(DraftError) Gp(GrantPurposeV1) Wr(WriterError) Step(FinalizationStep) Phase(FinalizationPhase) Point(FinalizationFaultPoint).

Section Local.
Context (unreadable : str → bool) (device_of : str → option Z).

(** A visitor only learns that the archive is unavailable. *)
Definition local_store : @ArchiveStore LocalPathBackend (local_backend unreadable device_of) := {|
  staged_paths := LocalPath.staged_paths;
  remove_if_present := LocalPath.remove_if_present;
  visit_blobs b := let '(b', r) := LocalPath.visit_blobs unreadable b in (b', map_err (λ _, Unavailable) r);
|}.

Lemma walk_keeps b b' r : walk b = (b', r) → held_files b' = held_files b.
Proof.
  unfold walk. intros H. apply act_bind_run in H as [(x & b1 & E & H)|(e & E & ->)].
  - apply keeps_os_quiet in E; [|by intros ? ? [_ <-]%unless_Some]. unfold gets, mbind, act_bind, mret, act_ret in H. cbn in H.
    injection H as <- _. congruence.
  - apply keeps_os_quiet in E; [congruence|by intros ? ? [_ <-]%unless_Some].
Qed.

Lemma control_not_staging p : p ∈ CONTROL_FILES_V1 → is_staging_path p = false.
Proof. intros [->|[->|[]%elem_of_nil]%elem_of_cons]%elem_of_cons; reflexivity. Qed.

Lemma control_no_slash p : p ∈ CONTROL_FILES_V1 → slash ∉ p.
Proof. intros [->|[->|[]%elem_of_nil]%elem_of_cons]%elem_of_cons; apply (bool_decide_unpack _); vm_compute; exact I. Qed.

Lemma remove_run p b b' r :
  LocalPath.remove_if_present p b = (b', r) →
  (held_files b' = held_files b ∨ held_files b' = delete (as_str p) (held_files b)) ∧
  (r = Ok tt → held_files b' !! as_str p = None).
Proof.
  unfold LocalPath.remove_if_present. intros H. apply act_bind_run in H as [(x & b1 & E & H)|(e & E & ->)].
  2: { apply keeps_require_existing_root in E. split; [left; congruence|done]. }
  apply keeps_require_existing_root in E. unfold gets, mbind at 1, act_bind at 1 in H. cbn in H.
  case_bool_decide as Hn.
  - unfold mret, act_ret in H. injection H as <- <-. split; [left; congruence|done].
  - apply act_bind_run in H as [(y & b2 & E2 & H)|(e & E2 & ->)].
    + apply fs_remove_run in E2 as [[_ E2]|[? _]]; [|done]. apply keeps_sync_directory_at in H.
      assert (held_files b' = delete (as_str p) (held_files b)) as E' by congruence. rewrite E'. split; [by right|].
      intros _. apply lookup_delete_eq.
    + apply fs_remove_run in E2 as [[? _]|[_ E2]]; [done|]. split; [left; congruence|done].
Qed.

Lemma local_store_laws_hold :
  @ArchiveStoreLaws LocalPathBackend (local_backend unreadable device_of) local_store.
Proof.
  split; cbn.
  - intros b b' r H. unfold LocalPath.staged_paths in H. apply act_bind_run in H as [(l & b1 & E & H)|(e & E & ->)].
    + unfold mret, act_ret in H. injection H as <- <-. split; [by apply walk_keeps in E|]. intros l' [= <-] p.
      rewrite list_elem_of_filter, (elem_of_walk _ _ _ p E). split; [naive_solver|]. intros [Hs Hp]. split_and!; [done..|].
      intros Hc%control_not_staging. congruence.
    + split; [by apply walk_keeps in E|done].
  - intros p b b' r H. by apply remove_run in H.
  - intros b b' r H. destruct (LocalPath.visit_blobs unreadable b) as [b1 r1] eqn:E. injection H as <- <-.
    unfold LocalPath.visit_blobs in E. apply act_bind_run in E as [(l & b2 & Ew & E)|(e & Ew & ->)].
    2: { split; [by apply walk_keeps in Ew|done]. }
    unfold LocalPath.read_blobs in E. injection E as <- <-. pose proof (walk_keeps _ _ _ Ew) as Ef. split; [exact Ef|].
    intros blobs Hb. destruct (read_all _ _ _) as [bl|] eqn:Er in Hb; [|done]. injection Hb as <-.
    apply read_all_Ok in Er as [Hp Hsound]. rewrite Ef in Hsound. split.
    + intros p x Hin. split; [by apply Hsound|]. assert (p ∈ fst <$> bl) as Hf by (by apply (list_elem_of_fmap_2 fst _ (p, x))).
      rewrite Hp, list_elem_of_filter in Hf. tauto.
    + intros p x Hx Hs Hsl. assert (p ∈ fst <$> bl) as Hf.
      { rewrite Hp, list_elem_of_filter, (elem_of_walk _ _ _ p Ew). split_and!; [done|by eexists|]. by intros Hc%control_no_slash. }
      apply list_elem_of_fmap in Hf as ([q y] & -> & Hin). specialize (Hsound _ _ Hin). cbn in *. 
      assert (y = x) as -> by (unfold held_files in *; congruence). done.
Qed.
End Local.

(** ** A sample *)

Module SampleWriter.
(** A cipher whose tag is the beginning of the key. *)
Definition tag (k : secret) : list byte := take 16 (k ++ repeat x00 16).

#[export] Instance cipher : AeadCipher := {
  cipher_encrypt := λ k _ m _, Some (m ++ tag k);
  cipher_decrypt := λ k _ c _,
    if bool_decide (drop (length c - 16) c = tag k) then Some (take (length c - 16) c) else None;
}.

Lemma tag_length k : length (tag k) = 16%nat.
Proof. unfold tag. rewrite length_take, length_app, repeat_length. lia. Qed.

#[export] Instance cipher_laws : AeadLaws.
Proof.
  split; cbn; intros k n m a c [= <-]; rewrite length_app, tag_length; [|unfold AEAD_OVERHEAD; lia].
  replace (length m + 16 - 16)%nat with (length m) by lia. by rewrite drop_app_length, bool_decide_eq_true_2, take_app_length.
Qed.

#[export] Instance primitives : Primitives := {
  object_hash := λ b, take 32 (b ++ repeat x00 32);
  random := λ i n, Some (repeat (byte_of (Z.of_nat i)) n);
}.

#[export] Instance numbers : NumberPrimitives := sample_numbers.
#[export] Instance decoder : Minicbor := simple_minicbor.
#[export] Instance backend : ArchiveBackend LocalPathBackend := local_backend (λ _, false) (λ _, None).
#[export] Instance backend_laws : ArchiveBackendLaws LocalPathBackend.
Proof. by apply local_backend_laws_hold. Qed.
#[export] Instance store : ArchiveStore LocalPathBackend := local_store (λ _, false) (λ _, None).
#[export] Instance store_laws : ArchiveStoreLaws LocalPathBackend.
Proof. apply local_store_laws_hold. Qed.

(** The key of the draft: not the same byte all over, as the keys of the sample
    generator are. *)
Definition old : secret := [x05; x06] ++ repeat x05 30.
Definition keys : InMemoryKeyProvider := (im_wrap_secret DraftDek old (new_for_test (repeat x09 32))).1.
Definition h : KeyHandle := im_handle DraftDek keys.

Definition row : DraftRow :=
  {| dr_draft_id := repeat x01 16; dr_ciphertext := lit "hi" ++ tag old; dr_nonce := repeat x02 12;
     dr_keystore_provider := 1; dr_account_instance := repeat x09 32; dr_save_revision := 3 |}.

Definition tables : DraftTables :=
  {| t_draft := Some row; t_transition := None; t_discard_migration := true; t_evidence_table := true;
     t_evidence_migration := true; t_evidence := None; t_jobs_table := true; t_jobs := λ _ _, None |}.

Definition empty_journal : Journal :=
  {| j_numbers := {| nt_register := ∅; nt_retained_key := None; nt_retained_tokens := ∅; nt_synchronous := 2 |};
     j_original := false; j_claims := []; j_released := ∅; j_identities := ∅; j_published := ∅;
     j_stale_consumed := ∅; j_stale_prepared := ∅; j_stale_claims := []; j_stale_released := ∅ |}.

Definition writer (f : file_map) (fs : list bool) : Writer InMemoryKeyProvider LocalPathBackend :=
  {| wr_world := {| w_tables := tables; w_faults := fs; w_keys := keys; w_draws := 0; w_created := None; w_locked := false |};
     wr_archive := sample_backend f; wr_locked := false; wr_journal := empty_journal; wr_claimed := None |}.

Definition start : Writer InMemoryKeyProvider LocalPathBackend := writer ∅ [].

Definition number : ClaimedIncidentNumber :=
  {| cn_source_claim := None; cn_stale_event := None; cn_organization := replicate 16 x05; cn_year := 2026; cn_number := lit "17" |}.

Abbreviation t := SampleMarker.transaction.
Abbreviation decode := SampleMarker.decode.
Definition valid : option EvidenceDraftSource → list byte → Writer InMemoryKeyProvider LocalPathBackend → bool := λ _ _ _, true.

(** The sample finalization with a number, stopped as said. *)
Definition sample_run (stop : Stop) : wm InMemoryKeyProvider LocalPathBackend ReachedState :=
  run decode valid None false (Some number) None (Ok t) stop.

Lemma decode_keeps : keeps_bytes decode.
Proof. intros b. unfold decode. case_bool_decide; [by subst|]. case_bool_decide; [by subst|done]. Qed.

Lemma distinct : NoDup (pt_grant_object_hashes t).
Proof. apply NoDup_singleton. Qed.

Lemma sequence_positive : 0 ≤ pt_sequence t.
Proof. done. Qed.

Lemma ready_start f fs :
  unpublished t f → ready t h old 0 (writer f fs).
Proof.
  intros Hf. split; [|reflexivity|exact Hf|done].
  exists row. eexists _, (lit "hi"). split_and!; reflexivity.
Qed.

Lemma no_key_opens : WriterRecovery.foreign old 0.
Proof.
  intros i x nonce notes ad c _ [= <-] Hs. unfold aead_seal in Hs. apply bind_Ok in Hs as (y & _ & Hs).
  apply bind_Ok in Hs as (z & Hz & Hs). apply ok_or_Ok in Hz. change (Some (notes ++ tag old) = Some z) in Hz. injection Hz as <-.
  case_bool_decide; [done|]. injection Hs as <-. unfold aead_open. cbn [cipher_decrypt cipher].
  rewrite length_app, tag_length. replace (length notes + 16 - 16)%nat with (length notes) by lia.
  rewrite drop_app_length. destruct (_ <? _); [done|]. rewrite bool_decide_eq_false_2; [done|].
  unfold tag. cbn. intros [= E1 E2]. congruence.
Qed.
End SampleWriter.

(** ** A local archive in which nothing fails answers *)

Module SampleArchive.
Import SampleWriter.

Definition directories : gset str := {[ []; lit "entries"; lit "grants" ]}.

(** No call breaks, and the directories of entries and grants are there. *)
Record idle (b : LocalPathBackend) : Prop := {
  id_outcomes : fs_outcomes (disk b) = [];
  id_existing : existing_only b = true;
  id_directories : fs_dirs (disk b) = directories;
  id_foreign : LocalPath.foreign b = ∅;
}.

Lemma idle_files b f : idle b → idle (set_disk b (set_files (disk b) f)).
Proof. by intros []. Qed.

Lemma act_run {A C} (m : act A) (k : A → act C) b b' a : m b = (b', Ok a) → (m ≫= k) b = k a b'.
Proof. unfold mbind, act_bind. by intros ->. Qed.

Lemma os_idle e effect broken b :
  idle b → os e effect broken b = match effect (disk b) with Some d => (set_disk b d, Ok tt) | None => (b, Err e) end.
Proof.
  intros [Ho _ _ _]. unfold os, next_io. rewrite Ho. destruct (effect (disk b)); [done|]. by destruct b.
Qed.

Lemma root_idle b : idle b → require_existing_root b = (b, Ok tt).
Proof.
  intros Hb. unfold require_existing_root. rewrite (act_run _ _ _ b true) by (unfold gets; by rewrite (id_existing _ Hb)).
  unfold require_directory. by rewrite (id_directories _ Hb).
Qed.

(** A directory of the archive below its root. *)
Definition top (d : str) : Prop := d ∈ directories ∧ d ≠ [] ∧ parent d = [].

Lemma directory_idle d b : idle b → top d → ensure_directory d b = (b, Ok tt).
Proof.
  intros Hb (Hd & Hne & Hp). unfold ensure_directory.
  rewrite (act_run _ _ _ b true) by (unfold gets; by rewrite (id_existing _ Hb)). cbn [negb].
  rewrite (act_run _ _ _ _ _ (root_idle b Hb)). destruct d as [|c d]; [done|]. change (is_empty (c :: d)) with false. cbv iota. rewrite Hp.
  assert (∀ x, x ∈ directories → require_directory x b = (b, Ok tt)) as Hr.
  { intros x Hx. unfold require_directory. by rewrite (id_directories _ Hb), bool_decide_eq_true_2. }
  rewrite (act_run _ _ _ b tt) by (apply Hr; unfold directories; set_solver).
  rewrite (act_run _ _ _ b (disk b)) by done. rewrite (id_directories _ Hb), bool_decide_eq_true_2 by done. by apply Hr.
Qed.

Lemma sync_all_idle p b : idle b → is_Some (held_files b !! p) → sync_all p b = (b, Ok tt).
Proof.
  intros Hb Hp. unfold sync_all. rewrite (os_idle _ _ _ _ Hb). fold (held_files b). rewrite bool_decide_eq_true_2 by done.
  cbn. by destruct b.
Qed.

Lemma sync_directory_idle d b : idle b → d ∈ directories → sync_directory_at d b = (b, Ok tt).
Proof.
  intros Hb Hd. unfold sync_directory_at. rewrite (os_idle _ _ _ _ Hb), (id_directories _ Hb), bool_decide_eq_true_2 by done.
  cbn. by destruct b.
Qed.

(** The paths of the sample. *)
Lemma sample_paths o :
  o ∈ prepared_objects t → top (dir_path (directory o.1)) ∧ (target_of o ∉ directories) ∧ parent (target_of o) ∈ directories.
Proof.
  intros Ho. assert (prepared_objects t = [(grant_path t SampleMarker.grant_object, SampleMarker.grant_bytes);
    (entry_path t, SampleMarker.entry_bytes)]) as E by done. rewrite E in Ho. unfold top.
  apply elem_of_cons in Ho as [->|[->|[]%elem_of_nil]%elem_of_cons]; split_and!;
    first [apply (bool_decide_unpack _); vm_compute; exact I|by vm_compute].
Qed.

(** What a rename does when no call breaks. *)
Lemma rename_idle o b :
  o ∈ prepared_objects t → idle b → idle (atomic_rename_same_fs (staging_of o.1) o.1 b).1 ∧
  (held_files b !! staged_at o = Some o.2 → held_files b !! target_of o = None →
   is_ok (atomic_rename_same_fs (staging_of o.1) o.1 b).2 = true).
Proof.
  intros Ho Hb. destruct (sample_paths o Ho) as (Htop & Hnd & Hpar).
  change (atomic_rename_same_fs (staging_of o.1) o.1 b) with
    (local_atomic_rename_same_fs (λ _, false) (λ _, None) (staging_of o.1) o.1 b).
  unfold local_atomic_rename_same_fs. rewrite (act_run _ _ _ b ∅) by (unfold gets; by rewrite (id_foreign _ Hb)).
  rewrite !bool_decide_eq_false_2 by set_solver. cbn [orb].
  rewrite (act_run _ _ _ _ _ (root_idle b Hb)), (act_run _ _ _ _ _ (directory_idle _ b Hb Htop)).
  rewrite (act_run _ _ _ b (held_files b !! target_of o)) by done.
  destruct (held_files b !! target_of o) as [x|] eqn:Et.
  - split; [|done]. rewrite (act_run _ _ _ b (held_files b !! staged_at o)) by done.
    destruct (held_files b !! staged_at o) as [y|] eqn:Es; [|done].
    rewrite (act_run _ _ _ b y) by done. case_bool_decide; [done|]. unfold fs_remove. rewrite (os_idle _ _ _ _ Hb).
    change (as_str (staging_of o.1)) with (staged_at o). fold (held_files b). rewrite Es. cbn. by apply idle_files.
  - unfold fs_rename. rewrite (os_idle _ _ _ _ Hb). change (as_str (staging_of o.1)) with (staged_at o).
    change (as_str o.1) with (target_of o). fold (held_files b). destruct (held_files b !! staged_at o) as [y|] eqn:Es; [|done].
    rewrite (id_directories _ Hb), bool_decide_eq_false_2, bool_decide_eq_true_2 by done. cbn. split; [by apply idle_files|done].
Qed.

Lemma create_idle o b :
  idle b → held_files b !! target_of o = Some o.2 → create_if_absent o.1 o.2 b = (b, Ok tt).
Proof.
  intros Hb Hp. change (create_if_absent o.1 o.2 b) with (create_bytes_if_absent (λ _, false) o.1 o.2 b).
  unfold create_bytes_if_absent. rewrite (act_run _ _ _ _ _ (root_idle b Hb)).
  rewrite (act_run _ _ _ b (Some o.2)) by (unfold gets; rewrite <- Hp; done). by rewrite bool_decide_eq_true_2.
Qed.

Lemma read_all_total paths b :
  (∀ p, p ∈ paths → is_Some (held_files b !! p)) → is_ok (read_all (λ _, false) paths b) = true.
Proof.
  induction paths as [|p paths IH]; intros Hp; [done|]. cbn. destruct (Hp p) as [x Hx]; [by left|]. unfold held_files in Hx.
  unfold read_bytes. rewrite Hx. cbn. assert (is_ok (read_all (λ _, false) paths b) = true) as Hr by (apply IH; intros q Hq; apply Hp; by right).
  by destruct (read_all _ paths b).
Qed.

Lemma visit_idle b : idle b → ∃ l, visit_blobs b = (b, Ok l).
Proof.
  intros Hb. cbn. unfold LocalPath.visit_blobs.
  assert (∃ paths, walk b = (b, Ok paths)) as [paths Hw].
  { unfold walk. rewrite (act_run _ _ _ b tt); [by eexists|]. rewrite (os_idle _ _ _ _ Hb), (id_directories _ Hb), bool_decide_eq_true_2
      by (unfold directories; set_solver). cbn. by destruct b. }
  rewrite (act_run _ _ _ _ _ Hw). unfold LocalPath.read_blobs.
  assert (is_ok (read_all (λ _, false) (filter (λ p, is_staging_path p = false) paths) b) = true) as Hr.
  { apply read_all_total. intros p [_ Hp]%list_elem_of_filter. by apply (elem_of_walk _ _ _ _ Hw). }
  destruct (read_all _ _ b) as [l|]; [|done]. by exists l.
Qed.

Lemma idle_answers : archive_answers t idle.
Proof.
  split.
  - intros o b Ho Hb Hs Ht. destruct (rename_idle o b Ho Hb) as [_ Hok]. specialize (Hok Hs Ht).
    destruct (atomic_rename_same_fs _ _ b) as [b' [[]|]]; [by exists b'|done].
  - intros o b Ho Hb. by apply rename_idle.
  - intros b Hb. destruct (visit_idle b Hb) as [l Hl]. by exists b, l.
  - intros o b Ho Hb Hp. exists b. split; [by apply create_idle|done].
  - intros o b Ho Hb Hp. exists b. split; [|done]. apply sync_all_idle; [done|]. change (as_str o.1) with (target_of o).
    exists o.2. exact Hp.
  - intros p b Hp Hb. exists b. split; [|done]. apply sync_directory_idle; [done|].
    destruct Hp as [->|Hp]; [apply (bool_decide_unpack _); vm_compute; exact I|].
    apply list_elem_of_singleton in Hp as ->. apply (bool_decide_unpack _). vm_compute. exact I.
Qed.
End SampleArchive.

(** ** Witnesses *)

Module SampleRuns.
Export SampleWriter SampleArchive.

Lemma start_ready fs : ready t h old 0 (writer ∅ fs).
Proof. apply ready_start. by intros o _. Qed.

(** What a stopped sample run leaves. *)
Lemma run_ends stop fs :
  ended t h old 0 (writer ∅ fs) (sample_run stop (writer ∅ fs)).1 (sample_run stop (writer ∅ fs)).2.
Proof.
  apply (wwp_run_ends decode decode_keeps valid None false t sequence_positive distinct h old 0 (writer ∅ fs) (Some number) None
    (Ok t) stop); [apply start_ready|by intros u [= <-]].
Qed.

Definition key_absent : Writer InMemoryKeyProvider LocalPathBackend := (sample_run (AtFault Point.AfterAbsenceConfirmation) start).1.

Lemma key_absent_carried : carried t h old 0 key_absent.
Proof.
  pose proof (run_ends (AtFault Point.AfterAbsenceConfirmation) []) as He.
  replace (sample_run (AtFault Point.AfterAbsenceConfirmation) (writer ∅ [])).2 with
    (Ok (E := WriterError) (reached Phase.DraftKeyAbsent)) in He by (vm_compute; reflexivity).
  destruct He as [(Hc & _) _]. exact Hc.
Qed.

Definition marked : Writer InMemoryKeyProvider LocalPathBackend := (sample_run (AtFault Point.AfterPreparedMarkerCommit) start).1.

Lemma marked_carried : carried t h old 0 marked.
Proof.
  pose proof (run_ends (AtFault Point.AfterPreparedMarkerCommit) []) as He.
  replace (sample_run (AtFault Point.AfterPreparedMarkerCommit) (writer ∅ [])).2 with
    (Ok (E := WriterError) (reached Phase.PreparedAndFlushed)) in He by (vm_compute; reflexivity).
  destruct He as [(Hc & _) _]. exact Hc.
Qed.
End SampleRuns.
Import SampleRuns.

(** The sample finalization completes, and its number stays used. *)
Lemma finalization_keeps_boundary_witness :
  finished t h 0 (sample_run Confirmed start).1 ∧
  contains_number (cn_organization number) (cn_year number) (cn_number number)
    (j_numbers (wr_journal (sample_run Confirmed start).1)) = Ok true.
Proof.
  split; [|vm_compute; reflexivity].
  pose proof (finalization_keeps_boundary decode decode_keeps valid None false t sequence_positive distinct h old 0 start
    (Some number) None (Ok t) Confirmed (start_ready []) ltac:(by intros u [= <-])) as [He _].
  change (run decode valid None false (Some number) None (Ok t) Confirmed) with (sample_run Confirmed) in He.
  replace (sample_run Confirmed start).2 with
    (Ok (E := WriterError) {| rs_phase := Phase.Reconciled; rs_outcome := Some (the_outcome t) |}) in He by (vm_compute; reflexivity).
  exact (proj1 He).
Defined.

(** A restart after the deletion of the key publishes; one before it gives the
    draft back, and its claim, the first of the journal, is freed. *)
Lemma recovery_resolves_witness :
  recovered t h old 0 key_absent (recover_pending decode valid None false key_absent).1
    (Ok (CommittedFromPreparedBytes 7)) ∧
  freed (wr_journal (recover_pending decode valid None false marked).1) 1.
Proof.
  pose proof (λ s, recovery_resolves decode decode_keeps valid None false t sequence_positive distinct h old 0 no_key_opens
    SampleMarker.transaction_sized s None) as H. unfold wwp in H. split.
  - specialize (H key_absent key_absent_carried).
    replace (recover_pending_bound decode valid None false None key_absent).2 with
      (Ok (E := WriterError) (CommittedFromPreparedBytes 7)) in H by (vm_compute; reflexivity). exact (proj1 H).
  - specialize (H marked marked_carried).
    assert ((recover_pending_bound decode valid None false None marked).2 = Ok (DraftRestored 7)) as E by (vm_compute; reflexivity).
    assert (is_Some (t_draft (w_tables (wr_world marked)))) as [r Hr] by (vm_compute; by eexists).
    apply (proj1 (proj2 H 7 E r Hr)); [vm_compute; reflexivity|].
    vm_compute in Hr. injection Hr as <-. apply (bool_decide_unpack _). vm_compute. exact I.
Defined.

(** A run whose eleventh statement fails, and a restart. *)
Lemma entry_and_draft_never_both_witness :
  let s := writer ∅ (replicate 10 false ++ [true]) in
  let s1 := (sample_run Confirmed s).1 in
  let s2 := (recover_pending_bound decode valid None false None (restart [] s1)).1 in
  is_ok (sample_run Confirmed s).2 = false ∧ resolved t h old 0 s2.
Proof.
  intros s s1 s2. split; [vm_compute; reflexivity|].
  apply (entry_and_draft_never_both decode decode_keeps valid None false t sequence_positive distinct h old 0 no_key_opens
    SampleMarker.transaction_sized s s2); [apply start_ready|exact I|].
  apply History_restart. apply (History_run _ _ _ _ _ _ (Some number) None (Ok t) Confirmed). by intros u [= <-].
Defined.

Lemma interrupted_finalization_completes_witness :
  ∃ s', recover_pending decode valid None false key_absent = (s', Ok (CommittedFromPreparedBytes 7)) ∧ finished t h 0 s'.
Proof.
  apply (interrupted_finalization_completes decode decode_keeps valid None false t sequence_positive distinct h old 0 no_key_opens
    SampleMarker.transaction_sized Example.account_wf idle key_absent).
  - exact Example.in_memory_answers.
  - split; [intros i n; exists (repeat (byte_of (Z.of_nat i)) n); by rewrite repeat_length|].
    intros k n m a Hm. by apply seal_total; [|eexists].
  - exact idle_answers.
  - reflexivity.
  - reflexivity.
  - exact SampleMarker.transaction_consistent.
  - exact key_absent_carried.
  - vm_compute. reflexivity.
  - vm_compute. reflexivity.
  - intros r Hr. exfalso. vm_compute in Hr. discriminate Hr.
  - vm_compute. reflexivity.
  - vm_compute. reflexivity.
  - split; [vm_compute; reflexivity|]. split; [vm_compute; reflexivity|].
    split; [vm_compute; reflexivity|vm_compute; reflexivity|vm_cast_no_check (eq_refl directories)|vm_cast_no_check (eq_refl (A := gset str) ∅)].
Defined.

(** The staged files of an abandoned finalization go. *)
Lemma cleanup_removes_only_leftovers_witness :
  let s := (sample_run (AtFault Point.AfterStagingDirectoryFlushBeforeMarker) start).1 in
  let s' := (reconcile_to_completion decode None false s).1 in
  is_Some (files (wr_archive s) !! as_str (staging_of (entry_path t))) ∧
  files (wr_archive s') !! as_str (staging_of (entry_path t)) = None.
Proof.
  intros s s'. split; [vm_compute; by eexists|].
  pose proof (cleanup_removes_only_leftovers decode None false s ltac:(by vm_compute)) as H.
  unfold wwp in H. replace (reconcile_to_completion decode None false s).2 with (Ok (E := WriterError) (ReconciledV1 2 0)) in H
    by (vm_compute; reflexivity).
  destruct H as (_ & _ & _ & H). apply H. vm_compute. reflexivity.
Defined.

(** The staging file that a failed write of the active profile pointer leaves at
    the root keeps every clean-up from completing. *)
Lemma rootless_staging_blocks_cleanup_witness :
  let b := set_disk (sample_backend ∅) {| fs_files := ∅; fs_dirs := directories; fs_locked := false;
             fs_outcomes := [Works; Works; Works; Works; Breaks 0] |} in
  let b' := (write_active_profile_pointer sample_pointer b).1 in
  let s := with_archive b' start in
  is_ok (write_active_profile_pointer sample_pointer b).2 = false ∧
  (reconcile_to_completion decode None false s).2 = Err (Wr.FromBackend Path) ∧
  ∀ n m, (reconcile_to_completion decode None false s).2 ≠ Ok (ReconciledV1 n m).
Proof.
  intros b b' s. split; [vm_compute; reflexivity|]. split; [vm_compute; reflexivity|].
  apply (rootless_staging_blocks_cleanup decode None false s POINTER_STAGING); [reflexivity| |vm_compute; by eexists|done].
  apply (bool_decide_unpack _). vm_compute. exact I.
Defined.
