(* ===== verification/WriterHead.v ===== *)
(** * WriterHead: where an entry goes and who may open it ([ea-writer], [finalize.rs])

    The steps of a finalization before anything is claimed: the chain is rebuilt
    from the committed objects of the archive, compared with the checkpoints of
    the server, and the registry head is held against it; the plan of the grants
    is made of the active certificates; a preview the operator confirmed is
    compared with the one computed now, and under an expired registry head an
    acknowledgement is used up. The inputs of the four kinds of content matter
    in step 4 only, which is not modelled, and neither are the codec of the
    preview and the operator profile.

    The registry head is what [WriterRegistryHeadRef] of [ea-trust] answers; the
    parser, the object hash and the digest of plans are parameters. *)

From S2P Require Import Prelude Discard Types Utf8 Cbor Str ArchivePath Profile TrustedTime OperatorSession KeyStore CsvImport Inventory GrantPlan ServerDb ObjectStore Draft CommitChecks IncidentNumbers WriterMarker WriterFinalize Chain Rollback.
Import Fmt(FormatError) Wr(WriterError) Step(FinalizationStep) Point(FinalizationFaultPoint) Gp(GrantPurposeV1).

(** ** Data *)

Module Content.
Inductive FinalizationContent := Incident | Amendment | KeyTransition | DestructionEvidence.
End Content.
Import Content(FinalizationContent).

Module Resolved.
Inductive ResolvedContent := Incident | Amendment | DestructionEvidence | KeyTransition (transition_object_hash : ObjectHash).
End Resolved.
Import Resolved(ResolvedContent).

Record WriterBindingV1 := {
  wb_binding : ObjectHash;
  wb_writer : CertificateHash;
  wb_chain : ChainId;
  wb_profile : Hash32;
}.

(** Of policies, certificates and operator bindings the fields the writer reads. *)
Record WriterPolicyV1 := {
  wp_operating_profile : Z;
  wp_expiry_behavior : Z;
  wp_profiles : list Hash32;
  wp_refresh_ms : Z;
}.
Record WriterCertificateV1 := { wc_organization : OrganizationId; wc_fields : DeviceCertificateFieldsV1 }.
Record OperatorBindingFieldsV1 := { bf_commitment : Hash32; bf_certificate : CertificateHash }.

Record WriterRegistryHeadRef := {
  wh_version : Z;
  wh_hash : ObjectHash;
  wh_chain : ChainId;
  wh_policy : WriterPolicyV1;
  wh_from : ChainSequence;
  wh_through : ChainSequence;
  wh_proposed : ChainSequence;
  wh_not_after : UnixMillis;
  wh_issued_at : UnixMillis;
  wh_now : PreexistingEffectiveNow;
  wh_certificates : list (CertificateHash * WriterCertificateV1);
  wh_current_writer : option CertificateHash;
  wh_transition : option EffectiveWriterTransitionV1;
  wh_bindings : gmap ObjectHash OperatorBindingFieldsV1;
}.

Definition active_certificate_fields (h : WriterRegistryHeadRef) (c : CertificateHash) : option WriterCertificateV1 :=
  (λ p, p.2.2) <$> list_find (λ p, p.1 = c) (wh_certificates h).

Inductive StaleDecision := Fresh | StaleAcknowledgeable | HardBlock.
#[export] Instance StaleDecision_eq_dec : EqDecision StaleDecision.
Proof. solve_decision. Defined.

Definition is_hard_block (d : StaleDecision) : bool := match d with HardBlock => true | _ => false end.

(** [FinalizationPreview] with its hash for its core. *)
Record FinalizationPreview := {
  pv_hash : Hash32;
  pv_decision : StaleDecision;
  pv_trust_age_ms : Z;
  pv_refresh_ms : Z;
}.

Definition trust_refresh_overdue (p : FinalizationPreview) : bool := pv_refresh_ms p <? pv_trust_age_ms p.

Record StaleRegistryAcknowledgement := {
  ak_event : Id16;
  ak_exact : list byte;
  ak_proof : OperatorSessionProof;
  ak_at : UnixMillis;
}.

(** [Stop] with what its cases carry. *)
Module Run.
Inductive Stop :=
| After (step : FinalizationStep)
| AtFault (point : FinalizationFaultPoint)
| Confirmed (p : FinalizationPreview)
| Acknowledge (p : FinalizationPreview)
| WithStale (p : FinalizationPreview) (ack : StaleRegistryAcknowledgement) (fault : option FinalizationFaultPoint).
End Run.

Definition stop_after (stop : Run.Stop) (step : FinalizationStep) : bool :=
  match stop with Run.After s => bool_decide (s = step) | _ => false end.

Definition confirmed_preview (stop : Run.Stop) : option FinalizationPreview :=
  match stop with Run.Confirmed p | Run.Acknowledge p | Run.WithStale p _ _ => Some p | _ => None end.

(** ** Step 1: the chain of the archive *)

Record DestroyedEntryStubV1 := { ds_entry_hash : EntryHash; ds_manifest : ManifestCoreFieldsV1; ds_original : ObjectHash }.

(** A receipt is read as the object hash of the entry it confirms. *)
Abbreviation ChainObject := (@ParsedArchiveObject EntryPackageV1 GrantV1 ObjectHash unit unit DestroyedEntryStubV1).

(** The blobs with their path hints. *)
Record WriterSource := { ws_blobs : list (str * list byte); ws_failure : option ArchiveError }.

Definition PublishedObjectsOnly (s : WriterSource) : ArchiveSource :=
  {| Inventory.blobs := snd <$> filter (λ p, is_staging_path p.1 = false) (ws_blobs s); Inventory.failure := ws_failure s |}.

Definition chain_node (kind : ChainNodeKind) (m : ManifestCoreFieldsV1) (entry_hash : EntryHash) (object_hash : ObjectHash) : ChainNode :=
  {| Chain.chain_id := mf_chain m; chain_sequence := mf_sequence m; previous_entry_hash := mf_previous m;
     Chain.entry_hash := entry_hash; Chain.object_hash := object_hash; writer_certificate_hash := mf_writer m;
     writer_transition_event_hash := mf_transition m; node_kind := kind |}.

Definition chain_nodes {R E T} (i : @ArchiveInventory EntryPackageV1 GrantV1 R E T DestroyedEntryStubV1) : list ChainNode :=
  ((λ p, chain_node EntryPackage (ep_manifest (value p)) (ep_entry_hash (value p)) (p_object_hash p)) <$> entries i)
  ++ ((λ p, chain_node DestroyedStub (ds_manifest (value p)) (ds_entry_hash (value p)) (p_object_hash p)) <$> destroyed i).

Definition slot_of (m : ManifestCoreFieldsV1) : ChainId * ChainSequence := (mf_chain m, mf_sequence m).

Section Steps.
Context (digest : list byte → ObjectHash) (decode_exact_object : list byte → result string ChainObject).
Context (grant_plan_digest : list byte → Hash32).
Context (head : WriterRegistryHeadRef) (binding : WriterBindingV1).

Definition rebuild_local_head (source : WriterSource) : result WriterError VerifiedChain :=
  inventory ← map_err Wr.FromArchive
    (Inventory.build (λ e, slot_of (ep_manifest e)) (λ d, slot_of (ds_manifest d)) ds_original id digest decode_exact_object
       (PublishedObjectsOnly source));
  map_err Wr.ChainHeadUnusable (build_chain (wb_chain binding) (chain_nodes inventory)).

(** ** Step 2: the checkpoints *)

Definition compare_checkpoint (chain : VerifiedChain) (claims : list CheckpointClaim) : result WriterError RollbackAssessment :=
  match assess_rollback chain claims with Rollback _ => Err Wr.RollbackDetected | a => Ok a end.

(** ** Step 3: the registry head and the operator *)

Definition expected_sequence (chain : VerifiedChain) : ChainSequence :=
  match verified_head chain with Some h => saturating_add u64_max (head_sequence h) 1 | None => 0 end.

Definition transition_here : option EffectiveWriterTransitionV1 :=
  t ← wh_transition head; if wt_from t =? wh_proposed head then Some t else None.

Definition resolve_content (content : FinalizationContent) (previous : option EntryHash) : result WriterError ResolvedContent :=
  match content, transition_here with
  | Content.Incident, None => Ok Resolved.Incident
  | Content.Amendment, None => Ok Resolved.Amendment
  | Content.DestructionEvidence, None => Ok Resolved.DestructionEvidence
  | Content.KeyTransition, None => Err Wr.WriterTransitionMismatch
  | Content.KeyTransition, Some t =>
      if bool_decide (previous ≠ Some (wt_previous t)) then Err Wr.HeadReconciliationRequired
      else Ok (Resolved.KeyTransition (wt_object t))
  | _, Some _ => Err Wr.WriterTransitionRequired
  end.

Definition transition_event_hash (r : ResolvedContent) : option ObjectHash :=
  match r with Resolved.KeyTransition t => Some t | _ => None end.

Definition floored_now (observed_now : UnixMillis) : UnixMillis := Z.max (now_value (wh_now head)) observed_now.

Definition require_current_proof (proof : OperatorSessionProof) (purpose : ReauthPurpose) (observed_now : UnixMillis)
    : result WriterError unit :=
  certificate ← ok_or Wr.WriterRevoked (active_certificate_fields head (wb_writer binding));
  bound ← ok_or Wr.ReauthBindingMismatch (wh_bindings head !! wb_binding binding);
  if bool_decide (binding_object_hash proof ≠ wb_binding binding) || bool_decide (organization_id proof ≠ wc_organization certificate)
     || bool_decide (device_id proof ≠ dc_device (wc_fields certificate)) || bool_decide (bf_certificate bound ≠ wb_writer binding)
  then Err Wr.ReauthBindingMismatch else
  let now := floored_now observed_now in
  if is_valid_at proof purpose now then Ok tt else
  if existsb (λ candidate, is_valid_at proof candidate now) ALL_PURPOSES
  then Err Wr.ReauthPurposeMismatch else Err Wr.ReauthRequired.

Definition require_fresh_proof (proof : OperatorSessionProof) (purpose : ReauthPurpose) : result WriterError unit :=
  if bool_decide (binding_object_hash proof ≠ wb_binding binding) then Err Wr.ReauthBindingMismatch else
  if is_valid_for proof purpose (wh_now head) then Ok tt else
  if existsb (λ candidate, is_valid_for proof candidate (wh_now head)) (filter (λ c, c ≠ purpose) ALL_PURPOSES)
  then Err Wr.ReauthPurposeMismatch else Err Wr.ReauthRequired.

Definition require_proof (stop : Run.Stop) (proof : OperatorSessionProof) (observed_now : UnixMillis) : result WriterError unit :=
  match stop with
  | Run.Acknowledge _ => require_current_proof proof RegistryStaleFinalize observed_now
  | Run.WithStale _ _ _ => require_current_proof proof Finalize observed_now
  | _ => require_fresh_proof proof Finalize
  end.

Record Selection := {
  se_sequence : ChainSequence;
  se_previous : option EntryHash;
  se_resolved : ResolvedContent;
  se_binding : OperatorBindingFieldsV1;
  se_recovery_recipients : nat;
}.

Definition select_registry_head (chain : VerifiedChain) (content : FinalizationContent) (stop : Run.Stop)
    (proof : OperatorSessionProof) (observed_now : UnixMillis) : result WriterError Selection :=
  let proposed := wh_proposed head in
  let previous := head_entry_hash <$> verified_head chain in
  if negb (proposed =? expected_sequence chain) then Err Wr.HeadReconciliationRequired else
  if (proposed <? wh_from head) || (wh_through head <? proposed) then Err Wr.SequenceLeaseExhausted else
  if bool_decide (wh_current_writer head ≠ Some (wb_writer binding)) then Err Wr.WriterRevoked else
  resolved ← resolve_content content previous;
  _ ← require_proof stop proof observed_now;
  fields ← ok_or Wr.ReauthBindingMismatch (wh_bindings head !! wb_binding binding);
  let recipients := length (filter (λ c, dc_kind (wc_fields c.2) = KindRecoveryRecipient) (wh_certificates head)) in
  if bool_decide (recipients = 0%nat) then Err Wr.NoActiveRecoveryRecipient else
  if bool_decide (wb_profile binding ∉ wp_profiles (wh_policy head)) then Err Wr.ArchiveProfileNotAllowed else
  if bool_decide (wb_chain binding ≠ wh_chain head) then Err Wr.ChainIdMismatch else
  Ok {| se_sequence := proposed; se_previous := previous; se_resolved := resolved; se_binding := fields;
        se_recovery_recipients := recipients |}.

(** Steps 1 to 3; a run may be stopped after each. *)
Inductive HeadOutcome := Halted (step : FinalizationStep) | Selected (chain : VerifiedChain) (s : Selection).

Definition first_steps (source : WriterSource) (claims : list CheckpointClaim) (content : FinalizationContent) (stop : Run.Stop)
    (proof : OperatorSessionProof) (observed_now : UnixMillis) : result WriterError HeadOutcome :=
  chain ← rebuild_local_head source;
  if stop_after stop Step.RebuildLocalHead then Ok (Halted Step.RebuildLocalHead) else
  _ ← compare_checkpoint chain claims;
  if stop_after stop Step.CompareServerCheckpoint then Ok (Halted Step.CompareServerCheckpoint) else
  s ← select_registry_head chain content stop proof observed_now;
  if stop_after stop Step.SelectRegistryHeadAndOperator then Ok (Halted Step.SelectRegistryHeadAndOperator) else
  Ok (Selected chain s).

(** ** Step 5: the plan of the grants ([grant_plan.rs]) *)

Fixpoint writer_items (certificates : list (CertificateHash * WriterCertificateV1)) : result WriterError (list GrantPlanItemV1) :=
  match certificates with
  | [] => Ok []
  | (hash, c) :: certificates =>
      match match dc_kind (wc_fields c) with
            | KindReader => Some Gp.Reader | KindRecoveryRecipient => Some Gp.Recovery | _ => None end with
      | None => writer_items certificates
      | Some purpose =>
          thumbprint ← ok_or Wr.ReaderWithoutKemKey (dc_kem_thumbprint (wc_fields c));
          rest ← writer_items certificates;
          Ok ({| pi_thumbprint := thumbprint; pi_certificate := hash; pi_purpose := purpose |} :: rest)
      end
  end.

Definition build_writer_grant_plan : result WriterError GrantPlanV1 :=
  items ← writer_items (wh_certificates head);
  map_err Wr.FromFormat (GrantPlanV1_new grant_plan_digest items).

(** ** The age of the registry head *)

Definition stale_decision (observed_now : UnixMillis) : StaleDecision :=
  if floored_now observed_now <=? wh_not_after head then Fresh else
  if (wp_operating_profile (wh_policy head) =? 1) || (wp_expiry_behavior (wh_policy head) =? 1) then HardBlock
  else StaleAcknowledgeable.

(** [u64::try_from(..).unwrap_or(0)] of a difference in [i128]. *)
Definition trust_age_ms (observed_now : UnixMillis) : Z :=
  let age := floored_now observed_now - wh_issued_at head in
  if (0 <=? age) && (age <=? u64_max) then age else 0.

Definition preview_of (hash : Hash32) (observed_now : UnixMillis) : FinalizationPreview :=
  {| pv_hash := hash; pv_decision := stale_decision observed_now; pv_trust_age_ms := trust_age_ms observed_now;
     pv_refresh_ms := wp_refresh_ms (wh_policy head) |}.

(** ** The confirmation *)

(** The stored receipts with the bytes of their events, and the consumed ones. *)
Record StaleTables := { st_receipts : gmap Id16 (list byte); st_consumed : gset Id16 }.

Definition consume (ack : StaleRegistryAcknowledgement) (t : StaleTables) : result WriterError StaleTables :=
  if bool_decide (st_receipts t !! ak_event ack = Some (ak_exact ack)) && bool_decide (ak_event ack ∉ st_consumed t)
  then Ok {| st_receipts := st_receipts t; st_consumed := {[ ak_event ack ]} ∪ st_consumed t |}
  else Err Wr.StaleAckReplay.

(** Whether the run goes on; the store of receipts may not be attached. *)
Definition confirm (preview : FinalizationPreview) (stop : Run.Stop) (proof : OperatorSessionProof) (observed_now : UnixMillis)
    (store : option StaleTables) : result WriterError (option StaleTables * bool) :=
  let decision := pv_decision preview in
  if is_hard_block decision then Err Wr.RegistryStaleBlocked else
  if match confirmed_preview stop with Some p => bool_decide (pv_hash preview ≠ pv_hash p) | None => false end
  then Err Wr.StaleAckPreviewMismatch else
  match stop with
  | Run.Acknowledge p =>
      if bool_decide (decision ≠ StaleAcknowledgeable) || bool_decide (pv_decision p ≠ decision)
         || bool_decide (context_hash proof ≠ Some (pv_hash p))
      then Err Wr.StaleAckPreviewMismatch else Ok (store, false)
  | Run.WithStale p ack _ =>
      if bool_decide (decision ≠ StaleAcknowledgeable) || bool_decide (pv_decision p ≠ decision)
         || bool_decide (context_hash (ak_proof ack) ≠ Some (pv_hash p)) || (floored_now observed_now <? ak_at ack)
      then Err Wr.StaleAckPreviewMismatch else
      _ ← require_current_proof (ak_proof ack) RegistryStaleFinalize observed_now;
      t ← ok_or Wr.StaleAckRequired store;
      t ← consume ack t;
      Ok (Some t, true)
  | _ => if bool_decide (decision = StaleAcknowledgeable) then Err Wr.StaleAckRequired else Ok (store, true)
  end.

(** ** Step 6: what the manifest says of its place *)

Definition manifest_fields (organization : OrganizationId) (s : Selection) (plan : GrantPlanV1) : ManifestCoreFieldsV1 :=
  {| mf_organization := organization; mf_chain := wb_chain binding; mf_sequence := se_sequence s; mf_previous := se_previous s;
     mf_writer := wb_writer binding; mf_transition := transition_event_hash (se_resolved s);
     mf_registry_version := wh_version head; mf_registry_head := wh_hash head; mf_plan := gp_hash plan |}.
End Steps.

(** ** Writer and server agree on the recipients *)

Definition server_certificates (h : WriterRegistryHeadRef) : list (CertificateHash * DeviceCertificateFieldsV1) :=
  (λ p, (p.1, wc_fields p.2)) <$> wh_certificates h.


Lemma writer_items_cases l :
  match writer_items l, expected_items ((λ p, (p.1, wc_fields p.2)) <$> l) with
  | Ok a, Ok b => a = b
  | Err _, Err _ => True
  | _, _ => False
  end.
Proof.
  induction l as [|[h c] l IH]; [done|]. cbn [writer_items fmap list_fmap expected_items fst snd]. unfold list_fmap in IH. unfold expected_purpose.
  destruct (dc_kind (wc_fields c)); try exact IH.
  all: destruct (dc_kem_thumbprint (wc_fields c)) as [k|]; cbn; [|done].
  all: destruct (writer_items l), (expected_items _); cbn; congruence || done.
Qed.

Section Agreement.
Context (grant_plan_digest : list byte → Hash32) (decode_exact_object : list byte → result FormatError Object).
Context (writer_signature_valid : ActiveRegistryHeadV1 → EntryPackageV1 → bool).
Context (issuer_signature_valid : ActiveRegistryHeadV1 → ChainSequence → GrantV1 → bool).

Lemma tuple_key_inj items : key_inj tuple_key items.
Proof.
  intros a b _ _. unfold tuple_key. destruct a as [k c p], b as [k' c' p']. cbn. intros [= -> -> Hp]. by destruct p, p'.
Qed.

(** A plan is its own plan. *)
Lemma plan_again items p :
  GrantPlanV1_new grant_plan_digest items = Ok p → GrantPlanV1_new grant_plan_digest (gp_items p) = Ok p.
Proof.
  unfold GrantPlanV1_new. intros H. apply bind_Ok in H as ([] & [Hr Hk Hc]%validate_plan_items_Ok & [= <-]). cbn [gp_items].
  assert (sort_by_key tuple_key items ≡ₚ items) as Hp by apply sort_by_key_perm.
  rewrite (proj2 (validate_plan_items_Ok (sort_by_key tuple_key items))).
  - cbn [mbind result_bind]. by rewrite <- (sort_by_key_proper tuple_key items (sort_by_key tuple_key items)) by (done || apply tuple_key_inj).
  - split; [|by rewrite Hp|by rewrite Hp]. destruct Hr as [r Hr]. exists r. apply Permutation_singleton_r.
    unfold recoveries in *. by rewrite Hp, Hr.
Qed.

(** The server's head is the writer's. *)
Record same_head (w : WriterRegistryHeadRef) (s : ActiveRegistryHeadV1) : Prop := {
  sm_version : ah_version s = wh_version w;
  sm_hash : ah_hash s = wh_hash w;
  sm_chain : ah_chain s = wh_chain w;
  sm_certificates : ah_certificates s = server_certificates w;
  sm_transition : ah_transition s = wh_transition w;
}.

(** What the registry promises of the running writer: its certificate is active,
    a transition does not take it away, and the writer of a transition at this
    sequence is the new one. *)
Record running_writer (w : WriterRegistryHeadRef) : Prop := {
  rw_active c : wh_current_writer w = Some c → ∃ f, (c, f) ∈ wh_certificates w ∧ dc_kind (wc_fields f) = KindWriter;
  rw_kept c t : wh_current_writer w = Some c → wh_transition w = Some t → wt_old t ≠ c;
  rw_new c t : wh_current_writer w = Some c → wh_transition w = Some t → wt_from t = wh_proposed w → wt_new t = c;
}.

(** The plan of the writer is the plan the server expects. *)
Lemma plans_agree w s plan :
  same_head w s → build_writer_grant_plan grant_plan_digest w = Ok plan → expected_plan grant_plan_digest s = Ok plan.
Proof.
  intros Hs H. unfold build_writer_grant_plan in H. apply bind_Ok in H as (items & Hi & Hp%map_err_Ok). unfold expected_plan.
  rewrite (sm_certificates _ _ Hs). pose proof (writer_items_cases (wh_certificates w)) as Hc. rewrite Hi in Hc.
  unfold server_certificates. destruct (expected_items _); [|done]. subst. cbn. by rewrite Hp.
Qed.

(** What the writer makes of an item of the plan. *)
Definition grant_of (s : ActiveRegistryHeadV1) (eh : EntryHash) (q : ChainSequence) (item : GrantPlanItemV1) (b : list byte) : Prop :=
  ∃ g, decode_exact_object b = Ok (Grant g) ∧ plan_item (value g) = item ∧ gt_kind (value g) = GInitial ∧
    gt_entry_hash (value g) = eh ∧ issuer_signature_valid s q (value g) = true.

Lemma parse_produced s eh q items bytes :
  Forall2 (grant_of s eh q) items bytes →
  ∃ grants, parse_grants decode_exact_object issuer_signature_valid s eh q bytes = Ok grants ∧
    (λ g, plan_item (value g)) <$> grants = items.
Proof.
  induction 1 as [|i b items bytes (g & Hd & Hi & Hk & He & Hv) _ (grants & Hg & Hp)]; [by exists []|].
  exists (g :: grants). split; [|cbn; congruence]. cbn [parse_grants]. rewrite Hd, Hk, He, Hv, Hg.
  by rewrite !bool_decide_eq_false_2 by tauto.
Qed.

Lemma transition_checked w s b content chain stop proof now sel :
  same_head w s → running_writer w → select_registry_head w b chain content stop proof now = Ok sel →
  ∀ plan org, verify_writer_transition_hash (manifest_fields w b org sel plan) (ah_transition s) = Ok tt.
Proof.
  intros Hs Hw H plan org. unfold select_registry_head in H.
  destruct (negb _); [done|]. destruct (_ || _); [done|]. case_bool_decide as Hc; [done|].
  apply bind_Ok in H as (res & Hr & H). apply bind_Ok in H as (u & _ & H). apply bind_Ok in H as (f & _ & H).
  do 3 (case_bool_decide; [done|]). injection H as <-. unfold verify_writer_transition_hash, manifest_fields. cbn.
  rewrite (sm_transition _ _ Hs). unfold resolve_content, transition_here in Hr.
  destruct (wh_transition w) as [t|] eqn:Et; cbn in *.
  2: { destruct content; cbn in Hr; try done; by injection Hr as <-. }
  destruct (wt_from t =? wh_proposed w) eqn:Ef; cbn in *.
  2: { destruct content; cbn in Hr; try done; by injection Hr as <-. }
  destruct content; try done. case_bool_decide as Hp; [done|]. injection Hr as <-. cbn.
  apply Z.eqb_eq in Ef. rewrite (rw_new _ Hw _ _ Hc Et Ef), Hp. by rewrite !bool_decide_eq_true_2.
Qed.

Lemma select_checked w b chain content stop proof now sel :
  select_registry_head w b chain content stop proof now = Ok sel →
  wh_proposed w = expected_sequence chain ∧ wh_from w ≤ wh_proposed w ≤ wh_through w ∧
  wh_current_writer w = Some (wb_writer b) ∧ wb_chain b = wh_chain w ∧
  se_sequence sel = wh_proposed w ∧ se_previous sel = head_entry_hash <$> verified_head chain.
Proof.
  unfold select_registry_head. destruct (negb _) eqn:E1; [done|]. apply negb_false_iff, Z.eqb_eq in E1.
  destruct (_ || _) eqn:E2; [done|]. apply orb_false_iff in E2 as [E2 E3]. case_bool_decide as Hc; [done|]. intros H.
  apply bind_Ok in H as (res & _ & H). apply bind_Ok in H as (u & _ & H). apply bind_Ok in H as (f & _ & H).
  do 2 (case_bool_decide; [done|]). case_bool_decide as Hch; [done|]. injection H as <-. cbn.
  apply Z.ltb_ge in E2, E3. split_and!; done || lia.
Qed.

Lemma active_writer_found (s : ActiveRegistryHeadV1) c f :
  (c, f) ∈ ah_certificates s → dc_kind f = KindWriter → ∃ device, active_writer s c = Ok device.
Proof.
  intros Hin Hk. unfold active_writer.
  destruct (list_find (λ p, p.1 = c ∧ dc_kind p.2 = KindWriter) (ah_certificates s)) as [[i p]|] eqn:E; [by eexists|].
  apply list_find_None in E. rewrite Forall_forall in E. by destruct (E _ Hin).
Qed.

(** What the writer places under a registry head, the server accepts under
    the same head: an entry with the manifest of the selection and of the
    writer's plan, signed, with a grant for each item of the plan, passes every
    check of a commit, in the sequence and after the entry the writer chose. *)
Theorem writer_commit_accepted w b s chain content stop proof now sel plan org request entry :
  same_head w s → running_writer w → suite_allowed (ah_policy s) = true →
  select_registry_head w b chain content stop proof now = Ok sel → build_writer_grant_plan grant_plan_digest w = Ok plan →
  ep_manifest (value entry) = manifest_fields w b org sel plan → writer_signature_valid s (value entry) = true →
  rq_plan request = plan →
  Forall2 (grant_of s (ep_entry_hash (value entry)) (se_sequence sel)) (gp_items plan) (rq_grants request) →
  ∃ v, validate_commit decode_exact_object grant_plan_digest writer_signature_valid issuer_signature_valid
         request entry org (wb_chain b) (wb_writer b) s = Ok v ∧
    vc_sequence v = se_sequence sel ∧ vc_previous v = head_entry_hash <$> verified_head chain ∧
    length (vc_grants v) = length (gp_items plan).
Proof.
  intros Hs Hw Hsu Hsel Hplan Hm Hsig Hrp Hg.
  destruct (select_checked _ _ _ _ _ _ _ _ Hsel) as (_ & _ & Hcw & Hch & Hq & Hp).
  destruct (parse_produced _ _ _ _ _ Hg) as (grants & Hpg & Hitems).
  pose proof (transition_checked _ _ _ _ _ _ _ _ _ Hs Hw Hsel plan org) as Ht.
  pose proof (plans_agree _ _ _ Hs Hplan) as He.
  assert (GrantPlanV1_new grant_plan_digest (gp_items plan) = Ok plan) as Hag.
  { unfold build_writer_grant_plan in Hplan. apply bind_Ok in Hplan as (items & _ & Hp'%map_err_Ok). by eapply plan_again. }
  destruct (rw_active _ Hw _ Hcw) as (f & Hf & Hk).
  destruct (active_writer_found s (wb_writer b) (wc_fields f)) as [device Hd]; [|done|].
  { rewrite (sm_certificates _ _ Hs). by apply (list_elem_of_fmap_2 (λ p, (p.1, wc_fields p.2)) _ _ Hf). }
  unfold validate_commit. rewrite Hm. cbn [mf_organization mf_chain mf_writer mf_registry_version mf_registry_head mf_plan mf_sequence mf_previous manifest_fields].
  rewrite (bool_decide_eq_false_2 (org ≠ org)) by tauto.
  rewrite (bool_decide_eq_false_2 (wb_chain b ≠ wb_chain b)), (bool_decide_eq_false_2 (wb_chain b ≠ ah_chain s))
    by (rewrite ?(sm_chain _ _ Hs); tauto). cbn [orb].
  rewrite (bool_decide_eq_false_2 (wb_writer b ≠ wb_writer b)) by tauto.
  replace (is_some_and _ (ah_transition s)) with false.
  2: { rewrite (sm_transition _ _ Hs). destruct (wh_transition w) as [t|] eqn:Et; [|done]. cbn. symmetry.
       apply bool_decide_eq_false_2. by apply (rw_kept _ Hw). }
  rewrite Hd. cbn [mbind result_bind]. rewrite Ht. cbn [mbind result_bind]. rewrite Hsu. cbn [negb].
  rewrite (sm_version _ _ Hs), Z.eqb_refl, (sm_hash _ _ Hs), (bool_decide_eq_false_2 (wh_hash w ≠ wh_hash w)) by tauto. cbn [negb orb].
  rewrite Hsig. cbn [negb]. rewrite Hrp, (bool_decide_eq_false_2 (gp_hash plan ≠ gp_hash plan)) by tauto.
  rewrite Hpg. cbn [mbind result_bind]. rewrite Hitems, Hag. cbn [mbind result_bind map_err].
  rewrite (bool_decide_eq_false_2 (gp_hash plan ≠ gp_hash plan)) by tauto.
  rewrite He. cbn [mbind result_bind]. rewrite (bool_decide_eq_false_2 (gp_hash plan ≠ gp_hash plan)) by tauto. eexists. split; [done|]. cbn. split_and!; [done|done|].
  rewrite length_fmap, <- Hitems, length_fmap. done.
Qed.
End Agreement.

(** ** The new entry continues the chain *)

(** A node after the last one of a linear chain. *)
Lemma linear_extend ns m n :
  linear_chain ns → m ∈ ns → (∀ a, a ∈ ns → chain_sequence a ≤ chain_sequence m) → links m n →
  (∀ a, a ∈ ns → Chain.entry_hash a = Chain.entry_hash m → chain_sequence a = chain_sequence m) →
  (∀ a, a ∈ ns → chain_sequence a = 0 ↔ previous_entry_hash a = None) → (∀ a, a ∈ ns → 0 ≤ chain_sequence a) →
  linear_chain (ns ++ [n]).
Proof.
  intros [Hocc Hun Hch Hbd] Hm Hmax [Hq Hp] Hd Hgen Hpos.
  assert (∀ a, a ∈ ns ++ [n] → a ∈ ns ∨ a = n) as Hcase by set_solver.
  assert (∀ a, a ∈ ns → a ∈ ns ++ [n]) as Hin by set_solver.
  assert (∀ a, a ∈ ns → previous_entry_hash a ≠ previous_entry_hash n) as Hnp.
  { intros a Ha E. rewrite Hp in E. pose proof (Hmax a Ha). pose proof (Hpos a Ha). pose proof (Hgen a Ha) as Hg.
    destruct (decide (chain_sequence a = 0)) as [Hz|Hz]; [apply Hg in Hz; congruence|].
    destruct (Hocc a (chain_sequence a - 1) Ha ltac:(lia)) as (k & Hk & Hkq).
    rewrite (Hbd k a Hk Ha ltac:(lia)) in E. injection E as E. apply (Hd k Hk) in E. lia. }
  split.
  - intros a s [Ha| ->]%Hcase Hs; [destruct (Hocc a s Ha Hs) as (k & ? & ?); exists k; auto|].
    destruct (decide (s = chain_sequence n)) as [->|]; [exists n; set_solver|].
    destruct (Hocc m s Hm ltac:(lia)) as (k & ? & ?). exists k; auto.
  - intros a c [Ha| ->]%Hcase [Hc| ->]%Hcase E; [by apply Hun|pose proof (Hmax a Ha); lia|pose proof (Hmax c Hc); lia|done].
  - intros a c [Ha| ->]%Hcase [Hc| ->]%Hcase Hs E; [by apply Hch| | |done].
    + by destruct (Hnp a Ha).
    + by destruct (Hnp c Hc).
  - intros a c [Ha| ->]%Hcase [Hc| ->]%Hcase E; [by apply Hbd| |pose proof (Hmax c Hc); lia|lia].
    rewrite Hp. f_equal. symmetry. apply Hun; [done|done|lia].
Qed.

Lemma linear_single n : chain_sequence n = 0 → previous_entry_hash n = None → linear_chain [n].
Proof.
  intros H0 Hp. split.
  - intros a s ->%list_elem_of_singleton Hs. exists n. split; [set_solver|lia].
  - by intros a b ->%list_elem_of_singleton ->%list_elem_of_singleton.
  - by intros a b ->%list_elem_of_singleton ->%list_elem_of_singleton.
  - intros a b ->%list_elem_of_singleton ->%list_elem_of_singleton. lia.
Qed.

Lemma last_sorted_elem ns m : last (sorted_nodes ns) = Some m → m ∈ ns.
Proof. intros (k & E)%last_Some. rewrite <- elem_of_sorted_nodes, E. set_solver. Qed.

(** The greatest node of a chain ends it. *)
Lemma built_last cid ns n c :
  build_chain cid (ns ++ [n]) = Ok c → (∀ a, a ∈ ns → chain_sequence a < chain_sequence n) → Chain.head c = Some (head_of n).
Proof.
  intros (_ & _ & ->)%build_chain_Ok Hlt. cbn. assert (n ∈ ns ++ [n]) as Hn by set_solver.
  destruct (last (sorted_nodes (ns ++ [n]))) as [l|] eqn:El.
  - pose proof (last_sorted_greatest _ _ _ El Hn) as Hge. apply last_sorted_elem, elem_of_app in El as [Hl|Hl].
    + pose proof (Hlt l Hl). lia.
    + by apply list_elem_of_singleton in Hl as ->.
  - apply last_None in El. rewrite <- elem_of_sorted_nodes, El in Hn. by apply elem_of_nil in Hn.
Qed.

(** On an archive without findings the entry goes to the end of the chain:
    with the sequence and predecessor that were selected, the chain of the archive
    and the new entry is again without findings, and the entry is its verified
    head. *)
Theorem finalized_entry_extends_chain w b ns chain content stop proof now sel plan org eh oh :
  build_chain (wb_chain b) ns = Ok chain → is_fully_verified chain = true → sequences_in_u64 ns →
  (∀ a c, a ∈ ns → c ∈ ns → Chain.entry_hash a = Chain.entry_hash c → chain_sequence a = chain_sequence c) →
  Z.of_nat (length ns) < MAX_CHAIN_NODES_V1 → wh_proposed w < u64_max →
  select_registry_head w b chain content stop proof now = Ok sel →
  let n := chain_node EntryPackage (manifest_fields w b org sel plan) eh oh in
  ∃ c, build_chain (wb_chain b) (ns ++ [n]) = Ok c ∧ is_fully_verified c = true ∧ verified_head c = Some (head_of n).
Proof.
  intros Hb Hf Hu Hd Hlen Hlt Hsel n. destruct (select_checked _ _ _ _ _ _ _ _ Hsel) as (He & _ & _ & _ & Hq & Hp).
  pose proof (fully_verified_linear _ _ _ Hb Hu Hf) as Hlin. pose proof (fully_verified_head _ _ _ Hb Hu Hf) as Hvh.
  pose proof Hb as (_ & Hok & Ec)%build_chain_Ok. assert (Chain.head chain = head_of <$> last (sorted_nodes ns)) as Eh by (by subst chain).
  unfold expected_sequence in He. rewrite Hvh, Eh in He, Hp. clear Ec Hsel.
  assert (linear_chain (ns ++ [n]) ∧ (∀ a, a ∈ ns → chain_sequence a < chain_sequence n) ∧ node_ok (wb_chain b) n ∧ in_u64 (chain_sequence n))
    as (Hl' & Hmax & Hn & Hnu).
  { unfold sequences_in_u64 in Hu. rewrite Forall_forall in Hu, Hok.
    destruct (last (sorted_nodes ns)) as [m|] eqn:El; cbn in He, Hp.
    - pose proof (last_sorted_elem _ _ El) as Hm. pose proof (Hu m Hm) as Hmu. unfold in_u64 in Hmu.
      assert (chain_sequence n = chain_sequence m + 1) as Hnq.
      { cbn. rewrite Hq, He. unfold saturating_add in *. lia. }
      assert (links m n) as Hln by (split; [done|exact Hp]).
      split_and!.
      + apply (linear_extend ns m); try done; [by intros a; apply last_sorted_greatest|by intros a Ha; apply Hd| |].
        * intros a Ha. by apply Hok.
        * intros a Ha. apply Hu in Ha. unfold in_u64 in Ha. lia.
      + intros a Ha. pose proof (last_sorted_greatest _ _ _ El Ha). lia.
      + split; [done|]. rewrite Hnq. split; [lia|]. rewrite (proj2 Hln). done.
      + unfold in_u64. cbn in *. lia.
    - apply last_None in El. assert (ns = []) as ->.
      { apply elem_of_nil_inv. intros a Ha. rewrite <- elem_of_sorted_nodes, El in Ha. by apply elem_of_nil in Ha. }
      assert (chain_sequence n = 0) as H0 by (cbn; congruence). assert (previous_entry_hash n = None) as Hp0 by exact Hp.
      split_and!; [by apply linear_single|by intros a ?%elem_of_nil| |].
      + split; [done|]. by rewrite H0, Hp0.
      + unfold in_u64. rewrite H0. done. }
  assert (sequences_in_u64 (ns ++ [n])) as Hu' by (apply Forall_app; split; [done|by apply Forall_singleton]).
  destruct (build_chain (wb_chain b) (ns ++ [n])) as [c|e] eqn:E.
  - exists c. split; [done|]. pose proof (linear_fully_verified _ _ _ E Hu' Hl') as Hf'. split; [done|].
    rewrite (fully_verified_head _ _ _ E Hu' Hf'). by eapply built_last.
  - exfalso. enough (∃ c, build_chain (wb_chain b) (ns ++ [n]) = Ok c) as [c Hc] by congruence.
    eexists. apply build_chain_Ok. split_and!; [|apply Forall_app; split; [done|by apply Forall_singleton]|done].
    rewrite length_app. cbn. lia.
Qed.

(** ** An expired registry head *)

(** A run goes on only under a registry head that has not expired, or with
    an acknowledgement of exactly the preview computed now, under a policy that
    allows one: it is stored with these bytes, was not used before, is used up
    now, and its proof is for this purpose, this binding and this preview. *)
Theorem stale_head_needs_acknowledgement w b hash stop proof now store store' :
  confirm w b (preview_of w hash now) stop proof now store = Ok (store', true) →
  (floored_now w now ≤ wh_not_after w ∧ store' = store ∧ ∀ p, confirmed_preview stop = Some p → pv_hash p = hash) ∨
  (wh_not_after w < floored_now w now ∧ wp_operating_profile (wh_policy w) ≠ 1 ∧ wp_expiry_behavior (wh_policy w) ≠ 1 ∧
   ∃ p ack fault t, stop = Run.WithStale p ack fault ∧ store = Some t ∧ pv_hash p = hash ∧ pv_decision p = StaleAcknowledgeable ∧
     context_hash (ak_proof ack) = Some hash ∧ ak_at ack ≤ floored_now w now ∧
     is_valid_at (ak_proof ack) RegistryStaleFinalize (floored_now w now) = true ∧
     binding_object_hash (ak_proof ack) = wb_binding b ∧
     st_receipts t !! ak_event ack = Some (ak_exact ack) ∧ (ak_event ack ∉ st_consumed t) ∧
     store' = Some {| st_receipts := st_receipts t; st_consumed := {[ ak_event ack ]} ∪ st_consumed t |}).
Proof.
  unfold confirm, preview_of, stale_decision. cbn [pv_decision pv_hash].
  destruct (Z.leb_spec (floored_now w now) (wh_not_after w)) as [Hle|Hgt]; cbn [is_hard_block].
  - destruct stop as [st|pt|p|p|p ack fault]; cbn [confirmed_preview].
    1-2: case_bool_decide; [done|]; intros [= <-]; left; by split_and!.
    + case_bool_decide as Hh; [done|]. case_bool_decide; [done|]. intros [= <-]. left. split_and!; [done..|].
      by intros p' [= <-].
    + case_bool_decide; [done|]. by destruct (_ || _).
    + case_bool_decide; [done|]. rewrite (bool_decide_eq_true_2 (Fresh ≠ StaleAcknowledgeable)) by done. done.
  - destruct (_ || _) eqn:Ep; cbn [is_hard_block]; [done|]. apply orb_false_iff in Ep as [E1%Z.eqb_neq E2%Z.eqb_neq].
    destruct stop as [st|pt|p|p|p ack fault]; cbn [confirmed_preview].
    1-2: by rewrite bool_decide_eq_true_2.
    + case_bool_decide; [done|]. by rewrite bool_decide_eq_true_2.
    + case_bool_decide; [done|]. by destruct (_ || _).
    + case_bool_decide as Hh; [done|]. destruct (_ || _) eqn:E; [done|].
      rewrite !orb_false_iff, !bool_decide_eq_false in E. destruct E as (((_ & Hd) & Hc) & Ha%Z.ltb_ge).
      apply dec_stable in Hd, Hc. intros H. apply bind_Ok in H as (u & Hpr & H). apply bind_Ok in H as (t & Ht%ok_or_Ok & H).
      apply bind_Ok in H as (t' & Hco & [= <-]). right. split_and!; [done..|]. exists p, ack, fault, t.
      unfold require_current_proof in Hpr. apply bind_Ok in Hpr as (cert & _ & Hpr). apply bind_Ok in Hpr as (bd & _ & Hpr).
      destruct (_ || _) eqn:Eb in Hpr; [done|]. rewrite !orb_false_iff, !bool_decide_eq_false in Eb.
      destruct Eb as (((Hbi%dec_stable & _) & _) & _). destruct (is_valid_at _ _ _) eqn:Ev; [|by destruct (existsb _ _)].
      unfold consume in Hco. destruct (_ && _) eqn:Ec; [|done]. apply andb_true_iff in Ec as [Hr%bool_decide_eq_true Hn%bool_decide_eq_true].
      injection Hco as <-. split_and!; done || congruence.
Qed.

(** ** Samples *)

Module SampleHead.
Definition certificate (kind : CertificateKindV1) (kem : option Hash32) : WriterCertificateV1 :=
  {| wc_organization := [x0a]; wc_fields := {| dc_device := [x01]; dc_kind := kind; dc_kem_thumbprint := kem |} |}.

Definition head_at (proposed not_after : Z) : WriterRegistryHeadRef := {|
  wh_version := 3; wh_hash := [x33]; wh_chain := [x07];
  wh_policy := {| wp_operating_profile := 0; wp_expiry_behavior := 0; wp_profiles := [[x0f]]; wp_refresh_ms := 1000 |};
  wh_from := 0; wh_through := 10; wh_proposed := proposed; wh_not_after := not_after; wh_issued_at := 0;
  wh_now := {| now_value := 50; persisted_floor := 0; wall_clock_ceiling := None; successor_ready_at := None |};
  wh_certificates := [([x0b], certificate KindWriter None); ([x0c], certificate KindRecoveryRecipient (Some [x1c]));
                      ([x0d], certificate KindReader (Some [x1d]))];
  wh_current_writer := Some [x0b]; wh_transition := None;
  wh_bindings := {[ [x0e] := {| bf_commitment := [x44]; bf_certificate := [x0b] |} ]};
|}.

Definition binding : WriterBindingV1 := {| wb_binding := [x0e]; wb_writer := [x0b]; wb_chain := [x07]; wb_profile := [x0f] |}.

Definition proof_for (purpose : ReauthPurpose) (context : option Hash32) : OperatorSessionProof := {|
  OperatorSession.purpose := purpose; organization_id := [x0a]; device_id := [x01]; binding_object_hash := [x0e];
  challenge_nonce := []; context_hash := context; issued_at := 40; expires_at := 200; invalidated := false |}.

(** A chain of two entries, and a second entry in the place of the last. *)
Definition manifest (sequence : Z) (previous : option EntryHash) : ManifestCoreFieldsV1 :=
  {| mf_organization := [x0a]; mf_chain := [x07]; mf_sequence := sequence; mf_previous := previous; mf_writer := [x0b];
     mf_transition := None; mf_registry_version := 3; mf_registry_head := [x33]; mf_plan := [] |}.
Definition blob (k : byte) : list byte := [x85; x44; x45; x41; x31; x00; x01; x01; x80; k].
Definition package (k : byte) (m : ManifestCoreFieldsV1) (h : EntryHash) : ChainObject :=
  Entry {| value := {| ep_entry_hash := h; ep_manifest := m; ep_signed_manifest := []; ep_signature := [] |};
           exact_bytes := blob k; p_object_hash := blob k |}.
Definition parse_blob (b : list byte) : result string ChainObject :=
  if bool_decide (b = blob x00) then Ok (package x00 (manifest 0 None) [x10]) else
  if bool_decide (b = blob x01) then Ok (package x01 (manifest 1 (Some [x10])) [x11]) else
  if bool_decide (b = blob x02) then Ok (package x02 (manifest 1 (Some [x10])) [x12]) else Err "EA-FORMAT".

Definition healthy : WriterSource :=
  {| ws_blobs := [(lit "entries/0", blob x00); (lit "entries/1", blob x01); (lit "entries/2.staging", blob x02)]; ws_failure := None |}.
Definition forked : WriterSource :=
  {| ws_blobs := [(lit "entries/0", blob x00); (lit "entries/1", blob x01); (lit "entries/2", blob x02)]; ws_failure := None |}.

Definition nodes_of (ks : list byte) : list ChainNode :=
  omap (λ k, match parse_blob (blob k) with
             | Ok (Entry p) => Some (chain_node EntryPackage (ep_manifest (value p)) (ep_entry_hash (value p)) (p_object_hash p))
             | _ => None end) ks.
Definition built (ns : list ChainNode) : VerifiedChain :=
  match build_chain [x07] ns with Ok c => c | Err _ => {| vc_chain_id := []; nodes := []; breaks := []; forks := []; gaps := [];
    Chain.head := None; verified_head := None |} end.
Definition selection (previous : option EntryHash) (sequence : Z) : Selection :=
  {| se_sequence := sequence; se_previous := previous; se_resolved := Resolved.Incident;
     se_binding := {| bf_commitment := [x44]; bf_certificate := [x0b] |}; se_recovery_recipients := 1 |}.
Definition stop : Run.Stop := Run.After Step.ReconcileAndOpenBlankDraft.

(** A staged file is not read; so the next place is 2. *)
Example healthy_steps :
  first_steps id parse_blob (head_at 2 100) binding healthy [] Content.Incident stop (proof_for Finalize None) 60
  = Ok (Selected (built (nodes_of [x00; x01])) (selection (Some [x11]) 2)).
Proof. vm_compute. reflexivity. Qed.

(** The commit of the entry. *)
Definition plan : GrantPlanV1 :=
  match build_writer_grant_plan id (head_at 2 100) with Ok p => p | Err _ => {| gp_items := []; gp_exact := []; gp_hash := [] |} end.
Definition grant (k c : byte) (purpose : GrantPurposeV1) : Object :=
  Grant {| value := {| gt_organization := [x0a]; gt_kind := GInitial; gt_entry_hash := [x13]; gt_purpose := purpose;
                       gt_thumbprint := [k]; gt_certificate := [c]; gt_body := []; gt_signature := [] |};
           exact_bytes := [k]; p_object_hash := [k] |}.
Definition parse_object (b : list byte) : result FormatError Object :=
  if bool_decide (b = [x1c]) then Ok (grant x1c x0c Gp.Recovery) else
  if bool_decide (b = [x1d]) then Ok (grant x1d x0d Gp.Reader) else Err Fmt.Shape.
Definition request : EntryCommitRequestV1 :=
  {| rq_entry := [x13]; rq_plan := plan; rq_grants := [[x1c]; [x1d]];
     rq_identity := {| ei_entry_hash := [x13]; ei_entry_object := [x13]; ei_plan := gp_hash plan; ei_grants := [[x1c]; [x1d]] |} |}.
Definition entry : Parsed EntryPackageV1 :=
  {| value := {| ep_entry_hash := [x13]; ep_manifest := manifest_fields (head_at 2 100) binding [x0a] (selection (Some [x11]) 2) plan;
                 ep_signed_manifest := []; ep_signature := [] |}; exact_bytes := [x13]; p_object_hash := [x13] |}.
Definition server_head : ActiveRegistryHeadV1 :=
  {| ah_version := 3; ah_hash := [x33]; ah_chain := [x07]; ah_policy_hash := [];
     ah_policy := {| pf_operating_profile := 0; pf_evidence_max_delay_ms := 0; pf_suites := [SUITE_ID]; pf_format_versions := [FORMAT_VERSION_V1] |};
     ah_certificates := server_certificates (head_at 2 100); ah_transition := None |}.
End SampleHead.
Import SampleHead.

Lemma writer_commit_accepted_witness :
  ∃ v, validate_commit parse_object id (λ _ _, true) (λ _ _ _, true) request entry [x0a] [x07] [x0b] server_head = Ok v ∧
    vc_sequence v = 2.
Proof.
  destruct (writer_commit_accepted id parse_object (λ _ _, true) (λ _ _ _, true) (head_at 2 100) binding server_head
    (built (nodes_of [x00; x01])) Content.Incident stop (proof_for Finalize None) 60 (selection (Some [x11]) 2) plan [x0a] request entry)
    as (v & Hv & Hq & _); try done.
  - split; cbn; [|done..]. intros c [= <-]. eexists. split; [by left|done].
  - repeat constructor; eexists; split_and!; done.
  - exists v. split; [exact Hv|exact Hq].
Defined.

Lemma finalized_entry_extends_chain_witness :
  ∃ c, build_chain [x07] (nodes_of [x00; x01] ++ [chain_node EntryPackage (ep_manifest (value entry)) [x13] [x13]]) = Ok c ∧
    is_fully_verified c = true.
Proof.
  destruct (finalized_entry_extends_chain (head_at 2 100) binding (nodes_of [x00; x01]) (built (nodes_of [x00; x01]))
    Content.Incident stop (proof_for Finalize None) 60 (selection (Some [x11]) 2) plan [x0a] [x13] [x13]) as (c & Hc & Hf & _);
    try done.
  - repeat (constructor; [split; vm_compute; discriminate|]). constructor.
  - intros a c Ha Hc. apply elem_of_cons in Ha as [Ha|Ha%list_elem_of_singleton], Hc as [Hc|Hc%list_elem_of_singleton];
      subst a c; done.
  - exists c. split; [exact Hc|exact Hf].
Defined.

(** Under an expired head the acknowledgement is used up. *)
Lemma stale_head_needs_acknowledgement_witness :
  let ack := {| ak_event := [x21]; ak_exact := [x22]; ak_proof := proof_for RegistryStaleFinalize (Some [x55]); ak_at := 70 |} in
  let p := {| pv_hash := [x55]; pv_decision := StaleAcknowledgeable; pv_trust_age_ms := 0; pv_refresh_ms := 0 |} in
  let t := {| st_receipts := {[ [x21] := [x22] ]}; st_consumed := ∅ |} in
  ∃ t', confirm (head_at 2 60) binding (preview_of (head_at 2 60) [x55] 80) (Run.WithStale p ack None)
          (proof_for Finalize None) 80 (Some t) = Ok (Some t', true) ∧ [x21] ∈ st_consumed t'.
Proof.
  intros ack p t. set (r := confirm _ _ _ _ _ _ _).
  assert (match r with Ok (_, true) => true | _ => false end = true) as Hr by (vm_compute; reflexivity).
  destruct r as [[store []]|e] eqn:E; [|done..]. unfold r in E.
  destruct (stale_head_needs_acknowledgement _ _ _ _ _ _ _ _ E) as [(H & _)|(_ & _ & _ & p' & ack' & f & t' & Hs & Ht & H)].
  - vm_compute in H. contradiction.
  - injection Hs as <- <- <-. injection Ht as <-. destruct H as (_ & _ & _ & _ & _ & _ & _ & _ & ->).
    eexists. split; [reflexivity|]. cbn [st_consumed ak_event ack]. set_solver.
Defined.

(** ** An archive with a fork *)

(** A place that a fork has made disputed is taken again: the verified head ends
    below it, and nothing else of the chain is looked at. *)
Theorem writer_adds_to_a_fork :
  ∃ chain s, first_steps id parse_blob (head_at 1 100) binding forked [] Content.Incident stop (proof_for Finalize None) 60
               = Ok (Selected chain s) ∧
    (∃ a b, a ∈ nodes chain ∧ b ∈ nodes chain ∧ a ≠ b ∧ chain_sequence a = se_sequence s ∧ chain_sequence b = se_sequence s) ∧
    is_fully_verified chain = false.
Proof.
  exists (built (nodes_of [x00; x01; x02])), (selection (Some [x10]) 1). split; [vm_compute; reflexivity|]. split; [|vm_compute; reflexivity].
  exists (chain_node EntryPackage (manifest 1 (Some [x10])) [x11] (blob x01)), (chain_node EntryPackage (manifest 1 (Some [x10])) [x12] (blob x02)).
  split_and!; try done; apply (bool_decide_unpack _); vm_compute; exact I.
Qed.
